(* ===== verification/_CoqProject ===== *)
-Q . S2P
Prelude.v
RustOrd.v
RustFloat.v
RustStr.v
Model.v
Trace.v
Incremental.v
RouteShape.v
Authority.v
RouteIndex.v
RouteLinker.v
ManualLinks.v
Impact.v
ImpactRisk.v
FloatMono.v
Query.v
Compat.v
CompatProto.v
CompatGraphql.v
CompatEvent.v
CompatHttp.v
CompatPackage.v
CompatDatabase.v
CompatReport.v
Communities.v
Clustering.v
CommunityReport.v
CommunityDelta.v
ComponentSearch.v
CommunityGraph.v
CommunityCorrect.v
Search.v
Traversal.v
TraversalSpec.v
TraversalCorrect.v
Method.v
CanonicalText.v
Budget.v
Batch.v
ExecPolicy.v
WatcherLease.v
WorkCache.v
EventDelivery.v
GraphFacts.v
GraphqlGraph.v
ProtobufGraph.v
PackageGraph.v
EventGraph.v
Parallel.v
Routing.v
IgnorePolicy.v
Discovery.v
Manifest.v
RepoConfig.v
RustBytes.v
ChangeSet.v
GitDiff.v
GitFormat.v
GitProvider.v
ChangeAnalysis.v
RustText.v
SafeConfig.v
SafeJson.v
SafeToml.v
SafeYaml.v
SafeExtract.v
FloatText.v
TextEscape.v
Interface.v
Doctor.v
GraphExport.v
ContractInspect.v
Corroboration.v
Registry.v
WorkspaceStatus.v
