(* ===== verification/Prelude.v ===== *)
(** * Code System Graph: verification library

    Code System Graph federates the graphs of several repositories: extractors
    produce nodes and edges, the linker joins them across repositories, and
    queries answer over the joined graph. This library models the decision logic
    of [crates/code-system-graph-core] and the domain types of
    [crates/code-system-graph-model], and proves what each part promises.

    ** Layout

    - [Prelude]: results ([let?], [check?], [try_fold] for [?] inside loops),
      saturating [usize] arithmetic, slices, hint database [csg].
    - [RustOrd]: [Ord] and [sort_by], [dedup], [BTreeMap] and [BTreeSet] as
      [gmap] and [gset] visited in key order. [RustFloat]: [f32] and [f64] on
      [spec_float] at their precision, with Rust's [min], [max], [clamp] and
      comparisons. [RustStr]: the [str] methods the code calls, on bytes.
    - [Model] ([model/src/lib.rs]): identifiers, nodes, edges, evidence,
      fingerprints, decisions, reports. [stable_id] takes the BLAKE3 digest as a
      class parameter, about which nothing is assumed.
    - [Trace] ([trace.rs]): [FederatedGraph::new] is [new], [trace] is [trace];
      the queue, the visited set and the parents of the search are [BfsState].
    - [Incremental] ([incremental.rs]): [plan_incremental_scan].
    - [RouteShape], [Authority], [RouteIndex], [RouteLinker] ([routes.rs],
      with the boundary types of [http.rs], the declared tests and
      implementations of [test_links.rs] and the ambiguities of [linker.rs]):
      route templates, hosts, the provider trie, and the linker, whose mutable
      [LinkSink] is threaded as a record.
    - [ManualLinks] ([linker.rs], [manifest.rs]): declarations, their
      validation, and their application to the automatic edges.
    - [Impact], [ImpactRisk] ([impact.rs]): validation, propagation (the state of
      the loop is [Propagation]), aggregates, coverage, risk and the analysis.

    - [Query], [Search] ([query.rs]): requests and ranked search; the character
      tables of the standard library are the class [CharTables].
    - [Traversal], [TraversalSpec], [TraversalCorrect] ([query.rs]): neighbours
      and bounded traversal with pages and a deadline; the clock is a parameter.
      [FloatMono] has the facts on [f32] products that ordering by score needs.
    - [Compat], [CompatProto], [CompatGraphql], [CompatEvent], [CompatHttp],
      [CompatPackage], [CompatDatabase], [CompatReport]
      ([contract_compatibility.rs]): one file per protocol compares two versions
      of a contract, [CompatReport] collects the reports; fingerprints are a
      parameter.
    - [Communities] (scope, validation, the graph, components), [Clustering]
      (label propagation and Louvain), [CommunityReport] (ranks, labels and
      metrics), [CommunityDelta] (comparison of snapshots), all of
      [communities.rs]; [ComponentSearch], [CommunityGraph] and
      [CommunityCorrect] hold their proofs. BLAKE3 is the class [Blake3], the
      word tables of the labels the class [TextTables].

    - [Method]: methods that take [&mut self] and return a [Result], as functions
      on the state and its failure. [CanonicalText]: the texts that are hashed
      into fingerprints, [canonical_text].
    - [Budget] ([extraction_budget.rs]): budgets, their resolution, the tracker
      that charges them and the writer that bounds a serialisation. [Batch]
      ([batch.rs]): a stored batch of extracted facts, over a class of JSON codecs.
    - [ExecPolicy] ([execution_policy.rs], [tracker.rs] of the command line):
      execution limits, their fingerprint, and the watchdog of a job.
    - [WorkCache], [WatcherLease] ([work_state.rs]): the side database of the
      command line, one map per table and one [method] per transaction.
    - [EventDelivery] (first half of [event_graph.rs]): the deliveries between
      repositories that an event graph implies, with limits and cancellation.
    - [GraphFacts]: what the builders of contract graphs share: batches of facts,
      their final sorting and deduplication, stable nodes and edges, and what it
      means that a batch is well formed. [GraphqlGraph], [ProtobufGraph],
      [PackageGraph], [EventGraph] ([graphql_graph.rs], [protobuf_graph.rs],
      [package_graph.rs], [event_graph.rs]): from documents to facts.
    - [Parallel] ([parallel.rs]): [map_ordered], a pool of workers as a
      transition system of atomic steps. [Routing] (the hooks' [routing.rs] and
      [main.rs]): which guidance a prompt gets, and when it is repeated.
    - [IgnorePolicy] ([ignore_policy.rs]): patterns, their validation, and what a
      policy excludes. [Discovery] (the walk of [ignore_policy.rs] and the watch
      targets of the command line's [sync.rs]): which files of a checkout are
      found. [Manifest] ([manifest.rs]): workspace manifests. [RepoConfig]
      ([config.rs]): layers of configuration and the detection of OpenAPI files.
    - [RustBytes]: UTF-8 as the standard library checks and repairs it.
      [ChangeSet], [GitDiff], [GitProvider] ([changes.rs]): change sets, their
      validity and the commit gate; the readers of Git's output; the provider,
      whose steps leave the commands they ran. [GitFormat] prints what Git
      reports, as the reference for the readers.
    - [ChangeAnalysis] ([change_analysis.rs]): from changed files to evidence,
      nodes, contract deltas and impacts, and what may be concluded.
    - [RustText]: trimming, lines and words. [SafeConfig], [SafeJson], [SafeToml],
      [SafeYaml], [SafeExtract] ([secret_safety.rs]): the names, references and
      the collector with dotenv files; one file per other format; the extraction.
      The state of the JSON parser is the unread rest with the position.
    - [Interface] (shared parts of [interfaces.rs]): errors with their exit codes,
      indexes, pages, evidence, the catalogue of schemas. [Doctor]: the health
      report. [FloatText], [TextEscape], [GraphExport]: how an [f32] and a text are
      printed, and the export. [ContractInspect] ([interfaces/contracts.rs]): the
      five operations on contracts. Of the command line, the commands over these.
    - [Corroboration] ([corroboration.rs], with the boundary types of
      [provider.rs]): anchors asked at a local provider, the class [Provider] of
      the operations that are called.
    - [Registry] ([registry.rs]): registration of the repositories of a manifest;
      Git and the file system are the class [Host], URLs the class [UrlParser].
    - [WorkspaceStatus] (freshness in [publication.rs] and in [lib.rs] of the
      command line): what a publication records, and what status and doctor say.

    [WorkspaceStatus] reads the records of [Registry] and reports through [Doctor];
    [GraphExport] and [ContractInspect] use [Interface], the latter the reports of [Compat].
    [RouteLinker] calls [RouteIndex] and [Authority], which call [RouteShape];
    [ChangeAnalysis] calls [ImpactRisk], which calls [Impact]; [Search] and [Traversal] use [Query];
    [CommunityReport] calls [Clustering], which calls [Communities];
    [Budget], [ExecPolicy], [WorkCache] and [WatcherLease] are written with
    [Method], and the fingerprints of the first two with [CanonicalText]. Nodes
    and edges of [Model] are shared by all.

    ** What is proved

    - Trace: construction is exact; searches terminate and their inconsistent
      path error is unreachable; a found path is real and shortest, over edges of
      any status; an untruncated gap means that there is no path.
    - Incremental plans: exactly the changed keys, independent of enumeration
      order.
    - Routes: the canonical route is a faithful key; the leftmost search for
      mixed segments decides exactly the denoted texts; the trie answers as a
      search of all providers by specificity; authorities resolve as declared.
    - Linker: every call is counted once and every gap and ambiguity reported, edges
      are exactly the resolved links, scopes are respected.
    - Manual links: accepted exactly when valid and applicable, then with exactly
      the declared effect, whatever the order of the inputs.
    - Impact: validation is exact; propagation terminates, is sound, and in one
      direction is complete and optimal; a score is only given for fully covered
      inputs, beyond the page that is shown; critical risk is explicit; pages, buckets and aggregates are exact.
    - Queries: search pages are the ranked matches; a traversal answers exactly
      what is reachable within its bounds, and says when it stopped early.
    - Contract compatibility: each protocol reports exactly the breaking changes
      of its rules on contracts that declare nothing twice (protobuf misses none on
      any); reports are bounded and sorted.
    - Communities: a partition of the scope, whose components are exactly
      connectivity; the tables of Louvain stay consistent while nodes move; the
      analysis does not depend on the order of its input.
    - Budgets: a run of charges is accepted exactly when every counter ends within
      its budget, and is stopped soon after its deadline; the fingerprint of a
      policy or of budgets separates different values.
    - Batches and the side database: what is loaded is what was stored under the
      same key and integrity digest; a cache stays within its quota; an identity
      is bound to one graph database; at most one watcher holds a lease, and a
      lease whose process is gone can be taken over.
    - Contract graphs: well formed, with exactly the edges that the documents
      imply; several candidates link nothing. Deliveries are exact within the
      limit, under any cancellation.
    - Parallel mapping returns the results in item order under every
      interleaving, and every interleaving ends. Guidance is given once per
      session and time to live.
    - Ignore policies: a policy is accepted exactly when its patterns are valid;
      discovery finds exactly the files that the policy lets through; a manifest
      is accepted exactly when it is valid; fingerprints separate configurations.
    - Change sets: what Git reports is read back exactly but for the lines and headers
      that the reader mistakes, every output is read to
      an end; collecting only runs commands that read; a change set is valid
      exactly when collecting again gives the same one; the gate selects exactly
      what the modelled commit takes.
    - Change analysis: a file is mapped to exactly the evidence that its changes
      touch; the conclusion is known exactly with complete coverage.
    - Secret safety: JSON and dotenv files are read as exactly their keys, key
      paths of TOML are read back, and every extraction keeps its limits.
    - Export, contracts and health: an export is exactly the first nodes with the
      edges between them, escaped texts decode to themselves and stay in their
      cell; a validation is valid exactly when its scope is sound, and complete only
      when it was observed; a health report
      is as bad as its worst observation.
    - Corroboration: only a unique exact match of an available provider confirms.
    - Registry and status: every registered checkout lies in an allowed root;
      remotes of one repository agree; a repository is reported as fresh exactly
      when it is unchanged since the snapshot.

    ** Conventions and bounds

    A [usize] is an [N]; additions that saturate in the code saturate at
    [2^64 - 1] here. Strings are byte strings; properties that depend on the
    decoding of UTF-8 are stated for ASCII. [None] as the result of a loop means
    that the fuel ran out, which is proved impossible for the fuel used: the
    number of nodes plus one for a trace (each turn of the loop dequeues a
    distinct node), the edge limit plus two for impact propagation (each queued
    state was examined within the edge limit) and for traversal, the length of
    the text plus one for mixed segments, the number of nodes plus one for a
    connected component (a node is pushed once). Errors are the constructors of
    the Rust error enums. Confidences are assumed to be proper [f32] values
    where a theorem says so. A cancellation is a function of the number of times
    it was asked, a clock a list of readings, an interleaving the list of the
    workers that act. Where identifiers are digests, exactness is stated for a
    digest that separates the texts that are hashed ([digest_separates]). Glob
    matching, the walk over a directory and YAML decoding are the classes
    [Globset], [Walker] and [Yaml], with the documented behaviour of the
    libraries as their laws. Git is the class [Git], its behaviour at each call.

    ** What is not modelled

    Extractors and parsers of source files, most of the SQLite store and of the
    command line, servers, workers, handles on directories, pull requests,
    the processes of providers and the installation of hooks (input and output or
    libraries). JSON codecs and printers, URL parsing, JSON schemas,
    digests, the identity of processes, readings of the clock and the range of
    [Instant] are parameters or arguments. The statements of SQL are written as
    what they do to the rows of a table, a failed transaction rolls back, and
    failures of SQLite or of the file system itself are left out. *)
From stdpp Require Import base gmap sets list strings pretty sorting.
From Stdlib Require Import SpecFloat.

#[global] Open Scope string_scope.
#[global] Open Scope list_scope.

(** ** Results

    Fallible Rust functions return [Result<T, E>]; [?] is the bind. *)
Inductive result (E A : Type) : Type :=
| Ok (value : A)
| Err (error : E).
Arguments Ok {E A} value.
Arguments Err {E A} error.

Definition result_bind {E A B} (r : result E A) (f : A → result E B) : result E B :=
  match r with
  | Ok a => f a
  | Err e => Err e
  end.

Declare Scope rust_scope.
Delimit Scope rust_scope with rust.
Notation "'let?' x := c1 'in' c2" := (result_bind c1 (λ x, c2))
  (at level 200, x binder, c1 at level 100, c2 at level 200, right associativity) : rust_scope.
Notation "'check?' c1 'in' c2" := (result_bind c1 (λ _, c2))
  (at level 200, c1 at level 100, c2 at level 200, right associativity) : rust_scope.
#[global] Open Scope rust_scope.

Definition is_ok {E A} (r : result E A) : bool :=
  match r with Ok _ => true | Err _ => false end.

(** [ok_or]: an option turned into a result. *)
Definition ok_or {E A} (o : option A) (e : E) : result E A :=
  match o with Some a => Ok a | None => Err e end.

Lemma result_bind_Ok {E A B} (r : result E A) (f : A → result E B) b :
  result_bind r f = Ok b ↔ ∃ a, r = Ok a ∧ f a = Ok b.
Proof.
  destruct r; simpl; split; [by eauto|by intros (? & [= ->] & ?)|done|by intros (? & ? & ?)].
Qed.

Lemma check_Ok {E B} (r : result E unit) (k : result E B) b :
  (check? r in k) = Ok b ↔ r = Ok tt ∧ k = Ok b.
Proof. destruct r as [[]|]; simpl; naive_solver. Qed.

Lemma result_bind_Err {E A B} (r : result E A) (f : A → result E B) e :
  result_bind r f = Err e ↔ r = Err e ∨ ∃ a, r = Ok a ∧ f a = Err e.
Proof.
  destruct r; simpl; split; [by eauto|by intros [|(? & [= ->] & ?)]|by intros [= ->]; left|].
  by intros [[= ->]|(? & ? & ?)].
Qed.

Lemma ok_or_Ok {E A} (o : option A) (e : E) a : ok_or o e = Ok a ↔ o = Some a.
Proof. destruct o; simpl; split; congruence. Qed.

(** A loop whose body can fail: [for x in xs { ...? }] threading a state. *)
Fixpoint try_fold {E A S} (f : S → A → result E S) (s : S) (xs : list A) : result E S :=
  match xs with
  | [] => Ok s
  | x :: xs => let? s' := f s x in try_fold f s' xs
  end.

Lemma try_fold_app {E A S} (f : S → A → result E S) s xs ys :
  try_fold f s (xs ++ ys) = let? s' := try_fold f s xs in try_fold f s' ys.
Proof.
  revert s. induction xs as [|x xs IH]; intros s; simpl; [done|].
  destruct (f s x); simpl; auto.
Qed.

(** A loop in the body of a loop is one loop over the pairs. *)
Lemma try_fold_concat {E A B S} (f : S → B → result E S) (h : A → list B) s xs :
  try_fold (λ s x, try_fold f s (h x)) s xs = try_fold f s (concat (map h xs)).
Proof.
  revert s. induction xs as [|x xs IH]; intros s; simpl; [done|].
  rewrite try_fold_app. destruct (try_fold f s (h x)); simpl; auto.
Qed.

Lemma try_fold_map {E A B S} (f : S → B → result E S) (h : A → B) s xs :
  try_fold f s (map h xs) = try_fold (λ s x, f s (h x)) s xs.
Proof.
  revert s. induction xs as [|x xs IH]; intros s; simpl; [done|]. destruct (f s (h x)); simpl; auto.
Qed.

Lemma try_fold_ext {E A S} (f g : S → A → result E S) s xs :
  (∀ s x, f s x = g s x) → try_fold f s xs = try_fold g s xs.
Proof.
  intros Hfg. revert s. induction xs as [|x xs IH]; intros s; simpl; [done|]. rewrite Hfg.
  destruct (g s x); simpl; auto.
Qed.

(** An invariant of a fallible loop: it holds for every prefix processed. *)
Lemma try_fold_invariant {E A S} (I : list A → S → Prop) (f : S → A → result E S) s xs s' :
  I [] s →
  (∀ done x t t', I done t → f t x = Ok t' → x ∈ xs → I (done ++ [x]) t') →
  try_fold f s xs = Ok s' → I xs s'.
Proof.
  intros H0 Hstep.
  assert (Hgen : ∀ done s, I done s → (∀ x, x ∈ xs → x ∈ xs) →
    ∀ ys, (∀ x, x ∈ ys → x ∈ xs) → try_fold f s ys = Ok s' → I (done ++ ys) s').
  { intros done t Ht _ ys. revert done t Ht.
    induction ys as [|y ys IH]; intros done t Ht Hys; simpl.
    - intros [= <-]. by rewrite app_nil_r.
    - rewrite result_bind_Ok. intros (t' & Hf & Hrest).
      replace (done ++ y :: ys) with ((done ++ [y]) ++ ys) by (by rewrite <- app_assoc).
      eapply IH; [|set_solver|done]. eapply Hstep; [done..|set_solver]. }
  intros Hrun. by apply (Hgen [] s H0 (λ _ H, H) xs (λ _ H, H)).
Qed.

(** [.map(f).collect::<Result<Vec<_>, _>>()] *)
Fixpoint try_map {E A B} (f : A → result E B) (xs : list A) : result E (list B) :=
  match xs with
  | [] => Ok []
  | x :: xs => let? y := f x in let? ys := try_map f xs in Ok (y :: ys)
  end.

Lemma try_map_Ok {E A B} (f : A → result E B) xs ys :
  try_map f xs = Ok ys ↔ Forall2 (λ x y, f x = Ok y) xs ys.
Proof.
  revert ys. induction xs as [|x xs IH]; intros ys; simpl.
  - split; [by intros [= <-]|by intros ->%Forall2_nil_inv_l].
  - rewrite result_bind_Ok. setoid_rewrite result_bind_Ok. split.
    + intros (y & Hy & zs & Hzs%IH & [= <-]). by constructor.
    + intros (y & zs & Hy & Hzs%IH & ->)%Forall2_cons_inv_l. eauto.
Qed.

(** A fallible loop fails at the first item whose body fails. *)
Lemma try_fold_Err {E A S} (f : S → A → result E S) s xs e :
  try_fold f s xs = Err e ↔
  ∃ pre x post s', xs = pre ++ x :: post ∧ try_fold f s pre = Ok s' ∧ f s' x = Err e.
Proof.
  split.
  - revert s. induction xs as [|x xs IH]; intros s; simpl; [done|].
    destruct (f s x) as [s1|e1] eqn:Ef; simpl.
    + intros (pre & y & post & s' & -> & Hp & Hy)%IH. exists (x :: pre), y, post, s'. simpl. by rewrite Ef.
    + intros [= ->]. by exists [], x, xs, s.
  - intros (pre & x & post & s' & -> & Hp & Hx). rewrite try_fold_app, Hp. simpl. by rewrite Hx.
Qed.

(** ** Machine integers

    [usize] and [u64] are 64-bit on every supported target. *)
Definition usize_max : N := 18446744073709551615%N.
Definition saturating_add (a b : N) : N := N.min (a + b) usize_max.

Lemma saturating_add_small a b : (a + b ≤ usize_max)%N → saturating_add a b = (a + b)%N.
Proof. unfold saturating_add. lia. Qed.

Lemma saturating_add_le a b : (saturating_add a b ≤ a + b)%N.
Proof. unfold saturating_add. lia. Qed.

Lemma saturating_add_ge a b : (a ≤ usize_max)%N → (a ≤ saturating_add a b)%N.
Proof. unfold saturating_add. lia. Qed.

(** The length of a vector as a [usize]. *)
Definition len {A} (l : list A) : N := N.of_nat (length l).

Lemma len_app {A} (l k : list A) : len (l ++ k) = (len l + len k)%N.
Proof. unfold len. rewrite length_app. lia. Qed.

Lemma len_cons {A} (x : A) l : len (x :: l) = (1 + len l)%N.
Proof. unfold len. simpl. lia. Qed.

Lemma len_nil {A} : len (@nil A) = 0%N.
Proof. done. Qed.

(** [iter().skip(offset).take(limit)] for [usize] bounds. *)
Definition skip_take {A} (offset limit : N) (l : list A) : list A :=
  take (N.to_nat limit) (drop (N.to_nat offset) l).

(** ** Optional values *)
Definition is_some {A} (o : option A) : bool := match o with Some _ => true | None => false end.
Definition is_some_and {A} (o : option A) (f : A → bool) : bool :=
  match o with Some a => f a | None => false end.
Definition is_none_or {A} (o : option A) (f : A → bool) : bool :=
  match o with Some a => f a | None => true end.

(** [is_empty] of a vector. *)
Definition is_empty_list {A} (l : list A) : bool := match l with [] => true | _ => false end.

Lemma is_empty_list_true {A} (l : list A) : is_empty_list l = true ↔ l = [].
Proof. by destruct l. Qed.

(** ** Generic list lemmas *)
Lemma Forall_snoc {A} (P : A → Prop) l x : Forall P (l ++ [x]) ↔ Forall P l ∧ P x.
Proof. rewrite Forall_app, Forall_singleton. done. Qed.

Lemma NoDup_map_inj {A B} (f : A → B) l x y :
  NoDup (map f l) → x ∈ l → y ∈ l → f x = f y → x = y.
Proof.
  intros Hnd [i Hi]%list_elem_of_lookup [j Hj]%list_elem_of_lookup E.
  enough (i = j) as -> by congruence.
  apply (NoDup_lookup (map f l) i j (f x) Hnd); [|rewrite E]; by apply (list_lookup_fmap_Some_2 f).
Qed.

Lemma existsb_In {A} (f : A → bool) l : existsb f l = true ↔ ∃ x, x ∈ l ∧ f x = true.
Proof.
  rewrite existsb_exists. split; intros (x & Hx & Hf); exists x; split; auto;
    by apply list_elem_of_In.
Qed.

Lemma existsb_false_In {A} (f : A → bool) l : existsb f l = false ↔ ∀ x, x ∈ l → f x = false.
Proof.
  split.
  - intros H x Hx. destruct (f x) eqn:E; [|done].
    enough (existsb f l = true) by congruence. apply existsb_In. eauto.
  - intros H. destruct (existsb f l) eqn:E; [|done].
    apply existsb_In in E as (x & Hx & E). rewrite H in E; done.
Qed.

Lemma forallb_In {A} (f : A → bool) l : forallb f l = true ↔ ∀ x, x ∈ l → f x = true.
Proof.
  rewrite forallb_forall. split; intros H x Hx; apply H; by apply list_elem_of_In.
Qed.

Lemma list_filter_In {A} (f : A → bool) (l : list A) x :
  x ∈ List.filter f l ↔ x ∈ l ∧ f x = true.
Proof. rewrite !list_elem_of_In. apply filter_In. Qed.

Lemma filter_all {A} (f : A → bool) l : Forall (λ x, f x = true) l → List.filter f l = l.
Proof. induction 1 as [|x l Hx _ IH]; simpl; [done|]. by rewrite Hx, IH. Qed.

Lemma filter_perm {A} (f : A → bool) l k : l ≡ₚ k → List.filter f l ≡ₚ List.filter f k.
Proof.
  induction 1; simpl; [done| | |by etrans].
  - by case_match; [constructor|].
  - repeat case_match; by try constructor.
Qed.

(** A loop that pushes onto a vector. *)
Lemma fold_append {A B} (step : list B → A → list B) (pushed : A → list B) output l :
  (∀ output x, step output x = output ++ pushed x) → foldl step output l = output ++ concat (map pushed l).
Proof.
  intros Hstep. revert output. induction l as [|x l IH]; intros output; simpl; [by rewrite app_nil_r|].
  rewrite IH, Hstep. by rewrite <-app_assoc.
Qed.

Lemma concat_singletons {A B} (f : A → B) l : concat (map (λ x, [f x]) l) = map f l.
Proof. induction l as [|x l IH]; simpl; [done|]. by rewrite IH. Qed.

Lemma fold_push {A B} (f : A → B) output l : foldl (λ output x, output ++ [f x]) output l = output ++ map f l.
Proof. rewrite (fold_append _ (λ x, [f x])) by done. by rewrite concat_singletons. Qed.

Lemma concat_map_In {A B} (f : A → list B) l y : y ∈ concat (map f l) ↔ ∃ x, x ∈ l ∧ y ∈ f x.
Proof.
  rewrite list_elem_of_In, in_concat. split.
  - intros (k & (x & <- & Hx)%in_map_iff & Hy). exists x. by rewrite !list_elem_of_In.
  - intros (x & Hx & Hy). exists (f x). rewrite in_map_iff, <-list_elem_of_In. split; [|done].
    exists x. by rewrite <-list_elem_of_In.
Qed.

(** Case analysis on the boolean tests and matches of a handler. *)
Ltac case_if :=
  match goal with
  | |- context [if ?b then _ else _] => destruct b eqn:?
  | H : context [if ?b then _ else _] |- _ => destruct b eqn:?
  end.

Ltac invert_ok :=
  repeat match goal with
  | H : Ok _ = Ok _ |- _ => injection H as H; subst
  | H : Err _ = Ok _ |- _ => discriminate H
  | H : Ok _ = Err _ |- _ => discriminate H
  | H : Err _ = Err _ |- _ => injection H as H; subst
  end.

Create HintDb csg discriminated.
#[export] Hint Resolve saturating_add_le : csg.
#[export] Hint Rewrite @len_app @len_cons @len_nil : csg.
