(* ===== verification/RustOrd.v ===== *)
(** * Ordering: [std::cmp::Ord], stable sorting and ordered collections

    [Ord] as a type class with its laws, the comparators built with
    [Ordering::then_with], the stable [slice::sort_by], [Vec::dedup], and the
    key order in which [BTreeMap] and [BTreeSet] iterate. *)
From stdpp Require Import base gmap sets list strings sorting.
From S2P Require Import Prelude.

(** ** Comparators *)
Class Ord (A : Type) := cmp : A → A → comparison.

(** A comparator that is a total preorder (what [sort_by] needs). *)
Class LawfulCmp {A} (c : A → A → comparison) : Prop := {
  cmp_antisym : ∀ x y, c y x = CompOpp (c x y);
  cmp_trans : ∀ x y z, c x y ≠ Gt → c y z ≠ Gt → c x z ≠ Gt;
}.

(** A total order: only equal values compare equal. *)
Class TotalOrd (A : Type) `{Ord A} : Prop := {
  total_lawful :: LawfulCmp (cmp (A:=A));
  cmp_eq : ∀ x y : A, cmp x y = Eq → x = y;
}.

Lemma cmp_refl {A} (c : A → A → comparison) `{!LawfulCmp c} x : c x x = Eq.
Proof. pose proof (cmp_antisym x x). by destruct (c x x). Qed.

Lemma cmp_eq_iff {A} `{TotalOrd A} (x y : A) : cmp x y = Eq ↔ x = y.
Proof. split; [apply cmp_eq | intros ->; apply cmp_refl, _]. Qed.

(** [Ordering::then_with] on comparators. *)
Definition then_with {A} (c1 c2 : A → A → comparison) (x y : A) : comparison :=
  match c1 x y with Eq => c2 x y | o => o end.
(** [f(left).cmp(&f(right))]. *)
Definition cmp_on {A B} (f : A → B) (c : B → B → comparison) (x y : A) : comparison :=
  c (f x) (f y).

#[export] Instance cmp_on_lawful {A B} (f : A → B) c `{!LawfulCmp c} : LawfulCmp (cmp_on f c).
Proof.
  split; unfold cmp_on; intros.
  - apply cmp_antisym.
  - by eapply cmp_trans.
Qed.

Lemma cmp_eq_l {A} (c : A → A → comparison) `{!LawfulCmp c} x y z : c x y = Eq → c x z = c y z.
Proof.
  intros E.
  assert (Eyx : c y x = Eq) by (rewrite cmp_antisym, E; done).
  pose proof (cmp_trans (c:=c) x y z) as T1. pose proof (cmp_trans (c:=c) y x z) as T2.
  pose proof (cmp_trans (c:=c) z x y) as T3. pose proof (cmp_trans (c:=c) z y x) as T4.
  rewrite (cmp_antisym (c:=c) x z) in T3, T4. rewrite (cmp_antisym (c:=c) y z) in T3, T4.
  rewrite E in *. rewrite Eyx in *.
  destruct (c x z), (c y z); simpl in *; try done; exfalso;
    solve [ by apply T1 | by apply T2 | by apply T3 | by apply T4 ].
Qed.

#[export] Instance then_with_lawful {A} (c1 c2 : A → A → comparison)
  `{!LawfulCmp c1, !LawfulCmp c2} : LawfulCmp (then_with c1 c2).
Proof.
  split; unfold then_with.
  - intros x y. rewrite (cmp_antisym (c:=c1)), (cmp_antisym (c:=c2)).
    by destruct (c1 x y).
  - intros x y z Hxy Hyz.
    destruct (c1 x y) eqn:E1; [|destruct (c1 y z) eqn:E2|done].
    + rewrite (cmp_eq_l c1 x y z E1). destruct (c1 y z); [|done|done].
      by eapply cmp_trans.
    + assert (c1 x z = Lt) as ->; [|done].
      assert (c1 z y = Eq) by (rewrite cmp_antisym, E2; done).
      rewrite (cmp_antisym z x), (cmp_eq_l c1 z y x), (cmp_antisym x y), E1; done.
    + assert (Hle : c1 x z ≠ Gt) by (eapply (cmp_trans (c:=c1) x y z); congruence).
      destruct (c1 x z) eqn:E3; [|done|done].
      rewrite (cmp_eq_l c1 x z y E3), (cmp_antisym y z), E2 in E1. done.
    + done.
Qed.

(** ** Orders of the types the program compares *)
#[export] Instance string_ord : Ord string := String.compare.
#[export] Instance N_ord : Ord N := N.compare.
#[export] Instance nat_ord : Ord nat := Nat.compare.
#[export] Instance Z_ord : Ord Z := Z.compare.
#[export] Instance bool_ord : Ord bool := λ x y,
  match x, y with
  | false, true => Lt
  | true, false => Gt
  | _, _ => Eq
  end.
#[export] Instance option_ord {A} `{Ord A} : Ord (option A) := λ x y,
  match x, y with
  | None, None => Eq
  | None, Some _ => Lt
  | Some _, None => Gt
  | Some a, Some b => cmp a b
  end.
#[export] Instance prod_ord {A B} `{Ord A, Ord B} : Ord (A * B) := λ x y,
  match cmp x.1 y.1 with Eq => cmp x.2 y.2 | o => o end.
Fixpoint list_cmp {A} (c : A → A → comparison) (x y : list A) : comparison :=
  match x, y with
  | [], [] => Eq
  | [], _ :: _ => Lt
  | _ :: _, [] => Gt
  | a :: x', b :: y' => match c a b with Eq => list_cmp c x' y' | o => o end
  end.
#[export] Instance list_ord {A} `{Ord A} : Ord (list A) := list_cmp cmp.

Lemma string_le_compare s t : String.le s t ↔ cmp s t ≠ Gt.
Proof.
  unfold String.le, String.leb, cmp, string_ord.
  destruct (String.compare s t); simpl; split; intros; try done.
Qed.

#[export] Instance string_total : TotalOrd string.
Proof.
  split; [split|].
  - intros x y. apply String.compare_antisym.
  - intros x y z. rewrite <-!string_le_compare. by etrans.
  - intros x y. apply String.compare_eq_iff.
Qed.

#[export] Instance N_total : TotalOrd N.
Proof.
  split; [split|]; unfold cmp, N_ord.
  - intros x y. apply N.compare_antisym.
  - intros x y z. rewrite !N.compare_ngt_iff. lia.
  - intros x y. apply N.compare_eq_iff.
Qed.

#[export] Instance Z_total : TotalOrd Z.
Proof.
  split; [split|].
  - apply Z.compare_antisym.
  - intros x y z Hxy Hyz. by apply Z.compare_le_iff; etrans; apply Z.compare_le_iff.
  - apply Z.compare_eq.
Qed.

#[export] Instance nat_total : TotalOrd nat.
Proof.
  split; [split|]; unfold cmp, nat_ord.
  - intros x y. apply Nat.compare_antisym.
  - intros x y z. rewrite !Nat.compare_ngt_iff. lia.
  - intros x y. apply Nat.compare_eq_iff.
Qed.

#[export] Instance bool_total : TotalOrd bool.
Proof.
  split; [split|].
  - by intros [] [].
  - by intros [] [] [].
  - by intros [] [].
Qed.

#[export] Instance option_total {A} `{TotalOrd A} : TotalOrd (option A).
Proof.
  split; [split|]; unfold cmp, option_ord.
  - intros [x|] [y|]; simpl; try done. apply cmp_antisym.
  - intros [x|] [y|] [z|]; simpl; try done. apply cmp_trans.
  - intros [x|] [y|]; simpl; try done. intros ?%cmp_eq. by subst.
Qed.

#[export] Instance list_total {A} `{TotalOrd A} : TotalOrd (list A).
Proof.
  split; [split|]; unfold cmp, list_ord.
  - induction x as [|a x IH]; intros [|b y]; simpl; try done.
    rewrite (cmp_antisym a b). destruct (cmp a b); simpl; done.
  - induction x as [|a x IH]; intros [|b y] [|c z]; simpl; try done.
    intros Hxy Hyz.
    destruct (cmp a b) eqn:E1; [|destruct (cmp b c) eqn:E2|done].
    + apply cmp_eq in E1 as ->. destruct (cmp b c); try done. by eapply IH.
    + apply cmp_eq in E2 as ->. by rewrite E1.
    + pose proof (cmp_trans (c:=cmp) a b c) as T. rewrite E1, E2 in T.
      destruct (cmp a c) eqn:E3; [|done|by apply T].
      apply cmp_eq in E3 as ->. rewrite (cmp_antisym c b), E1 in E2. done.
    + done.
  - induction x as [|a x IH]; intros [|b y]; simpl; try done.
    destruct (cmp a b) eqn:E; try done. apply cmp_eq in E as ->.
    intros ?%IH. by subst.
Qed.

#[export] Instance prod_total {A B} `{TotalOrd A, TotalOrd B} : TotalOrd (A * B).
Proof.
  assert (Hl : LawfulCmp (then_with (cmp_on fst cmp) (cmp_on (@snd A B) cmp))) by apply _.
  split; [exact Hl|].
  intros [a b] [a' b']. unfold cmp, prod_ord; simpl.
  destruct (cmp a a') eqn:E; try done. intros E2.
  apply cmp_eq in E, E2. by subst.
Qed.

(** ** Stable sorting: [slice::sort_by] *)
Section sort.
Context {A : Type} (c : A → A → comparison).

(** Places [x] before the first element it does not exceed, so equal elements
    keep their order when the list is folded from the right. *)
Fixpoint sort_insert (x : A) (l : list A) : list A :=
  match l with
  | [] => [x]
  | y :: l' => match c x y with Gt => y :: sort_insert x l' | _ => x :: l end
  end.

Definition sort_by (l : list A) : list A := foldr sort_insert [] l.

(** [Vec::dedup_by] for an equivalence test: keeps the first of each run. *)
Fixpoint dedup_by (same : A → A → bool) (l : list A) : list A :=
  match l with
  | [] => []
  | x :: l' =>
      match dedup_by same l' with
      | [] => [x]
      | y :: k => if same y x then x :: k else x :: y :: k
      end
  end.

Definition cmp_le (x y : A) : Prop := c x y ≠ Gt.

Lemma sort_insert_perm x l : sort_insert x l ≡ₚ x :: l.
Proof.
  induction l as [|y l IH]; simpl; [done|].
  destruct (c x y); [done|done|]. rewrite IH. constructor.
Qed.

Lemma sort_by_perm l : sort_by l ≡ₚ l.
Proof. induction l as [|x l IH]; simpl; [done|]. by rewrite sort_insert_perm, IH. Qed.

Lemma sort_by_elem_of l x : x ∈ sort_by l ↔ x ∈ l.
Proof. by rewrite sort_by_perm. Qed.

Lemma sort_by_length l : length (sort_by l) = length l.
Proof. by rewrite sort_by_perm. Qed.

Lemma sort_by_NoDup l : NoDup (sort_by l) ↔ NoDup l.
Proof. by rewrite sort_by_perm. Qed.

Context `{!LawfulCmp c}.

Lemma sort_insert_sorted x l : StronglySorted cmp_le l → StronglySorted cmp_le (sort_insert x l).
Proof.
  unfold cmp_le. induction 1 as [|y l Hl IH Hy]; simpl; [repeat constructor|].
  destruct (c x y) eqn:E.
  1,2: constructor; [by constructor|]; constructor; [congruence|];
    eapply Forall_impl; [exact Hy|]; intros z Hz; eapply (cmp_trans (c:=c) x y z); congruence.
  constructor; [done|]. rewrite sort_insert_perm. constructor; [|done].
  rewrite (cmp_antisym (c:=c) x y), E. done.
Qed.

Lemma sort_by_sorted l : StronglySorted cmp_le (sort_by l).
Proof. induction l; simpl; [constructor|by apply sort_insert_sorted]. Qed.

Lemma sort_insert_id x l : Forall (cmp_le x) l → sort_insert x l = x :: l.
Proof. destruct 1 as [|y l Hy]; simpl; [done|]. unfold cmp_le in Hy. by destruct (c x y). Qed.

(** A sorted list is left as it is. *)
Lemma sort_by_id l : StronglySorted cmp_le l → sort_by l = l.
Proof. induction 1 as [|x l Hl IH Hx]; simpl; [done|]. rewrite IH. by apply sort_insert_id. Qed.

Lemma sort_by_idemp l : sort_by (sort_by l) = sort_by l.
Proof. apply sort_by_id, sort_by_sorted. Qed.

(** Two listings of the same elements sort to the same list when the
    comparator separates the elements. *)
Lemma sort_by_perm_eq l k :
  (∀ x y, x ∈ l → y ∈ l → c x y = Eq → x = y) → l ≡ₚ k → sort_by l = sort_by k.
Proof.
  intros Hsep Hlk. apply (StronglySorted_unique_strong cmp_le).
  - intros x y Hx Hy. rewrite sort_by_elem_of in Hx. rewrite sort_by_elem_of, <-Hlk in Hy.
    unfold cmp_le. intros H1 H2. apply Hsep; [done..|].
    rewrite (cmp_antisym (c:=c) x y) in H2. by destruct (c x y).
  - apply sort_by_sorted.
  - apply sort_by_sorted.
  - by rewrite !sort_by_perm.
Qed.
End sort.

(** Sorting commutes with a map that keeps the comparisons. *)
Lemma sort_by_map {A B} (f : A → B) (c : A → A → comparison) (d : B → B → comparison) l :
  (∀ x y, c x y = d (f x) (f y)) → map f (sort_by c l) = sort_by d (map f l).
Proof.
  intros Hcd. induction l as [|x l IH]; simpl; [done|]. rewrite <-IH. generalize (sort_by c l) as k.
  induction k as [|y k IHk]; simpl; [done|]. rewrite Hcd. destruct (d (f x) (f y)); simpl; [done|done|].
  by rewrite IHk.
Qed.

Lemma dedup_by_subset {A} (same : A → A → bool) l x : x ∈ dedup_by same l → x ∈ l.
Proof.
  induction l as [|y l IH]; simpl; [done|].
  destruct (dedup_by same l) as [|z k] eqn:E; [set_solver|].
  destruct (same z y); set_solver.
Qed.

(** A test that holds only of equal items loses none. *)
Lemma dedup_by_elem_of {A} (same : A → A → bool) l x :
  (∀ y z, y ∈ l → z ∈ l → same y z = true → y = z) → x ∈ dedup_by same l ↔ x ∈ l.
Proof.
  intros Hs. split; [apply dedup_by_subset|]. induction l as [|y l IH]; [done|]. intros Hx. simpl.
  assert (IH' : x ∈ l → x ∈ dedup_by same l) by (apply IH; intros; apply Hs; set_solver).
  pose proof (dedup_by_subset same l) as Hsub.
  destruct (dedup_by same l) as [|z k] eqn:E; [set_solver|].
  destruct (same z y) eqn:Ez; [|set_solver].
  assert (z = y) as -> by (apply Hs; [set_solver|set_solver|done]). set_solver.
Qed.

Lemma dedup_equal_elem_of {A} `{EqDecision A} (l : list A) x : x ∈ dedup_by (λ a b, bool_decide (a = b)) l ↔ x ∈ l.
Proof. apply dedup_by_elem_of. intros y z _ _. by rewrite bool_decide_eq_true. Qed.

Lemma dedup_by_sublist {A} (same : A → A → bool) l : dedup_by same l `sublist_of` l.
Proof.
  induction l as [|y l IH]; simpl; [done|]. destruct (dedup_by same l) as [|z k] eqn:E.
  - apply sublist_skip, sublist_nil_l.
  - destruct (same z y); [|by apply sublist_skip].
    apply sublist_skip. etrans; [|exact IH]. by apply sublist_cons.
Qed.

(** Deduplication by an equivalence that the sorting cannot separate. *)
Section dedup_sorted.
Context {A} (c : A → A → comparison) `{!LawfulCmp c} (same : A → A → bool) (Hsame : ∀ x y, same x y = true ↔ c x y = Eq).

Lemma dedup_by_strict l : StronglySorted (cmp_le c) l → StronglySorted (λ x y, c x y = Lt) (dedup_by same l).
Proof using LawfulCmp0 Hsame.
  induction 1 as [|x l Hl IH Hx]; simpl; [constructor|].
  assert (Hsub : ∀ z, z ∈ dedup_by same l → c x z ≠ Gt).
  { intros z Hz%dedup_by_subset. rewrite Forall_forall in Hx. by apply Hx. }
  destruct (dedup_by same l) as [|y k] eqn:E; [repeat constructor|].
  apply StronglySorted_cons in IH as [Hy Hk]. destruct (same y x) eqn:Ey.
  - apply Hsame in Ey. constructor; [done|]. eapply Forall_impl; [exact Hy|]. intros z Hz.
    by rewrite <-(cmp_eq_l c y x z Ey).
  - assert (Hxy : c x y = Lt).
    { specialize (Hsub y ltac:(set_solver)). destruct (c x y) eqn:E2; [|done|done].
      assert (same y x = true); [|congruence]. apply Hsame. by rewrite (cmp_antisym (c:=c) x y), E2. }
    constructor; [by constructor|]. constructor; [done|]. eapply Forall_impl; [exact Hy|]. intros z Hz.
    assert (c x z ≠ Gt) by (eapply (cmp_trans (c:=c) x y z); congruence).
    destruct (c x z) eqn:E3; [|done|done]. rewrite (cmp_eq_l c x z y E3), (cmp_antisym (c:=c) y z), Hz in Hxy. done.
Qed.

Lemma dedup_by_kept l x : x ∈ l → ∃ y, y ∈ dedup_by same l ∧ c y x = Eq.
Proof using LawfulCmp0 Hsame.
  induction l as [|z l IH]; [intros Hx; by apply not_elem_of_nil in Hx|]. intros Hx. simpl.
  destruct (dedup_by same l) as [|y k] eqn:E.
  - apply elem_of_cons in Hx as [->|Hx]; [exists z; split; [by left|by apply cmp_refl]|].
    destruct (IH Hx) as (y & Hy & _). by apply not_elem_of_nil in Hy.
  - destruct (same y z) eqn:Ez.
    + apply elem_of_cons in Hx as [->|Hx]; [exists z; split; [by left|by apply cmp_refl]|].
      destruct (IH Hx) as (w & [->|Hw]%elem_of_cons & Hwx); [|exists w; split; [by right|done]].
      exists z. split; [by left|]. apply Hsame in Ez. by rewrite <-(cmp_eq_l c y z x Ez).
    + apply elem_of_cons in Hx as [->|Hx]; [exists z; split; [by left|by apply cmp_refl]|].
      destruct (IH Hx) as (w & Hw & Hwx). exists w. split; [by right|done].
Qed.
End dedup_sorted.

Section total.
Context {A} `{TotalOrd A}.
Definition eqb_cmp (x y : A) : bool := match cmp x y with Eq => true | _ => false end.

Lemma eqb_cmp_true x y : eqb_cmp x y = true ↔ x = y.
Proof.
  unfold eqb_cmp. destruct (cmp x y) eqn:E.
  - apply cmp_eq in E. done.
  - split; [done|]. intros ->. by rewrite cmp_refl in E by apply total_lawful.
  - split; [done|]. intros ->. by rewrite cmp_refl in E by apply total_lawful.
Qed.

Definition sort : list A → list A := sort_by cmp.
Definition dedup : list A → list A := dedup_by eqb_cmp.
(** [values.sort(); values.dedup();] *)
Definition sorted_unique (l : list A) : list A := dedup (sort l).

Lemma dedup_elem_of l x : x ∈ dedup l ↔ x ∈ l.
Proof.
  unfold dedup. induction l as [|y l IH]; simpl; [done|].
  destruct (dedup_by eqb_cmp l) as [|z k] eqn:E.
  - rewrite list_elem_of_singleton, elem_of_cons, <-IH. set_solver.
  - destruct (eqb_cmp z y) eqn:Ez.
    + apply eqb_cmp_true in Ez as ->. set_solver.
    + set_solver.
Qed.

Lemma sorted_unique_elem_of l x : x ∈ sorted_unique l ↔ x ∈ l.
Proof. unfold sorted_unique, sort. by rewrite dedup_elem_of, sort_by_elem_of. Qed.

Definition strictly_sorted : list A → Prop := StronglySorted (λ x y, cmp x y = Lt).

Lemma dedup_strict l : StronglySorted (cmp_le cmp) l → strictly_sorted (dedup l).
Proof.
  apply dedup_by_strict; [apply total_lawful|]. intros x y. rewrite eqb_cmp_true. split; [intros ->|apply cmp_eq].
  apply cmp_refl, total_lawful.
Qed.

Lemma sorted_unique_strict l : strictly_sorted (sorted_unique l).
Proof. apply dedup_strict, sort_by_sorted, total_lawful. Qed.

Lemma strictly_sorted_NoDup l : strictly_sorted l → NoDup l.
Proof.
  induction 1 as [|x l Hl IH Hx]; constructor; [|done].
  intros Hin. rewrite Forall_forall in Hx. specialize (Hx _ Hin).
  by rewrite cmp_refl in Hx by apply total_lawful.
Qed.

Lemma strictly_sorted_ext l k :
  strictly_sorted l → strictly_sorted k → (∀ x, x ∈ l ↔ x ∈ k) → l = k.
Proof.
  intros Hl Hk Heq. apply (StronglySorted_unique_strong (λ x y, cmp x y = Lt)); [|done..|].
  - intros x y _ _ H1 H2. rewrite (cmp_antisym (c:=cmp) x y), H1 in H2. done.
  - apply NoDup_Permutation; auto using strictly_sorted_NoDup.
Qed.
End total.

(** Strictly sorted groups under strictly sorted keys are strictly sorted. *)
Lemma strictly_sorted_groups {A B C} `{TotalOrd A, TotalOrd B} (key : C → A) (group : C → list B) l :
  strictly_sorted (map key l) → (∀ x, x ∈ l → strictly_sorted (group x)) →
  strictly_sorted (concat (map (λ x, map (pair (key x)) (group x)) l)).
Proof.
  induction l as [|x l IH]; intros Hkeys Hgroups; simpl; [constructor|].
  apply StronglySorted_cons in Hkeys as [Hx Hl]. apply StronglySorted_app. split_and!.
  - intros [a b] [c d] (b' & [= -> ->] & Hb)%list_elem_of_fmap Hin.
    rewrite list_elem_of_In, in_concat in Hin. destruct Hin as (g & Hg & Hd).
    apply in_map_iff in Hg as (y & <- & Hy). apply in_map_iff in Hd as (d' & [= <- <-] & Hd).
    assert (Hxy : cmp (key x) (key y) = Lt).
    { rewrite Forall_forall in Hx. apply Hx, list_elem_of_fmap. exists y. split; [done|]. by apply list_elem_of_In. }
    unfold cmp, prod_ord; simpl. by rewrite Hxy.
  - assert (Hg : strictly_sorted (group x)) by (apply Hgroups; by left). clear -Hg H0.
    induction Hg as [|b g Hg IHg Hb]; simpl; [constructor|]. constructor; [done|].
    apply Forall_fmap. eapply Forall_impl; [exact Hb|]. intros c Hc. simpl. unfold cmp at 1, prod_ord.
    by rewrite cmp_refl by apply total_lawful.
  - apply IH; [done|]. intros y Hy. apply Hgroups. by right.
Qed.

(** ** [BTreeMap] and [BTreeSet]

    The contents are a [gmap] or [gset]; iteration visits the keys in order. *)
Section btree.
Context {K : Type} `{Countable K} `{!Ord K, !TotalOrd K}.

Definition entry_cmp {V} : K * V → K * V → comparison := cmp_on fst cmp.
(** [map.into_iter()] *)
Definition btree_entries {V} (m : gmap K V) : list (K * V) := sort_by entry_cmp (map_to_list m).
(** [map.into_values()] *)
Definition btree_values {V} (m : gmap K V) : list V := map snd (btree_entries m).
(** [map.keys()] *)
Definition btree_keys {V} (m : gmap K V) : list K := map fst (btree_entries m).
(** [set.into_iter()] *)
Definition bset_elements (s : gset K) : list K := sort_by cmp (elements s).
(** [iter.collect::<BTreeMap<_, _>>()]: a later entry replaces an earlier one. *)
Definition btree_collect {V} (l : list (K * V)) : gmap K V :=
  foldl (λ m kv, <[kv.1 := kv.2]> m) ∅ l.
Definition bset_collect (l : list K) : gset K := list_to_set l.
Definition contains_key {V} (m : gmap K V) (k : K) : bool := bool_decide (is_Some (m !! k)).

Lemma contains_key_true {V} (m : gmap K V) k : contains_key m k = true ↔ is_Some (m !! k).
Proof. apply bool_decide_eq_true. Qed.

Lemma contains_key_false {V} (m : gmap K V) k : contains_key m k = false ↔ m !! k = None.
Proof. unfold contains_key. by rewrite bool_decide_eq_false, <-eq_None_not_Some. Qed.

Lemma btree_entries_elem_of {V} (m : gmap K V) k v : (k, v) ∈ btree_entries m ↔ m !! k = Some v.
Proof. unfold btree_entries. by rewrite sort_by_elem_of, elem_of_map_to_list. Qed.

Lemma btree_values_elem_of {V} (m : gmap K V) v : v ∈ btree_values m ↔ ∃ k, m !! k = Some v.
Proof.
  unfold btree_values. rewrite list_elem_of_fmap. split.
  - intros ([k w] & -> & Hk). rewrite btree_entries_elem_of in Hk. by exists k.
  - intros [k Hk]. exists (k, v). by rewrite btree_entries_elem_of.
Qed.

Lemma btree_entries_keys_NoDup {V} (m : gmap K V) : NoDup (btree_entries m).*1.
Proof. unfold btree_entries. rewrite sort_by_perm. apply NoDup_fst_map_to_list. Qed.

Lemma btree_values_length {V} (m : gmap K V) : length (btree_values m) = size m.
Proof. unfold btree_values, btree_entries. by rewrite length_map, sort_by_length, length_map_to_list. Qed.

Lemma bset_elements_elem_of s x : x ∈ bset_elements s ↔ x ∈ s.
Proof. unfold bset_elements. by rewrite sort_by_elem_of, elem_of_elements. Qed.

Lemma bset_elements_length s : length (bset_elements s) = size s.
Proof. unfold bset_elements. by rewrite sort_by_length. Qed.

Lemma sorted_NoDup_strict (l : list K) :
  StronglySorted (cmp_le cmp) l → NoDup l → strictly_sorted l.
Proof.
  induction 1 as [|x l Hl IH Hx]; intros Hnd; [constructor|].
  apply NoDup_cons in Hnd as [Hx' Hnd]. constructor; [by apply IH|].
  rewrite Forall_forall in *. intros y Hy. specialize (Hx y Hy). unfold cmp_le in Hx.
  destruct (cmp x y) eqn:E; [|done|done]. by apply cmp_eq in E as ->.
Qed.

Lemma bset_elements_strict s : strictly_sorted (bset_elements s).
Proof.
  apply sorted_NoDup_strict; [apply sort_by_sorted, total_lawful|].
  apply sort_by_NoDup, NoDup_elements.
Qed.

Lemma btree_entries_keys_strict {V} (m : gmap K V) : strictly_sorted (btree_entries m).*1.
Proof.
  apply sorted_NoDup_strict; [|apply btree_entries_keys_NoDup].
  unfold btree_entries. change (fst <$> ?l) with (map fst l). rewrite (sort_by_map fst entry_cmp cmp) by done.
  apply sort_by_sorted, total_lawful.
Qed.

Lemma btree_collect_app {V} (l k : list (K * V)) :
  btree_collect (l ++ k) = foldl (λ m kv, <[kv.1 := kv.2]> m) (btree_collect l) k.
Proof. apply foldl_app. Qed.

Lemma btree_collect_lookup_None {V} (l : list (K * V)) k :
  btree_collect l !! k = None ↔ k ∉ l.*1.
Proof.
  induction l as [|[k' v'] l IH] using rev_ind; [by split; [intros; apply not_elem_of_nil|]|].
  rewrite btree_collect_app; simpl. rewrite lookup_insert, fmap_app; simpl.
  case_decide; set_solver.
Qed.

Lemma btree_collect_lookup_Some {V} (l : list (K * V)) k v :
  btree_collect l !! k = Some v → (k, v) ∈ l.
Proof.
  induction l as [|[k' v'] l IH] using rev_ind; [done|].
  rewrite btree_collect_app; simpl. rewrite lookup_insert. case_decide; [|set_solver].
  intros [= ->]; subst. set_solver.
Qed.

(** With distinct keys the map is the list. *)
Lemma btree_collect_NoDup {V} (l : list (K * V)) k v :
  NoDup l.*1 → (k, v) ∈ l → btree_collect l !! k = Some v.
Proof.
  induction l as [|[k' v'] l IH] using rev_ind; [set_solver|].
  rewrite btree_collect_app, fmap_app, NoDup_app; simpl. intros (Hnd & Hdis & _).
  rewrite elem_of_app, list_elem_of_singleton. intros [Hin|[= -> ->]].
  - rewrite lookup_insert_ne; [by apply IH|].
    intros ->. apply (Hdis k); [|set_solver]. apply list_elem_of_fmap. by exists (k, v).
  - by rewrite lookup_insert_eq.
Qed.
End btree.
