(* ===== verification/RustFloat.v ===== *)
(** * IEEE floats: [f32] and [f64]

    Values are the standard library's [spec_float]; an [f32] operation rounds to
    24 bits with exponent bound 128, an [f64] operation to 53 bits and 1024. *)
From stdpp Require Import base list strings pretty.
From S2P Require Import Prelude.
From Stdlib Require Import ZArith Lia SpecFloat.

#[global] Open Scope rust_scope.

Notation f32 := spec_float.
Notation f64 := spec_float.

(** ** Operations *)
Definition f_is_finite (x : spec_float) : bool :=
  match x with S754_zero _ | S754_finite _ _ _ => true | _ => false end.
Definition f_is_nan (x : spec_float) : bool :=
  match x with S754_nan => true | _ => false end.
(** [x <= y], [x < y]: false when an operand is not a number. *)
Definition f_le (x y : spec_float) : bool := SFleb x y.
Definition f_lt (x y : spec_float) : bool := SFltb x y.
Definition f_eq (x y : spec_float) : bool := SFeqb x y.
(** [partial_cmp] *)
Definition f_partial_cmp (x y : spec_float) : option comparison := SFcompare x y.
(** [x.max(y)] and [x.min(y)]: the other operand when one is not a number. *)
Definition f_max (x y : spec_float) : spec_float :=
  if f_is_nan x then y else if f_is_nan y then x else if f_lt x y then y else x.
Definition f_min (x y : spec_float) : spec_float :=
  if f_is_nan x then y else if f_is_nan y then x else if f_lt y x then y else x.
(** [x.clamp(lo, hi)] *)
Definition f_clamp (x lo hi : spec_float) : spec_float :=
  if f_lt x lo then lo else if f_lt hi x then hi else x.

Definition f32_add : f32 → f32 → f32 := SFadd 24 128.
Definition f32_mul : f32 → f32 → f32 := SFmul 24 128.
Definition f64_add : f64 → f64 → f64 := SFadd 53 1024.
Definition f64_sub : f64 → f64 → f64 := SFsub 53 1024.
Definition f64_mul : f64 → f64 → f64 := SFmul 53 1024.
Definition f64_div : f64 → f64 → f64 := SFdiv 53 1024.
(** [m * 2^e] rounded to the format. *)
Definition f32_lit (m e : Z) : f32 := binary_normalize 24 128 m e false.
Definition f64_lit (m e : Z) : f64 := binary_normalize 53 1024 m e false.
(** [f64::from(x)] for an [f32]: exact. *)
Definition f64_from_f32 (x : f32) : f64 :=
  match x with
  | S754_finite s m e => binary_normalize 53 1024 (cond_Zopp s (Zpos m)) e false
  | _ => x
  end.

(** [x.mul_add(y, z)]: the exact [x * y + z], rounded once. *)
Definition f_mantissa (x : spec_float) : option (Z * Z) :=
  match x with
  | S754_zero _ => Some (0, 0)%Z
  | S754_finite s m e => Some (cond_Zopp s (Zpos m), e)
  | _ => None
  end.
Definition f32_mul_add (x y z : f32) : f32 :=
  match f_mantissa x, f_mantissa y, f_mantissa z with
  | Some (mx, ex), Some (my, ey), Some (mz, ez) =>
      let e := Z.min (ex + ey) ez in
      binary_normalize 24 128 (mx * my * 2 ^ (ex + ey - e) + mz * 2 ^ (ez - e))%Z e false
  | _, _, _ => f32_add (f32_mul x y) z
  end.

(** [f32::from(n)] for a [u16]. *)
Definition f32_of_u16 (n : N) : f32 := binary_normalize 24 128 (Z.of_N n) 0 false.

(** [format!("{x:.3}")]: the exact value rounded to three decimals, ties to even. *)
Definition round_half_even (num den : Z) : Z :=
  let q := (num / den)%Z in
  let r := (2 * (num mod den))%Z in
  (if r <? den then q else if den <? r then q + 1 else if Z.even q then q else q + 1)%Z.
Definition pad3 (n : N) : string :=
  (if n <? 10 then "00" else if n <? 100 then "0" else "")%N +:+ pretty n.
Definition f_format_3 (x : spec_float) : string :=
  match x with
  | S754_nan => "NaN"
  | S754_infinity s => if s then "-inf" else "inf"
  | S754_zero s => if s then "-0.000" else "0.000"
  | S754_finite s m e =>
      let thousandths :=
        Z.to_N (if (e <? 0)%Z then round_half_even (Zpos m * 1000) (2 ^ (- e)) else Zpos m * 1000 * 2 ^ e) in
      (if s then "-" else "") +:+ pretty (thousandths / 1000)%N +:+ "." +:+ pad3 (thousandths mod 1000)%N
  end.

Definition f_zero : spec_float := S754_zero false.
Definition f32_one : f32 := Eval vm_compute in f32_lit 1 0.
Definition f64_one : f64 := Eval vm_compute in f64_lit 1 0.

(** [x.is_finite() && (0.0..=1.0).contains(&x)] for an [f32]. *)
Definition f32_in_unit (x : f32) : bool := f_is_finite x && (f_le f_zero x && f_le x f32_one).
Definition f64_in_unit (x : f64) : bool := f_is_finite x && (f_le f_zero x && f_le x f64_one).

(** [f64::total_cmp]: a total order by sign, magnitude class and magnitude. The
    model has one not-a-number value, ordered above every number. *)
Definition f_total_rank (x : spec_float) : Z :=
  match x with
  | S754_infinity true => 0 | S754_finite true _ _ => 1 | S754_zero true => 2
  | S754_zero false => 3 | S754_finite false _ _ => 4 | S754_infinity false => 5
  | S754_nan => 6
  end%Z.
Definition f_total_cmp (x y : spec_float) : comparison :=
  match x, y with
  | S754_finite s1 m1 e1, S754_finite s2 m2 e2 =>
      if eqb s1 s2 then
        let c := match (e1 ?= e2)%Z with Eq => (m1 ?= m2)%positive | o => o end in
        if s1 then CompOpp c else c
      else if s1 then Lt else Gt
  | _, _ => (f_total_rank x ?= f_total_rank y)%Z
  end.

(** ** Order lemmas *)
Section order.
Local Ltac float_cases :=
  repeat match goal with
  | |- context [match ?s with true => _ | false => _ end] => destruct s
  | H : context [match ?s with true => _ | false => _ end] |- _ => destruct s
  | s : bool |- _ => destruct s
  | |- context [(?a ?= ?b)%Z] => destruct (Z.compare_spec a b)
  | H : context [(?a ?= ?b)%Z] |- _ => destruct (Z.compare_spec a b)
  | |- context [PosDef.Pos.compare_cont Eq ?a ?b] =>
      change (PosDef.Pos.compare_cont Eq a b) with (Pos.compare a b);
      destruct (Pos.compare_spec a b)
  | H : context [PosDef.Pos.compare_cont Eq ?a ?b] |- _ =>
      change (PosDef.Pos.compare_cont Eq a b) with (Pos.compare a b) in H;
      destruct (Pos.compare_spec a b)
  end; simpl in *; try done; subst; try lia.

Lemma f_le_refl x : f_is_nan x = false → f_le x x = true.
Proof. unfold f_le, SFleb. destruct x; simpl; intros; float_cases. Qed.

Lemma f_le_nan x y : f_le x y = true → f_is_nan x = false ∧ f_is_nan y = false.
Proof. unfold f_le, SFleb. by destruct x, y. Qed.

Lemma f_le_trans x y z : f_le x y = true → f_le y z = true → f_le x z = true.
Proof. unfold f_le, SFleb. destruct x, y, z; simpl; intros; float_cases. Qed.

Lemma f_le_total x y :
  f_is_nan x = false → f_is_nan y = false → f_le x y = true ∨ f_lt y x = true.
Proof.
  unfold f_le, f_lt, SFleb, SFltb. destruct x, y; simpl; intros; float_cases; auto.
Qed.

Lemma f_lt_le x y : f_lt x y = true → f_le x y = true.
Proof. unfold f_le, f_lt, SFleb, SFltb. by destruct (SFcompare x y) as [[]|]. Qed.

Lemma f_lt_not_le x y : f_lt x y = true → f_le y x = false.
Proof. unfold f_le, f_lt, SFleb, SFltb. destruct x, y; simpl; intros; float_cases. Qed.
End order.

Lemma f_not_lt_le x y :
  f_is_nan x = false → f_is_nan y = false → f_lt y x = false → f_le x y = true.
Proof. intros Hx Hy Hlt. destruct (f_le_total x y Hx Hy); congruence. Qed.

Lemma f_clamp_bounds x lo hi :
  f_is_nan x = false → f_le lo hi = true →
  f_le lo (f_clamp x lo hi) = true ∧ f_le (f_clamp x lo hi) hi = true.
Proof.
  intros Hx Hle. destruct (f_le_nan _ _ Hle) as [Hlo Hhi]. unfold f_clamp.
  destruct (f_lt x lo) eqn:E1; [auto using f_le_refl|].
  destruct (f_lt hi x) eqn:E2; [auto using f_le_refl|].
  auto using f_not_lt_le.
Qed.

Lemma f_max_ge x y :
  f_is_nan x = false → f_is_nan y = false →
  f_le x (f_max x y) = true ∧ f_le y (f_max x y) = true.
Proof.
  intros Hx Hy. unfold f_max. rewrite Hx, Hy.
  destruct (f_lt x y) eqn:E; auto using f_le_refl, f_lt_le, f_not_lt_le.
Qed.

Lemma f_min_le x y :
  f_is_nan x = false → f_is_nan y = false →
  f_le (f_min x y) x = true ∧ f_le (f_min x y) y = true.
Proof.
  intros Hx Hy. unfold f_min. rewrite Hx, Hy.
  destruct (f_lt y x) eqn:E; auto using f_le_refl, f_lt_le, f_not_lt_le.
Qed.

Lemma f_in_unit_nan x : f32_in_unit x = true → f_is_nan x = false.
Proof. by destruct x. Qed.

(** ** Sums of non-negative numbers are numbers *)
Definition f_nonneg (x : spec_float) : bool :=
  match x with
  | S754_zero _ => true
  | S754_infinity s | S754_finite s _ _ => negb s
  | S754_nan => false
  end.

Lemma f_nonneg_not_nan x : f_nonneg x = true → f_is_nan x = false.
Proof. by destruct x. Qed.

Lemma shr_1_nonneg mrs : (0 ≤ shr_m mrs)%Z → (0 ≤ shr_m (shr_1 mrs))%Z.
Proof. destruct mrs as [m r s]. destruct m as [|p|p]; simpl; try lia. destruct p; simpl; lia. Qed.

Lemma shr_nonneg mrs e n : (0 ≤ shr_m mrs)%Z → (0 ≤ shr_m (shr mrs e n).1)%Z.
Proof.
  intros H. unfold shr. destruct n; simpl; try done.
  revert mrs H. induction p as [p IH|p IH|]; intros mrs H; simpl;
    auto using shr_1_nonneg.
Qed.

Lemma shr_fexp_nonneg prec emax m e l :
  (0 ≤ m)%Z → (0 ≤ shr_m (shr_fexp prec emax m e l).1)%Z.
Proof. intros H. apply shr_nonneg. by destruct l as [|[]]. Qed.

Lemma round_nearest_even_nonneg m l : (0 ≤ m)%Z → (0 ≤ round_nearest_even m l)%Z.
Proof. destruct l as [|[]]; simpl; [done| |lia|lia]. destruct (Z.even m); lia. Qed.

Lemma binary_round_aux_nonneg prec emax m e l :
  (0 ≤ m)%Z → f_nonneg (binary_round_aux prec emax false m e l) = true.
Proof.
  intros H. unfold binary_round_aux.
  destruct (shr_fexp prec emax m e l) as [r1 e1] eqn:E1.
  pose proof (shr_fexp_nonneg prec emax m e l H) as H1. rewrite E1 in H1; simpl in H1.
  match goal with |- context [shr_fexp prec emax ?m' e1 loc_Exact] =>
    pose proof (shr_fexp_nonneg prec emax m' e1 loc_Exact
      (round_nearest_even_nonneg _ _ H1)) as H2;
    destruct (shr_fexp prec emax m' e1 loc_Exact) as [r2 e2] eqn:E2 end.
  simpl in H2. destruct (shr_m r2) as [|p|p]; [done| |lia]. by destruct (_ <=? _)%Z.
Qed.

Lemma binary_normalize_nonneg prec emax m e s :
  (0 ≤ m)%Z → f_nonneg (binary_normalize prec emax m e s) = true.
Proof.
  destruct m as [|p|p]; simpl; [done| |lia]. intros _. unfold binary_round.
  destruct (shl_align p e _) as [mz ez]. by apply binary_round_aux_nonneg.
Qed.

Lemma SFadd_nonneg prec emax x y :
  f_nonneg x = true → f_nonneg y = true → f_nonneg (SFadd prec emax x y) = true.
Proof.
  destruct x as [[]|[]| |[] mx ex], y as [[]|[]| |[] my ey]; try done.
  intros _ _. by apply binary_normalize_nonneg.
Qed.

Lemma SFmul_nonneg prec emax x y :
  f_nonneg x = true → f_nonneg y = true → f_is_finite x = true → f_is_finite y = true →
  f_nonneg (SFmul prec emax x y) = true.
Proof.
  destruct x as [[]|[]| |[] mx ex], y as [[]|[]| |[] my ey]; try done.
  intros _ _ _ _. by apply binary_round_aux_nonneg.
Qed.

Lemma f32_in_unit_nonneg x : f32_in_unit x = true → f_nonneg x = true ∧ f_is_finite x = true.
Proof. destruct x as [[]|[]| |[] mx ex]; done. Qed.
