(* ===== verification/RustStr.v ===== *)
(** * Strings: the [str] operations the program uses

    A Rust [str] is its sequence of UTF-8 bytes. Searching for ASCII patterns is
    done on bytes; [char]-level operations decode. *)
From Stdlib Require Import NArith Ascii.
From stdpp Require Import base sets list strings.
From S2P Require Import Prelude.

#[global] Arguments String.append !_ _ /.

(** ** Prefixes, suffixes and splitting *)
Fixpoint strip_prefix (pat s : string) : option string :=
  match pat, s with
  | EmptyString, _ => Some s
  | String p pat', String c s' => if Ascii.eqb p c then strip_prefix pat' s' else None
  | String _ _, EmptyString => None
  end.

Fixpoint strip_suffix (pat s : string) : option string :=
  if String.eqb s pat then Some EmptyString
  else match s with
  | EmptyString => None
  | String c s' => String c <$> strip_suffix pat s'
  end.

Definition starts_with (pat s : string) : bool := bool_decide (is_Some (strip_prefix pat s)).
Definition ends_with (pat s : string) : bool := bool_decide (is_Some (strip_suffix pat s)).

Fixpoint str_any (f : ascii → bool) (s : string) : bool :=
  match s with EmptyString => false | String c s' => f c || str_any f s' end.
Definition contains_char (c : ascii) (s : string) : bool := str_any (Ascii.eqb c) s.

#[global] Arguments contains_char c%_char_scope s.

(** [s.split_once(pat)] at the first occurrence. *)
Fixpoint split_once (pat s : string) : option (string * string) :=
  match strip_prefix pat s with
  | Some rest => Some (EmptyString, rest)
  | None =>
      match s with
      | EmptyString => None
      | String c s' =>
          match split_once pat s' with
          | Some (before, after) => Some (String c before, after)
          | None => None
          end
      end
  end.

(** [s.rsplit_once(c)] at the last occurrence of an ASCII character. *)
Fixpoint rsplit_once (c : ascii) (s : string) : option (string * string) :=
  match s with
  | EmptyString => None
  | String d s' =>
      match rsplit_once c s' with
      | Some (before, after) => Some (String d before, after)
      | None => if Ascii.eqb c d then Some (EmptyString, s') else None
      end
  end.

#[global] Arguments rsplit_once c%_char_scope s.

Definition contains_str (pat s : string) : bool := bool_decide (is_Some (split_once pat s)).

(** [s.split(f)] for a test on ASCII characters: never empty. *)
Fixpoint split_by (f : ascii → bool) (s : string) : list string :=
  match s with
  | EmptyString => [EmptyString]
  | String c s' =>
      if f c then EmptyString :: split_by f s'
      else match split_by f s' with
           | [] => [String c EmptyString]
           | w :: ws => String c w :: ws
           end
  end.

Fixpoint str_drop (n : nat) (s : string) : string :=
  match n, s with
  | S n', String _ s' => str_drop n' s'
  | _, _ => s
  end.
Fixpoint str_take (n : nat) (s : string) : string :=
  match n, s with
  | S n', String c s' => String c (str_take n' s')
  | _, _ => EmptyString
  end.

(** [parts.join(sep)] *)
Fixpoint join (sep : string) (parts : list string) : string :=
  match parts with
  | [] => EmptyString
  | [p] => p
  | p :: ps => p +:+ sep +:+ join sep ps
  end.

(** [Path::join] with a relative component. *)
Definition path_join (path component : string) : string :=
  if String.eqb path "" || ends_with "/" path then path +:+ component else path +:+ "/" +:+ component.

(** ** ASCII case and digits *)
Definition ascii_in (lo hi : N) (c : ascii) : bool := (lo <=? N_of_ascii c)%N && (N_of_ascii c <=? hi)%N.
Definition ascii_lower (c : ascii) : ascii :=
  if ascii_in 65 90 c then ascii_of_N (N_of_ascii c + 32) else c.
Fixpoint to_ascii_lowercase (s : string) : string :=
  match s with EmptyString => EmptyString | String c s' => String (ascii_lower c) (to_ascii_lowercase s') end.

(** [s.trim_end_matches(c)] for an ASCII character. *)
Fixpoint trim_end_char (c : ascii) (s : string) : string :=
  match s with
  | EmptyString => EmptyString
  | String d s' =>
      match trim_end_char c s' with
      | EmptyString => if Ascii.eqb c d then EmptyString else String d EmptyString
      | t => String d t
      end
  end.

#[global] Arguments trim_end_char c%_char_scope s.

(** [s.parse::<u16>()]: an optional plus sign, then decimal digits whose value
    fits in 16 bits. *)
Fixpoint parse_digits (max acc : N) (s : string) : option N :=
  match s with
  | EmptyString => Some acc
  | String c s' =>
      if ascii_in 48 57 c then
        let acc' := (acc * 10 + (N_of_ascii c - 48))%N in
        if (acc' <=? max)%N then parse_digits max acc' s' else None
      else None
  end.
Definition parse_u16 (s : string) : option N :=
  let digits := match strip_prefix "+" s with Some rest => rest | None => s end in
  if String.eqb digits "" then None else parse_digits 65535 0 digits.
Definition u64_max : N := 18446744073709551615.
Definition parse_u64 (s : string) : option N :=
  let digits := match strip_prefix "+" s with Some rest => rest | None => s end in
  if String.eqb digits "" then None else parse_digits u64_max 0 digits.

(** ** Characters *)
Definition byte_at (s : string) : N := match s with EmptyString => 0 | String c _ => N_of_ascii c end.

(** Width in bytes of the character that starts with a given byte. *)
Definition utf8_width (lead : N) : nat :=
  if (lead <? 192)%N then 1 else if (lead <? 224)%N then 2 else if (lead <? 240)%N then 3 else 4.

Definition utf8_decode (s : string) : N :=
  let b0 := byte_at s in
  let b1 := N.land (byte_at (str_drop 1 s)) 63 in
  let b2 := N.land (byte_at (str_drop 2 s)) 63 in
  let b3 := N.land (byte_at (str_drop 3 s)) 63 in
  match utf8_width b0 with
  | 1 => b0
  | 2 => N.lor (N.shiftl (N.land b0 31) 6) b1
  | 3 => N.lor (N.shiftl (N.land b0 15) 12) (N.lor (N.shiftl b1 6) b2)
  | _ => N.lor (N.shiftl (N.land b0 7) 18) (N.lor (N.shiftl b1 12) (N.lor (N.shiftl b2 6) b3))
  end.

(** [s.char_indices()] as code points with their bytes. *)
Fixpoint chars_fuel (fuel : nat) (s : string) : list (N * string) :=
  match fuel, s with
  | S fuel', String _ _ =>
      let w := utf8_width (byte_at s) in
      (utf8_decode s, str_take w s) :: chars_fuel fuel' (str_drop w s)
  | _, _ => []
  end.
Definition chars (s : string) : list (N * string) := chars_fuel (String.length s) s.

(** [char::is_whitespace]: the Unicode White_Space property. *)
Definition is_whitespace (c : N) : bool :=
  ((9 <=? c) && (c <=? 13) || (c =? 32) || (c =? 133) || (c =? 160) || (c =? 5760)
   || ((8192 <=? c) && (c <=? 8202)) || (c =? 8232) || (c =? 8233) || (c =? 8239)
   || (c =? 8287) || (c =? 12288))%N.

(** [char::is_control]: the general category Cc. *)
Definition is_control (c : N) : bool := ((c <=? 31) || ((127 <=? c) && (c <=? 159)))%N.

Fixpoint drop_while {A} (f : A → bool) (l : list A) : list A :=
  match l with [] => [] | x :: l' => if f x then drop_while f l' else l end.

(** [s.trim()] *)
Definition trim (s : string) : string :=
  let ws := λ p : N * string, is_whitespace p.1 in
  foldr (λ p acc, p.2 +:+ acc) EmptyString
    (reverse (drop_while ws (reverse (drop_while ws (chars s))))).

Lemma str_take_drop n s : str_take n s +:+ str_drop n s = s.
Proof. revert s. induction n as [|n IH]; intros [|c s]; simpl; [done..|]. by rewrite IH. Qed.

(** ** Lemmas *)
Lemma string_length_app s t : String.length (s +:+ t) = String.length s + String.length t.
Proof. induction s; simpl; congruence. Qed.

Lemma strip_prefix_Some pat s rest : strip_prefix pat s = Some rest ↔ s = pat +:+ rest.
Proof.
  revert s. induction pat as [|p pat IH]; intros s; simpl; [split; congruence|].
  destruct s as [|c s]; [done|].
  destruct (Ascii.eqb_spec p c) as [->|Hne]; [rewrite IH|]; split; congruence.
Qed.

Lemma strip_suffix_Some pat s pre : strip_suffix pat s = Some pre ↔ s = pre +:+ pat.
Proof.
  revert pre. induction s as [|c s IH]; intros pre; cbn [strip_suffix].
  - destruct (String.eqb_spec "" pat) as [<-|Hne].
    + split; [by intros [= <-]|by destruct pre].
    + split; [done|]. by destruct pre; simpl; [intros <-|].
  - destruct (String.eqb_spec (String c s) pat) as [<-|Hne].
    + split; [by intros [= <-]|]. intros E. f_equal.
      destruct pre as [|d pre]; [done|exfalso].
      apply (f_equal String.length) in E. simpl in E. rewrite string_length_app in E. simpl in E. lia.
    + rewrite fmap_Some. setoid_rewrite IH. split; [by intros (x & -> & ->)|].
      destruct pre as [|d pre]; simpl; [by intros <-|intros [= -> ->]]; eauto.
Qed.

Lemma starts_with_spec pat s : starts_with pat s = true ↔ ∃ rest, s = pat +:+ rest.
Proof.
  unfold starts_with. rewrite bool_decide_eq_true. unfold is_Some.
  by setoid_rewrite strip_prefix_Some.
Qed.

Lemma ends_with_spec pat s : ends_with pat s = true ↔ ∃ pre, s = pre +:+ pat.
Proof.
  unfold ends_with. rewrite bool_decide_eq_true. unfold is_Some.
  by setoid_rewrite strip_suffix_Some.
Qed.

Lemma string_app_nil_r s : s +:+ "" = s.
Proof. induction s; simpl; congruence. Qed.

Lemma string_app_assoc s t u : s +:+ (t +:+ u) = (s +:+ t) +:+ u.
Proof. induction s; simpl; congruence. Qed.

Lemma str_any_app f s t : str_any f (s +:+ t) = str_any f s || str_any f t.
Proof. induction s as [|c s IH]; simpl; [done|]. by rewrite IH, orb_assoc. Qed.

Lemma split_once_Some_app pat s before after :
  split_once pat s = Some (before, after) → s = before +:+ pat +:+ after.
Proof.
  revert before. induction s as [|c s IH]; intros before; simpl.
  - destruct (strip_prefix pat "") as [r|] eqn:E; [|done]. intros [= <- <-].
    by apply strip_prefix_Some in E.
  - destruct (strip_prefix pat (String c s)) as [r|] eqn:E.
    + intros [= <- <-]. by apply strip_prefix_Some in E.
    + destruct (split_once pat s) as [[b a]|] eqn:E2; [|done]. intros [= <- <-].
      simpl. f_equal. by apply IH.
Qed.

(** Splitting at an ASCII character: the text before has no occurrence. *)
Lemma split_once_char c before after :
  contains_char c before = false →
  split_once (String c "") (before +:+ String c after) = Some (before, after).
Proof.
  induction before as [|d before IH]; simpl.
  - by rewrite Ascii.eqb_refl.
  - unfold contains_char; simpl. destruct (Ascii.eqb_spec c d) as [->|Hne]; [done|].
    intros H. by rewrite IH.
Qed.

Lemma split_at_char c a b a' b' :
  contains_char c a = false → contains_char c a' = false →
  a +:+ String c b = a' +:+ String c b' → a = a' ∧ b = b'.
Proof.
  intros Ha Ha' E. apply (split_once_char _ _ b) in Ha. apply (split_once_char _ _ b') in Ha'.
  rewrite E, Ha' in Ha. by injection Ha.
Qed.

Lemma split_once_char_None c s : split_once (String c "") s = None ↔ contains_char c s = false.
Proof.
  unfold contains_char. induction s as [|d s IH]; simpl; [done|].
  destruct (Ascii.eqb_spec c d) as [->|Hne]; simpl; [done|].
  rewrite <-IH. destruct (split_once (String c "") s) as [[??]|]; naive_solver.
Qed.

(** *** Splitting *)
Lemma split_by_none f s : str_any f s = false → split_by f s = [s].
Proof.
  induction s as [|c s IH]; simpl; [done|]. intros [-> H]%orb_false_iff. by rewrite IH.
Qed.

Lemma split_by_app f s c t :
  str_any f s = false → f c = true → split_by f (s +:+ String c t) = s :: split_by f t.
Proof.
  intros Hs Hc. induction s as [|d s IH]; simpl; [by rewrite Hc|].
  simpl in Hs. apply orb_false_iff in Hs as [-> Hs]. by rewrite IH.
Qed.

Lemma split_by_not_nil f s : split_by f s ≠ [].
Proof. destruct s as [|c s]; simpl; [done|]. destruct (f c), (split_by f s); done. Qed.

Lemma split_by_piece f s w : w ∈ split_by f s → str_any f w = false.
Proof.
  revert w. induction s as [|c s IH]; intros w; simpl; [by intros ->%list_elem_of_singleton|].
  destruct (f c) eqn:Hc.
  - intros [->|?]%elem_of_cons; auto.
  - destruct (split_by f s) as [|v vs].
    + intros ->%list_elem_of_singleton. simpl. by rewrite Hc.
    + intros [->|Hin]%elem_of_cons; [|apply IH; set_solver]. simpl.
      rewrite Hc. apply IH. set_solver.
Qed.

Lemma split_by_piece_sub f h s w : w ∈ split_by f s → str_any h w = true → str_any h s = true.
Proof.
  revert w. induction s as [|c s IH]; intros w; simpl; [by intros ->%list_elem_of_singleton|].
  destruct (f c) eqn:Hc.
  - intros [->|Hin]%elem_of_cons; [done|]. intros Hw. rewrite (IH w); [|done..]. apply orb_true_r.
  - destruct (split_by f s) as [|v vs].
    + intros ->%list_elem_of_singleton. simpl. destruct (h c); [done|]. simpl. done.
    + intros [->|Hin]%elem_of_cons; simpl.
      * destruct (h c); [done|]. simpl. intros Hv. apply (IH v); [set_solver|done].
      * intros Hw. rewrite (IH w); [apply orb_true_r|set_solver|done].
Qed.

Lemma contains_char_app c s t : contains_char c (s +:+ t) = contains_char c s || contains_char c t.
Proof. apply str_any_app. Qed.

Lemma strip_suffix_app s t : strip_suffix t (s +:+ t) = Some s.
Proof. by apply strip_suffix_Some. Qed.

Lemma strip_prefix_app s t : strip_prefix s (s +:+ t) = Some t.
Proof. by apply strip_prefix_Some. Qed.

Lemma string_app_inj_l s t u : s +:+ t = s +:+ u → t = u.
Proof. induction s as [|c s IH]; simpl; [done|]. intros [=]. auto. Qed.

Lemma string_app_inj_r s t u : t +:+ s = u +:+ s → t = u.
Proof.
  intros E. assert (Some t = Some u) as [=]; [|done].
  by rewrite <-(strip_suffix_app t s), <-(strip_suffix_app u s), E.
Qed.

Lemma str_any_sub f h s : (∀ c, f c = true → h c = true) → str_any f s = true → str_any h s = true.
Proof.
  intros Hfh. induction s as [|c s IH]; simpl; [done|].
  intros [Hc|Hs]%orb_true_iff; apply orb_true_iff; auto.
Qed.

Lemma string_app_nil s t : s +:+ t = "" ↔ s = "" ∧ t = "".
Proof. destruct s; simpl; split; [done|by intros [_ ->]|done|by intros []]. Qed.

(** *** Equal texts, two readings *)
Lemma string_app_eq s t s' t' :
  s +:+ t = s' +:+ t' → (∃ u, s' = s +:+ u ∧ t = u +:+ t') ∨ (∃ u, s = s' +:+ u ∧ t' = u +:+ t).
Proof.
  revert s'. induction s as [|c s IH]; intros s' E; simpl in *; [left; by exists s'|].
  destruct s' as [|c' s']; simpl in *; [right; by exists (String c s)|].
  injection E as -> E. destruct (IH _ E) as [(u & -> & ->)|(u & -> & ->)]; [left|right]; by exists u.
Qed.

Lemma split_once_char_before c s before after :
  split_once (String c "") s = Some (before, after) → contains_char c before = false.
Proof.
  unfold contains_char. revert before. induction s as [|d s IH]; intros before; simpl; [done|].
  destruct (Ascii.eqb_spec c d) as [<-|Hne]; [by intros [= <- _]|].
  destruct (split_once (String c "") s) as [[b a]|]; [|done]. intros [= <- ->]. simpl.
  destruct (Ascii.eqb_spec c d); [done|]. by apply IH.
Qed.

(** *** Substrings *)
Lemma split_once_is_Some pat s : is_Some (split_once pat s) ↔ ∃ a b, s = a +:+ pat +:+ b.
Proof.
  split.
  - intros [[a b] H%split_once_Some_app]. eauto.
  - intros (a & b & ->). induction a as [|c a IH].
    + change ("" +:+ pat +:+ b) with (pat +:+ b).
      destruct (pat +:+ b) eqn:E; simpl; rewrite <-E, strip_prefix_app; eauto.
    + simpl. destruct (strip_prefix pat (String c (a +:+ pat +:+ b))); [eauto|].
      destruct IH as [[x y] ->]. eauto.
Qed.

Lemma contains_str_spec pat s : contains_str pat s = true ↔ ∃ a b, s = a +:+ pat +:+ b.
Proof. unfold contains_str. by rewrite bool_decide_eq_true, split_once_is_Some. Qed.

Lemma contains_str_sub pat s a b : contains_str pat s = true → contains_str pat (a +:+ s +:+ b) = true.
Proof.
  rewrite !contains_str_spec. intros (x & y & ->). exists (a +:+ x), (y +:+ b).
  by rewrite !string_app_assoc.
Qed.

Lemma split_by_piece_infix f s w : w ∈ split_by f s → ∃ a b, s = a +:+ w +:+ b.
Proof.
  enough (H : w ∈ split_by f s → (∃ b, head (split_by f s) = Some w ∧ s = w +:+ b) ∨ ∃ a b, s = a +:+ w +:+ b).
  { intros [(b & _ & ->)|?]%H; [by exists "", b|done]. }
  revert w. induction s as [|c s IH]; intros w; simpl.
  - intros ->%list_elem_of_singleton. left. by exists "".
  - destruct (f c).
    + intros [->|Hin]%elem_of_cons; [left; by exists (String c s)|right].
      destruct (IH w Hin) as [(b & _ & ->)|(a & b & ->)]; [by exists (String c ""), b|].
      by exists (String c a), b.
    + destruct (split_by f s) as [|v vs] eqn:E; [by apply split_by_not_nil in E|].
      intros [->|Hin]%elem_of_cons.
      * left. destruct (IH v) as [(b & Hv & ->)|(a & b & Hs)]; [set_solver|by exists b|].
        clear IH. assert (∃ b, s = v +:+ b) as [b' ->]; [|by exists b'].
        clear a b Hs. revert v vs E. induction s as [|d s IH]; simpl; intros v vs E.
        { injection E as <- _. by exists "". }
        destruct (f d); [injection E as <- _; by eexists|].
        destruct (split_by f s) as [|u us]; [injection E as <- _; by exists s|].
        injection E as <- _. destruct (IH u us eq_refl) as [b ->]. by exists b.
      * right. destruct (IH w) as [(b & Hv & ->)|(a & b & ->)]; [set_solver|by exists (String c ""), b|].
        by exists (String c a), b.
Qed.

(** *** Joining *)
Lemma join_first sep p ps : ps ≠ [] → join sep (p :: ps) = p +:+ sep +:+ join sep ps.
Proof. by destruct ps. Qed.

Lemma split_by_join_app f c parts rest :
  f c = true → parts ≠ [] → Forall (λ p, str_any f p = false) parts →
  split_by f (join (String c "") parts +:+ String c rest) = parts ++ split_by f rest.
Proof.
  intros Hc. induction parts as [|p parts IH]; [done|]. intros _ [Hp Hps]%Forall_cons.
  destruct parts as [|q parts]; [by apply split_by_app|].
  rewrite join_first, <-!string_app_assoc by done. change (String c "" +:+ ?t) with (String c t).
  rewrite split_by_app by done. simpl app. f_equal. by apply IH.
Qed.

Lemma split_by_join f c parts :
  f c = true → parts ≠ [] → Forall (λ p, str_any f p = false) parts → split_by f (join (String c "") parts) = parts.
Proof.
  intros Hc. induction parts as [|p parts IH]; [done|]. intros _ [Hp Hps]%Forall_cons.
  destruct parts as [|q parts]; [by apply split_by_none|].
  rewrite join_first by done. change (String c "" +:+ ?t) with (String c t). rewrite split_by_app by done. f_equal. by apply IH.
Qed.

Lemma join_split_by c s : join (String c "") (split_by (Ascii.eqb c) s) = s.
Proof.
  induction s as [|d s IH]; [done|]. simpl. pose proof (split_by_not_nil (Ascii.eqb c) s).
  destruct (Ascii.eqb_spec c d) as [->|Hne].
  - rewrite join_first by done. by rewrite IH.
  - destruct (split_by (Ascii.eqb c) s) as [|w ws]; [done|]. rewrite <-IH. by destruct ws.
Qed.

Lemma any_join f sep parts :
  str_any f sep = false → str_any f (join sep parts) = existsb (str_any f) parts.
Proof.
  intros Hsep. induction parts as [|p parts IH]; [done|]. destruct parts as [|q parts]; [simpl; by rewrite orb_false_r|].
  rewrite join_first by done. by rewrite !str_any_app, Hsep, IH.
Qed.

(** *** ASCII text *)
Definition is_ascii (s : string) : Prop := str_any (λ c, (128 <=? N_of_ascii c)%N) s = false.

Lemma is_ascii_app s t : is_ascii (s +:+ t) ↔ is_ascii s ∧ is_ascii t.
Proof. unfold is_ascii. by rewrite str_any_app, orb_false_iff. Qed.

(** The characters of an ASCII text are its bytes. *)
Lemma chars_ascii f s : is_ascii s → existsb (λ c, f c.1) (chars s) = str_any (λ c, f (N_of_ascii c)) s.
Proof.
  unfold chars. generalize (le_n (String.length s)). generalize (String.length s) at 2 3 as fuel.
  induction s as [|c s IH]; intros fuel Hfuel Ha; [by destruct fuel|]. destruct fuel as [|fuel]; simpl in Hfuel; [lia|].
  apply orb_false_iff in Ha as [Hc Ha]. apply N.leb_gt in Hc.
  assert (Hw : utf8_width (byte_at (String c s)) = 1) by (unfold utf8_width; simpl; destruct (N.ltb_spec (N_of_ascii c) 192); [done|lia]).
  cbn [chars_fuel]. rewrite Hw. cbn [existsb str_any]. f_equal.
  - unfold utf8_decode. rewrite Hw. done.
  - apply IH; [lia|done].
Qed.
