(* ===== verification/Model.v ===== *)
(** * Domain model ([crates/code-system-graph-model/src/lib.rs])

    Identifiers, node and edge kinds, evidence, graph records and the records of
    public results. A string newtype ([NodeId], [EdgeId], ...) is its string. *)
From stdpp Require Import base gmap list strings.
From S2P Require Import Prelude RustOrd RustFloat RustStr.

Notation RepoId := string (only parsing).
Notation CheckoutId := string (only parsing).
Notation NodeId := string (only parsing).
Notation EdgeId := string (only parsing).
Notation EvidenceId := string (only parsing).
Notation CommunityId := string (only parsing).

(** ** Content-derived identifiers *)

(** The digest of the [blake3] crate, as lower-case hexadecimal text. *)
Class Blake3 := blake3_hex : string → string.

Section stable_id.
Context `{Blake3}.
Definition stable_id_bytes (namespace canonical_key : string) : string :=
  namespace +:+ ":" +:+ blake3_hex (namespace +:+ String (Ascii.ascii_of_N 0) canonical_key).
Definition stable_id (namespace canonical_key : string) : string :=
  stable_id_bytes namespace canonical_key.
End stable_id.

(** ** Display safety *)
Definition is_unsafe_char (c : N) : bool :=
  (is_control c
   || (c =? 1564) || (c =? 8206) || (c =? 8207)
   || ((8234 <=? c) && (c <=? 8238)) || ((8294 <=? c) && (c <=? 8297)) || (c =? 65279))%N.
Definition contains_unsafe_metadata_characters (value : string) : bool :=
  existsb (λ p, is_unsafe_char p.1) (chars value).

(** ** Enumerations *)
Inductive NodeKind :=
| NK_Repository | NK_Service | NK_Package | NK_Artifact | NK_SymbolRef | NK_TestCase
| NK_HttpOperation | NK_GraphqlOperation | NK_RpcMethod | NK_EventChannel | NK_EventSchema
| NK_Database | NK_DatabaseTable | NK_DatabaseColumn | NK_ConfigKey | NK_Deployment
| NK_Document | NK_Adr | NK_Owner | NK_ChangeSet | NK_PullRequest | NK_Community.

Inductive EdgeKind :=
| Contains | Provides | Consumes | CallsRemote | Publishes | Subscribes | DeliversTo
| DependsOnPackage | DependsOnRepository | ReadsTable | WritesTable | Deploys | Configures
| Documents | OwnedBy | ImplementedBy | Validates | ChangedIn | Affects | Precedes | Reverts
| CompatibleWith | IncompatibleWith | MemberOf | ManualLink.

Inductive Provenance :=
| Prov_Declared | Prov_Extracted | Prov_Inferred | Prov_Manual | Prov_Runtime | Prov_CodeGraph.

Inductive EpistemicStatus :=
| Confirmed | Inferred | Ambiguous | Stale | Incomplete.

Inductive RepoFreshnessState :=
| RF_Fresh | RF_WorkingTreeChanged | RF_CommitsBehind | RF_ConfigChanged | RF_ExtractorChanged
| RF_CodegraphPending | RF_Partial | RF_Corrupt | RF_Unknown | RF_Unavailable.

Inductive NativePathEncoding := UnixBytes | WindowsWide | Utf8.

Inductive ArtifactChangeKind := Added | Modified | Deleted.

Inductive LinkStatus := Link_Confirmed | Link_Suppressed | Link_Ambiguous | Link_Rejected.

Inductive HttpLinkGapReason := Gap_NoProvider | Gap_Ambiguous | Gap_External.

#[export] Instance NodeKind_eq_dec : EqDecision NodeKind.
Proof. solve_decision. Defined.
#[export] Instance EdgeKind_eq_dec : EqDecision EdgeKind.
Proof. solve_decision. Defined.
#[export] Instance Provenance_eq_dec : EqDecision Provenance.
Proof. solve_decision. Defined.
#[export] Instance EpistemicStatus_eq_dec : EqDecision EpistemicStatus.
Proof. solve_decision. Defined.
#[export] Instance RepoFreshnessState_eq_dec : EqDecision RepoFreshnessState.
Proof. solve_decision. Defined.
#[export] Instance NativePathEncoding_eq_dec : EqDecision NativePathEncoding.
Proof. solve_decision. Defined.
#[export] Instance LinkStatus_eq_dec : EqDecision LinkStatus.
Proof. solve_decision. Defined.
#[export] Instance HttpLinkGapReason_eq_dec : EqDecision HttpLinkGapReason.
Proof. solve_decision. Defined.
#[export] Instance ArtifactChangeKind_eq_dec : EqDecision ArtifactChangeKind.
Proof. solve_decision. Defined.

(** [#[derive(Debug)]] of [EdgeKind]: the variant name. *)
Definition edge_kind_debug (k : EdgeKind) : string :=
  match k with
  | Contains => "Contains" | Provides => "Provides" | Consumes => "Consumes"
  | CallsRemote => "CallsRemote" | Publishes => "Publishes" | Subscribes => "Subscribes"
  | DeliversTo => "DeliversTo" | DependsOnPackage => "DependsOnPackage"
  | DependsOnRepository => "DependsOnRepository" | ReadsTable => "ReadsTable"
  | WritesTable => "WritesTable" | Deploys => "Deploys" | Configures => "Configures"
  | Documents => "Documents" | OwnedBy => "OwnedBy" | ImplementedBy => "ImplementedBy"
  | Validates => "Validates" | ChangedIn => "ChangedIn" | Affects => "Affects"
  | Precedes => "Precedes" | Reverts => "Reverts" | CompatibleWith => "CompatibleWith"
  | IncompatibleWith => "IncompatibleWith" | MemberOf => "MemberOf" | ManualLink => "ManualLink"
  end.

(** [#[derive(Ord)]]: declaration order. *)
Definition edge_kinds : list EdgeKind :=
  [Contains; Provides; Consumes; CallsRemote; Publishes; Subscribes; DeliversTo;
   DependsOnPackage; DependsOnRepository; ReadsTable; WritesTable; Deploys; Configures;
   Documents; OwnedBy; ImplementedBy; Validates; ChangedIn; Affects; Precedes; Reverts;
   CompatibleWith; IncompatibleWith; MemberOf; ManualLink].
Definition edge_kind_rank (k : EdgeKind) : nat :=
  match k with
  | Contains => 0 | Provides => 1 | Consumes => 2 | CallsRemote => 3 | Publishes => 4
  | Subscribes => 5 | DeliversTo => 6 | DependsOnPackage => 7 | DependsOnRepository => 8
  | ReadsTable => 9 | WritesTable => 10 | Deploys => 11 | Configures => 12 | Documents => 13
  | OwnedBy => 14 | ImplementedBy => 15 | Validates => 16 | ChangedIn => 17 | Affects => 18
  | Precedes => 19 | Reverts => 20 | CompatibleWith => 21 | IncompatibleWith => 22
  | MemberOf => 23 | ManualLink => 24
  end.
Lemma edge_kind_rank_lookup k : edge_kinds !! edge_kind_rank k = Some k.
Proof. by destruct k. Qed.
#[export] Instance edge_kind_rank_inj : Inj (=) (=) edge_kind_rank.
Proof.
  intros x y E. pose proof (edge_kind_rank_lookup x) as Hx.
  rewrite E, edge_kind_rank_lookup in Hx. congruence.
Qed.
#[export] Instance EdgeKind_countable : Countable EdgeKind :=
  inj_countable edge_kind_rank (λ n, edge_kinds !! n) edge_kind_rank_lookup.

(** A type ordered through an injection into an ordered type. *)
Lemma ranked_total {A B} `{TotalOrd B} (rank : A → B) `{!Inj (=) (=) rank} :
  @TotalOrd A (cmp_on rank cmp).
Proof.
  split; [apply _|]. unfold cmp, cmp_on. intros x y E%cmp_eq. by apply (inj rank).
Qed.

#[export] Instance EdgeKind_ord : Ord EdgeKind := cmp_on edge_kind_rank cmp.
#[export] Instance EdgeKind_total : TotalOrd EdgeKind := ranked_total edge_kind_rank.

Definition link_status_rank (s : LinkStatus) : nat :=
  match s with Link_Confirmed => 0 | Link_Suppressed => 1 | Link_Ambiguous => 2 | Link_Rejected => 3 end.
#[export] Instance link_status_rank_inj : Inj (=) (=) link_status_rank.
Proof. by intros [] []. Qed.
#[export] Instance LinkStatus_ord : Ord LinkStatus := cmp_on link_status_rank cmp.
#[export] Instance LinkStatus_total : TotalOrd LinkStatus := ranked_total link_status_rank.

Definition gap_reason_rank (r : HttpLinkGapReason) : nat :=
  match r with Gap_NoProvider => 0 | Gap_Ambiguous => 1 | Gap_External => 2 end.
#[export] Instance gap_reason_rank_inj : Inj (=) (=) gap_reason_rank.
Proof. by intros [] []. Qed.
#[export] Instance HttpLinkGapReason_ord : Ord HttpLinkGapReason := cmp_on gap_reason_rank cmp.
#[export] Instance HttpLinkGapReason_total : TotalOrd HttpLinkGapReason :=
  ranked_total gap_reason_rank.

(** [HttpLinkGapReason::as_str] and [HttpLinkGapReason::parse]. *)
Definition gap_reason_as_str (r : HttpLinkGapReason) : string :=
  match r with
  | Gap_NoProvider => "no_provider"
  | Gap_Ambiguous => "ambiguous"
  | Gap_External => "external"
  end.
Definition gap_reason_parse (value : string) : option HttpLinkGapReason :=
  if String.eqb value "no_provider" then Some Gap_NoProvider
  else if String.eqb value "ambiguous" then Some Gap_Ambiguous
  else if String.eqb value "external" then Some Gap_External
  else None.

(** ** Records *)
Record NativePath := {
  np_encoding : NativePathEncoding;
  np_bytes : list N;
  np_display : string;
}.

Record ArtifactFingerprint := {
  fp_repo_id : RepoId;
  fp_checkout_id : CheckoutId;
  fp_path : NativePath;
  fp_extractor : string;
  fp_content_hash : string;
  fp_size_bytes : N;
}.

Record ArtifactChange := {
  ac_repo_id : RepoId;
  ac_checkout_id : CheckoutId;
  ac_path : NativePath;
  ac_extractor : string;
  ac_kind : ArtifactChangeKind;
}.

Record RepoFreshness := {
  rf_repo_id : RepoId;
  rf_checkout_id : CheckoutId;
  rf_head_commit : option string;
  rf_manifest_hash : string;
  rf_state : RepoFreshnessState;
  rf_reason : option string;
}.

Record Evidence := {
  ev_id : EvidenceId;
  ev_repo_id : option RepoId;
  ev_file_path : option string;
  ev_start_line : option N;
  ev_end_line : option N;
  ev_extractor : string;
  ev_extractor_version : string;
  ev_provenance : Provenance;
  ev_confidence : f32;
  ev_observed_at_commit : option string;
  ev_content_hash : option string;
  ev_note : option string;
}.

Record Node := {
  node_id : NodeId;
  node_kind : NodeKind;
  node_repo_id : option RepoId;
  node_stable_key : string;
  node_label : string;
}.

Record Edge := {
  edge_id : EdgeId;
  edge_source : NodeId;
  edge_target : NodeId;
  edge_kind : EdgeKind;
  edge_confidence : f32;
  edge_status : EpistemicStatus;
  edge_evidence : list EvidenceId;
}.

Record EvidenceRef := { er_id : EvidenceId; er_provenance : Provenance }.

Record RejectedAlternative := {
  ra_candidate : NodeId;
  ra_score : f32;
  ra_reasons : list string;
}.

(** [matcher_version] is a semantic version, kept as its three numbers. *)
Record LinkDecision := {
  ld_source : NodeId;
  ld_target : NodeId;
  ld_relation : EdgeKind;
  ld_matcher : string;
  ld_matcher_version : N * N * N;
  ld_score : f32;
  ld_confidence : f32;
  ld_reasons : list string;
  ld_rejected_alternatives : list RejectedAlternative;
  ld_evidence : list EvidenceRef;
  ld_status : LinkStatus;
}.

Record HttpLinkGap := {
  gap_caller : NodeId;
  gap_method : string;
  gap_path : string;
  gap_reason : HttpLinkGapReason;
  gap_candidates : list NodeId;
}.

Record HttpLinkCoverage := {
  cov_linked : N;
  cov_no_provider : N;
  cov_ambiguous : N;
  cov_external : N;
}.

Record HttpLinkReport := {
  report_coverage : HttpLinkCoverage;
  report_gaps : list HttpLinkGap;
}.

Record TraceSegment := {
  seg_source : Node;
  seg_edge : Edge;
  seg_target : Node;
}.

Record TraceReport := {
  tr_segments : list TraceSegment;
  tr_truncated : bool;
  tr_coverage_gaps : list string;
}.

#[export] Instance Node_eq_dec : EqDecision Node.
Proof. solve_decision. Defined.
#[export] Instance spec_float_eq_dec : EqDecision SpecFloat.spec_float.
Proof. solve_decision. Defined.
#[export] Instance Edge_eq_dec : EqDecision Edge.
Proof. solve_decision. Defined.
#[export] Instance HttpLinkGap_eq_dec : EqDecision HttpLinkGap.
Proof. solve_decision. Defined.

(** [#[derive(Eq, Ord, Hash)]] of [NativePath]. *)
Definition encoding_rank (e : NativePathEncoding) : nat :=
  match e with UnixBytes => 0 | WindowsWide => 1 | Utf8 => 2 end.
#[export] Instance encoding_rank_inj : Inj (=) (=) encoding_rank.
Proof. by intros [] []. Qed.
Definition path_key (p : NativePath) : nat * (list N * string) :=
  (encoding_rank (np_encoding p), (np_bytes p, np_display p)).
#[export] Instance path_key_inj : Inj (=) (=) path_key.
Proof.
  intros [] []. unfold path_key; simpl. intros [= E -> ->]. apply (inj encoding_rank) in E. by subst.
Qed.
Definition path_of_key (k : nat * (list N * string)) : option NativePath :=
  match [UnixBytes; WindowsWide; Utf8] !! k.1 with
  | Some e => Some {| np_encoding := e; np_bytes := k.2.1; np_display := k.2.2 |}
  | None => None
  end.
Lemma path_of_path_key p : path_of_key (path_key p) = Some p.
Proof. by destruct p as [[] ? ?]. Qed.
#[export] Instance NativePath_eq_dec : EqDecision NativePath.
Proof. solve_decision. Defined.
#[export] Instance NativePath_countable : Countable NativePath :=
  inj_countable path_key path_of_key path_of_path_key.
#[export] Instance NativePath_ord : Ord NativePath := cmp_on path_key cmp.
#[export] Instance NativePath_total : TotalOrd NativePath := ranked_total path_key.

(** [#[derive(Ord)]] of [HttpLinkGap]: field by field. *)
Definition gap_key (g : HttpLinkGap) : string * (string * (string * (HttpLinkGapReason * list string))) :=
  (gap_caller g, (gap_method g, (gap_path g, (gap_reason g, gap_candidates g)))).
#[export] Instance gap_key_inj : Inj (=) (=) gap_key.
Proof. intros [] []. unfold gap_key; simpl. congruence. Qed.
#[export] Instance HttpLinkGap_ord : Ord HttpLinkGap := cmp_on gap_key cmp.
#[export] Instance HttpLinkGap_total : TotalOrd HttpLinkGap := ranked_total gap_key.

(** ** Communities *)
Inductive CommunityAlgorithm := ConnectedComponents | WeightedClustering | Louvain.

Inductive CommunityScope :=
| CS_Federated | CS_Repository (repository : RepoId) | CS_Service (stable_key : string) | CS_Workspace.

Record CommunityEdgeWeight := { cw_kind : EdgeKind; cw_weight : f64 }.

Record CommunityConfig := {
  cc_algorithm : CommunityAlgorithm;
  cc_scope : CommunityScope;
  cc_seed : N;
  cc_resolution : f64;
  cc_minimum_confidence : f32;
  cc_edge_weights : list CommunityEdgeWeight;
  cc_max_iterations : N;
}.

Record CommunityMetrics := {
  cm_size : N;
  cm_density : f64;
  cm_cohesion : f64;
  cm_coupling : f64;
  cm_cross_community_edges : N;
}.

Record CommunityLabelEvidence := { cl_node_id : NodeId; cl_term : string }.

Record Community := {
  com_id : CommunityId;
  com_label : string;
  com_members : list NodeId;
  com_central_nodes : list NodeId;
  com_repositories : list RepoId;
  com_services : list NodeId;
  com_inbound_contracts : list NodeId;
  com_outbound_contracts : list NodeId;
  com_metrics : CommunityMetrics;
  com_label_evidence : list CommunityLabelEvidence;
  com_limitations : list string;
}.

Record CommunitySnapshot := {
  snap_id : string;
  snap_engine_version : string;
  snap_config : CommunityConfig;
  snap_communities : list Community;
}.
