(* ===== verification/Trace.v ===== *)
(** * Federated trace ([crates/code-system-graph-core/src/trace.rs])

    [FederatedGraph] is the validated projection a trace runs on, [new] its
    constructor, [trace] the bounded breadth-first search and [reconstruct] the
    walk back along the parents. *)
From stdpp Require Import base gmap list strings sorting.
From S2P Require Import Prelude RustOrd RustFloat RustStr Model.

Record FederatedGraph := {
  fg_nodes : gmap NodeId Node;
  fg_outgoing : gmap NodeId (list Edge);
}.

Inductive TraceError :=
| DanglingEdge (edge node : string)
| UnknownAnchor (anchor : string)
| InvalidDepth
| InconsistentPath (node : string).

(** ** Construction *)
Definition check_endpoint (nodes : gmap NodeId Node) (edge : Edge) (endpoint : NodeId)
    : result TraceError unit :=
  if contains_key nodes endpoint then Ok tt else Err (DanglingEdge (edge_id edge) endpoint).

(** [outgoing.entry(source).or_default().push(edge)] *)
Definition push_edge {A} (k : NodeId) (edge : A) (m : gmap NodeId (list A)) : gmap NodeId (list A) :=
  <[k := default [] (m !! k) ++ [edge]]> m.

Definition add_edge (nodes : gmap NodeId Node) (outgoing : gmap NodeId (list Edge)) (edge : Edge)
    : result TraceError (gmap NodeId (list Edge)) :=
  check? check_endpoint nodes edge (edge_source edge) in
  check? check_endpoint nodes edge (edge_target edge) in
  Ok (push_edge (edge_source edge) edge outgoing).

Definition edge_id_cmp : Edge → Edge → comparison := cmp_on edge_id cmp.

Definition node_map (nodes : list Node) : gmap NodeId Node :=
  btree_collect (map (λ node, (node_id node, node)) nodes).

Definition new (nodes : list Node) (edges : list Edge) : result TraceError FederatedGraph :=
  let nodes := node_map nodes in
  let? outgoing := try_fold (add_edge nodes) ∅ edges in
  Ok {| fg_nodes := nodes; fg_outgoing := sort_by edge_id_cmp <$> outgoing |}.

(** [self.outgoing.get(node).into_iter().flatten()] *)
Definition outgoing_of (g : FederatedGraph) (u : NodeId) : list Edge := default [] (fg_outgoing g !! u).

(** ** Breadth-first search *)
Record BfsState := {
  queue : list (NodeId * N);
  visited : gset NodeId;
  parents : gmap NodeId (NodeId * Edge);
  truncated : bool;
  found : bool;
}.

Definition discover (current : NodeId) (edge : Edge) (st : BfsState) : BfsState :=
  {| queue := queue st; visited := {[edge_target edge]} ∪ visited st;
     parents := <[edge_target edge := (current, edge)]> (parents st);
     truncated := truncated st; found := found st |}.
Definition set_found (st : BfsState) : BfsState :=
  {| queue := queue st; visited := visited st; parents := parents st;
     truncated := truncated st; found := true |}.
Definition push_back (x : NodeId * N) (st : BfsState) : BfsState :=
  {| queue := queue st ++ [x]; visited := visited st; parents := parents st;
     truncated := truncated st; found := found st |}.
Definition set_queue (q : list (NodeId * N)) (st : BfsState) : BfsState :=
  {| queue := q; visited := visited st; parents := parents st;
     truncated := truncated st; found := found st |}.
Definition mark_truncated (b : bool) (st : BfsState) : BfsState :=
  {| queue := queue st; visited := visited st; parents := parents st;
     truncated := truncated st || b; found := found st |}.

(** The [for edge in outgoing] loop: it breaks at the destination. *)
Fixpoint expand (to current : NodeId) (depth : N) (edges : list Edge) (st : BfsState) : BfsState :=
  match edges with
  | [] => st
  | edge :: rest =>
      if bool_decide (edge_target edge ∈ visited st) then expand to current depth rest st
      else
        let st' := discover current edge st in
        if bool_decide (edge_target edge = to) then set_found st'
        else expand to current depth rest (push_back (edge_target edge, depth + 1)%N st')
  end.

(** The [while let Some((current, depth)) = queue.pop_front()] loop; [None] when
    the fuel runs out. *)
Fixpoint bfs_loop (g : FederatedGraph) (to : NodeId) (max_depth : N) (fuel : nat) (st : BfsState)
    : option BfsState :=
  match fuel with
  | 0 => None
  | S fuel' =>
      match queue st with
      | [] => Some st
      | (current, depth) :: q =>
          let st := set_queue q st in
          if (max_depth <=? depth)%N then
            bfs_loop g to max_depth fuel'
              (mark_truncated (negb (bool_decide (outgoing_of g current = []))) st)
          else
            let st := expand to current depth (outgoing_of g current) st in
            if found st then Some st else bfs_loop g to max_depth fuel' st
      end
  end.

Definition bfs_start (from : NodeId) : BfsState :=
  {| queue := [(from, 0%N)]; visited := {[from]}; parents := ∅; truncated := false; found := false |}.

(** The [while current != from] loop; segments are pushed from the destination
    back and reversed at the end. *)
Fixpoint reconstruct_loop (g : FederatedGraph) (from : NodeId) (parents : gmap NodeId (NodeId * Edge))
    (fuel : nat) (current : NodeId) (segments : list TraceSegment)
    : option (result TraceError (list TraceSegment)) :=
  match fuel with
  | 0 => None
  | S fuel' =>
      if bool_decide (current = from) then Some (Ok (reverse segments))
      else
        match parents !! current with
        | None => Some (Err (InconsistentPath current))
        | Some (parent, edge) =>
            match fg_nodes g !! parent, fg_nodes g !! current with
            | None, _ => Some (Err (InconsistentPath parent))
            | _, None => Some (Err (InconsistentPath current))
            | Some source, Some target =>
                reconstruct_loop g from parents fuel' parent
                  (segments ++ [{| seg_source := source; seg_edge := edge; seg_target := target |}])
            end
        end
  end.

Definition no_path_gap : string :=
  "No confirmed path was observed within available coverage and bounds.".

(** One iteration per node is enough for both loops. *)
Definition trace_fuel (g : FederatedGraph) : nat := S (size (fg_nodes g)).

Definition trace (g : FederatedGraph) (from to : NodeId) (max_depth : N)
    : option (result TraceError TraceReport) :=
  if (max_depth =? 0)%N then Some (Err InvalidDepth)
  else if negb (contains_key (fg_nodes g) from) then Some (Err (UnknownAnchor from))
  else if negb (contains_key (fg_nodes g) to) then Some (Err (UnknownAnchor to))
  else if bool_decide (from = to) then
    Some (Ok {| tr_segments := []; tr_truncated := false; tr_coverage_gaps := [] |})
  else
    match bfs_loop g to max_depth (trace_fuel g) (bfs_start from) with
    | None => None
    | Some st =>
        if found st then
          match reconstruct_loop g from (parents st) (trace_fuel g) to [] with
          | None => None
          | Some (Err e) => Some (Err e)
          | Some (Ok segments) =>
              Some (Ok {| tr_segments := segments; tr_truncated := truncated st;
                          tr_coverage_gaps := [] |})
          end
        else
          Some (Ok {| tr_segments := []; tr_truncated := truncated st;
                      tr_coverage_gaps := [no_path_gap] |})
    end.

(** ** Construction: every endpoint exists, adjacency is the edge list *)
Lemma node_map_lookup nodes i n : node_map nodes !! i = Some n → node_id n = i ∧ n ∈ nodes.
Proof.
  unfold node_map. intros Hin%btree_collect_lookup_Some. apply list_elem_of_fmap in Hin.
  destruct Hin as (m & [= -> ->] & Hm). done.
Qed.

Lemma node_map_dom nodes i : is_Some (node_map nodes !! i) ↔ i ∈ map node_id nodes.
Proof.
  unfold node_map. rewrite <-not_eq_None_Some, btree_collect_lookup_None.
  rewrite <-list_fmap_compose. unfold compose; simpl.
  destruct (decide (i ∈ map node_id nodes)); tauto.
Qed.

Lemma push_edge_elem_of {A} k (e x : A) m u :
  x ∈ default [] (push_edge k e m !! u) ↔ (u = k ∧ x = e) ∨ x ∈ default [] (m !! u).
Proof.
  unfold push_edge. rewrite lookup_insert. case_decide; simpl; [subst; set_solver|naive_solver].
Qed.

Lemma check_endpoint_Ok nodes e x : check_endpoint nodes e x = Ok tt ↔ is_Some (nodes !! x).
Proof.
  unfold check_endpoint. rewrite <-contains_key_true. by destruct (contains_key nodes x).
Qed.

Lemma add_edge_Ok nodes m e m' :
  add_edge nodes m e = Ok m' ↔
  is_Some (nodes !! edge_source e) ∧ is_Some (nodes !! edge_target e) ∧ m' = push_edge (edge_source e) e m.
Proof.
  unfold add_edge. rewrite result_bind_Ok. setoid_rewrite result_bind_Ok. split.
  - intros ([] & H1%check_endpoint_Ok & [] & H2%check_endpoint_Ok & [= ->]). done.
  - intros (H1 & H2 & ->). exists tt. rewrite check_endpoint_Ok. split; [done|].
    exists tt. by rewrite check_endpoint_Ok.
Qed.

Lemma add_edges_spec nodes edges m :
  try_fold (add_edge nodes) ∅ edges = Ok m →
  (∀ e, e ∈ edges → is_Some (nodes !! edge_source e) ∧ is_Some (nodes !! edge_target e)) ∧
  (∀ u e, e ∈ default [] (m !! u) ↔ e ∈ edges ∧ edge_source e = u).
Proof.
  apply (try_fold_invariant (λ done m,
    (∀ e, e ∈ done → is_Some (nodes !! edge_source e) ∧ is_Some (nodes !! edge_target e)) ∧
    (∀ u e, e ∈ default [] (m !! u) ↔ e ∈ done ∧ edge_source e = u))).
  - split; [set_solver|]. intros u e. rewrite lookup_empty; simpl. set_solver.
  - intros done e t t' [Hd Ha] (Hs & Ht & ->)%add_edge_Ok _. split.
    + intros x. rewrite elem_of_app, list_elem_of_singleton. intros [?| ->]; auto.
    + intros u x. rewrite push_edge_elem_of, Ha, elem_of_app, list_elem_of_singleton. naive_solver.
Qed.

(** The facts about a built graph every proof about [trace] uses. *)
Record built (nodes : list Node) (edges : list Edge) (g : FederatedGraph) : Prop := {
  built_nodes : ∀ i, is_Some (fg_nodes g !! i) ↔ i ∈ map node_id nodes;
  built_id : ∀ i n, fg_nodes g !! i = Some n → node_id n = i ∧ n ∈ nodes;
  built_endpoints : ∀ e, e ∈ edges →
    is_Some (fg_nodes g !! edge_source e) ∧ is_Some (fg_nodes g !! edge_target e);
  built_outgoing : ∀ u e, e ∈ outgoing_of g u ↔ e ∈ edges ∧ edge_source e = u;
  built_sorted : ∀ u, StronglySorted (cmp_le edge_id_cmp) (outgoing_of g u);
}.

Lemma new_built nodes edges g : new nodes edges = Ok g → built nodes edges g.
Proof.
  unfold new. rewrite result_bind_Ok. intros (m & Hm & [= <-]).
  destruct (add_edges_spec _ _ _ Hm) as [He Ha].
  split; simpl; [apply node_map_dom|apply node_map_lookup|exact He|..]; intros u;
    unfold outgoing_of; simpl; rewrite lookup_fmap.
  - intros e. rewrite <-Ha. destruct (m !! u); simpl; [apply sort_by_elem_of|done].
  - destruct (m !! u); simpl; [|constructor].
    apply sort_by_sorted, cmp_on_lawful, total_lawful.
Qed.

(** ** Walks over the declared edges *)
Inductive walk (edges : list Edge) (from : NodeId) : list Edge → NodeId → Prop :=
| walk_nil : walk edges from [] from
| walk_snoc es v e :
    walk edges from es v → e ∈ edges → edge_source e = v → walk edges from (es ++ [e]) (edge_target e).

Lemma walk_endpoint nodes edges g from es v :
  built nodes edges g → is_Some (fg_nodes g !! from) → walk edges from es v → is_Some (fg_nodes g !! v).
Proof. intros Hb Hf. destruct 1; [done|]. by eapply built_endpoints. Qed.

(** ** The search invariant

    [dep] assigns every discovered node its distance. Queue entries carry their
    distances in order, and a node that left the queue has had its successors
    discovered, except those still pending in [pend]. *)
Section search.
Context (nodes : list Node) (edges : list Edge) (g : FederatedGraph).
Context (Hb : built nodes edges g) (from to : NodeId) (max_depth : N).
Context (Hfrom : is_Some (fg_nodes g !! from)) (Hne : from ≠ to).

Record tree (dep : gmap NodeId N) (st : BfsState) : Prop := {
  tree_dom : ∀ v, v ∈ visited st ↔ is_Some (dep !! v);
  tree_nodes : ∀ v, v ∈ visited st → is_Some (fg_nodes g !! v);
  tree_from : dep !! from = Some 0%N;
  tree_parents : ∀ v u e, parents st !! v = Some (u, e) →
    v ≠ from ∧ e ∈ outgoing_of g u ∧ edge_target e = v ∧
    ∃ d, dep !! u = Some d ∧ dep !! v = Some (d + 1)%N;
  tree_has_parent : ∀ v, v ∈ visited st → v = from ∨ is_Some (parents st !! v);
  tree_bound : ∀ v d, dep !! v = Some d → (d ≤ max_depth)%N;
}.

Definition settled (level : N) (pend : NodeId → Edge → Prop) (dep : gmap NodeId N) (st : BfsState)
    (v : NodeId) (d : N) : Prop :=
  (d ≤ level)%N ∧
  ((d < max_depth)%N → ∀ e, e ∈ outgoing_of g v → pend v e ∨
    ∃ d', dep !! edge_target e = Some d' ∧ (d' ≤ d + 1)%N) ∧
  ((max_depth ≤ d)%N → truncated st = false → outgoing_of g v = []).

Record inv (level : N) (pend : NodeId → Edge → Prop) (dep : gmap NodeId N) (st : BfsState) : Prop := {
  inv_tree : tree dep st;
  inv_queue_dep : ∀ v d, (v, d) ∈ queue st → dep !! v = Some d;
  inv_queue_sorted : StronglySorted N.le (queue st).*2;
  inv_queue_level : ∀ v d, (v, d) ∈ queue st → (level ≤ d ≤ level + 1)%N;
  inv_settled : ∀ v d, dep !! v = Some d → v ∉ (queue st).*1 → settled level pend dep st v d;
}.

Definition no_pend : NodeId → Edge → Prop := λ _ _, False.

Lemma inv_start : inv 0 no_pend {[from := 0%N]} (bfs_start from).
Proof.
  split; [split|..]; simpl.
  - intros v. rewrite elem_of_singleton. split; [intros ->; rewrite lookup_singleton_eq; eauto|].
    intros [d [? _]%lookup_singleton_Some]. done.
  - intros v ->%elem_of_singleton. done.
  - by rewrite lookup_singleton_eq.
  - intros v u e. by rewrite lookup_empty.
  - intros v ->%elem_of_singleton. by left.
  - intros v d [_ <-]%lookup_singleton_Some. lia.
  - intros v d [= -> ->]%list_elem_of_singleton. by rewrite lookup_singleton_eq.
  - repeat constructor.
  - intros v d [= -> ->]%list_elem_of_singleton. lia.
  - intros v d [<- _]%lookup_singleton_Some. set_solver.
Qed.

Lemma not_queued_dep st v d : v ∉ (queue st).*1 → (v, d) ∉ queue st.
Proof. intros Hout Hin. apply Hout, list_elem_of_fmap. by exists (v, d). Qed.

Lemma queued_entry st v : v ∈ (queue st).*1 → ∃ d, (v, d) ∈ queue st.
Proof. intros ([v' d] & -> & Hin)%list_elem_of_fmap. eauto. Qed.

(** Every discovered node is at most one beyond the level. *)
Lemma inv_dep_level level pend dep st v d :
  inv level pend dep st → dep !! v = Some d → (d ≤ level + 1)%N.
Proof.
  intros Hinv Hd. destruct (decide (v ∈ (queue st).*1)) as [[d' Hin]%queued_entry|Hout].
  - pose proof (inv_queue_level _ _ _ _ Hinv _ _ Hin).
    apply (inv_queue_dep _ _ _ _ Hinv) in Hin. simplify_eq. lia.
  - pose proof (proj1 (inv_settled _ _ _ _ Hinv v d Hd Hout)). lia.
Qed.

(** Every walk no longer than the level stays within the discovered nodes, at
    no greater distance. *)
Lemma inv_walk level dep st es v :
  inv level no_pend dep st → (level ≤ max_depth)%N →
  walk edges from es v → (len es ≤ level)%N → ∃ d, dep !! v = Some d ∧ (d ≤ len es)%N.
Proof.
  intros Hinv Hmax Hw. induction Hw as [|es v e Hw IH He Hs]; intros Hlen.
  - exists 0%N. split; [apply (inv_tree _ _ _ _ Hinv)|lia].
  - rewrite len_app, len_cons, len_nil in *. destruct IH as (d & Hd & Hle); [lia|].
    destruct (decide (v ∈ (queue st).*1)) as [[d' Hin]%queued_entry|Hout].
    { pose proof (inv_queue_level _ _ _ _ Hinv _ _ Hin).
      apply (inv_queue_dep _ _ _ _ Hinv) in Hin. simplify_eq. lia. }
    destruct (inv_settled _ _ _ _ Hinv v d Hd Hout) as (_ & Hsucc & _).
    destruct (Hsucc ltac:(lia) e) as [[]|(d' & Hd' & Hle')].
    { apply (built_outgoing _ _ _ Hb). auto. }
    exists d'. split; [done|lia].
Qed.

(** With the queue empty, every walk within the bound is covered; without
    truncation, every walk is. *)
Lemma inv_walk_done level dep st es v :
  inv level no_pend dep st → queue st = [] → walk edges from es v →
  (len es ≤ max_depth)%N ∨ truncated st = false → ∃ d, dep !! v = Some d ∧ (d ≤ len es)%N.
Proof.
  intros Hinv Hq Hw Hor. induction Hw as [|es v e Hw IH He Hs].
  - exists 0%N. split; [apply (inv_tree _ _ _ _ Hinv)|lia].
  - rewrite len_app, len_cons, len_nil in *.
    destruct IH as (d & Hd & Hle); [destruct Hor; [left; lia|by right]|].
    destruct (inv_settled _ _ _ _ Hinv v d Hd) as (_ & Hsucc & Hend); [rewrite Hq; set_solver|].
    assert (Hout : e ∈ outgoing_of g v) by (apply (built_outgoing _ _ _ Hb); auto).
    destruct (decide (d < max_depth)%N) as [Hlt|Hge].
    + destruct (Hsucc Hlt e Hout) as [[]|(d' & Hd' & Hle')]. exists d'. split; [done|lia].
    + destruct Hor as [Hlen|Htr]; [lia|]. rewrite Hend in Hout by (done || lia). set_solver.
Qed.

Lemma inv_raise level dep st c d q :
  inv level no_pend dep st → queue st = (c, d) :: q → inv d no_pend dep st ∧ (level ≤ d)%N.
Proof.
  intros Hinv Hq.
  assert (Hlev : (level ≤ d ≤ level + 1)%N).
  { apply (inv_queue_level _ _ _ _ Hinv c). rewrite Hq. set_solver. }
  split; [|lia]. destruct Hinv as [Ht Hqd Hqs Hql Hset]. split; [done..| |].
  - intros v e Hin. pose proof (Hql _ _ Hin). split; [|lia].
    rewrite Hq in Hqs, Hin. simpl in Hqs. apply StronglySorted_cons in Hqs as [Hall _].
    rewrite Forall_forall in Hall. apply elem_of_cons in Hin as [[= -> ->]|Hin]; [lia|].
    apply Hall, list_elem_of_fmap. by exists (v, e).
  - intros v e Hv Hout. destruct (Hset v e Hv Hout) as (H1 & H2 & H3).
    split; [lia|]. by split.
Qed.

(** Popping the head leaves its successors pending. *)
Lemma inv_pop dep st c d q :
  inv d no_pend dep st → queue st = (c, d) :: q → (d < max_depth)%N →
  inv d (λ v e, v = c ∧ e ∈ outgoing_of g c) dep (set_queue q st) ∧ dep !! c = Some d.
Proof.
  intros [Ht Hqd Hqs Hql Hset] Hq Hlt. rewrite Hq in Hqd, Hqs, Hql.
  assert (Hc : dep !! c = Some d) by (apply Hqd; set_solver).
  split; [|done]. split; simpl; [by destruct Ht; split|set_solver| |set_solver|].
  - by apply StronglySorted_cons in Hqs as [_ ?].
  - intros v e Hv Hout. destruct (decide (v = c)) as [->|Hvc].
    + simplify_eq. split; [lia|]. split; [by left; split|lia].
    + destruct (Hset v e Hv) as (H1 & H2 & H3); [rewrite Hq; simpl; set_solver|].
      split; [lia|]. split; [|done]. intros Hle e' He'. destruct (H2 Hle e' He') as [[]|?]. by right.
Qed.

(** Popping a node at the bound only records whether it had successors. *)
Lemma inv_pop_bound dep st c d q :
  inv d no_pend dep st → queue st = (c, d) :: q → (max_depth ≤ d)%N →
  inv d no_pend dep
    (mark_truncated (negb (bool_decide (outgoing_of g c = []))) (set_queue q st)).
Proof.
  intros [Ht Hqd Hqs Hql Hset] Hq Hge. rewrite Hq in Hqd, Hqs, Hql.
  assert (Hc : dep !! c = Some d) by (apply Hqd; set_solver).
  split; simpl; [by destruct Ht; split|set_solver| |set_solver|].
  - by apply StronglySorted_cons in Hqs as [_ ?].
  - intros v e Hv Hout. destruct (decide (v = c)) as [->|Hvc].
    + simplify_eq. split; [lia|]. split; [lia|]. simpl.
      intros _ [_ Hb2]%orb_false_iff. apply negb_false_iff, bool_decide_eq_true in Hb2. done.
    + destruct (Hset v e Hv) as (H1 & H2 & H3); [rewrite Hq; simpl; set_solver|].
      split; [lia|]. split; [done|]. simpl. intros ? [? _]%orb_false_iff. auto.
Qed.
Definition pending (c : NodeId) (es : list Edge) : NodeId → Edge → Prop := λ v e, v = c ∧ e ∈ es.

Lemma inv_pending_done level dep st c :
  inv level (pending c []) dep st → inv level no_pend dep st.
Proof.
  intros [Ht Hqd Hqs Hql Hset]. split; [done..|]. intros v d Hv Hout.
  destruct (Hset v d Hv Hout) as (H1 & H2 & H3). split; [done|]. split; [|done].
  intros Hlt e He. destruct (H2 Hlt e He) as [[_ []%not_elem_of_nil]|?]. by right.
Qed.

Lemma inv_skip dep st c d e es :
  inv d (pending c (e :: es)) dep st → dep !! c = Some d → edge_target e ∈ visited st →
  inv d (pending c es) dep st.
Proof.
  intros Hinv Hc Hvis. pose proof Hinv as [Ht Hqd Hqs Hql Hset].
  apply (tree_dom _ _ Ht) in Hvis as [dt Hdt].
  pose proof (inv_dep_level _ _ _ _ _ _ Hinv Hdt).
  split; [done..|]. intros v d' Hv Hout.
  destruct (Hset v d' Hv Hout) as (H1 & H2 & H3). split; [done|]. split; [|done].
  intros Hlt e' He'. destruct (H2 Hlt e' He') as [[-> Hin]|?]; [|by right].
  simplify_eq. apply elem_of_cons in Hin as [->|Hin]; [right; eauto|by left].
Qed.

Lemma tree_discover dep st c d e :
  tree dep st → dep !! c = Some d → (d < max_depth)%N → e ∈ outgoing_of g c →
  edge_target e ∉ visited st →
  tree (<[edge_target e := (d + 1)%N]> dep) (discover c e st).
Proof.
  intros Ht Hc Hlt He Hnew.
  assert (Hct : c ≠ edge_target e) by (intros ->; apply Hnew, (tree_dom _ _ Ht); eauto).
  assert (Hft : from ≠ edge_target e).
  { intros Eq. apply Hnew. rewrite <-Eq. apply (tree_dom _ _ Ht). rewrite (tree_from _ _ Ht). eauto. }
  split; simpl.
  - intros v. rewrite elem_of_union, elem_of_singleton, lookup_insert, (tree_dom _ _ Ht).
    case_decide as Hd; [subst; split; eauto|].
    split; [intros [->|?]; done|by right].
  - intros v [->%elem_of_singleton|?]%elem_of_union; [|by apply Ht].
    apply (built_outgoing _ _ _ Hb) in He as [He _]. by destruct (built_endpoints _ _ _ Hb _ He).
  - rewrite lookup_insert_ne by done. apply Ht.
  - intros v u e'. rewrite lookup_insert. case_decide as Hv.
    + intros [= <- <-]. subst v. split; [done|]. split; [done|]. split; [done|].
      exists d. rewrite lookup_insert_ne, lookup_insert_eq by done. done.
    + intros Hp. destruct (tree_parents _ _ Ht _ _ _ Hp) as (H1 & H2 & H3 & dd & H4 & H5).
      split_and!; [done..|]. exists dd.
      split; [|by rewrite lookup_insert_ne].
      rewrite lookup_insert_ne; [done|]. intros Eq. apply Hnew, (tree_dom _ _ Ht). rewrite Eq. eauto.
  - intros v [->%elem_of_singleton|Hv]%elem_of_union; [right; rewrite lookup_insert_eq; eauto|].
    destruct (tree_has_parent _ _ Ht v Hv) as [?|Hp]; [by left|right].
    rewrite lookup_insert. case_decide; eauto.
  - intros v d'. rewrite lookup_insert. case_decide; [intros [= <-]; lia|apply Ht].
Qed.

Lemma inv_push dep st c d e es :
  inv d (pending c (e :: es)) dep st → dep !! c = Some d → (d < max_depth)%N →
  e ∈ outgoing_of g c → edge_target e ∉ visited st →
  inv d (pending c es) (<[edge_target e := (d + 1)%N]> dep)
    (push_back (edge_target e, (d + 1)%N) (discover c e st)).
Proof.
  intros Hinv Hc Hlt He Hnew. pose proof Hinv as [Ht Hqd Hqs Hql Hset].
  pose proof (tree_discover _ _ _ _ _ Ht Hc Hlt He Hnew) as Ht'.
  assert (Hold : ∀ v d', dep !! v = Some d' → <[edge_target e := (d + 1)%N]> dep !! v = Some d').
  { intros v d' Hv. rewrite lookup_insert_ne; [done|]. intros <-. apply Hnew, (tree_dom _ _ Ht). eauto. }
  split; simpl.
  - by destruct Ht'; split.
  - intros v d' [Hin|[= -> ->]%list_elem_of_singleton]%elem_of_app; [auto|].
    by rewrite lookup_insert_eq.
  - rewrite fmap_app. apply StronglySorted_app_2; [|done|repeat constructor].
    intros x y ([v d'] & -> & Hin)%list_elem_of_fmap ->%list_elem_of_singleton; simpl.
    apply Hql in Hin. lia.
  - intros v d' [Hin|[= -> ->]%list_elem_of_singleton]%elem_of_app; [by eapply Hql|lia].
  - intros v d' Hv. rewrite fmap_app; simpl. intros Hout.
    rewrite lookup_insert_ne in Hv by set_solver.
    destruct (Hset v d' Hv) as (H1 & H2 & H3); [set_solver|].
    split; [done|]. split; [|done]. intros Hlt' e' He'.
    destruct (H2 Hlt' e' He') as [[-> Hin]|(dt & Hdt & Hle)]; [|right; eauto].
    simplify_eq. apply elem_of_cons in Hin as [->|Hin]; [|by left].
    right. exists (d + 1)%N. by rewrite lookup_insert_eq.
Qed.

(** The expansion of one node: either the destination was discovered one level
    on, or the invariant holds with nothing pending. *)
Lemma expand_spec c d es dep st :
  inv d (pending c es) dep st → dep !! c = Some d → (d < max_depth)%N →
  (∀ e, e ∈ es → e ∈ outgoing_of g c) → to ∉ visited st → found st = false →
  let st' := expand to c d es st in
  ∃ dep', (found st' = true ∧ tree dep' st' ∧ dep' !! to = Some (d + 1)%N) ∨
          (found st' = false ∧ inv d no_pend dep' st' ∧ to ∉ visited st').
Proof.
  revert dep st. induction es as [|e es IH]; intros dep st Hinv Hc Hlt Hsub Hto Hf; simpl.
  { exists dep. right. split; [done|]. split; [by eapply inv_pending_done|done]. }
  case_bool_decide as Hvis.
  { apply (IH dep); try done; [by eapply inv_skip|set_solver]. }
  assert (Hct : c ≠ edge_target e).
  { intros ->. apply Hvis, (tree_dom _ _ (inv_tree _ _ _ _ Hinv)). eauto. }
  case_bool_decide as Heq.
  - exists (<[edge_target e := (d + 1)%N]> dep). left. split; [done|]. split.
    + pose proof (tree_discover _ _ _ _ _ (inv_tree _ _ _ _ Hinv) Hc Hlt
        (Hsub e ltac:(set_solver)) Hvis) as []. by split.
    + by rewrite <-Heq, lookup_insert_eq.
  - apply (IH (<[edge_target e := (d + 1)%N]> dep)); simpl; try done.
    + apply inv_push; try done. set_solver.
    + by rewrite lookup_insert_ne.
    + set_solver.
    + set_solver.
Qed.

(** ** Fuel: each iteration consumes a queue entry, and a node enters once. *)
Definition remaining (st : BfsState) : nat :=
  size (dom (fg_nodes g) ∖ visited st) + length (queue st).

Lemma expand_remaining c d es st :
  (∀ e, e ∈ es → is_Some (fg_nodes g !! edge_target e)) →
  found (expand to c d es st) = false → remaining (expand to c d es st) = remaining st.
Proof.
  revert st. induction es as [|e es IH]; intros st Hn; simpl; [done|].
  case_bool_decide as Hvis; [apply IH; set_solver|]. case_bool_decide; [done|].
  intros Hf. rewrite IH; [|set_solver|done]. unfold remaining; simpl. rewrite length_app; simpl.
  assert (Hin : edge_target e ∈ dom (fg_nodes g) ∖ visited st).
  { apply elem_of_difference. split; [|done]. apply elem_of_dom, Hn. set_solver. }
  replace (dom (fg_nodes g) ∖ ({[edge_target e]} ∪ visited st))
    with ((dom (fg_nodes g) ∖ visited st) ∖ {[edge_target e]}) by set_solver.
  pose proof (size_difference_alt (dom (fg_nodes g) ∖ visited st) {[edge_target e]}) as Hsz.
  assert (Hcap : (dom (fg_nodes g) ∖ visited st) ∩ {[edge_target e]} = {[edge_target e]})
    by set_solver.
  rewrite Hcap, size_singleton in Hsz.
  assert (0 < size (dom (fg_nodes g) ∖ visited st)); [|lia].
  apply Nat.neq_0_lt_0. intros Hz%size_empty_inv. set_solver.
Qed.

(** What the search has established when it stops. *)
Definition bfs_done (st : BfsState) : Prop :=
  ∃ dep, (found st = true ∧ tree dep st ∧ ∃ n, dep !! to = Some n ∧
           ∀ es, walk edges from es to → (n ≤ len es)%N) ∨
         (found st = false ∧ ∀ es, walk edges from es to →
           ¬ (len es ≤ max_depth)%N ∧ truncated st = true).

Lemma bfs_loop_done fuel level dep st :
  inv level no_pend dep st → (level ≤ max_depth)%N → to ∉ visited st → found st = false →
  remaining st < fuel → ∃ st', bfs_loop g to max_depth fuel st = Some st' ∧ bfs_done st'.
Proof.
  revert level dep st. induction fuel as [|fuel IH]; intros level dep st Hinv Hlev Hto Hf Hfuel; [lia|].
  cbn [bfs_loop]. destruct (queue st) as [|[c d] q] eqn:Hq.
  { exists st. split; [done|]. exists dep. right. split; [done|]. intros es Hw.
    assert (Hno : ∀ d, dep !! to ≠ Some d).
    { intros d Hd. apply Hto, (tree_dom _ _ (inv_tree _ _ _ _ Hinv)). eauto. }
    split.
    - intros Hle. destruct (inv_walk_done _ _ _ _ _ Hinv Hq Hw (or_introl Hle)) as (d & Hd & _).
      by eapply Hno.
    - destruct (truncated st) eqn:Htr; [done|exfalso].
      destruct (inv_walk_done _ _ _ _ _ Hinv Hq Hw (or_intror Htr)) as (d & Hd & _).
      by eapply Hno. }
  destruct (inv_raise _ _ _ _ _ _ Hinv Hq) as [Hinv' Hle].
  assert (Hc : dep !! c = Some d) by (apply (inv_queue_dep _ _ _ _ Hinv); rewrite Hq; set_solver).
  pose proof (tree_bound _ _ (inv_tree _ _ _ _ Hinv) _ _ Hc) as Hdb.
  destruct (N.leb_spec max_depth d) as [Hge|Hlt].
  - apply (IH d dep); [by apply inv_pop_bound|done..|].
    unfold remaining in *; simpl. rewrite Hq in Hfuel; simpl in Hfuel. lia.
  - destruct (inv_pop _ _ _ _ _ Hinv' Hq Hlt) as [Hpop _].
    destruct (expand_spec c d (outgoing_of g c) dep (set_queue q st)) as [dep' Hcase]; try done.
    set (st' := expand to c d (outgoing_of g c) (set_queue q st)) in *.
    destruct Hcase as [(Hft & Htree & Hdto)|(Hff & Hinv'' & Hto'')].
    + rewrite Hft. exists st'. split; [done|]. exists dep'. left. split; [done|]. split; [done|].
      exists (d + 1)%N. split; [done|]. intros es Hw. apply N.le_succ_l in Hlt.
      destruct (decide (len es ≤ d)%N) as [Hs|?]; [exfalso|lia].
      destruct (inv_walk _ _ _ _ _ Hinv' ltac:(lia) Hw Hs) as (dt & Hdt & _).
      apply Hto, (tree_dom _ _ (inv_tree _ _ _ _ Hinv)). eauto.
    + rewrite Hff. apply (IH d dep'); [done|lia|done..|].
      unfold st'. rewrite expand_remaining; [|intros e He|done].
      * unfold remaining in *; simpl. rewrite Hq in Hfuel; simpl in Hfuel. lia.
      * apply (built_outgoing _ _ _ Hb) in He as [He _]. by destruct (built_endpoints _ _ _ Hb _ He).
Qed.

Lemma bfs_run_done :
  ∃ st, bfs_loop g to max_depth (trace_fuel g) (bfs_start from) = Some st ∧ bfs_done st.
Proof.
  apply (bfs_loop_done _ 0 {[from := 0%N]}); [apply inv_start|lia|simpl; set_solver|done|].
  unfold remaining, trace_fuel; simpl.
  assert (Hin : {[from]} ⊆ dom (fg_nodes g)) by (apply singleton_subseteq_l, elem_of_dom; done).
  rewrite size_difference by done. rewrite size_singleton, size_dom.
  assert (0 < size (fg_nodes g)); [|lia].
  apply Nat.neq_0_lt_0. intros Hz%map_size_empty_inv. rewrite Hz, lookup_empty in Hfrom.
  by destruct Hfrom.
Qed.
(** ** Reconstruction *)

(** The ancestors of a node at distance [d] are [d + 1] distinct nodes. *)
Lemma tree_ancestors dep st n v :
  tree dep st → dep !! v = Some (N.of_nat n) →
  ∃ A : gset NodeId, size A = S n ∧ A ⊆ visited st ∧
    ∀ w d, w ∈ A → dep !! w = Some d → (d ≤ N.of_nat n)%N.
Proof.
  intros Ht. revert v. induction n as [|n IH]; intros v Hv.
  - exists {[v]}. rewrite size_singleton. split; [done|]. split.
    + apply singleton_subseteq_l, (tree_dom _ _ Ht). eauto.
    + intros w d ->%elem_of_singleton Hd. simplify_eq. lia.
  - assert (Hvis : v ∈ visited st) by (apply (tree_dom _ _ Ht); eauto).
    destruct (tree_has_parent _ _ Ht v Hvis) as [->|[[u e] Hp]].
    { rewrite (tree_from _ _ Ht) in Hv. simplify_eq; lia. }
    destruct (tree_parents _ _ Ht _ _ _ Hp) as (_ & _ & _ & d & Hu & Hv').
    assert (d = N.of_nat n) as -> by (simplify_eq; lia).
    destruct (IH u Hu) as (A & Hsz & Hsub & Hle). exists ({[v]} ∪ A).
    assert (Hnew : v ∉ A) by (intros Hin; pose proof (Hle _ _ Hin Hv); lia).
    rewrite size_union, size_singleton, Hsz by set_solver. split; [done|]. split; [set_solver|].
    intros w d [->%elem_of_singleton|Hw]%elem_of_union Hd; [simplify_eq; lia|].
    pose proof (Hle _ _ Hw Hd). lia.
Qed.

Lemma tree_depth_fuel dep st v d :
  tree dep st → dep !! v = Some d → N.to_nat d < trace_fuel g.
Proof.
  intros Ht Hv. rewrite <-(N2Nat.id d) in Hv.
  destruct (tree_ancestors _ _ _ _ Ht Hv) as (A & Hsz & Hsub & _).
  assert (A ⊆ dom (fg_nodes g)) as Hdom.
  { intros w Hw. apply elem_of_dom, (tree_nodes _ _ Ht), Hsub, Hw. }
  apply subseteq_size in Hdom. rewrite size_dom in Hdom. unfold trace_fuel. lia.
Qed.

Definition segment_ok (s : TraceSegment) : Prop :=
  fg_nodes g !! edge_source (seg_edge s) = Some (seg_source s) ∧
  fg_nodes g !! edge_target (seg_edge s) = Some (seg_target s).

Lemma reconstruct_spec dep st fuel v d segs :
  tree dep st → dep !! v = Some d → N.to_nat d < fuel →
  ∃ path, reconstruct_loop g from (parents st) fuel v segs = Some (Ok (path ++ reverse segs)) ∧
    walk edges from (map seg_edge path) v ∧ len path = d ∧ Forall segment_ok path.
Proof.
  intros Ht. revert v d segs. induction fuel as [|fuel IH]; intros v d segs Hv Hfuel; [lia|].
  cbn [reconstruct_loop]. case_bool_decide as Heq.
  { subst v. rewrite (tree_from _ _ Ht) in Hv. simplify_eq. exists [].
    split; [done|]. split; [constructor|]. by split. }
  assert (Hvis : v ∈ visited st) by (apply (tree_dom _ _ Ht); eauto).
  destruct (tree_has_parent _ _ Ht v Hvis) as [?|[[u e] Hp]]; [done|]. rewrite Hp.
  destruct (tree_parents _ _ Ht _ _ _ Hp) as (_ & Hout & Htgt & du & Hu & Hv').
  assert (Hvu : u ∈ visited st) by (apply (tree_dom _ _ Ht); eauto).
  destruct (tree_nodes _ _ Ht u Hvu) as [nu Hnu]. destruct (tree_nodes _ _ Ht v Hvis) as [nv Hnv].
  rewrite Hnu, Hnv. simplify_eq.
  apply (built_outgoing _ _ _ Hb) in Hout as [He Hsrc].
  set (seg := {| seg_source := nu; seg_edge := e; seg_target := nv |}).
  destruct (IH u du (segs ++ [seg]) Hu) as (path & Hrun & Hw & Hlen & Hok); [lia|].
  exists (path ++ [seg]). rewrite Hrun, reverse_snoc, <-app_assoc. split; [done|].
  rewrite map_app; simpl. split; [by eapply walk_snoc|].
  rewrite len_app, len_cons, len_nil. split; [lia|].
  rewrite Forall_snoc. split; [done|]. unfold segment_ok; simpl. by rewrite Hsrc.
Qed.

Lemma trace_run :
  is_Some (fg_nodes g !! to) → (0 < max_depth)%N →
  ∃ report, trace g from to max_depth = Some (Ok report) ∧
    ((tr_coverage_gaps report = [] ∧ Forall segment_ok (tr_segments report) ∧
      walk edges from (map seg_edge (tr_segments report)) to ∧
      (len (tr_segments report) ≤ max_depth)%N ∧
      ∀ es, walk edges from es to → (len (tr_segments report) ≤ len es)%N) ∨
     (tr_segments report = [] ∧ tr_coverage_gaps report = [no_path_gap] ∧
      ∀ es, walk edges from es to → (max_depth < len es)%N ∧ tr_truncated report = true)).
Proof.
  intros Hto Hpos. unfold trace.
  rewrite (proj2 (N.eqb_neq max_depth 0)) by lia.
  rewrite (proj2 (contains_key_true _ _) Hfrom), (proj2 (contains_key_true _ _) Hto). cbn [negb].
  rewrite bool_decide_eq_false_2 by done.
  destruct bfs_run_done as (st & Hrun & dep & Hcase). rewrite Hrun.
  destruct Hcase as [(Hf & Ht & n & Hn & Hmin)|(Hf & Hno)]; rewrite Hf.
  - destruct (reconstruct_spec dep st (trace_fuel g) to n [] Ht Hn) as (path & Hrec & Hw & Hlen & Hok).
    { by eapply tree_depth_fuel. }
    rewrite Hrec. rewrite app_nil_r. eexists. split; [done|]. left; simpl.
    split_and!; [done..|rewrite Hlen; by eapply tree_bound|by rewrite Hlen].
  - eexists. split; [done|]. right; simpl. split_and!; [done..|].
    intros es Hes. destruct (Hno es Hes). split; [lia|done].
Qed.
End search.

(** ** Properties *)

(** The endpoint error [new] reports for the first offending edge: its source
    when that is missing, its target otherwise. *)
Definition dangling_error (nodes : list Node) (e : Edge) : option TraceError :=
  if bool_decide (edge_source e ∈ map node_id nodes) then
    if bool_decide (edge_target e ∈ map node_id nodes) then None
    else Some (DanglingEdge (edge_id e) (edge_target e))
  else Some (DanglingEdge (edge_id e) (edge_source e)).

Lemma add_edge_Err nodes m e err :
  add_edge (node_map nodes) m e = Err err ↔ dangling_error nodes e = Some err.
Proof.
  unfold add_edge, check_endpoint, dangling_error.
  assert (Hk : ∀ i, contains_key (node_map nodes) i = bool_decide (i ∈ map node_id nodes)).
  { intros i. unfold contains_key. apply bool_decide_ext, node_map_dom. }
  rewrite !Hk. repeat case_bool_decide; simpl; split; congruence.
Qed.

(** [FederatedGraph::new] fails exactly when an edge has an endpoint that is
    no node, and then reports the first such edge in input order, source before
    target; otherwise the graph has exactly the given nodes, and the outgoing
    edges of a node are exactly the given edges that start there, by identity. *)
Theorem new_spec nodes edges :
  match new nodes edges with
  | Ok g =>
      Forall (λ e, dangling_error nodes e = None) edges ∧
      (∀ i, is_Some (fg_nodes g !! i) ↔ i ∈ map node_id nodes) ∧
      (∀ u e, e ∈ outgoing_of g u ↔ e ∈ edges ∧ edge_source e = u) ∧
      (∀ u, StronglySorted (cmp_le edge_id_cmp) (outgoing_of g u))
  | Err err =>
      ∃ before e after, edges = before ++ e :: after ∧
        Forall (λ e, dangling_error nodes e = None) before ∧ dangling_error nodes e = Some err
  end.
Proof.
  destruct (new nodes edges) as [g|err] eqn:E.
  - pose proof (new_built _ _ _ E) as [H1 H2 H3 H4 H5]. split_and!; [|done..].
    apply Forall_forall. intros e He. destruct (H3 e He) as [Hs%H1 Ht%H1].
    unfold dangling_error. by rewrite !bool_decide_eq_true_2 by done.
  - unfold new in E. apply result_bind_Err in E as [E|(? & _ & [=])].
    revert E. generalize (∅ : gmap NodeId (list Edge)).
    induction edges as [|e edges IH]; simpl; [done|]. intros m. rewrite result_bind_Err.
    intros [He%add_edge_Err|(m' & Hm & Hrest)].
    + by exists [], e, edges.
    + destruct (IH _ Hrest) as (before & e' & after & -> & Hall & Herr).
      exists (e :: before), e', after. split_and!; [done| |done]. constructor; [|done].
      destruct (dangling_error nodes e) as [err'|] eqn:Ed; [|done].
      apply (add_edge_Err nodes m) in Ed. congruence.
Qed.

(** on a graph built by [new], a trace between two known anchors with a
    positive bound always ends with a report: the loops terminate and the
    inconsistent-path error is unreachable. Any other request gets the error of
    its first failed guard. *)
Theorem trace_total nodes edges g from to max_depth :
  new nodes edges = Ok g →
  if (max_depth =? 0)%N then trace g from to max_depth = Some (Err InvalidDepth)
  else if decide (from ∈ map node_id nodes) then
    if decide (to ∈ map node_id nodes) then ∃ report, trace g from to max_depth = Some (Ok report)
    else trace g from to max_depth = Some (Err (UnknownAnchor to))
  else trace g from to max_depth = Some (Err (UnknownAnchor from)).
Proof.
  intros Hb%new_built.
  assert (Hk : ∀ i, contains_key (fg_nodes g) i = bool_decide (i ∈ map node_id nodes)).
  { intros i. unfold contains_key. apply bool_decide_ext, Hb. }
  destruct (N.eqb_spec max_depth 0) as [->|Hd]; [done|].
  assert (Hd' : (max_depth =? 0)%N = false) by (by apply N.eqb_neq).
  destruct (decide (from ∈ _)) as [Hf|Hf].
  2: { unfold trace. rewrite Hd', Hk, bool_decide_eq_false_2 by done. done. }
  destruct (decide (to ∈ _)) as [Ht|Ht].
  2: { unfold trace. rewrite Hd', !Hk, bool_decide_eq_true_2, bool_decide_eq_false_2 by done. done. }
  destruct (decide (from = to)) as [<-|Hne].
  - unfold trace. rewrite Hd', !Hk, !bool_decide_eq_true_2 by done. simpl. eauto.
  - apply (built_nodes _ _ _ Hb) in Hf, Ht.
    destruct (trace_run nodes edges g Hb from to max_depth Hf Hne Ht) as (r & Hr & _); [lia|eauto].
Qed.

Lemma trace_Ok_inv nodes edges g from to max_depth report :
  new nodes edges = Ok g → trace g from to max_depth = Some (Ok report) →
  (tr_coverage_gaps report = [] ∧ Forall (segment_ok g) (tr_segments report) ∧
   walk edges from (map seg_edge (tr_segments report)) to ∧
   (len (tr_segments report) ≤ max_depth)%N ∧
   ∀ es, walk edges from es to → (len (tr_segments report) ≤ len es)%N) ∨
  (tr_segments report = [] ∧ tr_coverage_gaps report = [no_path_gap] ∧
   ∀ es, walk edges from es to → (max_depth < len es)%N ∧ tr_truncated report = true).
Proof.
  intros Hb%new_built Ht. pose proof Ht as Ht'. unfold trace in Ht.
  destruct (N.eqb_spec max_depth 0); [done|].
  destruct (contains_key (fg_nodes g) from) eqn:Hf; [|done].
  destruct (contains_key (fg_nodes g) to) eqn:Hto; [|done]. simpl in Ht.
  case_bool_decide as Heq.
  - simplify_eq. left; simpl. split_and!; [done..|constructor|unfold len; simpl; lia|].
    intros es _. unfold len; simpl. lia.
  - apply contains_key_true in Hf, Hto.
    destruct (trace_run nodes edges g Hb from to max_depth Hf Heq Hto) as (r & Hr & Hcase); [lia|].
    rewrite Hr in Ht'. by simplify_eq.
Qed.


(** a report with a coverage gap has no segments, no walk within the depth
    bound exists, and when the report is not truncated no walk of any length
    exists: an unobserved path is only ever hidden by the bound, and then the
    report says so. *)
Theorem trace_gap_complete nodes edges g from to max_depth report :
  new nodes edges = Ok g → trace g from to max_depth = Some (Ok report) →
  tr_coverage_gaps report ≠ [] →
  tr_segments report = [] ∧ tr_coverage_gaps report = [no_path_gap] ∧
  (∀ es, walk edges from es to → (max_depth < len es)%N) ∧
  (tr_truncated report = false → ∀ es, ¬ walk edges from es to).
Proof.
  intros Hn Ht Hgap. destruct (trace_Ok_inv _ _ _ _ _ _ _ Hn Ht) as [[? _]|(Hs & Hg & Hw)]; [done|].
  split_and!; [done..|by intros es [? _]%Hw|]. intros Htr es [_ Htr']%Hw. congruence.
Qed.

(** ** A concrete graph: [a -> b -> c] and the longer detour [a -> d -> e -> c] *)
Module Example_trace.
Definition n (i : string) : Node :=
  {| node_id := i; node_kind := NK_Service; node_repo_id := None; node_stable_key := i; node_label := i |}.
Definition e (i s t : string) : Edge :=
  {| edge_id := i; edge_source := s; edge_target := t; edge_kind := CallsRemote;
     edge_confidence := f32_one; edge_status := Confirmed; edge_evidence := [] |}.
Definition nodes : list Node := map n ["a"; "b"; "c"; "d"; "e"].
Definition edges : list Edge :=
  [e "1" "a" "d"; e "2" "d" "e"; e "3" "e" "c"; e "5" "b" "c"; e "4" "a" "b"; e "6" "c" "a"].
Definition g : FederatedGraph :=
  Eval vm_compute in match new nodes edges with Ok g => g | Err _ => {| fg_nodes := ∅; fg_outgoing := ∅ |} end.
Definition report (to : string) (depth : N) : TraceReport :=
  match trace g "a" to depth with
  | Some (Ok r) => r
  | _ => {| tr_segments := []; tr_truncated := false; tr_coverage_gaps := [] |}
  end.

Lemma trace_total_witness : new nodes edges = Ok g ∧ ∃ r, trace g "a" "c" 8 = Some (Ok r).
Proof.
  assert (H : new nodes edges = Ok g) by (vm_compute; reflexivity).
  split; [exact H|]. exact (trace_total nodes edges g "a" "c" 8 H).
Defined.


(** The status of an edge plays no part: an inferred relationship is followed like a confirmed one. *)
Example unconfirmed_followed :
  let inferred :=
    {| edge_id := "7"; edge_source := "a"; edge_target := "c"; edge_kind := CallsRemote;
       edge_confidence := f32_lit 1 (-2); edge_status := Inferred; edge_evidence := [] |} in
  match new nodes (inferred :: edges) with
  | Ok g =>
      match trace g "a" "c" 8 with
      | Some (Ok r) => map (λ s, edge_status (seg_edge s)) (tr_segments r) = [Inferred] ∧ tr_coverage_gaps r = []
      | _ => False
      end
  | Err _ => False
  end.
Proof. vm_compute. done. Qed.

Lemma trace_gap_complete_witness :
  tr_truncated (report "e" 1) = true ∧ ∀ es, walk edges "a" es "e" → (1 < len es)%N.
Proof.
  split; [vm_compute; reflexivity|].
  apply (trace_gap_complete nodes edges g "a" "e" 1 (report "e" 1)); [vm_compute; reflexivity..|].
  vm_compute. discriminate.
Defined.
End Example_trace.
