(* ===== verification/Incremental.v ===== *)
(** * Incremental planning ([crates/code-system-graph-core/src/incremental.rs])

    [plan_incremental_scan] compares two fingerprint sets and lists the
    artifacts to add, modify or delete, in key order. *)
From stdpp Require Import base gmap list strings sorting.
From S2P Require Import Prelude RustOrd RustStr Model.

(** [ArtifactKey]: repository, checkout, path and extractor. *)
Definition ArtifactKey : Type := RepoId * (CheckoutId * (NativePath * string)).

#[export] Instance ArtifactKey_eq_dec : EqDecision ArtifactKey := _.
#[export] Instance ArtifactKey_countable : Countable ArtifactKey := _.
#[export] Instance ArtifactKey_ord : Ord ArtifactKey := _.
#[export] Instance ArtifactKey_total : TotalOrd ArtifactKey := _.

Definition fingerprint_key (f : ArtifactFingerprint) : ArtifactKey :=
  (fp_repo_id f, (fp_checkout_id f, (fp_path f, fp_extractor f))).

Record IncrementalPlan := { changes : list ArtifactChange }.

Definition has_changes (plan : IncrementalPlan) : bool := negb (bool_decide (length (changes plan) = 0)).
Definition changed_count (plan : IncrementalPlan) : N := len (changes plan).

Definition fingerprint_map (fingerprints : list ArtifactFingerprint)
    : gmap ArtifactKey ArtifactFingerprint :=
  btree_collect (map (λ f, (fingerprint_key f, f)) fingerprints).

(** The key and kind of a current artifact that must be extracted again. *)
Definition added_or_modified (previous : gmap ArtifactKey ArtifactFingerprint)
    (entry : ArtifactKey * ArtifactFingerprint) : option (ArtifactKey * ArtifactChangeKind) :=
  match previous !! entry.1 with
  | None => Some (entry.1, Added)
  | Some before =>
      if String.eqb (fp_content_hash before) (fp_content_hash entry.2) then None
      else Some (entry.1, Modified)
  end.

Definition deleted (current : gmap ArtifactKey ArtifactFingerprint)
    (entry : ArtifactKey * ArtifactFingerprint) : option (ArtifactKey * ArtifactChangeKind) :=
  if contains_key current entry.1 then None else Some (entry.1, Deleted).

Definition artifact_change (p : ArtifactKey * ArtifactChangeKind) : ArtifactChange :=
  {| ac_repo_id := p.1.1; ac_checkout_id := p.1.2.1; ac_path := p.1.2.2.1;
     ac_extractor := p.1.2.2.2; ac_kind := p.2 |}.

Definition change_key (c : ArtifactChange) : ArtifactKey :=
  (ac_repo_id c, (ac_checkout_id c, (ac_path c, ac_extractor c))).

(** The two hash maps are visited in an unspecified order; sorting by the key
    makes the plan independent of it. *)
Definition plan_incremental_scan (previous current : list ArtifactFingerprint) : IncrementalPlan :=
  let previous := fingerprint_map previous in
  let current := fingerprint_map current in
  let work := omap (added_or_modified previous) (map_to_list current) ++
              omap (deleted current) (map_to_list previous) in
  {| changes := sort_by (cmp_on change_key cmp) (map artifact_change work) |}.

(** ** The specification of a plan: what happened to each key *)
Definition status_of (previous current : option ArtifactFingerprint) : option ArtifactChangeKind :=
  match previous, current with
  | None, Some _ => Some Added
  | Some before, Some after =>
      if String.eqb (fp_content_hash before) (fp_content_hash after) then None else Some Modified
  | Some _, None => Some Deleted
  | None, None => None
  end.

Lemma artifact_change_key p : change_key (artifact_change p) = p.1.
Proof. by destruct p as [[? [? [? ?]]] ?]. Qed.

Lemma artifact_change_inj k kind c :
  c = artifact_change (k, kind) ↔ change_key c = k ∧ ac_kind c = kind.
Proof.
  destruct k as [? [? [? ?]]], c. unfold change_key, artifact_change; simpl.
  split; [intros [=]; subst; done|intros [[=] ?]; subst; done].
Qed.

Section plan.
Context (previous current : gmap ArtifactKey ArtifactFingerprint).

Lemma added_elem_of k kind :
  (k, kind) ∈ omap (added_or_modified previous) (map_to_list current) ↔
  is_Some (current !! k) ∧ status_of (previous !! k) (current !! k) = Some kind.
Proof.
  rewrite list_elem_of_omap. split.
  - intros ([k' f] & Hin%elem_of_map_to_list & Hf). unfold added_or_modified in Hf; simpl in Hf.
    destruct (previous !! k') as [b|] eqn:Hp; [destruct (String.eqb _ _) eqn:He; [done|]|];
      injection Hf as <- <-; rewrite Hin, Hp; simpl; rewrite ?He; eauto.
  - intros [[f Hf] Hs]. exists (k, f). split; [by apply elem_of_map_to_list|].
    rewrite Hf in Hs. unfold added_or_modified, status_of in *; simpl.
    destruct (previous !! k); [destruct (String.eqb _ _)|]; congruence.
Qed.

Lemma deleted_elem_of k kind :
  (k, kind) ∈ omap (deleted current) (map_to_list previous) ↔
  current !! k = None ∧ status_of (previous !! k) (current !! k) = Some kind.
Proof.
  rewrite list_elem_of_omap. split.
  - intros ([k' f] & Hin%elem_of_map_to_list & Hf). unfold deleted in Hf; simpl in Hf.
    destruct (contains_key current k') eqn:Hc; [done|]. injection Hf as <- <-.
    apply contains_key_false in Hc. by rewrite Hc, Hin.
  - intros [Hc Hs]. rewrite Hc in Hs. unfold status_of in Hs.
    destruct (previous !! k) as [f|] eqn:Hp; [|done]. exists (k, f).
    split; [by apply elem_of_map_to_list|]. unfold deleted; simpl.
    apply contains_key_false in Hc. rewrite Hc. congruence.
Qed.

Lemma omap_key_NoDup {V B} (f : ArtifactKey * V → option (ArtifactKey * B)) (m : gmap ArtifactKey V) :
  (∀ e r, f e = Some r → r.1 = e.1) → NoDup (omap f (map_to_list m)).*1.
Proof.
  intros Hf. pose proof (NoDup_fst_map_to_list m) as Hnd. revert Hnd.
  induction (map_to_list m) as [|e l IH]; csimpl; [constructor|].
  intros [Hnot Hnd]%NoDup_cons. destruct (f e) as [r|] eqn:E; [|by apply IH]. csimpl.
  apply NoDup_cons. split; [|by apply IH]. rewrite (Hf _ _ E). intros Hin. apply Hnot.
  apply list_elem_of_fmap in Hin as (r' & Heq & Hr').
  apply list_elem_of_omap in Hr' as (e' & He' & Hfe').
  apply list_elem_of_fmap. exists e'. split; [|done]. rewrite Heq. by apply Hf.
Qed.

Definition work : list (ArtifactKey * ArtifactChangeKind) :=
  omap (added_or_modified previous) (map_to_list current) ++ omap (deleted current) (map_to_list previous).

Lemma work_elem_of k kind :
  (k, kind) ∈ work ↔ status_of (previous !! k) (current !! k) = Some kind.
Proof.
  unfold work. rewrite elem_of_app, added_elem_of, deleted_elem_of.
  destruct (current !! k); naive_solver.
Qed.

Lemma work_NoDup : NoDup work.*1.
Proof.
  unfold work. rewrite fmap_app. apply NoDup_app. split_and!.
  - apply omap_key_NoDup. intros [k f] r. unfold added_or_modified; simpl.
    destruct (previous !! k); [destruct (String.eqb _ _)|]; naive_solver.
  - intros k ([k1 kind1] & -> & [Hc _]%added_elem_of)%list_elem_of_fmap; simpl.
    intros ([k2 kind2] & -> & [Hn _]%deleted_elem_of)%list_elem_of_fmap.
    simpl in *. rewrite Hn in Hc. by destruct Hc.
  - apply omap_key_NoDup. intros [k f] r. unfold deleted; simpl.
    destruct (contains_key current k); naive_solver.
Qed.
End plan.

Lemma plan_keys previous current :
  map change_key (changes (plan_incremental_scan previous current)) ≡ₚ
  (work (fingerprint_map previous) (fingerprint_map current)).*1.
Proof.
  unfold plan_incremental_scan, work; simpl. rewrite sort_by_perm.
  rewrite <-list_fmap_compose, (list_fmap_ext (change_key ∘ artifact_change) fst); [done|].
  intros _ x _. apply artifact_change_key.
Qed.

Lemma sorted_keys_strict {A} (l : list A) (key : A → ArtifactKey) :
  StronglySorted (cmp_le (cmp_on key cmp)) l → NoDup (map key l) → strictly_sorted (map key l).
Proof.
  intros Hs Hnd. apply sorted_NoDup_strict; [|done].
  clear Hnd. induction Hs as [|x l Hl IH Hx]; simpl; constructor; [done|].
  rewrite Forall_fmap. exact Hx.
Qed.

Lemma plan_elem_of previous current c :
  c ∈ changes (plan_incremental_scan previous current) ↔
  status_of (fingerprint_map previous !! change_key c) (fingerprint_map current !! change_key c) = Some (ac_kind c).
Proof.
  unfold plan_incremental_scan; simpl. rewrite sort_by_elem_of, list_elem_of_fmap.
  rewrite <-work_elem_of. fold (work (fingerprint_map previous) (fingerprint_map current)). split.
  - intros ([k kind] & Hc & Hin). apply artifact_change_inj in Hc as [-> ->]. done.
  - intros Hin. eexists. split; [|exact Hin]. by apply artifact_change_inj.
Qed.

(** C40: the plan lists exactly the keys whose artifact appeared, disappeared or
    changed its content hash, each once and with the right kind, in strictly
    increasing key order; an artifact absent from the plan is unchanged. *)
Theorem plan_exact previous current :
  let plan := changes (plan_incremental_scan previous current) in
  (∀ c, c ∈ plan ↔
    status_of (fingerprint_map previous !! change_key c) (fingerprint_map current !! change_key c)
      = Some (ac_kind c)) ∧
  strictly_sorted (map change_key plan).
Proof.
  split; [apply plan_elem_of|]. apply sorted_keys_strict.
  - apply sort_by_sorted, cmp_on_lawful, total_lawful.
  - rewrite plan_keys. apply work_NoDup.
Qed.

Lemma fingerprint_map_perm l k :
  NoDup (map fingerprint_key l) → l ≡ₚ k → fingerprint_map l = fingerprint_map k.
Proof.
  intros Hnd Hp. assert (Hk : NoDup (map fingerprint_key k)) by (by rewrite <-Hp).
  assert (Hfst : ∀ l : list ArtifactFingerprint,
    (map (λ f, (fingerprint_key f, f)) l).*1 = map fingerprint_key l).
  { intros l0. by rewrite <-list_fmap_compose. }
  apply map_eq. intros i. apply option_eq. intros f. unfold fingerprint_map.
  split; intros H; apply btree_collect_lookup_Some in H;
    apply btree_collect_NoDup; rewrite ?Hfst; try done.
  - by rewrite <-Hp.
  - by rewrite Hp.
Qed.

(** a plan does not depend on the order in which either fingerprint set is
    enumerated, and a scan that finds the fingerprints of the previous snapshot
    has no work. *)
Theorem plan_deterministic previous previous' current current' :
  NoDup (map fingerprint_key previous) → NoDup (map fingerprint_key current) →
  previous ≡ₚ previous' → current ≡ₚ current' →
  plan_incremental_scan previous current = plan_incremental_scan previous' current' ∧
  has_changes (plan_incremental_scan previous previous') = false.
Proof.
  intros Hp Hc Hpp Hcc. split.
  - unfold plan_incremental_scan.
    by rewrite (fingerprint_map_perm _ _ Hp Hpp), (fingerprint_map_perm _ _ Hc Hcc).
  - destruct (changes (plan_incremental_scan previous previous')) as [|c cs] eqn:E.
    + unfold has_changes. by rewrite E.
    + exfalso. assert (Hin : c ∈ c :: cs) by set_solver. rewrite <-E in Hin. apply plan_elem_of in Hin.
      rewrite (fingerprint_map_perm _ _ Hp Hpp) in Hin. unfold status_of in Hin.
      destruct (_ !! _) as [f|]; [|done]. by rewrite String.eqb_refl in Hin.
Qed.

Module Example_incremental.
Definition fp (path hash : string) : ArtifactFingerprint :=
  {| fp_repo_id := "repo:a"; fp_checkout_id := "checkout:a";
     fp_path := {| np_encoding := UnixBytes; np_bytes := []; np_display := path |};
     fp_extractor := "openapi"; fp_content_hash := hash; fp_size_bytes := 1 |}.
Definition before : list ArtifactFingerprint := [fp "x" "1"; fp "y" "1"; fp "z" "1"].
Definition after : list ArtifactFingerprint := [fp "z" "2"; fp "w" "1"; fp "x" "1"].

Example plan_kinds :
  map (λ c, (np_display (ac_path c), ac_kind c)) (changes (plan_incremental_scan before after)) =
  [("w", Added); ("y", Deleted); ("z", Modified)].
Proof. vm_compute. reflexivity. Qed.

Lemma plan_deterministic_witness :
  plan_incremental_scan before after = plan_incremental_scan (reverse before) (reverse after) ∧
  has_changes (plan_incremental_scan before (reverse before)) = false.
Proof.
  apply plan_deterministic; try (apply (bool_decide_eq_true_1 _); vm_compute; reflexivity);
    symmetry; apply reverse_Permutation.
Defined.
End Example_incremental.
