(* ===== verification/RouteShape.v ===== *)
(** * Route shapes ([crates/code-system-graph-core/src/routes.rs])

    [RouteShape::parse] and the classification of path segments, the canonical
    rendering, and the matching of a concrete segment against a mixed one. *)
From Stdlib Require Import Ascii.
From stdpp Require Import base gmap list strings sorting.
From S2P Require Import Prelude RustOrd RustStr.

Inductive RouteSegment :=
| Static (value : string)
| Param
| Mixed (literals : list string)
| CatchAll.

#[export] Instance RouteSegment_eq_dec : EqDecision RouteSegment.
Proof. solve_decision. Defined.

Record RouteShape := { segments : list RouteSegment }.

Definition char_is (a : Ascii.ascii) : Ascii.ascii → bool := Ascii.eqb a.
#[global] Arguments char_is a%_char_scope.

(** ** [mixed_segment_literals]

    The [while let Some((prefix, parameter)) = remaining.split_once('{')] loop;
    every iteration drops at least the brace, so the length is fuel enough. *)
Fixpoint mixed_loop (fuel : nat) (remaining : string) (literals : list string)
    : option (list string * string) :=
  match fuel with
  | 0 => None
  | S fuel' =>
      match split_once "{" remaining with
      | None => Some (literals, remaining)
      | Some (prefix, parameter) =>
          match split_once "}" parameter with
          | None => None
          | Some (name, suffix) =>
              if contains_char "{" name || contains_char "}" prefix then None
              else mixed_loop fuel' suffix (literals ++ [default prefix (strip_suffix "$" prefix)])
          end
      end
  end.

Definition mixed_segment_literals (segment : string) : option (list string) :=
  match mixed_loop (S (String.length segment)) segment [] with
  | None => None
  | Some (literals, remaining) =>
      if bool_decide (literals = []) || contains_char "}" remaining then None
      else Some (literals ++ [remaining])
  end.

(** ** [classify_segment] *)
Definition strip_both (opening closing : string) (s : string) : option string :=
  match strip_prefix opening s with
  | Some rest => strip_suffix closing rest
  | None => None
  end.

Definition catch_all_name (inner : string) : bool :=
  starts_with "*" inner || ends_with "..." inner || ends_with ":path" inner
  || ends_with ":.*" inner || ends_with ":.+" inner.

Definition braced (segment : string) : option string :=
  match strip_both "{" "}" segment with
  | Some inner => if contains_char "{" inner || contains_char "}" inner then None else Some inner
  | None => None
  end.

Definition colon_name (segment : string) : option string :=
  match strip_prefix ":" segment with
  | Some name => if String.eqb name "" then None else Some name
  | None => None
  end.

Definition classify_segment (segment : string) : RouteSegment :=
  if String.eqb segment "*" || String.eqb segment "**" then CatchAll
  else match braced segment with
  | Some inner => if catch_all_name inner then CatchAll else Param
  | None =>
  if (starts_with "[..." segment && ends_with "]" segment)
     || (starts_with "[[..." segment && ends_with "]]" segment) then CatchAll
  else if (2 <? String.length segment)%nat && starts_with "[" segment && ends_with "]" segment then Param
  else match strip_both "<" ">" segment with
  | Some inner => if starts_with "path:" inner then CatchAll else Param
  | None =>
  match colon_name segment with
  | Some name => if ends_with "*" name || ends_with "+" name then CatchAll else Param
  | None =>
  if (1 <? String.length segment)%nat && starts_with "*" segment then CatchAll
  else match mixed_segment_literals segment with
  | Some literals =>
      if (length literals =? 2)%nat && forallb (λ l, String.eqb l "") literals then Param
      else Mixed literals
  | None => Static segment
  end end end end.

(** ** [RouteShape::parse], [canonical] *)

(** The segment loop stops after a catch-all. *)
Fixpoint push_segments (parts : list string) : list RouteSegment :=
  match parts with
  | [] => []
  | segment :: rest =>
      let classified := classify_segment segment in
      if bool_decide (classified = CatchAll) then [classified] else classified :: push_segments rest
  end.

Definition path_only (path : string) : string :=
  default "" (head (split_by (λ c, char_is "?" c || char_is "#" c) path)).

Definition path_parts (path : string) : list string :=
  List.filter (λ s, negb (String.eqb s "")) (split_by (char_is "/") (path_only path)).

Definition parse (path : string) : RouteShape := {| segments := push_segments (path_parts path) |}.

Definition is_concrete (shape : RouteShape) : bool :=
  forallb (λ s, match s with Static _ => true | _ => false end) (segments shape).

Definition render_segment (s : RouteSegment) : string :=
  match s with
  | Static value => value
  | Param => "{}"
  | Mixed literals => join "{}" literals
  | CatchAll => "{*}"
  end.

Definition canonical (shape : RouteShape) : string :=
  match segments shape with
  | [] => "/"
  | segs => foldl (λ rendered s, rendered +:+ "/" +:+ render_segment s) "" segs
  end.

Definition canonical_route (path : string) : string := canonical (parse path).

(** ** [mixed_segment_matches] *)

(** The loop over the middle literals; each parameter takes a whole character
    before the next literal is searched for. *)
Fixpoint match_middle (middle : list string) (remaining : string) : option string :=
  match middle with
  | [] => Some remaining
  | literal :: rest =>
      if String.eqb remaining "" then None
      else
        match split_once literal (str_drop (utf8_width (byte_at remaining)) remaining) with
        | Some (_, after) => match_middle rest after
        | None => None
        end
  end.

Definition mixed_segment_matches (literals : list string) (value : string) : bool :=
  match literals with
  | prefix :: (_ :: _) as tail =>
      let middle := removelast (List.tl literals) in
      let suffix := List.last literals "" in
      match strip_prefix prefix value with
      | None => false
      | Some remaining =>
          match strip_suffix suffix remaining with
          | None => false
          | Some remaining =>
              match match_middle middle remaining with
              | None => false
              | Some remaining => negb (String.eqb remaining "")
              end
          end
      end
  | _ => false
  end.

Example classify_examples :
  map classify_segment ["orders"; "{id}"; ":id"; "<int:id>"; "[id]"; "{*rest}"; "{path...}"; "<path:rest>";
    "[...slug]"; "*filepath"; "{name}.json"; "v${major}.{minor}"; "{id:.+}"; "a{b"; ":"; "{a}{b}"] =
  [Static "orders"; Param; Param; Param; Param; CatchAll; CatchAll; CatchAll; CatchAll; CatchAll;
   Mixed [""; ".json"]; Mixed ["v"; "."; ""]; CatchAll; Static "a{b"; Static ":"; Mixed [""; ""; ""]].
Proof. vm_compute. reflexivity. Qed.

Example canonical_examples :
  map canonical_route ["/orders/{id}/items?x=1"; "orders/:id"; ""; "//a/*rest/b"; "/f/{n}.json#x"] =
  ["/orders/{}/items"; "/orders/{}"; "/"; "/a/{*}"; "/f/{}.json"].
Proof. vm_compute. reflexivity. Qed.

Example matches_examples :
  map (λ p : list string * string, mixed_segment_matches p.1 p.2)
    [([""; ".json"], "a.json"); ([""; ".json"], ".json"); (["v"; "."; ""], "v1.2"); (["v"; "."; ""], "v1.");
     ([""; ""; ""], "ab"); ([""; ""; ""], "a"); (["a"], "a")] =
  [true; false; true; false; true; false; false].
Proof. vm_compute. reflexivity. Qed.

(** ** Literals of a mixed segment *)
Definition brace_free (s : string) : Prop := contains_char "{" s = false ∧ contains_char "}" s = false.
Definition no_dollar_end (s : string) : Prop := strip_suffix "$" s = None.

Lemma join_cons sep p q ps : join sep (p :: q :: ps) = p +:+ sep +:+ join sep (q :: ps).
Proof. done. Qed.

Lemma split_first_brace l rest :
  brace_free l → split_once "{" (l +:+ "{}" +:+ rest) = Some (l, "}" +:+ rest).
Proof. intros [H _]. apply (split_once_char "{" l ("}" +:+ rest) H). Qed.

(** The loop on a rendered list of literals gives the literals back. *)
Lemma mixed_loop_join init final fuel acc :
  Forall (λ l, brace_free l ∧ no_dollar_end l) init → brace_free final → length init < fuel →
  mixed_loop fuel (join "{}" (init ++ [final])) acc = Some (acc ++ init, final).
Proof.
  revert fuel acc. induction init as [|l init IH]; intros fuel acc Hinit Hfin Hfuel;
    (destruct fuel as [|fuel]; [simpl in Hfuel; lia|]); cbn [mixed_loop].
  - simpl. rewrite (proj2 (split_once_char_None "{" final)) by apply Hfin. by rewrite app_nil_r.
  - apply Forall_cons in Hinit as [[Hl Hd] Hinit].
    assert (Hj : join "{}" ((l :: init) ++ [final]) = l +:+ "{}" +:+ join "{}" (init ++ [final])).
    { by destruct init. }
    rewrite Hj, split_first_brace by done.
    rewrite (split_once_char "}" "" _ eq_refl : split_once "}" ("}" +:+ _) = Some ("", _)).
    rewrite (proj2 Hl), Hd; simpl. rewrite IH; [|done..|simpl in Hfuel; lia].
    by rewrite <-app_assoc.
Qed.

Lemma length_join_literals (ls : list string) : (length ls ≤ S (String.length (join "{}" ls)))%nat.
Proof.
  induction ls as [|l [|l' ls] IH]; [simpl; lia..|].
  rewrite join_cons, !string_length_app. cbn [length] in *. simpl (String.length "{}"). lia.
Qed.

Lemma join_brace_free_last init final :
  init ≠ [] → contains_char "{" (join "{}" (init ++ [final])) = true.
Proof.
  destruct init as [|l init]; [done|]. intros _.
  assert (join "{}" ((l :: init) ++ [final]) = l +:+ "{}" +:+ join "{}" (init ++ [final])) as ->
    by (by destruct init).
  rewrite contains_char_app. unfold contains_char at 2; simpl. apply orb_true_r.
Qed.

Lemma mixed_literals_join init final :
  init ≠ [] → Forall (λ l, brace_free l ∧ no_dollar_end l) init → brace_free final →
  mixed_segment_literals (join "{}" (init ++ [final])) = Some (init ++ [final]).
Proof.
  intros Hne Hinit Hfin. unfold mixed_segment_literals.
  rewrite mixed_loop_join; [|done..|].
  - simpl. rewrite bool_decide_eq_false_2 by done. by rewrite (proj2 Hfin).
  - pose proof (length_join_literals (init ++ [final])) as H. rewrite length_app in H; simpl in H. lia.
Qed.

(** What the loop finds: brace-free literals whose characters come from the
    segment, the first at its start, the remainder at its end. *)
Lemma mixed_loop_sound fuel s acc lits rem :
  mixed_loop fuel s acc = Some (lits, rem) →
  ∃ new, lits = acc ++ new ∧ Forall brace_free new ∧ contains_char "{" rem = false ∧
    (∃ pre, s = pre +:+ rem) ∧
    (∀ f, (∃ l, l ∈ new ∧ str_any f l = true) → str_any f s = true) ∧
    (∀ l, head new = Some l → ∃ post, s = l +:+ post).
Proof.
  revert s acc. induction fuel as [|fuel IH]; intros s acc; simpl; [done|].
  destruct (split_once "{" s) as [[prefix parameter]|] eqn:E1.
  2: { intros [= <- <-]. exists []. rewrite app_nil_r. split_and!; try done.
       - by apply split_once_char_None.
       - by exists "".
       - by intros f (l & ?%not_elem_of_nil & _). }
  destruct (split_once "}" parameter) as [[name suffix]|] eqn:E2; [|done].
  destruct (contains_char "{" name || contains_char "}" prefix) eqn:E3; [done|].
  apply orb_false_iff in E3 as [E3 E4]. intros Hrun.
  destruct (IH _ _ Hrun) as (new & -> & Hbf & Hrem & [pre Hpre] & Hch & Hhd).
  apply split_once_Some_app in E1 as Hs. apply split_once_Some_app in E2 as ->.
  set (lit := default prefix (strip_suffix "$" prefix)) in *.
  assert (Hlit : ∃ t, prefix = lit +:+ t).
  { unfold lit. destruct (strip_suffix "$" prefix) as [p|] eqn:Ed; simpl.
    - apply strip_suffix_Some in Ed. by exists "$".
    - exists "". by rewrite string_app_nil_r. }
  destruct Hlit as [t Ht].
  assert (Hpb : contains_char "{" prefix = false).
  { by eapply split_once_char_before. }
  exists (lit :: new). rewrite <-app_assoc. split; [done|]. split_and!.
  - constructor; [|done]. rewrite Ht, !contains_char_app in Hpb, E4.
    apply orb_false_iff in Hpb as [? _], E4 as [? _]. done.
  - done.
  - exists (prefix +:+ "{" +:+ name +:+ "}" +:+ pre). rewrite Hs, Hpre.
    by rewrite !string_app_assoc.
  - intros f (l & Hin & Hf). rewrite Hs, !str_any_app. apply elem_of_cons in Hin as [->|Hin].
    + rewrite Ht, str_any_app, Hf. done.
    + rewrite (Hch f) by eauto. by rewrite !orb_true_r.
  - intros l [= <-]. rewrite Hs, Ht. eexists. by rewrite <-string_app_assoc.
Qed.

(** The first literal starts the segment, the last ends it. *)
Lemma mixed_literals_sound s lits :
  mixed_segment_literals s = Some lits →
  ∃ init final, lits = init ++ [final] ∧ init ≠ [] ∧ Forall brace_free init ∧ brace_free final ∧
    (∃ pre, s = pre +:+ final) ∧ (∀ l, head init = Some l → ∃ post, s = l +:+ post) ∧
    (∀ f, (∃ l, l ∈ lits ∧ str_any f l = true) → str_any f s = true).
Proof.
  unfold mixed_segment_literals.
  destruct (mixed_loop _ s []) as [[init final]|] eqn:E; [|done].
  apply mixed_loop_sound in E as (new & -> & Hbf & Hrem & Hpre & Hch & Hhd). simpl.
  case_bool_decide; [done|]. simpl. destruct (contains_char "}" final) eqn:Hc; [done|].
  intros [= <-]. exists new, final. split_and!; try done. destruct Hpre as [pre Hs].
  intros f (l & Hin & Hf). apply elem_of_app in Hin as [Hin| ->%list_elem_of_singleton]; [eauto|].
  by rewrite Hs, str_any_app, Hf, orb_true_r.
Qed.

(** ** Classification is stable under rendering *)
Record mixed_tests (w : string) (literals : list string) : Prop := {
  mt_star : String.eqb w "*" || String.eqb w "**" = false;
  mt_braced : braced w = None;
  mt_bracket_catch : (starts_with "[..." w && ends_with "]" w)
                     || (starts_with "[[..." w && ends_with "]]" w) = false;
  mt_bracket : (2 <? String.length w)%nat && starts_with "[" w && ends_with "]" w = false;
  mt_angle : strip_both "<" ">" w = None;
  mt_colon : colon_name w = None;
  mt_glob : (1 <? String.length w)%nat && starts_with "*" w = false;
  mt_literals : mixed_segment_literals w = Some literals;
  mt_not_param : (length literals =? 2)%nat && forallb (λ l, String.eqb l "") literals = false;
}.

Lemma classify_Mixed w literals : classify_segment w = Mixed literals ↔ mixed_tests w literals.
Proof.
  unfold classify_segment. split.
  - repeat case_match; intros Hc; try discriminate Hc. injection Hc as ->. by split.
  - intros []. destruct (_ || _) eqn:?; [congruence|].
    rewrite mt_braced0, mt_bracket_catch0, mt_bracket0, mt_angle0, mt_colon0, mt_glob0,
      mt_literals0, mt_not_param0. done.
Qed.

Lemma starts_with_char c s : starts_with (String c "") s = true ↔ ∃ t, s = String c t.
Proof. apply starts_with_spec. Qed.

Lemma starts_with_prefix_char c p s : starts_with (String c p) s = true → starts_with (String c "") s = true.
Proof. rewrite !starts_with_spec. intros [r ->]. by exists (p +:+ r). Qed.

Lemma ends_with_snoc p c s : ends_with (p +:+ c) s = true → ends_with c s = true.
Proof. rewrite !ends_with_spec. intros [r ->]. exists (r +:+ p). by rewrite string_app_assoc. Qed.

Lemma string_snoc_inv s t c d : s +:+ String c "" = t +:+ String d "" → s = t ∧ c = d.
Proof.
  revert t. induction s as [|a s IH]; intros [|b t]; simpl.
  - by intros [= ->].
  - intros [=]. by destruct t.
  - intros [=]. by destruct s.
  - intros [= -> [-> ->]%IH]. done.
Qed.

Lemma string_snoc_cases s : s = "" ∨ ∃ t c, s = t +:+ String c "".
Proof.
  induction s as [|a s [->|(t & c & ->)]]; [by left|right..].
  - by exists "", a.
  - by exists (String a t), c.
Qed.

Section rendered.
Context (w : string) (init : list string) (final : string).
Context (Hlit : mixed_segment_literals w = Some (init ++ [final])) (Hne : init ≠ []).
Let w' := join "{}" (init ++ [final]).

Lemma rendered_head : ∃ l rest, head init = Some l ∧ w' = l +:+ "{}" +:+ rest.
Proof. unfold w'. destruct init as [|l ls]; [done|]. exists l, (join "{}" (ls ++ [final])). by destruct ls. Qed.

Lemma rendered_tail : ∃ before, w' = before +:+ "{}" +:+ final.
Proof.
  unfold w'. clear Hlit. induction init as [|l ls IH]; [done|]. destruct ls as [|l2 ls].
  - by exists l.
  - destruct IH as [b Hb]; [done|]. exists (l +:+ "{}" +:+ b).
    change (l +:+ "{}" +:+ join "{}" ((l2 :: ls) ++ [final]) = (l +:+ "{}" +:+ b) +:+ "{}" +:+ final).
    rewrite Hb. by rewrite !string_app_assoc.
Qed.

Lemma literals_facts :
  (∃ pre, w = pre +:+ final) ∧ (∀ l, head init = Some l → ∃ post, w = l +:+ post).
Proof.
  destruct (mixed_literals_sound _ _ Hlit) as (i & f & E & _ & _ & _ & Hpre & Hhd & _).
  apply app_inj_tail in E as [<- <-]. done.
Qed.

Lemma literals_contain_brace : contains_char "{" w = true.
Proof.
  destruct (contains_char "{" w) eqn:E; [done|]. apply split_once_char_None in E.
  unfold mixed_segment_literals in Hlit. cbn [mixed_loop] in Hlit. rewrite E in Hlit. done.
Qed.

Lemma rendered_starts c :
  c ≠ "{"%char → starts_with (String c "") w' = true → starts_with (String c "") w = true.
Proof.
  rewrite !starts_with_char. intros Hc [t Ht].
  destruct rendered_head as (l & rest & Hl & Hw'). destruct literals_facts as [_ Hhd].
  destruct (Hhd l Hl) as [post ->]. rewrite Ht in Hw'.
  destruct l as [|a l]; simpl in Hw'; injection Hw' as -> _; [done|]. simpl. eauto.
Qed.

Lemma rendered_ends c :
  c ≠ "}"%char → ends_with (String c "") w' = true → ends_with (String c "") w = true.
Proof.
  rewrite !ends_with_spec. intros Hc [t Ht].
  destruct rendered_tail as [b Hw']. destruct literals_facts as [[pre Hp] _]. rewrite Hp.
  destruct (string_snoc_cases final) as [E|(f & d & E)]; rewrite E in *.
  - rewrite Ht in Hw'. replace (b +:+ "{}" +:+ "") with ((b +:+ "{") +:+ "}") in Hw'
      by (by rewrite <-string_app_assoc).
    apply string_snoc_inv in Hw' as [_ ->]. done.
  - rewrite Ht, !string_app_assoc in Hw'. apply string_snoc_inv in Hw' as [_ ->].
    exists (pre +:+ f). by rewrite string_app_assoc.
Qed.

Lemma length_brace_inside a b : (∃ t, w = String a t) → a ≠ "{"%char →
  (∃ t, w = t +:+ String b "") → b ≠ "{"%char → 2 < String.length w.
Proof.
  pose proof literals_contain_brace as Hb. intros [t ->] Ha [u E] Hbb.
  unfold contains_char in Hb; cbn [str_any] in Hb. apply orb_true_iff in Hb as [Hb|Hb].
  { apply Ascii.eqb_eq in Hb. done. }
  destruct t as [|c t]; [done|]. destruct t as [|d t]; [|simpl; lia].
  cbn [str_any] in Hb. rewrite orb_false_r in Hb. apply Ascii.eqb_eq in Hb. subst c.
  replace (String a (String "{" "")) with (String a "" +:+ String "{" "") in E by done.
  apply string_snoc_inv in E as [_ <-]. done.
Qed.
End rendered.

Lemma strip_both_starts a b s r : strip_both (String a "") (String b "") s = Some r →
  starts_with (String a "") s = true ∧ ends_with (String b "") s = true.
Proof.
  unfold strip_both. destruct (strip_prefix (String a "") s) as [t|] eqn:E; [|done].
  intros H%strip_suffix_Some. apply strip_prefix_Some in E as ->.
  rewrite starts_with_spec, ends_with_spec. split; [by eexists|].
  rewrite H. exists (String a "" +:+ r). by rewrite string_app_assoc.
Qed.

Lemma strip_both_intro a b s : a ≠ b →
  starts_with (String a "") s = true → ends_with (String b "") s = true →
  is_Some (strip_both (String a "") (String b "") s).
Proof.
  rewrite starts_with_spec, ends_with_spec. intros Hab [t ->] [u E].
  unfold strip_both. rewrite strip_prefix_app.
  destruct u as [|c u]; simpl in E; [by injection E|]. injection E as -> ->.
  rewrite strip_suffix_app. eauto.
Qed.

Lemma rendered_braced init final :
  init ≠ [] → Forall brace_free init →
  braced (join "{}" (init ++ [final])) ≠ None → init = [""] ∧ final = "".
Proof.
  intros Hne Hbf. destruct init as [|l ls]; [done|]. apply Forall_cons in Hbf as [Hl _].
  assert (Hj : join "{}" ((l :: ls) ++ [final]) = l +:+ "{}" +:+ join "{}" (ls ++ [final])) by (by destruct ls).
  rewrite Hj. unfold braced, strip_both.
  destruct (strip_prefix "{" _) as [t|] eqn:E; [|done]. apply strip_prefix_Some in E.
  destruct (strip_suffix "}" t) as [u|] eqn:E2; [|done]. apply strip_suffix_Some in E2 as ->.
  destruct (contains_char "{" u || contains_char "}" u) eqn:E3; [done|]. intros _.
  apply orb_false_iff in E3 as [_ E3].
  destruct l as [|c l].
  2: { simpl in E. injection E as -> _. destruct Hl as [Hl _]. done. }
  change ("{" +:+ ("}" +:+ join "{}" (ls ++ [final])) = "{" +:+ (u +:+ "}")) in E.
  apply string_app_inj_l in E.
  destruct u as [|c u]; [|simpl in E; injection E as <- _; done].
  change ("}" +:+ join "{}" (ls ++ [final]) = "}" +:+ "") in E. apply string_app_inj_l in E.
  destruct ls as [|l ls].
  - simpl in E. by subst.
  - exfalso. change ((l :: ls) ++ [final]) with (l :: (ls ++ [final])) in E.
    destruct (ls ++ [final]) as [|x xs] eqn:El; [by destruct ls|].
    rewrite join_cons in E. apply string_app_nil in E as [_ E]. apply string_app_nil in E as [E _]. done.
Qed.

Lemma classify_rendered_mixed w init final :
  mixed_tests w (init ++ [final]) → init ≠ [] →
  Forall (λ l, brace_free l ∧ no_dollar_end l) init → brace_free final →
  classify_segment (join "{}" (init ++ [final])) = Mixed (init ++ [final]).
Proof.
  intros Hw Hne Hinit Hfin. pose proof (mt_literals _ _ Hw) as Hlit.
  assert (Hbf : Forall brace_free init) by (eapply Forall_impl; [exact Hinit|by intros ? []]).
  pose proof (rendered_starts w init final Hlit Hne) as Hst.
  pose proof (rendered_ends w init final Hlit Hne) as Hen.
  pose proof (join_brace_free_last init final Hne) as Hbrace.
  set (w' := join "{}" (init ++ [final])) in *.
  apply classify_Mixed. split.
  - apply orb_false_iff. split; apply String.eqb_neq; intros E; by rewrite E in Hbrace.
  - destruct (braced w') eqn:E; [|done]. exfalso.
    destruct (rendered_braced init final Hne Hbf) as [-> ->]; [fold w'; congruence|].
    pose proof (mt_not_param _ _ Hw). done.
  - assert (Hlen : starts_with "[" w = true → ends_with "]" w = true → False).
    { intros Hs He. pose proof (mt_bracket _ _ Hw) as Ht. rewrite Hs, He, !andb_true_r in Ht.
      apply starts_with_char in Hs as [t Hs]. apply ends_with_spec in He as [u He].
      assert (2 < String.length w); [|by apply Nat.ltb_ge in Ht; lia].
      eapply (length_brace_inside w init final Hlit "[" "]"); eauto; done. }
    apply orb_false_iff. split; apply andb_false_iff.
    + destruct (starts_with "[..." w') eqn:E1; [|by left]. right.
      destruct (ends_with "]" w') eqn:E2; [exfalso|done].
      apply Hlen; [apply Hst; [done|by eapply starts_with_prefix_char]|by apply Hen].
    + destruct (starts_with "[[..." w') eqn:E1; [|by left]. right.
      destruct (ends_with "]]" w') eqn:E2; [exfalso|done].
      apply Hlen; [apply Hst; [done|by eapply starts_with_prefix_char]|].
      apply Hen; [done|]. by apply (ends_with_snoc "]" "]").
  - destruct (starts_with "[" w') eqn:E1; [|by rewrite andb_false_r].
    destruct (ends_with "]" w') eqn:E2; [|by rewrite andb_false_r]. exfalso.
    pose proof (Hst "["%char ltac:(done) E1) as Hs. pose proof (Hen "]"%char ltac:(done) E2) as He.
    pose proof (mt_bracket _ _ Hw) as Ht. rewrite Hs, He, !andb_true_r in Ht.
    apply starts_with_char in Hs as [t Hs]. apply ends_with_spec in He as [u He].
    assert (2 < String.length w); [|by apply Nat.ltb_ge in Ht; lia].
    eapply (length_brace_inside w init final Hlit "[" "]"); eauto; done.
  - destruct (strip_both "<" ">" w') eqn:E; [|done]. exfalso.
    apply strip_both_starts in E as [E1%Hst E2%Hen]; [|done..].
    destruct (strip_both_intro "<" ">" w ltac:(done) E1 E2) as [? Hs].
    by rewrite (mt_angle _ _ Hw) in Hs.
  - unfold colon_name. destruct (strip_prefix ":" w') as [name|] eqn:E; [exfalso|done].
    assert (E1 : starts_with ":" w = true).
    { apply Hst; [done|]. apply starts_with_spec. exists name. by apply strip_prefix_Some. }
    apply starts_with_spec in E1 as [t E1]. pose proof (mt_colon _ _ Hw) as Hc. unfold colon_name in Hc.
    rewrite E1, strip_prefix_app in Hc. destruct (String.eqb_spec t "") as [->|]; [|done].
    pose proof (literals_contain_brace w init final Hlit) as Hb. by rewrite E1 in Hb.
  - destruct (starts_with "*" w') eqn:E1; [|by rewrite andb_false_r]. exfalso.
    apply Hst in E1; [|done]. pose proof (mt_glob _ _ Hw) as Hg. rewrite E1, andb_true_r in Hg.
    apply starts_with_spec in E1 as [t E1].
    pose proof (literals_contain_brace w init final Hlit) as Hb. rewrite E1 in Hb, Hg.
    destruct t as [|c t]; done.
  - by apply mixed_literals_join.
  - apply (mt_not_param _ _ Hw).
Qed.

(** ** The canonical form *)
Definition is_separator (c : Ascii.ascii) : bool := char_is "/" c || (char_is "?" c || char_is "#" c).

(** A segment whose rendering is read back as the segment. *)
Record stable (seg : RouteSegment) : Prop := {
  stable_nonempty : render_segment seg ≠ "";
  stable_text : str_any is_separator (render_segment seg) = false;
  stable_classified : classify_segment (render_segment seg) = seg;
}.

Lemma classify_Static s v : classify_segment s = Static v → v = s.
Proof. unfold classify_segment. repeat case_match; intros E; congruence. Qed.

Lemma str_any_join f sep ls :
  str_any f sep = false → (∀ l, l ∈ ls → str_any f l = false) → str_any f (join sep ls) = false.
Proof.
  intros Hs. induction ls as [|l [|l' ls] IH]; intros Hl; [done|by apply Hl; set_solver|].
  rewrite join_cons, !str_any_app, Hs, IH by set_solver. rewrite Hl by set_solver. done.
Qed.

Lemma mixed_loop_dollar fuel s acc lits rem :
  mixed_loop fuel s acc = Some (lits, rem) → contains_str "$$" s = false →
  Forall no_dollar_end acc → Forall no_dollar_end lits.
Proof.
  revert s acc. induction fuel as [|fuel IH]; intros s acc; simpl; [done|].
  destruct (split_once "{" s) as [[prefix parameter]|] eqn:E1; [|by intros [= <- _]].
  destruct (split_once "}" parameter) as [[name suffix]|] eqn:E2; [|done].
  destruct (_ || _); [done|]. intros Hrun Hs Hacc.
  apply split_once_Some_app in E1 as ->. apply split_once_Some_app in E2 as ->.
  eapply IH; [done| |].
  - destruct (contains_str "$$" suffix) eqn:E; [|done]. rewrite <-Hs. symmetry.
    rewrite <-(string_app_nil_r suffix).
    pose proof (contains_str_sub "$$" suffix (prefix +:+ "{" +:+ name +:+ "}") "" E) as H.
    rewrite <-!string_app_assoc in H. exact H.
  - apply Forall_snoc. split; [done|]. unfold no_dollar_end.
    destruct (strip_suffix "$" prefix) as [p|] eqn:Ed; simpl; [|done].
    destruct (strip_suffix "$" p) as [q|] eqn:Eq; [|done]. exfalso.
    apply strip_suffix_Some in Ed as ->. apply strip_suffix_Some in Eq as ->.
    assert (contains_str "$$" (((q +:+ "$") +:+ "$") +:+ "{" +:+ name +:+ "}" +:+ suffix) = true); [|congruence].
    apply contains_str_spec. exists q, ("{" +:+ name +:+ "}" +:+ suffix).
    by rewrite <-!string_app_assoc.
Qed.

Lemma mixed_literals_dollar s init final :
  mixed_segment_literals s = Some (init ++ [final]) → contains_str "$$" s = false →
  Forall no_dollar_end init.
Proof.
  unfold mixed_segment_literals. destruct (mixed_loop _ s []) as [[lits rem]|] eqn:E; [|done].
  case_match; [done|]. intros [= [-> ->]%app_inj_tail] Hs. by eapply mixed_loop_dollar.
Qed.

Lemma classify_stable s :
  s ≠ "" → str_any is_separator s = false → contains_str "$$" s = false → stable (classify_segment s).
Proof.
  intros Hne Hsep Hd. destruct (classify_segment s) as [v| |lits|] eqn:E; try by split; vm_compute.
  - pose proof (classify_Static _ _ E) as ->. by split.
  - apply classify_Mixed in E as Ht.
    destruct (mixed_literals_sound _ _ (mt_literals _ _ Ht)) as
      (init & final & -> & Hinit & Hbf & Hfin & _ & _ & Hch).
    split; simpl.
    + intros Hj. pose proof (join_brace_free_last init final Hinit) as H. by rewrite Hj in H.
    + apply str_any_join; [done|]. intros l Hl. destruct (str_any is_separator l) eqn:El; [|done].
      by rewrite Hch in Hsep by eauto.
    + apply (classify_rendered_mixed s); [done..| |done].
      apply Forall_and. split; [done|]. by eapply mixed_literals_dollar; [apply Ht|].
Qed.

(** The rendering with its slashes, right to left. *)
Definition slashed (segs : list RouteSegment) : string :=
  foldr (λ s rest, String "/" (render_segment s +:+ rest)) "" segs.

Lemma canonical_slashed shape :
  canonical shape = if bool_decide (segments shape = []) then "/" else slashed (segments shape).
Proof.
  unfold canonical. destruct (segments shape) as [|s segs]; [done|].
  rewrite bool_decide_eq_false_2 by done.
  enough (H : ∀ segs acc, foldl (λ rendered s, rendered +:+ "/" +:+ render_segment s) acc segs
    = acc +:+ slashed segs) by apply H.
  clear. induction segs as [|s segs IH]; intros acc; simpl; [by rewrite string_app_nil_r|].
  rewrite IH. by rewrite <-string_app_assoc.
Qed.

Lemma str_any_or f g s : str_any (λ c, f c || g c) s = str_any f s || str_any g s.
Proof.
  induction s as [|c s IH]; simpl; [done|]. rewrite IH.
  by destruct (f c), (g c), (str_any f s), (str_any g s).
Qed.

Lemma no_separator s : str_any is_separator s = false ↔
  str_any (char_is "/") s = false ∧ str_any (λ c, char_is "?" c || char_is "#" c) s = false.
Proof. unfold is_separator. by rewrite (str_any_or (char_is "/")), orb_false_iff. Qed.

Lemma slashed_no_query segs :
  Forall stable segs → str_any (λ c, char_is "?" c || char_is "#" c) (slashed segs) = false.
Proof.
  induction 1 as [|s segs [_ H%no_separator _] _ IH]; [done|]. cbn [slashed foldr str_any].
  fold (slashed segs). rewrite str_any_app, IH. destruct H as [_ ->]. done.
Qed.

Lemma path_parts_slashed segs : Forall stable segs → path_parts (slashed segs) = map render_segment segs.
Proof.
  intros Hs. unfold path_parts, path_only. rewrite (split_by_none _ _ (slashed_no_query segs Hs)). simpl.
  assert (Hgen : ∀ s segs, str_any (char_is "/") s = false → Forall stable segs →
    split_by (char_is "/") (s +:+ slashed segs) = s :: map render_segment segs).
  { clear. intros s segs Hs Hsegs. revert s Hs. induction Hsegs as [|seg segs [_ H%no_separator _] _ IH];
      intros s Hs; simpl; [by rewrite string_app_nil_r, split_by_none|].
    rewrite split_by_app by done. by rewrite IH by apply H. }
  change (slashed segs) with ("" +:+ slashed segs). rewrite Hgen by done. simpl.
  induction Hs as [|s segs [H _ _] _ IH]; simpl; [done|].
  destruct (String.eqb_spec (render_segment s) ""); [done|]. simpl. by rewrite IH.
Qed.

Lemma push_segments_render parts :
  Forall stable (push_segments parts) →
  push_segments (map render_segment (push_segments parts)) = push_segments parts.
Proof.
  induction parts as [|p parts IH]; simpl; [done|].
  case_bool_decide as Hc; intros Hs; apply Forall_cons in Hs as [Hp Hs]; simpl;
    rewrite (stable_classified _ Hp).
  - by rewrite bool_decide_eq_true_2.
  - rewrite bool_decide_eq_false_2 by done. by rewrite IH.
Qed.

Lemma push_segments_stable parts :
  (∀ p, p ∈ parts → stable (classify_segment p)) → Forall stable (push_segments parts).
Proof.
  induction parts as [|p parts IH]; intros H; simpl; [constructor|].
  case_bool_decide; repeat constructor; [apply H; set_solver..|apply IH; set_solver].
Qed.

Lemma path_parts_elem path p : p ∈ path_parts path →
  p ≠ "" ∧ str_any is_separator p = false ∧ ∃ a b, path = a +:+ p +:+ b.
Proof.
  unfold path_parts. intros [Hin Hne]%list_filter_In.
  destruct (String.eqb_spec p ""); [done|]. split; [done|].
  assert (Hq : path_only path ∈ split_by (λ c, char_is "?" c || char_is "#" c) path).
  { unfold path_only. destruct (split_by _ path) eqn:E; [by apply split_by_not_nil in E|]. simpl. set_solver. }
  split.
  - apply no_separator. split; [by eapply split_by_piece|].
    apply split_by_piece in Hq. apply split_by_piece_infix in Hin as (a & b & Hin).
    rewrite Hin, !str_any_app in Hq. apply orb_false_iff in Hq as [_ [H _]%orb_false_iff]. done.
  - apply split_by_piece_infix in Hin as (a & b & Hin). apply split_by_piece_infix in Hq as (x & y & ->).
    rewrite Hin. exists (x +:+ a), (b +:+ y). by rewrite !string_app_assoc.
Qed.

Lemma parse_stable path : contains_str "$$" path = false → Forall stable (segments (parse path)).
Proof.
  intros Hd. apply push_segments_stable. intros p (Hne & Hsep & a & b & Hp)%path_parts_elem.
  apply classify_stable; [done..|]. destruct (contains_str "$$" p) eqn:E; [|done].
  by rewrite Hp, contains_str_sub in Hd.
Qed.

Lemma parse_canonical path : contains_str "$$" path = false → parse (canonical_route path) = parse path.
Proof.
  intros Hd. pose proof (parse_stable path Hd) as Hs. unfold canonical_route.
  rewrite canonical_slashed. case_bool_decide as Hempty.
  - unfold parse in *. simpl in Hempty. rewrite Hempty. reflexivity.
  - unfold parse at 1. rewrite path_parts_slashed by done. unfold parse in *; simpl in *.
    by rewrite push_segments_render.
Qed.

(** The canonical form is a faithful key. For paths without a doubled
    dollar sign, parsing the canonical route gives the shape of the path back,
    two paths have the same canonical route exactly when they have the same
    shape, and canonicalising twice changes nothing. *)
Theorem canonical_faithful (p q : string) :
  contains_str "$$" p = false → contains_str "$$" q = false →
  parse (canonical_route p) = parse p
  ∧ canonical_route (canonical_route p) = canonical_route p
  ∧ (canonical_route p = canonical_route q ↔ parse p = parse q).
Proof.
  intros Hp Hq. pose proof (parse_canonical p Hp) as Ep. pose proof (parse_canonical q Hq) as Eq.
  split_and!; [done|unfold canonical_route at 1; by rewrite Ep|]. split.
  - intros E. by rewrite <-Ep, <-Eq, E.
  - unfold canonical_route. by intros ->.
Qed.

(** ** Matching against a mixed segment

    The texts a mixed segment denotes: its literals with a nonempty parameter
    between any two of them. *)
Fixpoint fill (params literals : list string) : string :=
  match params, literals with
  | p :: ps, l :: ls => p +:+ l +:+ fill ps ls
  | _, _ => ""
  end.

Definition mixed_denotes (literals : list string) (value : string) : Prop :=
  ∃ prefix rest params, literals = prefix :: rest ∧ rest ≠ [] ∧ length params = length rest
    ∧ Forall (λ p, p ≠ "") params ∧ value = prefix +:+ fill params rest.

Lemma fill_app ps ps' ls ls' :
  length ps = length ls → fill (ps ++ ps') (ls ++ ls') = fill ps ls +:+ fill ps' ls'.
Proof.
  revert ls. induction ps as [|p ps IH]; intros [|l ls]; simpl; try done.
  intros [= H]. rewrite IH by done. by rewrite !string_app_assoc.
Qed.

Lemma str_drop_split n s : ∃ a, s = a +:+ str_drop n s ∧ (n ≠ 0 → s ≠ "" → a ≠ "").
Proof.
  revert s. induction n as [|n IH]; intros [|c s]; simpl; try (by exists "").
  destruct (IH s) as (a & Ha & _). exists (String c a). simpl. rewrite <-Ha. done.
Qed.

Lemma match_middle_sound middle s r :
  match_middle middle s = Some r →
  ∃ params, length params = length middle ∧ Forall (λ p, p ≠ "") params ∧ s = fill params middle +:+ r.
Proof.
  revert s. induction middle as [|l middle IH]; intros s; simpl.
  - intros [= <-]. by exists [].
  - destruct (String.eqb_spec s ""); [done|].
    destruct (split_once l _) as [[before after]|] eqn:E; [|done]. intros H.
    apply split_once_Some_app in E. destruct (IH _ H) as (ps & Hlen & Hps & ->).
    destruct (str_drop_split (utf8_width (byte_at s)) s) as (a & Ha & Hne).
    exists ((a +:+ before) :: ps). split_and!; [simpl; lia| |].
    + constructor; [|done]. intros [-> _]%string_app_nil. apply Hne; [|done..].
      unfold utf8_width. by repeat case_match.
    + rewrite Ha, E. simpl. by rewrite !string_app_assoc.
Qed.

(** The first occurrence leaves at least the text after any occurrence. *)
Lemma split_once_earliest pat a b :
  ∃ x y, split_once pat (a +:+ pat +:+ b) = Some (x, y +:+ b).
Proof.
  assert (Hstrip : ∀ a r, strip_prefix pat (a +:+ pat +:+ b) = Some r → ∃ y, r = y +:+ b).
  { clear. intros a r E%strip_prefix_Some. rewrite string_app_assoc in E. symmetry in E.
    apply string_app_eq in E as [(u & _ & ->)|(u & E & ->)]; [by exists u|].
    apply (f_equal String.length) in E. rewrite !string_length_app in E.
    destruct u; simpl in E; [by exists ""|lia]. }
  induction a as [|c a IH].
  - destruct (strip_prefix pat ("" +:+ pat +:+ b)) as [r|] eqn:E.
    + destruct (Hstrip _ _ E) as [y ->]. exists "", y. destruct (_ +:+ _); simpl in *; by rewrite E.
    + change ("" +:+ pat +:+ b) with (pat +:+ b) in E. by rewrite strip_prefix_app in E.
  - destruct (strip_prefix pat (String c a +:+ pat +:+ b)) as [r|] eqn:E; simpl in E |- *; rewrite E.
    + destruct (Hstrip (String c a) _ E) as [y ->]. by exists "", y.
    + destruct IH as (x & y & ->). by eexists _, y.
Qed.

Lemma match_middle_complete middle params u r :
  length params = length middle → Forall (λ p, p ≠ "") params →
  is_ascii (u +:+ fill params middle +:+ r) →
  ∃ v, match_middle middle (u +:+ fill params middle +:+ r) = Some (v +:+ r).
Proof.
  revert params u. induction middle as [|l middle IH]; intros [|p params] u Hlen Hps Hascii;
    try discriminate Hlen; simpl in *; [by exists u|].
  apply Forall_cons in Hps as [Hp Hps].
  assert (Hs : u +:+ (p +:+ l +:+ fill params middle) +:+ r = (u +:+ p) +:+ l +:+ fill params middle +:+ r)
    by (by rewrite !string_app_assoc).
  rewrite Hs in *. destruct (u +:+ p) as [|c w] eqn:E; [by apply string_app_nil in E as [_ ?]|].
  assert (Hw : utf8_width (N_of_ascii c) = 1).
  { unfold is_ascii in Hascii. simpl in Hascii. apply orb_false_iff in Hascii as [Hc _].
    apply N.leb_gt in Hc. unfold utf8_width. by rewrite (proj2 (N.ltb_lt _ 192)) by lia. }
  simpl. rewrite Hw. cbn [str_drop].
  destruct (split_once_earliest l w (fill params middle +:+ r)) as (x & y & Es). rewrite Es.
  apply IH; [lia|done|]. apply split_once_Some_app in Es.
  change (String c w) with (String c "" +:+ w) in Hascii. rewrite <-string_app_assoc, Es in Hascii.
  repeat rewrite is_ascii_app in Hascii. repeat rewrite is_ascii_app. tauto.
Qed.

(** On ASCII paths [mixed_segment_matches] decides exactly the texts a
    mixed segment denotes: the literals in order with a nonempty parameter
    between any two of them; the leftmost search never misses a way to split. *)
Theorem mixed_segment_matches_spec (literals : list string) (value : string) :
  is_ascii value → mixed_segment_matches literals value = true ↔ mixed_denotes literals value.
Proof.
  intros Hascii. destruct literals as [|prefix [|l ls]].
  1,2: split; [done|intros (? & ? & ? & [=] & ? & _); by subst].
  destruct (exists_last (l := l :: ls) ltac:(done)) as (middle & suffix & E). rewrite E.
  assert (Hm : mixed_segment_matches (prefix :: middle ++ [suffix]) value =
    match strip_prefix prefix value with
    | None => false
    | Some remaining =>
        match strip_suffix suffix remaining with
        | None => false
        | Some remaining =>
            match match_middle middle remaining with
            | None => false
            | Some remaining => negb (String.eqb remaining "")
            end
        end
    end).
  { unfold mixed_segment_matches. destruct (middle ++ [suffix]) eqn:Em; [by destruct middle|].
    rewrite <-Em. cbn [List.tl].
    change (prefix :: middle ++ [suffix]) with ((prefix :: middle) ++ [suffix]).
    by rewrite removelast_last, List.last_last. }
  rewrite Hm. split.
  - destruct (strip_prefix prefix value) as [v1|] eqn:E1; [|done]. apply strip_prefix_Some in E1 as ->.
    destruct (strip_suffix suffix v1) as [v2|] eqn:E2; [|done]. apply strip_suffix_Some in E2 as ->.
    destruct (match_middle middle v2) as [v3|] eqn:E3; [|done].
    apply match_middle_sound in E3 as (ps & Hlen & Hps & ->). intros H3.
    exists prefix, (middle ++ [suffix]), (ps ++ [v3]). split_and!; [done|by destruct middle|..].
    + rewrite !length_app. simpl. lia.
    + apply Forall_snoc. split; [done|]. by destruct (String.eqb_spec v3 "").
    + rewrite fill_app by done. simpl. by rewrite string_app_nil_r, !string_app_assoc.
  - intros (prefix' & rest & params & [= <- <-] & _ & Hlen & Hps & ->).
    destruct (exists_last (l := params)) as (ps & p & ->).
    { intros ->. rewrite length_app in Hlen. simpl in Hlen. lia. }
    rewrite !length_app in Hlen; simpl in Hlen. apply Forall_snoc in Hps as [Hps Hp].
    rewrite fill_app in Hascii |- * by lia. simpl in Hascii |- *.
    rewrite strip_prefix_app. rewrite string_app_nil_r in *.
    rewrite (string_app_assoc _ p suffix), strip_suffix_app.
    repeat rewrite is_ascii_app in Hascii.
    destruct (match_middle_complete middle ps "" p) as [v Hv]; [lia|done| |].
    { change ("" +:+ ?x) with x. repeat rewrite is_ascii_app. tauto. }
    change ("" +:+ ?x) with x in Hv. rewrite Hv.
    destruct (String.eqb_spec (v +:+ p) "") as [[_ ?]%string_app_nil|]; done.
Qed.

(** ** Concrete paths *)
Module Example_route_shape.
Lemma canonical_faithful_witness :
  parse (canonical_route "/v${major}/{name}.json") = parse "/v${major}/{name}.json"
  ∧ canonical_route (canonical_route "/v${major}/{name}.json") = canonical_route "/v${major}/{name}.json"
  ∧ (canonical_route "/v${major}/{name}.json" = canonical_route "/v{}/{n}.json?x" ↔
     parse "/v${major}/{name}.json" = parse "/v{}/{n}.json?x").
Proof. apply canonical_faithful; vm_compute; reflexivity. Defined.

Lemma mixed_segment_matches_spec_witness :
  mixed_segment_matches ["v"; "."; ""] "v1.2" = true ↔ mixed_denotes ["v"; "."; ""] "v1.2".
Proof. apply mixed_segment_matches_spec. vm_compute. reflexivity. Defined.

(** The hypothesis of [canonical_faithful] is needed: with a doubled dollar
    sign the canonical form changes when it is taken again. *)
Lemma canonical_not_idempotent :
  canonical_route "/$${x}" = "/${}" ∧ canonical_route "/${}" = "/{}".
Proof. split; vm_compute; reflexivity. Qed.
End Example_route_shape.
