(* ===== verification/Authority.v ===== *)
(** * Authorities ([crates/code-system-graph-core/src/routes.rs], [infrastructure.rs])

    Normalised [host:port] authorities, and the map from authorities to the
    repository that serves them: declared by the manifest, or inferred from
    infrastructure documents. *)
From Stdlib Require Import Ascii.
From stdpp Require Import base gmap list strings.
From S2P Require Import Prelude RustStr RouteShape Model.

(** ** Authorities *)
Definition split_port (authority : string) : string * option string :=
  match strip_prefix "[" authority with
  | Some rest =>
      match split_once "]" rest with
      | Some (host, tail) => (host, strip_prefix ":" tail)
      | None => (authority, None)
      end
  | None =>
      match rsplit_once ":" authority with
      | Some (host, port) => if contains_char ":" host then (authority, None) else (host, Some port)
      | None => (authority, None)
      end
  end.

Definition is_authority_break (c : ascii) : bool :=
  char_is "/" c || char_is "?" c || char_is "#" c || char_is " " c || Ascii.eqb (ascii_of_nat 9) c.

Definition normalize_authority (value : string) : option string :=
  let value := trim value in
  if String.eqb value "" || str_any is_authority_break value || contains_str "://" value then None
  else
    let host_and_port := match rsplit_once "@" value with Some (_, host) => host | None => value end in
    let '(host, port) := split_port host_and_port in
    let host := to_ascii_lowercase (trim_end_char "." host) in
    if String.eqb host "" || is_some_and port (λ p, negb (bool_decide (is_Some (parse_u16 p)))) then None
    else Some
      match port with
      | Some port => if contains_char ":" host then "[" +:+ host +:+ "]:" +:+ port else host +:+ ":" +:+ port
      | None => host
      end.

Definition url_authority (url : string) : option string :=
  let rest :=
    match strip_prefix "http://" url with
    | Some rest => Some rest
    | None => strip_prefix "https://" url
    end in
  match rest with
  | None => None
  | Some rest =>
      let authority := default "" (head (split_by (λ c, char_is "/" c || char_is "?" c || char_is "#" c) rest)) in
      normalize_authority authority
  end.

Definition authority_host (authority : string) : string := (split_port authority).1.

Definition is_loopback (host : string) : bool :=
  String.eqb host "localhost" || String.eqb host "::1" || String.eqb host "0.0.0.0"
  || String.eqb host "host.docker.internal"
  || ends_with ".localhost" host || starts_with "127." host.

Definition service_host (host : string) : string :=
  let trimmed :=
    match strip_suffix ".svc.cluster.local" host with
    | Some name => Some name
    | None => strip_suffix ".svc" host
    end in
  match trimmed with
  | Some name => default name (head (split_by (char_is ".") name))
  | None => host
  end.

Example normalize_examples :
  map normalize_authority
    ["Orders.Shop."; "user@Orders:8080"; "[::1]:80"; "::1"; ""; "http://x"; "a:70000"; "a:"; " host "; "a b"] =
  [Some "orders.shop"; Some "orders:8080"; Some "[::1]:80"; Some "::1"; None; None; None; None; Some "host"; None].
Proof. vm_compute. reflexivity. Qed.

Example url_examples :
  map url_authority ["http://Orders:80/x"; "https://a.b?x"; "ftp://a"; "http:///x"] =
  [Some "orders:80"; Some "a.b"; None; None].
Proof. vm_compute. reflexivity. Qed.

(** ** Infrastructure documents *)
Inductive InfrastructureArtifactKind :=
  DockerCompose | Kubernetes | IA_HelmTemplate | HelmValues | Terraform.

Inductive DeploymentKind :=
  DockerComposeService | KubernetesDeployment | KubernetesStatefulSet | KubernetesDaemonSet
| KubernetesJob | KubernetesCronJob | KubernetesPod | DK_HelmTemplate | TerraformResource.

Inductive InfrastructureResourceKind :=
  IR_Service | IR_Ingress | IR_Topic | IR_Queue | IR_Database | IR_Other.

#[export] Instance InfrastructureResourceKind_eq_dec : EqDecision InfrastructureResourceKind.
Proof. solve_decision. Defined.

Inductive InfrastructureEvidenceKind :=
  IE_Declaration | IE_Image | IE_Port | IE_Dependency | IE_EnvironmentKey | IE_Selector | IE_HostAlias.

Record InfrastructureEvidence := { ie_kind : InfrastructureEvidenceKind; ie_line : option N }.

Record InfrastructurePort := {
  ip_name : option string;
  ip_port : N;
  ip_target_port : option N;
  ip_host_port : option N;
  ip_protocol : option string;
}.

Record InfrastructureSelector := { is_key : string; is_value : string }.

Record DeploymentUnit := {
  du_kind : DeploymentKind;
  du_name : string;
  du_namespace : option string;
  du_images : list string;
  du_ports : list InfrastructurePort;
  du_environment_keys : list string;
  du_dependencies : list string;
  du_service_names : list string;
  du_host_aliases : list string;
  du_selectors : list InfrastructureSelector;
  du_evidence : list InfrastructureEvidence;
}.

Record InfrastructureResource := {
  ir_kind : InfrastructureResourceKind;
  ir_resource_type : string;
  ir_name : string;
  ir_namespace : option string;
  ir_ports : list InfrastructurePort;
  ir_key_names : list string;
  ir_dependencies : list string;
  ir_selectors : list InfrastructureSelector;
  ir_evidence : list InfrastructureEvidence;
}.

Record InfrastructureDocument := {
  id_artifact_kind : InfrastructureArtifactKind;
  id_source_path : string;
  id_deployment_units : list DeploymentUnit;
  id_resources : list InfrastructureResource;
  id_environment_keys : list string;
  id_warnings : list string;
  id_incomplete : bool;
}.

(** ** [AuthorityMap] *)
Record AuthorityMap := {
  am_declared : gmap string RepoId;
  am_inferred : gmap string (option RepoId);
}.

Inductive AuthorityTarget :=
| AT_Workspace
| AT_Declared (repository : RepoId)
| AT_Inferred (repository : RepoId)
| AT_External.

Definition empty_authorities : AuthorityMap := {| am_declared := ∅; am_inferred := ∅ |}.

Definition declare (authority : string) (repository : RepoId) (m : AuthorityMap) : AuthorityMap :=
  {| am_declared := <[authority := repository]> (am_declared m); am_inferred := am_inferred m |}.

Definition infer (host : string) (repository : RepoId) (m : AuthorityMap) : AuthorityMap :=
  match normalize_authority host with
  | None => m
  | Some host =>
      let host := service_host (authority_host host) in
      let entry :=
        match am_inferred m !! host with
        | Some existing => if bool_decide (existing = Some repository) then existing else None
        | None => Some repository
        end in
      {| am_declared := am_declared m; am_inferred := <[host := entry]> (am_inferred m) |}
  end.

Definition infer_from_infrastructure (repository : RepoId) (document : InfrastructureDocument)
    (m : AuthorityMap) : AuthorityMap :=
  let m := foldl (λ m unit,
      foldl (λ m host, infer host repository m) m
        ([du_name unit] ++ du_service_names unit ++ du_host_aliases unit))
    m (id_deployment_units document) in
  foldl (λ m resource, infer (ir_name resource) repository m) m
    (List.filter (λ r, bool_decide (ir_kind r = IR_Service)) (id_resources document)).

Definition lookup_authority (authority : string) (m : AuthorityMap) : AuthorityTarget :=
  let host := authority_host authority in
  if is_loopback host then AT_Workspace
  else
    match match am_declared m !! authority with
          | Some repository => Some repository
          | None => am_declared m !! host
          end with
    | Some repository => AT_Declared repository
    | None =>
        match am_inferred m !! service_host host with
        | Some (Some repository) => AT_Inferred repository
        | Some None => AT_Workspace
        | None => AT_External
        end
    end.

(** ** What the inferred entries mean

    The hosts a document declares, reduced to service names; a pair in
    [claims] says that a repository declares a host. *)
Definition inferred_host (host : string) : option string :=
  match normalize_authority host with
  | Some h => Some (service_host (authority_host h))
  | None => None
  end.

Definition document_hosts (document : InfrastructureDocument) : list string :=
  flat_map (λ unit, [du_name unit] ++ du_service_names unit ++ du_host_aliases unit)
    (id_deployment_units document)
  ++ map ir_name (List.filter (λ r, bool_decide (ir_kind r = IR_Service)) (id_resources document)).

Definition claims (docs : list (RepoId * InfrastructureDocument)) (host : string) (repository : RepoId) : Prop :=
  ∃ doc h, (repository, doc) ∈ docs ∧ h ∈ document_hosts doc ∧ inferred_host h = Some host.

(** What an entry of the inferred map says about the repositories that claim
    the host. *)
Definition entry_means (claimed : RepoId → Prop) (entry : option (option RepoId)) : Prop :=
  match entry with
  | None => ∀ r, ¬ claimed r
  | Some (Some r) => claimed r ∧ ∀ r', claimed r' → r' = r
  | Some None => ∃ r1 r2, r1 ≠ r2 ∧ claimed r1 ∧ claimed r2
  end.

Definition infer_documents (docs : list (RepoId * InfrastructureDocument)) (m : AuthorityMap) : AuthorityMap :=
  foldl (λ m d, infer_from_infrastructure d.1 d.2 m) m docs.

Definition infer_events (events : list (string * RepoId)) (m : AuthorityMap) : AuthorityMap :=
  foldl (λ m e, infer e.1 e.2 m) m events.

Lemma infer_events_same repository hosts m :
  infer_events (map (λ h, (h, repository)) hosts) m = foldl (λ m host, infer host repository m) m hosts.
Proof. revert m. induction hosts; intros m; simpl; auto. Qed.

Lemma infer_events_app es es' m : infer_events (es ++ es') m = infer_events es' (infer_events es m).
Proof. apply foldl_app. Qed.

Lemma infer_from_infrastructure_events repository doc m :
  infer_from_infrastructure repository doc m =
  infer_events (map (λ h, (h, repository)) (document_hosts doc)) m.
Proof.
  unfold infer_from_infrastructure, document_hosts. rewrite map_app, infer_events_app.
  rewrite infer_events_same. set (n := infer_events _ m).
  assert (foldl (λ m unit, foldl (λ m host, infer host repository m) m
      ([du_name unit] ++ du_service_names unit ++ du_host_aliases unit)) m (id_deployment_units doc) = n) as ->.
  { unfold n. generalize (id_deployment_units doc). clear. intros units. revert m.
    induction units as [|u units IH]; intros m; [done|]. cbn [foldl flat_map].
    by rewrite map_app, infer_events_app, <-IH, infer_events_same. }
  generalize (List.filter (λ r, bool_decide (ir_kind r = IR_Service)) (id_resources doc)).
  clearbody n. clear. intros rs. revert n. induction rs as [|r rs IH]; intros n; [done|]. simpl. apply IH.
Qed.

Lemma infer_documents_events docs m :
  infer_documents docs m =
  infer_events (flat_map (λ d : RepoId * InfrastructureDocument, map (λ h, (h, d.1)) (document_hosts d.2)) docs) m.
Proof.
  unfold infer_documents. revert m. induction docs as [|d docs IH]; intros m; simpl; [done|].
  by rewrite infer_events_app, IH, infer_from_infrastructure_events.
Qed.

Definition event_claims (events : list (string * RepoId)) (host : string) (repository : RepoId) : Prop :=
  ∃ h, (h, repository) ∈ events ∧ inferred_host h = Some host.

Lemma entry_means_iff P Q entry : (∀ r, P r ↔ Q r) → entry_means P entry → entry_means Q entry.
Proof.
  intros HPQ. destruct entry as [[r|]|]; simpl.
  - rewrite HPQ. intros [? H]. split; [done|]. intros r' ?%HPQ. auto.
  - intros (r1 & r2 & ? & ?%HPQ & ?%HPQ). eauto.
  - intros H r ?%HPQ. by apply (H r).
Qed.

Lemma infer_inferred h repository m :
  am_inferred (infer h repository m) =
  match inferred_host h with
  | None => am_inferred m
  | Some host =>
      <[host := match am_inferred m !! host with
                | Some existing => if bool_decide (existing = Some repository) then existing else None
                | None => Some repository
                end]> (am_inferred m)
  end.
Proof. unfold infer, inferred_host. by destruct (normalize_authority h). Qed.

Lemma infer_declared h repository m : am_declared (infer h repository m) = am_declared m.
Proof. unfold infer. by destruct (normalize_authority h). Qed.

Lemma infer_events_declared es m : am_declared (infer_events es m) = am_declared m.
Proof. revert m. induction es as [|e es IH]; intros m; simpl; [done|]. unfold infer_events in *. by rewrite IH, infer_declared. Qed.

Lemma infer_events_means es m host :
  am_inferred m = ∅ → entry_means (event_claims es host) (am_inferred (infer_events es m) !! host).
Proof.
  intros Hm. induction es as [|[h r] es IH] using rev_ind.
  { simpl. rewrite Hm, lookup_empty. intros r (h & ?%not_elem_of_nil & _). done. }
  rewrite infer_events_app. simpl. rewrite infer_inferred.
  assert (Hsnoc : ∀ r', event_claims (es ++ [(h, r)]) host r' ↔
    event_claims es host r' ∨ (r' = r ∧ inferred_host h = Some host)).
  { intros r'. unfold event_claims. setoid_rewrite elem_of_app. setoid_rewrite list_elem_of_singleton. naive_solver. }
  destruct (inferred_host h) as [host'|] eqn:Eh.
  2: { eapply entry_means_iff; [|exact IH]. intros r'. rewrite Hsnoc. naive_solver. }
  destruct (decide (host' = host)) as [->|Hne].
  2: { rewrite lookup_insert_ne by done. eapply entry_means_iff; [|exact IH]. intros r'. rewrite Hsnoc. naive_solver. }
  rewrite lookup_insert_eq.
  eapply entry_means_iff; [intros r'; symmetry; apply Hsnoc|].
  destruct (am_inferred (infer_events es m) !! host) as [[r0|]|] eqn:E; simpl in IH |- *.
  - case_bool_decide as Hr; simpl; [injection Hr as ->; naive_solver|].
    exists r0, r. split; [congruence|]. naive_solver.
  - destruct IH as (r1 & r2 & ? & ? & ?). exists r1, r2. naive_solver.
  - naive_solver.
Qed.

Lemma claims_events docs host r :
  event_claims (flat_map (λ d : RepoId * InfrastructureDocument, map (λ h, (h, d.1)) (document_hosts d.2)) docs) host r
  ↔ claims docs host r.
Proof.
  unfold event_claims, claims. setoid_rewrite list_elem_of_In. setoid_rewrite in_flat_map.
  setoid_rewrite in_map_iff. split.
  - intros (h & ([r' doc] & Hd & (h' & [= -> ->] & Hh)) & E). eauto.
  - intros (doc & h & Hd & Hh & E). exists h. split; [|done]. exists (r, doc). split; [done|]. by exists h.
Qed.

(** The authority map is exact. After the infrastructure documents are
    recorded over the declared authorities, a lookup answers [Declared] with the
    entry of the full authority or else of its host, [Inferred] exactly when one
    repository alone declares the service host, [External] exactly when none
    does, and [Workspace] for loopback hosts and for hosts that several
    repositories declare; the order of the documents is irrelevant. *)
Theorem lookup_authority_exact (docs : list (RepoId * InfrastructureDocument)) (m : AuthorityMap)
    (authority : string) (Hfresh : am_inferred m = ∅) :
  let host := authority_host authority in
  let undeclared := am_declared m !! authority = None ∧ am_declared m !! host = None in
  let claimed := claims docs (service_host host) in
  match lookup_authority authority (infer_documents docs m) with
  | AT_Declared r =>
      is_loopback host = false ∧
      (am_declared m !! authority = Some r
       ∨ am_declared m !! authority = None ∧ am_declared m !! host = Some r)
  | AT_Inferred r => is_loopback host = false ∧ undeclared ∧ claimed r ∧ ∀ r', claimed r' → r' = r
  | AT_External => is_loopback host = false ∧ undeclared ∧ ∀ r, ¬ claimed r
  | AT_Workspace =>
      is_loopback host = true ∨ (undeclared ∧ ∃ r1 r2, r1 ≠ r2 ∧ claimed r1 ∧ claimed r2)
  end.
Proof.
  intros host undeclared claimed. rewrite infer_documents_events. unfold lookup_authority.
  set (es := flat_map _ docs). fold host. rewrite infer_events_declared.
  pose proof (infer_events_means es m (service_host host) Hfresh) as Hmeans.
  apply (entry_means_iff _ claimed) in Hmeans; [|apply claims_events].
  destruct (is_loopback host) eqn:El; [by left|].
  destruct (am_declared m !! authority) as [r|] eqn:Ea; [by auto|].
  destruct (am_declared m !! host) as [r|] eqn:Eh; [by auto|].
  destruct (am_inferred (infer_events es m) !! service_host host) as [[r|]|]; simpl in Hmeans; unfold undeclared; naive_solver.
Qed.

Module Example_authority.
Definition document (name : string) : InfrastructureDocument :=
  {| id_artifact_kind := Kubernetes; id_source_path := "k8s.yaml";
     id_deployment_units := [{| du_kind := KubernetesDeployment; du_name := name; du_namespace := None;
       du_images := []; du_ports := []; du_environment_keys := []; du_dependencies := [];
       du_service_names := ["Orders.shop.svc.cluster.local"]; du_host_aliases := []; du_selectors := []; du_evidence := [] |}];
     id_resources := []; id_environment_keys := []; id_warnings := []; id_incomplete := false |}.
Definition docs := [("repo-a", document "worker"); ("repo-b", document "api")].
Definition declared := declare "gateway:443" "repo-c" empty_authorities.

Example lookups :
  map (λ a, lookup_authority a (infer_documents docs declared))
    ["gateway:443"; "gateway"; "worker:80"; "orders"; "localhost:3000"; "unknown.example"] =
  [AT_Declared "repo-c"; AT_External; AT_Inferred "repo-a"; AT_Workspace; AT_Workspace; AT_External].
Proof. vm_compute. reflexivity. Qed.

Lemma lookup_authority_exact_witness :
  am_inferred declared = ∅ ∧
  ∃ r, lookup_authority "worker:80" (infer_documents docs declared) = AT_Inferred r
    ∧ ∀ r', claims docs "worker" r' → r' = r.
Proof.
  split; [reflexivity|]. exists "repo-a". split; [vm_compute; reflexivity|].
  pose proof (lookup_authority_exact docs declared "worker:80" eq_refl) as H.
  vm_compute (lookup_authority _ _) in H. apply H.
Defined.
End Example_authority.
