(* ===== verification/RouteIndex.v ===== *)
(** * The provider index ([crates/code-system-graph-core/src/routes.rs], [http.rs])

    HTTP boundaries, the per-method tries of provider shapes, and the
    resolution of one call against them. The trie is related to the list of
    providers it was built from: it answers with the most specific accepted
    providers. *)
From stdpp Require Import base gmap list strings.
From S2P Require Import Prelude RustOrd RustFloat RustStr Model RouteShape.

Inductive BoundaryRole := Provider | Consumer.
#[export] Instance BoundaryRole_eq_dec : EqDecision BoundaryRole.
Proof. solve_decision. Defined.

Inductive CallScope :=
| Scope_Workspace
| Scope_InProcess
| Scope_Authority (authority : string)
| Scope_External.

Record HttpBoundary := {
  hb_node : Node;
  hb_method : string;
  hb_path : string;
  hb_role : BoundaryRole;
  hb_scope : CallScope;
  hb_evidence : Evidence;
}.

Notation hb_id p := (node_id (hb_node p)) (only parsing).
Notation hb_repo p := (node_repo_id (hb_node p)) (only parsing).
Notation hb_confidence p := (ev_confidence (hb_evidence p)) (only parsing).

(** ** [ProviderSet] *)
Definition ProviderSet := list HttpBoundary.

(** The entry of the same node is replaced in place by a more confident one. *)
Fixpoint set_insert (provider : HttpBoundary) (providers : ProviderSet) : ProviderSet :=
  match providers with
  | [] => [provider]
  | existing :: rest =>
      if String.eqb (hb_id existing) (hb_id provider) then
        if f_lt (hb_confidence existing) (hb_confidence provider) then provider :: rest else providers
      else existing :: set_insert provider rest
  end.

Definition accepted (accept : HttpBoundary → bool) (providers : ProviderSet) : list HttpBoundary :=
  List.filter accept providers.

(** ** [RouteNode] *)
Inductive RouteNode := route_node {
  statics : gmap string RouteNode;
  mixed : gmap (list string) RouteNode;
  param : option RouteNode;
  catch_all : ProviderSet;
  terminal : ProviderSet;
}.

Definition empty_node : RouteNode := route_node ∅ ∅ None [] [].

Fixpoint insert (segs : list RouteSegment) (provider : HttpBoundary) (n : RouteNode) : RouteNode :=
  match segs with
  | [] => route_node (statics n) (mixed n) (param n) (catch_all n) (set_insert provider (terminal n))
  | Static value :: rest =>
      let child := insert rest provider (default empty_node (statics n !! value)) in
      route_node (<[value := child]> (statics n)) (mixed n) (param n) (catch_all n) (terminal n)
  | Param :: rest =>
      let child := insert rest provider (default empty_node (param n)) in
      route_node (statics n) (mixed n) (Some child) (catch_all n) (terminal n)
  | Mixed literals :: rest =>
      let child := insert rest provider (default empty_node (mixed n !! literals)) in
      route_node (statics n) (<[literals := child]> (mixed n)) (param n) (catch_all n) (terminal n)
  | CatchAll :: _ =>
      route_node (statics n) (mixed n) (param n) (set_insert provider (catch_all n)) (terminal n)
  end.

Definition mixed_accepts (literals : list string) (first : RouteSegment) : bool :=
  match first with
  | Static value => mixed_segment_matches literals value
  | Mixed query_literals => bool_decide (literals = query_literals)
  | Param | CatchAll => false
  end.

Fixpoint find (query : list RouteSegment) (accept : HttpBoundary → bool) (n : RouteNode) : list HttpBoundary :=
  match query with
  | [] => accepted accept (terminal n)
  | first :: rest =>
      let static_found :=
        match first with
        | Static value =>
            match statics n !! value with Some child => find rest accept child | None => [] end
        | _ => []
        end in
      if negb (is_empty_list static_found) then static_found
      else
        let mixed_matches :=
          flat_map (λ entry : list string * RouteNode,
            if mixed_accepts entry.1 first then find rest accept entry.2 else []) (btree_entries (mixed n)) in
        if negb (is_empty_list mixed_matches) then mixed_matches
        else
          let param_found :=
            match first, param n with
            | CatchAll, _ => []
            | _, Some child => find rest accept child
            | _, None => []
            end in
          if negb (is_empty_list param_found) then param_found
          else accepted accept (catch_all n)
  end.

(** ** [RouteIndex] *)
Notation RouteIndex := (gmap string RouteNode) (only parsing).

Definition index_insert (index : RouteIndex) (provider : HttpBoundary) : RouteIndex :=
  <[hb_method provider :=
      insert (segments (parse (hb_path provider))) provider (default empty_node (index !! hb_method provider))]> index.

Definition is_provider (b : HttpBoundary) : bool := bool_decide (hb_role b = Provider).

Definition new_index (boundaries : list HttpBoundary) : RouteIndex :=
  foldl index_insert ∅ (List.filter is_provider boundaries).

Inductive RouteResolution :=
| RR_Unique (provider : HttpBoundary)
| RR_Ambiguous (candidates : list HttpBoundary)
| RR_Unmatched.

Definition in_repository (repository : RepoId) (p : HttpBoundary) : bool :=
  bool_decide (hb_repo p = Some repository).

(** The closures passed to [find]. *)
Definition admits (restriction : option RepoId) (p : HttpBoundary) : bool :=
  match restriction with Some repository => in_repository repository p | None => true end.

(** The caller's own repository, when it has exactly one of several matches. *)
Definition prefer_local (caller_repository : option RepoId) (found : list HttpBoundary) : list HttpBoundary :=
  if (1 <? length found)%nat then
    match caller_repository with
    | Some caller =>
        let local := List.filter (in_repository caller) found in
        if (length local =? 1)%nat then local else found
    | None => found
    end
  else found.

Definition resolve (index : RouteIndex) (method path : string)
    (caller_repository restriction : option RepoId) : RouteResolution :=
  match index !! method with
  | None => RR_Unmatched
  | Some root =>
      let found := find (segments (parse path)) (admits restriction) root in
      match prefer_local caller_repository found with
      | [] => RR_Unmatched
      | [provider] => RR_Unique provider
      | found => RR_Ambiguous found
      end
  end.

(** ** Templates, and what it means to match and to be more specific *)
Definition segment_matches (s first : RouteSegment) : bool :=
  match s, first with
  | Static v, Static v' => String.eqb v v'
  | Mixed literals, _ => mixed_accepts literals first
  | Param, CatchAll => false
  | Param, _ => true
  | _, _ => false
  end.

Fixpoint route_matches (template query : list RouteSegment) : bool :=
  match template, query with
  | [], [] => true
  | CatchAll :: _, _ :: _ => true
  | s :: template, first :: query => segment_matches s first && route_matches template query
  | _, _ => false
  end.

Definition segment_rank (s : RouteSegment) : nat :=
  match s with Static _ => 0 | Mixed _ => 1 | Param => 2 | CatchAll => 3 end.

(** More specific at the first segment where the two templates differ. *)
Inductive more_specific : list RouteSegment → list RouteSegment → Prop :=
| more_here s s' t t' : segment_rank s < segment_rank s' → more_specific (s :: t) (s' :: t')
| more_later s t t' : more_specific t t' → more_specific (s :: t) (s :: t').

(** A catch-all ends its template. *)
Fixpoint template_wf (t : list RouteSegment) : Prop :=
  match t with
  | [] => True
  | CatchAll :: t => t = []
  | _ :: t => template_wf t
  end.

Lemma push_segments_wf parts : template_wf (push_segments parts).
Proof.
  induction parts as [|p parts IH]; simpl; [done|].
  case_bool_decide as H; [by rewrite H|]. by destruct (classify_segment p).
Qed.

Lemma parse_wf path : template_wf (segments (parse path)).
Proof. apply push_segments_wf. Qed.

(** ** The trie as a map from templates to provider sets *)
Definition child (n : RouteNode) (s : RouteSegment) : option RouteNode :=
  match s with
  | Static v => statics n !! v
  | Mixed literals => mixed n !! literals
  | Param => param n
  | CatchAll => None
  end.

Fixpoint route_at (t : list RouteSegment) (n : RouteNode) : ProviderSet :=
  match t with
  | [] => terminal n
  | CatchAll :: _ => catch_all n
  | s :: t => match child n s with Some c => route_at t c | None => [] end
  end.

Lemma route_at_empty t : route_at t empty_node = [].
Proof. by destruct t as [|[] t]. Qed.

Lemma route_at_default t s n :
  s ≠ CatchAll → route_at (s :: t) n = route_at t (default empty_node (child n s)).
Proof.
  intros Hs. destruct s; try done; simpl;
    match goal with |- context [match ?o with Some _ => _ | None => _ end] => destruct o end; simpl;
    by rewrite ?route_at_empty.
Qed.

Lemma route_at_insert s t p n :
  template_wf s → template_wf t →
  route_at t (insert s p n) = if bool_decide (t = s) then set_insert p (route_at t n) else route_at t n.
Proof.
  revert t n. induction s as [|x s IH]; intros t n Hs Ht.
  { destruct t as [|y t]; [by rewrite bool_decide_eq_true_2|].
    rewrite bool_decide_eq_false_2 by done. by destruct y. }
  destruct t as [|y t]; [rewrite bool_decide_eq_false_2 by done; by destruct x|].
  destruct (decide (x = y)) as [<-|Hne].
  - destruct x; simpl in Hs, Ht.
    1-3: rewrite !route_at_default by done; simpl;
         rewrite ?lookup_insert_eq; simpl; rewrite IH by done;
         repeat case_bool_decide; congruence.
    subst. by rewrite bool_decide_eq_true_2.
  - rewrite bool_decide_eq_false_2 by congruence.
    destruct x, y; try done; simpl; rewrite ?lookup_insert_ne by congruence; done.
Qed.

(** ** The provider set *)
Lemma set_insert_elem x p l : x ∈ set_insert p l → x = p ∨ x ∈ l.
Proof.
  induction l as [|c l IH]; simpl; [set_solver|]. repeat case_if; set_solver.
Qed.

Lemma set_insert_ids p l id :
  (∃ x, x ∈ set_insert p l ∧ hb_id x = id) ↔ hb_id p = id ∨ ∃ x, x ∈ l ∧ hb_id x = id.
Proof.
  induction l as [|c l IH]; simpl; [set_solver|].
  destruct (String.eqb_spec (hb_id c) (hb_id p)) as [E|E]; [case_if|]; set_solver.
Qed.

(** What a fold of insertions keeps: providers of the list, one per node. *)
Lemma fold_set_insert (ps : list HttpBoundary) (l : ProviderSet) :
  let r := foldl (λ l p, set_insert p l) l ps in
  (∀ x, x ∈ r → x ∈ l ∨ x ∈ ps) ∧
  (∀ p, p ∈ ps ∨ p ∈ l → ∃ x, x ∈ r ∧ hb_id x = hb_id p).
Proof.
  revert l. induction ps as [|p ps IH]; intros l; simpl; [set_solver|].
  destruct (IH (set_insert p l)) as [H1 H2]. split.
  - intros x [[->|?]%set_insert_elem|?]%H1; set_solver.
  - intros q [[->|Hq]%elem_of_cons|Hq].
    + destruct (proj2 (set_insert_ids p l (hb_id p)) (or_introl eq_refl)) as (x & Hx & Ex).
      destruct (H2 x) as (y & Hy & Ey); [by right|]. exists y. by rewrite Ey.
    + by apply H2; left.
    + destruct (proj2 (set_insert_ids p l (hb_id q))) as (x & Hx & Ex); [right; eauto|].
      destruct (H2 x) as (y & Hy & Ey); [by right|]. exists y. by rewrite Ey.
Qed.

(** ** The search finds the most specific accepted templates *)
Section find.
Context (accept : HttpBoundary → bool).

(** A template of the trie that matches and holds an accepted provider. *)
Definition live (n : RouteNode) (query template : list RouteSegment) (p : HttpBoundary) : Prop :=
  template_wf template ∧ route_matches template query = true ∧ p ∈ accepted accept (route_at template n).

(** The matches below the children of one rank. *)
Definition layer (n : RouteNode) (first : RouteSegment) (rest : list RouteSegment) (k : nat)
    (p : HttpBoundary) : Prop :=
  ∃ s c, segment_rank s = k ∧ segment_matches s first = true ∧ child n s = Some c ∧ p ∈ find rest accept c.

(** The branches of [find], layer by layer. *)
Lemma find_layers n first rest :
  ∃ l0 l1 l2,
    find (first :: rest) accept n =
      (if negb (is_empty_list l0) then l0 else if negb (is_empty_list l1) then l1
       else if negb (is_empty_list l2) then l2 else accepted accept (catch_all n)) ∧
    (∀ p, p ∈ l0 ↔ layer n first rest 0 p) ∧ (∀ p, p ∈ l1 ↔ layer n first rest 1 p) ∧
    (∀ p, p ∈ l2 ↔ layer n first rest 2 p).
Proof.
  do 3 eexists. split; [reflexivity|]. unfold layer. split_and!; intros p.
  - split.
    + destruct first; try by intros ?%not_elem_of_nil. case_match eqn:E; [|by intros ?%not_elem_of_nil].
      intros H. eexists (Static _), _. split_and!; eauto. apply String.eqb_refl.
    + intros (s & c & Hr & Hm & Hc & Hp). destruct s; try discriminate Hr.
      destruct first; try discriminate Hm. simpl in Hm, Hc. apply String.eqb_eq in Hm as ->. by rewrite Hc.
  - rewrite list_elem_of_In, in_flat_map. split.
    + intros ([literals c] & Hin & Hp). simpl in Hp. case_if; [|done].
      apply list_elem_of_In, btree_entries_elem_of in Hin. apply list_elem_of_In in Hp.
      by exists (Mixed literals), c.
    + intros (s & c & Hr & Hm & Hc & Hp). destruct s as [| |literals|]; try discriminate Hr.
      simpl in Hm, Hc. exists (literals, c). simpl. rewrite Hm.
      split; apply list_elem_of_In; [by apply btree_entries_elem_of|done].
  - split.
    + intros H. destruct (param n) as [c|] eqn:E; [|by destruct first; apply not_elem_of_nil in H].
      exists Param, c. destruct first; try by apply not_elem_of_nil in H. all: done.
    + intros (s & c & Hr & Hm & Hc & Hp). destruct s; try discriminate Hr. simpl in Hc. rewrite Hc.
      by destruct first.
Qed.

Lemma live_cons n first rest t p :
  live n (first :: rest) t p ↔
  (t = [CatchAll] ∧ p ∈ accepted accept (catch_all n)) ∨
  ∃ s c t', t = s :: t' ∧ segment_matches s first = true ∧ child n s = Some c ∧ live c rest t' p.
Proof.
  unfold live. split.
  - intros (Hwf & Hm & Hp). destruct t as [|s t]; [done|].
    destruct (decide (s = CatchAll)) as [->|Hs]; [left; simpl in Hwf; by subst|right].
    assert (Hm' : segment_matches s first && route_matches t rest = true) by (by destruct s).
    apply andb_true_iff in Hm' as [Hm1 Hm2]. rewrite route_at_default in Hp by done.
    destruct (child n s) as [c|] eqn:Ec.
    + exists s, c, t. simpl in Hp. split_and!; try done. by destruct s.
    + simpl in Hp. rewrite route_at_empty in Hp. by apply not_elem_of_nil in Hp.
  - intros [[-> Hp]|(s & c & t' & -> & Hm & Hc & Hwf & Hm' & Hp)]; [done|].
    destruct s; try done; split_and!; try done; cbn [route_matches route_at]; rewrite ?Hm, ?Hc; done.
Qed.

(** Nothing is found exactly when nothing is live. *)
Lemma find_live n query : (∃ p, p ∈ find query accept n) ↔ ∃ t p, live n query t p.
Proof.
  revert n. induction query as [|first rest IH]; intros n.
  - simpl. split.
    + intros [p Hp]. by exists [], p.
    + intros (t & p & _ & Hm & Hp). destruct t as [|[] t]; [by exists p|done..].
  - destruct (find_layers n first rest) as (l0 & l1 & l2 & -> & H0 & H1 & H2).
    assert (Hlayer : ∀ k p, layer n first rest k p → ∃ t p, live n (first :: rest) t p).
    { intros k p (s & c & _ & Hm & Hc & Hp). destruct (proj1 (IH c)) as (t & p' & Hl); [eauto|].
      exists (s :: t), p'. apply live_cons. right. by exists s, c, t. }
    split.
    + intros [p Hp]. repeat case_if; [by eapply Hlayer, H0|by eapply Hlayer, H1|by eapply Hlayer, H2|].
      exists [CatchAll], p. apply live_cons. by left.
    + intros (t & p & [[-> Hp]|(s & c & t' & -> & Hm & Hc & Hl)]%live_cons).
      * destruct l0 as [|x ?]; [|exists x; simpl; set_solver].
        destruct l1 as [|x ?]; [|exists x; simpl; set_solver].
        destruct l2 as [|x ?]; [|exists x; simpl; set_solver]. by exists p.
      * destruct (proj2 (IH c)) as [x Hx]; [eauto|].
        assert (Hx' : layer n first rest (segment_rank s) x) by (by exists s, c).
        destruct l0 as [|y ?]; [|exists y; simpl; set_solver].
        destruct l1 as [|y ?]; [|exists y; simpl; set_solver].
        destruct l2 as [|y ?]; [|exists y; simpl; set_solver].
        destruct s; simpl in Hx'; [apply H0 in Hx'|apply H2 in Hx'|apply H1 in Hx'|done];
          by apply not_elem_of_nil in Hx'.
Qed.

Lemma find_exact n query p :
  p ∈ find query accept n ↔
  ∃ t, live n query t p ∧ ∀ t' p', live n query t' p' → ¬ more_specific t' t.
Proof.
  revert n p. induction query as [|first rest IH]; intros n p.
  - simpl. split.
    + intros Hp. exists []. split; [done|]. intros t' p' _ Hms. inversion Hms.
    + intros (t & (_ & Hm & Hp) & _). by destruct t as [|[] t].
  - destruct (find_layers n first rest) as (l0 & l1 & l2 & -> & H0 & H1 & H2).
    assert (Hin : ∀ k, layer n first rest k p →
      (∀ k' p', k' < k → ¬ layer n first rest k' p') →
      ∃ t, live n (first :: rest) t p ∧ ∀ t' p', live n (first :: rest) t' p' → ¬ more_specific t' t).
    { intros k (s & c & Hr & Hm & Hc & Hp) Hlow. apply IH in Hp as (t & Hl & Hmin).
      exists (s :: t). split; [apply live_cons; right; by exists s, c, t|].
      intros t' p' Hl' Hms. apply live_cons in Hl' as [[-> _]|(s' & c' & t0 & -> & Hm' & Hc' & Hl')];
        inversion Hms as [? ? ? ? Hlt|]; subst; simpl in *.
      - destruct s; simpl in Hlt; lia.
      - done.
      - destruct (proj2 (find_live c' rest)) as [x Hx]; [eauto|].
        apply (Hlow (segment_rank s') x); [lia|]. by exists s', c'.
      - replace c' with c in Hl' by congruence. by apply (Hmin _ _ Hl'). }
    assert (Hout : ∀ t, live n (first :: rest) t p →
      (∀ t' p', live n (first :: rest) t' p' → ¬ more_specific t' t) →
      (∀ s c t0, t = s :: t0 → child n s = Some c → segment_matches s first = true →
        layer n first rest (segment_rank s) p) ∧
      ∀ s t0 k p', t = s :: t0 → k < segment_rank s → ¬ layer n first rest k p').
    { intros t Hl Hmin. split.
      - intros s c t0 -> Hc Hm. apply live_cons in Hl as [[[= -> ->] _]|(s' & c' & t' & [= <- <-] & _ & Hc' & Hl)];
          [done|]. replace c' with c in Hl by congruence. exists s, c. split_and!; try done.
        apply IH. exists t0. split; [done|]. intros t' p' Hl' Hms.
        apply (Hmin (s :: t') p'); [|by constructor]. apply live_cons. right. by exists s, c, t'.
      - intros s t0 k p' -> Hk (s' & c' & Hr & Hm & Hc & Hp).
        destruct (proj1 (find_live c' rest)) as (t' & q & Hl'); [eauto|].
        apply (Hmin (s' :: t') q); [|constructor; lia]. apply live_cons. right. by exists s', c', t'. }
    split.
    + intros Hp. destruct l0 as [|x0 ?]; simpl in Hp.
      2: { apply H0 in Hp. apply (Hin 0); [done|lia]. }
      destruct l1 as [|x1 ?]; simpl in Hp.
      2: { apply H1 in Hp. apply (Hin 1); [done|]. intros k' p' Hk Hl'.
           assert (k' = 0) as -> by lia. apply H0 in Hl'. by apply not_elem_of_nil in Hl'. }
      assert (Hlow : ∀ k p', k < 2 → ¬ layer n first rest k p').
      { intros k p' Hk Hl. destruct k as [|[|]]; [apply H0 in Hl|apply H1 in Hl|lia]; by apply not_elem_of_nil in Hl. }
      destruct l2 as [|x2 ?]; simpl in Hp.
      2: { apply H2 in Hp. by apply (Hin 2). }
      exists [CatchAll]. split; [apply live_cons; by left|].
      intros t' p' [[-> _]|(s & c & t0 & -> & Hm & Hc & Hl)]%live_cons Hms.
      { inversion Hms as [? ? ? ? Hlt|? ? ? Hlt]; subst; [simpl in Hlt; lia|inversion Hlt]. }
      destruct (proj2 (find_live c rest)) as [x Hx]; [eauto|].
      assert (Hx' : layer n first rest (segment_rank s) x) by (by exists s, c).
      destruct s; simpl in Hx'; [by apply (Hlow 0 x); [lia|]| |by apply (Hlow 1 x); [lia|]|done].
      apply H2 in Hx'. by apply not_elem_of_nil in Hx'.
    + intros (t & Hl & Hmin). destruct (Hout t Hl Hmin) as [Hlayer Hlow].
      assert (Hnil : ∀ k l s t0, (∀ q, q ∈ l ↔ layer n first rest k q) → t = s :: t0 → k < segment_rank s → l = []).
      { intros k [|x l] s t0 Hk Ht Hlt; [done|]. exfalso. apply (Hlow s t0 k x); [done..|]. apply Hk. set_solver. }
      apply live_cons in Hl as [[-> Hp]|(s & c & t0 & -> & Hm & Hc & Hl)].
      * rewrite (Hnil 0 l0 CatchAll []), (Hnil 1 l1 CatchAll []), (Hnil 2 l2 CatchAll []) by (done || simpl; lia). done.
      * pose proof (Hlayer s c t0 eq_refl Hc Hm) as Hp. destruct s; simpl in Hp; [| | |done].
        -- apply H0 in Hp. destruct l0; [by apply not_elem_of_nil in Hp|done].
        -- rewrite (Hnil 0 l0 Param t0), (Hnil 1 l1 Param t0) by (done || simpl; lia). simpl.
           apply H2 in Hp. destruct l2; [by apply not_elem_of_nil in Hp|done].
        -- rewrite (Hnil 0 l0 (Mixed literals) t0) by (done || simpl; lia). simpl.
           apply H1 in Hp. destruct l1; [by apply not_elem_of_nil in Hp|done].
Qed.
End find.

(** ** The index against the list of boundaries *)
Definition template_of (p : HttpBoundary) : list RouteSegment := segments (parse (hb_path p)).

Definition index_at (index : RouteIndex) (method : string) (t : list RouteSegment) : ProviderSet :=
  match index !! method with Some n => route_at t n | None => [] end.

Lemma index_at_insert index p method t :
  template_wf t →
  index_at (index_insert index p) method t =
  if bool_decide (hb_method p = method ∧ t = template_of p)
  then set_insert p (index_at index method t) else index_at index method t.
Proof.
  intros Ht. unfold index_at, index_insert, template_of.
  destruct (decide (hb_method p = method)) as [<-|Hne].
  - rewrite lookup_insert_eq, route_at_insert by (done || apply parse_wf).
    destruct (index !! hb_method p); simpl; [|rewrite route_at_empty];
      repeat case_bool_decide; naive_solver.
  - rewrite lookup_insert_ne by done. case_bool_decide; naive_solver.
Qed.

Definition provides (boundaries : list HttpBoundary) (method : string) (t : list RouteSegment) : list HttpBoundary :=
  List.filter (λ p, bool_decide (hb_method p = method ∧ t = template_of p)) (List.filter is_provider boundaries).

Lemma new_index_at boundaries method t :
  template_wf t →
  index_at (new_index boundaries) method t = foldl (λ l p, set_insert p l) [] (provides boundaries method t).
Proof.
  intros Ht. unfold new_index, provides. generalize (List.filter is_provider boundaries) as ps. intros ps.
  assert (Hgen : ∀ index, index_at (foldl index_insert index ps) method t =
    foldl (λ l p, set_insert p l) (index_at index method t)
      (List.filter (λ p, bool_decide (hb_method p = method ∧ t = template_of p)) ps)).
  { induction ps as [|p ps IH]; intros index; simpl; [done|]. rewrite IH, index_at_insert by done.
    by destruct (bool_decide _). }
  rewrite Hgen. unfold index_at. by rewrite lookup_empty.
Qed.

Section candidates.
Context (boundaries : list HttpBoundary) (method path : string) (restriction : option RepoId).

(** A provider whose template matches the path, inside the restriction. *)
Definition candidate (p : HttpBoundary) : Prop :=
  p ∈ boundaries ∧ hb_role p = Provider ∧ hb_method p = method
  ∧ route_matches (template_of p) (segments (parse path)) = true ∧ admits restriction p = true.

Definition most_specific (p : HttpBoundary) : Prop :=
  candidate p ∧ ∀ p', candidate p' → ¬ more_specific (template_of p') (template_of p).

(** Providers of the same node belong to the same repository. *)
Definition consistent_nodes : Prop :=
  ∀ p q, p ∈ boundaries → q ∈ boundaries → hb_id p = hb_id q → hb_repo p = hb_repo q.

Lemma provides_elem t p :
  p ∈ provides boundaries method t ↔
  p ∈ boundaries ∧ hb_role p = Provider ∧ hb_method p = method ∧ t = template_of p.
Proof.
  unfold provides, is_provider. rewrite !list_filter_In, !bool_decide_eq_true. tauto.
Qed.

Lemma admits_repo p q : hb_repo p = hb_repo q → admits restriction p = admits restriction q.
Proof. unfold admits, in_repository. by intros ->. Qed.

(** The trie's live templates are the candidates' templates. *)
Lemma live_candidate root t p :
  new_index boundaries !! method = Some root →
  live (admits restriction) root (segments (parse path)) t p → candidate p ∧ t = template_of p.
Proof.
  intros Hroot (Hwf & Hm & [Hp Ha]%list_filter_In).
  assert (Hat : p ∈ index_at (new_index boundaries) method t) by (unfold index_at; by rewrite Hroot).
  rewrite new_index_at in Hat by done.
  destruct (fold_set_insert (provides boundaries method t) []) as [Hsub _].
  destruct (Hsub p Hat) as [?%not_elem_of_nil|Hin]; [done|].
  apply provides_elem in Hin as (? & ? & ? & ->). done.
Qed.

Lemma candidate_live p :
  consistent_nodes → candidate p →
  ∃ root p', new_index boundaries !! method = Some root ∧
    live (admits restriction) root (segments (parse path)) (template_of p) p' ∧ hb_id p' = hb_id p.
Proof.
  intros Hcons (Hb & Hr & Hme & Hm & Ha). pose proof (parse_wf (hb_path p)) as Hwf.
  destruct (fold_set_insert (provides boundaries method (template_of p)) []) as [Hsub Hall].
  destruct (Hall p) as (x & Hx & Ex); [left; by apply provides_elem|].
  pose proof Hx as Hx2. rewrite <-new_index_at in Hx by done. unfold index_at in Hx.
  destruct (new_index boundaries !! method) as [root|] eqn:E; [|by apply not_elem_of_nil in Hx].
  exists root, x. split_and!; [done| |done]. split_and!; [done..|].
  apply list_filter_In. split; [done|].
  destruct (Hsub x Hx2) as [?%not_elem_of_nil|[Hxb _]%provides_elem]; [done|].
  rewrite (admits_repo x p) by by apply Hcons. done.
Qed.

Lemma find_candidates root :
  consistent_nodes → new_index boundaries !! method = Some root →
  let found := find (segments (parse path)) (admits restriction) root in
  (∀ p, p ∈ found → most_specific p) ∧
  (∀ p, most_specific p → ∃ x, x ∈ found ∧ hb_id x = hb_id p).
Proof.
  intros Hcons Hroot found. split.
  - intros p Hp. apply find_exact in Hp as (t & Hl & Hmin).
    destruct (live_candidate _ _ _ Hroot Hl) as [Hc ->]. split; [done|]. intros p' Hp' Hms.
    destruct (candidate_live p' Hcons Hp') as (root' & x & Hroot' & Hl' & _).
    replace root' with root in Hl' by congruence. by apply (Hmin _ _ Hl').
  - intros p [Hc Hmin]. destruct (candidate_live p Hcons Hc) as (root' & x & Hroot' & Hl & Ex).
    replace root' with root in Hl by congruence. exists x. split; [|done].
    apply find_exact. exists (template_of p). split; [done|]. intros t' p' Hl' Hms.
    destruct (live_candidate _ _ _ Hroot Hl') as [Hc' ->]. by apply (Hmin p').
Qed.
End candidates.

(** C5: Resolution is exact. The trie answers as a search of the whole list of
    providers would: [Unmatched] exactly when no provider of the method,
    inside the restriction, has a matching template; otherwise every answer is
    most specific (static over mixed over parameter over catch-all at the first
    segment where templates differ). A unique answer stands for every
    most specific candidate except those of other repositories than the
    caller's own; an ambiguous answer has a member for the node of each most
    specific candidate, and the caller's repository does not have exactly one. *)
Theorem resolve_exact (boundaries : list HttpBoundary) (method path : string)
    (caller restriction : option RepoId) (Hcons : consistent_nodes boundaries) :
  let best := most_specific boundaries method path restriction in
  match resolve (new_index boundaries) method path caller restriction with
  | RR_Unmatched => ∀ p, ¬ candidate boundaries method path restriction p
  | RR_Unique p =>
      best p ∧ ∀ p', best p' → hb_id p' = hb_id p ∨
        ∃ c, caller = Some c ∧ hb_repo p = Some c ∧ hb_repo p' ≠ Some c
  | RR_Ambiguous ps =>
      (2 ≤ length ps)%nat ∧ (∀ p, p ∈ ps → best p) ∧ (∀ p, best p → ∃ x, x ∈ ps ∧ hb_id x = hb_id p) ∧
      (∀ c, caller = Some c → length (List.filter (in_repository c) ps) ≠ 1)
  end.
Proof.
  intros best. unfold resolve.
  destruct (new_index boundaries !! method) as [root|] eqn:Hroot.
  2: { intros p Hp. destruct (candidate_live _ _ _ _ p Hcons Hp) as (root & ? & Hr & _). congruence. }
  destruct (find_candidates _ _ path restriction root Hcons Hroot) as [Hsound Hcomplete].
  set (found := find _ _ root) in *.
  assert (Hempty : found = [] → ∀ p, ¬ candidate boundaries method path restriction p).
  { intros E p Hp. destruct (candidate_live _ _ _ _ p Hcons Hp) as (root' & x & Hr & Hl & _).
    replace root' with root in Hl by congruence.
    destruct (proj2 (find_live (admits restriction) root (segments (parse path)))) as [y Hy]; [eauto|].
    fold found in Hy. rewrite E in Hy. by apply not_elem_of_nil in Hy. }
  assert (Hglobal : ∀ p, found = [p] → best p ∧ ∀ p', best p' → hb_id p' = hb_id p).
  { intros p E. split; [apply Hsound; rewrite E; set_solver|]. intros p' Hp'.
    destruct (Hcomplete p' Hp') as (x & Hx & <-). rewrite E in Hx. by apply list_elem_of_singleton in Hx as ->. }
  unfold prefer_local. destruct (1 <? length found)%nat eqn:Hlen.
  2: { apply Nat.ltb_ge in Hlen. destruct found as [|p [|q ps]]; [by apply Hempty| |simpl in Hlen; lia].
       destruct (Hglobal p eq_refl). auto. }
  apply Nat.ltb_lt in Hlen. destruct caller as [c|].
  2: { destruct found as [|p [|q ps]]; [simpl in Hlen; lia..|]. by split_and!. }
  destruct (length (List.filter (in_repository c) found) =? 1)%nat eqn:Hloc.
  - apply Nat.eqb_eq in Hloc.
    destruct (List.filter (in_repository c) found) as [|p [|q ps]] eqn:Ef; [done| |done].
    assert (Hin : ∀ x, x ∈ [p] ↔ x ∈ found ∧ in_repository c x = true) by (intros x; by rewrite <-Ef, list_filter_In).
    destruct (proj1 (Hin p)) as [Hp Hpc]; [set_solver|]. apply bool_decide_eq_true in Hpc.
    split; [by apply Hsound|]. intros p' Hp'.
    destruct (Hcomplete p' Hp') as (x & Hx & Ex). destruct (decide (hb_repo p' = Some c)) as [Hc|Hc]; [left|eauto].
    destruct (Hsound x Hx) as [(Hxb & _) _]. destruct Hp' as [(Hpb & _) _].
    assert (x ∈ [p]) as ->%list_elem_of_singleton; [|done].
    apply Hin. split; [done|]. apply bool_decide_eq_true. by rewrite (Hcons x p').
  - apply Nat.eqb_neq in Hloc. destruct found as [|p [|q ps]]; [simpl in Hlen; lia..|].
    split_and!; [done..|]. by intros ? [= <-].
Qed.

Lemma resolve_in_repository (boundaries : list HttpBoundary) (method path : string)
    (caller : option RepoId) (repository : RepoId) :
  match resolve (new_index boundaries) method path caller (Some repository) with
  | RR_Unmatched => True
  | RR_Unique p => p ∈ boundaries ∧ hb_role p = Provider ∧ hb_repo p = Some repository
  | RR_Ambiguous ps => ∀ p, p ∈ ps → p ∈ boundaries ∧ hb_role p = Provider ∧ hb_repo p = Some repository
  end.
Proof.
  unfold resolve. destruct (new_index boundaries !! method) as [root|] eqn:Hroot; [|done].
  set (found := find _ _ root).
  assert (Hall : ∀ p, p ∈ prefer_local caller found →
    p ∈ boundaries ∧ hb_role p = Provider ∧ hb_repo p = Some repository).
  { intros p Hp. assert (Hf : p ∈ found).
    { unfold prefer_local in Hp. repeat case_match; try done. by apply list_filter_In in Hp as [? _]. }
    apply find_exact in Hf as (t & Hl & _).
    destruct (live_candidate _ _ _ _ _ _ _ Hroot Hl) as [(? & ? & _ & _ & Ha) _].
    by apply bool_decide_eq_true in Ha. }
  destruct (prefer_local caller found) as [|p [|q ps]]; [done| |done]. apply Hall. set_solver.
Qed.

Module Example_route_index.
Definition evidence (id : string) (repo : RepoId) (confidence : f32) : Evidence :=
  {| ev_id := id; ev_repo_id := Some repo; ev_file_path := None; ev_start_line := None; ev_end_line := None;
     ev_extractor := "openapi"; ev_extractor_version := "1"; ev_provenance := Prov_Declared;
     ev_confidence := confidence; ev_observed_at_commit := None; ev_content_hash := None; ev_note := None |}.
Definition boundary (id repo method path : string) (role : BoundaryRole) (scope : CallScope) : HttpBoundary :=
  {| hb_node := {| node_id := id; node_kind := NK_HttpOperation; node_repo_id := Some repo;
       node_stable_key := id; node_label := id |};
     hb_method := method; hb_path := path; hb_role := role; hb_scope := scope;
     hb_evidence := evidence id repo f32_one |}.
Definition providers : list HttpBoundary :=
  [boundary "a1" "a" "GET" "/orders/{id}" Provider Scope_Workspace;
   boundary "a2" "a" "GET" "/orders/{name}.json" Provider Scope_Workspace;
   boundary "a3" "a" "GET" "/orders/recent" Provider Scope_Workspace;
   boundary "b1" "b" "GET" "/orders/{key}" Provider Scope_Workspace;
   boundary "b2" "b" "GET" "/{rest...}" Provider Scope_Workspace].

Definition answer (r : RouteResolution) : list string :=
  match r with RR_Unmatched => [] | RR_Unique p => [hb_id p] | RR_Ambiguous ps => "?" :: map (λ p, hb_id p) ps end.

Example answers :
  map (λ q : string * option string * option string,
      answer (resolve (new_index providers) "GET" q.1.1 q.1.2 q.2))
    [("/orders/recent", None, None); ("/orders/x.json", None, None); ("/orders/1", None, None);
     ("/orders/1", Some "b", None); ("/orders/1", Some "c", Some "a"); ("/other/x/y", None, None); ("/", None, None)] =
  [["a3"]; ["a2"]; ["?"; "a1"; "b1"]; ["b1"]; ["a1"]; ["b2"]; []].
Proof. vm_compute. reflexivity. Qed.

Lemma consistent_providers : consistent_nodes providers.
Proof.
  intros p q Hp Hq. repeat setoid_rewrite elem_of_cons in Hp. repeat setoid_rewrite elem_of_cons in Hq.
  rewrite elem_of_nil in Hp, Hq. naive_solver.
Qed.

Lemma resolve_exact_witness :
  consistent_nodes providers ∧
  ∃ p, resolve (new_index providers) "GET" "/orders/x.json" None None = RR_Unique p ∧
    most_specific providers "GET" "/orders/x.json" None p.
Proof.
  split; [exact consistent_providers|].
  pose proof (resolve_exact providers "GET" "/orders/x.json" None None consistent_providers) as H. cbv zeta in H.
  destruct (resolve (new_index providers) "GET" "/orders/x.json" None None) as [p|ps|] eqn:E.
  - exists p. split; [reflexivity|]. apply H.
  - vm_compute in E. discriminate E.
  - vm_compute in E. discriminate E.
Defined.
End Example_route_index.
