(* ===== verification/RouteLinker.v ===== *)
(** * Linking HTTP calls ([crates/code-system-graph-core/src/routes.rs], [test_links.rs], [linker.rs])

    Consumers, tests and implementation anchors are resolved through one
    provider index into edges, ambiguities and a coverage report. *)
From stdpp Require Import base gmap list strings sorting.
From S2P Require Import Prelude RustOrd RustFloat RustStr Model RouteShape Authority RouteIndex.

(** ** Declared tests and implementations ([test_links.rs]) *)
Record DeclaredTestCase := {
  tc_node : Node;
  tc_method : string;
  tc_path : string;
  tc_scope : CallScope;
  tc_evidence : Evidence;
}.

Record DeclaredImplementation := {
  di_node : Node;
  di_method : string;
  di_path : string;
  di_evidence : Evidence;
}.

(** ** Results ([linker.rs]) *)
Record HttpLinkAmbiguity := {
  amb_method : string;
  amb_path : string;
  amb_candidates : list string;
}.
#[export] Instance HttpLinkAmbiguity_eq_dec : EqDecision HttpLinkAmbiguity.
Proof. solve_decision. Defined.

Record HttpLinkResolution := {
  res_edges : list Edge;
  res_ambiguities : list HttpLinkAmbiguity;
  res_report : HttpLinkReport;
}.

Definition http_link_ambiguity (method path : string) (candidates : list NodeId) : HttpLinkAmbiguity :=
  {| amb_method := method; amb_path := path; amb_candidates := dedup (sort candidates) |}.

Definition ambiguity_key (a : HttpLinkAmbiguity) : string * (string * list string) :=
  (amb_method a, (amb_path a, amb_candidates a)).

Definition sort_http_ambiguities (ambiguities : list HttpLinkAmbiguity) : list HttpLinkAmbiguity :=
  dedup_by (λ a b, bool_decide (a = b)) (sort_by (cmp_on ambiguity_key cmp) ambiguities).

(** ** Scopes *)
Inductive Restriction :=
| Restrict_Workspace
| Restrict_Strict (repository : RepoId)
| Restrict_Preferred (repository : RepoId)
| Restrict_External.

Definition scope_restriction (scope : CallScope) (caller_repository : option RepoId)
    (authorities : AuthorityMap) : Restriction :=
  match scope with
  | Scope_Workspace => Restrict_Workspace
  | Scope_InProcess =>
      match caller_repository with
      | Some repository => Restrict_Strict repository
      | None => Restrict_Workspace
      end
  | Scope_Authority authority =>
      match lookup_authority authority authorities with
      | AT_Workspace => Restrict_Workspace
      | AT_Declared repository => Restrict_Strict repository
      | AT_Inferred repository => Restrict_Preferred repository
      | AT_External => Restrict_External
      end
  | Scope_External => Restrict_External
  end.

Inductive CallResolution :=
| CR_Route (resolution : RouteResolution)
| CR_External.

Definition resolve_call (index : RouteIndex) (method path : string) (caller_repository : option RepoId)
    (scope : CallScope) (authorities : AuthorityMap) : CallResolution :=
  match scope_restriction scope caller_repository authorities with
  | Restrict_Workspace => CR_Route (resolve index method path caller_repository None)
  | Restrict_Strict repository => CR_Route (resolve index method path caller_repository (Some repository))
  | Restrict_Preferred repository =>
      CR_Route
        match resolve index method path caller_repository (Some repository) with
        | RR_Unmatched => resolve index method path caller_repository None
        | resolution => resolution
        end
  | Restrict_External => CR_External
  end.

(** ** [LinkSink] *)
Definition consensus_status (confidence : f32) : EpistemicStatus :=
  if f_le f32_one confidence then Confirmed else Inferred.

Definition merge_equivalent_edge (existing candidate : Edge) : Edge :=
  let confidence := f_max (edge_confidence existing) (edge_confidence candidate) in
  {| edge_id := edge_id existing; edge_source := edge_source existing; edge_target := edge_target existing;
     edge_kind := edge_kind existing; edge_confidence := confidence; edge_status := consensus_status confidence;
     edge_evidence := dedup (sort (edge_evidence existing ++ edge_evidence candidate)) |}.

Record LinkSink := {
  sink_edges : gmap EdgeId Edge;
  sink_ambiguities : list HttpLinkAmbiguity;
  sink_report : HttpLinkReport;
}.

Definition no_coverage : HttpLinkCoverage :=
  {| cov_linked := 0; cov_no_provider := 0; cov_ambiguous := 0; cov_external := 0 |}.

Definition default_sink : LinkSink :=
  {| sink_edges := ∅; sink_ambiguities := [];
     sink_report := {| report_coverage := no_coverage; report_gaps := [] |} |}.

Record RemoteCall := {
  rc_node : Node;
  rc_method : string;
  rc_path : string;
  rc_scope : CallScope;
  rc_evidence : Evidence;
  rc_kind : EdgeKind;
  rc_relation : string;
}.

Section sink.
Context `{Blake3}.

Definition link_edge_id (source : NodeId) (relation : string) (target : NodeId) : EdgeId :=
  stable_id "edge" (source +:+ ":" +:+ relation +:+ ":" +:+ target).

Definition link (sink : LinkSink) (source target : NodeId) (kind : EdgeKind) (relation : string)
    (confidence : f32) (evidence : list EvidenceId) : LinkSink :=
  let edge :=
    {| edge_id := link_edge_id source relation target; edge_source := source; edge_target := target;
       edge_kind := kind; edge_confidence := confidence; edge_status := consensus_status confidence;
       edge_evidence := evidence |} in
  let entry :=
    match sink_edges sink !! edge_id edge with
    | Some existing => merge_equivalent_edge existing edge
    | None => edge
    end in
  {| sink_edges := <[edge_id edge := entry]> (sink_edges sink);
     sink_ambiguities := sink_ambiguities sink; sink_report := sink_report sink |}.

Definition ambiguous (sink : LinkSink) (method path : string) (candidates : list HttpBoundary) : LinkSink :=
  {| sink_edges := sink_edges sink;
     sink_ambiguities := sink_ambiguities sink ++ [http_link_ambiguity method path (map (λ c, hb_id c) candidates)];
     sink_report := sink_report sink |}.

Definition count_gap (coverage : HttpLinkCoverage) (reason : HttpLinkGapReason) : HttpLinkCoverage :=
  match reason with
  | Gap_NoProvider =>
      {| cov_linked := cov_linked coverage; cov_no_provider := cov_no_provider coverage + 1;
         cov_ambiguous := cov_ambiguous coverage; cov_external := cov_external coverage |}
  | Gap_Ambiguous =>
      {| cov_linked := cov_linked coverage; cov_no_provider := cov_no_provider coverage;
         cov_ambiguous := cov_ambiguous coverage + 1; cov_external := cov_external coverage |}
  | Gap_External =>
      {| cov_linked := cov_linked coverage; cov_no_provider := cov_no_provider coverage;
         cov_ambiguous := cov_ambiguous coverage; cov_external := cov_external coverage + 1 |}
  end%N.

Definition gap (sink : LinkSink) (call : RemoteCall) (reason : HttpLinkGapReason)
    (candidates : list HttpBoundary) : LinkSink :=
  {| sink_edges := sink_edges sink; sink_ambiguities := sink_ambiguities sink;
     sink_report :=
       {| report_coverage := count_gap (report_coverage (sink_report sink)) reason;
          report_gaps := report_gaps (sink_report sink) ++
            [{| gap_caller := node_id (rc_node call); gap_method := rc_method call; gap_path := rc_path call;
                gap_reason := reason; gap_candidates := dedup (sort (map (λ c, hb_id c) candidates)) |}] |} |}.

Definition count_linked (sink : LinkSink) : LinkSink :=
  let coverage := report_coverage (sink_report sink) in
  {| sink_edges := sink_edges sink; sink_ambiguities := sink_ambiguities sink;
     sink_report :=
       {| report_coverage :=
            {| cov_linked := cov_linked coverage + 1; cov_no_provider := cov_no_provider coverage;
               cov_ambiguous := cov_ambiguous coverage; cov_external := cov_external coverage |};
          report_gaps := report_gaps (sink_report sink) |} |}.

Definition finish (sink : LinkSink) : HttpLinkResolution :=
  {| res_edges := btree_values (sink_edges sink);
     res_ambiguities := sort_http_ambiguities (sink_ambiguities sink);
     res_report :=
       {| report_coverage := report_coverage (sink_report sink);
          report_gaps := dedup (sort (report_gaps (sink_report sink))) |} |}.

(** ** Linking *)
Definition link_remote_call (index : RouteIndex) (authorities : AuthorityMap) (sink : LinkSink)
    (call : RemoteCall) : LinkSink :=
  match resolve_call index (rc_method call) (rc_path call) (node_repo_id (rc_node call)) (rc_scope call)
          authorities with
  | CR_Route (RR_Unique provider) =>
      link (count_linked sink) (node_id (rc_node call)) (hb_id provider) (rc_kind call) (rc_relation call)
        (f_min (ev_confidence (rc_evidence call)) (hb_confidence provider))
        [ev_id (rc_evidence call); ev_id (hb_evidence provider)]
  | CR_Route (RR_Ambiguous candidates) =>
      gap (ambiguous sink (rc_method call) (rc_path call) candidates) call Gap_Ambiguous candidates
  | CR_Route RR_Unmatched => gap sink call Gap_NoProvider []
  | CR_External => gap sink call Gap_External []
  end.

Definition consumer_call (consumer : HttpBoundary) : RemoteCall :=
  {| rc_node := hb_node consumer; rc_method := hb_method consumer; rc_path := hb_path consumer;
     rc_scope := hb_scope consumer; rc_evidence := hb_evidence consumer; rc_kind := CallsRemote;
     rc_relation := "calls_remote" |}.

Definition test_call (test : DeclaredTestCase) : RemoteCall :=
  {| rc_node := tc_node test; rc_method := tc_method test; rc_path := tc_path test; rc_scope := tc_scope test;
     rc_evidence := tc_evidence test; rc_kind := Validates; rc_relation := "validates" |}.

Definition is_consumer (b : HttpBoundary) : bool := bool_decide (hb_role b = Consumer).

Definition remote_calls (boundaries : list HttpBoundary) (tests : list DeclaredTestCase) : list RemoteCall :=
  map consumer_call (List.filter is_consumer boundaries) ++ map test_call tests.

Definition link_implementation (index : RouteIndex) (sink : LinkSink) (implementation : DeclaredImplementation)
    : LinkSink :=
  match node_repo_id (di_node implementation) with
  | None => sink
  | Some repository =>
      match resolve index (di_method implementation) (di_path implementation)
              (Some repository) (Some repository) with
      | RR_Unique provider =>
          link sink (hb_id provider) (node_id (di_node implementation)) ImplementedBy "implemented_by"
            (f_min (hb_confidence provider) (ev_confidence (di_evidence implementation)))
            [ev_id (hb_evidence provider); ev_id (di_evidence implementation)]
      | RR_Ambiguous candidates =>
          ambiguous sink (di_method implementation) (di_path implementation) candidates
      | RR_Unmatched => sink
      end
  end.

Definition link_http_routes (boundaries : list HttpBoundary) (tests : list DeclaredTestCase)
    (implementations : list DeclaredImplementation) (authorities : AuthorityMap) : HttpLinkResolution :=
  let index := new_index boundaries in
  let sink := foldl (link_remote_call index authorities) default_sink (remote_calls boundaries tests) in
  finish (foldl (link_implementation index) sink implementations).
End sink.

(** ** What one call contributes *)
Section outcomes.
Context `{Blake3}.
Context (index : RouteIndex) (authorities : AuthorityMap).

Definition call_resolution (call : RemoteCall) : CallResolution :=
  resolve_call index (rc_method call) (rc_path call) (node_repo_id (rc_node call)) (rc_scope call) authorities.

Definition call_gap (call : RemoteCall) : option (HttpLinkGapReason * list HttpBoundary) :=
  match call_resolution call with
  | CR_Route (RR_Unique _) => None
  | CR_Route (RR_Ambiguous candidates) => Some (Gap_Ambiguous, candidates)
  | CR_Route RR_Unmatched => Some (Gap_NoProvider, [])
  | CR_External => Some (Gap_External, [])
  end.

Definition gap_record (call : RemoteCall) (reason : HttpLinkGapReason) (candidates : list HttpBoundary)
    : HttpLinkGap :=
  {| gap_caller := node_id (rc_node call); gap_method := rc_method call; gap_path := rc_path call;
     gap_reason := reason; gap_candidates := sorted_unique (map (λ c, hb_id c) candidates) |}.

Definition gap_is (reason : option HttpLinkGapReason) (call : RemoteCall) : bool :=
  bool_decide (fst <$> call_gap call = reason).

(** An edge to add, before edges of one identifier are merged. *)
Definition call_edges (call : RemoteCall) : list Edge :=
  match call_resolution call with
  | CR_Route (RR_Unique provider) =>
      let confidence := f_min (ev_confidence (rc_evidence call)) (hb_confidence provider) in
      [{| edge_id := link_edge_id (node_id (rc_node call)) (rc_relation call) (hb_id provider);
          edge_source := node_id (rc_node call); edge_target := hb_id provider; edge_kind := rc_kind call;
          edge_confidence := confidence; edge_status := consensus_status confidence;
          edge_evidence := [ev_id (rc_evidence call); ev_id (hb_evidence provider)] |}]
  | _ => []
  end.

Definition implementation_edges (i : DeclaredImplementation) : list Edge :=
  match node_repo_id (di_node i) with
  | None => []
  | Some repository =>
      match resolve index (di_method i) (di_path i) (Some repository) (Some repository) with
      | RR_Unique provider =>
          let confidence := f_min (hb_confidence provider) (ev_confidence (di_evidence i)) in
          [{| edge_id := link_edge_id (hb_id provider) "implemented_by" (node_id (di_node i));
              edge_source := hb_id provider; edge_target := node_id (di_node i); edge_kind := ImplementedBy;
              edge_confidence := confidence; edge_status := consensus_status confidence;
              edge_evidence := [ev_id (hb_evidence provider); ev_id (di_evidence i)] |}]
      | _ => []
      end
  end.

Definition add_link (edges : gmap EdgeId Edge) (edge : Edge) : gmap EdgeId Edge :=
  <[edge_id edge := match edges !! edge_id edge with
                    | Some existing => merge_equivalent_edge existing edge
                    | None => edge
                    end]> edges.

Lemma calls_edges sink calls :
  sink_edges (foldl (link_remote_call index authorities) sink calls) =
  foldl add_link (sink_edges sink) (flat_map call_edges calls).
Proof.
  revert sink. induction calls as [|call calls IH]; intros sink; [done|]. cbn [foldl flat_map].
  rewrite IH, foldl_app. f_equal. unfold link_remote_call, call_edges, call_resolution.
  by destruct (resolve_call _ _ _ _ _ _) as [[]|].
Qed.

Lemma implementations_edges sink impls :
  sink_edges (foldl (link_implementation index) sink impls) =
  foldl add_link (sink_edges sink) (flat_map implementation_edges impls).
Proof.
  revert sink. induction impls as [|i impls IH]; intros sink; [done|]. cbn [foldl flat_map].
  rewrite IH, foldl_app. f_equal. unfold link_implementation, implementation_edges.
  destruct (node_repo_id (di_node i)); [|done]. by destruct (resolve _ _ _ _ _).
Qed.

Lemma implementations_report sink impls :
  sink_report (foldl (link_implementation index) sink impls) = sink_report sink.
Proof.
  revert sink. induction impls as [|i impls IH]; intros sink; [done|]. cbn [foldl]. rewrite IH.
  unfold link_implementation. destruct (node_repo_id (di_node i)); [|done]. by destruct (resolve _ _ _ _ _).
Qed.

(** What calls and implementations leave among the ambiguities. *)
Definition call_ambiguities (call : RemoteCall) : list HttpLinkAmbiguity :=
  match call_resolution call with
  | CR_Route (RR_Ambiguous candidates) =>
      [http_link_ambiguity (rc_method call) (rc_path call) (map (λ c, hb_id c) candidates)]
  | _ => []
  end.

Definition implementation_ambiguities (i : DeclaredImplementation) : list HttpLinkAmbiguity :=
  match node_repo_id (di_node i) with
  | None => []
  | Some repository =>
      match resolve index (di_method i) (di_path i) (Some repository) (Some repository) with
      | RR_Ambiguous candidates => [http_link_ambiguity (di_method i) (di_path i) (map (λ c, hb_id c) candidates)]
      | _ => []
      end
  end.

Lemma calls_ambiguities sink calls :
  sink_ambiguities (foldl (link_remote_call index authorities) sink calls) =
  sink_ambiguities sink ++ flat_map call_ambiguities calls.
Proof.
  revert sink. induction calls as [|call calls IH]; intros sink; cbn [foldl flat_map]; [by rewrite app_nil_r|].
  rewrite IH, app_assoc. f_equal. unfold link_remote_call, call_ambiguities, call_resolution.
  destruct (resolve_call _ _ _ _ _ _) as [[]|]; simpl; by rewrite ?app_nil_r.
Qed.

Lemma implementations_ambiguities sink impls :
  sink_ambiguities (foldl (link_implementation index) sink impls) =
  sink_ambiguities sink ++ flat_map implementation_ambiguities impls.
Proof.
  revert sink. induction impls as [|i impls IH]; intros sink; cbn [foldl flat_map]; [by rewrite app_nil_r|].
  rewrite IH, app_assoc. f_equal. unfold link_implementation, implementation_ambiguities.
  destruct (node_repo_id (di_node i)); [|by rewrite app_nil_r].
  destruct (resolve _ _ _ _ _); simpl; by rewrite ?app_nil_r.
Qed.

Definition count_calls (reason : option HttpLinkGapReason) (calls : list RemoteCall) : N :=
  len (List.filter (gap_is reason) calls).

Lemma count_calls_snoc reason calls call :
  count_calls reason (calls ++ [call]) = (count_calls reason calls + if gap_is reason call then 1 else 0)%N.
Proof.
  unfold count_calls. rewrite List.filter_app, len_app. simpl. by destruct (gap_is reason call).
Qed.

(** The counters and the gaps after the calls. *)
Lemma calls_report calls :
  let report := sink_report (foldl (link_remote_call index authorities) default_sink calls) in
  report_coverage report =
    {| cov_linked := count_calls None calls; cov_no_provider := count_calls (Some Gap_NoProvider) calls;
       cov_ambiguous := count_calls (Some Gap_Ambiguous) calls;
       cov_external := count_calls (Some Gap_External) calls |} ∧
  report_gaps report =
    flat_map (λ call, match call_gap call with
                      | Some (reason, candidates) => [gap_record call reason candidates]
                      | None => [] end) calls.
Proof.
  induction calls as [|call calls IH] using rev_ind; [done|]. cbv zeta in *.
  rewrite foldl_app, flat_map_app. cbn [foldl flat_map]. rewrite app_nil_r, !count_calls_snoc.
  set (sink := foldl _ _ calls) in *. destruct IH as [IH1 IH2].
  unfold link_remote_call, gap_is, call_gap, call_resolution.
  destruct (resolve_call _ _ _ _ _ _) as [[p|ps|]|]; simpl; rewrite ?IH1, ?IH2; simpl;
    rewrite ?N.add_0_r, ?app_nil_r; done.
Qed.
End outcomes.

(** ** Merged edges *)

(** The edge of an identifier, against the edges that were added under it. *)
Definition merges (added : list Edge) (e : Edge) : Prop :=
  let mine := List.filter (λ x, String.eqb (edge_id x) (edge_id e)) added in
  (∃ first, head mine = Some first ∧ edge_source e = edge_source first ∧ edge_target e = edge_target first
    ∧ edge_kind e = edge_kind first) ∧
  (∃ x, x ∈ mine ∧ edge_confidence e = edge_confidence x) ∧
  (∀ x, x ∈ mine → (∀ y, y ∈ mine → f_is_nan (edge_confidence y) = false) →
    f_le (edge_confidence x) (edge_confidence e) = true) ∧
  edge_status e = consensus_status (edge_confidence e) ∧
  (∀ x, x ∈ edge_evidence e ↔ ∃ y, y ∈ mine ∧ x ∈ edge_evidence y).

Lemma f_max_cases x y : f_max x y = x ∨ f_max x y = y.
Proof. unfold f_max. repeat case_match; auto. Qed.

Lemma merges_other added e x : edge_id x ≠ edge_id e → merges added e → merges (added ++ [x]) e.
Proof.
  intros Hne. unfold merges. rewrite List.filter_app. simpl.
  destruct (String.eqb_spec (edge_id x) (edge_id e)); [done|]. by rewrite app_nil_r.
Qed.

Lemma merges_same added e x :
  edge_id x = edge_id e → merges added e → merges (added ++ [x]) (merge_equivalent_edge e x).
Proof.
  intros Hid (H1 & H2 & H3 & H4 & H5). unfold merges. cbn [edge_id merge_equivalent_edge].
  rewrite List.filter_app. simpl. rewrite Hid, String.eqb_refl.
  set (mine := List.filter _ added) in *. split_and!; simpl.
  - destruct H1 as (f & Hf & ?). exists f. split; [|done]. by destruct mine.
  - destruct (f_max_cases (edge_confidence e) (edge_confidence x)) as [-> | ->].
    + destruct H2 as (y & Hy & ->). exists y. set_solver.
    + exists x. set_solver.
  - intros y Hy Hnan.
    assert (Hc : f_is_nan (edge_confidence e) = false).
    { destruct H2 as (z & Hz & ->). apply Hnan. set_solver. }
    destruct (f_max_ge (edge_confidence e) (edge_confidence x) Hc) as [Hm1 Hm2]; [apply Hnan; set_solver|].
    apply elem_of_app in Hy as [Hy| ->%list_elem_of_singleton]; [|done].
    eapply f_le_trans; [|exact Hm1]. apply H3; [done|]. intros z Hz. apply Hnan. set_solver.
  - done.
  - intros id. fold (sorted_unique (edge_evidence e ++ edge_evidence x)).
    rewrite sorted_unique_elem_of, elem_of_app, H5.
    setoid_rewrite elem_of_app. setoid_rewrite list_elem_of_singleton. naive_solver.
Qed.

Lemma merges_first added x :
  (∀ y, y ∈ added → edge_id y ≠ edge_id x) → edge_status x = consensus_status (edge_confidence x) →
  merges (added ++ [x]) x.
Proof.
  intros Hnone Hst. unfold merges. rewrite List.filter_app. simpl. rewrite String.eqb_refl.
  assert (List.filter (λ y, String.eqb (edge_id y) (edge_id x)) added = []) as ->.
  { destruct (List.filter _ added) as [|y l] eqn:E; [done|].
    assert (Hy : y ∈ y :: l) by set_solver. rewrite <-E in Hy.
    apply list_filter_In in Hy as [Hy Hid]. apply String.eqb_eq in Hid. by apply Hnone in Hy. }
  simpl. split_and!; [by exists x|exists x; set_solver| |done|].
  - intros y ->%list_elem_of_singleton Hnan. apply f_le_refl, Hnan. set_solver.
  - setoid_rewrite list_elem_of_singleton. naive_solver.
Qed.

Lemma fold_add_link added :
  (∀ x, x ∈ added → edge_status x = consensus_status (edge_confidence x)) →
  let edges := foldl add_link ∅ added in
  (∀ id e, edges !! id = Some e → edge_id e = id ∧ merges added e) ∧
  (∀ x, x ∈ added → is_Some (edges !! edge_id x)).
Proof.
  induction added as [|x added IH] using rev_ind; intros Hst; [set_solver|].
  cbv zeta in *. rewrite foldl_app. cbn [foldl].
  destruct IH as [IH1 IH2]; [intros y Hy; apply Hst; set_solver|].
  set (edges := foldl add_link ∅ added) in *. unfold add_link. split.
  - intros id e. destruct (decide (edge_id x = id)) as [<-|Hne].
    + rewrite lookup_insert_eq. intros [= <-]. destruct (edges !! edge_id x) as [e|] eqn:E.
      * destruct (IH1 _ _ E) as [Hid Hm]. split; [done|]. by apply merges_same.
      * split; [done|]. apply merges_first; [|apply Hst; set_solver]. intros y Hy Hid.
        destruct (IH2 y Hy) as [? Hs]. rewrite Hid in Hs. congruence.
    + rewrite lookup_insert_ne by done. intros E. destruct (IH1 _ _ E) as [<- Hm].
      split; [done|]. by apply merges_other.
  - intros y Hy. rewrite lookup_insert_is_Some. destruct (decide (edge_id x = edge_id y)); [by left|right].
    split; [done|]. apply IH2. apply elem_of_app in Hy as [?| ->%list_elem_of_singleton]; done.
Qed.

(** ** The result of linking *)
Section link_http_routes_spec.
Context `{Blake3}.
Context (boundaries : list HttpBoundary) (tests : list DeclaredTestCase)
  (implementations : list DeclaredImplementation) (authorities : AuthorityMap).
Let index := new_index boundaries.
Let calls := remote_calls boundaries tests.

Definition added_edges : list Edge :=
  flat_map (call_edges index authorities) calls ++ flat_map (implementation_edges index) implementations.

Lemma added_status x : x ∈ added_edges → edge_status x = consensus_status (edge_confidence x).
Proof.
  unfold added_edges. rewrite elem_of_app, !list_elem_of_In, !in_flat_map.
  intros [(c & _ & Hx)|(i & _ & Hx)].
  - unfold call_edges in Hx. destruct (call_resolution _ _ _) as [[]|]; try done.
    by destruct Hx as [<-|[]].
  - unfold implementation_edges in Hx. destruct (node_repo_id _); [|done].
    destruct (resolve _ _ _ _ _); try done. by destruct Hx as [<-|[]].
Qed.

Lemma link_edges_fold :
  res_edges (link_http_routes boundaries tests implementations authorities) =
  btree_values (foldl add_link ∅ added_edges).
Proof.
  unfold link_http_routes, finish; simpl. rewrite implementations_edges, calls_edges.
  unfold added_edges. by rewrite foldl_app.
Qed.

Lemma link_ambiguities_fold :
  res_ambiguities (link_http_routes boundaries tests implementations authorities) =
  sort_http_ambiguities (flat_map (call_ambiguities index authorities) calls
                         ++ flat_map (implementation_ambiguities index) implementations).
Proof. unfold link_http_routes, finish; simpl. by rewrite implementations_ambiguities, calls_ambiguities. Qed.

Lemma ambiguity_key_inj a b : ambiguity_key a = ambiguity_key b → a = b.
Proof. destruct a, b. unfold ambiguity_key. simpl. by intros [= -> -> ->]. Qed.

(** Ambiguities lose nothing but repetitions when they are sorted. *)
Lemma sort_http_ambiguities_exact l :
  StronglySorted (λ a b, cmp (ambiguity_key a) (ambiguity_key b) = Lt) (sort_http_ambiguities l) ∧
  ∀ a, a ∈ sort_http_ambiguities l ↔ a ∈ l.
Proof.
  unfold sort_http_ambiguities. split.
  - refine (dedup_by_strict (cmp_on ambiguity_key cmp) (λ a b, bool_decide (a = b)) _ _ _); [|apply sort_by_sorted, _].
    intros x y. rewrite bool_decide_eq_true. unfold cmp_on. split; [intros ->; apply cmp_refl, total_lawful|].
    intros E%cmp_eq. by apply ambiguity_key_inj.
  - intros a. by rewrite dedup_equal_elem_of, sort_by_elem_of.
Qed.

Lemma listed_ambiguities a :
  a ∈ res_ambiguities (link_http_routes boundaries tests implementations authorities) ↔
  (∃ call candidates, call ∈ calls ∧ call_gap index authorities call = Some (Gap_Ambiguous, candidates)
     ∧ a = http_link_ambiguity (rc_method call) (rc_path call) (map (λ c, hb_id c) candidates)) ∨
  (∃ i repository candidates, i ∈ implementations ∧ node_repo_id (di_node i) = Some repository
     ∧ resolve index (di_method i) (di_path i) (Some repository) (Some repository) = RR_Ambiguous candidates
     ∧ a = http_link_ambiguity (di_method i) (di_path i) (map (λ c, hb_id c) candidates)).
Proof.
  rewrite link_ambiguities_fold, (proj2 (sort_http_ambiguities_exact _)), elem_of_app, !list_elem_of_In, !in_flat_map.
  apply Morphisms_Prop.or_iff_morphism; split.
  - intros (call & Hc%list_elem_of_In & Ha). exists call. unfold call_ambiguities in Ha. unfold call_gap.
    destruct (call_resolution _ _ _) as [[|candidates|]|]; try done. destruct Ha as [<-|[]]. by exists candidates.
  - intros (call & candidates & Hc%list_elem_of_In & Hg & ->). exists call. split; [done|]. unfold call_gap in Hg.
    unfold call_ambiguities. destruct (call_resolution _ _ _) as [[]|]; simplify_eq. by left.
  - intros (i & Hi%list_elem_of_In & Ha). exists i. unfold implementation_ambiguities in Ha.
    destruct (node_repo_id (di_node i)) as [repository|]; [|done]. exists repository.
    destruct (resolve _ _ _ _ _) as [|candidates|] eqn:E; try done. destruct Ha as [<-|[]]. by exists candidates.
  - intros (i & repository & candidates & Hi%list_elem_of_In & Hr & E & ->). exists i. split; [done|].
    unfold implementation_ambiguities. rewrite Hr, E. by left.
Qed.

(** C9: No call is lost. The coverage counts the calls by outcome (linked,
    no provider, ambiguous, external) and the four counts add up to the number
    of consumers and tests; the gaps are exactly the records of the calls that
    were not linked, strictly sorted; every linked call has an edge. The ambiguities
    are exactly those of the calls and of the declared implementations that resolve
    to several providers, with these as candidates, strictly sorted. *)
Theorem link_report_exact :
  let r := link_http_routes boundaries tests implementations authorities in
  let coverage := report_coverage (res_report r) in
  let reason := λ call, fst <$> call_gap index authorities call in
  cov_linked coverage = len (List.filter (gap_is index authorities None) calls) ∧
  cov_no_provider coverage = len (List.filter (gap_is index authorities (Some Gap_NoProvider)) calls) ∧
  cov_ambiguous coverage = len (List.filter (gap_is index authorities (Some Gap_Ambiguous)) calls) ∧
  cov_external coverage = len (List.filter (gap_is index authorities (Some Gap_External)) calls) ∧
  (cov_linked coverage + cov_no_provider coverage + cov_ambiguous coverage + cov_external coverage = len calls)%N ∧
  strictly_sorted (report_gaps (res_report r)) ∧
  (∀ g, g ∈ report_gaps (res_report r) ↔
    ∃ call why candidates, call ∈ calls ∧ call_gap index authorities call = Some (why, candidates)
      ∧ g = gap_record call why candidates) ∧
  (∀ call, call ∈ calls → call_gap index authorities call = None →
    ∃ p e, call_resolution index authorities call = CR_Route (RR_Unique p) ∧ e ∈ res_edges r
      ∧ edge_id e = link_edge_id (node_id (rc_node call)) (rc_relation call) (hb_id p)) ∧
  StronglySorted (λ a b, cmp (ambiguity_key a) (ambiguity_key b) = Lt) (res_ambiguities r) ∧
  (∀ a, a ∈ res_ambiguities r ↔
    (∃ call candidates, call ∈ calls ∧ call_gap index authorities call = Some (Gap_Ambiguous, candidates)
       ∧ a = http_link_ambiguity (rc_method call) (rc_path call) (map (λ c, hb_id c) candidates)) ∨
    (∃ i repository candidates, i ∈ implementations ∧ node_repo_id (di_node i) = Some repository
       ∧ resolve index (di_method i) (di_path i) (Some repository) (Some repository) = RR_Ambiguous candidates
       ∧ a = http_link_ambiguity (di_method i) (di_path i) (map (λ c, hb_id c) candidates))).
Proof.
  intros r coverage reason.
  assert (Hr : res_report r =
    let report := sink_report (foldl (link_remote_call index authorities) default_sink calls) in
    {| report_coverage := report_coverage report; report_gaps := dedup (sort (report_gaps report)) |}).
  { unfold r, link_http_routes, finish; simpl. by rewrite implementations_report. }
  destruct (calls_report index authorities calls) as [Hcov Hgaps].
  unfold coverage. rewrite Hr. cbn [report_coverage report_gaps]. rewrite Hcov, Hgaps.
  cbn [cov_linked cov_no_provider cov_ambiguous cov_external]. split_and!; try done.
  - clear. unfold count_calls. clearbody calls index.
    induction calls as [|call cs IH]; [done|]. cbn [List.filter].
    assert (Hone : ∀ o, gap_is index authorities o call = bool_decide (fst <$> call_gap index authorities call = o)) by done.
    rewrite !Hone, (len_cons call cs).
    destruct (call_gap index authorities call) as [[[] ?]|]; cbn; repeat case_bool_decide; try congruence; rewrite ?len_cons; lia.
  - apply sorted_unique_strict.
  - intros g. fold (sorted_unique (flat_map (λ call, match call_gap index authorities call with
      | Some (reason, candidates) => [gap_record call reason candidates] | None => [] end) calls)).
    rewrite sorted_unique_elem_of, list_elem_of_In, in_flat_map. split.
    + intros (call & Hc%list_elem_of_In & Hg). destruct (call_gap _ _ call) as [[why cs]|] eqn:E; [|done].
      destruct Hg as [<-|[]]. by exists call, why, cs.
    + intros (call & why & cs & Hc%list_elem_of_In & E & ->). exists call. split; [done|]. rewrite E. by left.
  - intros call Hc Hg. unfold call_gap in Hg.
    destruct (call_resolution index authorities call) as [[p| |]|] eqn:E; try done.
    destruct (fold_add_link added_edges added_status) as [Hmap Hsome].
    destruct (Hsome {| edge_id := link_edge_id (node_id (rc_node call)) (rc_relation call) (hb_id p);
          edge_source := node_id (rc_node call); edge_target := hb_id p; edge_kind := rc_kind call;
          edge_confidence := f_min (ev_confidence (rc_evidence call)) (hb_confidence p);
          edge_status := consensus_status (f_min (ev_confidence (rc_evidence call)) (hb_confidence p));
          edge_evidence := [ev_id (rc_evidence call); ev_id (hb_evidence p)] |}) as [e He].
    + apply elem_of_app. left. apply list_elem_of_In, in_flat_map. exists call.
      split; [by apply list_elem_of_In|]. unfold call_edges. rewrite E. by left.
    + exists p, e. split; [done|]. split; [|by apply Hmap in He as [? _]].
      unfold r. rewrite link_edges_fold. apply btree_values_elem_of. eauto.
  - unfold r. rewrite link_ambiguities_fold. apply sort_http_ambiguities_exact.
  - apply listed_ambiguities.
Qed.

(** Every edge is earned. The identifiers of the edges are exactly those of
    the linked calls and implementation anchors; the edge of an identifier has
    the endpoints and kind of the first of them, the evidence of all of them,
    the highest of their confidences, and is [Confirmed] exactly when that
    confidence is at least one. *)
Theorem link_edges_exact :
  let edges := res_edges (link_http_routes boundaries tests implementations authorities) in
  (∀ id, (∃ e, e ∈ edges ∧ edge_id e = id) ↔ ∃ x, x ∈ added_edges ∧ edge_id x = id) ∧
  (∀ e, e ∈ edges → merges added_edges e) ∧
  (∀ e e', e ∈ edges → e' ∈ edges → edge_id e = edge_id e' → e = e').
Proof.
  intros edges. destruct (fold_add_link added_edges added_status) as [Hmap Hsome].
  assert (Hin : ∀ e, e ∈ edges ↔ foldl add_link ∅ added_edges !! edge_id e = Some e).
  { intros e. unfold edges. rewrite link_edges_fold, btree_values_elem_of. split; [|by eauto].
    intros [k Hk]. by destruct (Hmap _ _ Hk) as [-> _]. }
  split_and!.
  - intros id. split.
    + intros (e & He%Hin & <-). destruct (Hmap _ _ He) as [_ (_ & (x & [Hx Hid]%list_filter_In & _) & _)].
      apply String.eqb_eq in Hid. eauto.
    + intros (x & Hx & <-). destruct (Hsome x Hx) as [e He]. destruct (Hmap _ _ He) as [Hid _].
      exists e. split; [|done]. apply Hin. by rewrite Hid.
  - intros e He%Hin. by apply Hmap in He as [_ ?].
  - intros e e' He%Hin He'%Hin Hid. congruence.
Qed.

(** Scopes are respected. A call whose scope names an external host, or an
    authority the workspace does not know, is never linked; an in-process call,
    or a call to a declared authority, is linked only to a provider of that
    repository. *)
Theorem call_scope_safe (call : RemoteCall) :
  match scope_restriction (rc_scope call) (node_repo_id (rc_node call)) authorities with
  | Restrict_External =>
      call_gap index authorities call = Some (Gap_External, []) ∧ call_edges index authorities call = []
  | Restrict_Strict repository =>
      ∀ p, call_resolution index authorities call = CR_Route (RR_Unique p) →
        p ∈ boundaries ∧ hb_role p = Provider ∧ hb_repo p = Some repository
  | Restrict_Preferred repository =>
      ∀ p, call_resolution index authorities call = CR_Route (RR_Unique p) →
        hb_repo p = Some repository ∨
        resolve index (rc_method call) (rc_path call) (node_repo_id (rc_node call)) (Some repository) = RR_Unmatched
  | Restrict_Workspace =>
      call_resolution index authorities call =
      CR_Route (resolve index (rc_method call) (rc_path call) (node_repo_id (rc_node call)) None)
  end.
Proof.
  unfold call_gap, call_edges, call_resolution, resolve_call.
  destruct (scope_restriction _ _ _) as [|repository|repository|]; [done| | |done]; intros p.
  - intros [= Hr]. pose proof (resolve_in_repository boundaries (rc_method call) (rc_path call)
      (node_repo_id (rc_node call)) repository) as Hs. fold index in Hs. by rewrite Hr in Hs.
  - pose proof (resolve_in_repository boundaries (rc_method call) (rc_path call)
      (node_repo_id (rc_node call)) repository) as Hs. fold index in Hs.
    destruct (resolve index _ _ _ (Some repository)) as [q|qs|]; [|done|by right].
    intros [= <-]. left. apply Hs.
Qed.
End link_http_routes_spec.

(** ** A small workspace *)
Module Example_route_linker.
Import Example_route_index.
#[local] Instance digest : Blake3 := λ s, s.

Definition consumer (id repo path : string) (scope : CallScope) : HttpBoundary :=
  boundary id repo "GET" path Consumer scope.
Definition boundaries : list HttpBoundary :=
  providers ++
  [consumer "c1" "c" "/orders/recent" Scope_Workspace; consumer "c2" "c" "/orders/7" Scope_Workspace;
   consumer "c3" "c" "/orders/7" (Scope_Authority "orders:80");
   consumer "c4" "c" "/orders/7" (Scope_Authority "payments.example");
   consumer "c5" "c" "/orders/7" Scope_InProcess; consumer "c1" "c" "/orders/recent" Scope_Workspace].
Definition authorities : AuthorityMap := declare "orders" "b" empty_authorities.
Definition result : HttpLinkResolution := link_http_routes boundaries [] [] authorities.

Example result_edges :
  map (λ e, (edge_source e, edge_target e, edge_status e)) (res_edges result) =
  [("c1", "a3", Confirmed); ("c3", "b1", Confirmed)].
Proof. vm_compute. reflexivity. Qed.

Example result_report :
  report_coverage (res_report result) =
    {| cov_linked := 3; cov_no_provider := 1; cov_ambiguous := 1; cov_external := 1 |} ∧
  map (λ g, (gap_caller g, gap_reason g)) (report_gaps (res_report result)) =
    [("c2", Gap_Ambiguous); ("c4", Gap_External); ("c5", Gap_NoProvider)].
Proof. split; vm_compute; reflexivity. Qed.
End Example_route_linker.
