(* ===== verification/ManualLinks.v ===== *)
(** * Manual links ([crates/code-system-graph-core/src/manifest.rs], [linker.rs])

    Validation of manual declarations, their resolution against the nodes of the
    graph, and the edits they make to the automatic edges. *)
From stdpp Require Import base gmap list strings pretty sorting.
From S2P Require Import Prelude RustOrd RustFloat RustStr Model.

(** ** Declarations ([manifest.rs]) *)
Record ManualLinkConfig := {
  ml_from : string;
  ml_to : string;
  ml_relation : EdgeKind;
  ml_contract : option string;
  ml_reason : string;
  ml_suppress : bool;
}.

(** The variants a manual declaration can raise; the others wrap the errors of
    the YAML decoder and of the discovery and budget sections. *)
Inductive ManifestError :=
| EmptyField (field : string)
| UnsafeMetadata (field : string)
| FieldTooLong (field : string) (maximum : N)
| NonConcreteManualRelation (index : N)
| ManualSelfLink (index : N) (endpoint : string)
| DuplicateManualLink (first duplicate : N) (from to : string) (relation : EdgeKind).

Definition MANUAL_ENDPOINT_MAX_BYTES : N := 2048.
Definition MANUAL_CONTRACT_MAX_BYTES : N := 1024.
Definition MANUAL_REASON_MAX_BYTES : N := 4096.

Definition validate_not_empty (field value : string) : result ManifestError unit :=
  if String.eqb (trim value) "" then Err (EmptyField field)
  else if contains_unsafe_metadata_characters value then Err (UnsafeMetadata field)
  else Ok tt.

Definition validate_maximum (field value : string) (maximum : N) : result ManifestError unit :=
  if (maximum <? N.of_nat (String.length value))%N then Err (FieldTooLong field maximum) else Ok tt.

Definition manual_field (index : N) (name : string) : string :=
  "manualLinks[" +:+ pretty index +:+ "]." +:+ name.

Notation LiteralTriple := (string * string * EdgeKind)%type (only parsing).
Notation Identities := (gmap (string * string * EdgeKind) N) (only parsing).

(** The body of the validation loop. *)
Definition validate_manual_link (index : N) (link : ManualLinkConfig) (identities : Identities)
    : result ManifestError Identities :=
  check? validate_not_empty (manual_field index "from") (ml_from link) in
  check? validate_not_empty (manual_field index "to") (ml_to link) in
  check? validate_not_empty (manual_field index "reason") (ml_reason link) in
  check? validate_maximum (manual_field index "from") (ml_from link) MANUAL_ENDPOINT_MAX_BYTES in
  check? validate_maximum (manual_field index "to") (ml_to link) MANUAL_ENDPOINT_MAX_BYTES in
  check? validate_maximum (manual_field index "reason") (ml_reason link) MANUAL_REASON_MAX_BYTES in
  check? match ml_contract link with
         | Some contract =>
             check? validate_not_empty (manual_field index "contract") contract in
             validate_maximum (manual_field index "contract") contract MANUAL_CONTRACT_MAX_BYTES
         | None => Ok tt
         end in
  if bool_decide (ml_relation link = ManualLink) then Err (NonConcreteManualRelation index)
  else if String.eqb (ml_from link) (ml_to link) then Err (ManualSelfLink index (ml_from link))
  else
    let identity := (ml_from link, ml_to link, ml_relation link) in
    match identities !! identity with
    | Some first => Err (DuplicateManualLink first index (ml_from link) (ml_to link) (ml_relation link))
    | None => Ok (<[identity := index]> identities)
    end.

(** [links.iter().enumerate()] from an index. *)
Fixpoint enumerate_from {A} (index : N) (l : list A) : list (N * A) :=
  match l with
  | [] => []
  | x :: l => (index, x) :: enumerate_from (index + 1) l
  end.

Definition validate_manual_links (links : list ManualLinkConfig) : result ManifestError unit :=
  check? try_fold (λ identities item, validate_manual_link item.1 item.2 identities)
           (∅ : Identities) (enumerate_from 0 links) in
  Ok tt.

(** ** Resolution ([linker.rs]) *)
Inductive ManualLinkEndpoint := From | To.

Inductive ManualLinkError :=
| InvalidDeclaration (error : ManifestError)
| MissingEndpoint (index : N) (endpoint : ManualLinkEndpoint) (value : string)
| AmbiguousEndpoint (index : N) (endpoint : ManualLinkEndpoint) (value : string) (candidates : list NodeId)
| ResolvedSelfLink (index : N) (node : string)
| DuplicateResolvedLink (first duplicate : N) (source_node target_node : NodeId) (relation : EdgeKind)
| MissingSuppressionTarget (index : N) (source_node target_node : NodeId) (relation : EdgeKind).

Record ManualLinkResolution := {
  mr_edges : list Edge;
  mr_evidence : list Evidence;
  mr_decisions : list LinkDecision;
}.

Record ResolvedManualLink := {
  rl_index : N;
  rl_link : ManualLinkConfig;
  rl_source : NodeId;
  rl_target : NodeId;
}.

Definition names_node (value : string) (node : Node) : bool :=
  String.eqb (node_id node) value || String.eqb (node_stable_key node) value.

Definition resolve_manual_endpoint (nodes : list Node) (index : N) (endpoint : ManualLinkEndpoint)
    (value : string) : result ManualLinkError NodeId :=
  let candidates : gset string := bset_collect (map node_id (List.filter (names_node value) nodes)) in
  match bset_elements candidates with
  | [] => Err (MissingEndpoint index endpoint value)
  | [candidate] => Ok candidate
  | several => Err (AmbiguousEndpoint index endpoint value several)
  end.

Definition edge_matches (item : ResolvedManualLink) (edge : Edge) : bool :=
  String.eqb (edge_source edge) (rl_source item) && String.eqb (edge_target edge) (rl_target item)
  && bool_decide (edge_kind edge = ml_relation (rl_link item)).

(** The body of the resolution loop, and the loop. *)
Definition resolve_manual_link (nodes : list Node) (index : N) (link : ManualLinkConfig)
    (state : Identities * list ResolvedManualLink)
    : result ManualLinkError (Identities * list ResolvedManualLink) :=
  let? source := resolve_manual_endpoint nodes index From (ml_from link) in
  let? target := resolve_manual_endpoint nodes index To (ml_to link) in
  if String.eqb source target then Err (ResolvedSelfLink index source)
  else
    let identity := (source, target, ml_relation link) in
    match state.1 !! identity with
    | Some first => Err (DuplicateResolvedLink first index source target (ml_relation link))
    | None =>
        Ok (<[identity := index]> state.1,
            state.2 ++ [{| rl_index := index; rl_link := link; rl_source := source; rl_target := target |}])
    end.

Definition resolve_links (links : list ManualLinkConfig) (nodes : list Node)
    : result ManualLinkError (Identities * list ResolvedManualLink) :=
  try_fold (λ state item, resolve_manual_link nodes item.1 item.2 state) (∅, []) (enumerate_from 0 links).

Definition resolved_key (item : ResolvedManualLink) : string * (string * (EdgeKind * bool)) :=
  (rl_source item, (rl_target item, (ml_relation (rl_link item), ml_suppress (rl_link item)))).

Definition decision_key (d : LinkDecision) : string * (string * (EdgeKind * LinkStatus)) :=
  (ld_source d, (ld_target d, (ld_relation d, ld_status d))).

Definition bool_display (b : bool) : string := if b then "true" else "false".

Section manual.
Context `{Blake3}.

Definition manual_link_edge (item : ResolvedManualLink) (evidence : Evidence) : Edge :=
  let key := rl_source item +:+ ":" +:+ edge_kind_debug (ml_relation (rl_link item)) +:+ ":" +:+ rl_target item in
  {| edge_id := stable_id "edge" key; edge_source := rl_source item; edge_target := rl_target item;
     edge_kind := ml_relation (rl_link item); edge_confidence := f32_one; edge_status := Confirmed;
     edge_evidence := [ev_id evidence] |}.

Definition manual_link_evidence (item : ResolvedManualLink) : Evidence :=
  let link := rl_link item in
  let contract := default "" (ml_contract link) in
  let key := rl_source item +:+ ":" +:+ rl_target item +:+ ":" +:+ edge_kind_debug (ml_relation link) +:+ ":"
    +:+ contract +:+ ":" +:+ bool_display (ml_suppress link) +:+ ":" +:+ ml_reason link in
  {| ev_id := stable_id "evidence" key; ev_repo_id := None; ev_file_path := None; ev_start_line := None;
     ev_end_line := None; ev_extractor := "code-system-graph.manual-link"; ev_extractor_version := "1.0.0";
     ev_provenance := Prov_Manual; ev_confidence := f32_one; ev_observed_at_commit := None;
     ev_content_hash := Some (stable_id "manual-link-declaration" key); ev_note := Some (ml_reason link) |}.

Definition manual_link_decision (item : ResolvedManualLink) (evidence : EvidenceRef) (status : LinkStatus)
    : LinkDecision :=
  let link := rl_link item in
  let reasons := [ml_reason link; "both endpoints matched an exact node ID or stable key"] in
  let reasons :=
    match ml_contract link with
    | Some contract => reasons ++ ["declared contract: " +:+ contract]
    | None => reasons
    end in
  let reasons := reasons ++
    [match status with
     | Link_Confirmed => "manual declaration created the exact relationship"
     | Link_Suppressed => "manual declaration removed the exact automatic relationship"
     | Link_Ambiguous | Link_Rejected => "manual declaration was not applied"
     end] in
  {| ld_source := rl_source item; ld_target := rl_target item; ld_relation := ml_relation link;
     ld_matcher := "manual_exact"; ld_matcher_version := (1, 0, 0)%N; ld_score := f32_one;
     ld_confidence := f32_one; ld_reasons := reasons; ld_rejected_alternatives := [];
     ld_evidence := [evidence]; ld_status := status |}.

(** The body of the loop over the sorted items. *)
Definition apply_manual_link (item : ResolvedManualLink) (state : ManualLinkResolution)
    : result ManualLinkError ManualLinkResolution :=
  let manual_evidence := manual_link_evidence item in
  let evidence_ref := {| er_id := ev_id manual_evidence; er_provenance := Prov_Manual |} in
  let kept := List.filter (λ edge, negb (edge_matches item edge)) (mr_edges state) in
  let? outcome :=
    (if ml_suppress (rl_link item) then
       if (length (mr_edges state) - length kept =? 0)%nat then
         Err (MissingSuppressionTarget (rl_index item) (rl_source item) (rl_target item) (ml_relation (rl_link item)))
       else Ok (kept, Link_Suppressed)
     else Ok (kept ++ [manual_link_edge item manual_evidence], Link_Confirmed)) in
  Ok {| mr_edges := outcome.1;
        mr_evidence := mr_evidence state ++ [manual_evidence];
        mr_decisions := mr_decisions state ++ [manual_link_decision item evidence_ref outcome.2] |}.

Definition resolve_manual_links (links : list ManualLinkConfig) (nodes : list Node)
    (automatic_edges : list Edge) : result ManualLinkError ManualLinkResolution :=
  check? match validate_manual_links links with
         | Ok _ => Ok tt
         | Err error => Err (InvalidDeclaration error)
         end in
  let? state := resolve_links links nodes in
  let items := sort_by (cmp_on resolved_key cmp) state.2 in
  let edges := sort_by (cmp_on edge_id cmp) automatic_edges in
  let? applied :=
    try_fold (λ state item, apply_manual_link item state)
      {| mr_edges := edges; mr_evidence := []; mr_decisions := [] |} items in
  Ok {| mr_edges := sort_by (cmp_on edge_id cmp) (mr_edges applied);
        mr_evidence := sort_by (cmp_on ev_id cmp) (mr_evidence applied);
        mr_decisions := sort_by (cmp_on decision_key cmp) (mr_decisions applied) |}.
End manual.

(** ** Validation accepts exactly the valid declarations *)
Definition text_valid (value : string) (maximum : N) : bool :=
  negb (String.eqb (trim value) "") && negb (contains_unsafe_metadata_characters value)
  && (N.of_nat (String.length value) <=? maximum)%N.

Definition declaration_valid (link : ManualLinkConfig) : bool :=
  text_valid (ml_from link) MANUAL_ENDPOINT_MAX_BYTES && text_valid (ml_to link) MANUAL_ENDPOINT_MAX_BYTES
  && text_valid (ml_reason link) MANUAL_REASON_MAX_BYTES
  && is_none_or (ml_contract link) (λ c, text_valid c MANUAL_CONTRACT_MAX_BYTES)
  && negb (bool_decide (ml_relation link = ManualLink)) && negb (String.eqb (ml_from link) (ml_to link)).

Definition literal_triple (link : ManualLinkConfig) : string * string * EdgeKind :=
  (ml_from link, ml_to link, ml_relation link).

Lemma validate_not_empty_Ok field value u :
  validate_not_empty field value = Ok u ↔
  negb (String.eqb (trim value) "") && negb (contains_unsafe_metadata_characters value) = true.
Proof. unfold validate_not_empty. destruct u. repeat case_if; simpl; split; congruence. Qed.

Lemma validate_maximum_Ok field value maximum u :
  validate_maximum field value maximum = Ok u ↔ (N.of_nat (String.length value) <=? maximum)%N = true.
Proof.
  unfold validate_maximum. destruct u. rewrite N.leb_le.
  destruct (N.ltb_spec maximum (N.of_nat (String.length value))); split; try congruence; lia.
Qed.

Lemma validate_manual_link_Ok index link ids ids' :
  validate_manual_link index link ids = Ok ids' ↔
  declaration_valid link = true ∧ ids !! literal_triple link = None ∧ ids' = <[literal_triple link := index]> ids.
Proof.
  assert (Hc : match ml_contract link with
         | Some contract =>
             check? validate_not_empty (manual_field index "contract") contract in
             validate_maximum (manual_field index "contract") contract MANUAL_CONTRACT_MAX_BYTES
         | None => Ok tt
         end = Ok tt ↔ is_none_or (ml_contract link) (λ c, text_valid c MANUAL_CONTRACT_MAX_BYTES) = true).
  { destruct (ml_contract link) as [c|]; simpl; [|done].
    unfold text_valid. by rewrite check_Ok, validate_not_empty_Ok, validate_maximum_Ok, !andb_true_iff. }
  unfold validate_manual_link, declaration_valid, text_valid.
  rewrite !check_Ok, Hc, !validate_not_empty_Ok, !validate_maximum_Ok, !andb_true_iff.
  unfold literal_triple. set (body := if bool_decide _ then _ else _).
  assert (body = Ok ids' ↔ negb (bool_decide (ml_relation link = ManualLink)) = true ∧
    negb (String.eqb (ml_from link) (ml_to link)) = true ∧
    ids !! (ml_from link, ml_to link, ml_relation link) = None ∧
    ids' = <[(ml_from link, ml_to link, ml_relation link) := index]> ids) as ->; [|tauto].
  unfold body. case_bool_decide; simpl; [naive_solver|].
  destruct (String.eqb (ml_from link) (ml_to link)); simpl; [naive_solver|].
  destruct (ids !! _); naive_solver.
Qed.

Lemma validate_manual_link_fresh index link ids :
  declaration_valid link = true → ids !! literal_triple link = None →
  validate_manual_link index link ids = Ok (<[literal_triple link := index]> ids).
Proof. intros. by apply validate_manual_link_Ok. Qed.

Lemma in_triples {A} (f : A → string * string * EdgeKind) t l : t ∈ map f l ↔ ∃ x, x ∈ l ∧ f x = t.
Proof. rewrite list_elem_of_In, in_map_iff. setoid_rewrite list_elem_of_In. naive_solver. Qed.

(** The identities recorded by a loop that inserts a fresh key per item. *)
Lemma enumerate_from_snoc {A} index (l : list A) x :
  enumerate_from index (l ++ [x]) = enumerate_from index l ++ [(index + len l, x)%N].
Proof.
  revert index. induction l as [|y l IH]; intros index; simpl; [by rewrite N.add_0_r|].
  by rewrite IH, len_cons, N.add_assoc.
Qed.

Lemma enumerate_from_app {A} index (l k : list A) :
  enumerate_from index (l ++ k) = enumerate_from index l ++ enumerate_from (index + len l) k.
Proof.
  revert index. induction l as [|y l IH]; intros index; simpl; [by rewrite N.add_0_r|].
  by rewrite IH, len_cons, N.add_assoc.
Qed.

Lemma enumerate_from_split {A} n (l : list A) pre' i x post' :
  enumerate_from n l = pre' ++ (i, x) :: post' →
  ∃ pre post, l = pre ++ x :: post ∧ pre' = enumerate_from n pre ∧ i = (n + len pre)%N
    ∧ post' = enumerate_from (n + len pre + 1) post.
Proof.
  revert n pre'. induction l as [|y l IH]; intros n pre' E; [by destruct pre'|].
  destruct pre' as [|z pre']; simpl in E.
  - injection E as <- <- <-. exists [], l. by rewrite len_nil, N.add_0_r.
  - injection E as Ez E. destruct (IH _ _ E) as (pre & post & -> & -> & -> & ->). exists (y :: pre), post. subst z.
    by rewrite len_cons, N.add_assoc.
Qed.

Lemma validate_loop links ids :
  try_fold (λ identities item, validate_manual_link item.1 item.2 identities) (∅ : Identities)
    (enumerate_from 0 links) = Ok ids →
  Forall (λ l, declaration_valid l = true) links ∧ NoDup (map literal_triple links) ∧
  ∀ t, is_Some (ids !! t) ↔ t ∈ map literal_triple links.
Proof.
  revert ids. induction links as [|link links IH] using rev_ind; intros ids.
  { intros [= <-]. split_and!; [constructor|constructor|]. intros t.
    rewrite lookup_empty, elem_of_nil. split; [by intros []|done]. }
  rewrite enumerate_from_snoc, try_fold_app, result_bind_Ok. intros (ids1 & H1 & H2).
  destruct (IH _ H1) as (Hv & Hnd & Hids). simpl in H2. apply result_bind_Ok in H2 as (ids2 & H2 & [= <-]).
  apply validate_manual_link_Ok in H2 as (Hlv & Hfresh & ->).
  assert (Hnew : literal_triple link ∉ map literal_triple links).
  { intros [? Hs]%Hids. congruence. }
  rewrite map_app. split_and!; [by apply Forall_snoc| |].
  - apply NoDup_app. split_and!; [done| |apply NoDup_singleton]. simpl.
    intros t Ht ->%list_elem_of_singleton. done.
  - intros t. rewrite lookup_insert_is_Some', Hids, elem_of_app. simpl. rewrite list_elem_of_singleton. naive_solver.
Qed.

Lemma validate_loop_total links :
  Forall (λ l, declaration_valid l = true) links → NoDup (map literal_triple links) →
  is_ok (try_fold (λ identities item, validate_manual_link item.1 item.2 identities) (∅ : Identities)
    (enumerate_from 0 links)) = true.
Proof.
  induction links as [|link links IH] using rev_ind; intros Hv Hnd; [done|].
  apply Forall_snoc in Hv as [Hv Hl]. rewrite map_app in Hnd. apply NoDup_app in Hnd as (Hnd & Hdisj & _).
  rewrite enumerate_from_snoc, try_fold_app.
  destruct (try_fold _ ∅ (enumerate_from 0 links)) as [ids|e] eqn:E; [|by specialize (IH Hv Hnd)]. simpl.
  destruct (validate_loop _ _ E) as (_ & _ & Hids).
  rewrite validate_manual_link_fresh; [done|done|].
  destruct (ids !! literal_triple link) eqn:El; [|done]. exfalso.
  apply (Hdisj (literal_triple link)); [|simpl; set_solver]. apply Hids. eauto.
Qed.

Definition declarations_valid (links : list ManualLinkConfig) : Prop :=
  Forall (λ l, declaration_valid l = true) links ∧ NoDup (map literal_triple links).

(** Validation is exact. The declarations are accepted exactly when every
    one is well formed (texts present, printable and within their byte limits, a
    concrete relation, two different endpoints) and no two have the same
    endpoints and relation; an error is raised by the first declaration that
    breaks this. *)
Theorem validate_manual_links_exact (links : list ManualLinkConfig) :
  match validate_manual_links links with
  | Ok _ => declarations_valid links
  | Err e =>
      ∃ pre link post, links = pre ++ link :: post ∧ declarations_valid pre ∧
        ¬ declarations_valid (pre ++ [link]) ∧
        ∃ ids, validate_manual_link (len pre) link ids = Err e
  end.
Proof.
  unfold validate_manual_links.
  destruct (try_fold _ _ _) as [ids|e] eqn:E; simpl.
  - by destruct (validate_loop _ _ E) as (? & ? & _).
  - apply try_fold_Err in E as (pre' & [i link] & post' & ids & Hsplit & Hpre & Hx). simpl in Hx.
    apply enumerate_from_split in Hsplit as (pre & post & -> & -> & Hi & _). rewrite N.add_0_l in Hi. subst i.
    destruct (validate_loop _ _ Hpre) as (Hv & Hnd & Hids).
    exists pre, link, post. split_and!; [done|by split| |by exists ids].
    intros [Hv' Hnd']. apply Forall_snoc in Hv' as [_ Hl]. rewrite map_app in Hnd'.
    apply NoDup_app in Hnd' as (_ & Hdisj & _).
    assert (Hfresh : ids !! literal_triple link = None).
    { destruct (ids !! literal_triple link) eqn:El; [|done]. exfalso.
      apply (Hdisj (literal_triple link)); [|simpl; set_solver]. apply Hids. eauto. }
    by rewrite validate_manual_link_fresh in Hx.
Qed.

(** ** Endpoints *)

(** Exactly one node identifier is named by the text. *)
Definition uniquely_named (nodes : list Node) (value : string) (id : NodeId) : Prop :=
  (∃ n, n ∈ nodes ∧ names_node value n = true) ∧
  ∀ n, n ∈ nodes → names_node value n = true → node_id n = id.

Lemma candidate_ids nodes value id :
  id ∈ bset_elements (bset_collect (map node_id (List.filter (names_node value) nodes)) : gset string) ↔
  ∃ n, n ∈ nodes ∧ names_node value n = true ∧ node_id n = id.
Proof.
  rewrite bset_elements_elem_of. unfold bset_collect. rewrite elem_of_list_to_set, list_elem_of_In, in_map_iff.
  split.
  - intros (n & <- & Hn). apply filter_In in Hn as [Hn Hv]. apply list_elem_of_In in Hn. eauto.
  - intros (n & Hn & Hv & <-). exists n. split; [done|]. apply filter_In. split; [by apply list_elem_of_In|done].
Qed.

Lemma resolve_manual_endpoint_Ok nodes index endpoint value id :
  resolve_manual_endpoint nodes index endpoint value = Ok id ↔ uniquely_named nodes value id.
Proof.
  unfold resolve_manual_endpoint, uniquely_named. pose proof (candidate_ids nodes value) as Hc.
  set (set := bset_collect _ : gset string) in *.
  pose proof (strictly_sorted_NoDup _ (bset_elements_strict set)) as Hnd.
  destruct (bset_elements set) as [|a [|b l]] eqn:E; split; try done.
  - intros [(n & Hn & Hv) _]. assert (node_id n ∈ @nil string) as ?%not_elem_of_nil; [|done]. apply Hc. eauto.
  - intros [= <-]. split.
    + destruct (proj1 (Hc a)) as (n & Hn & Hv & _); [set_solver|eauto].
    + intros n Hn Hv. apply list_elem_of_singleton, Hc. eauto.
  - intros [_ Huniq]. destruct (proj1 (Hc a)) as (n & Hn & Hv & <-); [set_solver|]. f_equal. by apply Huniq.
  - intros [_ Huniq]. apply NoDup_cons in Hnd as [Hab _].
    destruct (proj1 (Hc a)) as (n & Hn & Hv & <-); [set_solver|].
    destruct (proj1 (Hc b)) as (m & Hm & Hw & <-); [set_solver|].
    rewrite (Huniq n Hn Hv), (Huniq m Hm Hw) in Hab. set_solver.
Qed.

(** ** What the resolved items are *)
Definition resolved_triple (item : ResolvedManualLink) : string * string * EdgeKind :=
  (rl_source item, rl_target item, ml_relation (rl_link item)).

Definition resolves (nodes : list Node) (link : ManualLinkConfig) (item : ResolvedManualLink) : Prop :=
  rl_link item = link ∧ uniquely_named nodes (ml_from link) (rl_source item)
  ∧ uniquely_named nodes (ml_to link) (rl_target item) ∧ rl_source item ≠ rl_target item.

Lemma resolve_manual_link_Ok nodes index link ids items ids' items' :
  resolve_manual_link nodes index link (ids, items) = Ok (ids', items') ↔
  ∃ item, resolves nodes link item ∧ rl_index item = index ∧ ids !! resolved_triple item = None
    ∧ ids' = <[resolved_triple item := index]> ids ∧ items' = items ++ [item].
Proof.
  unfold resolve_manual_link. simpl. rewrite result_bind_Ok. setoid_rewrite result_bind_Ok.
  setoid_rewrite resolve_manual_endpoint_Ok. split.
  - intros (s & Hs & t & Ht & H). destruct (String.eqb_spec s t); [done|].
    destruct (ids !! _) eqn:E; [done|]. injection H as <- <-.
    exists {| rl_index := index; rl_link := link; rl_source := s; rl_target := t |}. done.
  - intros ([i l s t] & (Hl & Hs & Ht & Hne) & Hi & Hids & -> & ->). simpl in *. subst i l.
    exists s. split; [done|]. exists t. split; [done|].
    destruct (String.eqb_spec s t); [done|]. unfold resolved_triple in Hids. simpl in Hids. by rewrite Hids.
Qed.

Lemma Forall2_snoc {A B} (R : A → B → Prop) l k x y :
  Forall2 R (l ++ [x]) (k ++ [y]) ↔ Forall2 R l k ∧ R x y.
Proof.
  split.
  - intros (k1 & k2 & H1 & H2 & E)%Forall2_app_inv_l. inversion H2 as [|? z ? ? Hz Hn]; subst.
    inversion Hn; subst. by apply app_inj_tail in E as [-> ->].
  - intros [H1 H2]. by apply Forall2_app; [|constructor].
Qed.

Lemma resolve_links_items links nodes ids items :
  resolve_links links nodes = Ok (ids, items) →
  Forall2 (resolves nodes) links items ∧ NoDup (map resolved_triple items) ∧
  (∀ t, is_Some (ids !! t) ↔ t ∈ map resolved_triple items).
Proof.
  unfold resolve_links. revert ids items. induction links as [|link links IH] using rev_ind; intros ids items.
  { intros [= <- <-]. split_and!; [constructor|constructor|]. intros t.
    rewrite lookup_empty, elem_of_nil. split; [by intros []|done]. }
  rewrite enumerate_from_snoc, try_fold_app, result_bind_Ok. intros ([ids1 items1] & H1 & H2).
  destruct (IH _ _ H1) as (Hf & Hnd & Hids). apply result_bind_Ok in H2 as ([ids2 items2] & H2 & [= <- <-]).
  apply resolve_manual_link_Ok in H2 as (item & Hr & _ & Hfresh & -> & ->). rewrite map_app.
  assert (Hnew : resolved_triple item ∉ map resolved_triple items1).
  { intros [? Hs]%Hids. congruence. }
  split_and!; [by apply Forall2_snoc| |].
  - apply NoDup_app. split_and!; [done| |apply NoDup_singleton]. simpl.
    intros t Ht ->%list_elem_of_singleton. done.
  - intros t. rewrite lookup_insert_is_Some', Hids, elem_of_app. simpl. rewrite list_elem_of_singleton. naive_solver.
Qed.

(** Indices only label errors. *)
Definition unindexed (item : ResolvedManualLink) : ResolvedManualLink :=
  {| rl_index := 0; rl_link := rl_link item; rl_source := rl_source item; rl_target := rl_target item |}.

Lemma resolve_links_total links nodes items :
  Forall2 (resolves nodes) links items → NoDup (map resolved_triple items) →
  ∃ ids items', resolve_links links nodes = Ok (ids, items') ∧ map unindexed items' = map unindexed items.
Proof.
  unfold resolve_links. revert items. induction links as [|link links IH] using rev_ind; intros items Hf Hnd.
  { apply Forall2_nil_inv_l in Hf as ->. by eexists _, _. }
  destruct items as [|item items _] using rev_ind; [by apply Forall2_length in Hf; rewrite length_app in Hf; simpl in Hf; lia|].
  apply Forall2_snoc in Hf as [Hf Hr]. rewrite map_app in Hnd.
  apply NoDup_app in Hnd as (Hnd & Hdisj & _).
  destruct (IH items Hf Hnd) as (ids & items' & Hrun & Hun).
  rewrite enumerate_from_snoc, try_fold_app, Hrun. cbn [try_fold result_bind fst snd].
  destruct (resolve_links_items links nodes ids items' Hrun) as (_ & _ & Hids).
  assert (Ht : map resolved_triple items' = map resolved_triple items).
  { replace (map resolved_triple items') with (map resolved_triple (map unindexed items')) by (by rewrite map_map).
    rewrite Hun. by rewrite map_map. }
  set (item' := {| rl_index := 0 + len links; rl_link := link; rl_source := rl_source item; rl_target := rl_target item |}).
  assert (Htr : resolved_triple item' = resolved_triple item) by (destruct Hr as (<- & _); done).
  exists (<[resolved_triple item' := (0 + len links)%N]> ids), (items' ++ [item']). split.
  - rewrite (proj2 (resolve_manual_link_Ok nodes (0 + len links)%N link ids items'
      (<[resolved_triple item' := (0 + len links)%N]> ids) (items' ++ [item']))); [done|].
    exists item'. split_and!; [|done| |done..].
    + destruct Hr as (_ & ? & ? & ?). by split_and!.
    + destruct (ids !! resolved_triple item') eqn:E; [|done]. exfalso.
      apply (Hdisj (resolved_triple item)); [|simpl; set_solver].
      rewrite <-Ht. apply Hids. rewrite <-Htr. eauto.
  - rewrite !map_app, Hun. f_equal. simpl. destruct Hr as (<- & _). done.
Qed.

(** ** The edits *)
Section edits.
Context `{Blake3}.

Definition item_edge (item : ResolvedManualLink) : Edge := manual_link_edge item (manual_link_evidence item).
Definition item_status (item : ResolvedManualLink) : LinkStatus :=
  if ml_suppress (rl_link item) then Link_Suppressed else Link_Confirmed.
Definition item_decision (item : ResolvedManualLink) : LinkDecision :=
  manual_link_decision item
    {| er_id := ev_id (manual_link_evidence item); er_provenance := Prov_Manual |} (item_status item).
Definition creates (item : ResolvedManualLink) : bool := negb (ml_suppress (rl_link item)).

(** No declaration speaks about the edge. *)
Definition untouched (items : list ResolvedManualLink) (e : Edge) : bool :=
  negb (existsb (λ item, edge_matches item e) items).

Definition suppressions_hit (items : list ResolvedManualLink) (edges : list Edge) : Prop :=
  ∀ item, item ∈ items → ml_suppress (rl_link item) = true → ∃ e, e ∈ edges ∧ edge_matches item e = true.

Definition edge_triple (e : Edge) : string * string * EdgeKind := (edge_source e, edge_target e, edge_kind e).

Lemma edge_matches_triple item e : edge_matches item e = true ↔ edge_triple e = resolved_triple item.
Proof.
  unfold edge_matches, edge_triple, resolved_triple.
  rewrite !andb_true_iff, !String.eqb_eq, bool_decide_eq_true.
  split; [by intros [[-> ->] ->]|by intros [=]].
Qed.

Lemma untouched_true items e : untouched items e = true ↔ edge_triple e ∉ map resolved_triple items.
Proof.
  unfold untouched. rewrite negb_true_iff, existsb_false_In, in_triples. split.
  - intros Hu (item & Hi & Ht). specialize (Hu item Hi). symmetry in Ht.
    apply edge_matches_triple in Ht. congruence.
  - intros Hu item Hi. destruct (edge_matches item e) eqn:E; [|done].
    apply edge_matches_triple in E. exfalso. eauto.
Qed.

Lemma retain_length item edges :
  let kept := List.filter (λ e, negb (edge_matches item e)) edges in
  (length edges - length kept =? 0)%nat = false ↔ ∃ e, e ∈ edges ∧ edge_matches item e = true.
Proof.
  simpl. rewrite Nat.eqb_neq. pose proof (λ l, filter_length_le (λ e, negb (edge_matches item e)) l) as Hle.
  induction edges as [|e edges IH]; simpl; [set_solver|]. specialize (Hle edges).
  destruct (edge_matches item e) eqn:E; simpl.
  - split; [|lia]. intros _. exists e. set_solver.
  - rewrite IH. split; [set_solver|]. intros (e' & [->|?]%elem_of_cons & ?); [congruence|eauto].
Qed.

(** One step, when it succeeds. *)
Lemma apply_manual_link_Ok item state state' :
  apply_manual_link item state = Ok state' ↔
  (ml_suppress (rl_link item) = true → ∃ e, e ∈ mr_edges state ∧ edge_matches item e = true) ∧
  state' = {| mr_edges := List.filter (λ e, negb (edge_matches item e)) (mr_edges state)
                ++ (if creates item then [item_edge item] else []);
              mr_evidence := mr_evidence state ++ [manual_link_evidence item];
              mr_decisions := mr_decisions state ++ [item_decision item] |}.
Proof.
  unfold apply_manual_link, creates, item_decision, item_status.
  destruct (ml_suppress (rl_link item)) eqn:Es; simpl.
  - pose proof (retain_length item (mr_edges state)) as Hr. simpl in Hr.
    destruct (length (mr_edges state) - _ =? 0)%nat; simpl.
    + split; [done|]. intros [Hh _]. specialize (Hh eq_refl). by apply Hr in Hh.
    + rewrite app_nil_r. split; [intros [= <-]|intros [_ ->]]; [|done]. split; [|done]. intros _. by apply Hr.
  - split; [intros [= <-]|intros [_ ->]]; done.
Qed.

(** The loop over items with different triples. *)
Lemma apply_loop items state state' :
  NoDup (map resolved_triple items) →
  try_fold (λ s item, apply_manual_link item s) state items = Ok state' →
  suppressions_hit items (mr_edges state) ∧
  mr_edges state' ≡ₚ List.filter (untouched items) (mr_edges state) ++ map item_edge (List.filter creates items) ∧
  mr_evidence state' = mr_evidence state ++ map manual_link_evidence items ∧
  mr_decisions state' = mr_decisions state ++ map item_decision items.
Proof.
  revert state. induction items as [|item items IH]; intros state Hnd; simpl.
  - intros [= <-]. rewrite !app_nil_r. split_and!; [set_solver| |done..].
    clear. induction (mr_edges state) as [|e l IH]; simpl; [done|]. by rewrite <-IH.
  - apply NoDup_cons in Hnd as [Hnew Hnd]. rewrite result_bind_Ok. intros (s1 & H1 & H2).
    apply apply_manual_link_Ok in H1 as [Hhit ->]. apply IH in H2 as (Hh & He & Hv & Hd); [|done].
    cbn [mr_edges mr_evidence mr_decisions] in *. split_and!.
    + intros i [->|Hi]%elem_of_cons Hs; [auto|]. destruct (Hh i Hi Hs) as (e & He' & Hm).
      exists e. split; [|done]. apply elem_of_app in He' as [[? _]%list_filter_In|He']; [done|]. exfalso.
      destruct (creates item); [|by apply not_elem_of_nil in He'].
      apply list_elem_of_singleton in He' as ->. apply edge_matches_triple in Hm.
      apply Hnew, in_triples. exists i. split; [done|]. by rewrite <-Hm.
    + rewrite He, List.filter_app, <-app_assoc. f_equiv.
      * clear. unfold untouched. induction (mr_edges state) as [|e l IH]; simpl; [done|].
        destruct (edge_matches item e) eqn:E; simpl; [done|].
        destruct (negb (existsb _ items)); [by constructor|done].
      * destruct (creates item) eqn:Ec; simpl; [|done].
        rewrite (proj2 (untouched_true items (item_edge item))); [done|]. exact Hnew.
    + by rewrite Hv, <-app_assoc.
    + by rewrite Hd, <-app_assoc.
Qed.

Lemma apply_loop_total items state :
  NoDup (map resolved_triple items) → suppressions_hit items (mr_edges state) →
  is_ok (try_fold (λ s item, apply_manual_link item s) state items) = true.
Proof.
  revert state. induction items as [|item items IH]; intros state Hnd Hhit; simpl; [done|].
  apply NoDup_cons in Hnd as [Hnew Hnd].
  destruct (apply_manual_link item state) as [s1|e] eqn:E; simpl.
  - apply apply_manual_link_Ok in E as [_ ->]. apply IH; [done|]. cbn [mr_edges]. intros i Hi Hs.
    destruct (Hhit i) as (e & He & Hm); [set_solver|done|]. exists e. split; [|done].
    apply elem_of_app. left. apply list_filter_In. split; [done|]. apply negb_true_iff.
    destruct (edge_matches item e) eqn:Em; [|done]. exfalso.
    apply edge_matches_triple in Em, Hm. apply Hnew, in_triples. exists i. split; [done|]. congruence.
  - assert (Hok : apply_manual_link item state = Ok
      {| mr_edges := List.filter (λ e, negb (edge_matches item e)) (mr_edges state)
           ++ (if creates item then [item_edge item] else []);
         mr_evidence := mr_evidence state ++ [manual_link_evidence item];
         mr_decisions := mr_decisions state ++ [item_decision item] |}); [|congruence].
    apply apply_manual_link_Ok. split; [|done]. intros Hs. apply Hhit; [set_solver|done].
Qed.
End edits.

(** ** The whole operation *)
Section resolve_manual_links_spec.
Context `{Blake3}.

(** The declarations resolve to items that can all be applied. *)
Definition applicable (links : list ManualLinkConfig) (nodes : list Node) (automatic : list Edge)
    (items : list ResolvedManualLink) : Prop :=
  Forall2 (resolves nodes) links items ∧ NoDup (map resolved_triple items) ∧ suppressions_hit items automatic.

Definition items_of (links : list ManualLinkConfig) (nodes : list Node) : result ManualLinkError (list ResolvedManualLink) :=
  let? state := resolve_links links nodes in Ok (sort_by (cmp_on resolved_key cmp) state.2).

Definition edited (automatic : list Edge) (items : list ResolvedManualLink) : result ManualLinkError ManualLinkResolution :=
  try_fold (λ state item, apply_manual_link item state)
    {| mr_edges := sort_by (cmp_on edge_id cmp) automatic; mr_evidence := []; mr_decisions := [] |} items.

Definition sorted_resolution (r : ManualLinkResolution) : ManualLinkResolution :=
  {| mr_edges := sort_by (cmp_on edge_id cmp) (mr_edges r); mr_evidence := sort_by (cmp_on ev_id cmp) (mr_evidence r);
     mr_decisions := sort_by (cmp_on decision_key cmp) (mr_decisions r) |}.

Lemma resolve_manual_links_Ok links nodes automatic r :
  resolve_manual_links links nodes automatic = Ok r ↔
  is_ok (validate_manual_links links) = true ∧ ∃ ids items applied,
    resolve_links links nodes = Ok (ids, items) ∧
    edited automatic (sort_by (cmp_on resolved_key cmp) items) = Ok applied ∧ r = sorted_resolution applied.
Proof.
  unfold resolve_manual_links. rewrite check_Ok, result_bind_Ok. setoid_rewrite result_bind_Ok.
  assert (match validate_manual_links links with Ok _ => Ok tt | Err error => Err (InvalidDeclaration error) end = Ok tt
    ↔ is_ok (validate_manual_links links) = true) as -> by (by destruct (validate_manual_links links)).
  split.
  - intros (Hv & [ids items] & Hr & applied & Ha & [= <-]). split; [done|]. by exists ids, items, applied.
  - intros (Hv & ids & items & applied & Hr & Ha & ->). split; [done|]. exists (ids, items). split; [done|].
    by exists applied.
Qed.

Lemma validate_ok_iff links : is_ok (validate_manual_links links) = true ↔ declarations_valid links.
Proof.
  unfold validate_manual_links. split.
  - destruct (try_fold _ _ _) as [ids|e] eqn:E; [|done]. intros _. by destruct (validate_loop _ _ E) as (? & ? & _).
  - intros [Hv Hnd]. pose proof (validate_loop_total links Hv Hnd) as Hok. by destruct (try_fold _ _ _).
Qed.

Lemma sorted_items_NoDup items :
  NoDup (map resolved_triple items) → NoDup (map resolved_triple (sort_by (cmp_on resolved_key cmp) items)).
Proof. intros Hnd. by rewrite (Permutation_map resolved_triple (sort_by_perm _ items)). Qed.

Lemma suppressions_hit_perm items items' edges edges' :
  items ≡ₚ items' → edges ≡ₚ edges' → suppressions_hit items edges → suppressions_hit items' edges'.
Proof.
  intros Hi He Hh item Hin Hs. rewrite <-Hi in Hin. destruct (Hh item Hin Hs) as (e & He' & Hm).
  exists e. by rewrite <-He.
Qed.

Lemma untouched_perm items items' e : items ≡ₚ items' → untouched items e = untouched items' e.
Proof.
  intros Hp. apply eq_true_iff_eq. rewrite !untouched_true. by rewrite (Permutation_map resolved_triple Hp).
Qed.

(** C10: Manual links do what they declare. Resolution succeeds exactly when
    the declarations are valid, every endpoint names one node, no link is a
    self-link, no two links resolve to the same relationship, and every
    suppression hits an automatic edge. The edges are then the automatic edges
    that no declaration speaks about, untouched, plus one confirmed edge per
    creation, sorted by identifier, with one manual evidence and one decision
    per declaration. *)
Theorem resolve_manual_links_exact (links : list ManualLinkConfig) (nodes : list Node) (automatic : list Edge) :
  (is_ok (resolve_manual_links links nodes automatic) = true ↔
    declarations_valid links ∧ ∃ items, applicable links nodes automatic items) ∧
  (∀ r, resolve_manual_links links nodes automatic = Ok r → ∃ items,
    applicable links nodes automatic items ∧
    mr_edges r ≡ₚ List.filter (untouched items) automatic ++ map item_edge (List.filter creates items) ∧
    StronglySorted (cmp_le (cmp_on edge_id cmp)) (mr_edges r) ∧
    mr_evidence r ≡ₚ map manual_link_evidence items ∧
    mr_decisions r ≡ₚ map item_decision items).
Proof.
  assert (Hsound : ∀ r, resolve_manual_links links nodes automatic = Ok r → declarations_valid links ∧ ∃ items,
    applicable links nodes automatic items ∧
    mr_edges r ≡ₚ List.filter (untouched items) automatic ++ map item_edge (List.filter creates items) ∧
    StronglySorted (cmp_le (cmp_on edge_id cmp)) (mr_edges r) ∧
    mr_evidence r ≡ₚ map manual_link_evidence items ∧ mr_decisions r ≡ₚ map item_decision items).
  { intros r (Hv & ids & items & applied & Hr & Ha & ->)%resolve_manual_links_Ok.
    apply validate_ok_iff in Hv. split; [done|]. exists items.
    destruct (resolve_links_items _ _ _ _ Hr) as (Hf & Hnd & _).
    pose proof (sort_by_perm (cmp_on resolved_key cmp) items) as Hp.
    destruct (apply_loop _ _ _ (sorted_items_NoDup _ Hnd) Ha) as (Hhit & He & Hev & Hd).
    cbn [mr_edges mr_evidence mr_decisions sorted_resolution] in *. split_and!.
    - split_and!; [done..|]. eapply suppressions_hit_perm; [exact Hp|apply sort_by_perm|exact Hhit].
    - rewrite sort_by_perm, He. f_equiv.
      + rewrite (filter_perm _ _ _ (sort_by_perm (cmp_on edge_id cmp) automatic)).
        clear -Hp. induction automatic as [|e l IH]; simpl; [done|]. rewrite (untouched_perm _ _ e Hp).
        destruct (untouched items e); [by constructor|done].
      + by apply Permutation_map, filter_perm.
    - apply sort_by_sorted, _.
    - rewrite sort_by_perm, Hev. by apply Permutation_map.
    - rewrite sort_by_perm, Hd. by apply Permutation_map. }
  split; [split|].
  - destruct (resolve_manual_links links nodes automatic) as [r|e] eqn:E; [intros _|done].
    destruct (Hsound r eq_refl) as (Hv & items & Ha & _). eauto.
  - intros (Hv & items & Hf & Hnd & Hhit).
    destruct (resolve_links_total _ _ _ Hf Hnd) as (ids & items' & Hr & Hun).
    assert (Hok : is_ok (edited automatic (sort_by (cmp_on resolved_key cmp) items')) = true).
    { apply apply_loop_total.
      - apply sorted_items_NoDup. by destruct (resolve_links_items _ _ _ _ Hr) as (_ & ? & _).
      - eapply suppressions_hit_perm; [symmetry; apply sort_by_perm|cbn [mr_edges]; symmetry; apply sort_by_perm|].
        intros item Hin Hs.
        assert (Hu : unindexed item ∈ map unindexed items).
        { rewrite <-Hun. apply list_elem_of_In, in_map. by apply list_elem_of_In. }
        apply list_elem_of_In, in_map_iff in Hu as (item2 & E2 & Hin2). apply list_elem_of_In in Hin2.
        destruct (Hhit item2 Hin2) as (e & He & Hm).
        { injection E2 as El _ _. by rewrite El. }
        exists e. split; [done|]. apply edge_matches_triple. apply edge_matches_triple in Hm. rewrite Hm.
        injection E2 as El Es Et. unfold resolved_triple. by rewrite El, Es, Et. }
    destruct (edited automatic _) as [applied|] eqn:Ea; [|done].
    assert (Hfin : resolve_manual_links links nodes automatic = Ok (sorted_resolution applied)).
    { apply resolve_manual_links_Ok. split; [by apply validate_ok_iff|]. by exists ids, items', applied. }
    by rewrite Hfin.
  - intros r Hr. by destruct (Hsound r Hr) as [_ ?].
Qed.
End resolve_manual_links_spec.

(** ** Order does not matter *)
Section determinism.
Context `{Blake3}.

Lemma apply_loop_unindexed items state :
  ∀ r, try_fold (λ s item, apply_manual_link item s) state items = Ok r ↔
       try_fold (λ s item, apply_manual_link item s) state (map unindexed items) = Ok r.
Proof.
  revert state. induction items as [|item items IH]; intros state r; simpl; [done|].
  rewrite !result_bind_Ok. setoid_rewrite <-IH. setoid_rewrite apply_manual_link_Ok. done.
Qed.

Lemma unindexed_sorted items :
  map unindexed (sort_by (cmp_on resolved_key cmp) items) = sort_by (cmp_on resolved_key cmp) (map unindexed items).
Proof. by apply sort_by_map. Qed.

Lemma resolves_nodes nodes nodes' link item : nodes ≡ₚ nodes' → resolves nodes link item → resolves nodes' link item.
Proof. intros Hp. unfold resolves, uniquely_named. by setoid_rewrite Hp. Qed.

Lemma resolved_key_separates items :
  NoDup (map resolved_triple items) →
  ∀ x y, x ∈ map unindexed items → y ∈ map unindexed items → cmp_on resolved_key cmp x y = Eq → x = y.
Proof.
  intros Hnd x y Hx Hy E. change (cmp (resolved_key x) (resolved_key y) = Eq) in E. apply cmp_eq in E.
  apply list_elem_of_In, in_map_iff in Hx as (i & <- & Hi). apply list_elem_of_In, in_map_iff in Hy as (j & <- & Hj).
  apply list_elem_of_In in Hi, Hj. f_equal. apply (NoDup_map_inj resolved_triple items); [done..|].
  unfold resolved_key in E. simpl in E. unfold resolved_triple. congruence.
Qed.

(** The order of the inputs does not matter. Reordering the
    declarations, the nodes and the automatic edges (with distinct
    identifiers) gives the same resolution. *)
Theorem resolve_manual_links_deterministic (links links' : list ManualLinkConfig) (nodes nodes' : list Node)
    (automatic automatic' : list Edge) (r : ManualLinkResolution) :
  links ≡ₚ links' → nodes ≡ₚ nodes' → automatic ≡ₚ automatic' → NoDup (map edge_id automatic) →
  resolve_manual_links links nodes automatic = Ok r →
  resolve_manual_links links' nodes' automatic' = Ok r.
Proof.
  intros Hl Hn Ha Hids (Hv & ids & items & applied & Hr & Happ & ->)%resolve_manual_links_Ok.
  destruct (resolve_links_items _ _ _ _ Hr) as (Hf & Hnd & _).
  destruct (Permutation_Forall2 Hl Hf) as (items1 & Hp & Hf1).
  assert (Hf2 : Forall2 (resolves nodes') links' items1).
  { eapply Forall2_impl; [exact Hf1|]. intros link item. by apply resolves_nodes. }
  assert (Hnd1 : NoDup (map resolved_triple items1)) by (by rewrite <-(Permutation_map resolved_triple Hp)).
  destruct (resolve_links_total _ _ _ Hf2 Hnd1) as (ids' & items' & Hr' & Hun).
  apply resolve_manual_links_Ok. split.
  - apply validate_ok_iff. apply validate_ok_iff in Hv as [Hv1 Hv2]. split.
    + by rewrite <-Hl.
    + by rewrite <-(Permutation_map literal_triple Hl).
  - exists ids', items', applied. split_and!; [done| |done].
    unfold edited in *. apply apply_loop_unindexed. apply apply_loop_unindexed in Happ.
    rewrite unindexed_sorted in *. rewrite Hun.
    rewrite <-(sort_by_perm_eq _ _ _ (resolved_key_separates items Hnd) (Permutation_map unindexed Hp)).
    rewrite <-(sort_by_perm_eq (cmp_on edge_id cmp) automatic automatic'); [done| |done].
    intros x y Hx Hy E. apply (cmp_eq (edge_id x) (edge_id y)) in E. by eapply NoDup_map_inj.
Qed.
End determinism.

(** ** A small manifest *)
Module Example_manual_links.
#[local] Instance digest : Blake3 := λ s, s.

Definition node (id key : string) : Node :=
  {| node_id := id; node_kind := NK_Service; node_repo_id := None; node_stable_key := key; node_label := key |}.
Definition nodes : list Node := [node "n1" "svc:a"; node "n2" "svc:b"; node "n3" "svc:c"].
Definition edge (id source target : string) : Edge :=
  {| edge_id := id; edge_source := source; edge_target := target; edge_kind := CallsRemote;
     edge_confidence := f32_lit 1 (-1); edge_status := Inferred; edge_evidence := [] |}.
Definition automatic : list Edge := [edge "e2" "n1" "n3"; edge "e1" "n1" "n2"; edge "e3" "n2" "n3"].
Definition link (from to : string) (suppress : bool) : ManualLinkConfig :=
  {| ml_from := from; ml_to := to; ml_relation := CallsRemote; ml_contract := None; ml_reason := "known";
     ml_suppress := suppress |}.
Definition links : list ManualLinkConfig := [link "svc:a" "n2" true; link "n1" "svc:c" false].

Example resolution_edges :
  match resolve_manual_links links nodes automatic with
  | Ok r => map (λ e, (edge_id e, edge_status e)) (mr_edges r) =
      [("e3", Inferred);
       (stable_id "edge" "n1:CallsRemote:n3", Confirmed)]
  | Err _ => False
  end.
Proof. vm_compute. reflexivity. Qed.

Example resolution_errors :
  resolve_manual_links [link "svc:z" "n2" false] nodes automatic = Err (MissingEndpoint 0 From "svc:z") ∧
  resolve_manual_links [link "n1" "svc:a" false] nodes automatic = Err (ResolvedSelfLink 0 "n1") ∧
  resolve_manual_links [link "n3" "n1" true] nodes automatic = Err (MissingSuppressionTarget 0 "n3" "n1" CallsRemote) ∧
  resolve_manual_links [link "n1" "n2" false; link "svc:a" "n2" false] nodes automatic =
    Err (DuplicateResolvedLink 0 1 "n1" "n2" CallsRemote) ∧
  resolve_manual_links [link "n1" " " false] nodes automatic =
    Err (InvalidDeclaration (EmptyField "manualLinks[0].to")).
Proof. split_and!; vm_compute; reflexivity. Qed.

Lemma resolve_manual_links_deterministic_witness :
  ∃ r, resolve_manual_links links nodes automatic = Ok r ∧
       resolve_manual_links (rev links) (rev nodes) (rev automatic) = Ok r.
Proof.
  destruct (resolve_manual_links links nodes automatic) as [r|e] eqn:E.
  - exists r. split; [reflexivity|].
    apply (resolve_manual_links_deterministic links (rev links) nodes (rev nodes) automatic (rev automatic) r).
    + apply Permutation_rev.
    + apply Permutation_rev.
    + apply Permutation_rev.
    + apply (bool_decide_unpack _). vm_compute. exact I.
    + exact E.
  - vm_compute in E. discriminate E.
Defined.
End Example_manual_links.
