(* ===== verification/Impact.v ===== *)
(** * Impact propagation ([crates/code-system-graph-core/src/impact.rs])

    The request and context of an impact analysis, their validation, the
    resolution of the target, and the bounded breadth-first propagation. *)
From stdpp Require Import base gmap sets list strings sorting.
From S2P Require Import Prelude RustOrd RustFloat RustStr Model.

Definition MAX_DEPTH : N := 128.
Definition MAX_NODES : N := 100000.
Definition MAX_EDGES : N := 1000000.
Definition MAX_LIMIT : N := 10000.
Definition MAX_OFFSET : N := 1000000.

(** ** Requests *)
Inductive ImpactDirection := Upstream | Downstream | Both.
#[export] Instance ImpactDirection_eq_dec : EqDecision ImpactDirection.
Proof. solve_decision. Defined.

Inductive ImpactClassification :=
| DirectlyDependent | TransitivelyAffected | PossiblyAffected | UnknownDueToCoverage.
#[export] Instance ImpactClassification_eq_dec : EqDecision ImpactClassification.
Proof. solve_decision. Defined.

Inductive ImpactTarget :=
| Target_NodeId (node_id : NodeId)
| Target_StableKey (stable_key : string).

Record ResolvedTarget := { rt_node : Node; rt_resolved_by : string }.

Record ImpactPathStep := {
  step_from : NodeId;
  step_to : NodeId;
  step_edge_id : EdgeId;
  step_kind : EdgeKind;
  step_reversed : bool;
  step_confidence : f32;
  step_status : EpistemicStatus;
}.

Record ImpactItem := {
  item_node : Node;
  item_classification : ImpactClassification;
  item_depth : N;
  item_path : list ImpactPathStep;
  item_evidence : list EvidenceId;
}.

Record TruncationInfo := {
  ti_bound : string;
  ti_limit : N;
  ti_observed : N;
  ti_explanation : string;
}.

Record ImpactOptions := {
  opt_max_depth : N;
  opt_node_limit : N;
  opt_edge_limit : N;
  opt_confirmed_confidence : f32;
  opt_offset : N;
  opt_limit : N;
  opt_summary_only : bool;
  opt_include_depth_buckets : bool;
}.

Definition default_impact_max_depth : N := 8.
Definition default_impact_node_limit : N := 10000.
Definition default_impact_edge_limit : N := 50000.
(** The [f32] literal [0.8]. *)
Definition default_confirmed_confidence : f32 := Eval vm_compute in f32_lit 13421773 (-24).
Definition default_impact_limit : N := 100.
Definition default_include_depth_buckets : bool := true.

Definition default_options : ImpactOptions :=
  {| opt_max_depth := default_impact_max_depth; opt_node_limit := default_impact_node_limit;
     opt_edge_limit := default_impact_edge_limit; opt_confirmed_confidence := default_confirmed_confidence;
     opt_offset := 0; opt_limit := default_impact_limit; opt_summary_only := false;
     opt_include_depth_buckets := default_include_depth_buckets |}.

Record ImpactRequest := {
  req_target : ImpactTarget;
  req_direction : ImpactDirection;
  req_options : ImpactOptions;
}.

(** The wire form, and how its selectors become one target. *)
Record WireImpactRequest := {
  wire_target : option ImpactTarget;
  wire_node_id : option NodeId;
  wire_stable_key : option string;
  wire_direction : option ImpactDirection;
  wire_options : ImpactOptions;
}.


Definition request_of_wire (wire : WireImpactRequest) : result string ImpactRequest :=
  let selector_count :=
    (Nat.b2n (is_some (wire_target wire)) + Nat.b2n (is_some (wire_node_id wire))
     + Nat.b2n (is_some (wire_stable_key wire)))%nat in
  if negb (selector_count =? 1)%nat then Err "exactly one of target, node_id, stable_key, or key is required"
  else
    let target :=
      match wire_target wire with
      | Some target => Some target
      | None =>
          match Target_NodeId <$> wire_node_id wire with
          | Some target => Some target
          | None => Target_StableKey <$> wire_stable_key wire
          end
      end in
    let? target := ok_or target "missing field `target, node_id, stable_key, or key`" in
    Ok {| req_target := target; req_direction := default Both (wire_direction wire); req_options := wire_options wire |}.

(** ** Context *)
Inductive LocalEnrichmentStatus := LE_Available | LE_Partial | LE_Stale | LE_Unavailable.
#[export] Instance LocalEnrichmentStatus_eq_dec : EqDecision LocalEnrichmentStatus.
Proof. solve_decision. Defined.

Record LocalImpactItem := {
  li_symbol : string;
  li_file_path : string;
  li_start_line : option N;
  li_depth : N;
}.

Record LocalEnrichmentInput := {
  le_repo_id : RepoId;
  le_anchor : string;
  le_status : LocalEnrichmentStatus;
  le_affected : list LocalImpactItem;
  le_affected_tests : list string;
  le_truncated : bool;
  le_degradations : list string;
}.

Inductive ImpactCompatibilityStatus := Breaking | PotentiallyBreaking | Compatible | Compat_Unknown.
#[export] Instance ImpactCompatibilityStatus_eq_dec : EqDecision ImpactCompatibilityStatus.
Proof. solve_decision. Defined.

Record CompatibilityInput := {
  ci_contract_node_id : NodeId;
  ci_status : ImpactCompatibilityStatus;
  ci_evidence : list string;
  ci_recommended_validations : list string;
}.

Inductive CriticalityTag := Tag_Critical | Tag_Authentication | Tag_Security | Tag_Payment | Tag_DataBoundary.

Record CriticalityAssignment := {
  ca_node_id : NodeId;
  ca_tag : CriticalityTag;
  ca_evidence : list string;
}.

Record EnvironmentAssignment := { ea_node_id : NodeId; ea_environment : string }.

Record RecommendedCommand := { cmd_repo_id : RepoId; cmd_command : string; cmd_description : string }.

Record ImpactContext := {
  ctx_nodes : list Node;
  ctx_edges : list Edge;
  ctx_communities : option CommunitySnapshot;
  ctx_freshness : list RepoFreshness;
  ctx_compatibility : list CompatibilityInput;
  ctx_local_enrichment : list LocalEnrichmentInput;
  ctx_public_contracts : list NodeId;
  ctx_criticality : list CriticalityAssignment;
  ctx_centrality : gmap NodeId f32;
  ctx_service_memberships : gmap NodeId (list NodeId);
  ctx_environments : list EnvironmentAssignment;
  ctx_recommended_commands : list RecommendedCommand;
  ctx_graph_complete : bool;
  ctx_coverage_gaps : list string;
}.

Inductive ImpactError :=
| DuplicateNode (node : string)
| DuplicateEdge (edge : string)
| DuplicateFreshness (repository : string)
| IE_DanglingEdge (edge node : string)
| InvalidEdgeConfidence (edge : string)
| InvalidConfirmedConfidence
| InvalidBounds
| InvalidCentrality (node : string)
| CriticalityWithoutEvidence (node : string)
| UnknownContextNode (context node : string)
| UnknownTarget
| AmbiguousTarget (stable_key : string).

(** ** Validation *)
Definition ensure (b : bool) (e : ImpactError) : result ImpactError unit := if b then Ok tt else Err e.

Definition each {A} (f : A → result ImpactError unit) (l : list A) : result ImpactError unit :=
  try_fold (λ _ x, f x) tt l.

Definition bounds_invalid (o : ImpactOptions) : bool :=
  ((opt_max_depth o =? 0) || (MAX_DEPTH <? opt_max_depth o)
   || (opt_node_limit o =? 0) || (MAX_NODES <? opt_node_limit o)
   || (opt_edge_limit o =? 0) || (MAX_EDGES <? opt_edge_limit o)
   || (opt_limit o =? 0) || (MAX_LIMIT <? opt_limit o) || (MAX_OFFSET <? opt_offset o))%N.

Definition insert_node (nodes : gmap NodeId Node) (node : Node) : result ImpactError (gmap NodeId Node) :=
  if contains_key nodes (node_id node) then Err (DuplicateNode (node_id node))
  else Ok (<[node_id node := node]> nodes).

Definition insert_edge (nodes : gmap NodeId Node) (edge_ids : gset EdgeId) (edge : Edge)
    : result ImpactError (gset EdgeId) :=
  check? ensure (negb (bool_decide (edge_id edge ∈ edge_ids))) (DuplicateEdge (edge_id edge)) in
  check? ensure (f32_in_unit (edge_confidence edge)) (InvalidEdgeConfidence (edge_id edge)) in
  check? each (λ endpoint, ensure (contains_key nodes endpoint) (IE_DanglingEdge (edge_id edge) endpoint))
           [edge_source edge; edge_target edge] in
  Ok ({[edge_id edge]} ∪ edge_ids).

Definition insert_freshness (repositories : gset RepoId) (record : RepoFreshness) : result ImpactError (gset RepoId) :=
  check? ensure (negb (bool_decide (rf_repo_id record ∈ repositories))) (DuplicateFreshness (rf_repo_id record)) in
  Ok ({[rf_repo_id record]} ∪ repositories).

Definition validate_node_reference (nodes : gmap NodeId Node) (node_id : NodeId) (context : string)
    : result ImpactError unit :=
  if contains_key nodes node_id then Ok tt else Err (UnknownContextNode context node_id).

Definition validate_criticality (nodes : gmap NodeId Node) (assignment : CriticalityAssignment)
    : result ImpactError unit :=
  check? validate_node_reference nodes (ca_node_id assignment) "criticality" in
  if bool_decide (ca_evidence assignment = [])
     || existsb (λ value, String.eqb (trim value) "") (ca_evidence assignment)
  then Err (CriticalityWithoutEvidence (ca_node_id assignment)) else Ok tt.

Definition validate_context (request : ImpactRequest) (context : ImpactContext)
    : result ImpactError (gmap NodeId Node) :=
  let options := req_options request in
  check? ensure (negb (bounds_invalid options)) InvalidBounds in
  check? ensure (f32_in_unit (opt_confirmed_confidence options)) InvalidConfirmedConfidence in
  let? nodes := try_fold insert_node ∅ (ctx_nodes context) in
  check? (let? _ := try_fold (insert_edge nodes) ∅ (ctx_edges context) in Ok tt) in
  check? (let? _ := try_fold insert_freshness ∅ (ctx_freshness context) in Ok tt) in
  check? each (λ entry : NodeId * f32,
           check? validate_node_reference nodes entry.1 "centrality" in
           ensure (f32_in_unit entry.2) (InvalidCentrality entry.1)) (btree_entries (ctx_centrality context)) in
  check? each (validate_criticality nodes) (ctx_criticality context) in
  check? each (λ c, validate_node_reference nodes (ci_contract_node_id c) "compatibility") (ctx_compatibility context) in
  check? each (λ node_id, validate_node_reference nodes node_id "public_contracts") (ctx_public_contracts context) in
  check? each (λ a, validate_node_reference nodes (ea_node_id a) "environments") (ctx_environments context) in
  check? each (λ entry : NodeId * list NodeId,
           check? validate_node_reference nodes entry.1 "service_memberships" in
           each (λ service, validate_node_reference nodes service "service_memberships") entry.2)
           (btree_entries (ctx_service_memberships context)) in
  Ok nodes.

Definition resolve_target (selector : ImpactTarget) (nodes : gmap NodeId Node) : result ImpactError ResolvedTarget :=
  match selector with
  | Target_NodeId node_id =>
      ok_or ((λ node, {| rt_node := node; rt_resolved_by := "node_id" |}) <$> nodes !! node_id) UnknownTarget
  | Target_StableKey stable_key =>
      match List.filter (λ node, String.eqb (node_stable_key node) stable_key) (btree_values nodes) with
      | [] => Err UnknownTarget
      | [node] => Ok {| rt_node := node; rt_resolved_by := "stable_key" |}
      | _ => Err (AmbiguousTarget stable_key)
      end
  end.

(** ** Adjacency *)
Record Adjacency := { adj_neighbor : NodeId; adj_edge : Edge; adj_reversed : bool }.

Definition adjacency_cmp : Adjacency → Adjacency → comparison :=
  then_with (cmp_on adj_neighbor cmp) (then_with (cmp_on (λ a, edge_id (adj_edge a)) cmp) (cmp_on adj_reversed cmp)).

Definition push_entry (k : NodeId) (entry : Adjacency) (m : gmap NodeId (list Adjacency)) : gmap NodeId (list Adjacency) :=
  <[k := default [] (m !! k) ++ [entry]]> m.

Definition follows_outgoing (direction : ImpactDirection) : bool :=
  match direction with Downstream | Both => true | Upstream => false end.
Definition follows_incoming (direction : ImpactDirection) : bool :=
  match direction with Upstream | Both => true | Downstream => false end.

Definition add_adjacency (direction : ImpactDirection) (m : gmap NodeId (list Adjacency)) (edge : Edge)
    : gmap NodeId (list Adjacency) :=
  let m :=
    if follows_outgoing direction
    then push_entry (edge_source edge) {| adj_neighbor := edge_target edge; adj_edge := edge; adj_reversed := false |} m
    else m in
  if follows_incoming direction
  then push_entry (edge_target edge) {| adj_neighbor := edge_source edge; adj_edge := edge; adj_reversed := true |} m
  else m.

Definition build_adjacency (edges : list Edge) (direction : ImpactDirection) : gmap NodeId (list Adjacency) :=
  sort_by adjacency_cmp <$> foldl (add_adjacency direction) ∅ edges.

Definition is_propagating (kind : EdgeKind) : bool :=
  match kind with
  | Validates | OwnedBy | Documents | MemberOf | Precedes | Reverts | CompatibleWith => false
  | _ => true
  end.

(** ** Certainty and classification *)
Inductive PathCertainty := PC_Confirmed | PC_Possible | PC_Unknown.
#[export] Instance PathCertainty_eq_dec : EqDecision PathCertainty.
Proof. solve_decision. Defined.

Definition certainty_rank (c : PathCertainty) : N :=
  match c with PC_Confirmed => 0 | PC_Possible => 1 | PC_Unknown => 2 end.

Definition certainty_max (a b : PathCertainty) : PathCertainty :=
  if (certainty_rank a <=? certainty_rank b)%N then b else a.

(** The derived order on [(PathCertainty, usize)]. *)
Definition label_le (a b : PathCertainty * N) : bool :=
  ((certainty_rank a.1 <? certainty_rank b.1) || ((certainty_rank a.1 =? certainty_rank b.1) && (a.2 <=? b.2)))%N.

Definition edge_certainty (edge : Edge) (confirmed_confidence : f32) : PathCertainty :=
  match edge_status edge with
  | Confirmed => if f_le confirmed_confidence (edge_confidence edge) then PC_Confirmed else PC_Possible
  | Inferred | Ambiguous => PC_Possible
  | Stale | Incomplete => PC_Unknown
  end.

Definition classify (certainty : PathCertainty) (depth : N) : ImpactClassification :=
  match certainty with
  | PC_Confirmed => if (depth =? 1)%N then DirectlyDependent else TransitivelyAffected
  | PC_Possible => PossiblyAffected
  | PC_Unknown => UnknownDueToCoverage
  end.

Definition is_structural_direction_pivot (path : list ImpactPathStep) (next : Adjacency) : bool :=
  match last path with
  | Some previous =>
      bool_decide (step_kind previous = Contains) && bool_decide (edge_kind (adj_edge next) = Contains)
      && negb (Bool.eqb (step_reversed previous) (adj_reversed next))
  | None => false
  end.

(** ** Propagation *)
Record TraversalState := {
  ts_node_id : NodeId;
  ts_certainty : PathCertainty;
  ts_path : list ImpactPathStep;
  ts_evidence : gset EvidenceId;
}.

(** The variables of the loop. *)
Record Propagation := {
  pr_queue : list TraversalState;
  pr_best : gmap NodeId (PathCertainty * N);
  pr_items : gmap NodeId ImpactItem;
  pr_examined : N;
  pr_possible : N;
  pr_unknown : N;
  pr_truncation : option TruncationInfo;
}.

Definition with_queue (q : list TraversalState) (p : Propagation) : Propagation :=
  {| pr_queue := q; pr_best := pr_best p; pr_items := pr_items p; pr_examined := pr_examined p;
     pr_possible := pr_possible p; pr_unknown := pr_unknown p; pr_truncation := pr_truncation p |}.
Definition with_examined (n : N) (p : Propagation) : Propagation :=
  {| pr_queue := pr_queue p; pr_best := pr_best p; pr_items := pr_items p; pr_examined := n;
     pr_possible := pr_possible p; pr_unknown := pr_unknown p; pr_truncation := pr_truncation p |}.
(** [truncation.get_or_insert_with(...)] *)
Definition with_truncation (info : TruncationInfo) (p : Propagation) : Propagation :=
  {| pr_queue := pr_queue p; pr_best := pr_best p; pr_items := pr_items p; pr_examined := pr_examined p;
     pr_possible := pr_possible p; pr_unknown := pr_unknown p;
     pr_truncation := Some (default info (pr_truncation p)) |}.
Definition count_certainty (c : PathCertainty) (p : Propagation) : Propagation :=
  {| pr_queue := pr_queue p; pr_best := pr_best p; pr_items := pr_items p; pr_examined := pr_examined p;
     pr_possible := match c with PC_Possible => saturating_add (pr_possible p) 1 | _ => pr_possible p end;
     pr_unknown := match c with PC_Unknown => saturating_add (pr_unknown p) 1 | _ => pr_unknown p end;
     pr_truncation := pr_truncation p |}.
Definition discover (item : ImpactItem) (label : PathCertainty * N) (state : TraversalState) (p : Propagation) : Propagation :=
  {| pr_queue := pr_queue p ++ [state]; pr_best := <[ts_node_id state := label]> (pr_best p);
     pr_items := <[ts_node_id state := item]> (pr_items p); pr_examined := pr_examined p;
     pr_possible := pr_possible p; pr_unknown := pr_unknown p; pr_truncation := pr_truncation p |}.

Definition path_step (from : NodeId) (entry : Adjacency) : ImpactPathStep :=
  {| step_from := from; step_to := adj_neighbor entry; step_edge_id := edge_id (adj_edge entry);
     step_kind := edge_kind (adj_edge entry); step_reversed := adj_reversed entry;
     step_confidence := edge_confidence (adj_edge entry); step_status := edge_status (adj_edge entry) |}.

Section traverse.
Context (options : ImpactOptions) (nodes : gmap NodeId Node) (target : NodeId)
  (adjacency : gmap NodeId (list Adjacency)).

Definition neighbors_of (v : NodeId) : list Adjacency := default [] (adjacency !! v).

(** The entry leads back to the target or into the path. *)
Definition revisits (state : TraversalState) (entry : Adjacency) : bool :=
  String.eqb (adj_neighbor entry) target
  || existsb (λ step, String.eqb (step_from step) (adj_neighbor entry)
                      || String.eqb (step_to step) (adj_neighbor entry)) (ts_path state).

(** The [for entry in neighbors] loop; it returns early at a limit. *)
Fixpoint visit (state : TraversalState) (entries : list Adjacency) (p : Propagation)
    : result ImpactError Propagation :=
  match entries with
  | [] => Ok p
  | entry :: rest =>
      if negb (is_propagating (edge_kind (adj_edge entry))) || is_structural_direction_pivot (ts_path state) entry
      then visit state rest p
      else
        let p := with_examined (saturating_add (pr_examined p) 1) p in
        if (opt_edge_limit options <? pr_examined p)%N then
          Ok (with_truncation
                {| ti_bound := "edge_limit"; ti_limit := opt_edge_limit options; ti_observed := pr_examined p;
                   ti_explanation := "edge examination limit stopped impact propagation" |} p)
        else if revisits state entry then visit state rest p
        else
          let edge_certainty := edge_certainty (adj_edge entry) (opt_confirmed_confidence options) in
          let p := count_certainty edge_certainty p in
          let certainty := certainty_max (ts_certainty state) edge_certainty in
          let next_depth := saturating_add (len (ts_path state)) 1 in
          if is_some_and (pr_best p !! adj_neighbor entry) (λ existing, label_le existing (certainty, next_depth))
          then visit state rest p
          else if negb (contains_key (pr_items p) (adj_neighbor entry))
                  && (opt_node_limit options <=? N.of_nat (size (pr_items p)))%N then
            Ok (with_truncation
                  {| ti_bound := "node_limit"; ti_limit := opt_node_limit options;
                     ti_observed := saturating_add (N.of_nat (size (pr_items p))) 1;
                     ti_explanation := "distinct-node limit stopped impact propagation" |} p)
          else
            let path := ts_path state ++ [path_step (ts_node_id state) entry] in
            let evidence := ts_evidence state ∪ bset_collect (edge_evidence (adj_edge entry)) in
            match nodes !! adj_neighbor entry with
            | None => Err (IE_DanglingEdge (edge_id (adj_edge entry)) (adj_neighbor entry))
            | Some node =>
                visit state rest
                  (discover
                     {| item_node := node; item_classification := classify certainty next_depth;
                        item_depth := next_depth; item_path := path; item_evidence := bset_elements evidence |}
                     (certainty, next_depth)
                     {| ts_node_id := adj_neighbor entry; ts_certainty := certainty; ts_path := path;
                        ts_evidence := evidence |} p)
            end
  end.

(** A propagating neighbour that the depth bound keeps from being followed. *)
Definition beyond_depth (state : TraversalState) (entry : Adjacency) : bool :=
  is_propagating (edge_kind (adj_edge entry)) && negb (is_structural_direction_pivot (ts_path state) entry)
  && negb (existsb (λ step, String.eqb (step_from step) (adj_neighbor entry)) (ts_path state)).

Definition stopped (p : Propagation) : bool :=
  is_some_and (pr_truncation p) (λ info,
    String.eqb (ti_bound info) "edge_limit" || String.eqb (ti_bound info) "node_limit").

(** The [while let Some(state) = queue.pop_front()] loop; [None] when the fuel
    runs out. *)
Fixpoint propagate (fuel : nat) (p : Propagation) : option (result ImpactError Propagation) :=
  match fuel with
  | 0 => None
  | S fuel' =>
      match pr_queue p with
      | [] => Some (Ok p)
      | state :: queue =>
          let p := with_queue queue p in
          let neighbors := neighbors_of (ts_node_id state) in
          if (len (ts_path state) =? opt_max_depth options)%N then
            propagate fuel'
              (if existsb (beyond_depth state) neighbors then
                 with_truncation
                   {| ti_bound := "max_depth"; ti_limit := opt_max_depth options; ti_observed := len (ts_path state);
                      ti_explanation := "additional graph relationships exist beyond maximum depth" |} p
               else p)
          else
            match visit state neighbors p with
            | Err e => Some (Err e)
            | Ok p => if stopped p then Some (Ok p) else propagate fuel' p
            end
      end
  end.

Definition propagation_start : Propagation :=
  {| pr_queue := [{| ts_node_id := target; ts_certainty := PC_Confirmed; ts_path := []; ts_evidence := ∅ |}];
     pr_best := {[target := (PC_Confirmed, 0%N)]}; pr_items := ∅; pr_examined := 0; pr_possible := 0;
     pr_unknown := 0; pr_truncation := None |}.

(** Every queued state was examined, within the edge limit. *)
Definition propagation_fuel : nat := S (S (N.to_nat (opt_edge_limit options))).
End traverse.

Definition traverse (request : ImpactRequest) (context : ImpactContext) (nodes : gmap NodeId Node) (target : Node)
    : option (result ImpactError (list ImpactItem * option TruncationInfo * N * N)) :=
  let options := req_options request in
  let adjacency := build_adjacency (ctx_edges context) (req_direction request) in
  match propagate options nodes (node_id target) adjacency (propagation_fuel options)
          (propagation_start (node_id target)) with
  | None => None
  | Some (Err e) => Some (Err e)
  | Some (Ok p) => Some (Ok (btree_values (pr_items p), pr_truncation p, pr_possible p, pr_unknown p))
  end.

(** ** Validation accepts exactly the valid contexts *)
Lemma ensure_Ok b e u : ensure b e = Ok u ↔ b = true.
Proof. unfold ensure. destruct b, u; naive_solver. Qed.

Lemma each_Ok {A} (f : A → result ImpactError unit) l : each f l = Ok tt ↔ ∀ x, x ∈ l → f x = Ok tt.
Proof.
  unfold each. induction l as [|x l IH]; simpl; [by split; [intros _ x ?%not_elem_of_nil|]|].
  destruct (f x) as [[]|e] eqn:E; simpl.
  - rewrite IH. split; [by intros H y [->|Hy]%elem_of_cons; auto|]. intros H y Hy. apply H. by right.
  - split; [done|]. intros H. rewrite H in E by by left. done.
Qed.

Lemma validate_node_reference_Ok nodes id context u :
  validate_node_reference nodes id context = Ok u ↔ is_Some (nodes !! id).
Proof. unfold validate_node_reference. rewrite <-contains_key_true. destruct (contains_key nodes id), u; naive_solver. Qed.

(** A loop that inserts fresh keys. *)
Lemma insert_nodes_Ok l nodes :
  try_fold insert_node ∅ l = Ok nodes ↔
  NoDup (map node_id l) ∧ nodes = btree_collect (map (λ n, (node_id n, n)) l).
Proof.
  revert nodes. induction l as [|n l IH] using rev_ind; intros nodes.
  { simpl. split; [intros [= <-]; by split; [constructor|]|by intros [_ ->]]. }
  rewrite try_fold_app, result_bind_Ok, map_app, map_app, btree_collect_app. cbn [try_fold map].
  setoid_rewrite result_bind_Ok. unfold insert_node.
  assert (Hfresh : ∀ m, NoDup (map node_id l) ∧ m = btree_collect (map (λ n, (node_id n, n)) l) →
    contains_key m (node_id n) = false ↔ node_id n ∉ map node_id l).
  { intros m [_ ->]. rewrite contains_key_false, btree_collect_lookup_None, map_map. simpl. done. }
  split.
  - intros (m & Hm%IH & m' & Hi & [= <-]). pose proof (Hfresh m Hm) as Hf.
    destruct (contains_key m (node_id n)); [done|]. injection Hi as <-. destruct Hm as [Hnd ->]. split; [|done].
    apply NoDup_app. split_and!; [done| |apply NoDup_singleton].
    intros x Hx ->%list_elem_of_singleton. by apply Hf in Hx.
  - intros [Hnd ->]. apply NoDup_app in Hnd as (Hnd & Hdisj & _).
    eexists. split; [by apply IH|]. rewrite (proj2 (Hfresh _ (conj Hnd eq_refl))).
    + by eexists.
    + intros Hin. apply (Hdisj _ Hin). simpl. set_solver.
Qed.

Lemma insert_keys_Ok {A} (key : A → string) (f : gset string → A → result ImpactError (gset string)) (ok : A → Prop) l :
  (∀ s x s', f s x = Ok s' ↔ key x ∉ s ∧ ok x ∧ s' = {[key x]} ∪ s) →
  (∃ s, try_fold f ∅ l = Ok s) ↔ NoDup (map key l) ∧ ∀ x, x ∈ l → ok x.
Proof.
  intros Hf. enough (H : ∀ s, try_fold f ∅ l = Ok s ↔
    NoDup (map key l) ∧ (∀ x, x ∈ l → ok x) ∧ s = list_to_set (rev (map key l))).
  { split; [by intros (s & (? & ? & _)%H)|]. intros [? ?]. eexists. by apply H. }
  induction l as [|x l IH] using rev_ind; intros s.
  { simpl. split; [intros [= <-]; split_and!; [constructor|set_solver|done]|by intros (_ & _ & ->)]. }
  rewrite try_fold_app, result_bind_Ok, map_app, rev_app_distr. cbn [try_fold map rev app list_to_set].
  setoid_rewrite result_bind_Ok. split.
  - intros (s1 & (Hnd & Hok & ->)%IH & s2 & (Hnew & Hx & ->)%Hf & [= <-]). split_and!.
    + apply NoDup_app. split_and!; [done| |apply NoDup_singleton]. intros k Hk ->%list_elem_of_singleton.
      apply Hnew, elem_of_list_to_set. apply list_elem_of_In, in_rev. rewrite rev_involutive. by apply list_elem_of_In.
    + intros y [?| ->%list_elem_of_singleton]%elem_of_app; auto.
    + done.
  - intros ((Hnd & Hdisj & _)%NoDup_app & Hok & ->). eexists. split.
    { apply IH. split_and!; [done| |done]. intros y Hy. apply Hok. set_solver. }
    eexists. split; [|done]. apply Hf. split_and!; [|apply Hok; set_solver|done].
    rewrite elem_of_list_to_set, list_elem_of_In, <-in_rev. intros Hin%list_elem_of_In.
    by apply (Hdisj _ Hin); set_solver.
Qed.

Lemma insert_edge_Ok nodes ids e ids' :
  insert_edge nodes ids e = Ok ids' ↔
  edge_id e ∉ ids ∧ (f32_in_unit (edge_confidence e) = true ∧ is_Some (nodes !! edge_source e) ∧ is_Some (nodes !! edge_target e))
  ∧ ids' = {[edge_id e]} ∪ ids.
Proof.
  unfold insert_edge. rewrite !check_Ok, !ensure_Ok, each_Ok, negb_true_iff, bool_decide_eq_false.
  setoid_rewrite ensure_Ok. setoid_rewrite contains_key_true. split.
  - intros (? & ? & He & [= <-]). split_and!; [done|done|apply He; set_solver..|done].
  - intros (? & (? & ? & ?) & ->). split_and!; [done..| |done]. intros x Hx.
    apply elem_of_cons in Hx as [-> | ->%list_elem_of_singleton]; done.
Qed.

Lemma insert_freshness_Ok ids r ids' :
  insert_freshness ids r = Ok ids' ↔ rf_repo_id r ∉ ids ∧ True ∧ ids' = {[rf_repo_id r]} ∪ ids.
Proof.
  unfold insert_freshness. rewrite !check_Ok, !ensure_Ok, negb_true_iff, bool_decide_eq_false. naive_solver.
Qed.

Definition evidence_given (a : CriticalityAssignment) : Prop :=
  ca_evidence a ≠ [] ∧ ∀ value, value ∈ ca_evidence a → trim value ≠ "".

Lemma validate_criticality_Ok nodes a u :
  validate_criticality nodes a = Ok u ↔ is_Some (nodes !! ca_node_id a) ∧ evidence_given a.
Proof.
  destruct u. unfold validate_criticality, evidence_given. rewrite check_Ok, validate_node_reference_Ok.
  apply and_iff_compat_l. destruct (existsb (λ value, String.eqb (trim value) "") (ca_evidence a)) eqn:E.
  - rewrite orb_true_r. split; [done|]. intros [_ Hall]. apply existsb_In in E as (v & Hv & Ev).
    apply String.eqb_eq in Ev. by apply Hall in Hv.
  - rewrite orb_false_r. case_bool_decide; [naive_solver|]. split; [|done]. intros _. split; [done|].
    intros v Hv Ev. apply existsb_false_In with (x := v) in E; [|done]. by rewrite Ev in E.
Qed.

(** What a context must satisfy; [nodes] is its node map. *)
Record context_valid (request : ImpactRequest) (context : ImpactContext) (nodes : gmap NodeId Node) : Prop := {
  cv_bounds : bounds_invalid (req_options request) = false;
  cv_confidence : f32_in_unit (opt_confirmed_confidence (req_options request)) = true;
  cv_node_ids : NoDup (map node_id (ctx_nodes context));
  cv_nodes : nodes = btree_collect (map (λ n, (node_id n, n)) (ctx_nodes context));
  cv_edge_ids : NoDup (map edge_id (ctx_edges context));
  cv_edges : ∀ e, e ∈ ctx_edges context → f32_in_unit (edge_confidence e) = true
    ∧ is_Some (nodes !! edge_source e) ∧ is_Some (nodes !! edge_target e);
  cv_freshness : NoDup (map rf_repo_id (ctx_freshness context));
  cv_centrality : ∀ v c, ctx_centrality context !! v = Some c → is_Some (nodes !! v) ∧ f32_in_unit c = true;
  cv_criticality : ∀ a, a ∈ ctx_criticality context → is_Some (nodes !! ca_node_id a) ∧ evidence_given a;
  cv_compatibility : ∀ c, c ∈ ctx_compatibility context → is_Some (nodes !! ci_contract_node_id c);
  cv_public : ∀ v, v ∈ ctx_public_contracts context → is_Some (nodes !! v);
  cv_environments : ∀ a, a ∈ ctx_environments context → is_Some (nodes !! ea_node_id a);
  cv_memberships : ∀ v services, ctx_service_memberships context !! v = Some services →
    is_Some (nodes !! v) ∧ ∀ s, s ∈ services → is_Some (nodes !! s);
}.

Lemma bind_unit_Ok {S} (r : result ImpactError S) : (let? _ := r in Ok tt) = Ok tt ↔ ∃ s, r = Ok s.
Proof. destruct r; simpl; naive_solver. Qed.

Lemma validate_context_valid request context nodes :
  validate_context request context = Ok nodes ↔ context_valid request context nodes.
Proof.
  unfold validate_context. rewrite !check_Ok, !ensure_Ok, result_bind_Ok, negb_true_iff. split.
  - intros (Hb & Hc & nodes' & [Hids Hn]%insert_nodes_Ok & H).
    rewrite !check_Ok, !bind_unit_Ok, !each_Ok in H.
    destruct H as (He & Hf & Hcen & Hcrit & Hcomp & Hpub & Henv & Hmem & [= <-]).
    apply (insert_keys_Ok edge_id (insert_edge nodes') _ _ (insert_edge_Ok nodes')) in He as [He1 He2].
    apply (insert_keys_Ok rf_repo_id insert_freshness _ _ insert_freshness_Ok) in Hf as [Hf _].
    split; try done.
    + intros v c Hv%btree_entries_elem_of. apply Hcen in Hv.
      by rewrite check_Ok, validate_node_reference_Ok, ensure_Ok in Hv.
    + intros a Ha. by apply Hcrit, validate_criticality_Ok in Ha.
    + intros c Hin. by apply Hcomp, validate_node_reference_Ok in Hin.
    + intros v Hv. by apply Hpub, validate_node_reference_Ok in Hv.
    + intros a Ha. by apply Henv, validate_node_reference_Ok in Ha.
    + intros v services Hv%btree_entries_elem_of. apply Hmem in Hv.
      rewrite check_Ok, validate_node_reference_Ok, each_Ok in Hv. destruct Hv as [? Hs]. split; [done|].
      intros s Hin. by apply Hs, validate_node_reference_Ok in Hin.
  - intros []. split; [done|]. split; [done|]. exists nodes. split; [by apply insert_nodes_Ok|].
    rewrite !check_Ok, !bind_unit_Ok, !each_Ok. split_and!; try done.
    + apply (insert_keys_Ok edge_id (insert_edge nodes) _ _ (insert_edge_Ok nodes)). by split.
    + by apply (insert_keys_Ok rf_repo_id insert_freshness _ _ insert_freshness_Ok).
    + intros [v c] Hv%btree_entries_elem_of. rewrite check_Ok, validate_node_reference_Ok, ensure_Ok.
      by apply cv_centrality0.
    + intros a Ha. by apply validate_criticality_Ok, cv_criticality0.
    + intros c Hin. by apply validate_node_reference_Ok, cv_compatibility0.
    + intros v Hv. by apply validate_node_reference_Ok, cv_public0.
    + intros a Ha. by apply validate_node_reference_Ok, cv_environments0.
    + intros [v services] Hv%btree_entries_elem_of. rewrite check_Ok, validate_node_reference_Ok, each_Ok.
      destruct (cv_memberships0 _ _ Hv) as [? Hs]. split; [done|].
      intros s Hin. by apply validate_node_reference_Ok, Hs.
Qed.

(** Validation is exact. A context is accepted exactly when the bounds
    and thresholds are in range, identifiers are unique, every edge has a
    confidence in [0..=1] and existing endpoints, every reference of the context
    names an existing node, and every criticality assignment has non-blank
    evidence; the result is then the node map. *)
Theorem validate_context_exact (request : ImpactRequest) (context : ImpactContext) (nodes : gmap NodeId Node) :
  validate_context request context = Ok nodes ↔ context_valid request context nodes.
Proof. apply validate_context_valid. Qed.

(** ** The adjacency lists *)
Definition incident (edges : list Edge) (direction : ImpactDirection) (v : NodeId) (entry : Adjacency) : Prop :=
  adj_edge entry ∈ edges ∧
  ((follows_outgoing direction = true ∧ adj_reversed entry = false
      ∧ edge_source (adj_edge entry) = v ∧ adj_neighbor entry = edge_target (adj_edge entry))
   ∨ (follows_incoming direction = true ∧ adj_reversed entry = true
      ∧ edge_target (adj_edge entry) = v ∧ adj_neighbor entry = edge_source (adj_edge entry))).

Lemma push_entry_elem m k entry v x :
  x ∈ default [] (push_entry k entry m !! v) ↔ x ∈ default [] (m !! v) ∨ (v = k ∧ x = entry).
Proof.
  unfold push_entry. rewrite lookup_insert. case_decide as E; simpl.
  - subst. rewrite elem_of_app, list_elem_of_singleton. naive_solver.
  - naive_solver.
Qed.

Lemma build_adjacency_elem edges direction v entry :
  entry ∈ neighbors_of (build_adjacency edges direction) v ↔ incident edges direction v entry.
Proof.
  unfold neighbors_of, build_adjacency. rewrite lookup_fmap.
  assert (H : entry ∈ default [] (foldl (add_adjacency direction) ∅ edges !! v) ↔ incident edges direction v entry).
  { unfold incident. induction edges as [|e edges IH] using rev_ind.
    { simpl. rewrite lookup_empty. simpl. rewrite elem_of_nil. naive_solver set_solver. }
    rewrite foldl_app. cbn [foldl]. unfold add_adjacency at 1.
    setoid_rewrite elem_of_app. setoid_rewrite list_elem_of_singleton.
    destruct entry as [n e' r]; simpl in *.
    destruct (follows_outgoing direction), (follows_incoming direction); simpl;
      rewrite ?push_entry_elem, IH; clear IH; naive_solver. }
  rewrite <-H. destruct (foldl _ _ _ !! v); simpl; [|done]. by rewrite sort_by_elem_of.
Qed.

(** ** Paths *)
Definition step_certainty (threshold : f32) (s : ImpactPathStep) : PathCertainty :=
  match step_status s with
  | Confirmed => if f_le threshold (step_confidence s) then PC_Confirmed else PC_Possible
  | Inferred | Ambiguous => PC_Possible
  | Stale | Incomplete => PC_Unknown
  end.

(** The weakest certainty along a path. *)
Definition path_certainty (threshold : f32) (path : list ImpactPathStep) : PathCertainty :=
  foldl (λ c s, certainty_max c (step_certainty threshold s)) PC_Confirmed path.

Lemma step_certainty_entry threshold v entry :
  step_certainty threshold (path_step v entry) = edge_certainty (adj_edge entry) threshold.
Proof. done. Qed.

Lemma path_certainty_snoc threshold path s :
  path_certainty threshold (path ++ [s]) = certainty_max (path_certainty threshold path) (step_certainty threshold s).
Proof. unfold path_certainty. by rewrite foldl_app. Qed.

Definition cle (a b : PathCertainty) : Prop := (certainty_rank a ≤ certainty_rank b)%N.

Lemma cle_max_l a b : cle a (certainty_max a b).
Proof. by destruct a, b. Qed.
Lemma cle_max_mono a a' b : cle a a' → cle (certainty_max a b) (certainty_max a' b).
Proof. by destruct a, a', b. Qed.
Lemma certainty_rank_inj a b : certainty_rank a = certainty_rank b → a = b.
Proof. by destruct a, b. Qed.

Lemma label_le_spec a b :
  label_le a b = true ↔
  (certainty_rank a.1 < certainty_rank b.1)%N ∨ certainty_rank a.1 = certainty_rank b.1 ∧ (a.2 ≤ b.2)%N.
Proof.
  unfold label_le. rewrite orb_true_iff, andb_true_iff, N.ltb_lt, N.eqb_eq, N.leb_le. done.
Qed.

Lemma label_le_trans a b c : label_le a b = true → label_le b c = true → label_le a c = true.
Proof. rewrite !label_le_spec. lia. Qed.

Lemma label_le_refl a : label_le a a = true.
Proof. rewrite label_le_spec. right. split; [done|lia]. Qed.

Lemma label_le_total a b : label_le a b = false → label_le b a = true.
Proof. rewrite <-not_true_iff_false, !label_le_spec. lia. Qed.

Lemma label_le_intro c d c' d' : cle c c' → (d ≤ d')%N → label_le (c, d) (c', d') = true.
Proof. unfold cle. rewrite label_le_spec. simpl. lia. Qed.

Section walks.
Context (edges : list Edge) (direction : ImpactDirection) (target : NodeId).

(** Chains of propagating relationships that start at the target. *)
Inductive walk : list ImpactPathStep → NodeId → Prop :=
| walk_nil : walk [] target
| walk_snoc path v entry :
    walk path v → incident edges direction v entry → is_propagating (edge_kind (adj_edge entry)) = true →
    walk (path ++ [path_step v entry]) (adj_neighbor entry).

(** The nodes of a path, the target first. *)
Definition path_nodes (path : list ImpactPathStep) : list NodeId := target :: map step_to path.

Lemma walk_node path v : walk path v → v ∈ path_nodes path.
Proof.
  unfold path_nodes. destruct 1 as [|path v entry _ _ _]; [set_solver|].
  rewrite map_app, elem_of_cons, elem_of_app. simpl. right. right. set_solver.
Qed.

Lemma walk_from path v s : walk path v → s ∈ path → step_from s ∈ path_nodes path.
Proof.
  induction 1 as [|path v entry Hw IH Hi Hp]; [by intros ?%not_elem_of_nil|].
  intros [Hs| ->%list_elem_of_singleton]%elem_of_app.
  - unfold path_nodes in *. rewrite map_app, elem_of_cons, elem_of_app. specialize (IH Hs). set_solver.
  - simpl. apply walk_node in Hw. unfold path_nodes in *. rewrite map_app. set_solver.
Qed.
End walks.

(** Containment is never followed down and then up, or up and then down. *)
Definition pivot_free (path : list ImpactPathStep) : Prop :=
  ∀ pre a b post, path = pre ++ a :: b :: post →
    step_kind a = Contains → step_kind b = Contains → step_reversed a = step_reversed b.

Lemma pivot_free_snoc path v entry :
  pivot_free path → is_structural_direction_pivot path entry = false → pivot_free (path ++ [path_step v entry]).
Proof.
  intros Hp Hnp pre a b post E Ha Hb. destruct post as [|c post _] using rev_ind.
  - replace (pre ++ [a; b]) with ((pre ++ [a]) ++ [b]) in E by (by rewrite <-app_assoc).
    apply app_inj_tail in E as [-> <-]. unfold is_structural_direction_pivot in Hnp.
    rewrite last_snoc in Hnp. simpl in Hb |- *.
    rewrite !bool_decide_eq_true_2 in Hnp by done. simpl in Hnp.
    by apply negb_false_iff, eqb_prop in Hnp.
  - replace (pre ++ a :: b :: post ++ [c]) with ((pre ++ a :: b :: post) ++ [c]) in E
      by (by rewrite <-app_assoc).
    apply app_inj_tail in E as [-> _]. by eapply Hp.
Qed.

(** ** The propagation: soundness, bounds and termination *)
Section propagation.
Context (options : ImpactOptions) (nodes : gmap NodeId Node) (edges : list Edge)
  (direction : ImpactDirection) (target : NodeId).
Context (Hnodes : ∀ v n, nodes !! v = Some n → node_id n = v)
  (Hends : ∀ e, e ∈ edges → is_Some (nodes !! edge_source e) ∧ is_Some (nodes !! edge_target e))
  (Hids : NoDup (map edge_id edges)) (Hbounds : bounds_invalid options = false).
Let adjacency := build_adjacency edges direction.
Let threshold := opt_confirmed_confidence options.

Lemma bounds_valid :
  (opt_max_depth options ≤ MAX_DEPTH ∧ 0 < opt_node_limit options ∧ opt_edge_limit options ≤ MAX_EDGES)%N.
Proof.
  unfold bounds_invalid in Hbounds. rewrite !orb_false_iff, !N.eqb_neq, !N.ltb_ge in Hbounds. lia.
Qed.

Record state_ok (s : TraversalState) : Prop := {
  so_walk : walk edges direction target (ts_path s) (ts_node_id s);
  so_certainty : ts_certainty s = path_certainty threshold (ts_path s);
  so_evidence : ∀ x, x ∈ ts_evidence s ↔ ∃ step e, step ∈ ts_path s ∧ e ∈ edges
    ∧ edge_id e = step_edge_id step ∧ x ∈ edge_evidence e;
  so_loopfree : NoDup (path_nodes target (ts_path s));
  so_pivot : pivot_free (ts_path s);
  so_depth : (len (ts_path s) ≤ opt_max_depth options)%N;
}.

Record item_ok (p : Propagation) (v : NodeId) (item : ImpactItem) (s : TraversalState) : Prop := {
  io_state : state_ok s;
  io_node_id : ts_node_id s = v;
  io_target : v ≠ target;
  io_node : nodes !! v = Some (item_node item);
  io_path : item_path item = ts_path s;
  io_depth : item_depth item = len (ts_path s);
  io_classification : item_classification item = classify (ts_certainty s) (len (ts_path s));
  io_evidence : item_evidence item = bset_elements (ts_evidence s);
  io_best : pr_best p !! v = Some (ts_certainty s, len (ts_path s));
  io_confirmed : pr_possible p = 0%N → pr_unknown p = 0%N → ts_certainty s = PC_Confirmed;
}.

Record propagation_ok (p : Propagation) : Prop := {
  po_queue : ∀ s, s ∈ pr_queue p → state_ok s
    ∧ (pr_possible p = 0%N → pr_unknown p = 0%N → ts_certainty s = PC_Confirmed);
  po_items : ∀ v item, pr_items p !! v = Some item → ∃ s, item_ok p v item s;
  po_best : ∀ v, is_Some (pr_best p !! v) ↔ v = target ∨ is_Some (pr_items p !! v);
  po_size : (N.of_nat (size (pr_items p)) ≤ opt_node_limit options)%N;
}.

Lemma revisits_spec s entry : state_ok s →
  revisits target s entry = true ↔ adj_neighbor entry ∈ path_nodes target (ts_path s).
Proof using Type.
  intros Hs. unfold revisits, path_nodes.
  rewrite orb_true_iff, String.eqb_eq, existsb_In, elem_of_cons, list_elem_of_In, in_map_iff.
  setoid_rewrite orb_true_iff. setoid_rewrite String.eqb_eq. split.
  - intros [?|(x & Hx & [E|E])]; [by left| |].
    + pose proof (walk_from _ _ _ _ _ _ (so_walk _ Hs) Hx) as H. unfold path_nodes in H.
      by rewrite E, elem_of_cons, list_elem_of_In, in_map_iff in H.
    + right. exists x. split; [done|]. by apply list_elem_of_In.
  - intros [?|(x & E & Hx)]; [by left|]. right. exists x. split; [by apply list_elem_of_In|by right].
Qed.

Lemma depth_step s : state_ok s → saturating_add (len (ts_path s)) 1 = (len (ts_path s) + 1)%N.
Proof using Hbounds.
  intros Hs. apply saturating_add_small. pose proof (so_depth _ Hs). pose proof bounds_valid.
  unfold MAX_DEPTH, usize_max in *. lia.
Qed.

(** The state reached through an entry. *)
Definition next_state (s : TraversalState) (entry : Adjacency) : TraversalState :=
  {| ts_node_id := adj_neighbor entry;
     ts_certainty := certainty_max (ts_certainty s) (edge_certainty (adj_edge entry) threshold);
     ts_path := ts_path s ++ [path_step (ts_node_id s) entry];
     ts_evidence := ts_evidence s ∪ bset_collect (edge_evidence (adj_edge entry)) |}.

Lemma next_state_ok s entry :
  state_ok s → incident edges direction (ts_node_id s) entry → is_propagating (edge_kind (adj_edge entry)) = true →
  is_structural_direction_pivot (ts_path s) entry = false → revisits target s entry = false →
  (len (ts_path s) < opt_max_depth options)%N → state_ok (next_state s entry).
Proof using Hids.
  intros Hs Hi Hp Hnp Hr Hd. split; simpl.
  - constructor; [apply Hs|done..].
  - by rewrite path_certainty_snoc, step_certainty_entry, (so_certainty _ Hs).
  - intros x. unfold bset_collect. rewrite elem_of_union, elem_of_list_to_set, (so_evidence _ Hs).
    setoid_rewrite elem_of_app. setoid_rewrite list_elem_of_singleton. split.
    + intros [(st & e & ? & ? & ? & ?)|Hx]; [exists st, e; split_and!; eauto|].
      exists (path_step (ts_node_id s) entry), (adj_edge entry). split_and!; [by right|apply Hi|done|done].
    + intros (st & e & [?| ->] & He & Eid & Hx); [left; by exists st, e|right]. simpl in Eid.
      assert (e = adj_edge entry) as ->; [|done]. eapply NoDup_map_inj; [done..|apply Hi|done].
  - unfold path_nodes. rewrite map_app. simpl. change (NoDup (path_nodes target (ts_path s) ++ [adj_neighbor entry])).
    apply NoDup_app. split_and!; [apply Hs| |apply NoDup_singleton].
    intros x Hx ->%list_elem_of_singleton. apply (revisits_spec s entry Hs) in Hx. congruence.
  - apply pivot_free_snoc; [apply Hs|done].
  - rewrite len_app, len_cons, len_nil. lia.
Qed.

(** An entry leads to a node of the graph. *)
Lemma incident_node v entry : incident edges direction v entry → is_Some (nodes !! adj_neighbor entry).
Proof using Hends. intros [He [(_ & _ & _ & ->)|(_ & _ & _ & ->)]]; by apply Hends. Qed.

Lemma count_certainty_zero c p :
  pr_possible (count_certainty c p) = 0%N → pr_unknown (count_certainty c p) = 0%N →
  pr_possible p = 0%N ∧ pr_unknown p = 0%N ∧ c = PC_Confirmed.
Proof using Type. unfold count_certainty, saturating_add, usize_max. destruct c; simpl; intros; split_and!; done || lia. Qed.

Lemma propagation_ok_weaken p p' :
  propagation_ok p → pr_queue p' = pr_queue p → pr_best p' = pr_best p → pr_items p' = pr_items p →
  (pr_possible p' = 0%N → pr_unknown p' = 0%N → pr_possible p = 0%N ∧ pr_unknown p = 0%N) → propagation_ok p'.
Proof using Type.
  intros [Hq Hi Hb Hs] Eq Eb Ei Hz. split; rewrite ?Eq, ?Eb, ?Ei; try done.
  - intros s Hin. destruct (Hq s Hin) as [? Hc]. split; [done|]. intros H1 H2. apply Hc; by apply Hz.
  - intros v item Hv. destruct (Hi v item Hv) as [s []]. exists s. split; try done; [by rewrite Eb|].
    intros H1 H2. apply io_confirmed0; by apply Hz.
Qed.

Lemma discover_ok s entry p node :
  propagation_ok p → (pr_possible p = 0%N → pr_unknown p = 0%N → ts_certainty (next_state s entry) = PC_Confirmed) →
  state_ok (next_state s entry) → adj_neighbor entry ≠ target →
  (is_Some (pr_items p !! adj_neighbor entry) ∨ (N.of_nat (size (pr_items p)) < opt_node_limit options)%N) →
  nodes !! adj_neighbor entry = Some node →
  let s' := next_state s entry in
  propagation_ok (discover
    {| item_node := node; item_classification := classify (ts_certainty s') (len (ts_path s'));
       item_depth := len (ts_path s'); item_path := ts_path s'; item_evidence := bset_elements (ts_evidence s') |}
    (ts_certainty s', len (ts_path s')) s' p).
Proof using Hends.
  intros [Hq Hi Hb Hsz] Hc Hok Hnt Hroom Hnode s'. split; cbn [pr_queue pr_best pr_items pr_possible pr_unknown discover].
  - intros x [Hx| ->%list_elem_of_singleton]%elem_of_app; auto.
  - intros v item. destruct (decide (adj_neighbor entry = v)) as [<-|Hne].
    + rewrite lookup_insert_eq. intros [= <-]. exists s'. split; try done. cbn. by rewrite lookup_insert_eq.
    + rewrite lookup_insert_ne by done. intros Hv. destruct (Hi v item Hv) as [x []]. exists x. split; try done.
      cbn. by rewrite lookup_insert_ne.
  - intros v. change (ts_node_id s') with (adj_neighbor entry). rewrite !lookup_insert_is_Some', Hb. naive_solver.
  - change (ts_node_id s') with (adj_neighbor entry). destruct (pr_items p !! adj_neighbor entry) as [it|] eqn:E.
    + rewrite map_size_insert_Some by (by rewrite E). done.
    + rewrite map_size_insert_None by done. destruct Hroom as [[? Hx]|]; [congruence|lia].
Qed.

(** States still queued, plus edges the limit still allows. *)
Definition measure (p : Propagation) : nat :=
  length (pr_queue p) + (N.to_nat (opt_edge_limit options) - N.to_nat (pr_examined p)).

Lemma examine_measure p :
  (saturating_add (pr_examined p) 1 ≤ opt_edge_limit options)%N →
  S (measure (with_examined (saturating_add (pr_examined p) 1) p)) = measure p.
Proof using Hbounds.
  pose proof bounds_valid as Hv. unfold measure, saturating_add, MAX_EDGES, usize_max in *. simpl.
  intros H. lia.
Qed.

Lemma visit_ok s entries p :
  state_ok s → (pr_possible p = 0%N → pr_unknown p = 0%N → ts_certainty s = PC_Confirmed) →
  (∀ entry, entry ∈ entries → incident edges direction (ts_node_id s) entry) →
  (len (ts_path s) < opt_max_depth options)%N → propagation_ok p →
  ∃ p', visit options nodes target s entries p = Ok p' ∧ propagation_ok p' ∧ (measure p' ≤ measure p)%nat.
Proof.
  intros Hs Hc Hinc Hd. revert p Hc. induction entries as [|entry entries IH]; intros p Hc Hp.
  { exists p. by split_and!. }
  assert (Hi : incident edges direction (ts_node_id s) entry) by (apply Hinc; set_solver).
  specialize (IH (λ e He, Hinc e (list_elem_of_further _ _ _ He))). cbn [visit].
  destruct (is_propagating (edge_kind (adj_edge entry))) eqn:Eprop; cbn [negb orb]; [|by apply IH].
  destruct (is_structural_direction_pivot (ts_path s) entry) eqn:Epiv; [by apply IH|].
  set (p1 := with_examined _ p).
  assert (Hp1 : propagation_ok p1) by (by apply (propagation_ok_weaken p)).
  destruct (opt_edge_limit options <? pr_examined p1)%N eqn:Elim.
  { eexists. split; [done|]. split; [by apply (propagation_ok_weaken p)|].
    unfold measure; simpl. apply N.ltb_lt in Elim. simpl in Elim. lia. }
  apply N.ltb_ge in Elim. pose proof (examine_measure p Elim) as Hm. fold p1 in Hm.
  destruct (revisits target s entry) eqn:Erev.
  { destruct (IH p1 Hc Hp1) as (p' & ? & ? & ?). exists p'. split_and!; [done..|lia]. }
  set (c := edge_certainty (adj_edge entry) _). set (p2 := count_certainty c p1).
  assert (Hz : pr_possible p2 = 0%N → pr_unknown p2 = 0%N →
    pr_possible p1 = 0%N ∧ pr_unknown p1 = 0%N ∧ c = PC_Confirmed) by apply count_certainty_zero.
  assert (Hp2 : propagation_ok p2).
  { apply (propagation_ok_weaken p1); [done..|]. intros H1 H2. by destruct (Hz H1 H2) as (? & ? & _). }
  assert (Hc2 : pr_possible p2 = 0%N → pr_unknown p2 = 0%N → ts_certainty s = PC_Confirmed).
  { intros H1 H2. destruct (Hz H1 H2) as (? & ? & _). by apply Hc. }
  destruct (is_some_and (pr_best p2 !! adj_neighbor entry) _) eqn:Ebest.
  { destruct (IH p2 Hc2 Hp2) as (p' & ? & ? & Hm'). exists p'. split_and!; [done..|].
    change (measure p2) with (measure p1) in Hm'. lia. }
  destruct (negb (contains_key (pr_items p2) (adj_neighbor entry)) && (opt_node_limit options <=? N.of_nat (size (pr_items p2)))%N) eqn:Eroom.
  { eexists. split; [done|]. split; [by apply (propagation_ok_weaken p2)|].
    change (measure (with_truncation _ p2)) with (measure p1). lia. }
  destruct (incident_node _ _ Hi) as [node Hnode]. rewrite Hnode.
  assert (Hns : state_ok (next_state s entry)) by (by apply next_state_ok).
  assert (Hlen : len (ts_path (next_state s entry)) = saturating_add (len (ts_path s)) 1).
  { rewrite depth_step by done. simpl. by rewrite len_app, len_cons, len_nil. }
  rewrite <-Hlen.
  match goal with |- context [visit _ _ _ _ _ ?p3] => set (p3' := p3) end.
  assert (Hp3 : propagation_ok p3').
  { apply (discover_ok s entry p2 node); try done.
    - intros H1 H2. destruct (Hz H1 H2) as (? & ? & Hcc). change (certainty_max (ts_certainty s) c = PC_Confirmed).
      by rewrite Hcc, Hc.
    - intros E. apply not_true_iff_false in Erev. apply Erev. apply revisits_spec; [done|].
      rewrite E. unfold path_nodes. set_solver.
    - apply andb_false_iff in Eroom as [E|E].
      + left. by apply negb_false_iff, contains_key_true in E.
      + right. apply N.leb_gt in E. lia. }
  destruct (IH p3' Hc2 Hp3) as (p' & ? & ? & Hm'). exists p'. split_and!; [done..|].
  assert (measure p3' = S (measure p1)); [|lia].
  unfold measure, p3'. simpl. rewrite length_app. simpl. lia.
Qed.

Lemma propagate_ok fuel p :
  propagation_ok p → (measure p < fuel)%nat →
  ∃ p', propagate options nodes target adjacency fuel p = Some (Ok p') ∧ propagation_ok p'.
Proof.
  revert p. induction fuel as [|fuel IH]; intros p Hp Hm; [lia|]. cbn [propagate].
  destruct (pr_queue p) as [|s q] eqn:Eq; [by exists p|].
  destruct (po_queue _ Hp s) as [Hs Hc]; [rewrite Eq; set_solver|].
  set (p1 := with_queue q p).
  assert (Hp1 : propagation_ok p1).
  { destruct Hp as [H1 H2 H3 H4]. split; cbn; try done.
    - intros x Hx. apply H1. rewrite Eq. set_solver.
    - intros v item Hv. destruct (H2 v item Hv) as [x []]. by exists x. }
  assert (Hm1 : S (measure p1) = measure p) by (unfold measure; by rewrite Eq).
  destruct (N.eqb_spec (len (ts_path s)) (opt_max_depth options)) as [Hd|Hd].
  - apply IH; case_if; try done; try lia.
    + by apply (propagation_ok_weaken p1).
    + change (measure (with_truncation _ p1)) with (measure p1). lia.
  - destruct (visit_ok s (neighbors_of adjacency (ts_node_id s)) p1 Hs) as (p2 & Hv & Hp2 & Hm2); try done.
    + intros entry He. by apply build_adjacency_elem.
    + pose proof (so_depth _ Hs). lia.
    + rewrite Hv. destruct (stopped p2); [by exists p2|]. apply IH; [done|lia].
Qed.

Lemma start_state_ok s : s ∈ pr_queue (propagation_start target) → state_ok s.
Proof using Type.
  clear Hnodes Hends Hids Hbounds. intros ->%list_elem_of_singleton. split; cbn.
  - constructor.
  - done.
  - intros x. split; [set_solver|]. by intros (st & e & ?%not_elem_of_nil & _).
  - apply NoDup_singleton.
  - intros pre a b post E. by destruct pre.
  - rewrite len_nil. lia.
Qed.

Lemma start_ok : propagation_ok (propagation_start target).
Proof.
  split; cbn.
  - intros s Hs. split; [by apply start_state_ok|]. by apply list_elem_of_singleton in Hs as ->.
  - intros v item. by rewrite lookup_empty.
  - intros v. rewrite lookup_empty, lookup_singleton_is_Some. split; [by left|]. intros [?|[? ?]]; done.
  - rewrite map_size_empty. lia.
Qed.

Lemma propagation_terminates :
  ∃ p, propagate options nodes target adjacency (propagation_fuel options) (propagation_start target) = Some (Ok p)
    ∧ propagation_ok p.
Proof.
  apply propagate_ok; [exact start_ok|]. unfold measure, propagation_fuel. simpl. lia.
Qed.
End propagation.

(** ** The propagation: completeness and optimality in one direction *)
Section optimality.
Context (options : ImpactOptions) (nodes : gmap NodeId Node) (edges : list Edge)
  (direction : ImpactDirection) (target : NodeId).
Context (Hends : ∀ e, e ∈ edges → is_Some (nodes !! edge_source e) ∧ is_Some (nodes !! edge_target e))
  (Hids : NoDup (map edge_id edges)) (Hbounds : bounds_invalid options = false) (Hdir : direction ≠ Both).
Let adjacency := build_adjacency edges direction.
Let threshold := opt_confirmed_confidence options.
Let sok := state_ok options edges direction target.
Let pnodes := path_nodes target.

Definition depth_of (s : TraversalState) : N := len (ts_path s).

(** [s'] is as certain and as near as a state of these would be. *)
Definition dominates (s' : TraversalState) (v : NodeId) (c : PathCertainty) (d : N) : Prop :=
  ts_node_id s' = v ∧ cle (ts_certainty s') c ∧ (depth_of s' ≤ d)%N.

Definition covered (gen : list TraversalState) (s : TraversalState) (entry : Adjacency) : Prop :=
  is_propagating (edge_kind (adj_edge entry)) = true →
  ∃ s', s' ∈ gen ∧ dominates s' (adj_neighbor entry)
    (certainty_max (ts_certainty s) (edge_certainty (adj_edge entry) threshold)) (depth_of s + 1).

(** The states generated so far, against the labels; [k] is the depth of the
    state being expanded. *)
Record explored (gen : list TraversalState) (k : N) (p : Propagation) : Prop := {
  ex_ok : ∀ s, s ∈ gen → sok s;
  ex_queue : ∀ s, s ∈ pr_queue p → s ∈ gen ∧ (k ≤ depth_of s)%N;
  ex_sorted : StronglySorted (λ a b, depth_of a ≤ depth_of b)%N (pr_queue p);
  ex_depth : ∀ s, s ∈ gen → (depth_of s ≤ k + 1)%N;
  ex_label : ∀ s, s ∈ gen → ∃ l, pr_best p !! ts_node_id s = Some l ∧ label_le l (ts_certainty s, depth_of s) = true;
  ex_best : ∀ v c d, pr_best p !! v = Some (c, d) → ∃ s, s ∈ gen ∧ dominates s v c d ∧ d = depth_of s;
  ex_ancestors : ∀ s u, s ∈ gen → u ∈ pnodes (ts_path s) →
    ∃ s', s' ∈ gen ∧ dominates s' u (ts_certainty s) (depth_of s);
}.

Lemma walk_reversed path v s :
  walk edges direction target path v → s ∈ path → step_reversed s = follows_incoming direction.
Proof.
  induction 1 as [|path v entry _ IH [_ Hi] _]; [by intros ?%not_elem_of_nil|].
  intros [?| ->%list_elem_of_singleton]%elem_of_app; [auto|]. simpl.
  by destruct direction, Hi as [(? & -> & _)|(? & -> & _)].
Qed.

Lemma no_pivot s entry :
  sok s → incident edges direction (ts_node_id s) entry → is_structural_direction_pivot (ts_path s) entry = false.
Proof.
  intros Hs [_ Hi]. unfold is_structural_direction_pivot. destruct (last (ts_path s)) as [st|] eqn:E; [|done].
  rewrite (walk_reversed _ _ st (so_walk _ _ _ _ _ Hs)).
  - destruct direction, Hi as [(? & -> & _)|(? & -> & _)]; simpl; try done; by rewrite andb_false_r.
  - apply last_Some in E as [l ->]. set_solver.
Qed.

Lemma explored_same gen k p p' :
  explored gen k p → pr_queue p' = pr_queue p → pr_best p' = pr_best p → explored gen k p'.
Proof. intros [] Eq Eb. split; rewrite ?Eq, ?Eb; done. Qed.

Lemma covered_mono gen gen' s entry : (∀ x, x ∈ gen → x ∈ gen') → covered gen s entry → covered gen' s entry.
Proof. intros Hsub Hc Hp. destruct (Hc Hp) as (s' & ? & ?). eauto. Qed.

(** A new state enters the queue. *)
Lemma explored_discover gen k p p' s entry :
  pr_queue p' = pr_queue p ++ [next_state options s entry] →
  pr_best p' = <[adj_neighbor entry := (ts_certainty (next_state options s entry), (k + 1)%N)]> (pr_best p) →
  explored gen k p → s ∈ gen → depth_of s = k →
  sok (next_state options s entry) →
  is_some_and (pr_best p !! adj_neighbor entry) (λ existing,
    label_le existing (ts_certainty (next_state options s entry), k + 1)%N) = false →
  explored (gen ++ [next_state options s entry]) k p'.
Proof.
  intros Eq Eb [Hok Hq Hso Hd Hl Hb Ha] Hs Hk Hnew Hbetter. set (s' := next_state options s entry) in *.
  assert (Hd' : depth_of s' = (k + 1)%N).
  { unfold depth_of, s'. simpl. rewrite len_app, len_cons, len_nil. unfold depth_of in Hk. lia. }
  split; rewrite ?Eq, ?Eb.
  - intros x [?| ->%list_elem_of_singleton]%elem_of_app; auto.
  - intros x [Hx| ->%list_elem_of_singleton]%elem_of_app; [|split; [set_solver|lia]].
    destruct (Hq x Hx). split; [set_solver|done].
  - apply StronglySorted_app_2; [|done|repeat constructor]. intros a b Ha' ->%list_elem_of_singleton.
    destruct (Hq a Ha') as [Hag _]. specialize (Hd a Hag). lia.
  - intros x [Hx| ->%list_elem_of_singleton]%elem_of_app; [auto|lia].
  - intros x Hx. destruct (decide (ts_node_id x = adj_neighbor entry)) as [E|E].
    + exists (ts_certainty s', (k + 1)%N). rewrite E, lookup_insert_eq. split; [done|].
      apply elem_of_app in Hx as [Hx| ->%list_elem_of_singleton]; [|rewrite Hd'; apply label_le_refl].
      destruct (Hl x Hx) as (l & Hbx & Hle). rewrite E in Hbx. rewrite Hbx in Hbetter. simpl in Hbetter.
      eapply label_le_trans; [|exact Hle]. by apply label_le_total.
    + rewrite lookup_insert_ne by done. apply elem_of_app in Hx as [Hx| ->%list_elem_of_singleton]; [auto|done].
  - intros v c d. destruct (decide (adj_neighbor entry = v)) as [<-|E].
    + rewrite lookup_insert_eq. intros [= <- <-]. exists s'.
      split; [set_solver|]. split; [|done]. unfold dominates, cle. split_and!; [done|apply N.le_refl|lia].
    + rewrite lookup_insert_ne by done. intros Hv. destruct (Hb v c d Hv) as (x & ? & ? & ?).
      exists x. split; [set_solver|done].
  - intros x u [Hx| ->%list_elem_of_singleton]%elem_of_app Hu.
    + destruct (Ha x u Hx Hu) as (y & ? & ?). exists y. split; [set_solver|done].
    + unfold pnodes, path_nodes in Hu. simpl in Hu. rewrite map_app in Hu.
      change (u ∈ path_nodes target (ts_path s) ++ [adj_neighbor entry]) in Hu.
      apply elem_of_app in Hu as [Hu| ->%list_elem_of_singleton].
      * destruct (Ha s u Hs Hu) as (y & ? & ? & Hc & ?). exists y. split; [set_solver|].
        split_and!; [done| |lia]. unfold cle in *.
        pose proof (cle_max_l (ts_certainty s) (edge_certainty (adj_edge entry) threshold)) as Hm. unfold cle in Hm.
        simpl. fold threshold. lia.
      * exists s'. split; [set_solver|]. unfold dominates, cle. split_and!; [done|lia|lia].
Qed.

Lemma visit_explored s entries gen k p p' :
  explored gen k p → s ∈ gen → depth_of s = k → (k < opt_max_depth options)%N →
  (∀ entry, entry ∈ entries → incident edges direction (ts_node_id s) entry) →
  visit options nodes target s entries p = Ok p' → pr_truncation p' = None →
  pr_truncation p = None ∧ ∃ new, explored (gen ++ new) k p' ∧ pr_queue p' = pr_queue p ++ new
    ∧ ∀ entry, entry ∈ entries → covered (gen ++ new) s entry.
Proof.
  intros Hex Hs Hk Hkd Hinc. revert gen p Hex Hs. induction entries as [|entry entries IH]; intros gen p Hex Hs.
  { intros [= <-] Ht. split; [done|]. exists []. rewrite !app_nil_r. split_and!; [done..|]. by intros e ?%not_elem_of_nil. }
  assert (Hi : incident edges direction (ts_node_id s) entry) by (apply Hinc; set_solver).
  specialize (IH (λ e He, Hinc e (list_elem_of_further _ _ _ He))). cbn [visit].
  pose proof (ex_ok _ _ _ Hex s Hs) as Hsok.
  rewrite (no_pivot s entry Hsok Hi), orb_false_r.
  (** The rest of the loop from a state with the same queue and labels. *)
  assert (Hcont : ∀ p1, pr_queue p1 = pr_queue p → pr_best p1 = pr_best p → pr_truncation p1 = pr_truncation p →
    covered gen s entry → visit options nodes target s entries p1 = Ok p' → pr_truncation p' = None →
    pr_truncation p = None ∧ ∃ new, explored (gen ++ new) k p' ∧ pr_queue p' = pr_queue p ++ new
      ∧ ∀ e, e ∈ entry :: entries → covered (gen ++ new) s e).
  { intros p1 Eq Eb Et Hc Hv Ht. destruct (IH gen p1) as (Ht1 & new & Hx & Hq & Hcov); try done.
    { by eapply explored_same. }
    split; [congruence|]. exists new. split_and!; [done|congruence|].
    intros e [->|He]%elem_of_cons; [|auto]. eapply covered_mono; [|done]. set_solver. }
  destruct (is_propagating (edge_kind (adj_edge entry))) eqn:Eprop; cbn [negb].
  2: { apply Hcont; try done. intros H. congruence. }
  set (p1 := with_examined _ p).
  destruct (opt_edge_limit options <? pr_examined p1)%N; [by intros [= <-]|].
  destruct (revisits target s entry) eqn:Erev.
  { apply Hcont; try done. intros _. apply (revisits_spec options edges direction target s entry Hsok) in Erev.
    destruct (ex_ancestors _ _ _ Hex s _ Hs Erev) as (y & Hy & ? & Hc & Hd). exists y. split; [done|].
    split_and!; [done| |lia]. unfold cle in *.
    pose proof (cle_max_l (ts_certainty s) (edge_certainty (adj_edge entry) threshold)) as Hm. unfold cle in Hm. lia. }
  rewrite (depth_step options edges direction target Hbounds s Hsok). fold (depth_of s). rewrite Hk.
  destruct (is_some_and _ _) eqn:Ebest.
  { apply Hcont; try done. intros _. cbn in Ebest.
    destruct (pr_best p !! adj_neighbor entry) as [[c d]|] eqn:Eb; [|done]. cbn in Ebest.
    destruct (ex_best _ _ _ Hex _ _ _ Eb) as (y & Hy & (? & Hc & Hd) & ->). exists y. split; [done|].
    apply label_le_spec in Ebest. simpl in Ebest. pose proof (ex_depth _ _ _ Hex y Hy).
    unfold dominates, cle in *. fold threshold in Ebest. rewrite Hk. split_and!; [done|lia|lia]. }
  destruct (_ && _); [by intros [= <-]|].
  destruct (nodes !! adj_neighbor entry) as [node|]; [|done].
  assert (Hns : sok (next_state options s entry)).
  { apply next_state_ok; try done; [by apply no_pivot|]. unfold depth_of in *. lia. }
  match goal with |- visit _ _ _ _ _ ?q = _ → _ => set (p3 := q) end. intros Hv Ht.
  assert (Hex3 : explored (gen ++ [next_state options s entry]) k p3).
  { by apply (explored_discover gen k p p3 s entry). }
  destruct (IH _ p3 Hex3) as (Ht3 & new & Hx & Hq & Hcov); try done; [set_solver|].
  split; [done|]. exists (next_state options s entry :: new).
  rewrite <-app_assoc in Hx. split_and!; [done| |].
  - rewrite Hq. unfold p3. simpl. by rewrite <-app_assoc.
  - rewrite <-app_assoc in Hcov. intros e [->|He]%elem_of_cons; [|by apply Hcov].
    intros _. exists (next_state options s entry). split; [set_solver|].
    unfold dominates, cle, depth_of. simpl. rewrite len_app, len_cons, len_nil. fold threshold.
    split_and!; [done|lia|lia].
Qed.

Lemma visit_truncation s entries p p' :
  visit options nodes target s entries p = Ok p' → pr_truncation p' = None → pr_truncation p = None.
Proof using Type.
  revert p. induction entries as [|entry entries IH]; intros p; cbn [visit]; [by intros [= <-]|].
  intros Hv Ht. destruct (_ || _); [by apply IH|].
  destruct (_ <? _)%N; [by injection Hv as <-|].
  destruct (revisits _ _ _); [by apply IH in Hv|].
  destruct (is_some_and _ _); [by apply IH in Hv|].
  destruct (_ && _); [by injection Hv as <-|].
  destruct (nodes !! _); [by apply IH in Hv|done].
Qed.

Lemma propagate_truncation fuel p p' :
  propagate options nodes target adjacency fuel p = Some (Ok p') → pr_truncation p' = None → pr_truncation p = None.
Proof using Type.
  revert p. induction fuel as [|fuel IH]; intros p; cbn [propagate]; [done|].
  destruct (pr_queue p) as [|s q]; [by intros [= <-]|]. intros Hrun Ht.
  destruct (_ =? _)%N; [apply IH in Hrun; [by destruct (existsb _ _)|done]|].
  destruct (visit _ _ _ _ _ _) as [p2|] eqn:Ev; [|done].
  apply visit_truncation in Ev; [done|]. destruct (stopped p2); [by injection Hrun as <-|by apply IH in Hrun].
Qed.

Definition relaxed (gen : list TraversalState) (s : TraversalState) : Prop :=
  ∀ entry, incident edges direction (ts_node_id s) entry → covered gen s entry.

(** At the depth bound nothing is lost unless the bound is reported. *)
Lemma depth_relaxed gen k p s :
  explored gen k p → s ∈ gen →
  existsb (beyond_depth s) (neighbors_of adjacency (ts_node_id s)) = false → relaxed gen s.
Proof.
  intros Hex Hs Hb entry Hi Hp. pose proof (ex_ok _ _ _ Hex s Hs) as Hsok.
  apply existsb_false_In with (x := entry) in Hb; [|by apply build_adjacency_elem].
  unfold beyond_depth in Hb. rewrite Hp, (no_pivot s entry Hsok Hi) in Hb. cbn in Hb.
  apply negb_false_iff, existsb_In in Hb as (st & Hst & E). apply String.eqb_eq in E.
  pose proof (walk_from _ _ _ _ _ _ (so_walk _ _ _ _ _ Hsok) Hst) as Hin. rewrite E in Hin.
  destruct (ex_ancestors _ _ _ Hex s _ Hs Hin) as (y & Hy & ? & Hc & Hd). exists y. split; [done|].
  split_and!; [done| |lia]. unfold cle in *.
  pose proof (cle_max_l (ts_certainty s) (edge_certainty (adj_edge entry) threshold)) as Hm. unfold cle in Hm. lia.
Qed.

Lemma propagate_explored fuel gen k p p' :
  explored gen k p → (∀ s, s ∈ gen → s ∈ pr_queue p ∨ relaxed gen s) →
  propagate options nodes target adjacency fuel p = Some (Ok p') → pr_truncation p' = None →
  ∃ gen' k', explored gen' k' p' ∧ (∀ s, s ∈ gen → s ∈ gen') ∧ ∀ s, s ∈ gen' → relaxed gen' s.
Proof.
  revert gen k p. induction fuel as [|fuel IH]; intros gen k p Hex Hdone; cbn [propagate]; [done|].
  destruct (pr_queue p) as [|s q] eqn:Eq.
  { intros [= <-] _. exists gen, k. split_and!; [done..|]. intros s Hs.
    destruct (Hdone s Hs) as [?%not_elem_of_nil|]; done. }
  destruct (ex_queue _ _ _ Hex s) as [Hs Hk]; [rewrite Eq; set_solver|].
  pose proof (ex_ok _ _ _ Hex s Hs) as Hsok.
  set (p1 := with_queue q p).
  assert (Hex1 : explored gen (depth_of s) p1).
  { destruct Hex as [Hok Hq Hso Hd Hl Hb Ha]. rewrite Eq in Hso. apply StronglySorted_cons in Hso as [Hsq Hso].
    split; cbn [p1 pr_queue pr_best with_queue]; try done.
    - intros x Hx. destruct (Hq x) as [? _]; [rewrite Eq; set_solver|]. split; [done|].
      rewrite Forall_forall in Hsq. by apply Hsq.
    - intros x Hx. specialize (Hd x Hx). lia. }
  intros Hrun Ht. destruct (N.eqb_spec (len (ts_path s)) (opt_max_depth options)) as [Hmax|Hmax].
  - pose proof (propagate_truncation _ _ _ Hrun Ht) as Htp.
    destruct (existsb (beyond_depth s) _) eqn:Ebeyond; [done|].
    apply (IH gen (depth_of s) p1); [done| |done..].
    intros x Hx. destruct (Hdone x Hx) as [[->|?]%elem_of_cons|]; [right; by eapply depth_relaxed|by left|by right].
  - destruct (visit options nodes target s (neighbors_of adjacency (ts_node_id s)) p1) as [p2|] eqn:Ev; [|done].
    assert (Ht2 : pr_truncation p2 = None).
    { destruct (stopped p2); [by injection Hrun as <-|by eapply propagate_truncation]. }
    assert (Hst : stopped p2 = false) by (unfold stopped; by rewrite Ht2). rewrite Hst in Hrun.
    destruct (visit_explored s (neighbors_of adjacency (ts_node_id s)) gen (depth_of s) p1 p2)
      as (_ & new & Hex2 & Hq2 & Hcov); try done.
    { pose proof (so_depth _ _ _ _ _ Hsok). unfold depth_of. lia. }
    { intros entry He. by apply build_adjacency_elem. }
    destruct (IH (gen ++ new) (depth_of s) p2 Hex2) as (gen' & k' & ? & Hsub & ?); try done.
    + intros x [Hx|Hx]%elem_of_app; [|left; rewrite Hq2; set_solver].
      destruct (Hdone x Hx) as [[->|Hin]%elem_of_cons|Hr].
      * right. intros entry Hi. apply Hcov. by apply build_adjacency_elem.
      * left. rewrite Hq2. set_solver.
      * right. intros entry Hi. eapply covered_mono; [|by apply Hr]. set_solver.
    + exists gen', k'. split_and!; [done| |done]. intros x Hx. apply Hsub. set_solver.
Qed.

Lemma start_explored :
  explored (pr_queue (propagation_start target)) 0 (propagation_start target).
Proof.
  assert (Hok : ∀ s, s ∈ pr_queue (propagation_start target) → sok s).
  { intros s Hs. by apply start_state_ok. }
  split; try done.
  - intros s Hs. split; [done|lia].
  - repeat constructor.
  - intros s ->%list_elem_of_singleton. unfold depth_of; simpl. rewrite len_nil. lia.
  - intros s ->%list_elem_of_singleton. cbn. rewrite lookup_singleton_eq. eauto.
  - intros v c d. cbn. rewrite lookup_singleton_Some. intros [<- [= <- <-]]. eexists.
    split; [by apply list_elem_of_singleton|]. unfold dominates, cle, depth_of; cbn. split_and!; done || lia.
  - intros s u ->%list_elem_of_singleton. unfold pnodes, path_nodes; simpl. intros ->%list_elem_of_singleton.
    eexists. split; [by apply list_elem_of_singleton|]. unfold dominates, cle; simpl. split_and!; done || lia.
Qed.

(** Every walk is matched by a label that is no worse. *)
Lemma propagation_optimal p path v :
  propagate options nodes target adjacency (propagation_fuel options) (propagation_start target) = Some (Ok p) →
  pr_truncation p = None → walk edges direction target path v →
  ∃ l, pr_best p !! v = Some l ∧ label_le l (path_certainty threshold path, len path) = true.
Proof.
  intros Hrun Ht Hw.
  destruct (propagate_explored _ _ _ _ _ start_explored (λ s Hs, or_introl Hs) Hrun Ht) as (gen & k & Hex & Hsub & Hrel).
  assert (Hdom : ∃ s, s ∈ gen ∧ dominates s v (path_certainty threshold path) (len path)).
  { induction Hw as [|path v entry Hw IH Hi Hp].
    - eexists. split; [apply Hsub; by apply list_elem_of_singleton|].
      unfold dominates, cle, depth_of; cbn. split_and!; done || lia.
    - destruct IH as (s & Hs & <- & Hc & Hd). destruct (Hrel s Hs entry Hi Hp) as (s' & Hs' & ? & Hc' & Hd').
      exists s'. split; [done|]. split_and!; [done| |].
      + rewrite path_certainty_snoc, step_certainty_entry.
        pose proof (cle_max_mono _ _ (edge_certainty (adj_edge entry) threshold) Hc). unfold cle in *. lia.
      + rewrite len_app, len_cons, len_nil. lia. }
  destruct Hdom as (s & Hs & <- & Hc & Hd). destruct (ex_label _ _ _ Hex s Hs) as (l & Hl & Hle).
  exists l. split; [done|]. eapply label_le_trans; [exact Hle|]. by apply label_le_intro.
Qed.
End optimality.

(** ** The result of [traverse] *)

(** What an item claims about the graph. *)
Record item_sound (request : ImpactRequest) (context : ImpactContext) (nodes : gmap NodeId Node) (target : NodeId)
    (item : ImpactItem) : Prop := {
  is_walk : walk (ctx_edges context) (req_direction request) target (item_path item) (node_id (item_node item));
  is_node : nodes !! node_id (item_node item) = Some (item_node item);
  is_other : node_id (item_node item) ≠ target;
  is_loopfree : NoDup (path_nodes target (item_path item));
  is_pivot_free : pivot_free (item_path item);
  is_depth : item_depth item = len (item_path item) ∧ (item_depth item ≤ opt_max_depth (req_options request))%N;
  is_class : item_classification item =
    classify (path_certainty (opt_confirmed_confidence (req_options request)) (item_path item)) (item_depth item);
  is_evidence : strictly_sorted (item_evidence item) ∧ ∀ x, x ∈ item_evidence item ↔
    ∃ step e, step ∈ item_path item ∧ e ∈ ctx_edges context ∧ edge_id e = step_edge_id step ∧ x ∈ edge_evidence e;
}.

Lemma context_nodes request context nodes v n :
  context_valid request context nodes → nodes !! v = Some n → node_id n = v.
Proof.
  intros [] Hn. subst. apply btree_collect_lookup_Some in Hn.
  apply list_elem_of_In, in_map_iff in Hn as (n' & [= <- <-] & _). done.
Qed.

Lemma traverse_run request context nodes target :
  context_valid request context nodes →
  ∃ p, propagate (req_options request) nodes (node_id target)
      (build_adjacency (ctx_edges context) (req_direction request)) (propagation_fuel (req_options request))
      (propagation_start (node_id target)) = Some (Ok p)
    ∧ propagation_ok (req_options request) nodes (ctx_edges context) (req_direction request) (node_id target) p
    ∧ traverse request context nodes target =
        Some (Ok (btree_values (pr_items p), pr_truncation p, pr_possible p, pr_unknown p)).
Proof.
  intros Hv. pose proof (λ v n, context_nodes _ _ _ v n Hv) as Hn. destruct Hv.
  destruct (propagation_terminates (req_options request) nodes (ctx_edges context) (req_direction request)
    (node_id target)) as (p & Hrun & Hp); try done.
  { intros e He. by destruct (cv_edges0 e He) as [_ ?]. }
  exists p. split_and!; [done..|]. unfold traverse. by rewrite Hrun.
Qed.

Lemma traverse_confirmed request context nodes target items truncation :
  validate_context request context = Ok nodes →
  traverse request context nodes target = Some (Ok (items, truncation, 0%N, 0%N)) →
  ∀ item, item ∈ items → item_classification item = DirectlyDependent ∨ item_classification item = TransitivelyAffected.
Proof.
  intros Hv%validate_context_valid. destruct (traverse_run _ _ _ target Hv) as (p & _ & [_ Hi _ _] & ->).
  intros [= <- _ Hpos Hunk] item (v & Hv')%btree_values_elem_of. destruct (Hi v item Hv') as [s []].
  rewrite io_classification0, io_confirmed0 by done. simpl. case_if; auto.
Qed.

(** C2: Propagation is total and sound. In a valid context it terminates
    within its fuel and without error; it reports at most [node_limit] nodes, one
    item per node, never the target; each item has a real, loop-free chain of
    propagating relationships from the target to its node that never turns around
    inside containment, its depth is the length of that chain and within
    [max_depth], its classification is the weakest certainty of the chain, and
    its evidence is exactly the evidence of the chain's edges. When no possible
    and no unknown edge was counted, every item is confirmed. *)
Theorem traverse_sound (request : ImpactRequest) (context : ImpactContext) (nodes : gmap NodeId Node) (target : Node) :
  validate_context request context = Ok nodes →
  ∃ items truncation possible unknown,
    traverse request context nodes target = Some (Ok (items, truncation, possible, unknown)) ∧
    (len items ≤ opt_node_limit (req_options request))%N ∧
    NoDup (map (λ item, node_id (item_node item)) items) ∧
    (∀ item, item ∈ items → item_sound request context nodes (node_id target) item) ∧
    (possible = 0%N → unknown = 0%N → ∀ item, item ∈ items →
      item_classification item = DirectlyDependent ∨ item_classification item = TransitivelyAffected).
Proof.
  intros Hval. pose proof Hval as Hv%validate_context_valid.
  destruct (traverse_run _ _ _ target Hv) as (p & _ & [_ Hi _ Hs] & Hrun).
  pose proof (λ v n, context_nodes _ _ _ v n Hv) as Hn.
  do 4 eexists. split; [exact Hrun|]. split_and!.
  - unfold len. by rewrite btree_values_length.
  - assert (Heq : map (λ item, node_id (item_node item)) (btree_values (pr_items p)) = (btree_entries (pr_items p)).*1).
    { unfold btree_values. rewrite map_map. apply map_ext_in. intros [v item] Hin. simpl.
      apply list_elem_of_In, btree_entries_elem_of in Hin. destruct (Hi v item Hin) as [s []]. by apply Hn. }
    rewrite Heq. apply btree_entries_keys_NoDup.
  - intros item (v & Hv')%btree_values_elem_of. destruct (Hi v item Hv') as [s [Hok Hid Ht Hnode Hp Hd Hc He _ _]].
    pose proof (Hn _ _ Hnode) as Hnid. destruct Hok as [Hw Hcert Hev Hlf Hpf Hdep].
    split; rewrite ?Hnid, ?Hp, ?Hd; try done.
    + by rewrite <-Hid.
    + by rewrite Hc, Hcert.
    + rewrite He. split; [apply bset_elements_strict|]. intros x. rewrite bset_elements_elem_of. apply Hev.
  - intros Hpos Hunk. rewrite Hpos, Hunk in Hrun. by apply (traverse_confirmed _ _ _ _ _ _ Hval Hrun).
Qed.

(** C1: Propagation in one direction is complete and optimal. When nothing
    was truncated, every node that some chain of propagating relationships
    reaches is reported, and its item is at least as certain, and as near among
    the equally certain, as any such chain. *)
Theorem traverse_optimal (request : ImpactRequest) (context : ImpactContext) (nodes : gmap NodeId Node) (target : Node)
    (items : list ImpactItem) (possible unknown : N) (path : list ImpactPathStep) (v : NodeId) :
  validate_context request context = Ok nodes → req_direction request ≠ Both →
  traverse request context nodes target = Some (Ok (items, None, possible, unknown)) →
  walk (ctx_edges context) (req_direction request) (node_id target) path v → v ≠ node_id target →
  let threshold := opt_confirmed_confidence (req_options request) in
  ∃ item, item ∈ items ∧ node_id (item_node item) = v ∧
    label_le (path_certainty threshold (item_path item), item_depth item) (path_certainty threshold path, len path) = true.
Proof.
  intros Hv%validate_context_valid Hdir Hrun Hw Hne threshold.
  destruct (traverse_run _ _ _ target Hv) as (p & Hp & [_ Hi Hb _] & Ht).
  pose proof (λ v n, context_nodes _ _ _ v n Hv) as Hn. rewrite Ht in Hrun. injection Hrun as <- Htr _ _.
  assert (Hends : ∀ e, e ∈ ctx_edges context → is_Some (nodes !! edge_source e) ∧ is_Some (nodes !! edge_target e)).
  { intros e He. by apply (cv_edges _ _ _ Hv). }
  destruct (propagation_optimal _ _ _ _ _ Hends (cv_edge_ids _ _ _ Hv) (cv_bounds _ _ _ Hv) Hdir p path v Hp Htr Hw)
    as (l & Hl & Hle).
  destruct (proj1 (Hb v) (ex_intro _ _ Hl)) as [?|[item Hitem]]; [done|].
  exists item. destruct (Hi v item Hitem) as [s [Hok _ _ Hnode Hpath Hdep _ _ Hbest _]].
  split_and!; [apply btree_values_elem_of; eauto|by apply Hn|].
  rewrite Hpath, Hdep. unfold threshold in *. rewrite <-(so_certainty _ _ _ _ _ Hok).
  replace (ts_certainty s, len (ts_path s)) with l by congruence. done.
Qed.

(** The target is resolved exactly: by identifier when the node exists, by
    stable key when exactly one node has it; otherwise the selector is unknown
    or ambiguous. *)
Theorem resolve_target_exact (selector : ImpactTarget) (nodes : gmap NodeId Node) :
  match selector with
  | Target_NodeId v =>
      match resolve_target selector nodes with
      | Ok t => nodes !! v = Some (rt_node t)
      | Err e => e = UnknownTarget ∧ nodes !! v = None
      end
  | Target_StableKey key =>
      match resolve_target selector nodes with
      | Ok t => (∃ v, nodes !! v = Some (rt_node t)) ∧ node_stable_key (rt_node t) = key ∧
          ∀ v n, nodes !! v = Some n → node_stable_key n = key → n = rt_node t
      | Err UnknownTarget => ∀ v n, nodes !! v = Some n → node_stable_key n ≠ key
      | Err (AmbiguousTarget k) => k = key ∧ ∃ v w n m, v ≠ w ∧ nodes !! v = Some n ∧ nodes !! w = Some m
          ∧ node_stable_key n = key ∧ node_stable_key m = key
      | Err _ => False
      end
  end.
Proof.
  destruct selector as [v|key]; simpl.
  - by destruct (nodes !! v).
  - set (named := List.filter _ _).
    assert (Hin : ∀ n, n ∈ named ↔ (∃ v, nodes !! v = Some n) ∧ node_stable_key n = key).
    { intros n. unfold named. by rewrite list_filter_In, btree_values_elem_of, String.eqb_eq. }
    destruct named as [|a [|b l]] eqn:E; simpl.
    + intros v n Hv Hk. assert (n ∈ @nil Node) as ?%not_elem_of_nil; [|done]. apply Hin. eauto.
    + destruct (proj1 (Hin a)) as [? ?]; [set_solver|]. split_and!; [done..|].
      intros v n Hv Hk. assert (n ∈ [a]) as ?%list_elem_of_singleton; [|done]. apply Hin. eauto.
    + split; [done|]. assert (Hsub : sublist [a; b] (List.filter (λ node, String.eqb (node_stable_key node) key) (btree_values nodes))).
      { fold named. rewrite E. apply sublist_skip, sublist_skip. apply sublist_nil_l. }
      unfold btree_values in Hsub.
      assert (Hpair : ∃ v w, v ≠ w ∧ nodes !! v = Some a ∧ nodes !! w = Some b).
      { clear -Hsub. pose proof (btree_entries_keys_NoDup nodes) as Hnd.
        assert (Hmem : ∀ v n, (v, n) ∈ btree_entries nodes → nodes !! v = Some n) by (intros; by apply btree_entries_elem_of).
        revert Hsub Hnd Hmem. generalize (btree_entries nodes) as es. intros es.
        induction es as [|[v n] es IH]; simpl; intros Hsub Hnd Hmem; [by apply sublist_nil_r in Hsub|].
        apply NoDup_cons in Hnd as [Hnew Hnd].
        destruct (String.eqb (node_stable_key n) key).
        - apply sublist_cons_r in Hsub as [Hsub|(l' & [= <- <-] & Hsub)].
          + apply IH; [done..|]. intros. apply Hmem. set_solver.
          + apply sublist_cons_l in Hsub as (l1 & l2 & Hl & _).
            assert (Hb : b ∈ List.filter (λ node, String.eqb (node_stable_key node) key) (map snd es)) by (rewrite Hl; set_solver).
            apply list_filter_In in Hb as [Hb _]. apply list_elem_of_In, in_map_iff in Hb as ([w m] & <- & Hb).
            apply list_elem_of_In in Hb. exists v, w. split_and!; [|apply Hmem; set_solver..].
            intros ->. apply Hnew. apply list_elem_of_In, in_map_iff. exists (w, m). split; [done|]. by apply list_elem_of_In.
        - apply IH; [done..|]. intros. apply Hmem. set_solver. }
      destruct Hpair as (v & w & ? & ? & ?). exists v, w, a, b.
      destruct (proj1 (Hin a)) as [_ ?]; [set_solver|]. destruct (proj1 (Hin b)) as [_ ?]; [set_solver|]. by split_and!.
Qed.

(** ** Small graphs *)
Module Example_impact.
Definition node (id : string) : Node :=
  {| node_id := id; node_kind := NK_Service; node_repo_id := Some ("repo-" +:+ id); node_stable_key := "svc:" +:+ id;
     node_label := id |}.
Definition edge (id source target : string) (kind : EdgeKind) (status : EpistemicStatus) : Edge :=
  {| edge_id := id; edge_source := source; edge_target := target; edge_kind := kind; edge_confidence := f32_one;
     edge_status := status; edge_evidence := ["ev-" +:+ id] |}.
Definition context (edges : list Edge) : ImpactContext :=
  {| ctx_nodes := map node ["t"; "u"; "w"; "x"]; ctx_edges := edges; ctx_communities := None; ctx_freshness := [];
     ctx_compatibility := []; ctx_local_enrichment := []; ctx_public_contracts := []; ctx_criticality := [];
     ctx_centrality := ∅; ctx_service_memberships := ∅; ctx_environments := []; ctx_recommended_commands := [];
     ctx_graph_complete := true; ctx_coverage_gaps := [] |}.
Definition request (direction : ImpactDirection) : ImpactRequest :=
  {| req_target := Target_NodeId "t"; req_direction := direction;
     req_options := {| opt_max_depth := 4; opt_node_limit := 10; opt_edge_limit := 20;
       opt_confirmed_confidence := default_confirmed_confidence; opt_offset := 0; opt_limit := 10;
       opt_summary_only := false; opt_include_depth_buckets := true |} |}.
Definition nodes_of (edges : list Edge) : gmap NodeId Node :=
  btree_collect (map (λ n, (node_id n, n)) (ctx_nodes (context edges))).

(** A short inferred way to [x] and a longer confirmed one. *)
Definition calls : list Edge :=
  [edge "1" "t" "x" CallsRemote Inferred; edge "2" "t" "u" CallsRemote Confirmed;
   edge "3" "u" "x" DependsOnPackage Confirmed; edge "4" "x" "w" OwnedBy Confirmed].

Definition summary (r : option (result ImpactError (list ImpactItem * option TruncationInfo * N * N)))
    : option (list (string * ImpactClassification * N) * bool) :=
  match r with
  | Some (Ok (items, truncation, _, _)) =>
      Some (map (λ i, (node_id (item_node i), item_classification i, item_depth i)) items,
            bool_decide (truncation = None))
  | _ => None
  end.

Example calls_impact :
  summary (traverse (request Downstream) (context calls) (nodes_of calls) (node "t")) =
  Some ([("u", DirectlyDependent, 1%N); ("x", TransitivelyAffected, 2%N)], true).
Proof. vm_compute. reflexivity. Qed.

Lemma traverse_sound_witness :
  validate_context (request Downstream) (context calls) = Ok (nodes_of calls) ∧
  ∃ items truncation possible unknown,
    traverse (request Downstream) (context calls) (nodes_of calls) (node "t")
      = Some (Ok (items, truncation, possible, unknown)) ∧ (len items ≤ 10)%N.
Proof.
  split; [vm_compute; reflexivity|].
  destruct (traverse_sound (request Downstream) (context calls) (nodes_of calls) (node "t"))
    as (items & truncation & possible & unknown & Hrun & Hlen & _); [vm_compute; reflexivity|].
  exists items, truncation, possible, unknown. split; [exact Hrun|exact Hlen].
Defined.

Definition direct_step : ImpactPathStep :=
  path_step "t" {| adj_neighbor := "x"; adj_edge := edge "1" "t" "x" CallsRemote Inferred; adj_reversed := false |}.

Lemma direct_walk : walk calls Downstream "t" [direct_step] "x".
Proof.
  apply (walk_snoc calls Downstream "t" [] "t"
    {| adj_neighbor := "x"; adj_edge := edge "1" "t" "x" CallsRemote Inferred; adj_reversed := false |}).
  - constructor.
  - split; [by left|]. by left.
  - done.
Qed.

Lemma traverse_optimal_witness :
  ∃ items possible unknown,
    traverse (request Downstream) (context calls) (nodes_of calls) (node "t") = Some (Ok (items, None, possible, unknown)) ∧
    ∃ item, item ∈ items ∧ node_id (item_node item) = "x" ∧
      label_le (path_certainty default_confirmed_confidence (item_path item), item_depth item) (PC_Possible, 1%N) = true.
Proof.
  destruct (traverse (request Downstream) (context calls) (nodes_of calls) (node "t"))
    as [[[[[items [t|]] possible] unknown]|e]|] eqn:E; try (vm_compute in E; discriminate E).
  exists items, possible, unknown. split; [reflexivity|].
  apply (traverse_optimal (request Downstream) (context calls) (nodes_of calls) (node "t")
    items possible unknown [direct_step] "x").
  - vm_compute. reflexivity.
  - discriminate.
  - exact E.
  - exact direct_walk.
  - discriminate.
Defined.

Definition nested (contains_id depends_id : string) : list Edge :=
  [edge contains_id "t" "u" Contains Confirmed; edge depends_id "t" "u" DependsOnRepository Confirmed;
   edge "3" "w" "u" Contains Confirmed].

(** In both directions the rule against turning around inside containment
    depends on which of two equal paths was kept: [w] is reached or missed
    according to the identifiers of two parallel edges, and nothing is reported
    as truncated. *)
Lemma both_directions_depend_on_ids :
  summary (traverse (request Both) (context (nested "1" "2")) (nodes_of (nested "1" "2")) (node "t")) =
    Some ([("u", DirectlyDependent, 1%N)], true) ∧
  summary (traverse (request Both) (context (nested "2" "1")) (nodes_of (nested "2" "1")) (node "t")) =
    Some ([("u", DirectlyDependent, 1%N); ("w", TransitivelyAffected, 2%N)], true).
Proof. split; vm_compute; reflexivity. Qed.
End Example_impact.
