(* ===== verification/ImpactRisk.v ===== *)
(** * Impact aggregates and risk ([crates/code-system-graph-core/src/impact.rs])

    The aggregates of the affected items, the coverage summary, the risk model
    and the complete analysis. *)
From Stdlib Require Import SpecFloat.
From stdpp Require Import base gmap sets list strings pretty sorting.
From S2P Require Import Prelude RustOrd RustFloat RustStr Model Impact.

Definition RISK_MODEL_VERSION : string := "1.0.0".

Inductive RiskLevel := Low | Medium | High | Critical | Unknown.
#[export] Instance RiskLevel_eq_dec : EqDecision RiskLevel.
Proof. solve_decision. Defined.

Record RiskFactor := {
  factor_code : string;
  factor_weight : f32;
  factor_explanation : string;
  factor_evidence : list string;
}.

Record RepositoryImpact := {
  ri_repo_id : RepoId;
  ri_classification : ImpactClassification;
  ri_minimum_depth : N;
  ri_affected_nodes : N;
}.

Record ServiceImpact := {
  si_service : Node;
  si_classification : ImpactClassification;
  si_minimum_depth : N;
  si_affected_nodes : N;
}.

Record ContractImpact := {
  co_contract : Node;
  co_classification : ImpactClassification;
  co_depth : N;
  co_public : bool;
}.

Record CommunityImpact := {
  cm_community_id : CommunityId;
  cm_label : string;
  cm_classification : ImpactClassification;
  cm_affected_members : N;
  cm_impact_coupling : f64;
  cm_limitations : list string;
}.

Record LocalImpactSummary := {
  ls_repo_id : RepoId;
  ls_anchor : string;
  ls_status : LocalEnrichmentStatus;
  ls_affected_count : N;
  ls_maximum_depth : N;
  ls_truncated : bool;
  ls_degradations : list string;
}.

Inductive TestRecommendationSource := TR_Graph | TR_LocalEnrichment.

Record TestRecommendation := {
  rec_test_node_id : option NodeId;
  rec_test : string;
  rec_repo_id : option RepoId;
  rec_source : TestRecommendationSource;
  rec_rank : N;
  rec_reasons : list string;
  rec_owners : list Node;
  rec_recommended_commands : list string;
}.

Record CoverageSummary := {
  cvs_sufficient_for_score : bool;
  cvs_relevant_repositories : list RepoId;
  cvs_fresh_repositories : list RepoId;
  cvs_stale_repositories : list RepoId;
  cvs_partial_repositories : list RepoId;
  cvs_unavailable_repositories : list RepoId;
  cvs_missing_repositories : list RepoId;
  cvs_possible_edges : N;
  cvs_unknown_edges : N;
  cvs_gaps : list string;
  cvs_remediation : list string;
  cvs_total_items : N;
}.

Record ImpactDepthBucket := {
  db_depth : N;
  db_directly_dependent : N;
  db_transitively_affected : N;
  db_possibly_affected : N;
  db_unknown_due_to_coverage : N;
}.

Record ImpactReport := {
  rep_risk_model_version : string;
  rep_target : ResolvedTarget;
  rep_direction : ImpactDirection;
  rep_risk : RiskLevel;
  rep_risk_score : option f32;
  rep_reasons : list RiskFactor;
  rep_direct_consumers : list ImpactItem;
  rep_transitive_consumers : list ImpactItem;
  rep_possibly_affected : list ImpactItem;
  rep_unknown_due_to_coverage : list ImpactItem;
  rep_affected_repositories : list RepositoryImpact;
  rep_affected_services : list ServiceImpact;
  rep_affected_contracts : list ContractImpact;
  rep_affected_communities : list CommunityImpact;
  rep_local_impact_summaries : list LocalImpactSummary;
  rep_test_recommendations : list TestRecommendation;
  rep_depth_buckets : list ImpactDepthBucket;
  rep_coverage : CoverageSummary;
  rep_truncation : option TruncationInfo;
}.

(** ** Order of the items *)
Definition classification_rank (c : ImpactClassification) : N :=
  match c with
  | DirectlyDependent => 0 | TransitivelyAffected => 1 | PossiblyAffected => 2 | UnknownDueToCoverage => 3
  end.

Definition stronger (left right : ImpactClassification) : ImpactClassification :=
  if (classification_rank left <=? classification_rank right)%N then left else right.

Definition path_key (path : list ImpactPathStep) : list (string * bool) :=
  map (λ step, (step_edge_id step, step_reversed step)) path.

Definition item_cmp : ImpactItem → ImpactItem → comparison :=
  then_with (cmp_on (λ i, classification_rank (item_classification i)) cmp)
  (then_with (cmp_on item_depth cmp)
  (then_with (cmp_on (λ i, node_repo_id (item_node i)) cmp)
  (then_with (cmp_on (λ i, node_stable_key (item_node i)) cmp)
  (then_with (cmp_on (λ i, node_id (item_node i)) cmp)
             (cmp_on (λ i, path_key (item_path i)) cmp))))).

Definition sort_items (items : list ImpactItem) : list ImpactItem := sort_by item_cmp items.

(** ** Aggregates *)
Record Aggregate := {
  ag_classification : ImpactClassification;
  ag_minimum_depth : N;
  ag_affected_nodes : N;
}.

Definition update_aggregate (aggregates : gmap string Aggregate) (key : string) (item : ImpactItem)
    : gmap string Aggregate :=
  <[key :=
      match aggregates !! key with
      | Some aggregate =>
          {| ag_classification := stronger (ag_classification aggregate) (item_classification item);
             ag_minimum_depth := N.min (ag_minimum_depth aggregate) (item_depth item);
             ag_affected_nodes := saturating_add (ag_affected_nodes aggregate) 1 |}
      | None =>
          {| ag_classification := item_classification item; ag_minimum_depth := item_depth item;
             ag_affected_nodes := 1 |}
      end]> aggregates.

Definition aggregate_repositories (items : list ImpactItem) : list RepositoryImpact :=
  let aggregates :=
    foldl (λ aggregates item,
      match node_repo_id (item_node item) with
      | Some repo_id => update_aggregate aggregates repo_id item
      | None => aggregates
      end) ∅ items in
  map (λ e : string * Aggregate,
    {| ri_repo_id := e.1; ri_classification := ag_classification e.2; ri_minimum_depth := ag_minimum_depth e.2;
       ri_affected_nodes := ag_affected_nodes e.2 |}) (btree_entries aggregates).

Definition add_service_item (context : ImpactContext) (aggregates : gmap string Aggregate) (item : ImpactItem)
    : gmap string Aggregate :=
  let aggregates :=
    if bool_decide (node_kind (item_node item) = NK_Service)
    then update_aggregate aggregates (node_id (item_node item)) item else aggregates in
  match ctx_service_memberships context !! node_id (item_node item) with
  | Some service_ids => foldl (λ aggregates service_id, update_aggregate aggregates service_id item) aggregates service_ids
  | None => aggregates
  end.

Definition aggregate_services (items : list ImpactItem) (context : ImpactContext) (nodes : gmap NodeId Node)
    : list ServiceImpact :=
  omap (λ e : string * Aggregate,
    (λ service, {| si_service := service; si_classification := ag_classification e.2;
                   si_minimum_depth := ag_minimum_depth e.2; si_affected_nodes := ag_affected_nodes e.2 |})
    <$> nodes !! e.1) (btree_entries (foldl (add_service_item context) ∅ items)).

Definition is_contract (kind : NodeKind) : bool :=
  match kind with
  | NK_HttpOperation | NK_GraphqlOperation | NK_RpcMethod | NK_EventChannel | NK_EventSchema | NK_DatabaseTable
  | NK_DatabaseColumn | NK_ConfigKey => true
  | _ => false
  end.

Definition aggregate_contracts (items : list ImpactItem) (context : ImpactContext) : list ContractImpact :=
  let public : gset string := bset_collect (ctx_public_contracts context) in
  map (λ item,
    {| co_contract := item_node item; co_classification := item_classification item; co_depth := item_depth item;
       co_public := bool_decide (node_id (item_node item) ∈ public) |})
    (List.filter (λ item, is_contract (node_kind (item_node item))) items).

(** Items by node identifier. *)
Definition impacted_items (items : list ImpactItem) : gmap NodeId ImpactItem :=
  btree_collect (map (λ item, (node_id (item_node item), item)) items).

Definition add_member (impacted : gmap NodeId ImpactItem) (aggregate : option Aggregate) (member : NodeId) : option Aggregate :=
  match impacted !! member with
  | None => aggregate
  | Some item =>
      let current := default {| ag_classification := item_classification item; ag_minimum_depth := item_depth item;
                                ag_affected_nodes := 0 |} aggregate in
      Some {| ag_classification := stronger (ag_classification current) (item_classification item);
              ag_minimum_depth := N.min (ag_minimum_depth current) (item_depth item);
              ag_affected_nodes := saturating_add (ag_affected_nodes current) 1 |}
  end.

Definition community_impact (impacted : gmap NodeId ImpactItem) (community : Community) : option CommunityImpact :=
  (λ aggregate,
    {| cm_community_id := com_id community; cm_label := com_label community;
       cm_classification := ag_classification aggregate; cm_affected_members := ag_affected_nodes aggregate;
       cm_impact_coupling := cm_coupling (com_metrics community); cm_limitations := com_limitations community |})
  <$> foldl (add_member impacted) None (com_members community).

Definition aggregate_communities (items : list ImpactItem) (context : ImpactContext) : list CommunityImpact :=
  match ctx_communities context with
  | None => []
  | Some snapshot =>
      sort_by (cmp_on cm_community_id cmp) (omap (community_impact (impacted_items items)) (snap_communities snapshot))
  end.

Definition summarize_local_enrichment (context : ImpactContext) : list LocalImpactSummary :=
  sort_by (then_with (cmp_on ls_repo_id cmp) (cmp_on ls_anchor cmp))
    (map (λ input,
      {| ls_repo_id := le_repo_id input; ls_anchor := le_anchor input; ls_status := le_status input;
         ls_affected_count := len (le_affected input);
         ls_maximum_depth := foldr N.max 0%N (map li_depth (le_affected input));
         ls_truncated := le_truncated input; ls_degradations := sorted_unique (le_degradations input) |})
      (ctx_local_enrichment context)).

(** ** Tests *)
Definition test_source_rank (source : TestRecommendationSource) : N :=
  match source with TR_Graph => 0 | TR_LocalEnrichment => 1 end.

Definition has_kind (nodes : gmap NodeId Node) (kind : NodeKind) (id : NodeId) : bool :=
  is_some_and (nodes !! id) (λ node, bool_decide (node_kind node = kind)).

Definition owners_for (test_id validated_id : NodeId) (context : ImpactContext) (nodes : gmap NodeId Node) : list Node :=
  let owner_ids : gset string := bset_collect (map edge_target (List.filter (λ edge,
    bool_decide (edge_kind edge = OwnedBy)
    && (String.eqb (edge_source edge) test_id || String.eqb (edge_source edge) validated_id)
    && has_kind nodes NK_Owner (edge_target edge)) (ctx_edges context))) in
  omap (λ owner_id, nodes !! owner_id) (bset_elements owner_ids).

Definition commands_for (repo_id : option RepoId) (context : ImpactContext) : list string :=
  sorted_unique (map cmd_command (List.filter (λ command,
    is_some_and repo_id (λ repo, String.eqb repo (cmd_repo_id command))) (ctx_recommended_commands context))).

Definition graph_recommendation (impacted : gmap NodeId ImpactItem) (context : ImpactContext) (nodes : gmap NodeId Node)
    (edge : Edge) : option TestRecommendation :=
  if negb (bool_decide (edge_kind edge = Validates)) then None
  else
    let endpoints :=
      if has_kind nodes NK_TestCase (edge_source edge) then Some (edge_source edge, edge_target edge)
      else if has_kind nodes NK_TestCase (edge_target edge) then Some (edge_target edge, edge_source edge)
      else None in
    match endpoints with
    | None => None
    | Some (test_id, validated_id) =>
        match impacted !! validated_id, nodes !! test_id with
        | Some item, Some test =>
            Some {| rec_test_node_id := Some (node_id test); rec_test := node_label test; rec_repo_id := node_repo_id test;
                    rec_source := TR_Graph; rec_rank := 0;
                    rec_reasons := ["validates impacted node `" +:+ node_stable_key (item_node item) +:+ "` at depth "
                                    +:+ pretty (item_depth item)];
                    rec_owners := owners_for (node_id test) validated_id context nodes;
                    rec_recommended_commands := commands_for (node_repo_id test) context |}
        | _, _ => None
        end
    end.

Definition local_recommendations (context : ImpactContext) (local : LocalEnrichmentInput) : list TestRecommendation :=
  map (λ test,
    {| rec_test_node_id := None; rec_test := test; rec_repo_id := Some (le_repo_id local);
       rec_source := TR_LocalEnrichment; rec_rank := 0;
       rec_reasons := ["optional local enrichment for anchor `" +:+ le_anchor local +:+ "` reported this test"];
       rec_owners := []; rec_recommended_commands := commands_for (Some (le_repo_id local)) context |})
    (le_affected_tests local).

Definition recommendation_cmp : TestRecommendation → TestRecommendation → comparison :=
  then_with (cmp_on (λ r, test_source_rank (rec_source r)) cmp)
  (then_with (cmp_on rec_repo_id cmp) (then_with (cmp_on rec_test cmp) (cmp_on rec_test_node_id cmp))).

Definition same_test (left right : TestRecommendation) : bool :=
  bool_decide (rec_test_node_id left = rec_test_node_id right) && bool_decide (rec_repo_id left = rec_repo_id right)
  && bool_decide (rec_test left = rec_test right).

Definition set_rank (rank : N) (r : TestRecommendation) : TestRecommendation :=
  {| rec_test_node_id := rec_test_node_id r; rec_test := rec_test r; rec_repo_id := rec_repo_id r;
     rec_source := rec_source r; rec_rank := rank; rec_reasons := rec_reasons r; rec_owners := rec_owners r;
     rec_recommended_commands := rec_recommended_commands r |}.

Definition recommend_tests (items : list ImpactItem) (context : ImpactContext) (nodes : gmap NodeId Node)
    : list TestRecommendation :=
  let recommendations :=
    omap (graph_recommendation (impacted_items items) context nodes) (ctx_edges context)
    ++ flat_map (local_recommendations context) (ctx_local_enrichment context) in
  imap (λ index r, set_rank (saturating_add (N.of_nat index) 1) r)
    (dedup_by same_test (sort_by recommendation_cmp recommendations)).

(** ** Depth buckets *)
Definition empty_bucket (depth : N) : ImpactDepthBucket :=
  {| db_depth := depth; db_directly_dependent := 0; db_transitively_affected := 0; db_possibly_affected := 0;
     db_unknown_due_to_coverage := 0 |}.

Definition count_item (bucket : ImpactDepthBucket) (c : ImpactClassification) : ImpactDepthBucket :=
  let bump (k : ImpactClassification) (n : N) := if bool_decide (c = k) then saturating_add n 1 else n in
  {| db_depth := db_depth bucket;
     db_directly_dependent := bump DirectlyDependent (db_directly_dependent bucket);
     db_transitively_affected := bump TransitivelyAffected (db_transitively_affected bucket);
     db_possibly_affected := bump PossiblyAffected (db_possibly_affected bucket);
     db_unknown_due_to_coverage := bump UnknownDueToCoverage (db_unknown_due_to_coverage bucket) |}.

Definition build_depth_buckets (items : list ImpactItem) : list ImpactDepthBucket :=
  btree_values (foldl (λ (buckets : gmap N ImpactDepthBucket) item,
    <[item_depth item :=
        count_item (default (empty_bucket (item_depth item)) (buckets !! item_depth item)) (item_classification item)]>
      buckets) ∅ items).

(** ** Coverage *)
Definition freshness_of (context : ImpactContext) : gmap RepoId RepoFreshnessState :=
  btree_collect (map (λ record, (rf_repo_id record, rf_state record)) (ctx_freshness context)).

Inductive FreshnessClass := FC_Fresh | FC_Stale | FC_Partial | FC_Unavailable | FC_Missing.
#[export] Instance FreshnessClass_eq_dec : EqDecision FreshnessClass.
Proof. solve_decision. Defined.

(** The arms of the [match] over a repository's freshness. *)
Definition freshness_class (state : option RepoFreshnessState) : FreshnessClass :=
  match state with
  | Some RF_Fresh => FC_Fresh
  | Some (RF_WorkingTreeChanged | RF_CommitsBehind | RF_ConfigChanged | RF_ExtractorChanged | RF_CodegraphPending) =>
      FC_Stale
  | Some RF_Partial => FC_Partial
  | Some (RF_Unavailable | RF_Corrupt) => FC_Unavailable
  | Some RF_Unknown | None => FC_Missing
  end.

Definition relevant_repositories (target : Node) (items : list ImpactItem) : gset RepoId :=
  bset_collect (omap (λ item, node_repo_id (item_node item)) items)
  ∪ bset_collect (option_list (node_repo_id target)).

Definition enrichment_status_debug (s : LocalEnrichmentStatus) : string :=
  match s with
  | LE_Available => "Available" | LE_Partial => "Partial" | LE_Stale => "Stale" | LE_Unavailable => "Unavailable"
  end.

Definition enrichment_complete (local : LocalEnrichmentInput) : bool :=
  bool_decide (le_status local = LE_Available) && negb (le_truncated local).

Definition impacted_ids (target : Node) (items : list ImpactItem) : gset NodeId :=
  bset_collect (map (λ item, node_id (item_node item)) items ++ [node_id target]).

(** A gap and its remediation, when the condition holds. *)
Definition gap_when (b : bool) (gap remediation : string) : list string * list string :=
  if b then ([gap], [remediation]) else ([], []).

Definition coverage_summary (target : Node) (items : list ImpactItem) (context : ImpactContext)
    (truncation : option TruncationInfo) (possible_edges unknown_edges : N) : CoverageSummary :=
  let relevant := bset_elements (relevant_repositories target items) in
  let freshness := freshness_of context in
  let in_class c := List.filter (λ repo, bool_decide (freshness_class (freshness !! repo) = c)) relevant in
  let stale := in_class FC_Stale in
  let partial := in_class FC_Partial in
  let unavailable := in_class FC_Unavailable in
  let missing := in_class FC_Missing in
  let unknown_compatibility :=
    List.filter (λ input, bool_decide (ci_contract_node_id input ∈ impacted_ids target items)
                          && bool_decide (ci_status input = Compat_Unknown)) (ctx_compatibility context) in
  let incomplete_local := List.filter (λ local, negb (enrichment_complete local)) (ctx_local_enrichment context) in
  let gaps :=
    [(ctx_coverage_gaps context,
      if bool_decide (ctx_coverage_gaps context = []) then []
      else ["resolve each caller-supplied coverage gap and rerun analysis"]);
     gap_when (negb (ctx_graph_complete context)) "federated graph extraction or linking is incomplete"
       "complete a fresh workspace scan and relink the graph";
     gap_when (negb (is_empty_list stale)) "one or more relevant repositories are stale"
       "rescan stale repositories at their current revisions";
     gap_when (negb (is_empty_list partial)) "one or more relevant repositories have partial coverage"
       "resolve extractor limitations and complete partial scans";
     gap_when (negb (is_empty_list unavailable)) "one or more relevant repositories are unavailable or corrupt"
       "restore unavailable repositories or valid graph snapshots";
     gap_when (negb (is_empty_list missing)) "freshness is missing or unknown for relevant repositories"
       "record current freshness for every relevant repository";
     gap_when (0 <? possible_edges)%N "candidate, inferred, ambiguous, or low-confidence relationships were used"
       "corroborate candidate relationships with direct evidence";
     gap_when (0 <? unknown_edges)%N "stale or incomplete relationships were used"
       "refresh or complete evidence for coverage-unknown relationships"]
    ++ map (λ input,
         (["compatibility is unknown for contract node `" +:+ ci_contract_node_id input +:+ "`"],
          ci_recommended_validations input)) unknown_compatibility
    ++ map (λ local,
         (["local enrichment for repository `" +:+ le_repo_id local +:+ "` is "
           +:+ enrichment_status_debug (le_status local) +:+ (if le_truncated local then " and truncated" else "")],
          le_degradations local)) incomplete_local
    ++ [gap_when (is_some truncation) "configured traversal bounds truncated impact analysis"
          "increase impact bounds or narrow the target scope"] in
  {| cvs_sufficient_for_score :=
       ctx_graph_complete context && is_empty_list stale && is_empty_list partial && is_empty_list unavailable
       && is_empty_list missing && (possible_edges =? 0)%N && (unknown_edges =? 0)%N
       && is_empty_list unknown_compatibility && negb (is_some truncation)
       && forallb enrichment_complete (ctx_local_enrichment context)
       && is_empty_list (ctx_coverage_gaps context);
     cvs_relevant_repositories := relevant;
     cvs_fresh_repositories := in_class FC_Fresh;
     cvs_stale_repositories := stale;
     cvs_partial_repositories := partial;
     cvs_unavailable_repositories := unavailable;
     cvs_missing_repositories := missing;
     cvs_possible_edges := possible_edges;
     cvs_unknown_edges := unknown_edges;
     cvs_gaps := sorted_unique (flat_map fst gaps);
     cvs_remediation := sorted_unique (flat_map snd gaps);
     cvs_total_items := len items |}.

(** ** Risk factors *)
Definition usize_to_f32 (value : N) : f32 := f32_of_u16 (if (value <=? 65535)%N then value else 65535%N).

Definition factor (code : string) (weight : f32) (explanation : string) (evidence : list string) : RiskFactor :=
  {| factor_code := code; factor_weight := weight; factor_explanation := explanation;
     factor_evidence := sorted_unique evidence |}.

(** [if condition { push_factor(...) }] *)
Definition factor_when (b : bool) (f : RiskFactor) : list RiskFactor := if b then [f] else [].

(** [usize_to_f32(count).mul_add(rate, 0.0).min(cap)] *)
Definition capped (count : N) (rate cap : f32) : f32 := f_min (f32_mul_add (usize_to_f32 count) rate f_zero) cap.

Definition f32_int (n : Z) : f32 := f32_lit n 0.

Definition direct_evidence (items : list ImpactItem) : list string :=
  sorted_unique (flat_map item_evidence
    (List.filter (λ item, bool_decide (item_classification item = DirectlyDependent)) items)).

Definition compatibility_factor (input : CompatibilityInput) : list RiskFactor :=
  match ci_status input with
  | Breaking =>
      [factor "breaking_compatibility" (f32_int 30) "a compatibility engine reported a breaking contract change"
         (ci_evidence input)]
  | PotentiallyBreaking =>
      [factor "potentially_breaking_compatibility" (f32_int 18)
         "a compatibility engine reported a potentially breaking change" (ci_evidence input)]
  | Compatible => []
  | Compat_Unknown =>
      [factor "compatibility_unknown" f_zero "compatibility coverage is unknown"
         (ci_evidence input ++ ci_recommended_validations input)]
  end.

Definition add_compatibility_factors (impacted : gset NodeId) (context : ImpactContext) : list RiskFactor :=
  flat_map compatibility_factor
    (List.filter (λ input, bool_decide (ci_contract_node_id input ∈ impacted)) (ctx_compatibility context)).

Definition tag_code (t : CriticalityTag) : string * Z :=
  match t with
  | Tag_Critical => ("critical_tag", 55%Z)
  | Tag_Authentication => ("authentication_tag", 35%Z)
  | Tag_Security => ("security_tag", 50%Z)
  | Tag_Payment => ("payment_tag", 50%Z)
  | Tag_DataBoundary => ("data_boundary_tag", 45%Z)
  end.

Definition tag_debug (t : CriticalityTag) : string :=
  match t with
  | Tag_Critical => "Critical" | Tag_Authentication => "Authentication" | Tag_Security => "Security"
  | Tag_Payment => "Payment" | Tag_DataBoundary => "DataBoundary"
  end.

Definition criticality_factor (assignment : CriticalityAssignment) : RiskFactor :=
  factor (tag_code (ca_tag assignment)).1 (f32_int (tag_code (ca_tag assignment)).2)
    ("explicit " +:+ tag_debug (ca_tag assignment) +:+ " tag applies to impacted node `" +:+ ca_node_id assignment +:+ "`")
    (ca_evidence assignment).

Definition add_criticality_factors (impacted : gset NodeId) (context : ImpactContext) : list RiskFactor :=
  map criticality_factor
    (List.filter (λ assignment, bool_decide (ca_node_id assignment ∈ impacted)) (ctx_criticality context)).

Definition owner_count (impacted : gset NodeId) (context : ImpactContext) : N :=
  N.of_nat (size (bset_collect (map edge_target (List.filter (λ edge,
    bool_decide (edge_kind edge = OwnedBy) && bool_decide (edge_source edge ∈ impacted)) (ctx_edges context)))
    : gset string)).

Definition factor_cmp (left right : RiskFactor) : comparison :=
  match default Eq (f_partial_cmp (factor_weight right) (factor_weight left)) with
  | Eq =>
      then_with (cmp_on factor_code cmp) (cmp_on factor_explanation cmp) left right
  | order => order
  end.

(** The factors in the order they are pushed. *)
Definition risk_factors (target : Node) (items : list ImpactItem) (repositories : list RepositoryImpact)
    (services : list ServiceImpact) (contracts : list ContractImpact) (communities : list CommunityImpact)
    (tests : list TestRecommendation) (context : ImpactContext) (coverage : CoverageSummary)
    (truncation : option TruncationInfo) : list RiskFactor :=
  let impacted := impacted_ids target items in
  let count_class c := len (List.filter (λ item, bool_decide (item_classification item = c)) items) in
  let direct_count := count_class DirectlyDependent in
  let transitive_count := count_class TransitivelyAffected in
  let repository_ids := bset_elements (bset_collect (map ri_repo_id repositories)
                                       ∪ bset_collect (option_list (node_repo_id target)) : gset string) in
  let public_contracts :=
    (len (List.filter co_public contracts)
     + (if bool_decide (node_id target ∈ ctx_public_contracts context) then 1 else 0))%N in
  let cross_edges := len (List.filter (λ c, f_lt f_zero (cm_impact_coupling c)) communities) in
  let environments := bset_elements (bset_collect (map ea_environment
    (List.filter (λ a, bool_decide (ea_node_id a ∈ impacted)) (ctx_environments context))) : gset string) in
  factor_when (0 <? direct_count)%N
    (factor "direct_consumers" (capped direct_count (f32_int 4) (f32_int 24))
       (pretty direct_count +:+ " confirmed direct dependents") (direct_evidence items))
  ++ factor_when (0 <? transitive_count)%N
    (factor "transitive_fanout" (capped transitive_count (f32_lit 3 (-1)) (f32_int 15))
       (pretty transitive_count +:+ " confirmed transitive impacts") [])
  ++ factor_when (1 <? len repository_ids)%N
    (factor "cross_repository_count" (capped (len repository_ids - 1) (f32_int 4) (f32_int 16))
       ("impact spans " +:+ pretty (len repository_ids) +:+ " repositories") repository_ids)
  ++ factor_when (negb (is_empty_list services))
    (factor "service_impact" (capped (len services) (f32_int 2) (f32_int 10))
       ("impact reaches " +:+ pretty (len services) +:+ " services")
       (map (λ s, node_stable_key (si_service s)) services))
  ++ factor_when (0 <? public_contracts)%N
    (factor "public_contract" (f32_int 12) (pretty public_contracts +:+ " explicitly public contracts are involved")
       (map (λ c, node_stable_key (co_contract c)) (List.filter co_public contracts)))
  ++ add_compatibility_factors impacted context
  ++ match ctx_centrality context !! node_id target with
     | Some centrality =>
         factor_when (f_le (f32_lit 3 (-2)) centrality)
           (factor "centrality" (f32_mul centrality (f32_int 12)) ("target centrality is " +:+ f_format_3 centrality)
              [node_id target])
     | None => []
     end
  ++ factor_when (negb (is_empty_list communities) && (0 <? cross_edges)%N)
    (factor "community_process_fanout" (capped cross_edges (f32_int 3) (f32_int 9))
       (pretty cross_edges +:+ " affected communities cross structural boundaries")
       (map cm_community_id communities))
  ++ add_criticality_factors impacted context
  ++ factor_when (is_empty_list tests && negb (is_empty_list items))
    (factor "missing_tests" (f32_int 10) "no linked or locally supplied affected tests were found" [])
  ++ factor_when ((owner_count impacted context =? 0)%N && negb (is_empty_list items))
    (factor "missing_owners" (f32_int 8) "no Owner node is linked by OwnedBy to an impacted node" [])
  ++ factor_when (1 <? len environments)%N
    (factor "cross_environment" (f32_int 10)
       ("impact spans " +:+ pretty (len environments) +:+ " explicit environments") environments)
  ++ factor_when (negb (cvs_sufficient_for_score coverage))
    (factor "coverage_unknown" f_zero "coverage is insufficient for a numeric risk conclusion" (cvs_gaps coverage))
  ++ match truncation with
     | Some info => [factor "truncated" f_zero (ti_explanation info) [ti_bound info +:+ "=" +:+ pretty (ti_limit info)]]
     | None => []
     end.

Definition explicitly_critical (f : RiskFactor) : bool :=
  (String.eqb (factor_code f) "critical_tag" || String.eqb (factor_code f) "security_tag"
   || String.eqb (factor_code f) "payment_tag" || String.eqb (factor_code f) "data_boundary_tag")
  && negb (is_empty_list (factor_evidence f)).

(** [iter().sum::<f32>()] *)
Definition f32_sum (weights : list f32) : f32 := foldl f32_add (S754_zero true) weights.

Definition risk_level (score : f32) (explicit_critical : bool) : RiskLevel :=
  if f_le (f32_int 85) score && explicit_critical then Critical
  else if f_le (f32_int 50) score then High
  else if f_le (f32_int 25) score then Medium
  else Low.

Definition assess_risk (target : Node) (items : list ImpactItem) (repositories : list RepositoryImpact)
    (services : list ServiceImpact) (contracts : list ContractImpact) (communities : list CommunityImpact)
    (tests : list TestRecommendation) (context : ImpactContext) (coverage : CoverageSummary)
    (truncation : option TruncationInfo) : RiskLevel * option f32 * list RiskFactor :=
  let factors := sort_by factor_cmp
    (risk_factors target items repositories services contracts communities tests context coverage truncation) in
  if negb (cvs_sufficient_for_score coverage) then (Unknown, None, factors)
  else
    let score := f_clamp (f32_sum (map factor_weight factors)) (f32_int 1) (f32_int 100) in
    (risk_level score (existsb explicitly_critical factors), Some score, factors).

(** ** The analysis *)
Definition of_class (c : ImpactClassification) (items : list ImpactItem) : list ImpactItem :=
  List.filter (λ item, bool_decide (item_classification item = c)) items.

Definition split_classifications (items : list ImpactItem)
    : list ImpactItem * list ImpactItem * list ImpactItem * list ImpactItem :=
  (of_class DirectlyDependent items, of_class TransitivelyAffected items, of_class PossiblyAffected items,
   of_class UnknownDueToCoverage items).

Definition page_of (options : ImpactOptions) (items : list ImpactItem) : list ImpactItem :=
  if opt_summary_only options then [] else skip_take (N.min (opt_offset options) (len items)) (opt_limit options) items.

(** The report of a finished traversal. *)
Definition impact_report (request : ImpactRequest) (context : ImpactContext) (nodes : gmap NodeId Node)
    (target : ResolvedTarget) (items : list ImpactItem) (truncation : option TruncationInfo)
    (possible_edges unknown_edges : N) : ImpactReport :=
  let items := sort_items items in
  let repositories := aggregate_repositories items in
  let services := aggregate_services items context nodes in
  let contracts := aggregate_contracts items context in
  let communities := aggregate_communities items context in
  let tests := recommend_tests items context nodes in
  let coverage := coverage_summary (rt_node target) items context truncation possible_edges unknown_edges in
  let '(risk, risk_score, reasons) :=
    assess_risk (rt_node target) items repositories services contracts communities tests context coverage truncation in
  let '(direct, transitive, possible, unknown) := split_classifications (page_of (req_options request) items) in
  {| rep_risk_model_version := RISK_MODEL_VERSION;
     rep_target := target;
     rep_direction := req_direction request;
     rep_risk := risk;
     rep_risk_score := risk_score;
     rep_reasons := reasons;
     rep_direct_consumers := direct;
     rep_transitive_consumers := transitive;
     rep_possibly_affected := possible;
     rep_unknown_due_to_coverage := unknown;
     rep_affected_repositories := repositories;
     rep_affected_services := services;
     rep_affected_contracts := contracts;
     rep_affected_communities := communities;
     rep_local_impact_summaries := summarize_local_enrichment context;
     rep_test_recommendations := tests;
     rep_depth_buckets := if opt_include_depth_buckets (req_options request) then build_depth_buckets items else [];
     rep_coverage := coverage;
     rep_truncation := truncation |}.

(** [None] only when the fuel of the traversal runs out. *)
Definition analyze_impact (request : ImpactRequest) (context : ImpactContext) : option (result ImpactError ImpactReport) :=
  match validate_context request context with
  | Err e => Some (Err e)
  | Ok nodes =>
      match resolve_target (req_target request) nodes with
      | Err e => Some (Err e)
      | Ok target =>
          match traverse request context nodes (rt_node target) with
          | None => None
          | Some (Err e) => Some (Err e)
          | Some (Ok (items, truncation, possible_edges, unknown_edges)) =>
              Some (Ok (impact_report request context nodes target items truncation possible_edges unknown_edges))
          end
      end
  end.

(** ** Weights *)
(** The cap absorbs a product that is not a number. *)
Lemma f_min_nonneg x y : f_is_nan x || f_nonneg x = true → f_nonneg y = true → f_nonneg (f_min x y) = true.
Proof. unfold f_min. intros Hx Hy. destruct (f_is_nan x); simpl in Hx; [done|]. by repeat case_match. Qed.

Lemma capped_nonneg count rate cap : f_nonneg rate = true → f_nonneg cap = true → f_nonneg (capped count rate cap) = true.
Proof.
  intros Hr Hc. unfold capped. apply f_min_nonneg; [|done].
  set (x := usize_to_f32 count). assert (Hx : f_nonneg x = true) by (apply binary_normalize_nonneg; lia).
  clearbody x. unfold f32_mul_add, f_zero.
  destruct x as [[]|[]| |[] mx ex], rate as [[]|[]| |[] mr er]; try done; simpl.
  all: apply orb_true_iff; right; apply binary_normalize_nonneg; lia || auto with zarith.
Qed.

Lemma factor_when_elem b f g : g ∈ factor_when b f ↔ b = true ∧ g = f.
Proof. unfold factor_when. destruct b; [rewrite list_elem_of_singleton|rewrite elem_of_nil]; naive_solver. Qed.

Lemma f32_sum_not_nan weights : (∀ w, w ∈ weights → f_nonneg w = true) → f_nonneg (f32_sum weights) = true.
Proof.
  unfold f32_sum. intros H.
  assert (Hgen : ∀ acc, f_nonneg acc = true → f_nonneg (foldl f32_add acc weights) = true); [|by apply Hgen].
  induction weights as [|w weights IH]; intros acc Hacc; simpl; [done|].
  apply IH; [intros; apply H; set_solver|]. apply SFadd_nonneg; [done|]. apply H. set_solver.
Qed.

Section factors.
Context (target : Node) (items : list ImpactItem) (repositories : list RepositoryImpact)
  (services : list ServiceImpact) (contracts : list ContractImpact) (communities : list CommunityImpact)
  (tests : list TestRecommendation) (context : ImpactContext) (coverage : CoverageSummary)
  (truncation : option TruncationInfo).
Let factors :=
  risk_factors target items repositories services contracts communities tests context coverage truncation.

(** A pushed factor is one of the fixed ones, or comes from a compatibility
    input or a criticality assignment. *)
Lemma risk_factors_cases (P : RiskFactor → Prop) :
  (∀ code weight explanation evidence, f_nonneg weight = true →
     code ∉ ["critical_tag"; "security_tag"; "payment_tag"; "data_boundary_tag"] →
     P (factor code weight explanation evidence)) →
  (∀ a, a ∈ ctx_criticality context → ca_node_id a ∈ impacted_ids target items → P (criticality_factor a)) →
  (∀ v c, ctx_centrality context !! v = Some c → f32_in_unit c = true) →
  ∀ f, f ∈ factors → P f.
Proof.
  intros Hfix Hcrit Hcen f. unfold factors, risk_factors.
  assert (Hw : ∀ b code weight explanation evidence, f_nonneg weight = true →
     code ∉ ["critical_tag"; "security_tag"; "payment_tag"; "data_boundary_tag"] →
     f ∈ factor_when b (factor code weight explanation evidence) → P f).
  { intros b code weight explanation evidence Hn Hc [_ ->]%factor_when_elem. by apply Hfix. }
  assert (Hcode : ∀ code : string, bool_decide (code ∈ ["critical_tag"; "security_tag"; "payment_tag"; "data_boundary_tag"]) = false →
    code ∉ ["critical_tag"; "security_tag"; "payment_tag"; "data_boundary_tag"]).
  { intros code. by rewrite bool_decide_eq_false. }
  rewrite !elem_of_app. intros H. destruct_or! H.
  all: try (revert H; apply Hw; [by (apply capped_nonneg || idtac)|by apply Hcode]; fail).
  - unfold add_compatibility_factors in H. apply list_elem_of_In, in_flat_map in H as (input & _ & H).
    apply list_elem_of_In in H. unfold compatibility_factor in H.
    destruct (ci_status input); try (apply list_elem_of_singleton in H as ->; apply Hfix; [done|by apply Hcode]).
    by apply not_elem_of_nil in H.
  - destruct (ctx_centrality context !! node_id target) as [c|] eqn:Ec; [|by apply not_elem_of_nil in H].
    revert H. apply Hw; [|by apply Hcode]. destruct (f32_in_unit_nonneg c) as [H1 H2]; [by eapply Hcen|].
    by apply SFmul_nonneg.
  - unfold add_criticality_factors in H. apply list_elem_of_In, in_map_iff in H as (a & <- & H).
    apply filter_In in H as [Ha Hi]. apply bool_decide_eq_true in Hi. apply list_elem_of_In in Ha. by apply Hcrit.
  - destruct truncation; [|by apply not_elem_of_nil in H].
    apply list_elem_of_singleton in H as ->. apply Hfix; [done|by apply Hcode].
Qed.

Lemma risk_factors_nonneg f :
  (∀ v c, ctx_centrality context !! v = Some c → f32_in_unit c = true) → f ∈ factors → f_nonneg (factor_weight f) = true.
Proof.
  intros Hcen. apply (risk_factors_cases (λ f, f_nonneg (factor_weight f) = true)); [done| |done].
  intros [v [] e] _ _; done.
Qed.

Lemma risk_factors_critical f :
  (∀ v c, ctx_centrality context !! v = Some c → f32_in_unit c = true) → f ∈ factors → explicitly_critical f = true →
  ∃ a, a ∈ ctx_criticality context ∧ ca_node_id a ∈ impacted_ids target items ∧ f = criticality_factor a
    ∧ ca_tag a ≠ Tag_Authentication.
Proof.
  intros Hcen Hin. revert f Hin. apply (risk_factors_cases (λ f, explicitly_critical f = true → _)); [| |done].
  - intros code w ex ev _ Hc [Hcr _]%andb_true_iff. exfalso. apply Hc. simpl in Hcr.
    rewrite !orb_true_iff, !String.eqb_eq in Hcr. set_solver.
  - intros a Ha Hi Hcr. exists a. split_and!; [done..|]. intros E. unfold explicitly_critical, criticality_factor in Hcr.
    by rewrite E in Hcr.
Qed.
End factors.

(** ** When a score is permitted *)

(** What sufficient coverage says about the inputs. *)
Record covered_inputs (target : Node) (items : list ImpactItem) (context : ImpactContext)
    (truncation : option TruncationInfo) (possible unknown : N) : Prop := {
  cov_graph : ctx_graph_complete context = true;
  cov_gaps : ctx_coverage_gaps context = [];
  cov_truncation : truncation = None;
  cov_edges : possible = 0%N ∧ unknown = 0%N;
  cov_fresh : ∀ repo, repo ∈ relevant_repositories target items → freshness_of context !! repo = Some RF_Fresh;
  cov_compatibility : ∀ input, input ∈ ctx_compatibility context →
    ci_contract_node_id input ∈ impacted_ids target items → ci_status input ≠ Compat_Unknown;
  cov_local : ∀ local, local ∈ ctx_local_enrichment context → le_status local = LE_Available ∧ le_truncated local = false;
}.

Lemma filter_empty {A} (f : A → bool) l : is_empty_list (List.filter f l) = true ↔ ∀ x, x ∈ l → f x = false.
Proof.
  rewrite is_empty_list_true. split.
  - intros E x Hx. destruct (f x) eqn:Ef; [|done].
    assert (x ∈ List.filter f l) as Hin by by apply list_filter_In. rewrite E in Hin. by apply not_elem_of_nil in Hin.
  - intros H. induction l as [|x l IH]; simpl; [done|]. rewrite H by set_solver. apply IH. intros. apply H. set_solver.
Qed.

Lemma freshness_class_fresh state :
  (∀ c, c ∈ [FC_Stale; FC_Partial; FC_Unavailable; FC_Missing] → freshness_class state ≠ c) ↔ state = Some RF_Fresh.
Proof.
  split; [|intros -> c Hc E; simpl in E; subst; set_solver].
  intros H. destruct state as [[]|]; try done; exfalso; (eapply H; [|simpl; reflexivity]); set_solver.
Qed.

Lemma sufficient_iff target items context truncation possible unknown :
  cvs_sufficient_for_score (coverage_summary target items context truncation possible unknown) = true ↔
  covered_inputs target items context truncation possible unknown.
Proof.
  unfold coverage_summary; simpl.
  rewrite !andb_true_iff, !filter_empty, !N.eqb_eq, forallb_In, negb_true_iff, is_empty_list_true.
  setoid_rewrite bset_elements_elem_of. setoid_rewrite bool_decide_eq_false.
  setoid_rewrite andb_false_iff. setoid_rewrite bool_decide_eq_false.
  unfold enrichment_complete. setoid_rewrite andb_true_iff. setoid_rewrite bool_decide_eq_true.
  setoid_rewrite negb_true_iff. split.
  - intros ((((((((((? & Hs) & Hp) & Hu) & Hm) & ?) & ?) & Hc) & Ht) & Hl) & ?). split; try done.
    + by destruct truncation.
    + intros repo Hr. apply freshness_class_fresh. intros c Hc'.
      repeat (apply elem_of_cons in Hc' as [->|Hc']; [auto|]). by apply not_elem_of_nil in Hc'.
    + intros input Hin Hi. by destruct (Hc input Hin).
  - intros []. destruct cov_edges0.
    assert (Hfc : ∀ c, c ∈ [FC_Stale; FC_Partial; FC_Unavailable; FC_Missing] → ∀ repo,
      repo ∈ relevant_repositories target items → freshness_class (freshness_of context !! repo) ≠ c).
    { intros c Hc repo Hr. pose proof (cov_fresh0 repo Hr) as E. by apply freshness_class_fresh. }
    split_and!; try done; try (apply Hfc; set_solver).
    + intros input Hin. destruct (decide (ci_contract_node_id input ∈ impacted_ids target items)); [right|by left].
      by apply cov_compatibility0.
    + by rewrite cov_truncation0.
Qed.

(** A report, with the traversal it was made from. *)
Lemma analyze_impact_report request context r :
  analyze_impact request context = Some (Ok r) →
  ∃ nodes target items truncation possible unknown,
    validate_context request context = Ok nodes ∧ resolve_target (req_target request) nodes = Ok target ∧
    traverse request context nodes (rt_node target) = Some (Ok (items, truncation, possible, unknown)) ∧
    r = impact_report request context nodes target items truncation possible unknown.
Proof.
  unfold analyze_impact. destruct (validate_context _ _) as [nodes|] eqn:Ev; [|done].
  destruct (resolve_target _ _) as [target|] eqn:Et; [|done].
  destruct (traverse _ _ _ _) as [[[[[items truncation] possible] unknown]|]|] eqn:Er; try done.
  intros [= <-]. by exists nodes, target, items, truncation, possible, unknown.
Qed.

Lemma impact_report_risk request context nodes target items truncation possible unknown :
  let r := impact_report request context nodes target items truncation possible unknown in
  let items := sort_items items in
  (rep_risk r, rep_risk_score r, rep_reasons r) =
    assess_risk (rt_node target) items (aggregate_repositories items) (aggregate_services items context nodes)
      (aggregate_contracts items context) (aggregate_communities items context) (recommend_tests items context nodes)
      context (rep_coverage r) truncation ∧
  rep_coverage r = coverage_summary (rt_node target) items context truncation possible unknown ∧
  rep_truncation r = truncation ∧ rep_target r = target.
Proof. simpl. unfold impact_report. destruct (assess_risk _ _ _ _ _ _ _ _ _ _) as [[a b] c] eqn:E. done. Qed.

Lemma assess_risk_cases target items repositories services contracts communities tests context coverage truncation :
  let factors := sort_by factor_cmp
    (risk_factors target items repositories services contracts communities tests context coverage truncation) in
  assess_risk target items repositories services contracts communities tests context coverage truncation =
  if cvs_sufficient_for_score coverage then
    let score := f_clamp (f32_sum (map factor_weight factors)) (f32_int 1) (f32_int 100) in
    (risk_level score (existsb explicitly_critical factors), Some score, factors)
  else (Unknown, None, factors).
Proof. unfold assess_risk. by destruct (cvs_sufficient_for_score coverage). Qed.

(** The items of a page, back in the traversal. *)
Lemma page_of_elem options items item : item ∈ page_of options (sort_items items) → item ∈ items.
Proof.
  unfold page_of, skip_take. destruct (opt_summary_only options); [by intros ?%not_elem_of_nil|].
  set (n := N.to_nat _). set (m := N.to_nat _). intros H. apply (sort_by_elem_of item_cmp).
  change (item ∈ sort_items items). rewrite <-(take_drop m (sort_items items)), elem_of_app. right.
  rewrite <-(take_drop n), elem_of_app. by left.
Qed.

Lemma impacted_ids_elem target items v :
  v ∈ impacted_ids target items ↔ v = node_id target ∨ ∃ item, item ∈ items ∧ node_id (item_node item) = v.
Proof.
  unfold impacted_ids, bset_collect. rewrite elem_of_list_to_set, elem_of_app, list_elem_of_singleton.
  rewrite list_elem_of_In, in_map_iff. setoid_rewrite list_elem_of_In. naive_solver.
Qed.

Lemma f_int_le_not_nan x lo : f_le (f32_int lo) x = true → f_is_nan x = false.
Proof. by intros [_ H]%f_le_nan. Qed.

Lemma factors_not_nan l : (∀ f, f ∈ l → f_nonneg (factor_weight f) = true) →
  f_is_nan (f32_sum (map factor_weight (sort_by factor_cmp l))) = false.
Proof.
  intros Hw. apply f_nonneg_not_nan, f32_sum_not_nan. intros w Hin.
  apply list_elem_of_In, in_map_iff in Hin as (f & <- & Hf). apply list_elem_of_In, sort_by_elem_of in Hf. auto.
Qed.

Lemma of_class_nil c options items :
  (∀ item, item ∈ items → item_classification item ≠ c) → of_class c (page_of options (sort_items items)) = [].
Proof.
  intros H. destruct (of_class _ _) as [|i l] eqn:E; [done|exfalso].
  assert (Hi : i ∈ i :: l) by set_solver. rewrite <-E in Hi. unfold of_class in Hi.
  apply list_filter_In in Hi as [Hi Hc]. apply bool_decide_eq_true in Hc.
  by apply page_of_elem in Hi as ?%H.
Qed.

(** The risk and its score are known exactly with sufficient coverage. *)
Lemma report_known request context r :
  analyze_impact request context = Some (Ok r) →
  (rep_risk r = Unknown ↔ cvs_sufficient_for_score (rep_coverage r) = false) ∧
  (rep_risk_score r = None ↔ cvs_sufficient_for_score (rep_coverage r) = false).
Proof.
  intros (nodes & target & items & truncation & possible & unknown & _ & _ & _ & ->)%analyze_impact_report.
  destruct (impact_report_risk request context nodes target items truncation possible unknown) as (Hrisk & _).
  rewrite assess_risk_cases in Hrisk. cbv zeta in Hrisk.
  destruct (cvs_sufficient_for_score _); injection Hrisk as -> -> _; [|done].
  split; [|done]. unfold risk_level. split; [|done]. by repeat case_if.
Qed.

(** What sufficient coverage says of the report and of its context. *)
Lemma sufficient_report request context r :
  analyze_impact request context = Some (Ok r) → cvs_sufficient_for_score (rep_coverage r) = true →
  rep_truncation r = None ∧ ctx_graph_complete context = true ∧ ctx_coverage_gaps context = [] ∧
  (∀ repo, repo ∈ cvs_relevant_repositories (rep_coverage r) → freshness_of context !! repo = Some RF_Fresh) ∧
  rep_possibly_affected r = [] ∧ rep_unknown_due_to_coverage r = [].
Proof.
  intros (nodes & target & items & truncation & possible & unknown & Hv & _ & Hrun & ->)%analyze_impact_report Es.
  destruct (impact_report_risk request context nodes target items truncation possible unknown) as (_ & Hcov & Htr & _).
  rewrite Hcov in *. rewrite Htr. apply sufficient_iff in Es as [Hg Hgaps Ht [Hp Hu] Hfresh _ _].
  rewrite Hp, Hu in Hrun. pose proof (traverse_confirmed _ _ _ _ _ _ Hv Hrun) as Hconf.
  split_and!; try done.
  - cbn [cvs_relevant_repositories coverage_summary]. intros repo Hr%bset_elements_elem_of. by apply Hfresh.
  - unfold impact_report. destruct (assess_risk _ _ _ _ _ _ _ _ _ _) as [[] ?]. simpl.
    apply of_class_nil. intros item Hi. destruct (Hconf item Hi) as [->| ->]; done.
  - unfold impact_report. destruct (assess_risk _ _ _ _ _ _ _ _ _ _) as [[] ?]. simpl.
    apply of_class_nil. intros item Hi. destruct (Hconf item Hi) as [->| ->]; done.
Qed.

(** The same of the whole propagation behind the report, not only of its page. *)
Lemma sufficient_propagation request context r :
  analyze_impact request context = Some (Ok r) → cvs_sufficient_for_score (rep_coverage r) = true →
  ∃ nodes items,
    validate_context request context = Ok nodes ∧
    traverse request context nodes (rt_node (rep_target r)) = Some (Ok (items, None, 0%N, 0%N)) ∧
    (∀ item, item ∈ items → item_classification item = DirectlyDependent ∨ item_classification item = TransitivelyAffected) ∧
    (∀ node repo, node = rt_node (rep_target r) ∨ node ∈ map item_node items → node_repo_id node = Some repo →
       freshness_of context !! repo = Some RF_Fresh) ∧
    (∀ input node, input ∈ ctx_compatibility context → node = rt_node (rep_target r) ∨ node ∈ map item_node items →
       node_id node = ci_contract_node_id input → ci_status input ≠ Compat_Unknown) ∧
    (∀ local, local ∈ ctx_local_enrichment context → le_status local = LE_Available ∧ le_truncated local = false).
Proof.
  intros (nodes & target & items & truncation & possible & unknown & Hv & _ & Hrun & ->)%analyze_impact_report Es.
  destruct (impact_report_risk request context nodes target items truncation possible unknown) as (_ & Hcov & _ & ->).
  rewrite Hcov in Es. apply sufficient_iff in Es as [_ _ -> [-> ->] Hfresh Hcompat Hlocal].
  exists nodes, items. split; [done|]. split; [done|]. split; [by eapply traverse_confirmed|]. split_and!; [| |done].
  - intros node repo Hn Hr. apply Hfresh. unfold relevant_repositories, bset_collect.
    rewrite elem_of_union, !elem_of_list_to_set. destruct Hn as [->|(item & -> & Hi)%list_elem_of_fmap].
    + right. rewrite Hr. by left.
    + left. apply list_elem_of_omap. exists item. split; [|done]. by apply sort_by_elem_of.
  - intros input node Hin Hn Hid. apply Hcompat; [done|]. rewrite <-Hid. apply impacted_ids_elem.
    destruct Hn as [->|(item & -> & Hi)%list_elem_of_fmap]; [by left|right]. exists item. split; [|done]. by apply sort_by_elem_of.
Qed.

(** A score lies in its range. *)
Lemma score_in_range request context r score :
  analyze_impact request context = Some (Ok r) → rep_risk_score r = Some score →
  f_le (f32_int 1) score = true ∧ f_le score (f32_int 100) = true.
Proof.
  intros (nodes & target & items & truncation & possible & unknown & Hv & _ & _ & ->)%analyze_impact_report.
  destruct (impact_report_risk request context nodes target items truncation possible unknown) as (Hrisk & _).
  rewrite assess_risk_cases in Hrisk. cbv zeta in Hrisk.
  destruct (cvs_sufficient_for_score _); injection Hrisk as _ -> _; [|done]. intros [= <-].
  apply validate_context_valid in Hv.
  match goal with |- context [f32_sum ?w] => assert (Hnan : f_is_nan (f32_sum w) = false) end.
  { apply factors_not_nan. intros f. apply risk_factors_nonneg. intros v c Hc. by apply (cv_centrality _ _ _ Hv v c). }
  exact (f_clamp_bounds _ (f32_int 1) (f32_int 100) Hnan eq_refl).
Qed.

(** C8: A score is earned. The risk is [Unknown] exactly when there is no
    score, and the score is absent exactly when coverage is insufficient. A score
    lies in [1..=100] and is only given when nothing was truncated, the graph is
    complete, no coverage gap is known, every local enrichment is available and whole,
    and of everything the propagation reached, also beyond the page of the report: no
    examined relationship was possible or unknown, every item is confirmed, every
    repository is fresh and every compatibility is known. *)
Theorem risk_score_earned (request : ImpactRequest) (context : ImpactContext) (r : ImpactReport) :
  analyze_impact request context = Some (Ok r) →
  (rep_risk r = Unknown ↔ rep_risk_score r = None) ∧
  (rep_risk_score r = None ↔ cvs_sufficient_for_score (rep_coverage r) = false) ∧
  ∀ score, rep_risk_score r = Some score →
    f_le (f32_int 1) score = true ∧ f_le score (f32_int 100) = true ∧
    rep_truncation r = None ∧ ctx_graph_complete context = true ∧ ctx_coverage_gaps context = [] ∧
    (∀ repo, repo ∈ cvs_relevant_repositories (rep_coverage r) → freshness_of context !! repo = Some RF_Fresh) ∧
    rep_possibly_affected r = [] ∧ rep_unknown_due_to_coverage r = [] ∧
    ∃ nodes items,
      validate_context request context = Ok nodes ∧
      traverse request context nodes (rt_node (rep_target r)) = Some (Ok (items, None, 0%N, 0%N)) ∧
      (∀ item, item ∈ items → item_classification item = DirectlyDependent ∨ item_classification item = TransitivelyAffected) ∧
      (∀ node repo, node = rt_node (rep_target r) ∨ node ∈ map item_node items → node_repo_id node = Some repo →
         freshness_of context !! repo = Some RF_Fresh) ∧
      (∀ input node, input ∈ ctx_compatibility context → node = rt_node (rep_target r) ∨ node ∈ map item_node items →
         node_id node = ci_contract_node_id input → ci_status input ≠ Compat_Unknown) ∧
      (∀ local, local ∈ ctx_local_enrichment context → le_status local = LE_Available ∧ le_truncated local = false).
Proof.
  intros Hr. destruct (report_known _ _ _ Hr) as [Hrisk Hscore]. split; [by rewrite Hrisk, Hscore|]. split; [exact Hscore|].
  intros score Es. destruct (score_in_range _ _ _ _ Hr Es). do 2 (split; [done|]).
  assert (Hs : cvs_sufficient_for_score (rep_coverage r) = true).
  { apply not_false_iff_true. intros E%Hscore. by rewrite Es in E. }
  destruct (sufficient_report _ _ _ Hr Hs) as (? & ? & ? & ? & ? & ?). do 6 (split; [done|]).
  exact (sufficient_propagation _ _ _ Hr Hs).
Qed.

(** Critical risk is explicit. A [Critical] report has a score of at least
    85, and the caller assigned, with non-blank evidence, a critical, security,
    payment or data-boundary tag to the target or to an affected node; without
    such an assignment the same score is only [High]. *)
Theorem critical_risk_explicit (request : ImpactRequest) (context : ImpactContext) (r : ImpactReport) :
  analyze_impact request context = Some (Ok r) → rep_risk r = Critical →
  ∃ score a items truncation possible unknown nodes,
    rep_risk_score r = Some score ∧ f_le (f32_int 85) score = true ∧
    a ∈ ctx_criticality context ∧ ca_tag a ≠ Tag_Authentication ∧ evidence_given a ∧
    traverse request context nodes (rt_node (rep_target r)) = Some (Ok (items, truncation, possible, unknown)) ∧
    (ca_node_id a = node_id (rt_node (rep_target r)) ∨ ∃ item, item ∈ items ∧ node_id (item_node item) = ca_node_id a).
Proof.
  intros (nodes & target & items & truncation & possible & unknown & Hv & _ & Hrun & ->)%analyze_impact_report.
  set (r := impact_report _ _ _ _ _ _ _ _).
  destruct (impact_report_risk request context nodes target items truncation possible unknown) as (Hrisk & _ & _ & Ht).
  fold r in Hrisk, Ht. rewrite assess_risk_cases in Hrisk. cbv zeta in Hrisk. rewrite Ht.
  destruct (cvs_sufficient_for_score (rep_coverage r)); injection Hrisk as Hlevel Hscore _.
  2: by rewrite Hlevel.
  rewrite Hlevel. unfold risk_level. destruct (f_le (f32_int 85) _ && _) eqn:E; [|by repeat case_if].
  intros _. apply andb_true_iff in E as [E85 Ecrit].
  apply existsb_In in Ecrit as (f & Hf & Hexp). apply sort_by_elem_of in Hf.
  pose proof Hv as Hv'. apply validate_context_valid in Hv'.
  destruct (risk_factors_critical _ _ _ _ _ _ _ _ _ _ f (λ v c Hc, proj2 (cv_centrality _ _ _ Hv' v c Hc)) Hf Hexp)
    as (a & Ha & Himp & _ & Htag).
  destruct (cv_criticality _ _ _ Hv' a Ha) as [_ Hev].
  do 7 eexists. split_and!; [exact Hscore|exact E85|exact Ha|exact Htag|exact Hev|exact Hrun|].
  apply impacted_ids_elem in Himp as [->|(item & Hi & Hid)]; [by left|right].
  exists item. split; [|done]. by apply sort_by_elem_of in Hi.
Qed.

(** The analysis always answers: it never runs out of fuel, and it
    reports exactly when the context is valid and the target resolves; otherwise
    the error is that of the validation or of the resolution. *)
Theorem analyze_impact_total (request : ImpactRequest) (context : ImpactContext) :
  match analyze_impact request context with
  | None => False
  | Some (Ok r) => ∃ nodes, validate_context request context = Ok nodes
      ∧ resolve_target (req_target request) nodes = Ok (rep_target r)
  | Some (Err e) => validate_context request context = Err e
      ∨ ∃ nodes, validate_context request context = Ok nodes ∧ resolve_target (req_target request) nodes = Err e
  end.
Proof.
  unfold analyze_impact. destruct (validate_context request context) as [nodes|e] eqn:Ev; [|by left].
  destruct (resolve_target _ nodes) as [target|e] eqn:Et; [|right; by exists nodes].
  pose proof Ev as Hval%validate_context_valid.
  destruct (traverse_run request context nodes (rt_node target) Hval) as (p & _ & _ & ->).
  exists nodes. split; [done|].
  destruct (impact_report_risk request context nodes target (btree_values (pr_items p)) (pr_truncation p)
    (pr_possible p) (pr_unknown p)) as (_ & _ & _ & ->). done.
Qed.

(** ** Aggregates *)

(** The aggregate of a nonempty list of items. *)
Definition summarises (items : list ImpactItem) (ag : Aggregate) : Prop :=
  ag_affected_nodes ag = N.min (len items) usize_max ∧
  (∃ item, item ∈ items ∧ item_depth item = ag_minimum_depth ag) ∧
  (∀ item, item ∈ items → (ag_minimum_depth ag ≤ item_depth item)%N) ∧
  (∃ item, item ∈ items ∧ item_classification item = ag_classification ag) ∧
  (∀ item, item ∈ items →
    (classification_rank (ag_classification ag) ≤ classification_rank (item_classification item))%N).

(** Updates of keys with items, in order. *)
Definition aggregate_pairs (pairs : list (string * ImpactItem)) (m : gmap string Aggregate) : gmap string Aggregate :=
  foldl (λ m p, update_aggregate m p.1 p.2) m pairs.

Definition items_of_key (pairs : list (string * ImpactItem)) (key : string) : list ImpactItem :=
  map snd (List.filter (λ p, String.eqb p.1 key) pairs).

Lemma summarises_one item :
  summarises [item] {| ag_classification := item_classification item; ag_minimum_depth := item_depth item; ag_affected_nodes := 1 |}.
Proof.
  unfold summarises; simpl. setoid_rewrite list_elem_of_singleton. split_and!; eauto.
  all: intros x ->; lia.
Qed.

Lemma summarises_snoc items item ag :
  summarises items ag →
  summarises (items ++ [item])
    {| ag_classification := stronger (ag_classification ag) (item_classification item);
       ag_minimum_depth := N.min (ag_minimum_depth ag) (item_depth item);
       ag_affected_nodes := saturating_add (ag_affected_nodes ag) 1 |}.
Proof.
  intros (Hn & (d & Hd & Ed) & Hmin & (c & Hc & Ec) & Hrank). unfold summarises; simpl.
  setoid_rewrite elem_of_app. setoid_rewrite list_elem_of_singleton. split_and!.
  - rewrite Hn, len_app, len_cons, len_nil. unfold saturating_add. lia.
  - destruct (N.le_gt_cases (ag_minimum_depth ag) (item_depth item)).
    + exists d. split; [by left|lia].
    + exists item. split; [by right|lia].
  - intros x [Hx| ->]; [specialize (Hmin x Hx)|]; lia.
  - unfold stronger. case_if; [exists c; eauto|exists item; eauto].
  - unfold stronger. intros x Hx. destruct (N.leb_spec (classification_rank (ag_classification ag)) (classification_rank (item_classification item)));
      destruct Hx as [Hx| ->]; try lia; by specialize (Hrank x Hx); lia.
Qed.

Lemma aggregate_pairs_spec pairs key :
  match aggregate_pairs pairs ∅ !! key with
  | Some ag => items_of_key pairs key ≠ [] ∧ summarises (items_of_key pairs key) ag
  | None => items_of_key pairs key = []
  end.
Proof.
  unfold aggregate_pairs, items_of_key. induction pairs as [|[k item] pairs IH] using rev_ind; [done|].
  rewrite foldl_app, List.filter_app, map_app. cbn [foldl List.filter fst snd]. unfold update_aggregate at 1.
  set (m := foldl _ ∅ pairs) in *. set (mine := map snd (List.filter _ pairs)) in *.
  destruct (String.eqb_spec k key) as [->|Hne].
  - rewrite lookup_insert_eq. cbn [map snd]. split; [by destruct mine|].
    destruct (m !! key) as [ag|]; [apply summarises_snoc, IH|]. rewrite IH. apply summarises_one.
  - rewrite lookup_insert_ne by done. cbn [map]. by rewrite app_nil_r.
Qed.

Definition repository_pairs (items : list ImpactItem) : list (string * ImpactItem) :=
  omap (λ item, (λ repo, (repo, item)) <$> node_repo_id (item_node item)) items.

Definition service_pairs (context : ImpactContext) (items : list ImpactItem) : list (string * ImpactItem) :=
  flat_map (λ item,
    (if bool_decide (node_kind (item_node item) = NK_Service) then [(node_id (item_node item), item)] else [])
    ++ map (λ service_id, (service_id, item)) (default [] (ctx_service_memberships context !! node_id (item_node item))))
    items.

Lemma aggregate_repositories_pairs items :
  aggregate_repositories items =
  map (λ e : string * Aggregate,
    {| ri_repo_id := e.1; ri_classification := ag_classification e.2; ri_minimum_depth := ag_minimum_depth e.2;
       ri_affected_nodes := ag_affected_nodes e.2 |}) (btree_entries (aggregate_pairs (repository_pairs items) ∅)).
Proof.
  unfold aggregate_repositories. do 2 f_equal. unfold aggregate_pairs. generalize (∅ : gmap string Aggregate) as m.
  induction items as [|item items IH]; intros m; [done|]. cbn [foldl repository_pairs omap list_omap]. rewrite IH.
  unfold repository_pairs. cbn. by destruct (node_repo_id (item_node item)).
Qed.

Lemma service_fold context items m :
  foldl (add_service_item context) m items = aggregate_pairs (service_pairs context items) m.
Proof.
  revert m. induction items as [|item items IH]; intros m; [done|]. cbn [foldl service_pairs flat_map].
  unfold aggregate_pairs in *. rewrite foldl_app, IH. f_equal. rewrite foldl_app.
  assert (Hm : ∀ ids m, foldl (λ aggregates service_id, update_aggregate aggregates service_id item) m ids =
    foldl (λ m p, update_aggregate m p.1 p.2) m (map (λ service_id, (service_id, item)) ids)).
  { clear. induction ids as [|id ids IH]; intros m; simpl; auto. }
  unfold add_service_item. destruct (bool_decide _), (ctx_service_memberships context !! _); simpl; auto.
Qed.

(** Aggregates are exact. A repository is reported exactly when an
    affected item belongs to it, and once; a service only when an affected item
    is the service or a member of it. An entry counts those items, and has the
    smallest of their depths and the strongest of their classifications. *)
Theorem aggregates_exact (items : list ImpactItem) (context : ImpactContext) (nodes : gmap NodeId Node) :
  (∀ repo, (∃ ri, ri ∈ aggregate_repositories items ∧ ri_repo_id ri = repo) ↔
     ∃ item, item ∈ items ∧ node_repo_id (item_node item) = Some repo) ∧
  (∀ ri, ri ∈ aggregate_repositories items →
     summarises (List.filter (λ item, bool_decide (node_repo_id (item_node item) = Some (ri_repo_id ri))) items)
       {| ag_classification := ri_classification ri; ag_minimum_depth := ri_minimum_depth ri;
          ag_affected_nodes := ri_affected_nodes ri |}) ∧
  NoDup (map ri_repo_id (aggregate_repositories items)) ∧
  (∀ si, si ∈ aggregate_services items context nodes → ∃ key, nodes !! key = Some (si_service si) ∧
     items_of_key (service_pairs context items) key ≠ [] ∧
     summarises (items_of_key (service_pairs context items) key)
       {| ag_classification := si_classification si; ag_minimum_depth := si_minimum_depth si;
          ag_affected_nodes := si_affected_nodes si |}).
Proof.
  assert (Hitems : ∀ repo, items_of_key (repository_pairs items) repo =
    List.filter (λ item, bool_decide (node_repo_id (item_node item) = Some repo)) items).
  { intros repo. unfold items_of_key, repository_pairs. induction items as [|item items IH]; [done|]. cbn.
    destruct (node_repo_id (item_node item)) as [k|]; cbn; [|by rewrite bool_decide_eq_false_2].
    destruct (String.eqb_spec k repo) as [->|Hne]; [rewrite bool_decide_eq_true_2 by done|rewrite bool_decide_eq_false_2 by congruence];
      cbn; by rewrite IH. }
  set (m := aggregate_pairs (repository_pairs items) ∅).
  assert (Hel : ∀ ri, ri ∈ aggregate_repositories items ↔ m !! ri_repo_id ri =
    Some {| ag_classification := ri_classification ri; ag_minimum_depth := ri_minimum_depth ri; ag_affected_nodes := ri_affected_nodes ri |}).
  { intros ri. rewrite aggregate_repositories_pairs, list_elem_of_In, in_map_iff. fold m. split.
    - intros ([k ag] & <- & Hin). apply list_elem_of_In, btree_entries_elem_of in Hin. simpl. rewrite Hin. by destruct ag.
    - intros Hm. exists (ri_repo_id ri, {| ag_classification := ri_classification ri; ag_minimum_depth := ri_minimum_depth ri;
        ag_affected_nodes := ri_affected_nodes ri |}). split; [by destruct ri|]. by apply list_elem_of_In, btree_entries_elem_of. }
  split_and!.
  - intros repo. pose proof (aggregate_pairs_spec (repository_pairs items) repo) as Hs. fold m in Hs. rewrite Hitems in Hs. split.
    + intros (ri & Hri%Hel & <-). rewrite Hri in Hs. destruct Hs as [_ (_ & (item & Hin & _) & _)].
      apply list_filter_In in Hin as [? Hk%bool_decide_eq_true]. eauto.
    + intros (item & Hin & Hk). destruct (m !! repo) as [[c d n]|] eqn:E.
      * exists {| ri_repo_id := repo; ri_classification := c; ri_minimum_depth := d; ri_affected_nodes := n |}.
        split; [|done]. by apply Hel.
      * exfalso. assert (Hx : item ∈ List.filter (λ item, bool_decide (node_repo_id (item_node item) = Some repo)) items).
        { apply list_filter_In. by rewrite bool_decide_eq_true. }
        rewrite Hs in Hx. by apply not_elem_of_nil in Hx.
  - intros ri Hri%Hel. pose proof (aggregate_pairs_spec (repository_pairs items) (ri_repo_id ri)) as Hs.
    fold m in Hs. rewrite Hri, Hitems in Hs. apply Hs.
  - rewrite aggregate_repositories_pairs, map_map. simpl. apply btree_entries_keys_NoDup.
  - intros si Hsi. unfold aggregate_services in Hsi. apply list_elem_of_omap in Hsi as ([k ag] & Hin & Hsi).
    apply btree_entries_elem_of in Hin. rewrite service_fold in Hin. apply fmap_Some in Hsi as (n & Hn & ->).
    pose proof (aggregate_pairs_spec (service_pairs context items) k) as Hs. rewrite Hin in Hs.
    exists k. simpl. destruct ag, Hs. by split_and!.
Qed.

(** ** Pages and depth buckets *)
Lemma split_partition items :
  of_class DirectlyDependent items ++ of_class TransitivelyAffected items ++ of_class PossiblyAffected items
    ++ of_class UnknownDueToCoverage items ≡ₚ items.
Proof.
  unfold of_class. induction items as [|item items IH]; [done|]. etrans; [|apply Permutation_cons; [reflexivity|exact IH]].
  clear IH. cbn [List.filter].
  set (a := List.filter _ items). set (b := List.filter _ items). set (c := List.filter _ items). set (d := List.filter _ items).
  destruct (item_classification item);
  repeat match goal with |- context [bool_decide (?x = ?y)] =>
    first [rewrite (bool_decide_eq_true_2 (x = y)) by done | rewrite (bool_decide_eq_false_2 (x = y)) by done] end; cbn.
  - done.
  - by rewrite <-Permutation_middle.
  - rewrite app_assoc. by rewrite <-Permutation_middle, <-app_assoc.
  - rewrite !app_assoc. by rewrite <-Permutation_middle, <-!app_assoc.
Qed.

(** Pages partition. The four lists of a report are together the requested
    slice of the items in their stable order, each item in the list of its
    classification; nothing is delivered when only a summary is asked for, and
    the coverage counts all items, delivered or not. *)
Theorem page_partition (request : ImpactRequest) (context : ImpactContext) (nodes : gmap NodeId Node)
    (target : ResolvedTarget) (items : list ImpactItem) (truncation : option TruncationInfo) (possible unknown : N) :
  let r := impact_report request context nodes target items truncation possible unknown in
  let options := req_options request in
  rep_direct_consumers r ++ rep_transitive_consumers r ++ rep_possibly_affected r ++ rep_unknown_due_to_coverage r ≡ₚ
    (if opt_summary_only options then []
     else take (N.to_nat (opt_limit options)) (drop (N.to_nat (opt_offset options)) (sort_items items))) ∧
  (∀ item, (item ∈ rep_direct_consumers r → item_classification item = DirectlyDependent) ∧
    (item ∈ rep_transitive_consumers r → item_classification item = TransitivelyAffected) ∧
    (item ∈ rep_possibly_affected r → item_classification item = PossiblyAffected) ∧
    (item ∈ rep_unknown_due_to_coverage r → item_classification item = UnknownDueToCoverage)) ∧
  sort_items items ≡ₚ items ∧ cvs_total_items (rep_coverage r) = len items.
Proof.
  intros r options. unfold r, impact_report. destruct (assess_risk _ _ _ _ _ _ _ _ _ _) as [[risk score] reasons]. simpl.
  split_and!.
  - rewrite split_partition. unfold page_of, skip_take. fold options. destruct (opt_summary_only options); [done|].
    destruct (N.le_gt_cases (opt_offset options) (len (sort_items items))) as [H|H]; [by rewrite N.min_l|].
    rewrite N.min_r by lia. unfold len in *. rewrite Nat2N.id, drop_all.
    rewrite drop_ge; [done|]. lia.
  - intros item. unfold of_class. rewrite !list_filter_In, !bool_decide_eq_true. tauto.
  - apply sort_by_perm.
  - unfold len. f_equal. apply Permutation_length, sort_by_perm.
Qed.

Definition bucket_total (b : ImpactDepthBucket) : N :=
  (db_directly_dependent b + db_transitively_affected b + db_possibly_affected b + db_unknown_due_to_coverage b)%N.

Definition bucket_counts (b : ImpactDepthBucket) (items : list ImpactItem) : Prop :=
  let count c := N.min (len (of_class c items)) usize_max in
  db_directly_dependent b = count DirectlyDependent ∧ db_transitively_affected b = count TransitivelyAffected ∧
  db_possibly_affected b = count PossiblyAffected ∧ db_unknown_due_to_coverage b = count UnknownDueToCoverage.

Lemma bucket_counts_snoc b items item :
  bucket_counts b items → bucket_counts (count_item b (item_classification item)) (items ++ [item]).
Proof.
  unfold bucket_counts, of_class, count_item. intros (H1 & H2 & H3 & H4). rewrite !List.filter_app, !len_app. simpl.
  destruct (item_classification item); simpl; rewrite ?H1, ?H2, ?H3, ?H4; unfold saturating_add;
    rewrite ?len_cons, ?len_nil; split_and!; lia.
Qed.

(** Depth buckets are exact. There is one bucket for each depth that some
    item has, in order of depth, and it counts the items of that depth by
    classification. *)
Theorem depth_buckets_exact (items : list ImpactItem) :
  strictly_sorted (map db_depth (build_depth_buckets items)) ∧
  (∀ d, (∃ b, b ∈ build_depth_buckets items ∧ db_depth b = d) ↔ ∃ item, item ∈ items ∧ item_depth item = d) ∧
  (∀ b, b ∈ build_depth_buckets items →
     bucket_counts b (List.filter (λ item, (item_depth item =? db_depth b)%N) items)).
Proof.
  unfold build_depth_buckets. set (step := λ (buckets : gmap N ImpactDepthBucket) item, <[item_depth item := _]> buckets).
  set (m := foldl step ∅ items).
  assert (Hm : ∀ d, match m !! d with
    | Some b => db_depth b = d ∧ bucket_counts b (List.filter (λ item, (item_depth item =? d)%N) items)
        ∧ ∃ item, item ∈ items ∧ item_depth item = d
    | None => ∀ item, item ∈ items → item_depth item ≠ d
    end).
  { unfold m. clear m. induction items as [|item items IH] using rev_ind; intros d.
    { simpl. rewrite lookup_empty. by intros item ?%not_elem_of_nil. }
    rewrite foldl_app, List.filter_app. cbn [foldl]. set (m := foldl step ∅ items) in *. unfold step at 1.
    specialize (IH d). simpl. destruct (N.eqb_spec (item_depth item) d) as [<-|Hne].
    - rewrite lookup_insert_eq. destruct (m !! item_depth item) as [b|]; simpl.
      + destruct IH as (Hd & Hc & _). split_and!; [done|by apply bucket_counts_snoc|]. exists item. set_solver.
      + split_and!; [done| |exists item; set_solver].
        assert (List.filter (λ i, (item_depth i =? item_depth item)%N) items = []) as ->.
        { apply is_empty_list_true, filter_empty. intros x Hx. apply N.eqb_neq. by apply IH. }
        by apply (bucket_counts_snoc _ []).
    - rewrite lookup_insert_ne, app_nil_r by done. destruct (m !! d) as [b|].
      + destruct IH as (? & ? & i & ? & ?). split_and!; [done..|]. exists i. set_solver.
      + intros x [Hx| ->%list_elem_of_singleton]%elem_of_app; auto. }
  assert (Hin : ∀ b, b ∈ btree_values m ↔ m !! db_depth b = Some b).
  { intros b. rewrite btree_values_elem_of. split; [|by eauto]. intros [d Hd]. specialize (Hm d) as Hd'.
    rewrite Hd in Hd'. by destruct Hd' as (-> & _). }
  split_and!.
  - assert (map db_depth (btree_values m) = (btree_entries m).*1) as ->.
    { unfold btree_values. rewrite map_map. apply map_ext_in. intros [d b] Hb%list_elem_of_In%btree_entries_elem_of.
      specialize (Hm d). rewrite Hb in Hm. by destruct Hm. }
    apply btree_entries_keys_strict.
  - intros d. specialize (Hm d) as Hd. split.
    + intros (b & Hb%Hin & <-). rewrite Hb in Hd. by destruct Hd as (_ & _ & ?).
    + intros (item & Hi & <-). destruct (m !! item_depth item) as [b|] eqn:E; [|by apply Hd in Hi].
      exists b. destruct Hd as (Hd & _). split; [|done]. apply Hin. by rewrite Hd.
  - intros b Hb%Hin. specialize (Hm (db_depth b)). rewrite Hb in Hm. by destruct Hm as (_ & ? & _).
Qed.

Module Example_impact_risk.
Import Example_impact.

Definition fresh (repo : string) : RepoFreshness :=
  {| rf_repo_id := repo; rf_checkout_id := "checkout"; rf_head_commit := None; rf_manifest_hash := "h";
     rf_state := RF_Fresh; rf_reason := None |}.

Definition tagged (edges : list Edge) (tags : list CriticalityTag) : ImpactContext :=
  {| ctx_nodes := map node ["t"; "u"; "w"; "x"]; ctx_edges := edges; ctx_communities := None;
     ctx_freshness := map fresh ["repo-t"; "repo-u"; "repo-x"];
     ctx_compatibility := []; ctx_local_enrichment := []; ctx_public_contracts := [];
     ctx_criticality := map (λ tag, {| ca_node_id := "x"; ca_tag := tag; ca_evidence := ["runbook"] |}) tags;
     ctx_centrality := ∅; ctx_service_memberships := ∅; ctx_environments := []; ctx_recommended_commands := [];
     ctx_graph_complete := true; ctx_coverage_gaps := [] |}.

Definition confirmed_calls : list Edge :=
  [edge "2" "t" "u" CallsRemote Confirmed; edge "3" "u" "x" DependsOnPackage Confirmed].

Definition outcome (r : option (result ImpactError ImpactReport)) : option (RiskLevel * option f32 * N) :=
  match r with
  | Some (Ok r) => Some (rep_risk r, rep_risk_score r, cvs_possible_edges (rep_coverage r))
  | _ => None
  end.

Example tags_make_it_critical :
  map (λ tags, (λ o, o.1.1) <$> outcome (analyze_impact (request Downstream) (tagged confirmed_calls tags)))
    [[]; [Tag_Critical]; [Tag_Authentication; Tag_Authentication]; [Tag_Critical; Tag_Authentication]] =
  [Some Medium; Some Critical; Some High; Some Critical].
Proof. vm_compute. reflexivity. Qed.

Definition critical_context : ImpactContext := tagged confirmed_calls [Tag_Critical].

Lemma risk_score_earned_witness :
  ∃ r, analyze_impact (request Downstream) critical_context = Some (Ok r) ∧ rep_risk_score r ≠ None ∧
    (rep_risk r = Unknown ↔ rep_risk_score r = None).
Proof.
  destruct (analyze_impact (request Downstream) critical_context) as [[r|e]|] eqn:E; try (vm_compute in E; discriminate E).
  pose proof (proj1 (risk_score_earned (request Downstream) critical_context r E)) as H.
  exists r. split; [reflexivity|]. split; [|exact H]. intros Hn. apply H in Hn.
  assert (Hl : (λ o, o.1.1) <$> outcome (Some (Ok r)) = Some Critical) by (rewrite <-E; vm_compute; reflexivity).
  simpl in Hl. congruence.
Defined.

Lemma critical_risk_explicit_witness :
  ∃ r a, analyze_impact (request Downstream) critical_context = Some (Ok r) ∧ rep_risk r = Critical ∧
    a ∈ ctx_criticality critical_context ∧ ca_tag a ≠ Tag_Authentication.
Proof.
  destruct (analyze_impact (request Downstream) critical_context) as [[r|e]|] eqn:E; try (vm_compute in E; discriminate E).
  assert (Hc : rep_risk r = Critical).
  { assert (H : (λ o, o.1.1) <$> outcome (Some (Ok r)) = Some Critical) by (rewrite <-E; vm_compute; reflexivity).
    by injection H. }
  destruct (critical_risk_explicit (request Downstream) critical_context r E Hc) as (score & a & H).
  exists r, a. destruct H as (items & tr & p & u & nodes & _ & _ & Ha & Ht & _). repeat split; done.
Defined.

(** An inferred relationship that was examined and lost to a confirmed way
    still counts as possible: every affected node is confirmed and fresh, and no
    score is given. *)
Lemma examined_edges_withhold_the_score :
  outcome (analyze_impact (request Downstream) (tagged calls [])) = Some (Unknown, None, 1%N) ∧
  summary (traverse (request Downstream) (tagged calls []) (nodes_of calls) (node "t")) =
    Some ([("u", DirectlyDependent, 1%N); ("x", TransitivelyAffected, 2%N)], true).
Proof. split; vm_compute; reflexivity. Qed.
End Example_impact_risk.
