(* ===== verification/FloatMono.v ===== *)
(** * Sums of costs never shrink

    Rounding facts about [f64] sums and quotients of non-negative numbers, used
    for the accumulated weights of paths. *)
From Stdlib Require Import ZArith Lia SpecFloat.
From stdpp Require Import base list.
From S2P Require Import Prelude RustOrd RustFloat.

#[local] Open Scope Z_scope.

(** ** Digits and shifts *)
Lemma Zdigits2_log2 m : 0 < m → Zdigits2 m = Z.log2 m + 1.
Proof.
  destruct m as [|p|p]; try lia. intros _. simpl.
  assert (digits2_pos p = Pos.size p) as -> by (induction p; simpl; congruence).
  destruct p; simpl; lia.
Qed.

Lemma Zdigits2_nonneg m : 0 ≤ m → 0 ≤ Zdigits2 m.
Proof. destruct m; simpl; lia. Qed.

Lemma Zdigits2_bounds m : 0 < m → 2 ^ (Zdigits2 m - 1) ≤ m < 2 ^ Zdigits2 m.
Proof.
  intros Hm. rewrite Zdigits2_log2 by done. replace (Z.log2 m + 1 - 1) with (Z.log2 m) by lia.
  destruct (Z.log2_spec m Hm) as [H1 H2]. by rewrite <-Z.add_1_r in H2.
Qed.

Lemma Zdigits2_le m n : 0 < m → m ≤ n → Zdigits2 m ≤ Zdigits2 n.
Proof. intros. rewrite !Zdigits2_log2 by lia. pose proof (Z.log2_le_mono m n). lia. Qed.

Lemma Zdigits2_ge m k : 0 ≤ k → 2 ^ k ≤ m → k + 1 ≤ Zdigits2 m.
Proof.
  intros Hk Hm. assert (0 < 2 ^ k) by lia. rewrite Zdigits2_log2 by lia.
  pose proof (Z.log2_le_pow2 m k). lia.
Qed.

Lemma Zdigits2_shift m k : 0 < m → 0 ≤ k → Zdigits2 (m * 2 ^ k) = Zdigits2 m + k.
Proof.
  intros. assert (0 < 2 ^ k) by lia. rewrite !Zdigits2_log2 by nia.
  rewrite Z.log2_mul_pow2 by lia. lia.
Qed.

Lemma shr_1_half mrs : 0 ≤ shr_m mrs → shr_m (shr_1 mrs) = shr_m mrs / 2.
Proof.
  destruct mrs as [m r s]; simpl. intros Hm. rewrite <-Z.div2_div. destruct m as [|p|p]; [done| |lia]. by destruct p.
Qed.

Lemma shr_m_shr mrs e n : 0 ≤ shr_m mrs → shr_m (shr mrs e n).1 = shr_m mrs / 2 ^ (Z.max n 0).
Proof.
  intros H. destruct n as [|p|p]; simpl; try by rewrite Z.div_1_r.
  revert mrs H.
  assert (Hiter : ∀ mrs, 0 ≤ shr_m mrs → 0 ≤ shr_m (SpecFloat.iter_pos shr_1 p mrs) ∧
    shr_m (SpecFloat.iter_pos shr_1 p mrs) = shr_m mrs / 2 ^ Zpos p); [|intros; by apply Hiter].
  induction p as [p IH|p IH|]; intros mrs H; cbn [SpecFloat.iter_pos].
  - assert (H1 : 0 ≤ shr_m (shr_1 mrs)) by by apply shr_1_nonneg.
    destruct (IH _ H1) as [H2 E2]. destruct (IH _ H2) as [H3 E3]. split; [done|].
    rewrite E3, E2, shr_1_half, !Z.div_div by lia. f_equal.
    rewrite <-!Z.pow_add_r, <-(Z.pow_add_r 2 1) by lia. f_equal. lia.
  - destruct (IH _ H) as [H2 E2]. destruct (IH _ H2) as [H3 E3]. split; [done|].
    rewrite E3, E2, Z.div_div by lia. f_equal. rewrite <-Z.pow_add_r by lia. f_equal. lia.
  - split; [by apply shr_1_nonneg|by apply shr_1_half].
Qed.

Lemma shr_exponent mrs e n : (shr mrs e n).2 = e + Z.max n 0.
Proof. destruct n; simpl; lia. Qed.

Lemma shr_record_m m l : shr_m (shr_record_of_loc m l) = m.
Proof. by destruct l as [|[]]. Qed.

Lemma round_nearest_even_ge m l : m ≤ round_nearest_even m l.
Proof. destruct l as [|[]]; simpl; try destruct (Z.even m); lia. Qed.

Section format.
Context (prec emax : Z) (Hprec : 1 ≤ prec).
Local Notation fexp := (SpecFloat.fexp prec emax).
Local Notation emin := (SpecFloat.emin prec emax).

(** The exponent is that of the format, or smaller. *)
Definition aligned (m : positive) (e : Z) : Prop := emin ≤ e ≤ fexp (Zdigits2 (Zpos m) + e).

(** The non-negative numbers of the format. *)
Definition cost (x : spec_float) : Prop :=
  match x with
  | S754_zero s | S754_infinity s => s = false
  | S754_finite s m e => s = false ∧ aligned m e
  | S754_nan => False
  end.

(** The two rounding steps of [binary_round_aux], in numbers. *)
Lemma binary_round_aux_steps M e l :
  0 ≤ M →
  ∃ e1 m2 e2, e1 = Z.max e (fexp (Zdigits2 M + e)) ∧ M / 2 ^ (e1 - e) ≤ m2 ∧
    e2 = Z.max e1 (fexp (Zdigits2 m2 + e1)) ∧
    binary_round_aux prec emax false M e l =
      match m2 / 2 ^ (e2 - e1) with
      | Z0 => S754_zero false
      | Zpos m => if Z.leb e2 (emax - prec) then S754_finite false m e2 else S754_infinity false
      | Zneg _ => S754_nan
      end.
Proof using.
  intros HM. unfold binary_round_aux, shr_fexp.
  match goal with |- context [shr ?r e ?n] => pose proof (shr_m_shr r e n) as Hm; pose proof (shr_exponent r e n) as He;
    destruct (shr r e n) as [r1 e1] end.
  rewrite shr_record_m in Hm. cbn [fst snd] in Hm, He. specialize (Hm HM).
  set (m2 := round_nearest_even _ _). assert (H2 : shr_m r1 ≤ m2) by apply round_nearest_even_ge.
  assert (H0 : 0 ≤ shr_m r1) by (rewrite Hm; apply Z.div_pos; lia).
  match goal with |- context [shr ?r e1 ?n] => pose proof (shr_m_shr r e1 n) as Hm'; pose proof (shr_exponent r e1 n) as He';
    destruct (shr r e1 n) as [r2 e2] end.
  simpl in Hm', He'. specialize (Hm' ltac:(lia)).
  exists e1, m2, e2. split_and!; [lia| |lia|].
  - replace (e1 - e) with (Z.max (fexp (Zdigits2 M + e) - e) 0) by lia. by rewrite <-Hm.
  - rewrite Hm'. replace (e2 - e1) with (Z.max (fexp (Zdigits2 m2 + e1) - e1) 0) by lia. done.
Qed.

Lemma fexp_cases n : fexp n = emin ∧ n - prec ≤ emin ∨ fexp n = n - prec ∧ emin < n - prec.
Proof using. unfold SpecFloat.fexp. lia. Qed.

(** A quotient by the excess digits keeps [prec] digits. *)
Lemma normal_quotient M e e1 :
  0 < M → e1 = Zdigits2 M + e - prec → e ≤ e1 → 2 ^ (prec - 1) ≤ M / 2 ^ (e1 - e).
Proof using Hprec.
  intros HM He Hle. apply Z.div_le_lower_bound; [lia|]. rewrite <-Z.pow_add_r by lia.
  destruct (Zdigits2_bounds M HM) as [H _]. by replace (e1 - e + (prec - 1)) with (Zdigits2 M - 1) by lia.
Qed.

(** Rounding gives a number of the format. *)
Lemma binary_round_aux_cost M e l :
  0 ≤ M → e ≤ fexp (Zdigits2 M + e) → (M = 0 → e ≤ emin) → cost (binary_round_aux prec emax false M e l).
Proof using Hprec.
  intros HM He Hzero. destruct (binary_round_aux_steps M e l HM) as (e1 & m2 & e2 & E1 & Hm2 & E2 & ->).
  rewrite Z.max_r in E1 by done.
  assert (Hq : 0 ≤ m2) by (assert (0 ≤ M / 2 ^ (e1 - e)) by (apply Z.div_pos; lia); lia).
  assert (Hmin : emin ≤ e1) by (subst e1; destruct (fexp_cases (Zdigits2 M + e)); lia).
  assert (Halign : e1 ≤ fexp (Zdigits2 m2 + e1)).
  { destruct (fexp_cases (Zdigits2 M + e)) as [[Ef _]|[Ef Hn]].
    - destruct (fexp_cases (Zdigits2 m2 + e1)); lia.
    - assert (0 < M) by (destruct (Z.eq_dec M 0) as [->|]; [simpl in *; lia|lia]).
      pose proof (normal_quotient M e e1 ltac:(done) ltac:(lia) ltac:(lia)) as Hnq.
      pose proof (Zdigits2_ge m2 (prec - 1) ltac:(lia) ltac:(lia)). destruct (fexp_cases (Zdigits2 m2 + e1)); lia. }
  rewrite Z.max_r in E2 by done.
  destruct (m2 / 2 ^ (e2 - e1)) as [|p|p] eqn:Ep; [done| |].
  2: { assert (0 ≤ m2 / 2 ^ (e2 - e1)) by (apply Z.div_pos; lia). lia. }
  destruct (e2 <=? emax - prec); [|done]. split; [done|]. split; [lia|].
  destruct (fexp_cases (Zdigits2 m2 + e1)) as [[Ef _]|[Ef Hn]].
  - destruct (fexp_cases (Zdigits2 (Zpos p) + e2)); lia.
  - assert (0 < m2) by (destruct (Z.eq_dec m2 0) as [->|]; [rewrite Z.div_0_l in Ep; lia|lia]).
    pose proof (normal_quotient m2 e1 e2 ltac:(done) ltac:(lia) ltac:(lia)) as Hnq. rewrite Ep in Hnq.
    pose proof (Zdigits2_ge (Zpos p) (prec - 1) ltac:(lia) ltac:(lia)).
    destruct (fexp_cases (Zdigits2 (Zpos p) + e2)); lia.
Qed.

(** Rounding does not go below a number of the format. *)
Lemma binary_round_aux_above M ez m e :
  0 < M → ez ≤ fexp (Zdigits2 M + ez) → ez ≤ e → aligned m e → Zpos m * 2 ^ (e - ez) ≤ M →
  f_total_cmp (S754_finite false m e) (binary_round_aux prec emax false M ez loc_Exact) ≠ Gt.
Proof using Hprec.
  intros HM Hez Hle [Hmin Ha] HmM.
  destruct (binary_round_aux_steps M ez loc_Exact ltac:(lia)) as (e1 & m2 & e2 & E1 & Hm2 & E2 & ->).
  rewrite Z.max_r in E1 by done.
  assert (Hdig : Zdigits2 (Zpos m) + e ≤ Zdigits2 M + ez).
  { assert (0 < 2 ^ (e - ez)) by lia. pose proof (Zdigits2_le (Zpos m * 2 ^ (e - ez)) M ltac:(lia) HmM) as H'.
    rewrite Zdigits2_shift in H' by lia. lia. }
  assert (He1 : e ≤ e1).
  { subst e1. destruct (fexp_cases (Zdigits2 M + ez)), (fexp_cases (Zdigits2 (Zpos m) + e)); lia. }
  assert (Hm1 : (e1 = e → Zpos m ≤ M / 2 ^ (e1 - ez)) ∧ 1 ≤ M / 2 ^ (e1 - ez)).
  { destruct (Z.eq_dec e1 e) as [E|Hne].
    - assert (Zpos m ≤ M / 2 ^ (e1 - ez)) by (rewrite E; apply Z.div_le_lower_bound; lia). lia.
    - destruct (fexp_cases (Zdigits2 M + ez)); [lia|].
      pose proof (normal_quotient M ez e1 HM ltac:(lia) ltac:(lia)). assert (0 < 2 ^ (prec - 1)) by lia. lia. }
  assert (Hm3 : 1 ≤ m2 / 2 ^ (e2 - e1)).
  { destruct (Z.eq_dec e2 e1) as [->|Hne]; [rewrite Z.sub_diag, Z.div_1_r; lia|].
    destruct (fexp_cases (Zdigits2 m2 + e1)).
    - assert (emin ≤ e1) by (subst e1; destruct (fexp_cases (Zdigits2 M + ez)); lia). lia.
    - pose proof (normal_quotient m2 e1 e2 ltac:(lia) ltac:(lia) ltac:(lia)). assert (0 < 2 ^ (prec - 1)) by lia. lia. }
  destruct (m2 / 2 ^ (e2 - e1)) as [|p|p] eqn:Ep; [lia| |lia].
  destruct (e2 <=? emax - prec); [|done]. cbn [f_total_cmp eqb].
  destruct (Z.compare_spec e e2) as [E|H|H]; [|done|lia].
  assert (e2 = e1) as -> by lia. rewrite Z.sub_diag, Z.div_1_r in Ep. destruct Hm1 as [Hm1 _]. specialize (Hm1 ltac:(lia)).
  by apply Pos.compare_le_iff; lia.
Qed.

Lemma shl_align_value m e e' :
  (shl_align m e e').2 = Z.min e e' ∧ Zpos (shl_align m e e').1 = Zpos m * 2 ^ (e - Z.min e e').
Proof using.
  unfold shl_align. destruct (e' - e) as [|p|p] eqn:E; cbn [fst snd].
  - split; [lia|]. replace (e - Z.min e e') with 0 by lia. lia.
  - split; [lia|]. replace (e - Z.min e e') with 0 by lia. lia.
  - split; [lia|]. replace (e - Z.min e e') with (Zpos p) by lia.
    clear E.
    induction p as [|p IH] using Pos.peano_ind; [simpl; lia|].
    rewrite Pos.iter_succ, Pos2Z.inj_xO, IH, Pos2Z.inj_succ, Z.pow_succ_r by lia. lia.
Qed.

Lemma binary_round_cost M e : cost (binary_round prec emax false M e).
Proof using Hprec.
  unfold binary_round. pose proof (shl_align_value M e (fexp (Zpos (digits2_pos M) + e))) as [H2 H1].
  destruct (shl_align _ _ _) as [mz ez]. cbn [fst snd] in *.
  apply binary_round_aux_cost; [done| |done].
  rewrite H1, Zdigits2_shift by lia. change (Zdigits2 (Zpos M)) with (Zpos (digits2_pos M)).
  replace (Zpos (digits2_pos M) + (e - Z.min e (fexp (Zpos (digits2_pos M) + e))) + ez)
    with (Zpos (digits2_pos M) + e) by lia. lia.
Qed.

Lemma binary_round_above M ez m e :
  ez ≤ e → aligned m e → Zpos m * 2 ^ (e - ez) ≤ Zpos M →
  f_total_cmp (S754_finite false m e) (binary_round prec emax false M ez) ≠ Gt.
Proof using Hprec.
  intros Hle Ha HmM. unfold binary_round.
  pose proof (shl_align_value M ez (fexp (Zpos (digits2_pos M) + ez))) as [H2 H1].
  destruct (shl_align _ _ _) as [mz ez']. cbn [fst snd] in *.
  apply binary_round_aux_above; [done| |lia|done|].
  - rewrite H1, Zdigits2_shift by lia. change (Zdigits2 (Zpos M)) with (Zpos (digits2_pos M)).
    replace (Zpos (digits2_pos M) + (ez - Z.min ez (fexp (Zpos (digits2_pos M) + ez))) + ez')
      with (Zpos (digits2_pos M) + ez) by lia. lia.
  - rewrite H1, <-H2. replace (e - ez') with (e - ez + (ez - ez')) by lia.
    rewrite Z.pow_add_r, Z.mul_assoc by lia. apply Z.mul_le_mono_nonneg_r; lia.
Qed.

Lemma f_total_cmp_refl x : f_total_cmp x x = Eq.
Proof using. destruct x as [[]|[]| |[] m e]; try done; simpl; by rewrite Z.compare_refl, Pos.compare_refl. Qed.

(** Adding a cost gives a cost that is not smaller. *)
Lemma SFadd_cost x w : cost x → cost w → cost (SFadd prec emax x w).
Proof using Hprec.
  destruct x as [s|s| |s m e], w as [s'|s'| |s' m' e']; simpl; intros; destruct_and?; subst; try done.
  apply binary_round_cost.
Qed.

Lemma SFadd_above x w : cost x → cost w → f_total_cmp x (SFadd prec emax x w) ≠ Gt.
Proof using Hprec.
  destruct x as [s|s| |s m e], w as [s'|s'| |s' m' e']; intros Hx Hw; simpl in Hx, Hw; destruct_and?; subst; try done;
    try (by rewrite f_total_cmp_refl).
  cbn [SFadd cond_Zopp]. pose proof (shl_align_value m e (Z.min e e')) as [_ H1].
  apply binary_round_above; [lia|done|].
  rewrite Pos2Z.inj_add, H1. replace (Z.min e (Z.min e e')) with (Z.min e e') by lia. lia.
Qed.

(** A quotient of positive numbers is a cost. *)
Lemma SFdiv_cost m e m' e' : cost (SFdiv prec emax (S754_finite false m e) (S754_finite false m' e')).
Proof using Hprec.
  unfold SFdiv, SFdiv_core_binary.
  set (E := Zdigits2 (Zpos m) + e - (Zdigits2 (Zpos m') + e')). set (f := Z.min (fexp E) (e - e')).
  set (s := e - e' - f). assert (Hs : 0 ≤ s) by (unfold s, f; lia).
  assert (Hn : match s with Z0 => Zpos m | Zpos _ => Z.shiftl (Zpos m) s | Zneg _ => 0 end = Zpos m * 2 ^ s).
  { rewrite <-Z.shiftl_mul_pow2 by done. destruct s; [done|done|lia]. }
  rewrite Hn. pose proof (Z.div_eucl_eq (Zpos m * 2 ^ s) (Zpos m') ltac:(done)) as Heq.
  assert (Hq : (Z.div_eucl (Zpos m * 2 ^ s) (Zpos m')).1 = Zpos m * 2 ^ s / Zpos m') by (unfold Z.div; by destruct (Z.div_eucl _ _)).
  destruct (Z.div_eucl _ _) as [q r]. cbn [fst] in Hq. cbn [xorb].
  assert (Hq0 : 0 ≤ q) by (rewrite Hq; apply Z.div_pos; lia).
  assert (Hf : f = Z.min (fexp E) (e - e')) by done. assert (Hsum : s = e - e' - f) by done.
  assert (HE0 : E = Zdigits2 (Zpos m) + e - (Zdigits2 (Zpos m') + e')) by done.
  clear Hn Heq. clearbody f s E.
  destruct (fexp_cases E) as [[Ef _]|[Ef HE]].
  - apply binary_round_aux_cost; [done| |lia]. destruct (fexp_cases (Zdigits2 q + f)); lia.
  - assert (Hd : Zdigits2 (Zpos m) + s - Zdigits2 (Zpos m') ≤ Zdigits2 q).
    { destruct (Zdigits2_bounds (Zpos m)) as [Hm _]; [done|]. destruct (Zdigits2_bounds (Zpos m')) as [_ Hm']; [done|].
      set (k := Zdigits2 (Zpos m) + s - Zdigits2 (Zpos m') - 1).
      assert (Hk : 0 ≤ k) by (unfold k; lia).
      assert (2 ^ k ≤ q); [|by pose proof (Zdigits2_ge q k Hk); lia].
      rewrite Hq. apply Z.div_le_lower_bound; [done|].
      assert (Zpos m' * 2 ^ k ≤ 2 ^ (Zdigits2 (Zpos m') + k)) by (rewrite Z.pow_add_r by (done || lia); nia).
      assert (2 ^ (Zdigits2 (Zpos m') + k) ≤ Zpos m * 2 ^ s); [|lia].
      replace (Zdigits2 (Zpos m') + k) with (Zdigits2 (Zpos m) - 1 + s) by (unfold k; lia).
      rewrite Z.pow_add_r by (simpl; lia). nia. }
    apply binary_round_aux_cost; [done| |].
    + destruct (fexp_cases (Zdigits2 q + f)); lia.
    + intros ->. change (Zdigits2 0) with 0 in Hd. lia.
Qed.
(** ** Positive numbers *)

(** Positive, and not below the smallest exponent. *)
Definition f_positive (x : spec_float) : Prop :=
  match x with
  | S754_infinity s => s = false
  | S754_finite s _ e => s = false ∧ emin ≤ e
  | _ => False
  end.

Lemma shifted_positive M e e1 : 0 < M → emin ≤ e → e1 = Z.max e (fexp (Zdigits2 M + e)) → 1 ≤ M / 2 ^ (e1 - e).
Proof using Hprec.
  intros HM He E. destruct (Z.eq_dec e1 e) as [->|Hne].
  { replace (e - e) with 0 by lia. rewrite Z.pow_0_r, Z.div_1_r. lia. }
  destruct (fexp_cases (Zdigits2 M + e)) as [[Ef _]|[Ef _]]; [lia|].
  transitivity (2 ^ (prec - 1)); [|apply normal_quotient; lia]. pose proof (Z.pow_pos_nonneg 2 (prec - 1)). lia.
Qed.

Lemma binary_round_aux_positive M e l : 0 < M → emin ≤ e → f_positive (binary_round_aux prec emax false M e l).
Proof using Hprec.
  intros HM He. destruct (binary_round_aux_steps M e l) as (e1 & m2 & e2 & E1 & Hm2 & E2 & ->); [lia|].
  pose proof (shifted_positive M e e1 HM He E1). pose proof (shifted_positive m2 e1 e2 ltac:(lia) ltac:(lia) E2).
  destruct (m2 / 2 ^ (e2 - e1)) as [|m|]; [lia| |lia]. destruct (Z.leb e2 (emax - prec)); simpl; [split; [done|lia]|done].
Qed.

Lemma binary_round_positive M e : emin ≤ e → f_positive (binary_round prec emax false M e).
Proof using Hprec.
  intros He. unfold binary_round. pose proof (shl_align_value M e (fexp (Zpos (digits2_pos M) + e))) as [H2 H1].
  destruct (shl_align _ _ _) as [mz ez]. cbn [fst snd] in *. apply binary_round_aux_positive; [lia|].
  destruct (fexp_cases (Zpos (digits2_pos M) + e)); lia.
Qed.

Lemma SFadd_positive x w : f_positive x → f_positive w → f_positive (SFadd prec emax x w).
Proof using Hprec.
  destruct x as [s|s| |s m e], w as [s'|s'| |s' m' e']; simpl; intros; destruct_and?; subst; try done.
  apply binary_round_positive. lia.
Qed.

(** A product of non-negative numbers that is not zero is positive. *)
Lemma SFmul_positive x y :
  f_is_finite x = true → f_is_finite y = true → f_le f_zero x = true → f_le f_zero y = true →
  f_le (SFmul prec emax x y) f_zero = false → f_positive (SFmul prec emax x y).
Proof using Hprec.
  destruct x as [[]|[]| |[] m e], y as [[]|[]| |[] m' e']; try done. intros _ _ _ _. cbn [SFmul xorb].
  destruct (binary_round_aux_steps (Zpos (m * m')) (e + e') loc_Exact) as (e1 & m2 & e2 & E1 & Hm2 & E2 & ->); [lia|].
  assert (0 ≤ Zpos (m * m') / 2 ^ (e1 - (e + e'))) by (apply Z.div_pos; lia).
  pose proof (Z.div_pos m2 (2 ^ (e2 - e1)) ltac:(lia) ltac:(lia)).
  destruct (m2 / 2 ^ (e2 - e1)) as [|k|]; [done| |lia]. intros _. destruct (Z.leb e2 (emax - prec)); [|done]. split; [done|].
  destruct (fexp_cases (Zdigits2 m2 + e1)); lia.
Qed.
(** A number with few digits is rounded to itself. *)
Lemma binary_round_exact M e :
  fexp (Zdigits2 (Zpos M) + e) ≤ e → Zdigits2 (Zpos M) + e ≤ emax → emin ≤ emax - prec →
  ∃ m, binary_round prec emax false M e = S754_finite false m (fexp (Zdigits2 (Zpos M) + e)) ∧
    Zpos m = Zpos M * 2 ^ (e - fexp (Zdigits2 (Zpos M) + e)).
Proof using Hprec.
  intros Hle Hmax Hmin. unfold binary_round. change (Zpos (digits2_pos M)) with (Zdigits2 (Zpos M)).
  pose proof (shl_align_value M e (fexp (Zdigits2 (Zpos M) + e))) as [H2 H1].
  destruct (shl_align _ _ _) as [mz ez]. cbn [fst snd] in *. rewrite Z.min_r in H1, H2 by lia. subst ez.
  assert (Hd : Zdigits2 (Zpos mz) = Zdigits2 (Zpos M) + (e - fexp (Zdigits2 (Zpos M) + e))) by (rewrite H1; apply Zdigits2_shift; lia).
  assert (Hf : shr_fexp prec emax (Zpos mz) (fexp (Zdigits2 (Zpos M) + e)) loc_Exact =
    ({| shr_m := Zpos mz; shr_r := false; shr_s := false |}, fexp (Zdigits2 (Zpos M) + e))).
  { unfold shr_fexp. rewrite Hd.
    replace (_ - _) with 0; [done|]. replace (Zdigits2 (Zpos M) + (e - fexp (Zdigits2 (Zpos M) + e)) + fexp (Zdigits2 (Zpos M) + e))
      with (Zdigits2 (Zpos M) + e) by lia. lia. }
  exists mz. split; [|done]. unfold binary_round_aux. rewrite Hf. cbn [shr_m loc_of_shr_record round_nearest_even]. rewrite Hf. cbn [shr_m].
  rewrite (proj2 (Z.leb_le _ _)); [done|]. destruct (fexp_cases (Zdigits2 (Zpos M) + e)); lia.
Qed.
End format.

(** The confidences of the program are proper [f32] values. *)
Definition valid_f32 (x : f32) : bool := valid_binary 24 128 x.

Lemma f64_from_f32_finite c :
  valid_f32 c = true → f_is_finite c = true → f_le f_zero c = true → f_is_finite (f64_from_f32 c) = true ∧ f_le f_zero (f64_from_f32 c) = true.
Proof.
  destruct c as [s|s| |[] m e]; try done. intros Hv _ _.
  cbn [valid_f32 valid_binary] in Hv. unfold bounded, canonical_mantissa in Hv.
  apply andb_true_iff in Hv as [Hc%Z.eqb_eq He%Z.leb_le]. change (Zpos (digits2_pos m)) with (Zdigits2 (Zpos m)) in Hc.
  unfold SpecFloat.fexp, SpecFloat.emin in Hc.
  destruct (binary_round_exact 53 1024 ltac:(lia) m e) as (k & E & _).
  - unfold SpecFloat.fexp, SpecFloat.emin. lia.
  - lia.
  - unfold SpecFloat.emin. lia.
  - cbn [f64_from_f32 cond_Zopp binary_normalize]. by rewrite E.
Qed.

(** ** [total_cmp] is a total order *)
Definition total_key (x : spec_float) : Z * (Z * Z) :=
  match x with
  | S754_finite false m e => (4, (e, Zpos m))
  | S754_finite true m e => (1, (-e, Zneg m))
  | _ => (f_total_rank x, (0, 0))
  end.

Definition total_key_cmp : Z * (Z * Z) → Z * (Z * Z) → comparison :=
  then_with (cmp_on fst Z.compare)
    (then_with (cmp_on (λ k, k.2.1) Z.compare) (cmp_on (λ k, k.2.2) Z.compare)).

#[export] Instance Z_compare_lawful : LawfulCmp Z.compare.
Proof. split; intros; [apply Z.compare_antisym|]. rewrite Z.compare_le_iff in *. lia. Qed.

Lemma f_total_cmp_key x y : f_total_cmp x y = total_key_cmp (total_key x) (total_key y).
Proof.
  unfold total_key_cmp, then_with, cmp_on.
  destruct x as [[]|[]| |[] m e], y as [[]|[]| |[] m' e']; try done; cbn [f_total_cmp eqb total_key fst snd].
  - rewrite Z.compare_opp. change (1 ?= 1) with Eq. cbn match.
    rewrite (Z.compare_antisym e e'). by destruct (e ?= e').
Qed.

#[export] Instance f_total_cmp_lawful : LawfulCmp f_total_cmp.
Proof.
  assert (L : LawfulCmp total_key_cmp) by apply _.
  split; intros *; rewrite !f_total_cmp_key; [apply cmp_antisym|]. intros H1 H2. by apply (cmp_trans _ _ _ H1 H2).
Qed.
