(* ===== verification/Query.v ===== *)
(** * Queries: shared data ([crates/code-system-graph-core/src/query.rs])

    The errors and the node index that ranked search and traversal share. *)
From stdpp Require Import base gmap list strings.
From S2P Require Import Prelude RustOrd RustFloat RustStr Model.

Inductive QueryError :=
| EmptyQuery
| InvalidPagination
| InvalidScore (signal node : string)
| QE_DuplicateNode (node : string)
| QE_DuplicateEdge (edge : string)
| QE_DanglingEdge (edge node : string)
| QE_UnknownAnchor (anchor : string)
| InvalidTraversalLimits
| InvalidMinimumConfidence
| QE_InvalidEdgeConfidence (edge : string)
| InvalidEdgeCost (kind : EdgeKind)
| QE_InconsistentPath (node : string).

Definition insert_distinct (distinct : gmap NodeId Node) (node : Node) : result QueryError (gmap NodeId Node) :=
  if contains_key distinct (node_id node) then Err (QE_DuplicateNode (node_id node))
  else Ok (<[node_id node := node]> distinct).

Definition distinct_nodes (nodes : list Node) : result QueryError (gmap NodeId Node) :=
  try_fold insert_distinct ∅ nodes.

(** The index holds exactly the given nodes, which have distinct identifiers. *)
Lemma distinct_nodes_Ok nodes m :
  distinct_nodes nodes = Ok m ↔
  NoDup (map node_id nodes) ∧ m = btree_collect (map (λ n, (node_id n, n)) nodes).
Proof.
  unfold distinct_nodes. revert m. induction nodes as [|n nodes IH] using rev_ind; intros m.
  { simpl. split; [intros [= <-]; split; [constructor|done]|by intros [_ ->]]. }
  rewrite try_fold_app, result_bind_Ok, !map_app, btree_collect_app. cbn [map foldl try_fold fst snd].
  setoid_rewrite result_bind_Ok. unfold insert_distinct.
  rewrite NoDup_app. setoid_rewrite list_elem_of_singleton.
  assert (Hfst : (map (λ n, (node_id n, n)) nodes).*1 = map node_id nodes) by (rewrite <-list_fmap_compose; done).
  split.
  - intros (m0 & [Hnd ->]%IH & m1 & Hin & [= <-]).
    destruct (contains_key _ _) eqn:E; [done|]. injection Hin as <-. split; [|done].
    apply contains_key_false, btree_collect_lookup_None in E. rewrite Hfst in E.
    split_and!; [done|intros x Hx ->; done|apply NoDup_singleton].
  - intros [(Hnd & Hdis & _) ->]. eexists. split; [by apply IH|].
    assert (contains_key (btree_collect (map (λ n, (node_id n, n)) nodes)) (node_id n) = false) as ->.
    { apply contains_key_false, btree_collect_lookup_None. rewrite Hfst. intros Hx. by apply (Hdis _ Hx). }
    eauto.
Qed.

Lemma distinct_nodes_lookup nodes m v n :
  distinct_nodes nodes = Ok m → m !! v = Some n ↔ n ∈ nodes ∧ node_id n = v.
Proof.
  intros [Hnd ->]%distinct_nodes_Ok.
  assert (Hfst : (map (λ n, (node_id n, n)) nodes).*1 = map node_id nodes) by (rewrite <-list_fmap_compose; done).
  split.
  - intros Hl%btree_collect_lookup_Some. apply list_elem_of_In, in_map_iff in Hl as (n' & [= <- <-] & Hin).
    by apply list_elem_of_In in Hin.
  - intros [Hin <-]. apply btree_collect_NoDup; [by rewrite Hfst|].
    apply list_elem_of_In, in_map_iff. exists n. by rewrite <-list_elem_of_In.
Qed.
