(* ===== verification/Compat.v ===== *)
(** * Contract comparison: findings and reports
    ([crates/code-system-graph-core/src/contract_compat.rs])

    The findings that the comparators push, and the report they end in. A
    comparator is a function to the findings it pushes, in order. *)
From stdpp Require Import base gmap sets list strings sorting pretty.
From S2P Require Import Prelude RustOrd RustStr Model.

Definition MAX_FINDING_VALUES : nat := 8.
Definition MAX_FINDING_VALUE_CHARS : nat := 512.

Inductive CompatibilityStatus := CS_Breaking | CS_PotentiallyBreaking | CS_Compatible | CS_Unknown | CS_Incomparable.
#[export] Instance CompatibilityStatus_eq_dec : EqDecision CompatibilityStatus.
Proof. solve_decision. Defined.

Record CompatibilityFinding := {
  cf_code : string;
  cf_path : string;
  cf_status : CompatibilityStatus;
  cf_factors : list string;
  cf_evidence : list string;
  cf_recommended_validations : list string;
}.

Record CompatibilityReport := {
  cr_status : CompatibilityStatus;
  cr_before_fingerprint : string;
  cr_after_fingerprint : string;
  cr_findings : list CompatibilityFinding;
}.

(** [value.chars().take(n).collect()] *)
Definition take_chars (n : nat) (value : string) : string :=
  foldr (λ c rest, snd c +:+ rest) "" (take n (chars value)).

Definition bounded_values (values : list string) : list string :=
  map (take_chars MAX_FINDING_VALUE_CHARS) (take MAX_FINDING_VALUES values).

Definition finding (code path : string) (status : CompatibilityStatus) (factors evidence recommended_validations : list string)
    : CompatibilityFinding :=
  {| cf_code := code; cf_path := path; cf_status := status; cf_factors := bounded_values factors;
     cf_evidence := bounded_values evidence; cf_recommended_validations := bounded_values recommended_validations |}.

(** The hash of the JSON text of a contract, by libraries: [None] when the
    serialisation fails. *)
Class Fingerprint (T : Type) := structured_fingerprint : T → option string.

Definition fingerprints `{Fingerprint T} (before after : T) (family : string)
    : string * string * list CompatibilityFinding :=
  let before := structured_fingerprint before in
  let after := structured_fingerprint after in
  (default "unavailable" before, default "unavailable" after,
   if negb (bool_decide (is_Some before)) || negb (bool_decide (is_Some after)) then
     [finding (family +:+ ".fingerprint_unavailable") family CS_Unknown
        ["structured contract serialization failed"] [] ["report the serialization failure and rerun extraction"]]
   else []).

Definition finding_order : CompatibilityFinding → CompatibilityFinding → comparison :=
  then_with (cmp_on cf_path cmp) (cmp_on cf_code cmp).

Definition same_finding (left right : CompatibilityFinding) : bool :=
  String.eqb (cf_path left) (cf_path right) && String.eqb (cf_code left) (cf_code right).

Definition has_status (status : CompatibilityStatus) (findings : list CompatibilityFinding) : bool :=
  existsb (λ f, bool_decide (cf_status f = status)) findings.

Definition aggregate_status (findings : list CompatibilityFinding) : CompatibilityStatus :=
  if has_status CS_Breaking findings then CS_Breaking
  else if has_status CS_PotentiallyBreaking findings then CS_PotentiallyBreaking
  else if has_status CS_Incomparable findings then CS_Incomparable
  else if has_status CS_Unknown findings then CS_Unknown
  else CS_Compatible.

Definition reported (findings : list CompatibilityFinding) : list CompatibilityFinding :=
  dedup_by same_finding (sort_by finding_order findings).

Definition finish_report (before_fingerprint after_fingerprint : string) (findings : list CompatibilityFinding)
    : CompatibilityReport :=
  {| cr_status := aggregate_status (reported findings); cr_before_fingerprint := before_fingerprint;
     cr_after_fingerprint := after_fingerprint; cr_findings := reported findings |}.

(** The last of the items of one key, as [collect::<BTreeMap<_, _>>()] keeps. *)
Definition index_by {K A} `{Countable K} (key : A → K) (items : list A) : gmap K A :=
  btree_collect (map (λ a, (key a, a)) items).

(** An inventory with a finding for every repeated key. *)
Definition inventory_step {K A} `{Countable K} (key : A → K) (duplicate : K → A → A → CompatibilityFinding)
    (s : gmap K A * list CompatibilityFinding) (a : A) : gmap K A * list CompatibilityFinding :=
  (<[key a := a]> (fst s),
   snd s ++ match fst s !! key a with Some previous => [duplicate (key a) previous a] | None => [] end).

Definition inventory {K A} `{Countable K} (key : A → K) (duplicate : K → A → A → CompatibilityFinding) (items : list A)
    : gmap K A * list CompatibilityFinding :=
  foldl (inventory_step key duplicate) (∅, []) items.

Definition line_text (line : N) : string := "line:" +:+ pretty line.

(** ** The report *)
#[export] Instance finding_order_lawful : LawfulCmp finding_order.
Proof. apply _. Qed.

Definition finding_key (f : CompatibilityFinding) : string * string := (cf_path f, cf_code f).

Lemma same_finding_true f g : same_finding f g = true ↔ finding_key f = finding_key g.
Proof. unfold same_finding, finding_key. by rewrite andb_true_iff, !String.eqb_eq, pair_equal_spec. Qed.

Lemma same_finding_order f g : same_finding f g = true ↔ finding_order f g = Eq.
Proof.
  rewrite same_finding_true. unfold finding_key, finding_order, then_with, cmp_on.
  rewrite pair_equal_spec, <-!cmp_eq_iff. destruct (cmp (cf_path f) (cf_path g)).
  - split; [by intros [_ ?]|by intros].
  - split; [by intros [? _]|by intros].
  - split; [by intros [? _]|by intros].
Qed.

Lemma reported_elem findings f : f ∈ reported findings → f ∈ findings.
Proof. intros Hf%dedup_by_subset. by apply sort_by_elem_of in Hf. Qed.

Lemma reported_kept findings f : f ∈ findings → ∃ g, g ∈ reported findings ∧ finding_key g = finding_key f.
Proof.
  intros Hf. destruct (dedup_by_kept finding_order same_finding same_finding_order (sort_by finding_order findings) f) as (g & Hg & E).
  { by apply sort_by_elem_of. }
  exists g. split; [done|]. by apply same_finding_true, same_finding_order.
Qed.

Lemma reported_strict findings : StronglySorted (λ f g, finding_order f g = Lt) (reported findings).
Proof. apply dedup_by_strict; [apply _|apply same_finding_order|apply sort_by_sorted, _]. Qed.

Lemma has_status_true status findings : has_status status findings = true ↔ ∃ f, f ∈ findings ∧ cf_status f = status.
Proof. unfold has_status. rewrite existsb_In. by setoid_rewrite bool_decide_eq_true. Qed.

(** Findings on one coordinate by one rule agree on the status. *)
Definition coherent (findings : list CompatibilityFinding) : Prop :=
  ∀ f g, f ∈ findings → g ∈ findings → finding_key f = finding_key g → cf_status f = cf_status g.

Lemma coherent_status findings status : coherent findings → has_status status (reported findings) = has_status status findings.
Proof.
  intros Hc. apply eq_true_iff_eq. rewrite !has_status_true. split.
  - intros (f & Hf%reported_elem & Hs). eauto.
  - intros (f & Hf & Hs). destruct (reported_kept _ _ Hf) as (g & Hg & Hk). exists g. split; [done|].
    rewrite <-Hs. apply Hc; [by apply reported_elem|done..].
Qed.

Lemma coherent_aggregate findings : coherent findings → aggregate_status (reported findings) = aggregate_status findings.
Proof. intros Hc. unfold aggregate_status. by rewrite !coherent_status. Qed.

Lemma aggregate_Breaking findings : aggregate_status findings = CS_Breaking ↔ ∃ f, f ∈ findings ∧ cf_status f = CS_Breaking.
Proof.
  rewrite <-has_status_true. unfold aggregate_status. destruct (has_status CS_Breaking findings); [done|].
  split; [|done]. by repeat destruct (has_status _ _).
Qed.

Lemma aggregate_Compatible findings :
  aggregate_status findings = CS_Compatible ↔ ∀ f, f ∈ findings → cf_status f = CS_Compatible.
Proof.
  split.
  - unfold aggregate_status.
    destruct (has_status CS_Breaking findings) eqn:E1; [done|]. destruct (has_status CS_PotentiallyBreaking findings) eqn:E2; [done|].
    destruct (has_status CS_Incomparable findings) eqn:E3; [done|]. destruct (has_status CS_Unknown findings) eqn:E4; [done|].
    assert (Hn : ∀ st, has_status st findings = false → ∀ f, f ∈ findings → cf_status f ≠ st).
    { intros st E f Hf Hs. apply not_true_iff_false in E. apply E, has_status_true. by exists f. }
    intros _ f Hf. pose proof (Hn _ E1 f Hf). pose proof (Hn _ E2 f Hf). pose proof (Hn _ E3 f Hf). pose proof (Hn _ E4 f Hf).
    by destruct (cf_status f).
  - intros Hall. unfold aggregate_status.
    assert (Hn : ∀ st, st ≠ CS_Compatible → has_status st findings = false).
    { intros st Hst. apply not_true_iff_false. rewrite has_status_true. intros (f & Hf & <-). by apply Hst, Hall. }
    by rewrite !Hn.
Qed.

(** ** The status by rule *)

(** Every finding has the status of its code. *)
Definition by_rule (status_of : string → CompatibilityStatus) (findings : list CompatibilityFinding) : Prop :=
  Forall (λ f, cf_status f = status_of (cf_code f)) findings.

Lemma by_rule_coherent status_of findings : by_rule status_of findings → coherent findings.
Proof. intros Hr f g Hf Hg [= _ Hc]. rewrite (proj1 (Forall_forall _ _) Hr f Hf), (proj1 (Forall_forall _ _) Hr g Hg). by rewrite Hc. Qed.

Lemma by_rule_app status_of findings findings' :
  by_rule status_of (findings ++ findings') ↔ by_rule status_of findings ∧ by_rule status_of findings'.
Proof. apply Forall_app. Qed.

(** Every rule is a breaking one, but for the [unknown] ones. *)
Definition breaking_unless (unknown : list string) (code : string) : CompatibilityStatus :=
  if bool_decide (code ∈ unknown) then CS_Unknown else CS_Breaking.

Lemma breaking_report unknown findings :
  by_rule (breaking_unless unknown) findings →
  (aggregate_status (reported findings) = CS_Breaking ↔ ∃ f, f ∈ findings ∧ cf_code f ∉ unknown) ∧
  (aggregate_status (reported findings) = CS_Compatible ↔ findings = []).
Proof.
  intros Hr. rewrite (coherent_aggregate _ (by_rule_coherent _ _ Hr)), aggregate_Breaking, aggregate_Compatible.
  unfold by_rule, breaking_unless in Hr. rewrite Forall_forall in Hr. split; split.
  - intros (f & Hf & Hs). exists f. split; [done|]. rewrite (Hr f Hf) in Hs. by case_bool_decide.
  - intros (f & Hf & Hc). exists f. split; [done|]. by rewrite (Hr f Hf), bool_decide_eq_false_2.
  - intros Hall. destruct findings as [|f l]; [done|]. specialize (Hall f (list_elem_of_here _ _)).
    rewrite Hr in Hall by apply list_elem_of_here. by case_bool_decide.
  - intros -> f Hf. by apply not_elem_of_nil in Hf.
Qed.

(** A finding of a rule that is not an [unknown] one. *)
Definition breaking_rule (unknown : list string) (f : CompatibilityFinding) : Prop :=
  cf_status f = CS_Breaking ∧ cf_code f ∉ unknown.

Definition unknown_rule (unknown : list string) (f : CompatibilityFinding) : Prop :=
  cf_status f = CS_Unknown ∧ cf_code f ∈ unknown.

Lemma exact_report unknown missing rules :
  Forall (unknown_rule unknown) missing → Forall (breaking_rule unknown) rules →
  (aggregate_status (reported (missing ++ rules)) = CS_Breaking ↔ rules ≠ []) ∧
  (aggregate_status (reported (missing ++ rules)) = CS_Compatible ↔ rules = [] ∧ missing = []).
Proof.
  intros Hm Hr. destruct (breaking_report unknown (missing ++ rules)) as [-> ->].
  { apply by_rule_app. unfold by_rule, breaking_unless. split; (eapply Forall_impl; [eassumption|]); intros f [-> Hc]; by case_bool_decide. }
  rewrite Forall_forall in Hm, Hr. split.
  - split; [|destruct rules as [|f l]; [done|]].
    + intros (f & [Hf|Hf]%elem_of_app & Hc) ->; [by destruct (Hm f Hf)|by apply not_elem_of_nil in Hf].
    + intros _. exists f. split; [apply elem_of_app; right; by left|]. apply Hr. by left.
  - rewrite app_nil. tauto.
Qed.

Lemma Forall_flat_map_intro {A B} (P : B → Prop) (f : A → list B) l : (∀ x, Forall P (f x)) → Forall P (flat_map f l).
Proof. intros Hf. apply Forall_flat_map. by apply Forall_true. Qed.

Lemma fingerprints_known `{Fingerprint T} (before after : T) family :
  snd (fingerprints before after family) = [] ↔ is_Some (structured_fingerprint before) ∧ is_Some (structured_fingerprint after).
Proof. unfold fingerprints. simpl. repeat case_bool_decide; cbn [negb orb]; naive_solver. Qed.

Lemma fingerprints_unknown `{Fingerprint T} (before after : T) family unknown :
  family +:+ ".fingerprint_unavailable" ∈ unknown → Forall (unknown_rule unknown) (snd (fingerprints before after family)).
Proof. intros Hu. unfold fingerprints. simpl. destruct (_ || _); repeat constructor. done. Qed.

(** ** Inventories *)
Lemma flat_map_nil {A B} (f : A → list B) l : flat_map f l = [] ↔ ∀ x, x ∈ l → f x = [].
Proof.
  induction l as [|x l IH]; simpl; [split; [intros _ x Hx; by apply not_elem_of_nil in Hx|done]|].
  setoid_rewrite elem_of_cons. split.
  - intros [Hx Hl]%app_nil. intros y [->|Hy]; [done|]. by apply IH.
  - intros Hall. rewrite (Hall x) by auto. apply IH. auto.
Qed.

Lemma index_by_found {K A} `{Countable K, !Ord K, !TotalOrd K} (key : A → K) (items : list A) k a :
  index_by key items !! k = Some a → a ∈ items ∧ key a = k.
Proof.
  unfold index_by. intros Hl%btree_collect_lookup_Some. apply list_elem_of_In, in_map_iff in Hl as (b & [= <- <-] & Hb).
  by rewrite list_elem_of_In.
Qed.

Lemma index_by_lookup {K A} `{Countable K, !Ord K, !TotalOrd K} (key : A → K) (items : list A) k a :
  NoDup (map key items) → index_by key items !! k = Some a ↔ a ∈ items ∧ key a = k.
Proof.
  intros Hnd. unfold index_by. assert (Hfst : (map (λ a, (key a, a)) items).*1 = map key items).
  { change (map fst (map (λ a, (key a, a)) items) = map key items). by rewrite map_map. }
  split.
  - apply index_by_found.
  - intros [Ha <-]. apply btree_collect_NoDup; [by rewrite Hfst|].
    apply list_elem_of_In, in_map_iff. exists a. by rewrite <-list_elem_of_In.
Qed.

(** ** Bounds *)
Lemma str_take_length n s : (String.length (str_take n s) <= n)%nat.
Proof. revert s. induction n as [|n IH]; intros [|c s]; simpl; try lia. specialize (IH s). lia. Qed.

Lemma utf8_width_le lead : (utf8_width lead <= 4)%nat.
Proof. unfold utf8_width. repeat case_match; lia. Qed.

Lemma chars_piece s c : c ∈ chars s → (String.length (snd c) <= 4)%nat.
Proof.
  unfold chars. generalize (String.length s) as fuel. intros fuel. revert s. induction fuel as [|fuel IH]; intros [|a s]; simpl;
    try (intros Hc; by apply not_elem_of_nil in Hc). intros [->|Hc]%elem_of_cons; [|by eapply IH].
  simpl. etrans; [apply str_take_length|apply utf8_width_le].
Qed.

Lemma take_chars_length n value : (String.length (take_chars n value) <= 4 * n)%nat.
Proof.
  unfold take_chars. assert (Hall : ∀ c, c ∈ take n (chars value) → (String.length (snd c) <= 4)%nat).
  { intros c Hc. apply (chars_piece value). rewrite <-(take_drop n (chars value)). apply elem_of_app. by left. }
  assert (Hlen : (length (take n (chars value)) <= n)%nat) by (rewrite length_take; lia).
  revert Hall Hlen. generalize (take n (chars value)) as l. intros l. revert n. induction l as [|c l IH]; intros n Hall Hlen; simpl; [lia|].
  simpl in Hlen. rewrite string_length_app. specialize (IH (n - 1)%nat). specialize (Hall c) as Hc.
  assert (String.length (snd c) <= 4)%nat by (apply Hc; by left).
  assert (String.length (foldr (λ c rest, snd c +:+ rest) "" l) <= 4 * (n - 1))%nat; [|lia].
  apply IH; [intros; apply Hall; by right|lia].
Qed.

Definition bounded (values : list string) : Prop :=
  (length values <= MAX_FINDING_VALUES)%nat ∧ ∀ v, v ∈ values → (String.length v <= 4 * MAX_FINDING_VALUE_CHARS)%nat.

Lemma bounded_values_bounded values : bounded (bounded_values values).
Proof.
  unfold bounded, bounded_values. rewrite length_map, length_take. split; [lia|].
  intros v (w & <- & _)%list_elem_of_In%in_map_iff. apply take_chars_length.
Qed.
