(* ===== verification/CompatProto.v ===== *)
(** * Contract comparison: protobuf
    ([crates/code-system-graph-core/src/contract_compat.rs, protobuf_contracts.rs]) *)
From stdpp Require Import base gmap sets list strings sorting pretty.
From S2P Require Import Prelude RustOrd RustStr Model Compat.

(** ** Contracts *)
Inductive ProtoSyntax := Proto2 | Proto3 | Proto_Edition (version : string).

Inductive ProtoFieldCardinality := Singular | Card_Optional | Required | Repeated.
#[export] Instance ProtoFieldCardinality_eq_dec : EqDecision ProtoFieldCardinality.
Proof. solve_decision. Defined.

Inductive ProtoWireType := Varint | Fixed64 | LengthDelimited | StartGroup | Fixed32 | WT_Unknown.
#[export] Instance ProtoWireType_eq_dec : EqDecision ProtoWireType.
Proof. solve_decision. Defined.

Record ProtoField := {
  pf_name : string;
  pf_number : Z;
  pf_type_name : string;
  pf_wire_type : ProtoWireType;
  pf_cardinality : ProtoFieldCardinality;
  pf_oneof : option string;
  pf_map_key_type : option string;
  pf_map_value_type : option string;
  pf_options : gmap string string;
  pf_line : N;
}.

Record ProtoEnumValue := { pv_name : string; pv_number : Z; pv_options : gmap string string; pv_line : N }.

Record ProtoEnum := {
  pe_name : string;
  pe_full_name : string;
  pe_values : list ProtoEnumValue;
  pe_reserved_numbers : list string;
  pe_reserved_names : list string;
  pe_options : gmap string string;
  pe_line : N;
}.

Inductive ProtoMessage := {
  pm_name : string;
  pm_full_name : string;
  pm_fields : list ProtoField;
  pm_messages : list ProtoMessage;
  pm_enums : list ProtoEnum;
  pm_reserved_numbers : list string;
  pm_reserved_names : list string;
  pm_options : gmap string string;
  pm_is_extension : bool;
  pm_line : N;
}.

Record ProtoRpcMethod := {
  pr_name : string;
  pr_request_type : string;
  pr_response_type : string;
  pr_client_streaming : bool;
  pr_server_streaming : bool;
  pr_options : gmap string string;
  pr_line : N;
}.

Record ProtoService := {
  ps_name : string;
  ps_full_name : string;
  ps_methods : list ProtoRpcMethod;
  ps_options : gmap string string;
  ps_line : N;
}.

Record ProtoFile := {
  pfl_source_path : string;
  pfl_syntax : ProtoSyntax;
  pfl_syntax_line : option N;
  pfl_package : option string;
  pfl_package_line : option N;
  pfl_imports : list string;
  pfl_public_imports : list string;
  pfl_weak_imports : list string;
  pfl_import_lines : gmap string N;
  pfl_options : gmap string string;
  pfl_messages : list ProtoMessage;
  pfl_enums : list ProtoEnum;
  pfl_services : list ProtoService;
}.

(** ** The comparator *)
Definition proto_breaking (code path : string) (line : N) (factor : string) : CompatibilityFinding :=
  finding code path CS_Breaking [factor] [line_text line]
    ["regenerate clients and run protobuf wire-compatibility tests before release"].

Fixpoint append_message (output : gmap string ProtoMessage) (message : ProtoMessage) : gmap string ProtoMessage :=
  fold_left append_message (pm_messages message) (<[pm_full_name message := message]> output).

Definition flatten_messages (messages : list ProtoMessage) : gmap string ProtoMessage :=
  fold_left append_message messages ∅.

Definition insert_enum (output : gmap string ProtoEnum) (enumeration : ProtoEnum) : gmap string ProtoEnum :=
  <[pe_full_name enumeration := enumeration]> output.

Fixpoint append_enums (output : gmap string ProtoEnum) (message : ProtoMessage) : gmap string ProtoEnum :=
  fold_left append_enums (pm_messages message) (fold_left insert_enum (pm_enums message) output).

Definition flatten_enums (messages : list ProtoMessage) (enums : list ProtoEnum) : gmap string ProtoEnum :=
  fold_left append_enums messages (index_by pe_full_name enums).

Definition compare_proto_field (name : string) (by_number : gmap Z ProtoField) (by_name : gmap string ProtoField)
    (field : ProtoField) : list CompatibilityFinding :=
  match by_number !! pf_number field with
  | None =>
      [proto_breaking "protobuf.field_removed" (name +:+ "." +:+ pf_name field) (pf_line field)
         "field number is absent from the candidate message"]
  | Some number_match =>
      (if String.eqb (pf_name number_match) (pf_name field) then []
       else [proto_breaking "protobuf.field_number_reused" (name +:+ "." +:+ pretty (pf_number field)) (pf_line number_match)
               "field number is assigned to a different name"])
      ++ (if negb (bool_decide (pf_wire_type number_match = pf_wire_type field))
             || negb (String.eqb (pf_type_name number_match) (pf_type_name field))
             || negb (bool_decide (pf_cardinality number_match = pf_cardinality field))
          then [proto_breaking "protobuf.field_wire_incompatible" (name +:+ "." +:+ pretty (pf_number field))
                  (pf_line number_match) "field type, wire encoding, or cardinality changed"]
          else [])
      ++ match by_name !! pf_name field with
         | Some name_match =>
             if negb (pf_number name_match =? pf_number field)%Z then
               [proto_breaking "protobuf.field_number_changed" (name +:+ "." +:+ pf_name field) (pf_line name_match)
                  "field name moved to a different number"]
             else []
         | None => []
         end
  end.

Definition required_addition (name : string) (previous : ProtoMessage) (field : ProtoField) : list CompatibilityFinding :=
  if bool_decide (pf_cardinality field = Required)
     && negb (existsb (λ p, String.eqb (pf_name p) (pf_name field)) (pm_fields previous))
  then [proto_breaking "protobuf.required_field_added" (name +:+ "." +:+ pf_name field) (pf_line field)
          "required proto2 field was added"]
  else [].

Definition compare_proto_message (after_messages : gmap string ProtoMessage) (entry : string * ProtoMessage)
    : list CompatibilityFinding :=
  let '(name, previous) := entry in
  match after_messages !! name with
  | None => [proto_breaking "protobuf.message_removed" name (pm_line previous) "message is absent from the candidate schema"]
  | Some candidate =>
      flat_map (compare_proto_field name (index_by pf_number (pm_fields candidate)) (index_by pf_name (pm_fields candidate)))
        (pm_fields previous)
      ++ flat_map (required_addition name previous) (pm_fields candidate)
  end.

Definition compare_proto_messages (before after : ProtoFile) : list CompatibilityFinding :=
  flat_map (compare_proto_message (flatten_messages (pfl_messages after))) (btree_entries (flatten_messages (pfl_messages before))).

Definition compare_proto_value (name : string) (current_numbers : gmap Z string) (value : ProtoEnumValue)
    : list CompatibilityFinding :=
  if bool_decide (current_numbers !! pv_number value = Some (pv_name value)) then []
  else [proto_breaking "protobuf.enum_numeric_changed" (name +:+ "." +:+ pv_name value) (pv_line value)
          "enum numeric value was removed or reassigned"].

Definition current_numbers (values : list ProtoEnumValue) : gmap Z string :=
  btree_collect (map (λ v, (pv_number v, pv_name v)) values).

Definition compare_proto_enum (after_enums : gmap string ProtoEnum) (entry : string * ProtoEnum) : list CompatibilityFinding :=
  let '(name, previous) := entry in
  match after_enums !! name with
  | None => [proto_breaking "protobuf.enum_removed" name (pe_line previous) "enum is absent from the candidate schema"]
  | Some candidate => flat_map (compare_proto_value name (current_numbers (pe_values candidate))) (pe_values previous)
  end.

Definition compare_proto_enums (before after : ProtoFile) : list CompatibilityFinding :=
  flat_map (compare_proto_enum (flatten_enums (pfl_messages after) (pfl_enums after)))
    (btree_entries (flatten_enums (pfl_messages before) (pfl_enums before))).

Definition compare_proto_method (service : ProtoService) (methods : gmap string ProtoRpcMethod) (method : ProtoRpcMethod)
    : list CompatibilityFinding :=
  let path := ps_full_name service +:+ "/" +:+ pr_name method in
  match methods !! pr_name method with
  | None => [proto_breaking "protobuf.method_removed" path (pr_line method) "RPC method is absent from the candidate service"]
  | Some current =>
      if negb (String.eqb (pr_request_type method) (pr_request_type current))
         || negb (String.eqb (pr_response_type method) (pr_response_type current))
         || negb (Bool.eqb (pr_client_streaming method) (pr_client_streaming current))
         || negb (Bool.eqb (pr_server_streaming method) (pr_server_streaming current))
      then [proto_breaking "protobuf.method_signature_changed" path (pr_line current)
              "RPC request, response, or streaming mode changed"]
      else []
  end.

Definition compare_proto_service (current : gmap string ProtoService) (service : ProtoService) : list CompatibilityFinding :=
  match current !! ps_full_name service with
  | None => [proto_breaking "protobuf.service_removed" (ps_full_name service) (ps_line service)
               "service is absent from the candidate schema"]
  | Some candidate => flat_map (compare_proto_method service (index_by pr_name (ps_methods candidate))) (ps_methods service)
  end.

Definition compare_proto_services (before after : ProtoFile) : list CompatibilityFinding :=
  flat_map (compare_proto_service (index_by ps_full_name (pfl_services after))) (pfl_services before).

Definition package_change (before after : ProtoFile) : list CompatibilityFinding :=
  if bool_decide (pfl_package before = pfl_package after) then []
  else [proto_breaking "protobuf.package_renamed" (default "<root>" (pfl_package before)) (default 1%N (pfl_package_line before))
          "protobuf package changed"].

Definition proto_findings (before after : ProtoFile) : list CompatibilityFinding :=
  package_change before after ++ compare_proto_messages before after ++ compare_proto_enums before after
  ++ compare_proto_services before after.

Definition compare_protobuf_contracts `{Fingerprint ProtoFile} (before after : ProtoFile) : CompatibilityReport :=
  let '(before_fingerprint, after_fingerprint, findings) := fingerprints before after "protobuf" in
  finish_report before_fingerprint after_fingerprint (findings ++ proto_findings before after).

(** ** Specification *)

(** A field is kept: one of the same number, name, type, encoding and cardinality. *)
Definition field_kept (candidate : ProtoMessage) (f : ProtoField) : Prop :=
  ∃ f', f' ∈ pm_fields candidate ∧ pf_number f' = pf_number f ∧ pf_name f' = pf_name f ∧
    pf_wire_type f' = pf_wire_type f ∧ pf_type_name f' = pf_type_name f ∧ pf_cardinality f' = pf_cardinality f.

Definition message_kept (previous candidate : ProtoMessage) : Prop :=
  (∀ f, f ∈ pm_fields previous → field_kept candidate f) ∧
  (∀ f, f ∈ pm_fields candidate → pf_cardinality f = Required → ∃ p, p ∈ pm_fields previous ∧ pf_name p = pf_name f).

Definition value_kept (candidate : ProtoEnum) (v : ProtoEnumValue) : Prop :=
  ∃ v', v' ∈ pe_values candidate ∧ pv_number v' = pv_number v ∧ pv_name v' = pv_name v.

Definition method_kept (candidate : ProtoService) (m : ProtoRpcMethod) : Prop :=
  ∃ m', m' ∈ ps_methods candidate ∧ pr_name m' = pr_name m ∧ pr_request_type m' = pr_request_type m ∧
    pr_response_type m' = pr_response_type m ∧ pr_client_streaming m' = pr_client_streaming m ∧
    pr_server_streaming m' = pr_server_streaming m.

Record proto_compatible (before after : ProtoFile) : Prop := {
  pc_package : pfl_package before = pfl_package after;
  pc_messages : ∀ name m, flatten_messages (pfl_messages before) !! name = Some m →
    ∃ m', flatten_messages (pfl_messages after) !! name = Some m' ∧ message_kept m m';
  pc_enums : ∀ name e, flatten_enums (pfl_messages before) (pfl_enums before) !! name = Some e →
    ∃ e', flatten_enums (pfl_messages after) (pfl_enums after) !! name = Some e' ∧ ∀ v, v ∈ pe_values e → value_kept e' v;
  pc_services : ∀ s, s ∈ pfl_services before →
    ∃ s', s' ∈ pfl_services after ∧ ps_full_name s' = ps_full_name s ∧ ∀ m, m ∈ ps_methods s → method_kept s' m;
}.

(** No coordinate is declared twice, as extraction ensures but for enum aliases. *)
Record proto_distinct (file : ProtoFile) : Prop := {
  pd_fields : ∀ name m, flatten_messages (pfl_messages file) !! name = Some m →
    NoDup (map pf_name (pm_fields m)) ∧ NoDup (map pf_number (pm_fields m));
  pd_values : ∀ name e, flatten_enums (pfl_messages file) (pfl_enums file) !! name = Some e → NoDup (map pv_number (pe_values e));
  pd_services : NoDup (map ps_full_name (pfl_services file));
  pd_methods : ∀ s, s ∈ pfl_services file → NoDup (map pr_name (ps_methods s));
}.


Section exact.
(** Without a finding everything is kept, whatever is declared twice. *)
Lemma compare_proto_field_sound name candidate f :
  compare_proto_field name (index_by pf_number (pm_fields candidate)) (index_by pf_name (pm_fields candidate)) f = [] →
  field_kept candidate f.
Proof.
  unfold compare_proto_field, field_kept.
  destruct (index_by pf_number _ !! _) as [f'|] eqn:E; [|done]. apply index_by_found in E as [Hf' Hn].
  intros [H1 [H2 _]%app_nil]%app_nil. exists f'.
  destruct (String.eqb_spec (pf_name f') (pf_name f)) as [Hname|]; [|done].
  destruct (bool_decide (pf_wire_type f' = pf_wire_type f)) eqn:Ew; [|done]. apply bool_decide_eq_true in Ew.
  destruct (String.eqb_spec (pf_type_name f') (pf_type_name f)) as [Ht|]; [|done].
  destruct (bool_decide (pf_cardinality f' = pf_cardinality f)) eqn:Ec; [|done]. apply bool_decide_eq_true in Ec.
  by split_and!.
Qed.

Lemma compare_proto_value_sound name candidate v :
  compare_proto_value name (current_numbers (pe_values candidate)) v = [] → value_kept candidate v.
Proof.
  unfold compare_proto_value, value_kept, current_numbers. case_bool_decide as Hl; [intros _|done].
  apply btree_collect_lookup_Some, list_elem_of_In, in_map_iff in Hl as (v' & [= E1 E2] & Hv'). exists v'.
  by rewrite list_elem_of_In.
Qed.

Lemma compare_proto_method_sound s candidate m :
  compare_proto_method s (index_by pr_name (ps_methods candidate)) m = [] → method_kept candidate m.
Proof.
  unfold compare_proto_method, method_kept. destruct (_ !! pr_name m) as [m'|] eqn:E; [|done]. apply index_by_found in E as [Hm' Hn].
  destruct (_ || _) eqn:Eo; [done|]. rewrite !orb_false_iff, !negb_false_iff, !String.eqb_eq, !Bool.eqb_true_iff in Eo.
  intros _. exists m'. naive_solver.
Qed.

Lemma compare_proto_service_sound services s :
  compare_proto_service (index_by ps_full_name services) s = [] →
  ∃ s', s' ∈ services ∧ ps_full_name s' = ps_full_name s ∧ ∀ m, m ∈ ps_methods s → method_kept s' m.
Proof.
  unfold compare_proto_service. destruct (_ !! ps_full_name s) as [s'|] eqn:E; [|done]. apply index_by_found in E as [Hs' Hn].
  rewrite flat_map_nil. intros Hall. exists s'. split_and!; [done..|]. intros m Hin. by eapply compare_proto_method_sound, Hall.
Qed.

Lemma compare_proto_field_nil name candidate f :
  NoDup (map pf_name (pm_fields candidate)) → NoDup (map pf_number (pm_fields candidate)) →
  compare_proto_field name (index_by pf_number (pm_fields candidate)) (index_by pf_name (pm_fields candidate)) f = [] ↔
  field_kept candidate f.
Proof.
  intros Hnames Hnumbers. split.
  - apply compare_proto_field_sound.
  - unfold compare_proto_field. intros (f' & Hf' & Hn & Hname & Hw & Ht & Hc).
    rewrite (proj2 (index_by_lookup pf_number _ _ f' Hnumbers) (conj Hf' Hn)).
    rewrite (proj2 (index_by_lookup pf_name _ _ f' Hnames) (conj Hf' Hname)).
    rewrite Hname, Hn, Ht, String.eqb_refl, !bool_decide_eq_true_2 by done. cbn [negb orb app].
    by rewrite String.eqb_refl, Z.eqb_refl.
Qed.

Lemma required_addition_nil name previous f :
  required_addition name previous f = [] ↔
  (pf_cardinality f = Required → ∃ p, p ∈ pm_fields previous ∧ pf_name p = pf_name f).
Proof.
  unfold required_addition. case_bool_decide as Hc; cbn [andb]; [|done].
  destruct (existsb _ _) eqn:E; cbn [negb].
  - split; [|done]. intros _ _. apply existsb_In in E as (p & Hp & Hn). exists p. by apply String.eqb_eq in Hn.
  - split; [done|]. intros (p & Hp & Hn); [done|]. apply (existsb_false_In _ _) with (x := p) in E; [|done].
    by rewrite Hn, String.eqb_refl in E.
Qed.

Lemma compare_proto_message_nil messages name previous :
  (∀ m, messages !! name = Some m → NoDup (map pf_name (pm_fields m)) ∧ NoDup (map pf_number (pm_fields m))) →
  compare_proto_message messages (name, previous) = [] ↔ ∃ m', messages !! name = Some m' ∧ message_kept previous m'.
Proof.
  intros Hnd. unfold compare_proto_message, message_kept. destruct (messages !! name) as [m|]; [|naive_solver].
  destruct (Hnd m eq_refl) as [Hnames Hnumbers].
  rewrite app_nil, !flat_map_nil. setoid_rewrite required_addition_nil.
  setoid_rewrite (compare_proto_field_nil _ _ _ Hnames Hnumbers). naive_solver.
Qed.

Lemma compare_proto_enum_nil enums name previous :
  (∀ e, enums !! name = Some e → NoDup (map pv_number (pe_values e))) →
  compare_proto_enum enums (name, previous) = [] ↔
  ∃ e', enums !! name = Some e' ∧ ∀ v, v ∈ pe_values previous → value_kept e' v.
Proof.
  intros Hnd. unfold compare_proto_enum. destruct (enums !! name) as [e|]; [|naive_solver]. specialize (Hnd e eq_refl).
  rewrite flat_map_nil.
  assert (Hv : ∀ v, compare_proto_value name (current_numbers (pe_values e)) v = [] ↔ value_kept e v).
  { intros v. split; [apply compare_proto_value_sound|]. unfold compare_proto_value, value_kept, current_numbers.
    assert (Hfst : (map (λ v, (pv_number v, pv_name v)) (pe_values e)).*1 = map pv_number (pe_values e)).
    { change (map fst (map (λ v, (pv_number v, pv_name v)) (pe_values e)) = map pv_number (pe_values e)). by rewrite map_map. }
    case_bool_decide as Hl; [done|]. intros (v' & Hv' & E1 & E2). destruct Hl. apply btree_collect_NoDup; [by rewrite Hfst|].
    apply list_elem_of_In, in_map_iff. exists v'. rewrite <-list_elem_of_In, E1, E2. done. }
  setoid_rewrite Hv. naive_solver.
Qed.

Lemma compare_proto_service_nil services s :
  NoDup (map ps_full_name services) → (∀ s, s ∈ services → NoDup (map pr_name (ps_methods s))) →
  compare_proto_service (index_by ps_full_name services) s = [] ↔
  ∃ s', s' ∈ services ∧ ps_full_name s' = ps_full_name s ∧ ∀ m, m ∈ ps_methods s → method_kept s' m.
Proof.
  intros Hnd Hmethods.
  assert (Hm : ∀ s' m, s' ∈ services →
    compare_proto_method s (index_by pr_name (ps_methods s')) m = [] ↔ method_kept s' m).
  { intros s' m Hs'. specialize (Hmethods s' Hs'). split.
    - apply compare_proto_method_sound.
    - unfold compare_proto_method. intros (m' & Hm' & Hn & Hq & Hr & Hc & Hs). rewrite (proj2 (index_by_lookup pr_name _ _ m' Hmethods) (conj Hm' Hn)).
      by rewrite Hq, Hr, Hc, Hs, !String.eqb_refl, !Bool.eqb_reflx. }
  split.
  - apply compare_proto_service_sound.
  - unfold compare_proto_service. intros (s' & Hs' & Hn & Hall). rewrite (proj2 (index_by_lookup ps_full_name _ _ s' Hnd) (conj Hs' Hn)).
    rewrite flat_map_nil. intros m Hin. by apply Hm, Hall.
Qed.

Lemma proto_findings_sound before after : proto_findings before after = [] → proto_compatible before after.
Proof.
  unfold proto_findings, package_change. rewrite !app_nil.
  unfold compare_proto_messages, compare_proto_enums, compare_proto_services. rewrite !flat_map_nil.
  case_bool_decide; [|by intros [? _]]. intros (_ & Hm & He & Hs). split; [done| | |].
  - intros name m Hl%btree_entries_elem_of. specialize (Hm (name, m) Hl). unfold compare_proto_message in Hm.
    destruct (_ !! name) as [m'|]; [|done]. exists m'. split; [done|]. rewrite app_nil, !flat_map_nil in Hm.
    destruct Hm as [Hf Hr]. split; [intros f Hin; by eapply compare_proto_field_sound, Hf|].
    intros f Hin. by eapply required_addition_nil, Hr.
  - intros name e Hl%btree_entries_elem_of. specialize (He (name, e) Hl). unfold compare_proto_enum in He.
    destruct (_ !! name) as [e'|]; [|done]. exists e'. split; [done|]. rewrite flat_map_nil in He.
    intros v Hin. by eapply compare_proto_value_sound, He.
  - intros s Hin. by apply compare_proto_service_sound, Hs.
Qed.

Lemma proto_findings_nil before after :
  proto_distinct after → proto_findings before after = [] ↔ proto_compatible before after.
Proof.
  intros [Hfields Hvalues Hservices Hmethods]. split; [apply proto_findings_sound|].
  unfold proto_findings, package_change. rewrite !app_nil.
  unfold compare_proto_messages, compare_proto_enums, compare_proto_services. rewrite !flat_map_nil.
  intros [Hp Hm He Hs]. rewrite bool_decide_eq_true_2 by done. split_and!; [done| | |].
  - intros [name m] Hl%btree_entries_elem_of. apply (compare_proto_message_nil _ _ _ (Hfields name)). by apply Hm.
  - intros [name e] Hl%btree_entries_elem_of. apply (compare_proto_enum_nil _ _ _ (Hvalues name)). by apply He.
  - intros s Hin. apply compare_proto_service_nil; [done..|]. by apply Hs.
Qed.

Definition unknown_rules : list string := ["protobuf.fingerprint_unavailable"].

Lemma proto_findings_breaking before after : Forall (breaking_rule unknown_rules) (proto_findings before after).
Proof.
  assert (Hb : ∀ code path line factor, code ∉ unknown_rules →
    Forall (breaking_rule unknown_rules) [proto_breaking code path line factor]) by (intros; by repeat constructor).
  assert (Hc : ∀ code, code ≠ "protobuf.fingerprint_unavailable" → code ∉ unknown_rules) by (by intros code Hn ->%list_elem_of_singleton).
  unfold proto_findings, package_change, compare_proto_messages, compare_proto_enums, compare_proto_services.
  rewrite !Forall_app. split_and!.
  - case_bool_decide; [constructor|by apply Hb, Hc].
  - apply Forall_flat_map_intro. intros [name m]. unfold compare_proto_message. case_match; [|by apply Hb, Hc]. apply Forall_app. split; apply Forall_flat_map_intro; intros x.
    + unfold compare_proto_field. repeat case_match; repeat (apply Forall_app; split); try (by apply Hb, Hc); constructor.
    + unfold required_addition. case_match; [by apply Hb, Hc|constructor].
  - apply Forall_flat_map_intro. intros [name e]. unfold compare_proto_enum. case_match; [|by apply Hb, Hc]. apply Forall_flat_map_intro. intros v.
    unfold compare_proto_value. case_match; [constructor|by apply Hb, Hc].
  - apply Forall_flat_map_intro. intros s. unfold compare_proto_service. case_match; [|by apply Hb, Hc]. apply Forall_flat_map_intro. intros m.
    unfold compare_proto_method. repeat case_match; try (by apply Hb, Hc); constructor.
Qed.
End exact.

(** C39: The protobuf comparison never misses a break: it is [Breaking] whenever
    the candidate is not compatible, that is, the package is renamed, a message, enum,
    service or method is missing, a field changed its number, name, type, encoding or
    cardinality, a required field was added, an enum value was removed or reassigned,
    or a signature changed; [Compatible] is only said of a compatible candidate whose
    and whose predecessor's fingerprints are known. On a candidate that declares no
    coordinate twice, which excludes enums with aliases, both are exact. *)
Theorem protobuf_comparison_exact `{Fingerprint ProtoFile} before after :
  let status := cr_status (compare_protobuf_contracts before after) in
  (¬ proto_compatible before after → status = CS_Breaking) ∧
  (status = CS_Compatible →
    proto_compatible before after ∧ is_Some (structured_fingerprint before) ∧ is_Some (structured_fingerprint after)) ∧
  (proto_distinct after →
    (status = CS_Breaking ↔ ¬ proto_compatible before after) ∧
    (status = CS_Compatible ↔
      proto_compatible before after ∧ is_Some (structured_fingerprint before) ∧ is_Some (structured_fingerprint after))).
Proof.
  intros status. rewrite <-(fingerprints_known before after "protobuf").
  destruct (exact_report unknown_rules (fingerprints before after "protobuf").2 (proto_findings before after)) as [Hb Hc];
    [apply fingerprints_unknown; by left|apply proto_findings_breaking|].
  split_and!.
  - intros Hn. apply Hb. intros E. by apply Hn, proto_findings_sound.
  - intros [Hnil Hf]%Hc. split; [by apply proto_findings_sound|done].
  - intros Hd. by rewrite <-(proto_findings_nil before after Hd).
Qed.

Module Example_protobuf.
#[local] Instance json : Fingerprint ProtoFile := λ _, Some "hash".

Definition field (name : string) (number : Z) (cardinality : ProtoFieldCardinality) : ProtoField :=
  {| pf_name := name; pf_number := number; pf_type_name := "string"; pf_wire_type := LengthDelimited;
     pf_cardinality := cardinality; pf_oneof := None; pf_map_key_type := None; pf_map_value_type := None; pf_options := ∅; pf_line := 3 |}.
Definition message (name : string) (fields : list ProtoField) (nested : list ProtoMessage) : ProtoMessage :=
  {| pm_name := name; pm_full_name := "orders." +:+ name; pm_fields := fields; pm_messages := nested; pm_enums := [];
     pm_reserved_numbers := []; pm_reserved_names := []; pm_options := ∅; pm_is_extension := false; pm_line := 2 |}.
Definition enumeration (values : list (string * Z)) : ProtoEnum :=
  {| pe_name := "State"; pe_full_name := "orders.State";
     pe_values := map (λ v, {| pv_name := v.1; pv_number := v.2; pv_options := ∅; pv_line := 9 |}) values;
     pe_reserved_numbers := []; pe_reserved_names := []; pe_options := ∅; pe_line := 8 |}.
Definition file (messages : list ProtoMessage) (enums : list ProtoEnum) : ProtoFile :=
  {| pfl_source_path := "orders.proto"; pfl_syntax := Proto3; pfl_syntax_line := Some 1%N; pfl_package := Some "orders";
     pfl_package_line := Some 1%N; pfl_imports := []; pfl_public_imports := []; pfl_weak_imports := []; pfl_import_lines := ∅;
     pfl_options := ∅; pfl_messages := messages; pfl_enums := enums; pfl_services := [] |}.

Definition before : ProtoFile :=
  file [message "Order" [field "id" 1 Singular; field "note" 2 Card_Optional] [message "Order.Line" [field "sku" 1 Singular] []]]
       [enumeration [("NEW", 0); ("PAID", 1)]%Z].
Definition after : ProtoFile :=
  file [message "Order" [field "id" 1 Singular; field "note" 3 Card_Optional] []] [enumeration [("NEW", 0); ("DONE", 1)]%Z].

Example protocol_changes :
  map (λ f, (cf_code f, cf_path f)) (cr_findings (compare_protobuf_contracts before after)) =
  [("protobuf.message_removed", "orders.Order.Line"); ("protobuf.field_removed", "orders.Order.note");
   ("protobuf.enum_numeric_changed", "orders.State.PAID")].
Proof. vm_compute. reflexivity. Qed.

Lemma protocol_distinct : proto_distinct before.
Proof.
  split.
  - intros name m Hl. apply btree_entries_elem_of in Hl. vm_compute in Hl.
    repeat (apply elem_of_cons in Hl as [[= -> ->]|Hl]; [split; simpl; repeat constructor; set_solver|]).
    by apply not_elem_of_nil in Hl.
  - intros name e Hl. apply btree_entries_elem_of in Hl. vm_compute in Hl.
    repeat (apply elem_of_cons in Hl as [[= -> ->]|Hl]; [simpl; repeat constructor; set_solver|]). by apply not_elem_of_nil in Hl.
  - constructor.
  - intros s Hs. by apply not_elem_of_nil in Hs.
Qed.

Lemma protobuf_comparison_exact_witness : proto_distinct before ∧ proto_compatible before before.
Proof.
  split; [apply protocol_distinct|].
  destruct (protobuf_comparison_exact before before) as (_ & _ & H). apply (H protocol_distinct). vm_compute. reflexivity.
Defined.

(** An enum with two names for one number differs from itself. *)
Definition aliased : ProtoFile := file [] [enumeration [("ACTIVE", 1); ("ENABLED", 1)]%Z].

Example aliases_break_themselves :
  map (λ f, (cf_code f, cf_path f)) (cr_findings (compare_protobuf_contracts aliased aliased)) =
    [("protobuf.enum_numeric_changed", "orders.State.ACTIVE")] ∧
  cr_status (compare_protobuf_contracts aliased aliased) = CS_Breaking.
Proof. split; vm_compute; reflexivity. Qed.
End Example_protobuf.
