(* ===== verification/CompatGraphql.v ===== *)
(** * Contract comparison: GraphQL
    ([crates/code-system-graph-core/src/contract_compat.rs, graphql_contracts.rs]) *)
From stdpp Require Import base gmap sets list strings sorting pretty.
From S2P Require Import Prelude RustOrd RustStr Model Compat.

(** ** Contracts *)
Record GraphqlLineRange := { gl_start : N; gl_end : N }.

Inductive GraphqlOperationKind := Query | Mutation | Subscription.
#[export] Instance GraphqlOperationKind_eq_dec : EqDecision GraphqlOperationKind.
Proof. solve_decision. Defined.
Inductive GraphqlTypeKind := Scalar | Object | Interface | InputObject | GT_Enum | Union.
Inductive GraphqlLiteralKind := Null | Boolean | Integer | Float | GL_String | GL_Enum | GL_List | GL_Object | GL_Variable.

Inductive GraphqlTypeRef :=
| Named (name : string) (non_null : bool)
| ListOf (element : GraphqlTypeRef) (non_null : bool).
#[export] Instance GraphqlTypeRef_eq_dec : EqDecision GraphqlTypeRef.
Proof. solve_decision. Defined.

Fixpoint as_graphql (t : GraphqlTypeRef) : string :=
  match t with
  | Named name non_null => name +:+ (if non_null then "!" else "")
  | ListOf element non_null => "[" +:+ as_graphql element +:+ "]" +:+ (if non_null then "!" else "")
  end.

Record GraphqlArgumentDefinition := {
  ga_name : string;
  ga_type_ref : GraphqlTypeRef;
  ga_default_value_kind : option GraphqlLiteralKind;
  ga_directives : list string;
  ga_lines : GraphqlLineRange;
}.

Record GraphqlFieldDefinition := {
  gf_coordinate : string;
  gf_name : string;
  gf_arguments : list GraphqlArgumentDefinition;
  gf_type_ref : GraphqlTypeRef;
  gf_directives : list string;
  gf_extension : bool;
  gf_lines : GraphqlLineRange;
}.

Record GraphqlTypeDefinition := {
  gt_kind : GraphqlTypeKind;
  gt_name : string;
  gt_fields : list GraphqlFieldDefinition;
  gt_implements : list string;
  gt_enum_values : list string;
  gt_union_members : list string;
  gt_directives : list string;
  gt_extension : bool;
  gt_lines : GraphqlLineRange;
}.

Inductive GraphqlSelection :=
| GS_Field (path name : string) (alias : option string) (lines : GraphqlLineRange)
| GS_FragmentSpread (name : string) (parent_path : option string) (lines : GraphqlLineRange)
| GS_InlineFragment (type_condition parent_path : option string) (lines : GraphqlLineRange).

Record GraphqlOperation := {
  go_kind : GraphqlOperationKind;
  go_name : option string;
  go_variables : list GraphqlArgumentDefinition;
  go_selections : list GraphqlSelection;
  go_consumed_field_paths : list string;
  go_fragment_spreads : list string;
  go_complete : bool;
  go_warnings : list string;
  go_lines : GraphqlLineRange;
}.

Record GraphqlFragment := {
  gfr_name : string;
  gfr_type_condition : string;
  gfr_selections : list GraphqlSelection;
  gfr_consumed_field_paths : list string;
  gfr_fragment_spreads : list string;
  gfr_lines : GraphqlLineRange;
}.

Record GraphqlPersistedOperation := {
  gp_id : string;
  gp_operation_name : option string;
  gp_kind : option GraphqlOperationKind;
  gp_consumed_field_paths : list string;
  gp_complete : bool;
  gp_warnings : list string;
  gp_source_path : string;
  gp_lines : GraphqlLineRange;
}.

Inductive SourceLanguage := JavaScript | TypeScript | Rust | Python | Go | Java.
#[export] Instance SourceLanguage_eq_dec : EqDecision SourceLanguage.
Proof. solve_decision. Defined.

Record GraphqlResolver := {
  gr_type_name : string;
  gr_field_name : string;
  gr_coordinate : string;
  gr_symbol : string;
  gr_language : SourceLanguage;
  gr_lines : GraphqlLineRange;
}.

Record GraphqlFederationMetadata := {
  gm_directive : string;
  gm_target : string;
  gm_arguments : gmap string GraphqlLiteralKind;
  gm_lines : GraphqlLineRange;
}.

Record GraphqlDocument := {
  gd_source_path : string;
  gd_types : list GraphqlTypeDefinition;
  gd_operations : list GraphqlOperation;
  gd_fragments : list GraphqlFragment;
  gd_persisted_operations : list GraphqlPersistedOperation;
  gd_resolvers : list GraphqlResolver;
  gd_federation : list GraphqlFederationMetadata;
  gd_complete : bool;
  gd_warnings : list string;
}.

(** ** The comparator *)
Fixpoint type_narrowed (before after : GraphqlTypeRef) : bool :=
  if bool_decide (before = after) then false
  else
    match before, after with
    | Named before_name before_non_null, Named after_name after_non_null =>
        negb (String.eqb before_name after_name) || negb before_non_null && after_non_null
    | ListOf before_element before_non_null, ListOf after_element after_non_null =>
        negb before_non_null && after_non_null || type_narrowed before_element after_element
    | _, _ => true
    end.

Definition type_is_non_null (t : GraphqlTypeRef) : bool :=
  match t with Named _ non_null | ListOf _ non_null => non_null end.

Definition graphql_breaking (code path : string) (line : N) (factor : string) : CompatibilityFinding :=
  finding code path CS_Breaking [factor] [line_text line]
    ["run affected GraphQL consumer operations against the candidate schema"].

Definition compare_argument (before : GraphqlFieldDefinition) (before_arguments : list string) (argument : GraphqlArgumentDefinition)
    : list CompatibilityFinding :=
  if negb (bool_decide (ga_name argument ∈ before_arguments)) && type_is_non_null (ga_type_ref argument)
     && negb (bool_decide (is_Some (ga_default_value_kind argument)))
  then [graphql_breaking "graphql.required_argument_added" (gf_coordinate before +:+ "(" +:+ ga_name argument +:+ ")")
          (gl_start (ga_lines argument)) "new argument is non-null and has no default"]
  else [].

Definition compare_graphql_field (before after : GraphqlFieldDefinition) : list CompatibilityFinding :=
  (if type_narrowed (gf_type_ref before) (gf_type_ref after) then
     [graphql_breaking "graphql.return_type_narrowed" (gf_coordinate before) (gl_start (gf_lines after))
        ("return type changed from " +:+ as_graphql (gf_type_ref before) +:+ " to " +:+ as_graphql (gf_type_ref after))]
   else [])
  ++ flat_map (compare_argument before (map ga_name (gf_arguments before))) (gf_arguments after).

Definition compare_field_entry (after_fields : gmap string GraphqlFieldDefinition) (previous : GraphqlFieldDefinition)
    : list CompatibilityFinding :=
  match after_fields !! gf_name previous with
  | None => [graphql_breaking "graphql.field_removed" (gf_coordinate previous) (gl_start (gf_lines previous))
               "field is absent from the candidate schema"]
  | Some current => compare_graphql_field previous current
  end.

Definition compare_enum_value (before : GraphqlTypeDefinition) (after_values : list string) (value : string)
    : list CompatibilityFinding :=
  if bool_decide (value ∈ after_values) then []
  else [graphql_breaking "graphql.enum_value_removed" (gt_name before +:+ "." +:+ value) (gl_start (gt_lines before))
          "enum value is absent from the candidate schema"].

Definition compare_graphql_type (before after : GraphqlTypeDefinition) : list CompatibilityFinding :=
  flat_map (compare_field_entry (index_by gf_name (gt_fields after))) (gt_fields before)
  ++ flat_map (compare_enum_value before (gt_enum_values after)) (gt_enum_values before).

Definition compare_type_entry (after_types : gmap string GraphqlTypeDefinition) (previous : GraphqlTypeDefinition)
    : list CompatibilityFinding :=
  match after_types !! gt_name previous with
  | None => [graphql_breaking "graphql.type_removed" (gt_name previous) (gl_start (gt_lines previous))
               "type is absent from the candidate schema"]
  | Some current => compare_graphql_type previous current
  end.

Definition compare_persisted_operation (current : list string) (operation : GraphqlPersistedOperation) : list CompatibilityFinding :=
  if bool_decide (gp_id operation ∈ current) then []
  else [graphql_breaking "graphql.persisted_operation_invalidated" (gp_id operation) (gl_start (gp_lines operation))
          "persisted operation identifier is absent from the candidate manifest"].

Definition compare_persisted_operations (before after : GraphqlDocument) : list CompatibilityFinding :=
  flat_map (compare_persisted_operation (map gp_id (gd_persisted_operations after))) (gd_persisted_operations before).

Definition graphql_incomplete (before after : GraphqlDocument) : list CompatibilityFinding :=
  if negb (gd_complete before) || negb (gd_complete after) then
    [finding "graphql.extraction_incomplete" "graphql" CS_Unknown ["one or both GraphQL documents are incomplete"]
       [gd_source_path before; gd_source_path after] ["resolve extraction warnings before compatibility analysis"]]
  else [].

Definition graphql_rules (before after : GraphqlDocument) : list CompatibilityFinding :=
  flat_map (compare_type_entry (index_by gt_name (gd_types after))) (gd_types before)
  ++ compare_persisted_operations before after.

Definition compare_graphql_contracts `{Fingerprint GraphqlDocument} (before after : GraphqlDocument) : CompatibilityReport :=
  let '(before_fingerprint, after_fingerprint, findings) := fingerprints before after "graphql" in
  finish_report before_fingerprint after_fingerprint
    (findings ++ graphql_incomplete before after ++ graphql_rules before after).

(** ** Specification *)

(** The names agree and no position became non-null. *)
Inductive loosened : GraphqlTypeRef → GraphqlTypeRef → Prop :=
| loosened_named name non_null non_null' :
    (non_null' = true → non_null = true) → loosened (Named name non_null) (Named name non_null')
| loosened_list element element' non_null non_null' :
    (non_null' = true → non_null = true) → loosened element element' →
    loosened (ListOf element non_null) (ListOf element' non_null').

Definition argument_tolerated (before : GraphqlFieldDefinition) (a : GraphqlArgumentDefinition) : Prop :=
  (∃ b, b ∈ gf_arguments before ∧ ga_name b = ga_name a) ∨ type_is_non_null (ga_type_ref a) = false ∨
  is_Some (ga_default_value_kind a).

Definition field_kept (candidate : GraphqlTypeDefinition) (f : GraphqlFieldDefinition) : Prop :=
  ∃ f', f' ∈ gt_fields candidate ∧ gf_name f' = gf_name f ∧ loosened (gf_type_ref f) (gf_type_ref f') ∧
    ∀ a, a ∈ gf_arguments f' → argument_tolerated f a.

Definition type_kept (previous candidate : GraphqlTypeDefinition) : Prop :=
  (∀ f, f ∈ gt_fields previous → field_kept candidate f) ∧
  (∀ v, v ∈ gt_enum_values previous → v ∈ gt_enum_values candidate).

Record graphql_compatible (before after : GraphqlDocument) : Prop := {
  gc_types : ∀ t, t ∈ gd_types before → ∃ t', t' ∈ gd_types after ∧ gt_name t' = gt_name t ∧ type_kept t t';
  gc_persisted : ∀ o, o ∈ gd_persisted_operations before →
    ∃ o', o' ∈ gd_persisted_operations after ∧ gp_id o' = gp_id o;
}.

(** No type is extended and no field declared twice. *)
Record graphql_distinct (d : GraphqlDocument) : Prop := {
  gd_type_names : NoDup (map gt_name (gd_types d));
  gd_field_names : ∀ t, t ∈ gd_types d → NoDup (map gf_name (gt_fields t));
}.

Section exact.
Lemma loosened_refl t : loosened t t.
Proof. induction t; by constructor. Qed.

Lemma gained_false (b b' : bool) : negb b && b' = false ↔ (b' = true → b = true).
Proof. destruct b, b'; simpl; intuition congruence. Qed.

Lemma type_narrowed_loosened before after : type_narrowed before after = false ↔ loosened before after.
Proof.
  revert after. induction before as [name b|before IH b]; intros after; cbn [type_narrowed];
    (case_bool_decide as E; [subst; split; [intros _; apply loosened_refl|done]|]); destruct after as [name' b'|after b'].
  - rewrite orb_false_iff, gained_false, negb_false_iff, String.eqb_eq. split; [intros [-> H]; by constructor|by inversion 1].
  - split; [done|by inversion 1].
  - split; [done|by inversion 1].
  - rewrite orb_false_iff, gained_false, IH. split; [intros [? ?]; by constructor|by inversion 1].
Qed.

Lemma compare_argument_nil before a :
  compare_argument before (map ga_name (gf_arguments before)) a = [] ↔ argument_tolerated before a.
Proof.
  unfold compare_argument, argument_tolerated.
  assert (Hin : ga_name a ∈ map ga_name (gf_arguments before) ↔ ∃ b, b ∈ gf_arguments before ∧ ga_name b = ga_name a).
  { rewrite list_elem_of_In, in_map_iff. setoid_rewrite list_elem_of_In. naive_solver. }
  rewrite <-Hin. repeat case_bool_decide; destruct (type_is_non_null _); cbn [negb andb]; naive_solver.
Qed.

Lemma compare_graphql_field_nil before after :
  compare_graphql_field before after = [] ↔
  loosened (gf_type_ref before) (gf_type_ref after) ∧ ∀ a, a ∈ gf_arguments after → argument_tolerated before a.
Proof.
  unfold compare_graphql_field. rewrite app_nil, flat_map_nil, <-type_narrowed_loosened. setoid_rewrite compare_argument_nil.
  destruct (type_narrowed _ _); naive_solver.
Qed.

Lemma compare_field_entry_nil candidate f :
  NoDup (map gf_name (gt_fields candidate)) →
  compare_field_entry (index_by gf_name (gt_fields candidate)) f = [] ↔ field_kept candidate f.
Proof.
  intros Hnd. unfold compare_field_entry, field_kept. split.
  - destruct (_ !! gf_name f) as [f'|] eqn:E; [|done]. apply index_by_lookup in E as [Hf' Hn]; [|done].
    intros H%compare_graphql_field_nil. by exists f'.
  - intros (f' & Hf' & Hn & H). rewrite (proj2 (index_by_lookup gf_name _ _ f' Hnd) (conj Hf' Hn)).
    by apply compare_graphql_field_nil.
Qed.

Lemma compare_graphql_type_nil before after :
  NoDup (map gf_name (gt_fields after)) → compare_graphql_type before after = [] ↔ type_kept before after.
Proof.
  intros Hnd. unfold compare_graphql_type, type_kept. rewrite app_nil, !flat_map_nil.
  setoid_rewrite (compare_field_entry_nil after _ Hnd).
  assert (Hv : ∀ v, compare_enum_value before (gt_enum_values after) v = [] ↔ v ∈ gt_enum_values after).
  { intros v. unfold compare_enum_value. by case_bool_decide. }
  by setoid_rewrite Hv.
Qed.

Lemma graphql_rules_nil before after :
  graphql_distinct after → graphql_rules before after = [] ↔ graphql_compatible before after.
Proof.
  intros [Hnames Hfields]. unfold graphql_rules, compare_persisted_operations. rewrite app_nil, !flat_map_nil.
  assert (Ht : ∀ t, compare_type_entry (index_by gt_name (gd_types after)) t = [] ↔
    ∃ t', t' ∈ gd_types after ∧ gt_name t' = gt_name t ∧ type_kept t t').
  { intros t. unfold compare_type_entry. split.
    - destruct (_ !! gt_name t) as [t'|] eqn:E; [|done]. apply index_by_lookup in E as [Ht' Hn]; [|done].
      intros H%compare_graphql_type_nil; [by exists t'|by apply Hfields].
    - intros (t' & Ht' & Hn & H). rewrite (proj2 (index_by_lookup gt_name _ _ t' Hnames) (conj Ht' Hn)).
      by apply compare_graphql_type_nil; [apply Hfields|]. }
  assert (Hp : ∀ o, compare_persisted_operation (map gp_id (gd_persisted_operations after)) o = [] ↔
    ∃ o', o' ∈ gd_persisted_operations after ∧ gp_id o' = gp_id o).
  { intros o. unfold compare_persisted_operation. case_bool_decide as Hin; rewrite list_elem_of_In, in_map_iff in Hin.
    - destruct Hin as (o' & Hn & Ho'%list_elem_of_In). split; [by exists o'|done].
    - split; [done|]. intros (o' & Ho'%list_elem_of_In & Hn). destruct Hin. by exists o'. }
  setoid_rewrite Ht. setoid_rewrite Hp. split; [intros [? ?]; by constructor|by intros [? ?]].
Qed.

Definition unknown_rules : list string := ["graphql.fingerprint_unavailable"; "graphql.extraction_incomplete"].

Lemma graphql_rules_breaking before after : Forall (breaking_rule unknown_rules) (graphql_rules before after).
Proof.
  assert (Hb : ∀ code path line factor, bool_decide (code ∈ unknown_rules) = false →
    Forall (breaking_rule unknown_rules) [graphql_breaking code path line factor]).
  { intros ? ? ? ? Hc%bool_decide_eq_false. by repeat constructor. }
  unfold graphql_rules, compare_persisted_operations. apply Forall_app. split; apply Forall_flat_map_intro.
  - intros t. unfold compare_type_entry. case_match; [|by apply Hb]. apply Forall_app. split; apply Forall_flat_map_intro.
    + intros f. unfold compare_field_entry. case_match; [|by apply Hb]. apply Forall_app. split.
      * case_match; [by apply Hb|constructor].
      * apply Forall_flat_map_intro. intros a. unfold compare_argument. case_match; [by apply Hb|constructor].
    + intros v. unfold compare_enum_value. case_match; [constructor|by apply Hb].
  - intros o. unfold compare_persisted_operation. case_match; [constructor|by apply Hb].
Qed.

Lemma graphql_incomplete_nil before after :
  graphql_incomplete before after = [] ↔ gd_complete before = true ∧ gd_complete after = true.
Proof. unfold graphql_incomplete. destruct (gd_complete before), (gd_complete after); cbn [negb orb]; naive_solver. Qed.
End exact.

(** On a candidate that extends no type and declares no field twice, the
    GraphQL comparison is [Breaking] exactly when the candidate is not compatible:
    a type, field, enum value or persisted operation is missing, a field's type
    changed by more than the loss of non-null marks, or a new argument is non-null
    without a default. It is [Compatible] exactly when the candidate is, both
    documents are complete and both fingerprints are known. *)
Theorem graphql_comparison_exact `{Fingerprint GraphqlDocument} before after :
  graphql_distinct after →
  let status := cr_status (compare_graphql_contracts before after) in
  (status = CS_Breaking ↔ ¬ graphql_compatible before after) ∧
  (status = CS_Compatible ↔
    graphql_compatible before after ∧ (is_Some (structured_fingerprint before) ∧ is_Some (structured_fingerprint after)) ∧
    gd_complete before = true ∧ gd_complete after = true).
Proof.
  intros Hd status. rewrite <-(graphql_rules_nil before after Hd), <-(fingerprints_known before after "graphql"),
    <-graphql_incomplete_nil, <-app_nil. unfold status, compare_graphql_contracts.
  destruct (fingerprints before after "graphql") as [[bf af] missing] eqn:E. cbn [cr_status finish_report snd]. rewrite app_assoc.
  apply (exact_report unknown_rules); [|apply graphql_rules_breaking]. apply Forall_app. split.
  - change missing with (snd (bf, af, missing)). rewrite <-E. apply fingerprints_unknown. by left.
  - unfold graphql_incomplete. case_match; repeat constructor.
Qed.

Module Example_graphql.
#[local] Instance json : Fingerprint GraphqlDocument := λ _, Some "hash".

Definition at_line (line : N) : GraphqlLineRange := {| gl_start := line; gl_end := line |}.
Definition argument (name : string) (t : GraphqlTypeRef) : GraphqlArgumentDefinition :=
  {| ga_name := name; ga_type_ref := t; ga_default_value_kind := None; ga_directives := []; ga_lines := at_line 4 |}.
Definition field (name : string) (arguments : list GraphqlArgumentDefinition) (t : GraphqlTypeRef) : GraphqlFieldDefinition :=
  {| gf_coordinate := "Query." +:+ name; gf_name := name; gf_arguments := arguments; gf_type_ref := t; gf_directives := [];
     gf_extension := false; gf_lines := at_line 3 |}.
Definition object (extension : bool) (fields : list GraphqlFieldDefinition) : GraphqlTypeDefinition :=
  {| gt_kind := Object; gt_name := "Query"; gt_fields := fields; gt_implements := []; gt_enum_values := []; gt_union_members := [];
     gt_directives := []; gt_extension := extension; gt_lines := at_line 2 |}.
Definition persisted (path : string) : GraphqlPersistedOperation :=
  {| gp_id := "orders"; gp_operation_name := None; gp_kind := Some Query; gp_consumed_field_paths := [path]; gp_complete := true;
     gp_warnings := []; gp_source_path := "persisted.json"; gp_lines := at_line 1 |}.
Definition document (types : list GraphqlTypeDefinition) (operations : list GraphqlPersistedOperation) : GraphqlDocument :=
  {| gd_source_path := "schema.graphql"; gd_types := types; gd_operations := []; gd_fragments := [];
     gd_persisted_operations := operations; gd_resolvers := []; gd_federation := []; gd_complete := true; gd_warnings := [] |}.
Definition text (non_null : bool) : GraphqlTypeRef := Named "String" non_null.

Definition before : GraphqlDocument :=
  document [object false [field "order" [argument "id" (text false)] (text true); field "orders" [] (ListOf (text true) true)]] [].
Definition after : GraphqlDocument :=
  document [object false [field "order" [argument "id" (text false); argument "tenant" (text true)] (text false);
                          field "orders" [] (ListOf (text true) true)]] [].

Example schema_changes :
  map (λ f, (cf_code f, cf_path f)) (cr_findings (compare_graphql_contracts before after)) =
    [("graphql.required_argument_added", "Query.order(tenant)")].
Proof. vm_compute. reflexivity. Qed.

Lemma schema_distinct : graphql_distinct before.
Proof.
  split; [vm_compute; repeat constructor; by intros []%not_elem_of_nil|]. intros t ->%list_elem_of_singleton. vm_compute.
  repeat constructor; [by intros [=]%list_elem_of_singleton|by intros []%not_elem_of_nil].
Qed.

Lemma graphql_comparison_exact_witness : graphql_distinct before ∧ graphql_compatible before before.
Proof.
  split; [apply schema_distinct|]. destruct (graphql_comparison_exact before before schema_distinct) as [_ H].
  apply H. vm_compute. reflexivity.
Defined.

(** Two versions that the comparison calls compatible: an argument becomes
    non-null, a result may become null, and a persisted operation selects other fields. *)
Definition tightened (argument_non_null result_non_null : bool) (path : string) : GraphqlDocument :=
  document [object false [field "order" [argument "id" (text argument_non_null)] (text result_non_null)]] [persisted path].

(** A type with its extension. *)
Definition extended : GraphqlDocument :=
  document [object false [field "order" [] (text true)]; object true [field "orders" [] (text true)]] [].
End Example_graphql.
