(* ===== verification/CompatEvent.v ===== *)
(** * Contract comparison: events
    ([crates/code-system-graph-core/src/contract_compat.rs, events.rs]) *)
From stdpp Require Import base gmap sets list strings sorting pretty.
From S2P Require Import Prelude RustOrd RustFloat RustStr Model Compat CompatGraphql.

(** ** Contracts *)
Inductive EventBroker := Kafka | RabbitMq | AwsSns | AwsSqs | Nats | GooglePubSub | Generic.
Inductive EventRole := Publisher | Subscriber | Declaration.
Inductive DeliverySemantics := AtMostOnce | AtLeastOnce | ExactlyOnce | BestEffort.

Record EventEvidenceLine := { ee_line : N; ee_text : string }.

Record EventSchemaField := { ef_name : string; ef_field_type : option string; ef_required : bool }.

Record EventSchemaDefinition := {
  es_name : option string;
  es_version : option string;
  es_schema_format : option string;
  es_fields : list EventSchemaField;
}.

Record EventObservation := {
  eo_broker : EventBroker;
  eo_role : EventRole;
  eo_channel : option string;
  eo_namespace : option string;
  eo_protocol : option string;
  eo_event_type : option string;
  eo_schema : option EventSchemaDefinition;
  eo_partition_key : option string;
  eo_routing_key : option string;
  eo_delivery_semantics : option DeliverySemantics;
  eo_dead_letter_channel : option string;
  eo_language : option SourceLanguage;
  eo_evidence : list EventEvidenceLine;
  eo_confidence : f32;
  eo_incomplete : bool;
  eo_warnings : list string;
}.

Record EventDocument := {
  ed_source_path : option string;
  ed_specification : option string;
  ed_specification_version : option string;
  ed_observations : list EventObservation;
  ed_warnings : list string;
  ed_incomplete : bool;
}.

Definition broker_debug (b : EventBroker) : string :=
  match b with
  | Kafka => "Kafka" | RabbitMq => "RabbitMq" | AwsSns => "AwsSns" | AwsSqs => "AwsSqs" | Nats => "Nats"
  | GooglePubSub => "GooglePubSub" | Generic => "Generic"
  end.
Definition role_debug (r : EventRole) : string :=
  match r with Publisher => "Publisher" | Subscriber => "Subscriber" | Declaration => "Declaration" end.

(** ** The comparator *)
Definition event_key (o : EventObservation) : option string :=
  (λ channel, broker_debug (eo_broker o) +:+ ":" +:+ default "" (eo_namespace o) +:+ ":" +:+ channel +:+ ":" +:+ role_debug (eo_role o))
  <$> eo_channel o.

Definition evidence_text (e : EventEvidenceLine) : string := "line:" +:+ pretty (ee_line e) +:+ ":" +:+ ee_text e.
Definition event_evidence (o : EventObservation) : list string := map evidence_text (eo_evidence o).

Definition event_breaking (code path : string) (observation : EventObservation) (factor : string) : CompatibilityFinding :=
  finding code path CS_Breaking [factor] (event_evidence observation)
    ["validate all event producers and consumers against the candidate schema"].

Definition event_field_kept (path : string) (after : EventObservation) (after_fields : gmap string EventSchemaField)
    (entry : string * EventSchemaField) : list CompatibilityFinding :=
  let '(name, previous) := entry in
  match after_fields !! name with
  | None => [event_breaking "event.field_removed" (path +:+ "." +:+ name) after "payload field is absent from the candidate schema"]
  | Some candidate =>
      if bool_decide (ef_field_type previous = ef_field_type candidate) then []
      else [event_breaking "event.field_type_changed" (path +:+ "." +:+ name) after "payload field type changed"]
  end.

Definition event_field_added (path : string) (after : EventObservation) (before_fields : gmap string EventSchemaField)
    (entry : string * EventSchemaField) : list CompatibilityFinding :=
  let '(name, candidate) := entry in
  if ef_required candidate && negb (contains_key before_fields name) then
    [event_breaking "event.required_field_added" (path +:+ "." +:+ name) after "new payload field is required"]
  else [].

Definition compare_event_schema (path : string) (after : EventObservation) (before_schema after_schema : EventSchemaDefinition)
    : list CompatibilityFinding :=
  let before_fields := index_by ef_name (es_fields before_schema) in
  let after_fields := index_by ef_name (es_fields after_schema) in
  (if negb (bool_decide (es_version before_schema = es_version after_schema))
      && bool_decide (is_Some (es_version before_schema)) && bool_decide (is_Some (es_version after_schema))
   then [event_breaking "event.schema_version_changed" path after "explicit schema version changed"] else [])
  ++ flat_map (event_field_kept path after after_fields) (btree_entries before_fields)
  ++ flat_map (event_field_added path after before_fields) (btree_entries after_fields).

Definition compare_event_observation (before after : EventObservation) (path : string) : list CompatibilityFinding :=
  (if negb (bool_decide (eo_routing_key before = eo_routing_key after))
      || negb (bool_decide (eo_partition_key before = eo_partition_key after))
   then [event_breaking "event.routing_key_changed" path after "routing or partition key declaration changed"] else [])
  ++ match eo_schema before, eo_schema after with
     | Some before_schema, Some after_schema => compare_event_schema path after before_schema after_schema
     | None, None => []
     | _, _ =>
         [finding "event.schema_coverage_changed" path CS_Unknown ["payload schema is absent from one side of the comparison"]
            (event_evidence after) ["validate producer and consumer payloads at runtime"]]
     end.

Definition keyed_observation (o : EventObservation) : option (string * EventObservation) := (λ key, (key, o)) <$> event_key o.

Definition compare_event_entry (current : gmap string EventObservation) (previous : EventObservation) : list CompatibilityFinding :=
  match event_key previous with
  | None => []
  | Some key =>
      match current !! key with
      | None => [event_breaking "event.channel_removed" key previous "channel role is absent from the candidate contract"]
      | Some candidate => compare_event_observation previous candidate key
      end
  end.

Definition event_incomplete (before after : EventDocument) : list CompatibilityFinding :=
  if ed_incomplete before || ed_incomplete after then
    [finding "event.extraction_incomplete" "event" CS_Unknown ["one or both event documents are incomplete"]
       [default "" (ed_source_path before); default "" (ed_source_path after)]
       ["resolve event extraction warnings before compatibility analysis"]]
  else [].

Definition event_rules (before after : EventDocument) : list CompatibilityFinding :=
  flat_map (compare_event_entry (btree_collect (omap keyed_observation (ed_observations after)))) (ed_observations before).

Definition compare_event_contracts `{Fingerprint EventDocument} (before after : EventDocument) : CompatibilityReport :=
  let '(before_fingerprint, after_fingerprint, findings) := fingerprints before after "event" in
  finish_report before_fingerprint after_fingerprint (findings ++ event_incomplete before after ++ event_rules before after).
