(* ===== verification/CompatHttp.v ===== *)
(** * Contract comparison: HTTP
    ([crates/code-system-graph-core/src/contract_compat.rs]) *)
From stdpp Require Import base gmap sets list strings sorting pretty.
From S2P Require Import Prelude RustOrd RustFloat RustStr Model RouteShape RouteIndex Compat.

(** [to_ascii_uppercase] *)
Definition ascii_upper (c : Ascii.ascii) : Ascii.ascii :=
  if ascii_in 97 122 c then Ascii.ascii_of_N (Ascii.N_of_ascii c - 32) else c.
Fixpoint to_ascii_uppercase (s : string) : string :=
  match s with EmptyString => EmptyString | String c s' => String (ascii_upper c) (to_ascii_uppercase s') end.

(** Role, method and path. *)
Definition HttpKey : Type := string * (string * string).

Definition http_role (role : BoundaryRole) : string :=
  match role with Provider => "provider" | Consumer => "consumer" end.

(** [f32::to_bits]; the model has one not-a-number value. *)
Definition to_bits (x : f32) : N :=
  (match x with
   | SpecFloat.S754_zero s => if s then 2 ^ 31 else 0
   | SpecFloat.S754_infinity s => (if s then 2 ^ 31 else 0) + 255 * 2 ^ 23
   | SpecFloat.S754_nan => 2143289344
   | SpecFloat.S754_finite s m e =>
       (if s then 2 ^ 31 else 0) +
       if N.pos m <? 2 ^ 23 then N.pos m else Z.to_N (e + 150) * 2 ^ 23 + (N.pos m - 2 ^ 23)
   end)%N.

Example bits_of_one : to_bits f32_one = 1065353216%N.
Proof. reflexivity. Qed.

Definition http_fingerprint_entry (boundary : HttpBoundary) : string * string * string * string * N * N * N :=
  (http_role (hb_role boundary), hb_method boundary, hb_path boundary, default "" (ev_file_path (hb_evidence boundary)),
   default 0%N (ev_start_line (hb_evidence boundary)), default 0%N (ev_end_line (hb_evidence boundary)),
   to_bits (ev_confidence (hb_evidence boundary))).

Definition http_fingerprint_contract (boundaries : list HttpBoundary)
    : list (string * string * string * string * N * N * N) := map http_fingerprint_entry boundaries.

Definition http_key (boundary : HttpBoundary) : HttpKey :=
  (http_role (hb_role boundary), (to_ascii_uppercase (trim (hb_method boundary)), trim (hb_path boundary))).

Definition http_key_path (key : HttpKey) : string := key.1 +:+ ":" +:+ key.2.1 +:+ " " +:+ key.2.2.

Definition http_evidence (boundary : HttpBoundary) : list string :=
  let source := default "<unknown>" (ev_file_path (hb_evidence boundary)) in
  let locator :=
    match ev_start_line (hb_evidence boundary), ev_end_line (hb_evidence boundary) with
    | Some start, Some end_ => source +:+ ":" +:+ pretty start +:+ "-" +:+ pretty end_
    | Some start, None => source +:+ ":" +:+ pretty start
    | _, _ => source
    end in
  [locator; node_stable_key (hb_node boundary)].

Definition combined_http_evidence (before after : HttpBoundary) : list string := http_evidence before ++ http_evidence after.

Definition http_inventory_evidence (before after : list HttpBoundary) : list string := flat_map http_evidence (before ++ after).

Definition operation_incomplete (side : string) (boundary : HttpBoundary) : list CompatibilityFinding :=
  let key := http_key boundary in
  if String.eqb key.2.1 "" || String.eqb key.2.2 "" || negb (starts_with "/" key.2.2)
     || negb (f_is_finite (hb_confidence boundary)) || f_lt (hb_confidence boundary) f32_one
  then [finding "http.operation_incomplete" (http_key_path key) CS_Unknown
          [side +:+ " operation lacks an exact method, canonical path, or full-confidence evidence"] (http_evidence boundary)
          ["rerun bounded HTTP extraction and resolve dynamic operation evidence"]]
  else [].

Definition duplicate_operation (side : string) (key : HttpKey) (previous boundary : HttpBoundary) : CompatibilityFinding :=
  finding "http.operation_duplicate" (http_key_path key) CS_Incomparable
    [side +:+ " inventory contains duplicate operation coordinates"] (combined_http_evidence previous boundary)
    ["deduplicate providers or disambiguate the operation declarations"].

Definition http_inventory_step (side : string) (s : gmap HttpKey HttpBoundary * list CompatibilityFinding) (boundary : HttpBoundary)
    : gmap HttpKey HttpBoundary * list CompatibilityFinding :=
  inventory_step http_key (duplicate_operation side) (s.1, s.2 ++ operation_incomplete side boundary) boundary.

Definition http_inventory (boundaries : list HttpBoundary) (side : string)
    : gmap HttpKey HttpBoundary * list CompatibilityFinding :=
  foldl (http_inventory_step side) (∅, []) boundaries.

(** A candidate for the operation [key] that went away. *)
Definition migrates (before_inventory : gmap HttpKey HttpBoundary) (consumed : gset HttpKey) (key : HttpKey)
    (candidate : HttpKey * HttpBoundary) : bool :=
  let candidate_key := candidate.1 in
  negb (bool_decide (candidate_key ∈ consumed)) && negb (contains_key before_inventory candidate_key)
  && String.eqb key.1 candidate_key.1
  && xorb (String.eqb key.2.1 candidate_key.2.1) (String.eqb key.2.2 candidate_key.2.2).

Definition operation_changed (key : HttpKey) (previous : HttpBoundary) (candidate : HttpKey * HttpBoundary) : CompatibilityFinding :=
  finding "http.operation_changed" (http_key_path key) CS_PotentiallyBreaking
    ["operation changed from " +:+ key.2.1 +:+ " " +:+ key.2.2 +:+ " to " +:+ candidate.1.2.1 +:+ " " +:+ candidate.1.2.2]
    (combined_http_evidence previous candidate.2)
    ["confirm the path or method migration with every HTTP consumer";
     "run request and response contract tests against the candidate operation"].

Definition operation_removed (key : HttpKey) (previous : HttpBoundary) : CompatibilityFinding :=
  finding "http.operation_removed" (http_key_path key) CS_Breaking
    ["endpoint and method pair is absent from the candidate inventory"] (http_evidence previous)
    ["run affected HTTP consumers against the candidate provider"].

Definition compare_operation (before_inventory after_inventory : gmap HttpKey HttpBoundary)
    (s : gset HttpKey * list CompatibilityFinding) (entry : HttpKey * HttpBoundary) : gset HttpKey * list CompatibilityFinding :=
  let '(consumed, findings) := s in
  let '(key, previous) := entry in
  if contains_key after_inventory key then (consumed, findings)
  else
    match List.filter (migrates before_inventory consumed key) (btree_entries after_inventory) with
    | [candidate] => ({[candidate.1]} ∪ consumed, findings ++ [operation_changed key previous candidate])
    | _ => (consumed, findings ++ [operation_removed key previous])
    end.

Definition operation_added (before_inventory : gmap HttpKey HttpBoundary) (consumed : gset HttpKey) (entry : HttpKey * HttpBoundary)
    : list CompatibilityFinding :=
  let '(key, candidate) := entry in
  if negb (contains_key before_inventory key) && negb (bool_decide (key ∈ consumed)) then
    [finding "http.operation_added" (http_key_path key) CS_Compatible ["an exact endpoint and method pair was added"]
       (http_evidence candidate) ["validate routing and authorization before exposing the operation"]]
  else [].

Definition schema_unmodeled (before after : list HttpBoundary) : CompatibilityFinding :=
  finding "http.schema_semantics_unmodeled" "http" CS_Incomparable
    ["HTTP boundaries model endpoint, method, and role but not parameters or schemas"] (http_inventory_evidence before after)
    ["compare complete OpenAPI request, response, media-type, status, and security schemas"].

Definition http_findings (before after : list HttpBoundary) : list CompatibilityFinding :=
  let '(before_inventory, before_findings) := http_inventory before "before" in
  let '(after_inventory, after_findings) := http_inventory after "after" in
  let '(consumed_additions, changes) :=
    foldl (compare_operation before_inventory after_inventory) (∅, []) (btree_entries before_inventory) in
  before_findings ++ after_findings ++ changes
  ++ flat_map (operation_added before_inventory consumed_additions) (btree_entries after_inventory)
  ++ [schema_unmodeled before after].

Definition compare_http_contracts `{Fingerprint (list (string * string * string * string * N * N * N))}
    (before after : list HttpBoundary) : CompatibilityReport :=
  let '(before_fingerprint, after_fingerprint, findings) :=
    fingerprints (http_fingerprint_contract before) (http_fingerprint_contract after) "http" in
  finish_report before_fingerprint after_fingerprint (findings ++ http_findings before after).
