(* ===== verification/CompatPackage.v ===== *)
(** * Contract comparison: packages
    ([crates/code-system-graph-core/src/contract_compat.rs, packages.rs]) *)
From stdpp Require Import base gmap sets list strings sorting pretty.
From S2P Require Import Prelude RustOrd RustFloat RustStr Model Compat.

(** ** Manifests *)
Inductive PackageEcosystem := Npm | Eco_Python | Cargo | Eco_Go | Maven | Gradle | NuGet.
Inductive DependencyScope := Runtime | Dev | Scope_Test | Build | Peer | Scope_Optional.
#[export] Instance DependencyScope_eq_dec : EqDecision DependencyScope.
Proof. solve_decision. Defined.

Record PackageEvidenceLine := { pel_line : N; pel_text : string }.

Record PackageCoordinate := {
  pk_ecosystem : PackageEcosystem;
  pk_name : string;
  pk_version : option string;
  pk_source_path : string;
  pk_evidence : PackageEvidenceLine;
  pk_confidence : f32;
}.

Record PackageDependency := {
  pd_ecosystem : PackageEcosystem;
  pd_name : string;
  pd_version_or_range : option string;
  pd_scope : DependencyScope;
  pd_optional : bool;
  pd_condition : option string;
  pd_source_path : string;
  pd_evidence : PackageEvidenceLine;
  pd_confidence : f32;
}.

Record PackageManifestValue := {
  pmv_value : string;
  pmv_source_path : string;
  pmv_evidence : PackageEvidenceLine;
  pmv_confidence : f32;
}.

Record LockfileMetadata := {
  lf_ecosystem : PackageEcosystem;
  lf_package_manager : string;
  lf_format_version : option string;
  lf_source_path : string;
  lf_evidence : PackageEvidenceLine;
  lf_confidence : f32;
}.

Record PackageManifest := {
  mf_packages : list PackageCoordinate;
  mf_dependencies : list PackageDependency;
  mf_workspace_members : list PackageManifestValue;
  mf_exports : list PackageManifestValue;
  mf_features : list PackageManifestValue;
  mf_lockfiles : list LockfileMetadata;
}.

Definition ecosystem_debug (e : PackageEcosystem) : string :=
  match e with
  | Npm => "Npm" | Eco_Python => "Python" | Cargo => "Cargo" | Eco_Go => "Go" | Maven => "Maven" | Gradle => "Gradle"
  | NuGet => "NuGet"
  end.

(** ** Locators *)
Definition located (source_path : string) (evidence : PackageEvidenceLine) : string :=
  source_path +:+ ":" +:+ pretty (pel_line evidence).
Definition package_locator (p : PackageCoordinate) : string := located (pk_source_path p) (pk_evidence p).
Definition package_dependency_locator (d : PackageDependency) : string := located (pd_source_path d) (pd_evidence d).
Definition manifest_value_locator (v : PackageManifestValue) : string := located (pmv_source_path v) (pmv_evidence v).

Definition package_coordinate_evidence (before after : PackageCoordinate) : list string :=
  [package_locator before; package_locator after].
Definition manifest_value_evidence (before after : list PackageManifestValue) : list string :=
  map manifest_value_locator (before ++ after).
Definition package_manifest_evidence (before after : PackageManifest) : list string :=
  map package_locator (mf_packages before ++ mf_packages after)
  ++ map manifest_value_locator (mf_exports before ++ mf_exports after).

(** ** Coordinates *)
Definition PackageKey : Type := string * string.
Definition key_text (key : PackageKey) : string := key.1 +:+ ":" +:+ key.2.
Definition package_key (p : PackageCoordinate) : PackageKey := (ecosystem_debug (pk_ecosystem p), pk_name p).
Definition dependency_key (d : PackageDependency) : PackageKey := (ecosystem_debug (pd_ecosystem d), pd_name d).

Definition duplicate_package (side : string) (key : PackageKey) (previous package : PackageCoordinate) : CompatibilityFinding :=
  finding "package.coordinate_duplicate" (key_text key) CS_Incomparable
    [side +:+ " manifest contains duplicate package coordinates"] (package_coordinate_evidence previous package)
    ["deduplicate package declarations before comparison"].

Definition package_inventory (packages : list PackageCoordinate) (side : string)
    : gmap PackageKey PackageCoordinate * list CompatibilityFinding := inventory package_key (duplicate_package side) packages.

Definition is_ascii_digit (c : Ascii.ascii) : bool := ascii_in 48 57 c.

(** [s.find(f)] and the rest from there; the longest prefix of [f]. *)
Fixpoint find_from (f : Ascii.ascii → bool) (s : string) : option string :=
  match s with EmptyString => None | String c s' => if f c then Some s else find_from f s' end.
Fixpoint take_prefix (f : Ascii.ascii → bool) (s : string) : string :=
  match s with EmptyString => EmptyString | String c s' => if f c then String c (take_prefix f s') else EmptyString end.

Definition leading_version_major (value : string) : option N :=
  start ← find_from is_ascii_digit value; parse_digits u64_max 0 (take_prefix is_ascii_digit start).

Definition version_status (before after : option string) : CompatibilityStatus :=
  match before, after with
  | Some previous, Some candidate =>
      if negb (bool_decide (leading_version_major previous = leading_version_major candidate)) then CS_Breaking
      else CS_PotentiallyBreaking
  | _, _ => CS_Unknown
  end.

Definition compare_package_version (before after : PackageCoordinate) : list CompatibilityFinding :=
  if bool_decide (pk_version before = pk_version after) then []
  else
    [finding "package.declared_version_changed" (key_text (package_key before)) (version_status (pk_version before) (pk_version after))
       ["declared package version changed from " +:+ default "<unspecified>" (pk_version before) +:+ " to "
        +:+ default "<unspecified>" (pk_version after)]
       (package_coordinate_evidence before after)
       ["resolve the published versions and run downstream package compatibility tests"]].

Definition rename_candidate (consumed : gset PackageKey) (key : PackageKey) (previous : PackageCoordinate)
    (candidate : PackageKey * PackageCoordinate) : bool :=
  negb (bool_decide (candidate.1 ∈ consumed)) && String.eqb key.1 candidate.1.1
  && String.eqb (pk_source_path previous) (pk_source_path candidate.2).

Definition package_renamed (key : PackageKey) (previous candidate : PackageCoordinate) : CompatibilityFinding :=
  finding "package.coordinate_renamed" (key_text key) CS_Breaking
    ["package coordinate changed from " +:+ pk_name previous +:+ " to " +:+ pk_name candidate]
    (package_coordinate_evidence previous candidate)
    ["publish a compatibility package or migrate every downstream dependency"].

Definition package_removed (key : PackageKey) (previous : PackageCoordinate) : CompatibilityFinding :=
  finding "package.coordinate_removed" (key_text key) CS_Breaking ["package coordinate is absent from the candidate manifest"]
    [package_locator previous] ["verify all registry and workspace consumers before removing the package"].

Definition compare_coordinate (after_packages : gmap PackageKey PackageCoordinate)
    (s : gset PackageKey * list CompatibilityFinding) (entry : PackageKey * PackageCoordinate)
    : gset PackageKey * list CompatibilityFinding :=
  let '(consumed, findings) := s in
  let '(key, previous) := entry in
  match after_packages !! key with
  | Some candidate => (consumed, findings ++ compare_package_version previous candidate)
  | None =>
      match List.filter (rename_candidate consumed key previous) (btree_entries after_packages) with
      | [candidate] => ({[candidate.1]} ∪ consumed, findings ++ [package_renamed key previous candidate.2])
      | _ => (consumed, findings ++ [package_removed key previous])
      end
  end.

Definition package_added (before_packages : gmap PackageKey PackageCoordinate) (consumed : gset PackageKey)
    (entry : PackageKey * PackageCoordinate) : list CompatibilityFinding :=
  let '(key, candidate) := entry in
  if negb (contains_key before_packages key) && negb (bool_decide (key ∈ consumed)) then
    [finding "package.coordinate_added" (key_text key) CS_Compatible ["a distinct package coordinate was added"]
       [package_locator candidate] ["validate publication metadata before release"]]
  else [].

Definition compare_package_coordinates (before after : PackageManifest) : list CompatibilityFinding :=
  let '(before_packages, before_findings) := package_inventory (mf_packages before) "before" in
  let '(after_packages, after_findings) := package_inventory (mf_packages after) "after" in
  let '(consumed, changes) := foldl (compare_coordinate after_packages) (∅, []) (btree_entries before_packages) in
  before_findings ++ after_findings ++ changes ++ flat_map (package_added before_packages consumed) (btree_entries after_packages).

(** ** Declared values *)
Definition duplicate_value (prefix side value : string) (previous current : PackageManifestValue) : CompatibilityFinding :=
  finding (prefix +:+ "_duplicate") value CS_Incomparable [side +:+ " manifest contains duplicate declarations"]
    [manifest_value_locator previous; manifest_value_locator current] ["deduplicate declarations before comparison"].

Definition manifest_value_inventory (prefix side : string) (values : list PackageManifestValue)
    : gmap string PackageManifestValue * list CompatibilityFinding := inventory pmv_value (duplicate_value prefix side) values.

Definition value_removed (prefix : string) (removed_status : CompatibilityStatus) (after_values : gmap string PackageManifestValue)
    (entry : string * PackageManifestValue) : list CompatibilityFinding :=
  let '(value, previous) := entry in
  if contains_key after_values value then []
  else [finding (prefix +:+ "_removed") value removed_status [prefix +:+ " declaration is absent from the candidate manifest"]
          [manifest_value_locator previous] ["validate downstream consumers of `" +:+ value +:+ "` before release"]].

Definition value_added (prefix : string) (added_status : CompatibilityStatus) (before_values : gmap string PackageManifestValue)
    (entry : string * PackageManifestValue) : list CompatibilityFinding :=
  let '(value, candidate) := entry in
  if contains_key before_values value then []
  else [finding (prefix +:+ "_added") value added_status [prefix +:+ " declaration was added"]
          [manifest_value_locator candidate] ["validate the new `" +:+ value +:+ "` declaration with the package manager"]].

Definition compare_manifest_values (prefix : string) (before after : list PackageManifestValue)
    (removed_status added_status : CompatibilityStatus) : list CompatibilityFinding :=
  let '(before_values, before_findings) := manifest_value_inventory prefix "before" before in
  let '(after_values, after_findings) := manifest_value_inventory prefix "after" after in
  before_findings ++ after_findings
  ++ flat_map (value_removed prefix removed_status after_values) (btree_entries before_values)
  ++ flat_map (value_added prefix added_status before_values) (btree_entries after_values).

(** ** Dependencies *)
Definition duplicate_dependency (side : string) (key : PackageKey) (previous dependency : PackageDependency) : CompatibilityFinding :=
  finding "package.dependency_duplicate" (key_text key) CS_Incomparable
    [side +:+ " manifest contains duplicate dependency coordinates"]
    [package_dependency_locator previous; package_dependency_locator dependency]
    ["deduplicate dependency declarations before comparison"].

Definition dependency_inventory (dependencies : list PackageDependency) (side : string)
    : gmap PackageKey PackageDependency * list CompatibilityFinding := inventory dependency_key (duplicate_dependency side) dependencies.

Definition dependency_drift_status (scope : DependencyScope) : CompatibilityStatus :=
  match scope with Dev | Scope_Test => CS_Unknown | Runtime | Build | Peer | Scope_Optional => CS_PotentiallyBreaking end.

Definition package_dependency_finding (code : string) (key : PackageKey) (status : CompatibilityStatus) (before : PackageDependency)
    (after : option PackageDependency) (factor : string) : CompatibilityFinding :=
  finding code (key_text key) status [factor]
    (package_dependency_locator before :: match after with Some d => [package_dependency_locator d] | None => [] end)
    ["resolve dependency ranges and run package-manager peer validation"].

Definition same_dependency (a b : PackageDependency) : bool :=
  bool_decide (pd_version_or_range a = pd_version_or_range b) && bool_decide (pd_scope a = pd_scope b)
  && Bool.eqb (pd_optional a) (pd_optional b) && bool_decide (pd_condition a = pd_condition b).

Definition compare_dependency (after_dependencies : gmap PackageKey PackageDependency) (entry : PackageKey * PackageDependency)
    : list CompatibilityFinding :=
  let '(key, previous) := entry in
  match after_dependencies !! key with
  | None =>
      [package_dependency_finding "package.dependency_removed" key (dependency_drift_status (pd_scope previous)) previous None
         "dependency declaration is absent from the candidate manifest"]
  | Some candidate =>
      if same_dependency previous candidate then []
      else
        let status :=
          if negb (bool_decide (is_Some (pd_version_or_range previous))) || negb (bool_decide (is_Some (pd_version_or_range candidate)))
          then CS_Unknown else dependency_drift_status (pd_scope previous) in
        [package_dependency_finding "package.dependency_drift" key status previous (Some candidate)
           "version range, scope, optionality, or condition changed"]
  end.

Definition dependency_added (before_dependencies : gmap PackageKey PackageDependency) (entry : PackageKey * PackageDependency)
    : list CompatibilityFinding :=
  let '(key, candidate) := entry in
  if contains_key before_dependencies key then []
  else
    [package_dependency_finding "package.dependency_added" key
       (if bool_decide (pd_scope candidate = Peer) then CS_PotentiallyBreaking else CS_Unknown) candidate None
       "dependency declaration was added"].

Definition compare_package_dependencies (before after : list PackageDependency) : list CompatibilityFinding :=
  let '(before_dependencies, before_findings) := dependency_inventory before "before" in
  let '(after_dependencies, after_findings) := dependency_inventory after "after" in
  before_findings ++ after_findings
  ++ flat_map (compare_dependency after_dependencies) (btree_entries before_dependencies)
  ++ flat_map (dependency_added before_dependencies) (btree_entries after_dependencies).

(** ** The comparator *)
#[export] Instance PackageEvidenceLine_eq_dec : EqDecision PackageEvidenceLine.
Proof. solve_decision. Defined.
#[export] Instance PackageManifestValue_eq_dec : EqDecision PackageManifestValue.
Proof. solve_decision. Defined.

Definition workspace_cycle (before after : PackageManifest) : list CompatibilityFinding :=
  if bool_decide (mf_workspace_members before = mf_workspace_members after) then []
  else
    [finding "package.workspace_cycle_unmodeled" "package.workspace" CS_Unknown
       ["workspace membership changed but dependency cycles are not modeled"]
       (manifest_value_evidence (mf_workspace_members before) (mf_workspace_members after))
       ["resolve the candidate workspace graph and reject newly introduced cycles"]].

Definition types_unmodeled (before after : PackageManifest) : CompatibilityFinding :=
  finding "package.type_declarations_unmodeled" "package.types" CS_Unknown
    ["package manifests do not model public type declaration compatibility"] (package_manifest_evidence before after)
    ["run the ecosystem type checker against representative downstream consumers"].

Definition package_findings (before after : PackageManifest) : list CompatibilityFinding :=
  compare_package_coordinates before after
  ++ compare_manifest_values "package.export" (mf_exports before) (mf_exports after) CS_Breaking CS_Compatible
  ++ compare_package_dependencies (mf_dependencies before) (mf_dependencies after)
  ++ compare_manifest_values "package.feature" (mf_features before) (mf_features after) CS_PotentiallyBreaking CS_Compatible
  ++ compare_manifest_values "package.workspace" (mf_workspace_members before) (mf_workspace_members after) CS_Unknown CS_Unknown
  ++ workspace_cycle before after
  ++ [types_unmodeled before after].

Definition compare_package_contracts `{Fingerprint PackageManifest} (before after : PackageManifest) : CompatibilityReport :=
  let '(before_fingerprint, after_fingerprint, findings) := fingerprints before after "package" in
  finish_report before_fingerprint after_fingerprint (findings ++ package_findings before after).
