(* ===== verification/CompatDatabase.v ===== *)
(** * Contract comparison: database schemas and migrations
    ([crates/code-system-graph-core/src/contract_compat.rs, data_contracts.rs]) *)
From stdpp Require Import base gmap sets list strings sorting pretty.
From S2P Require Import Prelude RustOrd RustStr Model Compat.

(** ** Documents *)
Inductive DataArtifactKind :=
  SqlMigration | DeclarativeSqlSchema | Prisma | Alembic | Kind_SqlAlchemy | Diesel | SqlQueryFile | SqlxConfiguration
| LiteralQuerySource.
Inductive DataFramework := Sqlx | MysqlAsync | PyMysql | Psycopg | Framework_SqlAlchemy.
Inductive DataArtifactReferenceKind := QueryFile | MigrationDirectory | SqlxDefaultMigrationDirectory.
Inductive DataAccessRole := Reader | Writer | ModelBinding | Declaration.
Inductive DataOperation := Select | Op_Insert | Op_Update | Op_Delete.
Inductive DataWarning := DynamicQuery | UnsupportedConstruct | UnresolvedReference | LimitExceeded | SqlParseRecovery.

Record DatabaseColumn := {
  dc_name : string;
  dc_data_type : option string;
  dc_nullable : option bool;
  dc_primary_key : bool;
  dc_unique : bool;
  dc_default_present : bool;
  dc_evidence : N;
}.

Record DatabaseIndex := {
  di_name : option string;
  di_columns : list string;
  di_unique : bool;
  di_evidence : N;
}.

Record DatabaseForeignKey := {
  fk_name : option string;
  fk_columns : list string;
  fk_referenced_table : string;
  fk_referenced_columns : list string;
  fk_evidence : N;
}.

Record DatabaseTable := {
  dt_database : option string;
  dt_schema : option string;
  dt_name : string;
  dt_columns : list DatabaseColumn;
  dt_indexes : list DatabaseIndex;
  dt_foreign_keys : list DatabaseForeignKey;
  dt_evidence : N;
}.

Record MigrationMetadata := {
  mg_revision : option string;
  mg_down_revision : option string;
  mg_order_hint : option N;
  mg_reversible : bool;
  mg_evidence : N;
}.

Record DataAccessObservation := {
  da_role : DataAccessRole;
  da_table : string;
  da_model : option string;
  da_owner : option string;
  da_operation : option DataOperation;
  da_evidence : N;
}.

Record DataArtifactReference := {
  dr_framework : DataFramework;
  dr_kind : DataArtifactReferenceKind;
  dr_path : string;
  dr_owner : option string;
  dr_evidence : N;
}.

Record DataDocument := {
  dd_source_path : string;
  dd_artifact_kind : DataArtifactKind;
  dd_database_name : option string;
  dd_schema_name : option string;
  dd_tables : list DatabaseTable;
  dd_migration : option MigrationMetadata;
  dd_accesses : list DataAccessObservation;
  dd_frameworks : list DataFramework;
  dd_references : list DataArtifactReference;
  dd_owners : list string;
  dd_warnings : list DataWarning;
  dd_incomplete : bool;
}.

Definition database_finding (code path : string) (status : CompatibilityStatus) (line : N) (factor : string) : CompatibilityFinding :=
  finding code path status [factor] [line_text line] ["run database migration and affected reader/writer integration tests"].

Definition data_locator (document : DataDocument) (line : N) : string := dd_source_path document +:+ ":" +:+ pretty line.

(** ** Tables *)
Definition database_table_key (table : DatabaseTable) : string :=
  join "." (omap id [dt_database table; dt_schema table; Some (dt_name table)]).

Definition duplicate_table (document : DataDocument) (side key : string) (previous table : DatabaseTable) : CompatibilityFinding :=
  finding "database.table_duplicate" key CS_Incomparable [side +:+ " document contains duplicate table coordinates"]
    [data_locator document (dt_evidence previous); data_locator document (dt_evidence table)]
    ["deduplicate or qualify table declarations before comparison"].

Definition database_inventory (document : DataDocument) (side : string)
    : gmap string DatabaseTable * list CompatibilityFinding :=
  inventory database_table_key (duplicate_table document side) (dd_tables document).

Definition duplicate_column (path side name : string) (previous column : DatabaseColumn) : CompatibilityFinding :=
  finding "database.column_duplicate" (path +:+ "." +:+ name) CS_Incomparable
    [side +:+ " table contains duplicate column declarations"]
    [line_text (dc_evidence previous); line_text (dc_evidence column)]
    ["deduplicate column declarations before comparison"].

Definition database_column_inventory (path side : string) (table : DatabaseTable)
    : gmap string DatabaseColumn * list CompatibilityFinding :=
  inventory dc_name (duplicate_column path side) (dt_columns table).

(** ** Columns *)
Definition strip_spaces (value : string) : string :=
  String.string_of_list_ascii (List.filter (λ c, negb (Ascii.eqb c (Ascii.ascii_of_N 32))) (String.list_ascii_of_string value)).

Definition integer_rank (value : string) : option N :=
  if String.eqb value "tinyint" then Some 0%N
  else if String.eqb value "smallint" then Some 1%N
  else if String.eqb value "int" || String.eqb value "integer" then Some 2%N
  else if String.eqb value "bigint" then Some 3%N
  else None.

Definition type_width (value prefix : string) : option N :=
  rest ← strip_prefix prefix value; rest ← strip_prefix "(" rest; digits ← strip_suffix ")" rest;
  parse_u64 digits.

Definition width_prefixes : list string := ["char"; "varchar"; "binary"; "varbinary"].

Fixpoint width_narrowed (prefixes : list string) (before after : string) : bool :=
  match prefixes with
  | [] => false
  | prefix :: rest =>
      match type_width before prefix, type_width after prefix with
      | Some previous, Some candidate => (candidate <? previous)%N
      | _, _ => width_narrowed rest before after
      end
  end.

Definition normal_type (value : string) : string := strip_spaces (to_ascii_lowercase value).

Definition database_type_narrowed (before after : string) : bool :=
  let before := normal_type before in
  let after := normal_type after in
  match integer_rank before, integer_rank after with
  | Some previous, Some candidate => (candidate <? previous)%N
  | _, _ => width_narrowed width_prefixes before after
  end.

Definition type_status (before after : option string) : CompatibilityStatus :=
  match before, after with
  | Some previous, Some candidate => if database_type_narrowed previous candidate then CS_Breaking else CS_PotentiallyBreaking
  | _, _ => CS_Unknown
  end.

Definition nullability_status (before after : option bool) (default_present : bool) : CompatibilityStatus :=
  match before, after with
  | Some true, Some false => if default_present then CS_PotentiallyBreaking else CS_Breaking
  | Some _, Some _ => CS_Compatible
  | _, _ => CS_Unknown
  end.

Definition compare_database_column (path : string) (before after : DatabaseColumn) : list CompatibilityFinding :=
  (if bool_decide (dc_data_type before = dc_data_type after) then []
   else [database_finding "database.column_type_changed" path (type_status (dc_data_type before) (dc_data_type after))
           (dc_evidence after) "declared column type changed"])
  ++ (if bool_decide (dc_nullable before = dc_nullable after) then []
      else [database_finding "database.column_nullability_changed" path
              (nullability_status (dc_nullable before) (dc_nullable after) (dc_default_present after))
              (dc_evidence after) "declared column nullability changed"])
  ++ (if dc_primary_key before && negb (dc_primary_key after) then
        [database_finding "database.primary_key_removed" path CS_Breaking (dc_evidence after) "primary-key constraint was removed"]
      else [])
  ++ (if dc_unique before && negb (dc_unique after) then
        [database_finding "database.unique_constraint_removed" path CS_PotentiallyBreaking (dc_evidence after)
           "unique constraint was removed"]
      else []).

Definition compare_column_entry (path : string) (after_columns : gmap string DatabaseColumn) (entry : string * DatabaseColumn)
    : list CompatibilityFinding :=
  let '(name, previous) := entry in
  let column_path := path +:+ "." +:+ name in
  match after_columns !! name with
  | None =>
      [database_finding "database.column_removed" column_path CS_Breaking (dc_evidence previous)
         "column is absent from the candidate table"]
  | Some candidate => compare_database_column column_path previous candidate
  end.

(** ** Indexes and foreign keys *)
Definition bool_text (b : bool) : string := if b then "true" else "false".
Definition database_index_key (index : DatabaseIndex) : string := bool_text (di_unique index) +:+ ":" +:+ join "," (di_columns index).
Definition database_foreign_key (k : DatabaseForeignKey) : string :=
  join "," (fk_columns k) +:+ "->" +:+ fk_referenced_table k +:+ ":" +:+ join "," (fk_referenced_columns k).

Definition compare_database_indexes (path : string) (before after : list DatabaseIndex) : list CompatibilityFinding :=
  let current : gset string := list_to_set (map database_index_key after) in
  flat_map (λ index,
    let key := database_index_key index in
    if bool_decide (key ∈ current) then []
    else [database_finding "database.index_removed" (path +:+ ".index:" +:+ key) CS_PotentiallyBreaking (di_evidence index)
            "index or unique-index constraint was removed"]) before.

Definition compare_database_foreign_keys (path : string) (before after : list DatabaseForeignKey) : list CompatibilityFinding :=
  let current : gset string := list_to_set (map database_foreign_key after) in
  flat_map (λ foreign_key,
    let key := database_foreign_key foreign_key in
    if bool_decide (key ∈ current) then []
    else [database_finding "database.foreign_key_removed" (path +:+ ".foreign_key:" +:+ key) CS_PotentiallyBreaking
            (fk_evidence foreign_key) "foreign-key constraint was removed"]) before.

Definition compare_database_table (path : string) (before after : DatabaseTable) : list CompatibilityFinding :=
  let '(before_columns, before_findings) := database_column_inventory path "before" before in
  let '(after_columns, after_findings) := database_column_inventory path "after" after in
  before_findings ++ after_findings
  ++ flat_map (compare_column_entry path after_columns) (btree_entries before_columns)
  ++ compare_database_indexes path (dt_indexes before) (dt_indexes after)
  ++ compare_database_foreign_keys path (dt_foreign_keys before) (dt_foreign_keys after).

Definition compare_table_entry (after_tables : gmap string DatabaseTable) (entry : string * DatabaseTable)
    : list CompatibilityFinding :=
  let '(key, previous) := entry in
  match after_tables !! key with
  | None =>
      [database_finding "database.table_removed" key CS_Breaking (dt_evidence previous) "table is absent from the candidate schema"]
  | Some candidate => compare_database_table key previous candidate
  end.

(** ** Migrations *)
Definition migration_finding (code : string) (status : CompatibilityStatus) (factor : string) (evidence : list string)
    (validation : string) : CompatibilityFinding := finding code "database.migration" status [factor] evidence [validation].

Definition order_regressed (previous candidate : option N) : bool :=
  match previous, candidate with Some p, Some c => (c <? p)%N | _, _ => false end.

Definition compare_migrations (before after : DataDocument) : list CompatibilityFinding :=
  match dd_migration before, dd_migration after with
  | Some previous, Some candidate =>
      let both := [data_locator before (mg_evidence previous); data_locator after (mg_evidence candidate)] in
      (if bool_decide (mg_revision previous = mg_revision candidate)
          && negb (bool_decide (mg_down_revision previous = mg_down_revision candidate)) then
         [migration_finding "database.migration_predecessor_changed" CS_Breaking
            "the predecessor of an existing migration revision changed" both
            "validate the full migration DAG on a production-like snapshot"]
       else if negb (bool_decide (mg_revision previous = mg_revision candidate))
               && negb (bool_decide (mg_down_revision candidate = mg_revision previous)) then
         [migration_finding "database.migration_predecessor_conflict" CS_PotentiallyBreaking
            "candidate migration does not directly follow the previous revision" both
            "resolve migration branches and validate the complete predecessor graph"]
       else [])
      ++ (if order_regressed (mg_order_hint previous) (mg_order_hint candidate) then
            [migration_finding "database.migration_order_regressed" CS_Breaking
               "candidate migration order precedes the previous order hint" both
               "apply the complete migration sequence to an empty and upgraded database"]
          else [])
  | Some previous, None =>
      [migration_finding "database.migration_metadata_removed" CS_Unknown
         "candidate document lacks previously modeled migration metadata" [data_locator before (mg_evidence previous)]
         "restore migration ancestry metadata before release"]
  | None, Some candidate =>
      [migration_finding "database.migration_metadata_added" CS_Unknown
         "migration ancestry was added without a comparable predecessor document" [data_locator after (mg_evidence candidate)]
         "validate the candidate against the deployed migration head"]
  | None, None => []
  end.

(** ** The comparator *)
Definition data_incomplete (before after : DataDocument) : list CompatibilityFinding :=
  if dd_incomplete before || dd_incomplete after || negb (is_empty_list (dd_warnings before)) || negb (is_empty_list (dd_warnings after)) then
    [finding "database.extraction_incomplete" "database" CS_Unknown
       ["one or both database documents contain extraction limitations"] [dd_source_path before; dd_source_path after]
       ["resolve database extraction warnings before compatibility analysis"]]
  else [].

Definition consumers_unmodeled (before after : DataDocument) : CompatibilityFinding :=
  finding "database.shared_consumer_impact_unmodeled" "database.consumers" CS_Unknown
    ["one artifact cannot establish the impact on every shared-table consumer"] [dd_source_path before; dd_source_path after]
    ["query the repository graph for all readers and writers, then run their integration tests"].

Definition database_findings (before after : DataDocument) : list CompatibilityFinding :=
  let '(before_tables, before_findings) := database_inventory before "before" in
  let '(after_tables, after_findings) := database_inventory after "after" in
  data_incomplete before after ++ before_findings ++ after_findings
  ++ flat_map (compare_table_entry after_tables) (btree_entries before_tables)
  ++ compare_migrations before after ++ [consumers_unmodeled before after].

Definition compare_database_contracts `{Fingerprint DataDocument} (before after : DataDocument) : CompatibilityReport :=
  let '(before_fingerprint, after_fingerprint, findings) := fingerprints before after "database" in
  finish_report before_fingerprint after_fingerprint (findings ++ database_findings before after).
