(* ===== verification/CompatReport.v ===== *)
(** * Contract comparison: what every report promises
    ([crates/code-system-graph-core/src/contract_compat.rs])

    The six comparators side by side: the order and the bounds of their
    findings, the comparisons that are never called compatible, and the
    comparisons whose answer differs from what the rules are meant to say. *)
From stdpp Require Import base gmap sets list strings sorting pretty.
From S2P Require Import Prelude RustOrd RustFloat RustStr Model RouteIndex.
From S2P Require Import Compat CompatProto CompatGraphql CompatEvent CompatHttp CompatPackage CompatDatabase.

Inductive Comparison :=
| Compare_graphql (before after : GraphqlDocument)
| Compare_event (before after : EventDocument)
| Compare_protobuf (before after : ProtoFile)
| Compare_http (before after : list HttpBoundary)
| Compare_package (before after : PackageManifest)
| Compare_database (before after : DataDocument).

(** The codes of the rules that can find a compatible change. *)
Definition compatible_codes : list string :=
  ["http.operation_added"; "package.coordinate_added"; "package.export_added"; "package.feature_added";
   "database.column_nullability_changed"].

Record well_made (f : CompatibilityFinding) : Prop := {
  wm_factors : bounded (cf_factors f);
  wm_evidence : bounded (cf_evidence f);
  wm_validations : bounded (cf_recommended_validations f);
  wm_compatible : cf_status f = CS_Compatible → cf_code f ∈ compatible_codes;
}.

Lemma finding_made code path status factors evidence validations :
  (status = CS_Compatible → code ∈ compatible_codes) → well_made (finding code path status factors evidence validations).
Proof. intros H. by split; try apply bounded_values_bounded. Qed.

Lemma steps_made {S A} (step : S * list CompatibilityFinding → A → S * list CompatibilityFinding) (items : list A) s :
  (∀ s a, ∃ new, (step s a).2 = s.2 ++ new ∧ Forall well_made new) →
  Forall well_made s.2 → Forall well_made (foldl step s items).2.
Proof.
  intros Hstep. revert s. induction items as [|a items IH]; intros s Hs; simpl; [done|]. apply IH.
  destruct (Hstep s a) as (new & -> & Hnew). by apply Forall_app.
Qed.

Lemma inventory_made {K A} `{Countable K} (key : A → K) duplicate (items : list A) :
  (∀ k previous a, well_made (duplicate k previous a)) → Forall well_made (inventory key duplicate items).2.
Proof.
  intros Hd. apply steps_made; [|constructor]. intros s a. eexists. split; [done|]. case_match; [|constructor]. by apply Forall_singleton.
Qed.

Ltac head_of t := match t with ?f _ => head_of f | _ => t end.

(** The statuses that rules compute from the contracts. *)
Ltac incompatible :=
  solve [intros Hs; exfalso; revert Hs; unfold version_status, type_status, dependency_drift_status; repeat case_match; done].

(** Reduces a list of findings to the calls of [finding] in it. *)
Ltac made :=
  repeat match goal with
  | |- Forall _ (_ ++ _) => apply Forall_app; split
  | |- Forall _ (flat_map _ _) => apply Forall_flat_map_intro; intros ?
  | |- Forall _ (inventory _ _ _).2 => apply inventory_made; intros ? ? ?
  | |- Forall _ (foldl _ _ _).2 => apply steps_made; [|constructor]
  | H : ?e = (?x, ?findings) |- Forall _ ?findings => change findings with (x, findings).2; rewrite <-H; clear H
  | |- Forall _ [] => constructor
  | |- Forall _ (_ :: _) => constructor
  | |- Forall _ (if ?b then _ else _) => destruct b
  | |- Forall _ (match ?x with _ => _ end) => destruct x eqn:?
  | |- Forall _ (?l).2 => let h := head_of l in unfold h
  | |- Forall _ ?l => let h := head_of l in unfold h; cbv beta zeta
  | |- well_made (finding _ _ _ _ _ _) => apply finding_made; first [done | intros _; by apply (bool_decide_eq_true_1 _); vm_compute | incompatible | idtac]
  | |- well_made ?l => let h := head_of l in unfold h; cbv beta zeta
  end.

Lemma graphql_made before after : Forall well_made (graphql_incomplete before after ++ graphql_rules before after).
Proof. made. Qed.

Lemma event_made before after : Forall well_made (event_incomplete before after ++ event_rules before after).
Proof. made. Qed.

Lemma protobuf_made before after : Forall well_made (proto_findings before after).
Proof. made. Qed.

Lemma http_inventory_made boundaries side : Forall well_made (http_inventory boundaries side).2.
Proof.
  apply steps_made; [|constructor]. intros s boundary. unfold http_inventory_step, inventory_step. simpl.
  rewrite <-app_assoc. eexists. split; [done|]. made.
Qed.

Lemma http_made before after : Forall well_made (http_findings before after).
Proof.
  unfold http_findings. destruct (http_inventory before _) as [bi bf] eqn:Eb. destruct (http_inventory after _) as [ai af] eqn:Ea.
  destruct (foldl _ _ _) as [consumed changes] eqn:Ec. repeat (apply Forall_app; split).
  - change bf with (bi, bf).2. rewrite <-Eb. apply http_inventory_made.
  - change af with (ai, af).2. rewrite <-Ea. apply http_inventory_made.
  - made. intros [c fs] [key previous]. unfold compare_operation.
    case_match; [exists []; by rewrite app_nil_r|]. case_match; [|case_match]; eexists; (split; [done|]); made.
  - made.
  - made.
Qed.

Lemma coordinates_made before after : Forall well_made (compare_package_coordinates before after).
Proof.
  unfold compare_package_coordinates. destruct (package_inventory (mf_packages before) _) as [bp bf] eqn:Eb. destruct (package_inventory (mf_packages after) _) as [ap af] eqn:Ea.
  destruct (foldl _ _ _) as [consumed changes] eqn:Ec. repeat (apply Forall_app; split).
  - made.
  - made.
  - change changes with (consumed, changes).2. rewrite <-Ec. apply steps_made; [|constructor].
    intros [c fs] [key previous]. unfold compare_coordinate.
    case_match; [|case_match; [|case_match]]; (eexists; split; [done|]); made.
  - made.
Qed.

Lemma values_made prefix before after removed added :
  (removed ≠ CS_Compatible) → (added = CS_Compatible → prefix +:+ "_added" ∈ compatible_codes) →
 Forall well_made (compare_manifest_values prefix before after removed added).
Proof. intros. made. Qed.

Lemma dependencies_made before after : Forall well_made (compare_package_dependencies before after).
Proof. made. Qed.

Lemma package_made before after : Forall well_made (package_findings before after).
Proof.
  unfold package_findings. repeat (apply Forall_app; split);
    first [apply coordinates_made|apply dependencies_made|apply values_made; [done|by intros _; apply (bool_decide_eq_true_1 _); vm_compute]|idtac].
  - by apply values_made.
  - made.
  - made.
Qed.

Lemma database_made before after : Forall well_made (database_findings before after).
Proof. made. Qed.

Section reports.
Context `{Fingerprint GraphqlDocument, Fingerprint EventDocument, Fingerprint ProtoFile}.
Context `{Fingerprint (list (string * string * string * string * N * N * N))}.
Context `{Fingerprint PackageManifest, Fingerprint DataDocument}.

Definition compare_contracts (c : Comparison) : CompatibilityReport :=
  match c with
  | Compare_graphql before after => compare_graphql_contracts before after
  | Compare_event before after => compare_event_contracts before after
  | Compare_protobuf before after => compare_protobuf_contracts before after
  | Compare_http before after => compare_http_contracts before after
  | Compare_package before after => compare_package_contracts before after
  | Compare_database before after => compare_database_contracts before after
  end.

(** The rule that a family of contracts does not model, reported by every comparison. *)
Definition unmodeled (c : Comparison) : option CompatibilityFinding :=
  match c with
  | Compare_http before after => Some (schema_unmodeled before after)
  | Compare_package before after => Some (types_unmodeled before after)
  | Compare_database before after => Some (consumers_unmodeled before after)
  | _ => None
  end.

Lemma fingerprints_made `{Fingerprint T} (before after : T) family : Forall well_made (snd (fingerprints before after family)).
Proof. unfold fingerprints. simpl. destruct (_ || _); made. Qed.

(** Every report is the ordered selection of well-made findings. *)
Lemma compare_contracts_reported c : ∃ findings,
  Forall well_made findings ∧ cr_findings (compare_contracts c) = reported findings ∧
  cr_status (compare_contracts c) = aggregate_status (reported findings) ∧ ∀ f, unmodeled c = Some f → f ∈ findings.
Proof.
  destruct c as [before after|before after|before after|before after|before after|before after]; cbn [compare_contracts];
    [unfold compare_graphql_contracts|unfold compare_event_contracts|unfold compare_protobuf_contracts|unfold compare_http_contracts
    |unfold compare_package_contracts|unfold compare_database_contracts];
    match goal with |- context [fingerprints ?b ?a ?family] =>
      pose proof (fingerprints_made b a family) as Hm; destruct (fingerprints b a family) as [[bf af] missing]; simpl in Hm end;
    (eexists; split; [apply Forall_app; split; [exact Hm|]|split; [done|split; [done|]]]);
    first [apply graphql_made|apply event_made|apply protobuf_made|apply http_made|apply package_made|apply database_made|idtac];
    cbn [unmodeled]; intros f [=]; subst; apply elem_of_app; right.
  - unfold http_findings. repeat case_match. rewrite !elem_of_app, list_elem_of_singleton. auto.
  - unfold package_findings. rewrite !elem_of_app, list_elem_of_singleton. auto 10.
  - unfold database_findings. repeat case_match. rewrite !elem_of_app, list_elem_of_singleton. auto 10.
Qed.

(** The report of every comparator holds at most one finding per
    coordinate and rule, ordered by them; each list of a finding has at most eight
    values of at most 512 characters (2048 bytes); the status is the most severe of the reported
    findings. HTTP, package and database reports are never [Compatible], for the
    part of those contracts that the tool does not model. *)
Theorem reports_bounded c :
  let report := compare_contracts c in
  StronglySorted (λ f g, finding_order f g = Lt) (cr_findings report) ∧
  (∀ f, f ∈ cr_findings report → bounded (cf_factors f) ∧ bounded (cf_evidence f) ∧ bounded (cf_recommended_validations f)) ∧
  cr_status report = aggregate_status (cr_findings report) ∧
  (is_Some (unmodeled c) → cr_status report ≠ CS_Compatible).
Proof.
  intros report. destruct (compare_contracts_reported c) as (findings & Hmade & Hf & Hs & Hu). rewrite Forall_forall in Hmade.
  unfold report. rewrite Hf, Hs. split_and!; [apply reported_strict| |done|].
  - intros f Hin%reported_elem%Hmade. by destruct Hin.
  - intros [f E] Hc. destruct (reported_kept _ _ (Hu f E)) as (g & Hg & Hk). rewrite aggregate_Compatible in Hc.
    apply reported_elem in Hg as Hg'. apply Hmade in Hg' as [_ _ _ Hcode]. specialize (Hcode (Hc g Hg)).
    injection Hk as _ Hk. rewrite Hk in Hcode. clear -E Hcode. apply (bool_decide_eq_true_2 _) in Hcode.
    destruct c; simplify_eq/=; by vm_compute in Hcode.
Qed.
End reports.

Module Example_reports.
#[local] Instance known (T : Type) : Fingerprint T := λ _, Some "hash".

Definition codes (report : CompatibilityReport) : CompatibilityStatus * list (string * string) :=
  (cr_status report, map (λ f, (cf_code f, cf_path f)) (cr_findings report)).

(** *** Databases: two columns on one path *)
Definition column (name data_type : string) : DatabaseColumn :=
  {| dc_name := name; dc_data_type := Some data_type; dc_nullable := Some true; dc_primary_key := false; dc_unique := false;
     dc_default_present := false; dc_evidence := 2 |}.
Definition table (schema : option string) (name : string) (c : DatabaseColumn) : DatabaseTable :=
  {| dt_database := None; dt_schema := schema; dt_name := name; dt_columns := [c]; dt_indexes := []; dt_foreign_keys := [];
     dt_evidence := 1 |}.
Definition schema (tables : list DatabaseTable) : DataDocument :=
  {| dd_source_path := "schema.sql"; dd_artifact_kind := DeclarativeSqlSchema; dd_database_name := None; dd_schema_name := None;
     dd_tables := tables; dd_migration := None; dd_accesses := []; dd_frameworks := []; dd_references := []; dd_owners := [];
     dd_warnings := []; dd_incomplete := false |}.
Definition two_tables (first second : string) : DataDocument :=
  schema [table None "a" (column "b.c" first); table (Some "a") "b" (column "c" second)].

(** *** Events: a field becomes required *)
Definition event (required : bool) : EventDocument :=
  {| ed_source_path := Some "asyncapi.yaml"; ed_specification := None; ed_specification_version := None;
     ed_observations :=
       [{| eo_broker := Kafka; eo_role := CompatEvent.Publisher; eo_channel := Some "orders"; eo_namespace := None; eo_protocol := None;
           eo_event_type := None;
           eo_schema := Some {| es_name := None; es_version := None; es_schema_format := None;
                                es_fields := [{| ef_name := "note"; ef_field_type := Some "string"; ef_required := required |}] |};
           eo_partition_key := None; eo_routing_key := None; eo_delivery_semantics := None; eo_dead_letter_channel := None;
           eo_language := None; eo_evidence := []; eo_confidence := f32_one; eo_incomplete := false; eo_warnings := [] |}];
     ed_warnings := []; ed_incomplete := false |}.

(** *** Packages: one of two packages of a file goes away *)
Definition package (name : string) : PackageCoordinate :=
  {| pk_ecosystem := Cargo; pk_name := name; pk_version := Some "1.0.0"; pk_source_path := "Cargo.toml";
     pk_evidence := {| pel_line := 1; pel_text := name |}; pk_confidence := f32_one |}.
Definition packages (names : list string) : PackageManifest :=
  {| mf_packages := map package names; mf_dependencies := []; mf_workspace_members := []; mf_exports := []; mf_features := [];
     mf_lockfiles := [] |}.

(** Comparisons whose answer differs from what the rules are meant to
    say. A schema compared with itself is breaking when it extends a type, and so is
    a protobuf enum with two names for one number. A narrowed column is lost when
    another column of the report has the same dotted path. An event field that
    becomes required, and in GraphQL an argument that becomes required, a result
    that may become null and a persisted operation that selects other fields, are
    compatible. A removed package is reported as renamed to one that was there before. *)
Example comparison_flaws :
  codes (compare_graphql_contracts Example_graphql.extended Example_graphql.extended) =
    (CS_Breaking, [("graphql.field_removed", "Query.order")]) ∧
  codes (compare_protobuf_contracts Example_protobuf.aliased Example_protobuf.aliased) =
    (CS_Breaking, [("protobuf.enum_numeric_changed", "orders.State.ACTIVE")]) ∧
  codes (compare_database_contracts (two_tables "bigint" "bigint") (two_tables "text" "int")) =
    (CS_PotentiallyBreaking,
     [("database.column_type_changed", "a.b.c"); ("database.shared_consumer_impact_unmodeled", "database.consumers")]) ∧
  codes (compare_database_contracts (two_tables "bigint" "bigint") (two_tables "bigint" "int")) =
    (CS_Breaking,
     [("database.column_type_changed", "a.b.c"); ("database.shared_consumer_impact_unmodeled", "database.consumers")]) ∧
  codes (compare_event_contracts (event false) (event true)) = (CS_Compatible, []) ∧
  codes (compare_graphql_contracts (Example_graphql.tightened false true "order") (Example_graphql.tightened true false "orders")) =
    (CS_Compatible, []) ∧
  map cf_factors (cr_findings (compare_package_contracts (packages ["a"; "b"]) (packages ["b"]))) =
    [["package coordinate changed from a to b"]; ["package manifests do not model public type declaration compatibility"]].
Proof. vm_compute. repeat split; reflexivity. Qed.
End Example_reports.
