(* ===== verification/Communities.v ===== *)
(** * Communities: the graph and the clustering
    ([crates/code-system-graph-core/src/communities.rs])

    Validation, the scope, the symmetric weighted graph over node positions, and
    the three clusterings. A vector indexed by position is a list; positions come
    from the graph, so no index is out of range. The progress callback receives
    one unit per call; a clustering returns how many units it reported. *)
From stdpp Require Import base gmap sets list strings pretty.
From S2P Require Import Prelude RustOrd RustFloat RustStr Model.

Section vectors.
Context {A : Type}.
(** [v[i]] and an assignment to it. *)
Definition vec_get (d : A) (v : list A) (i : nat) : A := default d (v !! i).
End vectors.

Definition f64_ratio (n d : Z) : f64 := f64_div (f64_lit n 0) (f64_lit d 0).
(** [value as f64] *)
Definition usize_to_f64 (value : N) : f64 := f64_lit (Z.of_N value) 0.

Definition EPSILON : f64 := f64_ratio 1 1000000000000.
Definition PAGE_RANK_DAMPING : f64 := f64_ratio 85 100.
Definition PAGE_RANK_ITERATIONS : nat := 64.
Definition RELATED_OVERLAP : f64 := f64_ratio 25 100.
Definition STABLE_OVERLAP : f64 := f64_ratio 80 100.
Definition EDGE_KIND_COUNT : nat := 25.

Inductive CommunityError :=
| InvalidResolution (resolution : f64)
| InvalidMaxIterations (max_iterations : N)
| InvalidMinimumConfidence (minimum_confidence : f32)
| CE_InvalidEdgeConfidence (edge_id : string) (confidence : f32)
| InvalidEdgeWeight (kind : EdgeKind) (weight : f64)
| DuplicateEdgeWeight (kind : EdgeKind)
| CE_DuplicateNodeId (node : string)
| UnknownService (stable_key : string).

Definition edge_kind_index (kind : EdgeKind) : nat :=
  match kind with
  | Contains => 0 | Provides => 1 | Consumes => 2 | CallsRemote => 3 | Publishes => 4 | Subscribes => 5 | DeliversTo => 6
  | DependsOnPackage => 7 | DependsOnRepository => 8 | ReadsTable => 9 | WritesTable => 10 | Deploys => 11 | Configures => 12
  | Documents => 13 | OwnedBy => 14 | ImplementedBy => 15 | Validates => 16 | ChangedIn => 17 | Affects => 18 | Precedes => 19
  | Reverts => 20 | CompatibleWith => 21 | IncompatibleWith => 22 | MemberOf => 23 | ManualLink => 24
  end.

(** ** Validation *)
Definition check_node_id (node_ids : gset NodeId) (node : Node) : result CommunityError (gset NodeId) :=
  if bool_decide (node_id node ∈ node_ids) then Err (CE_DuplicateNodeId (node_id node)) else Ok ({[node_id node]} ∪ node_ids).

Definition check_edge_confidence (u : unit) (edge : Edge) : result CommunityError unit :=
  if negb (f32_in_unit (edge_confidence edge)) then Err (CE_InvalidEdgeConfidence (edge_id edge) (edge_confidence edge)) else Ok tt.

Definition configure_weight (s : list f64 * list bool) (w : CommunityEdgeWeight) : result CommunityError (list f64 * list bool) :=
  let '(weights, configured) := s in
  if negb (f_is_finite (cw_weight w)) || f_lt (cw_weight w) f_zero then Err (InvalidEdgeWeight (cw_kind w) (cw_weight w))
  else
    let index := edge_kind_index (cw_kind w) in
    if vec_get false configured index then Err (DuplicateEdgeWeight (cw_kind w))
    else Ok (<[index := cw_weight w]> weights, <[index := true]> configured).

Definition validate_inputs (nodes : list Node) (edges : list Edge) (config : CommunityConfig) : result CommunityError (list f64) :=
  if negb (f_is_finite (cc_resolution config)) || f_le (cc_resolution config) f_zero
  then Err (InvalidResolution (cc_resolution config))
  else if negb ((1 <=? cc_max_iterations config)%N && (cc_max_iterations config <=? 10000)%N)
  then Err (InvalidMaxIterations (cc_max_iterations config))
  else if negb (f32_in_unit (cc_minimum_confidence config))
  then Err (InvalidMinimumConfidence (cc_minimum_confidence config))
  else
    check? try_fold check_node_id ∅ nodes in
    check? try_fold check_edge_confidence tt edges in
    let? s := try_fold configure_weight (repeat f64_one EDGE_KIND_COUNT, repeat false EDGE_KIND_COUNT) (cc_edge_weights config) in
    Ok (fst s).

Definition kind_weight (weights : list f64) (kind : EdgeKind) : f64 := vec_get f64_one weights (edge_kind_index kind).

(** ** Scope *)
Definition service_nodes (nodes : list Node) (stable_key : string) : gset NodeId :=
  bset_collect (map node_id (List.filter (λ node,
    bool_decide (node_kind node = NK_Service) && String.eqb (node_stable_key node) stable_key) nodes)).

Definition service_edge (config : CommunityConfig) (weights : list f64) (known : gset NodeId) (edge : Edge) : bool :=
  bool_decide (edge_status edge = Confirmed) && negb (f_lt (edge_confidence edge) (cc_minimum_confidence config))
  && negb (f_le (kind_weight weights (edge_kind edge)) f_zero)
  && bool_decide (edge_source edge ∈ known) && bool_decide (edge_target edge ∈ known).

Definition select_neighbors (services : gset NodeId) (selected : gset NodeId) (edge : Edge) : gset NodeId :=
  let selected := if bool_decide (edge_source edge ∈ services) then {[edge_target edge]} ∪ selected else selected in
  if bool_decide (edge_target edge ∈ services) then {[edge_source edge]} ∪ selected else selected.

Definition scoped_node_ids (nodes : list Node) (edges : list Edge) (config : CommunityConfig) (weights : list f64)
    : result CommunityError (gset NodeId) :=
  match cc_scope config with
  | CS_Federated | CS_Workspace => Ok (bset_collect (map node_id nodes))
  | CS_Repository repo_id =>
      Ok (bset_collect (map node_id (List.filter (λ node, bool_decide (node_repo_id node = Some repo_id)) nodes)))
  | CS_Service stable_key =>
      let services := service_nodes nodes stable_key in
      if bool_decide (services = ∅) then Err (UnknownService stable_key)
      else
        let known := bset_collect (map node_id nodes) in
        Ok (foldl (select_neighbors services) services (List.filter (service_edge config weights known) edges))
  end.

(** ** The graph *)
Record AcceptedEdge := { ae_source : nat; ae_target : nat; ae_weight : f64 }.

Record WeightedGraph := {
  wg_nodes : list Node;
  wg_adjacency : list (gmap nat f64);
  wg_accepted_edges : list AcceptedEdge;
  wg_weighted_degree : list f64;
  wg_neighbor_count : list nat;
  wg_total_undirected_weight : f64;
}.

Definition edge_order : Edge → Edge → comparison :=
  then_with (cmp_on edge_source cmp) (then_with (cmp_on edge_target cmp)
    (then_with (cmp_on (λ e, edge_kind_index (edge_kind e)) cmp)
      (then_with (cmp_on edge_id cmp) (cmp_on edge_confidence f_total_cmp)))).

Definition edge_weight (weights : list f64) (edge : Edge) : f64 :=
  f64_mul (kind_weight weights (edge_kind edge)) (f64_from_f32 (edge_confidence edge)).

Definition accept_edge (config : CommunityConfig) (weights : list f64) (index : gmap NodeId nat) (edge : Edge) : option AcceptedEdge :=
  if negb (bool_decide (edge_status edge = Confirmed)) || f_lt (edge_confidence edge) (cc_minimum_confidence config) then None
  else
    source ← index !! edge_source edge;
    target ← index !! edge_target edge;
    if f_le (edge_weight weights edge) f_zero then None
    else Some {| ae_source := source; ae_target := target; ae_weight := edge_weight weights edge |}.

Definition undirected_pair (edge : AcceptedEdge) : nat * nat :=
  if (ae_source edge <=? ae_target edge)%nat then (ae_source edge, ae_target edge) else (ae_target edge, ae_source edge).

Definition add_undirected (undirected : gmap (nat * nat) f64) (edge : AcceptedEdge) : gmap (nat * nat) f64 :=
  let pair := undirected_pair edge in
  <[pair := f64_add (default f_zero (undirected !! pair)) (ae_weight edge)]> undirected.

Record Tables := {
  tb_adjacency : list (gmap nat f64);
  tb_weighted_degree : list f64;
  tb_neighbors : list (gset nat);
  tb_total : f64;
}.

Definition add_pair (t : Tables) (entry : (nat * nat) * f64) : Tables :=
  let '((source, target), weight) := entry in
  if (source =? target)%nat then
    {| tb_adjacency := alter <[target := weight]> source (tb_adjacency t);
       tb_weighted_degree := alter (λ d, f64_add d (f64_mul (f64_lit 2 0) weight)) source (tb_weighted_degree t);
       tb_neighbors := tb_neighbors t;
       tb_total := f64_add (tb_total t) weight |}
  else
    {| tb_adjacency := alter <[source := weight]> target (alter <[target := weight]> source (tb_adjacency t));
       tb_weighted_degree := alter (λ d, f64_add d weight) target (alter (λ d, f64_add d weight) source (tb_weighted_degree t));
       tb_neighbors := alter (λ s, {[source]} ∪ s) target (alter (λ s, {[target]} ∪ s) source (tb_neighbors t));
       tb_total := f64_add (tb_total t) weight |}.

Definition empty_tables (count : nat) : Tables :=
  {| tb_adjacency := repeat ∅ count; tb_weighted_degree := repeat f_zero count; tb_neighbors := repeat ∅ count; tb_total := f_zero |}.

Definition graph_nodes (nodes : list Node) (selected : gset NodeId) : list Node :=
  sort_by (cmp_on node_id cmp) (List.filter (λ node, bool_decide (node_id node ∈ selected)) nodes).

Definition node_index (nodes : list Node) : gmap NodeId nat := btree_collect (imap (λ position node, (node_id node, position)) nodes).

Definition build_graph (nodes : list Node) (edges : list Edge) (config : CommunityConfig) (weights : list f64) (selected : gset NodeId)
    : WeightedGraph :=
  let graph_nodes := graph_nodes nodes selected in
  let accepted_edges := omap (accept_edge config weights (node_index graph_nodes)) (sort_by edge_order edges) in
  let undirected := foldl add_undirected ∅ accepted_edges in
  let tables := foldl add_pair (empty_tables (length graph_nodes)) (btree_entries undirected) in
  {| wg_nodes := graph_nodes;
     wg_adjacency := tb_adjacency tables;
     wg_accepted_edges := accepted_edges;
     wg_weighted_degree := tb_weighted_degree tables;
     wg_neighbor_count := map size (tb_neighbors tables);
     wg_total_undirected_weight := tb_total tables |}.

(** The position of a node and the neighbours of a position. *)
Definition id_at (graph : WeightedGraph) (position : nat) : NodeId := from_option node_id "" (wg_nodes graph !! position).
Definition neighbors_at (graph : WeightedGraph) (position : nat) : list (nat * f64) :=
  btree_entries (vec_get ∅ (wg_adjacency graph) position).

(** ** Connected components *)

(** [usize::MAX], the mark of a node that has no component yet, is [None]. *)
Definition reach (component : nat) (s : list (option nat) * list nat) (entry : nat * f64) : list (option nat) * list nat :=
  let '(assignments, pending) := s in
  let '(neighbor, weight) := entry in
  if f_lt f_zero weight && negb (bool_decide (is_Some (vec_get None assignments neighbor)))
  then (<[neighbor := Some component]> assignments, neighbor :: pending)
  else s.

(** The head of [pending] is the top of the stack. *)
Fixpoint flood (fuel : nat) (graph : WeightedGraph) (component : nat) (assignments : list (option nat)) (pending : list nat)
    : option (list (option nat)) :=
  match fuel with
  | O => None
  | S fuel =>
      match pending with
      | [] => Some assignments
      | node :: pending =>
          let '(assignments, pending) := foldl (reach component) (assignments, pending) (neighbors_at graph node) in
          flood fuel graph component assignments pending
      end
  end.

(** Every pending node was assigned when it was pushed, so there are at most as
    many rounds as nodes, and a last one. *)
Definition flood_fuel (graph : WeightedGraph) : nat := S (length (wg_nodes graph)).

Definition component_from (graph : WeightedGraph) (s : option (list (option nat) * nat)) (start : nat) : option (list (option nat) * nat) :=
  '(assignments, component) ← s;
  if bool_decide (is_Some (vec_get None assignments start)) then Some (assignments, component)
  else
    assignments ← flood (flood_fuel graph) graph component (<[start := Some component]> assignments) [start];
    Some (assignments, S component).

(** Every node has a component in the end; [None] stands for the out-of-fuel case. *)
Definition connected_components (graph : WeightedGraph) : option (list nat * nat) :=
  let count := length (wg_nodes graph) in
  '(assignments, component) ← foldl (component_from graph) (Some (repeat None count, 0)) (seq 0 count);
  Some (map (default 0) assignments, component).
