(* ===== verification/Clustering.v ===== *)
(** * Communities: label propagation and Louvain
    ([crates/code-system-graph-core/src/communities.rs]) *)
From stdpp Require Import base gmap sets list strings pretty.
From S2P Require Import Prelude RustOrd RustFloat RustStr Model Communities.

Definition f64_abs : f64 → f64 := SpecFloat.SFabs.

Section clustering.
Context `{Blake3}.

(** ** Seeded orders *)
Definition seeded_key (seed : N) (value : string) : string := stable_id "community-order" (pretty seed +:+ ":" +:+ value).

Definition seeded_label_key (graph : WeightedGraph) (seed : N) (label : nat) : string :=
  match wg_nodes graph !! label with
  | None => stable_id "community-order" (pretty seed +:+ ":empty:" +:+ pretty (N.of_nat label))
  | Some node => seeded_key seed (node_id node)
  end.

Definition seeded_order (graph : WeightedGraph) (seed : N) : nat → nat → comparison :=
  then_with (cmp_on (λ i, seeded_key seed (id_at graph i)) cmp) (cmp_on (id_at graph) cmp).

Definition seeded_node_order (graph : WeightedGraph) (seed : N) : list nat :=
  sort_by (seeded_order graph seed) (seq 0 (length (wg_nodes graph))).

Definition key_lt (a b : string) : bool := match cmp a b with Lt => true | _ => false end.

(** ** Label propagation *)
Definition add_score (assignments : list nat) (node : nat) (scores : gmap nat f64) (entry : nat * f64) : gmap nat f64 :=
  let '(neighbor, weight) := entry in
  if (neighbor =? node)%nat then scores
  else
    let label := vec_get 0 assignments neighbor in
    <[label := f64_add (default f_zero (scores !! label)) weight]> scores.

Definition better_label (graph : WeightedGraph) (seed : N) (current_score : f64) (s : nat * f64) (entry : nat * f64) : nat * f64 :=
  let '(best, best_score) := s in
  let '(candidate, score) := entry in
  if f_lt (f64_add best_score EPSILON) score
     || f_le (f64_abs (f64_sub score best_score)) EPSILON && f_lt (f64_add current_score EPSILON) score
        && key_lt (seeded_label_key graph seed candidate) (seeded_label_key graph seed best)
  then (candidate, score) else (best, best_score).

Definition label_step (graph : WeightedGraph) (seed : N) (s : list nat * bool) (node : nat) : list nat * bool :=
  let '(assignments, changed) := s in
  let scores := foldl (add_score assignments node) ∅ (neighbors_at graph node) in
  let current := vec_get 0 assignments node in
  let current_score := default f_zero (scores !! current) in
  let '(best, _) := foldl (better_label graph seed current_score) (current, current_score) (btree_entries scores) in
  if (best =? current)%nat then (assignments, changed) else (<[node := best]> assignments, true).

(** The rounds that are left; the number counts the reported units. *)
Fixpoint label_rounds (rounds : nat) (graph : WeightedGraph) (seed : N) (order : list nat) (assignments : list nat) : list nat * nat :=
  match rounds with
  | O => (assignments, 0)
  | S rounds =>
      let '(assignments, changed) := foldl (label_step graph seed) (assignments, false) order in
      if changed then let '(assignments, units) := label_rounds rounds graph seed order assignments in (assignments, S units)
      else (assignments, 1)
  end.

Definition weighted_label_propagation (graph : WeightedGraph) (seed max_iterations : N) : list nat * nat :=
  label_rounds (N.to_nat max_iterations) graph seed (seeded_node_order graph seed) (seq 0 (length (wg_nodes graph))).

(** ** Louvain *)
Record LouvainState := {
  lv_assignments : list nat;
  lv_community_degree : list f64;
  lv_members : list nat;
  lv_empty : gset nat;
}.

Definition add_link (assignments : list nat) (node : nat) (links : gmap nat f64) (entry : nat * f64) : gmap nat f64 :=
  let '(neighbor, weight) := entry in
  if (neighbor =? node)%nat then links
  else
    let label := vec_get 0 assignments neighbor in
    <[label := f64_add (default f_zero (links !! label)) weight]> links.

Definition first_empty (empty : gset nat) : option nat := head (bset_elements empty).

Definition candidate_links (graph : WeightedGraph) (s : LouvainState) (node : nat) : gmap nat f64 :=
  let current := vec_get 0 (lv_assignments s) node in
  let links := foldl (add_link (lv_assignments s) node) {[current := f_zero]} (neighbors_at graph node) in
  match first_empty (lv_empty s) with
  | Some label => if contains_key links label then links else <[label := f_zero]> links
  | None => links
  end.

Definition gain (graph : WeightedGraph) (resolution : f64) (s : LouvainState) (node : nat) (current_links candidate_links : f64)
    (candidate : nat) : f64 :=
  let total := wg_total_undirected_weight graph in
  let degree := vec_get f_zero (wg_weighted_degree graph) node in
  let source_degree := f64_sub (vec_get f_zero (lv_community_degree s) (vec_get 0 (lv_assignments s) node)) degree in
  f64_sub (f64_div (f64_sub candidate_links current_links) total)
    (f64_div (f64_mul (f64_mul resolution degree) (f64_sub (vec_get f_zero (lv_community_degree s) candidate) source_degree))
       (f64_mul (f64_mul (f64_lit 2 0) total) total)).

Definition better_move (graph : WeightedGraph) (resolution : f64) (label_keys : list string) (s : LouvainState) (node : nat)
    (current_links : f64) (b : nat * f64) (entry : nat * f64) : nat * f64 :=
  let '(best, best_gain) := b in
  let '(candidate, candidate_links) := entry in
  if (candidate =? vec_get 0 (lv_assignments s) node)%nat then b
  else
    let gain := gain graph resolution s node current_links candidate_links candidate in
    if f_lt (f64_add best_gain EPSILON) gain
       || f_le (f64_abs (f64_sub gain best_gain)) EPSILON && f_lt EPSILON gain
          && key_lt (vec_get "" label_keys candidate) (vec_get "" label_keys best)
    then (candidate, gain) else b.

(** Node [node] moves from community [current] to [best]. *)
Definition move (s : LouvainState) (node current best : nat) (degree : f64) : LouvainState :=
  let degrees := alter (λ d, f64_sub d degree) current (lv_community_degree s) in
  let members := alter S best (alter pred current (lv_members s)) in
  let empty := if (vec_get 0 members current =? 0)%nat then {[current]} ∪ lv_empty s else lv_empty s in
  {| lv_assignments := <[node := best]> (lv_assignments s);
     lv_community_degree := alter (λ d, f64_add d degree) best degrees;
     lv_members := members;
     lv_empty := empty ∖ {[best]} |}.

Definition louvain_step (graph : WeightedGraph) (resolution : f64) (label_keys : list string) (t : LouvainState * bool) (node : nat)
    : LouvainState * bool :=
  let '(s, changed) := t in
  let current := vec_get 0 (lv_assignments s) node in
  let links := candidate_links graph s node in
  let current_links := default f_zero (links !! current) in
  let '(best, best_gain) :=
    foldl (better_move graph resolution label_keys s node current_links) (current, f_zero) (btree_entries links) in
  if negb (best =? current)%nat && f_lt EPSILON best_gain
  then (move s node current best (vec_get f_zero (wg_weighted_degree graph) node), true)
  else t.

Fixpoint louvain_rounds (rounds : nat) (graph : WeightedGraph) (resolution : f64) (label_keys : list string) (order : list nat)
    (s : LouvainState) : LouvainState * nat :=
  match rounds with
  | O => (s, 0)
  | S rounds =>
      let '(s, changed) := foldl (louvain_step graph resolution label_keys) (s, false) order in
      if changed then let '(s, units) := louvain_rounds rounds graph resolution label_keys order s in (s, S units)
      else (s, 1)
  end.

Definition louvain_start (graph : WeightedGraph) : LouvainState :=
  let count := length (wg_nodes graph) in
  {| lv_assignments := seq 0 count; lv_community_degree := wg_weighted_degree graph; lv_members := repeat 1 count; lv_empty := ∅ |}.

Definition louvain (graph : WeightedGraph) (seed : N) (resolution : f64) (max_iterations : N) : list nat * nat :=
  let count := length (wg_nodes graph) in
  if f_le (wg_total_undirected_weight graph) EPSILON then (seq 0 count, 0)
  else
    let label_keys := map (seeded_label_key graph seed) (seq 0 count) in
    let '(s, units) :=
      louvain_rounds (N.to_nat max_iterations) graph resolution label_keys (seeded_node_order graph seed) (louvain_start graph) in
    (lv_assignments s, units).
End clustering.
