(* ===== verification/CommunityReport.v ===== *)
(** * Communities: description and comparison
    ([crates/code-system-graph-core/src/communities.rs])

    The communities of an assignment with their metrics and labels, the whole
    analysis, and the comparison of two snapshots. *)
From stdpp Require Import base gmap sets list strings pretty.
From S2P Require Import Prelude RustOrd RustFloat RustStr Model Communities Clustering.

Definition ENGINE_VERSION : string := "1.0.0".

(** The Unicode tables of the standard library. *)
Class TextTables := {
  str_to_lowercase : string → string;
  text_is_alphanumeric : N → bool;
  text_is_alphabetic : N → bool;
  to_uppercase : N * string → string;
}.

Definition is_contract_kind (kind : NodeKind) : bool :=
  match kind with
  | NK_HttpOperation | NK_GraphqlOperation | NK_RpcMethod | NK_EventChannel | NK_EventSchema | NK_Database | NK_DatabaseTable => true
  | _ => false
  end.

(** ** Centrality *)
Definition scatter_rank (ranks outgoing : list f64) (next : list f64) (edge : AcceptedEdge) : list f64 :=
  let out := vec_get f_zero outgoing (ae_source edge) in
  if f_lt EPSILON out then
    alter (λ r, f64_add r (f64_div (f64_mul (f64_mul PAGE_RANK_DAMPING (vec_get f_zero ranks (ae_source edge))) (ae_weight edge)) out))
      (ae_target edge) next
  else next.

(** Adding the first rank to either zero gives the rank, so the sign of the zero
    the sum starts from does not matter for a base that is not zero. *)
Definition dangling_rank (ranks outgoing : list f64) : f64 :=
  foldl f64_add f_zero (omap (λ '(rank, out), if f_le out EPSILON then Some rank else None) (zip ranks outgoing)).

Definition rank_round (graph : WeightedGraph) (outgoing : list f64) (ranks : list f64) : list f64 :=
  let count := length (wg_nodes graph) in
  let count_f64 := usize_to_f64 (N.of_nat count) in
  let base := f64_add (f64_div (f64_sub f64_one PAGE_RANK_DAMPING) count_f64)
                (f64_div (f64_mul PAGE_RANK_DAMPING (dangling_rank ranks outgoing)) count_f64) in
  foldl (scatter_rank ranks outgoing) (repeat base count) (wg_accepted_edges graph).

Definition weighted_page_rank (graph : WeightedGraph) : list f64 :=
  let count := length (wg_nodes graph) in
  if (count =? 0)%nat then []
  else
    let outgoing :=
      foldl (λ outgoing edge, alter (λ o, f64_add o (ae_weight edge)) (ae_source edge) outgoing) (repeat f_zero count)
        (wg_accepted_edges graph) in
    Nat.iter PAGE_RANK_ITERATIONS (rank_round graph outgoing) (repeat (f64_div f64_one (usize_to_f64 (N.of_nat count))) count).

Definition detect_god_nodes (graph : WeightedGraph) : gset nat :=
  let count := length (wg_nodes graph) in
  if (count <? 4)%nat then ∅
  else
    let degrees := sort_by cmp (wg_neighbor_count graph) in
    let median := vec_get 0 degrees (length degrees / 2) in
    let majority := ((count + 1) / 2)%nat in
    list_to_set (omap (λ '(node, degree),
      if (majority <=? degree)%nat && (Nat.max (median * 2) 3 <=? degree)%nat then Some node else None)
      (imap pair (wg_neighbor_count graph))).

Definition centrality_score (page_rank weighted_degree maximum_degree : f64) : f64 :=
  let normalized_degree := if f_le maximum_degree EPSILON then f_zero else f64_div weighted_degree maximum_degree in
  f64_add (f64_mul (f64_ratio 65 100) page_rank) (f64_mul (f64_ratio 35 100) normalized_degree).

Definition degree_at (graph : WeightedGraph) (node : nat) : f64 := vec_get f_zero (wg_weighted_degree graph) node.

Definition central_order (graph : WeightedGraph) (page_rank : list f64) (god_nodes : gset nat) (maximum_degree : f64)
    (left_node right_node : nat) : comparison :=
  let score node := centrality_score (vec_get f_zero page_rank node) (degree_at graph node) maximum_degree in
  match cmp (bool_decide (right_node ∈ god_nodes)) (bool_decide (left_node ∈ god_nodes)) with
  | Eq => match f_total_cmp (score right_node) (score left_node) with
          | Eq => cmp (id_at graph left_node) (id_at graph right_node)
          | o => o
          end
  | o => o
  end.

Definition central_nodes (graph : WeightedGraph) (members : list nat) (page_rank : list f64) (god_nodes : gset nat) : list nat :=
  let maximum_degree := foldl f_max f_zero (map (degree_at graph) members) in
  take 3 (sort_by (central_order graph page_rank god_nodes maximum_degree) members).

(** ** Labels *)
Section labels.
Context `{TextTables}.

Definition stop_terms : list string :=
  ["api"; "app"; "application"; "artifact"; "community"; "default"; "http"; "https"; "operation"; "repo"; "repository"; "rpc";
   "service"; "src"; "test"; "tests"; "version"].
Definition is_stop_term (term : string) : bool := existsb (String.eqb term) stop_terms.

(** [value.split(|c| !c.is_alphanumeric())] *)
Fixpoint split_terms (characters : list (N * string)) : list string :=
  match characters with
  | [] => [""]
  | (c, bytes) :: rest =>
      match split_terms rest with
      | piece :: pieces => if text_is_alphanumeric c then (bytes +:+ piece) :: pieces else "" :: piece :: pieces
      | [] => []
      end
  end.

Definition keeps_term (term : string) : bool :=
  (3 <=? String.length term)%nat && (String.length term <=? 32)%nat
  && existsb (λ c, text_is_alphabetic (fst c)) (chars term) && negb (is_stop_term term).

Definition normalized_terms (value : string) : gset string :=
  bset_collect (List.filter keeps_term (map str_to_lowercase (split_terms (chars value)))).

Definition title_case (term : string) : string :=
  match chars term with
  | [] => ""
  | first :: rest => to_uppercase first +:+ foldr (λ c s, snd c +:+ s) "" rest
  end.

Definition u32_max : N := 4294967295.

Definition TermEntry : Type := N * NodeId * N.

Definition add_term (node : Node) (score : N) (terms : gmap string TermEntry) (term : string) : gmap string TermEntry :=
  let '(total, best_id, best_score) := default (0%N, node_id node, 0%N) (terms !! term) in
  let total := N.min (total + score) u32_max in
  <[term :=
      if (best_score <? score)%N || (score =? best_score)%N && key_lt (node_id node) best_id
      then (total, node_id node, score) else (total, best_id, best_score)]> terms.

Definition node_score (central : gset nat) (member : nat) (node : Node) : N :=
  ((match node_kind node with
    | NK_Service => 400
    | NK_Repository => 300
    | kind => if is_contract_kind kind then 200 else 0
    end) + if bool_decide (member ∈ central) then 100 else 0)%N.

Definition add_member_terms (central : gset nat) (terms : gmap string TermEntry) (entry : nat * Node) : gmap string TermEntry :=
  let '(member, node) := entry in
  let score := node_score central member node in
  if (score =? 0)%N then terms
  else foldl (add_term node score) terms (bset_elements (normalized_terms (node_label node) ∪ normalized_terms (node_stable_key node))).

Definition RankedTerm : Type := string * N * NodeId.

Definition term_order : RankedTerm → RankedTerm → comparison :=
  then_with (λ a b, cmp b.1.2 a.1.2) (then_with (cmp_on (λ t, t.1.1) cmp) (cmp_on snd cmp)).

(** The nodes at the given positions. *)
Definition member_nodes (graph : WeightedGraph) (members : list nat) : list (nat * Node) :=
  omap (λ member, pair member <$> wg_nodes graph !! member) members.

Definition structural_label (graph : WeightedGraph) (members central : list nat) : string * list CommunityLabelEvidence :=
  let terms := foldl (add_member_terms (list_to_set central)) ∅ (member_nodes graph members) in
  let ranked := take 3 (sort_by term_order (map (λ '(term, (score, id, _)), (term, score, id)) (btree_entries terms))) in
  match ranked with
  | [] => ("Community: " +:+ from_option (λ e, node_label e.2) "community" (head (member_nodes graph members)), [])
  | _ => (join " / " (map (λ t, title_case t.1.1) ranked),
          map (λ t, {| cl_node_id := t.2; cl_term := t.1.1 |}) ranked)
  end.
End labels.

(** ** Metrics *)
Record EdgeTotals := {
  et_inbound : gset NodeId;
  et_outbound : gset NodeId;
  et_cohesion : f64;
  et_coupling : f64;
  et_cross : N;
  et_internal : gset (nat * nat);
}.

Definition no_totals : EdgeTotals :=
  {| et_inbound := ∅; et_outbound := ∅; et_cohesion := f_zero; et_coupling := f_zero; et_cross := 0; et_internal := ∅ |}.

Definition contract_at (graph : WeightedGraph) (node : nat) : bool :=
  from_option (λ n, is_contract_kind (node_kind n)) false (wg_nodes graph !! node).

Definition add_edge_totals (graph : WeightedGraph) (members : gset nat) (t : EdgeTotals) (edge : AcceptedEdge) : EdgeTotals :=
  let source_inside := bool_decide (ae_source edge ∈ members) in
  let target_inside := bool_decide (ae_target edge ∈ members) in
  if source_inside && target_inside then
    {| et_inbound := et_inbound t; et_outbound := et_outbound t;
       et_cohesion := f64_add (et_cohesion t) (ae_weight edge); et_coupling := et_coupling t; et_cross := et_cross t;
       et_internal := if (ae_source edge =? ae_target edge)%nat then et_internal t
                      else {[(ae_source edge, ae_target edge)]} ∪ et_internal t |}
  else if source_inside || target_inside then
    {| et_inbound := if target_inside && contract_at graph (ae_target edge) then {[id_at graph (ae_target edge)]} ∪ et_inbound t
                     else et_inbound t;
       et_outbound := if source_inside && contract_at graph (ae_source edge) then {[id_at graph (ae_source edge)]} ∪ et_outbound t
                      else et_outbound t;
       et_cohesion := et_cohesion t; et_coupling := f64_add (et_coupling t) (ae_weight edge); et_cross := (et_cross t + 1)%N;
       et_internal := et_internal t |}
  else t.

Definition density (members internal_pairs : N) : f64 :=
  let possible := N.min (members * (members - 1)) usize_max in
  if (possible =? 0)%N then f_zero else f64_div (usize_to_f64 internal_pairs) (usize_to_f64 possible).

Definition limitations (graph : WeightedGraph) (members : list nat) (god_nodes : gset nat) (cohesion : f64) : list string :=
  sort_by cmp
    ((if (length members =? 1)%nat then ["Community contains a single node; structural metrics are limited."] else [])
     ++ flat_map (λ node,
          if bool_decide (node ∈ god_nodes) then
            ["High-degree god node `" +:+ id_at graph node +:+ "` may dominate community structure."]
          else []) members
     ++ (if f_le cohesion EPSILON then ["Community has no positive internal accepted edge weight."] else [])).

Definition canonical_members (member_ids : list NodeId) : string :=
  join "|" (map (λ id, pretty (N.of_nat (String.length id)) +:+ ":" +:+ id) member_ids).

Section describe.
Context `{Blake3, TextTables}.

Definition describe_community (graph : WeightedGraph) (page_rank : list f64) (god_nodes : gset nat) (members : list nat) : Community :=
  let central := central_nodes graph members page_rank god_nodes in
  let '(label, label_evidence) := structural_label graph members central in
  let nodes := map snd (member_nodes graph members) in
  let totals := foldl (add_edge_totals graph (list_to_set members)) no_totals (wg_accepted_edges graph) in
  let member_ids := map (id_at graph) members in
  {| com_id := stable_id "community" (canonical_members member_ids);
     com_label := label;
     com_members := member_ids;
     com_central_nodes := map (id_at graph) central;
     com_repositories := bset_elements (bset_collect (omap node_repo_id nodes));
     com_services :=
       bset_elements (bset_collect (map node_id (List.filter (λ n, bool_decide (node_kind n = NK_Service)) nodes)));
     com_inbound_contracts := bset_elements (et_inbound totals);
     com_outbound_contracts := bset_elements (et_outbound totals);
     com_metrics :=
       {| cm_size := len members; cm_density := density (len members) (N.of_nat (size (et_internal totals)));
          cm_cohesion := et_cohesion totals; cm_coupling := et_coupling totals; cm_cross_community_edges := et_cross totals |};
     com_label_evidence := label_evidence;
     com_limitations := limitations graph members god_nodes (et_cohesion totals) |}.

Definition add_member (grouped : gmap nat (list nat)) (entry : nat * nat) : gmap nat (list nat) :=
  let '(node, community) := entry in <[community := default [] (grouped !! community) ++ [node]]> grouped.

(** Members in identifier order, groups in the order of their identifiers. *)
Definition member_groups (graph : WeightedGraph) (assignments : list nat) : list (list nat) :=
  sort_by (cmp_on (map (id_at graph)) cmp)
    (map (sort_by (cmp_on (id_at graph) cmp)) (btree_values (foldl add_member ∅ (imap pair assignments)))).

Definition describe_communities (graph : WeightedGraph) (assignments : list nat) : list Community :=
  map (describe_community graph (weighted_page_rank graph) (detect_god_nodes graph)) (member_groups graph assignments).

(** ** The analysis *)
Definition cluster (graph : WeightedGraph) (config : CommunityConfig) : option (list nat * nat) :=
  match cc_algorithm config with
  | ConnectedComponents => connected_components graph
  | WeightedClustering => Some (weighted_label_propagation graph (cc_seed config) (cc_max_iterations config))
  | Louvain => Some (louvain graph (cc_seed config) (cc_resolution config) (cc_max_iterations config))
  end.

(** The snapshot and the units that were reported; [None] stands for the
    out-of-fuel case. *)
Definition analyze_communities_with_progress (snapshot_id : string) (nodes : list Node) (edges : list Edge) (config : CommunityConfig)
    : result CommunityError (option (CommunitySnapshot * nat)) :=
  let? weights := validate_inputs nodes edges config in
  let? selected := scoped_node_ids nodes edges config weights in
  let graph := build_graph nodes edges config weights selected in
  Ok ('(assignments, units) ← cluster graph config;
      Some ({| snap_id := snapshot_id; snap_engine_version := ENGINE_VERSION; snap_config := config;
               snap_communities := describe_communities graph assignments |}, units)).
End describe.
