(* ===== verification/CommunityDelta.v ===== *)
(** * Communities: comparison of two snapshots
    ([crates/code-system-graph-core/src/communities.rs]) *)
From stdpp Require Import base gmap sets list strings sorting pretty.
From S2P Require Import Prelude RustOrd RustFloat RustStr Model FloatMono Communities.

Inductive CommunityChangeKind := Created | Removed | Split | Merged | MateriallyChanged.

Record CommunityChange := {
  ch_kind : CommunityChangeKind;
  ch_before : list CommunityId;
  ch_after : list CommunityId;
  ch_overlap : f64;
  ch_explanation : string;
}.

Record CommunityDelta := {
  cd_before_snapshot_id : string;
  cd_after_snapshot_id : string;
  cd_changes : list CommunityChange;
}.

(** ** Overlaps *)
Definition member_set (c : Community) : gset NodeId := bset_collect (com_members c).

Definition member_overlap (old new : Community) : f64 :=
  let union := size (member_set old ∪ member_set new) in
  if (union =? 0)%nat then f64_one
  else f64_div (usize_to_f64 (N.of_nat (size (member_set old ∩ member_set new)))) (usize_to_f64 (N.of_nat union)).

Definition overlap_row (after : list Community) (before_index : nat) (old : Community) : list ((nat * nat) * f64) :=
  imap (λ after_index new, ((before_index, after_index), member_overlap old new)) after.

Definition overlap_matrix (before after : list Community) : gmap (nat * nat) f64 :=
  btree_collect (concat (imap (overlap_row after) before)).

Definition related (overlaps : gmap (nat * nat) f64) (before after : nat) : bool :=
  is_some_and (overlaps !! (before, after)) (λ overlap, f_le RELATED_OVERLAP overlap).

Definition related_after (overlaps : gmap (nat * nat) f64) (before_count after_count : nat) : list (list nat) :=
  map (λ before, List.filter (λ after, related overlaps before after) (seq 0 after_count)) (seq 0 before_count).

Definition related_before (overlaps : gmap (nat * nat) f64) (before_count after_count : nat) : list (list nat) :=
  map (λ after, List.filter (λ before, related overlaps before after) (seq 0 before_count)) (seq 0 after_count).

Definition maximum_overlap (overlaps : gmap (nat * nat) f64) (related : list nat) (key : nat → nat * nat) : f64 :=
  foldl f_max f_zero (omap (λ index, overlaps !! key index) related).

(** ** Classification *)
Definition community_id_at (communities : list Community) (index : nat) : CommunityId :=
  from_option com_id "" (communities !! index).

Record Matching := {
  mt_changes : list CommunityChange;
  mt_before : gset nat;
  mt_after : gset nat;
}.

Section comparison.
Context (before after : list Community) (overlaps : gmap (nat * nat) f64).

Definition split_change (before_index : nat) (related : list nat) : CommunityChange :=
  {| ch_kind := Split;
     ch_before := [community_id_at before before_index];
     ch_after := map (community_id_at after) related;
     ch_overlap := maximum_overlap overlaps related (λ index, (before_index, index));
     ch_explanation := "One prior community overlaps " +:+ pretty (len related) +:+ " successor communities at or above 0.25." |}.

Definition classify_split (m : Matching) (entry : nat * list nat) : Matching :=
  let '(before_index, related) := entry in
  if (2 <=? length related)%nat then
    {| mt_changes := mt_changes m ++ [split_change before_index related];
       mt_before := {[before_index]} ∪ mt_before m;
       mt_after := mt_after m ∪ list_to_set related |}
  else m.

Definition merge_change (after_index : nat) (related : list nat) : CommunityChange :=
  {| ch_kind := Merged;
     ch_before := map (community_id_at before) related;
     ch_after := [community_id_at after after_index];
     ch_overlap := maximum_overlap overlaps related (λ index, (index, after_index));
     ch_explanation := pretty (len related) +:+ " prior communities overlap one successor at or above 0.25." |}.

Definition classify_merge (m : Matching) (entry : nat * list nat) : Matching :=
  let '(after_index, related) := entry in
  if (2 <=? length related)%nat then
    {| mt_changes := mt_changes m ++ [merge_change after_index related];
       mt_before := mt_before m ∪ list_to_set related;
       mt_after := {[after_index]} ∪ mt_after m |}
  else m.

Definition classify_structural_changes : Matching :=
  let before_related := related_after overlaps (length before) (length after) in
  let after_related := related_before overlaps (length before) (length after) in
  foldl classify_merge (foldl classify_split {| mt_changes := []; mt_before := ∅; mt_after := ∅ |} (imap pair before_related))
    (imap pair after_related).

Definition Candidate : Type := nat * nat * f64.

Definition candidate_order (left_candidate right_candidate : Candidate) : comparison :=
  then_with (λ a b : Candidate, f_total_cmp b.2 a.2)
    (then_with (cmp_on (λ c : Candidate, community_id_at before c.1.1) cmp)
       (cmp_on (λ c : Candidate, community_id_at after c.1.2) cmp)) left_candidate right_candidate.

Definition pair_candidates : list Candidate :=
  sort_by candidate_order
    (map (λ entry, (entry.1.1, entry.1.2, entry.2))
       (List.filter (λ entry : (nat * nat) * f64, f_le RELATED_OVERLAP entry.2) (btree_entries overlaps))).

Definition classify_pair (m : Matching) (candidate : Candidate) : Matching :=
  let '(before_index, after_index, overlap) := candidate in
  if bool_decide (before_index ∈ mt_before m) || bool_decide (after_index ∈ mt_after m) then m
  else
    {| mt_changes := mt_changes m ++
         (if f_lt (f64_add overlap EPSILON) STABLE_OVERLAP then
            [{| ch_kind := MateriallyChanged;
                ch_before := [community_id_at before before_index];
                ch_after := [community_id_at after after_index];
                ch_overlap := overlap;
                ch_explanation := "Best one-to-one member overlap is " +:+ f_format_3 overlap
                                  +:+ ", below the stable threshold 0.80." |}]
          else []);
       mt_before := {[before_index]} ∪ mt_before m;
       mt_after := {[after_index]} ∪ mt_after m |}.

Definition classify_pairwise_changes (m : Matching) : Matching := foldl classify_pair m pair_candidates.

Definition removed_changes (m : Matching) : list CommunityChange :=
  omap (λ '(index, community),
    if bool_decide (index ∈ mt_before m) then None
    else Some {| ch_kind := Removed; ch_before := [com_id community]; ch_after := []; ch_overlap := f_zero;
                 ch_explanation := "No successor community reaches the related-overlap threshold 0.25." |}) (imap pair before).

Definition created_changes (m : Matching) : list CommunityChange :=
  omap (λ '(index, community),
    if bool_decide (index ∈ mt_after m) then None
    else Some {| ch_kind := Created; ch_before := []; ch_after := [com_id community]; ch_overlap := f_zero;
                 ch_explanation := "No prior community reaches the related-overlap threshold 0.25." |}) (imap pair after).

Definition classify_unmatched (m : Matching) : list CommunityChange := mt_changes m ++ removed_changes m ++ created_changes m.
End comparison.

Definition change_kind_index (kind : CommunityChangeKind) : nat :=
  match kind with Created => 0 | Removed => 1 | Split => 2 | Merged => 3 | MateriallyChanged => 4 end.

Definition compare_changes : CommunityChange → CommunityChange → comparison :=
  then_with (cmp_on (λ c, change_kind_index (ch_kind c)) cmp)
    (then_with (cmp_on ch_before cmp)
       (then_with (cmp_on ch_after cmp) (then_with (cmp_on ch_overlap f_total_cmp) (cmp_on ch_explanation cmp)))).

Definition compare_community_snapshots (before after : CommunitySnapshot) : CommunityDelta :=
  let old := snap_communities before in
  let new := snap_communities after in
  let overlaps := overlap_matrix old new in
  let matching := classify_pairwise_changes old new overlaps (classify_structural_changes old new overlaps) in
  {| cd_before_snapshot_id := snap_id before;
     cd_after_snapshot_id := snap_id after;
     cd_changes := sort_by compare_changes (classify_unmatched old new matching) |}.

(** ** What the comparison accounts for *)

(** The communities overlap and the overlap is stable. *)
Definition stable_pair (old new : Community) : Prop :=
  f_le RELATED_OVERLAP (member_overlap old new) = true ∧ f_lt (f64_add (member_overlap old new) EPSILON) STABLE_OVERLAP = false.

Section accounts.
Context (before after : list Community).
Local Notation overlaps := (overlap_matrix before after).

Lemma overlap_matrix_lookup i j w :
  overlaps !! (i, j) = Some w → ∃ old new, before !! i = Some old ∧ after !! j = Some new ∧ w = member_overlap old new.
Proof using.
  intros Hl%btree_collect_lookup_Some. apply list_elem_of_In, in_concat in Hl as (row & Hrow & Hin).
  apply list_elem_of_In, elem_of_lookup_imap in Hrow as (k & old & -> & Hold). unfold overlap_row in Hin.
  apply list_elem_of_In, elem_of_lookup_imap in Hin as (l & new & [= <- <- ->] & Hnew). eauto.
Qed.

(** An index of either side that a change names or a stable pair explains. *)
Definition accounted_before (changes : list CommunityChange) (i : nat) : Prop :=
  (∃ change, change ∈ changes ∧ community_id_at before i ∈ ch_before change) ∨
  ∃ old new, before !! i = Some old ∧ new ∈ after ∧ stable_pair old new.
Definition accounted_after (changes : list CommunityChange) (j : nat) : Prop :=
  (∃ change, change ∈ changes ∧ community_id_at after j ∈ ch_after change) ∨
  ∃ old new, old ∈ before ∧ after !! j = Some new ∧ stable_pair old new.

Record accounting (m : Matching) : Prop := {
  ac_before : ∀ i, i ∈ mt_before m → accounted_before (mt_changes m) i;
  ac_after : ∀ j, j ∈ mt_after m → accounted_after (mt_changes m) j;
}.

Lemma accounted_before_app changes more i : accounted_before changes i → accounted_before (changes ++ more) i.
Proof using. intros [(c & Hc & Hi)|H]; [left; exists c; rewrite elem_of_app; auto|by right]. Qed.
Lemma accounted_after_app changes more j : accounted_after changes j → accounted_after (changes ++ more) j.
Proof using. intros [(c & Hc & Hj)|H]; [left; exists c; rewrite elem_of_app; auto|by right]. Qed.

(** A change accounts for the indices it names. *)
Lemma named_before changes change i : community_id_at before i ∈ ch_before change → accounted_before (changes ++ [change]) i.
Proof using. intros Hi. left. exists change. rewrite elem_of_app, list_elem_of_singleton. auto. Qed.
Lemma named_after changes change j : community_id_at after j ∈ ch_after change → accounted_after (changes ++ [change]) j.
Proof using. intros Hj. left. exists change. rewrite elem_of_app, list_elem_of_singleton. auto. Qed.

Lemma elem_map_id communities related i : i ∈ related → community_id_at communities i ∈ map (community_id_at communities) related.
Proof using. intros Hi. apply list_elem_of_In, in_map. by apply list_elem_of_In. Qed.

Lemma fold_accounting {A} (step : Matching → A → Matching) (items : list A) m :
  (∀ m a, accounting m → accounting (step m a)) → accounting m → accounting (foldl step m items).
Proof using. intros Hstep. revert m. induction items as [|a items IH]; intros m Hm; simpl; auto. Qed.

Lemma classify_split_accounting o m entry : accounting m → accounting (classify_split before after o m entry).
Proof using.
  intros [Hb Ha]. destruct entry as [i related]. unfold classify_split. destruct (2 <=? length related)%nat; [|done]. split; simpl.
  - intros k [->%elem_of_singleton|Hk]%elem_of_union; [apply named_before; by left|by apply accounted_before_app, Hb].
  - intros k [Hk|Hk%elem_of_list_to_set]%elem_of_union; [by apply accounted_after_app, Ha|by apply named_after, elem_map_id].
Qed.

Lemma classify_merge_accounting o m entry : accounting m → accounting (classify_merge before after o m entry).
Proof using.
  intros [Hb Ha]. destruct entry as [j related]. unfold classify_merge. destruct (2 <=? length related)%nat; [|done]. split; simpl.
  - intros k [Hk|Hk%elem_of_list_to_set]%elem_of_union; [by apply accounted_before_app, Hb|by apply named_before, elem_map_id].
  - intros k [->%elem_of_singleton|Hk]%elem_of_union; [apply named_after; by left|by apply accounted_after_app, Ha].
Qed.

Lemma classify_pair_accounting m candidate :
  candidate ∈ pair_candidates before after overlaps → accounting m → accounting (classify_pair before after m candidate).
Proof using.
  intros Hc [Hb Ha]. destruct candidate as [[i j] w]. unfold pair_candidates in Hc. rewrite sort_by_elem_of, list_elem_of_In, in_map_iff in Hc.
  destruct Hc as ([[i' j'] w'] & [= -> -> ->] & Hin%list_elem_of_In). rewrite list_filter_In in Hin. destruct Hin as [Hl Hrel].
  apply btree_entries_elem_of, overlap_matrix_lookup in Hl as (old & new & Hold & Hnew & ->). cbn [snd] in Hrel.
  unfold classify_pair. destruct (_ || _); [done|]. split; simpl.
  - intros k [->%elem_of_singleton|Hk]%elem_of_union; [|by apply accounted_before_app, Hb]. destruct (f_lt _ _) eqn:E.
    + apply named_before. by left.
    + right. exists old, new. split_and!; [done|by eapply list_elem_of_lookup_2|done].
  - intros k [->%elem_of_singleton|Hk]%elem_of_union; [|by apply accounted_after_app, Ha]. destruct (f_lt _ _) eqn:E.
    + apply named_after. by left.
    + right. exists old, new. split_and!; [by eapply list_elem_of_lookup_2|done|done].
Qed.

Lemma matching_accounting :
  accounting (classify_pairwise_changes before after overlaps (classify_structural_changes before after overlaps)).
Proof using.
  unfold classify_pairwise_changes. assert (G : ∀ l m, (∀ c, c ∈ l → c ∈ pair_candidates before after overlaps) → accounting m →
    accounting (foldl (classify_pair before after) m l)).
  { induction l as [|c l IH]; intros m Hl Hm; simpl; [done|]. apply IH; [intros; apply Hl; by right|].
    apply classify_pair_accounting; [apply Hl; by left|done]. }
  apply G; [done|]. unfold classify_structural_changes. apply fold_accounting; [intros; by apply classify_merge_accounting|].
  apply fold_accounting; [intros; by apply classify_split_accounting|]. by split; intros ? ?%elem_of_empty.
Qed.
End accounts.

(** The comparison of two snapshots accounts for every community: one of
    the older snapshot is named by a change or overlaps a newer one stably, and the
    same holds the other way; the changes are sorted. *)
Theorem delta_accounts before after :
  let delta := compare_community_snapshots before after in
  StronglySorted (cmp_le compare_changes) (cd_changes delta) ∧
  (∀ c, c ∈ snap_communities before →
    (∃ change, change ∈ cd_changes delta ∧ com_id c ∈ ch_before change) ∨ ∃ d, d ∈ snap_communities after ∧ stable_pair c d) ∧
  (∀ d, d ∈ snap_communities after →
    (∃ change, change ∈ cd_changes delta ∧ com_id d ∈ ch_after change) ∨ ∃ c, c ∈ snap_communities before ∧ stable_pair c d).
Proof.
  intros delta. unfold delta, compare_community_snapshots. cbn [cd_changes]. set (old := snap_communities before). set (new := snap_communities after).
  pose proof (matching_accounting old new) as [Hb Ha]. set (m := classify_pairwise_changes _ _ _ _) in *.
  setoid_rewrite sort_by_elem_of. unfold classify_unmatched. setoid_rewrite elem_of_app. setoid_rewrite elem_of_app.
  split_and!; [apply sort_by_sorted, _| |].
  - intros c [i Hi]%list_elem_of_lookup. assert (Eid : community_id_at old i = com_id c) by (unfold community_id_at; by rewrite Hi).
    destruct (decide (i ∈ mt_before m)) as [Him|Hnot].
    + destruct (Hb i Him) as [(ch & Hch & Hin)|(c' & d & Hc' & Hd & Hs)].
      * left. exists ch. rewrite <-Eid. auto.
      * right. exists d. split; [done|]. congruence.
    + left. eexists. split; [right; left; unfold removed_changes; rewrite list_elem_of_omap; exists (i, c); split;
        [apply elem_of_lookup_imap; eauto|rewrite bool_decide_eq_false_2 by done; reflexivity]|]. by left.
  - intros d [j Hj]%list_elem_of_lookup. assert (Eid : community_id_at new j = com_id d) by (unfold community_id_at; by rewrite Hj).
    destruct (decide (j ∈ mt_after m)) as [Hjm|Hnot].
    + destruct (Ha j Hjm) as [(ch & Hch & Hin)|(c & d' & Hc & Hd' & Hs)].
      * left. exists ch. rewrite <-Eid. auto.
      * right. exists c. split; [done|]. congruence.
    + left. eexists. split; [right; right; unfold created_changes; rewrite list_elem_of_omap; exists (j, d); split;
        [apply elem_of_lookup_imap; eauto|rewrite bool_decide_eq_false_2 by done; reflexivity]|]. by left.
Qed.
