(* ===== verification/ComponentSearch.v ===== *)
(** * Communities: the connected components
    ([crates/code-system-graph-core/src/communities.rs])

    On a symmetric graph the flood assigns every node, and two nodes the same
    component exactly when a chain of positive weights joins them. *)
From stdpp Require Import base gmap sets list relations.
From S2P Require Import Prelude RustOrd RustFloat RustStr Model Communities.

Section vec.
Context {A : Type} (d : A).

Lemma vec_get_insert (v : list A) i j x : (i < length v)%nat → vec_get d (<[i := x]> v) j = if decide (i = j) then x else vec_get d v j.
Proof.
  intros Hi. unfold vec_get. destruct (decide (i = j)) as [->|Hne]; [by rewrite list_lookup_insert_eq|by rewrite list_lookup_insert_ne].
Qed.

Lemma vec_get_alter (f : A → A) (v : list A) i j :
  (i < length v)%nat → vec_get d (alter f i v) j = if decide (i = j) then f (vec_get d v j) else vec_get d v j.
Proof.
  intros Hi. unfold vec_get. destruct (decide (i = j)) as [->|Hne]; [|by rewrite list_lookup_alter_ne].
  rewrite list_lookup_alter_eq. destruct (lookup_lt_is_Some_2 v j Hi) as [x ->]. done.
Qed.

Lemma vec_get_repeat n i : vec_get d (repeat d n) i = d.
Proof.
  unfold vec_get. destruct (repeat d n !! i) as [x|] eqn:E; [|done].
  apply list_elem_of_lookup_2, list_elem_of_In, repeat_spec in E. by subst.
Qed.

Lemma vec_get_elem (v : list A) i : (i < length v)%nat → vec_get d v i ∈ v.
Proof. intros [x E]%lookup_lt_is_Some_2. unfold vec_get. rewrite E. by eapply list_elem_of_lookup_2. Qed.
End vec.

(** Two positions that a positive weight joins. *)
Definition joined (graph : WeightedGraph) (i j : nat) : Prop :=
  ∃ w, vec_get ∅ (wg_adjacency graph) i !! j = Some w ∧ f_lt f_zero w = true.

Record symmetric_graph (graph : WeightedGraph) : Prop := {
  sg_range : ∀ i j, joined graph i j → (j < length (wg_nodes graph))%nat;
  sg_symmetric : ∀ i j, joined graph i j → joined graph j i;
}.

Notation labels := (list (option nat)).
Notation label := (vec_get (@None nat)).

(** The nodes without a component. *)
Definition unassigned (a : labels) : nat := length (List.filter (λ o : option nat, negb (bool_decide (is_Some o))) a).

Lemma unassigned_insert (a : labels) i c : (i < length a)%nat → label a i = None → S (unassigned (<[i := Some c]> a)) = unassigned a.
Proof.
  intros Hi Hn. unfold unassigned. destruct (lookup_lt_is_Some_2 a i Hi) as [x E]. unfold vec_get in Hn. rewrite E in Hn. simpl in Hn. subst x.
  rewrite insert_take_drop by done. rewrite <-(take_drop_middle a i None E) at 3. rewrite !List.filter_app, !length_app. simpl. lia.
Qed.

Section flood.
Context (graph : WeightedGraph) (Hg : symmetric_graph graph).
Local Notation n := (length (wg_nodes graph)).
Local Notation adj := (joined graph).

(** The state of a flood of [component] from [start] over the labels [old]. *)
Record flooding (old : labels) (component start : nat) (current : option nat) (a : labels) (pending : list nat) : Prop := {
  fl_length : length a = n;
  fl_pending : ∀ i, i ∈ pending → label a i = Some component;
  fl_from : ∀ i, label a i = Some component → rtc adj start i;
  fl_old : ∀ i, label a i = label old i ∨ label old i = None ∧ label a i = Some component ∧ (i < n)%nat;
  fl_closed : ∀ i, label a i = Some component → i ∈ pending ∨ current = Some i ∨ ∀ j, adj i j → is_Some (label a j);
}.

Lemma reach_flooding old component start node a pending j w :
  flooding old component start (Some node) a pending → label a node = Some component → 
  vec_get ∅ (wg_adjacency graph) node !! j = Some w →
  let '(a', pending') := reach component (a, pending) (j, w) in
  flooding old component start (Some node) a' pending' ∧ label a' node = Some component ∧
  (unassigned a' + length pending' = unassigned a + length pending)%nat ∧
  (∀ i, is_Some (label a i) → is_Some (label a' i)) ∧ (f_lt f_zero w = true → is_Some (label a' j)).
Proof.
  intros [Hlen Hp Hfrom Hold Hclosed] Hnode Hl. unfold reach. destruct (f_lt f_zero w) eqn:Ew; cbn [andb]; [|by split_and!].
  case_bool_decide as Hs; cbn [negb]; [by split_and!|]. apply eq_None_not_Some in Hs.
  assert (Hadj : adj node j) by by exists w. assert (Hj : (j < length a)%nat) by (rewrite Hlen; by apply Hg in Hadj).
  assert (Hnew : ∀ i, label (<[j := Some component]> a) i = if decide (j = i) then Some component else label a i)
    by (intros i; by apply vec_get_insert).
  assert (Hmono : ∀ i, is_Some (label a i) → is_Some (label (<[j := Some component]> a) i)) by (intros i; rewrite Hnew; by case_decide).
  split_and!.
  - split.
    + by rewrite length_insert.
    + intros i [->|Hi]%elem_of_cons; rewrite Hnew; case_decide; auto; done.
    + intros i. rewrite Hnew. case_decide as E; [|auto]. subst i. intros _. eapply rtc_r; [by apply Hfrom|done].
    + intros i. rewrite Hnew. case_decide as E; [|auto]. subst i. right. split_and!; [|done|lia].
      destruct (Hold j) as [<-|(? & ? & ?)]; [done|congruence].
    + intros i. rewrite Hnew. case_decide as E; [subst; intros _; left; by left|].
      intros Hi. destruct (Hclosed i Hi) as [Hin|[Hc|Hall]]; [left; by right|auto|]. right; right. intros k Hk. by apply Hmono, Hall.
  - rewrite Hnew. by case_decide.
  - simpl. pose proof (unassigned_insert a j component Hj Hs). lia.
  - done.
  - intros _. rewrite Hnew. by case_decide.
Qed.

Lemma reach_all_flooding old component start node entries a pending :
  flooding old component start (Some node) a pending → label a node = Some component →
  (∀ j w, (j, w) ∈ entries → vec_get ∅ (wg_adjacency graph) node !! j = Some w) →
  let '(a', pending') := foldl (reach component) (a, pending) entries in
  flooding old component start (Some node) a' pending' ∧ label a' node = Some component ∧
  (unassigned a' + length pending' = unassigned a + length pending)%nat ∧
  (∀ i, is_Some (label a i) → is_Some (label a' i)) ∧ (∀ j w, (j, w) ∈ entries → f_lt f_zero w = true → is_Some (label a' j)).
Proof.
  revert a pending. induction entries as [|[j w] entries IH]; intros a pending Hf Hnode Hentries.
  { simpl. split_and!; try done. intros j w Hin. by apply not_elem_of_nil in Hin. }
  cbn [foldl]. pose proof (reach_flooding old component start node a pending j w Hf Hnode (Hentries j w (list_elem_of_here _ _))) as H.
  destruct (reach component (a, pending) (j, w)) as [a1 pending1]. destruct H as (Hf1 & Hn1 & Hm1 & Hmono1 & Hj).
  specialize (IH a1 pending1 Hf1 Hn1 ltac:(intros; apply Hentries; by right)).
  destruct (foldl _ _ entries) as [a2 pending2]. destruct IH as (Hf2 & Hn2 & Hm2 & Hmono2 & Hall). split_and!; [done|done|lia|auto|].
  intros k v [[= -> ->]|Hin]%elem_of_cons Hv; [by apply Hmono2, Hj|by eapply Hall].
Qed.

Lemma flood_flooding fuel old component start a pending :
  flooding old component start None a pending → (unassigned a + length pending < fuel)%nat →
  ∃ a', flood fuel graph component a pending = Some a' ∧ flooding old component start None a' [] ∧
    ∀ i, is_Some (label a i) → is_Some (label a' i).
Proof.
  revert a pending. induction fuel as [|fuel IH]; intros a pending Hf Hfuel; [lia|]. destruct pending as [|node pending]; [by exists a|].
  assert (Hnode : label a node = Some component) by (apply (fl_pending _ _ _ _ _ _ Hf); by left).
  assert (Hf' : flooding old component start (Some node) a pending).
  { destruct Hf as [Hlen Hp Hfrom Hold Hclosed]. split; try done.
    - intros i Hi. apply Hp. by right.
    - intros i Hi. destruct (Hclosed i Hi) as [[->|]%elem_of_cons|[|]]; auto; done. }
  cbn [flood]. pose proof (reach_all_flooding old component start node (neighbors_at graph node) a pending Hf' Hnode) as H.
  destruct (foldl _ _ _) as [a1 pending1]. destruct H as (Hf1 & _ & Hm & Hmono & Hall).
  { intros j w Hin. by apply btree_entries_elem_of in Hin. }
  destruct (IH a1 pending1) as (a' & E & Hfl & Hmono'); [|simpl in Hfuel; lia|exists a'; split_and!; auto].
  destruct Hf1 as [Hlen Hp Hfrom Hold Hclosed]. split; try done. intros i Hi.
  destruct (Hclosed i Hi) as [|[[= ->]|]]; auto. right; right. intros j (w & Hl & Hw). eapply Hall; [|done].
  by apply btree_entries_elem_of.
Qed.

(** The labels after the starts before [k], with [component] components. *)
Record partial_components (k : nat) (a : labels) (component : nat) : Prop := {
  pc_length : length a = n;
  pc_assigned : ∀ i, (i < k)%nat → is_Some (label a i);
  pc_below : ∀ i c, label a i = Some c → (c < component)%nat ∧ (i < n)%nat;
  pc_used : ∀ c, (c < component)%nat → ∃ i, label a i = Some c;
  pc_closed : ∀ i j, is_Some (label a i) → adj i j → is_Some (label a j);
  pc_same : ∀ i j, is_Some (label a i) → is_Some (label a j) → label a i = label a j ↔ rtc adj i j;
}.

Lemma adj_rtc_symmetric i j : rtc adj i j → rtc adj j i.
Proof using Hg. induction 1 as [|i j k H1 _ IH]; [done|]. eapply rtc_r; [done|]. by apply Hg. Qed.

Lemma component_from_partial k a component :
  (k < n)%nat → partial_components k a component →
  ∃ a' component', component_from graph (Some (a, component)) k = Some (a', component') ∧ partial_components (S k) a' component'.
Proof using Hg.
  intros Hk [Hlen Hass Hbelow Hused Hclosed Hsame]. unfold component_from. cbn [mbind option_bind].
  case_bool_decide as Hs.
  { exists a, component. split; [done|]. split; try done. intros i Hi. destruct (decide (i = k)) as [->|]; [done|]. apply Hass. lia. }
  apply eq_None_not_Some in Hs.
  assert (Hget : ∀ i, label (<[k := Some component]> a) i = if decide (k = i) then Some component else label a i)
    by (intros; apply vec_get_insert; lia).
  assert (Hfresh : ∀ i, label a i ≠ Some component) by (intros i [Hc _]%Hbelow; lia).
  destruct (flood_flooding (flood_fuel graph) a component k (<[k := Some component]> a) [k]) as (a' & -> & Hf & Hmono).
  { split.
    - by rewrite length_insert.
    - intros i ->%list_elem_of_singleton. rewrite Hget. by case_decide.
    - intros i. rewrite Hget. case_decide; [by subst|by intros ?%Hfresh].
    - intros i. rewrite Hget. case_decide; [subst; auto|auto].
    - intros i. rewrite Hget. case_decide; [subst; left; by left|by intros ?%Hfresh]. }
  { pose proof (unassigned_insert a k component ltac:(lia) Hs). unfold flood_fuel. simpl.
    assert (unassigned a <= n)%nat by (rewrite <-Hlen; apply List.filter_length_le). lia. }
  destruct Hf as [Hlen' _ Hfrom Hold Hcl]. cbn [mbind option_bind]. exists a', (S component). split; [done|].
  assert (Hk' : label a' k = Some component).
  { destruct (Hmono k) as [c Hc]; [rewrite Hget; by case_decide|]. destruct (Hold k) as [E|(_ & E & _)]; congruence. }
  assert (Hkeep : ∀ i, is_Some (label a i) → label a' i = label a i).
  { intros i [c Hc]. destruct (Hold i) as [E|(E & _)]; congruence. }
  assert (Hclo : ∀ i j, label a' i = Some component → adj i j → label a' j = Some component).
  { intros i j Hi Hadj. destruct (Hcl i Hi) as [Hin|[|Hall]]; [by apply not_elem_of_nil in Hin|done|].
    destruct (Hold j) as [E|(_ & E & _)]; [|done]. destruct (Hall j Hadj) as [c Hc]. exfalso.
    assert (is_Some (label a i)) as [c' Hc'] by (apply (Hclosed j); [rewrite <-E; by exists c|by apply Hg]).
    rewrite (Hkeep i), Hc' in Hi by done. apply (Hfresh i). congruence. }
  assert (Hclo' : ∀ i j, rtc adj i j → label a' i = Some component → label a' j = Some component).
  { induction 1; eauto. }
  assert (Hcases : ∀ i, is_Some (label a' i) → is_Some (label a i) ∧ label a' i = label a i ∨ label a i = None ∧ label a' i = Some component).
  { intros i Hi. destruct (Hold i) as [E|(E1 & E2 & _)]; [left; rewrite <-E; done|auto]. }
  split; [done| | | | |].
  - intros i Hi. destruct (decide (i = k)) as [->|]; [by rewrite Hk'|]. rewrite Hkeep by (apply Hass; lia). apply Hass. lia.
  - intros i c Hc. destruct (Hold i) as [E|(E1 & E2 & ?)].
    + rewrite E in Hc. apply Hbelow in Hc. lia.
    + split; [|done]. assert (c = component) by congruence. lia.
  - intros c Hc. destruct (decide (c = component)) as [->|]; [by exists k|]. destruct (Hused c) as [i Hi]; [lia|].
    exists i. rewrite Hkeep; [done|by rewrite Hi].
  - intros i j Hi Hadj. destruct (Hcases i Hi) as [[Hai E]|[_ E]].
    + pose proof (Hclosed i j Hai Hadj). by rewrite Hkeep.
    + by rewrite (Hclo i j E Hadj).
  - intros i j Hi Hj. destruct (Hcases i Hi) as [[Hai Ei]|[Hni Ei]], (Hcases j Hj) as [[Haj Ej]|[Hnj Ej]]; rewrite ?Ei, ?Ej.
    + by apply Hsame.
    + split; [intros E; by apply Hfresh in E|]. intros Hr%adj_rtc_symmetric. apply Hclo' in Hr; [congruence|done].
    + split; [intros E; by symmetry in E; apply Hfresh in E|]. intros Hr. apply Hclo' in Hr; [congruence|done].
    + split; [|done]. intros _. etrans; [by apply adj_rtc_symmetric, Hfrom|by apply Hfrom].
Qed.

Lemma components_partial k :
  (k <= n)%nat → ∃ a component,
    foldl (component_from graph) (Some (repeat None n, 0)) (seq 0 k) = Some (a, component) ∧ partial_components k a component.
Proof using Hg.
  induction k as [|k IH]; intros Hk.
  - exists (repeat None n), 0. split; [done|]. assert (Hnone : ∀ i, label (repeat None n) i = None) by (intros; apply vec_get_repeat).
    split; [apply repeat_length|lia|..]; intros i *; rewrite ?Hnone; try done; try lia; by intros [].
  - destruct IH as (a & c & E & Hp); [lia|]. rewrite seq_S, foldl_app, E. simpl.
    destruct (component_from_partial k a c ltac:(lia) Hp) as (a' & c' & E' & Hp'). eauto.
Qed.

(** The components exist, are numbered without gaps, and two nodes have the same
    one exactly when they are connected. *)
Lemma connected_components_spec :
  ∃ assignments units, connected_components graph = Some (assignments, units) ∧ length assignments = n ∧
    (∀ i, (i < n)%nat → (vec_get 0 assignments i < units)%nat) ∧
    (∀ c, (c < units)%nat → ∃ i, (i < n)%nat ∧ vec_get 0 assignments i = c) ∧
    (∀ i j, (i < n)%nat → (j < n)%nat → vec_get 0 assignments i = vec_get 0 assignments j ↔ rtc adj i j).
Proof using Hg.
  destruct (components_partial n (Nat.le_refl _)) as (a & c & E & [Hlen Hass Hbelow Hused _ Hsame]).
  unfold connected_components. rewrite E. cbn [mbind option_bind]. do 2 eexists. split; [done|].
  assert (Hget : ∀ i, (i < n)%nat → Some (vec_get 0 (map (default 0) a) i) = label a i).
  { intros i Hi. destruct (Hass i Hi) as [x Hx]. unfold vec_get in *. change (map (default 0) a) with (default 0 <$> a).
    rewrite list_lookup_fmap. destruct (a !! i) as [[y|]|]; simpl in *; congruence. }
  split_and!; [by rewrite length_map|..].
  - intros i Hi. specialize (Hget i Hi). symmetry in Hget. by apply Hbelow in Hget as [? _].
  - intros x Hx. destruct (Hused x Hx) as [i Hi]. exists i. destruct (Hbelow _ _ Hi) as [_ Hin]. specialize (Hget i Hin).
    split; [done|congruence].
  - intros i j Hi Hj. rewrite <-(Hsame i j) by auto. rewrite <-!Hget by done. split; [congruence|by intros [= ?]].
Qed.
End flood.
