(* ===== verification/CommunityGraph.v ===== *)
(** * Communities: the weighted graph
    ([crates/code-system-graph-core/src/communities.rs])

    Two positions of the graph are joined exactly when an accepted edge joins
    their nodes, in either direction. *)
From stdpp Require Import base gmap sets list.
From S2P Require Import Prelude RustOrd RustFloat RustStr Model FloatMono Communities ComponentSearch.

(** ** Positions *)
Lemma node_index_lookup (ns : list Node) id i :
  NoDup (map node_id ns) → node_index ns !! id = Some i ↔ ∃ n, ns !! i = Some n ∧ node_id n = id.
Proof.
  intros Hnd. unfold node_index.
  assert (Hfst : (imap (λ position node, (node_id node, position)) ns).*1 = map node_id ns).
  { apply list_eq. intros k. change (map node_id ns) with (node_id <$> ns). rewrite !list_lookup_fmap, list_lookup_imap. by destruct (ns !! k). }
  assert (Hin : (id, i) ∈ imap (λ position node, (node_id node, position)) ns ↔ ∃ n, ns !! i = Some n ∧ node_id n = id).
  { rewrite elem_of_lookup_imap. naive_solver. }
  rewrite <-Hin. split; [apply btree_collect_lookup_Some|]. apply btree_collect_NoDup. by rewrite Hfst.
Qed.

Lemma graph_nodes_elem nodes selected n : n ∈ graph_nodes nodes selected ↔ n ∈ nodes ∧ node_id n ∈ selected.
Proof. unfold graph_nodes. by rewrite sort_by_elem_of, list_filter_In, bool_decide_eq_true. Qed.

Lemma graph_nodes_NoDup nodes selected : NoDup (map node_id nodes) → NoDup (map node_id (graph_nodes nodes selected)).
Proof.
  intros Hnd. unfold graph_nodes. rewrite (Permutation_map node_id (sort_by_perm _ _)).
  induction nodes as [|n nodes IH]; simpl in *; [done|]. apply NoDup_cons in Hnd as [Hn Hnd].
  case_bool_decide; simpl; [|by apply IH]. apply NoDup_cons. split; [|by apply IH].
  intros (m & E & Hm)%list_elem_of_In%in_map_iff. apply Hn. rewrite <-E. apply list_elem_of_In, in_map.
  apply list_elem_of_In in Hm. apply list_filter_In in Hm as [Hm _]. by apply list_elem_of_In.
Qed.

(** ** Tables *)
Definition lookup2 (adjacency : list (gmap nat f64)) (i j : nat) : option f64 := vec_get ∅ adjacency i !! j.

Lemma lookup2_alter adjacency s t w i j :
  (s < length adjacency)%nat →
  lookup2 (alter <[t := w]> s adjacency) i j = if decide (i = s ∧ j = t) then Some w else lookup2 adjacency i j.
Proof.
  intros Hs. unfold lookup2. rewrite vec_get_alter by done. destruct (decide (s = i)) as [->|]; [|by rewrite decide_False by naive_solver].
  destruct (decide (j = t)) as [->|]; [rewrite lookup_insert_eq, decide_True by done; done|].
  rewrite lookup_insert_ne, decide_False by naive_solver. done.
Qed.

Lemma add_pair_adjacency t s k w i j :
  (s < length (tb_adjacency t))%nat → (k < length (tb_adjacency t))%nat →
  lookup2 (tb_adjacency (add_pair t ((s, k), w))) i j =
    if decide (i = s ∧ j = k ∨ i = k ∧ j = s) then Some w else lookup2 (tb_adjacency t) i j.
Proof.
  intros Hs Hk. unfold add_pair. destruct (Nat.eqb_spec s k) as [->|Hne]; cbn [tb_adjacency].
  - rewrite lookup2_alter by done. repeat case_decide; naive_solver.
  - rewrite !lookup2_alter by (rewrite ?length_alter; done). repeat case_decide; naive_solver.
Qed.

Lemma add_pair_length t entry : length (tb_adjacency (add_pair t entry)) = length (tb_adjacency t).
Proof. destruct entry as [[s k] w]. unfold add_pair. destruct (s =? k)%nat; cbn [tb_adjacency]; by rewrite !length_alter. Qed.

Definition pair_of (i j : nat) : nat * nat := if (i <=? j)%nat then (i, j) else (j, i).

Lemma pair_of_eq i j s k : (s <= k)%nat → pair_of i j = (s, k) ↔ i = s ∧ j = k ∨ i = k ∧ j = s.
Proof. intros Hle. unfold pair_of. destruct (Nat.leb_spec i j); split; [intros [= -> ->]; auto| |intros [= -> ->]; auto|].
  all: intros [[-> ->]|[-> ->]]; f_equal; lia. Qed.

Lemma tables_adjacency (count : nat) (undirected : gmap (nat * nat) f64) (i j : nat) :
  (∀ s k w, undirected !! (s, k) = Some w → (s <= k)%nat ∧ (k < count)%nat) →
  lookup2 (tb_adjacency (foldl add_pair (empty_tables count) (btree_entries undirected))) i j = undirected !! pair_of i j.
Proof.
  intros Hrange. assert (Hentries : ∀ s k w, ((s, k), w) ∈ btree_entries undirected → (s <= k)%nat ∧ (k < count)%nat).
  { intros s k w Hin%btree_entries_elem_of. by eapply Hrange. }
  assert (G : ∀ es, (∀ s k w, ((s, k), w) ∈ es → (s <= k)%nat ∧ (k < count)%nat) → NoDup es.*1 →
    let t := foldl add_pair (empty_tables count) es in
    length (tb_adjacency t) = count ∧ ∀ w, lookup2 (tb_adjacency t) i j = Some w ↔ (pair_of i j, w) ∈ es).
  { clear. intros es. induction es as [|[[s k] w] es IH] using rev_ind; intros Hr Hnd.
    - simpl. split; [by rewrite repeat_length|]. intros w. unfold lookup2. rewrite vec_get_repeat, lookup_empty.
      split; [done|intros Hin; by apply not_elem_of_nil in Hin].
    - rewrite fmap_app in Hnd. apply NoDup_app in Hnd as (Hnd & Hdis & _).
      destruct IH as [Hlen IH]; [intros; eapply Hr; apply elem_of_app; by left|done|].
      destruct (Hr s k w) as [Hle Hk]; [apply elem_of_app; right; by apply list_elem_of_singleton|].
      rewrite foldl_app. cbn [foldl]. split; [by rewrite add_pair_length|]. intros v.
      rewrite add_pair_adjacency by lia. rewrite elem_of_app, list_elem_of_singleton. case_decide as Hd.
      + apply (pair_of_eq i j s k Hle) in Hd. rewrite Hd. split; [intros [= ->]; by right|].
        intros [Hin|[= ->]]; [|done]. exfalso. apply (Hdis (s, k)); [|by apply list_elem_of_singleton].
        by eapply (list_elem_of_fmap_2 fst) in Hin.
      + rewrite IH. split; [by left|]. intros [|E]; [done|]. exfalso. apply Hd, pair_of_eq; [done|]. congruence. }
  destruct (G (btree_entries undirected) Hentries (btree_entries_keys_NoDup undirected)) as [_ H].
  apply option_eq. intros w. by rewrite H, btree_entries_elem_of.
Qed.

(** ** Undirected weights *)
Notation positive64 := (f_positive 53 1024).

Lemma positive64_lt w : positive64 w → f_lt f_zero w = true.
Proof. by destruct w as [|[]| |[] m e]; simpl; intros; destruct_and?. Qed.

Lemma undirected_lookup (accepted : list AcceptedEdge) p :
  (∀ e, e ∈ accepted → positive64 (ae_weight e)) →
  let undirected := foldl add_undirected ∅ accepted in
  (∀ w, undirected !! p = Some w → positive64 w) ∧
  (is_Some (undirected !! p) ↔ ∃ e, e ∈ accepted ∧ undirected_pair e = p).
Proof.
  induction accepted as [|e accepted IH] using rev_ind; intros Hpos.
  { simpl. split; [by intros w E|]. split; [by intros []|intros (e & He & _); by apply not_elem_of_nil in He]. }
  destruct IH as [IHw IHs]; [intros; apply Hpos, elem_of_app; by left|]. rewrite foldl_app. cbn [foldl].
  set (undirected := foldl add_undirected ∅ accepted) in *. unfold add_undirected.
  assert (He : positive64 (ae_weight e)) by (apply Hpos, elem_of_app; right; by apply list_elem_of_singleton).
  setoid_rewrite elem_of_app. setoid_rewrite list_elem_of_singleton. destruct (decide (undirected_pair e = p)) as [<-|Hne].
  - rewrite lookup_insert_eq. split; [|naive_solver]. intros w [= <-].
    destruct (undirected !! undirected_pair e) as [w|] eqn:E; simpl; [apply SFadd_positive; [lia|by apply IHw|done]|].
    by destruct (ae_weight e) as [|[]| |[]]; simpl in *; destruct_and?.
  - rewrite lookup_insert_ne by done. split; [done|]. rewrite IHs. naive_solver.
Qed.

(** ** The graph of a validated input *)

(** A relationship that counts for clustering. *)
Definition participates (config : CommunityConfig) (weights : list f64) (e : Edge) : Prop :=
  edge_status e = Confirmed ∧ f_lt (edge_confidence e) (cc_minimum_confidence config) = false ∧
  f_le (edge_weight weights e) f_zero = false.

Lemma accept_edge_Some config weights index e a :
  accept_edge config weights index e = Some a ↔
  participates config weights e ∧ index !! edge_source e = Some (ae_source a) ∧ index !! edge_target e = Some (ae_target a) ∧
  ae_weight a = edge_weight weights e.
Proof.
  unfold accept_edge, participates. case_bool_decide; cbn [negb orb]; [|naive_solver]. destruct (f_lt _ _); [naive_solver|].
  destruct (index !! edge_source e) as [s|]; cbn [mbind option_bind]; [|naive_solver].
  destruct (index !! edge_target e) as [t|]; cbn [mbind option_bind]; [|naive_solver]. destruct (f_le _ _); [naive_solver|].
  destruct a as [s' t' w]; simpl. naive_solver.
Qed.

Record valid_inputs (nodes : list Node) (edges : list Edge) (weights : list f64) : Prop := {
  vi_nodes : NoDup (map node_id nodes);
  vi_values : ∀ e, e ∈ edges → valid_f32 (edge_confidence e) = true;
  vi_edges : ∀ e, e ∈ edges → f32_in_unit (edge_confidence e) = true;
  vi_weights : ∀ kind, f_is_finite (kind_weight weights kind) = true ∧ f_le f_zero (kind_weight weights kind) = true;
}.

Section graph.
Context (nodes : list Node) (edges : list Edge) (config : CommunityConfig) (weights : list f64) (selected : gset NodeId).
Context (Hv : valid_inputs nodes edges weights).
Local Notation graph := (build_graph nodes edges config weights selected).

Lemma participates_positive e : e ∈ edges → participates config weights e → positive64 (edge_weight weights e).
Proof using Hv.
  intros He (_ & _ & Hw). pose proof (vi_edges _ _ _ Hv e He) as Hu. pose proof (vi_values _ _ _ Hv e He) as Hf.
  unfold f32_in_unit in Hu. apply andb_true_iff in Hu as [Hfin [H0 _]%andb_true_iff].
  destruct (f64_from_f32_finite _ Hf Hfin H0) as [Hfin' H0']. destruct (vi_weights _ _ _ Hv (edge_kind e)) as [Hk Hk0].
  unfold edge_weight. by apply SFmul_positive.
Qed.

Lemma accepted_edge_elem a :
  a ∈ wg_accepted_edges graph ↔
  ∃ e u v, e ∈ edges ∧ participates config weights e ∧ wg_nodes graph !! ae_source a = Some u ∧ wg_nodes graph !! ae_target a = Some v ∧
    edge_source e = node_id u ∧ edge_target e = node_id v ∧ ae_weight a = edge_weight weights e.
Proof using Hv.
  cbn [build_graph wg_accepted_edges wg_nodes]. rewrite list_elem_of_omap. setoid_rewrite sort_by_elem_of. setoid_rewrite accept_edge_Some.
  setoid_rewrite (node_index_lookup _ _ _ (graph_nodes_NoDup nodes selected (vi_nodes _ _ _ Hv))). naive_solver.
Qed.

Lemma accepted_positive a : a ∈ wg_accepted_edges graph → positive64 (ae_weight a).
Proof using Hv. intros (e & u & v & He & Hp & _ & _ & _ & _ & ->)%accepted_edge_elem. by apply participates_positive. Qed.

Lemma accepted_range a : a ∈ wg_accepted_edges graph → (ae_source a < length (wg_nodes graph))%nat ∧ (ae_target a < length (wg_nodes graph))%nat.
Proof using Hv.
  intros (e & u & v & _ & _ & Hu & Hw & _)%accepted_edge_elem. split; eapply lookup_lt_Some; done.
Qed.

Lemma graph_lookup2 i j :
  lookup2 (wg_adjacency graph) i j = foldl add_undirected ∅ (wg_accepted_edges graph) !! pair_of i j.
Proof using Hv.
  cbn [build_graph wg_adjacency wg_accepted_edges]. apply tables_adjacency. intros s k w E.
  destruct (undirected_lookup (wg_accepted_edges graph) (s, k) accepted_positive) as [_ [H _]].
  destruct H as (a & Ha & Hp); [by exists w|]. apply accepted_range in Ha as [H1 H2]. cbn [build_graph wg_nodes] in H1, H2.
  unfold undirected_pair in Hp. destruct (Nat.leb_spec (ae_source a) (ae_target a)); injection Hp as <- <-; lia.
Qed.

Lemma pair_of_sym i j : pair_of i j = pair_of j i.
Proof using. unfold pair_of. destruct (Nat.leb_spec i j), (Nat.leb_spec j i); f_equal; lia. Qed.

Lemma undirected_pair_of a i j :
  undirected_pair a = pair_of i j ↔ ae_source a = i ∧ ae_target a = j ∨ ae_source a = j ∧ ae_target a = i.
Proof using.
  change (undirected_pair a) with (pair_of (ae_source a) (ae_target a)).
  destruct (Nat.le_ge_cases i j) as [Hle|Hle]; [|rewrite (pair_of_sym i j)].
  all: assert (E : ∀ a b, (a <= b)%nat → pair_of a b = (a, b)) by (intros a' b' ?; unfold pair_of; by rewrite (proj2 (Nat.leb_le _ _))).
  all: rewrite (E _ _ Hle), pair_of_eq by done; tauto.
Qed.

(** Two positions are joined exactly by an edge that counts. *)
Lemma build_graph_joined i j :
  joined graph i j ↔
  ∃ e u v, e ∈ edges ∧ participates config weights e ∧ wg_nodes graph !! i = Some u ∧ wg_nodes graph !! j = Some v ∧
    (edge_source e = node_id u ∧ edge_target e = node_id v ∨ edge_source e = node_id v ∧ edge_target e = node_id u).
Proof using Hv.
  unfold joined. change (vec_get ∅ (wg_adjacency graph) i !! j) with (lookup2 (wg_adjacency graph) i j). rewrite graph_lookup2.
  destruct (undirected_lookup (wg_accepted_edges graph) (pair_of i j) accepted_positive) as [Hpos Hsome].
  setoid_rewrite undirected_pair_of in Hsome.
  transitivity (is_Some (foldl add_undirected ∅ (wg_accepted_edges graph) !! pair_of i j)).
  { split; [intros (w & E & _); by exists w|]. intros [w E]. exists w. split; [done|]. by apply positive64_lt, Hpos. }
  rewrite Hsome. setoid_rewrite accepted_edge_elem. split.
  - intros (a & (e & u & v & He & Hp & Hu & Hw & E1 & E2 & _) & [[<- <-]|[<- <-]]); exists e; [exists u, v|exists v, u]; auto 10.
  - intros (e & u & v & He & Hp & Hu & Hw & [[E1 E2]|[E1 E2]]).
    + exists {| ae_source := i; ae_target := j; ae_weight := edge_weight weights e |}. split; [|by left]. exists e, u, v. auto 10.
    + exists {| ae_source := j; ae_target := i; ae_weight := edge_weight weights e |}. split; [|by right]. exists e, v, u. auto 10.
Qed.

Lemma build_graph_symmetric : symmetric_graph graph.
Proof using Hv.
  split.
  - intros i j (e & u & v & _ & _ & _ & Hj & _)%build_graph_joined. by eapply lookup_lt_Some.
  - intros i j (e & u & v & He & Hp & Hi & Hj & Hcase)%build_graph_joined. apply build_graph_joined. exists e, v, u. tauto.
Qed.

Lemma neighbors_range i j w : (j, w) ∈ neighbors_at graph i → (j < length (wg_nodes graph))%nat.
Proof using Hv.
  intros E%btree_entries_elem_of. eapply (sg_range graph build_graph_symmetric i). exists w. split; [done|].
  change (lookup2 (wg_adjacency graph) i j = Some w) in E. rewrite graph_lookup2 in E.
  eapply positive64_lt, undirected_lookup; [apply accepted_positive|done].
Qed.
End graph.
