(* ===== verification/CommunityCorrect.v ===== *)
(** * Communities: what the analysis promises
    ([crates/code-system-graph-core/src/communities.rs])

    The communities partition the selected nodes; connected components are the
    classes of the relationships that count; Louvain keeps its tables consistent;
    the result does not depend on the order of the inputs. *)
From stdpp Require Import base gmap sets list strings relations sorting.
From S2P Require Import Prelude RustOrd RustFloat RustStr Model FloatMono Communities Clustering CommunityReport.
From S2P Require Import ComponentSearch CommunityGraph.

(** ** Groups *)
Definition positions (assignments : list nat) (c : nat) : list nat :=
  List.filter (λ i, (vec_get 0 assignments i =? c)%nat) (seq 0 (length assignments)).

Lemma positions_snoc assignments x c :
  positions (assignments ++ [x]) c = positions assignments c ++ (if (x =? c)%nat then [length assignments] else []).
Proof.
  unfold positions. rewrite length_app, Nat.add_comm. cbn [length Nat.add]. rewrite seq_S, List.filter_app. cbn [Nat.add List.filter].
  assert (Hlast : vec_get 0 (assignments ++ [x]) (length assignments) = x).
  { unfold vec_get. by rewrite lookup_app_r, Nat.sub_diag by lia. }
  rewrite Hlast. f_equal. apply List.filter_ext_in. intros i Hi%in_seq. unfold vec_get. by rewrite lookup_app_l by lia.
Qed.

Lemma positions_elem assignments c i : i ∈ positions assignments c ↔ (i < length assignments)%nat ∧ vec_get 0 assignments i = c.
Proof.
  unfold positions. rewrite list_filter_In, Nat.eqb_eq, list_elem_of_In, in_seq. split; intros [? ?]; split; auto; lia.
Qed.

Definition grouped (assignments : list nat) : gmap nat (list nat) := foldl add_member ∅ (imap pair assignments).

Lemma grouped_snoc assignments x : grouped (assignments ++ [x]) = add_member (grouped assignments) (length assignments, x).
Proof. unfold grouped. rewrite imap_app, foldl_app. simpl. by rewrite Nat.add_0_r. Qed.

Lemma grouped_spec assignments c :
  default [] (grouped assignments !! c) = positions assignments c ∧ grouped assignments !! c ≠ Some [].
Proof.
  induction assignments as [|x assignments [IH IH']] using rev_ind; [done|]. rewrite grouped_snoc, positions_snoc. unfold add_member.
  destruct (Nat.eqb_spec x c) as [->|Hne].
  - rewrite lookup_insert_eq, IH. split; [done|]. by destruct (positions assignments c).
  - by rewrite lookup_insert_ne, app_nil_r.
Qed.

Lemma grouped_lookup assignments c l : grouped assignments !! c = Some l ↔ l = positions assignments c ∧ l ≠ [].
Proof.
  destruct (grouped_spec assignments c) as [H1 H2]. destruct (grouped assignments !! c) as [k|]; simpl in H1; subst.
  - split; [intros [= <-]; split; [done|]; congruence|by intros [-> _]].
  - split; [done|]. intros [-> Hne]. by rewrite <-H1 in Hne.
Qed.

Lemma concat_values {K A} `{Countable K, !Ord K} (m : gmap K (list A)) : concat (btree_values m) ≡ₚ flat_map snd (map_to_list m).
Proof.
  unfold btree_values. rewrite <-flat_map_concat_map. apply Permutation_flat_map. unfold btree_entries. apply sort_by_perm.
Qed.

Lemma grouped_concat assignments : concat (btree_values (grouped assignments)) ≡ₚ seq 0 (length assignments).
Proof.
  rewrite concat_values. induction assignments as [|x assignments IH] using rev_ind; [by vm_compute|].
  rewrite grouped_snoc, length_app, Nat.add_comm. cbn [length Nat.add]. rewrite seq_S, <-IH. unfold add_member. clear IH.
  destruct (grouped assignments !! x) as [l|] eqn:E; cbn [default].
  - rewrite <-insert_delete_eq. rewrite (Permutation_flat_map _ (map_to_list_insert _ _ _ (lookup_delete_eq _ _))).
    rewrite <-(Permutation_flat_map _ (map_to_list_delete _ _ _ E)). simpl. solve_Permutation.
  - rewrite (Permutation_flat_map _ (map_to_list_insert _ _ _ E)). simpl. solve_Permutation.
Qed.

Lemma concat_map_perm {A} (f : list A → list A) (ls : list (list A)) : (∀ l, f l ≡ₚ l) → concat (map f ls) ≡ₚ concat ls.
Proof. intros Hf. induction ls as [|l ls IH]; simpl; [done|]. by rewrite Hf, IH. Qed.

Lemma concat_perm {A} (ls ks : list (list A)) : ls ≡ₚ ks → concat ls ≡ₚ concat ks.
Proof. intros Hp. rewrite <-(map_id ls), <-(map_id ks), <-!flat_map_concat_map. by apply Permutation_flat_map. Qed.

Lemma member_groups_concat graph assignments : concat (member_groups graph assignments) ≡ₚ seq 0 (length assignments).
Proof.
  unfold member_groups. rewrite (concat_perm _ _ (sort_by_perm _ _)), concat_map_perm; [apply grouped_concat|]. intros l. apply sort_by_perm.
Qed.

Lemma member_groups_elem graph assignments l :
  l ∈ member_groups graph assignments ↔
  ∃ c, l = sort_by (cmp_on (id_at graph) cmp) (positions assignments c) ∧ positions assignments c ≠ [].
Proof.
  unfold member_groups. rewrite sort_by_elem_of, list_elem_of_In, in_map_iff. setoid_rewrite <-list_elem_of_In.
  setoid_rewrite btree_values_elem_of. fold (grouped assignments). setoid_rewrite grouped_lookup. naive_solver.
Qed.

Lemma id_at_seq graph : map (id_at graph) (seq 0 (length (wg_nodes graph))) = map node_id (wg_nodes graph).
Proof.
  apply list_eq. intros i. change (map ?f ?l) with (f <$> l). rewrite !list_lookup_fmap.
  destruct (decide (i < length (wg_nodes graph))%nat) as [Hi|Hi].
  - rewrite lookup_seq_lt by done. simpl. unfold id_at. by destruct (lookup_lt_is_Some_2 _ _ Hi) as [n ->].
  - rewrite lookup_seq_ge by lia. by rewrite lookup_ge_None_2 by lia.
Qed.

Lemma NoDup_concat_nonempty {A} (ls : list (list A)) : NoDup (concat ls) → (∀ l, l ∈ ls → l ≠ []) → NoDup ls.
Proof.
  induction ls as [|l ls IH]; simpl; intros Hnd Hne; [constructor|]. apply NoDup_app in Hnd as (_ & Hdis & Hnd).
  apply NoDup_cons. split; [|apply IH; [done|intros; apply Hne; by right]].
  intros Hl. destruct l as [|a l]; [by apply (Hne []); [left|]|]. apply (Hdis a); [by left|].
  apply list_elem_of_In, in_concat. exists (a :: l). split; [by apply list_elem_of_In|by left].
Qed.

Section described.
Context `{Blake3, TextTables}.
Context (graph : WeightedGraph) (assignments : list nat).
Context (Hlen : length assignments = length (wg_nodes graph)) (Hids : NoDup (map node_id (wg_nodes graph))).

Lemma described_members : map com_members (describe_communities graph assignments) = map (map (id_at graph)) (member_groups graph assignments).
Proof using.
  unfold describe_communities. rewrite map_map. apply map_ext. intros l. unfold describe_community.
  by destruct (structural_label graph l _).
Qed.

Lemma described_concat : concat (map com_members (describe_communities graph assignments)) ≡ₚ map node_id (wg_nodes graph).
Proof using Hlen. by rewrite described_members, <-concat_map, member_groups_concat, Hlen, id_at_seq. Qed.

Lemma id_at_inj i j :
  (i < length (wg_nodes graph))%nat → (j < length (wg_nodes graph))%nat → id_at graph i = id_at graph j → i = j.
Proof using Hids.
  intros [u Hu]%lookup_lt_is_Some_2 [v Hv]%lookup_lt_is_Some_2. unfold id_at. rewrite Hu, Hv. simpl. intros E.
  eapply (NoDup_lookup _ _ _ _ Hids); change (map node_id (wg_nodes graph)) with (node_id <$> wg_nodes graph);
    rewrite list_lookup_fmap, ?Hu, ?Hv; [done|]. simpl. by rewrite E.
Qed.

Lemma described_member_elem c :
  c ∈ describe_communities graph assignments →
  ∃ k, com_members c = map (id_at graph) (sort_by (cmp_on (id_at graph) cmp) (positions assignments k)) ∧ positions assignments k ≠ [].
Proof using.
  intros Hc. assert (Hm : com_members c ∈ map com_members (describe_communities graph assignments)).
  { apply list_elem_of_In, in_map. by apply list_elem_of_In. }
  rewrite described_members, list_elem_of_In, in_map_iff in Hm. destruct Hm as (l & <- & Hl%list_elem_of_In).
  apply member_groups_elem in Hl as (k & -> & Hne). by exists k.
Qed.

Lemma described_member_sorted c :
  c ∈ describe_communities graph assignments → com_members c ≠ [] ∧ strictly_sorted (com_members c).
Proof using Hlen Hids.
  intros (k & -> & Hne)%described_member_elem. split.
  - intros E%map_eq_nil. apply Hne, Permutation_nil_r. rewrite <-E. symmetry. apply sort_by_perm.
  - apply sorted_NoDup_strict; cycle 1.
    + rewrite (Permutation_map _ (sort_by_perm _ _)). apply NoDup_ListNoDup, List.NoDup_map_NoDup_ForallPairs.
      * intros i j Hi Hj E. apply list_elem_of_In, positions_elem in Hi as [Hi _], Hj as [Hj _]. rewrite Hlen in Hi, Hj. by apply id_at_inj.
      * apply NoDup_ListNoDup. unfold positions. apply NoDup_ListNoDup, List.NoDup_filter, seq_NoDup.
    + pose proof (sort_by_sorted (cmp_on (id_at graph) cmp) (positions assignments k)) as Hs.
      induction Hs as [|i l Hl IH Hall]; simpl; constructor; [done|]. apply List.Forall_map. done.
Qed.

Lemma described_strict : strictly_sorted (map com_members (describe_communities graph assignments)).
Proof using Hlen Hids.
  apply sorted_NoDup_strict.
  - rewrite described_members. unfold member_groups.
    match goal with |- context [sort_by ?c ?l] => pose proof (sort_by_sorted c l) as Hs; induction Hs as [|k ls Hls IH Hall] end;
      simpl; constructor; [done|]. by apply List.Forall_map.
  - apply NoDup_concat_nonempty.
    + by rewrite described_concat.
    + intros l (c & <- & Hc%list_elem_of_In)%list_elem_of_In%in_map_iff. by apply described_member_sorted.
Qed.
End described.

(** ** Validation and scope *)
Lemma try_fold_node_ids nodes ids ids' :
  try_fold check_node_id ids nodes = Ok ids' →
  NoDup (map node_id nodes) ∧ (∀ n, n ∈ nodes → node_id n ∉ ids).
Proof.
  revert ids. induction nodes as [|n nodes IH]; intros ids.
  { intros _. split; [constructor|]. intros n Hn. by apply not_elem_of_nil in Hn. }
  cbn [try_fold]. unfold check_node_id at 1. case_bool_decide as Hn; [done|]. cbn [result_bind]. intros [Hnd Hdis]%IH. simpl. split.
  - apply NoDup_cons. split; [|done]. intros (m & E & Hm)%list_elem_of_In%in_map_iff. apply list_elem_of_In in Hm.
    apply (Hdis m Hm). rewrite E. set_solver.
  - intros m [->|Hm]%elem_of_cons; [done|]. specialize (Hdis m Hm). set_solver.
Qed.

Lemma try_fold_confidences edges :
  try_fold check_edge_confidence tt edges = Ok tt ↔ ∀ e, e ∈ edges → f32_in_unit (edge_confidence e) = true.
Proof.
  induction edges as [|e edges IH]; [split; [intros _ e He; by apply not_elem_of_nil in He|done]|].
  cbn [try_fold]. unfold check_edge_confidence at 1. setoid_rewrite elem_of_cons. destruct (f32_in_unit _) eqn:E; cbn [negb result_bind].
  - rewrite IH. naive_solver.
  - split; [done|]. intros Hall. specialize (Hall e (or_introl eq_refl)). congruence.
Qed.

Definition nonnegative (w : f64) : Prop := f_is_finite w = true ∧ f_le f_zero w = true.

Lemma not_below_zero w : f_is_finite w = true → f_lt w f_zero = false → f_le f_zero w = true.
Proof. by destruct w as [[]|[]| |[] m e]. Qed.

Lemma configured_weights ws s s' :
  try_fold configure_weight s ws = Ok s' → Forall nonnegative (fst s) → Forall nonnegative (fst s').
Proof.
  revert s. induction ws as [|w ws IH]; intros [weights configured]; [by intros [= <-]|].
  cbn [try_fold]. rewrite result_bind_Ok. intros (s1 & Hs1 & Hrest) Hall. apply (IH s1 Hrest). unfold configure_weight in Hs1.
  destruct (f_is_finite (cw_weight w)) eqn:Ef; cbn [negb orb] in Hs1; [|done]. destruct (f_lt _ _) eqn:El; [done|].
  destruct (vec_get _ _ _); [done|]. injection Hs1 as <-. apply Forall_insert; [done|]. split; [done|by apply not_below_zero].
Qed.

Lemma validate_inputs_valid nodes edges config weights :
  validate_inputs nodes edges config = Ok weights → (∀ e, e ∈ edges → valid_f32 (edge_confidence e) = true) →
  valid_inputs nodes edges weights.
Proof.
  unfold validate_inputs. destruct (_ || _); [done|]. destruct (negb (_ && _)); [done|]. destruct (negb _); [done|].
  rewrite result_bind_Ok. intros (ids & [Hnd _]%try_fold_node_ids & H) Hf. revert H. rewrite result_bind_Ok.
  intros ([] & He & H). pose proof (proj1 (try_fold_confidences edges) He) as Hunit. revert H. rewrite result_bind_Ok. intros (s & Hs & [= <-]). split; [done..|].
  apply configured_weights in Hs; [|by repeat constructor]. intros kind. unfold kind_weight, vec_get.
  destruct (fst s !! edge_kind_index kind) as [w|] eqn:E; [|done]. exact (proj1 (Forall_lookup _ _) Hs _ _ E).
Qed.

Lemma select_neighbors_known services known (selected : gset NodeId) edges :
  selected ⊆ known → (∀ e, e ∈ edges → edge_source e ∈ known ∧ edge_target e ∈ known) →
  foldl (select_neighbors services) selected edges ⊆ known.
Proof.
  revert selected. induction edges as [|e edges IH]; intros selected Hs He; [done|]. cbn [foldl]. apply IH.
  - destruct (He e (list_elem_of_here _ _)). unfold select_neighbors. repeat case_bool_decide; set_solver.
  - intros e' He'. apply He. by right.
Qed.

Lemma scoped_node_ids_known nodes edges config weights selected :
  scoped_node_ids nodes edges config weights = Ok selected → selected ⊆ bset_collect (map node_id nodes).
Proof.
  assert (Hf : ∀ f, (bset_collect (map node_id (List.filter f nodes)) : gset NodeId) ⊆ bset_collect (map node_id nodes)).
  { intros f id. unfold bset_collect. rewrite !elem_of_list_to_set, !list_elem_of_In, !in_map_iff. intros (n & E & [Hn _]%List.filter_In). eauto. }
  unfold scoped_node_ids. destruct (cc_scope config) as [|repo|key|]; [by intros [= <-]|intros [= <-]; apply Hf| |by intros [= <-]].
  case_bool_decide; [done|]. intros [= <-]. apply select_neighbors_known; [apply Hf|].
  intros e [_ Hse]%list_filter_In. unfold service_edge in Hse. rewrite !andb_true_iff, !bool_decide_eq_true in Hse. tauto.
Qed.

(** ** The clusterings *)
Section clusterings.
Context `{Blake3}.

Lemma label_step_length graph seed s node : length (label_step graph seed s node).1 = length s.1.
Proof.
  destruct s as [a changed]. unfold label_step. destruct (foldl _ _ _) as [best score].
  destruct (best =? _)%nat; [done|]. apply length_insert.
Qed.

Lemma fold_length {S A} (f : S → A → S) (m : S → nat) (l : list A) s : (∀ s a, m (f s a) = m s) → m (foldl f s l) = m s.
Proof. intros Hf. revert s. induction l as [|a l IH]; intros s; simpl; [done|]. by rewrite IH. Qed.

Lemma label_rounds_spec rounds graph seed order a :
  let '(a', units) := label_rounds rounds graph seed order a in length a' = length a ∧ (units <= rounds)%nat.
Proof.
  revert a. induction rounds as [|rounds IH]; intros a; simpl; [done|].
  pose proof (fold_length (label_step graph seed) (λ s, length s.1) order (a, false) (label_step_length graph seed)) as Hl.
  destruct (foldl _ _ _) as [a1 changed]. simpl in Hl. destruct changed; [|split; [done|lia]].
  specialize (IH a1). destruct (label_rounds _ _ _ _ a1) as [a2 units]. destruct IH. split; [congruence|lia].
Qed.

(** The tables of a Louvain state agree: [members] counts the nodes of every
    community and [empty] holds the communities without a node. *)
Record louvain_consistent (graph : WeightedGraph) (s : LouvainState) : Prop := {
  lc_assignments : length (lv_assignments s) = length (wg_nodes graph);
  lc_degrees : length (lv_community_degree s) = length (wg_weighted_degree graph);
  lc_labels : ∀ i, (i < length (wg_nodes graph))%nat → (vec_get 0 (lv_assignments s) i < length (wg_nodes graph))%nat;
  lc_members : length (lv_members s) = length (wg_nodes graph);
  lc_counts : ∀ c, (c < length (wg_nodes graph))%nat → vec_get 0 (lv_members s) c = length (positions (lv_assignments s) c);
  lc_empty : ∀ c, c ∈ lv_empty s ↔ (c < length (wg_nodes graph))%nat ∧ positions (lv_assignments s) c = [];
}.

(** The states of a run: the start, and the steps in any order of the nodes. *)
Inductive louvain_reachable (graph : WeightedGraph) (resolution : f64) (label_keys : list string) : LouvainState → Prop :=
| reachable_start : louvain_reachable graph resolution label_keys (louvain_start graph)
| reachable_step s changed node :
    louvain_reachable graph resolution label_keys s → (node < length (wg_nodes graph))%nat →
    louvain_reachable graph resolution label_keys (louvain_step graph resolution label_keys (s, changed) node).1.

Lemma length_positions_insert (a : list nat) node best c :
  (node < length a)%nat → vec_get 0 a node ≠ best →
  length (positions (<[node := best]> a) c) =
    if decide (c = best) then S (length (positions a c))
    else if decide (c = vec_get 0 a node) then pred (length (positions a c)) else length (positions a c).
Proof.
  intros Hnode Hne. unfold positions. rewrite length_insert. set (n := length a).
  assert (Hsplit : seq 0 n = seq 0 node ++ node :: seq (S node) (n - S node)).
  { assert (E : (n = node + S (n - S node))%nat) by (unfold n; lia). rewrite E at 1. by rewrite seq_app. }
  assert (Hf : ∀ i, vec_get 0 (<[node := best]> a) i = if decide (node = i) then best else vec_get 0 a i).
  { intros i. by apply vec_get_insert. }
  rewrite Hsplit, !List.filter_app, !length_app. cbn [List.filter]. rewrite Hf, decide_True by done.
  assert (Hext : ∀ l, node ∉ l → List.filter (λ i, (vec_get 0 (<[node := best]> a) i =? c)%nat) l = List.filter (λ i, (vec_get 0 a i =? c)%nat) l).
  { intros l Hl. apply List.filter_ext_in. intros i Hi. rewrite Hf, decide_False; [done|]. intros ->. by apply Hl, list_elem_of_In. }
  rewrite !Hext by (rewrite elem_of_seq; lia).
  destruct (Nat.eqb_spec best c) as [->|Hbc], (Nat.eqb_spec (vec_get 0 a node) c) as [Hcc|Hcc]; simpl; repeat case_decide; subst; lia || done.
Qed.

Lemma louvain_start_consistent graph : louvain_consistent graph (louvain_start graph).
Proof.
  set (n := length (wg_nodes graph)).
  assert (Hget : ∀ i, (i < n)%nat → vec_get 0 (seq 0 n) i = i) by (intros i Hi; unfold vec_get; by rewrite lookup_seq_lt).
  assert (Hpos : ∀ c, (c < n)%nat → positions (seq 0 n) c = [c]).
  { intros c Hc. unfold positions. rewrite length_seq.
    rewrite (List.filter_ext_in _ (λ i, (i =? c)%nat)) by (intros i Hi%in_seq; rewrite Hget by lia; done).
    replace n with (c + S (n - S c))%nat by lia. rewrite seq_app, List.filter_app. cbn [seq Nat.add List.filter]. rewrite Nat.eqb_refl.
    assert (Hnone : ∀ l, c ∉ l → List.filter (λ i, (i =? c)%nat) l = []).
    { intros l Hl. induction l as [|i l IH]; [done|]. apply not_elem_of_cons in Hl as [Hi Hl]. simpl.
      destruct (Nat.eqb_spec i c); [congruence|by apply IH]. }
    by rewrite !Hnone by (rewrite elem_of_seq; lia). }
  split; simpl.
  - apply length_seq.
  - done.
  - intros i Hi. by rewrite Hget.
  - apply repeat_length.
  - intros c Hc. rewrite Hpos by done. apply (repeat_spec n 1), list_elem_of_In, vec_get_elem. by rewrite repeat_length.
  - intros c. split; [set_solver|]. intros [Hc E]. by rewrite Hpos in E.
Qed.

Lemma better_move_candidate graph resolution label_keys s node current_links entries b :
  (foldl (better_move graph resolution label_keys s node current_links) b entries).1 = b.1 ∨
  ∃ w, ((foldl (better_move graph resolution label_keys s node current_links) b entries).1, w) ∈ entries.
Proof.
  revert b. induction entries as [|[c w] entries IH]; intros b; [by left|]. cbn [foldl].
  setoid_rewrite elem_of_cons. destruct (IH (better_move graph resolution label_keys s node current_links b (c, w))) as [E|[v Hv]]; [|eauto].
  rewrite E. destruct b as [best gain']. unfold better_move. destruct (c =? _)%nat; [by left|]. destruct (_ || _); [|by left].
  right. exists w. by left.
Qed.

Lemma candidate_links_keys graph s node c w :
  candidate_links graph s node !! c = Some w →
  c = vec_get 0 (lv_assignments s) node ∨ (∃ j v, (j, v) ∈ neighbors_at graph node ∧ c = vec_get 0 (lv_assignments s) j) ∨ c ∈ lv_empty s.
Proof.
  unfold candidate_links. set (links := foldl _ _ _).
  assert (Hl : ∀ c w, links !! c = Some w → c = vec_get 0 (lv_assignments s) node ∨
    ∃ j v, (j, v) ∈ neighbors_at graph node ∧ c = vec_get 0 (lv_assignments s) j).
  { clear c w. unfold links. induction (neighbors_at graph node) as [|[j v] es IH] using rev_ind; intros c w.
    - simpl. intros [-> _]%lookup_singleton_Some. by left.
    - rewrite foldl_app. cbn [foldl]. unfold add_link. setoid_rewrite elem_of_app.
      destruct (j =? node)%nat; [intros E; destruct (IH c w E) as [|(k & u & ? & ?)]; eauto 10|].
      destruct (decide (vec_get 0 (lv_assignments s) j = c)) as [<-|Hne].
      + intros _. right. exists j, v. split; [right; by apply list_elem_of_singleton|done].
      + rewrite lookup_insert_ne by done. intros E. destruct (IH c w E) as [|(k & u & ? & ?)]; eauto 10. }
  destruct (first_empty (lv_empty s)) as [l|] eqn:Ee; [|intros E; destruct (Hl c w E); auto].
  destruct (contains_key links l); [intros E; destruct (Hl c w E); auto|].
  destruct (decide (l = c)) as [->|Hne]; [|rewrite lookup_insert_ne by done; intros E; destruct (Hl c w E); auto].
  intros _. right; right. unfold first_empty in Ee. apply bset_elements_elem_of. destruct (bset_elements _); [done|].
  injection Ee as ->. by left.
Qed.

Lemma move_consistent graph s node best degree :
  louvain_consistent graph s → (node < length (wg_nodes graph))%nat → (best < length (wg_nodes graph))%nat →
  vec_get 0 (lv_assignments s) node ≠ best → louvain_consistent graph (move s node (vec_get 0 (lv_assignments s) node) best degree).
Proof.
  intros [Ha Hd Hl Hm Hc He] Hnode Hbest Hne. set (current := vec_get 0 (lv_assignments s) node) in *.
  assert (Hcur : (current < length (wg_nodes graph))%nat) by by apply Hl.
  assert (Hpos : ∀ c, length (positions (<[node := best]> (lv_assignments s)) c) =
    if decide (c = best) then S (length (positions (lv_assignments s) c))
    else if decide (c = current) then pred (length (positions (lv_assignments s) c)) else length (positions (lv_assignments s) c)).
  { intros c. apply length_positions_insert; [lia|done]. }
  assert (Hmem : ∀ c, (c < length (wg_nodes graph))%nat →
    vec_get 0 (alter S best (alter pred current (lv_members s))) c = length (positions (<[node := best]> (lv_assignments s)) c)).
  { intros c Hcn. rewrite Hpos, !vec_get_alter by (rewrite ?length_alter; lia). rewrite Hc by done. repeat case_decide; subst; congruence. }
  split; simpl.
  - by rewrite length_insert.
  - by rewrite !length_alter.
  - intros i Hi. rewrite vec_get_insert by lia. case_decide; [done|by apply Hl].
  - by rewrite !length_alter.
  - exact Hmem.
  - assert (Hcurrent : length (positions (<[node := best]> (lv_assignments s)) current) = pred (length (positions (lv_assignments s) current))).
    { by rewrite Hpos, decide_False, decide_True. }
    intros c. rewrite elem_of_difference, elem_of_singleton, Hmem, Hcurrent by done.
    assert (Hnil : ∀ l : list nat, l = [] ↔ length l = 0%nat) by (intros l; destruct l; split; done || (intros; lia)).
    rewrite Hnil, Hpos. specialize (He c). rewrite Hnil in He.
    destruct (Nat.eqb_spec (pred (length (positions (lv_assignments s) current))) 0) as [E|E]; rewrite ?elem_of_union, ?elem_of_singleton.
    + case_decide as Hcb; [subst; split; [naive_solver|lia]|]. case_decide; subst; split; naive_solver.
    + case_decide as Hcb; [subst; split; [naive_solver|lia]|]. case_decide; subst; split; try naive_solver lia.
Qed.

Lemma louvain_step_consistent graph resolution label_keys s changed node :
  (∀ j w, (j, w) ∈ neighbors_at graph node → (j < length (wg_nodes graph))%nat) →
  louvain_consistent graph s → (node < length (wg_nodes graph))%nat →
  louvain_consistent graph (louvain_step graph resolution label_keys (s, changed) node).1.
Proof.
  intros Hrange Hs Hnode. unfold louvain_step. destruct (foldl _ _ _) as [best best_gain] eqn:E.
  destruct (Nat.eqb_spec best (vec_get 0 (lv_assignments s) node)) as [|Hne]; cbn [negb andb]; [done|].
  destruct (f_lt _ _); [|done]. cbn [fst]. apply move_consistent; [done..| |congruence].
  match type of E with foldl (better_move _ _ _ _ _ ?cl) ?b ?es = _ =>
    destruct (better_move_candidate graph resolution label_keys s node cl es b) as [Hb|[w Hw]] end; rewrite E in *; cbn [fst] in *; [congruence|].
  apply btree_entries_elem_of, candidate_links_keys in Hw as [->|[(j & v & Hj & ->)|He]].
  - by apply Hs.
  - apply Hs. by eapply Hrange.
  - by apply Hs in He as [? _].
Qed.

Lemma louvain_rounds_spec rounds graph resolution label_keys order s :
  (∀ i, i ∈ order → (i < length (wg_nodes graph))%nat) → louvain_reachable graph resolution label_keys s →
  let '(s', units) := louvain_rounds rounds graph resolution label_keys order s in
  louvain_reachable graph resolution label_keys s' ∧ (units <= rounds)%nat.
Proof.
  intros Horder. revert s. induction rounds as [|rounds IH]; intros s Hs; simpl; [done|].
  assert (Hf : ∀ l t, (∀ i, i ∈ l → (i < length (wg_nodes graph))%nat) → louvain_reachable graph resolution label_keys t.1 →
    louvain_reachable graph resolution label_keys (foldl (louvain_step graph resolution label_keys) t l).1).
  { induction l as [|i l IHl]; intros [t changed] Hl Ht; simpl; [done|]. apply IHl; [intros; apply Hl; by right|].
    apply reachable_step; [done|]. apply Hl. by left. }
  specialize (Hf order (s, false) Horder Hs). destruct (foldl _ _ _) as [s1 changed]. cbn [fst] in Hf.
  destruct changed; [|split; [done|lia]]. specialize (IH s1 Hf). destruct (louvain_rounds _ _ _ _ _ s1) as [s2 units].
  destruct IH. split; [done|lia].
Qed.

Lemma seeded_order_range graph seed i : i ∈ seeded_node_order graph seed → (i < length (wg_nodes graph))%nat.
Proof. unfold seeded_node_order. rewrite sort_by_elem_of, elem_of_seq. lia. Qed.
End clusterings.

(** ** The analysis *)
Section analysis.
Context `{Blake3, TextTables}.
Context (nodes : list Node) (edges : list Edge) (config : CommunityConfig) (weights : list f64) (selected : gset NodeId).
Local Notation graph := (build_graph nodes edges config weights selected).

Lemma reachable_consistent resolution label_keys s :
  valid_inputs nodes edges weights → louvain_reachable graph resolution label_keys s → louvain_consistent graph s.
Proof using.
  intros Hv. induction 1 as [|s changed node _ IH Hnode]; [apply louvain_start_consistent|].
  apply louvain_step_consistent; [|done..]. intros j w. by eapply neighbors_range.
Qed.

(** Every clustering assigns every node; the units are those of the components
    or at most the iterations. *)
Lemma cluster_total :
  valid_inputs nodes edges weights →
  ∃ assignments units, cluster graph config = Some (assignments, units) ∧ length assignments = length (wg_nodes graph) ∧
    (cc_algorithm config ≠ ConnectedComponents → (N.of_nat units ≤ cc_max_iterations config)%N).
Proof using.
  intros Hv. unfold cluster. destruct (cc_algorithm config).
  - destruct (connected_components_spec graph (build_graph_symmetric _ _ _ _ _ Hv)) as (a & u & -> & Hl & _). by exists a, u.
  - unfold weighted_label_propagation.
    pose proof (label_rounds_spec (N.to_nat (cc_max_iterations config)) graph (cc_seed config) (seeded_node_order graph (cc_seed config))
      (seq 0 (length (wg_nodes graph)))) as Hr.
    destruct (label_rounds _ _ _ _ _) as [a u]. destruct Hr as [Hl Hu]. exists a, u. rewrite length_seq in Hl. split_and!; [done..|lia].
  - unfold louvain. destruct (f_le _ _); [eexists _, _; split; [done|]; rewrite length_seq; split; [done|lia]|].
    set (keys := map _ _).
    pose proof (louvain_rounds_spec (N.to_nat (cc_max_iterations config)) graph (cc_resolution config) keys
      (seeded_node_order graph (cc_seed config)) (louvain_start graph) (seeded_order_range graph _) (reachable_start _ _ _)) as Hr.
    destruct (louvain_rounds _ _ _ _ _ _) as [s u]. destruct Hr as [Hs Hu]. eexists _, _. split; [done|].
    split; [by apply (reachable_consistent _ _ _ Hv) in Hs as []|lia].
Qed.

Context (Hweights : validate_inputs nodes edges config = Ok weights).
Context (Hselected : scoped_node_ids nodes edges config weights = Ok selected).
Context (Hconfidence : ∀ e, e ∈ edges → valid_f32 (edge_confidence e) = true).

Lemma analysis_valid : valid_inputs nodes edges weights.
Proof using Hweights Hconfidence. by eapply validate_inputs_valid. Qed.

Lemma graph_ids_NoDup : NoDup (map node_id (wg_nodes graph)).
Proof using Hweights Hconfidence. apply graph_nodes_NoDup, analysis_valid. Qed.

Lemma graph_ids_selected : map node_id (wg_nodes graph) ≡ₚ elements selected.
Proof using Hweights Hselected Hconfidence.
  apply NoDup_Permutation; [apply graph_ids_NoDup|apply NoDup_elements|]. intros id. rewrite elem_of_elements, list_elem_of_In, in_map_iff.
  setoid_rewrite <-list_elem_of_In. cbn [build_graph wg_nodes]. setoid_rewrite graph_nodes_elem. split; [naive_solver|].
  intros Hid. apply (scoped_node_ids_known _ _ _ _ _ Hselected) in Hid as Hk. unfold bset_collect in Hk.
  rewrite elem_of_list_to_set, list_elem_of_In, in_map_iff in Hk. destruct Hk as (n & <- & Hn%list_elem_of_In). eauto.
Qed.

Lemma analyze_result snapshot_id : ∃ assignments units,
  cluster graph config = Some (assignments, units) ∧ length assignments = length (wg_nodes graph) ∧
  (cc_algorithm config ≠ ConnectedComponents → (N.of_nat units ≤ cc_max_iterations config)%N) ∧
  analyze_communities_with_progress snapshot_id nodes edges config =
    Ok (Some ({| snap_id := snapshot_id; snap_engine_version := ENGINE_VERSION; snap_config := config;
                 snap_communities := describe_communities graph assignments |}, units)).
Proof using Hweights Hselected Hconfidence.
  destruct (cluster_total analysis_valid) as (a & u & E & Hl & Hu). exists a, u. split_and!; [done..|].
  unfold analyze_communities_with_progress. rewrite Hweights. cbn [result_bind]. rewrite Hselected. cbn [result_bind]. by rewrite E.
Qed.
End analysis.

(** C32: On valid inputs every clustering ends, an iterative one within the
    configured iterations, and its communities partition the nodes of the scope:
    every selected node is a member of exactly one, none is empty, members are in
    identifier order and communities in the order of their members. *)
Theorem communities_partition `{Blake3, TextTables} snapshot_id nodes edges config weights selected :
  validate_inputs nodes edges config = Ok weights → scoped_node_ids nodes edges config weights = Ok selected →
  (∀ e, e ∈ edges → valid_f32 (edge_confidence e) = true) →
  ∃ snapshot units, analyze_communities_with_progress snapshot_id nodes edges config = Ok (Some (snapshot, units)) ∧
    (cc_algorithm config ≠ ConnectedComponents → (N.of_nat units ≤ cc_max_iterations config)%N) ∧
    concat (map com_members (snap_communities snapshot)) ≡ₚ elements selected ∧
    (∀ c, c ∈ snap_communities snapshot → com_members c ≠ [] ∧ strictly_sorted (com_members c)) ∧
    strictly_sorted (map com_members (snap_communities snapshot)).
Proof.
  intros Hw Hs Hc. destruct (analyze_result nodes edges config weights selected Hw Hs Hc snapshot_id) as (a & u & _ & Hl & Hu & E).
  pose proof (graph_ids_NoDup nodes edges config weights selected Hw Hc) as Hnd.
  do 2 eexists. split; [exact E|]. cbn [snap_communities]. split_and!; [done|..].
  - rewrite described_concat by done. by apply graph_ids_selected.
  - intros c. by apply described_member_sorted.
  - by apply described_strict.
Qed.

(** Two nodes of the scope that a relationship which counts joins. *)
Definition linked (edges : list Edge) (config : CommunityConfig) (weights : list f64) (selected : gset NodeId) (u v : NodeId) : Prop :=
  u ∈ selected ∧ v ∈ selected ∧ ∃ e, e ∈ edges ∧ participates config weights e ∧
    (edge_source e = u ∧ edge_target e = v ∨ edge_source e = v ∧ edge_target e = u).

Section components.
Context (nodes : list Node) (edges : list Edge) (config : CommunityConfig) (weights : list f64) (selected : gset NodeId).
Context (Hw : validate_inputs nodes edges config = Ok weights) (Hs : scoped_node_ids nodes edges config weights = Ok selected).
Context (Hc : ∀ e, e ∈ edges → valid_f32 (edge_confidence e) = true).
Local Notation graph := (build_graph nodes edges config weights selected).

Lemma id_at_selected i : (i < length (wg_nodes graph))%nat → id_at graph i ∈ selected.
Proof using.
  intros [n Hn]%lookup_lt_is_Some_2. unfold id_at. rewrite Hn. apply list_elem_of_lookup_2 in Hn. by apply graph_nodes_elem in Hn as [_ Hn].
Qed.

Lemma selected_position v : v ∈ selected → ∃ i, (i < length (wg_nodes graph))%nat ∧ id_at graph i = v.
Proof using Hw Hs Hc.
  intros Hv. apply elem_of_elements in Hv. rewrite <-(graph_ids_selected nodes edges config weights selected Hw Hs Hc), <-id_at_seq in Hv.
  apply list_elem_of_In, in_map_iff in Hv as (i & <- & Hi%in_seq). exists i. split; [lia|done].
Qed.

Lemma linked_joined i j :
  (i < length (wg_nodes graph))%nat → (j < length (wg_nodes graph))%nat →
  linked edges config weights selected (id_at graph i) (id_at graph j) ↔ joined graph i j.
Proof using Hw Hc.
  intros Hi Hj. rewrite (build_graph_joined _ _ _ _ _ (analysis_valid nodes edges config weights Hw Hc)). unfold linked.
  destruct (lookup_lt_is_Some_2 _ _ Hi) as [u Hu], (lookup_lt_is_Some_2 _ _ Hj) as [v Hv].
  assert (Eu : id_at graph i = node_id u) by (unfold id_at; by rewrite Hu). assert (Ev : id_at graph j = node_id v) by (unfold id_at; by rewrite Hv).
  pose proof (id_at_selected i Hi). pose proof (id_at_selected j Hj). rewrite Eu, Ev in *. split; [naive_solver|].
  intros (e & u' & v' & He & Hp & Hu' & Hv' & Hcase). assert (u' = u) as -> by congruence. assert (v' = v) as -> by congruence. eauto 10.
Qed.

Lemma linked_rtc i v :
  (i < length (wg_nodes graph))%nat →
  rtc (linked edges config weights selected) (id_at graph i) v ↔
  ∃ j, (j < length (wg_nodes graph))%nat ∧ id_at graph j = v ∧ rtc (joined graph) i j.
Proof using Hw Hs Hc.
  intros Hi. split.
  - intros Hr. remember (id_at graph i) as u eqn:Eu. revert i Hi Eu. induction Hr as [u|u x v Hl _ IH]; intros i Hi ->; [by exists i|].
    assert (Hx : x ∈ selected) by apply Hl. apply selected_position in Hx as (k & Hk & <-).
    apply (linked_joined i k Hi Hk) in Hl. destruct (IH k Hk eq_refl) as (j & Hj & <- & Hkj). exists j. split_and!; [done..|].
    by eapply rtc_l.
  - intros (j & _ & <- & Hr). induction Hr as [i|i k j Hik _ IH]; [done|].
    assert (Hk : (k < length (wg_nodes graph))%nat)
      by exact (sg_range _ (build_graph_symmetric _ _ _ _ _ (analysis_valid nodes edges config weights Hw Hc)) i k Hik).
    eapply rtc_l; [by apply (linked_joined i k)|by apply IH].
Qed.
End components.

(** C31: The connected components of valid inputs are the classes of the
    relationships that count: two nodes of the scope are in the same community
    exactly when a chain of confirmed relationships of sufficient confidence and
    positive weight joins them, in whichever directions. Every component reports
    one unit of progress. *)
Theorem components_exact `{Blake3, TextTables} snapshot_id nodes edges config weights selected :
  cc_algorithm config = ConnectedComponents →
  validate_inputs nodes edges config = Ok weights → scoped_node_ids nodes edges config weights = Ok selected →
  (∀ e, e ∈ edges → valid_f32 (edge_confidence e) = true) →
  ∃ snapshot units, analyze_communities_with_progress snapshot_id nodes edges config = Ok (Some (snapshot, units)) ∧
    ∀ c u v, c ∈ snap_communities snapshot → u ∈ com_members c →
      v ∈ com_members c ↔ rtc (linked edges config weights selected) u v.
Proof.
  intros Ha Hw Hs Hc. destruct (analyze_result nodes edges config weights selected Hw Hs Hc snapshot_id) as (a & units & E & Hl & _ & Er).
  do 2 eexists. split; [exact Er|]. cbn [snap_communities]. set (graph := build_graph nodes edges config weights selected) in *.
  unfold cluster in E. rewrite Ha in E.
  destruct (connected_components_spec graph (build_graph_symmetric _ _ _ _ _ (analysis_valid _ _ config _ Hw Hc)))
    as (a' & u' & E' & _ & _ & _ & Hsame). rewrite E in E'. injection E' as <- <-.
  intros c u v (k & Ek & _)%described_member_elem.
  assert (Hmem : ∀ w, w ∈ com_members c ↔ ∃ i, (i < length (wg_nodes graph))%nat ∧ vec_get 0 a i = k ∧ id_at graph i = w).
  { intros w. rewrite Ek, list_elem_of_In, in_map_iff. setoid_rewrite <-list_elem_of_In. setoid_rewrite sort_by_elem_of.
    setoid_rewrite positions_elem. rewrite Hl. naive_solver. }
  rewrite !Hmem. intros (i & Hi & Hk & <-).
  pose proof (linked_rtc nodes edges config weights selected Hw Hs Hc i v Hi) as Hr. fold graph in Hr. rewrite Hr. clear Hr. split.
  - intros (j & Hj & Hk' & <-). exists j. split_and!; [done..|]. apply Hsame; congruence.
  - intros (j & Hj & <- & Hr). exists j. split_and!; [done| |done]. apply Hsame in Hr; congruence.
Qed.

(** In every state of a Louvain run, whatever the order of the moves, every
    node carries the label of a community, the member counts are those of the
    labels and the set of empty communities is the set of labels without a node. *)
Theorem louvain_tables `{Blake3} nodes edges config weights selected resolution label_keys s :
  validate_inputs nodes edges config = Ok weights → (∀ e, e ∈ edges → valid_f32 (edge_confidence e) = true) →
  louvain_reachable (build_graph nodes edges config weights selected) resolution label_keys s →
  louvain_consistent (build_graph nodes edges config weights selected) s.
Proof. intros Hw Hc. apply reachable_consistent. by eapply analysis_valid. Qed.

(** ** Independence of the input order *)
Lemma check_node_ids_Ok nodes ids :
  NoDup (map node_id nodes) → (∀ n, n ∈ nodes → node_id n ∉ ids) → is_ok (try_fold check_node_id ids nodes) = true.
Proof.
  revert ids. induction nodes as [|n nodes IH]; intros ids Hnd Hdis; [done|]. simpl in Hnd. apply NoDup_cons in Hnd as [Hn Hnd].
  cbn [try_fold]. unfold check_node_id at 1. rewrite bool_decide_eq_false_2 by (apply Hdis; by left). cbn [result_bind]. apply IH; [done|].
  intros m Hm [E%elem_of_singleton|Hin]%elem_of_union; [|by apply (Hdis m); [right|]].
  apply Hn. rewrite <-E. apply list_elem_of_In, in_map. by apply list_elem_of_In.
Qed.

Lemma validate_inputs_perm nodes nodes' edges edges' config weights :
  nodes ≡ₚ nodes' → edges ≡ₚ edges' → validate_inputs nodes edges config = Ok weights → validate_inputs nodes' edges' config = Ok weights.
Proof.
  intros Hn He. unfold validate_inputs. destruct (_ || _); [done|]. destruct (negb (_ && _)); [done|]. destruct (negb _); [done|].
  rewrite !result_bind_Ok. intros (ids & [Hnd _]%try_fold_node_ids & H). revert H. rewrite result_bind_Ok. intros ([] & Hc & H).
  pose proof (check_node_ids_Ok nodes' ∅ ltac:(by rewrite <-(Permutation_map node_id Hn)) ltac:(set_solver)) as Hok.
  destruct (try_fold check_node_id ∅ nodes') as [ids'|]; [|done]. cbn [result_bind]. rewrite result_bind_Ok. exists tt. split; [|done].
  apply (proj2 (try_fold_confidences edges')). setoid_rewrite <-He. exact (proj1 (try_fold_confidences edges) Hc).
Qed.

Lemma select_neighbors_elem services (selected : gset NodeId) edges id :
  id ∈ foldl (select_neighbors services) selected edges ↔
  id ∈ selected ∨ ∃ e, e ∈ edges ∧ (edge_source e ∈ services ∧ edge_target e = id ∨ edge_target e ∈ services ∧ edge_source e = id).
Proof.
  revert selected. induction edges as [|e edges IH]; intros selected; simpl.
  { split; [auto|]. intros [|(e & He & _)]; [done|by apply not_elem_of_nil in He]. }
  rewrite IH. setoid_rewrite elem_of_cons. unfold select_neighbors.
  assert (E : id ∈ (let s := if bool_decide (edge_source e ∈ services) then {[edge_target e]} ∪ selected else selected in
      if bool_decide (edge_target e ∈ services) then {[edge_source e]} ∪ s else s) ↔
    id ∈ selected ∨ edge_source e ∈ services ∧ edge_target e = id ∨ edge_target e ∈ services ∧ edge_source e = id).
  { repeat case_bool_decide; set_solver. }
  rewrite E. naive_solver.
Qed.

Lemma bset_collect_perm (l k : list NodeId) : l ≡ₚ k → (bset_collect l : gset NodeId) = bset_collect k.
Proof. apply list_to_set_perm_L. Qed.

Lemma scoped_node_ids_perm nodes nodes' edges edges' config weights :
  nodes ≡ₚ nodes' → edges ≡ₚ edges' →
  scoped_node_ids nodes edges config weights = scoped_node_ids nodes' edges' config weights.
Proof.
  intros Hn He. unfold scoped_node_ids, service_nodes. rewrite (bset_collect_perm _ _ (Permutation_map node_id Hn)).
  assert (Hf : ∀ f, (bset_collect (map node_id (List.filter f nodes)) : gset NodeId) = bset_collect (map node_id (List.filter f nodes'))).
  { intros f. by apply bset_collect_perm, Permutation_map, Prelude.filter_perm. }
  destruct (cc_scope config); rewrite ?Hf; try done. case_bool_decide; [done|]. f_equal. apply set_eq. intros id.
  rewrite !select_neighbors_elem. setoid_rewrite list_filter_In. by setoid_rewrite He.
Qed.

#[export] Instance edge_order_lawful : LawfulCmp edge_order.
Proof. apply _. Qed.

Lemma build_graph_perm nodes nodes' edges edges' config weights selected :
  nodes ≡ₚ nodes' → edges ≡ₚ edges' → NoDup (map node_id nodes) → NoDup (map edge_id edges) →
  build_graph nodes edges config weights selected = build_graph nodes' edges' config weights selected.
Proof.
  intros Hn He Hnodes Hedges. assert (En : graph_nodes nodes selected = graph_nodes nodes' selected).
  { unfold graph_nodes. apply sort_by_perm_eq; [apply _| |exact (Prelude.filter_perm _ _ _ Hn)]. intros u v Hu Hv E.
    apply list_filter_In in Hu as [Hu _], Hv as [Hv _]. apply (NoDup_map_inj node_id nodes u v); [done..|]. by apply cmp_eq_iff. }
  assert (Ee : sort_by edge_order edges = sort_by edge_order edges').
  { apply sort_by_perm_eq; [apply _| |done]. intros e f He' Hf E. apply (NoDup_map_inj edge_id edges e f); [done..|].
    unfold edge_order, then_with, cmp_on in E. destruct (cmp (edge_source e) _); [|done..]. destruct (cmp (edge_target e) _); [|done..].
    destruct (cmp (edge_kind_index _) _); [|done..]. destruct (cmp (edge_id e) (edge_id f)) eqn:Ei; [|done..]. by apply cmp_eq_iff. }
  unfold build_graph. by rewrite En, Ee.
Qed.

(** The analysis of valid inputs with distinct relationship identifiers
    does not depend on the order in which nodes and relationships are given. *)
Theorem analyze_deterministic `{Blake3, TextTables} snapshot_id nodes nodes' edges edges' config r :
  nodes ≡ₚ nodes' → edges ≡ₚ edges' → NoDup (map edge_id edges) →
  analyze_communities_with_progress snapshot_id nodes edges config = Ok r →
  analyze_communities_with_progress snapshot_id nodes' edges' config = Ok r.
Proof.
  intros Hn He Hedges. unfold analyze_communities_with_progress. rewrite !result_bind_Ok. intros (weights & Hw & Hr). exists weights.
  split; [by eapply validate_inputs_perm|]. revert Hr. rewrite !result_bind_Ok. intros (selected & Hs & Hr). exists selected.
  split; [by rewrite <-(scoped_node_ids_perm nodes nodes' edges edges')|].
  assert (Hnodes : NoDup (map node_id nodes)).
  { clear -Hw. unfold validate_inputs in Hw. destruct (_ || _); [done|]. destruct (negb (_ && _)); [done|]. destruct (negb _); [done|].
    rewrite result_bind_Ok in Hw. destruct Hw as (ids & [Hnd _]%try_fold_node_ids & _). done. }
  by rewrite <-(build_graph_perm nodes nodes' edges edges').
Qed.

Module Example_communities.
#[local] Instance plain : Blake3 := λ s, s.
#[local] Instance ascii : TextTables :=
  {| str_to_lowercase := to_ascii_lowercase;
     text_is_alphanumeric := λ c, ((48 <=? c) && (c <=? 57) || (65 <=? c) && (c <=? 90) || (97 <=? c) && (c <=? 122))%N;
     text_is_alphabetic := λ c, ((65 <=? c) && (c <=? 90) || (97 <=? c) && (c <=? 122))%N;
     to_uppercase := snd |}.

Definition node (id : string) (kind : NodeKind) : Node :=
  {| node_id := id; node_kind := kind; node_repo_id := Some "shop"; node_stable_key := "shop/" +:+ id; node_label := id |}.
Definition edge (id source target : string) (confidence : f32) : Edge :=
  {| edge_id := id; edge_source := source; edge_target := target; edge_kind := CallsRemote; edge_confidence := confidence;
     edge_status := Confirmed; edge_evidence := [] |}.
Definition nodes : list Node :=
  [node "orders" NK_Service; node "billing" NK_Service; node "invoices" NK_DatabaseTable; node "catalog" NK_Service].
(** The second call is not certain enough. *)
Definition edges : list Edge := [edge "1" "orders" "billing" f32_one; edge "2" "catalog" "orders" (f32_lit 1 (-2)); edge "3" "invoices" "billing" f32_one].
Definition config (algorithm : CommunityAlgorithm) : CommunityConfig :=
  {| cc_algorithm := algorithm; cc_scope := CS_Workspace; cc_seed := 7; cc_resolution := f64_one;
     cc_minimum_confidence := f32_lit 1 (-1); cc_edge_weights := [{| cw_kind := CallsRemote; cw_weight := f64_lit 2 0 |}];
     cc_max_iterations := 10 |}.
Definition weights : list f64 := Eval vm_compute in match validate_inputs nodes edges (config Louvain) with Ok w => w | Err _ => [] end.
Definition selected : gset NodeId := bset_collect (map node_id nodes).

Definition members (algorithm : CommunityAlgorithm) : option (list (list NodeId) * nat) :=
  match analyze_communities_with_progress "s" nodes edges (config algorithm) with
  | Ok (Some (snapshot, units)) => Some (map com_members (snap_communities snapshot), units)
  | _ => None
  end.

Example three_clusterings :
  members ConnectedComponents = Some ([["billing"; "invoices"; "orders"]; ["catalog"]], 2) ∧
  members WeightedClustering = Some ([["billing"; "invoices"; "orders"]; ["catalog"]], 2) ∧
  members Louvain = Some ([["billing"; "invoices"; "orders"]; ["catalog"]], 2).
Proof. vm_compute. done. Qed.

Lemma confidences e : e ∈ edges → valid_f32 (edge_confidence e) = true.
Proof. unfold edges. intros [->|[->|[->|[]%not_elem_of_nil]%elem_of_cons]%elem_of_cons]%elem_of_cons; reflexivity. Qed.

Lemma validated algorithm : validate_inputs nodes edges (config algorithm) = Ok weights.
Proof. by destruct algorithm; vm_compute. Qed.

Lemma communities_partition_witness : validate_inputs nodes edges (config Louvain) = Ok weights ∧
  ∃ snapshot units, analyze_communities_with_progress "s" nodes edges (config Louvain) = Ok (Some (snapshot, units)) ∧
    concat (map com_members (snap_communities snapshot)) ≡ₚ elements selected.
Proof.
  split; [apply validated|].
  destruct (communities_partition "s" nodes edges (config Louvain) weights selected (validated _) eq_refl confidences)
    as (snapshot & units & E & _ & Hp & _). exists snapshot, units. exact (conj E Hp).
Defined.

Lemma components_exact_witness : cc_algorithm (config ConnectedComponents) = ConnectedComponents ∧
  ∃ snapshot units, analyze_communities_with_progress "s" nodes edges (config ConnectedComponents) = Ok (Some (snapshot, units)).
Proof.
  split; [reflexivity|].
  destruct (components_exact "s" nodes edges (config ConnectedComponents) weights selected eq_refl (validated _) eq_refl confidences)
    as (snapshot & units & E & _). exists snapshot, units. exact E.
Defined.

Lemma louvain_tables_witness :
  let graph := build_graph nodes edges (config Louvain) weights selected in
  louvain_consistent graph (louvain_step graph f64_one [] (louvain_start graph, false) 1).1.
Proof.
  apply (louvain_tables nodes edges (config Louvain) weights selected f64_one []); [apply validated|apply confidences|].
  apply reachable_step; [apply reachable_start|]. apply Nat.ltb_lt. vm_compute. reflexivity.
Defined.

Lemma analyze_deterministic_witness : ∃ r,
  analyze_communities_with_progress "s" nodes edges (config Louvain) = Ok r ∧
  analyze_communities_with_progress "s" (reverse nodes) (reverse edges) (config Louvain) = Ok r.
Proof.
  destruct (analyze_result nodes edges (config Louvain) weights selected (validated _) eq_refl confidences "s") as (a & units & _ & _ & _ & E).
  eexists. split; [exact E|].
  apply (analyze_deterministic "s" nodes (reverse nodes) edges (reverse edges) (config Louvain)).
  - by rewrite reverse_Permutation.
  - by rewrite reverse_Permutation.
  - apply (bool_decide_eq_true_1 _). by vm_compute.
  - exact E.
Defined.
End Example_communities.
