(* ===== verification/Search.v ===== *)
(** * Ranked search ([crates/code-system-graph-core/src/query.rs])

    Deterministic ranked search over the nodes of a graph. The Unicode tables
    behind [char::to_lowercase] and [char::is_alphanumeric] are a parameter. *)
From stdpp Require Import base gmap sets list strings sorting.
From S2P Require Import Prelude RustOrd RustFloat FloatMono RustStr Model Query.

Definition MAX_SEARCH_RESULTS : N := 100.
Definition MAX_SEARCH_OFFSET : N := 1000000.

(** Characters are code points with their bytes. *)
Class CharTables := {
  to_lowercase : N * string → list (N * string);
  is_alphanumeric : N → bool;
}.

Record SearchFilters := {
  sf_node_kinds : list NodeKind;
  sf_repo_ids : list RepoId;
  sf_workspace_nodes : list NodeId;
  sf_service_ids : list NodeId;
  sf_community_ids : list CommunityId;
}.

Record SearchRequest := {
  sr_query : string;
  sr_filters : SearchFilters;
  sr_fts_scores : gmap NodeId f64;
  sr_centrality_scores : gmap NodeId f64;
  sr_service_memberships : gmap NodeId (list NodeId);
  sr_community_memberships : gmap NodeId (list CommunityId);
  sr_evidence : gmap NodeId (list Evidence);
  sr_freshness : gmap RepoId RepoFreshnessState;
  sr_offset : N;
  sr_limit : N;
}.

Record SearchExplanation := {
  se_matched_fields : list string;
  se_exact_score : f64;
  se_prefix_score : f64;
  se_suffix_score : f64;
  se_fts_score : f64;
  se_type_score : f64;
  se_scope_score : f64;
  se_centrality_score : f64;
  se_community_score : f64;
  se_evidence_score : f64;
  se_freshness_penalty : f64;
}.

Record SearchHit := { sh_node : Node; sh_score : f64; sh_explanation : SearchExplanation }.

Record SearchCoverage := {
  sc_input_nodes : N;
  sc_eligible_nodes : N;
  sc_matched_nodes : N;
  sc_fts_scored_nodes : N;
  sc_freshness_unknown_repositories : list RepoId;
  sc_gaps : list string;
}.

Record AgentNextAction := { na_tool : string; na_arguments : gmap string string; na_rationale : string }.

Record SearchReport := {
  srp_hits : list SearchHit;
  srp_total_matches : N;
  srp_offset : N;
  srp_limit : N;
  srp_truncated : bool;
  srp_coverage : SearchCoverage;
  srp_next_actions : list AgentNextAction;
  srp_link_gaps : list HttpLinkGap;
}.

Inductive FtsSearchState := Fts_Unavailable | Fts_Executed | Fts_Failed.
#[export] Instance FtsSearchState_eq_dec : EqDecision FtsSearchState.
Proof. solve_decision. Defined.

(** [n / d] as the nearest [f64] of a decimal literal. *)
Definition f64_dec (n d : Z) : f64 := f64_div (f64_lit n 0) (f64_lit d 0).

(** ** Text *)
Fixpoint normalize_loop `{CharTables} (result : string) (separator_pending : bool) (characters : list (N * string)) : string :=
  match characters with
  | [] => result
  | (c, bytes) :: rest =>
      if is_alphanumeric c then
        let result := if separator_pending && negb (String.eqb result "") then result +:+ " " else result in
        normalize_loop (result +:+ bytes) false rest
      else normalize_loop result true rest
  end.

Definition normalize `{CharTables} (value : string) : string :=
  normalize_loop "" false (flat_map to_lowercase (chars value)).

Definition node_kind_name (kind : NodeKind) : string :=
  match kind with
  | NK_Repository => "repository" | NK_Service => "service" | NK_Package => "package" | NK_Artifact => "artifact"
  | NK_SymbolRef => "symbol ref" | NK_TestCase => "test case" | NK_HttpOperation => "http operation"
  | NK_GraphqlOperation => "graphql operation" | NK_RpcMethod => "rpc method" | NK_EventChannel => "event channel"
  | NK_EventSchema => "event schema" | NK_Database => "database" | NK_DatabaseTable => "database table"
  | NK_DatabaseColumn => "database column" | NK_ConfigKey => "config key" | NK_Deployment => "deployment"
  | NK_Document => "document" | NK_Adr => "adr" | NK_Owner => "owner" | NK_ChangeSet => "change set"
  | NK_PullRequest => "pull request" | NK_Community => "community"
  end.

(** ** Validation *)
Definition check_score (signal : string) (u : unit) (entry : NodeId * f64) : result QueryError unit :=
  if negb (f_is_finite entry.2) || f_lt entry.2 f_zero then Err (InvalidScore signal entry.1) else Ok tt.

Definition validate_score_map (scores : gmap NodeId f64) (signal : string) : result QueryError unit :=
  try_fold (check_score signal) tt (btree_entries scores).

Definition check_evidence (u : unit) (entry : NodeId * list Evidence) : result QueryError unit :=
  if existsb (λ item, negb (f32_in_unit (ev_confidence item))) entry.2
  then Err (InvalidScore "evidence confidence" entry.1) else Ok tt.

Definition validate_search (nodes : list Node) (request : SearchRequest) (normalized_query : string) : result QueryError unit :=
  if String.eqb normalized_query "" then Err EmptyQuery
  else if ((sr_limit request =? 0) || (MAX_SEARCH_RESULTS <? sr_limit request) || (MAX_SEARCH_OFFSET <? sr_offset request))%N
  then Err InvalidPagination
  else
    let? _ := distinct_nodes nodes in
    check? validate_score_map (sr_fts_scores request) "full-text" in
    check? validate_score_map (sr_centrality_scores request) "centrality" in
    try_fold check_evidence tt (btree_entries (sr_evidence request)).

(** ** Filters *)
Definition membership_matches (memberships : option (list string)) (required : list string) : bool :=
  is_empty_list required || is_some_and memberships (λ values, existsb (λ r, bool_decide (r ∈ values)) required).

Definition matches_search_filters (node : Node) (request : SearchRequest) : bool :=
  let filters := sr_filters request in
  if negb (is_empty_list (sf_node_kinds filters)) && negb (bool_decide (node_kind node ∈ sf_node_kinds filters)) then false
  else if negb (is_empty_list (sf_repo_ids filters))
          && is_none_or (node_repo_id node) (λ repo, negb (bool_decide (repo ∈ sf_repo_ids filters))) then false
  else if negb (is_empty_list (sf_workspace_nodes filters)) && negb (bool_decide (node_id node ∈ sf_workspace_nodes filters))
  then false
  else if negb (membership_matches (sr_service_memberships request !! node_id node) (sf_service_ids filters)) then false
  else membership_matches (sr_community_memberships request !! node_id node) (sf_community_ids filters).

(** ** Scores *)
Definition lexical_explanation (query stable_key label kind : string) : SearchExplanation :=
  let exact := String.eqb stable_key query || String.eqb label query in
  let prefix := negb exact && (starts_with query stable_key || starts_with query label) in
  let suffix := negb exact && (ends_with query stable_key || ends_with query label) in
  {| se_matched_fields :=
       (if String.eqb stable_key query then ["stable_key_exact"] else [])
       ++ (if String.eqb label query then ["label_exact"] else [])
       ++ (if prefix then ["normalized_prefix"] else [])
       ++ (if suffix then ["normalized_suffix"] else [])
       ++ (if String.eqb kind query then ["node_kind"] else []);
     se_exact_score := if exact then f64_lit 4 0 else f_zero;
     se_prefix_score := if prefix then f64_dec 15 10 else f_zero;
     se_suffix_score := if suffix then f64_one else f_zero;
     se_fts_score := f_zero; se_type_score := f_zero; se_scope_score := f_zero; se_centrality_score := f_zero;
     se_community_score := f_zero; se_evidence_score := f_zero; se_freshness_penalty := f_zero |}.

Definition type_signal (query kind : string) : f64 :=
  if String.eqb kind query then f64_dec 5 10
  else if starts_with query kind || ends_with query kind then f64_dec 25 100 else f_zero.

Definition scope_signal (node : Node) (request : SearchRequest) : f64 :=
  let filters := sr_filters request in
  let score := f_zero in
  let score := if is_empty_list (sf_repo_ids filters) then score else f64_add score (f64_dec 15 100) in
  let score := if is_empty_list (sf_workspace_nodes filters) then score else f64_add score (f64_dec 1 10) in
  let score :=
    if negb (is_empty_list (sf_service_ids filters))
       && membership_matches (sr_service_memberships request !! node_id node) (sf_service_ids filters)
    then f64_add score (f64_dec 15 100) else score in
  f_min score (f64_dec 4 10).

Definition community_signal (node : Node) (request : SearchRequest) : f64 :=
  match sr_community_memberships request !! node_id node with
  | None => f_zero
  | Some memberships =>
      if is_empty_list (sf_community_ids (sr_filters request)) then
        if is_empty_list memberships then f_zero else f64_dec 1 10
      else if membership_matches (Some memberships) (sf_community_ids (sr_filters request)) then f64_dec 4 10 else f_zero
  end.

Definition evidence_signal (node : Node) (request : SearchRequest) : f64 :=
  match sr_evidence request !! node_id node with
  | None => f_zero
  | Some items =>
      if is_empty_list items then f_zero
      else
        let '(confidence_sum, denominator) :=
          foldl (λ acc item, (f64_add acc.1 (f64_from_f32 (ev_confidence item)), f64_add acc.2 f64_one)) (f_zero, f_zero) items in
        f64_mul (f_min (f64_div confidence_sum denominator) f64_one) (f64_dec 75 100)
  end.

Definition state_penalty (state : RepoFreshnessState) : f64 :=
  match state with
  | RF_Fresh => f_zero
  | RF_WorkingTreeChanged => f64_dec 5 100
  | RF_CommitsBehind => f64_dec 1 10
  | RF_ConfigChanged | RF_ExtractorChanged | RF_CodegraphPending => f64_dec 15 100
  | RF_Partial | RF_Unknown => f64_dec 2 10
  | RF_Corrupt => f64_dec 4 10
  | RF_Unavailable => f64_dec 5 10
  end.

Definition freshness_penalty (node : Node) (request : SearchRequest) (unknown : gset RepoId) : f64 * gset RepoId :=
  match node_repo_id node with
  | None => (f_zero, unknown)
  | Some repo =>
      match sr_freshness request !! repo with
      | None => (f64_dec 2 10, {[repo]} ∪ unknown)
      | Some state => (state_penalty state, unknown)
      end
  end.

Definition explanation_score (e : SearchExplanation) : f64 :=
  f64_sub
    (foldl f64_add (se_exact_score e)
       [se_prefix_score e; se_suffix_score e; se_fts_score e; se_type_score e; se_scope_score e;
        se_centrality_score e; se_community_score e; se_evidence_score e])
    (se_freshness_penalty e).

Definition score_node `{CharTables} (node : Node) (request : SearchRequest) (query : string) (unknown_freshness : gset RepoId)
    : option SearchHit * gset RepoId :=
  let stable_key := normalize (node_stable_key node) in
  let label := normalize (node_label node) in
  let kind := node_kind_name (node_kind node) in
  let lexical := lexical_explanation query stable_key label kind in
  let supplied_fts := default f_zero (sr_fts_scores request !! node_id node) in
  if is_empty_list (se_matched_fields lexical) && f_le supplied_fts f_zero then (None, unknown_freshness)
  else
    let '(penalty, unknown_freshness) := freshness_penalty node request unknown_freshness in
    let explanation :=
      {| se_matched_fields := se_matched_fields lexical;
         se_exact_score := se_exact_score lexical;
         se_prefix_score := se_prefix_score lexical;
         se_suffix_score := se_suffix_score lexical;
         se_fts_score := f64_mul (f_min supplied_fts f64_one) (f64_lit 2 0);
         se_type_score := type_signal query kind;
         se_scope_score := scope_signal node request;
         se_centrality_score :=
           f64_mul (f_min (default f_zero (sr_centrality_scores request !! node_id node)) f64_one) (f64_dec 5 10);
         se_community_score := community_signal node request;
         se_evidence_score := evidence_signal node request;
         se_freshness_penalty := penalty |} in
    (Some {| sh_node := node; sh_score := f_max (explanation_score explanation) f_zero; sh_explanation := explanation |},
     unknown_freshness).

(** ** The search *)
Definition hit_order : SearchHit → SearchHit → comparison :=
  then_with (λ left right, f_total_cmp (sh_score right) (sh_score left))
  (then_with (cmp_on (λ h, node_stable_key (sh_node h)) cmp) (cmp_on (λ h, node_id (sh_node h)) cmp)).

Definition sort_search_hits (hits : list SearchHit) : list SearchHit := sort_by hit_order hits.

Definition search_gaps (request : SearchRequest) (unknown : gset RepoId) (fts_state : FtsSearchState) : list string :=
  (if bool_decide (fts_state = Fts_Failed) then ["Full-text search failed; lexical fallback was used."]
   else if bool_decide (fts_state = Fts_Unavailable) && bool_decide (sr_fts_scores request = ∅)
   then ["Full-text scores were not provided."] else [])
  ++ (if bool_decide (sr_centrality_scores request = ∅) then ["Centrality scores were not provided."] else [])
  ++ (if bool_decide (sr_evidence request = ∅) then ["Node evidence was not provided."] else [])
  ++ (if bool_decide (sr_community_memberships request = ∅) then ["Community memberships were not provided."] else [])
  ++ (if bool_decide (unknown = ∅) then [] else ["Freshness was unavailable for one or more repositories."]).

Definition search_coverage (input_nodes eligible_nodes matched_nodes : N) (request : SearchRequest) (unknown : gset RepoId)
    (fts_state : FtsSearchState) : SearchCoverage :=
  {| sc_input_nodes := input_nodes; sc_eligible_nodes := eligible_nodes; sc_matched_nodes := matched_nodes;
     sc_fts_scored_nodes := N.of_nat (size (sr_fts_scores request));
     sc_freshness_unknown_repositories := bset_elements unknown;
     sc_gaps := search_gaps request unknown fts_state |}.

(** The locals of the loop over the distinct nodes. *)
Record SearchState := { ss_unknown : gset RepoId; ss_hits : list SearchHit; ss_eligible : N }.

Definition search_step `{CharTables} (request : SearchRequest) (query : string) (s : SearchState) (node : Node) : SearchState :=
  if negb (matches_search_filters node request) then s
  else
    let '(hit, unknown) := score_node node request query (ss_unknown s) in
    {| ss_unknown := unknown;
       ss_hits := ss_hits s ++ match hit with Some h => [h] | None => [] end;
       ss_eligible := (ss_eligible s + 1)%N |}.

Definition search_with_fts_state `{CharTables} (nodes : list Node) (request : SearchRequest) (fts_state : FtsSearchState)
    : result QueryError SearchReport :=
  let normalized_query := normalize (sr_query request) in
  check? validate_search nodes request normalized_query in
  let? distinct := distinct_nodes nodes in
  let s := foldl (search_step request normalized_query) {| ss_unknown := ∅; ss_hits := []; ss_eligible := 0 |} (btree_values distinct) in
  let hits := sort_search_hits (ss_hits s) in
  let total_matches := len hits in
  let page_end := N.min (saturating_add (sr_offset request) (sr_limit request)) total_matches in
  Ok {| srp_hits := skip_take (N.min (sr_offset request) total_matches) (page_end - sr_offset request) hits;
        srp_total_matches := total_matches; srp_offset := sr_offset request; srp_limit := sr_limit request;
        srp_truncated := (page_end <? total_matches)%N;
        srp_coverage :=
          search_coverage (N.of_nat (size distinct)) (ss_eligible s) total_matches request (ss_unknown s) fts_state;
        srp_next_actions := []; srp_link_gaps := [] |}.

Definition search `{CharTables} (nodes : list Node) (request : SearchRequest) : result QueryError SearchReport :=
  search_with_fts_state nodes request Fts_Unavailable.

(** ** Specification *)
Record search_valid `{CharTables} (nodes : list Node) (request : SearchRequest) : Prop := {
  sv_query : normalize (sr_query request) ≠ "";
  sv_nodes : NoDup (map node_id nodes);
  sv_fts : ∀ i x, sr_fts_scores request !! i = Some x → f_is_finite x = true ∧ f_lt x f_zero = false;
  sv_centrality : ∀ i x, sr_centrality_scores request !! i = Some x → f_is_finite x = true ∧ f_lt x f_zero = false;
  sv_evidence : ∀ i l e, sr_evidence request !! i = Some l → e ∈ l → f32_in_unit (ev_confidence e) = true;
}.

Definition page_valid (offset limit : N) : Prop := (1 ≤ limit ≤ MAX_SEARCH_RESULTS ∧ offset ≤ MAX_SEARCH_OFFSET)%N.

Definition with_page (request : SearchRequest) (offset limit : N) : SearchRequest :=
  {| sr_query := sr_query request; sr_filters := sr_filters request; sr_fts_scores := sr_fts_scores request;
     sr_centrality_scores := sr_centrality_scores request; sr_service_memberships := sr_service_memberships request;
     sr_community_memberships := sr_community_memberships request; sr_evidence := sr_evidence request;
     sr_freshness := sr_freshness request; sr_offset := offset; sr_limit := limit |}.

(** The hit of a node, on its own. *)
Definition node_hit `{CharTables} (request : SearchRequest) (node : Node) : option SearchHit :=
  if matches_search_filters node request then (score_node node request (normalize (sr_query request)) ∅).1 else None.

Definition lacks_freshness (request : SearchRequest) (node : Node) (repo : RepoId) : Prop :=
  node_repo_id node = Some repo ∧ sr_freshness request !! repo = None.

Lemma try_fold_checks {E A} (f : unit → A → result E unit) (P : A → Prop) l :
  (∀ x, f tt x = Ok tt ↔ P x) → try_fold f tt l = Ok tt ↔ ∀ x, x ∈ l → P x.
Proof.
  intros Hf. induction l as [|x l IH]; cbn [try_fold]; [split; [intros _ x Hx; by apply not_elem_of_nil in Hx|done]|].
  rewrite result_bind_Ok. setoid_rewrite elem_of_cons. split.
  - intros ([] & Hx%Hf & Hl) y [->|Hy]; [done|]. by apply IH.
  - intros Hall. exists tt. split; [apply Hf; auto|apply IH; auto].
Qed.

Lemma validate_score_map_Ok scores signal :
  validate_score_map scores signal = Ok tt ↔ ∀ i x, scores !! i = Some x → f_is_finite x = true ∧ f_lt x f_zero = false.
Proof.
  unfold validate_score_map.
  rewrite (try_fold_checks _ (λ e, f_is_finite e.2 = true ∧ f_lt e.2 f_zero = false)).
  - split; [intros Hall i x Hx; apply (Hall (i, x)), btree_entries_elem_of, Hx|].
    intros Hall [i x] Hx%btree_entries_elem_of. by apply (Hall i).
  - intros [i x]. unfold check_score. cbn [fst snd]. destruct (f_is_finite x), (f_lt x f_zero); naive_solver.
Qed.

Lemma validate_evidence_Ok (m : gmap NodeId (list Evidence)) :
  try_fold check_evidence tt (btree_entries m) = Ok tt ↔
  ∀ i l e, m !! i = Some l → e ∈ l → f32_in_unit (ev_confidence e) = true.
Proof.
  rewrite (try_fold_checks _ (λ p, ∀ e, e ∈ p.2 → f32_in_unit (ev_confidence e) = true)).
  - split; [intros Hall i l e Hl; apply (Hall (i, l)), btree_entries_elem_of, Hl|].
    intros Hall [i l] Hl%btree_entries_elem_of e. by apply (Hall i).
  - intros [i l]. unfold check_evidence. cbn [fst snd]. destruct (existsb _ l) eqn:Ex.
    + apply existsb_In in Ex as (e & He & Hc). split; [done|]. intros Hall. by rewrite (Hall e He) in Hc.
    + split; [|done]. intros _ e He. apply (existsb_false_In _ _) with (x := e) in Ex; [|done]. by apply negb_false_iff.
Qed.

Lemma validate_search_Ok `{CharTables} nodes request :
  validate_search nodes request (normalize (sr_query request)) = Ok tt ↔
  search_valid nodes request ∧ page_valid (sr_offset request) (sr_limit request).
Proof.
  unfold validate_search, page_valid. destruct (String.eqb_spec (normalize (sr_query request)) "") as [E|E].
  { split; [done|]. by intros [[] _]. }
  destruct (_ || _ || _) eqn:Ep.
  { split; [done|]. intros [_ Hp]. rewrite !orb_true_iff, N.eqb_eq, !N.ltb_lt in Ep. lia. }
  rewrite !orb_false_iff, N.eqb_neq, !N.ltb_ge in Ep. rewrite result_bind_Ok. setoid_rewrite distinct_nodes_Ok.
  setoid_rewrite check_Ok. setoid_rewrite check_Ok. setoid_rewrite validate_score_map_Ok.
  setoid_rewrite validate_evidence_Ok. split.
  - intros (m & [Hn _] & Hf & Hc & He). split; [by split|lia].
  - intros [[] _]. eexists. by split_and!.
Qed.

(** ** One node *)
Lemma score_node_hit `{CharTables} node request query unknown :
  (score_node node request query unknown).1 = (score_node node request query ∅).1.
Proof.
  unfold score_node, freshness_penalty. destruct (_ && _); [done|]. destruct (node_repo_id node); [|done].
  by destruct (sr_freshness request !! _).
Qed.

Lemma score_node_unknown `{CharTables} node request query unknown repo :
  repo ∈ (score_node node request query unknown).2 ↔
  repo ∈ unknown ∨ is_Some (score_node node request query ∅).1 ∧ lacks_freshness request node repo.
Proof.
  unfold score_node, freshness_penalty, lacks_freshness. destruct (_ && _).
  { cbn [fst snd]. split; [by left|]. intros [|[[? ?] _]]; done. }
  destruct (node_repo_id node) as [r|]; cbn [fst snd]; [|naive_solver].
  destruct (sr_freshness request !! r) eqn:E; cbn [fst snd]; [naive_solver|].
  rewrite elem_of_union, elem_of_singleton. naive_solver.
Qed.

Lemma f_max_zero x : f_le f_zero (f_max x f_zero) = true.
Proof. by destruct x as [[]|[]| |[] m e]. Qed.

Lemma score_node_node `{CharTables} node request query unknown h :
  (score_node node request query unknown).1 = Some h → sh_node h = node ∧ f_le f_zero (sh_score h) = true.
Proof.
  unfold score_node. destruct (_ && _); [done|]. destruct (freshness_penalty _ _ _) as [penalty u]. cbn [fst].
  intros [= <-]. split; [done|]. apply f_max_zero.
Qed.

(** ** The loop over the nodes *)
Definition hits_of `{CharTables} (request : SearchRequest) (nodes : list Node) : list SearchHit := omap (node_hit request) nodes.

Definition eligible (request : SearchRequest) (nodes : list Node) : list Node :=
  List.filter (λ n, matches_search_filters n request) nodes.

Section loop.
Context `{CharTables} (request : SearchRequest).
Let query := normalize (sr_query request).

Lemma search_step_hit s node :
  ss_hits (search_step request query s node) = ss_hits s ++ match node_hit request node with Some h => [h] | None => [] end ∧
  ss_eligible (search_step request query s node) = (ss_eligible s + len (eligible request [node]))%N ∧
  ∀ repo, repo ∈ ss_unknown (search_step request query s node) ↔
    repo ∈ ss_unknown s ∨ is_Some (node_hit request node) ∧ lacks_freshness request node repo.
Proof using.
  unfold search_step, node_hit, eligible. cbn [List.filter]. destruct (matches_search_filters node request); cbn [negb].
  - pose proof (score_node_hit node request query (ss_unknown s)) as Hh.
    pose proof (score_node_unknown node request query (ss_unknown s)) as Hu.
    destruct (score_node node request query (ss_unknown s)) as [hit unknown]. cbn [fst snd] in Hh, Hu.
    cbn [ss_hits ss_eligible ss_unknown]. fold query. rewrite Hh. split_and!; [done..|exact Hu].
  - rewrite app_nil_r, len_nil, N.add_0_r. split_and!; [done..|]. intros repo. split; [by left|]. by intros [|[[? ?] _]].
Qed.

Lemma search_loop nodes s :
  let s' := foldl (search_step request query) s nodes in
  ss_hits s' = ss_hits s ++ hits_of request nodes ∧
  ss_eligible s' = (ss_eligible s + len (eligible request nodes))%N ∧
  ∀ repo, repo ∈ ss_unknown s' ↔
    repo ∈ ss_unknown s ∨ ∃ n, n ∈ nodes ∧ is_Some (node_hit request n) ∧ lacks_freshness request n repo.
Proof using.
  revert s. induction nodes as [|n nodes IH]; intros s; cbn [foldl].
  { unfold hits_of, eligible. simpl. rewrite app_nil_r, len_nil, N.add_0_r. split_and!; [done..|].
    intros repo. split; [by left|]. intros [|(n & Hn & _)]; [done|]. by apply not_elem_of_nil in Hn. }
  destruct (IH (search_step request query s n)) as (-> & -> & Hu). destruct (search_step_hit s n) as (-> & -> & Hu').
  split_and!.
  - unfold hits_of. cbn [omap list_omap]. destruct (node_hit request n); by rewrite <-app_assoc.
  - rewrite <-N.add_assoc. f_equal. unfold eligible. cbn [List.filter]. destruct (matches_search_filters _ _); [|done].
    by rewrite !len_cons, len_nil.
  - intros repo. rewrite Hu, Hu'. setoid_rewrite elem_of_cons. naive_solver.
Qed.

Lemma node_hit_node n h : node_hit request n = Some h → sh_node h = n ∧ f_le f_zero (sh_score h) = true.
Proof using. unfold node_hit. destruct (matches_search_filters n request); [apply score_node_node|done]. Qed.

Lemma hits_of_elem nodes h : h ∈ hits_of request nodes ↔ ∃ n, n ∈ nodes ∧ node_hit request n = Some h.
Proof using. unfold hits_of. by rewrite list_elem_of_omap. Qed.

Lemma hits_of_NoDup nodes : NoDup nodes → NoDup (hits_of request nodes).
Proof using.
  unfold hits_of. induction 1 as [|n nodes Hn Hnd IH]; [constructor|]. cbn [omap list_omap].
  destruct (node_hit request n) as [h|] eqn:E; [|done]. constructor; [|done]. intros (n' & Hn' & E')%list_elem_of_omap.
  apply node_hit_node in E as [<- _]. apply node_hit_node in E' as [<- _]. done.
Qed.
End loop.

Lemma hit_order_lawful : LawfulCmp hit_order.
Proof.
  unfold hit_order. apply then_with_lawful; [|apply _].
  split; intros x y; [apply (cmp_antisym (c := f_total_cmp))|]. intros z Hxy Hyz.
  by apply (cmp_trans (c := f_total_cmp) _ (sh_score y)).
Qed.
#[export] Existing Instance hit_order_lawful.

Lemma hit_order_Eq x y : hit_order x y = Eq → node_id (sh_node x) = node_id (sh_node y).
Proof.
  unfold hit_order, then_with, cmp_on. destruct (f_total_cmp _ _); [|done..].
  destruct (cmp (node_stable_key _) _); [|done..]. apply cmp_eq.
Qed.

(** The ranking: best score first, then by stable key and identifier. *)
Definition ranked_before (x y : SearchHit) : Prop := hit_order x y = Lt.

Lemma sorted_hits_strict hits :
  NoDup hits → (∀ x y, x ∈ hits → y ∈ hits → node_id (sh_node x) = node_id (sh_node y) → x = y) →
  StronglySorted ranked_before (sort_search_hits hits).
Proof.
  intros Hnd Hid. unfold sort_search_hits. pose proof (sort_by_sorted hit_order hits) as Hs.
  apply (sort_by_NoDup hit_order) in Hnd.
  assert (Hid' : ∀ x y, x ∈ sort_by hit_order hits → y ∈ sort_by hit_order hits → node_id (sh_node x) = node_id (sh_node y) → x = y).
  { intros x y. rewrite !sort_by_elem_of. apply Hid. }
  revert Hnd Hid'. induction Hs as [|x l Hs IH Hx]; intros Hnd Hid'; [constructor|]. apply NoDup_cons in Hnd as [Hx' Hnd].
  constructor; [apply IH; [done|]; intros; apply Hid'; try done; by right|].
  rewrite Forall_forall in Hx |- *. intros y Hy. specialize (Hx y Hy). unfold ranked_before, cmp_le in *.
  destruct (hit_order x y) eqn:E; [|done|done]. apply hit_order_Eq in E.
  destruct Hx'. rewrite (Hid' x y); [done|by left|by right|done].
Qed.

(** What every page of a search says, for the whole ranking. *)
Record page_of_ranking `{CharTables} (nodes : list Node) (request : SearchRequest) (ranking : list SearchHit)
    (offset limit : N) (report : SearchReport) : Prop := {
  pr_hits : srp_hits report = skip_take offset limit ranking;
  pr_total : srp_total_matches report = len ranking;
  pr_page : srp_offset report = offset ∧ srp_limit report = limit;
  pr_truncated : srp_truncated report = true ↔ (offset + limit < len ranking)%N;
  pr_input : sc_input_nodes (srp_coverage report) = len nodes;
  pr_eligible : sc_eligible_nodes (srp_coverage report) = len (eligible request nodes);
  pr_matched : sc_matched_nodes (srp_coverage report) = len ranking;
  pr_unknown : ∀ repo, repo ∈ sc_freshness_unknown_repositories (srp_coverage report) ↔
    ∃ h, h ∈ ranking ∧ lacks_freshness request (sh_node h) repo;
}.

Lemma skip_take_page {A} (l : list A) offset limit :
  (offset + limit ≤ usize_max)%N →
  skip_take (N.min offset (len l)) (N.min (saturating_add offset limit) (len l) - offset) l = skip_take offset limit l.
Proof.
  intros Hb. rewrite saturating_add_small by done. unfold skip_take, len.
  destruct (N.le_gt_cases (N.of_nat (length l)) offset) as [Hle|Hgt].
  { rewrite (N.min_r offset) by done. rewrite !drop_ge by lia. by rewrite !take_nil. }
  rewrite (N.min_l offset) by lia. destruct (N.le_gt_cases (N.of_nat (length l)) (offset + limit)) as [Hle|Hlt].
  - rewrite (N.min_r (offset + limit)) by done. rewrite !take_ge; [done|rewrite length_drop; lia..].
  - rewrite (N.min_l (offset + limit)) by lia. do 2 f_equal. lia.
Qed.

Lemma distinct_values_perm nodes m : distinct_nodes nodes = Ok m → btree_values m ≡ₚ nodes ∧ size m = length nodes.
Proof.
  intros Hm. pose proof (proj1 (distinct_nodes_Ok _ _) Hm) as [Hnd _].
  assert (Hp : btree_values m ≡ₚ nodes).
  { apply NoDup_Permutation.
    - apply (NoDup_fmap_1 node_id). replace (node_id <$> btree_values m) with (btree_entries m).*1; [apply btree_entries_keys_NoDup|].
      unfold btree_values. change (map snd (btree_entries m)) with (btree_entries m).*2. rewrite <-list_fmap_compose.
      apply list_fmap_ext. intros i [k n] Hi%list_elem_of_lookup_2%btree_entries_elem_of. simpl.
      by apply (distinct_nodes_lookup _ _ _ _ Hm) in Hi as [_ <-].
    - by apply (NoDup_fmap_1 node_id).
    - intros n. rewrite btree_values_elem_of. setoid_rewrite (distinct_nodes_lookup _ _ _ _ Hm). naive_solver. }
  split; [done|]. by rewrite <-btree_values_length, Hp.
Qed.

Lemma with_page_valid `{CharTables} nodes request offset limit :
  search_valid nodes request → search_valid nodes (with_page request offset limit).
Proof. intros []. by split. Qed.

(** Search accepts a request exactly when the query has a letter or digit,
    the page is within its bounds, node identifiers are distinct, the supplied
    scores are finite and not negative and evidence confidences lie in the unit
    interval. *)
Theorem search_accepts `{CharTables} nodes request fts_state :
  is_ok (search_with_fts_state nodes request fts_state) = true ↔
  search_valid nodes request ∧ page_valid (sr_offset request) (sr_limit request).
Proof.
  rewrite <-validate_search_Ok. unfold search_with_fts_state.
  destruct (validate_search _ _ _) as [[]|e] eqn:E; [|done]. cbn [result_bind].
  apply validate_search_Ok in E as [[_ Hn _ _ _] _].
  by rewrite (proj2 (distinct_nodes_Ok nodes _) (conj Hn eq_refl)).
Qed.

(** C34: A valid search has one ranking, that does not depend on the page: every
    node that passes the filters and matches, once, with its score, which is not
    negative, in strictly descending rank (score, then stable key, then
    identifier). Every page of it is the requested slice, and says how many
    nodes there are, are eligible and match, whether more follow, and which
    repositories of the matches have no freshness. *)
Theorem search_pages `{CharTables} nodes request fts_state :
  search_valid nodes request →
  ∃ ranking,
    StronglySorted ranked_before ranking ∧
    (∀ h, h ∈ ranking ↔ ∃ n, n ∈ nodes ∧ node_hit request n = Some h) ∧
    (∀ h, h ∈ ranking → f_le f_zero (sh_score h) = true) ∧
    ∀ offset limit, page_valid offset limit →
      ∃ report, search_with_fts_state nodes (with_page request offset limit) fts_state = Ok report ∧
        page_of_ranking nodes request ranking offset limit report.
Proof.
  intros Hv. pose proof (sv_nodes _ _ Hv) as Hn.
  set (m := btree_collect (map (λ n, (node_id n, n)) nodes) : gmap NodeId Node).
  pose proof (proj2 (distinct_nodes_Ok nodes m) (conj Hn eq_refl)) as Hm.
  destruct (distinct_values_perm _ _ Hm) as [Hperm Hsize].
  assert (Hnd : NoDup (btree_values m)) by (rewrite Hperm; by apply (NoDup_fmap_1 node_id)).
  exists (sort_search_hits (hits_of request (btree_values m))).
  assert (Helem : ∀ h, h ∈ sort_search_hits (hits_of request (btree_values m)) ↔ ∃ n, n ∈ nodes ∧ node_hit request n = Some h).
  { intros h. unfold sort_search_hits. rewrite sort_by_elem_of, hits_of_elem. by setoid_rewrite Hperm. }
  split_and!; [|done| |].
  - apply sorted_hits_strict; [by apply hits_of_NoDup|].
    intros x y (n & Hn1 & Hx)%hits_of_elem (n' & Hn2 & Hy)%hits_of_elem Hid.
    destruct (node_hit_node _ _ _ Hx) as [Ex _], (node_hit_node _ _ _ Hy) as [Ey _].
    apply (elem_of_Permutation_proper _ _ _ Hperm) in Hn1, Hn2. rewrite Ex, Ey in Hid. pose proof (NoDup_map_inj node_id nodes n n' Hn Hn1 Hn2 Hid) as ->. congruence.
  - intros h (n & _ & Hh)%Helem. by apply node_hit_node in Hh as [_ ?].
  - intros offset limit Hp. unfold search_with_fts_state.
    rewrite (proj2 (validate_search_Ok nodes (with_page request offset limit)) (conj (with_page_valid _ _ _ _ Hv) Hp)).
    cbn [result_bind]. rewrite Hm. cbn [result_bind].
    set (s0 := {| ss_unknown := ∅; ss_hits := []; ss_eligible := 0 |}).
    change (search_step (with_page request offset limit)) with (search_step request).
    change (sr_query (with_page request offset limit)) with (sr_query request).
    destruct (search_loop request (btree_values m) s0) as (-> & -> & Hu). cbn [app ss_hits s0 ss_eligible].
    set (ranking := sort_search_hits _) in *. eexists. split; [done|].
    assert (Hb : (offset + limit ≤ usize_max)%N).
    { destruct Hp as [[_ H1] H2]. unfold MAX_SEARCH_RESULTS, MAX_SEARCH_OFFSET, usize_max in *. lia. }
    split; cbn; try done.
    + by rewrite skip_take_page.
    + rewrite N.ltb_lt, saturating_add_small by done. lia.
    + by rewrite Hsize.
    + rewrite N.add_0_l. unfold eligible, len. f_equal. apply Permutation_length. by apply filter_perm.
    + intros repo. rewrite bset_elements_elem_of, Hu. setoid_rewrite Helem. cbn [ss_unknown s0].
      setoid_rewrite Hperm. split.
      * intros [Hin|(n & Hin & [h Hh] & Hl)]; [by apply not_elem_of_empty in Hin|]. exists h.
        destruct (node_hit_node _ _ _ Hh) as [-> _]. eauto.
      * intros (h & (n & Hin & Hh) & Hl). right. exists n. destruct (node_hit_node _ _ _ Hh) as [<- _]. eauto.
Qed.

Module Example_search.
(** The tables on ASCII text. *)
#[local] Instance ascii_tables : CharTables := {|
  to_lowercase := λ '(c, s), [(if ((65 <=? c) && (c <=? 90))%N then (c + 32)%N else c, to_ascii_lowercase s)];
  is_alphanumeric := λ c, ((48 <=? c) && (c <=? 57) || (65 <=? c) && (c <=? 90) || (97 <=? c) && (c <=? 122))%N;
|}.

Example normalized : normalize "  Orders_Service--v2!" = "orders service v2".
Proof. vm_compute. reflexivity. Qed.

Definition service (id repo key label : string) : Node :=
  {| node_id := id; node_kind := NK_Service; node_repo_id := Some repo; node_stable_key := key; node_label := label |}.

Definition services : list Node :=
  [service "n3" "r2" "svc:orders-api" "Orders API"; service "n1" "r1" "svc:billing" "Billing";
   service "n2" "r1" "svc:orders" "Orders"].

Definition request (query : string) : SearchRequest :=
  {| sr_query := query;
     sr_filters := {| sf_node_kinds := [NK_Service]; sf_repo_ids := []; sf_workspace_nodes := []; sf_service_ids := [];
                      sf_community_ids := [] |};
     sr_fts_scores := {["n1" := f64_dec 1 4]}; sr_centrality_scores := ∅; sr_service_memberships := ∅;
     sr_community_memberships := ∅; sr_evidence := ∅; sr_freshness := {["r1" := RF_Fresh]}; sr_offset := 0; sr_limit := 10 |}.

Definition page (r : result QueryError SearchReport) : option (list string * bool * list string) :=
  match r with
  | Ok r => Some (map (λ h, node_id (sh_node h)) (srp_hits r), srp_truncated r, sc_freshness_unknown_repositories (srp_coverage r))
  | Err _ => None
  end.

(** An exact label, a prefix, and a full-text match. *)
Example ranking_and_pages :
  page (search services (request "ORDERS")) = Some (["n2"; "n3"; "n1"], false, ["r2"]) ∧
  map (λ o, page (search services (with_page (request "ORDERS") o 2))) [0; 2; 4]%N =
    [Some (["n2"; "n3"], true, ["r2"]); Some (["n1"], false, ["r2"]); Some ([], false, ["r2"])].
Proof. split; vm_compute; reflexivity. Qed.

Lemma search_request_valid : search_valid services (request "orders").
Proof.
  assert (H : is_ok (search_with_fts_state services (request "orders") Fts_Executed) = true) by (vm_compute; reflexivity).
  unfold search_with_fts_state in H.
  destruct (validate_search _ _ _) as [[]|e] eqn:E; [|discriminate H]. by apply validate_search_Ok in E as [? _].
Qed.

Lemma search_pages_witness :
  ∃ ranking report, search_with_fts_state services (with_page (request "orders") 0 2) Fts_Executed = Ok report ∧
    srp_hits report = skip_take 0 2 ranking.
Proof.
  destruct (search_pages services (request "orders") Fts_Executed search_request_valid) as (ranking & _ & _ & _ & Hpages).
  destruct (Hpages 0%N 2%N) as (report & Hr & Hp).
  - unfold page_valid, MAX_SEARCH_RESULTS, MAX_SEARCH_OFFSET. lia.
  - exists ranking, report. split; [exact Hr|apply Hp].
Defined.
End Example_search.
