(* ===== verification/Traversal.v ===== *)
(** * Bounded traversal ([crates/code-system-graph-core/src/query.rs])

    Confirmed paths between two nodes by breadth-first search, by cost, or the
    [k] cheapest, within limits of depth, nodes, edges, repository crossings and
    time. The clock is a parameter: the elapsed time at each reading. *)
From Stdlib Require Import Ascii.
From stdpp Require Import base gmap sets list strings sorting.
From S2P Require Import Prelude RustOrd RustFloat FloatMono RustStr Model Query.

Definition MAX_TRAVERSAL_DEPTH : N := 128.
Definition MAX_TRAVERSAL_NODES : N := 100000.
Definition MAX_TRAVERSAL_EDGES : N := 1000000.
Definition MAX_TRAVERSAL_TIMEOUT_MS : N := 60000.
Definition MAX_K_PATHS : N := 16.
(** [0.01_f64] *)
Definition MIN_CONFIDENCE_FOR_WEIGHT : f64 := Eval vm_compute in f64_div (f64_lit 1 0) (f64_lit 100 0).

(** ** Requests *)
Inductive TraversalAlgorithm := Bfs | Dijkstra | KShortest.
#[export] Instance TraversalAlgorithm_eq_dec : EqDecision TraversalAlgorithm.
Proof. solve_decision. Defined.

Inductive TraversalDirection := Outgoing | Incoming | BothWays.

Record TraversalFilters := {
  tf_edge_kinds : list EdgeKind;
  tf_min_confidence : f64;
  tf_include_tests : bool;
  tf_include_generated_artifacts : bool;
  tf_environment_namespace : option string;
}.

Definition default_filters : TraversalFilters :=
  {| tf_edge_kinds := []; tf_min_confidence := f_zero; tf_include_tests := true;
     tf_include_generated_artifacts := true; tf_environment_namespace := None |}.

Record EdgeKindCost := { ekc_kind : EdgeKind; ekc_cost : f64 }.

Record TraversalOptions := {
  to_algorithm : TraversalAlgorithm;
  to_direction : TraversalDirection;
  to_max_depth : N;
  to_max_cross_repo_hops : N;
  to_node_limit : N;
  to_edge_limit : N;
  to_timeout_ms : N;
  to_k : N;
  to_edge_kind_costs : list EdgeKindCost;
}.

Definition default_options : TraversalOptions :=
  {| to_algorithm := Bfs; to_direction := Outgoing; to_max_depth := 8; to_max_cross_repo_hops := 4;
     to_node_limit := 10000; to_edge_limit := 50000; to_timeout_ms := 1000; to_k := 1; to_edge_kind_costs := [] |}.

Record TraversalRequest := {
  tq_start : NodeId;
  tq_target : NodeId;
  tq_filters : TraversalFilters;
  tq_options : TraversalOptions;
}.

(** ** Reports *)
Inductive PathSegmentScope := Local | CrossRepository.

Record PathSegment := {
  sg_trace : TraceSegment;
  sg_scope : PathSegmentScope;
  sg_reversed : bool;
  sg_weight : f64;
}.

Record TraversalPath := {
  tp_segments : list PathSegment;
  tp_total_weight : f64;
  tp_cross_repo_hops : N;
}.

Record TraversalLimits := {
  tl_max_depth : N;
  tl_max_cross_repo_hops : N;
  tl_node_limit : N;
  tl_edge_limit : N;
  tl_timeout_ms : N;
  tl_max_paths : N;
}.

Record TraversalReport := {
  trv_paths : list TraversalPath;
  trv_frontier : list Node;
  trv_candidate_unresolved_edges : list Edge;
  trv_coverage_gaps : list string;
  trv_truncated : bool;
  trv_visited_nodes : N;
  trv_examined_edges : N;
  trv_limits : TraversalLimits;
}.

(** ** Validation *)
Definition limits_invalid (o : TraversalOptions) : bool :=
  ((to_max_depth o =? 0) || (MAX_TRAVERSAL_DEPTH <? to_max_depth o)
   || (to_node_limit o =? 0) || (MAX_TRAVERSAL_NODES <? to_node_limit o)
   || (to_edge_limit o =? 0) || (MAX_TRAVERSAL_EDGES <? to_edge_limit o)
   || (MAX_TRAVERSAL_TIMEOUT_MS <? to_timeout_ms o)
   || (to_k o =? 0) || (MAX_K_PATHS <? to_k o))%N.

Definition validate_cost (cost_kinds : list EdgeKind) (item : EdgeKindCost) : result QueryError (list EdgeKind) :=
  if negb (f_is_finite (ekc_cost item)) || f_le (ekc_cost item) f_zero || bool_decide (ekc_kind item ∈ cost_kinds)
  then Err (InvalidEdgeCost (ekc_kind item))
  else Ok (cost_kinds ++ [ekc_kind item]).

Definition validate_traversal_request (request : TraversalRequest) : result QueryError unit :=
  let options := tq_options request in
  if limits_invalid options then Err InvalidTraversalLimits
  else if negb (f64_in_unit (tf_min_confidence (tq_filters request))) then Err InvalidMinimumConfidence
  else
    let? _ := try_fold validate_cost [] (to_edge_kind_costs options) in
    Ok tt.

(** ** The graph *)
Record TraversalGraph := {
  tg_nodes : gmap NodeId Node;
  tg_outgoing : gmap NodeId (list Edge);
  tg_incoming : gmap NodeId (list Edge);
}.

Definition validate_endpoint (nodes : gmap NodeId Node) (edge : Edge) (endpoint : NodeId) : result QueryError unit :=
  if contains_key nodes endpoint then Ok tt else Err (QE_DanglingEdge (edge_id edge) endpoint).

Definition validate_graph_edge (edge : Edge) (nodes : gmap NodeId Node) : result QueryError unit :=
  check? validate_endpoint nodes edge (edge_source edge) in
  check? validate_endpoint nodes edge (edge_target edge) in
  if negb (f64_in_unit (f64_from_f32 (edge_confidence edge))) then Err (QE_InvalidEdgeConfidence (edge_id edge))
  else Ok tt.

(** [map.entry(key).or_default().push(edge)] *)
Definition push_adjacent (k : NodeId) (edge : Edge) (m : gmap NodeId (list Edge)) : gmap NodeId (list Edge) :=
  <[k := default [] (m !! k) ++ [edge]]> m.

Record GraphBuild := {
  gb_edge_ids : gset EdgeId;
  gb_outgoing : gmap NodeId (list Edge);
  gb_incoming : gmap NodeId (list Edge);
}.

Definition add_graph_edge (nodes : gmap NodeId Node) (b : GraphBuild) (edge : Edge) : result QueryError GraphBuild :=
  if bool_decide (edge_id edge ∈ gb_edge_ids b) then Err (QE_DuplicateEdge (edge_id edge))
  else
    check? validate_graph_edge edge nodes in
    Ok {| gb_edge_ids := {[edge_id edge]} ∪ gb_edge_ids b;
          gb_outgoing := push_adjacent (edge_source edge) edge (gb_outgoing b);
          gb_incoming := push_adjacent (edge_target edge) edge (gb_incoming b) |}.

Definition edge_id_cmp : Edge → Edge → comparison := cmp_on edge_id cmp.

Definition graph_new (nodes : list Node) (edges : list Edge) : result QueryError TraversalGraph :=
  let? nodes := distinct_nodes nodes in
  let? b := try_fold (add_graph_edge nodes) {| gb_edge_ids := ∅; gb_outgoing := ∅; gb_incoming := ∅ |} edges in
  Ok {| tg_nodes := nodes; tg_outgoing := sort_by edge_id_cmp <$> gb_outgoing b;
        tg_incoming := sort_by edge_id_cmp <$> gb_incoming b |}.

Definition require_anchor (g : TraversalGraph) (v : NodeId) : result QueryError unit :=
  if contains_key (tg_nodes g) v then Ok tt else Err (QE_UnknownAnchor v).

Record Adjacent := { aj_edge : Edge; aj_next : NodeId; aj_reversed : bool }.

Definition adjacent_order : Adjacent → Adjacent → comparison :=
  then_with (cmp_on (λ a, edge_id (aj_edge a)) cmp) (then_with (cmp_on aj_next cmp) (cmp_on aj_reversed cmp)).

Definition same_adjacent (left right : Adjacent) : bool :=
  String.eqb (edge_id (aj_edge left)) (edge_id (aj_edge right)) && String.eqb (aj_next left) (aj_next right)
  && Bool.eqb (aj_reversed left) (aj_reversed right).

Definition takes_outgoing (direction : TraversalDirection) : bool :=
  match direction with Outgoing | BothWays => true | Incoming => false end.
Definition takes_incoming (direction : TraversalDirection) : bool :=
  match direction with Incoming | BothWays => true | Outgoing => false end.

Definition out_adjacent (edge : Edge) : Adjacent := {| aj_edge := edge; aj_next := edge_target edge; aj_reversed := false |}.
Definition in_adjacent (edge : Edge) : Adjacent := {| aj_edge := edge; aj_next := edge_source edge; aj_reversed := true |}.

Definition adjacent (g : TraversalGraph) (v : NodeId) (direction : TraversalDirection) : list Adjacent :=
  let result :=
    (if takes_outgoing direction then map out_adjacent (default [] (tg_outgoing g !! v)) else [])
    ++ (if takes_incoming direction then map in_adjacent (default [] (tg_incoming g !! v)) else []) in
  dedup_by same_adjacent (sort_by adjacent_order result).

(** ** States of the search *)
Record PathState := {
  ps_nodes : list NodeId;
  ps_steps : list Adjacent;
  ps_total_weight : f64;
  ps_cross_repo_hops : N;
}.

Definition path_start (v : NodeId) : PathState :=
  {| ps_nodes := [v]; ps_steps := []; ps_total_weight := f_zero; ps_cross_repo_hops := 0 |}.

Definition current (s : PathState) : option NodeId := last (ps_nodes s).

Definition contains (s : PathState) (v : NodeId) : bool := bool_decide (v ∈ ps_nodes s).

Definition extended (s : PathState) (a : Adjacent) (weight : f64) (cross_repo : bool) : PathState :=
  {| ps_nodes := ps_nodes s ++ [aj_next a]; ps_steps := ps_steps s ++ [a];
     ps_total_weight := f64_add (ps_total_weight s) weight;
     ps_cross_repo_hops := (ps_cross_repo_hops s + if cross_repo then 1 else 0)%N |}.

(** The elapsed time, in nanoseconds, at the n-th reading of the clock. *)
Class Clock := elapsed : nat → N.

Record TraversalRuntime := {
  rt_readings : nat;
  rt_timeout : N;
  rt_observed_nodes : gset NodeId;
  rt_examined_edges : N;
  rt_candidate_edges : gmap EdgeId Edge;
  rt_frontier_depth : N;
  rt_frontier : gset NodeId;
  rt_coverage_gaps : gset string;
  rt_truncated : bool;
}.

Definition runtime_new (request : TraversalRequest) : TraversalRuntime :=
  {| rt_readings := 0; rt_timeout := to_timeout_ms (tq_options request) * 1000000;
     rt_observed_nodes := {[tq_start request]}; rt_examined_edges := 0; rt_candidate_edges := ∅;
     rt_frontier_depth := 0; rt_frontier := {[tq_start request]}; rt_coverage_gaps := ∅; rt_truncated := false |}.

(** ** The runtime *)
Definition insert_gap (gap : string) (rt : TraversalRuntime) : TraversalRuntime :=
  {| rt_readings := rt_readings rt; rt_timeout := rt_timeout rt; rt_observed_nodes := rt_observed_nodes rt;
     rt_examined_edges := rt_examined_edges rt; rt_candidate_edges := rt_candidate_edges rt;
     rt_frontier_depth := rt_frontier_depth rt; rt_frontier := rt_frontier rt;
     rt_coverage_gaps := {[gap]} ∪ rt_coverage_gaps rt; rt_truncated := rt_truncated rt |}.

(** [self.truncated = true; self.coverage_gaps.insert(gap)] *)
Definition truncate (gap : string) (rt : TraversalRuntime) : TraversalRuntime :=
  {| rt_readings := rt_readings rt; rt_timeout := rt_timeout rt; rt_observed_nodes := rt_observed_nodes rt;
     rt_examined_edges := rt_examined_edges rt; rt_candidate_edges := rt_candidate_edges rt;
     rt_frontier_depth := rt_frontier_depth rt; rt_frontier := rt_frontier rt;
     rt_coverage_gaps := {[gap]} ∪ rt_coverage_gaps rt; rt_truncated := true |}.

Definition timeout_gap : string := "Traversal stopped at the timeout bound.".
Definition edge_gap : string := "Traversal stopped at the edge limit.".
Definition node_gap : string := "Traversal stopped at the node limit.".
Definition depth_gap : string := "Traversal stopped at the depth limit.".
Definition cross_repo_gap : string := "A path branch exceeded the cross-repository hop limit.".

Definition read_clock (rt : TraversalRuntime) : TraversalRuntime :=
  {| rt_readings := S (rt_readings rt); rt_timeout := rt_timeout rt; rt_observed_nodes := rt_observed_nodes rt;
     rt_examined_edges := rt_examined_edges rt; rt_candidate_edges := rt_candidate_edges rt;
     rt_frontier_depth := rt_frontier_depth rt; rt_frontier := rt_frontier rt;
     rt_coverage_gaps := rt_coverage_gaps rt; rt_truncated := rt_truncated rt |}.

Definition timed_out `{Clock} (rt : TraversalRuntime) : bool * TraversalRuntime :=
  if (rt_timeout rt <=? elapsed (rt_readings rt))%N then (true, truncate timeout_gap (read_clock rt))
  else (false, read_clock rt).

Definition examine_edge (edge_limit : N) (rt : TraversalRuntime) : bool * TraversalRuntime :=
  if (edge_limit <=? rt_examined_edges rt)%N then (false, truncate edge_gap rt)
  else
    (true,
     {| rt_readings := rt_readings rt; rt_timeout := rt_timeout rt; rt_observed_nodes := rt_observed_nodes rt;
        rt_examined_edges := rt_examined_edges rt + 1; rt_candidate_edges := rt_candidate_edges rt;
        rt_frontier_depth := rt_frontier_depth rt; rt_frontier := rt_frontier rt;
        rt_coverage_gaps := rt_coverage_gaps rt; rt_truncated := rt_truncated rt |}).

Definition observe_node (v : NodeId) (node_limit : N) (rt : TraversalRuntime) : bool * TraversalRuntime :=
  if bool_decide (v ∈ rt_observed_nodes rt) then (true, rt)
  else if (node_limit <=? N.of_nat (size (rt_observed_nodes rt)))%N then (false, truncate node_gap rt)
  else
    (true,
     {| rt_readings := rt_readings rt; rt_timeout := rt_timeout rt; rt_observed_nodes := {[v]} ∪ rt_observed_nodes rt;
        rt_examined_edges := rt_examined_edges rt; rt_candidate_edges := rt_candidate_edges rt;
        rt_frontier_depth := rt_frontier_depth rt; rt_frontier := rt_frontier rt;
        rt_coverage_gaps := rt_coverage_gaps rt; rt_truncated := rt_truncated rt |}).

Definition with_frontier (depth : N) (frontier : gset NodeId) (rt : TraversalRuntime) : TraversalRuntime :=
  {| rt_readings := rt_readings rt; rt_timeout := rt_timeout rt; rt_observed_nodes := rt_observed_nodes rt;
     rt_examined_edges := rt_examined_edges rt; rt_candidate_edges := rt_candidate_edges rt;
     rt_frontier_depth := depth; rt_frontier := frontier; rt_coverage_gaps := rt_coverage_gaps rt;
     rt_truncated := rt_truncated rt |}.

Definition record_frontier (v : NodeId) (depth : N) (rt : TraversalRuntime) : TraversalRuntime :=
  match (depth ?= rt_frontier_depth rt)%N with
  | Gt => with_frontier depth {[v]} rt
  | Eq => with_frontier (rt_frontier_depth rt) ({[v]} ∪ rt_frontier rt) rt
  | Lt => rt
  end.

Definition record_candidate (edge : Edge) (rt : TraversalRuntime) : TraversalRuntime :=
  {| rt_readings := rt_readings rt; rt_timeout := rt_timeout rt; rt_observed_nodes := rt_observed_nodes rt;
     rt_examined_edges := rt_examined_edges rt;
     rt_candidate_edges := <[edge_id edge := default edge (rt_candidate_edges rt !! edge_id edge)]> (rt_candidate_edges rt);
     rt_frontier_depth := rt_frontier_depth rt; rt_frontier := rt_frontier rt;
     rt_coverage_gaps := rt_coverage_gaps rt; rt_truncated := rt_truncated rt |}.

(** ** Filters and costs *)
Definition edge_passes_filters (edge : Edge) (filters : TraversalFilters) : bool :=
  (is_empty_list (tf_edge_kinds filters) || bool_decide (edge_kind edge ∈ tf_edge_kinds filters))
  && f_le (tf_min_confidence filters) (f64_from_f32 (edge_confidence edge)).

(** [s.splitn(n, sep)] *)
Fixpoint splitn (n : nat) (sep s : string) : list string :=
  match n with
  | 0 => []
  | 1 => [s]
  | S n' => match split_once sep s with Some (part, rest) => part :: splitn n' sep rest | None => [s] end
  end.

Definition deployment_namespace (stable_key : string) : option string :=
  match splitn 4 ":" stable_key with
  | prefix :: _technology :: namespace :: _name :: _ =>
      if negb (String.eqb prefix "deployment") then None
      else if String.eqb namespace "" then None else Some namespace
  | _ => None
  end.

Definition backslash_to_slash (c : Ascii.ascii) : Ascii.ascii := if Ascii.eqb c "\"%char then "/"%char else c.
Fixpoint map_chars (f : Ascii.ascii → Ascii.ascii) (s : string) : string :=
  match s with EmptyString => EmptyString | String c s' => String (f c) (map_chars f s') end.

Definition generated_markers : list string :=
  ["/generated/"; "/target/"; "/dist/"; "/build/"; "/vendor/"; ".generated."; "_generated."; "/gen/"].

Definition is_generated_artifact (node : Node) : bool :=
  let key := map_chars backslash_to_slash (to_ascii_lowercase (node_stable_key node)) in
  existsb (λ marker, contains_str marker key) generated_markers.

Definition namespace_gap (node : Node) : string :=
  "Deployment `" +:+ node_id node +:+ "` has no representable environment namespace.".

Definition node_passes_filters (g : TraversalGraph) (v : NodeId) (filters : TraversalFilters) (rt : TraversalRuntime)
    : bool * TraversalRuntime :=
  match tg_nodes g !! v with
  | None => (false, rt)
  | Some node =>
      if negb (tf_include_tests filters) && bool_decide (node_kind node = NK_TestCase) then (false, rt)
      else if negb (tf_include_generated_artifacts filters) && bool_decide (node_kind node = NK_Artifact)
              && is_generated_artifact node then (false, rt)
      else
        match tf_environment_namespace filters with
        | None => (true, rt)
        | Some namespace =>
            if negb (bool_decide (node_kind node = NK_Deployment)) then (true, rt)
            else
              match deployment_namespace (node_stable_key node) with
              | Some candidate => (String.eqb candidate namespace, rt)
              | None => (false, insert_gap (namespace_gap node) rt)
              end
        end
  end.

Definition segment_is_cross_repo (g : TraversalGraph) (source target : NodeId) : result QueryError bool :=
  let? source_node := ok_or (tg_nodes g !! source) (QE_InconsistentPath source) in
  let? target_node := ok_or (tg_nodes g !! target) (QE_InconsistentPath target) in
  Ok (negb (bool_decide (node_repo_id source_node = node_repo_id target_node))).

Definition edge_weight (edge : Edge) (options : TraversalOptions) : result QueryError f64 :=
  let base :=
    match List.find (λ item, bool_decide (ekc_kind item = edge_kind edge)) (to_edge_kind_costs options) with
    | Some item => ekc_cost item
    | None => f64_one
    end in
  let confidence := f_max (f64_from_f32 (edge_confidence edge)) MIN_CONFIDENCE_FOR_WEIGHT in
  let weight := f64_div base confidence in
  if f_is_finite weight && f_lt f_zero weight then Ok weight else Err (InvalidEdgeCost (edge_kind edge)).

(** ** Paths *)
Fixpoint materialize_segments (g : TraversalGraph) (request : TraversalRequest) (nodes : list NodeId) (index : nat)
    (steps : list Adjacent) : result QueryError (list PathSegment) :=
  match steps with
  | [] => Ok []
  | step :: steps =>
      let? source_id := ok_or (nodes !! index) (QE_InconsistentPath (tq_start request)) in
      let? target_id := ok_or (nodes !! (index + 1)) (QE_InconsistentPath (tq_target request)) in
      let? source := ok_or (tg_nodes g !! source_id) (QE_InconsistentPath source_id) in
      let? target := ok_or (tg_nodes g !! target_id) (QE_InconsistentPath target_id) in
      let? weight := edge_weight (aj_edge step) (tq_options request) in
      let? rest := materialize_segments g request nodes (index + 1) steps in
      Ok ({| sg_trace := {| seg_source := source; seg_edge := aj_edge step; seg_target := target |};
             sg_scope := if bool_decide (node_repo_id source = node_repo_id target) then Local else CrossRepository;
             sg_reversed := aj_reversed step; sg_weight := weight |} :: rest)
  end.

Definition materialize_path (g : TraversalGraph) (s : PathState) (request : TraversalRequest)
    : result QueryError TraversalPath :=
  let? segments := materialize_segments g request (ps_nodes s) 0 (ps_steps s) in
  Ok {| tp_segments := segments; tp_total_weight := ps_total_weight s; tp_cross_repo_hops := ps_cross_repo_hops s |}.

Definition path_state_order : PathState → PathState → comparison :=
  then_with (cmp_on ps_total_weight f_total_cmp)
  (then_with (cmp_on ps_nodes cmp)
  (then_with (cmp_on (λ s, map (λ step, edge_id (aj_edge step)) (ps_steps s)) cmp)
             (cmp_on (λ s, map aj_reversed (ps_steps s)) cmp))).

Definition path_order : TraversalPath → TraversalPath → comparison :=
  then_with (cmp_on tp_total_weight f_total_cmp)
  (then_with (cmp_on (λ p, length (tp_segments p)) cmp)
  (then_with (cmp_on (λ p, map (λ s, edge_id (seg_edge (sg_trace s))) (tp_segments p)) cmp)
             (cmp_on (λ p, map (λ s, node_id (seg_target (sg_trace s))) (tp_segments p)) cmp))).

Definition select_best_state (candidates : list PathState) : nat :=
  foldl (λ best index,
    match candidates !! index, candidates !! best with
    | Some candidate, Some incumbent => match path_state_order candidate incumbent with Lt => index | _ => best end
    | _, _ => best
    end) 0%nat (seq 1 (length candidates - 1)).

(** ** The searches *)
Section search.
Context `{Clock} (g : TraversalGraph) (request : TraversalRequest).
Let options := tq_options request.
Let filters := tq_filters request.

(** The [for adjacent in ...] loop of both expansions, which push to [queue]. *)
Fixpoint expand_edges (s : PathState) (v : NodeId) (entries : list Adjacent) (rt : TraversalRuntime)
    (queue : list PathState) : result QueryError (TraversalRuntime * list PathState) :=
  match entries with
  | [] => Ok (rt, queue)
  | a :: rest =>
      let '(late, rt) := timed_out rt in
      if late then Ok (rt, queue)
      else
        let '(examined, rt) := examine_edge (to_edge_limit options) rt in
        if negb examined then Ok (rt, queue)
        else if negb (edge_passes_filters (aj_edge a) filters) then expand_edges s v rest rt queue
        else if negb (bool_decide (edge_status (aj_edge a) = Confirmed)) then
          expand_edges s v rest (record_candidate (aj_edge a) rt) queue
        else if contains s (aj_next a) then expand_edges s v rest rt queue
        else
          let '(passes, rt) := node_passes_filters g (aj_next a) filters rt in
          if negb passes then expand_edges s v rest rt queue
          else
            match segment_is_cross_repo g v (aj_next a) with
            | Err e => Err e
            | Ok cross_repo =>
                if (to_max_cross_repo_hops options <? ps_cross_repo_hops s + if cross_repo then 1 else 0)%N then
                  expand_edges s v rest (truncate cross_repo_gap rt) queue
                else
                  let '(observed, rt) := observe_node (aj_next a) (to_node_limit options) rt in
                  if negb observed then expand_edges s v rest rt queue
                  else
                    match edge_weight (aj_edge a) options with
                    | Err e => Err e
                    | Ok weight => expand_edges s v rest rt (queue ++ [extended s a weight cross_repo])
                    end
            end
  end.

Definition expand_state (s : PathState) (rt : TraversalRuntime) (queue : list PathState)
    : result QueryError (TraversalRuntime * list PathState) :=
  match current s with
  | None => Ok (rt, queue)
  | Some v => expand_edges s v (adjacent g v (to_direction options)) rt queue
  end.

Definition expand_bfs_state := expand_state.
Definition expand_weighted_state := expand_state.

(** [while let Some(state) = queue.pop_front()]; [None] when the fuel runs out. *)
Fixpoint bfs_loop (fuel : nat) (rt : TraversalRuntime) (queue : list PathState)
    : option (result QueryError (TraversalRuntime * list TraversalPath)) :=
  match fuel with
  | 0 => None
  | S fuel' =>
      match queue with
      | [] => Some (Ok (rt, []))
      | s :: queue =>
          let '(late, rt) := timed_out rt in
          if late then Some (Ok (rt, []))
          else
            match current s with
            | None => bfs_loop fuel' rt queue
            | Some v =>
                let rt := record_frontier v (len (ps_steps s)) rt in
                if String.eqb v (tq_target request) then
                  match materialize_path g s request with
                  | Err e => Some (Err e)
                  | Ok path => Some (Ok (rt, [path]))
                  end
                else if (to_max_depth options <=? len (ps_steps s))%N then
                  bfs_loop fuel' (truncate depth_gap rt) queue
                else
                  match expand_bfs_state s rt queue with
                  | Err e => Some (Err e)
                  | Ok (rt, queue) =>
                      if rt_truncated rt && is_empty_list queue then Some (Ok (rt, [])) else bfs_loop fuel' rt queue
                  end
            end
      end
  end.

(** [while !candidates.is_empty() && paths.len() < wanted] *)
Fixpoint weighted_loop (wanted : N) (fuel : nat) (rt : TraversalRuntime) (candidates : list PathState)
    (paths : list TraversalPath) : option (result QueryError (TraversalRuntime * list TraversalPath)) :=
  match fuel with
  | 0 => None
  | S fuel' =>
      if is_empty_list candidates || (wanted <=? len paths)%N then Some (Ok (rt, paths))
      else
        let '(late, rt) := timed_out rt in
        if late then Some (Ok (rt, paths))
        else
          let selected := select_best_state candidates in
          match candidates !! selected with
          | None => None
          | Some s =>
              let candidates := delete selected candidates in
              match current s with
              | None => weighted_loop wanted fuel' rt candidates paths
              | Some v =>
                  let rt := record_frontier v (len (ps_steps s)) rt in
                  if String.eqb v (tq_target request) then
                    match materialize_path g s request with
                    | Err e => Some (Err e)
                    | Ok path => weighted_loop wanted fuel' rt candidates (paths ++ [path])
                    end
                  else if (to_max_depth options <=? len (ps_steps s))%N then
                    weighted_loop wanted fuel' (truncate depth_gap rt) candidates paths
                  else
                    match expand_weighted_state s rt candidates with
                    | Err e => Some (Err e)
                    | Ok (rt, candidates) => weighted_loop wanted fuel' rt candidates paths
                    end
              end
          end
  end.

(** Every state but the first was examined, within the edge limit. *)
Definition search_fuel : nat := S (S (N.to_nat (to_edge_limit options))).

Definition bfs (rt : TraversalRuntime) : option (result QueryError (TraversalRuntime * list TraversalPath)) :=
  bfs_loop search_fuel rt [path_start (tq_start request)].

Definition weighted_paths (wanted : N) (rt : TraversalRuntime)
    : option (result QueryError (TraversalRuntime * list TraversalPath)) :=
  match weighted_loop wanted search_fuel rt [path_start (tq_start request)] [] with
  | Some (Ok (rt, paths)) => Some (Ok (rt, sort_by path_order paths))
  | r => r
  end.
End search.

(** ** The report *)
Definition no_path_gap : string := "No confirmed path was observed within available coverage and bounds.".
Definition candidates_gap : string := "Unresolved candidate edges were excluded from confirmed paths.".

Definition frontier_node (g : TraversalGraph) (v : NodeId) : result QueryError Node :=
  ok_or (tg_nodes g !! v) (QE_InconsistentPath v).

Definition frontier_nodes (g : TraversalGraph) (ids : list NodeId) : result QueryError (list Node) :=
  try_fold (λ nodes v, let? node := frontier_node g v in Ok (nodes ++ [node])) [] ids.

Definition build_traversal_report (g : TraversalGraph) (request : TraversalRequest) (rt : TraversalRuntime)
    (paths : list TraversalPath) : result QueryError TraversalReport :=
  let options := tq_options request in
  let rt := if is_empty_list paths then insert_gap no_path_gap rt else rt in
  let rt := if negb (bool_decide (rt_candidate_edges rt = ∅)) then insert_gap candidates_gap rt else rt in
  let? frontier := frontier_nodes g (bset_elements (rt_frontier rt)) in
  Ok {| trv_paths := paths; trv_frontier := frontier;
        trv_candidate_unresolved_edges := btree_values (rt_candidate_edges rt);
        trv_coverage_gaps := bset_elements (rt_coverage_gaps rt);
        trv_truncated := rt_truncated rt;
        trv_visited_nodes := N.of_nat (size (rt_observed_nodes rt));
        trv_examined_edges := rt_examined_edges rt;
        trv_limits :=
          {| tl_max_depth := to_max_depth options; tl_max_cross_repo_hops := to_max_cross_repo_hops options;
             tl_node_limit := to_node_limit options; tl_edge_limit := to_edge_limit options;
             tl_timeout_ms := to_timeout_ms options;
             tl_max_paths := if bool_decide (to_algorithm options = KShortest) then to_k options else 1 |} |}.

(** [None] only when the fuel of a search runs out. *)
Definition traverse `{Clock} (nodes : list Node) (edges : list Edge) (request : TraversalRequest)
    : option (result QueryError TraversalReport) :=
  match
    (check? validate_traversal_request request in
     let? graph := graph_new nodes edges in
     check? require_anchor graph (tq_start request) in
     check? require_anchor graph (tq_target request) in
     Ok graph)
  with
  | Err e => Some (Err e)
  | Ok graph =>
      let rt := runtime_new request in
      let found :=
        if String.eqb (tq_start request) (tq_target request) then
          Some (Ok (rt, [{| tp_segments := []; tp_total_weight := f_zero; tp_cross_repo_hops := 0 |}]))
        else
          match to_algorithm (tq_options request) with
          | Bfs => bfs graph request rt
          | Dijkstra => weighted_paths graph request 1 rt
          | KShortest => weighted_paths graph request (to_k (tq_options request)) rt
          end in
      match found with
      | None => None
      | Some (Err e) => Some (Err e)
      | Some (Ok (rt, paths)) => Some (build_traversal_report graph request rt paths)
      end
  end.
