(* ===== verification/TraversalSpec.v ===== *)
(** * Bounded traversal: specification

    Routes of the graph, the refinement of the two searches to them, and the
    theorems about [traverse]. *)
From Stdlib Require Import SpecFloat.
From stdpp Require Import base gmap sets list strings sorting.
From S2P Require Import Prelude RustOrd RustFloat FloatMono RustStr Model Query Traversal.

(** ** The graph *)
Definition edge_valid (nodes : gmap NodeId Node) (e : Edge) : Prop :=
  is_Some (nodes !! edge_source e) ∧ is_Some (nodes !! edge_target e) ∧ f64_in_unit (f64_from_f32 (edge_confidence e)) = true.

Definition out_edges (edges : list Edge) (v : NodeId) : list Edge := List.filter (λ e, String.eqb (edge_source e) v) edges.
Definition in_edges (edges : list Edge) (v : NodeId) : list Edge := List.filter (λ e, String.eqb (edge_target e) v) edges.

Record graph_of (nodes : list Node) (edges : list Edge) (g : TraversalGraph) : Prop := {
  go_nodes : distinct_nodes nodes = Ok (tg_nodes g);
  go_ids : NoDup (map edge_id edges);
  go_edges : ∀ e, e ∈ edges → edge_valid (tg_nodes g) e;
  go_out : ∀ v, default [] (tg_outgoing g !! v) ≡ₚ out_edges edges v;
  go_in : ∀ v, default [] (tg_incoming g !! v) ≡ₚ in_edges edges v;
}.

Lemma validate_graph_edge_Ok e nodes : validate_graph_edge e nodes = Ok tt ↔ edge_valid nodes e.
Proof.
  unfold validate_graph_edge, validate_endpoint, edge_valid. rewrite !check_Ok.
  rewrite <-!contains_key_true. destruct (contains_key _ _), (contains_key _ _), (f64_in_unit _); simpl; naive_solver.
Qed.

Lemma push_adjacent_default k e m v :
  default [] (push_adjacent k e m !! v) = default [] (m !! v) ++ if String.eqb k v then [e] else [].
Proof.
  unfold push_adjacent. destruct (String.eqb_spec k v) as [->|Hne].
  - by rewrite lookup_insert_eq.
  - by rewrite lookup_insert_ne, app_nil_r.
Qed.

Lemma build_edges nodes edges b :
  try_fold (add_graph_edge nodes) {| gb_edge_ids := ∅; gb_outgoing := ∅; gb_incoming := ∅ |} edges = Ok b ↔
  (NoDup (map edge_id edges) ∧ ∀ e, e ∈ edges → edge_valid nodes e) ∧
  b = {| gb_edge_ids := list_to_set (rev (map edge_id edges));
         gb_outgoing := foldl (λ m e, push_adjacent (edge_source e) e m) ∅ edges;
         gb_incoming := foldl (λ m e, push_adjacent (edge_target e) e m) ∅ edges |}.
Proof.
  revert b. induction edges as [|e edges IH] using rev_ind; intros b.
  { simpl. split; [intros [= <-]; split; [split; [constructor|set_solver]|done]|by intros [_ ->]]. }
  rewrite try_fold_app, result_bind_Ok, map_app, NoDup_app, !foldl_app, rev_app_distr. cbn [map try_fold foldl rev app].
  setoid_rewrite result_bind_Ok. cbn [list_to_set foldr].
  setoid_rewrite list_elem_of_singleton. setoid_rewrite elem_of_app. setoid_rewrite list_elem_of_singleton.
  assert (Hids : ∀ x, x ∈ (list_to_set (rev (map edge_id edges)) : gset string) ↔ x ∈ map edge_id edges).
  { intros x. by rewrite elem_of_list_to_set, list_elem_of_In, <-in_rev, <-list_elem_of_In. }
  split.
  - intros (b0 & [[Hnd Hok] ->]%IH & b1 & Hin & [= <-]). unfold add_graph_edge in Hin. cbn [gb_edge_ids] in Hin.
    case_bool_decide as Hd; [done|]. rewrite check_Ok, validate_graph_edge_Ok in Hin. destruct Hin as [Hv [= <-]].
    split; [|done]. split; [|naive_solver]. split_and!; [done| |apply NoDup_singleton].
    intros x Hx ->. by rewrite Hids in Hd.
  - intros [[(Hnd & Hdis & _) Hok] ->]. eexists. split; [apply IH; eauto|]. unfold add_graph_edge. cbn [gb_edge_ids].
    rewrite bool_decide_eq_false_2 by (rewrite Hids; naive_solver).
    eexists. split; [|done]. rewrite check_Ok, validate_graph_edge_Ok. split; [naive_solver|done].
Qed.

Lemma pushed_edges (key : Edge → NodeId) edges v :
  default [] (foldl (λ m e, push_adjacent (key e) e m) ∅ edges !! v) = List.filter (λ e, String.eqb (key e) v) edges.
Proof.
  induction edges as [|e edges IH] using rev_ind; [done|].
  rewrite foldl_app, List.filter_app. cbn [foldl List.filter]. by rewrite push_adjacent_default, IH.
Qed.

Lemma default_fmap_sort (m : gmap NodeId (list Edge)) v :
  default [] ((sort_by edge_id_cmp <$> m) !! v) ≡ₚ default [] (m !! v).
Proof. rewrite lookup_fmap. destruct (m !! v); simpl; [apply sort_by_perm|done]. Qed.

Lemma graph_new_Ok nodes edges g : graph_new nodes edges = Ok g → graph_of nodes edges g.
Proof.
  unfold graph_new. rewrite result_bind_Ok. intros (m & Hm & H). rewrite result_bind_Ok in H.
  destruct H as (b & [[Hids Hok] ->]%build_edges & [= <-]). split; simpl; try done.
  - intros v. by rewrite default_fmap_sort, (pushed_edges edge_source).
  - intros v. by rewrite default_fmap_sort, (pushed_edges edge_target).
Qed.

(** A graph is built exactly when identifiers are distinct and edges valid. *)
Lemma graph_new_valid nodes edges :
  (∃ g, graph_new nodes edges = Ok g) ↔
  NoDup (map node_id nodes) ∧ NoDup (map edge_id edges) ∧
  ∀ e, e ∈ edges → edge_valid (btree_collect (map (λ n, (node_id n, n)) nodes)) e.
Proof.
  unfold graph_new. setoid_rewrite result_bind_Ok. split.
  - intros (g & m & [Hnd ->]%distinct_nodes_Ok & H). rewrite result_bind_Ok in H. destruct H as (b & [[? ?] _]%build_edges & _). done.
  - intros (Hn & Hi & He). eexists _, _. split; [by apply distinct_nodes_Ok|]. apply result_bind_Ok. eexists.
    split; [by apply build_edges|done].
Qed.

(** ** Adjacency *)
Definition incident (edges : list Edge) (direction : TraversalDirection) (v : NodeId) (a : Adjacent) : Prop :=
  ∃ e, e ∈ edges ∧
    (takes_outgoing direction = true ∧ edge_source e = v ∧ a = out_adjacent e
     ∨ takes_incoming direction = true ∧ edge_target e = v ∧ a = in_adjacent e).

Section adjacency.
Context (nodes : list Node) (edges : list Edge) (g : TraversalGraph) (Hg : graph_of nodes edges g).

Lemma edge_id_inj e e' : e ∈ edges → e' ∈ edges → edge_id e = edge_id e' → e = e'.
Proof using Hg.
  destruct Hg as [_ Hids _ _ _]. clear Hg. revert Hids. induction edges as [|x l IH]; [set_solver|].
  cbn [map]. rewrite NoDup_cons. intros [Hx Hnd] [->|He]%elem_of_cons [->|He']%elem_of_cons Hid; [done| | |by apply IH].
  - destruct Hx. rewrite Hid. by apply list_elem_of_In, in_map, list_elem_of_In.
  - destruct Hx. rewrite <-Hid. by apply list_elem_of_In, in_map, list_elem_of_In.
Qed.

Definition raw_adjacent (v : NodeId) (direction : TraversalDirection) : list Adjacent :=
  (if takes_outgoing direction then map out_adjacent (default [] (tg_outgoing g !! v)) else [])
  ++ (if takes_incoming direction then map in_adjacent (default [] (tg_incoming g !! v)) else []).

Lemma raw_adjacent_elem v direction a : a ∈ raw_adjacent v direction ↔ incident edges direction v a.
Proof using Hg.
  unfold raw_adjacent, incident. rewrite elem_of_app.
  assert (Ho : a ∈ map out_adjacent (default [] (tg_outgoing g !! v)) ↔ ∃ e, e ∈ edges ∧ edge_source e = v ∧ a = out_adjacent e).
  { rewrite list_elem_of_In, in_map_iff. setoid_rewrite <-list_elem_of_In. setoid_rewrite (go_out _ _ _ Hg).
    unfold out_edges. setoid_rewrite list_filter_In. setoid_rewrite String.eqb_eq. naive_solver. }
  assert (Hi : a ∈ map in_adjacent (default [] (tg_incoming g !! v)) ↔ ∃ e, e ∈ edges ∧ edge_target e = v ∧ a = in_adjacent e).
  { rewrite list_elem_of_In, in_map_iff. setoid_rewrite <-list_elem_of_In. setoid_rewrite (go_in _ _ _ Hg).
    unfold in_edges. setoid_rewrite list_filter_In. setoid_rewrite String.eqb_eq. naive_solver. }
  destruct (takes_outgoing direction), (takes_incoming direction); rewrite ?Ho, ?Hi, ?elem_of_nil; naive_solver.
Qed.

Lemma same_adjacent_eq v direction a b :
  incident edges direction v a → incident edges direction v b → same_adjacent a b = true → a = b.
Proof using Hg.
  unfold same_adjacent. rewrite !andb_true_iff, !String.eqb_eq, Bool.eqb_true_iff.
  intros (e & He & Ha) (e' & He' & Hb) [[Hid Hn] Hr].
  assert (aj_edge a = e ∧ aj_edge b = e') as [Ea Eb] by (naive_solver).
  rewrite Ea, Eb in Hid. pose proof (edge_id_inj e e' He He' Hid) as <-.
  destruct a as [ea na ra], b as [eb nb rb]. simpl in *. by subst.
Qed.

Lemma adjacent_elem v direction a : a ∈ adjacent g v direction ↔ incident edges direction v a.
Proof using Hg.
  unfold adjacent. fold (raw_adjacent v direction). rewrite dedup_by_elem_of.
  - by rewrite sort_by_elem_of, raw_adjacent_elem.
  - intros y z. rewrite !sort_by_elem_of, !raw_adjacent_elem. apply same_adjacent_eq.
Qed.

Lemma incident_next v direction a :
  incident edges direction v a → is_Some (tg_nodes g !! v) ∧ is_Some (tg_nodes g !! aj_next a).
Proof using Hg. intros (e & He & H). destruct (go_edges _ _ _ Hg e He) as (? & ? & _). naive_solver. Qed.
End adjacency.

(** ** Routes

    A route is a loop-free chain of usable relationships from the start. *)
Definition node_eligible (filters : TraversalFilters) (node : Node) : bool :=
  (tf_include_tests filters || negb (bool_decide (node_kind node = NK_TestCase)))
  && (tf_include_generated_artifacts filters || negb (bool_decide (node_kind node = NK_Artifact) && is_generated_artifact node))
  && match tf_environment_namespace filters with
     | None => true
     | Some namespace =>
         negb (bool_decide (node_kind node = NK_Deployment))
         || bool_decide (deployment_namespace (node_stable_key node) = Some namespace)
     end.

Section routes.
Context (nodes : list Node) (edges : list Edge) (request : TraversalRequest).
Let filters := tq_filters request.
Let options := tq_options request.
Let start := tq_start request.

Record usable (v : NodeId) (a : Adjacent) : Prop := {
  us_incident : incident edges (to_direction options) v a;
  us_filters : edge_passes_filters (aj_edge a) filters = true;
  us_confirmed : edge_status (aj_edge a) = Confirmed;
  us_next : ∃ node, node ∈ nodes ∧ node_id node = aj_next a ∧ node_eligible filters node = true;
}.

Definition route_nodes (p : list Adjacent) : list NodeId := start :: map aj_next p.

Definition route_end (p : list Adjacent) : NodeId := match last p with Some a => aj_next a | None => start end.

Inductive route : list Adjacent → Prop :=
| route_start : route []
| route_step p a : route p → usable (route_end p) a → aj_next a ∉ route_nodes p → route (p ++ [a]).

(** The repository of a node, and the crossings along a chain of nodes. *)
Definition repo_of (v : NodeId) : option (option RepoId) :=
  node_repo_id <$> (btree_collect (map (λ n, (node_id n, n)) nodes) : gmap NodeId Node) !! v.

Definition crosses (v w : NodeId) : bool := negb (bool_decide (repo_of v = repo_of w)).

Fixpoint crossings (v : NodeId) (p : list Adjacent) : N :=
  match p with
  | [] => 0
  | a :: p => ((if crosses v (aj_next a) then 1 else 0) + crossings (aj_next a) p)%N
  end.

Definition step_cost (a : Adjacent) : f64 :=
  match edge_weight (aj_edge a) options with Ok w => w | Err _ => S754_infinity false end.

(** The weights of the steps, added from the start. *)
Definition route_weight (p : list Adjacent) : f64 := foldl (λ total a, f64_add total (step_cost a)) f_zero p.

Definition no_heavier (p q : list Adjacent) : Prop := f_total_cmp (route_weight p) (route_weight q) ≠ Gt.

Definition within_bounds (p : list Adjacent) : Prop :=
  (len p ≤ to_max_depth options)%N ∧ (crossings start p ≤ to_max_cross_repo_hops options)%N.

(** The state of the search that has followed a route. *)
Definition route_state (p : list Adjacent) : PathState :=
  {| ps_nodes := route_nodes p; ps_steps := p; ps_total_weight := route_weight p;
     ps_cross_repo_hops := crossings start p |}.

Lemma route_end_snoc p a : route_end (p ++ [a]) = aj_next a.
Proof using. unfold route_end. by rewrite last_snoc. Qed.

Lemma route_nodes_snoc p a : route_nodes (p ++ [a]) = route_nodes p ++ [aj_next a].
Proof using. unfold route_nodes. by rewrite map_app. Qed.

Lemma route_weight_snoc p a : route_weight (p ++ [a]) = f64_add (route_weight p) (step_cost a).
Proof using. unfold route_weight. by rewrite foldl_app. Qed.

Lemma last_route_nodes p : last (route_nodes p) = Some (route_end p).
Proof using.
  induction p as [|a p _] using rev_ind; [done|]. by rewrite route_nodes_snoc, last_snoc, route_end_snoc.
Qed.

Lemma crossings_snoc v p a :
  crossings v (p ++ [a]) =
  (crossings v p + if crosses (match last p with Some b => aj_next b | None => v end) (aj_next a) then 1 else 0)%N.
Proof using.
  revert v. induction p as [|b p IH]; intros v; [simpl; lia|]. cbn [crossings app]. rewrite IH, N.add_assoc.
  do 3 f_equal. rewrite last_cons. by destruct (last p).
Qed.

Lemma crossings_route_snoc p a :
  crossings start (p ++ [a]) = (crossings start p + if crosses (route_end p) (aj_next a) then 1 else 0)%N.
Proof using. apply crossings_snoc. Qed.

Lemma route_snoc_inv p a :
  route (p ++ [a]) → route p ∧ usable (route_end p) a ∧ aj_next a ∉ route_nodes p.
Proof using.
  inversion 1 as [Hn|p' a' Hp Hu Hd Heq]; [by destruct p|]. by apply app_inj_tail in Heq as [-> ->].
Qed.

Lemma route_prefix p q : route (p ++ q) → route p.
Proof using.
  induction q as [|a q IH] using rev_ind; [by rewrite app_nil_r|].
  rewrite app_assoc. intros [H _]%route_snoc_inv. by apply IH.
Qed.

Lemma route_NoDup p : route p → NoDup (route_nodes p).
Proof using.
  induction 1 as [|p a Hp IH Hu Hd]; [apply NoDup_singleton|]. rewrite route_nodes_snoc. apply NoDup_app.
  split; [done|]. split; [|apply NoDup_singleton]. intros x Hx ->%list_elem_of_singleton. done.
Qed.

Lemma route_end_elem p : route_end p ∈ route_nodes p.
Proof using.
  induction p as [|a p _] using rev_ind; [set_solver|]. rewrite route_end_snoc, route_nodes_snoc. set_solver.
Qed.

(** A route does not come back to a node that it has left. *)
Lemma route_end_once p q : route (p ++ q) → route_end (p ++ q) = route_end p → q = [].
Proof using.
  destruct q as [|b q _] using rev_ind; [done|]. rewrite app_assoc. intros (_ & _ & Hd)%route_snoc_inv.
  rewrite route_end_snoc. intros E. destruct Hd. rewrite E. unfold route_nodes. rewrite map_app.
  pose proof (route_end_elem p) as H. unfold route_nodes in H. set_solver.
Qed.

Lemma within_bounds_prefix p q : within_bounds (p ++ q) → within_bounds p.
Proof using.
  unfold within_bounds. induction q as [|a q IH] using rev_ind; [by rewrite app_nil_r|].
  rewrite app_assoc, crossings_route_snoc, len_app. intros [H1 H2]. apply IH. lia.
Qed.

Lemma extended_route p a w cross :
  edge_weight (aj_edge a) options = Ok w → cross = crosses (route_end p) (aj_next a) →
  extended (route_state p) a w cross = route_state (p ++ [a]).
Proof using.
  intros Hw ->. unfold extended, route_state. cbn [ps_nodes ps_steps ps_total_weight ps_cross_repo_hops].
  rewrite route_nodes_snoc, route_weight_snoc, crossings_route_snoc. unfold step_cost. by rewrite Hw.
Qed.

(** ** Weights grow along a route *)
Lemma edge_weight_cost e w : edge_weight e options = Ok w → cost 53 1024 w.
Proof using.
  unfold edge_weight.
  set (base := match List.find _ _ with Some item => _ | None => _ end). set (c := f_max _ _). clearbody base c.
  destruct (f_is_finite _ && _) eqn:E; [|done]. intros [= <-]. apply andb_true_iff in E as [Hf Hp]. unfold f64_div in *.
  destruct base as [[]|[]| |[] m e1], c as [[]|[]| |[] m' e1']; try done; try apply (SFdiv_cost 53 1024); try done.
  all: exfalso; revert Hf Hp; unfold SFdiv; destruct (SFdiv_core_binary _ _ _ _ _ _) as [[? ?] ?]; cbn [xorb];
    unfold binary_round_aux; destruct (shr_fexp _ _ _ _ _); destruct (shr_fexp _ _ _ _ _);
    destruct (shr_m _); try done; by destruct (_ <=? _)%Z.
Qed.

Lemma step_cost_cost a : cost 53 1024 (step_cost a).
Proof using. unfold step_cost. destruct (edge_weight _ _) as [w|e] eqn:E; [by eapply edge_weight_cost|done]. Qed.

Lemma route_weight_cost p : cost 53 1024 (route_weight p).
Proof using.
  induction p as [|a p IH] using rev_ind; [done|]. rewrite route_weight_snoc.
  by apply (SFadd_cost 53 1024); [|apply IH|apply step_cost_cost].
Qed.

Lemma no_heavier_refl p : no_heavier p p.
Proof using. unfold no_heavier. by rewrite f_total_cmp_refl. Qed.

Lemma no_heavier_trans p q r : no_heavier p q → no_heavier q r → no_heavier p r.
Proof using. apply cmp_trans. Qed.

Lemma no_heavier_app p q : no_heavier p (p ++ q).
Proof using.
  induction q as [|a q IH] using rev_ind; [rewrite app_nil_r; apply no_heavier_refl|].
  eapply no_heavier_trans; [exact IH|]. rewrite app_assoc. unfold no_heavier. rewrite route_weight_snoc.
  by apply (SFadd_above 53 1024); [|apply route_weight_cost|apply step_cost_cost].
Qed.
End routes.

(** ** The runtime *)

(** The bounds that lose routes: time, edges and nodes. *)
Definition stopped_early (gaps : gset string) : Prop := timeout_gap ∈ gaps ∨ edge_gap ∈ gaps ∨ node_gap ∈ gaps.

Definition bound_gaps : list string := [timeout_gap; edge_gap; node_gap; depth_gap; cross_repo_gap].

Section runtime.
Context (edges : list Edge) (g : TraversalGraph) (request : TraversalRequest).
Let options := tq_options request.

Record runtime_ok (rt : TraversalRuntime) : Prop := {
  ro_examined : (rt_examined_edges rt ≤ to_edge_limit options)%N;
  ro_observed : (N.of_nat (size (rt_observed_nodes rt)) ≤ to_node_limit options)%N;
  ro_candidates : ∀ i e, rt_candidate_edges rt !! i = Some e → e ∈ edges ∧ edge_status e ≠ Confirmed;
  ro_frontier : ∀ v, v ∈ rt_frontier rt → is_Some (tg_nodes g !! v);
  ro_truncated : rt_truncated rt = false → ∀ gap, gap ∈ bound_gaps → gap ∉ rt_coverage_gaps rt;
}.

Record grows (rt rt' : TraversalRuntime) : Prop := {
  gr_examined : (rt_examined_edges rt ≤ rt_examined_edges rt')%N;
  gr_gaps : rt_coverage_gaps rt ⊆ rt_coverage_gaps rt';
  gr_truncated : rt_truncated rt' = false → rt_truncated rt = false;
}.

#[export] Instance grows_preorder : PreOrder grows.
Proof using.
  split; [intros rt; split; done || lia|].
  intros a b c [] []. split; [lia|set_solver|auto].
Qed.

Lemma grows_stopped rt rt' :
  grows rt rt' → ¬ stopped_early (rt_coverage_gaps rt') → ¬ stopped_early (rt_coverage_gaps rt).
Proof using. unfold stopped_early. intros []. set_solver. Qed.

Lemma truncate_ok gap rt : runtime_ok rt → runtime_ok (truncate gap rt) ∧ grows rt (truncate gap rt).
Proof using. intros []. split; split; simpl; try done; try lia. set_solver. Qed.

Lemma timed_out_ok `{Clock} rt :
  runtime_ok rt →
  let '(late, rt') := timed_out rt in
  runtime_ok rt' ∧ grows rt rt' ∧ rt_examined_edges rt' = rt_examined_edges rt ∧
  (late = true → stopped_early (rt_coverage_gaps rt') ∧ rt_truncated rt' = true).
Proof using.
  intros []. unfold timed_out. destruct (_ <=? _)%N; (split_and!; [split|split| |]); simpl; try done; try lia.
  - set_solver.
  - intros _. split; [|done]. left. set_solver.
Qed.

Lemma examine_edge_ok rt :
  runtime_ok rt →
  let '(examined, rt') := examine_edge (to_edge_limit options) rt in
  runtime_ok rt' ∧ grows rt rt' ∧
  (examined = true → rt_examined_edges rt' = (rt_examined_edges rt + 1)%N) ∧
  (examined = false → stopped_early (rt_coverage_gaps rt') ∧ rt_truncated rt' = true).
Proof using.
  intros []. unfold examine_edge. destruct (N.leb_spec (to_edge_limit options) (rt_examined_edges rt));
    (split_and!; [split|split| |]); simpl; try done; try lia.
  - set_solver.
  - intros _. split; [|done]. right. left. set_solver.
Qed.

Lemma observe_node_ok v rt :
  runtime_ok rt →
  let '(observed, rt') := observe_node v (to_node_limit options) rt in
  runtime_ok rt' ∧ grows rt rt' ∧ rt_examined_edges rt' = rt_examined_edges rt ∧
  (observed = false → stopped_early (rt_coverage_gaps rt') ∧ rt_truncated rt' = true).
Proof using.
  intros Hok. unfold observe_node. case_bool_decide as Hv; [split_and!; done|].
  destruct Hok. destruct (N.leb_spec (to_node_limit options) (N.of_nat (size (rt_observed_nodes rt))));
    (split_and!; [split|split| |]); simpl; try done; try lia.
  - set_solver.
  - intros _. split; [|done]. right. right. set_solver.
  - rewrite size_union by set_solver. rewrite size_singleton. lia.
Qed.

Lemma record_candidate_ok e rt :
  runtime_ok rt → e ∈ edges → edge_status e ≠ Confirmed → runtime_ok (record_candidate e rt) ∧ grows rt (record_candidate e rt).
Proof using.
  intros [] He Hs. split; split; simpl; try done; try lia. intros i e' Hl. apply lookup_insert_Some in Hl as [[_ <-]|[_ Hl]]; [|eauto].
  destruct (rt_candidate_edges rt !! edge_id e) eqn:E; simpl; eauto.
Qed.

Lemma record_frontier_ok v depth rt :
  runtime_ok rt → is_Some (tg_nodes g !! v) → runtime_ok (record_frontier v depth rt) ∧ grows rt (record_frontier v depth rt) ∧
  rt_examined_edges (record_frontier v depth rt) = rt_examined_edges rt.
Proof using.
  intros [] Hv. unfold record_frontier. destruct (_ ?= _)%N; (split_and!; [split|split|]); simpl; try done; try lia.
  - intros w [->%elem_of_singleton|]%elem_of_union; auto.
  - by intros w ->%elem_of_singleton.
Qed.

Lemma namespace_gap_not_bound node : namespace_gap node ∉ bound_gaps.
Proof using. unfold bound_gaps. rewrite !not_elem_of_cons. by split_and!; [..|apply not_elem_of_nil]. Qed.

Lemma insert_gap_ok gap rt :
  runtime_ok rt → gap ∉ bound_gaps → runtime_ok (insert_gap gap rt) ∧ grows rt (insert_gap gap rt).
Proof using.
  intros [] Hgap. split; split; cbn [insert_gap rt_examined_edges rt_observed_nodes rt_candidate_edges rt_frontier
    rt_truncated rt_coverage_gaps]; try done.
  - intros Ht gap' Hg'. rewrite elem_of_union, elem_of_singleton. intros [->|Hin]; [done|]. by apply (ro_truncated0 Ht gap').
  - apply union_subseteq_r.
Qed.

Lemma node_passes_filters_ok v rt :
  runtime_ok rt →
  let '(passes, rt') := node_passes_filters g v (tq_filters request) rt in
  runtime_ok rt' ∧ grows rt rt' ∧ rt_examined_edges rt' = rt_examined_edges rt ∧
  passes = match tg_nodes g !! v with Some node => node_eligible (tq_filters request) node | None => false end.
Proof using.
  intros Hok. unfold node_passes_filters, node_eligible. destruct (tg_nodes g !! v) as [node|]; [|split_and!; done].
  destruct (tf_include_tests _); cbn [negb andb orb];
    [|destruct (bool_decide (node_kind node = NK_TestCase)); cbn [negb andb orb]; [split_and!; done|]].
  all: (destruct (tf_include_generated_artifacts _); cbn [negb andb orb];
    [|destruct (bool_decide (node_kind node = NK_Artifact)), (is_generated_artifact node); cbn [negb andb orb]; try (split_and!; done)]).
  all: destruct (tf_environment_namespace _) as [namespace|]; [|split_and!; done].
  all: destruct (bool_decide (node_kind node = NK_Deployment)); cbn [negb andb orb]; [|split_and!; done].
  all: destruct (deployment_namespace (node_stable_key node)) as [c|];
    [split_and!; try done; destruct (String.eqb_spec c namespace) as [->|Hne]; [by rewrite bool_decide_eq_true_2|by rewrite bool_decide_eq_false_2 by congruence]|].
  all: destruct (insert_gap_ok (namespace_gap node) rt Hok (namespace_gap_not_bound node)); by split_and!.
Qed.
End runtime.

(** ** Expansion of one state *)
Section expansion.
Context `{Clock} (nodes : list Node) (edges : list Edge) (g : TraversalGraph) (request : TraversalRequest).
Context (Hg : graph_of nodes edges g).
Let options := tq_options request.
Local Notation route := (route nodes edges request).
Local Notation route_end := (route_end request).
Local Notation route_nodes := (route_nodes request).
Local Notation route_state := (route_state nodes request).
Local Notation crossings := (crossings nodes (tq_start request)).
Local Notation runtime_ok := (runtime_ok edges g request).

Definition priced (a : Adjacent) : Prop := ∃ w, edge_weight (aj_edge a) options = Ok w.

(** What the expansion of the route [p] over [entries] adds to the queue. *)
Definition expansion (p : list Adjacent) (entries : list Adjacent) (rt : TraversalRuntime) (queue : list PathState)
    (r : result QueryError (TraversalRuntime * list PathState)) : Prop :=
  match r with
  | Err e => ∃ x, x ∈ edges ∧ edge_weight x options = Err e
  | Ok (rt', queue') => ∃ new,
      queue' = queue ++ map (λ a, route_state (p ++ [a])) new ∧ new `sublist_of` entries ∧
      runtime_ok rt' ∧ grows rt rt' ∧ (len new + rt_examined_edges rt ≤ rt_examined_edges rt')%N ∧
      (∀ a, a ∈ new → route (p ++ [a]) ∧ (crossings (p ++ [a]) ≤ to_max_cross_repo_hops options)%N ∧ priced a) ∧
      (¬ stopped_early (rt_coverage_gaps rt') →
        ∀ a, a ∈ entries → route (p ++ [a]) → (crossings (p ++ [a]) ≤ to_max_cross_repo_hops options)%N → a ∈ new) ∧
      (rt_truncated rt' = false → ∀ a, a ∈ entries → route (p ++ [a]) → a ∈ new)
  end.

(** An entry that is passed over is no continuation, or a bound was noted. *)
Lemma expansion_skip p a entries rt rt1 queue r :
  (¬ stopped_early (rt_coverage_gaps rt1) → route (p ++ [a]) →
    (crossings (p ++ [a]) ≤ to_max_cross_repo_hops options)%N → False) →
  (rt_truncated rt1 = false → route (p ++ [a]) → False) →
  grows rt rt1 → expansion p entries rt1 queue r → expansion p (a :: entries) rt queue r.
Proof using.
  intros H1 H2 Hgr. destruct r as [[rt' queue']|e]; [|done].
  intros (new & -> & Hsub & Hok & Hgr' & Hlen & Hnew & Hall & Hall').
  exists new. split_and!; [done|by apply sublist_cons|done|by etrans|destruct Hgr; lia|done| |].
  - intros Hs b [->|Hb]%elem_of_cons Hr Hc; [|by apply Hall]. destruct H1; [by eapply grows_stopped|done..].
  - intros Ht b [->|Hb]%elem_of_cons Hr; [|by apply Hall']. destruct H2; [by eapply gr_truncated|done].
Qed.

(** An entry that is kept is queued with its state. *)
Lemma expansion_keep p a entries rt rt1 queue r :
  route (p ++ [a]) → (crossings (p ++ [a]) ≤ to_max_cross_repo_hops options)%N → priced a →
  grows rt rt1 → (rt_examined_edges rt + 1 ≤ rt_examined_edges rt1)%N →
  expansion p entries rt1 (queue ++ [route_state (p ++ [a])]) r → expansion p (a :: entries) rt queue r.
Proof using.
  intros Hr Hc Hp Hgr Hex. destruct r as [[rt' queue']|e]; [|done].
  intros (new & -> & Hsub & Hok & Hgr' & Hlen & Hnew & Hall & Hall').
  exists (a :: new). split_and!; [by rewrite <-app_assoc|by apply sublist_skip|done|by etrans| | | |].
  - rewrite len_cons. lia.
  - intros b [->|Hb]%elem_of_cons; [done|by apply Hnew].
  - intros Hs b [->|Hb]%elem_of_cons ? ?; [by left|right; by apply Hall].
  - intros Ht b [->|Hb]%elem_of_cons ?; [by left|right; by apply Hall'].
Qed.

(** The loop ends where a bound was noted. *)
Lemma expansion_stop p entries rt rt' queue :
  runtime_ok rt' → grows rt rt' → stopped_early (rt_coverage_gaps rt') ∧ rt_truncated rt' = true →
  expansion p entries rt queue (Ok (rt', queue)).
Proof using.
  clear Hg. intros Hok Hgr [Hs Ht]. exists []. rewrite app_nil_r.
  split_and!; [done|apply sublist_nil_l|done|done|rewrite len_nil; destruct Hgr; lia|set_solver|done|congruence].
Qed.

Lemma node_lookup v n : tg_nodes g !! v = Some n ↔ n ∈ nodes ∧ node_id n = v.
Proof using Hg. apply distinct_nodes_lookup, (go_nodes _ _ _ Hg). Qed.

Lemma repo_of_lookup v : repo_of nodes v = node_repo_id <$> tg_nodes g !! v.
Proof using Hg. unfold repo_of. by destruct (proj1 (distinct_nodes_Ok _ _) (go_nodes _ _ _ Hg)) as [_ <-]. Qed.

Lemma segment_crosses v w :
  is_Some (tg_nodes g !! v) → is_Some (tg_nodes g !! w) → segment_is_cross_repo g v w = Ok (crosses nodes v w).
Proof using Hg.
  intros [n Hn] [m Hm]. unfold segment_is_cross_repo, crosses. rewrite !repo_of_lookup, Hn, Hm. simpl. f_equal. f_equal.
  apply bool_decide_ext. split; congruence.
Qed.

Lemma eligible_next a :
  match tg_nodes g !! aj_next a with Some node => node_eligible (tq_filters request) node | None => false end = true ↔
  ∃ node, node ∈ nodes ∧ node_id node = aj_next a ∧ node_eligible (tq_filters request) node = true.
Proof using Hg.
  split.
  - destruct (tg_nodes g !! aj_next a) as [n|] eqn:E; [|done]. apply node_lookup in E as [? ?]. eauto.
  - intros (n & Hn & Hid & Hel). by rewrite (proj2 (node_lookup _ _) (conj Hn Hid)).
Qed.

Lemma contains_route p v : contains (route_state p) v = bool_decide (v ∈ route_nodes p).
Proof using. done. Qed.

Lemma expand_edges_spec p entries rt queue :
  route p → (∀ a, a ∈ entries → incident edges (to_direction options) (route_end p) a) → runtime_ok rt →
  expansion p entries rt queue (expand_edges g request (route_state p) (route_end p) entries rt queue).
Proof using Hg.
  intros Hp. revert rt queue. induction entries as [|a entries IH]; intros rt queue Hinc Hok.
  { exists []. rewrite app_nil_r. split_and!; try done; set_solver. }
  assert (Hin : incident edges (to_direction options) (route_end p) a) by (apply Hinc; by left).
  assert (IH' : ∀ rt queue, runtime_ok rt →
    expansion p entries rt queue (expand_edges g request (route_state p) (route_end p) entries rt queue)).
  { intros. apply IH; [|done]. intros b Hb. apply Hinc. by right. }
  clear IH. cbn [expand_edges].
  pose proof (timed_out_ok edges g request rt Hok) as Ht. destruct (timed_out rt) as [late rt1].
  destruct Ht as (Hok1 & Hg1 & Hex1 & Hl). destruct late; [by apply expansion_stop; auto|].
  pose proof (examine_edge_ok edges g request rt1 Hok1) as Hexam. fold options in Hexam.
  fold options. destruct (examine_edge _ rt1) as [examined rt2].
  destruct Hexam as (Hok2 & Hg2 & Hexam & Hnot). assert (Hg12 : grows rt rt2) by by etrans.
  destruct examined; cbn [negb]; [|by apply expansion_stop; auto]. specialize (Hexam eq_refl).
  destruct (edge_passes_filters _ _) eqn:Ef; cbn [negb].
  2: { assert (Hno : route (p ++ [a]) → False) by (intros (_ & [] & _)%route_snoc_inv; congruence).
       eapply expansion_skip; eauto. }
  case_bool_decide as Hconf; cbn [negb].
  2: { assert (Hno : route (p ++ [a]) → False) by (intros (_ & [] & _)%route_snoc_inv; congruence).
       assert (He : aj_edge a ∈ edges) by (destruct Hin as (e & He & [(_ & _ & ->)|(_ & _ & ->)]); done).
       destruct (record_candidate_ok edges g request (aj_edge a) rt2 Hok2 He Hconf) as [Hok3 Hg3].
       eapply expansion_skip; [eauto..|by etrans|auto]. }
  rewrite contains_route. case_bool_decide as Hvis.
  { assert (Hno : route (p ++ [a]) → False) by (intros (_ & _ & ?)%route_snoc_inv; done).
    eapply expansion_skip; eauto. }
  pose proof (node_passes_filters_ok edges g request (aj_next a) rt2 Hok2) as Hf.
  destruct (node_passes_filters g (aj_next a) (tq_filters request) rt2) as [passes rt3].
  destruct Hf as (Hok3 & Hg3 & Hex3 & Hpass). assert (Hg13 : grows rt rt3) by by etrans.
  destruct passes; cbn [negb].
  2: { assert (Hno : route (p ++ [a]) → False).
       { intros (_ & [_ _ _ Hn] & _)%route_snoc_inv. apply eligible_next in Hn. congruence. }
       eapply expansion_skip; eauto. }
  destruct (incident_next nodes edges g Hg _ _ _ Hin) as [Hv Hw].
  rewrite (segment_crosses _ _ Hv Hw).
  assert (Hroute : route (p ++ [a])).
  { constructor; [done| |done]. split; [done..|]. by apply eligible_next. }
  assert (Hcr : crossings (p ++ [a]) = (crossings p + if crosses nodes (route_end p) (aj_next a) then 1 else 0)%N)
    by apply crossings_route_snoc.
  cbn [ps_cross_repo_hops TraversalSpec.route_state]. rewrite <-Hcr.
  destruct (N.ltb_spec (to_max_cross_repo_hops options) (crossings (p ++ [a]))) as [Hlt|Hge].
  { destruct (truncate_ok edges g request cross_repo_gap rt3 Hok3) as [Hok4 Hg4].
    eapply expansion_skip with (rt1 := truncate cross_repo_gap rt3); [intros; lia|done|by etrans|auto]. }
  pose proof (observe_node_ok edges g request (aj_next a) rt3 Hok3) as Ho. fold options in Ho.
  destruct (observe_node _ _ rt3) as [observed rt4].
  destruct Ho as (Hok4 & Hg4 & Hex4 & Hno). assert (Hg14 : grows rt rt4) by by etrans.
  destruct observed; cbn [negb].
  2: { destruct (Hno eq_refl). eapply expansion_skip with (rt1 := rt4); [done|congruence|done|auto]. }
  destruct (edge_weight (aj_edge a) options) as [w|e] eqn:Ew.
  - rewrite (extended_route nodes request p a w _ Ew eq_refl).
    eapply expansion_keep; [done|done|by exists w|done|lia|auto].
  - exists (aj_edge a). split; [|done]. destruct Hin as (x & Hx & [(_ & _ & ->)|(_ & _ & ->)]); done.
Qed.

Lemma expand_state_spec p rt queue :
  route p → runtime_ok rt →
  expansion p (adjacent g (route_end p) (to_direction options)) rt queue (expand_state g request (route_state p) rt queue).
Proof using Hg.
  intros Hp Hok. unfold expand_state. replace (current (route_state p)) with (Some (route_end p)).
  2: { symmetry. apply last_route_nodes. }
  apply expand_edges_spec; [done| |done]. intros a. by apply adjacent_elem with nodes.
Qed.
End expansion.

(** ** The states that a search has seen *)
Section searches.
Context `{Clock} (nodes : list Node) (edges : list Edge) (g : TraversalGraph) (request : TraversalRequest).
Context (Hg : graph_of nodes edges g) (Hstart : is_Some (tg_nodes g !! tq_start request)).
Let options := tq_options request.
Let target := tq_target request.
Local Notation route := (route nodes edges request).
Local Notation route_end := (route_end request).
Local Notation route_nodes := (route_nodes request).
Local Notation route_state := (route_state nodes request).
Local Notation crossings := (crossings nodes (tq_start request)).
Local Notation within_bounds := (within_bounds nodes request).
Local Notation runtime_ok := (runtime_ok edges g request).
Local Notation priced := (priced request).
Local Notation expansion := (expansion nodes edges g request).

Definition known (popped : list (list Adjacent)) (cand : list PathState) : list (list Adjacent) :=
  popped ++ map ps_steps cand.

(** Whatever continues a followed route within [ok] is known. *)
Definition closed (ok : list Adjacent → Prop) (popped : list (list Adjacent)) (cand : list PathState) : Prop :=
  ∀ p a, p ∈ popped → route_end p ≠ target → route (p ++ [a]) → ok (p ++ [a]) → p ++ [a] ∈ known popped cand.

Record explored (popped : list (list Adjacent)) (cand : list PathState) (rt : TraversalRuntime) : Prop := {
  ex_cand : ∀ s, s ∈ cand → ∃ p, s = route_state p ∧ route p ∧ within_bounds p ∧ Forall priced p;
  ex_root : [] ∈ known popped cand;
  ex_NoDup : NoDup (known popped cand);
  ex_parents : ∀ p a, p ++ [a] ∈ known popped cand → p ∈ popped;
  ex_closed : ¬ stopped_early (rt_coverage_gaps rt) → closed within_bounds popped cand;
  ex_closed_all : rt_truncated rt = false → closed (λ _, True) popped cand;
}.

Lemma explored_grows popped cand rt rt' : grows rt rt' → explored popped cand rt → explored popped cand rt'.
Proof using.
  intros Hgr []. split; try done; [|by intros ?%(gr_truncated _ _ Hgr); auto].
  intros Hs. apply ex_closed0. by eapply grows_stopped.
Qed.

Lemma known_pop popped cand p rest :
  cand ≡ₚ route_state p :: rest → known (popped ++ [p]) rest ≡ₚ known popped cand.
Proof using. intros Hc. unfold known. rewrite Hc. simpl. by rewrite <-app_assoc. Qed.

Lemma closed_pop ok popped cand p rest :
  cand ≡ₚ route_state p :: rest → closed ok popped cand →
  (route_end p ≠ target → ∀ a, route (p ++ [a]) → ok (p ++ [a]) → False) → closed ok (popped ++ [p]) rest.
Proof using.
  intros Hc Hcl Hp q a [Hq| ->%list_elem_of_singleton]%elem_of_app Hend Hr Hok; [|by destruct (Hp Hend a)].
  rewrite (known_pop _ _ _ _ Hc). by apply Hcl.
Qed.

(** A state that is not expanded: the target, or one at the depth bound. *)
Lemma explored_leaf popped cand p rest rt rt' :
  cand ≡ₚ route_state p :: rest → grows rt rt' →
  route_end p = target ∨ (to_max_depth options ≤ len p)%N ∧ rt_truncated rt' = true →
  explored popped cand rt → explored (popped ++ [p]) rest rt'.
Proof using.
  intros Hc Hgr Hleaf Hex. apply (explored_grows _ _ _ _ Hgr) in Hex. destruct Hex. split.
  - intros s Hs. apply ex_cand0. rewrite Hc. by right.
  - by rewrite (known_pop _ _ _ _ Hc).
  - by rewrite (known_pop _ _ _ _ Hc).
  - intros q a. rewrite (known_pop _ _ _ _ Hc). intros ?%ex_parents0. apply elem_of_app. by left.
  - intros Hs. apply (closed_pop _ _ _ _ _ Hc); [auto|]. intros Hend a _ [Hlen _]. destruct Hleaf as [|[? _]]; [done|].
    rewrite len_app, len_cons, len_nil in Hlen. fold options in Hlen. lia.
  - intros Ht. apply (closed_pop _ _ _ _ _ Hc); [auto|]. intros Hend a _ _. destruct Hleaf as [|[_ ?]]; [done|congruence].
Qed.

Lemma adjacent_NoDup v direction : NoDup (adjacent g v direction).
Proof using Hg.
  eapply sublist_NoDup; [|apply dedup_by_sublist]. apply sort_by_NoDup. fold (raw_adjacent g v direction).
  assert (Hnd : NoDup edges) by (apply (NoDup_fmap_1 edge_id), (go_ids _ _ _ Hg)).
  unfold raw_adjacent. apply NoDup_app. split_and!.
  - destruct (takes_outgoing direction); [|constructor]. apply (NoDup_fmap_2_strong out_adjacent); [|rewrite (go_out _ _ _ Hg); by apply NoDup_ListNoDup, List.NoDup_filter, NoDup_ListNoDup].
    intros x y _ _ [=]. done.
  - intros x. destruct (takes_outgoing direction), (takes_incoming direction); rewrite ?elem_of_nil; try tauto.
    rewrite !list_elem_of_In, !in_map_iff. intros (? & <- & _) (? & ? & _). done.
  - destruct (takes_incoming direction); [|constructor]. apply (NoDup_fmap_2_strong in_adjacent); [|rewrite (go_in _ _ _ Hg); by apply NoDup_ListNoDup, List.NoDup_filter, NoDup_ListNoDup].
    intros x y _ _ [=]. done.
Qed.

Lemma explored_expand popped cand p rest rt rt' queue' :
  cand ≡ₚ route_state p :: rest → route p → within_bounds p → Forall priced p → (len p < to_max_depth options)%N →
  expansion p (adjacent g (route_end p) (to_direction options)) rt rest (Ok (rt', queue')) →
  explored popped cand rt → explored (popped ++ [p]) queue' rt'.
Proof using Hg.
  intros Hc Hp Hb Hpr Hlt (new & -> & Hsub & _ & Hgr & _ & Hnew & Hall & Hall').
  intros Hex%(explored_grows _ _ _ _ Hgr). destruct Hex.
  assert (Hk : known (popped ++ [p]) (rest ++ map (λ a, route_state (p ++ [a])) new)
    ≡ₚ known popped cand ++ map (λ a, p ++ [a]) new).
  { rewrite <-(known_pop _ _ _ _ Hc). unfold known. by rewrite map_app, map_map, app_assoc. }
  assert (Hadj : ∀ a, route (p ++ [a]) → a ∈ adjacent g (route_end p) (to_direction options)).
  { intros a (_ & [] & _)%route_snoc_inv. by apply (adjacent_elem nodes edges g Hg). }
  assert (Hp' : p ∉ popped).
  { intros Hin. assert (Hnd := ex_NoDup0). unfold known in Hnd. rewrite Hc in Hnd. apply NoDup_app in Hnd as (_ & Hdis & _).
    apply (Hdis p Hin). by left. }
  assert (Hmem : ∀ a, a ∈ new → p ++ [a] ∈ known popped cand ++ map (λ a, p ++ [a]) new).
  { intros a Ha. apply elem_of_app. right. by apply list_elem_of_In, (in_map (λ a, p ++ [a])), list_elem_of_In. }
  split.
  - intros s [Hs|Hs]%elem_of_app; [apply ex_cand0; rewrite Hc; by right|].
    apply list_elem_of_In, in_map_iff in Hs as (a & <- & Ha%list_elem_of_In). destruct (Hnew a Ha) as (Hr & Hcr & Hpa).
    exists (p ++ [a]). split_and!; [done|done| |by apply Forall_app; auto].
    split; [rewrite len_app, len_cons, len_nil; fold options; lia|done].
  - rewrite Hk. apply elem_of_app. by left.
  - rewrite Hk. apply NoDup_app. split_and!; [done| |].
    + intros q Hq Hin. apply list_elem_of_In, in_map_iff in Hin as (a & <- & Ha). by apply ex_parents0 in Hq.
    + apply (NoDup_fmap_2_strong (λ a, p ++ [a])); [intros a b _ _; by intros [_ [=]]%app_inj_tail|]. eapply sublist_NoDup; [apply adjacent_NoDup|done].
  - intros q a. rewrite Hk, !elem_of_app. intros [Hq%ex_parents0|Hin]; [by left|right].
    apply list_elem_of_In, in_map_iff in Hin as (b & [-> _]%app_inj_tail & _). by left.
  - intros Hs q a [Hq| ->%list_elem_of_singleton]%elem_of_app Hend Hr Hok; rewrite Hk.
    + apply elem_of_app. left. by apply ex_closed0.
    + apply Hmem, Hall; auto. apply Hok.
  - intros Ht q a [Hq| ->%list_elem_of_singleton]%elem_of_app Hend Hr Hok; rewrite Hk.
    + apply elem_of_app. left. by apply ex_closed_all0.
    + apply Hmem, Hall'; auto.
Qed.

(** Every route that [ok] admits is followed, or starts with a candidate. *)
Lemma closed_reach (ok : list Adjacent → Prop) popped cand q :
  (∀ p r, ok (p ++ r) → ok p) → closed ok popped cand → [] ∈ known popped cand →
  (∀ s, s ∈ cand → ∃ p, s = route_state p) →
  route q → ok q → (∀ p r, q = p ++ r → r ≠ [] → route_end p ≠ target) →
  q ∈ popped ∨ ∃ p r, route_state p ∈ cand ∧ q = p ++ r.
Proof using.
  intros Hpre Hcl Hroot Hcand.
  assert (Hknown : ∀ p, p ∈ known popped cand → p ∈ popped ∨ route_state p ∈ cand).
  { intros p [Hp|Hp]%elem_of_app; [by left|right]. apply list_elem_of_In, in_map_iff in Hp as (s & <- & Hs%list_elem_of_In).
    destruct (Hcand s Hs) as [p ->]. done. }
  induction q as [|a q IH] using rev_ind; intros Hr Hok Hend.
  - destruct (Hknown [] Hroot); [by left|right]. by exists [], [].
  - destruct IH as [Hq|(p & r & Hp & ->)].
    + by apply route_prefix in Hr.
    + by apply Hpre in Hok.
    + intros p r -> Hne. apply (Hend p (r ++ [a])); [by rewrite app_assoc|]. by destruct r.
    + destruct (Hknown (q ++ [a])) as [|Hc]; [|by left|].
      { apply Hcl; auto. by apply (Hend q [a]). }
      right. exists (q ++ [a]), []. by rewrite app_nil_r.
    + right. exists p, (r ++ [a]). by rewrite app_assoc.
Qed.

Lemma target_once q : route q → route_end q = target → ∀ p r, q = p ++ r → r ≠ [] → route_end p ≠ target.
Proof using. intros Hr Hend p r -> Hne Hp. apply Hne. apply (route_end_once _ _ _ p r Hr). congruence. Qed.
End searches.
