(* ===== verification/TraversalCorrect.v ===== *)
(** * Bounded traversal: correctness

    The two searches refine the routes of [TraversalSpec], and the theorems
    about [traverse]. *)
From Stdlib Require Import SpecFloat.
From stdpp Require Import base gmap sets list strings sorting.
From S2P Require Import Prelude RustOrd RustFloat FloatMono RustStr Model Query Traversal TraversalSpec.

(** ** What a returned path says *)
Section reports.
Context (nodes : list Node) (request : TraversalRequest).
Let options := tq_options request.

Record segment_of (v : NodeId) (a : Adjacent) (sg : PathSegment) : Prop := {
  so_source : seg_source (sg_trace sg) ∈ nodes ∧ node_id (seg_source (sg_trace sg)) = v;
  so_target : seg_target (sg_trace sg) ∈ nodes ∧ node_id (seg_target (sg_trace sg)) = aj_next a;
  so_edge : seg_edge (sg_trace sg) = aj_edge a;
  so_reversed : sg_reversed sg = aj_reversed a;
  so_weight : edge_weight (aj_edge a) options = Ok (sg_weight sg);
  so_scope : sg_scope sg = if crosses nodes v (aj_next a) then CrossRepository else Local;
}.

Fixpoint segments_of (v : NodeId) (p : list Adjacent) (segments : list PathSegment) : Prop :=
  match p, segments with
  | [], [] => True
  | a :: p, sg :: segments => segment_of v a sg ∧ segments_of (aj_next a) p segments
  | _, _ => False
  end.

(** The returned path is the route [p], with its segments, weight and hops. *)
Record reports (p : list Adjacent) (path : TraversalPath) : Prop := {
  rp_segments : segments_of (tq_start request) p (tp_segments path);
  rp_weight : tp_total_weight path = route_weight request p;
  rp_hops : tp_cross_repo_hops path = crossings nodes (tq_start request) p;
}.
End reports.

Lemma try_fold_push {E A B} (f : A → result E B) (l : list A) acc :
  (∀ x, x ∈ l → ∃ y, f x = Ok y) →
  ∃ ys, try_fold (λ ys x, let? y := f x in Ok (ys ++ [y])) acc l = Ok (acc ++ ys) ∧ Forall2 (λ x y, f x = Ok y) l ys.
Proof.
  revert acc. induction l as [|x l IH]; intros acc Hf.
  { exists []. by rewrite app_nil_r. }
  destruct (Hf x) as [y Hy]; [by left|]. destruct (IH (acc ++ [y])) as (ys & Hys & Hall); [intros; apply Hf; by right|].
  exists (y :: ys). split; [|by constructor]. cbn [try_fold]. rewrite Hy. cbn [result_bind]. by rewrite Hys, <-app_assoc.
Qed.

(** ** Choosing the next candidate *)
#[export] Instance path_state_order_lawful : LawfulCmp path_state_order.
Proof. apply _. Qed.

#[export] Instance path_order_lawful : LawfulCmp path_order.
Proof. apply _. Qed.

Definition least_upto (candidates : list PathState) (n best : nat) : Prop :=
  ∃ s, candidates !! best = Some s ∧
    ∀ i t, (i < n)%nat → candidates !! i = Some t → path_state_order s t ≠ Gt.

Lemma select_best_state_least candidates :
  candidates ≠ [] → least_upto candidates (length candidates) (select_best_state candidates).
Proof.
  intros Hne. unfold select_best_state. set (step := λ best index : nat, _).
  assert (Hstep : ∀ n, (1 + n <= length candidates)%nat → least_upto candidates (1 + n) (foldl step 0%nat (seq 1 n))).
  { induction n as [|n IH]; intros Hn.
    - destruct candidates as [|s l]; [done|]. exists s. split; [done|]. intros [|i] t Hi; [|lia]. intros [= <-].
      by rewrite (cmp_refl path_state_order).
    - rewrite seq_S, foldl_app. cbn [foldl]. destruct IH as (s & Hs & Hleast); [lia|].
      destruct (lookup_lt_is_Some_2 candidates (1 + n)) as [t Ht]; [lia|]. unfold step at 1. rewrite Ht, Hs.
      destruct (path_state_order t s) eqn:E.
      1, 3: exists s; split; [done|]; intros i t' Hi Ht'; (destruct (decide (i = 1 + n)%nat) as [->|]; [|apply (Hleast i); [lia|done]]);
        simplify_eq; rewrite (cmp_antisym (c := path_state_order)), E; done.
      exists t. split; [done|]. intros i t' Hi Ht'. destruct (decide (i = 1 + n)%nat) as [->|]; [simplify_eq; by rewrite (cmp_refl path_state_order)|].
      eapply cmp_trans; [by rewrite E|]. apply (Hleast i); [lia|done]. }
  replace (length candidates) with (1 + (length candidates - 1))%nat at 1; [apply Hstep|]; destruct candidates; simpl; done || lia.
Qed.

Lemma path_state_order_weight s t : path_state_order s t ≠ Gt → f_total_cmp (ps_total_weight s) (ps_total_weight t) ≠ Gt.
Proof. unfold path_state_order, then_with at 1, cmp_on at 1. by destruct (f_total_cmp _ _). Qed.

(** The selected state comes out, and none left weighs less. *)
Lemma select_best_state_spec candidates :
  candidates ≠ [] → ∃ s, candidates !! select_best_state candidates = Some s ∧
    candidates ≡ₚ s :: delete (select_best_state candidates) candidates ∧
    ∀ t, t ∈ candidates → f_total_cmp (ps_total_weight s) (ps_total_weight t) ≠ Gt.
Proof.
  intros Hne. destruct (select_best_state_least candidates Hne) as (s & Hs & Hleast).
  exists s. split_and!; [done|by apply delete_Permutation|]. intros t [i Ht]%list_elem_of_lookup.
  apply path_state_order_weight, (Hleast i); [by eapply lookup_lt_Some|done].
Qed.

Section correct.
Context `{Clock} (nodes : list Node) (edges : list Edge) (g : TraversalGraph) (request : TraversalRequest).
Context (Hg : graph_of nodes edges g) (Hstart : is_Some (tg_nodes g !! tq_start request)).
Let options := tq_options request.
Let target := tq_target request.
Local Notation route := (route nodes edges request).
Local Notation route_end := (route_end request).
Local Notation route_nodes := (route_nodes request).
Local Notation route_state := (route_state nodes request).
Local Notation crossings := (crossings nodes (tq_start request)).
Local Notation within_bounds := (within_bounds nodes request).
Local Notation runtime_ok := (runtime_ok edges g request).
Local Notation priced := (priced request).
Local Notation explored := (explored nodes edges request).
Local Notation reports := (reports nodes request).

Lemma materialize_segments_of q prefix v :
  Forall (λ w, is_Some (tg_nodes g !! w)) (v :: map aj_next q) → Forall priced q →
  ∃ segments, materialize_segments g request (prefix ++ v :: map aj_next q) (length prefix) q = Ok segments ∧
    segments_of nodes request v q segments.
Proof using Hg.
  revert prefix v. induction q as [|a q IH]; intros prefix v Hin Hpr; [by exists []|].
  inversion Hin as [|? ? [n Hn] Hin']; subst. inversion Hpr as [|? ? [w Hw] Hpr']; subst.
  destruct (IH (prefix ++ [v]) (aj_next a) Hin' Hpr') as (segs & Hsegs & Hof).
  inversion Hin' as [|? ? [m Hm] _]; subst. cbn [materialize_segments map].
  rewrite list_lookup_middle by done. cbn [ok_or result_bind].
  replace (prefix ++ v :: aj_next a :: map aj_next q) with ((prefix ++ [v]) ++ aj_next a :: map aj_next q)
    by (by rewrite <-app_assoc).
  rewrite list_lookup_middle by (rewrite length_app; simpl; lia). cbn [ok_or result_bind].
  rewrite Hn, Hm. cbn [ok_or result_bind]. rewrite Hw. cbn [result_bind].
  rewrite length_app in Hsegs. simpl length in Hsegs. rewrite Hsegs. cbn [result_bind].
  eexists. split; [done|]. split; [|done].
  apply (node_lookup _ _ _ Hg) in Hn as Hn', Hm as Hm'. split; try done.
  cbn [sg_scope]. unfold crosses. rewrite !(repo_of_lookup _ _ _ Hg), Hn, Hm. simpl.
  repeat case_bool_decide; simpl; congruence.
Qed.

Lemma route_in_graph p : route p → Forall (λ w, is_Some (tg_nodes g !! w)) (route_nodes p).
Proof using Hg Hstart.
  induction 1 as [|p a Hp IH [Hinc _ _ _] _]; [by constructor|].
  rewrite route_nodes_snoc. apply Forall_snoc. split; [done|]. by apply (incident_next _ _ _ Hg) in Hinc as [_ ?].
Qed.

Lemma materialize_route p :
  route p → Forall priced p → ∃ path, materialize_path g (route_state p) request = Ok path ∧ reports p path.
Proof using Hg Hstart.
  intros Hr Hpr. destruct (materialize_segments_of p [] (tq_start request)) as (segs & Hsegs & Hof); [|done|].
  { by apply route_in_graph. }
  unfold materialize_path. cbn [ps_nodes ps_steps TraversalSpec.route_state]. unfold TraversalSpec.route_nodes.
  simpl in Hsegs. rewrite Hsegs. eexists. split; [done|]. by split.
Qed.
(** ** What a search has to find *)
Definition good (ok : list Adjacent → Prop) (q : list Adjacent) : Prop := route q ∧ route_end q = target ∧ ok q.

(** Every good route is found, or as many as wanted that are no worse. *)
Definition best (wanted : N) (le : list Adjacent → list Adjacent → Prop) (routes : list (list Adjacent))
    (ok : list Adjacent → Prop) : Prop :=
  ∀ q, good ok q → q ∈ routes ∨ len routes = wanted ∧ ∀ p, p ∈ routes → le p q.

Record found (wanted : N) (le : list Adjacent → list Adjacent → Prop) (rt : TraversalRuntime)
    (routes : list (list Adjacent)) (paths : list TraversalPath) : Prop := {
  fd_runtime : runtime_ok rt;
  fd_reports : Forall2 reports routes paths;
  fd_NoDup : NoDup routes;
  fd_wanted : (len routes ≤ wanted)%N;
  fd_good : ∀ p, p ∈ routes → good within_bounds p;
  fd_best : ¬ stopped_early (rt_coverage_gaps rt) → best wanted le routes within_bounds;
  fd_best_all : rt_truncated rt = false → best wanted le routes (λ _, True);
}.

(** A search ends, with what it has to find or with a cost that overflows. *)
Definition searched (wanted : N) (le : list Adjacent → list Adjacent → Prop)
    (r : option (result QueryError (TraversalRuntime * list TraversalPath))) : Prop :=
  match r with
  | None => False
  | Some (Err e) => ∃ x, x ∈ edges ∧ edge_weight x options = Err e
  | Some (Ok (rt, paths)) => ∃ routes, found wanted le rt routes paths
  end.

Definition shorter (p q : list Adjacent) : Prop := (length p <= length q)%nat.

Lemma stopped_found wanted le rt routes paths :
  runtime_ok rt → Forall2 reports routes paths → NoDup routes → (len routes ≤ wanted)%N →
  (∀ p, p ∈ routes → good within_bounds p) → stopped_early (rt_coverage_gaps rt) ∧ rt_truncated rt = true →
  found wanted le rt routes paths.
Proof using. clear Hg Hstart. intros ????? [? ?]. split; done || congruence. Qed.

Lemma explored_best ok popped cand rt wanted le routes :
  (∀ p r, ok (p ++ r) → ok p) → explored popped cand rt → closed nodes edges request ok popped cand →
  (∀ p, p ∈ popped → route_end p = target → p ∈ routes) →
  (∀ p r, route_state p ∈ cand → len routes = wanted ∧ ∀ q, q ∈ routes → le q (p ++ r)) →
  best wanted le routes ok.
Proof using.
  intros Hpre Hex Hcl Hpop Hcand q (Hr & Hend & Hok).
  destruct (closed_reach nodes edges request ok popped cand q) as [Hq|(p & r & Hp & ->)]; eauto.
  - by apply ex_root in Hex.
  - intros s Hs. destruct (ex_cand _ _ _ _ _ _ Hex s Hs) as (p & -> & _). eauto.
  - by eapply target_once.
Qed.

Lemma explored_found popped cand rt wanted le routes paths :
  explored popped cand rt → runtime_ok rt → Forall2 reports routes paths → NoDup routes → (len routes ≤ wanted)%N →
  (∀ p, p ∈ routes → good within_bounds p) → (∀ p, p ∈ popped → route_end p = target → p ∈ routes) →
  (∀ p r, route_state p ∈ cand → len routes = wanted ∧ ∀ q, q ∈ routes → le q (p ++ r)) →
  found wanted le rt routes paths.
Proof using.
  intros Hex Hok Hrep Hnd Hw Hgood Hpop Hcand. split; try done.
  - intros Hs. eapply explored_best; eauto; [|by eapply ex_closed]. intros p r. apply within_bounds_prefix.
  - intros Ht. eapply explored_best; eauto. by eapply ex_closed_all.
Qed.

(** ** Breadth-first search *)
Definition steps_are (n : nat) (s : PathState) : Prop := length (ps_steps s) = n.

Definition layered (n : nat) (queue : list PathState) : Prop :=
  ∃ now next, queue = now ++ next ∧ Forall (steps_are n) now ∧ Forall (steps_are (S n)) next.

Lemma layered_pop n s queue : layered n (s :: queue) → layered (length (ps_steps s)) queue.
Proof using.
  clear. intros (now & next & E & Hnow & Hnext). destruct now as [|t now]; simplify_eq/=.
  - inversion Hnext as [|? ? Hs Hq]; subst. rewrite Hs. exists queue, []. rewrite app_nil_r. auto.
  - inversion Hnow as [|? ? Hs Hq]; subst. rewrite Hs. by exists now, next.
Qed.

Lemma layered_push n queue new : layered n queue → Forall (steps_are (S n)) new → layered n (queue ++ new).
Proof using.
  clear. intros (now & next & -> & Hnow & Hnext) Hnew. exists now, (next ++ new).
  rewrite <-app_assoc. split_and!; [done..|]. by apply Forall_app.
Qed.

Lemma layered_head n queue s : layered n queue → s ∈ queue → (n <= length (ps_steps s))%nat.
Proof using.
  clear. unfold layered, steps_are. intros (now & next & -> & Hnow & Hnext) [Hs|Hs]%elem_of_app.
  - rewrite Forall_forall in Hnow. rewrite (Hnow s Hs). lia.
  - rewrite Forall_forall in Hnext. rewrite (Hnext s Hs). lia.
Qed.

(** What is left to do: the queue and the edges that may still be examined. *)
Definition work (queue : list PathState) (rt : TraversalRuntime) : N :=
  (len queue + (to_edge_limit options - rt_examined_edges rt))%N.

Lemma route_end_in_graph p : route p → is_Some (tg_nodes g !! route_end p).
Proof using Hg Hstart.
  intros Hr. apply route_in_graph in Hr. rewrite Forall_forall in Hr. apply Hr, route_end_elem.
Qed.

(** The head of a round: the clock is read and the frontier noted. *)
Lemma round_runtime p rt :
  route p → runtime_ok rt →
  let '(late, rt1) := timed_out rt in
  runtime_ok rt1 ∧ (late = true → stopped_early (rt_coverage_gaps rt1) ∧ rt_truncated rt1 = true) ∧
  let rt2 := record_frontier (route_end p) (len p) rt1 in
  runtime_ok rt2 ∧ grows rt rt2 ∧ rt_examined_edges rt2 = rt_examined_edges rt.
Proof using Hg Hstart.
  intros Hr Hok. pose proof (timed_out_ok edges g request rt Hok) as Ht. destruct (timed_out rt) as [late rt1].
  destruct Ht as (Hok1 & Hg1 & Hex1 & Hl). split_and!; [done|done|].
  destruct (record_frontier_ok edges g request (route_end p) (len p) rt1 Hok1) as (Hok2 & Hg2 & Hex2);
    [by apply route_end_in_graph|]. split_and!; [done|by etrans|congruence].
Qed.

Lemma current_route p : current (route_state p) = Some (route_end p).
Proof using. clear Hg Hstart. apply last_route_nodes. Qed.

Lemma work_pop s rest rt rt' : rt_examined_edges rt' = rt_examined_edges rt → (work rest rt' + 1 = work (s :: rest) rt)%N.
Proof using. clear Hg Hstart. intros E. unfold work. rewrite E, len_cons. lia. Qed.

Lemma work_push {A} (new : list A) f rest rt rt' :
  runtime_ok rt' → (len new + rt_examined_edges rt ≤ rt_examined_edges rt')%N → (work (rest ++ map f new) rt' ≤ work rest rt)%N.
Proof using.
  clear Hg Hstart. intros [Hex _ _ _ _]. fold options in Hex. unfold work.
  assert (len (map f new) = len new) as Hlen by (unfold len; by rewrite length_map). rewrite len_app, Hlen. lia.
Qed.

Lemma steps_are_pushed p new : Forall (steps_are (S (length p))) (map (λ a, route_state (p ++ [a])) new).
Proof using.
  clear Hg Hstart. apply Forall_map, Forall_true. intros a. unfold steps_are. simpl. rewrite length_app. simpl. lia.
Qed.

Lemma explored_none popped rt wanted le paths :
  explored popped [] rt → runtime_ok rt → paths = [] → (∀ p, p ∈ popped → route_end p ≠ target) → found wanted le rt [] paths.
Proof using.
  clear Hg Hstart. intros Hex Hok -> Hpop. apply (explored_found popped []); try done.
  - constructor.
  - unfold len. simpl. lia.
  - intros p Hp. by apply not_elem_of_nil in Hp.
  - intros p Hp Hend. by destruct (Hpop p Hp).
  - intros p r Hp. by apply not_elem_of_nil in Hp.
Qed.

Lemma bfs_target popped p queue rt path :
  explored (popped ++ [p]) queue rt → runtime_ok rt → layered (length p) queue → route p → within_bounds p →
  route_end p = target → reports p path → (∀ p, p ∈ popped → route_end p ≠ target) → found 1 shorter rt [p] [path].
Proof using.
  clear Hg Hstart. intros Hex Hok Hlay Hr Hb Hend Hrep Hpop. eapply explored_found; eauto.
  - apply NoDup_singleton.
  - by intros q ->%list_elem_of_singleton.
  - intros q [Hq| ->%list_elem_of_singleton]%elem_of_app; [intros; by destruct (Hpop q)|by left].
  - intros q r Hq. split; [by rewrite len_cons, len_nil|]. intros q' ->%list_elem_of_singleton.
    apply (layered_head _ _ _ Hlay) in Hq. simpl in Hq. unfold shorter. rewrite length_app. lia.
Qed.

Lemma bfs_loop_spec fuel rt queue popped n :
  explored popped queue rt → runtime_ok rt → layered n queue → (∀ p, p ∈ popped → route_end p ≠ target) →
  (work queue rt < N.of_nat fuel)%N → searched 1 shorter (bfs_loop g request fuel rt queue).
Proof using Hg Hstart.
  revert rt queue popped n. induction fuel as [|fuel IH]; intros rt queue popped n Hex Hok Hlay Hpop Hfuel; [lia|].
  cbn [bfs_loop]. destruct queue as [|s queue]; [exists []; by eapply explored_none|].
  destruct (ex_cand _ _ _ _ _ _ Hex s) as (p & -> & Hr & Hb & Hpr); [by left|].
  pose proof (round_runtime p rt Hr Hok) as Hround. destruct (timed_out rt) as [late rt1].
  destruct Hround as (Hok1 & Hl & Hok2 & Hg2 & Hex2). destruct late.
  { exists []. apply stopped_found; auto; [constructor|rewrite len_nil; lia|]. intros q Hq. by apply not_elem_of_nil in Hq. }
  rewrite current_route. change (ps_steps (route_state p)) with p. set (rt2 := record_frontier _ _ rt1) in *.
  pose proof (layered_pop _ _ _ Hlay) as Hlay'. simpl in Hlay'.
  pose proof (work_pop (route_state p) queue rt rt2 Hex2) as Hwork.
  assert (Hpop' : route_end p ≠ target → ∀ q, q ∈ popped ++ [p] → route_end q ≠ target).
  { intros Hne q [Hq| ->%list_elem_of_singleton]%elem_of_app; auto. }
  destruct (String.eqb_spec (route_end p) (tq_target request)) as [Hend|Hend].
  { destruct (materialize_route p Hr Hpr) as (path & -> & Hrep). exists [p].
    eapply bfs_target; eauto. eapply explored_leaf; eauto. }
  destruct (N.leb_spec (to_max_depth (tq_options request)) (len p)) as [Hd|Hd].
  { destruct (truncate_ok edges g request depth_gap rt2 Hok2) as [Hok3 Hg3].
    eapply (IH (truncate depth_gap rt2)); [|done|done|by apply Hpop'|change (work queue (truncate depth_gap rt2)) with (work queue rt2); lia].
    eapply explored_leaf; [reflexivity| | |exact Hex]; [by etrans|right; by split]. }
  pose proof (expand_state_spec nodes edges g request Hg p rt2 queue Hr Hok2) as Hexp.
  unfold expand_bfs_state. destruct (expand_state _ _ _ _ _) as [[rt3 queue3]|e]; [|done].
  assert (Hex3 : explored (popped ++ [p]) queue3 rt3).
  { eapply explored_expand; [done|reflexivity|done..|]. by eapply explored_grows. }
  destruct Hexp as (new & -> & _ & Hok3 & Hg3 & Hlen & _). pose proof (work_push new (λ a, route_state (p ++ [a])) queue rt2 rt3 Hok3 Hlen).
  destruct (rt_truncated rt3 && is_empty_list _) eqn:Estop.
  - apply andb_true_iff in Estop as [_ Hemp%is_empty_list_true]. rewrite Hemp in Hex3. exists []. by eapply explored_none; eauto.
  - eapply IH; [exact Hex3|done|by apply layered_push, steps_are_pushed|by apply Hpop'|lia].
Qed.

(** ** Search by weight *)
Record collecting (wanted : N) (popped : list (list Adjacent)) (cand : list PathState) (rt : TraversalRuntime)
    (routes : list (list Adjacent)) (paths : list TraversalPath) : Prop := {
  cl_explored : explored popped cand rt;
  cl_runtime : runtime_ok rt;
  cl_reports : Forall2 reports routes paths;
  cl_NoDup : NoDup routes;
  cl_wanted : (len routes ≤ wanted)%N;
  cl_good : ∀ p, p ∈ routes → good within_bounds p ∧ p ∈ popped;
  cl_popped : ∀ p, p ∈ popped → route_end p = target → p ∈ routes;
  cl_lightest : ∀ p q, p ∈ routes → route_state q ∈ cand → no_heavier request p q;
}.

Lemma Forall2_len {A B} (R : A → B → Prop) l k : Forall2 R l k → len l = len k.
Proof using. clear. intros E%Forall2_length. unfold len. by rewrite E. Qed.

(** The loop ends with no candidate, or with as many paths as wanted. *)
Lemma collecting_found wanted popped cand rt routes paths :
  collecting wanted popped cand rt routes paths → cand = [] ∨ (wanted ≤ len paths)%N →
  found wanted (no_heavier request) rt routes paths.
Proof using.
  clear Hg Hstart. intros [Hex Hok Hrep Hnd Hw Hgood Hpop Hlight] Hend.
  apply (explored_found popped cand); try done; [intros p Hp; by apply Hgood|].
  intros p r Hp. destruct Hend as [->|Hend]; [by apply not_elem_of_nil in Hp|].
  rewrite <-(Forall2_len _ _ _ Hrep) in Hend. split; [lia|]. intros q Hq.
  eapply no_heavier_trans; [by apply (Hlight q p)|apply no_heavier_app].
Qed.

Lemma collecting_stopped wanted popped cand rt rt' routes paths :
  collecting wanted popped cand rt routes paths → runtime_ok rt' →
  stopped_early (rt_coverage_gaps rt') ∧ rt_truncated rt' = true → found wanted (no_heavier request) rt' routes paths.
Proof using.
  clear Hg Hstart. intros [] Hok Hs. apply stopped_found; try done. intros p Hp. by apply cl_good0.
Qed.

(** The state that was taken out reaches the target: its path is collected. *)
Lemma collecting_target wanted popped cand p rest rt rt' routes paths path :
  collecting wanted popped cand rt routes paths → cand ≡ₚ route_state p :: rest → grows rt rt' → runtime_ok rt' →
  (len paths < wanted)%N → route p → within_bounds p → route_end p = target → reports p path →
  (∀ q, route_state q ∈ cand → no_heavier request p q) →
  collecting wanted (popped ++ [p]) rest rt' (routes ++ [p]) (paths ++ [path]).
Proof using.
  clear Hg Hstart. intros [Hex Hok Hrep Hnd Hw Hgood Hpop Hlight] Hc Hgr Hok' Hlt Hr Hb Hend Hp Hmin.
  assert (Hnew : p ∉ popped).
  { intros Hin. assert (Hk := ex_NoDup _ _ _ _ _ _ Hex). unfold known in Hk. rewrite Hc in Hk. apply NoDup_app in Hk as (_ & Hdis & _).
    apply (Hdis p Hin). by left. }
  split; try done.
  - by eapply explored_leaf; eauto.
  - apply Forall2_app; auto.
  - apply NoDup_app. split_and!; [done| |apply NoDup_singleton]. intros q Hq ->%list_elem_of_singleton. by destruct (Hgood p Hq).
  - rewrite len_app, len_cons, len_nil, (Forall2_len _ _ _ Hrep). lia.
  - intros q [Hq| ->%list_elem_of_singleton]%elem_of_app.
    + destruct (Hgood q Hq). split; [done|]. apply elem_of_app. by left.
    + split; [done|]. apply elem_of_app. right. by left.
  - intros q [Hq| ->%list_elem_of_singleton]%elem_of_app Hq'; apply elem_of_app; [left; auto|right; by left].
  - intros q r [Hq| ->%list_elem_of_singleton]%elem_of_app Hin; [apply Hlight; [done|]|apply Hmin]; rewrite Hc; by right.
Qed.

(** It does not: the candidates that replace it weigh no less. *)
Lemma collecting_next wanted popped cand p rest cand' rt rt' routes paths :
  collecting wanted popped cand rt routes paths → cand ≡ₚ route_state p :: rest → runtime_ok rt' →
  explored (popped ++ [p]) cand' rt' → route_end p ≠ target →
  (∀ q, route_state q ∈ cand' → route_state q ∈ rest ∨ ∃ a, q = p ++ [a]) →
  collecting wanted (popped ++ [p]) cand' rt' routes paths.
Proof using.
  clear Hg Hstart. intros [Hex Hok Hrep Hnd Hw Hgood Hpop Hlight] Hc Hok' Hex' Hend Hcand'.
  split; try done.
  - intros q Hq. destruct (Hgood q Hq). split; [done|]. apply elem_of_app. by left.
  - intros q [Hq| ->%list_elem_of_singleton]%elem_of_app Hq'; [auto|done].
  - intros q r Hq [Hr|[a ->]]%Hcand'; [apply Hlight; [done|]; rewrite Hc; by right|].
    eapply no_heavier_trans; [apply (Hlight q p); [done|]; rewrite Hc; by left|apply no_heavier_app].
Qed.

Lemma weighted_loop_spec wanted fuel rt cand paths popped routes :
  collecting wanted popped cand rt routes paths → (work cand rt < N.of_nat fuel)%N →
  searched wanted (no_heavier request) (weighted_loop g request wanted fuel rt cand paths).
Proof using Hg Hstart.
  revert rt cand paths popped routes. induction fuel as [|fuel IH]; intros rt cand paths popped routes Hcl Hfuel; [lia|].
  cbn [weighted_loop]. destruct (is_empty_list cand || _) eqn:Eend.
  { exists routes. eapply collecting_found; [done|]. apply orb_true_iff in Eend as [->%is_empty_list_true|?%N.leb_le]; auto. }
  apply orb_false_iff in Eend as [Hne Hlt%N.leb_gt].
  assert (cand ≠ []) as (s & Hs & Hc & Hmin)%select_best_state_spec by (by intros ->).
  destruct (ex_cand _ _ _ _ _ _ (cl_explored _ _ _ _ _ _ Hcl) s) as (p & -> & Hr & Hb & Hpr); [rewrite Hc; by left|].
  pose proof (round_runtime p rt Hr (cl_runtime _ _ _ _ _ _ Hcl)) as Hround. destruct (timed_out rt) as [late rt1].
  destruct Hround as (Hok1 & Hl & Hok2 & Hg2 & Hex2). destruct late; [exists routes; by eapply collecting_stopped; auto|].
  rewrite Hs, current_route. change (ps_steps (route_state p)) with p. set (rt2 := record_frontier _ _ rt1) in *.
  set (rest := delete _ cand) in *.
  pose proof (work_pop (route_state p) rest rt rt2 Hex2) as Hwork.
  replace (work (route_state p :: rest) rt) with (work cand rt) in Hwork by (unfold work, len; by rewrite Hc).
  destruct (String.eqb_spec (route_end p) (tq_target request)) as [Hend|Hend].
  { destruct (materialize_route p Hr Hpr) as (path & -> & Hrep). eapply IH; [|by apply N.lt_le_trans with (work cand rt); lia].
    eapply collecting_target; eauto. intros q Hq. apply (Hmin _ Hq). }
  destruct (N.leb_spec (to_max_depth (tq_options request)) (len p)) as [Hd|Hd].
  { destruct (truncate_ok edges g request depth_gap rt2 Hok2) as [Hok3 Hg3].
    eapply (IH (truncate depth_gap rt2)); [|change (work rest (truncate depth_gap rt2)) with (work rest rt2); lia].
    eapply collecting_next; [done|exact Hc|done| |done|by left].
    eapply explored_leaf; [exact Hc| | |exact (cl_explored _ _ _ _ _ _ Hcl)]; [by etrans|right; by split]. }
  pose proof (expand_state_spec nodes edges g request Hg p rt2 rest Hr Hok2) as Hexp.
  unfold expand_weighted_state. destruct (expand_state _ _ _ _ _) as [[rt3 cand3]|e]; [|done].
  assert (Hex3 : explored (popped ++ [p]) cand3 rt3).
  { eapply explored_expand; [done|exact Hc|done..|]. eapply explored_grows; [done|]. by eapply cl_explored. }
  destruct Hexp as (new & -> & _ & Hok3 & Hg3 & Hlen & _).
  pose proof (work_push new (λ a, route_state (p ++ [a])) rest rt2 rt3 Hok3 Hlen).
  eapply IH; [|by apply N.le_lt_trans with (work rest rt2); [|lia]].
  eapply collecting_next; [done|exact Hc|done|done|done|].
  intros q [Hq|Hq]%elem_of_app; [by left|right]. apply list_elem_of_In, in_map_iff in Hq as (a & E & _).
  exists a. by apply (f_equal ps_steps) in E.
Qed.

(** ** The searches from their start *)
Lemma explored_start : explored [] [path_start (tq_start request)] (runtime_new request).
Proof using.
  clear Hg Hstart. split; try (intros; intros ? ? Hp; by apply not_elem_of_nil in Hp).
  - intros s ->%list_elem_of_singleton. exists []. split_and!; [done|constructor| |constructor].
    unfold TraversalSpec.within_bounds, len. simpl. lia.
  - by left.
  - apply NoDup_singleton.
  - intros p a Hp%list_elem_of_singleton. by destruct p.
Qed.

Lemma runtime_new_ok : (1 ≤ to_node_limit options)%N → runtime_ok (runtime_new request).
Proof using Hstart.
  intros Hl. split; simpl; try done; try lia.
  - change (N.of_nat (size ({[tq_start request]} : gset NodeId)) ≤ to_node_limit (tq_options request))%N. rewrite size_singleton. apply Hl.
  - by intros v ->%elem_of_singleton.
Qed.

Lemma work_start : (work [path_start (tq_start request)] (runtime_new request) < N.of_nat (search_fuel request))%N.
Proof using. clear Hg Hstart. unfold work, search_fuel. rewrite len_cons, len_nil. simpl. unfold options. lia. Qed.

Lemma bfs_spec : (1 ≤ to_node_limit options)%N → searched 1 shorter (bfs g request (runtime_new request)).
Proof using Hg Hstart.
  intros Hl. apply bfs_loop_spec with (popped := []) (n := 0%nat).
  - apply explored_start.
  - by apply runtime_new_ok.
  - exists [path_start (tq_start request)], []. split_and!; [done|by repeat constructor|constructor].
  - intros p Hp. by apply not_elem_of_nil in Hp.
  - apply work_start.
Qed.

Lemma Forall2_perm {A B} (R : A → B → Prop) l k k' : Forall2 R l k → k' ≡ₚ k → ∃ l', l' ≡ₚ l ∧ Forall2 R l' k'.
Proof using.
  clear. intros HR Hk. revert l HR. induction Hk as [|x k1 k2 Hk IH|x y k|k1 k2 k3 H12 IH1 H23 IH2]; intros l HR.
  - exists l. by inversion HR.
  - inversion HR as [|a ? l0 ? Ha Hl]; subst. destruct (IH l0 Hl) as (l' & Hl' & HR'). exists (a :: l').
    split; [by rewrite Hl'|by constructor].
  - inversion HR as [|a ? l0 ? Ha Hl]; subst. inversion Hl as [|b ? l1 ? Hb Hl1]; subst. exists (b :: a :: l1).
    split; [constructor|by repeat constructor].
  - destruct (IH2 l HR) as (l' & Hl' & HR'). destruct (IH1 l' HR') as (l'' & Hl'' & HR''). exists l''.
    split; [by etrans|done].
Qed.

Lemma found_perm wanted le rt routes paths paths' :
  paths' ≡ₚ paths → found wanted le rt routes paths → ∃ routes', found wanted le rt routes' paths'.
Proof using.
  clear Hg Hstart. intros Hp [Hok Hrep Hnd Hw Hgood Hb Hb'].
  destruct (Forall2_perm _ _ _ _ Hrep Hp) as (routes' & Hr & Hrep'). exists routes'.
  assert (Hlen : len routes' = len routes) by (unfold len; by rewrite Hr).
  assert (Hbest : ∀ ok, best wanted le routes ok → best wanted le routes' ok).
  { intros ok Hbst q Hq. destruct (Hbst q Hq) as [?|[? Hall]]; [left; by rewrite Hr|right]. split; [congruence|].
    intros p. rewrite Hr. apply Hall. }
  split; auto; [by rewrite Hr|by rewrite Hlen|intros p; rewrite Hr; auto].
Qed.

Definition ascending (paths : list TraversalPath) : Prop :=
  StronglySorted (λ a b, f_total_cmp (tp_total_weight a) (tp_total_weight b) ≠ Gt) paths.

Lemma path_order_weight a b : cmp_le path_order a b → f_total_cmp (tp_total_weight a) (tp_total_weight b) ≠ Gt.
Proof using. clear. unfold cmp_le, path_order, then_with at 1, cmp_on at 1. by destruct (f_total_cmp _ _). Qed.

Lemma sort_by_path_order_ascending paths : ascending (sort_by path_order paths).
Proof using.
  clear. pose proof (sort_by_sorted path_order paths) as Hs. unfold ascending.
  induction Hs as [|a l Hs IH Ha]; constructor; [done|]. eapply Forall_impl; [exact Ha|]. intros b. apply path_order_weight.
Qed.

Lemma weighted_paths_spec wanted :
  (1 ≤ to_node_limit options)%N →
  searched wanted (no_heavier request) (weighted_paths g request wanted (runtime_new request)) ∧
  ∀ rt paths, weighted_paths g request wanted (runtime_new request) = Some (Ok (rt, paths)) → ascending paths.
Proof using Hg Hstart.
  intros Hl. unfold weighted_paths.
  assert (Hs : searched wanted (no_heavier request)
    (weighted_loop g request wanted (search_fuel request) (runtime_new request) [path_start (tq_start request)] [])).
  { apply weighted_loop_spec with (popped := []) (routes := []); [|apply work_start].
    split; try (intros ? Hp; by apply not_elem_of_nil in Hp).
    - apply explored_start.
    - by apply runtime_new_ok.
    - constructor.
    - constructor.
    - rewrite len_nil. lia.
    - intros p q Hp. by apply not_elem_of_nil in Hp. }
  destruct (weighted_loop _ _ _ _ _ _ _) as [[[rt paths]|e]|]; [|by split|done].
  destruct Hs as [routes Hf]. split; [|intros ? ? [= <- <-]; apply sort_by_path_order_ascending].
  eapply found_perm; [apply sort_by_perm|exact Hf].
Qed.

(** Start and target are one node: the empty route is the only one. *)
Lemma trivial_found wanted le :
  tq_start request = target → (1 ≤ to_node_limit options)%N → (1 ≤ wanted)%N →
  found wanted le (runtime_new request) [[]] [{| tp_segments := []; tp_total_weight := f_zero; tp_cross_repo_hops := 0 |}].
Proof using Hstart.
  intros Heq Hl Hw.
  assert (Hb : ∀ ok, best wanted le [[]] ok).
  { intros ok q (Hr & Hend & _). left. rewrite (route_end_once nodes edges request [] q Hr); [by left|].
    simpl. rewrite Hend. by symmetry. }
  split; auto.
  - by apply runtime_new_ok.
  - repeat constructor.
  - apply NoDup_singleton.
  - intros p ->%list_elem_of_singleton. split_and!; [constructor|done|]. unfold TraversalSpec.within_bounds, len. simpl. lia.
Qed.
End correct.

(** ** Requests and graphs that are accepted *)
Record limits_valid (o : TraversalOptions) : Prop := {
  lv_depth : (1 ≤ to_max_depth o ≤ MAX_TRAVERSAL_DEPTH)%N;
  lv_nodes : (1 ≤ to_node_limit o ≤ MAX_TRAVERSAL_NODES)%N;
  lv_edges : (1 ≤ to_edge_limit o ≤ MAX_TRAVERSAL_EDGES)%N;
  lv_timeout : (to_timeout_ms o ≤ MAX_TRAVERSAL_TIMEOUT_MS)%N;
  lv_k : (1 ≤ to_k o ≤ MAX_K_PATHS)%N;
}.

Record costs_valid (costs : list EdgeKindCost) : Prop := {
  cv_positive : Forall (λ c, f_is_finite (ekc_cost c) = true ∧ f_lt f_zero (ekc_cost c) = true) costs;
  cv_distinct : NoDup (map ekc_kind costs);
}.

Record valid_traversal (nodes : list Node) (edges : list Edge) (request : TraversalRequest) : Prop := {
  vt_limits : limits_valid (tq_options request);
  vt_confidence : f64_in_unit (tf_min_confidence (tq_filters request)) = true;
  vt_costs : costs_valid (to_edge_kind_costs (tq_options request));
  vt_nodes : NoDup (map node_id nodes);
  vt_edges : NoDup (map edge_id edges);
  vt_graph : ∀ e, e ∈ edges → edge_source e ∈ map node_id nodes ∧ edge_target e ∈ map node_id nodes ∧
               f64_in_unit (f64_from_f32 (edge_confidence e)) = true;
  vt_start : tq_start request ∈ map node_id nodes;
  vt_target : tq_target request ∈ map node_id nodes;
}.

Lemma limits_invalid_false o : limits_invalid o = false ↔ limits_valid o.
Proof.
  unfold limits_invalid. rewrite !orb_false_iff, !N.eqb_neq, !N.ltb_ge.
  split; [intros [[[[[[[[]]]]]]]]; split; lia|intros []; split_and!; lia].
Qed.

Lemma positive_cost x : negb (f_is_finite x) || f_le x f_zero = false ↔ f_is_finite x = true ∧ f_lt f_zero x = true.
Proof.
  rewrite orb_false_iff, negb_false_iff. unfold f_le, f_lt, SFleb, SFltb. destruct x as [[]|[]| |[] m e]; simpl; naive_solver.
Qed.

Lemma validate_costs costs kinds kinds' :
  NoDup kinds →
  try_fold validate_cost kinds costs = Ok kinds' ↔
  kinds' = kinds ++ map ekc_kind costs ∧
  Forall (λ c, f_is_finite (ekc_cost c) = true ∧ f_lt f_zero (ekc_cost c) = true) costs ∧
  NoDup (kinds ++ map ekc_kind costs).
Proof.
  revert kinds. induction costs as [|c costs IH]; intros kinds Hk; cbn [try_fold map].
  { rewrite app_nil_r. split; [by intros [= <-]|by intros (-> & _)]. }
  rewrite result_bind_Ok, Forall_cons, <-positive_cost. unfold validate_cost at 1.
  replace (kinds ++ ekc_kind c :: map ekc_kind costs) with ((kinds ++ [ekc_kind c]) ++ map ekc_kind costs) by by rewrite <-app_assoc.
  destruct (negb _ || f_le _ _); cbn [orb]; [naive_solver|]. case_bool_decide as Hin.
  { split; [naive_solver|]. rewrite !NoDup_app. intros (_ & _ & (_ & Hn & _) & _). destruct (Hn _ Hin). by left. }
  assert (Hk' : NoDup (kinds ++ [ekc_kind c])).
  { apply NoDup_app. split_and!; [done| |apply NoDup_singleton]. by intros x Hx ->%list_elem_of_singleton. }
  specialize (IH _ Hk'). split.
  - intros (k & [= <-] & (-> & ? & ?)%IH). done.
  - intros (-> & [_ ?] & ?). eexists. split; [done|]. by apply IH.
Qed.

Lemma validate_traversal_request_Ok request :
  validate_traversal_request request = Ok tt ↔
  limits_valid (tq_options request) ∧ f64_in_unit (tf_min_confidence (tq_filters request)) = true ∧
  costs_valid (to_edge_kind_costs (tq_options request)).
Proof.
  unfold validate_traversal_request. rewrite <-limits_invalid_false.
  destruct (limits_invalid _); [naive_solver|]. destruct (f64_in_unit _); cbn [negb]; [|naive_solver].
  rewrite result_bind_Ok. setoid_rewrite validate_costs; [|constructor]. simpl. split.
  - intros (k & (-> & ? & ?) & _). by split_and!.
  - intros (_ & _ & [? ?]). eexists. by split_and!.
Qed.

Lemma require_anchor_Ok g v : require_anchor g v = Ok tt ↔ is_Some (tg_nodes g !! v).
Proof. unfold require_anchor. rewrite <-contains_key_true. by destruct (contains_key _ _). Qed.

Lemma node_ids_lookup nodes (m : gmap NodeId Node) v :
  distinct_nodes nodes = Ok m → is_Some (m !! v) ↔ v ∈ map node_id nodes.
Proof.
  intros Hm. unfold is_Some. setoid_rewrite (distinct_nodes_lookup _ _ _ _ Hm).
  rewrite list_elem_of_In, in_map_iff. setoid_rewrite <-list_elem_of_In. naive_solver.
Qed.

(** The checks that [traverse] makes before it searches. *)
Definition checked (nodes : list Node) (edges : list Edge) (request : TraversalRequest) : result QueryError TraversalGraph :=
  check? validate_traversal_request request in
  let? graph := graph_new nodes edges in
  check? require_anchor graph (tq_start request) in
  check? require_anchor graph (tq_target request) in
  Ok graph.

Lemma checked_Ok nodes edges request :
  (∃ g, checked nodes edges request = Ok g) ↔ valid_traversal nodes edges request.
Proof.
  unfold checked. setoid_rewrite check_Ok. setoid_rewrite validate_traversal_request_Ok. setoid_rewrite result_bind_Ok.
  setoid_rewrite check_Ok. setoid_rewrite check_Ok. setoid_rewrite require_anchor_Ok. split.
  - intros (g & (Hl & Hc & Hk) & g' & Hg & Hs & Ht & [= <-]).
    apply graph_new_Ok in Hg as [Hn Hi He _ _].
    apply (node_ids_lookup _ _ _ Hn) in Hs, Ht. split; try done; [by apply distinct_nodes_Ok in Hn as []|].
    intros e Hin. destruct (He e Hin) as (? & ? & ?). by rewrite <-!(node_ids_lookup _ _ _ Hn).
  - intros []. destruct (proj2 (graph_new_valid nodes edges)) as [g Hg].
    { split_and!; [done..|]. intros e Hin. unfold edge_valid.
      assert (Hm := proj2 (distinct_nodes_Ok nodes _) (conj vt_nodes0 eq_refl)).
      rewrite !(node_ids_lookup _ _ _ Hm). by apply vt_graph0. }
    exists g. split; [by split_and!|]. exists g. apply graph_new_Ok in Hg as Hg'. destruct Hg' as [Hn _ _ _ _].
    by rewrite !(node_ids_lookup _ _ _ Hn).
Qed.

(** ** What [traverse] reports *)

(** The report of a runtime and paths. *)
Record report_of (nodes : list Node) (rt : TraversalRuntime) (report : TraversalReport) : Prop := {
  rf_gaps : ∀ gap, gap ∈ trv_coverage_gaps report ↔
    gap ∈ rt_coverage_gaps rt ∨ trv_paths report = [] ∧ gap = no_path_gap ∨ rt_candidate_edges rt ≠ ∅ ∧ gap = candidates_gap;
  rf_frontier : ∀ n, n ∈ trv_frontier report ↔ n ∈ nodes ∧ node_id n ∈ rt_frontier rt;
  rf_candidates : ∀ e, e ∈ trv_candidate_unresolved_edges report ↔ ∃ i, rt_candidate_edges rt !! i = Some e;
  rf_truncated : trv_truncated report = rt_truncated rt;
  rf_visited : trv_visited_nodes report = N.of_nat (size (rt_observed_nodes rt));
  rf_examined : trv_examined_edges report = rt_examined_edges rt;
}.

Definition max_paths (o : TraversalOptions) : N := if bool_decide (to_algorithm o = KShortest) then to_k o else 1.

Definition preferred (request : TraversalRequest) : list Adjacent → list Adjacent → Prop :=
  match to_algorithm (tq_options request) with Bfs => shorter | _ => no_heavier request end.

Lemma build_report_spec nodes edges g request rt paths :
  graph_of nodes edges g → runtime_ok edges g request rt →
  ∃ report, build_traversal_report g request rt paths = Ok report ∧ trv_paths report = paths ∧ report_of nodes rt report ∧
    tl_max_paths (trv_limits report) = max_paths (tq_options request).
Proof.
  intros Hg Hok. unfold build_traversal_report.
  set (rt1 := if is_empty_list paths then insert_gap no_path_gap rt else rt).
  assert (rt_candidate_edges rt1 = rt_candidate_edges rt) as Hc1 by (unfold rt1; by destruct (is_empty_list paths)).
  set (rt2 := if negb _ then insert_gap candidates_gap rt1 else rt1).
  assert (rt_frontier rt2 = rt_frontier rt ∧ rt_candidate_edges rt2 = rt_candidate_edges rt ∧ rt_truncated rt2 = rt_truncated rt
    ∧ rt_observed_nodes rt2 = rt_observed_nodes rt ∧ rt_examined_edges rt2 = rt_examined_edges rt) as (Hf & Hc & Ht & Ho & He).
  { unfold rt2, rt1. by destruct (negb _), (is_empty_list paths). }
  unfold frontier_nodes. rewrite Hf, Hc, Ht, Ho, He.
  destruct (try_fold_push (frontier_node g) (bset_elements (rt_frontier rt)) []) as (frontier & -> & Hall).
  { intros v Hv%bset_elements_elem_of. destruct (ro_frontier _ _ _ _ Hok v Hv) as [n Hn]. exists n.
    unfold frontier_node. by rewrite Hn. }
  cbn [result_bind]. eexists. split; [done|]. cbn [trv_paths]. split_and!; [done| |done]. split; cbn; try done.
  - intros gap. rewrite bset_elements_elem_of. unfold rt2. rewrite Hc1.
    assert (Hgap : gap ∈ rt_coverage_gaps rt1 ↔ gap ∈ rt_coverage_gaps rt ∨ paths = [] ∧ gap = no_path_gap).
    { unfold rt1. destruct paths; simpl; [rewrite elem_of_union, elem_of_singleton|]; naive_solver. }
    case_bool_decide as Hcand; cbn [negb]; [naive_solver|]. cbn [insert_gap rt_coverage_gaps].
    rewrite elem_of_union, elem_of_singleton, Hgap. naive_solver.
  - intros n. assert (Hin : n ∈ frontier ↔ ∃ v, v ∈ rt_frontier rt ∧ tg_nodes g !! v = Some n).
    { rewrite <-(app_nil_l frontier). setoid_rewrite <-bset_elements_elem_of. clear -Hall. simpl.
      induction Hall as [|v m l k Hv Hall IH]; [set_solver|]. setoid_rewrite elem_of_cons. rewrite IH.
      apply ok_or_Ok in Hv. naive_solver. }
    rewrite Hin. setoid_rewrite (node_lookup _ _ _ Hg). naive_solver.
  - intros e. by rewrite btree_values_elem_of.
Qed.

(** The outcome of the search over a checked graph. *)
Definition outcome `{Clock} (nodes : list Node) (edges : list Edge) (request : TraversalRequest)
    (r : option (result QueryError TraversalReport)) : Prop :=
  match r with
  | None => False
  | Some (Err e) => ∃ x, x ∈ edges ∧ edge_weight x (tq_options request) = Err e
  | Some (Ok report) => ∃ g rt routes,
      graph_of nodes edges g ∧ report_of nodes rt report ∧
      found nodes edges g request (max_paths (tq_options request)) (preferred request) rt routes (trv_paths report) ∧
      (to_algorithm (tq_options request) ≠ Bfs → ascending (trv_paths report)) ∧
      tl_max_paths (trv_limits report) = max_paths (tq_options request)
  end.

Lemma report_outcome `{Clock} nodes edges g request r :
  graph_of nodes edges g →
  searched nodes edges g request (max_paths (tq_options request)) (preferred request) r →
  (∀ rt paths, r = Some (Ok (rt, paths)) → to_algorithm (tq_options request) ≠ Bfs → ascending paths) →
  outcome nodes edges request
    match r with
    | None => None
    | Some (Err e) => Some (Err e)
    | Some (Ok (rt, paths)) => Some (build_traversal_report g request rt paths)
    end.
Proof.
  intros Hg Hr Hasc. destruct r as [[[rt paths]|e]|]; [|done|done]. destruct Hr as [routes Hf].
  destruct (build_report_spec nodes edges g request rt paths Hg (fd_runtime _ _ _ _ _ _ _ _ _ Hf)) as (report & -> & Hp & Hrep & Hmax).
  exists g, rt, routes. rewrite Hp. split_and!; eauto.
Qed.

Lemma traverse_valid `{Clock} nodes edges request :
  valid_traversal nodes edges request → outcome nodes edges request (traverse nodes edges request).
Proof.
  intros Hv. pose proof (proj2 (checked_Ok _ _ _) Hv) as [g Hchk]. unfold traverse.
  fold (checked nodes edges request). rewrite Hchk. destruct Hv as [[_ [Hl _] _ _ [Hk _]] _ _ _ _ _ Hs _].
  assert (Hg : graph_of nodes edges g).
  { unfold checked in Hchk. apply check_Ok in Hchk as [_ (g' & Hg & Hrest)%result_bind_Ok].
    apply check_Ok in Hrest as [_ [_ [= <-]]%check_Ok]. by apply graph_new_Ok. }
  assert (Hst : is_Some (tg_nodes g !! tq_start request)) by by apply (node_ids_lookup _ _ _ (go_nodes _ _ _ Hg)).
  assert (Hmax : (1 ≤ max_paths (tq_options request))%N) by (unfold max_paths; case_bool_decide; lia).
  apply report_outcome; [done| |].
  - destruct (String.eqb_spec (tq_start request) (tq_target request)) as [Heq|_].
    { eexists. by apply trivial_found. }
    unfold max_paths, preferred. destruct (to_algorithm (tq_options request)) eqn:Ea.
    + by apply bfs_spec.
    + by apply (weighted_paths_spec nodes edges g request Hg Hst 1).
    + by apply (weighted_paths_spec nodes edges g request Hg Hst (to_k (tq_options request))).
  - intros rt paths. destruct (String.eqb (tq_start request) (tq_target request)).
    { intros [= <- <-] _. by repeat constructor. }
    destruct (to_algorithm (tq_options request)); [done|..]; intros Hp _; revert Hp; by apply (weighted_paths_spec nodes edges g request Hg Hst).
Qed.

(** A bound that loses routes was noted in the report. *)
Definition cut_short (report : TraversalReport) : Prop :=
  timeout_gap ∈ trv_coverage_gaps report ∨ edge_gap ∈ trv_coverage_gaps report ∨ node_gap ∈ trv_coverage_gaps report.

Section theorems.
Context `{Clock} (nodes : list Node) (edges : list Edge) (request : TraversalRequest).
Local Notation route := (route nodes edges request).
Local Notation route_end := (route_end request).

Lemma traverse_accepted report :
  traverse nodes edges request = Some (Ok report) → outcome nodes edges request (Some (Ok report)).
Proof using.
  intros E. rewrite <-E. apply traverse_valid, checked_Ok. unfold traverse in E. fold (checked nodes edges request) in E.
  destruct (checked nodes edges request) as [g|e]; [by eexists|done].
Qed.

Lemma cut_short_stopped rt report :
  report_of nodes rt report → cut_short report ↔ stopped_early (rt_coverage_gaps rt).
Proof using.
  intros [Hgaps _ _ _ _ _]. unfold cut_short, stopped_early. rewrite !Hgaps. naive_solver.
Qed.

Lemma segments_of_length v p segments : segments_of nodes request v p segments → length segments = length p.
Proof using.
  revert v segments. induction p as [|a p IH]; intros v [|sg segments]; simpl; try done. intros [_ Hs]. f_equal. by eapply IH.
Qed.

Lemma reports_length p path : reports nodes request p path → length (tp_segments path) = length p.
Proof using. intros [Hs _ _]. by eapply segments_of_length. Qed.

(** Which routes the report has to account for. *)
Definition accounted (report : TraversalReport) (q : list Adjacent) : Prop :=
  route q ∧ route_end q = tq_target request ∧
  (¬ cut_short report ∧ within_bounds nodes request q ∨ trv_truncated report = false).

Lemma accounted_best report :
  traverse nodes edges request = Some (Ok report) →
  ∃ routes, Forall2 (reports nodes request) routes (trv_paths report) ∧
    ∀ q, accounted report q → q ∈ routes ∨
      len routes = max_paths (tq_options request) ∧ ∀ p, p ∈ routes → preferred request p q.
Proof using.
  intros (g & rt & routes & Hg & Hrep & Hf & _ & _)%traverse_accepted. exists routes. split; [apply Hf|].
  intros q (Hr & Hend & [[Hcut Hb]|Ht]).
  - apply (fd_best _ _ _ _ _ _ _ _ _ Hf); [by rewrite <-(cut_short_stopped _ _ Hrep)|by split_and!].
  - apply (fd_best_all _ _ _ _ _ _ _ _ _ Hf); [by rewrite <-(rf_truncated _ _ _ Hrep)|by split_and!].
Qed.
End theorems.

(** C33: [traverse] always ends. It accepts a request exactly when the limits,
    the confidence bound and the edge-kind costs are in range, identifiers are
    distinct, edges have their endpoints and a confidence in the unit interval,
    and both anchors exist; it then reports, unless a relationship's weight is
    not a finite positive number. Anything else is an error. *)
Theorem traverse_total `{Clock} nodes edges request :
  (valid_traversal nodes edges request →
    (∃ report, traverse nodes edges request = Some (Ok report)) ∨
    ∃ x e, x ∈ edges ∧ edge_weight x (tq_options request) = Err e ∧ traverse nodes edges request = Some (Err e)) ∧
  (¬ valid_traversal nodes edges request → ∃ e, traverse nodes edges request = Some (Err e)).
Proof.
  split.
  - intros Hv%traverse_valid. destruct (traverse _ _ _) as [[report|e]|]; [eauto|right|done].
    destruct Hv as (x & Hx & Hw). eauto.
  - intros Hv. rewrite <-checked_Ok in Hv. unfold traverse. fold (checked nodes edges request).
    destruct (checked nodes edges request) as [g|e]; [destruct Hv; by eexists|by eexists].
Qed.

(** C4: Every path that [traverse] returns is a loop-free chain of confirmed
    relationships of the graph that pass the filters, from the start to the
    target, within the depth and repository-crossing bounds; its segments name
    the nodes, edges, directions and scopes of the chain, its weight is the sum
    of theirs and its hops are the crossings. Paths are distinct. *)
Theorem traverse_paths_real `{Clock} nodes edges request report :
  traverse nodes edges request = Some (Ok report) →
  ∃ routes, Forall2 (reports nodes request) routes (trv_paths report) ∧ NoDup routes ∧
    ∀ p, p ∈ routes → route nodes edges request p ∧ route_end request p = tq_target request ∧ within_bounds nodes request p.
Proof.
  intros (g & rt & routes & _ & _ & Hf & _)%traverse_accepted. exists routes. split_and!; apply Hf.
Qed.

(** A breadth-first traversal that was not cut short by time, edges or nodes
    returns a path with as few relationships as any route within the bounds; one
    that was not truncated at all, as few as any route. So no path in such a
    report means that there is no route. *)
Theorem traverse_shortest `{Clock} nodes edges request report q :
  traverse nodes edges request = Some (Ok report) → to_algorithm (tq_options request) = Bfs →
  accounted nodes edges request report q →
  ∃ path, trv_paths report = [path] ∧ (length (tp_segments path) <= length q)%nat.
Proof.
  intros Ht Ha Hq. destruct (accounted_best _ _ _ _ Ht) as (routes & Hrep & Hbest).
  assert (Hmax : (len routes ≤ 1)%N).
  { apply traverse_accepted in Ht as (g & rt & routes' & _ & _ & Hf & _).
    rewrite (Forall2_len _ _ _ Hrep), <-(Forall2_len _ _ _ (fd_reports _ _ _ _ _ _ _ _ _ Hf)).
    etrans; [apply Hf|]. unfold max_paths. by rewrite Ha. }
  unfold preferred, max_paths in Hbest. rewrite Ha in Hbest. unfold len in Hmax.
  destruct Hrep as [|p path routes paths Hp Hrest].
  - destruct (Hbest q Hq) as [Hin|[Hl _]]; [by apply not_elem_of_nil in Hin|done].
  - destruct routes; [|simpl in Hmax; lia]. inversion Hrest; subst. exists path. split; [done|].
    rewrite (reports_length _ _ _ _ Hp). destruct (Hbest q Hq) as [->%list_elem_of_singleton|[_ Hl]]; [lia|apply Hl; by left].
Qed.

(** C3: A traversal by cost that was not cut short by time, edges or nodes
    returns the lightest routes within the bounds, in ascending weight: a route
    is among the returned paths, or as many as wanted are returned and none is
    heavier, in the order of accumulated floating-point weights. *)
Theorem traverse_lightest `{Clock} nodes edges request report q :
  traverse nodes edges request = Some (Ok report) → to_algorithm (tq_options request) ≠ Bfs →
  accounted nodes edges request report q →
  ascending (trv_paths report) ∧
  ((∃ path, path ∈ trv_paths report ∧ reports nodes request q path) ∨
   len (trv_paths report) = max_paths (tq_options request) ∧
   ∀ path, path ∈ trv_paths report → f_total_cmp (tp_total_weight path) (route_weight request q) ≠ Gt).
Proof.
  intros Ht Ha Hq. split.
  { by apply traverse_accepted in Ht as (g & rt & routes & _ & _ & _ & Hasc & _); apply Hasc. }
  destruct (accounted_best _ _ _ _ Ht) as (routes & Hrep & Hbest).
  destruct (Hbest q Hq) as [[i Hi]%list_elem_of_lookup|[Hl Hall]].
  - left. destruct (Forall2_lookup_l _ _ _ _ _ Hrep Hi) as (path & Hpath & Hp). exists path.
    split; [by eapply list_elem_of_lookup_2|done].
  - right. rewrite <-(Forall2_len _ _ _ Hrep). split; [done|]. intros path [i Hi]%list_elem_of_lookup.
    destruct (Forall2_lookup_r _ _ _ _ _ Hrep Hi) as (p & Hp & [_ -> _]).
    specialize (Hall p (list_elem_of_lookup_2 _ _ _ Hp)). unfold preferred in Hall. by destruct (to_algorithm _).
Qed.

(** A report stays within its limits: nodes, edges and paths; its frontier
    holds nodes of the graph and its candidates relationships of the graph that
    are not confirmed; a report that is not marked truncated notes no bound. *)
Theorem traverse_within_limits `{Clock} nodes edges request report :
  traverse nodes edges request = Some (Ok report) →
  (trv_visited_nodes report ≤ to_node_limit (tq_options request))%N ∧
  (trv_examined_edges report ≤ to_edge_limit (tq_options request))%N ∧
  (len (trv_paths report) ≤ tl_max_paths (trv_limits report))%N ∧
  (∀ n, n ∈ trv_frontier report → n ∈ nodes) ∧
  (∀ e, e ∈ trv_candidate_unresolved_edges report → e ∈ edges ∧ edge_status e ≠ Confirmed) ∧
  (trv_truncated report = false → ∀ gap, gap ∈ bound_gaps → gap ∉ trv_coverage_gaps report).
Proof.
  intros (g & rt & routes & _ & [Hgaps Hfr Hca Htr Hvi Hex] & [[] Hrep _ Hw _ _ _] & _ & Hmax)%traverse_accepted.
  rewrite Hvi, Hex, Hmax, <-(Forall2_len _ _ _ Hrep). split_and!; try done.
  - intros n. rewrite Hfr. by intros [? _].
  - intros e. rewrite Hca. intros [i Hi]. by eapply ro_candidates.
  - intros Ht gap Hgap. rewrite Hgaps, Htr in *. intros [Hin|[[_ ->]|[_ ->]]]; [by eapply ro_truncated| |];
      by repeat (apply elem_of_cons in Hgap as [?|Hgap]; [done|]); apply not_elem_of_nil in Hgap.
Qed.

Module Example_traversal.
Definition node (id repo : string) : Node :=
  {| node_id := id; node_kind := NK_Service; node_repo_id := Some repo; node_stable_key := "svc:" +:+ id; node_label := id |}.
Definition edge (id source target : string) (kind : EdgeKind) (status : EpistemicStatus) : Edge :=
  {| edge_id := id; edge_source := source; edge_target := target; edge_kind := kind; edge_confidence := f32_one;
     edge_status := status; edge_evidence := [] |}.
Definition services : list Node := [node "a" "r1"; node "b" "r1"; node "c" "r2"].
(** A direct relationship, a lighter way through [b], and an inferred one. *)
Definition calls : list Edge :=
  [edge "1" "a" "c" CallsRemote Confirmed; edge "2" "a" "b" DependsOnPackage Confirmed;
   edge "3" "b" "c" DependsOnPackage Confirmed; edge "4" "a" "c" CallsRemote Inferred].

Definition request (algorithm : TraversalAlgorithm) (k : N) : TraversalRequest :=
  {| tq_start := "a"; tq_target := "c"; tq_filters := default_filters;
     tq_options := {| to_algorithm := algorithm; to_direction := Outgoing; to_max_depth := 8; to_max_cross_repo_hops := 4;
       to_node_limit := 100; to_edge_limit := 100; to_timeout_ms := 1000; to_k := k;
       to_edge_kind_costs := [{| ekc_kind := DependsOnPackage; ekc_cost := f64_lit 1 (-2) |}] |} |}.

#[local] Instance still : Clock := λ _, 0%N.

Definition path_ids (path : TraversalPath) : list string * N :=
  (map (λ s, edge_id (seg_edge (sg_trace s))) (tp_segments path), tp_cross_repo_hops path).

Definition summary (r : option (result QueryError TraversalReport)) : option (list (list string * N) * bool * list string) :=
  match r with
  | Some (Ok r) => Some (map path_ids (trv_paths r), trv_truncated r, map edge_id (trv_candidate_unresolved_edges r))
  | _ => None
  end.

Example each_algorithm :
  map (λ '(a, k), summary (traverse services calls (request a k))) [(Bfs, 1%N); (Dijkstra, 1%N); (KShortest, 2%N)] =
  [Some ([(["1"], 1%N)], false, ["4"]); Some ([(["2"; "3"], 1%N)], false, ["4"]);
   Some ([(["2"; "3"], 1%N); (["1"], 1%N)], false, ["4"])].
Proof. vm_compute. reflexivity. Qed.

(** The deadline has passed at the first reading. *)
Example late : summary (@traverse (λ _, 2000000000%N) services calls (request Bfs 1)) = Some ([], true, []).
Proof. vm_compute. reflexivity. Qed.

Lemma direct_route algorithm k : route services calls (request algorithm k) [out_adjacent (edge "1" "a" "c" CallsRemote Confirmed)].
Proof.
  apply (route_step services calls (request algorithm k) []); [constructor| |].
  - split; [exists (edge "1" "a" "c" CallsRemote Confirmed); split; [by left|by left]|by vm_compute|done|].
    exists (node "c" "r2"). split_and!; [by do 2 right; left|done|by vm_compute].
  - intros Hin. by apply list_elem_of_singleton in Hin.
Qed.

Lemma direct_bounds algorithm k :
  within_bounds services (request algorithm k) [out_adjacent (edge "1" "a" "c" CallsRemote Confirmed)].
Proof. split; vm_compute; discriminate. Qed.

Lemma traversal_request_valid algorithm : valid_traversal services calls (request algorithm 1).
Proof.
  apply checked_Ok. destruct (checked services calls (request algorithm 1)) as [g|e] eqn:E; [by exists g|].
  destruct algorithm; vm_compute in E; discriminate E.
Qed.

Lemma accounted_direct algorithm k report :
  trv_truncated report = false →
  accounted services calls (request algorithm k) report [out_adjacent (edge "1" "a" "c" CallsRemote Confirmed)].
Proof. intros Ht. split; [apply direct_route|]. split; [reflexivity|]. right. exact Ht. Qed.

Lemma traverse_total_witness :
  valid_traversal services calls (request Bfs 1) ∧
  ((∃ report, traverse services calls (request Bfs 1) = Some (Ok report)) ∨
   ∃ x e, x ∈ calls ∧ edge_weight x (tq_options (request Bfs 1)) = Err e ∧ traverse services calls (request Bfs 1) = Some (Err e)).
Proof. split; [apply traversal_request_valid|]. apply (proj1 (traverse_total services calls (request Bfs 1))), traversal_request_valid. Defined.

Lemma traverse_paths_real_witness :
  ∃ report routes, traverse services calls (request KShortest 2) = Some (Ok report) ∧ length routes = 2%nat ∧
    ∀ p, p ∈ routes → route services calls (request KShortest 2) p.
Proof.
  destruct (traverse services calls (request KShortest 2)) as [[report|e]|] eqn:E; try (vm_compute in E; discriminate E).
  destruct (traverse_paths_real services calls (request KShortest 2) report E) as (routes & Hrep & _ & Hall).
  exists report, routes. split; [reflexivity|]. split; [|intros p Hp; apply (Hall p Hp)].
  apply Forall2_length in Hrep. rewrite Hrep. vm_compute in E. injection E as <-. reflexivity.
Defined.

Lemma traverse_shortest_witness :
  ∃ report path, traverse services calls (request Bfs 1) = Some (Ok report) ∧ trv_paths report = [path] ∧
    (length (tp_segments path) <= 1)%nat.
Proof.
  destruct (traverse services calls (request Bfs 1)) as [[report|e]|] eqn:E; try (vm_compute in E; discriminate E).
  destruct (traverse_shortest services calls (request Bfs 1) report
    [out_adjacent (edge "1" "a" "c" CallsRemote Confirmed)] E eq_refl) as (path & Hp & Hl).
  - apply accounted_direct. vm_compute in E. injection E as <-. reflexivity.
  - exists report, path. split; [reflexivity|]. split; assumption.
Defined.

Lemma traverse_lightest_witness :
  ∃ report, traverse services calls (request Dijkstra 1) = Some (Ok report) ∧ ascending (trv_paths report).
Proof.
  destruct (traverse services calls (request Dijkstra 1)) as [[report|e]|] eqn:E; try (vm_compute in E; discriminate E).
  destruct (traverse_lightest services calls (request Dijkstra 1) report
    [out_adjacent (edge "1" "a" "c" CallsRemote Confirmed)] E) as [Ha _].
  - discriminate.
  - apply accounted_direct. vm_compute in E. injection E as <-. reflexivity.
  - exists report. split; [reflexivity|exact Ha].
Defined.

Lemma traverse_within_limits_witness :
  ∃ report, traverse services calls (request Bfs 1) = Some (Ok report) ∧ (trv_visited_nodes report ≤ 100)%N.
Proof.
  destruct (traverse services calls (request Bfs 1)) as [[report|e]|] eqn:E; try (vm_compute in E; discriminate E).
  exists report. split; [reflexivity|]. apply (traverse_within_limits services calls (request Bfs 1) report E).
Defined.
End Example_traversal.
