(* ===== verification/Method.v ===== *)
(** * Fallible methods on a mutable receiver

    A [&mut self] method that returns [Result] is a function from the state to
    the state it leaves, also when it fails, and its result; [?] stops at the
    first error and keeps what was written before it. *)
From stdpp Require Import base list.
From S2P Require Import Prelude.

Definition method (S E A : Type) : Type := S → S * result E A.

Definition m_bind {S E A B} (m : method S E A) (k : A → method S E B) : method S E B :=
  λ s, match m s with
       | (s', Ok a) => k a s'
       | (s', Err e) => (s', Err e)
       end.

(** A [&self] method, and an assignment. *)
Definition m_read {S E A} (f : S → result E A) : method S E A := λ s, (s, f s).
Definition m_write {S E} (f : S → S) : method S E unit := λ s, (f s, Ok tt).

Declare Scope method_scope.
Delimit Scope method_scope with method.
Notation "'let!' x := c1 'in' c2" := (m_bind c1 (λ x, c2))
  (at level 200, x binder, c1 at level 100, c2 at level 200, right associativity) : method_scope.
Notation "'do!' c1 'in' c2" := (m_bind c1 (λ _, c2))
  (at level 200, c1 at level 100, c2 at level 200, right associativity) : method_scope.
#[global] Open Scope method_scope.

(** [for x in xs { self.f(x)?; }] *)
Fixpoint m_each {S E A} (f : A → method S E unit) (xs : list A) : method S E unit :=
  match xs with
  | [] => m_read (λ _, Ok tt)
  | x :: xs => do! f x in m_each f xs
  end.

(** The same calls by a caller that ignores the errors. *)
Fixpoint m_all {S E A} (f : A → method S E unit) (xs : list A) (s : S) : S :=
  match xs with
  | [] => s
  | x :: xs => m_all f xs (f x s).1
  end.

(** A loop of checks, [for x in xs { check(x)?; }]. *)
Definition try_each {E A} (f : A → result E unit) (xs : list A) : result E unit :=
  try_fold (λ _, f) tt xs.

Lemma try_each_Ok {E A} (f : A → result E unit) xs :
  try_each f xs = Ok tt ↔ Forall (λ x, f x = Ok tt) xs.
Proof.
  unfold try_each. induction xs as [|x xs IH]; simpl; [by split; auto|].
  rewrite Forall_cons, <-IH. destruct (f x) as [[]|]; simpl; split; [auto|tauto|done|by intros []].
Qed.

Lemma m_each_app {S E A} (f : A → method S E unit) xs ys s :
  m_each f (xs ++ ys) s = (do! m_each f xs in m_each f ys) s.
Proof.
  revert s. induction xs as [|x xs IH]; intros s; [done|].
  simpl. unfold m_bind in *. destruct (f x s) as [s' [[]|]]; [apply IH|done].
Qed.

Lemma m_each_cons_Ok {S E A} (f : A → method S E unit) x xs s s' :
  m_each f (x :: xs) s = (s', Ok tt) ↔ ∃ s1, f x s = (s1, Ok tt) ∧ m_each f xs s1 = (s', Ok tt).
Proof.
  simpl. unfold m_bind. destruct (f x s) as [s1 [[]|]]; naive_solver.
Qed.

(** ** Invariants *)
Definition preserves {S E A} (I : S → Prop) (m : method S E A) : Prop := ∀ s, I s → I (m s).1.

Lemma preserves_bind {S E A B} (I : S → Prop) (m : method S E A) (k : A → method S E B) :
  preserves I m → (∀ a, preserves I (k a)) → preserves I (m_bind m k).
Proof.
  intros Hm Hk s Hs. specialize (Hm s Hs). unfold m_bind. destruct (m s) as [s' []]; [by apply Hk|done].
Qed.

Lemma preserves_read {S E A} (I : S → Prop) (f : S → result E A) : preserves I (m_read f).
Proof. by intros s Hs. Qed.

Lemma preserves_all {S E A} (I : S → Prop) (f : A → method S E unit) xs s :
  (∀ x, preserves I (f x)) → I s → I (m_all f xs s).
Proof. intros Hf. revert s. induction xs as [|x xs IH]; intros s Hs; [done|]. apply IH, Hf, Hs. Qed.

Lemma preserves_all_Forall {S E A} (I : S → Prop) (P : A → Prop) (f : A → method S E unit) xs s :
  (∀ x, P x → preserves I (f x)) → Forall P xs → I s → I (m_all f xs s).
Proof.
  intros Hf Hxs. revert s. induction Hxs as [|x xs Hx Hxs IH]; intros s Hs; [done|]. by apply IH, Hf.
Qed.

Lemma preserves_each {S E A} (I : S → Prop) (f : A → method S E unit) xs :
  (∀ x, preserves I (f x)) → preserves I (m_each f xs).
Proof.
  intros Hf. induction xs as [|x xs IH]; [apply preserves_read|]. by apply preserves_bind.
Qed.

Create HintDb methods.
#[export] Hint Resolve preserves_bind preserves_read preserves_each : methods.
