(* ===== verification/CanonicalText.v ===== *)
(** * Canonical texts of settings

    Extraction budgets and execution policies are fingerprinted through the text
    ["name=value;name=value;..."] of their fields; the text determines the values. *)
From stdpp Require Import base list strings pretty.
From Stdlib Require Import Ascii.
From S2P Require Import Prelude RustStr Model.

(** [format!("{name}={value}")] *)
Definition canonical_entry (entry : string * N) : string := entry.1 +:+ "=" +:+ pretty entry.2.
Definition canonical_text (entries : list (string * N)) : string := join ";" (map canonical_entry entries).

Lemma contains_char_cons c d s : contains_char c (String d s) = (Ascii.eqb c d || contains_char c s)%bool.
Proof. done. Qed.

Lemma pretty_N_char_digit c x : ascii_in 48 57 c = false → Ascii.eqb c (pretty_N_char x) = false.
Proof.
  intros Hc. apply Ascii.eqb_neq. intros ->.
  revert Hc. unfold pretty_N_char. by repeat case_match.
Qed.

(** Decimal digits are the only characters of a printed number. *)
Lemma contains_char_pretty c (n : N) : ascii_in 48 57 c = false → contains_char c (pretty n) = false.
Proof.
  intros Hc. unfold pretty, pretty_N. destruct (decide (n = 0%N)) as [_|_].
  - change "0" with (String (pretty_N_char 0) "").
    by rewrite contains_char_cons, pretty_N_char_digit.
  - assert (contains_char c "" = false) as Hs by done. revert Hs. generalize "".
    induction (N.lt_wf_0 n) as [n _ IH]; intros s Hs.
    destruct (decide (0 < n)%N) as [Hn|Hn].
    + rewrite pretty_N_go_step by done. apply IH; [by apply N.div_lt|].
      by rewrite contains_char_cons, pretty_N_char_digit.
    + assert (n = 0%N) as -> by lia. by rewrite pretty_N_go_0.
Qed.

Lemma split_at_semicolon a b a' b' :
  contains_char ";"%char a = false → contains_char ";"%char a' = false →
  a +:+ ";" +:+ b = a' +:+ ";" +:+ b' → a = a' ∧ b = b'.
Proof. apply (split_at_char ";"%char). Qed.

Lemma canonical_entry_value name v v' rest rest' :
  canonical_entry (name, v) +:+ rest = canonical_entry (name, v') +:+ rest' →
  pretty v +:+ rest = pretty v' +:+ rest'.
Proof.
  unfold canonical_entry; simpl. rewrite <-!string_app_assoc.
  intros E%string_app_inj_l. by injection E.
Qed.

Lemma canonical_text_cons e es : es ≠ [] →
  canonical_text (e :: es) = canonical_entry e +:+ ";" +:+ canonical_text es.
Proof. by destruct es. Qed.

Lemma canonical_text_inj es es' : map fst es = map fst es' → canonical_text es = canonical_text es' → es = es'.
Proof.
  assert (∀ v, contains_char ";"%char (pretty (v : N)) = false) as Hdigits
    by (intros v; by apply contains_char_pretty).
  revert es'. induction es as [|[name v] es IH]; intros [|[name' v'] es'] Hnames E; try done.
  injection Hnames as <- Hnames. destruct es as [|e es], es' as [|e' es']; try done.
  - assert (E' : canonical_entry (name, v) +:+ "" = canonical_entry (name, v') +:+ "")
      by by rewrite !string_app_nil_r.
    apply canonical_entry_value, string_app_inj_r in E'. by rewrite (inj pretty _ _ E').
  - rewrite !canonical_text_cons in E by done. apply canonical_entry_value in E.
    apply split_at_semicolon in E as [->%(inj pretty) E]; [|apply Hdigits..].
    by rewrite (IH _ Hnames E).
Qed.

(** The entries can be read off the front of a longer text. *)
Lemma canonical_text_prefix_inj es es' rest rest' : es ≠ [] → map fst es = map fst es' →
  canonical_text es +:+ ";" +:+ rest = canonical_text es' +:+ ";" +:+ rest' → es = es' ∧ rest = rest'.
Proof.
  assert (∀ v, contains_char ";"%char (pretty (v : N)) = false) as Hdigits
    by (intros v; by apply contains_char_pretty).
  revert es'. induction es as [|[name v] es IH]; intros [|[name' v'] es'] Hne Hnames E; try done.
  injection Hnames as <- Hnames. destruct es as [|e es], es' as [|e' es']; try done.
  - apply (canonical_entry_value name v v'), split_at_semicolon in E as [->%(inj pretty) ->]; [done|apply Hdigits..].
  - rewrite (canonical_text_cons (name, v)), (canonical_text_cons (name, v')), <-!string_app_assoc in E by done.
    apply canonical_entry_value, split_at_semicolon in E as [->%(inj pretty) E]; [|apply Hdigits..].
    by destruct (IH (e' :: es') ltac:(done) Hnames E) as [-> ->].
Qed.

(** Identifiers of one namespace separate their keys as far as the digest does. *)
Definition digest_separates `{Blake3} : Prop := ∀ x y : string, blake3_hex x = blake3_hex y → x = y.

Lemma stable_id_inj `{Blake3} namespace key key' :
  digest_separates → stable_id namespace key = stable_id namespace key' → key = key'.
Proof.
  intros Hdigest. unfold stable_id, stable_id_bytes. intros E.
  do 2 apply string_app_inj_l in E. apply Hdigest, string_app_inj_l in E. by injection E.
Qed.
