(* ===== verification/Budget.v ===== *)
(** * Extraction budgets

    [extraction_budget.rs]: the limits of one extractor invocation, their
    resolution and fingerprint, the tracker that charges against them, and the
    writer that bounds the serialised output. A call that consults the clock
    takes the reading, in nanoseconds, as an argument. *)
From stdpp Require Import base list strings pretty.
From S2P Require Import Prelude Method RustOrd RustStr CanonicalText Model.
#[local] Open Scope N_scope.

Definition EXTRACTION_CONTRACT_VERSION : string := "1.2.1".

(** ** Limits *)
Record ExtractionBudgetOverrides := {
  eo_max_input_bytes_per_artifact : option N;
  eo_max_structural_depth_per_artifact : option N;
  eo_max_ast_depth_per_artifact : option N;
  eo_max_work_units_per_artifact : option N;
  eo_max_tree_sitter_nodes_per_artifact : option N;
  eo_max_observations_per_artifact : option N;
  eo_max_accumulated_string_bytes_per_artifact : option N;
  eo_max_serialized_output_bytes_per_artifact : option N;
  eo_max_string_bytes_per_value : option N;
  eo_max_portable_path_bytes_per_value : option N;
  eo_max_identifier_bytes_per_value : option N;
  eo_max_structured_wall_time_ms_per_artifact : option N;
  eo_max_tree_sitter_wall_time_ms_per_artifact : option N;
}.

Record ExtractionBudgets := {
  eb_max_input_bytes_per_artifact : N;
  eb_max_structural_depth_per_artifact : N;
  eb_max_ast_depth_per_artifact : N;
  eb_max_work_units_per_artifact : N;
  eb_max_tree_sitter_nodes_per_artifact : N;
  eb_max_observations_per_artifact : N;
  eb_max_accumulated_string_bytes_per_artifact : N;
  eb_max_serialized_output_bytes_per_artifact : N;
  eb_max_string_bytes_per_value : N;
  eb_max_portable_path_bytes_per_value : N;
  eb_max_identifier_bytes_per_value : N;
  eb_max_structured_wall_time_ms_per_artifact : N;
  eb_max_tree_sitter_wall_time_ms_per_artifact : N;
}.

Definition default_budgets : ExtractionBudgets := {|
  eb_max_input_bytes_per_artifact := 8388608;
  eb_max_structural_depth_per_artifact := 64;
  eb_max_ast_depth_per_artifact := 256;
  eb_max_work_units_per_artifact := 100000;
  eb_max_tree_sitter_nodes_per_artifact := 500000;
  eb_max_observations_per_artifact := 100000;
  eb_max_accumulated_string_bytes_per_artifact := 33554432;
  eb_max_serialized_output_bytes_per_artifact := 33554432;
  eb_max_string_bytes_per_value := 65536;
  eb_max_portable_path_bytes_per_value := 4096;
  eb_max_identifier_bytes_per_value := 1024;
  eb_max_structured_wall_time_ms_per_artifact := 5000;
  eb_max_tree_sitter_wall_time_ms_per_artifact := 10000;
|}.

(** [apply!] for every field. *)
Definition overridden (values : ExtractionBudgetOverrides) (budgets : ExtractionBudgets)
    : ExtractionBudgets := {|
  eb_max_input_bytes_per_artifact := default (eb_max_input_bytes_per_artifact budgets) (eo_max_input_bytes_per_artifact values);
  eb_max_structural_depth_per_artifact := default (eb_max_structural_depth_per_artifact budgets) (eo_max_structural_depth_per_artifact values);
  eb_max_ast_depth_per_artifact := default (eb_max_ast_depth_per_artifact budgets) (eo_max_ast_depth_per_artifact values);
  eb_max_work_units_per_artifact := default (eb_max_work_units_per_artifact budgets) (eo_max_work_units_per_artifact values);
  eb_max_tree_sitter_nodes_per_artifact := default (eb_max_tree_sitter_nodes_per_artifact budgets) (eo_max_tree_sitter_nodes_per_artifact values);
  eb_max_observations_per_artifact := default (eb_max_observations_per_artifact budgets) (eo_max_observations_per_artifact values);
  eb_max_accumulated_string_bytes_per_artifact := default (eb_max_accumulated_string_bytes_per_artifact budgets) (eo_max_accumulated_string_bytes_per_artifact values);
  eb_max_serialized_output_bytes_per_artifact := default (eb_max_serialized_output_bytes_per_artifact budgets) (eo_max_serialized_output_bytes_per_artifact values);
  eb_max_string_bytes_per_value := default (eb_max_string_bytes_per_value budgets) (eo_max_string_bytes_per_value values);
  eb_max_portable_path_bytes_per_value := default (eb_max_portable_path_bytes_per_value budgets) (eo_max_portable_path_bytes_per_value values);
  eb_max_identifier_bytes_per_value := default (eb_max_identifier_bytes_per_value budgets) (eo_max_identifier_bytes_per_value values);
  eb_max_structured_wall_time_ms_per_artifact := default (eb_max_structured_wall_time_ms_per_artifact budgets) (eo_max_structured_wall_time_ms_per_artifact values);
  eb_max_tree_sitter_wall_time_ms_per_artifact := default (eb_max_tree_sitter_wall_time_ms_per_artifact budgets) (eo_max_tree_sitter_wall_time_ms_per_artifact values);
|}.

Definition canonical_values (b : ExtractionBudgets) : list (string * N) := [
  ("maxInputBytesPerArtifact", eb_max_input_bytes_per_artifact b);
  ("maxStructuralDepthPerArtifact", eb_max_structural_depth_per_artifact b);
  ("maxAstDepthPerArtifact", eb_max_ast_depth_per_artifact b);
  ("maxWorkUnitsPerArtifact", eb_max_work_units_per_artifact b);
  ("maxTreeSitterNodesPerArtifact", eb_max_tree_sitter_nodes_per_artifact b);
  ("maxObservationsPerArtifact", eb_max_observations_per_artifact b);
  ("maxAccumulatedStringBytesPerArtifact", eb_max_accumulated_string_bytes_per_artifact b);
  ("maxSerializedOutputBytesPerArtifact", eb_max_serialized_output_bytes_per_artifact b);
  ("maxStringBytesPerValue", eb_max_string_bytes_per_value b);
  ("maxPortablePathBytesPerValue", eb_max_portable_path_bytes_per_value b);
  ("maxIdentifierBytesPerValue", eb_max_identifier_bytes_per_value b);
  ("maxStructuredWallTimeMsPerArtifact", eb_max_structured_wall_time_ms_per_artifact b);
  ("maxTreeSitterWallTimeMsPerArtifact", eb_max_tree_sitter_wall_time_ms_per_artifact b)].

Record InvalidExtractionBudget := { ib_field : string; ib_value : N }.

Definition check_budget_value (entry : string * N) : result InvalidExtractionBudget unit :=
  let '(field, value) := entry in
  let invalid := Err {| ib_field := field; ib_value := value |} in
  if value =? 0 then invalid
  else if contains_str "Bytes" field && (usize_max <? value) then invalid
  else Ok tt.

Definition validate (b : ExtractionBudgets) : result InvalidExtractionBudget unit :=
  try_each check_budget_value (canonical_values b).

Definition resolve (overrides : option ExtractionBudgetOverrides)
    : result InvalidExtractionBudget ExtractionBudgets :=
  let budgets := match overrides with
                 | Some values => overridden values default_budgets
                 | None => default_budgets
                 end in
  check? validate budgets in Ok budgets.

Definition fingerprint `{Blake3} (b : ExtractionBudgets) : string :=
  stable_id "extraction-budgets" (canonical_text (canonical_values b)).

(** ** The tracker *)
Inductive ExtractionResource :=
| InputBytes | StructuralDepth | AstDepth | WorkUnits | TreeSitterNodes | Observations
| AccumulatedStringBytes | SerializedOutputBytes | StringBytesPerValue
| PortablePathBytesPerValue | IdentifierBytesPerValue | StructuredWallTimeMs
| TreeSitterWallTimeMs.

Record ExtractionLimitExceeded := {
  le_artifact : string;
  le_extractor : string;
  le_resource : ExtractionResource;
  le_observed : N;
  le_maximum : N;
}.

Record ExtractionTracker := {
  et_budgets : ExtractionBudgets;
  et_artifact : string;
  et_extractor : string;
  et_work_units : N;
  et_tree_sitter_nodes : N;
  et_observations : N;
  et_accumulated_string_bytes : N;
  et_sampled_units : N;
}.

Definition new_tracker (artifact extractor : string) (budgets : ExtractionBudgets) : ExtractionTracker := {|
  et_budgets := budgets;
  et_artifact := artifact;
  et_extractor := extractor;
  et_work_units := 0;
  et_tree_sitter_nodes := 0;
  et_observations := 0;
  et_accumulated_string_bytes := 0;
  et_sampled_units := 0;
|}.

Definition with_counters (t : ExtractionTracker) (work nodes observations bytes sampled : N)
    : ExtractionTracker := {|
  et_budgets := et_budgets t;
  et_artifact := et_artifact t;
  et_extractor := et_extractor t;
  et_work_units := work;
  et_tree_sitter_nodes := nodes;
  et_observations := observations;
  et_accumulated_string_bytes := bytes;
  et_sampled_units := sampled;
|}.
Definition with_work_units (t : ExtractionTracker) (n : N) : ExtractionTracker :=
  with_counters t n (et_tree_sitter_nodes t) (et_observations t)
    (et_accumulated_string_bytes t) (et_sampled_units t).
Definition with_tree_sitter_nodes (t : ExtractionTracker) (n : N) : ExtractionTracker :=
  with_counters t (et_work_units t) n (et_observations t)
    (et_accumulated_string_bytes t) (et_sampled_units t).
Definition with_observations (t : ExtractionTracker) (n : N) : ExtractionTracker :=
  with_counters t (et_work_units t) (et_tree_sitter_nodes t) n
    (et_accumulated_string_bytes t) (et_sampled_units t).
Definition with_string_bytes (t : ExtractionTracker) (n : N) : ExtractionTracker :=
  with_counters t (et_work_units t) (et_tree_sitter_nodes t) (et_observations t)
    n (et_sampled_units t).
Definition with_sampled_units (t : ExtractionTracker) (n : N) : ExtractionTracker :=
  with_counters t (et_work_units t) (et_tree_sitter_nodes t) (et_observations t)
    (et_accumulated_string_bytes t) n.

Definition tracker_method := method ExtractionTracker ExtractionLimitExceeded.

Definition exceeded (t : ExtractionTracker) (resource : ExtractionResource) (observed maximum : N)
    : ExtractionLimitExceeded := {|
  le_artifact := et_artifact t;
  le_extractor := et_extractor t;
  le_resource := resource;
  le_observed := observed;
  le_maximum := maximum;
|}.

Definition check_value_bytes (t : ExtractionTracker) (observed maximum : N) (resource : ExtractionResource)
    : result ExtractionLimitExceeded unit :=
  if maximum <? observed then Err (exceeded t resource observed maximum) else Ok tt.

Definition check_input_bytes (t : ExtractionTracker) (observed : N) : result ExtractionLimitExceeded unit :=
  if eb_max_input_bytes_per_artifact (et_budgets t) <? observed then
    Err (exceeded t InputBytes observed (eb_max_input_bytes_per_artifact (et_budgets t)))
  else Ok tt.
Definition check_string_bytes (t : ExtractionTracker) (observed : N) : result ExtractionLimitExceeded unit :=
  check_value_bytes t observed (eb_max_string_bytes_per_value (et_budgets t)) StringBytesPerValue.
Definition check_identifier_bytes (t : ExtractionTracker) (observed : N)
    : result ExtractionLimitExceeded unit :=
  check_value_bytes t observed (eb_max_identifier_bytes_per_value (et_budgets t)) IdentifierBytesPerValue.
Definition check_accumulated_string_bytes (t : ExtractionTracker) (observed : N)
    : result ExtractionLimitExceeded unit :=
  check_value_bytes t observed (eb_max_accumulated_string_bytes_per_artifact (et_budgets t))
    AccumulatedStringBytes.

(** [checked_add] fails above [u64::MAX], which is then the observed value. *)
Definition charge_counter (t : ExtractionTracker) (current amount maximum : N)
    (resource : ExtractionResource) : result ExtractionLimitExceeded N :=
  if u64_max <? current + amount then Err (exceeded t resource u64_max maximum)
  else if maximum <? current + amount then Err (exceeded t resource (current + amount) maximum)
  else Ok (current + amount).

(** [as_millis] of the reading, saturated to [u64]. *)
Definition elapsed_millis (elapsed : N) : N := N.min (elapsed / 1000000) u64_max.

Definition check_elapsed (t : ExtractionTracker) (tree_sitter : bool) (elapsed : N)
    : result ExtractionLimitExceeded unit :=
  let observed := elapsed_millis elapsed in
  let '(resource, maximum) :=
    if tree_sitter
    then (TreeSitterWallTimeMs, eb_max_tree_sitter_wall_time_ms_per_artifact (et_budgets t))
    else (StructuredWallTimeMs, eb_max_structured_wall_time_ms_per_artifact (et_budgets t)) in
  if maximum <? observed then Err (exceeded t resource observed maximum) else Ok tt.

Definition units (t : ExtractionTracker) : N := saturating_add (et_work_units t) (et_tree_sitter_nodes t).

Definition sample_due (t : ExtractionTracker) : bool :=
  ((et_sampled_units t =? 0) && (0 <? units t))
  || (et_sampled_units t / 1024 <? units t / 1024).

Definition sample_time (tree_sitter : bool) (elapsed : N) : tracker_method unit := λ t,
  if sample_due t then
    (do! m_write (λ t, with_sampled_units t (units t)) in
     m_read (λ t, check_elapsed t tree_sitter elapsed)) t
  else (t, Ok tt).

Definition charge_work (amount elapsed : N) : tracker_method unit :=
  let! work := m_read (λ t, charge_counter t (et_work_units t) amount
                              (eb_max_work_units_per_artifact (et_budgets t)) WorkUnits) in
  do! m_write (λ t, with_work_units t work) in
  sample_time false elapsed.

Definition check_work_units (t : ExtractionTracker) (observed : N) : result ExtractionLimitExceeded unit :=
  if eb_max_work_units_per_artifact (et_budgets t) <? observed then
    Err (exceeded t WorkUnits observed (eb_max_work_units_per_artifact (et_budgets t)))
  else Ok tt.

Definition check_structural_depth (t : ExtractionTracker) (depth : N) : result ExtractionLimitExceeded unit :=
  if eb_max_structural_depth_per_artifact (et_budgets t) <? depth then
    Err (exceeded t StructuralDepth depth (eb_max_structural_depth_per_artifact (et_budgets t)))
  else Ok tt.
Definition check_ast_depth (t : ExtractionTracker) (depth : N) : result ExtractionLimitExceeded unit :=
  if eb_max_ast_depth_per_artifact (et_budgets t) <? depth then
    Err (exceeded t AstDepth depth (eb_max_ast_depth_per_artifact (et_budgets t)))
  else Ok tt.

Definition charge_tree_sitter_node (depth elapsed : N) : tracker_method unit :=
  do! m_read (λ t, check_ast_depth t depth) in
  let! nodes := m_read (λ t, charge_counter t (et_tree_sitter_nodes t) 1
                               (eb_max_tree_sitter_nodes_per_artifact (et_budgets t)) TreeSitterNodes) in
  do! m_write (λ t, with_tree_sitter_nodes t nodes) in
  sample_time true elapsed.

Definition charge_observation (amount : N) : tracker_method unit :=
  let! observations := m_read (λ t, charge_counter t (et_observations t) amount
                                      (eb_max_observations_per_artifact (et_budgets t)) Observations) in
  m_write (λ t, with_observations t observations).

Definition check_observations (t : ExtractionTracker) (observed : N) : result ExtractionLimitExceeded unit :=
  if eb_max_observations_per_artifact (et_budgets t) <? observed then
    Err (exceeded t Observations observed (eb_max_observations_per_artifact (et_budgets t)))
  else Ok tt.

Definition ensure_observations (minimum : N) : tracker_method unit := λ t,
  if et_observations t <? minimum then charge_observation (minimum - et_observations t) t
  else (t, Ok tt).

(** The accumulated bytes, after the check of one value. *)
Definition charge_string_bytes (bytes : N) : tracker_method unit :=
  let! total := m_read (λ t, charge_counter t (et_accumulated_string_bytes t) bytes
                               (eb_max_accumulated_string_bytes_per_artifact (et_budgets t))
                               AccumulatedStringBytes) in
  m_write (λ t, with_string_bytes t total).

(** [u64::try_from(value.len()).unwrap_or(u64::MAX)] *)
Definition str_bytes (value : string) : N := N.min (N.of_nat (String.length value)) u64_max.

Definition charge_value (value : string) (maximum : N) (resource : ExtractionResource)
    : tracker_method unit :=
  let bytes := str_bytes value in
  do! m_read (λ t, if maximum <? bytes then Err (exceeded t resource bytes maximum) else Ok tt) in
  charge_string_bytes bytes.

Definition charge_string (value : string) : tracker_method unit := λ t,
  charge_value value (eb_max_string_bytes_per_value (et_budgets t)) StringBytesPerValue t.
Definition charge_portable_path (value : string) : tracker_method unit := λ t,
  charge_value value (eb_max_portable_path_bytes_per_value (et_budgets t)) PortablePathBytesPerValue t.
Definition charge_identifier (value : string) : tracker_method unit := λ t,
  charge_value value (eb_max_identifier_bytes_per_value (et_budgets t)) IdentifierBytesPerValue t.

Definition charge_identifier_bytes (bytes : N) : tracker_method unit := λ t,
  let maximum := eb_max_identifier_bytes_per_value (et_budgets t) in
  if maximum <? bytes then (t, Err (exceeded t IdentifierBytesPerValue bytes maximum))
  else charge_string_bytes bytes t.

Definition check_structured_time (t : ExtractionTracker) (elapsed : N) : result ExtractionLimitExceeded unit :=
  check_elapsed t false elapsed.
Definition check_tree_sitter_time (t : ExtractionTracker) (elapsed : N) : result ExtractionLimitExceeded unit :=
  check_elapsed t true elapsed.

(** ** The bounded writer *)
Record BoundedJsonWriter := {
  bw_bytes : list N;
  bw_maximum : N;
  bw_exceeded : option N;
}.

Definition bounded_json_writer (t : ExtractionTracker) : BoundedJsonWriter := {|
  bw_bytes := [];
  bw_maximum := eb_max_serialized_output_bytes_per_artifact (et_budgets t);
  bw_exceeded := None;
|}.

Definition u64_len {A} (l : list A) : N := N.min (len l) u64_max.

Definition write_error : string := "serialized extraction output exceeds its limit".

(** [Write::write]; the number of bytes taken is the length of the buffer. *)
Definition write (buffer : list N) : method BoundedJsonWriter string unit := λ w,
  let observed := saturating_add (u64_len (bw_bytes w)) (u64_len buffer) in
  if bw_maximum w <? observed then
    ({| bw_bytes := bw_bytes w; bw_maximum := bw_maximum w; bw_exceeded := Some observed |},
     Err write_error)
  else
    ({| bw_bytes := bw_bytes w ++ buffer; bw_maximum := bw_maximum w; bw_exceeded := bw_exceeded w |},
     Ok tt).

(** [Write::write_all] of the standard library writes until the buffer is empty. *)
Definition write_all (buffer : list N) : method BoundedJsonWriter string unit := λ w,
  match buffer with [] => (w, Ok tt) | _ => write buffer w end.

Definition output_limit_error (t : ExtractionTracker) (w : BoundedJsonWriter)
    : option ExtractionLimitExceeded :=
  match bw_exceeded w with
  | Some observed =>
      Some (exceeded t SerializedOutputBytes observed
              (eb_max_serialized_output_bytes_per_artifact (et_budgets t)))
  | None => None
  end.

(** ** Histories of a tracker

    The calls an extractor may make; a call that consults the clock carries
    its reading. *)
Inductive tracker_call :=
| CheckInput (observed : N)
| CheckString (observed : N)
| CheckIdentifier (observed : N)
| CheckAccumulated (observed : N)
| CheckWork (observed : N)
| CheckObservations (observed : N)
| CheckStructuralDepth (depth : N)
| CheckAstDepth (depth : N)
| CheckStructuredTime (elapsed : N)
| CheckTreeSitterTime (elapsed : N)
| ChargeWork (amount elapsed : N)
| ChargeNode (depth elapsed : N)
| ChargeObservation (amount : N)
| EnsureObservations (minimum : N)
| ChargeString (value : string)
| ChargePath (value : string)
| ChargeIdentifier (value : string)
| ChargeIdentifierBytes (bytes : N).

Definition call (c : tracker_call) : tracker_method unit :=
  match c with
  | CheckInput n => m_read (λ t, check_input_bytes t n)
  | CheckString n => m_read (λ t, check_string_bytes t n)
  | CheckIdentifier n => m_read (λ t, check_identifier_bytes t n)
  | CheckAccumulated n => m_read (λ t, check_accumulated_string_bytes t n)
  | CheckWork n => m_read (λ t, check_work_units t n)
  | CheckObservations n => m_read (λ t, check_observations t n)
  | CheckStructuralDepth n => m_read (λ t, check_structural_depth t n)
  | CheckAstDepth n => m_read (λ t, check_ast_depth t n)
  | CheckStructuredTime e => m_read (λ t, check_structured_time t e)
  | CheckTreeSitterTime e => m_read (λ t, check_tree_sitter_time t e)
  | ChargeWork n e => charge_work n e
  | ChargeNode d e => charge_tree_sitter_node d e
  | ChargeObservation n => charge_observation n
  | EnsureObservations n => ensure_observations n
  | ChargeString s => charge_string s
  | ChargePath s => charge_portable_path s
  | ChargeIdentifier s => charge_identifier s
  | ChargeIdentifierBytes n => charge_identifier_bytes n
  end.

(** What a call adds to each counter. *)
Definition work_of (c : tracker_call) : N := match c with ChargeWork n _ => n | _ => 0 end.
Definition nodes_of (c : tracker_call) : N := match c with ChargeNode _ _ => 1 | _ => 0 end.
Definition bytes_of (c : tracker_call) : N :=
  match c with
  | ChargeString s | ChargePath s | ChargeIdentifier s => str_bytes s
  | ChargeIdentifierBytes n => n
  | _ => 0
  end.
Definition observed_after (before : N) (c : tracker_call) : N :=
  match c with
  | ChargeObservation n => before + n
  | EnsureObservations n => N.max before n
  | _ => before
  end.

(** The limits on the value of a single call. *)
Definition value_fits (b : ExtractionBudgets) (c : tracker_call) : Prop :=
  match c with
  | CheckInput n => n ≤ eb_max_input_bytes_per_artifact b
  | CheckString n => n ≤ eb_max_string_bytes_per_value b
  | CheckIdentifier n => n ≤ eb_max_identifier_bytes_per_value b
  | CheckAccumulated n => n ≤ eb_max_accumulated_string_bytes_per_artifact b
  | CheckWork n => n ≤ eb_max_work_units_per_artifact b
  | CheckObservations n => n ≤ eb_max_observations_per_artifact b
  | CheckStructuralDepth n => n ≤ eb_max_structural_depth_per_artifact b
  | CheckAstDepth n | ChargeNode n _ => n ≤ eb_max_ast_depth_per_artifact b
  | ChargeString s => str_bytes s ≤ eb_max_string_bytes_per_value b
  | ChargePath s => str_bytes s ≤ eb_max_portable_path_bytes_per_value b
  | ChargeIdentifier s => str_bytes s ≤ eb_max_identifier_bytes_per_value b
  | ChargeIdentifierBytes n => n ≤ eb_max_identifier_bytes_per_value b
  | _ => True
  end.

(** The clock had not passed the deadline of the call, or had. *)
Definition timely (b : ExtractionBudgets) (c : tracker_call) : bool :=
  match c with
  | CheckStructuredTime e | ChargeWork _ e =>
      elapsed_millis e <=? eb_max_structured_wall_time_ms_per_artifact b
  | CheckTreeSitterTime e | ChargeNode _ e =>
      elapsed_millis e <=? eb_max_tree_sitter_wall_time_ms_per_artifact b
  | _ => true
  end.
Definition late (b : ExtractionBudgets) (c : tracker_call) : bool :=
  match c with
  | CheckStructuredTime _ | CheckTreeSitterTime _ | ChargeWork _ _ | ChargeNode _ _ => negb (timely b c)
  | _ => true
  end.

Definition total (f : tracker_call → N) (calls : list tracker_call) : N :=
  foldr (λ c, N.add (f c)) 0 calls.

(** Everything a history demands fits the budgets. *)
Definition fits (b : ExtractionBudgets) (calls : list tracker_call) : Prop :=
  Forall (value_fits b) calls
  ∧ total work_of calls ≤ eb_max_work_units_per_artifact b
  ∧ total nodes_of calls ≤ eb_max_tree_sitter_nodes_per_artifact b
  ∧ total bytes_of calls ≤ eb_max_accumulated_string_bytes_per_artifact b
  ∧ foldl observed_after 0 calls ≤ eb_max_observations_per_artifact b.

(** The limits of the counters are [u64] values. *)
Definition budgets_u64 (b : ExtractionBudgets) : Prop :=
  eb_max_work_units_per_artifact b ≤ u64_max
  ∧ eb_max_tree_sitter_nodes_per_artifact b ≤ u64_max
  ∧ eb_max_accumulated_string_bytes_per_artifact b ≤ u64_max
  ∧ eb_max_observations_per_artifact b ≤ u64_max.

Definition within (b : ExtractionBudgets) (t : ExtractionTracker) : Prop :=
  et_budgets t = b
  ∧ et_work_units t ≤ eb_max_work_units_per_artifact b
  ∧ et_tree_sitter_nodes t ≤ eb_max_tree_sitter_nodes_per_artifact b
  ∧ et_observations t ≤ eb_max_observations_per_artifact b
  ∧ et_accumulated_string_bytes t ≤ eb_max_accumulated_string_bytes_per_artifact b
  ∧ et_sampled_units t ≤ units t.

(** ** Proofs *)
Lemma charge_counter_Ok t current amount maximum resource n :
  charge_counter t current amount maximum resource = Ok n
  ↔ n = current + amount ∧ current + amount ≤ maximum ∧ current + amount ≤ u64_max.
Proof.
  unfold charge_counter.
  destruct (N.ltb_spec u64_max (current + amount)); [split; [done|lia]|].
  destruct (N.ltb_spec maximum (current + amount)); [split; [done|lia]|].
  split; [intros [= <-]; lia|by intros [-> _]].
Qed.

Lemma units_mono t work nodes : et_work_units t ≤ work → et_tree_sitter_nodes t ≤ nodes →
  units t ≤ saturating_add work nodes.
Proof. unfold units, saturating_add. lia. Qed.

Lemma sample_time_within b tree_sitter elapsed : preserves (within b) (sample_time tree_sitter elapsed).
Proof.
  intros t Ht. unfold sample_time. destruct (sample_due t); [|done].
  destruct Ht as (Hb & Hw & Hn & Ho & Hs & Hu). repeat split; try done.
Qed.

(** One charge: read the counter, write it, continue. *)
Lemma charge_within {A} b (f : ExtractionTracker → result ExtractionLimitExceeded A)
    (g : A → ExtractionTracker → ExtractionTracker) (k : A → tracker_method unit) :
  (∀ t a, within b t → f t = Ok a → within b (g a t)) →
  (∀ a, preserves (within b) (k a)) →
  preserves (within b) (let! a := m_read f in do! m_write (g a) in k a).
Proof.
  intros Hf Hk t Ht. unfold m_bind, m_read. destruct (f t) as [a|] eqn:E; [|done].
  simpl. by apply Hk, Hf.
Qed.

Lemma charge_string_bytes_within b bytes : preserves (within b) (charge_string_bytes bytes).
Proof.
  intros t Ht. unfold charge_string_bytes, m_bind, m_read, m_write.
  destruct charge_counter as [n|] eqn:E; [|done]. apply charge_counter_Ok in E as (-> & Hmax & _).
  destruct Ht as (<- & Hw & Hn & Ho & Hs & Hu). repeat split; done.
Qed.

Lemma charge_observation_within b amount : preserves (within b) (charge_observation amount).
Proof.
  intros t Ht. unfold charge_observation, m_bind, m_read, m_write.
  destruct charge_counter as [n|] eqn:E; [|done]. apply charge_counter_Ok in E as (-> & Hmax & _).
  destruct Ht as (<- & Hw & Hn & Ho & Hs & Hu). repeat split; done.
Qed.

Lemma charge_value_within b value maximum resource : preserves (within b) (charge_value value maximum resource).
Proof. apply preserves_bind; [apply preserves_read|intros _; apply charge_string_bytes_within]. Qed.

#[local] Hint Resolve sample_time_within charge_string_bytes_within charge_observation_within
  charge_value_within : methods.

Lemma call_within b c : preserves (within b) (call c).
Proof.
  destruct c; simpl; auto with methods.
  - apply charge_within; [|auto with methods]. intros t n (<- & Hw & Hn & Ho & Hs & Hu) E.
    apply charge_counter_Ok in E as (-> & Hmax & _).
    repeat split; try done. etrans; [done|]. apply units_mono; simpl; lia.
  - apply preserves_bind; [auto with methods|intros _].
    apply charge_within; [|auto with methods]. intros t n (<- & Hw & Hn & Ho & Hs & Hu) E.
    apply charge_counter_Ok in E as (-> & Hmax & _).
    repeat split; try done. etrans; [done|]. apply units_mono; simpl; lia.
  - intros t Ht. unfold ensure_observations. destruct (_ <? _); [by apply charge_observation_within|done].
  - intros t. apply charge_value_within.
  - intros t. apply charge_value_within.
  - intros t. apply charge_value_within.
  - intros t Ht. unfold charge_identifier_bytes. destruct (_ <? _); [done|by apply charge_string_bytes_within].
Qed.

Lemma new_tracker_within artifact extractor b : within b (new_tracker artifact extractor b).
Proof. repeat split; simpl; lia. Qed.

(** C36: Whatever calls an extractor makes, and whether or not it stops at an
    error, no counter of its tracker ever exceeds its budget. *)
Theorem counters_within_budgets artifact extractor b calls :
  within b (m_all call calls (new_tracker artifact extractor b)).
Proof. apply preserves_all; [apply call_within|apply new_tracker_within]. Qed.

(** A call that succeeds adds its demand to the counters. *)
Definition tallied (t : ExtractionTracker) (c : tracker_call) (t' : ExtractionTracker) : Prop :=
  et_budgets t' = et_budgets t
  ∧ et_work_units t' = et_work_units t + work_of c
  ∧ et_tree_sitter_nodes t' = et_tree_sitter_nodes t + nodes_of c
  ∧ et_accumulated_string_bytes t' = et_accumulated_string_bytes t + bytes_of c
  ∧ et_observations t' = observed_after (et_observations t) c.

Definition demand_fits (b : ExtractionBudgets) (t : ExtractionTracker) (c : tracker_call) : Prop :=
  value_fits b c
  ∧ et_work_units t + work_of c ≤ eb_max_work_units_per_artifact b
  ∧ et_tree_sitter_nodes t + nodes_of c ≤ eb_max_tree_sitter_nodes_per_artifact b
  ∧ et_accumulated_string_bytes t + bytes_of c ≤ eb_max_accumulated_string_bytes_per_artifact b
  ∧ observed_after (et_observations t) c ≤ eb_max_observations_per_artifact b.

(** The deadline a charge is checked against. *)
Definition deadline (b : ExtractionBudgets) (tree_sitter : bool) : N :=
  if tree_sitter then eb_max_tree_sitter_wall_time_ms_per_artifact b
  else eb_max_structured_wall_time_ms_per_artifact b.

Lemma check_elapsed_Ok t tree_sitter elapsed :
  check_elapsed t tree_sitter elapsed = Ok tt ↔ elapsed_millis elapsed ≤ deadline (et_budgets t) tree_sitter.
Proof.
  unfold check_elapsed. destruct tree_sitter; simpl;
    (destruct (N.ltb_spec (deadline (et_budgets t) true) (elapsed_millis elapsed)) ||
     destruct (N.ltb_spec (deadline (et_budgets t) false) (elapsed_millis elapsed)));
    simpl in *; case_match; rewrite ?N.ltb_lt, ?N.ltb_ge in *; split; (done || lia).
Qed.

(** What sampling leaves, and when it accepts. *)
Lemma sample_time_spec tree_sitter elapsed t :
  sample_time tree_sitter elapsed t =
  if sample_due t then (with_sampled_units t (units t), check_elapsed t tree_sitter elapsed) else (t, Ok tt).
Proof. unfold sample_time, m_bind, m_write, m_read. destruct (sample_due t); [|done]. by destruct tree_sitter. Qed.

Lemma sample_time_state tree_sitter elapsed t :
  (sample_time tree_sitter elapsed t).1 = if sample_due t then with_sampled_units t (units t) else t.
Proof. rewrite sample_time_spec. by destruct (sample_due t). Qed.

Lemma sample_time_Ok tree_sitter elapsed t :
  (sample_time tree_sitter elapsed t).2 = Ok tt
  ↔ (sample_due t = true → elapsed_millis elapsed ≤ deadline (et_budgets t) tree_sitter).
Proof.
  rewrite sample_time_spec. destruct (sample_due t); simpl; [|naive_solver].
  rewrite check_elapsed_Ok. naive_solver.
Qed.

Lemma charge_Ok t t' (current maximum : ExtractionTracker → N) amount resource (k : N → tracker_method unit) :
  (let! n := m_read (λ t, charge_counter t (current t) amount (maximum t) resource) in k n) t = (t', Ok tt)
  ↔ current t + amount ≤ maximum t ∧ current t + amount ≤ u64_max ∧ k (current t + amount) t = (t', Ok tt).
Proof.
  unfold m_bind, m_read. destruct (charge_counter t (current t) amount (maximum t) resource) as [n|] eqn:E.
  - apply charge_counter_Ok in E as (-> & ? & ?). naive_solver.
  - split; [done|]. intros (? & ? & _).
    assert (Hn : charge_counter t (current t) amount (maximum t) resource = Ok (current t + amount))
      by by apply charge_counter_Ok.
    congruence.
Qed.

Lemma limit_Ok (observed maximum : N) (e : ExtractionLimitExceeded) :
  (if maximum <? observed then Err e else Ok tt) = Ok tt ↔ observed ≤ maximum.
Proof. destruct (N.ltb_spec maximum observed); split; (done || lia). Qed.

Lemma check_Ok_then t t' (f : ExtractionTracker → result ExtractionLimitExceeded unit) (k : tracker_method unit) :
  (do! m_read f in k) t = (t', Ok tt) ↔ f t = Ok tt ∧ k t = (t', Ok tt).
Proof. unfold m_bind, m_read. destruct (f t) as [[]|]; naive_solver. Qed.

Lemma m_read_Ok t t' (f : ExtractionTracker → result ExtractionLimitExceeded unit) :
  m_read f t = (t', Ok tt) ↔ t' = t ∧ f t = Ok tt.
Proof. unfold m_read. split; [by intros [= <- ->]|by intros [-> ->]]. Qed.

Lemma charge_string_bytes_Ok bytes t t' :
  charge_string_bytes bytes t = (t', Ok tt) ↔
  et_accumulated_string_bytes t + bytes ≤ eb_max_accumulated_string_bytes_per_artifact (et_budgets t)
  ∧ et_accumulated_string_bytes t + bytes ≤ u64_max
  ∧ t' = with_string_bytes t (et_accumulated_string_bytes t + bytes).
Proof.
  unfold charge_string_bytes. rewrite (charge_Ok t t' et_accumulated_string_bytes
    (λ t, eb_max_accumulated_string_bytes_per_artifact (et_budgets t))). 
  unfold m_write. split; [by intros (? & ? & [= <-])|by intros (? & ? & ->)].
Qed.

Lemma charge_observation_Ok amount t t' :
  charge_observation amount t = (t', Ok tt) ↔
  et_observations t + amount ≤ eb_max_observations_per_artifact (et_budgets t)
  ∧ et_observations t + amount ≤ u64_max
  ∧ t' = with_observations t (et_observations t + amount).
Proof.
  unfold charge_observation. rewrite (charge_Ok t t' et_observations
    (λ t, eb_max_observations_per_artifact (et_budgets t))). 
  unfold m_write. split; [by intros (? & ? & [= <-])|by intros (? & ? & ->)].
Qed.

(** The state a successful charge of work or of a node leaves, and the deadline
    it met. *)
Definition sampled (t t' : ExtractionTracker) : Prop :=
  t' = t ∨ t' = with_sampled_units t (units t).

Lemma sample_time_run tree_sitter elapsed t t' :
  sample_time tree_sitter elapsed t = (t', Ok tt) ↔
  t' = (if sample_due t then with_sampled_units t (units t) else t)
  ∧ (sample_due t = true → elapsed_millis elapsed ≤ deadline (et_budgets t) tree_sitter).
Proof.
  rewrite sample_time_spec. destruct (sample_due t).
  - rewrite <-(check_elapsed_Ok t). split; [intros [= <- ->]; auto|intros [-> E]; by rewrite E].
  - split; [by intros [= <-]|by intros [-> _]].
Qed.

Lemma charge_work_Ok amount elapsed t t' :
  charge_work amount elapsed t = (t', Ok tt) ↔
  et_work_units t + amount ≤ eb_max_work_units_per_artifact (et_budgets t)
  ∧ et_work_units t + amount ≤ u64_max
  ∧ sample_time false elapsed (with_work_units t (et_work_units t + amount)) = (t', Ok tt).
Proof.
  unfold charge_work. rewrite (charge_Ok t t' et_work_units
    (λ t, eb_max_work_units_per_artifact (et_budgets t))). done.
Qed.

Lemma charge_node_Ok depth elapsed t t' :
  charge_tree_sitter_node depth elapsed t = (t', Ok tt) ↔
  depth ≤ eb_max_ast_depth_per_artifact (et_budgets t)
  ∧ et_tree_sitter_nodes t + 1 ≤ eb_max_tree_sitter_nodes_per_artifact (et_budgets t)
  ∧ et_tree_sitter_nodes t + 1 ≤ u64_max
  ∧ sample_time true elapsed (with_tree_sitter_nodes t (et_tree_sitter_nodes t + 1)) = (t', Ok tt).
Proof.
  unfold charge_tree_sitter_node. rewrite check_Ok_then. unfold check_ast_depth. rewrite limit_Ok.
  rewrite (charge_Ok t t' et_tree_sitter_nodes (λ t, eb_max_tree_sitter_nodes_per_artifact (et_budgets t))).
  done.
Qed.

Lemma charge_value_Ok value maximum resource t t' :
  charge_value value maximum resource t = (t', Ok tt) ↔
  str_bytes value ≤ maximum ∧ charge_string_bytes (str_bytes value) t = (t', Ok tt).
Proof. unfold charge_value. by rewrite check_Ok_then, limit_Ok. Qed.

Lemma charge_identifier_bytes_Ok bytes t t' :
  charge_identifier_bytes bytes t = (t', Ok tt) ↔
  bytes ≤ eb_max_identifier_bytes_per_value (et_budgets t) ∧ charge_string_bytes bytes t = (t', Ok tt).
Proof.
  unfold charge_identifier_bytes. destruct (N.ltb_spec (eb_max_identifier_bytes_per_value (et_budgets t)) bytes).
  - split; [done|lia].
  - split; [auto|by intros []].
Qed.

Lemma with_observations_same t : with_observations t (et_observations t) = t.
Proof. by destruct t. Qed.

Lemma ensure_observations_Ok minimum t t' :
  et_observations t ≤ eb_max_observations_per_artifact (et_budgets t) →
  ensure_observations minimum t = (t', Ok tt) ↔
  N.max (et_observations t) minimum ≤ eb_max_observations_per_artifact (et_budgets t)
  ∧ (et_observations t < minimum → minimum ≤ u64_max)
  ∧ t' = with_observations t (N.max (et_observations t) minimum).
Proof.
  intros Ht. unfold ensure_observations. destruct (N.ltb_spec (et_observations t) minimum).
  - rewrite charge_observation_Ok. rewrite N.max_r by lia.
    replace (et_observations t + (minimum - et_observations t)) with minimum by lia. naive_solver.
  - rewrite N.max_l by lia. rewrite with_observations_same. split; [intros [= <-]|intros (_ & _ & ->)]; repeat split; (done || lia).
Qed.

Lemma call_demand b c t t' : within b t → call c t = (t', Ok tt) → demand_fits b t c ∧ tallied t c t'.
Proof.
  intros (<- & Hw & Hn & Ho & Hs & Hu). unfold demand_fits, tallied.
  destruct c; simpl;
    unfold check_input_bytes, check_string_bytes, check_identifier_bytes, check_accumulated_string_bytes,
      check_work_units, check_observations, check_structural_depth, check_ast_depth, check_value_bytes,
      charge_string, charge_portable_path, charge_identifier;
    rewrite ?m_read_Ok, ?charge_work_Ok, ?charge_node_Ok, ?charge_observation_Ok,
      ?ensure_observations_Ok, ?charge_value_Ok, ?charge_identifier_bytes_Ok, ?charge_string_bytes_Ok,
      ?limit_Ok, ?sample_time_run by done; intros.
  all: destruct_and?; subst; simpl in *; try (repeat split; (done || lia)).
  all: destruct (sample_due _); simpl; repeat split; (done || lia).
Qed.

Lemma call_accepts b c t : within b t → budgets_u64 b → timely b c = true → demand_fits b t c →
  ∃ t', call c t = (t', Ok tt).
Proof.
  intros (<- & Hw & Hn & Ho & Hs & Hu) (? & ? & ? & ?) Htime (Hv & Hw' & Hn' & Hs' & Ho').
  destruct c; simpl in *; eexists;
    unfold check_input_bytes, check_string_bytes, check_identifier_bytes, check_accumulated_string_bytes,
      check_work_units, check_observations, check_structural_depth, check_ast_depth, check_value_bytes,
      charge_string, charge_portable_path, charge_identifier;
    rewrite ?m_read_Ok, ?charge_work_Ok, ?charge_node_Ok, ?charge_observation_Ok,
      ?ensure_observations_Ok, ?charge_value_Ok, ?charge_identifier_bytes_Ok, ?charge_string_bytes_Ok,
      ?limit_Ok, ?sample_time_run by done; repeat split; try done; try lia.
  all: apply N.leb_le in Htime; intros; try apply (proj2 (check_elapsed_Ok t _ _)); exact Htime.
Qed.

Lemma run_invariant b calls t t' : within b t → m_each call calls t = (t', Ok tt) → within b t'.
Proof.
  intros Ht E. change t' with (t', @Ok ExtractionLimitExceeded unit tt).1. rewrite <-E.
  by apply preserves_each; [apply call_within|].
Qed.

Lemma observed_after_mono before after c : before ≤ after → observed_after before c ≤ observed_after after c.
Proof. destruct c; simpl; lia. Qed.

Lemma observed_after_grows before calls : before ≤ foldl observed_after before calls.
Proof.
  revert before. induction calls as [|c calls IH]; intros before; simpl; [done|].
  etrans; [|apply IH]. destruct c; simpl; lia.
Qed.

(** A history from a state accepts exactly the demands that still fit. *)
Lemma run_exact b calls t : within b t → budgets_u64 b → Forall (λ c, timely b c = true) calls →
  (∃ t', m_each call calls t = (t', Ok tt)) ↔
  Forall (value_fits b) calls
  ∧ et_work_units t + total work_of calls ≤ eb_max_work_units_per_artifact b
  ∧ et_tree_sitter_nodes t + total nodes_of calls ≤ eb_max_tree_sitter_nodes_per_artifact b
  ∧ et_accumulated_string_bytes t + total bytes_of calls ≤ eb_max_accumulated_string_bytes_per_artifact b
  ∧ foldl observed_after (et_observations t) calls ≤ eb_max_observations_per_artifact b.
Proof.
  intros Ht Hb. revert t Ht. induction calls as [|c calls IH]; intros t Ht Htime.
  - pose proof Ht as (_ & ? & ? & ? & ? & _). split; [|by eexists]. intros _. simpl.
    rewrite !N.add_0_r. by repeat split.
  - apply Forall_cons in Htime as [Hc Htime]. rewrite Forall_cons. simpl. split.
    + intros (t' & (t1 & E1 & E)%m_each_cons_Ok).
      assert (within b t1) as Ht1 by (change t1 with (t1, @Ok ExtractionLimitExceeded unit tt).1;
        rewrite <-E1; by apply call_within).
      destruct (call_demand b c t t1 Ht E1) as [(? & _) (Hb1 & Hw & Hn & Hs & Ho)].
      apply (IH t1 Ht1) in Htime as [Hrun _]. destruct (Hrun (ex_intro _ t' E)) as (? & Hrest).
      rewrite Hw, Hn, Hs, Ho in Hrest. rewrite !N.add_assoc. auto.
    + intros ([Hv Hvs] & Hw & Hn & Hs & Ho). rewrite !N.add_assoc in *.
      destruct (call_accepts b c t Ht Hb Hc) as [t1 E1].
      { pose proof (observed_after_grows (observed_after (et_observations t) c) calls).
        repeat split; [done|lia..]. }
      assert (within b t1) as Ht1 by (change t1 with (t1, @Ok ExtractionLimitExceeded unit tt).1;
        rewrite <-E1; by apply call_within).
      destruct (call_demand b c t t1 Ht E1) as [_ (Hb1 & Hw1 & Hn1 & Hs1 & Ho1)].
      destruct (proj2 (IH t1 Ht1 Htime)) as [t' E]; [rewrite Hw1, Hn1, Hs1, Ho1; auto|].
      exists t'. apply m_each_cons_Ok. eauto.
Qed.

(** An extractor that the clock does not interrupt runs to its end exactly
    when its whole demand fits the budgets: each value, the total work, the
    visited nodes, the string bytes and the observations. *)
Theorem run_accepts_exactly artifact extractor b calls :
  budgets_u64 b → Forall (λ c, timely b c = true) calls →
  (m_each call calls (new_tracker artifact extractor b)).2 = Ok tt ↔ fits b calls.
Proof.
  intros Hb Htime.
  pose proof (run_exact b calls _ (new_tracker_within artifact extractor b) Hb Htime) as Hrun.
  unfold fits. simpl in Hrun. rewrite !N.add_0_l in Hrun. rewrite <-Hrun.
  destruct (m_each call calls _) as [t' []]; simpl; split; [intros [= ->]; eauto|naive_solver|done|naive_solver].
Qed.

(** ** The deadline between two readings of the clock *)
Lemma sample_not_due t : sample_due t = false ↔
  (et_sampled_units t = 0 → units t = 0) ∧ units t / 1024 ≤ et_sampled_units t / 1024.
Proof.
  unfold sample_due. rewrite orb_false_iff, andb_false_iff, N.eqb_neq, N.ltb_ge, N.ltb_ge. lia.
Qed.

Lemma sampled_not_due t : sample_due (with_sampled_units t (units t)) = false.
Proof. apply sample_not_due. by split. Qed.

Lemma same_units_due t t' : et_work_units t' = et_work_units t → et_tree_sitter_nodes t' = et_tree_sitter_nodes t →
  et_sampled_units t' = et_sampled_units t → sample_due t' = sample_due t.
Proof. intros Hw Hn Hs. unfold sample_due, units. by rewrite Hw, Hn, Hs. Qed.

Lemma sample_time_due tree_sitter elapsed t : sample_due (sample_time tree_sitter elapsed t).1 = false.
Proof.
  rewrite sample_time_state. destruct (sample_due t) eqn:E; [apply sampled_not_due|done].
Qed.

(** No successful late call is sampled, so it leaves the sampled units. *)
Lemma late_call b c t t' : within b t → sample_due t = false → late b c = true →
  call c t = (t', Ok tt) → et_sampled_units t' = et_sampled_units t ∧ sample_due t' = false.
Proof.
  intros Ht Hdue Hlate E. pose proof Ht as (Hb & _ & _ & Ho & _).
  destruct c; simpl in E, Hlate;
    unfold check_input_bytes, check_string_bytes, check_identifier_bytes, check_accumulated_string_bytes,
      check_work_units, check_observations, check_structural_depth, check_ast_depth, check_value_bytes,
      charge_string, charge_portable_path, charge_identifier in E;
    rewrite ?m_read_Ok, ?charge_work_Ok, ?charge_node_Ok, ?charge_observation_Ok,
      ?charge_value_Ok, ?charge_identifier_bytes_Ok, ?charge_string_bytes_Ok,
      ?limit_Ok, ?sample_time_run in E; rewrite ?ensure_observations_Ok in E by congruence;
    destruct_and?; subst; try (split; [done|by rewrite <-Hdue; apply same_units_due]).
  all: match goal with |- context [if sample_due ?u then _ else _] => destruct (sample_due u) eqn:Hdue1 end;
    [|by split].
  all: apply negb_true_iff, N.leb_gt in Hlate; simpl in *;
    match goal with H : true = true → _ |- _ => specialize (H eq_refl) end; lia.
Qed.

Lemma late_run b calls t t' : within b t → sample_due t = false →
  Forall (λ c, late b c = true) calls → m_each call calls t = (t', Ok tt) →
  et_sampled_units t' = et_sampled_units t ∧ sample_due t' = false.
Proof.
  intros Ht Hdue Hlate. revert t Ht Hdue. induction Hlate as [|c calls Hc Hlate IH]; intros t Ht Hdue E.
  - by injection E as <-.
  - apply m_each_cons_Ok in E as (t1 & E1 & E).
    destruct (late_call b c t t1 Ht Hdue Hc E1) as [Hs1 Hdue1].
    rewrite <-Hs1. apply IH; [|done..]. change t1 with (t1, @Ok ExtractionLimitExceeded unit tt).1.
    rewrite <-E1. by apply call_within.
Qed.

Lemma call_due c : preserves (λ t, sample_due t = false) (call c).
Proof.
  intros t Ht. destruct c; try done; simpl.
  - unfold charge_work, m_bind, m_read, m_write. destruct charge_counter; [|done].
    apply sample_time_due.
  - unfold charge_tree_sitter_node, m_bind, m_read, m_write. destruct check_ast_depth; [|done].
    destruct charge_counter; [|done]. apply sample_time_due.
  - unfold charge_observation, m_bind, m_read, m_write. by destruct charge_counter.
  - unfold ensure_observations, charge_observation, m_bind, m_read, m_write.
    destruct (_ <? _); [|done]. by destruct charge_counter.
  - unfold charge_string, charge_value, charge_string_bytes, m_bind, m_read, m_write.
    destruct (_ <? _); [done|]. by destruct charge_counter.
  - unfold charge_portable_path, charge_value, charge_string_bytes, m_bind, m_read, m_write.
    destruct (_ <? _); [done|]. by destruct charge_counter.
  - unfold charge_identifier, charge_value, charge_string_bytes, m_bind, m_read, m_write.
    destruct (_ <? _); [done|]. by destruct charge_counter.
  - unfold charge_identifier_bytes, charge_string_bytes, m_bind, m_read, m_write.
    destruct (_ <? _); [done|]. by destruct charge_counter.
Qed.

(** The clock is only read at the first unit and then once per 1024 units;
    still, after both deadlines have passed an extractor gets through fewer
    than 1024 further units of work and nodes, and through none when it had
    done nothing. *)
Theorem deadline_overrun artifact extractor b before after t t' :
  eb_max_work_units_per_artifact b + eb_max_tree_sitter_nodes_per_artifact b ≤ u64_max →
  m_all call before (new_tracker artifact extractor b) = t →
  Forall (λ c, late b c = true) after → m_each call after t = (t', Ok tt) →
  et_work_units t' + et_tree_sitter_nodes t' < et_work_units t + et_tree_sitter_nodes t + 1024
  ∧ (et_work_units t + et_tree_sitter_nodes t = 0 → et_work_units t' + et_tree_sitter_nodes t' = 0).
Proof.
  intros Hmax <- Hlate E. set (s := m_all _ _ _) in *.
  assert (within b s) as Hs by (apply preserves_all; [apply call_within|apply new_tracker_within]).
  assert (sample_due s = false) as Hdue
    by (apply (preserves_all (λ t, sample_due t = false)); [apply call_due|done]).
  destruct (late_run b after s t' Hs Hdue Hlate E) as [Hsampled Hdue'].
  pose proof (run_invariant b after s t' Hs E) as Ht'.
  apply sample_not_due in Hdue' as [Hzero Hblock]. rewrite Hsampled in Hzero, Hblock.
  destruct Hs as (_ & ? & ? & _ & _ & Hsu), Ht' as (_ & ? & ? & _).
  assert (∀ u, et_work_units u ≤ eb_max_work_units_per_artifact b →
    et_tree_sitter_nodes u ≤ eb_max_tree_sitter_nodes_per_artifact b →
    units u = et_work_units u + et_tree_sitter_nodes u) as Hunits.
  { intros u Hw Hn. unfold units. apply saturating_add_small. change usize_max with u64_max. lia. }
  rewrite Hunits in Hzero, Hblock, Hsu by done.
  split; [|intros Hnone; apply Hzero; lia].
  pose proof (N.Div0.div_le_mono (et_sampled_units s) _ 1024 Hsu).
  pose proof (N.div_mod' (et_work_units t' + et_tree_sitter_nodes t') 1024).
  pose proof (N.mod_upper_bound (et_work_units t' + et_tree_sitter_nodes t') 1024 ltac:(done)).
  pose proof (N.Div0.mul_div_le (et_work_units s + et_tree_sitter_nodes s) 1024). lia.
Qed.

(** ** Resolution and fingerprints *)
Lemma check_budget_value_Ok name value :
  value ≤ usize_max → check_budget_value (name, value) = Ok tt ↔ value ≠ 0.
Proof.
  intros Hmax. simpl. destruct (N.eqb_spec value 0) as [->|Hne]; [by split|].
  rewrite (proj2 (N.ltb_ge _ _) Hmax), andb_false_r. by split.
Qed.

Lemma canonical_values_inj b b' : canonical_values b = canonical_values b' → b = b'.
Proof. destruct b, b'. unfold canonical_values; simpl. by intros [= -> -> -> -> -> -> -> -> -> -> -> -> ->]. Qed.

(** Two budgets have the same fingerprint text exactly when they are equal,
    so a batch is only reused under the budgets that it was extracted with, as
    far as the digest separates texts. *)
Theorem budget_fingerprint_faithful `{Blake3} b b' :
  digest_separates → fingerprint b = fingerprint b' → b = b'.
Proof.
  intros Hdigest E%stable_id_inj; [|done].
  apply canonical_values_inj, canonical_text_inj; [done|exact E].
Qed.

Definition override_values (values : ExtractionBudgetOverrides) : list (option N) := [
  eo_max_input_bytes_per_artifact values; eo_max_structural_depth_per_artifact values;
  eo_max_ast_depth_per_artifact values; eo_max_work_units_per_artifact values;
  eo_max_tree_sitter_nodes_per_artifact values; eo_max_observations_per_artifact values;
  eo_max_accumulated_string_bytes_per_artifact values; eo_max_serialized_output_bytes_per_artifact values;
  eo_max_string_bytes_per_value values; eo_max_portable_path_bytes_per_value values;
  eo_max_identifier_bytes_per_value values; eo_max_structured_wall_time_ms_per_artifact values;
  eo_max_tree_sitter_wall_time_ms_per_artifact values].

Lemma canonical_overridden values b :
  map snd (canonical_values (overridden values b)) =
  zip_with default (map snd (canonical_values b)) (override_values values).
Proof. done. Qed.

#[local] Opaque check_budget_value.
(** Overrides resolve exactly when none of them is zero. *)
Theorem budgets_resolve_exact values :
  Forall (λ o : option N, ∀ v, o = Some v → v ≤ u64_max) (override_values values) →
  (∃ b, resolve (Some values) = Ok b) ↔ Forall (λ o, o ≠ Some 0) (override_values values).
Proof.
  intros Hu. unfold resolve. transitivity (validate (overridden values default_budgets) = Ok tt).
  { destruct (validate _) as [[]|]; simpl; naive_solver. }
  unfold validate. rewrite try_each_Ok. unfold override_values in *.
  rewrite !Forall_cons in Hu. rewrite !Forall_cons, !Forall_nil.
  destruct_and!.
  assert (Hone : ∀ name (o : option N) d, (∀ v, o = Some v → v ≤ u64_max) → d ≠ 0 → d ≤ u64_max →
    check_budget_value (name, default d o) = Ok tt ↔ o ≠ Some 0).
  { intros name [v|] d Hv Hd Hdm; simpl default; rewrite check_budget_value_Ok by auto; [|naive_solver].
    split; congruence. }
  unfold canonical_values. rewrite !Forall_cons, Forall_nil. simpl.
  rewrite !Hone by (done || (compute; done)). tauto.
Qed.

(** ** The writer *)
Lemma u64_len_small {A} (l : list A) n : len l ≤ n → n ≤ u64_max → u64_len l = len l.
Proof. unfold u64_len. lia. Qed.

(** The writer keeps at most its maximum, whatever is written. *)
Definition bounded (w : BoundedJsonWriter) : Prop := len (bw_bytes w) ≤ bw_maximum w ∧ bw_maximum w < u64_max.

Lemma saturated_over a n maximum : maximum < u64_max →
  (maximum <? saturating_add a (N.min n u64_max)) = (maximum <? a + n).
Proof.
  intros Hmax. change u64_max with usize_max in *. unfold saturating_add.
  destruct (N.ltb_spec maximum (a + n)); [apply N.ltb_lt|apply N.ltb_ge]; lia.
Qed.

Lemma write_all_spec buffer w : bounded w →
  write_all buffer w =
  if bw_maximum w <? len (bw_bytes w) + len buffer then
    ({| bw_bytes := bw_bytes w; bw_maximum := bw_maximum w;
        bw_exceeded := Some (saturating_add (len (bw_bytes w)) (u64_len buffer)) |}, Err write_error)
  else ({| bw_bytes := bw_bytes w ++ buffer; bw_maximum := bw_maximum w; bw_exceeded := bw_exceeded w |}, Ok tt).
Proof.
  intros [Hlen Hmax]. rewrite <-(saturated_over _ (len buffer)) by done.
  assert (u64_len (bw_bytes w) = len (bw_bytes w)) as E by (apply (u64_len_small _ (bw_maximum w)); lia).
  destruct buffer as [|x buffer]; [|unfold write_all, write; by rewrite E].
  rewrite saturated_over by done. change (len ([] : list N)) with 0.
  rewrite N.add_0_r, (proj2 (N.ltb_ge _ _) Hlen), app_nil_r. by destruct w.
Qed.

Lemma write_all_bounded buffer : preserves bounded (write_all buffer).
Proof.
  intros w Hw. rewrite write_all_spec by done. destruct Hw as [Hlen Hmax].
  destruct (N.ltb_spec (bw_maximum w) (len (bw_bytes w) + len buffer)); split; try done.
  simpl. rewrite len_app. lia.
Qed.

Lemma writes_exact buffers w : bounded w →
  match m_each write_all buffers w with
  | (w', Ok tt) => bw_bytes w' = bw_bytes w ++ concat buffers ∧ bw_exceeded w' = bw_exceeded w
                   ∧ len (bw_bytes w) + len (concat buffers) ≤ bw_maximum w
  | (w', Err _) => (∃ n, bw_exceeded w' = Some n)
                   ∧ bw_maximum w < len (bw_bytes w) + len (concat buffers)
  end.
Proof.
  revert w. induction buffers as [|buffer buffers IH]; intros w Hw.
  - simpl. rewrite app_nil_r. destruct Hw as [Hlen _]. change (len ([] : list N)) with 0. rewrite N.add_0_r. auto.
  - simpl. unfold m_bind. pose proof (write_all_bounded buffer w Hw) as Hw1. rewrite write_all_spec in * by done.
    rewrite len_app.
    destruct (N.ltb_spec (bw_maximum w) (len (bw_bytes w) + len buffer)).
    + simpl. split; [by eexists|lia].
    + simpl in Hw1. apply IH in Hw1. destruct (m_each write_all buffers _) as [w' [[]|]]; simpl in Hw1.
      * rewrite <-app_assoc, len_app in Hw1. rewrite N.add_assoc. done.
      * rewrite len_app in Hw1. by rewrite N.add_assoc.
Qed.

Module Example_budget.
#[local] Instance identity_digest : Blake3 := λ text, text.

Definition limits : ExtractionBudgets := overridden {|
  eo_max_input_bytes_per_artifact := None; eo_max_structural_depth_per_artifact := None;
  eo_max_ast_depth_per_artifact := None; eo_max_work_units_per_artifact := Some 2;
  eo_max_tree_sitter_nodes_per_artifact := None; eo_max_observations_per_artifact := Some 3;
  eo_max_accumulated_string_bytes_per_artifact := Some 5; eo_max_serialized_output_bytes_per_artifact := None;
  eo_max_string_bytes_per_value := None; eo_max_portable_path_bytes_per_value := None;
  eo_max_identifier_bytes_per_value := None; eo_max_structured_wall_time_ms_per_artifact := None;
  eo_max_tree_sitter_wall_time_ms_per_artifact := None |} default_budgets.

Definition history : list tracker_call :=
  [ChargeWork 2 0; ChargeNode 3 0; ChargeString "abc"; EnsureObservations 2; ChargeObservation 1].

(** One unit, byte or observation too many; a late clock. *)
Example budget_rejections :
  let run := λ calls, (m_each call calls (new_tracker "a" "graphql" limits)).2 in
  let error r n m := Err {| le_artifact := "a"; le_extractor := "graphql"; le_resource := r;
                            le_observed := n; le_maximum := m |} in
  run history = Ok tt
  ∧ run (history ++ [ChargeWork 1 0]) = error WorkUnits 3 2
  ∧ run (history ++ [ChargeIdentifier "xyz"]) = error AccumulatedStringBytes 6 5
  ∧ run (history ++ [EnsureObservations 3; EnsureObservations 4]) = error Observations 4 3
  ∧ run [ChargeWork 1 5001000000] = error StructuredWallTimeMs 5001 5000
  ∧ run [ChargeWork 1 0; ChargeWork 1 5001000000] = Ok tt.
Proof. vm_compute. by repeat split. Qed.

Lemma run_accepts_exactly_witness :
  budgets_u64 limits ∧ Forall (λ c, timely limits c = true) history
  ∧ ((m_each call history (new_tracker "a" "graphql" limits)).2 = Ok tt ↔ fits limits history).
Proof.
  assert (budgets_u64 limits) as Hb by (vm_compute; repeat split; congruence).
  assert (Forall (λ c, timely limits c = true) history) as Ht by (repeat constructor).
  exact (conj Hb (conj Ht (run_accepts_exactly "a" "graphql" limits history Hb Ht))).
Defined.

Definition late_history : list tracker_call := [ChargeWork 1 5001000000].

Lemma deadline_overrun_witness :
  let t := m_all call [ChargeWork 1 0] (new_tracker "a" "graphql" limits) in
  let t' := m_all call late_history t in
  m_each call late_history t = (t', Ok tt)
  ∧ et_work_units t' + et_tree_sitter_nodes t' < et_work_units t + et_tree_sitter_nodes t + 1024
  ∧ (et_work_units t + et_tree_sitter_nodes t = 0 → et_work_units t' + et_tree_sitter_nodes t' = 0).
Proof.
  split; [reflexivity|].
  refine (deadline_overrun "a" "graphql" limits [ChargeWork 1 0] late_history _ _ _ eq_refl _ eq_refl);
    [vm_compute; congruence|repeat constructor].
Defined.

Lemma budget_fingerprint_faithful_witness :
  fingerprint default_budgets = fingerprint default_budgets ∧ default_budgets = default_budgets.
Proof. split; [reflexivity|]. apply budget_fingerprint_faithful; [by intros x y|reflexivity]. Defined.
End Example_budget.
