(* ===== verification/Batch.v ===== *)
(** * Extractor batches

    [batch.rs]: the output of one extractor invocation, encoded for persistence
    and decoded under the limits of a tracker. The JSON encoding is that of
    [serde_json] and of the output type, a parameter: the fragments it writes,
    with the failure after them if there is one, and the decoder. *)
From stdpp Require Import base list strings.
From S2P Require Import Prelude Method RustOrd RustStr CanonicalText Model Budget.
#[local] Open Scope N_scope.

Record StoredExtractorBatch := {
  sb_source : ArtifactFingerprint;
  sb_extractor_version : string;
  sb_budget_fingerprint : string;
  sb_source_was_lossy : bool;
  sb_output_count : N;
  sb_payload : list N;
}.

Class JsonCodec (T : Type) := {
  json_fragments : list T → list (list N) * option string;
  json_from_slice : list N → result string (list T);
}.

(** Decoding gives back what was encoded. *)
Class JsonRoundTrip (T : Type) `{JsonCodec T} : Prop :=
  json_round_trip : ∀ outputs fragments, json_fragments outputs = (fragments, None) →
    json_from_slice (concat fragments) = Ok outputs.

Record ExtractorBatch (T : Type) := { xb_source : ArtifactFingerprint; xb_outputs : list T }.
Arguments xb_source {T}.
Arguments xb_outputs {T}.

Inductive BatchPlanError :=
| InvalidPayload (message : string)
| ExtractionLimit (limit : ExtractionLimitExceeded)
| OutputCountOverflow
| OutputCountMismatch (stored decoded : N).

Section batches.
Context {T : Type} `{JsonCodec T} `{Blake3}.

(** [serde_json::to_writer] *)
Definition to_writer (outputs : list T) : method BoundedJsonWriter string unit :=
  let '(fragments, failure) := json_fragments outputs in
  do! m_each write_all fragments in
  m_read (λ _, match failure with Some error => Err error | None => Ok tt end).

Definition encode_batch (t : ExtractionTracker) (batch : ExtractorBatch T) (source_was_lossy : bool)
    : result BatchPlanError StoredExtractorBatch :=
  match to_writer (xb_outputs batch) (bounded_json_writer t) with
  | (writer, Err error) =>
      match output_limit_error t writer with
      | Some limit => Err (ExtractionLimit limit)
      | None => Err (InvalidPayload error)
      end
  | (writer, Ok _) =>
      if u64_max <? len (xb_outputs batch) then Err OutputCountOverflow
      else Ok {|
        sb_source := xb_source batch;
        sb_extractor_version := EXTRACTION_CONTRACT_VERSION;
        sb_budget_fingerprint := fingerprint (et_budgets t);
        sb_source_was_lossy := source_was_lossy;
        sb_output_count := len (xb_outputs batch);
        sb_payload := bw_bytes writer;
      |}
  end.

Definition store_extractor_batch (batch : ExtractorBatch T) (source_was_lossy : bool)
    : method ExtractionTracker BatchPlanError StoredExtractorBatch := λ t,
  match ensure_observations (u64_len (xb_outputs batch)) t with
  | (t, Err limit) => (t, Err (ExtractionLimit limit))
  | (t, Ok _) => (t, encode_batch t batch source_was_lossy)
  end.

Definition stored_limit (stored : StoredExtractorBatch) (resource : ExtractionResource)
    (observed maximum : N) : BatchPlanError :=
  ExtractionLimit {|
    le_artifact := np_display (fp_path (sb_source stored));
    le_extractor := fp_extractor (sb_source stored);
    le_resource := resource;
    le_observed := observed;
    le_maximum := maximum;
  |}.

Definition load_extractor_batch_with_budgets (stored : StoredExtractorBatch) (budgets : ExtractionBudgets)
    : result BatchPlanError (ExtractorBatch T) :=
  if eb_max_observations_per_artifact budgets <? sb_output_count stored then
    Err (stored_limit stored Observations (sb_output_count stored) (eb_max_observations_per_artifact budgets))
  else
  let observed := u64_len (sb_payload stored) in
  if eb_max_serialized_output_bytes_per_artifact budgets <? observed then
    Err (stored_limit stored SerializedOutputBytes observed
           (eb_max_serialized_output_bytes_per_artifact budgets))
  else
  match json_from_slice (sb_payload stored) with
  | Err error => Err (InvalidPayload error)
  | Ok outputs =>
      if (sb_output_count stored <=? usize_max) && (sb_output_count stored =? len outputs)
      then Ok {| xb_source := sb_source stored; xb_outputs := outputs |}
      else Err (OutputCountMismatch (sb_output_count stored) (len outputs))
  end.

Definition load_extractor_batch (stored : StoredExtractorBatch) : result BatchPlanError (ExtractorBatch T) :=
  load_extractor_batch_with_budgets stored default_budgets.
End batches.

(** ** Correctness *)
Section correctness.
Context {T : Type} `{JsonCodec T} `{Blake3}.

Lemma to_writer_spec outputs fragments (w : BoundedJsonWriter) :
  bounded w → json_fragments outputs = (fragments, None) →
  match to_writer outputs w with
  | (w', Ok _) => bw_bytes w' = bw_bytes w ++ concat fragments
                  ∧ len (bw_bytes w) + len (concat fragments) ≤ bw_maximum w
  | (w', Err _) => (∃ n, bw_exceeded w' = Some n)
                   ∧ bw_maximum w < len (bw_bytes w) + len (concat fragments)
  end.
Proof.
  intros Hw E. unfold to_writer. rewrite E. unfold m_bind.
  pose proof (writes_exact fragments w Hw) as Hwrites.
  destruct (m_each write_all fragments w) as [w' [[]|]]; simpl; [|done].
  destruct Hwrites as (? & _ & ?). auto.
Qed.

Lemma encode_batch_spec b t (batch : ExtractorBatch T) lossy fragments :
  et_budgets t = b → eb_max_serialized_output_bytes_per_artifact b < u64_max →
  json_fragments (xb_outputs batch) = (fragments, None) →
  ∀ stored, encode_batch t batch lossy = Ok stored ↔
    len (xb_outputs batch) ≤ u64_max
    ∧ len (concat fragments) ≤ eb_max_serialized_output_bytes_per_artifact b
    ∧ stored = {| sb_source := xb_source batch; sb_extractor_version := EXTRACTION_CONTRACT_VERSION;
                  sb_budget_fingerprint := fingerprint b; sb_source_was_lossy := lossy;
                  sb_output_count := len (xb_outputs batch); sb_payload := concat fragments |}.
Proof.
  intros <- Hmax E stored.
  assert (bounded (bounded_json_writer t)) as Hw by (split; [apply N.le_0_l|done]).
  pose proof (to_writer_spec _ fragments _ Hw E) as Hwriter. unfold encode_batch.
  destruct (to_writer _ _) as [w' [u|error]].
  - destruct Hwriter as [-> Hlen]. simpl in *. change (len ([] : list N)) with 0 in Hlen.
    destruct (N.ltb_spec u64_max (len (xb_outputs batch))); [split; [done|lia]|].
    split; [intros [= <-]; auto|by intros (_ & _ & ->)].
  - destruct Hwriter as [[n Hn] Hlen]. unfold output_limit_error. rewrite Hn. simpl in Hlen.
    change (len ([] : list N)) with 0 in Hlen. split; [done|lia].
Qed.

(** A batch is stored exactly when its outputs and its encoding fit the
    budgets; what is stored is then the whole encoding, counted. *)
Lemma store_fits b t (batch : ExtractorBatch T) lossy fragments stored :
  within b t → budgets_u64 b → eb_max_serialized_output_bytes_per_artifact b < u64_max →
  json_fragments (xb_outputs batch) = (fragments, None) →
  (store_extractor_batch batch lossy t).2 = Ok stored ↔
    len (xb_outputs batch) ≤ eb_max_observations_per_artifact b
    ∧ len (concat fragments) ≤ eb_max_serialized_output_bytes_per_artifact b
    ∧ stored = {| sb_source := xb_source batch; sb_extractor_version := EXTRACTION_CONTRACT_VERSION;
                  sb_budget_fingerprint := fingerprint b; sb_source_was_lossy := lossy;
                  sb_output_count := len (xb_outputs batch); sb_payload := concat fragments |}.
Proof.
  intros Ht Hb Hmax E. unfold store_extractor_batch.
  pose proof Ht as (Hbudgets & _ & _ & Ho & _). pose proof Hb as (_ & _ & _ & Hou).
  pose proof (ensure_observations_Ok (u64_len (xb_outputs batch)) t) as Hensure.
  rewrite Hbudgets in Hensure. specialize (λ t', Hensure t' Ho) as Hensure'.
  unfold u64_len in *.
  destruct (ensure_observations _ t) as [t1 [[]|limit]] eqn:Eo.
  - destruct (proj1 (Hensure' t1) eq_refl) as (Hcount & _ & ->). simpl.
    rewrite (encode_batch_spec b) by done. split; intros (? & ? & ?); repeat split; (done || lia).
  - split; [done|]. intros (Hcount & _). exfalso.
    enough ((t1, @Err ExtractionLimitExceeded unit limit) = (with_observations t
      (et_observations t `max` (len (xb_outputs batch) `min` u64_max)), Ok ())) by done.
    apply Hensure'. repeat split; lia.
Qed.

(** A batch that was stored is loaded back under the same budgets, with its
    source and all its outputs in order. *)
Theorem store_load_roundtrip `{!JsonRoundTrip T} b t (batch : ExtractorBatch T) lossy fragments stored :
  within b t → budgets_u64 b → eb_max_serialized_output_bytes_per_artifact b < u64_max →
  json_fragments (xb_outputs batch) = (fragments, None) →
  (store_extractor_batch batch lossy t).2 = Ok stored →
  load_extractor_batch_with_budgets stored b = Ok batch.
Proof.
  intros Ht Hb Hmax E Hstored.
  rewrite (store_fits b) in Hstored by done. destruct Hstored as (Hcount & Hlen & ->).
  destruct Hb as (_ & _ & _ & Hou). unfold load_extractor_batch_with_budgets. simpl.
  rewrite (proj2 (N.ltb_ge _ _) Hcount), (u64_len_small _ _ Hlen) by lia.
  rewrite (proj2 (N.ltb_ge _ _) Hlen), (json_round_trip _ _ E), N.eqb_refl.
  rewrite (proj2 (N.leb_le _ _)) by (change usize_max with u64_max; lia). by destruct batch.
Qed.

(** What a persisted batch must satisfy before and after its decoding. *)
Theorem load_exact stored b (batch : ExtractorBatch T) :
  load_extractor_batch_with_budgets stored b = Ok batch ↔
    sb_output_count stored ≤ eb_max_observations_per_artifact b
    ∧ u64_len (sb_payload stored) ≤ eb_max_serialized_output_bytes_per_artifact b
    ∧ json_from_slice (sb_payload stored) = Ok (xb_outputs batch)
    ∧ sb_output_count stored = len (xb_outputs batch) ∧ sb_output_count stored ≤ usize_max
    ∧ xb_source batch = sb_source stored.
Proof.
  unfold load_extractor_batch_with_budgets.
  destruct (N.ltb_spec (eb_max_observations_per_artifact b) (sb_output_count stored)); [split; [done|lia]|].
  destruct (N.ltb_spec (eb_max_serialized_output_bytes_per_artifact b) (u64_len (sb_payload stored)));
    [split; [done|lia]|].
  destruct (json_from_slice _) as [outputs|error]; [|split; [done|by intros (_ & _ & ? & _)]].
  destruct (N.leb_spec (sb_output_count stored) usize_max); simpl; [|split; [done|lia]].
  destruct (N.eqb_spec (sb_output_count stored) (len outputs)).
  - split; [intros [= <-]; by repeat split|]. intros (_ & _ & [= ->] & _ & _ & <-). by destruct batch.
  - split; [done|]. intros (_ & _ & [= ->] & ? & _). done.
Qed.
End correctness.

Module Example_batch.
(** A codec that writes small numbers as they are, between brackets. *)
#[local] Instance bytes_codec : JsonCodec N := {
  json_fragments outputs := ([[91]; outputs; [93]], None);
  json_from_slice bytes :=
    match bytes with 91 :: rest => Ok (removelast rest) | _ => Err "expected an array" end;
}.
#[local] Instance bytes_round_trip : JsonRoundTrip N.
Proof. intros outputs fragments [= <-]. simpl. by rewrite removelast_last. Qed.
#[local] Instance no_digest : Blake3 := λ text, text.

Definition artifact : ArtifactFingerprint := {|
  fp_repo_id := "repo:api"; fp_checkout_id := "checkout:api";
  fp_path := {| np_encoding := Utf8; np_bytes := [97]; np_display := "a" |};
  fp_extractor := "graphql"; fp_content_hash := "hash"; fp_size_bytes := 4 |}.
Definition batch : ExtractorBatch N := {| xb_source := artifact; xb_outputs := [1; 2; 3] |}.
Definition tracker : ExtractionTracker := new_tracker "a" "graphql" default_budgets.
Definition stored : StoredExtractorBatch := {|
  sb_source := artifact; sb_extractor_version := "1.2.1";
  sb_budget_fingerprint := fingerprint default_budgets; sb_source_was_lossy := false;
  sb_output_count := 3; sb_payload := [91; 1; 2; 3; 93] |}.

(** Too many outputs, too many bytes, a wrong count and a wrong payload. *)
Example load_rejections :
  let load := load_extractor_batch_with_budgets (T := N) in
  let with_count n := {| sb_source := artifact; sb_extractor_version := "1.2.1";
    sb_budget_fingerprint := ""; sb_source_was_lossy := false; sb_output_count := n; sb_payload := [91; 1; 93] |} in
  (∃ e, load (with_count 100001) default_budgets = Err (ExtractionLimit e))
  ∧ load (with_count 2) default_budgets = Err (OutputCountMismatch 2 1)
  ∧ load (with_count 1) default_budgets = Ok {| xb_source := artifact; xb_outputs := [1] |}.
Proof. vm_compute. split; [by eexists|by split]. Qed.

Lemma store_load_roundtrip_witness :
  (store_extractor_batch batch false tracker).2 = Ok stored
  ∧ load_extractor_batch_with_budgets stored default_budgets = Ok batch.
Proof.
  assert ((store_extractor_batch batch false tracker).2 = Ok stored) as E by reflexivity.
  split; [exact E|].
  apply (store_load_roundtrip default_budgets tracker batch false [[91]; [1; 2; 3]; [93]]);
    [apply new_tracker_within|vm_compute; repeat split; congruence|reflexivity|reflexivity|exact E].
Defined.
End Example_batch.
