(* ===== verification/ExecPolicy.v ===== *)
(** * Execution policy

    [execution_policy.rs] and [execution_policy/tracker.rs]: the operator's limits
    on one workspace operation, their resolution, validation and fingerprints,
    and the watchdog that a worker consults. Whether a deadline can be added to
    the monotonic clock depends on the platform and is a parameter; a call that
    reads the clock takes the reading, in nanoseconds, as an argument. *)
From stdpp Require Import base list strings pretty.
From Stdlib Require Import ZArith Ascii.
From S2P Require Import Prelude Method RustOrd RustStr CanonicalText Model Budget.
#[local] Open Scope N_scope.

Definition MAX_EXTRACTION_WORKERS_CEILING : N := 256.
Definition MIN_MCP_MARKDOWN_BYTES : N := 256.
Definition i64_max : N := 9223372036854775807.

Inductive InvalidExecutionPolicy :=
| InvalidValue (field : string) (value : N)
| BelowMinimum (field : string) (value minimum : N)
| InvalidRelationship (field : string) (value : N) (maximum_field : string) (maximum : N)
| ArithmeticOverflow (expression : string).

(** ** Anchor limits *)

(** The bound is a [NonZeroUsize]. *)
Inductive CodeGraphCorroborationAnchorLimit :=
| Bounded (limit : N)
| Unlimited.

Definition anchor_limit_bounded (limit : CodeGraphCorroborationAnchorLimit) : option N :=
  match limit with Bounded n => Some n | Unlimited => None end.

(** [TryFrom<i64>] *)
Definition anchor_limit_try_from (value : Z) : result InvalidExecutionPolicy CodeGraphCorroborationAnchorLimit :=
  if (value =? -1)%Z then Ok Unlimited
  else if (0 <? value)%Z && (value <=? Z.of_N usize_max)%Z then Ok (Bounded (Z.to_N value))
  else Err (InvalidValue "maxCodeGraphCorroborationAnchorsPerRepo" (Z.abs_N value)).

(** [Serialize], as the number written to the manifest. *)
Definition anchor_limit_serialize (limit : CodeGraphCorroborationAnchorLimit) : result string Z :=
  match limit with
  | Bounded n => if n <=? i64_max then Ok (Z.of_N n)
                 else Err "CodeGraph corroboration anchor limit exceeds i64"
  | Unlimited => Ok (-1)%Z
  end.

(** [Display] *)
Definition anchor_limit_text (limit : CodeGraphCorroborationAnchorLimit) : string :=
  match limit with Bounded n => pretty n | Unlimited => "-1" end.

(** ** The policy *)
Record ExecutionPolicyOverrides := {
  xo_max_scan_wall_time_ms : option N;
  xo_max_no_progress_time_ms : option N;
  xo_max_codegraph_sync_wall_time_ms_per_repo : option N;
  xo_max_worker_memory_bytes : option N;
  xo_graceful_termination_ms : option N;
  xo_watch_idle_timeout_ms : option N;
  xo_max_watch_session_wall_time_ms : option N;
  xo_min_watch_rescan_interval_ms : option N;
  xo_max_checkpoint_cache_bytes : option N;
  xo_max_extraction_workers : option N;
  xo_max_codegraph_corroboration_anchors_per_repo : option Z;
  xo_max_explore_wall_time_ms : option N;
  xo_max_explore_codegraph_operations : option N;
  xo_max_explore_concurrent_codegraph_processes : option N;
  xo_max_explore_source_files : option N;
  xo_max_explore_resolved_symbols : option N;
  xo_max_explore_anchors : option N;
  xo_max_explore_neighbors_per_direction : option N;
  xo_max_explore_local_relationships : option N;
  xo_max_explore_federated_handoffs_per_anchor : option N;
  xo_max_explore_federated_handoffs : option N;
  xo_max_explore_evidence_locations_per_handoff : option N;
  xo_max_explore_source_markdown_bytes : option N;
  xo_max_explore_enrichment_bytes : option N;
  xo_max_agent_next_actions_per_response : option N;
  xo_max_query_repository_suggestions : option N;
  xo_max_mcp_tool_response_bytes : option N;
  xo_max_mcp_resource_items : option N;
  xo_max_mcp_resource_bytes : option N;
  xo_max_mcp_schema_catalog_bytes : option N;
}.

Record ExecutionPolicy := {
  xp_max_scan_wall_time_ms : N;
  xp_max_no_progress_time_ms : N;
  xp_max_codegraph_sync_wall_time_ms_per_repo : N;
  xp_max_worker_memory_bytes : N;
  xp_graceful_termination_ms : N;
  xp_watch_idle_timeout_ms : N;
  xp_max_watch_session_wall_time_ms : N;
  xp_min_watch_rescan_interval_ms : N;
  xp_max_checkpoint_cache_bytes : N;
  xp_max_extraction_workers : N;
  xp_max_codegraph_corroboration_anchors_per_repo : CodeGraphCorroborationAnchorLimit;
  xp_max_explore_wall_time_ms : N;
  xp_max_explore_codegraph_operations : N;
  xp_max_explore_concurrent_codegraph_processes : N;
  xp_max_explore_source_files : N;
  xp_max_explore_resolved_symbols : N;
  xp_max_explore_anchors : N;
  xp_max_explore_neighbors_per_direction : N;
  xp_max_explore_local_relationships : N;
  xp_max_explore_federated_handoffs_per_anchor : N;
  xp_max_explore_federated_handoffs : N;
  xp_max_explore_evidence_locations_per_handoff : N;
  xp_max_explore_source_markdown_bytes : N;
  xp_max_explore_enrichment_bytes : N;
  xp_max_agent_next_actions_per_response : N;
  xp_max_query_repository_suggestions : N;
  xp_max_mcp_tool_response_bytes : N;
  xp_max_mcp_resource_items : N;
  xp_max_mcp_resource_bytes : N;
  xp_max_mcp_schema_catalog_bytes : N;
}.

Definition default_policy : ExecutionPolicy := {|
  xp_max_scan_wall_time_ms := 21600000;
  xp_max_no_progress_time_ms := 300000;
  xp_max_codegraph_sync_wall_time_ms_per_repo := 3600000;
  xp_max_worker_memory_bytes := 17179869184;
  xp_graceful_termination_ms := 5000;
  xp_watch_idle_timeout_ms := 28800000;
  xp_max_watch_session_wall_time_ms := 86400000;
  xp_min_watch_rescan_interval_ms := 10000;
  xp_max_checkpoint_cache_bytes := 10737418240;
  xp_max_extraction_workers := 8;
  xp_max_codegraph_corroboration_anchors_per_repo := Bounded 50;
  xp_max_explore_wall_time_ms := 8000;
  xp_max_explore_codegraph_operations := 8;
  xp_max_explore_concurrent_codegraph_processes := 2;
  xp_max_explore_source_files := 25;
  xp_max_explore_resolved_symbols := 5;
  xp_max_explore_anchors := 3;
  xp_max_explore_neighbors_per_direction := 8;
  xp_max_explore_local_relationships := 48;
  xp_max_explore_federated_handoffs_per_anchor := 10;
  xp_max_explore_federated_handoffs := 30;
  xp_max_explore_evidence_locations_per_handoff := 4;
  xp_max_explore_source_markdown_bytes := 262144;
  xp_max_explore_enrichment_bytes := 65536;
  xp_max_agent_next_actions_per_response := 12;
  xp_max_query_repository_suggestions := 20;
  xp_max_mcp_tool_response_bytes := 524288;
  xp_max_mcp_resource_items := 100;
  xp_max_mcp_resource_bytes := 262144;
  xp_max_mcp_schema_catalog_bytes := 2097152;
|}.

(** [apply!] for every field; the anchor limit is converted in between. *)
Definition apply_overrides (values : ExecutionPolicyOverrides)
    (anchors : CodeGraphCorroborationAnchorLimit) (policy : ExecutionPolicy) : ExecutionPolicy := {|
  xp_max_scan_wall_time_ms := default (xp_max_scan_wall_time_ms policy) (xo_max_scan_wall_time_ms values);
  xp_max_no_progress_time_ms := default (xp_max_no_progress_time_ms policy) (xo_max_no_progress_time_ms values);
  xp_max_codegraph_sync_wall_time_ms_per_repo := default (xp_max_codegraph_sync_wall_time_ms_per_repo policy) (xo_max_codegraph_sync_wall_time_ms_per_repo values);
  xp_max_worker_memory_bytes := default (xp_max_worker_memory_bytes policy) (xo_max_worker_memory_bytes values);
  xp_graceful_termination_ms := default (xp_graceful_termination_ms policy) (xo_graceful_termination_ms values);
  xp_watch_idle_timeout_ms := default (xp_watch_idle_timeout_ms policy) (xo_watch_idle_timeout_ms values);
  xp_max_watch_session_wall_time_ms := default (xp_max_watch_session_wall_time_ms policy) (xo_max_watch_session_wall_time_ms values);
  xp_min_watch_rescan_interval_ms := default (xp_min_watch_rescan_interval_ms policy) (xo_min_watch_rescan_interval_ms values);
  xp_max_checkpoint_cache_bytes := default (xp_max_checkpoint_cache_bytes policy) (xo_max_checkpoint_cache_bytes values);
  xp_max_extraction_workers := default (xp_max_extraction_workers policy) (xo_max_extraction_workers values);
  xp_max_codegraph_corroboration_anchors_per_repo := anchors;
  xp_max_explore_wall_time_ms := default (xp_max_explore_wall_time_ms policy) (xo_max_explore_wall_time_ms values);
  xp_max_explore_codegraph_operations := default (xp_max_explore_codegraph_operations policy) (xo_max_explore_codegraph_operations values);
  xp_max_explore_concurrent_codegraph_processes := default (xp_max_explore_concurrent_codegraph_processes policy) (xo_max_explore_concurrent_codegraph_processes values);
  xp_max_explore_source_files := default (xp_max_explore_source_files policy) (xo_max_explore_source_files values);
  xp_max_explore_resolved_symbols := default (xp_max_explore_resolved_symbols policy) (xo_max_explore_resolved_symbols values);
  xp_max_explore_anchors := default (xp_max_explore_anchors policy) (xo_max_explore_anchors values);
  xp_max_explore_neighbors_per_direction := default (xp_max_explore_neighbors_per_direction policy) (xo_max_explore_neighbors_per_direction values);
  xp_max_explore_local_relationships := default (xp_max_explore_local_relationships policy) (xo_max_explore_local_relationships values);
  xp_max_explore_federated_handoffs_per_anchor := default (xp_max_explore_federated_handoffs_per_anchor policy) (xo_max_explore_federated_handoffs_per_anchor values);
  xp_max_explore_federated_handoffs := default (xp_max_explore_federated_handoffs policy) (xo_max_explore_federated_handoffs values);
  xp_max_explore_evidence_locations_per_handoff := default (xp_max_explore_evidence_locations_per_handoff policy) (xo_max_explore_evidence_locations_per_handoff values);
  xp_max_explore_source_markdown_bytes := default (xp_max_explore_source_markdown_bytes policy) (xo_max_explore_source_markdown_bytes values);
  xp_max_explore_enrichment_bytes := default (xp_max_explore_enrichment_bytes policy) (xo_max_explore_enrichment_bytes values);
  xp_max_agent_next_actions_per_response := default (xp_max_agent_next_actions_per_response policy) (xo_max_agent_next_actions_per_response values);
  xp_max_query_repository_suggestions := default (xp_max_query_repository_suggestions policy) (xo_max_query_repository_suggestions values);
  xp_max_mcp_tool_response_bytes := default (xp_max_mcp_tool_response_bytes policy) (xo_max_mcp_tool_response_bytes values);
  xp_max_mcp_resource_items := default (xp_max_mcp_resource_items policy) (xo_max_mcp_resource_items values);
  xp_max_mcp_resource_bytes := default (xp_max_mcp_resource_bytes policy) (xo_max_mcp_resource_bytes values);
  xp_max_mcp_schema_catalog_bytes := default (xp_max_mcp_schema_catalog_bytes policy) (xo_max_mcp_schema_catalog_bytes values);
|}.

Definition scan_canonical_values (p : ExecutionPolicy) : list (string * N) := [
  ("maxScanWallTimeMs", xp_max_scan_wall_time_ms p);
  ("maxNoProgressTimeMs", xp_max_no_progress_time_ms p);
  ("maxCodeGraphSyncWallTimeMsPerRepo", xp_max_codegraph_sync_wall_time_ms_per_repo p);
  ("maxWorkerMemoryBytes", xp_max_worker_memory_bytes p);
  ("gracefulTerminationMs", xp_graceful_termination_ms p);
  ("watchIdleTimeoutMs", xp_watch_idle_timeout_ms p);
  ("maxWatchSessionWallTimeMs", xp_max_watch_session_wall_time_ms p);
  ("minWatchRescanIntervalMs", xp_min_watch_rescan_interval_ms p);
  ("maxCheckpointCacheBytes", xp_max_checkpoint_cache_bytes p)].

Definition agent_canonical_values (p : ExecutionPolicy) : list (string * N) := [
  ("maxExploreWallTimeMs", xp_max_explore_wall_time_ms p);
  ("maxExploreCodeGraphOperations", xp_max_explore_codegraph_operations p);
  ("maxExploreConcurrentCodeGraphProcesses", xp_max_explore_concurrent_codegraph_processes p);
  ("maxExploreSourceFiles", xp_max_explore_source_files p);
  ("maxExploreResolvedSymbols", xp_max_explore_resolved_symbols p);
  ("maxExploreAnchors", xp_max_explore_anchors p);
  ("maxExploreNeighborsPerDirection", xp_max_explore_neighbors_per_direction p);
  ("maxExploreLocalRelationships", xp_max_explore_local_relationships p);
  ("maxExploreFederatedHandoffsPerAnchor", xp_max_explore_federated_handoffs_per_anchor p);
  ("maxExploreFederatedHandoffs", xp_max_explore_federated_handoffs p);
  ("maxExploreEvidenceLocationsPerHandoff", xp_max_explore_evidence_locations_per_handoff p);
  ("maxExploreSourceMarkdownBytes", xp_max_explore_source_markdown_bytes p);
  ("maxExploreEnrichmentBytes", xp_max_explore_enrichment_bytes p);
  ("maxAgentNextActionsPerResponse", xp_max_agent_next_actions_per_response p);
  ("maxQueryRepositorySuggestions", xp_max_query_repository_suggestions p);
  ("maxMcpToolResponseBytes", xp_max_mcp_tool_response_bytes p);
  ("maxMcpResourceItems", xp_max_mcp_resource_items p);
  ("maxMcpResourceBytes", xp_max_mcp_resource_bytes p);
  ("maxMcpSchemaCatalogBytes", xp_max_mcp_schema_catalog_bytes p)].

(** Adding that many milliseconds to [Instant::now()] is representable. *)
Class InstantRange := deadline_representable : N → bool.

Section policies.
Context `{InstantRange}.

Definition check_scalar_value (entry : string * N) : result InvalidExecutionPolicy unit :=
  let '(field, value) := entry in
  let invalid_bytes := ends_with "Bytes" field && (usize_max <? value) in
  let invalid_count := negb (ends_with "Ms" field) && (usize_max <? value) in
  let invalid_sqlite_quota := (field =? "maxCheckpointCacheBytes")%string && (i64_max <? value) in
  let invalid_deadline := ends_with "Ms" field && negb (deadline_representable value) in
  if (value =? 0) || invalid_bytes || invalid_count || invalid_sqlite_quota || invalid_deadline
  then Err (InvalidValue field value)
  else Ok tt.

Definition validate_scalar_values (p : ExecutionPolicy) : result InvalidExecutionPolicy unit :=
  check? try_each check_scalar_value (scan_canonical_values p ++ agent_canonical_values p) in
  if (xp_max_extraction_workers p =? 0) || (MAX_EXTRACTION_WORKERS_CEILING <? xp_max_extraction_workers p)
  then Err (InvalidValue "maxExtractionWorkers" (xp_max_extraction_workers p))
  else Ok tt.

Definition check_mcp_minimum (entry : string * N) : result InvalidExecutionPolicy unit :=
  let '(field, value) := entry in
  if value <? MIN_MCP_MARKDOWN_BYTES then Err (BelowMinimum field value MIN_MCP_MARKDOWN_BYTES) else Ok tt.

Definition validate_mcp_minimums (p : ExecutionPolicy) : result InvalidExecutionPolicy unit :=
  try_each check_mcp_minimum [
    ("maxMcpToolResponseBytes", xp_max_mcp_tool_response_bytes p);
    ("maxMcpResourceBytes", xp_max_mcp_resource_bytes p);
    ("maxMcpSchemaCatalogBytes", xp_max_mcp_schema_catalog_bytes p)].

Definition require_not_greater (field : string) (value : N) (maximum_field : string) (maximum : N)
    : result InvalidExecutionPolicy unit :=
  if maximum <? value then Err (InvalidRelationship field value maximum_field maximum) else Ok tt.

Definition validate_scan_relationships (p : ExecutionPolicy) : result InvalidExecutionPolicy unit :=
  check? require_not_greater "maxNoProgressTimeMs" (xp_max_no_progress_time_ms p)
    "maxScanWallTimeMs" (xp_max_scan_wall_time_ms p) in
  check? require_not_greater "maxCodeGraphSyncWallTimeMsPerRepo" (xp_max_codegraph_sync_wall_time_ms_per_repo p)
    "maxScanWallTimeMs" (xp_max_scan_wall_time_ms p) in
  check? require_not_greater "gracefulTerminationMs" (xp_graceful_termination_ms p)
    "maxNoProgressTimeMs" (xp_max_no_progress_time_ms p) in
  check? require_not_greater "watchIdleTimeoutMs" (xp_watch_idle_timeout_ms p)
    "maxWatchSessionWallTimeMs" (xp_max_watch_session_wall_time_ms p) in
  require_not_greater "minWatchRescanIntervalMs" (xp_min_watch_rescan_interval_ms p)
    "watchIdleTimeoutMs" (xp_watch_idle_timeout_ms p).

Definition checked_mul (a b : N) : option N := if u64_max <? a * b then None else Some (a * b).

(** The multiplication sign of the error texts is two bytes of UTF-8. *)
Definition times : string :=
  String (Ascii.ascii_of_N 195) (String (Ascii.ascii_of_N 151) EmptyString).

Definition validate_explore_relationships (p : ExecutionPolicy) : result InvalidExecutionPolicy unit :=
  check? require_not_greater "maxExploreAnchors" (xp_max_explore_anchors p)
    "maxExploreResolvedSymbols" (xp_max_explore_resolved_symbols p) in
  check? require_not_greater "maxExploreConcurrentCodeGraphProcesses"
    (xp_max_explore_concurrent_codegraph_processes p)
    "maxExploreCodeGraphOperations" (xp_max_explore_codegraph_operations p) in
  let? local_ceiling := ok_or
    (checked_mul (xp_max_explore_anchors p) 2 ≫=
       λ value, checked_mul value (xp_max_explore_neighbors_per_direction p))
    (ArithmeticOverflow ("maxExploreAnchors " +:+ times +:+ " 2 " +:+ times
                           +:+ " maxExploreNeighborsPerDirection")) in
  check? require_not_greater "maxExploreLocalRelationships" (xp_max_explore_local_relationships p)
    "anchor neighbor capacity" local_ceiling in
  let? handoff_ceiling := ok_or
    (checked_mul (xp_max_explore_anchors p) (xp_max_explore_federated_handoffs_per_anchor p))
    (ArithmeticOverflow ("maxExploreAnchors " +:+ times +:+ " maxExploreFederatedHandoffsPerAnchor")) in
  check? require_not_greater "maxExploreFederatedHandoffs" (xp_max_explore_federated_handoffs p)
    "anchor handoff capacity" handoff_ceiling in
  check? require_not_greater "maxExploreSourceMarkdownBytes" (xp_max_explore_source_markdown_bytes p)
    "maxMcpToolResponseBytes" (xp_max_mcp_tool_response_bytes p) in
  require_not_greater "maxExploreEnrichmentBytes" (xp_max_explore_enrichment_bytes p)
    "maxMcpToolResponseBytes" (xp_max_mcp_tool_response_bytes p).

Definition validate_policy (p : ExecutionPolicy) : result InvalidExecutionPolicy unit :=
  check? validate_scalar_values p in
  check? validate_mcp_minimums p in
  check? validate_scan_relationships p in
  validate_explore_relationships p.

Definition resolve_anchors (values : ExecutionPolicyOverrides)
    : result InvalidExecutionPolicy CodeGraphCorroborationAnchorLimit :=
  match xo_max_codegraph_corroboration_anchors_per_repo values with
  | Some value => anchor_limit_try_from value
  | None => Ok (xp_max_codegraph_corroboration_anchors_per_repo default_policy)
  end.

Definition resolve_policy (overrides : option ExecutionPolicyOverrides)
    : result InvalidExecutionPolicy ExecutionPolicy :=
  let? policy :=
    match overrides with
    | Some values =>
        let? anchors := resolve_anchors values in
        Ok (apply_overrides values anchors default_policy)
    | None => Ok default_policy
    end in
  check? validate_policy policy in
  Ok policy.
End policies.

(** The host's [available_parallelism], or one, is an argument. *)
Definition effective_extraction_workers (p : ExecutionPolicy) (available : N) : N :=
  N.min (N.max (N.min (xp_max_extraction_workers p) usize_max) 1) (N.max available 1).

Section fingerprints.
Context `{Blake3}.

Definition fingerprint_with_codegraph_limit (p : ExecutionPolicy) (limit : CodeGraphCorroborationAnchorLimit)
    : string :=
  stable_id "execution-policy"
    (canonical_text (scan_canonical_values p)
       +:+ ";maxCodeGraphCorroborationAnchorsPerRepo=" +:+ anchor_limit_text limit).

Definition scan_fingerprint (p : ExecutionPolicy) : string :=
  stable_id "execution-policy"
    (canonical_text (scan_canonical_values p)
       +:+ ";maxCodeGraphCorroborationAnchorsPerRepo="
       +:+ anchor_limit_text (xp_max_codegraph_corroboration_anchors_per_repo p)).

Definition agent_delivery_fingerprint (p : ExecutionPolicy) : string :=
  stable_id "agent-delivery-policy" (canonical_text (agent_canonical_values p)).
End fingerprints.

(** ** The watchdog *)
Inductive JobPhase :=
| Configuration | Discovery | Fingerprinting | Extraction | GraphAssembly | CommunityAnalysis
| Publication | CodeGraphSync.

Inductive ExecutionResource :=
| WallTimeMs | NoProgressTimeMs | WorkerMemoryBytes | JobWorkUnits | WorkerProcess
| WorkerProtocolBytes | Cancellation.

Record ExecutionLimitExceeded := {
  xl_run_id : string;
  xl_phase : JobPhase;
  xl_resource : ExecutionResource;
  xl_observed : N;
  xl_maximum : N;
  xl_completed_units : N;
}.

Record ScanJobTracker := {
  sj_run_id : string;
  sj_policy : ExecutionPolicy;
  sj_started : N;
  sj_last_progress : N;
  sj_phase : JobPhase;
  sj_completed_units : N;
}.

Definition with_clock (run_id : string) (policy : ExecutionPolicy) (now : N) : ScanJobTracker := {|
  sj_run_id := run_id;
  sj_policy := policy;
  sj_started := now;
  sj_last_progress := now;
  sj_phase := Configuration;
  sj_completed_units := 0;
|}.

Definition job_method := method ScanJobTracker ExecutionLimitExceeded.

Definition job_exceeded (j : ScanJobTracker) (resource : ExecutionResource) (observed maximum : N)
    : ExecutionLimitExceeded := {|
  xl_run_id := sj_run_id j;
  xl_phase := sj_phase j;
  xl_resource := resource;
  xl_observed := observed;
  xl_maximum := maximum;
  xl_completed_units := sj_completed_units j;
|}.

Definition check_duration (j : ScanJobTracker) (resource : ExecutionResource) (observed maximum : N)
    : result ExecutionLimitExceeded unit :=
  if maximum <? elapsed_millis observed
  then Err (job_exceeded j resource (elapsed_millis observed) maximum) else Ok tt.

(** [saturating_sub] of durations is the subtraction of [N]. *)
Definition check_time (j : ScanJobTracker) (now : N) : result ExecutionLimitExceeded unit :=
  check? check_duration j WallTimeMs (now - sj_started j) (xp_max_scan_wall_time_ms (sj_policy j)) in
  check_duration j NoProgressTimeMs (now - sj_last_progress j) (xp_max_no_progress_time_ms (sj_policy j)).

Definition enter_phase (phase : JobPhase) (now : N) : job_method unit :=
  do! m_read (λ j, check_time j now) in
  m_write (λ j, {| sj_run_id := sj_run_id j; sj_policy := sj_policy j; sj_started := sj_started j;
                   sj_last_progress := sj_last_progress j; sj_phase := phase;
                   sj_completed_units := sj_completed_units j |}).

(** The clock is read for the check, and again after it. *)
Definition progress (amount now after : N) : job_method unit :=
  let! completed := m_read (λ j,
    if u64_max <? sj_completed_units j + amount
    then Err (job_exceeded j JobWorkUnits u64_max (u64_max - 1))
    else Ok (sj_completed_units j + amount)) in
  do! m_read (λ j, check_time j now) in
  m_write (λ j, {| sj_run_id := sj_run_id j; sj_policy := sj_policy j; sj_started := sj_started j;
                   sj_last_progress := after; sj_phase := sj_phase j; sj_completed_units := completed |}).

(** ** Histories of the watchdog *)
Inductive job_call :=
| EnterPhase (phase : JobPhase) (now : N)
| Progress (amount now after : N)
| CheckTime (now : N).

Definition call_job (c : job_call) : job_method unit :=
  match c with
  | EnterPhase phase now => enter_phase phase now
  | Progress amount now after => progress amount now after
  | CheckTime now => m_read (λ j, check_time j now)
  end.

Definition reading (c : job_call) : N :=
  match c with EnterPhase _ now | Progress _ now _ | CheckTime now => now end.
Definition amount_of (c : job_call) : N := match c with Progress amount _ _ => amount | _ => 0 end.

(** When progress was last verified; entering a phase is no progress. *)
Definition last_verified (start : N) (calls : list job_call) : N :=
  foldl (λ last c, match c with Progress _ _ after => after | _ => last end) start calls.

Definition punctual (p : ExecutionPolicy) (started last now : N) : Prop :=
  elapsed_millis (now - started) ≤ xp_max_scan_wall_time_ms p
  ∧ elapsed_millis (now - last) ≤ xp_max_no_progress_time_ms p.

Definition total_progress (calls : list job_call) : N := foldr (λ c, N.add (amount_of c)) 0 calls.

Definition jobs_punctual (p : ExecutionPolicy) (started last : N) (calls : list job_call) : Prop :=
  ∀ before c after, calls = before ++ c :: after → punctual p started (last_verified last before) (reading c).

(** ** Proofs *)
Lemma check_duration_Ok j resource observed maximum :
  check_duration j resource observed maximum = Ok tt ↔ elapsed_millis observed ≤ maximum.
Proof. unfold check_duration. destruct (N.ltb_spec maximum (elapsed_millis observed)); split; (done || lia). Qed.

Lemma check_time_Ok j now :
  check_time j now = Ok tt ↔ punctual (sj_policy j) (sj_started j) (sj_last_progress j) now.
Proof. unfold check_time. by rewrite check_Ok, !check_duration_Ok. Qed.

Lemma jobs_punctual_cons p started last c calls :
  jobs_punctual p started last (c :: calls) ↔
  punctual p started last (reading c)
  ∧ jobs_punctual p started (last_verified last [c]) calls.
Proof.
  unfold jobs_punctual. split.
  - intros Hall. split; [by apply (Hall [] c calls)|].
    intros before d after ->. by apply (Hall (c :: before) d after).
  - intros [Hc Hall] [|d before] e after [= -> E]; [done|]. by apply (Hall before e after).
Qed.

(** What a successful call leaves. *)
Definition advanced (j : ScanJobTracker) (c : job_call) (j' : ScanJobTracker) : Prop :=
  sj_policy j' = sj_policy j ∧ sj_started j' = sj_started j
  ∧ sj_last_progress j' = last_verified (sj_last_progress j) [c]
  ∧ sj_completed_units j' = sj_completed_units j + amount_of c.

Lemma call_job_Ok j c :
  punctual (sj_policy j) (sj_started j) (sj_last_progress j) (reading c)
  ∧ sj_completed_units j + amount_of c ≤ u64_max ↔
  sj_completed_units j + amount_of c ≤ u64_max ∧ ∃ j', call_job c j = (j', Ok tt).
Proof.
  rewrite <-check_time_Ok. destruct c as [phase now|amount now after|now]; simpl;
    unfold enter_phase, progress, m_bind, m_read, m_write.
  - destruct (check_time j now) as [[]|]; split; naive_solver.
  - destruct (N.ltb_spec u64_max (sj_completed_units j + amount)); [split; [lia|naive_solver]|].
    destruct (check_time j now) as [[]|]; split; naive_solver.
  - destruct (check_time j now) as [[]|]; split; naive_solver.
Qed.

Lemma call_job_advanced j c j' : call_job c j = (j', Ok tt) → sj_completed_units j ≤ u64_max →
  advanced j c j' ∧ sj_completed_units j' ≤ u64_max.
Proof.
  destruct c as [phase now|amount now after|now]; simpl;
    unfold enter_phase, progress, m_bind, m_read, m_write, advanced; intros E Hj; simpl.
  - destruct (check_time j now); [|done]. injection E as <-. simpl. by rewrite N.add_0_r.
  - destruct (N.ltb_spec u64_max (sj_completed_units j + amount)); [done|].
    destruct (check_time j now); [|done]. by injection E as <-.
  - injection E as <- _. by rewrite N.add_0_r.
Qed.

Lemma watch_run calls j : sj_completed_units j ≤ u64_max →
  (∃ j', m_each call_job calls j = (j', Ok tt)) ↔
  jobs_punctual (sj_policy j) (sj_started j) (sj_last_progress j) calls
  ∧ sj_completed_units j + total_progress calls ≤ u64_max.
Proof.
  revert j. induction calls as [|c calls IH]; intros j Hj.
  - simpl. rewrite N.add_0_r. split; [|by eexists]. intros _. split; [|done]. by intros [].
  - rewrite jobs_punctual_cons. simpl total_progress. rewrite N.add_assoc. split.
    + intros (j' & (j1 & E1 & E)%m_each_cons_Ok).
      destruct (call_job_advanced j c j1 E1 Hj) as [(Hp & Hs & Hl & Hc) Hj1].
      destruct (proj1 (IH j1 Hj1) (ex_intro _ j' E)) as [Hrest Htotal].
      rewrite Hp, Hs, Hl, Hc in *. split; [|done]. split; [|done].
      apply (call_job_Ok j c). split; [done|eauto].
    + intros [[Hc Hrest] Htotal].
      destruct (proj1 (call_job_Ok j c)) as [_ [j1 E1]]; [split; [done|lia]|].
      destruct (call_job_advanced j c j1 E1 Hj) as [(Hp & Hs & Hl & Hu) Hj1].
      destruct (proj2 (IH j1 Hj1)) as [j' E]; [by rewrite Hp, Hs, Hl, Hu|].
      exists j'. apply m_each_cons_Ok. eauto.
Qed.

(** A supervised operation is let through exactly when every reading of the
    clock is within the wall time of its start and within the no-progress time of
    the last verified progress, and the progress it reports fits the counter.
    Entering phases does not renew the watchdog. *)
Theorem watchdog_exact run_id p start calls :
  (m_each call_job calls (with_clock run_id p start)).2 = Ok tt ↔
  (∀ before c after, calls = before ++ c :: after →
     punctual p start (last_verified start before) (reading c))
  ∧ total_progress calls ≤ u64_max.
Proof.
  pose proof (watch_run calls (with_clock run_id p start) (N.le_0_l _)) as Hrun. simpl in Hrun.
  rewrite N.add_0_l in Hrun. fold (jobs_punctual p start start calls). rewrite <-Hrun.
  destruct (m_each call_job calls _) as [j' []]; simpl; naive_solver.
Qed.

(** ** Resolution *)
Section resolution.
Context `{InstantRange}.

(** What an operator may rely on once a policy is accepted. *)
Definition coherent (p : ExecutionPolicy) : Prop :=
  Forall (λ e, e.2 ≠ 0 ∧ (e.1 = "maxCheckpointCacheBytes" → e.2 ≤ i64_max)
                ∧ (ends_with "Ms" e.1 = true → deadline_representable e.2 = true))
    (scan_canonical_values p ++ agent_canonical_values p)
  ∧ (1 ≤ xp_max_extraction_workers p ≤ 256)
  ∧ 256 ≤ xp_max_mcp_tool_response_bytes p
  ∧ 256 ≤ xp_max_mcp_resource_bytes p
  ∧ 256 ≤ xp_max_mcp_schema_catalog_bytes p
  ∧ xp_max_no_progress_time_ms p ≤ xp_max_scan_wall_time_ms p
  ∧ xp_max_codegraph_sync_wall_time_ms_per_repo p ≤ xp_max_scan_wall_time_ms p
  ∧ xp_graceful_termination_ms p ≤ xp_max_no_progress_time_ms p
  ∧ xp_watch_idle_timeout_ms p ≤ xp_max_watch_session_wall_time_ms p
  ∧ xp_min_watch_rescan_interval_ms p ≤ xp_watch_idle_timeout_ms p
  ∧ xp_max_explore_anchors p ≤ xp_max_explore_resolved_symbols p
  ∧ xp_max_explore_concurrent_codegraph_processes p ≤ xp_max_explore_codegraph_operations p
  ∧ xp_max_explore_anchors p * 2 * xp_max_explore_neighbors_per_direction p ≤ u64_max
  ∧ xp_max_explore_local_relationships p
      ≤ xp_max_explore_anchors p * 2 * xp_max_explore_neighbors_per_direction p
  ∧ xp_max_explore_anchors p * xp_max_explore_federated_handoffs_per_anchor p ≤ u64_max
  ∧ xp_max_explore_federated_handoffs p
      ≤ xp_max_explore_anchors p * xp_max_explore_federated_handoffs_per_anchor p
  ∧ xp_max_explore_source_markdown_bytes p ≤ xp_max_mcp_tool_response_bytes p
  ∧ xp_max_explore_enrichment_bytes p ≤ xp_max_mcp_tool_response_bytes p.

(** The fields are [u64] values. *)
Definition policy_u64 (p : ExecutionPolicy) : Prop :=
  Forall (λ e, e.2 ≤ usize_max) (scan_canonical_values p ++ agent_canonical_values p).

Lemma check_scalar_value_Ok e : e.2 ≤ usize_max → check_scalar_value e = Ok tt ↔
  e.2 ≠ 0 ∧ (e.1 = "maxCheckpointCacheBytes" → e.2 ≤ i64_max)
  ∧ (ends_with "Ms" e.1 = true → deadline_representable e.2 = true).
Proof.
  destruct e as [field value]; simpl. intros Hmax.
  rewrite (proj2 (N.ltb_ge _ _) Hmax), !andb_false_r, !orb_false_r.
  destruct (N.eqb_spec value 0); simpl; [split; [done|tauto]|].
  destruct (String.eqb_spec field "maxCheckpointCacheBytes"); simpl;
    destruct (N.ltb_spec i64_max value); simpl;
    destruct (ends_with "Ms" field); simpl; destruct (deadline_representable value); simpl;
    (split; [intros ?; try done; repeat split; intros; (done || lia)|intros (_ & Hquota & Hdeadline); try done]).
  all: exfalso; first [specialize (Hquota ltac:(done)); lia|by specialize (Hdeadline eq_refl)].
Qed.

Lemma require_not_greater_Ok field value maximum_field maximum :
  require_not_greater field value maximum_field maximum = Ok tt ↔ value ≤ maximum.
Proof. unfold require_not_greater. destruct (N.ltb_spec maximum value); split; (done || lia). Qed.

Lemma check_mcp_minimum_Ok e : check_mcp_minimum e = Ok tt ↔ 256 ≤ e.2.
Proof.
  destruct e as [field value]. unfold check_mcp_minimum, MIN_MCP_MARKDOWN_BYTES. simpl.
  destruct (N.ltb_spec value 256); split; (done || lia).
Qed.

Lemma checked_mul_Some a b c : checked_mul a b = Some c ↔ c = a * b ∧ a * b ≤ u64_max.
Proof. unfold checked_mul. destruct (N.ltb_spec u64_max (a * b)); [split; [done|lia]|]. naive_solver. Qed.

Lemma validate_explore_Ok p : 0 < xp_max_explore_neighbors_per_direction p →
  validate_explore_relationships p = Ok tt ↔
  xp_max_explore_anchors p ≤ xp_max_explore_resolved_symbols p
  ∧ xp_max_explore_concurrent_codegraph_processes p ≤ xp_max_explore_codegraph_operations p
  ∧ xp_max_explore_anchors p * 2 * xp_max_explore_neighbors_per_direction p ≤ u64_max
  ∧ xp_max_explore_local_relationships p
      ≤ xp_max_explore_anchors p * 2 * xp_max_explore_neighbors_per_direction p
  ∧ xp_max_explore_anchors p * xp_max_explore_federated_handoffs_per_anchor p ≤ u64_max
  ∧ xp_max_explore_federated_handoffs p
      ≤ xp_max_explore_anchors p * xp_max_explore_federated_handoffs_per_anchor p
  ∧ xp_max_explore_source_markdown_bytes p ≤ xp_max_mcp_tool_response_bytes p
  ∧ xp_max_explore_enrichment_bytes p ≤ xp_max_mcp_tool_response_bytes p.
Proof.
  intros Hn. unfold validate_explore_relationships.
  rewrite !check_Ok, result_bind_Ok, !require_not_greater_Ok. setoid_rewrite check_Ok.
  setoid_rewrite result_bind_Ok. setoid_rewrite check_Ok. setoid_rewrite ok_or_Ok.
  setoid_rewrite check_Ok. setoid_rewrite require_not_greater_Ok. setoid_rewrite bind_Some. setoid_rewrite checked_mul_Some.
  split.
  - intros (? & ? & local & (twice & [-> ?] & -> & ?) & ? & handoffs & [-> ?] & ?). destruct_and?. repeat split; done.
  - intros (? & ? & ? & ? & ? & ? & ? & ?). split; [done|]. split; [done|].
    eexists. split; [eexists; split; [split; [done|nia]|by split]|]. eauto 10.
Qed.

Lemma neighbors_positive p (P Q : string * N → Prop) :
  Forall (λ e, e.2 ≠ 0 ∧ P e ∧ Q e) (scan_canonical_values p ++ agent_canonical_values p) →
  0 < xp_max_explore_neighbors_per_direction p.
Proof.
  rewrite Forall_forall. intros Hall.
  destruct (Hall ("maxExploreNeighborsPerDirection", xp_max_explore_neighbors_per_direction p)) as [Hne _].
  { apply list_elem_of_In. simpl. tauto. }
  simpl in Hne. lia.
Qed.

Lemma validate_policy_exact p : policy_u64 p → validate_policy p = Ok tt ↔ coherent p.
Proof.
  intros Hu. unfold validate_policy, coherent.
  rewrite !check_Ok. unfold validate_scalar_values. rewrite check_Ok, try_each_Ok.
  assert (Forall (λ e, check_scalar_value e = Ok tt) (scan_canonical_values p ++ agent_canonical_values p) ↔
    Forall (λ e, e.2 ≠ 0 ∧ (e.1 = "maxCheckpointCacheBytes" → e.2 ≤ i64_max)
                ∧ (ends_with "Ms" e.1 = true → deadline_representable e.2 = true))
      (scan_canonical_values p ++ agent_canonical_values p)) as ->.
  { rewrite !Forall_forall. unfold policy_u64 in Hu. rewrite Forall_forall in Hu.
    split; intros Hall e He; [rewrite <-check_scalar_value_Ok|rewrite check_scalar_value_Ok]; auto. }
  unfold validate_mcp_minimums. rewrite try_each_Ok, !Forall_cons, Forall_nil, !check_mcp_minimum_Ok. simpl.
  unfold validate_scan_relationships. rewrite !check_Ok, !require_not_greater_Ok.
  split.
  - intros ((Hvalues & Hworkers) & ? & ? & Hexplore).
    apply validate_explore_Ok in Hexplore; [|exact (neighbors_positive p _ _ Hvalues)].
    destruct (N.eqb_spec (xp_max_extraction_workers p) 0); [done|].
    destruct (N.ltb_spec MAX_EXTRACTION_WORKERS_CEILING (xp_max_extraction_workers p)); [done|].
    destruct_and!. unfold MAX_EXTRACTION_WORKERS_CEILING in *. repeat split; (done || lia).
  - intros (Hvalues & [Hlow Hhigh] & Hrest). rewrite validate_explore_Ok by exact (neighbors_positive p _ _ Hvalues).
    rewrite (proj2 (N.eqb_neq _ _)) by lia. rewrite (proj2 (N.ltb_ge _ _)) by exact Hhigh.
    destruct_and!. repeat split; done.
Qed.

(** C38: Overrides resolve exactly when the anchor limit converts and the policy
    they yield over the defaults is coherent: values positive and representable,
    deadlines nested, capacities within what they are drawn from, without
    overflow of the products. *)
Theorem policy_resolution_exact values p :
  (∀ anchors, policy_u64 (apply_overrides values anchors default_policy)) →
  resolve_policy (Some values) = Ok p ↔
  ∃ anchors, resolve_anchors values = Ok anchors
    ∧ p = apply_overrides values anchors default_policy ∧ coherent p.
Proof.
  intros Hu. unfold resolve_policy. destruct (resolve_anchors values) as [anchors|e]; simpl.
  - rewrite check_Ok, validate_policy_exact by done. split.
    + intros [Hcoherent [= <-]]. eauto.
    + intros (? & [= <-] & -> & Hcoherent). done.
  - split; [done|by intros (? & ? & _)].
Qed.
End resolution.

(** ** Fingerprints *)
Lemma scan_values_names p p' : map fst (scan_canonical_values p) = map fst (scan_canonical_values p').
Proof. done. Qed.

Lemma anchor_limit_text_inj : Inj (=) (=) anchor_limit_text.
Proof.
  assert (∀ n : N, pretty n ≠ "-1") as Hdash.
  { intros n E. assert (contains_char "-"%char (pretty n) = true) as Hc by by rewrite E.
    by rewrite contains_char_pretty in Hc. }
  intros [n|] [m|] E; simpl in E; [by rewrite (inj pretty _ _ E)|by destruct (Hdash n)|by destruct (Hdash m)|done].
Qed.

(** Two policies have the same scan fingerprint only when every limit of a
    scan, and the anchor limit, are the same in both. *)
Theorem scan_fingerprint_faithful `{Blake3} p p' : digest_separates →
  scan_fingerprint p = scan_fingerprint p' →
  scan_canonical_values p = scan_canonical_values p'
  ∧ xp_max_codegraph_corroboration_anchors_per_repo p = xp_max_codegraph_corroboration_anchors_per_repo p'.
Proof.
  intros Hdigest E%stable_id_inj; [|done].
  change ";maxCodeGraphCorroborationAnchorsPerRepo=" with (";" +:+ "maxCodeGraphCorroborationAnchorsPerRepo=") in E.
  rewrite <-!string_app_assoc in E.
  apply canonical_text_prefix_inj in E as [Evalues E%string_app_inj_l]; [|done|apply scan_values_names].
  split; [exact Evalues|by apply anchor_limit_text_inj].
Qed.

(** The anchor limit survives the manifest. *)
Theorem anchor_limit_roundtrip limit value :
  (∀ n, limit = Bounded n → n ≠ 0) → anchor_limit_serialize limit = Ok value →
  anchor_limit_try_from value = Ok limit.
Proof.
  intros Hpos. unfold anchor_limit_serialize, anchor_limit_try_from. destruct limit as [n|].
  - destruct (N.leb_spec n i64_max); [|done]. intros [= <-]. specialize (Hpos n eq_refl).
    unfold i64_max, usize_max in *.
    destruct (Z.eqb_spec (Z.of_N n) (-1)); [lia|].
    rewrite (proj2 (Z.ltb_lt _ _)), (proj2 (Z.leb_le _ _)) by lia. simpl. by rewrite N2Z.id.
  - by intros [= <-].
Qed.

Module Example_policy.
#[local] Instance identity_digest : Blake3 := λ text, text.
#[local] Instance wide_range : InstantRange := λ _, true.

Definition overrides : ExecutionPolicyOverrides := {|
  xo_max_scan_wall_time_ms := None;
  xo_max_no_progress_time_ms := None;
  xo_max_codegraph_sync_wall_time_ms_per_repo := None;
  xo_max_worker_memory_bytes := None;
  xo_graceful_termination_ms := None;
  xo_watch_idle_timeout_ms := None;
  xo_max_watch_session_wall_time_ms := None;
  xo_min_watch_rescan_interval_ms := None;
  xo_max_checkpoint_cache_bytes := None;
  xo_max_extraction_workers := Some 2;
  xo_max_codegraph_corroboration_anchors_per_repo := Some (-1)%Z;
  xo_max_explore_wall_time_ms := None;
  xo_max_explore_codegraph_operations := None;
  xo_max_explore_concurrent_codegraph_processes := None;
  xo_max_explore_source_files := None;
  xo_max_explore_resolved_symbols := None;
  xo_max_explore_anchors := None;
  xo_max_explore_neighbors_per_direction := None;
  xo_max_explore_local_relationships := None;
  xo_max_explore_federated_handoffs_per_anchor := None;
  xo_max_explore_federated_handoffs := None;
  xo_max_explore_evidence_locations_per_handoff := None;
  xo_max_explore_source_markdown_bytes := None;
  xo_max_explore_enrichment_bytes := None;
  xo_max_agent_next_actions_per_response := None;
  xo_max_query_repository_suggestions := None;
  xo_max_mcp_tool_response_bytes := None;
  xo_max_mcp_resource_items := None;
  xo_max_mcp_resource_bytes := None;
  xo_max_mcp_schema_catalog_bytes := None
|}.
Definition policy : ExecutionPolicy := apply_overrides overrides Unlimited default_policy.

Example anchor_limits :
  map anchor_limit_try_from [(-1)%Z; 0%Z; (-2)%Z; 50%Z]
  = [Ok Unlimited;
     Err (InvalidValue "maxCodeGraphCorroborationAnchorsPerRepo" 0);
     Err (InvalidValue "maxCodeGraphCorroborationAnchorsPerRepo" 2);
     Ok (Bounded 50)]
  ∧ effective_extraction_workers policy 0 = 1 ∧ effective_extraction_workers policy 16 = 2.
Proof. by repeat split. Qed.

Lemma policy_resolution_exact_witness :
  (∀ anchors, policy_u64 (apply_overrides overrides anchors default_policy))
  ∧ (resolve_policy (Some overrides) = Ok policy ↔
     ∃ anchors, resolve_anchors overrides = Ok anchors
       ∧ policy = apply_overrides overrides anchors default_policy ∧ coherent policy)
  ∧ resolve_policy (Some overrides) = Ok policy.
Proof.
  assert (∀ anchors, policy_u64 (apply_overrides overrides anchors default_policy)) as Hu
    by (intros anchors; repeat constructor; vm_compute; congruence).
  split; [exact Hu|]. split; [exact (policy_resolution_exact overrides policy Hu)|vm_compute; reflexivity].
Defined.

Lemma scan_fingerprint_faithful_witness :
  scan_fingerprint policy = scan_fingerprint policy
  ∧ scan_canonical_values policy = scan_canonical_values policy
  ∧ xp_max_codegraph_corroboration_anchors_per_repo policy
    = xp_max_codegraph_corroboration_anchors_per_repo policy.
Proof. split; [reflexivity|]. apply scan_fingerprint_faithful; [by intros x y|reflexivity]. Defined.

(** A phase change at the no-progress limit is the last that is let through. *)
Example phases_renew_nothing :
  let p := default_policy in
  let at_ms := λ ms, ms * 1000000 in
  let run := λ calls, (m_each call_job calls (with_clock "run" p 0)).2 in
  run [EnterPhase Discovery (at_ms 300000); Progress 5 (at_ms 300000) (at_ms 300000);
       EnterPhase Extraction (at_ms 600000)] = Ok tt
  ∧ run [EnterPhase Discovery (at_ms 300000); EnterPhase Extraction (at_ms 300001)]
    = Err {| xl_run_id := "run"; xl_phase := Discovery; xl_resource := NoProgressTimeMs;
             xl_observed := 300001; xl_maximum := 300000; xl_completed_units := 0 |}.
Proof. vm_compute. by split. Qed.
End Example_policy.
