(* ===== verification/WatcherLease.v ===== *)
(** * Watcher leases

    [work_state.rs]: the lease a foreground watcher holds on a workspace, and the
    targets it watches, with the status that [lib.rs] derives from the lease.
    A table is a map from its primary key; the identity of running processes, as
    [worker::process_identity] reports it, is an argument of the calls that ask
    for it, as is the time. Failures of SQLite itself are not modelled. *)
From stdpp Require Import base gmap list strings.
From Stdlib Require Import ZArith.
From S2P Require Import Prelude Method RustOrd RustStr ExecPolicy.
#[local] Open Scope N_scope.

(** The error texts of [WorkState], one constructor for each. *)
Inductive WorkError :=
| NotRepresentable (field : string)
| AlreadyActive (workspace : string)
| NoLongerOwned (workspace : string)
| UniqueConstraint
| CheckConstraint
| IntegerOverflow
| TargetTooLong
| NegativeCacheSize
| EncodingFailed (message : string)
| RecreateFailed.

Definition sqlite_integer (value : N) (field : string) : result WorkError Z :=
  if value <=? i64_max then Ok (Z.of_N value) else Err (NotRepresentable field).

Definition saturating_mul (a b : N) : N := N.min (a * b) u64_max.

(** ** The lease *)
Record LeaseRow := {
  lr_state : string;
  lr_owner_token : string;
  lr_pid : option Z;
  lr_process_start_identity : option string;
  lr_session_started_unix_ms : option Z;
  lr_heartbeat_unix_ms : option Z;
  lr_last_success_unix_ms : option Z;
  lr_detail : option string;
}.

Notation LeaseTable := (gmap string LeaseRow).
Definition lease_method := method LeaseTable WorkError.

(** [u32::try_from] of a column. *)
Definition u32_of (value : Z) : option N :=
  if (0 <=? value)%Z && (value <=? 4294967295)%Z then Some (Z.to_N value) else None.

(** Whether the owner of an active row still holds it: its process is running
    under the identity it had, or nobody can tell and its heartbeat is fresh. *)
Definition still_held (process_identity : N → option string) (stale_before : Z)
    (row : LeaseRow) : bool :=
  let heartbeat_is_fresh := match lr_heartbeat_unix_ms row with
                            | Some value => (stale_before <=? value)%Z
                            | None => false
                            end in
  match lr_pid row ≫= u32_of, lr_process_start_identity row with
  | Some active_pid, Some expected =>
      match process_identity active_pid with
      | Some actual => String.eqb actual expected
      | None => heartbeat_is_fresh
      end
  | _, _ => heartbeat_is_fresh
  end.

Definition active_row (leases : LeaseTable) (workspace : string) : option LeaseRow :=
  match leases !! workspace with
  | Some row => if String.eqb (lr_state row) "active" then Some row else None
  | None => None
  end.

Definition new_lease (owner_token : string) (pid : N) (identity : string) (now : Z) : LeaseRow := {|
  lr_state := "active";
  lr_owner_token := owner_token;
  lr_pid := Some (Z.of_N pid);
  lr_process_start_identity := Some identity;
  lr_session_started_unix_ms := Some now;
  lr_heartbeat_unix_ms := Some now;
  lr_last_success_unix_ms := Some now;
  lr_detail := None;
|}.

Definition start_watcher (process_identity : N → option string)
    (workspace owner_token : string) (pid : N) (process_start_identity : string)
    (now_unix_ms stale_after_ms : N) : lease_method unit :=
  let! now := m_read (λ _, sqlite_integer now_unix_ms "watcher timestamp") in
  let! stale_before := m_read (λ _,
    sqlite_integer (now_unix_ms - saturating_mul stale_after_ms 2) "watcher stale timestamp") in
  do! m_read (λ leases,
    match active_row leases workspace with
    | Some row => if still_held process_identity stale_before row
                  then Err (AlreadyActive workspace) else Ok tt
    | None => Ok tt
    end) in
  m_write (λ leases, <[workspace := new_lease owner_token pid process_start_identity now]> leases).

(** [UPDATE ... WHERE workspace = ?1 AND owner_token = ?2], with the further
    condition and the new row; exactly one row must change. *)
Definition update_owned (workspace owner_token : string) (condition : LeaseRow → bool)
    (update : LeaseRow → LeaseRow) : lease_method unit := λ leases,
  match leases !! workspace with
  | Some row =>
      if String.eqb (lr_owner_token row) owner_token && condition row
      then (<[workspace := update row]> leases, Ok tt)
      else (leases, Err (NoLongerOwned workspace))
  | None => (leases, Err (NoLongerOwned workspace))
  end.

Definition heartbeat_watcher (workspace owner_token : string) (now_unix_ms : N)
    (successful_activity : bool) : lease_method unit :=
  let! now := m_read (λ _, sqlite_integer now_unix_ms "watcher timestamp") in
  update_owned workspace owner_token (λ row, String.eqb (lr_state row) "active") (λ row, {|
    lr_state := lr_state row;
    lr_owner_token := lr_owner_token row;
    lr_pid := lr_pid row;
    lr_process_start_identity := lr_process_start_identity row;
    lr_session_started_unix_ms := lr_session_started_unix_ms row;
    lr_heartbeat_unix_ms := Some now;
    lr_last_success_unix_ms := if successful_activity then Some now else lr_last_success_unix_ms row;
    lr_detail := lr_detail row;
  |}).

Definition finish_watcher (workspace owner_token state : string) (detail : option string)
    (now_unix_ms : N) : lease_method unit :=
  let! now := m_read (λ _, sqlite_integer now_unix_ms "watcher timestamp") in
  update_owned workspace owner_token (λ _, true) (λ row, {|
    lr_state := state;
    lr_owner_token := lr_owner_token row;
    lr_pid := lr_pid row;
    lr_process_start_identity := lr_process_start_identity row;
    lr_session_started_unix_ms := lr_session_started_unix_ms row;
    lr_heartbeat_unix_ms := Some now;
    lr_last_success_unix_ms := lr_last_success_unix_ms row;
    lr_detail := detail;
  |}).

Record WatcherLease := {
  wl_state : string;
  wl_pid : option N;
  wl_process_start_identity : option string;
  wl_heartbeat_unix_ms : option N;
  wl_detail : option string;
}.

(** [u64::try_from] of a column. *)
Definition u64_of (value : Z) : option N := if (0 <=? value)%Z then Some (Z.to_N value) else None.

Definition watcher_lease (leases : LeaseTable) (workspace : string) : option WatcherLease :=
  row ← leases !! workspace;
  Some {| wl_state := lr_state row;
          wl_pid := lr_pid row ≫= u32_of;
          wl_process_start_identity := lr_process_start_identity row;
          wl_heartbeat_unix_ms := lr_heartbeat_unix_ms row ≫= u64_of;
          wl_detail := lr_detail row |}.

(** ** The status that the command line shows *)
Inductive WatcherState := NeverStarted | Active | Stale | ExpiredIdle | ExpiredSession | FailedLimit.

Definition stale_detail : string := "watcher heartbeat or process start identity is stale".

(** The lease was read, or there is none. *)
Definition watcher_status (process_identity : N → option string) (now stale_after_ms : N)
    (lease : option WatcherLease) : WatcherState * option string :=
  match lease with
  | None => (NeverStarted, None)
  | Some lease =>
      let persisted :=
        if String.eqb (wl_state lease) "expired_idle" then Some ExpiredIdle
        else if String.eqb (wl_state lease) "expired_session" then Some ExpiredSession
        else if String.eqb (wl_state lease) "failed_limit" then Some FailedLimit
        else if String.eqb (wl_state lease) "active" then None
        else Some Stale in
      match persisted with
      | Some state => (state, wl_detail lease)
      | None =>
          let identity_matches :=
            match wl_pid lease, wl_process_start_identity lease with
            | Some pid, Some expected => bool_decide (process_identity pid = Some expected)
            | _, _ => false
            end in
          let heartbeat_fresh :=
            match wl_heartbeat_unix_ms lease with
            | Some heartbeat => now - heartbeat <=? saturating_mul stale_after_ms 2
            | None => false
            end in
          if identity_matches && heartbeat_fresh then (Active, wl_detail lease)
          else (Stale, Some stale_detail)
      end
  end.

(** ** The watched targets *)
Notation ScopeTable := (gmap (string * string) (list N)).

Definition delete_scope (workspace : string) (scope : ScopeTable) : ScopeTable :=
  filter (λ entry, entry.1.1 ≠ workspace) scope.

Definition insert_target (workspace : string) (target : string * list N) : method ScopeTable WorkError unit :=
  λ scope,
  let key := (workspace, target.1) in
  match scope !! key with
  | Some _ => (scope, Err UniqueConstraint)
  | None => (<[key := target.2]> scope, Ok tt)
  end.

(** A transaction that fails leaves the tables as they were. *)
Definition transaction {S E A} (m : method S E A) : method S E A := λ s,
  match m s with
  | (s', Ok a) => (s', Ok a)
  | (_, Err e) => (s, Err e)
  end.

Definition replace_watch_scope (workspace : string) (targets : list (string * list N))
    : method ScopeTable WorkError unit :=
  transaction (do! m_write (delete_scope workspace) in m_each (insert_target workspace) targets).

(** [SELECT ... WHERE workspace = ?1], then [ORDER BY repository_alias]. *)
Definition scope_select (workspace : string) (scope : ScopeTable) : list (string * list N) :=
  map (λ entry, (entry.1.2, entry.2))
    (List.filter (λ entry, String.eqb entry.1.1 workspace) (map_to_list scope)).
Definition scope_rows (workspace : string) (scope : ScopeTable) : list (string * list N) :=
  sort_by (cmp_on fst cmp) (scope_select workspace scope).

Definition load_watch_scope (workspace : string) (maximum_target_bytes : N) (scope : ScopeTable)
    : result WorkError (list (list N)) :=
  let maximum := N.min maximum_target_bytes i64_max in
  let rows := scope_rows workspace scope in
  let encoded := map snd (List.filter (λ row, len row.2 <=? maximum) rows) in
  if len encoded =? len rows then Ok encoded else Err TargetTooLong.

(** ** Histories of the lease table *)
Inductive lease_call :=
| Start (process_identity : N → option string) (workspace owner_token : string) (pid : N)
    (process_start_identity : string) (now stale_after : N)
| Heartbeat (workspace owner_token : string) (now : N) (successful_activity : bool)
| Finish (workspace owner_token state : string) (detail : option string) (now : N).

Definition call_lease (c : lease_call) : lease_method unit :=
  match c with
  | Start env workspace token pid identity now stale => start_watcher env workspace token pid identity now stale
  | Heartbeat workspace token now success => heartbeat_watcher workspace token now success
  | Finish workspace token state detail now => finish_watcher workspace token state detail now
  end.

(** The row a running owner is entitled to. *)
Definition holds (workspace token : string) (pid : N) (identity : string) (leases : LeaseTable) : Prop :=
  ∃ row, leases !! workspace = Some row ∧ lr_state row = "active" ∧ lr_owner_token row = token
    ∧ lr_pid row = Some (Z.of_N pid) ∧ lr_process_start_identity row = Some identity.

(** The owner's process keeps running, and the owner does not finish. *)
Definition owner_runs (workspace token : string) (pid : N) (identity : string) (c : lease_call) : Prop :=
  match c with
  | Start process_identity ws _ _ _ _ _ => ws = workspace → process_identity pid = Some identity
  | Heartbeat _ _ _ _ => True
  | Finish ws owner _ _ _ => ws = workspace → owner ≠ token
  end.

(** A call that another party makes about the workspace. *)
Definition intrudes (workspace token : string) (c : lease_call) : Prop :=
  match c with
  | Start _ ws _ _ _ _ _ => ws = workspace
  | Heartbeat ws owner _ _ | Finish ws owner _ _ _ => ws = workspace ∧ owner ≠ token
  end.

(** ** Proofs *)
Lemma sqlite_integer_Ok value field z : sqlite_integer value field = Ok z ↔ value ≤ i64_max ∧ z = Z.of_N value.
Proof. unfold sqlite_integer. destruct (N.leb_spec value i64_max); split; naive_solver lia. Qed.

Lemma u32_of_pid pid : pid ≤ 4294967295 → u32_of (Z.of_N pid) = Some pid.
Proof.
  intros Hpid. unfold u32_of. rewrite (proj2 (Z.leb_le _ _)), (proj2 (Z.leb_le _ _)) by lia.
  simpl. by rewrite N2Z.id.
Qed.

Lemma still_held_running env stale row pid identity : pid ≤ 4294967295 →
  lr_pid row = Some (Z.of_N pid) → lr_process_start_identity row = Some identity →
  env pid = Some identity → still_held env stale row = true.
Proof.
  intros Hpid Hp Hi Henv. unfold still_held. rewrite Hp, Hi. simpl. rewrite u32_of_pid by done.
  by rewrite Henv, String.eqb_refl.
Qed.

Lemma start_watcher_spec env workspace token pid identity now stale leases :
  now ≤ i64_max →
  start_watcher env workspace token pid identity now stale leases =
  match active_row leases workspace with
  | Some row => if still_held env (Z.of_N (now - saturating_mul stale 2)) row
                then (leases, Err (AlreadyActive workspace))
                else (<[workspace := new_lease token pid identity (Z.of_N now)]> leases, Ok tt)
  | None => (<[workspace := new_lease token pid identity (Z.of_N now)]> leases, Ok tt)
  end.
Proof.
  intros Hnow. unfold start_watcher, m_bind, m_read, m_write, sqlite_integer.
  rewrite (proj2 (N.leb_le _ _) Hnow), (proj2 (N.leb_le _ _)) by lia.
  destruct (active_row leases workspace) as [row|]; [|done]. by destruct (still_held _ _ row).
Qed.

Lemma start_watcher_late env workspace token pid identity now stale leases :
  ¬ now ≤ i64_max →
  start_watcher env workspace token pid identity now stale leases
  = (leases, Err (NotRepresentable "watcher timestamp")).
Proof.
  intros Hnow. unfold start_watcher, m_bind, m_read, sqlite_integer.
  by rewrite (proj2 (N.leb_gt _ _)) by lia.
Qed.

Lemma holds_insert_ne workspace other token pid identity row leases : other ≠ workspace →
  holds workspace token pid identity leases → holds workspace token pid identity (<[other := row]> leases).
Proof. intros Hne (r & Hr & Hrest). exists r. by rewrite lookup_insert_ne. Qed.

Lemma holds_new workspace token pid identity now leases :
  holds workspace token pid identity (<[workspace := new_lease token pid identity now]> leases).
Proof. eexists. rewrite lookup_insert_eq. by repeat split. Qed.

Lemma update_owned_holds workspace token pid identity ws owner condition update :
  (ws = workspace → owner = token → ∀ row, lr_state row = "active" →
     lr_state (update row) = "active" ∧ lr_owner_token (update row) = lr_owner_token row
     ∧ lr_pid (update row) = lr_pid row
     ∧ lr_process_start_identity (update row) = lr_process_start_identity row) →
  preserves (holds workspace token pid identity) (update_owned ws owner condition update).
Proof.
  intros Hupdate leases Hholds. unfold update_owned.
  destruct (leases !! ws) as [row|] eqn:E; [|done].
  destruct (String.eqb_spec (lr_owner_token row) owner) as [Hown|]; [|done]. simpl.
  destruct (condition row); [|done]. simpl.
  destruct (decide (ws = workspace)) as [->|Hne]; [|by apply holds_insert_ne].
  destruct Hholds as (r & Hr & Hstate & Htoken & Hpid & Hid). rewrite E in Hr. injection Hr as <-.
  destruct (Hupdate eq_refl) with row as (H1 & H2 & H3 & H4); [congruence|done|].
  exists (update row). rewrite lookup_insert_eq. repeat split; congruence.
Qed.

Lemma owner_runs_holds workspace token pid identity c : pid ≤ 4294967295 →
  owner_runs workspace token pid identity c → preserves (holds workspace token pid identity) (call_lease c).
Proof.
  intros Hpid Hruns. destruct c as [env ws owner p id now stale|ws owner now success|ws owner state detail now]; simpl.
  - intros leases Hholds. destruct (decide (now ≤ i64_max)) as [Hnow|Hnow]; [|by rewrite start_watcher_late].
    rewrite start_watcher_spec by done. unfold active_row.
    destruct (decide (ws = workspace)) as [->|Hne].
    + destruct Hholds as (row & Hrow & Hstate & Htoken & Hp & Hid). rewrite Hrow, Hstate. simpl.
      rewrite (still_held_running _ _ row pid identity) by auto. by exists row.
    + repeat case_match; try done; by apply holds_insert_ne.
  - apply preserves_bind; [apply preserves_read|intros z]. apply update_owned_holds. by intros _ _ row.
  - apply preserves_bind; [apply preserves_read|intros z]. apply update_owned_holds.
    intros -> ->. simpl in Hruns. by destruct Hruns.
Qed.

Lemma intruder_rejected workspace token pid identity c leases : pid ≤ 4294967295 →
  holds workspace token pid identity leases → owner_runs workspace token pid identity c →
  intrudes workspace token c → ∃ e, call_lease c leases = (leases, Err e).
Proof.
  intros Hpid (row & Hrow & Hstate & Htoken & Hp & Hid) Hruns Hin.
  destruct c as [env ws owner p id now stale|ws owner now success|ws owner state detail now]; simpl in *.
  - subst ws. destruct (decide (now ≤ i64_max)) as [Hnow|Hnow]; [|rewrite start_watcher_late by done; by eexists].
    rewrite start_watcher_spec by done. unfold active_row. rewrite Hrow, Hstate. simpl.
    rewrite (still_held_running _ _ row pid identity) by auto. by eexists.
  - destruct Hin as [-> Hne]. unfold heartbeat_watcher, m_bind, m_read, update_owned.
    destruct (sqlite_integer _ _); [|by eexists]. rewrite Hrow.
    rewrite (proj2 (String.eqb_neq _ _)) by congruence. by eexists.
  - destruct Hin as [-> Hne]. unfold finish_watcher, m_bind, m_read, update_owned.
    destruct (sqlite_integer _ _); [|by eexists]. rewrite Hrow.
    rewrite (proj2 (String.eqb_neq _ _)) by congruence. by eexists.
Qed.

(** C35: A lease is exclusive. From the start of a watcher on, and as long as its
    process runs under the identity it had and it does not finish, no history of
    calls takes the lease away: every other start, and every heartbeat and finish
    under another token, fails and changes nothing. *)
Theorem lease_exclusive env workspace token pid identity now stale leases calls c :
  pid ≤ 4294967295 →
  (start_watcher env workspace token pid identity now stale leases).2 = Ok tt →
  Forall (owner_runs workspace token pid identity) calls →
  owner_runs workspace token pid identity c → intrudes workspace token c →
  let after := m_all call_lease calls (start_watcher env workspace token pid identity now stale leases).1 in
  holds workspace token pid identity after ∧ ∃ e, call_lease c after = (after, Err e).
Proof.
  intros Hpid Hstart Hcalls Hc Hin after.
  assert (holds workspace token pid identity after) as Hholds.
  { apply preserves_all_Forall with (P := owner_runs workspace token pid identity); [|done|].
    - intros d Hd. by apply owner_runs_holds.
    - destruct (decide (now ≤ i64_max)) as [Hnow|Hnow]; [|by rewrite start_watcher_late in Hstart].
      rewrite start_watcher_spec in * by done. repeat case_match; try done;
        apply holds_new. }
  split; [done|]. by apply (intruder_rejected workspace token pid identity).
Qed.

(** The last moment at which a dead owner's lease is refused to others. *)
Definition fresh_until (row : LeaseRow) (stale_after : N) : N :=
  match lr_heartbeat_unix_ms row with
  | Some heartbeat => Z.to_N heartbeat + saturating_mul stale_after 2
  | None => 0
  end.

(** C37: A lease cannot be lost for good: once the owner's process is gone, or its
    number belongs to another process, any watcher obtains the lease as soon as
    twice the stale time has passed since the last heartbeat; and a finished
    lease is free at once. *)
Theorem abandoned_lease_recovered env workspace token pid identity now stale leases :
  now ≤ i64_max →
  (∀ row, active_row leases workspace = Some row → fresh_until row stale < now
     ∧ ∀ p expected, lr_pid row ≫= u32_of = Some p → lr_process_start_identity row = Some expected →
         env p ≠ Some expected) →
  (start_watcher env workspace token pid identity now stale leases).2 = Ok tt
  ∧ holds workspace token pid identity
      (start_watcher env workspace token pid identity now stale leases).1.
Proof.
  intros Hnow Hgone. rewrite start_watcher_spec by done.
  destruct (active_row leases workspace) as [row|]; [|split; [done|apply holds_new]].
  destruct (Hgone row eq_refl) as [Hlate Hdead].
  assert (still_held env (Z.of_N (now - saturating_mul stale 2)) row = false) as ->; [|split; [done|apply holds_new]].
  assert (match lr_heartbeat_unix_ms row with
          | Some value => (Z.of_N (now - saturating_mul stale 2) <=? value)%Z | None => false end = false) as Hfresh.
  { unfold fresh_until in Hlate. destruct (lr_heartbeat_unix_ms row) as [h|]; [|done]. apply Z.leb_gt. lia. }
  unfold still_held. rewrite Hfresh. destruct (lr_pid row ≫= u32_of) as [p|] eqn:Ep; [|done].
  destruct (lr_process_start_identity row) as [expected|] eqn:Ei; [|done].
  destruct (env p) as [actual|] eqn:Ee; [|done]. apply String.eqb_neq. intros ->.
  by apply (Hdead p expected).
Qed.

(** *** Watched targets *)
Lemma scope_select_elem workspace scope alias bytes :
  (alias, bytes) ∈ scope_select workspace scope ↔ scope !! (workspace, alias) = Some bytes.
Proof.
  unfold scope_select. rewrite list_elem_of_fmap. split.
  - intros ([[ws a] b] & [= -> ->] & Hin). apply list_filter_In in Hin as [Hin Hws].
    apply String.eqb_eq in Hws. simpl in Hws. subst ws. by apply elem_of_map_to_list.
  - intros Hlook. exists ((workspace, alias), bytes). split; [done|].
    apply list_filter_In. split; [by apply elem_of_map_to_list|apply String.eqb_refl].
Qed.

Lemma scope_select_NoDup workspace scope : NoDup (scope_select workspace scope).
Proof.
  unfold scope_select. apply NoDup_fmap_2_strong.
  - intros [[ws a] b] [[ws' a'] b'] Hx Hy [= -> ->].
    apply list_filter_In in Hx as [_ Hx], Hy as [_ Hy]. apply String.eqb_eq in Hx, Hy. simpl in *. congruence.
  - apply NoDup_ListNoDup, List.NoDup_filter, NoDup_ListNoDup, NoDup_map_to_list.
Qed.

Lemma cmp_entry_eq (a a' : string) (b b' : list N) : cmp_on fst cmp (a, b) (a', b') = Eq → a = a'.
Proof. intros E. by apply (proj1 (cmp_eq_iff a a')) in E. Qed.

(** The rows of a workspace are determined by its lookups. *)
Lemma scope_rows_of workspace scope rows :
  NoDup (map fst rows) → (∀ a b, (a, b) ∈ rows ↔ scope !! (workspace, a) = Some b) →
  scope_rows workspace scope = sort_by (cmp_on fst cmp) rows.
Proof.
  intros Hrows Hsame. unfold scope_rows. apply sort_by_perm_eq; [apply _| |].
  - intros [a b] [a' b'] Hx Hy ->%cmp_entry_eq.
    apply scope_select_elem in Hx, Hy. congruence.
  - apply NoDup_Permutation; [apply scope_select_NoDup|by apply NoDup_fmap_1 in Hrows|].
    intros [a b]. by rewrite scope_select_elem, Hsame.
Qed.

Lemma insert_targets_spec workspace targets scope scope' :
  m_each (insert_target workspace) targets scope = (scope', Ok tt) →
  NoDup (map fst targets)
  ∧ (∀ a, a ∈ map fst targets → scope !! (workspace, a) = None)
  ∧ (∀ a b, (a, b) ∈ targets → scope' !! (workspace, a) = Some b)
  ∧ (∀ key, (key.1 = workspace → key.2 ∉ map fst targets) → scope' !! key = scope !! key).
Proof.
  revert scope. induction targets as [|[alias bytes] targets IH]; intros scope E.
  - injection E as <-. repeat split; [constructor|set_solver..].
  - apply m_each_cons_Ok in E as (scope1 & E1 & E). unfold insert_target in E1. simpl in E1.
    destruct (scope !! (workspace, alias)) eqn:Enone; [done|]. injection E1 as <-.
    destruct (IH _ E) as (Hnd & Hnone & Hin & Hother).
    assert (alias ∉ map fst targets) as Hfresh.
    { intros Ha%Hnone. by rewrite lookup_insert_eq in Ha. }
    repeat split.
    + by constructor.
    + intros a [->|Ha]%elem_of_cons; [done|]. specialize (Hnone a Ha).
      rewrite lookup_insert_ne in Hnone; [done|]. intros [= ->]. done.
    + intros a b [[= -> ->]|Hab]%elem_of_cons; [|by apply Hin].
      rewrite Hother by done. apply lookup_insert_eq.
    + intros key Hkey. rewrite Hother.
      * rewrite lookup_insert_ne; [done|]. intros <-. by destruct (Hkey eq_refl); left.
      * intros Hws Hin'. destruct (Hkey Hws). by right.
Qed.

Lemma insert_targets_accepts workspace targets scope :
  NoDup (map fst targets) → (∀ a, a ∈ map fst targets → scope !! (workspace, a) = None) →
  ∃ scope', m_each (insert_target workspace) targets scope = (scope', Ok tt).
Proof.
  revert scope. induction targets as [|[alias bytes] targets IH]; intros scope Hnd Hnone; [by eexists|].
  apply NoDup_cons in Hnd as [Hfresh Hnd].
  destruct (IH (<[(workspace, alias) := bytes]> scope)) as [scope' E]; [done| |].
  - intros a Ha. rewrite lookup_insert_ne; [by apply Hnone; right|]. intros [= ->]. done.
  - exists scope'. apply m_each_cons_Ok. eexists. split; [|exact E].
    unfold insert_target. simpl. by rewrite Hnone by left.
Qed.

Lemma delete_scope_lookup workspace scope key :
  delete_scope workspace scope !! key = if decide (key.1 = workspace) then None else scope !! key.
Proof.
  unfold delete_scope. destruct (decide (key.1 = workspace)) as [Hws|Hws].
  - apply map_lookup_filter_None. right. intros b _. simpl. tauto.
  - destruct (scope !! key) as [b|] eqn:E.
    + apply map_lookup_filter_Some. by split.
    + apply map_lookup_filter_None. by left.
Qed.

Lemma replace_watch_scope_Ok workspace targets scope scope' :
  replace_watch_scope workspace targets scope = (scope', Ok tt) ↔
  m_each (insert_target workspace) targets (delete_scope workspace scope) = (scope', Ok tt).
Proof.
  unfold replace_watch_scope, transaction, m_bind, m_write.
  destruct (m_each _ targets _) as [s [[]|]]; split; congruence.
Qed.

Lemma filter_forallb {A} (f : A → bool) (l : list A) : forallb f l = true → List.filter f l = l.
Proof. induction l as [|x l IH]; simpl; [done|]. intros [-> H]%andb_true_iff. by rewrite IH. Qed.

Lemma filter_some_out {A} (f : A → bool) (l : list A) :
  forallb f l = false → (length (List.filter f l) < length l)%nat.
Proof.
  induction l as [|x l IH]; simpl; [done|]. pose proof (List.filter_length_le f l).
  destruct (f x); simpl; [intros ?%IH|intros _]; lia.
Qed.

Lemma filter_all_len {A} (f : A → bool) (l : list A) :
  (len (List.filter f l) =? len l) = forallb f l.
Proof.
  destruct (forallb f l) eqn:E; [by rewrite filter_forallb, N.eqb_refl|].
  apply filter_some_out in E. apply N.eqb_neq. unfold len. lia.
Qed.

Lemma forallb_perm {A} (f : A → bool) l k : l ≡ₚ k → forallb f l = forallb f k.
Proof.
  induction 1; simpl; [done|congruence| |congruence].
  by destruct (f x), (f y).
Qed.

Lemma load_watch_scope_of workspace maximum scope rows :
  NoDup (map fst rows) → (∀ a b, (a, b) ∈ rows ↔ scope !! (workspace, a) = Some b) →
  load_watch_scope workspace maximum scope =
    if forallb (λ t, len t.2 <=? N.min maximum i64_max) rows
    then Ok (map snd (sort_by (cmp_on fst cmp) rows)) else Err TargetTooLong.
Proof.
  intros Hnd Hrows. unfold load_watch_scope. rewrite (scope_rows_of _ _ rows) by done.
  set (f := λ t : string * list N, len t.2 <=? N.min maximum i64_max).
  rewrite <-(forallb_perm f (sort_by (cmp_on fst cmp) rows)) by apply sort_by_perm.
  unfold len at 1. rewrite length_map. fold (len (List.filter f (sort_by (cmp_on fst cmp) rows))).
  rewrite filter_all_len. destruct (forallb f _) eqn:E; [|done]. by rewrite filter_forallb.
Qed.

(** Replacing the watched targets succeeds exactly when their aliases are
    distinct, and leaves the table as it was otherwise. Afterwards the targets
    are read back by alias, unless one is longer than the protocol allows, which
    is an error and not an omission; other workspaces keep theirs. *)
Theorem watch_scope_roundtrip workspace targets scope :
  let '(scope', answer) := replace_watch_scope workspace targets scope in
  (answer = Ok tt ↔ NoDup (map fst targets))
  ∧ (answer ≠ Ok tt → scope' = scope)
  ∧ (answer = Ok tt → ∀ maximum,
       load_watch_scope workspace maximum scope' =
         if forallb (λ t, len t.2 <=? N.min maximum i64_max) targets
         then Ok (map snd (sort_by (cmp_on fst cmp) targets)) else Err TargetTooLong)
  ∧ (∀ other maximum, other ≠ workspace → load_watch_scope other maximum scope' = load_watch_scope other maximum scope).
Proof.
  destruct (replace_watch_scope workspace targets scope) as [scope' answer] eqn:E.
  assert (answer = Ok tt → m_each (insert_target workspace) targets (delete_scope workspace scope) = (scope', Ok tt))
    as Hok by (intros ->; by apply replace_watch_scope_Ok).
  assert (∀ a, delete_scope workspace scope !! (workspace, a) = None) as Hgone.
  { intros a. rewrite delete_scope_lookup. by rewrite decide_True. }
  assert (answer ≠ Ok tt → scope' = scope) as Hbad.
  { intros Hne. unfold replace_watch_scope, transaction in E.
    destruct (m_bind _ _ scope) as [s [[]|]]; by injection E as <- <-. }
  split; [|split; [done|split]].
  - split; [intros ?%Hok; by apply insert_targets_spec in H as [? _]|].
    intros Hnd. destruct (insert_targets_accepts workspace targets (delete_scope workspace scope)) as [s Hs];
      [done|by intros a _|]. apply replace_watch_scope_Ok in Hs. congruence.
  - intros (Hnd & _ & Hin & Hother)%Hok%insert_targets_spec maximum. apply load_watch_scope_of; [done|].
    intros a b. split; [apply Hin|]. intros Hlook.
    destruct (decide (a ∈ map fst targets)) as [Ha|Ha].
    + apply list_elem_of_fmap in Ha as ([a' b'] & -> & Ht). pose proof (Hin _ _ Ht) as Hb. simpl in *.
      by assert (b = b') as -> by congruence.
    + rewrite Hother in Hlook by done. by rewrite Hgone in Hlook.
  - intros other maximum Hne. unfold load_watch_scope.
    enough (scope_rows other scope' = scope_rows other scope) as -> by done.
    unfold scope_rows. apply sort_by_perm_eq; [apply _| |].
    { intros [a b] [a' b'] Hx Hy ->%cmp_entry_eq. apply scope_select_elem in Hx, Hy. congruence. }
    apply NoDup_Permutation; [apply scope_select_NoDup..|]. intros [a b]. rewrite !scope_select_elem.
    destruct answer as [[]|e]; [|by rewrite Hbad].
    destruct (insert_targets_spec _ _ _ _ (Hok eq_refl)) as (_ & _ & _ & Hother).
    rewrite Hother by done. by rewrite delete_scope_lookup, decide_False.
Qed.

Module Example_leases.
(** Process 7 runs as "7:100"; nothing else runs. *)
Definition running (pid : N) : option string := if pid =? 7 then Some "7:100" else None.
Definition nothing (pid : N) : option string := None.

Definition others : list lease_call := [
  Start running "shop" "two" 8 "8:500" 1001 100; Heartbeat "shop" "two" 1002 true;
  Heartbeat "shop" "one" 1003 false; Start running "shop" "two" 8 "8:500" 900000 100].

Lemma lease_exclusive_witness :
  let start := start_watcher running "shop" "one" 7 "7:100" 1000 100 ∅ in
  let after := m_all call_lease others start.1 in
  holds "shop" "one" 7 "7:100" after
  ∧ ∃ e, call_lease (Finish "shop" "two" "stale" None 900001) after
         = (after, Err e).
Proof.
  apply (lease_exclusive running "shop" "one" 7 "7:100" 1000 100 ∅ others);
    [done|reflexivity|repeat constructor|by intros _ [=]|by split].
Defined.

Definition leases : LeaseTable := (start_watcher running "shop" "one" 7 "7:100" 1000 100 ∅).1.

Lemma abandoned_lease_recovered_witness :
  (start_watcher nothing "shop" "two" 8 "8:500" 1201 100 leases).2 = Ok tt
  ∧ holds "shop" "two" 8 "8:500" (start_watcher nothing "shop" "two" 8 "8:500" 1201 100 leases).1.
Proof.
  apply abandoned_lease_recovered; [done|]. intros row E. vm_compute in E. injection E as <-.
  split; [reflexivity|by intros p expected].
Defined.

(** A live owner with an old heartbeat is shown as stale, and yet its lease is
    refused to others. *)
Example stale_but_held :
  watcher_status running 900000 100 (watcher_lease leases "shop") = (Stale, Some stale_detail)
  ∧ (start_watcher running "shop" "two" 8 "8:500" 900000 100 leases).2 = Err (AlreadyActive "shop").
Proof. by split. Qed.

(** The owner of a finished lease can still finish it again, but not revive it. *)
Example finished_lease :
  let finished := (finish_watcher "shop" "one" "expired_idle" None 1004 leases).1 in
  (heartbeat_watcher "shop" "one" 1005 true finished).2 = Err (NoLongerOwned "shop")
  ∧ (finish_watcher "shop" "one" "failed_limit" None 1006 finished).2 = Ok tt
  ∧ (start_watcher running "shop" "two" 8 "8:500" 1007 100 finished).2 = Ok tt.
Proof. vm_compute. by repeat split. Qed.
End Example_leases.
