(* ===== verification/WorkCache.v ===== *)
(** * The work sidecar

    [work_state.rs]: the cache of extractor batches, with its quota and its
    eviction, the cached file metadata, and the rule by which an existing sidecar
    is kept or recreated. Tables are maps from their primary key, a transaction
    that fails leaves them as they were, and failures of SQLite and of the file
    system are not modelled. The JSON encodings are parameters. *)
From stdpp Require Import base gmap list strings sorting.
From Stdlib Require Import ZArith.
From S2P Require Import Prelude Method RustOrd RustStr CanonicalText Model Budget Batch ExecPolicy WatcherLease.
#[local] Open Scope N_scope.

Definition WORK_SCHEMA_VERSION : string := "1.2.0".

(** ** The batch cache *)
Record CachedBatchHeader := {
  cb_source : ArtifactFingerprint;
  cb_extractor_version : string;
  cb_budget_fingerprint : string;
  cb_source_was_lossy : bool;
  cb_output_count : N;
}.

#[export] Instance ArtifactFingerprint_eq_dec : EqDecision ArtifactFingerprint.
Proof. solve_decision. Defined.
#[export] Instance CachedBatchHeader_eq_dec : EqDecision CachedBatchHeader.
Proof. solve_decision. Defined.

Record CacheRow := {
  cr_header_json : string;
  cr_payload : list N;
  cr_size_bytes : Z;
  cr_last_access_unix_ms : Z;
}.

Notation CacheTable := (gmap string CacheRow).
Notation cache_method := (method CacheTable WorkError).

(** The JSON of [serde_json] for headers and for the material of a key. *)
Class WorkCodec := {
  header_to_vec : CachedBatchHeader → result string string;
  header_from_slice : string → option CachedBatchHeader;
  key_to_vec : ArtifactFingerprint * string * string → result string string;
}.

(** A header is decoded as it was encoded, and is not empty. *)
Class WorkCodecLaws `{WorkCodec} : Prop := {
  header_round_trip : ∀ header json, header_to_vec header = Ok json → header_from_slice json = Some header;
  header_not_empty : ∀ header, header_to_vec header ≠ Ok "";
}.

Section cache.
Context `{WorkCodec} `{Blake3}.

Definition encoding {A} (r : result string A) : result WorkError A :=
  match r with Ok a => Ok a | Err message => Err (EncodingFailed message) end.

Definition batch_cache_key (fingerprint : ArtifactFingerprint) (budget_fingerprint extractor_version : string)
    : result WorkError string :=
  let? material := encoding (key_to_vec (fingerprint, budget_fingerprint, extractor_version)) in
  Ok (stable_id_bytes "work-batch-v1" material).

Definition header_matches (header : CachedBatchHeader) (fingerprint : ArtifactFingerprint)
    (budget_fingerprint extractor_version : string) : bool :=
  bool_decide (cb_source header = fingerprint)
  && String.eqb (cb_budget_fingerprint header) budget_fingerprint
  && String.eqb (cb_extractor_version header) extractor_version.

Definition batch_of (header : CachedBatchHeader) (payload : list N) : StoredExtractorBatch := {|
  sb_source := cb_source header;
  sb_extractor_version := cb_extractor_version header;
  sb_budget_fingerprint := cb_budget_fingerprint header;
  sb_source_was_lossy := cb_source_was_lossy header;
  sb_output_count := cb_output_count header;
  sb_payload := payload;
|}.

Definition touch (key : string) (now : Z) (cache : CacheTable) : CacheTable :=
  alter (λ row, {| cr_header_json := cr_header_json row; cr_payload := cr_payload row;
                   cr_size_bytes := cr_size_bytes row; cr_last_access_unix_ms := now |}) key cache.

(** One turn of the loop of [load_batches]: the row's payload is only read when
    it is within the maximum; an unreadable row is removed. *)
Definition load_batch (budget_fingerprint extractor_version : string) (maximum_payload_bytes now : Z)
    (fingerprint : ArtifactFingerprint) : cache_method (option StoredExtractorBatch) := λ cache,
  match batch_cache_key fingerprint budget_fingerprint extractor_version with
  | Err e => (cache, Err e)
  | Ok key =>
      match cache !! key with
      | None => (cache, Ok None)
      | Some row =>
          let payload := if (Z.of_N (len (cr_payload row)) <=? maximum_payload_bytes)%Z
                         then Some (cr_payload row) else None in
          match payload, header_from_slice (cr_header_json row) with
          | Some payload, Some header =>
              if header_matches header fingerprint budget_fingerprint extractor_version
              then (touch key now cache, Ok (Some (batch_of header payload)))
              else (cache, Ok None)
          | _, _ => (delete key cache, Ok None)
          end
      end
  end.

Fixpoint load_loop (budget_fingerprint extractor_version : string) (maximum_payload_bytes now : Z)
    (fingerprints : list ArtifactFingerprint) : cache_method (list StoredExtractorBatch) :=
  match fingerprints with
  | [] => m_read (λ _, Ok [])
  | fingerprint :: fingerprints =>
      let! batch := load_batch budget_fingerprint extractor_version maximum_payload_bytes now fingerprint in
      let! batches := load_loop budget_fingerprint extractor_version maximum_payload_bytes now fingerprints in
      m_read (λ _, Ok (option_list batch ++ batches))
  end.

Definition load_batches (fingerprints : list ArtifactFingerprint)
    (budget_fingerprint extractor_version : string) (maximum_payload_bytes now_unix_ms : N)
    : cache_method (list StoredExtractorBatch) :=
  let! now := m_read (λ _, sqlite_integer now_unix_ms "cache timestamp") in
  let! maximum := m_read (λ _, sqlite_integer (N.min maximum_payload_bytes i64_max) "cache batch maximum") in
  transaction (load_loop budget_fingerprint extractor_version maximum now fingerprints).

Definition header_of (batch : StoredExtractorBatch) : CachedBatchHeader := {|
  cb_source := sb_source batch;
  cb_extractor_version := sb_extractor_version batch;
  cb_budget_fingerprint := sb_budget_fingerprint batch;
  cb_source_was_lossy := sb_source_was_lossy batch;
  cb_output_count := sb_output_count batch;
|}.

(** The size of a row: header and payload, saturated to [usize] and [u64]. *)
Definition row_size (header : string) (payload : list N) : N :=
  saturating_add (N.of_nat (String.length header)) (len payload).

(** One turn of the loop of [put_batches]; whether the batch was written. *)
Definition put_batch (quota_bytes : N) (now : Z) (batch : StoredExtractorBatch) : cache_method bool := λ cache,
  match encoding (header_to_vec (header_of batch)) with
  | Err e => (cache, Err e)
  | Ok header =>
      let size := row_size header (sb_payload batch) in
      if (quota_bytes <? size) || (i64_max <? size) then (cache, Ok false)
      else
        match batch_cache_key (sb_source batch) (sb_budget_fingerprint batch) (sb_extractor_version batch),
              sqlite_integer size "cache entry size" with
        | Ok key, Ok size =>
            if (0 <? size)%Z
            then (<[key := {| cr_header_json := header; cr_payload := sb_payload batch;
                              cr_size_bytes := size; cr_last_access_unix_ms := now |}]> cache, Ok true)
            else (cache, Err CheckConstraint)
        | Err e, _ | _, Err e => (cache, Err e)
        end
  end.

Fixpoint put_loop (quota_bytes : N) (now : Z) (batches : list StoredExtractorBatch) (written : N)
    : cache_method N :=
  match batches with
  | [] => m_read (λ _, Ok written)
  | batch :: batches =>
      let! inserted := put_batch quota_bytes now batch in
      put_loop quota_bytes now batches (if (inserted : bool) then saturating_add written 1 else written)
  end.

(** [SUM(size_bytes)], which fails when it exceeds an [i64]. *)
Definition cache_total (cache : CacheTable) : Z := foldr (λ row, Z.add (cr_size_bytes row)) 0%Z (map snd (map_to_list cache)).
Definition cache_sum (cache : CacheTable) : result WorkError Z :=
  if (cache_total cache <=? Z.of_N i64_max)%Z then Ok (cache_total cache) else Err IntegerOverflow.

(** [ORDER BY last_access_unix_ms, cache_key] *)
Definition oldest_first (cache : CacheTable) : list (string * CacheRow) :=
  sort_by (then_with (cmp_on (λ e, cr_last_access_unix_ms e.2) cmp) (cmp_on fst cmp)) (map_to_list cache).

(** [while total > quota_bytes] over the rows. *)
Fixpoint select_victims (quota_bytes total : N) (rows : list (string * CacheRow)) : list string :=
  if quota_bytes <? total then
    match rows with
    | [] => []
    | (key, row) :: rows =>
        key :: select_victims quota_bytes (total - default 0 (u64_of (cr_size_bytes row))) rows
    end
  else [].

Definition evict_to_quota (quota_bytes : N) : cache_method unit := λ cache,
  match cache_sum cache with
  | Err e => (cache, Err e)
  | Ok sum =>
      match u64_of sum with
      | None => (cache, Err NegativeCacheSize)
      | Some total =>
          if total <=? quota_bytes then (cache, Ok tt)
          else (foldr delete cache (select_victims quota_bytes total (oldest_first cache)), Ok tt)
      end
  end.

Definition put_batches (batches : list StoredExtractorBatch) (quota_bytes now_unix_ms : N) : cache_method N :=
  match batches with
  | [] => m_read (λ _, Ok 0)
  | _ =>
      let! now := m_read (λ _, sqlite_integer now_unix_ms "cache timestamp") in
      transaction (
        let! written := put_loop quota_bytes now batches 0 in
        do! evict_to_quota quota_bytes in
        m_read (λ _, Ok written))
  end.
End cache.

(** ** Cached file metadata *)
Record FileStat := {
  fs_size_bytes : N;
  fs_modified_unix_ns : Z;
  fs_file_identity : string;
  fs_content_hash : string;
}.
Definition FileStatKey : Type := string * list N.
Record FileStatRow := {
  fr_size_bytes : Z;
  fr_modified_unix_ns : Z;
  fr_file_identity : string;
  fr_content_hash : string;
}.
Record FileStatDelta := {
  fd_upserts : list (FileStatKey * FileStat);
  fd_removals : list FileStatKey;
}.
Notation StatTable := (gmap (string * list N) FileStatRow).

Definition stat_of_row (row : FileStatRow) : FileStat := {|
  fs_size_bytes := default u64_max (u64_of (fr_size_bytes row));
  fs_modified_unix_ns := fr_modified_unix_ns row;
  fs_file_identity := fr_file_identity row;
  fs_content_hash := fr_content_hash row;
|}.

Definition load_file_stats (table : StatTable) : gmap (string * list N) FileStat := stat_of_row <$> table.

Definition upsert_stat (entry : FileStatKey * FileStat) : method StatTable WorkError unit :=
  let! size := m_read (λ _, sqlite_integer (fs_size_bytes entry.2) "file size") in
  m_write (λ table, <[entry.1 := {|
    fr_size_bytes := size;
    fr_modified_unix_ns := fs_modified_unix_ns entry.2;
    fr_file_identity := fs_file_identity entry.2;
    fr_content_hash := fs_content_hash entry.2 |}]> table).

Definition apply_file_stat_delta (delta : FileStatDelta) : method StatTable WorkError unit :=
  match fd_upserts delta, fd_removals delta with
  | [], [] => m_read (λ _, Ok tt)
  | _, _ =>
      transaction (
        do! m_each (λ key, m_write (delete key)) (fd_removals delta) in
        m_each upsert_stat (fd_upserts delta))
  end.

(** ** Opening *)
Record WorkDb := {
  wd_metadata : gmap string string;
  wd_batch_cache : CacheTable;
  wd_file_stats : StatTable;
  wd_watcher_lease : LeaseTable;
  wd_watch_scope : ScopeTable;
}.
Definition empty_db : WorkDb := {|
  wd_metadata := ∅; wd_batch_cache := ∅; wd_file_stats := ∅; wd_watcher_lease := ∅; wd_watch_scope := ∅ |}.

Inductive WorkOpenError := Recreate | Fatal (error : WorkError).

Definition with_metadata (db : WorkDb) (metadata : gmap string string) : WorkDb := {|
  wd_metadata := metadata; wd_batch_cache := wd_batch_cache db; wd_file_stats := wd_file_stats db;
  wd_watcher_lease := wd_watcher_lease db; wd_watch_scope := wd_watch_scope db |}.

(** The schema statements create missing tables, which are empty maps here. The
    two insertions are statements of their own, so the first stays when the
    second violates the primary key, which does not make a sidecar disposable. *)
Definition open_existing (database_instance_id : string) : method WorkDb WorkOpenError unit := λ db,
  match wd_metadata db !! "schema_version" with
  | None =>
      let versioned := <["schema_version" := WORK_SCHEMA_VERSION]> (wd_metadata db) in
      match versioned !! "database_instance_id" with
      | Some _ => (with_metadata db versioned, Err (Fatal UniqueConstraint))
      | None => (with_metadata db (<["database_instance_id" := database_instance_id]> versioned), Ok tt)
      end
  | Some version =>
      if String.eqb version WORK_SCHEMA_VERSION then
        if bool_decide (wd_metadata db !! "database_instance_id" = Some database_instance_id)
        then (db, Ok tt) else (db, Err Recreate)
      else (db, Err Recreate)
  end.

(** Removing the sidecar's files leaves the empty database. *)
Definition open (database_instance_id : string) : method WorkDb WorkError unit := λ db,
  match open_existing database_instance_id db with
  | (db, Ok _) => (db, Ok tt)
  | (db, Err (Fatal error)) => (db, Err error)
  | (_, Err Recreate) =>
      match open_existing database_instance_id empty_db with
      | (db, Ok _) => (db, Ok tt)
      | (db, Err Recreate) => (db, Err RecreateFailed)
      | (db, Err (Fatal error)) => (db, Err error)
      end
  end.

(** ** Eviction *)
Definition sized (cache : CacheTable) : Prop := map_Forall (λ _ row, (0 < cr_size_bytes row)%Z) cache.

Definition row_bytes (entry : string * CacheRow) : N := Z.to_N (cr_size_bytes entry.2).
Definition rows_total (rows : list (string * CacheRow)) : N := foldr (λ e, N.add (row_bytes e)) 0 rows.

Lemma rows_total_app rows rows' : rows_total (rows ++ rows') = rows_total rows + rows_total rows'.
Proof. induction rows as [|e rows IH]; simpl; [done|]. rewrite IH. lia. Qed.

Lemma rows_total_perm rows rows' : rows ≡ₚ rows' → rows_total rows = rows_total rows'.
Proof. induction 1; simpl; lia. Qed.

Lemma cache_total_rows cache : sized cache → cache_total cache = Z.of_N (rows_total (map_to_list cache)).
Proof.
  intros Hsized. unfold cache_total, rows_total.
  assert (Forall (λ e : string * CacheRow, (0 < cr_size_bytes e.2)%Z) (map_to_list cache)) as Hall.
  { apply Forall_forall. intros [k row] Hin%elem_of_map_to_list. by apply (Hsized k row). }
  induction Hall as [|e rows He Hall IH]; simpl; [done|]. rewrite IH. unfold row_bytes. lia.
Qed.

Lemma select_victims_spec quota rows :
  Forall (λ e : string * CacheRow, (0 < cr_size_bytes e.2)%Z) rows →
  ∃ victims kept, rows = victims ++ kept
    ∧ select_victims quota (rows_total rows) rows = map fst victims
    ∧ rows_total kept ≤ quota
    ∧ (∀ older last, victims = older ++ [last] → quota < row_bytes last + rows_total kept).
Proof.
  induction 1 as [|[key row] rows Hrow Hrows IH].
  - exists [], []. simpl. rewrite (proj2 (N.ltb_ge _ _)) by lia.
    split; [done|]. split; [done|]. split; [lia|]. by intros [].
  - destruct (N.ltb_spec quota (rows_total ((key, row) :: rows))) as [Hover|Hwithin].
    + destruct IH as (victims & kept & -> & Hselect & Hkept & Hlast).
      exists ((key, row) :: victims), kept. split; [done|]. split; [|split; [done|]].
      * simpl. simpl in Hover. rewrite (proj2 (N.ltb_lt _ _) Hover). f_equal. rewrite <-Hselect. f_equal.
        unfold u64_of, row_bytes. simpl in *. rewrite (proj2 (Z.leb_le _ _)) by lia. simpl. lia.
      * intros [|e older] last; simpl; [|intros [= <- E]; by apply (Hlast older)].
        intros [= <- ->]. simpl in Hover. exact Hover.
    + exists [], ((key, row) :: rows). split; [done|]. split; [|split; [done|by intros []]].
      simpl. simpl in Hwithin. by rewrite (proj2 (N.ltb_ge _ _) Hwithin).
Qed.

Lemma delete_victims (victims kept : list (string * CacheRow)) :
  NoDup (map fst (victims ++ kept)) →
  foldr delete (list_to_map (victims ++ kept) : CacheTable) (map fst victims) = list_to_map kept.
Proof.
  intros Hnd. apply map_eq. intros key. destruct (decide (key ∈ map fst victims)) as [Hin|Hout].
  - rewrite lookup_foldr_delete by done. symmetry. apply not_elem_of_list_to_map_1.
    rewrite map_app in Hnd. apply NoDup_app in Hnd as (_ & Hdisjoint & _). by apply Hdisjoint.
  - rewrite lookup_foldr_delete_not_elem_of by done. rewrite list_to_map_app.
    rewrite lookup_union_r; [done|]. by apply not_elem_of_list_to_map_1.
Qed.

Lemma oldest_first_perm cache : oldest_first cache ≡ₚ map_to_list cache.
Proof. apply sort_by_perm. Qed.

Lemma oldest_first_keys cache : NoDup (map fst (oldest_first cache)).
Proof. rewrite oldest_first_perm. apply NoDup_fst_map_to_list. Qed.

Lemma oldest_first_map cache : list_to_map (oldest_first cache) = cache.
Proof.
  rewrite <-(list_to_map_to_list cache) at 2. apply list_to_map_proper; [apply oldest_first_keys|apply oldest_first_perm].
Qed.

(** Evicting keeps a suffix of the rows, from the least to the most recently
    used: the shortest prefix is removed that brings the rest within the quota. *)
Lemma evict_to_quota_spec quota cache cache' : sized cache →
  evict_to_quota quota cache = (cache', Ok tt) →
  ∃ victims kept, oldest_first cache = victims ++ kept ∧ cache' = list_to_map kept
    ∧ rows_total kept ≤ quota
    ∧ (∀ older last, victims = older ++ [last] → quota < row_bytes last + rows_total kept).
Proof.
  intros Hsized. pose proof (cache_total_rows cache Hsized) as Htotal.
  rewrite <-(rows_total_perm _ _ (oldest_first_perm cache)) in Htotal.
  unfold evict_to_quota, cache_sum. rewrite Htotal. destruct (Z.leb_spec (Z.of_N (rows_total (oldest_first cache))) (Z.of_N i64_max));
    [|done].
  unfold u64_of. rewrite (proj2 (Z.leb_le _ _)) by lia. rewrite N2Z.id.
  destruct (select_victims_spec quota (oldest_first cache)) as (victims & kept & Erows & Eselect & Hkept & Hlast).
  { apply Forall_forall. intros [k row] Hin. rewrite oldest_first_perm in Hin.
    apply elem_of_map_to_list in Hin. by apply (Hsized k row). }
  destruct (N.leb_spec (rows_total (oldest_first cache)) quota) as [Hfits|Hover].
  - intros [= <-]. exists [], (oldest_first cache). split; [done|]. split; [by rewrite oldest_first_map|].
    split; [done|by intros []].
  - intros [= <-]. exists victims, kept. split; [done|]. split; [|done].
    rewrite Eselect, <-(oldest_first_map cache), Erows.
    rewrite <-(oldest_first_map cache) in Erows at 1.
    apply delete_victims. rewrite <-Erows. apply oldest_first_keys.
Qed.

(** ** What the cache holds *)
Section contents.
Context `{WorkCodec} `{Blake3}.

(** A row is the encoding of one of the batches, under that batch's key. *)
Definition row_for (batch : StoredExtractorBatch) (key : string) (row : CacheRow) : Prop :=
  batch_cache_key (sb_source batch) (sb_budget_fingerprint batch) (sb_extractor_version batch) = Ok key
  ∧ header_to_vec (header_of batch) = Ok (cr_header_json row)
  ∧ cr_payload row = sb_payload batch
  ∧ cr_size_bytes row = Z.of_N (row_size (cr_header_json row) (sb_payload batch)).

Definition holds_only (batches : list StoredExtractorBatch) (cache : CacheTable) : Prop :=
  sized cache ∧ ∀ key row, cache !! key = Some row → ∃ batch, batch ∈ batches ∧ row_for batch key row.

Lemma holds_only_mono batches batches' cache :
  batches ⊆ batches' → holds_only batches cache → holds_only batches' cache.
Proof. intros Hsub [Hs Hall]. split; [done|]. intros key row (b & Hb & Hrow)%Hall. eauto. Qed.

Lemma holds_only_sub batches cache cache' : cache' ⊆ cache → holds_only batches cache → holds_only batches cache'.
Proof.
  intros Hsub [Hs Hall]. split.
  - intros key row Hlook. by apply (Hs key row), (lookup_weaken cache').
  - intros key row Hlook. by apply (Hall key row), (lookup_weaken cache').
Qed.

Lemma holds_only_insert batches batch key row cache :
  holds_only batches cache → batch ∈ batches → row_for batch key row → (0 < cr_size_bytes row)%Z →
  holds_only batches (<[key := row]> cache).
Proof.
  intros [Hs Hall] Hb Hrow Hpos. split.
  - by apply map_Forall_insert_2.
  - intros k r [[<- <-]|[_ Hlook]]%lookup_insert_Some; eauto.
Qed.

Lemma holds_only_touch batches key now cache :
  holds_only batches cache → holds_only batches (touch key now cache).
Proof.
  intros [Hs Hall]. unfold touch. split; intros k r Hlook; apply lookup_alter_Some in Hlook as
    [(-> & row & Hrow & ->)|[_ Hrow]]; simpl.
  - by apply (Hs k).
  - by apply (Hs k r).
  - apply Hall in Hrow as (b & Hb & Hrow). by exists b.
  - by apply Hall.
Qed.

Lemma transaction_preserves {S E A} (I : S → Prop) (m : method S E A) :
  preserves I m → preserves I (transaction m).
Proof. intros Hm s Hs. unfold transaction. specialize (Hm s Hs). by destruct (m s) as [s' []]. Qed.

Lemma load_batch_holds batches bf ev maximum now fp :
  preserves (holds_only batches) (load_batch bf ev maximum now fp).
Proof.
  intros cache Hcache. unfold load_batch. destruct (batch_cache_key fp bf ev) as [key|]; [|done].
  destruct (cache !! key) as [row|]; [|done].
  destruct (_ <=? _)%Z; [destruct (header_from_slice _) as [header|]|].
  - destruct (header_matches _ _ _ _); [by apply holds_only_touch|done].
  - apply (holds_only_sub _ cache); [apply delete_subseteq|done].
  - apply (holds_only_sub _ cache); [apply delete_subseteq|done].
Qed.

Lemma load_loop_holds batches bf ev maximum now fps :
  preserves (holds_only batches) (load_loop bf ev maximum now fps).
Proof.
  induction fps as [|fp fps IH]; simpl; [apply preserves_read|].
  apply preserves_bind; [apply load_batch_holds|intros found].
  apply preserves_bind; [done|intros rest; apply preserves_read].
Qed.

Lemma load_batches_holds batches fps bf ev maximum now :
  preserves (holds_only batches) (load_batches fps bf ev maximum now).
Proof.
  apply preserves_bind; [apply preserves_read|intros z]. apply preserves_bind; [apply preserves_read|intros m].
  apply transaction_preserves, load_loop_holds.
Qed.

Lemma put_batch_Ok quota now batch cache cache' written :
  put_batch quota now batch cache = (cache', Ok written) →
  ∃ header, header_to_vec (header_of batch) = Ok header ∧
  if written then
    ∃ key, batch_cache_key (sb_source batch) (sb_budget_fingerprint batch) (sb_extractor_version batch) = Ok key
    ∧ row_size header (sb_payload batch) ≤ quota
    ∧ 0 < row_size header (sb_payload batch)
    ∧ cache' = <[key := {| cr_header_json := header; cr_payload := sb_payload batch;
                           cr_size_bytes := Z.of_N (row_size header (sb_payload batch));
                           cr_last_access_unix_ms := now |}]> cache
  else cache' = cache ∧ (quota < row_size header (sb_payload batch) ∨ i64_max < row_size header (sb_payload batch)).
Proof.
  unfold put_batch. destruct (header_to_vec (header_of batch)) as [header|]; [|done]. simpl.
  destruct (N.ltb_spec quota (row_size header (sb_payload batch))) as [Hq|Hq]; simpl.
  { intros [= <- <-]. exists header. auto. }
  destruct (N.ltb_spec i64_max (row_size header (sb_payload batch))) as [Hi|Hi].
  { intros [= <- <-]. exists header. auto. }
  destruct (batch_cache_key _ _ _) as [key|]; [|done]. unfold sqlite_integer.
  rewrite (proj2 (N.leb_le _ _) Hi).
  destruct (Z.ltb_spec 0 (Z.of_N (row_size header (sb_payload batch)))); [|done].
  intros [= <- <-]. exists header. split; [done|]. exists key. split; [done|]. split; [done|]. split; [lia|done].
Qed.

Lemma put_batch_holds batches quota now batch : batch ∈ batches →
  preserves (holds_only batches) (put_batch quota now batch).
Proof.
  intros Hb cache Hcache. destruct (put_batch quota now batch cache) as [cache' [written|e]] eqn:E; simpl.
  - apply put_batch_Ok in E as (header & Hheader & E). destruct written; [|by destruct E as [-> _]].
    destruct E as (key & Hkey & _ & Hpos & ->). apply (holds_only_insert _ batch); [done..| |simpl; lia].
    by repeat split.
  - unfold put_batch in E. repeat case_match; by injection E as <-.
Qed.

Lemma put_loop_holds batches quota now puts written : puts ⊆ batches →
  preserves (holds_only batches) (put_loop quota now puts written).
Proof.
  revert written. induction puts as [|batch puts IH]; intros written Hsub; [apply preserves_read|].
  simpl. apply preserves_bind; [apply put_batch_holds; set_solver|intros inserted; apply IH; set_solver].
Qed.

Lemma kept_sub cache victims kept : oldest_first cache = victims ++ kept → list_to_map kept ⊆ cache.
Proof.
  intros E. rewrite <-(oldest_first_map cache), E. pose proof (oldest_first_keys cache) as Hnd. rewrite E in Hnd.
  rewrite list_to_map_app. apply map_union_subseteq_r. apply map_disjoint_list_to_map_l, Forall_forall.
  intros [k row] Hin. apply not_elem_of_list_to_map_1. rewrite map_app in Hnd.
  apply NoDup_app in Hnd as (_ & Hdisjoint & _). apply Hdisjoint. apply list_elem_of_fmap. by exists (k, row).
Qed.

Lemma evict_holds batches quota : preserves (holds_only batches) (evict_to_quota quota).
Proof.
  intros cache Hcache. destruct (evict_to_quota quota cache) as [cache' [[]|e]] eqn:E; simpl.
  - apply evict_to_quota_spec in E as (victims & kept & E & -> & _); [|by apply Hcache].
    by apply (holds_only_sub _ cache); [apply (kept_sub _ victims)|].
  - unfold evict_to_quota in E. repeat case_match; by injection E as <-.
Qed.

Lemma put_batches_holds batches puts quota now : puts ⊆ batches →
  preserves (holds_only batches) (put_batches puts quota now).
Proof.
  intros Hsub. unfold put_batches. destruct puts as [|batch puts]; [apply preserves_read|].
  apply preserves_bind; [apply preserves_read|intros z]. apply transaction_preserves.
  apply preserves_bind; [by apply put_loop_holds|intros written].
  apply preserves_bind; [apply evict_holds|intros u; apply preserves_read].
Qed.

(** *** Histories *)
Inductive cache_call :=
| Load (fingerprints : list ArtifactFingerprint) (budget_fingerprint extractor_version : string)
    (maximum_payload_bytes now : N)
| Put (batches : list StoredExtractorBatch) (quota_bytes now : N).

Definition call_cache (c : cache_call) : cache_method unit := λ cache,
  match c with
  | Load fps bf ev maximum now => ((load_batches fps bf ev maximum now cache).1, Ok tt)
  | Put batches quota now => ((put_batches batches quota now cache).1, Ok tt)
  end.

Definition put_by (c : cache_call) : list StoredExtractorBatch :=
  match c with Put batches _ _ => batches | Load _ _ _ _ _ => [] end.

Lemma call_cache_holds batches c : put_by c ⊆ batches → preserves (holds_only batches) (call_cache c).
Proof.
  intros Hsub cache Hcache. destruct c; simpl; [by apply load_batches_holds|by apply put_batches_holds].
Qed.

Lemma history_holds calls : holds_only (concat (map put_by calls)) (m_all call_cache calls ∅).
Proof.
  apply (preserves_all_Forall _ (λ c, put_by c ⊆ concat (map put_by calls))).
  - apply call_cache_holds.
  - apply Forall_forall. intros c Hc b Hb. apply list_elem_of_In, in_concat.
    exists (put_by c). split; [apply in_map|]; by apply list_elem_of_In.
  - split; [apply map_Forall_empty|]. by intros key row Hlook.
Qed.

(** What one call may return. *)
Definition answers (fps : list ArtifactFingerprint) (bf ev : string) (maximum : Z)
    (batches : list StoredExtractorBatch) (found : StoredExtractorBatch) : Prop :=
  found ∈ batches ∧ sb_source found ∈ fps ∧ sb_budget_fingerprint found = bf
  ∧ sb_extractor_version found = ev ∧ (Z.of_N (len (sb_payload found)) <= maximum)%Z.

Lemma batch_of_header batch payload : payload = sb_payload batch → batch_of (header_of batch) payload = batch.
Proof. intros ->. by destruct batch. Qed.

Lemma load_batch_answers `{!WorkCodecLaws} batches bf ev maximum now fp cache cache' found :
  holds_only batches cache → load_batch bf ev maximum now fp cache = (cache', Ok (Some found)) →
  answers [fp] bf ev maximum batches found.
Proof.
  intros [_ Hall] E. unfold load_batch in E. destruct (batch_cache_key fp bf ev) as [key|]; [|done].
  destruct (cache !! key) as [row|] eqn:Erow; [|done].
  destruct (Z.leb_spec (Z.of_N (len (cr_payload row))) maximum) as [Hlen|]; [|done].
  destruct (header_from_slice (cr_header_json row)) as [header|] eqn:Eheader; [|done].
  destruct (header_matches header fp bf ev) eqn:Ematch; [|done]. injection E as _ <-.
  apply Hall in Erow as (batch & Hb & _ & Hjson & Hpayload & _).
  apply header_round_trip in Hjson. rewrite Hjson in Eheader. injection Eheader as <-.
  rewrite Hpayload in *. rewrite batch_of_header by done. unfold header_matches in Ematch. simpl in Ematch.
  apply andb_true_iff in Ematch as [[Hs%bool_decide_eq_true Hf%String.eqb_eq]%andb_true_iff Hv%String.eqb_eq].
  unfold answers. rewrite Hs. repeat split; try done. by apply list_elem_of_singleton.
Qed.

Lemma load_loop_answers `{!WorkCodecLaws} batches bf ev maximum now fps cache cache' found :
  holds_only batches cache → load_loop bf ev maximum now fps cache = (cache', Ok found) →
  Forall (answers fps bf ev maximum batches) found.
Proof.
  revert cache cache' found. induction fps as [|fp fps IH]; intros cache cache' found Hcache E.
  - injection E as _ <-. constructor.
  - simpl in E. unfold m_bind at 1 in E.
    pose proof (load_batch_holds batches bf ev maximum now fp cache Hcache) as Hcache1.
    destruct (load_batch bf ev maximum now fp cache) as [cache1 [first|]] eqn:E1; [|done].
    unfold m_bind at 1 in E. destruct (load_loop bf ev maximum now fps cache1) as [cache2 [rest|]] eqn:E2; [|done].
    injection E as _ <-. apply Forall_app. split.
    + destruct first as [b|]; [|constructor]. constructor; [|constructor].
      apply load_batch_answers with (batches := batches) in E1 as (Hb & Hs & Hrest); [|done].
      split; [done|]. split; [|done]. set_solver.
    + apply IH in E2; [|done]. eapply Forall_impl; [exact E2|]. intros b (Hb & Hs & Hrest).
      split; [done|]. split; [by right|done].
Qed.

(** Whatever happened to the cache before, a batch that it returns is one that
    was put into it, and it carries the requested fingerprint, budgets and
    extractor version and no more payload than allowed: a collision of keys, an
    eviction or an overwrite can only lose batches, never confuse them. *)
Theorem loaded_batches_were_put `{!WorkCodecLaws} calls fps bf ev maximum now found :
  (load_batches fps bf ev maximum now (m_all call_cache calls ∅)).2 = Ok found →
  Forall (answers fps bf ev (Z.of_N maximum) (concat (map put_by calls))) found.
Proof.
  intros E. pose proof (history_holds calls) as Hcache. revert E. unfold load_batches, m_bind, m_read.
  destruct (sqlite_integer now _) as [n|]; [|done]. unfold sqlite_integer.
  rewrite (proj2 (N.leb_le _ _)) by lia. unfold transaction.
  destruct (load_loop _ _ _ _ _ _) as [cache' [batches|]] eqn:E; [|done]. intros [= <-].
  apply load_loop_answers with (batches := concat (map put_by calls)) in E; [|done].
  eapply Forall_impl; [exact E|]. intros b (? & ? & ? & ? & ?). repeat split; try done. lia.
Qed.

(** *** The quota *)
Lemma rows_total_map rows : NoDup (map fst rows) →
  rows_total (map_to_list (list_to_map rows : CacheTable)) = rows_total rows.
Proof. intros Hnd. apply rows_total_perm. by apply map_to_list_to_map. Qed.

Lemma oldest_first_kept cache victims kept : oldest_first cache = victims ++ kept →
  oldest_first (list_to_map kept) = kept.
Proof.
  intros E. pose proof (oldest_first_keys cache) as Hnd. rewrite E, map_app in Hnd.
  apply NoDup_app in Hnd as (_ & _ & Hnd).
  transitivity (sort_by (then_with (cmp_on (λ e : string * CacheRow, cr_last_access_unix_ms e.2) cmp) (cmp_on fst cmp)) kept).
  - apply sort_by_perm_eq; [apply _| |by apply map_to_list_to_map].
    intros [k row] [k' row'] Hx Hy Hcmp. apply elem_of_map_to_list in Hx, Hy.
    unfold then_with in Hcmp. destruct (cmp_on _ cmp (k, row) (k', row')); [|done..].
    apply (proj1 (cmp_eq_iff k k')) in Hcmp. subst k'. congruence.
  - apply sort_by_id. assert (StronglySorted (cmp_le (then_with
      (cmp_on (λ e : string * CacheRow, cr_last_access_unix_ms e.2) cmp) (cmp_on fst cmp))) (victims ++ kept)) as Hsorted
      by (rewrite <-E; apply sort_by_sorted; apply _).
    by apply StronglySorted_app in Hsorted as (_ & _ & Hsorted).
Qed.

(** After batches were put, the rows of the cache together respect the quota;
    the rows that had to go are the least recently used of all rows, the new ones
    included, and no fewer would have sufficed. *)
Theorem put_respects_quota calls batches quota now written cache' :
  batches ≠ [] → now ≤ i64_max →
  put_batches batches quota now (m_all call_cache calls ∅) = (cache', Ok written) →
  let filled := (put_loop quota (Z.of_N now) batches 0 (m_all call_cache calls ∅)).1 in
  (cache_total cache' <= Z.of_N quota)%Z
  ∧ ∃ victims, oldest_first filled = victims ++ oldest_first cache'
    ∧ (∀ older last, victims = older ++ [last] →
         (Z.of_N quota < cr_size_bytes last.2 + cache_total cache')%Z).
Proof.
  intros Hne Hnow E filled. subst filled. destruct batches as [|b bs]; [done|].
  set (all := concat (map put_by calls) ++ (b :: bs)).
  assert (holds_only all (m_all call_cache calls ∅)) as Hcache
    by (eapply holds_only_mono; [|apply history_holds]; set_solver).
  pose proof (put_loop_holds all quota (Z.of_N now) (b :: bs) 0 ltac:(set_solver) _ Hcache) as [Hsized _].
  revert E Hsized. unfold put_batches, sqlite_integer. rewrite (proj2 (N.leb_le _ _) Hnow).
  unfold m_bind at 1, m_read at 1, transaction, m_bind at 1.
  destruct (put_loop quota (Z.of_N now) (b :: bs) 0 _) as [filled [n|]]; [|done]. simpl. intros E Hsized.
  unfold m_bind in E. destruct (evict_to_quota quota filled) as [cache1 [[]|]] eqn:Eevict; [|done].
  injection E as <- _. apply evict_to_quota_spec in Eevict as (victims & kept & Erows & -> & Hkept & Hlast); [|done].
  assert (sized (list_to_map kept)) as Hsized'.
  { intros key row Hlook. apply (Hsized key row). by apply (lookup_weaken _ _ _ _ Hlook), (kept_sub _ victims). }
  pose proof (oldest_first_kept _ _ _ Erows) as Ekept.
  rewrite cache_total_rows, <-(rows_total_perm _ _ (oldest_first_perm _)), Ekept by done.
  split; [lia|]. exists victims. split; [done|]. intros older last Elast. specialize (Hlast older last Elast).
  assert (0 < cr_size_bytes last.2)%Z.
  { apply (Hsized last.1). apply elem_of_map_to_list. rewrite <-(surjective_pairing last), <-oldest_first_perm, Erows, Elast.
    set_solver. }
  unfold row_bytes in Hlast. lia.
Qed.

(** *** Round trip *)
Definition key_of (batch : StoredExtractorBatch) : result WorkError string :=
  batch_cache_key (sb_source batch) (sb_budget_fingerprint batch) (sb_extractor_version batch).

Definition row_of (header : string) (now : Z) (batch : StoredExtractorBatch) : CacheRow := {|
  cr_header_json := header;
  cr_payload := sb_payload batch;
  cr_size_bytes := Z.of_N (row_size header (sb_payload batch));
  cr_last_access_unix_ms := now |}.

Lemma put_loop_other quota now puts written cache cache' n key :
  put_loop quota now puts written cache = (cache', Ok n) →
  Forall (λ b, key_of b ≠ Ok key) puts → cache' !! key = cache !! key.
Proof.
  revert written cache. induction puts as [|b puts IH]; intros written cache E Hkeys; [by injection E as <-|].
  apply Forall_cons in Hkeys as [Hb Hkeys]. simpl in E. unfold m_bind in E.
  destruct (put_batch quota now b cache) as [cache1 [inserted|]] eqn:E1; [|done].
  rewrite (IH _ _ E Hkeys). apply put_batch_Ok in E1 as (header & _ & E1).
  destruct inserted; [|by destruct E1 as [-> _]]. destruct E1 as (k & Hk & _ & _ & ->).
  apply lookup_insert_ne. intros ->. by apply Hb.
Qed.

Lemma put_loop_lookup quota now puts written cache cache' n b key header :
  put_loop quota now puts written cache = (cache', Ok n) →
  NoDup (map key_of puts) → b ∈ puts → key_of b = Ok key → header_to_vec (header_of b) = Ok header →
  row_size header (sb_payload b) ≤ quota → row_size header (sb_payload b) ≤ i64_max →
  cache' !! key = Some (row_of header now b).
Proof.
  revert written cache. induction puts as [|p puts IH]; intros written cache E Hnd Hb Hkey Hheader Hq Hi;
    [by apply elem_of_nil in Hb|].
  simpl in Hnd. apply NoDup_cons in Hnd as [Hfresh Hnd]. simpl in E. unfold m_bind in E.
  destruct (put_batch quota now p cache) as [cache1 [inserted|]] eqn:E1; [|done].
  apply elem_of_cons in Hb as [->|Hb]; [|by apply (IH _ _ E)].
  rewrite (put_loop_other _ _ _ _ _ _ _ key E).
  - apply put_batch_Ok in E1 as (json & Hjson & E1). rewrite Hheader in Hjson. injection Hjson as <-.
    destruct inserted; [|lia]. destruct E1 as (k & Hk & _ & _ & ->).
    unfold key_of in Hkey. rewrite Hkey in Hk. injection Hk as <-. apply lookup_insert_eq.
  - apply Forall_forall. intros q Hqin Eq. apply Hfresh. rewrite Hkey, <-Eq. apply list_elem_of_fmap. by exists q.
Qed.

(** A batch that was put, fits the quota and was not evicted in the same
    transaction is returned as it was, when it is asked for with a payload limit
    that admits it. *)
Theorem put_load_roundtrip `{!WorkCodecLaws} batches b calls quota now later maximum written cache' key header :
  put_batches batches quota now (m_all call_cache calls ∅) = (cache', Ok written) →
  NoDup (map key_of batches) → b ∈ batches → key_of b = Ok key → header_to_vec (header_of b) = Ok header →
  row_size header (sb_payload b) ≤ quota → row_size header (sb_payload b) ≤ i64_max →
  is_Some (cache' !! key) → len (sb_payload b) ≤ N.min maximum i64_max → later ≤ i64_max →
  (load_batches [sb_source b] (sb_budget_fingerprint b) (sb_extractor_version b) maximum later cache').2 = Ok [b].
Proof.
  intros E Hnd Hb Hkey Hheader Hq Hi [row Hrow] Hlen Hlater.
  assert (row = row_of header (Z.of_N now) b) as ->.
  { set (all := concat (map put_by calls) ++ batches).
    assert (holds_only all (m_all call_cache calls ∅)) as Hcache
      by (eapply holds_only_mono; [|apply history_holds]; set_solver).
    pose proof (put_loop_holds all quota (Z.of_N now) batches 0 ltac:(set_solver) _ Hcache) as [Hsized _].
    unfold put_batches in E. destruct batches as [|p puts]; [by apply elem_of_nil in Hb|].
    unfold m_bind at 1, m_read at 1 in E. unfold sqlite_integer in E. destruct (N.leb_spec now i64_max); [|done].
    unfold transaction, m_bind at 1 in E.
    destruct (put_loop quota (Z.of_N now) (p :: puts) 0 _) as [filled [n|]] eqn:Eput; [|done].
    unfold m_bind in E. destruct (evict_to_quota quota filled) as [cache1 [[]|]] eqn:Eevict; [|done].
    injection E as <- _. apply evict_to_quota_spec in Eevict as (victims & kept & Erows & -> & _); [|done].
    apply (lookup_weaken _ filled) in Hrow; [|by apply (kept_sub _ victims)].
    rewrite (put_loop_lookup _ _ _ _ _ _ _ b key header Eput) in Hrow by done. by injection Hrow. }
  unfold load_batches, m_bind at 1, m_read at 1, sqlite_integer. rewrite (proj2 (N.leb_le _ _) Hlater).
  unfold m_bind at 1, m_read at 1. rewrite (proj2 (N.leb_le (N.min maximum i64_max) _)) by lia.
  unfold transaction. simpl. unfold m_bind at 1. unfold load_batch.
  unfold key_of in Hkey. rewrite Hkey, Hrow. simpl. rewrite (proj2 (Z.leb_le _ _)) by lia.
  rewrite (header_round_trip _ _ Hheader). unfold header_matches. simpl.
  rewrite bool_decide_eq_true_2, !String.eqb_refl by done. simpl. by rewrite batch_of_header.
Qed.
End contents.

(** ** File metadata and opening *)
Lemma upsert_stats_spec upserts table table' :
  m_each upsert_stat upserts table = (table', Ok tt) →
  load_file_stats table' = foldl (λ stats e, <[e.1 := e.2]> stats) (load_file_stats table) upserts
  ∧ Forall (λ e, fs_size_bytes e.2 ≤ i64_max) upserts.
Proof.
  revert table. induction upserts as [|[key stat] upserts IH]; intros table E; [by injection E as <-|].
  apply m_each_cons_Ok in E as (table1 & E1 & E). apply IH in E as [E Hsizes].
  unfold upsert_stat, m_bind, m_read, m_write, sqlite_integer in E1. simpl in E1.
  destruct (N.leb_spec (fs_size_bytes stat) i64_max); [|done]. injection E1 as <-.
  split; [|by constructor]. rewrite E. simpl. f_equal. unfold load_file_stats. rewrite fmap_insert. f_equal.
  unfold stat_of_row, u64_of. simpl. rewrite (proj2 (Z.leb_le _ _)) by lia. simpl. rewrite N2Z.id. by destruct stat.
Qed.

Lemma upsert_stats_accepts upserts table : Forall (λ e, fs_size_bytes e.2 ≤ i64_max) upserts →
  ∃ table', m_each upsert_stat upserts table = (table', Ok tt).
Proof.
  intros Hsizes. revert table. induction Hsizes as [|[key stat] upserts Hsize Hsizes IH]; intros table; [by eexists|].
  edestruct IH as [table' E]. exists table'. apply m_each_cons_Ok. eexists. split; [|exact E].
  unfold upsert_stat, m_bind, m_read, m_write, sqlite_integer. simpl in *. by rewrite (proj2 (N.leb_le _ _) Hsize).
Qed.

Lemma removals_spec (removals : list FileStatKey) (table : StatTable) :
  m_each (λ key, m_write (E := WorkError) (delete key)) removals table
  = (foldl (λ t key, delete key t) table removals, Ok tt).
Proof. revert table. induction removals as [|key removals IH]; intros table; [done|]. apply (IH (delete key table)). Qed.

Lemma load_removed (removals : list FileStatKey) (table : StatTable) :
  load_file_stats (foldl (λ (t : StatTable) key, delete key t) table removals)
  = foldl (λ stats key, delete key stats) (load_file_stats table) removals.
Proof.
  revert table. induction removals as [|key removals IH]; intros table; simpl; [done|].
  rewrite IH. f_equal. unfold load_file_stats. apply fmap_delete.
Qed.

(** A delta is applied whole or not at all: it fails exactly when a size does
    not fit SQLite's integers, and otherwise what is loaded afterwards is what
    was loaded before without the removals and with the upserts over it. *)
Theorem file_stat_delta_roundtrip delta table :
  let '(table', answer) := apply_file_stat_delta delta table in
  (answer = Ok tt ↔ Forall (λ e, fs_size_bytes e.2 ≤ i64_max) (fd_upserts delta))
  ∧ (answer ≠ Ok tt → table' = table)
  ∧ (answer = Ok tt → load_file_stats table' =
       foldl (λ stats e, <[e.1 := e.2]> stats)
         (foldl (λ stats key, delete key stats) (load_file_stats table) (fd_removals delta))
         (fd_upserts delta)).
Proof.
  assert (∀ (u : list (FileStatKey * FileStat)) (r : list FileStatKey), let '(table', answer) := transaction (
        do! m_each (λ key, m_write (E := WorkError) (delete key)) r in m_each upsert_stat u) table in
    (answer = Ok tt ↔ Forall (λ e, fs_size_bytes e.2 ≤ i64_max) u)
    ∧ (answer ≠ Ok tt → table' = table)
    ∧ (answer = Ok tt → load_file_stats table' = foldl (λ stats e, <[e.1 := e.2]> stats)
         (foldl (λ stats key, delete key stats) (load_file_stats table) r) u)) as Hrun.
  { intros u r. unfold transaction, m_bind. rewrite removals_spec.
    destruct (m_each upsert_stat u _) as [table' [[]|e]] eqn:E.
    - apply upsert_stats_spec in E as [E Hsizes]. rewrite load_removed in E. by repeat split.
    - split; [|by split]. split; [done|]. intros Hsizes.
      destruct (upsert_stats_accepts u (foldl (λ t key, delete key t) table r) Hsizes) as [t Et]. congruence. }
  unfold apply_file_stat_delta. destruct delta as [[|u us] [|r rs]]; [by repeat split|apply Hrun..].
Qed.

(** An opened sidecar is bound to the database instance and the schema that
    opened it; its tables are those of a sidecar that was already bound so, or of
    one that was never initialised, and are empty otherwise, so that no state of
    another database is ever read. *)
Theorem open_binds_instance id db db' : open id db = (db', Ok tt) →
  wd_metadata db' !! "schema_version" = Some WORK_SCHEMA_VERSION
  ∧ wd_metadata db' !! "database_instance_id" = Some id
  ∧ ((wd_metadata db !! "schema_version" = Some WORK_SCHEMA_VERSION
        ∧ wd_metadata db !! "database_instance_id" = Some id ∧ db' = db)
     ∨ (wd_metadata db !! "schema_version" = None ∧ wd_metadata db !! "database_instance_id" = None
        ∧ ∃ metadata, db' = with_metadata db metadata)
     ∨ (wd_metadata db !! "schema_version" ≠ None ∧ ∃ metadata, db' = with_metadata empty_db metadata)).
Proof.
  unfold open, open_existing.
  destruct (wd_metadata db !! "schema_version") as [version|] eqn:Ev.
  - destruct (String.eqb_spec version WORK_SCHEMA_VERSION) as [->|Hne].
    + destruct (bool_decide_reflect (wd_metadata db !! "database_instance_id" = Some id)) as [Hid|Hid].
      * intros [= <-]. rewrite Ev. split; [done|]. split; [done|]. by left.
      * intros [= <-]. split; [done|]. split; [done|]. right. right. eauto.
    + intros [= <-]. split; [done|]. split; [done|]. right. right. eauto.
  - rewrite lookup_insert_ne by done. destruct (wd_metadata db !! "database_instance_id") eqn:Ei; [done|].
    intros [= <-]. simpl. rewrite lookup_insert_eq, lookup_insert_ne, lookup_insert_eq by done.
    split; [done|]. split; [done|]. right. left. eauto.
Qed.

Module Example_work.
#[local] Instance identity_digest : Blake3 := λ text, text.

Definition artifact (hash : string) : ArtifactFingerprint := {|
  fp_repo_id := "repo:api"; fp_checkout_id := "checkout:api";
  fp_path := {| np_encoding := Utf8; np_bytes := [97]; np_display := "a" |};
  fp_extractor := "graphql"; fp_content_hash := hash; fp_size_bytes := 4 |}.
Definition batch (hash : string) : StoredExtractorBatch := {|
  sb_source := artifact hash; sb_extractor_version := "1.2.1"; sb_budget_fingerprint := "budget";
  sb_source_was_lossy := false; sb_output_count := 1; sb_payload := [91; 49; 93] |}.

(** A codec that knows the headers of two batches. *)
#[local] Instance two_headers : WorkCodec := {
  header_to_vec header :=
    if bool_decide (header = header_of (batch "one")) then Ok "1"
    else if bool_decide (header = header_of (batch "two")) then Ok "2" else Err "unknown";
  header_from_slice json :=
    if String.eqb json "1" then Some (header_of (batch "one"))
    else if String.eqb json "2" then Some (header_of (batch "two")) else None;
  key_to_vec material := Ok (fp_content_hash material.1.1);
}.

#[local] Instance two_headers_laws : WorkCodecLaws.
Proof.
  split.
  - intros header json. simpl. repeat case_bool_decide; simplify_eq; [by intros [= <-]|by intros [= <-]|done].
  - intros header. simpl. by repeat case_bool_decide.
Qed.

Definition calls : list cache_call := [Put [batch "one"] 1000 1; Load [artifact "one"] "budget" "1.2.1" 1000 2].

Lemma loaded_batches_were_put_witness :
  (load_batches [artifact "two"; artifact "one"] "budget" "1.2.1" 1000 3 (m_all call_cache calls ∅)).2
    = Ok [batch "one"]
  ∧ Forall (answers [artifact "two"; artifact "one"] "budget" "1.2.1" 1000
      (concat (map put_by calls))) [batch "one"].
Proof.
  assert ((load_batches [artifact "two"; artifact "one"] "budget" "1.2.1" 1000 3
    (m_all call_cache calls ∅)).2 = Ok [batch "one"]) as E by (vm_compute; reflexivity).
  split; [exact E|]. exact (loaded_batches_were_put calls _ "budget" "1.2.1" 1000 3 _ E).
Defined.

Definition refilled : CacheTable * result WorkError N := put_batches [batch "two"] 7 5 (m_all call_cache calls ∅).

Lemma put_respects_quota_witness :
  refilled = (refilled.1, Ok 1)
  ∧ (cache_total refilled.1 <= 7)%Z
  ∧ ∃ victims, oldest_first (put_loop 7 5 [batch "two"] 0 (m_all call_cache calls ∅)).1
               = victims ++ oldest_first refilled.1
    ∧ (∀ older last, victims = older ++ [last] → (7 < cr_size_bytes last.2 + cache_total refilled.1)%Z).
Proof.
  assert (refilled = (refilled.1, Ok 1)) as E by (vm_compute; reflexivity).
  split; [exact E|]. exact (put_respects_quota calls [batch "two"] 7 5 1 _ ltac:(done) ltac:(done) E).
Defined.

Lemma put_load_roundtrip_witness :
  (load_batches [artifact "two"] "budget" "1.2.1" 1000 6 refilled.1).2 = Ok [batch "two"].
Proof.
  apply (put_load_roundtrip [batch "two"] (batch "two") calls 7 5 6 1000 1 refilled.1
    (stable_id_bytes "work-batch-v1" "two") "2"); try (vm_compute; (reflexivity || congruence)).
  - apply NoDup_singleton.
  - by left.
  - vm_compute. by eexists.
Defined.

(** The number of written batches counts those that were evicted at once. *)
Example written_but_evicted :
  let '(cache, written) := put_batches [batch "one"; batch "two"] 7 5 ∅ in
  written = Ok 2 ∧ size cache = 1%nat.
Proof. vm_compute. by split. Qed.

Definition outdated : WorkDb := with_metadata empty_db (<["schema_version" := "999"]> ∅).
Definition recreated : WorkDb := with_metadata empty_db
  (<["database_instance_id" := "instance"]> (<["schema_version" := WORK_SCHEMA_VERSION]> ∅)).

Lemma open_binds_instance_witness :
  open "instance" outdated = (recreated, Ok tt)
  ∧ wd_metadata recreated !! "database_instance_id" = Some "instance".
Proof.
  assert (open "instance" outdated = (recreated, Ok tt)) as E by reflexivity.
  split; [exact E|]. exact (proj1 (proj2 (open_binds_instance "instance" outdated recreated E))).
Defined.
End Example_work.
