(* ===== verification/EventDelivery.v ===== *)
(** * Event deliveries between repositories
    ([crates/code-system-graph-core/src/event_graph.rs])

    Publishing and subscribing edges that meet at an event channel are joined
    into deliveries from one repository to another: [project_event_deliveries]
    and its bounded form. Observations are first merged per repository and
    channel, and the join is done on the merged observations. The cooperative
    cancellation is a function of the number of times that it was asked. *)
From stdpp Require Import base gmap sets list strings sorting.
From S2P Require Import Prelude RustOrd RustFloat RustStr Model.

Definition EVENT_DELIVERY_EVIDENCE_LIMIT : nat := 16.

Record EventObservationAggregate := {
  oa_status : EpistemicStatus;
  oa_confidence : f32;
  oa_evidence : gset EvidenceId;
  oa_evidence_truncated : bool;
}.

Notation ByRepository := (gmap RepoId EventObservationAggregate).
Notation EventObservationsByChannel := (gmap NodeId (gmap RepoId EventObservationAggregate)).
Notation EventChannels := (gmap NodeId (string * bool)).

Record EventDeliveryProjection := {
  dp_channel_id : NodeId;
  dp_channel_label : string;
  dp_namespace_known : bool;
  dp_publisher_repository : RepoId;
  dp_subscriber_repository : RepoId;
  dp_status : EpistemicStatus;
  dp_confidence : f32;
  dp_evidence : list EvidenceId;
  dp_evidence_truncated : bool;
}.

Record EventDeliveryProjectionReport := {
  dr_deliveries : list EventDeliveryProjection;
  dr_total : N;
  dr_truncated : bool;
  dr_cancelled : bool;
}.

(** ** Channels and observations *)
Definition event_channel_has_namespace (node : Node) : bool :=
  match strip_prefix "event:" (node_stable_key node) with
  | None => false
  | Some identity =>
      match split_once ":" identity with
      | None => false
      | Some (_, identity) =>
          match split_once ":" identity with
          | None => false
          | Some (namespace, _) => negb (String.eqb namespace "")
          end
      end
  end.

Definition severity (status : EpistemicStatus) : nat :=
  match status with Confirmed => 0 | Inferred => 1 | Ambiguous => 2 | Stale => 3 | Incomplete => 4 end.

Definition conservative_status (left right : EpistemicStatus) : EpistemicStatus :=
  if (severity right <=? severity left)%nat then left else right.

Definition event_channels (nodes : list Node) : EventChannels :=
  btree_collect (map (λ node, (node_id node, (node_label node, event_channel_has_namespace node)))
    (List.filter (λ node, bool_decide (node_kind node = NK_EventChannel)) nodes)).

(** [BTreeSet::pop_last] *)
Definition pop_last (s : gset EvidenceId) : gset EvidenceId :=
  match last (bset_elements s) with Some greatest => s ∖ {[greatest]} | None => s end.

Definition insert_evidence (aggregate : EventObservationAggregate) (evidence : EvidenceId) : EventObservationAggregate :=
  let inserted := {[evidence]} ∪ oa_evidence aggregate in
  if (EVENT_DELIVERY_EVIDENCE_LIMIT <? size inserted)%nat then
    {| oa_status := oa_status aggregate; oa_confidence := oa_confidence aggregate;
       oa_evidence := pop_last inserted; oa_evidence_truncated := true |}
  else
    {| oa_status := oa_status aggregate; oa_confidence := oa_confidence aggregate;
       oa_evidence := inserted; oa_evidence_truncated := oa_evidence_truncated aggregate |}.

Definition new_aggregate (edge : Edge) : EventObservationAggregate :=
  {| oa_status := edge_status edge; oa_confidence := edge_confidence edge;
     oa_evidence := ∅; oa_evidence_truncated := false |}.

Definition absorb (aggregate : EventObservationAggregate) (edge : Edge) : EventObservationAggregate :=
  foldl insert_evidence
    {| oa_status := conservative_status (oa_status aggregate) (edge_status edge);
       oa_confidence := f_min (oa_confidence aggregate) (edge_confidence edge);
       oa_evidence := oa_evidence aggregate;
       oa_evidence_truncated := oa_evidence_truncated aggregate |} (edge_evidence edge).

Definition observe (observations : EventObservationsByChannel) (repository : RepoId) (edge : Edge) : EventObservationsByChannel :=
  let repositories := default ∅ (observations !! edge_target edge) in
  let aggregate := default (new_aggregate edge) (repositories !! repository) in
  <[edge_target edge := <[repository := absorb aggregate edge]> repositories]> observations.

Section projection.
Context (cancelled : nat → bool).

(** The loop of [aggregate_event_observations]; [asked] counts the calls of [cancelled]. *)
Fixpoint aggregate_event_observations (edges : list Edge) (owners : gmap NodeId RepoId) (channels : EventChannels)
    (publishers subscribers : EventObservationsByChannel) (asked : nat)
    : option (EventObservationsByChannel * EventObservationsByChannel * nat) :=
  match edges with
  | [] => Some (publishers, subscribers, asked)
  | edge :: edges =>
      if cancelled asked then None else
      let continue publishers subscribers :=
        aggregate_event_observations edges owners channels publishers subscribers (S asked) in
      match owners !! edge_source edge with
      | None => continue publishers subscribers
      | Some repository =>
          match edge_kind edge with
          | Publishes =>
              if contains_key channels (edge_target edge) then continue (observe publishers repository edge) subscribers
              else continue publishers subscribers
          | Subscribes =>
              if contains_key channels (edge_target edge) then continue publishers (observe subscribers repository edge)
              else continue publishers subscribers
          | _ => continue publishers subscribers
          end
      end
  end.

Definition saturating_mul (a b : N) : N := N.min (a * b) usize_max.

Definition join_total (publishers subscribers : EventObservationsByChannel) : N :=
  foldl saturating_add 0%N
    (omap (λ entry : NodeId * ByRepository,
             (λ subscribed : ByRepository, saturating_mul (N.of_nat (size entry.2)) (N.of_nat (size subscribed)))
               <$> subscribers !! entry.1)
          (btree_entries publishers)).

(** The evidence of a delivery: pushed while it is new, until one more than the
    limit has been collected. *)
Fixpoint collect_evidence (evidence items : list EvidenceId) : list EvidenceId :=
  match items with
  | [] => evidence
  | item :: items =>
      let evidence := if bool_decide (item ∈ evidence) then evidence else evidence ++ [item] in
      if (EVENT_DELIVERY_EVIDENCE_LIMIT <? length evidence)%nat then evidence else collect_evidence evidence items
  end.

Definition evidence_chain (publisher subscriber : EventObservationAggregate) : list EvidenceId :=
  option_list (head (bset_elements (oa_evidence publisher))) ++
  option_list (head (bset_elements (oa_evidence subscriber))) ++
  bset_elements (oa_evidence publisher ∪ oa_evidence subscriber).

Definition f32_half : f32 := Eval vm_compute in f32_lit 1 (-1).

Definition delivery (channels : EventChannels) (channel_id : NodeId) (publisher subscriber : RepoId * EventObservationAggregate)
    : EventDeliveryProjection :=
  let '(channel_label, has_namespace) := default ("", false) (channels !! channel_id) in
  let evidence := collect_evidence [] (evidence_chain publisher.2 subscriber.2) in
  let observed_status := conservative_status (oa_status publisher.2) (oa_status subscriber.2) in
  let confidence := f_min (oa_confidence publisher.2) (oa_confidence subscriber.2) in
  {| dp_channel_id := channel_id;
     dp_channel_label := channel_label;
     dp_namespace_known := has_namespace;
     dp_publisher_repository := publisher.1;
     dp_subscriber_repository := subscriber.1;
     dp_status := if has_namespace then observed_status else conservative_status observed_status Ambiguous;
     dp_confidence := if has_namespace then confidence else f_min confidence f32_half;
     dp_evidence := take EVENT_DELIVERY_EVIDENCE_LIMIT evidence;
     dp_evidence_truncated := oa_evidence_truncated publisher.2 || oa_evidence_truncated subscriber.2 ||
       (EVENT_DELIVERY_EVIDENCE_LIMIT <? length evidence)%nat |}.

(** One turn of the innermost loop; an early return is the error of the fold. *)
Definition join_pair (channels : EventChannels) (limit total : N) (channel_id : NodeId)
    (publisher : RepoId * EventObservationAggregate) (state : list EventDeliveryProjection * nat)
    (subscriber : RepoId * EventObservationAggregate)
    : result EventDeliveryProjectionReport (list EventDeliveryProjection * nat) :=
  let '(deliveries, asked) := state in
  if cancelled asked then
    Err {| dr_deliveries := deliveries; dr_total := total; dr_truncated := true; dr_cancelled := true |}
  else if (len deliveries =? limit)%N then
    Err {| dr_deliveries := deliveries; dr_total := total; dr_truncated := true; dr_cancelled := false |}
  else Ok (deliveries ++ [delivery channels channel_id publisher subscriber], S asked).

Definition join_channel (subscribers : EventObservationsByChannel) (channels : EventChannels) (limit total : N)
    (state : list EventDeliveryProjection * nat) (entry : NodeId * ByRepository)
    : result EventDeliveryProjectionReport (list EventDeliveryProjection * nat) :=
  match subscribers !! entry.1 with
  | None => Ok state
  | Some subscribed =>
      try_fold (λ state publisher,
        try_fold (join_pair channels limit total entry.1 publisher) state (btree_entries subscribed))
        state (btree_entries entry.2)
  end.

Definition join_event_observations (publishers subscribers : EventObservationsByChannel) (channels : EventChannels)
    (limit : N) (asked : nat) : EventDeliveryProjectionReport :=
  let total := join_total publishers subscribers in
  match try_fold (join_channel subscribers channels limit total) ([], asked) (btree_entries publishers) with
  | Err report => report
  | Ok (deliveries, _) =>
      {| dr_deliveries := deliveries; dr_total := total;
         dr_truncated := (len deliveries <? total)%N; dr_cancelled := false |}
  end.

Definition project_event_deliveries_bounded (nodes : list Node) (edges : list Edge) (owners : gmap NodeId RepoId)
    (limit : N) : EventDeliveryProjectionReport :=
  let channels := event_channels nodes in
  match aggregate_event_observations edges owners channels ∅ ∅ 0 with
  | None => {| dr_deliveries := []; dr_total := 0; dr_truncated := false; dr_cancelled := true |}
  | Some (publishers, subscribers, asked) => join_event_observations publishers subscribers channels limit asked
  end.
End projection.

Definition project_event_deliveries (nodes : list Node) (edges : list Edge) (owners : gmap NodeId RepoId)
    : list EventDeliveryProjection :=
  dr_deliveries (project_event_deliveries_bounded (λ _, false) nodes edges owners usize_max).

(** ** What a merged observation says *)

(** [aggregate] summarises the observations [edges] of one repository on one channel. *)
Definition evidence_of (edges : list Edge) : gset EvidenceId := list_to_set (concat (map edge_evidence edges)).

Definition least_confidence (confidences : list f32) (confidence : f32) : Prop :=
  Forall (λ c, f_is_nan c = false) confidences →
  confidence ∈ confidences ∧ ∀ c, c ∈ confidences → f_le confidence c = true.

Record kept_evidence (all kept : gset EvidenceId) (truncated : bool) : Prop := {
  kept_subset : kept ⊆ all;
  kept_size : (size kept ≤ EVENT_DELIVERY_EVIDENCE_LIMIT)%nat;
  kept_complete : truncated = false → kept = all;
  kept_truncated : truncated = true → size kept = EVENT_DELIVERY_EVIDENCE_LIMIT ∧ (EVENT_DELIVERY_EVIDENCE_LIMIT < size all)%nat;
}.

Record summarises (edges : list Edge) (aggregate : EventObservationAggregate) : Prop := {
  sum_observed : edges ≠ [];
  sum_status : oa_status aggregate ∈ map edge_status edges;
  sum_severity : ∀ edge, edge ∈ edges → (severity (edge_status edge) ≤ severity (oa_status aggregate))%nat;
  sum_confidence : least_confidence (map edge_confidence edges) (oa_confidence aggregate);
  sum_evidence : kept_evidence (evidence_of edges) (oa_evidence aggregate) (oa_evidence_truncated aggregate);
}.

Lemma severity_inj x y : severity x = severity y → x = y.
Proof. by destruct x, y. Qed.

Lemma conservative_status_max x y :
  severity (conservative_status x y) = Nat.max (severity x) (severity y) ∧
  (conservative_status x y = x ∨ conservative_status x y = y).
Proof. destruct x, y; simpl; auto. Qed.

Lemma f_min_either x y : f_min x y = x ∨ f_min x y = y.
Proof. unfold f_min. repeat case_match; auto. Qed.

Lemma least_confidence_app l k x y :
  least_confidence l x → least_confidence k y → least_confidence (l ++ k) (f_min x y).
Proof.
  intros Hl Hk [Hl' Hk']%Forall_app. destruct (Hl Hl') as [Hx Hxl], (Hk Hk') as [Hy Hyk].
  rewrite Forall_forall in Hl', Hk'. destruct (f_min_le x y (Hl' _ Hx) (Hk' _ Hy)) as [Hmx Hmy]. split.
  - destruct (f_min_either x y) as [->| ->]; set_solver.
  - intros c [Hc|Hc]%elem_of_app; [eapply f_le_trans; [exact Hmx|auto]|eapply f_le_trans; [exact Hmy|auto]].
Qed.

Lemma least_confidence_one x : least_confidence [x] x.
Proof.
  intros Hx. apply Forall_cons in Hx as [Hx _]. split; [by left|]. intros c ->%list_elem_of_singleton.
  apply f_le_refl. exact Hx.
Qed.

Lemma pop_last_spec s : s ≠ ∅ → ∃ x, x ∈ s ∧ pop_last s = s ∖ {[x]}.
Proof.
  intros Hs. unfold pop_last. destruct (last (bset_elements s)) as [x|] eqn:E.
  - exists x. split; [|done]. apply last_Some in E as [l E]. rewrite <-bset_elements_elem_of, E. set_solver.
  - apply last_None in E. exfalso. apply Hs. apply elem_of_equiv_empty_L. intros x Hx.
    rewrite <-bset_elements_elem_of, E in Hx. by apply not_elem_of_nil in Hx.
Qed.

Lemma insert_evidence_kept all aggregate evidence :
  kept_evidence all (oa_evidence aggregate) (oa_evidence_truncated aggregate) →
  kept_evidence ({[evidence]} ∪ all) (oa_evidence (insert_evidence aggregate evidence))
    (oa_evidence_truncated (insert_evidence aggregate evidence)).
Proof.
  intros [Hsub Hsize Hcomplete Htrunc]. unfold insert_evidence. set (s := {[evidence]} ∪ oa_evidence aggregate).
  assert (Hs : s ⊆ {[evidence]} ∪ all) by set_solver.
  assert (Hle : (size s ≤ S (size (oa_evidence aggregate)))%nat).
  { unfold s. rewrite size_union_alt, size_singleton.
    assert (size (oa_evidence aggregate ∖ {[evidence]}) ≤ size (oa_evidence aggregate))%nat by (apply subseteq_size; set_solver).
    lia. }
  pose proof (subseteq_size s _ Hs) as Hall.
  destruct (EVENT_DELIVERY_EVIDENCE_LIMIT <? size s)%nat eqn:E; simpl.
  - apply Nat.ltb_lt in E. destruct (pop_last_spec s) as (x & Hx & ->).
    { intros ->. rewrite size_empty in E. lia. }
    assert (size (s ∖ {[x]}) = EVENT_DELIVERY_EVIDENCE_LIMIT) as Hpop.
    { rewrite size_difference, size_singleton by set_solver. lia. }
    constructor; [set_solver|lia|done|]. intros _. split; [done|lia].
  - apply Nat.ltb_ge in E. constructor; [done|done| |].
    + intros H%Hcomplete. unfold s. by rewrite H.
    + intros H. apply Htrunc in H as [H1 H2]. split.
      * pose proof (subseteq_size (oa_evidence aggregate) s) as H. unfold s in H at 1.
        specialize (H ltac:(set_solver)). lia.
      * pose proof (subseteq_size all ({[evidence]} ∪ all)) as H. specialize (H ltac:(set_solver)). lia.
Qed.

Lemma fold_evidence_kept all aggregate l :
  kept_evidence all (oa_evidence aggregate) (oa_evidence_truncated aggregate) →
  kept_evidence (all ∪ list_to_set l) (oa_evidence (foldl insert_evidence aggregate l))
    (oa_evidence_truncated (foldl insert_evidence aggregate l)).
Proof.
  revert all aggregate. induction l as [|x l IH]; intros all aggregate H; simpl.
  - by rewrite (right_id_L ∅ (∪)).
  - rewrite (assoc_L (∪)), (comm_L (∪) all). by apply IH, insert_evidence_kept.
Qed.

Lemma fold_evidence_rest aggregate l :
  oa_status (foldl insert_evidence aggregate l) = oa_status aggregate ∧
  oa_confidence (foldl insert_evidence aggregate l) = oa_confidence aggregate.
Proof.
  revert aggregate. induction l as [|x l IH]; intros aggregate; simpl; [done|].
  destruct (IH (insert_evidence aggregate x)) as [-> ->]. unfold insert_evidence. by case_match.
Qed.

Lemma evidence_of_snoc l e : evidence_of (l ++ [e]) = evidence_of l ∪ list_to_set (edge_evidence e).
Proof. unfold evidence_of. by rewrite map_app, concat_app, list_to_set_app_L; simpl; rewrite app_nil_r. Qed.

Lemma absorb_summary l aggregate e :
  summarises l aggregate → summarises (l ++ [e]) (absorb aggregate e).
Proof.
  intros [Hl Hst Hsev Hconf Hev]. unfold absorb.
  set (a := {| oa_status := _; oa_confidence := _; oa_evidence := _; oa_evidence_truncated := _ |}).
  destruct (fold_evidence_rest a (edge_evidence e)) as [E1 E2].
  destruct (conservative_status_max (oa_status aggregate) (edge_status e)) as [Hmax Hor].
  constructor; rewrite ?E1, ?E2; simpl.
  - by destruct l.
  - rewrite map_app. destruct Hor as [->| ->]; set_solver.
  - intros e' [He| ->%list_elem_of_singleton]%elem_of_app; rewrite Hmax; [|lia]. specialize (Hsev _ He). lia.
  - rewrite map_app. apply least_confidence_app; [done|]. apply least_confidence_one.
  - rewrite evidence_of_snoc. by apply fold_evidence_kept.
Qed.

Lemma new_summary e : summarises [e] (absorb (new_aggregate e) e).
Proof.
  unfold absorb, new_aggregate; simpl.
  set (a := {| oa_status := _; oa_confidence := _; oa_evidence := _; oa_evidence_truncated := _ |}).
  destruct (fold_evidence_rest a (edge_evidence e)) as [E1 E2].
  destruct (conservative_status_max (edge_status e) (edge_status e)) as [Hmax Hor].
  constructor; rewrite ?E1, ?E2; simpl.
  - done.
  - destruct Hor as [->| ->]; set_solver.
  - intros e' ->%list_elem_of_singleton. rewrite Hmax. lia.
  - destruct (f_min_either (edge_confidence e) (edge_confidence e)) as [->| ->]; apply least_confidence_one.
  - replace (evidence_of [e]) with (∅ ∪ list_to_set (edge_evidence e) : gset EvidenceId).
    + apply fold_evidence_kept. simpl. constructor; [done| |done|done]. rewrite size_empty. unfold EVENT_DELIVERY_EVIDENCE_LIMIT. lia.
    + unfold evidence_of. simpl. by rewrite app_nil_r, (left_id_L ∅ (∪)).
Qed.

(** ** The merged observations of all edges *)
Section observations.
Context (owners : gmap NodeId RepoId) (channels : EventChannels).

(** Does [edge] observe [kind] by [repository] on [channel]? *)
Definition contributes (kind : EdgeKind) (channel : NodeId) (repository : RepoId) (edge : Edge) : bool :=
  bool_decide (edge_kind edge = kind ∧ edge_target edge = channel ∧ owners !! edge_source edge = Some repository ∧
    is_Some (channels !! channel)).

Definition contributions (kind : EdgeKind) (channel : NodeId) (repository : RepoId) (edges : list Edge) : list Edge :=
  List.filter (contributes kind channel repository) edges.

(** [observations] merges exactly the observations of [kind] among [edges]. *)
Record merges (kind : EdgeKind) (edges : list Edge) (observations : EventObservationsByChannel) : Prop := {
  merged_some : ∀ channel repositories, observations !! channel = Some repositories → repositories ≠ ∅;
  merged_found : ∀ channel repositories repository aggregate,
    observations !! channel = Some repositories → repositories !! repository = Some aggregate →
    summarises (contributions kind channel repository edges) aggregate;
  merged_missing : ∀ channel repository, contributions kind channel repository edges ≠ [] →
    ∃ repositories, observations !! channel = Some repositories ∧ is_Some (repositories !! repository);
}.

Lemma contributions_snoc kind channel repository edges e :
  contributions kind channel repository (edges ++ [e]) =
  contributions kind channel repository edges ++ (if contributes kind channel repository e then [e] else []).
Proof. unfold contributions. by rewrite List.filter_app. Qed.

Lemma merges_elsewhere kind edges observations e :
  (∀ channel repository, contributes kind channel repository e = false) →
  merges kind edges observations → merges kind (edges ++ [e]) observations.
Proof.
  intros He [Hsome Hfound Hmissing].
  assert (Heq : ∀ channel repository, contributions kind channel repository (edges ++ [e]) = contributions kind channel repository edges).
  { intros. by rewrite contributions_snoc, He, app_nil_r. }
  constructor; [done| |].
  - intros. rewrite Heq. eauto.
  - intros channel repository. rewrite Heq. apply Hmissing.
Qed.

Lemma merges_observe kind edges observations e repository :
  edge_kind e = kind → owners !! edge_source e = Some repository → is_Some (channels !! edge_target e) →
  merges kind edges observations → merges kind (edges ++ [e]) (observe observations repository e).
Proof.
  intros Hkind Hown Hch [Hsome Hfound Hmissing].
  assert (Hc : ∀ channel r, contributes kind channel r e = bool_decide (channel = edge_target e ∧ r = repository)).
  { intros channel r. apply bool_decide_ext. rewrite Hkind, Hown. split; [naive_solver|].
    intros [-> ->]. done. }
  unfold observe. constructor.
  - intros channel repositories. rewrite lookup_insert. case_decide; [|by apply Hsome].
    intros [= <-]. apply insert_non_empty.
  - intros channel repositories r aggregate. rewrite contributions_snoc, Hc, lookup_insert.
    destruct (decide (edge_target e = channel)) as [<-|Hne].
    + intros [= <-]. rewrite lookup_insert. destruct (decide (repository = r)) as [<-|Hr].
      * intros [= <-]. rewrite bool_decide_eq_true_2 by done.
        destruct (observations !! edge_target e) as [rs|] eqn:E; simpl.
        -- destruct (rs !! repository) as [a|] eqn:E2; simpl.
           ++ apply absorb_summary. by eapply Hfound.
           ++ destruct (contributions kind (edge_target e) repository edges) eqn:E3; [apply new_summary|].
              destruct (Hmissing (edge_target e) repository) as (rs' & Hrs & [a Ha]); [by rewrite E3|]. congruence.
        -- rewrite lookup_empty. simpl.
           destruct (contributions kind (edge_target e) repository edges) eqn:E3; [apply new_summary|].
           destruct (Hmissing (edge_target e) repository) as (rs' & Hrs & [a Ha]); [by rewrite E3|]. congruence.
      * rewrite bool_decide_eq_false_2 by naive_solver. rewrite app_nil_r. intros Ha.
        destruct (observations !! edge_target e) as [rs|] eqn:E; simpl in Ha; [by eapply Hfound|]. by rewrite lookup_empty in Ha.
    + intros Ho Ha. rewrite bool_decide_eq_false_2 by naive_solver. rewrite app_nil_r. by eapply Hfound.
  - intros channel r. rewrite contributions_snoc, Hc, lookup_insert.
    destruct (decide (edge_target e = channel)) as [<-|Hne].
    + intros Hn. eexists. split; [done|]. rewrite lookup_insert. destruct (decide (repository = r)) as [<-|Hr]; [eauto|].
      rewrite bool_decide_eq_false_2, app_nil_r in Hn by naive_solver.
      destruct (Hmissing _ _ Hn) as (rs & -> & Hrs). done.
    + rewrite bool_decide_eq_false_2, app_nil_r by naive_solver. apply Hmissing.
Qed.

Lemma merges_empty kind : merges kind [] ∅.
Proof. constructor; [by intros ??; rewrite lookup_empty..|by intros ??[]]. Qed.
End observations.

Lemma contributes_kind owners channels kind channel repository e :
  edge_kind e ≠ kind → contributes owners channels kind channel repository e = false.
Proof. intros He. apply bool_decide_eq_false_2. naive_solver. Qed.

Lemma contributes_owner owners channels kind channel repository e :
  owners !! edge_source e = None → contributes owners channels kind channel repository e = false.
Proof. intros He. apply bool_decide_eq_false_2. rewrite He. naive_solver. Qed.

Lemma contributes_channel owners channels kind channel repository e :
  contains_key channels (edge_target e) = false → contributes owners channels kind channel repository e = false.
Proof. intros He%contains_key_false. apply bool_decide_eq_false_2. intros (_ & <- & _ & [? ?]). congruence. Qed.

Section aggregation.
Context (cancelled : nat → bool) (owners : gmap NodeId RepoId) (channels : EventChannels).
Notation merges := (merges owners channels).
Notation aggregate := (aggregate_event_observations cancelled).

Lemma aggregate_step before e edges publishers subscribers result :
  merges Publishes before publishers → merges Subscribes before subscribers →
  cancelled (length before) = false →
  aggregate (e :: edges) owners channels publishers subscribers (length before) = result →
  ∃ publishers' subscribers',
    merges Publishes (before ++ [e]) publishers' ∧ merges Subscribes (before ++ [e]) subscribers' ∧
    aggregate edges owners channels publishers' subscribers' (length (before ++ [e])) = result.
Proof.
  intros Hp Hs Hc. simpl. rewrite Hc, length_app, Nat.add_1_r. intros Hrun.
  destruct (owners !! edge_source e) as [repository|] eqn:Ho.
  2:{ exists publishers, subscribers. split_and!; [apply merges_elsewhere..|done]; auto using contributes_owner. }
  destruct (contains_key channels (edge_target e)) eqn:Ek.
  2:{ exists publishers, subscribers. split_and!; [apply merges_elsewhere..|by destruct (edge_kind e)]; auto using contributes_channel. }
  pose proof Ek as Hk. apply contains_key_true in Hk.
  destruct (decide (edge_kind e = Publishes)) as [Hkind|Hkp].
  { rewrite Hkind in Hrun. exists (observe publishers repository e), subscribers. split_and!; [|apply merges_elsewhere|done]; [|..|done].
    - by apply merges_observe.
    - intros. apply contributes_kind. by rewrite Hkind. }
  destruct (decide (edge_kind e = Subscribes)) as [Hkind|Hks].
  { rewrite Hkind in Hrun. exists publishers, (observe subscribers repository e). split_and!; [apply merges_elsewhere|..|done]; [|done|].
    - intros. apply contributes_kind. by rewrite Hkind.
    - by apply merges_observe. }
  exists publishers, subscribers. split_and!; [apply merges_elsewhere..|by destruct (edge_kind e)]; auto using contributes_kind.
Qed.

Lemma aggregate_loop edges before publishers subscribers :
  merges Publishes before publishers → merges Subscribes before subscribers →
  match aggregate edges owners channels publishers subscribers (length before) with
  | Some (publishers', subscribers', asked) =>
      merges Publishes (before ++ edges) publishers' ∧ merges Subscribes (before ++ edges) subscribers' ∧
      asked = length (before ++ edges) ∧ ∀ i, (length before ≤ i < asked)%nat → cancelled i = false
  | None => ∃ i, (length before ≤ i < length (before ++ edges))%nat ∧ cancelled i = true
  end.
Proof.
  revert before publishers subscribers. induction edges as [|e edges IH]; intros before p s Hp Hs.
  { simpl. rewrite app_nil_r. split_and!; [done..|lia]. }
  destruct (cancelled (length before)) eqn:Hc.
  { simpl. rewrite Hc. exists (length before). rewrite length_app. simpl. split; [lia|done]. }
  destruct (aggregate_step before e edges p s _ Hp Hs Hc eq_refl) as (p' & s' & Hp' & Hs' & <-).
  specialize (IH (before ++ [e]) p' s' Hp' Hs'). rewrite <-app_assoc in IH. cbn [app] in IH.
  destruct (aggregate_event_observations _ _ _ _ _ _ _) as [[[p2 s2] n]|].
  - destruct IH as (H1 & H2 & H3 & H4). split_and!; [done..|]. intros i Hi. rewrite length_app in H4. simpl in H4.
    destruct (decide (i = length before)) as [->|]; [done|]. apply H4. lia.
  - destruct IH as (i & Hi & Ht). exists i. rewrite length_app in Hi. simpl in Hi. split; [lia|done].
Qed.

Lemma aggregate_spec edges :
  match aggregate edges owners channels ∅ ∅ 0 with
  | Some (publishers, subscribers, asked) =>
      merges Publishes edges publishers ∧ merges Subscribes edges subscribers ∧
      asked = length edges ∧ ∀ i, (i < length edges)%nat → cancelled i = false
  | None => ∃ i, (i < length edges)%nat ∧ cancelled i = true
  end.
Proof.
  pose proof (aggregate_loop edges [] ∅ ∅ (merges_empty _ _ _) (merges_empty _ _ _)) as H. simpl in H.
  destruct (aggregate_event_observations _ _ _ _ _ _ _) as [[[p s] n]|].
  - destruct H as (H1 & H2 & -> & H4). split_and!; [done..|]. intros i Hi. apply H4. lia.
  - destruct H as (i & Hi & Ht). exists i. split; [lia|done].
Qed.
End aggregation.

(** ** The join *)
(** The pairs of repositories that meet at a channel, in the order of the join. *)
Definition meeting (subscribers : EventObservationsByChannel) (entry : NodeId * ByRepository)
    : list ((RepoId * EventObservationAggregate) * (RepoId * EventObservationAggregate)) :=
  match subscribers !! entry.1 with
  | None => []
  | Some subscribed => concat (map (λ p, map (pair p) (btree_entries subscribed)) (btree_entries entry.2))
  end.

Definition pairings (publishers subscribers : EventObservationsByChannel) :=
  concat (map (λ entry, map (pair entry.1) (meeting subscribers entry)) (btree_entries publishers)).

Definition paired_delivery (channels : EventChannels)
    (pairing : NodeId * ((RepoId * EventObservationAggregate) * (RepoId * EventObservationAggregate))) : EventDeliveryProjection :=
  delivery channels pairing.1 pairing.2.1 pairing.2.2.

Lemma pairings_elem publishers subscribers channel p q :
  (channel, (p, q)) ∈ pairings publishers subscribers ↔
  ∃ published subscribed, publishers !! channel = Some published ∧ subscribers !! channel = Some subscribed ∧
    published !! p.1 = Some p.2 ∧ subscribed !! q.1 = Some q.2.
Proof.
  unfold pairings. rewrite list_elem_of_In, in_concat. split.
  - intros (l & ([c published] & <- & Hc)%in_map_iff & ([p' q'] & [= -> -> ->] & Hin)%in_map_iff).
    rewrite <-list_elem_of_In, btree_entries_elem_of in Hc. unfold meeting in Hin. simpl in Hin.
    destruct (subscribers !! channel) as [subscribed|]; [|done].
    apply in_concat in Hin as (l & ([r a] & <- & Hp)%in_map_iff & ([r' a'] & [= <- <-] & Hq)%in_map_iff).
    rewrite <-list_elem_of_In, btree_entries_elem_of in Hp, Hq. by exists published, subscribed.
  - intros (published & subscribed & Hp & Hs & Hpp & Hqq).
    exists (map (pair channel) (meeting subscribers (channel, published))). split.
    + apply (in_map (λ entry, map (pair entry.1) (meeting subscribers entry)) _ (channel, published)).
      by rewrite <-list_elem_of_In, btree_entries_elem_of.
    + apply in_map. unfold meeting. simpl. rewrite Hs. apply in_concat. exists (map (pair p) (btree_entries subscribed)).
      split; [apply (in_map (λ p, map (pair p) (btree_entries subscribed)))|apply in_map];
        rewrite <-list_elem_of_In; [destruct p|destruct q]; by rewrite btree_entries_elem_of.
Qed.

Definition dp_key (d : EventDeliveryProjection) : NodeId * (RepoId * RepoId) :=
  (dp_channel_id d, (dp_publisher_repository d, dp_subscriber_repository d)).

Lemma dp_key_delivery channels pairing :
  dp_key (paired_delivery channels pairing) = (pairing.1, (pairing.2.1.1, pairing.2.2.1)).
Proof. unfold paired_delivery, delivery. by destruct (default _ _). Qed.

Lemma meeting_keys subscribers entry :
  map (λ pq : (RepoId * EventObservationAggregate) * (RepoId * EventObservationAggregate), (pq.1.1, pq.2.1)) (meeting subscribers entry) =
  match subscribers !! entry.1 with
  | None => []
  | Some subscribed => concat (map (λ p, map (pair p.1) (btree_entries subscribed).*1) (btree_entries entry.2))
  end.
Proof.
  unfold meeting. destruct (subscribers !! entry.1) as [subscribed|]; [|done].
  rewrite concat_map, map_map. f_equal. apply map_ext. intros p. change (fst <$> ?l) with (map fst l).
  by rewrite !map_map.
Qed.

Lemma meeting_sorted subscribers entry :
  strictly_sorted (map (λ pq : (RepoId * EventObservationAggregate) * (RepoId * EventObservationAggregate), (pq.1.1, pq.2.1)) (meeting subscribers entry)).
Proof.
  rewrite meeting_keys. destruct (subscribers !! entry.1) as [subscribed|]; [|constructor].
  apply (strictly_sorted_groups fst (λ _, (btree_entries subscribed).*1)); [apply btree_entries_keys_strict|].
  intros _ _. apply btree_entries_keys_strict.
Qed.

Lemma pairings_sorted channels publishers subscribers :
  strictly_sorted (map dp_key (map (paired_delivery channels) (pairings publishers subscribers))).
Proof.
  rewrite map_map. erewrite map_ext; [|apply dp_key_delivery]. unfold pairings. rewrite concat_map, map_map.
  erewrite map_ext; [|intros entry; rewrite map_map; simpl; rewrite <-(map_map (λ pq, (pq.1.1, pq.2.1)) (pair entry.1)); reflexivity].
  apply (strictly_sorted_groups fst); [apply btree_entries_keys_strict|]. intros entry _. apply meeting_sorted.
Qed.

Section join.
Context (cancelled : nat → bool) (channels : EventChannels) (limit total : N).

Definition join_step (state : list EventDeliveryProjection * nat) pairing :=
  join_pair cancelled channels limit total pairing.1 pairing.2.1 state pairing.2.2.

Lemma join_flat subscribers state entries :
  try_fold (join_channel cancelled subscribers channels limit total) state entries =
  try_fold join_step state (concat (map (λ entry, map (pair entry.1) (meeting subscribers entry)) entries)).
Proof.
  rewrite <-try_fold_concat. apply try_fold_ext. intros s entry. rewrite try_fold_map.
  unfold join_channel, meeting. destruct (subscribers !! entry.1) as [subscribed|]; [|done].
  rewrite <-try_fold_concat. apply try_fold_ext. intros s' p. by rewrite try_fold_map.
Qed.

(** The join stops at the first turn where it is cancelled or full. *)
Definition stopped (deliveries : list EventDeliveryProjection) (asked : nat) l (report : EventDeliveryProjectionReport) : Prop :=
  ∃ k, (k < length l)%nat ∧ (∀ i, (i < k)%nat → cancelled (asked + i) = false) ∧
    report = {| dr_deliveries := deliveries ++ map (paired_delivery channels) (take k l); dr_total := total;
                dr_truncated := true; dr_cancelled := cancelled (asked + k) |} ∧
    (len deliveries + N.of_nat k ≤ limit)%N ∧
    (cancelled (asked + k) = false → (len deliveries + N.of_nat k = limit)%N).

Lemma join_loop l deliveries asked :
  (len deliveries ≤ limit)%N →
  match try_fold join_step (deliveries, asked) l with
  | Ok (deliveries', asked') =>
      deliveries' = deliveries ++ map (paired_delivery channels) l ∧ (len deliveries' ≤ limit)%N ∧
      ∀ i, (i < length l)%nat → cancelled (asked + i) = false
  | Err report => stopped deliveries asked l report
  end.
Proof.
  revert deliveries asked. induction l as [|x l IH]; intros deliveries asked Hlen; simpl.
  { rewrite app_nil_r. split_and!; [done..|lia]. }
  unfold join_step at 1, join_pair. destruct (cancelled asked) eqn:Hc.
  { simpl. exists 0%nat. rewrite Nat.add_0_r, Hc. simpl. rewrite app_nil_r. split_and!; [lia|lia|done|lia|done]. }
  destruct (len deliveries =? limit)%N eqn:Hl.
  { apply N.eqb_eq in Hl. simpl. exists 0%nat. rewrite Nat.add_0_r, Hc. simpl. rewrite app_nil_r. split_and!; [lia|lia|done|lia|lia]. }
  apply N.eqb_neq in Hl. simpl.
  assert (Hlen' : (len (deliveries ++ [delivery channels x.1 x.2.1 x.2.2]) ≤ limit)%N).
  { rewrite len_app, len_cons, len_nil. lia. }
  specialize (IH _ (S asked) Hlen'). destruct (try_fold _ _ _) as [[d n]|report].
  - destruct IH as (-> & Hd & Hi). split_and!; [by rewrite <-app_assoc|done|].
    intros [|i] Hlt; [by rewrite Nat.add_0_r|]. rewrite Nat.add_succ_r. apply (Hi i). lia.
  - destruct IH as (k & Hk & Hi & -> & Hn & Hf). exists (S k). rewrite len_app, len_cons, len_nil in Hn, Hf. simpl in Hn, Hf.
    rewrite Nat.add_succ_r. split_and!; [simpl; lia| |by rewrite <-app_assoc|lia|].
    + intros [|i] Hlt; [by rewrite Nat.add_0_r|]. rewrite Nat.add_succ_r. apply (Hi i). lia.
    + simpl. intros H%Hf. lia.
Qed.
End join.

(** ** The number of pairs *)
Lemma fold_saturating l n :
  (n ≤ usize_max)%N → Forall (λ x, x ≤ usize_max)%N l →
  foldl saturating_add n l = N.min (n + foldr N.add 0%N l) usize_max.
Proof.
  intros Hn Hl. revert n Hn. induction Hl as [|x l Hx Hl IH]; intros n Hn; simpl; [lia|].
  rewrite IH by (unfold saturating_add; lia). unfold saturating_add. lia.
Qed.

Lemma meeting_length subscribers entry :
  N.of_nat (length (meeting subscribers entry)) =
  match subscribers !! entry.1 with
  | None => 0%N
  | Some subscribed => (N.of_nat (size entry.2) * N.of_nat (size subscribed))%N
  end.
Proof.
  unfold meeting. destruct (subscribers !! entry.1) as [subscribed|]; [|done].
  assert (Hsize : ∀ m : ByRepository, length (btree_entries m) = size m).
  { intros m. by rewrite <-btree_values_length; unfold btree_values; rewrite length_map. }
  rewrite <-Hsize. rewrite <-(Hsize subscribed). induction (btree_entries entry.2) as [|p l IH]; simpl; [done|].
  rewrite length_app, length_map. lia.
Qed.

Lemma join_total_exact publishers subscribers :
  join_total publishers subscribers = N.min (len (pairings publishers subscribers)) usize_max.
Proof.
  unfold join_total, len, pairings.
  set (f := λ entry : NodeId * ByRepository, _).
  assert (Hf : ∀ l, Forall (λ x, x ≤ usize_max)%N (omap f l)).
  { intros l. apply Forall_forall. intros x (e & _ & He)%list_elem_of_omap. unfold f in He.
    destruct (subscribers !! e.1); [|done]. injection He as <-. unfold saturating_mul. lia. }
  induction (btree_entries publishers) as [|entry l IH]; [done|].
  rewrite fold_saturating in * by done || (unfold usize_max; lia). cbn [map concat]. rewrite length_app, length_map, Nat2N.inj_add, meeting_length.
  cbn [omap list_omap]. change (list_omap _ _ f l) with (omap f l). unfold f at 1.
  destruct (subscribers !! entry.1) as [subscribed|]; simpl; [|done]. unfold saturating_mul. lia.
Qed.

(** ** The evidence of a delivery *)
Notation limit16 := EVENT_DELIVERY_EVIDENCE_LIMIT (only parsing).

Record collected (acc items r : list EvidenceId) : Prop := {
  col_prefix : acc `prefix_of` r;
  col_distinct : NoDup r;
  col_from : ∀ x, x ∈ r → x ∈ acc ∨ x ∈ items;
  col_bound : (length r ≤ S limit16)%nat;
  col_all : (length r ≤ limit16)%nat → ∀ x, x ∈ items → x ∈ r;
}.

Lemma collect_evidence_spec items acc :
  NoDup acc → (length acc ≤ limit16)%nat → collected acc items (collect_evidence acc items).
Proof.
  revert acc. induction items as [|x items IH]; intros acc Hnd Hlen; simpl.
  { constructor; [done|done|by left|lia|]. intros _ x Hx. by apply not_elem_of_nil in Hx. }
  set (acc' := if bool_decide (x ∈ acc) then acc else acc ++ [x]).
  assert (Hacc : NoDup acc' ∧ acc `prefix_of` acc' ∧ (length acc' ≤ S (length acc))%nat ∧ x ∈ acc' ∧ (∀ y, y ∈ acc' → y ∈ acc ∨ y = x)).
  { unfold acc'. case_bool_decide; [split_and!; [done|done|lia|done|by left]|]. rewrite length_app. simpl.
    split_and!; [apply NoDup_app; split_and!; [done|set_solver|apply NoDup_singleton]|by apply prefix_app_r|lia|set_solver|set_solver]. }
  destruct Hacc as (Hnd' & Hpre & Hle & Hx & Hfrom).
  destruct (limit16 <? length acc')%nat eqn:E.
  - apply Nat.ltb_lt in E. constructor; [done|done|set_solver|lia|lia].
  - apply Nat.ltb_ge in E. destruct (IH acc' Hnd' E) as [H1 H2 H3 H4 H5].
    constructor; [by etrans|done| |done|].
    + intros y [Hy|Hy]%H3; [destruct (Hfrom y Hy); set_solver|set_solver].
    + intros Hr y [->|Hy]%elem_of_cons; [|auto]. destruct H1 as [k ->]. set_solver.
Qed.

(** The first items are kept even when the limit cuts the others off. *)
Lemma collect_evidence_early pre items acc :
  NoDup acc → (length acc + length pre ≤ limit16)%nat →
  ∀ x, x ∈ pre → x ∈ take limit16 (collect_evidence acc (pre ++ items)).
Proof.
  revert acc. induction pre as [|y pre IH]; intros acc Hnd Hlen x Hx; [by apply not_elem_of_nil in Hx|].
  simpl in *. set (acc' := if bool_decide (y ∈ acc) then acc else acc ++ [y]).
  assert (Hacc : NoDup acc' ∧ (length acc' ≤ S (length acc))%nat ∧ y ∈ acc').
  { unfold acc'. case_bool_decide; [split_and!; [done|lia|done]|]. rewrite length_app. simpl.
    split_and!; [apply NoDup_app; split_and!; [done|set_solver|apply NoDup_singleton]|lia|set_solver]. }
  destruct Hacc as (Hnd' & Hle & Hy).
  assert (limit16 <? length acc' = false)%nat as -> by (apply Nat.ltb_ge; lia).
  apply elem_of_cons in Hx as [->|Hx]; [|apply IH; [done|lia|done]].
  destruct (collect_evidence_spec (pre ++ items) acc' Hnd' ltac:(lia)) as [[k ->] _ _ _ _].
  rewrite take_app_ge by lia. set_solver.
Qed.

(** What a delivery says of the evidence [published] and [subscribed]. *)
Record supported (published subscribed : gset EvidenceId) (evidence : list EvidenceId) (truncated : bool) : Prop := {
  sup_distinct : NoDup evidence;
  sup_from : ∀ x, x ∈ evidence → x ∈ published ∪ subscribed;
  sup_length : length evidence = Nat.min limit16 (size (published ∪ subscribed));
  sup_truncated : truncated = (limit16 <? size (published ∪ subscribed))%nat;
  sup_published : published ≠ ∅ → ∃ x, x ∈ evidence ∧ x ∈ published;
  sup_subscribed : subscribed ≠ ∅ → ∃ x, x ∈ evidence ∧ x ∈ subscribed;
}.

Lemma kept_first all kept truncated :
  kept_evidence all kept truncated → all ≠ ∅ →
  ∃ x, x ∈ all ∧ x ∈ option_list (head (bset_elements kept)).
Proof.
  intros [Hsub _ Hcomplete Htrunc] Hne. destruct (bset_elements kept) as [|x l] eqn:E; simpl.
  - assert (kept = ∅) as ->.
    { apply elem_of_equiv_empty_L. intros x Hx. rewrite <-bset_elements_elem_of, E in Hx. by apply not_elem_of_nil in Hx. }
    destruct truncated; [|by destruct Hne; rewrite Hcomplete]. destruct (Htrunc eq_refl) as [H _]. by rewrite size_empty in H.
  - exists x. split; [|by left]. apply Hsub. rewrite <-bset_elements_elem_of, E. by left.
Qed.

Lemma head_list_length {A} (l : list A) : (length (option_list (head l)) ≤ 1)%nat.
Proof. destruct l; simpl; lia. Qed.

Lemma head_list_elem {A} (l : list A) x : x ∈ option_list (head l) → x ∈ l.
Proof. destruct l; simpl; [done|]. intros ->%list_elem_of_singleton. by left. Qed.

Lemma evidence_chain_elem p s x : x ∈ evidence_chain p s ↔ x ∈ oa_evidence p ∪ oa_evidence s.
Proof.
  unfold evidence_chain. rewrite !elem_of_app, bset_elements_elem_of. split; [|by auto].
  intros [H%head_list_elem|[H%head_list_elem|H]]; rewrite ?bset_elements_elem_of in H; set_solver.
Qed.

Lemma delivery_evidence published subscribed p s :
  kept_evidence published (oa_evidence p) (oa_evidence_truncated p) →
  kept_evidence subscribed (oa_evidence s) (oa_evidence_truncated s) →
  let evidence := collect_evidence [] (evidence_chain p s) in
  supported published subscribed (take limit16 evidence)
    (oa_evidence_truncated p || oa_evidence_truncated s || (limit16 <? length evidence)%nat).
Proof.
  intros Hp Hs evidence.
  destruct (collect_evidence_spec (evidence_chain p s) [] ltac:(constructor) ltac:(simpl; lia)) as [_ Hnd Hfrom Hbound Hall].
  fold evidence in Hnd, Hfrom, Hbound, Hall.
  assert (Hearly : ∀ x, x ∈ option_list (head (bset_elements (oa_evidence p))) ++ option_list (head (bset_elements (oa_evidence s))) →
    x ∈ take limit16 evidence).
  { intros x Hx. unfold evidence, evidence_chain. rewrite (assoc_L (++)). apply collect_evidence_early; [constructor| |done].
    rewrite length_app. pose proof (head_list_length (bset_elements (oa_evidence p))).
    pose proof (head_list_length (bset_elements (oa_evidence s))). unfold limit16. simpl. lia. }
  assert (Hsub : ∀ x, x ∈ evidence → x ∈ oa_evidence p ∪ oa_evidence s).
  { intros x [H|H]%Hfrom; [by apply not_elem_of_nil in H|by apply evidence_chain_elem]. }
  assert (Hsize : size (list_to_set evidence : gset EvidenceId) = length evidence) by (by apply size_list_to_set).
  assert (Hin : (length evidence ≤ size (published ∪ subscribed))%nat).
  { rewrite <-Hsize. apply subseteq_size. intros x Hx%elem_of_list_to_set%Hsub. destruct Hp, Hs. set_solver. }
  assert (Hfull : (length evidence ≤ limit16)%nat → (size (oa_evidence p ∪ oa_evidence s) = length evidence)%nat).
  { intros H. rewrite <-Hsize. apply set_size_proper. intros x. rewrite elem_of_list_to_set. split; [|apply Hsub].
    intros Hx. apply Hall; [done|]. by apply evidence_chain_elem. }
  assert (Hkept : (size (oa_evidence p) ≤ size (oa_evidence p ∪ oa_evidence s))%nat ∧ (size (oa_evidence s) ≤ size (oa_evidence p ∪ oa_evidence s))%nat
    ∧ (size published ≤ size (published ∪ subscribed))%nat ∧ (size subscribed ≤ size (published ∪ subscribed))%nat).
  { split_and!; apply subseteq_size; set_solver. }
  assert (Hcases : (limit16 < size (published ∪ subscribed))%nat ∧ (limit16 ≤ length evidence)%nat ∧
      (oa_evidence_truncated p || oa_evidence_truncated s || (limit16 <? length evidence)%nat) = true ∨
    size (published ∪ subscribed) = length evidence ∧ (length evidence ≤ limit16)%nat ∧
      (oa_evidence_truncated p || oa_evidence_truncated s || (limit16 <? length evidence)%nat) = false).
  { destruct (limit16 <? length evidence)%nat eqn:E.
    { apply Nat.ltb_lt in E. left. rewrite orb_true_r. split_and!; [lia|lia|done]. }
    apply Nat.ltb_ge in E. specialize (Hfull E).
    destruct (oa_evidence_truncated p) eqn:Etp; [destruct Hp as [_ _ _ [H1 H2]]; [done|]; left; split_and!; [lia|lia|done]|].
    destruct (oa_evidence_truncated s) eqn:Ets; [destruct Hs as [_ _ _ [H1 H2]]; [done|]; left; split_and!; [lia|lia|done]|].
    right. destruct Hp as [_ _ Hp _], Hs as [_ _ Hs _]. rewrite Hp, Hs in Hfull by done. split_and!; [lia|done|done]. }
  constructor.
  - eapply sublist_NoDup; [apply Hnd|apply sublist_take].
  - intros x Hx. apply elem_of_take in Hx as (i & Hx & _). apply list_elem_of_lookup_2, Hsub in Hx. destruct Hp, Hs. set_solver.
  - rewrite length_take. lia.
  - destruct Hcases as [(H1 & _ & ->)|(H1 & H2 & ->)]; symmetry; [by apply Nat.ltb_lt|apply Nat.ltb_ge; lia].
  - intros Hne. destruct (kept_first _ _ _ Hp Hne) as (x & Hx & Hh). exists x. split; [|done]. apply Hearly. set_solver.
  - intros Hne. destruct (kept_first _ _ _ Hs Hne) as (x & Hx & Hh). exists x. split; [|done]. apply Hearly. set_solver.
Qed.

(** ** What a delivery says *)
Section deliveries.
Context (nodes : list Node) (edges : list Edge) (owners : gmap NodeId RepoId).

Definition published_by (d : EventDeliveryProjection) : list Edge :=
  contributions owners (event_channels nodes) Publishes (dp_channel_id d) (dp_publisher_repository d) edges.
Definition subscribed_by (d : EventDeliveryProjection) : list Edge :=
  contributions owners (event_channels nodes) Subscribes (dp_channel_id d) (dp_subscriber_repository d) edges.

Record faithful (d : EventDeliveryProjection) : Prop := {
  fd_channel : ∃ node, node ∈ nodes ∧ node_kind node = NK_EventChannel ∧ node_id node = dp_channel_id d ∧
    node_label node = dp_channel_label d ∧ event_channel_has_namespace node = dp_namespace_known d;
  fd_status : dp_status d ∈ map edge_status (published_by d ++ subscribed_by d) ∨
    dp_namespace_known d = false ∧ dp_status d = Ambiguous;
  fd_severity : ∀ edge, edge ∈ published_by d ++ subscribed_by d → (severity (edge_status edge) ≤ severity (dp_status d))%nat;
  fd_ambiguous : dp_namespace_known d = false → (severity Ambiguous ≤ severity (dp_status d))%nat;
  fd_confidence : least_confidence (map edge_confidence (published_by d ++ subscribed_by d) ++
    (if dp_namespace_known d then [] else [f32_half])) (dp_confidence d);
  fd_evidence : supported (evidence_of (published_by d)) (evidence_of (subscribed_by d)) (dp_evidence d) (dp_evidence_truncated d);
}.

Lemma event_channels_lookup channel label known :
  event_channels nodes !! channel = Some (label, known) →
  ∃ node, node ∈ nodes ∧ node_kind node = NK_EventChannel ∧ node_id node = channel ∧ node_label node = label ∧
    event_channel_has_namespace node = known.
Proof.
  intros H%btree_collect_lookup_Some. apply list_elem_of_fmap in H as (node & [= -> -> ->] & Hn).
  apply list_filter_In in Hn as [Hn Hk%bool_decide_eq_true]. by exists node.
Qed.

Lemma delivery_faithful publishers subscribers pairing :
  merges owners (event_channels nodes) Publishes edges publishers →
  merges owners (event_channels nodes) Subscribes edges subscribers →
  pairing ∈ pairings publishers subscribers → faithful (paired_delivery (event_channels nodes) pairing).
Proof.
  destruct pairing as (channel & [r p] & [r' s]). intros Hpub Hsub Hin.
  apply pairings_elem in Hin as (published & subscribed & Hp & Hs & Hpp & Hss). simpl in Hpp, Hss.
  destruct (merged_found _ _ _ _ _ Hpub _ _ _ _ Hp Hpp) as [Hne Hst Hsev Hconf Hev].
  destruct (merged_found _ _ _ _ _ Hsub _ _ _ _ Hs Hss) as [Hne' Hst' Hsev' Hconf' Hev'].
  assert (Hch : ∃ label known, event_channels nodes !! channel = Some (label, known)).
  { destruct (contributions _ _ _ _ _ _) as [|e l] eqn:E; [done|].
    assert (He : e ∈ contributions owners (event_channels nodes) Publishes channel r edges) by (rewrite E; by left).
    apply list_filter_In in He as [_ He%bool_decide_eq_true]. destruct He as (_ & _ & _ & [[label known] H]). eauto. }
  destruct Hch as (label & known & Hch). unfold paired_delivery, delivery. simpl. rewrite Hch. simpl.
  destruct (conservative_status_max (oa_status p) (oa_status s)) as [Hmax Hor].
  destruct (conservative_status_max (conservative_status (oa_status p) (oa_status s)) Ambiguous) as [Hmax2 Hor2].
  constructor; unfold published_by, subscribed_by; simpl.
  - by apply event_channels_lookup.
  - rewrite map_app, elem_of_app. destruct known; [left; destruct Hor as [->| ->]; auto|].
    destruct Hor2 as [->| ->]; [left; destruct Hor as [->| ->]; auto|by right].
  - intros e [He%Hsev|He%Hsev']%elem_of_app; destruct known; lia.
  - intros ->. rewrite Hmax2. simpl. lia.
  - rewrite map_app. destruct known; [rewrite app_nil_r; by apply least_confidence_app|].
    apply least_confidence_app; [by apply least_confidence_app|apply least_confidence_one].
  - by apply delivery_evidence.
Qed.

(** The deliveries that there are, in the order of the report. *)
Record all_deliveries (all : list EventDeliveryProjection) : Prop := {
  ad_sorted : strictly_sorted (map dp_key all);
  ad_exact : ∀ channel publisher subscriber, (channel, (publisher, subscriber)) ∈ map dp_key all ↔
    contributions owners (event_channels nodes) Publishes channel publisher edges ≠ [] ∧
    contributions owners (event_channels nodes) Subscribes channel subscriber edges ≠ [];
  ad_faithful : ∀ d, d ∈ all → faithful d;
}.

Lemma pairings_all publishers subscribers :
  merges owners (event_channels nodes) Publishes edges publishers →
  merges owners (event_channels nodes) Subscribes edges subscribers →
  all_deliveries (map (paired_delivery (event_channels nodes)) (pairings publishers subscribers)).
Proof.
  intros Hpub Hsub. constructor.
  - apply pairings_sorted.
  - intros channel r r'. rewrite map_map, list_elem_of_In, in_map_iff. split.
    + intros ((c & [a p] & [b s]) & Hk & Hin). rewrite dp_key_delivery in Hk. injection Hk as -> -> ->.
      rewrite <-list_elem_of_In in Hin. apply pairings_elem in Hin as (published & subscribed & Hp & Hs & Hpp & Hss).
      split; [exact (sum_observed _ _ (merged_found _ _ _ _ _ Hpub _ _ _ _ Hp Hpp))|
              exact (sum_observed _ _ (merged_found _ _ _ _ _ Hsub _ _ _ _ Hs Hss))].
    + intros [Hp Hs]. destruct (merged_missing _ _ _ _ _ Hpub _ _ Hp) as (published & Hp1 & [p Hp2]).
      destruct (merged_missing _ _ _ _ _ Hsub _ _ Hs) as (subscribed & Hs1 & [s Hs2]).
      exists (channel, ((r, p), (r', s))). split; [apply dp_key_delivery|].
      rewrite <-list_elem_of_In, pairings_elem. by exists published, subscribed.
  - intros d (pairing & -> & Hin)%list_elem_of_fmap. by eapply delivery_faithful.
Qed.

(** Stopping early shows: a report that is neither cancelled nor truncated holds
    every delivery. *)
Record reports (all : list EventDeliveryProjection) (limit : N) (report : EventDeliveryProjectionReport) : Prop := {
  rp_prefix : dr_deliveries report = take (length (dr_deliveries report)) all;
  rp_limit : (len (dr_deliveries report) ≤ limit)%N;
  rp_total : dr_total report = N.min (len all) usize_max;
  rp_truncated : dr_truncated report = (len (dr_deliveries report) <? len all)%N;
  rp_full : dr_cancelled report = false → len (dr_deliveries report) = N.min limit (len all);
}.

Lemma joined_reports cancelled publishers subscribers limit asked :
  (limit ≤ usize_max)%N →
  let channels := event_channels nodes in
  let all := map (paired_delivery channels) (pairings publishers subscribers) in
  let report := join_event_observations cancelled publishers subscribers channels limit asked in
  reports all limit report ∧
  (dr_cancelled report = true ↔
    ∃ i, (i ≤ length (dr_deliveries report))%nat ∧ (i < length all)%nat ∧ cancelled (asked + i) = true).
Proof.
  intros Hlimit channels all report. unfold report, join_event_observations. rewrite join_flat. fold (pairings publishers subscribers).
  assert (Hall : len all = len (pairings publishers subscribers)) by (unfold len, all; by rewrite length_map).
  pose proof (join_loop cancelled channels limit (join_total publishers subscribers) (pairings publishers subscribers) [] asked) as H.
  specialize (H ltac:(rewrite len_nil; lia)). rewrite join_total_exact in *. rewrite <-Hall in *.
  destruct (try_fold _ _ _) as [[d n]|r].
  - simpl in H. destruct H as (-> & Hd & Hi). fold all in Hd |- *. split.
    + constructor; simpl; [by rewrite firstn_all|done|done| |intros _; lia].
      destruct (N.ltb_spec (len all) (N.min (len all) usize_max)); destruct (N.ltb_spec (len all) (len all)); lia.
    + simpl. split; [done|]. intros (i & _ & Hlt & Ht). unfold all in Hlt. rewrite length_map in Hlt. rewrite Hi in Ht by done. done.
  - destruct H as (k & Hk & Hi & -> & Hn & Hf). rewrite len_nil in Hn, Hf. simpl in Hn, Hf. simpl.
    assert (Hlen : length (map (paired_delivery channels) (take k (pairings publishers subscribers))) = k).
    { rewrite length_map, length_take. lia. }
    split.
    + constructor; simpl; unfold len in *; rewrite ?Hlen.
      * unfold all. change (map ?f (take k ?l)) with (f <$> take k l). by rewrite fmap_take.
      * lia.
      * done.
      * symmetry. apply N.ltb_lt. lia.
      * intros H%Hf. lia.
    + rewrite Hlen. split.
      * intros Ht. exists k. unfold all. rewrite length_map. done.
      * intros (i & Hle & Hlt & Ht). destruct (decide (i = k)) as [->|]; [done|]. rewrite Hi in Ht by lia. done.
Qed.
End deliveries.

(** C12: Projecting event deliveries: whatever the cancellation answers, either
    the scan of the edges was cancelled and nothing is reported, or the report
    is a prefix, within the limit, of all the deliveries that there are: one for
    each repository that publishes to a channel and each that subscribes to it,
    with the most conservative status, the least confidence and at most sixteen
    pieces of the evidence of both sides. The total is the number of deliveries,
    and stopping early is reported as truncation or cancellation. *)
Theorem deliveries_exact cancelled nodes edges owners limit :
  (limit ≤ usize_max)%N →
  let report := project_event_deliveries_bounded cancelled nodes edges owners limit in
  (∃ i, (i < length edges)%nat ∧ cancelled i = true) ∧
    report = {| dr_deliveries := []; dr_total := 0; dr_truncated := false; dr_cancelled := true |} ∨
  (∀ i, (i < length edges)%nat → cancelled i = false) ∧
  ∃ all, all_deliveries nodes edges owners all ∧ reports all limit report ∧
    (dr_cancelled report = true ↔
      ∃ i, (i ≤ length (dr_deliveries report))%nat ∧ (i < length all)%nat ∧ cancelled (length edges + i)%nat = true).
Proof.
  intros Hlimit report. unfold report, project_event_deliveries_bounded.
  pose proof (aggregate_spec cancelled owners (event_channels nodes) edges) as H.
  destruct (aggregate_event_observations _ _ _ _ _ _ _) as [[[p s] n]|]; [right|left; done].
  destruct H as (Hp & Hs & -> & Hi). split; [done|]. eexists. split; [by apply pairings_all|]. by apply joined_reports.
Qed.

Module Example_delivery.
Definition node (kind : NodeKind) (id key : string) : Node :=
  {| node_id := id; node_kind := kind; node_repo_id := None; node_stable_key := key; node_label := id |}.
Definition link (id source target : string) (kind : EdgeKind) (status : EpistemicStatus) (evidence : list string) : Edge :=
  {| edge_id := id; edge_source := source; edge_target := target; edge_kind := kind; edge_confidence := f32_one;
     edge_status := status; edge_evidence := evidence |}.
Definition nodes : list Node :=
  [node NK_EventChannel "orders" "event:Kafka:prod:orders"; node NK_EventChannel "bills" "event:Kafka::bills"; node NK_Repository "shop" "repository:shop"].
Definition edges : list Edge :=
  [link "e1" "shop/main" "orders" Publishes Confirmed ["ev2"; "ev1"];
   link "e2" "shop/jobs" "orders" Publishes Stale ["ev3"];
   link "e3" "ship/main" "orders" Subscribes Inferred ["ev4"];
   link "e4" "bill/main" "orders" Subscribes Confirmed ["ev5"];
   link "e5" "shop/main" "bills" Publishes Confirmed [];
   link "e6" "bill/main" "bills" Subscribes Confirmed ["ev1"];
   link "e7" "stranger" "bills" Subscribes Confirmed []].
Definition owners : gmap NodeId RepoId :=
  list_to_map [("shop/main", "shop"); ("shop/jobs", "shop"); ("ship/main", "ship"); ("bill/main", "bill")].
Definition shown (r : EventDeliveryProjectionReport) :=
  (map (λ d, (dp_key d, dp_status d, dp_evidence d)) (dr_deliveries r), dr_total r, dr_truncated r, dr_cancelled r).

Example projected :
  shown (project_event_deliveries_bounded (λ _, false) nodes edges owners usize_max) =
    ([(("bills", ("shop", "bill")), Ambiguous, ["ev1"]);
      (("orders", ("shop", "bill")), Stale, ["ev1"; "ev5"; "ev2"; "ev3"]);
      (("orders", ("shop", "ship")), Stale, ["ev1"; "ev4"; "ev2"; "ev3"])], 3%N, false, false) ∧
  shown (project_event_deliveries_bounded (λ _, false) nodes edges owners 1) =
    ([(("bills", ("shop", "bill")), Ambiguous, ["ev1"])], 3%N, true, false) ∧
  shown (project_event_deliveries_bounded (λ asked, (asked =? 8)%nat) nodes edges owners usize_max) =
    ([(("bills", ("shop", "bill")), Ambiguous, ["ev1"])], 3%N, true, true) ∧
  shown (project_event_deliveries_bounded (λ asked, (asked =? 3)%nat) nodes edges owners usize_max) = ([], 0%N, false, true).
Proof. vm_compute. done. Qed.

Example deliveries_exact_witness :
  (2 ≤ usize_max)%N ∧ ∃ all, all_deliveries nodes edges owners all ∧
    reports all 2 (project_event_deliveries_bounded (λ _, false) nodes edges owners 2).
Proof.
  split; [by vm_compute|].
  destruct (deliveries_exact (λ _, false) nodes edges owners 2 ltac:(by vm_compute)) as [[(i & _ & H) _]|(_ & all & H1 & H2 & _)].
  - discriminate H.
  - exists all. split; [exact H1|exact H2].
Defined.
End Example_delivery.
