(* ===== verification/GraphFacts.v ===== *)
(** * Facts that the graph builders push, and how they are finished

    The builders of [graphql_graph.rs], [protobuf_graph.rs], [event_graph.rs]
    and [package_graph.rs] push nodes, edges and evidence into vectors, and in
    the end sort each vector by identifier and keep the first of equal
    identifiers. The vectors are [GraphFacts]; [extend] pushes. *)
From stdpp Require Import base gmap sets list strings sorting pretty.
From Stdlib Require Import Ascii.
From S2P Require Import Prelude RustOrd RustFloat RustStr Model CanonicalText.

Record GraphFacts := {
  facts_nodes : list Node;
  facts_edges : list Edge;
  facts_evidence : list Evidence;
}.

Definition no_facts : GraphFacts := {| facts_nodes := []; facts_edges := []; facts_evidence := [] |}.

Definition extend (result pushed : GraphFacts) : GraphFacts :=
  {| facts_nodes := facts_nodes result ++ facts_nodes pushed;
     facts_edges := facts_edges result ++ facts_edges pushed;
     facts_evidence := facts_evidence result ++ facts_evidence pushed |}.

(** [values.sort_by(|l, r| l.id.cmp(&r.id)); values.dedup_by(|l, r| l.id == r.id);] *)
Definition keep_first {A} (id : A → string) (values : list A) : list A :=
  dedup_by (λ left right, String.eqb (id left) (id right)) (sort_by (cmp_on id cmp) values).

Definition finish (result : GraphFacts) : GraphFacts :=
  {| facts_nodes := keep_first node_id (facts_nodes result);
     facts_edges := keep_first edge_id (facts_edges result);
     facts_evidence := keep_first ev_id (facts_evidence result) |}.

(** One input: repository, source path, content hash and extracted document. *)
Record SourceDocument (A : Type) := {
  sd_repo_id : RepoId;
  sd_source_path : string;
  sd_content_hash : string;
  sd_document : A;
}.
Arguments sd_repo_id {A} _.
Arguments sd_source_path {A} _.
Arguments sd_content_hash {A} _.
Arguments sd_document {A} _.

Section builders.
Context `{Blake3}.

Definition stable_node (kind : NodeKind) (repo_id : option RepoId) (stable_key label : string) : Node :=
  {| node_id := stable_id "node" stable_key; node_kind := kind; node_repo_id := repo_id;
     node_stable_key := stable_key; node_label := label |}.

Definition repository_node (repo_id : RepoId) : Node :=
  stable_node NK_Repository (Some repo_id) ("repository:" +:+ repo_id) repo_id.

Definition edge_key (source : NodeId) (kind : EdgeKind) (target : NodeId) : string :=
  source +:+ ":" +:+ edge_kind_debug kind +:+ ":" +:+ target.

Definition edge (source target : NodeId) (kind : EdgeKind) (evidence : list EvidenceId) (confidence : f32) : Edge :=
  {| edge_id := stable_id "edge" (edge_key source kind target);
     edge_source := source; edge_target := target; edge_kind := kind; edge_confidence := confidence;
     edge_status := Confirmed; edge_evidence := evidence |}.

(** The evidence of an extractor for the lines [start] to [end_line] of a file. *)
Definition extracted_evidence (extractor : string) (repo_id : RepoId) (source_path content_hash : string)
    (key : string) (start end_line : N) (note : string) (confidence : f32) : Evidence :=
  {| ev_id := stable_id "evidence" key; ev_repo_id := Some repo_id; ev_file_path := Some source_path;
     ev_start_line := Some start; ev_end_line := Some end_line; ev_extractor := extractor;
     ev_extractor_version := "1.0.0"; ev_provenance := Prov_Extracted; ev_confidence := confidence;
     ev_observed_at_commit := None; ev_content_hash := Some content_hash; ev_note := Some note |}.

(** The key of evidence on one line. *)
Definition line_key (repo_id : RepoId) (source_path : string) (line : N) (note content_hash : string) : string :=
  repo_id +:+ ":" +:+ source_path +:+ ":" +:+ pretty line +:+ ":" +:+ note +:+ ":" +:+ content_hash.
End builders.

(** ** Grouping: [map.entry(key).or_default().push(value)] *)
Section group.
Context {K V : Type} `{Countable K}.

Definition push_group (groups : gmap K (list V)) (k : K) (v : V) : gmap K (list V) :=
  <[k := default [] (groups !! k) ++ [v]]> groups.

Definition group_by (key : V → option K) (values : list V) : gmap K (list V) :=
  foldl (λ groups v, match key v with Some k => push_group groups k v | None => groups end) ∅ values.

Lemma group_by_lookup key values k :
  group_by key values !! k =
  match List.filter (λ v, bool_decide (key v = Some k)) values with [] => None | group => Some group end.
Proof.
  induction values as [|v values IH] using rev_ind; [done|].
  unfold group_by in *. rewrite foldl_app, List.filter_app. simpl.
  set (m := foldl _ _ _) in *. destruct (key v) as [k'|]; simpl.
  2:{ rewrite app_nil_r. exact IH. }
  unfold push_group. rewrite lookup_insert. case_decide as Hk; subst.
  - rewrite bool_decide_eq_true_2, IH by done.
    by destruct (List.filter (λ v, bool_decide (key v = Some k)) values).
  - rewrite bool_decide_eq_false_2, app_nil_r by congruence. exact IH.
Qed.
End group.

(** ** What finishing keeps *)
Section keep_first.
Context {A : Type} (id : A → string).

Definition first_with (l : list A) (x : A) : Prop := List.find (λ y, String.eqb (id y) (id x)) l = Some x.

Lemma find_app (f : A → bool) l k :
  List.find f (l ++ k) = match List.find f l with Some x => Some x | None => List.find f k end.
Proof. induction l as [|x l IH]; simpl; [done|]. by destruct (f x). Qed.

Lemma find_sort_insert key x l :
  List.find (λ y, String.eqb (id y) key) (sort_insert (cmp_on id cmp) x l) =
  List.find (λ y, String.eqb (id y) key) (x :: l).
Proof.
  induction l as [|y l IH]; [done|]. cbn [sort_insert]. destruct (cmp_on id cmp x y) eqn:E; [done|done|].
  cbn [List.find] in *. rewrite IH. destruct (String.eqb_spec (id x) key) as [Hx|Hx], (String.eqb_spec (id y) key) as [Hy|Hy]; try done.
  unfold cmp_on in E. rewrite Hx, Hy in E. by rewrite cmp_refl in E by apply total_lawful.
Qed.

Lemma find_sort_by key l :
  List.find (λ y, String.eqb (id y) key) (sort_by (cmp_on id cmp) l) = List.find (λ y, String.eqb (id y) key) l.
Proof.
  induction l as [|x l IH]; [done|]. unfold sort_by in *. cbn [foldr].
  rewrite find_sort_insert. cbn [List.find]. by rewrite IH.
Qed.

Lemma find_dedup_by key l :
  List.find (λ y, String.eqb (id y) key) (dedup_by (λ x y, String.eqb (id x) (id y)) l) =
  List.find (λ y, String.eqb (id y) key) l.
Proof.
  induction l as [|x l IH]; [done|]. cbn [dedup_by List.find].
  destruct (dedup_by _ l) as [|y k] eqn:E; cbn [List.find] in *; [by rewrite <-IH|].
  destruct (String.eqb_spec (id y) (id x)) as [Hy|Hy]; cbn [List.find]; rewrite <-IH; [|done].
  rewrite Hy. by destruct (String.eqb (id x) key).
Qed.

Lemma keep_first_strict l : strictly_sorted (map id (keep_first id l)).
Proof.
  unfold keep_first, strictly_sorted.
  pose proof (dedup_by_strict (cmp_on id cmp) (λ x y, String.eqb (id x) (id y))) as Hs.
  specialize (Hs ltac:(intros x y; rewrite String.eqb_eq; unfold cmp_on; split;
    [intros ->; apply cmp_refl, total_lawful|apply cmp_eq]) _ (sort_by_sorted _ l)).
  induction Hs as [|x k Hk IH Hx]; simpl; [constructor|]. constructor; [done|]. by apply Forall_fmap.
Qed.

(** Of the values with one identifier exactly the first is kept. *)
Lemma keep_first_elem l x : x ∈ keep_first id l ↔ first_with l x.
Proof.
  unfold first_with. rewrite <-find_sort_by, <-find_dedup_by. fold (keep_first id l). split.
  - intros Hx. pose proof (strictly_sorted_NoDup _ (keep_first_strict l)) as Hnd.
    destruct (List.find _ _) as [y|] eqn:E.
    + apply List.find_some in E as [Hy E]. apply String.eqb_eq in E. f_equal.
      apply (NoDup_map_inj id (keep_first id l)); [done|by apply list_elem_of_In|done|done].
    + pose proof (List.find_none _ _ E x ltac:(by apply list_elem_of_In)) as H. simpl in H.
      by rewrite String.eqb_refl in H.
  - intros [Hx _]%List.find_some. by apply list_elem_of_In.
Qed.

Lemma first_with_in l x : first_with l x → x ∈ l.
Proof. intros [Hx _]%List.find_some. by apply list_elem_of_In. Qed.

Lemma first_with_exists l x : x ∈ l → ∃ y, first_with l y ∧ id y = id x.
Proof.
  intros Hx. destruct (List.find (λ y, String.eqb (id y) (id x)) l) as [y|] eqn:E.
  - pose proof (List.find_some _ _ E) as [_ Hy]. apply String.eqb_eq in Hy. exists y. split; [|done].
    unfold first_with. by rewrite Hy.
  - apply list_elem_of_In in Hx. pose proof (List.find_none _ _ E x Hx) as H. simpl in H. by rewrite String.eqb_refl in H.
Qed.

Lemma keep_first_from l x : x ∈ keep_first id l → x ∈ l.
Proof. intros Hx. by apply first_with_in, keep_first_elem. Qed.

Lemma keep_first_covers l x : x ∈ l → ∃ y, y ∈ keep_first id l ∧ id y = id x.
Proof. intros (y & Hy & E)%first_with_exists. exists y. by rewrite keep_first_elem. Qed.
End keep_first.

(** Finished facts: sorted, and for each identifier the first fact pushed. *)
Record finished (pushed result : GraphFacts) : Prop := {
  fin_nodes_sorted : strictly_sorted (map node_id (facts_nodes result));
  fin_nodes : ∀ n, n ∈ facts_nodes result ↔ first_with node_id (facts_nodes pushed) n;
  fin_edges_sorted : strictly_sorted (map edge_id (facts_edges result));
  fin_edges : ∀ e, e ∈ facts_edges result ↔ first_with edge_id (facts_edges pushed) e;
  fin_evidence_sorted : strictly_sorted (map ev_id (facts_evidence result));
  fin_evidence : ∀ e, e ∈ facts_evidence result ↔ first_with ev_id (facts_evidence pushed) e;
}.

Lemma finish_finished pushed : finished pushed (finish pushed).
Proof. constructor; simpl; auto using keep_first_strict, keep_first_elem. Qed.

(** ** Pushing in a loop *)
Definition all_facts (l : list GraphFacts) : GraphFacts :=
  {| facts_nodes := concat (map facts_nodes l); facts_edges := concat (map facts_edges l);
     facts_evidence := concat (map facts_evidence l) |}.

Lemma extend_assoc r s t : extend (extend r s) t = extend r (extend s t).
Proof. unfold extend. simpl. by rewrite !(assoc_L (++)). Qed.

Lemma extend_none r : extend r no_facts = r.
Proof. destruct r. unfold extend. simpl. by rewrite !app_nil_r. Qed.

Lemma extend_none_l r : extend no_facts r = r.
Proof. by destruct r. Qed.

Lemma fold_extend {A} (step : GraphFacts → A → GraphFacts) (f : A → GraphFacts) r l :
  (∀ r x, step r x = extend r (f x)) → foldl step r l = extend r (all_facts (map f l)).
Proof.
  intros Hstep. revert r. induction l as [|x l IH]; intros r; simpl; [symmetry; apply extend_none|].
  rewrite IH, Hstep. unfold extend, all_facts. simpl. by rewrite !(assoc_L (++)).
Qed.

#[export] Hint Rewrite extend_none extend_none_l : csg.

(** ** Identity of edges and nodes

    When the digest separates texts and its output has no colon, identifiers
    name the node key, and the ends and kind of an edge. *)
Section identity.
Context `{Blake3}.

(** The output of the digest is hexadecimal. *)
Definition digest_plain : Prop := ∀ text, contains_char ":"%char (blake3_hex text) = false.

Context (Hseparates : digest_separates) (Hplain : digest_plain).

Lemma edge_kind_debug_inj k k' : edge_kind_debug k = edge_kind_debug k' → k = k'.
Proof. destruct k, k'; done || (intros E; discriminate E). Qed.

Lemma edge_kind_debug_plain k : contains_char ":"%char (edge_kind_debug k) = false.
Proof. by destruct k. Qed.

(** The text of a node identifier after its namespace. *)
Lemma node_id_text key : ∃ text, stable_id "node" key = "node:" +:+ text ∧ contains_char ":"%char text = false.
Proof using Hplain. exists (blake3_hex ("node" +:+ String (Ascii.ascii_of_N 0) key)). by split; [|apply Hplain]. Qed.

Lemma edge_key_inj s k t s' k' t' source target source' target' :
  source = stable_id "node" s → source' = stable_id "node" s' →
  target = stable_id "node" t → target' = stable_id "node" t' →
  edge_key source k target = edge_key source' k' target' → source = source' ∧ k = k' ∧ target = target'.
Proof using Hplain.
  intros -> -> -> ->.
  destruct (node_id_text s) as (a & -> & Ha), (node_id_text s') as (a' & -> & Ha'), (node_id_text t) as (b & -> & Hb), (node_id_text t') as (b' & -> & Hb').
  unfold edge_key. rewrite <-!string_app_assoc. intros E%string_app_inj_l.
  apply (split_at_char ":"%char) in E as [-> E]; [|done..].
  apply (split_at_char ":"%char) in E as [->%edge_kind_debug_inj E]; [|apply edge_kind_debug_plain..]. by rewrite E.
Qed.

(** An edge as the builders make it. *)
Definition built (e : Edge) : Prop :=
  ∃ s t evidence confidence, e = edge (stable_id "node" s) (stable_id "node" t) (edge_kind e) evidence confidence.

Lemma built_edge source target kind evidence confidence s t :
  source = stable_id "node" s → target = stable_id "node" t → built (edge source target kind evidence confidence).
Proof. intros -> ->. by exists s, t, evidence, confidence. Qed.

Lemma built_id e e' : built e → built e' → edge_id e = edge_id e' →
  edge_source e = edge_source e' ∧ edge_kind e = edge_kind e' ∧ edge_target e = edge_target e'.
Proof using Hseparates Hplain.
  intros (s & t & ev & c & E) (s' & t' & ev' & c' & E'). rewrite E, E'.
  remember (stable_id "node" s) as source eqn:Hs. remember (stable_id "node" t) as target eqn:Ht.
  remember (stable_id "node" s') as source' eqn:Hs'. remember (stable_id "node" t') as target' eqn:Ht'.
  simpl. intros Heq%stable_id_inj; [|done]. by eapply edge_key_inj.
Qed.

(** [edges] relates [source] to [target] by [kind]. *)
Definition relates (edges : list Edge) (source : NodeId) (kind : EdgeKind) (target : NodeId) : Prop :=
  ∃ e, e ∈ edges ∧ edge_source e = source ∧ edge_kind e = kind ∧ edge_target e = target.

(** Finishing forgets repeated edges, and no relation. *)
Lemma finished_relates pushed source kind target :
  Forall built (facts_edges pushed) →
  relates (facts_edges (finish pushed)) source kind target ↔ relates (facts_edges pushed) source kind target.
Proof using Hseparates Hplain.
  intros Hb. rewrite Forall_forall in Hb. simpl. split.
  - intros (e & He%keep_first_from & Hrest). by exists e.
  - intros (e & He & <- & <- & <-). destruct (keep_first_covers edge_id _ _ He) as (e' & He' & Hid).
    exists e'. split; [done|]. apply built_id; [apply Hb; by eapply keep_first_from|by apply Hb|done].
Qed.

Definition built_node (n : Node) : Prop := node_id n = stable_id "node" (node_stable_key n).

Lemma finished_node_keys pushed key :
  Forall built_node (facts_nodes pushed) →
  key ∈ map node_stable_key (facts_nodes (finish pushed)) ↔ key ∈ map node_stable_key (facts_nodes pushed).
Proof using Hseparates.
  intros Hb. rewrite Forall_forall in Hb. simpl. rewrite !list_elem_of_fmap. split.
  - intros (n & -> & Hn%keep_first_from). by exists n.
  - intros (n & -> & Hn). destruct (keep_first_covers node_id _ _ Hn) as (n' & Hn' & Hid).
    exists n'. split; [|done]. rewrite (Hb _ Hn), (Hb n') in Hid by (by eapply keep_first_from).
    symmetry. by apply stable_id_inj in Hid.
Qed.
End identity.

(** ** Closed facts: edges only mention nodes and evidence that are there *)
Record closed (facts : GraphFacts) : Prop := {
  cl_source : ∀ e, e ∈ facts_edges facts → edge_source e ∈ map node_id (facts_nodes facts);
  cl_target : ∀ e, e ∈ facts_edges facts → edge_target e ∈ map node_id (facts_nodes facts);
  cl_evidence : ∀ e id, e ∈ facts_edges facts → id ∈ edge_evidence e → id ∈ map ev_id (facts_evidence facts);
}.

Record well_formed (facts : GraphFacts) : Prop := {
  wf_nodes : strictly_sorted (map node_id (facts_nodes facts));
  wf_edges : strictly_sorted (map edge_id (facts_edges facts));
  wf_evidence : strictly_sorted (map ev_id (facts_evidence facts));
  wf_closed : closed facts;
}.

Lemma keep_first_ids {A} (id : A → string) l i : i ∈ map id l → i ∈ map id (keep_first id l).
Proof.
  intros (x & -> & Hx)%list_elem_of_fmap. destruct (keep_first_covers id l x Hx) as (y & Hy & <-).
  apply list_elem_of_fmap. by exists y.
Qed.

Lemma finish_well_formed pushed : closed pushed → well_formed (finish pushed).
Proof.
  intros [Hs Ht Hev]. constructor; [apply keep_first_strict..|]. simpl. constructor; simpl.
  - intros e He%keep_first_from. by apply keep_first_ids, Hs.
  - intros e He%keep_first_from. by apply keep_first_ids, Ht.
  - intros e id He%keep_first_from Hid. apply keep_first_ids. by eapply Hev.
Qed.

Lemma all_edges_elem {A} (f : A → GraphFacts) l e :
  e ∈ facts_edges (all_facts (map f l)) ↔ ∃ x, x ∈ l ∧ e ∈ facts_edges (f x).
Proof. simpl. rewrite map_map. apply concat_map_In. Qed.

Lemma all_nodes_elem {A} (f : A → GraphFacts) l n :
  n ∈ facts_nodes (all_facts (map f l)) ↔ ∃ x, x ∈ l ∧ n ∈ facts_nodes (f x).
Proof. simpl. rewrite map_map. apply concat_map_In. Qed.

Lemma all_evidence_elem {A} (f : A → GraphFacts) l e :
  e ∈ facts_evidence (all_facts (map f l)) ↔ ∃ x, x ∈ l ∧ e ∈ facts_evidence (f x).
Proof. simpl. rewrite map_map. apply concat_map_In. Qed.

Lemma edges_app r s e : e ∈ facts_edges (extend r s) ↔ e ∈ facts_edges r ∨ e ∈ facts_edges s.
Proof. apply elem_of_app. Qed.
Lemma nodes_app r s n : n ∈ facts_nodes (extend r s) ↔ n ∈ facts_nodes r ∨ n ∈ facts_nodes s.
Proof. apply elem_of_app. Qed.
Lemma evidence_app r s e : e ∈ facts_evidence (extend r s) ↔ e ∈ facts_evidence r ∨ e ∈ facts_evidence s.
Proof. apply elem_of_app. Qed.

(** An edge is closed in facts that hold its ends and its evidence. *)
Definition closed_edge (facts : GraphFacts) (e : Edge) : Prop :=
  (∃ n, n ∈ facts_nodes facts ∧ node_id n = edge_source e) ∧ (∃ n, n ∈ facts_nodes facts ∧ node_id n = edge_target e) ∧
  ∀ id, id ∈ edge_evidence e → ∃ ev, ev ∈ facts_evidence facts ∧ ev_id ev = id.

Lemma closed_edges facts : (∀ e, e ∈ facts_edges facts → closed_edge facts e) → closed facts.
Proof.
  intros H. constructor.
  - intros e He. destruct (H e He) as ((n & Hn & <-) & _). apply list_elem_of_fmap. by exists n.
  - intros e He. destruct (H e He) as (_ & (n & Hn & <-) & _). apply list_elem_of_fmap. by exists n.
  - intros e id He Hid. destruct (H e He) as (_ & _ & Hev). destruct (Hev id Hid) as (ev & He' & <-).
    apply list_elem_of_fmap. by exists ev.
Qed.

Lemma closed_edge_made `{Blake3} facts source target kind evidence confidence :
  source ∈ facts_nodes facts → target ∈ facts_nodes facts → Forall (λ ev, ev ∈ facts_evidence facts) evidence →
  closed_edge facts (edge (node_id source) (node_id target) kind (map ev_id evidence) confidence).
Proof.
  intros Hs Ht Hev. rewrite Forall_forall in Hev. split_and!; [by exists source|by exists target|].
  intros id (ev & -> & Hin)%list_elem_of_fmap. exists ev. auto.
Qed.

(** What facts relate, when only edges made by [make] are of a kind. *)
Lemma relates_of edges source kind target :
  relates edges source kind target ↔ ∃ e, e ∈ edges ∧ edge_kind e = kind ∧ edge_source e = source ∧ edge_target e = target.
Proof. unfold relates. naive_solver. Qed.

(** A digest for the examples that separates texts and has no colon: the text
    with its colons escaped. *)
Module Example_digest.
Fixpoint escape (text : string) : string :=
  match text with
  | "" => ""
  | String c text =>
      if Ascii.eqb c ":" then String "%" (String "1" (escape text))
      else if Ascii.eqb c "%" then String "%" (String "0" (escape text))
      else String c (escape text)
  end.
Definition escaping : Blake3 := escape.
#[export] Existing Instance escaping.

Lemma escape_inj x y : escape x = escape y → x = y.
Proof.
  revert y. induction x as [|c x IH]; intros [|d y]; simpl; [done|by repeat case_match..|].
  destruct (Ascii.eqb_spec c ":"), (Ascii.eqb_spec d ":"), (Ascii.eqb_spec c "%"), (Ascii.eqb_spec d "%");
    intros [=]; try congruence; f_equal; auto; congruence.
Qed.

Lemma escaping_separates : digest_separates.
Proof. exact escape_inj. Qed.

Lemma escaping_plain : digest_plain.
Proof.
  intros text. change (contains_char ":"%char (escape text) = false). induction text as [|c text IH]; [done|].
  cbn [escape]. destruct (Ascii.eqb_spec c ":"); [done|]. destruct (Ascii.eqb_spec c "%"); [done|].
  rewrite contains_char_cons, IH. by rewrite (proj2 (Ascii.eqb_neq ":"%char c)) by congruence.
Qed.
(** The stable key behind an identifier, to show a graph. *)
Definition key_of (facts : GraphFacts) (id : NodeId) : string :=
  match List.find (λ n, String.eqb (node_id n) id) (facts_nodes facts) with Some n => node_stable_key n | None => "" end.
End Example_digest.
