(* ===== verification/GraphqlGraph.v ===== *)
(** * GraphQL documents as graph facts
    ([crates/code-system-graph-core/src/graphql_graph.rs]) *)
From stdpp Require Import base gmap sets list strings sorting pretty.
From Stdlib Require Import Ascii.
From S2P Require Import Prelude RustOrd RustFloat RustStr Model CanonicalText Compat CompatGraphql GraphFacts.

Definition operation_kind_rank (kind : GraphqlOperationKind) : nat :=
  match kind with Query => 0 | Mutation => 1 | Subscription => 2 end.
Definition operation_kind_of_rank (n : nat) : option GraphqlOperationKind :=
  match n with 0 => Some Query | 1 => Some Mutation | 2 => Some Subscription | _ => None end%nat.
#[export] Instance GraphqlOperationKind_countable : Countable GraphqlOperationKind.
Proof. by apply (inj_countable operation_kind_rank operation_kind_of_rank); intros []. Defined.

Record Provider := {
  pv_repo_id : RepoId;
  pv_kind : option GraphqlOperationKind;
  pv_field : string;
  pv_coordinate : string;
  pv_node : Node;
  pv_evidence : Evidence;
}.

Record Consumer := {
  cs_kind : GraphqlOperationKind;
  cs_root_field : string;
  cs_node : Node;
  cs_evidence : Evidence;
}.

Definition root_kind (name : string) : option GraphqlOperationKind :=
  if String.eqb name "Query" then Some Query
  else if String.eqb name "Mutation" then Some Mutation
  else if String.eqb name "Subscription" then Some Subscription
  else None.

Definition operation_kind (kind : GraphqlOperationKind) : string :=
  match kind with Query => "query" | Mutation => "mutation" | Subscription => "subscription" end.

(** [path.split('.').next()] *)
Definition first_segment (path : string) : option string := head (split_by (Ascii.eqb "."%char) path).

Section builder.
Context `{Blake3}.

Definition graphql_artifact_node (repo_id : RepoId) (source_path : string) : Node :=
  stable_node NK_Artifact (Some repo_id) ("graphql-artifact:" +:+ repo_id +:+ ":" +:+ source_path) source_path.

Definition graphql_evidence (repo_id : RepoId) (source_path content_hash : string) (lines : GraphqlLineRange) (note : string) : Evidence :=
  let key := repo_id +:+ ":" +:+ source_path +:+ ":" +:+ pretty (gl_start lines) +:+ ":" +:+ pretty (gl_end lines) +:+ ":" +:+
    note +:+ ":" +:+ content_hash in
  extracted_evidence "code-system-graph.graphql" repo_id source_path content_hash key (gl_start lines) (gl_end lines) note f32_one.

Definition field_provider (repo_id : RepoId) (source_path content_hash : string) (definition : GraphqlTypeDefinition)
    (kind : option GraphqlOperationKind) (field : GraphqlFieldDefinition) : Provider :=
  let stable_key := "graphql:" +:+ repo_id +:+ ":provider:" +:+ gt_name definition +:+ ":" +:+ gf_name field in
  {| pv_repo_id := repo_id; pv_kind := kind; pv_field := gf_name field; pv_coordinate := gf_coordinate field;
     pv_node := stable_node NK_GraphqlOperation (Some repo_id) stable_key (gf_coordinate field);
     pv_evidence := graphql_evidence repo_id source_path content_hash (gf_lines field) "GraphQL SDL root field" |}.

Definition append_provider_fields (output : list Provider) (repo_id : RepoId) (source_path content_hash : string)
    (definition : GraphqlTypeDefinition) (kind : option GraphqlOperationKind) : list Provider :=
  foldl (λ output field, output ++ [field_provider repo_id source_path content_hash definition kind field])
    output (gt_fields definition).

Definition append_providers (output : list Provider) (repo_id : RepoId) (source_path content_hash : string)
    (document : GraphqlDocument) : list Provider :=
  foldl (λ output definition,
    append_provider_fields output repo_id source_path content_hash definition (root_kind (gt_name definition)))
    output (gd_types document).

Definition root_consumer (repo_id : RepoId) (source_path content_hash : string) (index : nat)
    (operation : GraphqlOperation) (root : string) : Consumer :=
  let name := default ("anonymous-" +:+ pretty index) (go_name operation) in
  let stable_key := "graphql:" +:+ repo_id +:+ ":consumer:" +:+ source_path +:+ ":" +:+ operation_kind (go_kind operation) +:+
    ":" +:+ name +:+ ":" +:+ root in
  {| cs_kind := go_kind operation; cs_root_field := root;
     cs_node := stable_node NK_GraphqlOperation (Some repo_id) stable_key (operation_kind (go_kind operation) +:+ " " +:+ name);
     cs_evidence := graphql_evidence repo_id source_path content_hash (go_lines operation) "GraphQL consumer operation" |}.

Definition append_operation (repo_id : RepoId) (source_path content_hash : string) (index : nat)
    (output : list Consumer) (operation : GraphqlOperation) : list Consumer :=
  let roots := bset_collect (omap first_segment (go_consumed_field_paths operation)) in
  foldl (λ output root, output ++ [root_consumer repo_id source_path content_hash index operation root])
    output (bset_elements roots).

Definition append_consumers (output : list Consumer) (repo_id : RepoId) (source_path content_hash : string)
    (document : GraphqlDocument) : list Consumer :=
  foldl (λ output entry, append_operation repo_id source_path content_hash entry.1 output entry.2)
    output (imap pair (gd_operations document)).

Definition provider_key (provider : Provider) : option (GraphqlOperationKind * string) :=
  (λ kind, (kind, pv_field provider)) <$> pv_kind provider.

Definition consumer_edge (consumer : Consumer) (provider : Provider) : Edge :=
  edge (node_id (cs_node consumer)) (node_id (pv_node provider)) CallsRemote
    [ev_id (cs_evidence consumer); ev_id (pv_evidence provider)] f32_one.

Definition link_consumers (providers : list Provider) (consumers : list Consumer) (result : GraphFacts) : GraphFacts :=
  let candidates := group_by provider_key providers in
  foldl (λ result consumer,
    match candidates !! (cs_kind consumer, cs_root_field consumer) with
    | None => result
    | Some matches =>
        match matches with
        | [provider] =>
            extend result {| facts_nodes := []; facts_edges := [consumer_edge consumer provider]; facts_evidence := [] |}
        | _ => result
        end
    end) result consumers.

Definition resolver_node (resolver : SourceDocument GraphqlResolver) : Node :=
  let symbol := gr_symbol (sd_document resolver) in
  stable_node NK_SymbolRef (Some (sd_repo_id resolver))
    ("graphql-resolver:" +:+ sd_repo_id resolver +:+ ":" +:+ sd_source_path resolver +:+ ":" +:+
      gr_coordinate (sd_document resolver) +:+ ":" +:+ symbol) symbol.

Definition resolver_evidence (resolver : SourceDocument GraphqlResolver) : Evidence :=
  graphql_evidence (sd_repo_id resolver) (sd_source_path resolver) (sd_content_hash resolver)
    (gr_lines (sd_document resolver)) "GraphQL resolver".

Definition resolver_edge (resolver : SourceDocument GraphqlResolver) (provider : Provider) : Edge :=
  edge (node_id (pv_node provider)) (node_id (resolver_node resolver)) ImplementedBy
    [ev_id (pv_evidence provider); ev_id (resolver_evidence resolver)] f32_one.

Definition implements (resolver : SourceDocument GraphqlResolver) (provider : Provider) : bool :=
  String.eqb (pv_repo_id provider) (sd_repo_id resolver) && String.eqb (pv_coordinate provider) (gr_coordinate (sd_document resolver)).

Definition link_resolvers (providers : list Provider) (resolvers : list (SourceDocument GraphqlResolver)) (result : GraphFacts)
    : GraphFacts :=
  foldl (λ result resolver,
    match List.find (implements resolver) providers with
    | None => result
    | Some provider =>
        extend result {| facts_nodes := [resolver_node resolver]; facts_edges := [resolver_edge resolver provider];
                         facts_evidence := [resolver_evidence resolver] |}
    end) result resolvers.

Definition artifact_facts (input : SourceDocument GraphqlDocument) : GraphFacts :=
  let artifact := graphql_artifact_node (sd_repo_id input) (sd_source_path input) in
  let evidence := graphql_evidence (sd_repo_id input) (sd_source_path input) (sd_content_hash input)
    {| gl_start := 1; gl_end := 1 |} "GraphQL artifact" in
  {| facts_nodes := [repository_node (sd_repo_id input); artifact];
     facts_edges := [edge (node_id (repository_node (sd_repo_id input))) (node_id artifact) Contains [ev_id evidence] f32_one];
     facts_evidence := [evidence] |}.

Definition document_resolvers (input : SourceDocument GraphqlDocument) : list (SourceDocument GraphqlResolver) :=
  map (λ resolver, {| sd_repo_id := sd_repo_id input; sd_source_path := sd_source_path input;
    sd_content_hash := sd_content_hash input; sd_document := resolver |}) (gd_resolvers (sd_document input)).

(** The four vectors of the main loop. *)
Definition collect_document (state : GraphFacts * list Provider * list Consumer * list (SourceDocument GraphqlResolver))
    (input : SourceDocument GraphqlDocument) :=
  let '(result, providers, consumers, resolvers) := state in
  (extend result (artifact_facts input),
   append_providers providers (sd_repo_id input) (sd_source_path input) (sd_content_hash input) (sd_document input),
   append_consumers consumers (sd_repo_id input) (sd_source_path input) (sd_content_hash input) (sd_document input),
   resolvers ++ document_resolvers input).

Definition graphql_documents_to_graph (inputs : list (SourceDocument GraphqlDocument)) : GraphFacts :=
  let '(result, providers, consumers, resolvers) := foldl collect_document (no_facts, [], [], []) inputs in
  let result := link_consumers providers consumers result in
  let result := link_resolvers providers resolvers result in
  let result := foldl (λ result provider,
    extend result {| facts_nodes := [pv_node provider]; facts_edges := []; facts_evidence := [pv_evidence provider] |}) result providers in
  let result := foldl (λ result consumer,
    extend result {| facts_nodes := [cs_node consumer]; facts_edges := []; facts_evidence := [cs_evidence consumer] |}) result consumers in
  finish result.
End builder.

(** ** What is pushed *)
Section pushed.
Context `{Blake3}.
Implicit Types (input : SourceDocument GraphqlDocument) (inputs : list (SourceDocument GraphqlDocument)).

Definition input_providers input : list Provider :=
  append_providers [] (sd_repo_id input) (sd_source_path input) (sd_content_hash input) (sd_document input).
Definition input_consumers input : list Consumer :=
  append_consumers [] (sd_repo_id input) (sd_source_path input) (sd_content_hash input) (sd_document input).

Definition providers_of inputs := concat (map input_providers inputs).
Definition consumers_of inputs := concat (map input_consumers inputs).
Definition resolvers_of inputs := concat (map document_resolvers inputs).

Lemma append_providers_spec output repo_id source_path content_hash document :
  append_providers output repo_id source_path content_hash document =
  output ++ concat (map (λ d, map (field_provider repo_id source_path content_hash d (root_kind (gt_name d))) (gt_fields d)) (gd_types document)).
Proof.
  unfold append_providers. apply fold_append. intros o d. unfold append_provider_fields. by rewrite fold_push.
Qed.

Lemma append_consumers_spec output repo_id source_path content_hash document :
  append_consumers output repo_id source_path content_hash document =
  output ++ concat (map (λ entry, map (root_consumer repo_id source_path content_hash entry.1 entry.2)
    (bset_elements (bset_collect (omap first_segment (go_consumed_field_paths entry.2))))) (imap pair (gd_operations document))).
Proof.
  unfold append_consumers. apply fold_append. intros o d. unfold append_operation. by rewrite fold_push.
Qed.

Lemma collect_documents inputs result providers consumers resolvers :
  foldl collect_document (result, providers, consumers, resolvers) inputs =
  (extend result (all_facts (map artifact_facts inputs)), providers ++ providers_of inputs,
   consumers ++ consumers_of inputs, resolvers ++ resolvers_of inputs).
Proof.
  revert result providers consumers resolvers. induction inputs as [|input inputs IH]; intros r p c s; simpl.
  - change (all_facts []) with no_facts. by rewrite extend_none, !app_nil_r.
  - rewrite IH, extend_assoc, (append_providers_spec p), (append_consumers_spec c).
    unfold providers_of, consumers_of, resolvers_of. simpl. unfold input_providers, input_consumers.
    rewrite append_providers_spec, append_consumers_spec. cbn [app]. by rewrite !(assoc_L (++)).
Qed.

(** A consumer and the only provider of its root field. *)
Definition serves (consumer : Consumer) (provider : Provider) : bool :=
  bool_decide (provider_key provider = Some (cs_kind consumer, cs_root_field consumer)).

Definition only_provider (providers : list Provider) (consumer : Consumer) (provider : Provider) : Prop :=
  List.filter (serves consumer) providers = [provider].

Definition consumer_link (providers : list Provider) (consumer : Consumer) : GraphFacts :=
  match List.filter (serves consumer) providers with
  | [provider] => {| facts_nodes := []; facts_edges := [consumer_edge consumer provider]; facts_evidence := [] |}
  | _ => no_facts
  end.

Definition resolver_link (providers : list Provider) (resolver : SourceDocument GraphqlResolver) : GraphFacts :=
  match List.find (implements resolver) providers with
  | None => no_facts
  | Some provider =>
      {| facts_nodes := [resolver_node resolver]; facts_edges := [resolver_edge resolver provider];
         facts_evidence := [resolver_evidence resolver] |}
  end.

Lemma link_consumers_all providers consumers result :
  link_consumers providers consumers result = extend result (all_facts (map (consumer_link providers) consumers)).
Proof.
  unfold link_consumers. apply fold_extend. intros r c.
  rewrite group_by_lookup. unfold consumer_link, serves.
  destruct (List.filter _ providers) as [|p [|q l]]; [by rewrite extend_none|done|by rewrite extend_none].
Qed.

Lemma link_resolvers_all providers resolvers result :
  link_resolvers providers resolvers result = extend result (all_facts (map (resolver_link providers) resolvers)).
Proof.
  unfold link_resolvers. apply fold_extend. intros r s.
  unfold resolver_link. by destruct (List.find _ _); [|rewrite extend_none].
Qed.

(** All the facts that are pushed, in order. *)
Definition graphql_pushed inputs : GraphFacts :=
  let providers := providers_of inputs in
  extend (extend (extend (extend (all_facts (map artifact_facts inputs))
    (all_facts (map (consumer_link providers) (consumers_of inputs))))
    (all_facts (map (resolver_link providers) (resolvers_of inputs))))
    (all_facts (map (λ p, {| facts_nodes := [pv_node p]; facts_edges := []; facts_evidence := [pv_evidence p] |}) providers)))
    (all_facts (map (λ c, {| facts_nodes := [cs_node c]; facts_edges := []; facts_evidence := [cs_evidence c] |}) (consumers_of inputs))).

Lemma graphql_finish inputs : graphql_documents_to_graph inputs = finish (graphql_pushed inputs).
Proof.
  unfold graphql_documents_to_graph. rewrite collect_documents. cbn [app]. rewrite extend_none_l.
  rewrite link_consumers_all, link_resolvers_all. f_equal.
  rewrite (fold_extend _ (λ c, {| facts_nodes := [cs_node c]; facts_edges := []; facts_evidence := [cs_evidence c] |})) by done.
  by rewrite (fold_extend _ (λ p, {| facts_nodes := [pv_node p]; facts_edges := []; facts_evidence := [pv_evidence p] |})).
Qed.

Lemma provider_elem inputs p :
  p ∈ providers_of inputs ↔ ∃ input definition field, input ∈ inputs ∧ definition ∈ gd_types (sd_document input) ∧
    field ∈ gt_fields definition ∧
    p = field_provider (sd_repo_id input) (sd_source_path input) (sd_content_hash input) definition (root_kind (gt_name definition)) field.
Proof.
  unfold providers_of, input_providers. rewrite concat_map_In. split.
  - intros (input & Hi & Hp). rewrite append_providers_spec in Hp. apply concat_map_In in Hp as (d & Hd & Hp).
    apply list_elem_of_fmap in Hp as (field & -> & Hf). by exists input, d, field.
  - intros (input & d & field & Hi & Hd & Hf & ->). exists input. split; [done|]. rewrite append_providers_spec.
    apply concat_map_In. exists d. split; [done|]. apply list_elem_of_fmap. by exists field.
Qed.

Lemma consumer_elem inputs c :
  c ∈ consumers_of inputs ↔ ∃ input index operation root, input ∈ inputs ∧ gd_operations (sd_document input) !! index = Some operation ∧
    root ∈ omap first_segment (go_consumed_field_paths operation) ∧
    c = root_consumer (sd_repo_id input) (sd_source_path input) (sd_content_hash input) index operation root.
Proof.
  unfold consumers_of, input_consumers. rewrite concat_map_In. split.
  - intros (input & Hi & Hp). rewrite append_consumers_spec in Hp. apply concat_map_In in Hp as ([index op] & Ho & Hp).
    apply list_elem_of_fmap in Hp as (root & -> & Hr). rewrite bset_elements_elem_of in Hr. apply elem_of_list_to_set in Hr.
    apply elem_of_lookup_imap in Ho as (i & o & [= -> ->] & Ho). by exists input, i, o, root.
  - intros (input & index & op & root & Hi & Ho & Hr & ->). exists input. split; [done|]. rewrite append_consumers_spec.
    apply concat_map_In. exists (index, op). split; [by apply elem_of_lookup_imap; exists index, op|].
    apply list_elem_of_fmap. exists root. split; [done|]. rewrite bset_elements_elem_of. by apply elem_of_list_to_set.
Qed.
End pushed.

(** ** The finished graph *)
Section graph.
Context `{Blake3}.
Implicit Types (inputs : list (SourceDocument GraphqlDocument)).

Definition artifact_edge (input : SourceDocument GraphqlDocument) : Edge :=
  edge (node_id (repository_node (sd_repo_id input))) (node_id (graphql_artifact_node (sd_repo_id input) (sd_source_path input)))
    Contains (map ev_id (facts_evidence (artifact_facts input))) f32_one.

Definition resolved_by inputs (resolver : SourceDocument GraphqlResolver) (provider : Provider) : Prop :=
  resolver ∈ resolvers_of inputs ∧ List.find (implements resolver) (providers_of inputs) = Some provider.

Definition consumed_from inputs (consumer : Consumer) (provider : Provider) : Prop :=
  consumer ∈ consumers_of inputs ∧ only_provider (providers_of inputs) consumer provider.

Lemma graphql_pushed_edges inputs e :
  e ∈ facts_edges (graphql_pushed inputs) ↔
  (∃ input, input ∈ inputs ∧ e = artifact_edge input) ∨
  (∃ consumer provider, consumed_from inputs consumer provider ∧ e = consumer_edge consumer provider) ∨
  (∃ resolver provider, resolved_by inputs resolver provider ∧ e = resolver_edge resolver provider).
Proof.
  unfold graphql_pushed, consumed_from, resolved_by, only_provider. rewrite !edges_app, !all_edges_elem. split.
  - intros [[[[H1|H1]|H1]|H1]|H1]; destruct H1 as (x & Hx & He).
    + left. exists x. split; [done|]. by apply list_elem_of_singleton in He.
    + right; left. unfold consumer_link in He. destruct (List.filter _ _) as [|p [|q l]] eqn:E; [by apply not_elem_of_nil in He| |by apply not_elem_of_nil in He].
      apply list_elem_of_singleton in He as ->. by exists x, p.
    + right; right. unfold resolver_link in He. destruct (List.find _ _) as [p|] eqn:E; [|by apply not_elem_of_nil in He].
      apply list_elem_of_singleton in He as ->. by exists x, p.
    + by apply not_elem_of_nil in He.
    + by apply not_elem_of_nil in He.
  - intros [(x & Hx & ->)|[(c & p & (Hc & Hp) & ->)|(r & p & (Hr & Hp) & ->)]].
    + do 4 left. exists x. split; [done|]. by left.
    + do 3 left. right. exists c. split; [done|]. unfold consumer_link. rewrite Hp. by left.
    + do 2 left. right. exists r. split; [done|]. unfold resolver_link. rewrite Hp. by left.
Qed.

Lemma consumed_from_provider inputs c p : consumed_from inputs c p → p ∈ providers_of inputs.
Proof.
  intros [_ Hf]. assert (Hin : p ∈ List.filter (serves c) (providers_of inputs)) by (rewrite Hf; by left).
  by apply list_filter_In in Hin as [? _].
Qed.

Lemma resolved_by_provider inputs r p : resolved_by inputs r p → p ∈ providers_of inputs.
Proof. intros [_ [Hf _]%List.find_some]. by apply list_elem_of_In. Qed.

Lemma provider_pushed inputs p : p ∈ providers_of inputs →
  pv_node p ∈ facts_nodes (graphql_pushed inputs) ∧ pv_evidence p ∈ facts_evidence (graphql_pushed inputs) ∧
  ∃ key, node_id (pv_node p) = stable_id "node" key.
Proof.
  intros Hp. unfold graphql_pushed. split_and!.
  - rewrite nodes_app. left. rewrite nodes_app. right. apply all_nodes_elem. exists p. split; [done|by left].
  - rewrite evidence_app. left. rewrite evidence_app. right. apply all_evidence_elem. exists p. split; [done|by left].
  - apply provider_elem in Hp as (i & d & f & _ & _ & _ & ->). by eexists.
Qed.

Lemma consumer_pushed inputs c : c ∈ consumers_of inputs →
  cs_node c ∈ facts_nodes (graphql_pushed inputs) ∧ cs_evidence c ∈ facts_evidence (graphql_pushed inputs) ∧
  ∃ key, node_id (cs_node c) = stable_id "node" key.
Proof.
  intros Hc. unfold graphql_pushed. split_and!.
  - rewrite nodes_app. right. apply all_nodes_elem. exists c. split; [done|by left].
  - rewrite evidence_app. right. apply all_evidence_elem. exists c. split; [done|by left].
  - apply consumer_elem in Hc as (i & n & o & r & _ & _ & _ & ->). by eexists.
Qed.

Lemma resolver_pushed inputs r p : resolved_by inputs r p →
  resolver_node r ∈ facts_nodes (graphql_pushed inputs) ∧ resolver_evidence r ∈ facts_evidence (graphql_pushed inputs).
Proof.
  intros [Hr Hp]. unfold graphql_pushed.
  split; [rewrite nodes_app; left; rewrite nodes_app; left; rewrite nodes_app; right; apply all_nodes_elem|
    rewrite evidence_app; left; rewrite evidence_app; left; rewrite evidence_app; right; apply all_evidence_elem];
  exists r; (split; [done|]); unfold resolver_link; rewrite Hp; by left.
Qed.

Lemma artifact_pushed inputs input : input ∈ inputs →
  repository_node (sd_repo_id input) ∈ facts_nodes (graphql_pushed inputs) ∧
  graphql_artifact_node (sd_repo_id input) (sd_source_path input) ∈ facts_nodes (graphql_pushed inputs) ∧
  ∀ ev, ev ∈ facts_evidence (artifact_facts input) → ev ∈ facts_evidence (graphql_pushed inputs).
Proof.
  intros Hi. unfold graphql_pushed. rewrite !nodes_app, !all_nodes_elem. split_and!.
  - do 4 left. exists input. split; [done|by left].
  - do 4 left. exists input. split; [done|by right; left].
  - intros ev Hev. rewrite !evidence_app, !all_evidence_elem. do 4 left. by exists input.
Qed.

Lemma graphql_closed inputs : closed (graphql_pushed inputs).
Proof.
  apply closed_edges. intros e He.
  apply graphql_pushed_edges in He as [(x & Hx & ->)|[(c & p & Hcp & ->)|(r & p & Hrp & ->)]].
  - destruct (artifact_pushed _ _ Hx) as (H1 & H2 & H3). apply closed_edge_made; [done..|]. by apply Forall_forall.
  - destruct (provider_pushed _ _ (consumed_from_provider _ _ _ Hcp)) as (H1 & H2 & _), (consumer_pushed _ _ (proj1 Hcp)) as (H3 & H4 & _).
    apply (closed_edge_made _ _ _ _ [cs_evidence c; pv_evidence p]); repeat (constructor || done).
  - destruct (provider_pushed _ _ (resolved_by_provider _ _ _ Hrp)) as (H1 & H2 & _), (resolver_pushed _ _ _ Hrp) as (H3 & H4).
    apply (closed_edge_made _ _ _ _ [pv_evidence p; resolver_evidence r]); repeat (constructor || done).
Qed.

Lemma graphql_built inputs : Forall built (facts_edges (graphql_pushed inputs)).
Proof.
  apply Forall_forall. intros e He.
  apply graphql_pushed_edges in He as [(x & Hx & ->)|[(c & p & Hcp & ->)|(r & p & Hrp & ->)]].
  - by eapply built_edge.
  - destruct (provider_pushed _ _ (consumed_from_provider _ _ _ Hcp)) as (_ & _ & k & Hk), (consumer_pushed _ _ (proj1 Hcp)) as (_ & _ & k' & Hk').
    by eapply built_edge.
  - destruct (provider_pushed _ _ (resolved_by_provider _ _ _ Hrp)) as (_ & _ & k & Hk). by eapply built_edge.
Qed.
End graph.

(** C14: The graph of GraphQL documents is well formed: sorted, without repeated
    identifiers, and its edges only mention nodes and evidence of the graph. A
    consumer operation calls a provider field exactly when that is the only
    field with the kind and name of its root; a field is implemented by exactly
    the resolvers declared with its coordinate in its repository; a repository
    contains exactly its artifacts. *)
Theorem graphql_links_exact `{Blake3} inputs :
  digest_separates → digest_plain →
  let facts := graphql_documents_to_graph inputs in
  well_formed facts ∧
  (∀ source target, relates (facts_edges facts) source CallsRemote target ↔
    ∃ consumer provider, consumed_from inputs consumer provider ∧
      source = node_id (cs_node consumer) ∧ target = node_id (pv_node provider)) ∧
  (∀ source target, relates (facts_edges facts) source ImplementedBy target ↔
    ∃ resolver provider, resolved_by inputs resolver provider ∧
      source = node_id (pv_node provider) ∧ target = node_id (resolver_node resolver)) ∧
  (∀ source target, relates (facts_edges facts) source Contains target ↔
    ∃ input, input ∈ inputs ∧ source = node_id (repository_node (sd_repo_id input)) ∧
      target = node_id (graphql_artifact_node (sd_repo_id input) (sd_source_path input))).
Proof.
  intros Hsep Hplain facts. unfold facts. rewrite graphql_finish.
  assert (Hrel : ∀ source kind target, relates (facts_edges (finish (graphql_pushed inputs))) source kind target ↔
    relates (facts_edges (graphql_pushed inputs)) source kind target).
  { intros. apply finished_relates; [done..|apply graphql_built]. }
  split; [apply finish_well_formed, graphql_closed|].
  split_and!; intros source target; rewrite Hrel; split; try (intros (e & He & <- & Hk & <-);
    apply graphql_pushed_edges in He as [(x & Hx & ->)|[(c & p & Hcp & ->)|(r & p & Hrp & ->)]]; try discriminate Hk; eauto 6).
  - intros (c & p & Hcp & -> & ->). exists (consumer_edge c p). rewrite graphql_pushed_edges. split; [eauto 6|done].
  - intros (r & p & Hrp & -> & ->). exists (resolver_edge r p). rewrite graphql_pushed_edges. split; [eauto 7|done].
  - intros (i & Hi & -> & ->). exists (artifact_edge i). rewrite graphql_pushed_edges. split; [eauto|done].
Qed.

Module Example_graphql_graph.
Import Example_digest.
Definition lines : GraphqlLineRange := {| gl_start := 3; gl_end := 4 |}.
Definition field (type name : string) : GraphqlFieldDefinition :=
  {| gf_coordinate := type +:+ "." +:+ name; gf_name := name; gf_arguments := []; gf_type_ref := Named "Int" false;
     gf_directives := []; gf_extension := false; gf_lines := lines |}.
Definition query_type (names : list string) : GraphqlTypeDefinition :=
  {| gt_kind := Object; gt_name := "Query"; gt_fields := map (field "Query") names; gt_implements := []; gt_enum_values := [];
     gt_union_members := []; gt_directives := []; gt_extension := false; gt_lines := lines |}.
Definition operation (paths : list string) : GraphqlOperation :=
  {| go_kind := Query; go_name := None; go_variables := []; go_selections := []; go_consumed_field_paths := paths;
     go_fragment_spreads := []; go_complete := true; go_warnings := []; go_lines := lines |}.
Definition document types operations resolvers : GraphqlDocument :=
  {| gd_source_path := ""; gd_types := types; gd_operations := operations; gd_fragments := []; gd_persisted_operations := [];
     gd_resolvers := resolvers; gd_federation := []; gd_complete := true; gd_warnings := [] |}.
Definition resolver : GraphqlResolver :=
  {| gr_type_name := "Query"; gr_field_name := "user"; gr_coordinate := "Query.user"; gr_symbol := "findUser";
     gr_language := TypeScript; gr_lines := lines |}.
Definition inputs : list (SourceDocument GraphqlDocument) :=
  [{| sd_repo_id := "api"; sd_source_path := "a.graphql"; sd_content_hash := "h1"; sd_document := document [query_type ["user"; "order"]] [] [resolver] |};
   {| sd_repo_id := "shop"; sd_source_path := "b.graphql"; sd_content_hash := "h2"; sd_document := document [query_type ["order"]] [] [] |};
   {| sd_repo_id := "web"; sd_source_path := "q.graphql"; sd_content_hash := "h3"; sd_document := document [] [operation ["user.name"; "order.id"; "user"]] [] |}].

Definition shown (facts : GraphFacts) :=
  map (λ e, (key_of facts (edge_source e), edge_kind e, key_of facts (edge_target e))) (facts_edges facts).

(** [order] has two providers, so the consumer of it stays unlinked. *)
Example graphql_linked :
  shown (graphql_documents_to_graph inputs) =
    [("graphql:api:provider:Query:user", ImplementedBy, "graphql-resolver:api:a.graphql:Query.user:findUser");
     ("graphql:web:consumer:q.graphql:query:anonymous-0:user", CallsRemote, "graphql:api:provider:Query:user");
     ("repository:api", Contains, "graphql-artifact:api:a.graphql");
     ("repository:shop", Contains, "graphql-artifact:shop:b.graphql");
     ("repository:web", Contains, "graphql-artifact:web:q.graphql")].
Proof. by vm_compute. Qed.

Example graphql_links_exact_witness :
  well_formed (graphql_documents_to_graph inputs) ∧
  relates (facts_edges (graphql_documents_to_graph inputs)) (stable_id "node" "graphql:web:consumer:q.graphql:query:anonymous-0:user")
    CallsRemote (stable_id "node" "graphql:api:provider:Query:user").
Proof.
  destruct (graphql_links_exact inputs escaping_separates escaping_plain) as (H1 & H2 & _).
  split; [exact H1|]. apply H2.
  exists (root_consumer "web" "q.graphql" "h3" 0 (operation ["user.name"; "order.id"; "user"]) "user"),
    (field_provider "api" "a.graphql" "h1" (query_type ["user"; "order"]) (Some Query) (field "Query" "user")).
  split; [|split; reflexivity]. split; [|by vm_compute]. apply consumer_elem.
  exists {| sd_repo_id := "web"; sd_source_path := "q.graphql"; sd_content_hash := "h3"; sd_document := document [] [operation ["user.name"; "order.id"; "user"]] [] |}, 0%nat, (operation ["user.name"; "order.id"; "user"]), "user".
  split_and!; [by right; right; left|done|by left|done].
Defined.
End Example_graphql_graph.
