(* ===== verification/ProtobufGraph.v ===== *)
(** * Protobuf documents as graph facts
    ([crates/code-system-graph-core/src/protobuf_graph.rs], the documents of
    [protobuf_contracts.rs]) *)
From stdpp Require Import base gmap sets list strings sorting pretty.
From Stdlib Require Import Ascii.
From S2P Require Import Prelude RustOrd RustFloat RustStr Model CanonicalText Compat CompatGraphql CompatProto GraphFacts.

Inductive ProtoGeneratedRole := Client | Server | Role_Unknown.

Record ProtoGeneratedMarker := {
  mk_language : SourceLanguage;
  mk_source_path : string;
  mk_generator : string;
  mk_role : ProtoGeneratedRole;
  mk_service : string;
  mk_method : string;
  mk_rpc_path : string;
  mk_header_line : N;
  mk_line : N;
}.

Inductive ProtobufDocument :=
| PD_File (file : ProtoFile)
| PD_Generated (markers : list ProtoGeneratedMarker).

Record RpcProvider := {
  rp_service : string;
  rp_method : string;
  rp_node : Node;
  rp_evidence : Evidence;
}.

Definition generated_role_debug (role : ProtoGeneratedRole) : string :=
  match role with Client => "Client" | Server => "Server" | Role_Unknown => "Unknown" end.

Section builder.
Context `{Blake3}.

Definition protobuf_artifact_node (repo_id : RepoId) (source_path : string) : Node :=
  stable_node NK_Artifact (Some repo_id) ("protobuf-artifact:" +:+ repo_id +:+ ":" +:+ source_path) source_path.

Definition protobuf_evidence (repo_id : RepoId) (source_path content_hash : string) (line : N) (note : string) : Evidence :=
  extracted_evidence "code-system-graph.protobuf" repo_id source_path content_hash
    (line_key repo_id source_path line note content_hash) line line note f32_one.

Definition rpc_provider (repo_id : RepoId) (source_path content_hash service : string) (method : ProtoRpcMethod) : RpcProvider :=
  let stable_key := "rpc:" +:+ repo_id +:+ ":provider:" +:+ service +:+ "/" +:+ pr_name method in
  {| rp_service := service; rp_method := pr_name method;
     rp_node := stable_node NK_RpcMethod (Some repo_id) stable_key (service +:+ "/" +:+ pr_name method);
     rp_evidence := protobuf_evidence repo_id source_path content_hash (pr_line method) "protobuf RPC method" |}.

Definition generated_node (repo_id : RepoId) (source_path : string) (marker : ProtoGeneratedMarker) : Node :=
  stable_node NK_SymbolRef (Some repo_id)
    ("rpc:" +:+ repo_id +:+ ":generated:" +:+ source_path +:+ ":" +:+ mk_service marker +:+ "/" +:+ mk_method marker +:+ ":" +:+
      generated_role_debug (mk_role marker))
    (mk_service marker +:+ "/" +:+ mk_method marker).

Definition marker_evidence (marker : SourceDocument ProtoGeneratedMarker) : Evidence :=
  protobuf_evidence (sd_repo_id marker) (sd_source_path marker) (sd_content_hash marker) (mk_line (sd_document marker))
    "generated gRPC method marker".

Definition marker_node (marker : SourceDocument ProtoGeneratedMarker) : Node :=
  generated_node (sd_repo_id marker) (sd_source_path marker) (sd_document marker).

(** The edge of a marker whose provider is found, by the role of the marker. *)
Definition marker_edges (marker : SourceDocument ProtoGeneratedMarker) (provider : RpcProvider) : list Edge :=
  match mk_role (sd_document marker) with
  | Client =>
      [edge (node_id (marker_node marker)) (node_id (rp_node provider)) CallsRemote
         [ev_id (marker_evidence marker); ev_id (rp_evidence provider)] f32_one]
  | Server =>
      [edge (node_id (rp_node provider)) (node_id (marker_node marker)) ImplementedBy
         [ev_id (rp_evidence provider); ev_id (marker_evidence marker)] f32_one]
  | Role_Unknown => []
  end.

Definition link_markers (providers : list RpcProvider) (markers : list (SourceDocument ProtoGeneratedMarker)) (result : GraphFacts)
    : GraphFacts :=
  let candidates := group_by (λ provider, Some (rp_service provider, rp_method provider)) providers in
  foldl (λ result marker,
    match candidates !! (mk_service (sd_document marker), mk_method (sd_document marker)) with
    | None => result
    | Some matches =>
        match matches with
        | [provider] =>
            extend result {| facts_nodes := [marker_node marker]; facts_edges := marker_edges marker provider;
                             facts_evidence := [marker_evidence marker] |}
        | _ => result
        end
    end) result markers.

Definition message_node (repo_id : RepoId) (message : ProtoMessage) : Node :=
  stable_node NK_Artifact (Some repo_id) ("protobuf-message:" +:+ repo_id +:+ ":" +:+ pm_full_name message) (pm_full_name message).

Definition message_facts (repo_id : RepoId) (source_path content_hash : string) (message : ProtoMessage) : GraphFacts :=
  let node := message_node repo_id message in
  let evidence := protobuf_evidence repo_id source_path content_hash (pm_line message) "protobuf message" in
  {| facts_nodes := [node];
     facts_edges := [edge (node_id (protobuf_artifact_node repo_id source_path)) (node_id node) Contains [ev_id evidence] f32_one];
     facts_evidence := [evidence] |}.

Definition artifact_facts (input : SourceDocument ProtobufDocument) : GraphFacts :=
  let repository := repository_node (sd_repo_id input) in
  let artifact := protobuf_artifact_node (sd_repo_id input) (sd_source_path input) in
  let evidence := protobuf_evidence (sd_repo_id input) (sd_source_path input) (sd_content_hash input) 1 "protobuf artifact" in
  {| facts_nodes := [repository; artifact];
     facts_edges := [edge (node_id repository) (node_id artifact) Contains [ev_id evidence] f32_one];
     facts_evidence := [evidence] |}.

Definition collect_document (state : GraphFacts * list RpcProvider * list (SourceDocument ProtoGeneratedMarker))
    (input : SourceDocument ProtobufDocument) :=
  let '(result, providers, markers) := state in
  let result := extend result (artifact_facts input) in
  match sd_document input with
  | PD_File file =>
      (foldl (λ result message,
         extend result (message_facts (sd_repo_id input) (sd_source_path input) (sd_content_hash input) message))
         result (pfl_messages file),
       foldl (λ providers service,
         foldl (λ providers method,
           providers ++ [rpc_provider (sd_repo_id input) (sd_source_path input) (sd_content_hash input) (ps_full_name service) method])
           providers (ps_methods service)) providers (pfl_services file),
       markers)
  | PD_Generated generated =>
      (result, providers,
       markers ++ map (λ marker, {| sd_repo_id := sd_repo_id input; sd_source_path := sd_source_path input;
         sd_content_hash := sd_content_hash input; sd_document := marker |}) generated)
  end.

Definition protobuf_documents_to_graph (inputs : list (SourceDocument ProtobufDocument)) : GraphFacts :=
  let '(result, providers, markers) := foldl collect_document (no_facts, [], []) inputs in
  let result := link_markers providers markers result in
  let result := foldl (λ result provider,
    extend result {| facts_nodes := [rp_node provider]; facts_edges := []; facts_evidence := [rp_evidence provider] |}) result providers in
  finish result.
End builder.

(** ** What is pushed *)
Section pushed.
Context `{Blake3}.
Implicit Types (input : SourceDocument ProtobufDocument) (inputs : list (SourceDocument ProtobufDocument)).

Definition input_facts input : GraphFacts :=
  extend (artifact_facts input)
    (match sd_document input with
     | PD_File file =>
         all_facts (map (message_facts (sd_repo_id input) (sd_source_path input) (sd_content_hash input)) (pfl_messages file))
     | PD_Generated _ => no_facts
     end).

Definition input_providers input : list RpcProvider :=
  match sd_document input with
  | PD_File file =>
      concat (map (λ service, map (rpc_provider (sd_repo_id input) (sd_source_path input) (sd_content_hash input) (ps_full_name service))
        (ps_methods service)) (pfl_services file))
  | PD_Generated _ => []
  end.

Definition input_markers input : list (SourceDocument ProtoGeneratedMarker) :=
  match sd_document input with
  | PD_File _ => []
  | PD_Generated generated =>
      map (λ marker, {| sd_repo_id := sd_repo_id input; sd_source_path := sd_source_path input;
        sd_content_hash := sd_content_hash input; sd_document := marker |}) generated
  end.

Definition rpc_providers inputs := concat (map input_providers inputs).
Definition generated_markers inputs := concat (map input_markers inputs).

Lemma collect_protobuf_document result providers markers input :
  collect_document (result, providers, markers) input =
  (extend result (input_facts input), providers ++ input_providers input, markers ++ input_markers input).
Proof.
  unfold collect_document, input_facts, input_providers, input_markers.
  destruct (sd_document input) as [file|generated]; [|by rewrite extend_none, app_nil_r].
  rewrite app_nil_r, <-extend_assoc.
  rewrite (fold_extend _ (message_facts (sd_repo_id input) (sd_source_path input) (sd_content_hash input))) by done.
  rewrite (fold_append _ (λ service, map (rpc_provider (sd_repo_id input) (sd_source_path input) (sd_content_hash input) (ps_full_name service))
    (ps_methods service))) by (intros; by rewrite fold_push).
  done.
Qed.

Lemma collect_protobuf_documents inputs result providers markers :
  foldl collect_document (result, providers, markers) inputs =
  (extend result (all_facts (map input_facts inputs)), providers ++ rpc_providers inputs, markers ++ generated_markers inputs).
Proof.
  revert result providers markers. induction inputs as [|input inputs IH]; intros r p m.
  - simpl. change (all_facts []) with no_facts. by rewrite extend_none, !app_nil_r.
  - cbn [foldl]. rewrite collect_protobuf_document, IH, extend_assoc. unfold rpc_providers, generated_markers. simpl. by rewrite !(assoc_L (++)).
Qed.

Definition names (marker : SourceDocument ProtoGeneratedMarker) (provider : RpcProvider) : bool :=
  bool_decide (Some (rp_service provider, rp_method provider) = Some (mk_service (sd_document marker), mk_method (sd_document marker))).

Definition marker_link (providers : list RpcProvider) (marker : SourceDocument ProtoGeneratedMarker) : GraphFacts :=
  match List.filter (names marker) providers with
  | [provider] => {| facts_nodes := [marker_node marker]; facts_edges := marker_edges marker provider; facts_evidence := [marker_evidence marker] |}
  | _ => no_facts
  end.

Definition protobuf_pushed inputs : GraphFacts :=
  extend (extend (all_facts (map input_facts inputs)) (all_facts (map (marker_link (rpc_providers inputs)) (generated_markers inputs))))
    (all_facts (map (λ p, {| facts_nodes := [rp_node p]; facts_edges := []; facts_evidence := [rp_evidence p] |}) (rpc_providers inputs))).

Lemma protobuf_finish inputs : protobuf_documents_to_graph inputs = finish (protobuf_pushed inputs).
Proof.
  unfold protobuf_documents_to_graph. rewrite collect_protobuf_documents. cbn [app]. rewrite extend_none_l. f_equal.
  rewrite (fold_extend _ (λ p, {| facts_nodes := [rp_node p]; facts_edges := []; facts_evidence := [rp_evidence p] |})) by done.
  unfold protobuf_pushed. f_equal. apply fold_extend. intros r marker. rewrite group_by_lookup. unfold marker_link, names.
  destruct (List.filter _ _) as [|p [|q l]]; [by rewrite extend_none|done|by rewrite extend_none].
Qed.

Lemma rpc_provider_elem inputs p :
  p ∈ rpc_providers inputs ↔ ∃ input file service method, input ∈ inputs ∧ sd_document input = PD_File file ∧
    service ∈ pfl_services file ∧ method ∈ ps_methods service ∧
    p = rpc_provider (sd_repo_id input) (sd_source_path input) (sd_content_hash input) (ps_full_name service) method.
Proof.
  unfold rpc_providers. rewrite concat_map_In. split.
  - intros (input & Hi & Hp). unfold input_providers in Hp. destruct (sd_document input) as [file|] eqn:E; [|by apply not_elem_of_nil in Hp].
    apply concat_map_In in Hp as (service & Hs & Hp). apply list_elem_of_fmap in Hp as (method & -> & Hm).
    by exists input, file, service, method.
  - intros (input & file & service & method & Hi & E & Hs & Hm & ->). exists input. split; [done|].
    unfold input_providers. rewrite E. apply concat_map_In. exists service. split; [done|]. apply list_elem_of_fmap. by exists method.
Qed.

(** A marker and the only method of its name. *)
Definition generated_from inputs (marker : SourceDocument ProtoGeneratedMarker) (provider : RpcProvider) : Prop :=
  marker ∈ generated_markers inputs ∧ List.filter (names marker) (rpc_providers inputs) = [provider].

Definition contained inputs (source target : NodeId) : Prop :=
  ∃ input, input ∈ inputs ∧
    let artifact := node_id (protobuf_artifact_node (sd_repo_id input) (sd_source_path input)) in
    (source = node_id (repository_node (sd_repo_id input)) ∧ target = artifact ∨
     ∃ file message, sd_document input = PD_File file ∧ message ∈ pfl_messages file ∧
       source = artifact ∧ target = node_id (message_node (sd_repo_id input) message)).
End pushed.

(** ** The finished graph *)
Section graph.
Context `{Blake3}.
Implicit Types (inputs : list (SourceDocument ProtobufDocument)).

Lemma protobuf_pushed_edges inputs e :
  e ∈ facts_edges (protobuf_pushed inputs) ↔
  (∃ input, input ∈ inputs ∧ e ∈ facts_edges (input_facts input)) ∨
  (∃ marker provider, generated_from inputs marker provider ∧ e ∈ marker_edges marker provider).
Proof.
  unfold protobuf_pushed, generated_from. rewrite !edges_app, !all_edges_elem. split.
  - intros [[H1|(m & Hm & He)]|(x & _ & He)]; [by left| |by apply not_elem_of_nil in He].
    right. unfold marker_link in He. destruct (List.filter _ _) as [|p [|q l]] eqn:E; [by apply not_elem_of_nil in He| |by apply not_elem_of_nil in He].
    by exists m, p.
  - intros [H1|(m & p & (Hm & Hp) & He)]; [by do 2 left|]. left; right. exists m. split; [done|].
    unfold marker_link. by rewrite Hp.
Qed.

Lemma rpc_provider_pushed inputs p : p ∈ rpc_providers inputs →
  rp_node p ∈ facts_nodes (protobuf_pushed inputs) ∧ rp_evidence p ∈ facts_evidence (protobuf_pushed inputs) ∧
  ∃ key, node_id (rp_node p) = stable_id "node" key.
Proof.
  intros Hp. unfold protobuf_pushed. split_and!.
  - rewrite nodes_app. right. apply all_nodes_elem. exists p. split; [done|by left].
  - rewrite evidence_app. right. apply all_evidence_elem. exists p. split; [done|by left].
  - apply rpc_provider_elem in Hp as (i & f & s & m & _ & _ & _ & _ & ->). by eexists.
Qed.

Lemma generated_from_provider inputs m p : generated_from inputs m p → p ∈ rpc_providers inputs.
Proof.
  intros [_ Hf]. assert (Hin : p ∈ List.filter (names m) (rpc_providers inputs)) by (rewrite Hf; by left).
  by apply list_filter_In in Hin as [? _].
Qed.

Lemma marker_pushed inputs m p : generated_from inputs m p →
  marker_node m ∈ facts_nodes (protobuf_pushed inputs) ∧ marker_evidence m ∈ facts_evidence (protobuf_pushed inputs).
Proof.
  intros [Hm Hp]. unfold protobuf_pushed.
  split; [rewrite nodes_app; left; rewrite nodes_app; right; apply all_nodes_elem|
    rewrite evidence_app; left; rewrite evidence_app; right; apply all_evidence_elem];
  exists m; (split; [done|]); unfold marker_link; rewrite Hp; by left.
Qed.

Lemma input_edges_elem input e :
  e ∈ facts_edges (input_facts input) ↔
  e ∈ facts_edges (artifact_facts input) ∨ ∃ file message, sd_document input = PD_File file ∧ message ∈ pfl_messages file ∧
    e ∈ facts_edges (message_facts (sd_repo_id input) (sd_source_path input) (sd_content_hash input) message).
Proof.
  unfold input_facts. rewrite edges_app. destruct (sd_document input) as [file|]; [rewrite all_edges_elem; naive_solver|].
  split; [intros [?|Hn]; [by left|by apply not_elem_of_nil in Hn]|intros [?|(? & ? & [=] & _)]; by left].
Qed.

Lemma message_in_input input file message :
  sd_document input = PD_File file → message ∈ pfl_messages file →
  let facts := message_facts (sd_repo_id input) (sd_source_path input) (sd_content_hash input) message in
  (∀ n, n ∈ facts_nodes facts → n ∈ facts_nodes (input_facts input)) ∧
  (∀ ev, ev ∈ facts_evidence facts → ev ∈ facts_evidence (input_facts input)).
Proof.
  intros E Hm facts. unfold input_facts. rewrite E. split; intros x Hx.
  - rewrite nodes_app. right. apply all_nodes_elem. by exists message.
  - rewrite evidence_app. right. apply all_evidence_elem. by exists message.
Qed.

Lemma input_edge_closed input e : e ∈ facts_edges (input_facts input) → closed_edge (input_facts input) e.
Proof.
  assert (Hart : repository_node (sd_repo_id input) ∈ facts_nodes (input_facts input) ∧
    protobuf_artifact_node (sd_repo_id input) (sd_source_path input) ∈ facts_nodes (input_facts input)).
  { unfold input_facts. rewrite !nodes_app. split; left; [by left|by right; left]. }
  destruct Hart as [H1 H2].
  intros [->%list_elem_of_singleton|(file & m & E & Hm & ->%list_elem_of_singleton)]%input_edges_elem.
  - apply (closed_edge_made _ _ _ _ (facts_evidence (artifact_facts input))); [done..|].
    apply Forall_singleton. unfold input_facts. rewrite evidence_app. left. by left.
  - destruct (message_in_input _ _ _ E Hm) as [Hn Hev].
    apply (closed_edge_made _ _ _ _ (facts_evidence (message_facts (sd_repo_id input) (sd_source_path input) (sd_content_hash input) m)));
      [done|apply Hn; by left|]. by apply Forall_forall.
Qed.

Lemma input_facts_pushed inputs input : input ∈ inputs →
  (∀ n, n ∈ facts_nodes (input_facts input) → n ∈ facts_nodes (protobuf_pushed inputs)) ∧
  (∀ ev, ev ∈ facts_evidence (input_facts input) → ev ∈ facts_evidence (protobuf_pushed inputs)).
Proof.
  intros Hi. unfold protobuf_pushed. split; intros x Hx.
  - rewrite !nodes_app, !all_nodes_elem. do 2 left. by exists input.
  - rewrite !evidence_app, !all_evidence_elem. do 2 left. by exists input.
Qed.

Lemma marker_edge_closed inputs m p e :
  generated_from inputs m p → e ∈ marker_edges m p → closed_edge (protobuf_pushed inputs) e.
Proof.
  intros Hmp He. destruct (rpc_provider_pushed _ _ (generated_from_provider _ _ _ Hmp)) as (H1 & H2 & _), (marker_pushed _ _ _ Hmp) as (H3 & H4).
  unfold marker_edges in He. destruct (mk_role (sd_document m)); [| |by apply not_elem_of_nil in He]; apply list_elem_of_singleton in He as ->.
  - apply (closed_edge_made _ _ _ _ [marker_evidence m; rp_evidence p]); repeat (constructor || done).
  - apply (closed_edge_made _ _ _ _ [rp_evidence p; marker_evidence m]); repeat (constructor || done).
Qed.

Lemma protobuf_closed inputs : closed (protobuf_pushed inputs).
Proof.
  apply closed_edges. intros e [(i & Hi & He)|(m & p & Hmp & He)]%protobuf_pushed_edges; [|by eapply marker_edge_closed].
  destruct (input_facts_pushed _ _ Hi) as [Hn Hev]. destruct (input_edge_closed _ _ He) as ((n & H1 & H2) & (n' & H3 & H4) & H5).
  split_and!; [by exists n; auto|by exists n'; auto|]. intros id Hid. destruct (H5 id Hid) as (ev & H6 & H7). exists ev. auto.
Qed.

Lemma protobuf_built inputs : Forall built (facts_edges (protobuf_pushed inputs)).
Proof.
  apply Forall_forall. intros e [(i & Hi & He)|(m & p & Hmp & He)]%protobuf_pushed_edges.
  - apply input_edges_elem in He as [->%list_elem_of_singleton|(file & m & E & Hm & ->%list_elem_of_singleton)]; by eapply built_edge.
  - destruct (rpc_provider_pushed _ _ (generated_from_provider _ _ _ Hmp)) as (_ & _ & k & Hk).
    unfold marker_edges in He. destruct (mk_role (sd_document m)); [| |by apply not_elem_of_nil in He];
      apply list_elem_of_singleton in He as ->; by eapply built_edge.
Qed.

Lemma input_relates inputs source kind target :
  (∃ input e, input ∈ inputs ∧ e ∈ facts_edges (input_facts input) ∧ edge_source e = source ∧ edge_kind e = kind ∧ edge_target e = target) ↔
  kind = Contains ∧ contained inputs source target.
Proof.
  split.
  - intros (i & e & Hi & He & <- & <- & <-).
    apply input_edges_elem in He as [->%list_elem_of_singleton|(file & m & E & Hm & ->%list_elem_of_singleton)];
      (split; [done|]; exists i; split; [done|]); [by left|right; by exists file, m].
  - intros (-> & i & Hi & [[-> ->]|(file & m & E & Hm & -> & ->)]).
    + eexists i, _. rewrite input_edges_elem. split_and!; [done|left; by left|done..].
    + eexists i, _. rewrite input_edges_elem. split_and!; [done|right; exists file, m; split_and!; [done|done|by left]|done..].
Qed.
End graph.

(** The graph of protobuf documents is well formed, and exact: a generated
    client calls, and a generated server implements, a method exactly when it is
    the only one of its service and name in the workspace; a marker without a
    role links nothing; a repository contains exactly its artifacts, and an
    artifact its messages. *)
Theorem rpc_links_exact `{Blake3} inputs :
  digest_separates → digest_plain →
  let facts := protobuf_documents_to_graph inputs in
  well_formed facts ∧
  ∀ source kind target, relates (facts_edges facts) source kind target ↔
    kind = Contains ∧ contained inputs source target ∨
    ∃ marker provider, generated_from inputs marker provider ∧
      (mk_role (sd_document marker) = Client ∧ kind = CallsRemote ∧
         source = node_id (marker_node marker) ∧ target = node_id (rp_node provider) ∨
       mk_role (sd_document marker) = Server ∧ kind = ImplementedBy ∧
         source = node_id (rp_node provider) ∧ target = node_id (marker_node marker)).
Proof.
  intros Hsep Hplain facts. unfold facts. rewrite protobuf_finish. split; [apply finish_well_formed, protobuf_closed|].
  intros source kind target. rewrite finished_relates by (done || apply protobuf_built). rewrite <-input_relates. split.
  - intros (e & [(i & Hi & He)|(m & p & Hmp & He)]%protobuf_pushed_edges & <- & <- & <-); [left; by exists i, e|right].
    exists m, p. split; [done|]. unfold marker_edges in He. destruct (mk_role (sd_document m));
      [left|right|by apply not_elem_of_nil in He]; by apply list_elem_of_singleton in He as ->.
  - intros [(i & e & Hi & He & <- & <- & <-)|(m & p & Hmp & Hrole)].
    + exists e. rewrite protobuf_pushed_edges. split; [left; by exists i|done].
    + destruct Hrole as [(E & -> & -> & ->)|(E & -> & -> & ->)]; eexists; rewrite protobuf_pushed_edges;
        (split; [right; exists m, p; split; [done|]; unfold marker_edges; rewrite E; by left|done]).
Qed.

Module Example_protobuf_graph.
Import Example_digest.
Definition method (name : string) : ProtoRpcMethod :=
  {| pr_name := name; pr_request_type := "A"; pr_response_type := "B"; pr_client_streaming := false; pr_server_streaming := false;
     pr_options := ∅; pr_line := 7 |}.
Definition file (service : string) (methods : list string) : ProtobufDocument :=
  PD_File {| pfl_source_path := ""; pfl_syntax := Proto3; pfl_syntax_line := None; pfl_package := None; pfl_package_line := None;
    pfl_imports := []; pfl_public_imports := []; pfl_weak_imports := []; pfl_import_lines := ∅; pfl_options := ∅;
    pfl_messages := [{| pm_name := "A"; pm_full_name := "p.A"; pm_fields := []; pm_messages := []; pm_enums := [];
      pm_reserved_numbers := []; pm_reserved_names := []; pm_options := ∅; pm_is_extension := false; pm_line := 2 |}];
    pfl_enums := [];
    pfl_services := [{| ps_name := service; ps_full_name := "p." +:+ service; ps_methods := map method methods; ps_options := ∅; ps_line := 5 |}] |}.
Definition marker (role : ProtoGeneratedRole) (service name : string) : ProtoGeneratedMarker :=
  {| mk_language := Go; mk_source_path := ""; mk_generator := "protoc-gen-go-grpc"; mk_role := role; mk_service := "p." +:+ service;
     mk_method := name; mk_rpc_path := ""; mk_header_line := 1; mk_line := 9 |}.
Definition from (repo path : string) (document : ProtobufDocument) : SourceDocument ProtobufDocument :=
  {| sd_repo_id := repo; sd_source_path := path; sd_content_hash := "h"; sd_document := document |}.
Definition inputs : list (SourceDocument ProtobufDocument) :=
  [from "api" "a.proto" (file "Users" ["Get"]); from "bill" "b.proto" (file "Bills" ["Pay"]); from "shop" "b.proto" (file "Bills" ["Pay"]);
   from "web" "g.go" (PD_Generated [marker Client "Users" "Get"; marker Client "Bills" "Pay"; marker Role_Unknown "Users" "Get"]);
   from "api" "s.go" (PD_Generated [marker Server "Users" "Get"])].

Definition calls (facts : GraphFacts) :=
  map (λ e, (key_of facts (edge_source e), edge_kind e, key_of facts (edge_target e)))
    (List.filter (λ e, bool_decide (edge_kind e ≠ Contains)) (facts_edges facts)).

(** [p.Bills/Pay] is declared twice, so its client stays unlinked. *)
Example rpc_linked :
  calls (protobuf_documents_to_graph inputs) =
    [("rpc:api:provider:p.Users/Get", ImplementedBy, "rpc:api:generated:s.go:p.Users/Get:Server");
     ("rpc:web:generated:g.go:p.Users/Get:Client", CallsRemote, "rpc:api:provider:p.Users/Get")].
Proof. by vm_compute. Qed.

Example rpc_links_exact_witness :
  well_formed (protobuf_documents_to_graph inputs) ∧
  ¬ relates (facts_edges (protobuf_documents_to_graph inputs)) (node_id (generated_node "web" "g.go" (marker Client "Bills" "Pay")))
      DependsOnPackage (stable_id "node" "rpc:bill:provider:p.Bills/Pay").
Proof.
  destruct (rpc_links_exact inputs escaping_separates escaping_plain) as (H1 & H2).
  split; [exact H1|]. rewrite H2. intros [[Hk _]|(m & p & _ & [(_ & Hk & _)|(_ & Hk & _)])]; discriminate Hk.
Defined.
End Example_protobuf_graph.
