(* ===== verification/PackageGraph.v ===== *)
(** * Package manifests as graph facts
    ([crates/code-system-graph-core/src/package_graph.rs]) *)
From stdpp Require Import base gmap sets list strings sorting pretty.
From Stdlib Require Import Ascii.
From S2P Require Import Prelude RustOrd RustFloat RustStr Model CanonicalText Compat CompatPackage GraphFacts.

Definition ecosystem_rank (e : PackageEcosystem) : nat :=
  match e with Npm => 0 | Eco_Python => 1 | Cargo => 2 | Eco_Go => 3 | Maven => 4 | Gradle => 5 | NuGet => 6 end.
Definition ecosystem_of_rank (n : nat) : option PackageEcosystem :=
  match n with
  | 0 => Some Npm | 1 => Some Eco_Python | 2 => Some Cargo | 3 => Some Eco_Go | 4 => Some Maven | 5 => Some Gradle | 6 => Some NuGet
  | _ => None
  end%nat.
#[export] Instance PackageEcosystem_eq_dec : EqDecision PackageEcosystem.
Proof. solve_decision. Defined.
#[export] Instance PackageEcosystem_countable : Countable PackageEcosystem.
Proof. by apply (inj_countable ecosystem_rank ecosystem_of_rank); intros []. Defined.
#[export] Instance ecosystem_rank_inj : Inj (=) (=) ecosystem_rank.
Proof. by intros [] []. Qed.
#[export] Instance PackageEcosystem_ord : Ord PackageEcosystem := cmp_on ecosystem_rank cmp.
#[export] Instance PackageEcosystem_total : TotalOrd PackageEcosystem := ranked_total ecosystem_rank.

(** [PackageIdentity]: ecosystem and name, with the derived order. *)
Notation PackageIdentity := (PackageEcosystem * string)%type.

Record PackageDependencyFact := {
  df_source_repo_id : RepoId;
  df_source_node_id : NodeId;
  df_target_node_id : NodeId;
  df_target : PackageIdentity;
  df_evidence_id : EvidenceId;
  df_confidence : f32;
}.

Record PackageGraphFacts := {
  pg_facts : GraphFacts;
  pg_owned_packages : list (PackageIdentity * RepoId);
  pg_dependencies : list PackageDependencyFact;
}.

Definition ecosystem_name (e : PackageEcosystem) : string :=
  match e with
  | Npm => "npm" | Eco_Python => "python" | Cargo => "cargo" | Eco_Go => "go" | Maven => "maven" | Gradle => "gradle" | NuGet => "nuget"
  end.

(** [text.replace(from, to)] for characters. *)
Fixpoint replace_char (from to : ascii) (text : string) : string :=
  match text with
  | "" => ""
  | String c text => String (if Ascii.eqb c from then to else c) (replace_char from to text)
  end.

Definition split_slash (path : string) : list string := split_by (Ascii.eqb "/"%char) path.

Definition workspace_member_manifest (manifest_path member : string) : option string :=
  let parent := match rsplit_once "/"%char manifest_path with Some (parent, _) => parent | None => "" end in
  let member := replace_char "\"%char "/"%char member in
  if starts_with "/" member || existsb (λ component, String.eqb component ".." || String.eqb component "") (split_slash member)
  then None
  else
    let member := join "/" (List.filter (λ component, negb (String.eqb component ".")) (split_slash member)) in
    if String.eqb member "" then Some manifest_path
    else if String.eqb parent "" then Some (member +:+ "/Cargo.toml")
    else Some (parent +:+ "/" +:+ member +:+ "/Cargo.toml").

(** [member.value.contains(['*', '?', '[', ']'])] *)
Definition is_pattern (value : string) : bool :=
  str_any (λ c, Ascii.eqb c "*" || Ascii.eqb c "?" || Ascii.eqb c "[" || Ascii.eqb c "]")%char value.

Section builder.
Context `{Blake3}.

Definition package_artifact_node (repo_id : RepoId) (source_path : string) : Node :=
  stable_node NK_Artifact (Some repo_id) ("artifact:" +:+ repo_id +:+ ":" +:+ source_path) source_path.

Definition package_node (identity : PackageIdentity) : Node :=
  let ecosystem := ecosystem_name identity.1 in
  stable_node NK_Package None ("package:" +:+ ecosystem +:+ ":" +:+ identity.2) (ecosystem +:+ ":" +:+ identity.2).

Definition package_evidence (repo_id : RepoId) (source_path content_hash : string) (line : N) (note : string) (confidence : f32) : Evidence :=
  extracted_evidence "code-system-graph.packages" repo_id source_path content_hash
    (line_key repo_id source_path line note content_hash) line line note confidence.

Definition deduplicate_package_facts (facts : PackageGraphFacts) : PackageGraphFacts :=
  {| pg_facts := finish (pg_facts facts);
     pg_owned_packages := sorted_unique (pg_owned_packages facts);
     pg_dependencies := pg_dependencies facts |}.

Definition push_facts (result : PackageGraphFacts) (pushed : GraphFacts) : PackageGraphFacts :=
  {| pg_facts := extend (pg_facts result) pushed; pg_owned_packages := pg_owned_packages result; pg_dependencies := pg_dependencies result |}.

Section manifest.
Context (repo_id : RepoId) (source_path content_hash : string).

Definition manifest_facts : GraphFacts :=
  let evidence := package_evidence repo_id source_path content_hash 1 "manifest artifact" f32_one in
  {| facts_nodes := [repository_node repo_id; package_artifact_node repo_id source_path];
     facts_edges := [edge (node_id (repository_node repo_id)) (node_id (package_artifact_node repo_id source_path)) Contains [ev_id evidence] f32_one];
     facts_evidence := [evidence] |}.

Definition package_identity (package : PackageCoordinate) : PackageIdentity := (pk_ecosystem package, pk_name package).

Definition package_facts (package : PackageCoordinate) : GraphFacts :=
  let node := package_node (package_identity package) in
  let evidence := package_evidence repo_id source_path content_hash (pel_line (pk_evidence package)) "package coordinate" (pk_confidence package) in
  {| facts_nodes := [node];
     facts_edges := [edge (node_id (package_artifact_node repo_id source_path)) (node_id node) Contains [ev_id evidence] (pk_confidence package)];
     facts_evidence := [evidence] |}.

Definition append_package (state : PackageGraphFacts * list NodeId) (package : PackageCoordinate) : PackageGraphFacts * list NodeId :=
  let '(result, owner_nodes) := state in
  ({| pg_facts := extend (pg_facts result) (package_facts package);
      pg_owned_packages := pg_owned_packages result ++ [(package_identity package, repo_id)];
      pg_dependencies := pg_dependencies result |},
   owner_nodes ++ [node_id (package_node (package_identity package))]).

Definition member_facts (member : PackageManifestValue) (member_manifest : string) : GraphFacts :=
  let node := package_artifact_node repo_id member_manifest in
  let evidence := package_evidence repo_id source_path content_hash (pel_line (pmv_evidence member)) "workspace member" (pmv_confidence member) in
  {| facts_nodes := [node];
     facts_edges := [edge (node_id (package_artifact_node repo_id source_path)) (node_id node) Contains [ev_id evidence] (pmv_confidence member)];
     facts_evidence := [evidence] |}.

Definition append_member (result : PackageGraphFacts) (member : PackageManifestValue) : PackageGraphFacts :=
  if is_pattern (pmv_value member) then result
  else
    match workspace_member_manifest source_path (pmv_value member) with
    | None => result
    | Some member_manifest => push_facts result (member_facts member member_manifest)
    end.

Definition dependency_identity (dependency : PackageDependency) : PackageIdentity := (pd_ecosystem dependency, pd_name dependency).

Definition dependency_evidence (dependency : PackageDependency) : Evidence :=
  package_evidence repo_id source_path content_hash (pel_line (pd_evidence dependency)) "package dependency" (pd_confidence dependency).

Definition dependency_facts (source_node : NodeId) (dependency : PackageDependency) : GraphFacts :=
  let node := package_node (dependency_identity dependency) in
  {| facts_nodes := [node];
     facts_edges := [edge source_node (node_id node) DependsOnPackage [ev_id (dependency_evidence dependency)] (pd_confidence dependency)];
     facts_evidence := [dependency_evidence dependency] |}.

Definition dependency_fact (source_node : NodeId) (dependency : PackageDependency) : PackageDependencyFact :=
  {| df_source_repo_id := repo_id; df_source_node_id := source_node;
     df_target_node_id := node_id (package_node (dependency_identity dependency)); df_target := dependency_identity dependency;
     df_evidence_id := ev_id (dependency_evidence dependency); df_confidence := pd_confidence dependency |}.

Definition append_dependency (source_node : NodeId) (result : PackageGraphFacts) (dependency : PackageDependency) : PackageGraphFacts :=
  {| pg_facts := extend (pg_facts result) (dependency_facts source_node dependency);
     pg_owned_packages := pg_owned_packages result;
     pg_dependencies := pg_dependencies result ++ [dependency_fact source_node dependency] |}.

Definition package_manifest_to_graph (manifest : PackageManifest) : PackageGraphFacts :=
  let result := {| pg_facts := manifest_facts; pg_owned_packages := []; pg_dependencies := [] |} in
  let '(result, owner_nodes) := foldl append_package (result, []) (mf_packages manifest) in
  let result := foldl append_member result (mf_workspace_members manifest) in
  let dependency_source := default (node_id (package_artifact_node repo_id source_path)) (head owner_nodes) in
  let result := foldl (append_dependency dependency_source) result (mf_dependencies manifest) in
  deduplicate_package_facts result.
End manifest.

(** ** Owners across repositories *)
Definition insert_owner (owners : gmap PackageIdentity (gset RepoId)) (owned : PackageIdentity * RepoId) : gmap PackageIdentity (gset RepoId) :=
  <[owned.1 := {[owned.2]} ∪ default ∅ (owners !! owned.1)]> owners.

Definition package_owners (facts : list PackageGraphFacts) : gmap PackageIdentity (gset RepoId) :=
  foldl (λ owners fact, foldl insert_owner owners (pg_owned_packages fact)) ∅ facts.

Definition owner_facts (dependency : PackageDependencyFact) (owner : RepoId) : GraphFacts :=
  {| facts_nodes := [repository_node owner];
     facts_edges := [edge (df_source_node_id dependency) (node_id (repository_node owner)) DependsOnRepository
       [df_evidence_id dependency] (df_confidence dependency)];
     facts_evidence := [] |}.

Definition link_dependency (owners : gmap PackageIdentity (gset RepoId)) (fact : PackageGraphFacts) (dependency : PackageDependencyFact)
    : PackageGraphFacts :=
  match owners !! df_target dependency with
  | None => fact
  | Some owner_set =>
      if negb (size owner_set =? 1)%nat || bool_decide (df_source_repo_id dependency ∈ owner_set) then fact
      else
        match head (bset_elements owner_set) with
        | None => fact
        | Some owner => push_facts fact (owner_facts dependency owner)
        end
  end.

Definition link_registered_package_owners (facts : list PackageGraphFacts) : list PackageGraphFacts :=
  let owners := package_owners facts in
  map (λ fact, deduplicate_package_facts (foldl (link_dependency owners) fact (pg_dependencies fact))) facts.
End builder.

(** ** What a manifest pushes *)
Section pushed.
Context `{Blake3} (repo_id : RepoId) (source_path content_hash : string).

Definition member_link (member : PackageManifestValue) : GraphFacts :=
  if is_pattern (pmv_value member) then no_facts
  else
    match workspace_member_manifest source_path (pmv_value member) with
    | None => no_facts
    | Some member_manifest => member_facts repo_id source_path content_hash member member_manifest
    end.

(** The node that declares the dependencies of a manifest. *)
Definition dependency_source (manifest : PackageManifest) : NodeId :=
  match mf_packages manifest with
  | package :: _ => node_id (package_node (package_identity package))
  | [] => node_id (package_artifact_node repo_id source_path)
  end.

Definition manifest_pushed (manifest : PackageManifest) : GraphFacts :=
  extend (extend (extend (manifest_facts repo_id source_path content_hash)
    (all_facts (map (package_facts repo_id source_path content_hash) (mf_packages manifest))))
    (all_facts (map member_link (mf_workspace_members manifest))))
    (all_facts (map (dependency_facts repo_id source_path content_hash (dependency_source manifest)) (mf_dependencies manifest))).

Lemma append_packages result owner_nodes packages :
  foldl (append_package repo_id source_path content_hash) (result, owner_nodes) packages =
  ({| pg_facts := extend (pg_facts result) (all_facts (map (package_facts repo_id source_path content_hash) packages));
      pg_owned_packages := pg_owned_packages result ++ map (λ package, (package_identity package, repo_id)) packages;
      pg_dependencies := pg_dependencies result |},
   owner_nodes ++ map (λ package, node_id (package_node (package_identity package))) packages).
Proof.
  revert result owner_nodes. induction packages as [|package packages IH]; intros r o.
  - simpl. change (all_facts []) with no_facts. rewrite extend_none, !app_nil_r. by destruct r.
  - cbn [foldl append_package]. rewrite IH. simpl. rewrite extend_assoc, <-!app_assoc. done.
Qed.

Lemma push_none result : push_facts result no_facts = result.
Proof. unfold push_facts. rewrite extend_none. by destruct result. Qed.

Lemma append_members result members :
  foldl (append_member repo_id source_path content_hash) result members =
  push_facts result (all_facts (map member_link members)).
Proof.
  revert result. induction members as [|member members IH]; intros r; [symmetry; apply push_none|].
  assert (append_member repo_id source_path content_hash r member = push_facts r (member_link member)) as Hone.
  { unfold append_member, member_link. destruct (is_pattern _); [by rewrite push_none|].
    by destruct (workspace_member_manifest _ _); [|rewrite push_none]. }
  cbn [foldl]. rewrite IH, Hone. unfold push_facts. simpl. by rewrite extend_assoc.
Qed.

Lemma append_dependencies source result dependencies :
  foldl (append_dependency repo_id source_path content_hash source) result dependencies =
  {| pg_facts := extend (pg_facts result) (all_facts (map (dependency_facts repo_id source_path content_hash source) dependencies));
     pg_owned_packages := pg_owned_packages result;
     pg_dependencies := pg_dependencies result ++ map (dependency_fact repo_id source_path content_hash source) dependencies |}.
Proof.
  revert result. induction dependencies as [|d dependencies IH]; intros r.
  - simpl. change (all_facts []) with no_facts. rewrite extend_none, app_nil_r. by destruct r.
  - cbn [foldl append_dependency]. rewrite IH. simpl. by rewrite extend_assoc, <-app_assoc.
Qed.

Lemma manifest_graph manifest :
  package_manifest_to_graph repo_id source_path content_hash manifest =
  {| pg_facts := finish (manifest_pushed manifest);
     pg_owned_packages := sorted_unique (map (λ package, (package_identity package, repo_id)) (mf_packages manifest));
     pg_dependencies := map (dependency_fact repo_id source_path content_hash (dependency_source manifest)) (mf_dependencies manifest) |}.
Proof.
  unfold package_manifest_to_graph. rewrite append_packages. cbn [app]. rewrite append_members, append_dependencies.
  unfold deduplicate_package_facts, manifest_pushed. cbn [pg_facts pg_owned_packages pg_dependencies push_facts app].
  replace (default _ (head _)) with (dependency_source manifest); [done|]. unfold dependency_source.
  by destruct (mf_packages manifest).
Qed.

(** The edges of a manifest. *)
Definition declares (manifest : PackageManifest) (source : NodeId) (kind : EdgeKind) (target : NodeId) : Prop :=
  let artifact := node_id (package_artifact_node repo_id source_path) in
  kind = Contains ∧ source = node_id (repository_node repo_id) ∧ target = artifact ∨
  kind = Contains ∧ source = artifact ∧ (∃ package, package ∈ mf_packages manifest ∧ target = node_id (package_node (package_identity package))) ∨
  kind = Contains ∧ source = artifact ∧ (∃ member path, member ∈ mf_workspace_members manifest ∧ is_pattern (pmv_value member) = false ∧
    workspace_member_manifest source_path (pmv_value member) = Some path ∧ target = node_id (package_artifact_node repo_id path)) ∨
  kind = DependsOnPackage ∧ source = dependency_source manifest ∧
    (∃ dependency, dependency ∈ mf_dependencies manifest ∧ target = node_id (package_node (dependency_identity dependency))).

Lemma member_link_cases member :
  (member_link member = no_facts ∧ (is_pattern (pmv_value member) = true ∨ workspace_member_manifest source_path (pmv_value member) = None)) ∨
  ∃ path, is_pattern (pmv_value member) = false ∧ workspace_member_manifest source_path (pmv_value member) = Some path ∧
    member_link member = member_facts repo_id source_path content_hash member path.
Proof.
  unfold member_link. destruct (is_pattern _); [by left; auto|]. destruct (workspace_member_manifest _ _) as [path|]; [right|left; auto].
  by exists path.
Qed.

Lemma manifest_pushed_edges manifest e :
  e ∈ facts_edges (manifest_pushed manifest) ↔
  e ∈ facts_edges (manifest_facts repo_id source_path content_hash) ∨
  (∃ package, package ∈ mf_packages manifest ∧ e ∈ facts_edges (package_facts repo_id source_path content_hash package)) ∨
  (∃ member path, member ∈ mf_workspace_members manifest ∧ is_pattern (pmv_value member) = false ∧
    workspace_member_manifest source_path (pmv_value member) = Some path ∧ e ∈ facts_edges (member_facts repo_id source_path content_hash member path)) ∨
  (∃ dependency, dependency ∈ mf_dependencies manifest ∧
    e ∈ facts_edges (dependency_facts repo_id source_path content_hash (dependency_source manifest) dependency)).
Proof.
  unfold manifest_pushed. rewrite !edges_app, !all_edges_elem. split.
  - intros [[[?|?]|(m & Hm & He)]|?]; [by auto..| |by auto]. do 2 right; left.
    destruct (member_link_cases m) as [[E _]|(path & H1 & H2 & E)]; rewrite E in He; [by apply not_elem_of_nil in He|].
    by exists m, path.
  - intros [?|[?|[(m & path & Hm & H1 & H2 & He)|?]]]; [by auto..| |by auto]. left; right. exists m. split; [done|].
    unfold member_link. by rewrite H1, H2.
Qed.

Lemma manifest_relates manifest source kind target :
  relates (facts_edges (manifest_pushed manifest)) source kind target ↔ declares manifest source kind target.
Proof.
  unfold declares. split.
  - intros (e & He & <- & <- & <-). apply manifest_pushed_edges in He as [He|[(p & Hp & He)|[(m & path & Hm & H1 & H2 & He)|(d & Hd & He)]]];
      apply list_elem_of_singleton in He as ->; simpl; [by auto|eauto 7|eauto 12|eauto 10].
  - intros [(-> & -> & ->)|[(-> & -> & p & Hp & ->)|[(-> & -> & m & path & Hm & H1 & H2 & ->)|(-> & -> & d & Hd & ->)]]];
      eexists; rewrite manifest_pushed_edges.
    + split; [left; by left|done].
    + split; [right; left; exists p; split; [done|by left]|done].
    + split; [do 2 right; left; exists m, path; split_and!; [done..|by left]|done].
    + split; [do 3 right; exists d; split; [done|by left]|done].
Qed.
End pushed.

(** ** Closed manifests *)
Section closed_manifest.
Context `{Blake3} (repo_id : RepoId) (source_path content_hash : string) (manifest : PackageManifest).
Notation pushed := (manifest_pushed repo_id source_path content_hash manifest).
Notation artifact := (package_artifact_node repo_id source_path).

Lemma manifest_artifact_pushed : artifact ∈ facts_nodes pushed ∧ repository_node repo_id ∈ facts_nodes pushed.
Proof. unfold manifest_pushed. rewrite !nodes_app. split; do 3 left; [by right; left|by left]. Qed.

Lemma manifest_evidence_pushed ev : ev ∈ facts_evidence (manifest_facts repo_id source_path content_hash) → ev ∈ facts_evidence pushed.
Proof. unfold manifest_pushed. rewrite !evidence_app. auto. Qed.

Lemma package_pushed package : package ∈ mf_packages manifest →
  package_node (package_identity package) ∈ facts_nodes pushed ∧
  ∀ ev, ev ∈ facts_evidence (package_facts repo_id source_path content_hash package) → ev ∈ facts_evidence pushed.
Proof.
  intros Hp. unfold manifest_pushed. split; [|intros ev Hev]; rewrite ?nodes_app, ?evidence_app, ?all_nodes_elem, ?all_evidence_elem;
    do 2 left; right; exists package; (split; [done|]); [by left|done].
Qed.

Lemma member_pushed member path : member ∈ mf_workspace_members manifest → is_pattern (pmv_value member) = false →
  workspace_member_manifest source_path (pmv_value member) = Some path →
  package_artifact_node repo_id path ∈ facts_nodes pushed ∧
  ∀ ev, ev ∈ facts_evidence (member_facts repo_id source_path content_hash member path) → ev ∈ facts_evidence pushed.
Proof.
  intros Hm H1 H2. unfold manifest_pushed. split; [|intros ev Hev]; rewrite ?nodes_app, ?evidence_app, ?all_nodes_elem, ?all_evidence_elem;
    left; right; exists member; (split; [done|]); unfold member_link; rewrite H1, H2; [by left|done].
Qed.

Lemma dependency_pushed dependency : dependency ∈ mf_dependencies manifest →
  package_node (dependency_identity dependency) ∈ facts_nodes pushed ∧
  dependency_evidence repo_id source_path content_hash dependency ∈ facts_evidence pushed.
Proof.
  intros Hd. unfold manifest_pushed. split; rewrite ?nodes_app, ?evidence_app, ?all_nodes_elem, ?all_evidence_elem;
    right; exists dependency; (split; [done|]); by left.
Qed.

Lemma dependency_source_pushed : ∃ n, n ∈ facts_nodes pushed ∧ node_id n = dependency_source repo_id source_path manifest.
Proof.
  unfold dependency_source. destruct (mf_packages manifest) as [|package l] eqn:E.
  - exists artifact. split; [apply manifest_artifact_pushed|done].
  - exists (package_node (package_identity package)). split; [|done]. apply package_pushed. rewrite E. by left.
Qed.

Lemma manifest_closed : closed pushed.
Proof.
  destruct manifest_artifact_pushed as [Ha Hr].
  apply closed_edges. intros e He. apply manifest_pushed_edges in He as [He|[(p & Hp & He)|[(m & path & Hm & H1 & H2 & He)|(d & Hd & He)]]];
    apply list_elem_of_singleton in He as ->.
  - apply (closed_edge_made _ _ _ _ (facts_evidence (manifest_facts repo_id source_path content_hash))); [done..|].
    apply Forall_forall. apply manifest_evidence_pushed.
  - destruct (package_pushed p Hp) as [Hn Hev].
    apply (closed_edge_made _ _ _ _ (facts_evidence (package_facts repo_id source_path content_hash p))); [done..|]. by apply Forall_forall.
  - destruct (member_pushed m path Hm H1 H2) as [Hn Hev].
    apply (closed_edge_made _ _ _ _ (facts_evidence (member_facts repo_id source_path content_hash m path))); [done..|]. by apply Forall_forall.
  - destruct (dependency_pushed d Hd) as [Hn Hev], dependency_source_pushed as (n & Hs & <-).
    apply (closed_edge_made _ _ _ _ [dependency_evidence repo_id source_path content_hash d]); [done..|]. by apply Forall_singleton.
Qed.

Lemma dependency_source_stable : ∃ key, dependency_source repo_id source_path manifest = stable_id "node" key.
Proof. unfold dependency_source. destruct (mf_packages manifest); by eexists. Qed.

Lemma manifest_built : Forall built (facts_edges pushed).
Proof.
  destruct dependency_source_stable as (key & Hkey).
  apply Forall_forall. intros e He. apply manifest_pushed_edges in He as [He|[(p & Hp & He)|[(m & path & Hm & H1 & H2 & He)|(d & Hd & He)]]];
    apply list_elem_of_singleton in He as ->; by eapply built_edge.
Qed.
End closed_manifest.

(** ** Owners *)
Section owners.
Context `{Blake3}.

(** [owner] is the only repository that owns [package]. *)
Definition only_owner (facts : list PackageGraphFacts) (package : PackageIdentity) (owner : RepoId) : Prop :=
  ∀ repo, (∃ fact, fact ∈ facts ∧ (package, repo) ∈ pg_owned_packages fact) ↔ repo = owner.

Lemma insert_owners owners owned package repo :
  repo ∈ default ∅ (foldl insert_owner owners owned !! package) ↔ repo ∈ default ∅ (owners !! package) ∨ (package, repo) ∈ owned.
Proof.
  revert owners. induction owned as [|[p r] owned IH]; intros owners; cbn [foldl].
  - split; [by left|intros [?|Hn]; [done|by apply not_elem_of_nil in Hn]].
  - rewrite IH, elem_of_cons. unfold insert_owner. cbn [fst snd]. rewrite lookup_insert. case_decide as E; subst; simpl.
    + rewrite elem_of_union, elem_of_singleton. split; [intros [[->|?]|?]; auto|intros [?|[[= ->]|?]]; auto].
    + split; [intros [?|?]; auto|intros [?|[[= -> ->]|?]]; [by auto|done|by auto]].
Qed.

Lemma package_owners_elem facts package repo :
  repo ∈ default ∅ (package_owners facts !! package) ↔ ∃ fact, fact ∈ facts ∧ (package, repo) ∈ pg_owned_packages fact.
Proof.
  unfold package_owners. induction facts as [|fact facts IH] using rev_ind.
  - cbn [foldl]. rewrite lookup_empty. split; [set_solver|]. intros (f & Hf & _). by apply not_elem_of_nil in Hf.
  - rewrite foldl_app. cbn [foldl]. rewrite insert_owners, IH. split.
    + intros [(f & Hf & Hp)|Hp]; [exists f|exists fact]; set_solver.
    + intros (f & [Hf| ->%list_elem_of_singleton]%elem_of_app & Hp); [left; by exists f|by right].
Qed.

Definition owner_link (owners : gmap PackageIdentity (gset RepoId)) (dependency : PackageDependencyFact) : GraphFacts :=
  match owners !! df_target dependency with
  | None => no_facts
  | Some owner_set =>
      if negb (size owner_set =? 1)%nat || bool_decide (df_source_repo_id dependency ∈ owner_set) then no_facts
      else
        match head (bset_elements owner_set) with
        | None => no_facts
        | Some owner => owner_facts dependency owner
        end
  end.

Lemma link_dependencies owners fact dependencies :
  foldl (link_dependency owners) fact dependencies = push_facts fact (all_facts (map (owner_link owners) dependencies)).
Proof.
  revert fact. induction dependencies as [|d dependencies IH]; intros fact; [symmetry; apply push_none|].
  assert (link_dependency owners fact d = push_facts fact (owner_link owners d)) as Hone.
  { unfold link_dependency, owner_link. destruct (owners !! _); [|by rewrite push_none].
    destruct (_ || _); [by rewrite push_none|]. by destruct (head _); [|rewrite push_none]. }
  cbn [foldl]. rewrite IH, Hone. unfold push_facts. simpl. by rewrite extend_assoc.
Qed.

Lemma size_one_head (s : gset RepoId) : (size s =? 1)%nat = true → ∃ x, s = {[x]} ∧ head (bset_elements s) = Some x.
Proof.
  intros Hs%Nat.eqb_eq. apply size_1_elem_of in Hs as [x Hx]. apply leibniz_equiv in Hx as ->. exists x. split; [done|].
  unfold bset_elements. by rewrite elements_singleton.
Qed.

(** A dependency is linked exactly to the only owner, in another repository. *)
Lemma owner_link_cases facts dependency :
  (∃ owner, only_owner facts (df_target dependency) owner ∧ owner ≠ df_source_repo_id dependency ∧
    owner_link (package_owners facts) dependency = owner_facts dependency owner) ∨
  owner_link (package_owners facts) dependency = no_facts ∧
    ∀ owner, only_owner facts (df_target dependency) owner → owner = df_source_repo_id dependency.
Proof.
  pose proof (package_owners_elem facts (df_target dependency)) as Hown. unfold owner_link.
  destruct (package_owners facts !! df_target dependency) as [s|]; simpl in Hown.
  2:{ right. split; [done|]. intros owner Ho. exfalso. apply (not_elem_of_empty (C:=gset RepoId) owner). by apply Hown, Ho. }
  assert (Honly : ∀ owner, only_owner facts (df_target dependency) owner ↔ s = {[owner]}).
  { intros owner. unfold only_owner. split.
    - intros Ho. apply set_eq. intros x. by rewrite Hown, Ho, elem_of_singleton.
    - intros -> repo. by rewrite <-Hown, elem_of_singleton. }
  destruct (size s =? 1)%nat eqn:Esize; simpl.
  2:{ right. split; [done|]. intros owner ->%Honly. by rewrite size_singleton in Esize. }
  destruct (size_one_head s Esize) as (x & -> & Hhead). rewrite Hhead. case_bool_decide as Hin.
  - right. split; [done|]. intros owner E%Honly. set_solver.
  - left. exists x. rewrite Honly. split_and!; [done|set_solver|done].
Qed.

Lemma owner_link_edges facts dependency e :
  e ∈ facts_edges (owner_link (package_owners facts) dependency) ↔
  ∃ owner, only_owner facts (df_target dependency) owner ∧ owner ≠ df_source_repo_id dependency ∧ e ∈ facts_edges (owner_facts dependency owner).
Proof.
  destruct (owner_link_cases facts dependency) as [(owner & H1 & H2 & ->)|[-> Hno]].
  - split; [intros He; by exists owner|]. intros (owner' & H3 & H4 & He). enough (owner' = owner) as <- by done.
    apply H1, H3. done.
  - split; [intros He; by apply not_elem_of_nil in He|]. intros (owner & H1 & H2 & _). by apply Hno in H1.
Qed.
End owners.

(** ** Manifests of a workspace *)
Section workspace.
Context `{Blake3}.
Implicit Types (inputs : list (SourceDocument PackageManifest)).

Definition input_graph (input : SourceDocument PackageManifest) : PackageGraphFacts :=
  package_manifest_to_graph (sd_repo_id input) (sd_source_path input) (sd_content_hash input) (sd_document input).

Definition package_graphs inputs : list PackageGraphFacts := link_registered_package_owners (map input_graph inputs).

(** [repo] declares a package in one of its manifests. *)
Definition declares_package inputs (package : PackageIdentity) (repo : RepoId) : Prop :=
  ∃ input coordinate, input ∈ inputs ∧ sd_repo_id input = repo ∧ coordinate ∈ mf_packages (sd_document input) ∧
    package_identity coordinate = package.

Lemma only_owner_declares inputs package owner :
  only_owner (map input_graph inputs) package owner ↔ ∀ repo, declares_package inputs package repo ↔ repo = owner.
Proof.
  unfold only_owner, declares_package.
  assert (Heq : ∀ repo, (∃ fact, fact ∈ map input_graph inputs ∧ (package, repo) ∈ pg_owned_packages fact) ↔
    ∃ input coordinate, input ∈ inputs ∧ sd_repo_id input = repo ∧ coordinate ∈ mf_packages (sd_document input) ∧
      package_identity coordinate = package).
  { intros repo. split.
    - intros (f & (input & -> & Hi)%list_elem_of_fmap & Hp). unfold input_graph in Hp. rewrite manifest_graph in Hp. cbn [pg_owned_packages] in Hp.
      apply sorted_unique_elem_of, list_elem_of_fmap in Hp as (c & [= -> ->] & Hc). by exists input, c.
    - intros (input & c & Hi & <- & Hc & <-). exists (input_graph input). split; [apply list_elem_of_fmap; by exists input|].
      unfold input_graph. rewrite manifest_graph. cbn [pg_owned_packages]. rewrite sorted_unique_elem_of.
      apply list_elem_of_fmap. by exists c. }
  split; intros Hr repo; [rewrite <-Heq|rewrite Heq]; apply Hr.
Qed.

Definition input_pushed (input : SourceDocument PackageManifest) : GraphFacts :=
  manifest_pushed (sd_repo_id input) (sd_source_path input) (sd_content_hash input) (sd_document input).

Definition input_dependency (input : SourceDocument PackageManifest) : PackageDependency → PackageDependencyFact :=
  dependency_fact (sd_repo_id input) (sd_source_path input) (sd_content_hash input)
    (dependency_source (sd_repo_id input) (sd_source_path input) (sd_document input)).

Definition linked_pushed inputs (input : SourceDocument PackageManifest) : GraphFacts :=
  extend (finish (input_pushed input))
    (all_facts (map (owner_link (package_owners (map input_graph inputs))) (map (input_dependency input) (mf_dependencies (sd_document input))))).

Lemma package_graphs_finish inputs input i :
  inputs !! i = Some input → ∃ result, package_graphs inputs !! i = Some result ∧ pg_facts result = finish (linked_pushed inputs input).
Proof.
  intros Hi. eexists. unfold package_graphs, link_registered_package_owners. split.
  { change (map ?f (map ?g ?l)) with (f <$> (g <$> l)). rewrite !list_lookup_fmap, Hi. done. }
  rewrite link_dependencies. cbn [pg_facts deduplicate_package_facts push_facts].
  assert (input_graph input = package_manifest_to_graph (sd_repo_id input) (sd_source_path input) (sd_content_hash input) (sd_document input)) as E by done.
  rewrite manifest_graph in E. unfold linked_pushed. by rewrite E.
Qed.

Lemma linked_edges inputs input e :
  e ∈ facts_edges (linked_pushed inputs input) ↔ e ∈ facts_edges (finish (input_pushed input)) ∨
  ∃ dependency owner, dependency ∈ mf_dependencies (sd_document input) ∧
    only_owner (map input_graph inputs) (dependency_identity dependency) owner ∧ owner ≠ sd_repo_id input ∧
    e ∈ facts_edges (owner_facts (input_dependency input dependency) owner).
Proof.
  unfold linked_pushed. rewrite edges_app, all_edges_elem. f_equiv. split.
  - intros (d & (dependency & -> & Hd)%list_elem_of_fmap & He). apply owner_link_edges in He as (owner & H1 & H2 & He).
    by exists dependency, owner.
  - intros (dependency & owner & Hd & H1 & H2 & He). exists (input_dependency input dependency).
    split; [apply list_elem_of_fmap; by exists dependency|]. apply owner_link_edges. by exists owner.
Qed.

Lemma linked_built inputs input : Forall built (facts_edges (linked_pushed inputs input)).
Proof.
  apply Forall_forall. intros e [He%keep_first_from|(d & owner & _ & _ & _ & ->%list_elem_of_singleton)]%linked_edges.
  - pose proof (manifest_built (sd_repo_id input) (sd_source_path input) (sd_content_hash input) (sd_document input)) as Hb.
    rewrite Forall_forall in Hb. by apply Hb.
  - destruct (dependency_source_stable (sd_repo_id input) (sd_source_path input) (sd_document input)) as (key & Hkey).
    by eapply built_edge.
Qed.

Lemma linked_closed inputs input : closed (linked_pushed inputs input).
Proof.
  destruct (wf_closed _ (finish_well_formed _ (manifest_closed (sd_repo_id input) (sd_source_path input) (sd_content_hash input) (sd_document input)))) as [Hs Ht Hev].
  fold (input_pushed input) in Hs, Ht, Hev.
  assert (Hn : ∀ id, id ∈ map node_id (facts_nodes (finish (input_pushed input))) → ∃ n, n ∈ facts_nodes (linked_pushed inputs input) ∧ node_id n = id).
  { intros id (n & -> & Hn)%list_elem_of_fmap. exists n. unfold linked_pushed. rewrite nodes_app. auto. }
  assert (Hv : ∀ id, id ∈ map ev_id (facts_evidence (finish (input_pushed input))) → ∃ ev, ev ∈ facts_evidence (linked_pushed inputs input) ∧ ev_id ev = id).
  { intros id (ev & -> & Hx)%list_elem_of_fmap. exists ev. unfold linked_pushed. rewrite evidence_app. auto. }
  apply closed_edges. intros e [He|(d & owner & Hd & H1 & H2 & ->%list_elem_of_singleton)]%linked_edges.
  { split_and!; [by apply Hn, Hs|by apply Hn, Ht|]. intros id Hid. by eapply Hv, Hev. }
  split_and!; cbn [edge edge_source edge_target edge_evidence input_dependency dependency_fact df_source_node_id df_evidence_id].
  - destruct (dependency_source_pushed (sd_repo_id input) (sd_source_path input) (sd_content_hash input) (sd_document input)) as (n & Hin & <-).
    apply (Hn (node_id n)), keep_first_ids, list_elem_of_fmap. by exists n.
  - exists (repository_node owner). split; [|done]. unfold linked_pushed. rewrite nodes_app. right. apply all_nodes_elem.
    exists (input_dependency input d). split; [apply list_elem_of_fmap; by exists d|].
    destruct (owner_link_cases (map input_graph inputs) (input_dependency input d)) as [(o & H3 & H4 & ->)|[_ Hno]].
    + assert (owner = o) as -> by (apply H3, H1; done). by left.
    + by apply Hno in H1.
  - intros id Hid. apply list_elem_of_singleton in Hid as ->. apply Hv, keep_first_ids, list_elem_of_fmap.
    destruct (dependency_pushed (sd_repo_id input) (sd_source_path input) (sd_content_hash input) (sd_document input) d Hd) as [_ Hx].
    by eexists.
Qed.
End workspace.

(** C13: The graph of each package manifest of a workspace is well formed, and
    exact: the repository contains the manifest, the manifest its packages and
    the manifests of its members, its first package (or else the manifest)
    depends on the package of each dependency, and it depends on a repository
    exactly when that is another repository and the only one in the workspace
    that declares a package it depends on. *)
Theorem package_owners_exact `{Blake3} inputs input i :
  digest_separates → digest_plain → inputs !! i = Some input →
  ∃ result, package_graphs inputs !! i = Some result ∧ well_formed (pg_facts result) ∧
    ∀ source kind target, relates (facts_edges (pg_facts result)) source kind target ↔
      declares (sd_repo_id input) (sd_source_path input) (sd_document input) source kind target ∨
      kind = DependsOnRepository ∧ source = dependency_source (sd_repo_id input) (sd_source_path input) (sd_document input) ∧
      ∃ dependency owner, dependency ∈ mf_dependencies (sd_document input) ∧
        (∀ repo, declares_package inputs (dependency_identity dependency) repo ↔ repo = owner) ∧
        owner ≠ sd_repo_id input ∧ target = node_id (repository_node owner).
Proof.
  intros Hsep Hplain Hi. destruct (package_graphs_finish inputs input i Hi) as (result & Hr & Hf).
  exists result. rewrite Hf. split_and!; [done|apply finish_well_formed, linked_closed|]. intros source kind target.
  rewrite finished_relates by (done || apply linked_built).
  rewrite <-(manifest_relates _ _ (sd_content_hash input)), <-(finished_relates Hsep Hplain (manifest_pushed _ _ _ _)) by apply manifest_built.
  fold (input_pushed input). split.
  - intros (e & [He|(d & owner & Hd & H1 & H2 & ->%list_elem_of_singleton)]%linked_edges & <- & <- & <-); [left; by exists e|right].
    split_and!; [done..|]. exists d, owner. by rewrite <-only_owner_declares.
  - intros [(e & He & <- & <- & <-)|(-> & -> & d & owner & Hd & H1 & H2 & ->)].
    + exists e. rewrite linked_edges. split; [by left|done].
    + eexists. rewrite linked_edges. split; [right; exists d, owner; rewrite only_owner_declares; split_and!; [done..|by left]|done].
Qed.

Module Example_package_graph.
Import Example_digest.
Definition at_line (n : N) : PackageEvidenceLine := {| pel_line := n; pel_text := "" |}.
Definition package (name : string) : PackageCoordinate :=
  {| pk_ecosystem := Npm; pk_name := name; pk_version := None; pk_source_path := ""; pk_evidence := at_line 2; pk_confidence := f32_one |}.
Definition dependency (name : string) : PackageDependency :=
  {| pd_ecosystem := Npm; pd_name := name; pd_version_or_range := None; pd_scope := Runtime; pd_optional := false; pd_condition := None;
     pd_source_path := ""; pd_evidence := at_line 5; pd_confidence := f32_one |}.
Definition member (value : string) : PackageManifestValue :=
  {| pmv_value := value; pmv_source_path := ""; pmv_evidence := at_line 7; pmv_confidence := f32_one |}.
Definition manifest (repo : RepoId) packages dependencies members : SourceDocument PackageManifest :=
  {| sd_repo_id := repo; sd_source_path := "package.json"; sd_content_hash := "h";
     sd_document := {| mf_packages := map package packages; mf_dependencies := map dependency dependencies;
       mf_workspace_members := map member members; mf_exports := []; mf_features := []; mf_lockfiles := [] |} |}.
(** [util] has one owner, [core] has two, and [left] none. *)
Definition inputs : list (SourceDocument PackageManifest) :=
  [manifest "web" ["site"] ["util"; "core"; "left"] ["packages/a"; "packages/*"; "../b"];
   manifest "lib" ["util"; "core"] [] []; manifest "old" ["core"] ["util"] []].
Definition shown (graphs : list PackageGraphFacts) :=
  map (λ g, map (λ e, (key_of (pg_facts g) (edge_source e), edge_kind e, key_of (pg_facts g) (edge_target e)))
    (List.filter (λ e, bool_decide (edge_kind e ≠ DependsOnPackage)) (facts_edges (pg_facts g)))) graphs.

Example packages_linked :
  shown (package_graphs inputs) =
    [[("artifact:web:package.json", Contains, "artifact:web:packages/a/Cargo.toml");
      ("artifact:web:package.json", Contains, "package:npm:site");
      ("package:npm:site", DependsOnRepository, "repository:lib");
      ("repository:web", Contains, "artifact:web:package.json")];
     [("artifact:lib:package.json", Contains, "package:npm:core");
      ("artifact:lib:package.json", Contains, "package:npm:util");
      ("repository:lib", Contains, "artifact:lib:package.json")];
     [("artifact:old:package.json", Contains, "package:npm:core");
      ("package:npm:core", DependsOnRepository, "repository:lib");
      ("repository:old", Contains, "artifact:old:package.json")]].
Proof. by vm_compute. Qed.

(** A member of an npm or Go workspace is said to have a Cargo manifest. *)
Example member_manifests :
  workspace_member_manifest "package.json" "packages/a" = Some "packages/a/Cargo.toml" ∧
  workspace_member_manifest "svc/go.work" "./api" = Some "svc/api/Cargo.toml" ∧
  workspace_member_manifest "x/Cargo.toml" "." = Some "x/Cargo.toml" ∧
  workspace_member_manifest "Cargo.toml" "../a" = None ∧ workspace_member_manifest "Cargo.toml" "a/" = None.
Proof. by vm_compute. Qed.

Example package_owners_exact_witness :
  ∃ result, package_graphs inputs !! 0%nat = Some result ∧ well_formed (pg_facts result).
Proof.
  destruct (package_owners_exact inputs (manifest "web" ["site"] ["util"; "core"; "left"] ["packages/a"; "packages/*"; "../b"]) 0
    escaping_separates escaping_plain eq_refl) as (result & H1 & H2 & _).
  exists result. split; [exact H1|exact H2].
Defined.
End Example_package_graph.
