(* ===== verification/EventGraph.v ===== *)
(** * Event documents as graph facts
    ([event_documents_to_graph] of [crates/code-system-graph-core/src/event_graph.rs]) *)
From stdpp Require Import base gmap sets list strings sorting pretty.
From Stdlib Require Import Ascii.
From S2P Require Import Prelude RustOrd RustFloat RustStr Model CanonicalText Compat CompatGraphql CompatEvent GraphFacts.

#[export] Instance EventBroker_eq_dec : EqDecision EventBroker.
Proof. solve_decision. Defined.
#[export] Instance EventRole_eq_dec : EqDecision EventRole.
Proof. solve_decision. Defined.

Record EventEndpoint := {
  ep_repo_id : RepoId;
  ep_source_path : string;
  ep_observation : EventObservation;
  ep_evidence : Evidence;
}.

(** The observation with another channel, for its dead letters. *)
Definition with_channel (observation : EventObservation) (channel : option string) : EventObservation :=
  {| eo_broker := eo_broker observation; eo_role := eo_role observation; eo_channel := channel;
     eo_namespace := eo_namespace observation; eo_protocol := eo_protocol observation; eo_event_type := eo_event_type observation;
     eo_schema := eo_schema observation; eo_partition_key := eo_partition_key observation; eo_routing_key := eo_routing_key observation;
     eo_delivery_semantics := eo_delivery_semantics observation; eo_dead_letter_channel := eo_dead_letter_channel observation;
     eo_language := eo_language observation; eo_evidence := eo_evidence observation; eo_confidence := eo_confidence observation;
     eo_incomplete := eo_incomplete observation; eo_warnings := eo_warnings observation |}.

Section builder.
Context `{Blake3}.

Definition event_evidence (repo_id : RepoId) (source_path content_hash : string) (observation : option EventObservation) (note : string) : Evidence :=
  let line := default 1%N (ee_line <$> (observation ≫= λ o, head (eo_evidence o))) in
  extracted_evidence "code-system-graph.events" repo_id source_path content_hash
    (line_key repo_id source_path line note content_hash) line line note (default f32_one (eo_confidence <$> observation)).

Definition event_artifact_node (repo_id : RepoId) (source_path : string) : Node :=
  stable_node NK_Artifact (Some repo_id) ("event-artifact:" +:+ repo_id +:+ ":" +:+ source_path) source_path.

Definition channel_node (observation : EventObservation) : Node :=
  let channel := default "dynamic" (eo_channel observation) in
  stable_node NK_EventChannel None
    ("event:" +:+ broker_debug (eo_broker observation) +:+ ":" +:+ default "" (eo_namespace observation) +:+ ":" +:+ channel) channel.

Definition source_node (endpoint : EventEndpoint) : Node :=
  let channel := default "dynamic" (eo_channel (ep_observation endpoint)) in
  stable_node NK_SymbolRef (Some (ep_repo_id endpoint))
    ("event-source:" +:+ ep_repo_id endpoint +:+ ":" +:+ ep_source_path endpoint +:+ ":" +:+
      role_debug (eo_role (ep_observation endpoint)) +:+ ":" +:+ channel +:+ ":" +:+ broker_debug (eo_broker (ep_observation endpoint)))
    (ep_source_path endpoint +:+ " " +:+ channel).

Definition schema_name (observation : EventObservation) (schema : EventSchemaDefinition) : option string :=
  match es_name schema with Some name => Some name | None => eo_event_type observation end.

Definition schema_node (declaration : EventEndpoint) (schema : EventSchemaDefinition) (name : string) : Node :=
  stable_node NK_EventSchema (Some (ep_repo_id declaration))
    ("event-schema:" +:+ broker_debug (eo_broker (ep_observation declaration)) +:+ ":" +:+ name +:+ ":" +:+ default "" (es_version schema)) name.

Definition append_schema (declaration : EventEndpoint) (channel : Node) (result : GraphFacts) : GraphFacts :=
  match eo_schema (ep_observation declaration) with
  | None => result
  | Some schema =>
      match schema_name (ep_observation declaration) schema with
      | None => result
      | Some name =>
          let node := schema_node declaration schema name in
          extend result {| facts_nodes := [node]; facts_edges := [edge (node_id channel) (node_id node) Contains [ev_id (ep_evidence declaration)] f32_one];
                           facts_evidence := [] |}
      end
  end.

Definition dead_letter_node (declaration : EventEndpoint) (dead_letter : string) : Node :=
  channel_node (with_channel (ep_observation declaration) (Some dead_letter)).

Definition append_dead_letter (declaration : EventEndpoint) (channel : Node) (result : GraphFacts) : GraphFacts :=
  match eo_dead_letter_channel (ep_observation declaration) with
  | None => result
  | Some dead_letter =>
      let target := dead_letter_node declaration dead_letter in
      extend result {| facts_nodes := [target]; facts_edges := [edge (node_id channel) (node_id target) CallsRemote [ev_id (ep_evidence declaration)] f32_one];
                       facts_evidence := [] |}
  end.

Definition role_kind (role : EventRole) : EdgeKind :=
  match role with Publisher => Publishes | Subscriber => Subscribes | Declaration => Contains end.

Definition append_declaration (result : GraphFacts) (declaration : EventEndpoint) : GraphFacts :=
  let channel := channel_node (ep_observation declaration) in
  let artifact := event_artifact_node (ep_repo_id declaration) (ep_source_path declaration) in
  let result := extend result {| facts_nodes := [];
    facts_edges := [edge (node_id artifact) (node_id channel) (role_kind (eo_role (ep_observation declaration))) [ev_id (ep_evidence declaration)] f32_one];
    facts_evidence := [] |} in
  let result := append_schema declaration channel result in
  let result := append_dead_letter declaration channel result in
  extend result {| facts_nodes := [channel]; facts_edges := []; facts_evidence := [ep_evidence declaration] |}.

Definition append_declarations (declarations : list EventEndpoint) (result : GraphFacts) : GraphFacts :=
  foldl append_declaration result declarations.

(** The filter of [resolve_channel]. *)
Definition channel_candidate (endpoint : EventEndpoint) (channel : string) (declaration : EventEndpoint) : bool :=
  bool_decide (eo_channel (ep_observation declaration) = Some channel) &&
  (bool_decide (eo_broker (ep_observation endpoint) = Generic) ||
   bool_decide (eo_broker (ep_observation declaration) = eo_broker (ep_observation endpoint))) &&
  is_none_or (eo_namespace (ep_observation endpoint)) (λ namespace, bool_decide (eo_namespace (ep_observation declaration) = Some namespace)).

Definition channel_id (declaration : EventEndpoint) : NodeId := node_id (channel_node (ep_observation declaration)).

Definition resolve_channel (declarations : list EventEndpoint) (endpoint : EventEndpoint) : option EventEndpoint :=
  match eo_channel (ep_observation endpoint) with
  | None => None
  | Some channel =>
      let candidates := List.filter (channel_candidate endpoint channel) declarations in
      match head candidates with
      | None => None
      | Some first =>
          let identity := channel_id first in
          if forallb (λ candidate, String.eqb (channel_id candidate) identity) candidates then Some first else None
      end
  end.

Definition endpoint_channel (declarations : list EventEndpoint) (endpoint : EventEndpoint) : Node :=
  match resolve_channel declarations endpoint with
  | None => channel_node (ep_observation endpoint)
  | Some declaration => channel_node (ep_observation declaration)
  end.

Definition endpoint_edges (source channel : Node) (endpoint : EventEndpoint) : list Edge :=
  let evidence := [ev_id (ep_evidence endpoint)] in
  match eo_role (ep_observation endpoint) with
  | Publisher => [edge (node_id source) (node_id channel) Publishes evidence f32_one]
  | Subscriber =>
      [edge (node_id source) (node_id channel) Subscribes evidence f32_one;
       edge (node_id channel) (node_id source) DeliversTo evidence f32_one]
  | Declaration => []
  end.

Definition append_endpoint (declarations : list EventEndpoint) (result : GraphFacts) (endpoint : EventEndpoint) : GraphFacts :=
  let channel := endpoint_channel declarations endpoint in
  let source := source_node endpoint in
  extend result {| facts_nodes := [source; channel]; facts_edges := endpoint_edges source channel endpoint; facts_evidence := [ep_evidence endpoint] |}.

Definition append_endpoints (declarations endpoints : list EventEndpoint) (result : GraphFacts) : GraphFacts :=
  foldl (append_endpoint declarations) result endpoints.

Definition artifact_facts (input : SourceDocument EventDocument) : GraphFacts :=
  let repository := repository_node (sd_repo_id input) in
  let artifact := event_artifact_node (sd_repo_id input) (sd_source_path input) in
  let evidence := event_evidence (sd_repo_id input) (sd_source_path input) (sd_content_hash input) None "event artifact" in
  {| facts_nodes := [repository; artifact]; facts_edges := [edge (node_id repository) (node_id artifact) Contains [ev_id evidence] f32_one];
     facts_evidence := [evidence] |}.

Definition observed_endpoint (input : SourceDocument EventDocument) (observation : EventObservation) : EventEndpoint :=
  {| ep_repo_id := sd_repo_id input; ep_source_path := sd_source_path input; ep_observation := observation;
     ep_evidence := event_evidence (sd_repo_id input) (sd_source_path input) (sd_content_hash input) (Some observation) "event boundary" |}.

Definition is_declaration (observation : EventObservation) : bool :=
  bool_decide (eo_language observation = None) || bool_decide (eo_role observation = Declaration).

Definition collect_observation (input : SourceDocument EventDocument) (state : list EventEndpoint * list EventEndpoint)
    (observation : EventObservation) : list EventEndpoint * list EventEndpoint :=
  let '(declarations, endpoints) := state in
  if bool_decide (eo_channel observation = None) || eo_incomplete observation then (declarations, endpoints)
  else
    let endpoint := observed_endpoint input observation in
    if is_declaration observation then (declarations ++ [endpoint], endpoints) else (declarations, endpoints ++ [endpoint]).

Definition collect_document (state : GraphFacts * (list EventEndpoint * list EventEndpoint)) (input : SourceDocument EventDocument) :=
  let '(result, collected) := state in
  (extend result (artifact_facts input), foldl (collect_observation input) collected (ed_observations (sd_document input))).

Definition event_documents_to_graph (inputs : list (SourceDocument EventDocument)) : GraphFacts :=
  let '(result, (declarations, endpoints)) := foldl collect_document (no_facts, ([], [])) inputs in
  let result := append_declarations declarations result in
  let result := append_endpoints declarations endpoints result in
  finish result.
End builder.

(** ** What is pushed *)
Section pushed.
Context `{Blake3}.
Implicit Types (inputs : list (SourceDocument EventDocument)).

(** Observations with a static channel that were extracted completely. *)
Definition usable (observation : EventObservation) : bool :=
  negb (bool_decide (eo_channel observation = None) || eo_incomplete observation).

Definition observed (declaration : bool) (input : SourceDocument EventDocument) : list EventEndpoint :=
  map (observed_endpoint input)
    (List.filter (λ o, usable o && Bool.eqb (is_declaration o) declaration) (ed_observations (sd_document input))).

Definition declarations_of inputs := concat (map (observed true) inputs).
Definition endpoints_of inputs := concat (map (observed false) inputs).

Lemma collect_observations input observations declarations endpoints :
  foldl (collect_observation input) (declarations, endpoints) observations =
  (declarations ++ map (observed_endpoint input) (List.filter (λ o, usable o && Bool.eqb (is_declaration o) true) observations),
   endpoints ++ map (observed_endpoint input) (List.filter (λ o, usable o && Bool.eqb (is_declaration o) false) observations)).
Proof.
  revert declarations endpoints. induction observations as [|o observations IH]; intros d e; [by rewrite !app_nil_r|].
  cbn [foldl collect_observation List.filter].
  assert (Hu : usable o = negb (bool_decide (eo_channel o = None) || eo_incomplete o)) by done. rewrite Hu.
  destruct (_ || eo_incomplete o); [by rewrite IH|]. destruct (is_declaration o); rewrite IH; cbn [negb andb Bool.eqb map]; by rewrite <-app_assoc.
Qed.

Lemma collect_event_documents inputs result declarations endpoints :
  foldl collect_document (result, (declarations, endpoints)) inputs =
  (extend result (all_facts (map artifact_facts inputs)), (declarations ++ declarations_of inputs, endpoints ++ endpoints_of inputs)).
Proof.
  revert result declarations endpoints. induction inputs as [|input inputs IH]; intros r d e.
  - simpl. change (all_facts []) with no_facts. by rewrite extend_none, !app_nil_r.
  - cbn [foldl collect_document]. rewrite collect_observations, IH, extend_assoc.
    unfold declarations_of, endpoints_of. simpl. by rewrite !(assoc_L (++)).
Qed.

Definition declaration_facts (declaration : EventEndpoint) : GraphFacts := append_declaration no_facts declaration.
Definition endpoint_facts (declarations : list EventEndpoint) (endpoint : EventEndpoint) : GraphFacts :=
  append_endpoint declarations no_facts endpoint.

Lemma append_declaration_facts result declaration :
  append_declaration result declaration = extend result (declaration_facts declaration).
Proof.
  unfold declaration_facts, append_declaration, append_schema, append_dead_letter. rewrite extend_none_l.
  destruct (eo_schema _) as [schema|]; [destruct (schema_name _ _)|]; destruct (eo_dead_letter_channel _);
    by rewrite <-?extend_assoc.
Qed.

Definition event_pushed inputs : GraphFacts :=
  extend (extend (all_facts (map artifact_facts inputs)) (all_facts (map declaration_facts (declarations_of inputs))))
    (all_facts (map (endpoint_facts (declarations_of inputs)) (endpoints_of inputs))).

Lemma event_finish inputs : event_documents_to_graph inputs = finish (event_pushed inputs).
Proof.
  unfold event_documents_to_graph. rewrite collect_event_documents. cbn [app]. rewrite extend_none_l.
  unfold append_endpoints, append_declarations, event_pushed.
  rewrite (fold_extend _ (endpoint_facts (declarations_of inputs))) by done.
  by rewrite (fold_extend _ declaration_facts) by apply append_declaration_facts.
Qed.

Lemma observed_elem inputs declaration endpoint :
  endpoint ∈ concat (map (observed declaration) inputs) ↔
  ∃ input observation, input ∈ inputs ∧ observation ∈ ed_observations (sd_document input) ∧ usable observation = true ∧
    is_declaration observation = declaration ∧ endpoint = observed_endpoint input observation.
Proof.
  rewrite concat_map_In. split.
  - intros (i & Hi & He). apply list_elem_of_fmap in He as (o & -> & Ho). apply list_filter_In in Ho as [Ho [Hu Hd%Bool.eqb_prop]%andb_true_iff].
    by exists i, o.
  - intros (i & o & Hi & Ho & Hu & Hd & ->). exists i. split; [done|]. apply list_elem_of_fmap. exists o. split; [done|].
    apply list_filter_In. rewrite Hu, Hd. by rewrite Bool.eqb_reflx.
Qed.

(** ** Which channel an observation is about *)
Lemma resolve_channel_cases declarations endpoint :
  (∃ declaration channel, eo_channel (ep_observation endpoint) = Some channel ∧ declaration ∈ declarations ∧
    channel_candidate endpoint channel declaration = true ∧ resolve_channel declarations endpoint = Some declaration ∧
    ∀ other, other ∈ declarations → channel_candidate endpoint channel other = true → channel_id other = channel_id declaration) ∨
  resolve_channel declarations endpoint = None ∧
    ∀ channel, eo_channel (ep_observation endpoint) = Some channel →
      (∀ declaration, declaration ∈ declarations → channel_candidate endpoint channel declaration = false) ∨
      ∃ first other, first ∈ declarations ∧ other ∈ declarations ∧ channel_candidate endpoint channel first = true ∧
        channel_candidate endpoint channel other = true ∧ channel_id other ≠ channel_id first.
Proof.
  unfold resolve_channel. destruct (eo_channel (ep_observation endpoint)) as [channel|]; [|by right].
  destruct (List.filter (channel_candidate endpoint channel) declarations) as [|first l] eqn:E; cbn [head].
  { right. split; [done|]. intros c [= <-]. left. intros d Hd. destruct (channel_candidate endpoint channel d) eqn:Ed; [|done].
    assert (Hin : d ∈ List.filter (channel_candidate endpoint channel) declarations) by by apply list_filter_In.
    rewrite E in Hin. by apply not_elem_of_nil in Hin. }
  assert (Hfirst : first ∈ List.filter (channel_candidate endpoint channel) declarations) by (rewrite E; by left).
  apply list_filter_In in Hfirst as [Hfin Hfc]. rewrite <-E. destruct (forallb _ _) eqn:Eall.
  - left. exists first, channel. split_and!; [done..|]. intros other Ho Hoc. rewrite forallb_In in Eall.
    by apply String.eqb_eq, Eall, list_filter_In.
  - right. split; [done|]. intros c [= <-]. right. exists first.
    assert (Hex : existsb (λ candidate, negb (String.eqb (channel_id candidate) (channel_id first))) (List.filter (channel_candidate endpoint channel) declarations) = true).
    { clear -Eall. induction (List.filter _ _) as [|x k IH]; [done|]. simpl in *. destruct (String.eqb _ _); simpl in *; auto. }
    apply existsb_In in Hex as (other & Ho & Hne). apply list_filter_In in Ho as [Ho Hoc]. exists other. split_and!; try done.
    intros Heq. by rewrite Heq, String.eqb_refl in Hne.
Qed.

(** ** The edges *)
Definition schema_of (declaration : EventEndpoint) (node : Node) : Prop :=
  ∃ schema name, eo_schema (ep_observation declaration) = Some schema ∧ schema_name (ep_observation declaration) schema = Some name ∧
    node = schema_node declaration schema name.

Definition dead_letter_of (declaration : EventEndpoint) (node : Node) : Prop :=
  ∃ dead_letter, eo_dead_letter_channel (ep_observation declaration) = Some dead_letter ∧ node = dead_letter_node declaration dead_letter.

Definition declaration_edge (declaration : EventEndpoint) (source : Node) (kind : EdgeKind) (target : Node) : Edge :=
  edge (node_id source) (node_id target) kind (map ev_id [ep_evidence declaration]) f32_one.

(** Node, kind and node of each edge of a declaration. *)
Definition declared (declaration : EventEndpoint) (source : Node) (kind : EdgeKind) (target : Node) : Prop :=
  let channel := channel_node (ep_observation declaration) in
  source = event_artifact_node (ep_repo_id declaration) (ep_source_path declaration) ∧
    kind = role_kind (eo_role (ep_observation declaration)) ∧ target = channel ∨
  source = channel ∧ kind = Contains ∧ schema_of declaration target ∨
  source = channel ∧ kind = CallsRemote ∧ dead_letter_of declaration target.

Lemma declaration_edges declaration e :
  e ∈ facts_edges (declaration_facts declaration) ↔
  ∃ source kind target, declared declaration source kind target ∧ e = declaration_edge declaration source kind target.
Proof.
  unfold declaration_facts, append_declaration, append_schema, append_dead_letter, declared, schema_of, dead_letter_of. split.
  - intros He. rewrite extend_none_l in He.
    destruct (eo_dead_letter_channel _) as [dl|] eqn:Ed; (destruct (eo_schema _) as [schema|] eqn:Es; [destruct (schema_name _ _) as [name|] eqn:En|]);
      repeat (rewrite edges_app in He; destruct He as [He|He]); simpl in He;
      try (by apply not_elem_of_nil in He); apply list_elem_of_singleton in He as ->; eauto 15.
  - intros (s & k & t & [(-> & -> & ->)|[(-> & -> & schema & name & Es & En & ->)|(-> & -> & dl & Ed & ->)]] & ->); rewrite extend_none_l.
    + destruct (eo_dead_letter_channel _); (destruct (eo_schema _); [destruct (schema_name _ _)|]); simpl; set_solver.
    + rewrite Es, En. destruct (eo_dead_letter_channel _); simpl; set_solver.
    + rewrite Ed. destruct (eo_schema _); [destruct (schema_name _ _)|]; simpl; set_solver.
Qed.

Lemma declaration_nodes declaration n :
  n ∈ facts_nodes (declaration_facts declaration) ↔
  n = channel_node (ep_observation declaration) ∨ schema_of declaration n ∨ dead_letter_of declaration n.
Proof.
  unfold declaration_facts, append_declaration, append_schema, append_dead_letter, schema_of, dead_letter_of. rewrite extend_none_l. split.
  - destruct (eo_dead_letter_channel _) as [dl|] eqn:Ed; (destruct (eo_schema _) as [schema|] eqn:Es; [destruct (schema_name _ _) as [name|] eqn:En|]);
      rewrite !nodes_app; simpl; rewrite ?elem_of_nil, ?list_elem_of_singleton; naive_solver.
  - intros [->|[(schema & name & Es & En & ->)|(dl & Ed & ->)]].
    + rewrite nodes_app. right. by left.
    + rewrite Es, En. destruct (eo_dead_letter_channel _); simpl; set_solver.
    + rewrite Ed. destruct (eo_schema _); [destruct (schema_name _ _)|]; simpl; set_solver.
Qed.

Lemma declaration_evidence declaration ev : ev ∈ facts_evidence (declaration_facts declaration) ↔ ev = ep_evidence declaration.
Proof.
  unfold declaration_facts, append_declaration, append_schema, append_dead_letter. rewrite extend_none_l.
  destruct (eo_dead_letter_channel _); (destruct (eo_schema _); [destruct (schema_name _ _)|]); simpl; by rewrite list_elem_of_singleton.
Qed.
End pushed.

(** ** The finished graph *)
Section graph.
Context `{Blake3}.
Implicit Types (inputs : list (SourceDocument EventDocument)).

(** Node, kind and node of each edge of an observation. *)
Definition witnessed (declarations : list EventEndpoint) (endpoint : EventEndpoint) (source : Node) (kind : EdgeKind) (target : Node) : Prop :=
  let channel := endpoint_channel declarations endpoint in
  eo_role (ep_observation endpoint) = Publisher ∧ source = source_node endpoint ∧ kind = Publishes ∧ target = channel ∨
  eo_role (ep_observation endpoint) = Subscriber ∧ source = source_node endpoint ∧ kind = Subscribes ∧ target = channel ∨
  eo_role (ep_observation endpoint) = Subscriber ∧ source = channel ∧ kind = DeliversTo ∧ target = source_node endpoint.

Lemma endpoint_edges_elem declarations endpoint e :
  e ∈ facts_edges (endpoint_facts declarations endpoint) ↔
  ∃ source kind target, witnessed declarations endpoint source kind target ∧ e = declaration_edge endpoint source kind target.
Proof.
  unfold endpoint_facts, append_endpoint, witnessed, endpoint_edges. rewrite extend_none_l. cbn [facts_edges].
  set (channel := endpoint_channel declarations endpoint). set (source := source_node endpoint). split.
  - destruct (eo_role _); [intros ->%list_elem_of_singleton|intros [->|[->|Hn]%elem_of_cons]%elem_of_cons|intros Hn];
      try (by apply not_elem_of_nil in Hn); [exists source, Publishes, channel|exists source, Subscribes, channel|exists channel, DeliversTo, source]; auto 10.
  - intros (s & k & t & [(-> & -> & -> & ->)|[(-> & -> & -> & ->)|(-> & -> & -> & ->)]] & ->); [by left|by left|by right; left].
Qed.

(** Nodes and kind of every edge of the graph. *)
Definition event_link inputs (source : Node) (kind : EdgeKind) (target : Node) : Prop :=
  (∃ input, input ∈ inputs ∧ source = repository_node (sd_repo_id input) ∧ kind = Contains ∧
    target = event_artifact_node (sd_repo_id input) (sd_source_path input)) ∨
  (∃ declaration, declaration ∈ declarations_of inputs ∧ declared declaration source kind target) ∨
  (∃ endpoint, endpoint ∈ endpoints_of inputs ∧ witnessed (declarations_of inputs) endpoint source kind target).

Lemma event_pushed_edges inputs e :
  e ∈ facts_edges (event_pushed inputs) →
  ∃ source kind target evidence, event_link inputs source kind target ∧ Forall (λ ev, ev ∈ facts_evidence (event_pushed inputs)) evidence ∧
    e = edge (node_id source) (node_id target) kind (map ev_id evidence) f32_one.
Proof.
  unfold event_pushed, event_link. rewrite !edges_app, !all_edges_elem. intros [[(i & Hi & He)|(d & Hd & He)]|(x & Hx & He)].
  - apply list_elem_of_singleton in He as ->. eexists _, _, _, (facts_evidence (artifact_facts i)). split; [by left; exists i|].
    split; [|done]. apply Forall_forall. intros ev Hev. rewrite !evidence_app, !all_evidence_elem. do 2 left. by exists i.
  - apply declaration_edges in He as (s & k & t & Hdecl & ->). exists s, k, t, [ep_evidence d]. split; [right; left; by exists d|].
    split; [|done]. apply Forall_singleton. rewrite !evidence_app, !all_evidence_elem. left; right. exists d. by rewrite declaration_evidence.
  - apply endpoint_edges_elem in He as (s & k & t & Hw & ->). exists s, k, t, [ep_evidence x]. split; [do 2 right; by exists x|].
    split; [|done]. apply Forall_singleton. rewrite !evidence_app, !all_evidence_elem. right. exists x. split; [done|by left].
Qed.

Lemma event_link_pushed inputs source kind target :
  event_link inputs source kind target → relates (facts_edges (event_pushed inputs)) (node_id source) kind (node_id target).
Proof.
  unfold event_pushed, relates. intros [(i & Hi & -> & -> & ->)|[(d & Hd & Hdecl)|(x & Hx & Hw)]].
  - eexists. rewrite !edges_app, !all_edges_elem. split; [do 2 left; exists i; split; [done|by left]|done].
  - exists (declaration_edge d source kind target). rewrite !edges_app, !all_edges_elem. split; [left; right; exists d; split; [done|]|done].
    apply declaration_edges. by exists source, kind, target.
  - exists (declaration_edge x source kind target). rewrite !edges_app, !all_edges_elem. split; [right; exists x; split; [done|]|done].
    apply endpoint_edges_elem. by exists source, kind, target.
Qed.

Lemma artifact_of_declaration inputs d : d ∈ declarations_of inputs →
  event_artifact_node (ep_repo_id d) (ep_source_path d) ∈ facts_nodes (event_pushed inputs).
Proof.
  intros (i & o & Hi & _ & _ & _ & ->)%observed_elem. unfold event_pushed. rewrite !nodes_app, !all_nodes_elem. do 2 left.
  exists i. split; [done|by right; left].
Qed.

Lemma event_link_nodes inputs source kind target : event_link inputs source kind target →
  source ∈ facts_nodes (event_pushed inputs) ∧ target ∈ facts_nodes (event_pushed inputs).
Proof.
  intros Hlink.
  assert (Hdecl : ∀ d n, d ∈ declarations_of inputs → n ∈ facts_nodes (declaration_facts d) → n ∈ facts_nodes (event_pushed inputs)).
  { intros d n Hd Hn. unfold event_pushed. rewrite !nodes_app, !all_nodes_elem. left; right. by exists d. }
  assert (Hend : ∀ x n, x ∈ endpoints_of inputs → n = source_node x ∨ n = endpoint_channel (declarations_of inputs) x → n ∈ facts_nodes (event_pushed inputs)).
  { intros x n Hx Hn. unfold event_pushed. rewrite !nodes_app, !all_nodes_elem. right. exists x. split; [done|].
    destruct Hn as [->| ->]; [by left|by right; left]. }
  destruct Hlink as [(i & Hi & -> & -> & ->)|[(d & Hd & [(-> & -> & ->)|[(-> & -> & Ht)|(-> & -> & Ht)]])|(x & Hx & [(_ & -> & -> & ->)|[(_ & -> & -> & ->)|(_ & -> & -> & ->)]])]].
  - unfold event_pushed. rewrite !nodes_app, !all_nodes_elem. split; do 2 left; exists i; (split; [done|]); [by left|by right; left].
  - split; [by apply artifact_of_declaration|]. apply (Hdecl d); [done|]. apply declaration_nodes. by left.
  - split; apply (Hdecl d); try done; apply declaration_nodes; auto.
  - split; apply (Hdecl d); try done; apply declaration_nodes; auto.
  - split; apply (Hend x); auto.
  - split; apply (Hend x); auto.
  - split; apply (Hend x); auto.
Qed.

Lemma event_closed inputs : closed (event_pushed inputs).
Proof.
  apply closed_edges. intros e (s & k & t & evidence & Hlink & Hev & ->)%event_pushed_edges.
  destruct (event_link_nodes _ _ _ _ Hlink). by apply closed_edge_made.
Qed.

Lemma stable_endpoint_channel declarations endpoint : ∃ key, node_id (endpoint_channel declarations endpoint) = stable_id "node" key.
Proof. unfold endpoint_channel. destruct (resolve_channel _ _); by eexists. Qed.

Lemma event_link_stable inputs source kind target : event_link inputs source kind target →
  ∃ s t, node_id source = stable_id "node" s ∧ node_id target = stable_id "node" t.
Proof.
  destruct 1 as [(i & Hi & -> & -> & ->)|[(d & Hd & [(-> & -> & ->)|[(-> & -> & (? & ? & _ & _ & ->))|(-> & -> & (? & _ & ->))]])|(x & Hx & Hw)]];
    [by eauto..|]. destruct (stable_endpoint_channel (declarations_of inputs) x) as (key & Hkey).
  destruct Hw as [(_ & -> & -> & ->)|[(_ & -> & -> & ->)|(_ & -> & -> & ->)]]; rewrite Hkey; by eauto.
Qed.

Lemma event_built inputs : Forall built (facts_edges (event_pushed inputs)).
Proof.
  apply Forall_forall. intros e (s & k & t & evidence & Hlink & Hev & ->)%event_pushed_edges.
  destruct (event_link_stable _ _ _ _ Hlink) as (ks & kt & Hs & Ht). by eapply built_edge.
Qed.
End graph.

(** C11: The graph of event documents is well formed, and its edges are exactly
    those of its declarations and observations. An observation is linked to the
    channel of a declaration that fits its channel name, broker and namespace
    exactly when all declarations that fit agree on the channel, and otherwise to
    the channel that it names itself. *)
Theorem event_links_exact `{Blake3} inputs :
  digest_separates → digest_plain →
  let facts := event_documents_to_graph inputs in
  let declarations := declarations_of inputs in
  well_formed facts ∧
  (∀ source kind target, relates (facts_edges facts) source kind target ↔
    ∃ s t, event_link inputs s kind t ∧ source = node_id s ∧ target = node_id t) ∧
  ∀ endpoint channel, endpoint ∈ endpoints_of inputs → eo_channel (ep_observation endpoint) = Some channel →
    let fits declaration := declaration ∈ declarations ∧ channel_candidate endpoint channel declaration = true in
    (∃ declaration, fits declaration ∧ (∀ other, fits other → channel_id other = channel_id declaration) ∧
      endpoint_channel declarations endpoint = channel_node (ep_observation declaration)) ∨
    ((∀ declaration, ¬ fits declaration) ∨ ∃ first other, fits first ∧ fits other ∧ channel_id other ≠ channel_id first) ∧
      endpoint_channel declarations endpoint = channel_node (ep_observation endpoint).
Proof.
  intros Hsep Hplain facts declarations. unfold facts. rewrite event_finish. split_and!.
  - apply finish_well_formed, event_closed.
  - intros source kind target. rewrite finished_relates by (done || apply event_built). split.
    + intros (e & (s & k & t & evidence & Hlink & _ & ->)%event_pushed_edges & <- & <- & <-). by exists s, t.
    + intros (s & t & Hlink & -> & ->). by apply event_link_pushed.
  - intros endpoint channel Hin Hch. unfold endpoint_channel.
    destruct (resolve_channel_cases declarations endpoint) as [(d & c & Hc & Hd & Hcand & -> & Hall)|[-> Hnone]].
    + rewrite Hch in Hc. injection Hc as <-. left. exists d. split_and!; [done|done| |done]. intros other [Ho Hoc]. by apply Hall.
    + right. split; [|done]. destruct (Hnone channel Hch) as [Hno|(first & other & H1 & H2 & H3 & H4 & H5)].
      * left. intros d [Hd Hcand]. by rewrite Hno in Hcand.
      * right. by exists first, other.
Qed.

Module Example_event_graph.
Import Example_digest.
Definition observation (broker : EventBroker) (role : EventRole) (channel : string) (namespace : option string) (language : option SourceLanguage)
    (dead_letter : option string) : EventObservation :=
  {| eo_broker := broker; eo_role := role; eo_channel := Some channel; eo_namespace := namespace; eo_protocol := None;
     eo_event_type := Some "OrderPlaced"; eo_schema := None; eo_partition_key := None; eo_routing_key := None;
     eo_delivery_semantics := None; eo_dead_letter_channel := dead_letter; eo_language := language; eo_evidence := [];
     eo_confidence := f32_one; eo_incomplete := false; eo_warnings := [] |}.
Definition document (repo path : string) (observations : list EventObservation) : SourceDocument EventDocument :=
  {| sd_repo_id := repo; sd_source_path := path; sd_content_hash := "h";
     sd_document := {| ed_source_path := None; ed_specification := None; ed_specification_version := None;
       ed_observations := observations; ed_warnings := []; ed_incomplete := false |} |}.
(** [orders] is declared once, [bills] for two brokers. *)
Definition declared_orders := observation Kafka Declaration "orders" (Some "prod") None (Some "dead").
Definition placed := observation Generic Publisher "orders" None (Some Java) None.
Definition inputs : list (SourceDocument EventDocument) :=
  [document "spec" "a.yaml" [declared_orders; observation Kafka Declaration "bills" None None None; observation Nats Declaration "bills" None None None];
   document "shop" "S.java" [placed]; document "bill" "B.java" [observation Generic Subscriber "bills" None (Some Java) None]].
Definition shown (facts : GraphFacts) :=
  map (λ e, (key_of facts (edge_source e), edge_kind e, key_of facts (edge_target e)))
    (List.filter (λ e, bool_decide (edge_kind e ≠ Contains)) (facts_edges facts)).

Example events_linked :
  shown (event_documents_to_graph inputs) =
    [("event:Generic::bills", DeliversTo, "event-source:bill:B.java:Subscriber:bills:Generic");
     ("event:Kafka:prod:orders", CallsRemote, "event:Kafka:prod:dead");
     ("event-source:bill:B.java:Subscriber:bills:Generic", Subscribes, "event:Generic::bills");
     ("event-source:shop:S.java:Publisher:orders:Generic", Publishes, "event:Kafka:prod:orders")].
Proof. by vm_compute. Qed.

(** Two channels of different brokers' namespaces with one identity. *)
Example channel_identities_collide :
  node_id (channel_node (observation Kafka Publisher "9092:orders" (Some "kafka") None None)) =
  node_id (channel_node (observation Kafka Publisher "orders" (Some "kafka:9092") None None)).
Proof. by vm_compute. Qed.

Example event_links_exact_witness :
  well_formed (event_documents_to_graph inputs) ∧
  relates (facts_edges (event_documents_to_graph inputs)) (stable_id "node" "event:Kafka:prod:orders") CallsRemote
    (stable_id "node" "event:Kafka:prod:dead").
Proof.
  destruct (event_links_exact inputs escaping_separates escaping_plain) as (H1 & H2 & _).
  split; [exact H1|]. apply H2. exists (channel_node declared_orders), (dead_letter_node (observed_endpoint (document "spec" "a.yaml" []) declared_orders) "dead").
  split; [|split; reflexivity]. right; left. exists (observed_endpoint (document "spec" "a.yaml" []) declared_orders).
  split; [by left|]. right; right. split; [reflexivity|]. split; [reflexivity|]. exists "dead". split; reflexivity.
Defined.
End Example_event_graph.
