(* ===== verification/Parallel.v ===== *)
(** * Ordered fan-out over threads
    ([crates/code-system-graph-core/src/parallel.rs])

    The workers of [map_ordered] share one atomic counter and keep what they
    produce to themselves. A step is one atomic action of one worker: it takes
    the next index, or it finishes the item that it holds. Every interleaving of
    the workers is a schedule, a list of worker numbers. *)
From stdpp Require Import base list sorting.
From S2P Require Import Prelude RustOrd.

Section parallel.
Context {T R : Type} (operation : T → R) (items : list T).

Inductive WorkerPhase := Taking | Holding (index : N) (item : T) | Stopped.

Record Worker := { wk_phase : WorkerPhase; wk_produced : list (N * R) }.

Record Pool := { pool_next : N; pool_workers : list Worker }.

(** [next.fetch_add(1, Ordering::Relaxed)] *)
Definition fetch_add (next : N) : N := ((next + 1) mod (usize_max + 1))%N.

(** One action of a worker, with the counter before and after. *)
Definition worker_step (next : N) (worker : Worker) : option (N * Worker) :=
  match wk_phase worker with
  | Taking =>
      Some (fetch_add next,
        match items !! N.to_nat next with
        | None => {| wk_phase := Stopped; wk_produced := wk_produced worker |}
        | Some item => {| wk_phase := Holding next item; wk_produced := wk_produced worker |}
        end)
  | Holding index item =>
      Some (next, {| wk_phase := Taking; wk_produced := wk_produced worker ++ [(index, operation item)] |})
  | Stopped => None
  end.

Definition pool_step (pool : Pool) (who : nat) : option Pool :=
  match pool_workers pool !! who with
  | None => None
  | Some worker =>
      (λ stepped, {| pool_next := stepped.1; pool_workers := <[who := stepped.2]> (pool_workers pool) |})
        <$> worker_step (pool_next pool) worker
  end.

Fixpoint run_schedule (pool : Pool) (schedule : list nat) : option Pool :=
  match schedule with
  | [] => Some pool
  | who :: schedule => pool_step pool who ≫= λ pool, run_schedule pool schedule
  end.

Definition clamp_workers (workers : N) : N := N.min (N.max workers 1) (N.max (len items) 1).

Definition spawn (workers : N) : Pool :=
  {| pool_next := 0; pool_workers := repeat {| wk_phase := Taking; wk_produced := [] |} (N.to_nat workers) |}.

Definition worker_stopped (worker : Worker) : bool := match wk_phase worker with Stopped => true | _ => false end.
Definition joined (pool : Pool) : bool := forallb worker_stopped (pool_workers pool).

(** What the scope returns once every worker has stopped. *)
Definition gather (pool : Pool) : list R :=
  map snd (sort_by (cmp_on fst cmp) (concat (map wk_produced (pool_workers pool)))).

(** [map_ordered] under a schedule; [None] as long as not every worker has stopped. *)
Definition map_ordered (workers : N) (schedule : list nat) : option (list R) :=
  let workers := clamp_workers workers in
  if (workers =? 1)%N then Some (map operation items)
  else run_schedule (spawn workers) schedule ≫= λ pool, if joined pool then Some (gather pool) else None.

(** ** The invariant *)

(** The index a worker holds. *)
Definition held (worker : Worker) : list N := match wk_phase worker with Holding index _ => [index] | _ => [] end.
Definition claimed (worker : Worker) : list N := map fst (wk_produced worker) ++ held worker.
Definition stopped_count (workers : list Worker) : nat := length (List.filter worker_stopped workers).

Record worker_ok (worker : Worker) : Prop := {
  ok_produced : ∀ index r, (index, r) ∈ wk_produced worker → ∃ item, items !! N.to_nat index = Some item ∧ r = operation item;
  ok_held : ∀ index item, wk_phase worker = Holding index item → items !! N.to_nat index = Some item;
}.

Definition taken (next : N) : list N := map N.of_nat (seq 0 (Nat.min (N.to_nat next) (length items))).

Record pool_ok (pool : Pool) : Prop := {
  pl_workers : Forall worker_ok (pool_workers pool);
  pl_claimed : concat (map claimed (pool_workers pool)) ≡ₚ taken (pool_next pool);
  pl_stopped : (0 < stopped_count (pool_workers pool))%nat → (len items ≤ pool_next pool)%N;
  pl_next : (pool_next pool ≤ len items + N.of_nat (stopped_count (pool_workers pool)))%N;
}.

Lemma concat_insert {A B} (f : A → list B) l i x y :
  l !! i = Some x → ∃ rest, concat (map f l) ≡ₚ f x ++ rest ∧ concat (map f (<[i := y]> l)) ≡ₚ f y ++ rest.
Proof.
  revert i. induction l as [|z l IH]; intros [|i] Hi; [done|done| |].
  - injection Hi as ->. exists (concat (map f l)). by split.
  - destruct (IH i Hi) as (rest & H1 & H2). exists (f z ++ rest). simpl. rewrite H1, H2.
    split; rewrite !(assoc_L (++)); apply Permutation_app; try done; apply Permutation_app_comm.
Qed.

Lemma stopped_count_insert l i x y :
  l !! i = Some x → worker_stopped x = false →
  stopped_count (<[i := y]> l) = (stopped_count l + if worker_stopped y then 1 else 0)%nat.
Proof.
  unfold stopped_count. revert i. induction l as [|z l IH]; intros [|i] Hi Hx; [done|done| |].
  - injection Hi as ->. simpl. rewrite Hx. destruct (worker_stopped y); simpl; lia.
  - simpl. destruct (worker_stopped z); simpl; rewrite (IH i) by done; lia.
Qed.

Lemma stopped_count_le l : (stopped_count l ≤ length l)%nat.
Proof. unfold stopped_count. induction l as [|z l IH]; simpl; [lia|]. destruct (worker_stopped z); simpl; lia. Qed.

Lemma stopped_count_lt l i x : l !! i = Some x → worker_stopped x = false → (stopped_count l < length l)%nat.
Proof.
  intros Hi Hx. pose proof (stopped_count_insert l i x {| wk_phase := Stopped; wk_produced := [] |} Hi Hx) as E.
  pose proof (stopped_count_le (<[i := {| wk_phase := Stopped; wk_produced := [] |}]> l)) as Hle.
  rewrite length_insert in Hle. simpl in E. lia.
Qed.

Lemma taken_next next : (next < len items)%N → taken (next + 1) = taken next ++ [next].
Proof.
  unfold taken, len. intros Hn. replace (Nat.min (N.to_nat (next + 1)) (length items)) with (S (Nat.min (N.to_nat next) (length items))) by lia.
  rewrite seq_S, map_app. simpl. do 2 f_equal. lia.
Qed.

Lemma taken_full next : (len items ≤ next)%N → taken next = map N.of_nat (seq 0 (length items)).
Proof. unfold taken, len. intros Hn. do 2 f_equal. lia. Qed.

(** The counter never wraps: each fetch past the end stops a worker. *)
Lemma step_next pool who worker :
  (len items + len (pool_workers pool) ≤ usize_max)%N →
  pool_ok pool → pool_workers pool !! who = Some worker → wk_phase worker = Taking →
  fetch_add (pool_next pool) = (pool_next pool + 1)%N.
Proof.
  intros Hsize [_ _ _ Hnext] Hw Hph. unfold fetch_add. apply N.mod_small.
  assert (worker_stopped worker = false) as Hs by (unfold worker_stopped; by rewrite Hph).
  pose proof (stopped_count_lt _ _ _ Hw Hs). unfold len in Hsize, Hnext. lia.
Qed.

Lemma workers_insert (P : Worker → Prop) l i x : Forall P l → P x → Forall P (<[i := x]> l).
Proof. intros Hl Hx. by apply Forall_insert. Qed.

Lemma taking_ok pool who worker :
  (len items + len (pool_workers pool) ≤ usize_max)%N →
  pool_ok pool → pool_workers pool !! who = Some worker → wk_phase worker = Taking →
  pool_ok {| pool_next := (pool_next pool + 1)%N;
    pool_workers := <[who := match items !! N.to_nat (pool_next pool) with
      | None => {| wk_phase := Stopped; wk_produced := wk_produced worker |}
      | Some item => {| wk_phase := Holding (pool_next pool) item; wk_produced := wk_produced worker |}
      end]> (pool_workers pool) |}.
Proof.
  intros Hsize [Hok Hcl Hst Hnext] Hw Hph.
  assert (worker_stopped worker = false) as Hs by (unfold worker_stopped; by rewrite Hph).
  assert (Hwok : worker_ok worker) by (rewrite Forall_lookup in Hok; eauto).
  assert (Hheld : claimed worker = map fst (wk_produced worker)) by (unfold claimed, held; by rewrite Hph, app_nil_r).
  destruct (items !! N.to_nat (pool_next pool)) as [item|] eqn:Ei.
  - assert (pool_next pool < len items)%N as Hlt by (apply lookup_lt_Some in Ei; unfold len; lia).
    set (w := {| wk_phase := Holding _ _; wk_produced := _ |}).
    pose proof (stopped_count_insert _ _ _ w Hw Hs) as Hcount. simpl in Hcount.
    constructor; cbn [pool_next pool_workers].
    + apply workers_insert; [done|]. constructor; [apply Hwok|]. intros i x [= <- <-]. done.
    + destruct (concat_insert claimed _ _ _ w Hw) as (rest & H1 & H2). rewrite H1, Hheld in Hcl.
      rewrite H2, taken_next, <-Hcl by done. unfold claimed, held. simpl. rewrite <-(assoc_L (++)), <-(assoc_L (++)).
      apply Permutation_app; [done|]. apply Permutation_app_comm.
    + intros H. rewrite Hcount in H. specialize (Hst ltac:(lia)). lia.
    + rewrite Hcount. lia.
  - assert (len items ≤ pool_next pool)%N as Hle by (apply lookup_ge_None in Ei; unfold len; lia).
    set (w := {| wk_phase := Stopped; wk_produced := _ |}).
    pose proof (stopped_count_insert _ _ _ w Hw Hs) as Hcount. simpl in Hcount.
    constructor; cbn [pool_next pool_workers].
    + apply workers_insert; [done|]. constructor; [apply Hwok|]. done.
    + destruct (concat_insert claimed _ _ _ w Hw) as (rest & H1 & H2). rewrite H1, Hheld, (taken_full _ Hle) in Hcl.
      rewrite H2, taken_full by lia. unfold claimed, held. simpl. by rewrite app_nil_r.
    + lia.
    + rewrite Hcount. lia.
Qed.

Lemma holding_ok pool who worker index item :
  pool_ok pool → pool_workers pool !! who = Some worker → wk_phase worker = Holding index item →
  pool_ok {| pool_next := pool_next pool;
    pool_workers := <[who := {| wk_phase := Taking; wk_produced := wk_produced worker ++ [(index, operation item)] |}]> (pool_workers pool) |}.
Proof.
  intros [Hok Hcl Hst Hnext] Hw Hph. set (w := {| wk_phase := _; wk_produced := _ |}).
  assert (worker_stopped worker = false) as Hs by (unfold worker_stopped; by rewrite Hph).
  assert (Hwok : worker_ok worker) by (rewrite Forall_lookup in Hok; eauto).
  pose proof (stopped_count_insert _ _ _ w Hw Hs) as Hcount. simpl in Hcount. rewrite Nat.add_0_r in Hcount.
  constructor; cbn [pool_next pool_workers]; rewrite ?Hcount; try done.
  - apply workers_insert; [done|]. constructor; [|done]. intros i r [Hin|Hin]%elem_of_app; [by apply Hwok|].
    apply list_elem_of_singleton in Hin as [= -> ->]. exists item. split; [by eapply ok_held|done].
  - destruct (concat_insert claimed _ _ _ w Hw) as (rest & H1 & H2). rewrite H2, <-Hcl, H1.
    unfold claimed, held. rewrite Hph. simpl. by rewrite map_app, app_nil_r.
Qed.

Lemma pool_step_ok pool who pool' :
  (len items + len (pool_workers pool) ≤ usize_max)%N → pool_ok pool → pool_step pool who = Some pool' →
  pool_ok pool' ∧ length (pool_workers pool') = length (pool_workers pool).
Proof.
  intros Hsize Hok Hstep. unfold pool_step, worker_step in Hstep.
  destruct (pool_workers pool !! who) as [worker|] eqn:Hw; [|done].
  destruct (wk_phase worker) as [|index item|] eqn:Hph; [..|done]; injection Hstep as <-; cbn [fst snd].
  - rewrite (step_next _ _ _ Hsize Hok Hw Hph). split; [by apply taking_ok|apply length_insert].
  - split; [by apply holding_ok|apply length_insert].
Qed.

(** ** Termination *)
Definition holding_count (workers : list Worker) : nat := length (concat (map held workers)).
Definition work_left (pool : Pool) : nat :=
  (2 * (length items + length (pool_workers pool) - N.to_nat (pool_next pool)) + holding_count (pool_workers pool))%nat.

Lemma pool_step_measure pool who pool' :
  (len items + len (pool_workers pool) ≤ usize_max)%N → pool_ok pool → pool_step pool who = Some pool' →
  (work_left pool' < work_left pool)%nat.
Proof.
  intros Hsize Hok Hstep. unfold pool_step, worker_step in Hstep.
  destruct (pool_workers pool !! who) as [worker|] eqn:Hw; [|done].
  assert (Hcount : ∀ w, (holding_count (<[who := w]> (pool_workers pool)) + length (held worker) = holding_count (pool_workers pool) + length (held w))%nat).
  { intros w. unfold holding_count. destruct (concat_insert held _ _ _ w Hw) as (rest & -> & ->). rewrite !length_app. lia. }
  pose proof (pl_next _ Hok) as Hnext. unfold work_left.
  destruct (wk_phase worker) as [|index item|] eqn:Hph; [..|done]; injection Hstep as <-; cbn [fst snd pool_next pool_workers]; rewrite length_insert.
  - rewrite (step_next _ _ _ Hsize Hok Hw Hph).
    assert (worker_stopped worker = false) as Hs by (unfold worker_stopped; by rewrite Hph).
    pose proof (stopped_count_lt _ _ _ Hw Hs) as Hlt. unfold len in *.
    specialize (Hcount (match items !! N.to_nat (pool_next pool) with
      | None => {| wk_phase := Stopped; wk_produced := wk_produced worker |}
      | Some item => {| wk_phase := Holding (pool_next pool) item; wk_produced := wk_produced worker |} end)).
    unfold held in Hcount at 1 2. rewrite Hph in Hcount. destruct (items !! N.to_nat (pool_next pool)); simpl in Hcount; lia.
  - specialize (Hcount {| wk_phase := Taking; wk_produced := wk_produced worker ++ [(index, operation item)] |}).
    unfold held in Hcount at 1 2. rewrite Hph in Hcount. simpl in Hcount. lia.
Qed.

Lemma run_schedule_ok pool schedule pool' :
  (len items + len (pool_workers pool) ≤ usize_max)%N → pool_ok pool → run_schedule pool schedule = Some pool' →
  pool_ok pool' ∧ length (pool_workers pool') = length (pool_workers pool) ∧ (length schedule + work_left pool' ≤ work_left pool)%nat.
Proof.
  revert pool. induction schedule as [|who schedule IH]; intros pool Hsize Hok; simpl; [intros [= <-]; by split_and!; [..|lia]|].
  intros (next & Hstep & Hrun)%bind_Some. destruct (pool_step_ok _ _ _ Hsize Hok Hstep) as [Hok' Hlen].
  pose proof (pool_step_measure _ _ _ Hsize Hok Hstep). unfold len in *. rewrite <-Hlen in Hsize.
  destruct (IH next Hsize Hok' Hrun) as (H1 & H2 & H3). split_and!; [done|congruence|lia].
Qed.

(** A pool that has not been joined has a worker that can act. *)
Lemma pool_progress pool : joined pool = false → ∃ who pool', pool_step pool who = Some pool'.
Proof.
  unfold joined. intros Hj.
  assert (Hex : ∃ who worker, pool_workers pool !! who = Some worker ∧ worker_stopped worker = false).
  { induction (pool_workers pool) as [|w l IH]; [done|]. simpl in Hj. destruct (worker_stopped w) eqn:E.
    - destruct (IH Hj) as (who & worker & H1 & H2). by exists (S who), worker.
    - by exists 0%nat, w. }
  destruct Hex as (who & worker & Hw & Hs). exists who. unfold pool_step, worker_step. rewrite Hw.
  unfold worker_stopped in Hs. destruct (wk_phase worker); [by eexists..|done].
Qed.

Lemma run_schedule_app pool s1 s2 : run_schedule pool (s1 ++ s2) = run_schedule pool s1 ≫= λ pool, run_schedule pool s2.
Proof. revert pool. induction s1 as [|who s1 IH]; intros pool; simpl; [done|]. destruct (pool_step pool who); simpl; auto. Qed.

Lemma run_to_join pool :
  (len items + len (pool_workers pool) ≤ usize_max)%N → pool_ok pool →
  ∃ schedule pool', run_schedule pool schedule = Some pool' ∧ joined pool' = true.
Proof.
  remember (work_left pool) as n eqn:Hn. revert pool Hn. induction n as [n IH] using lt_wf_ind. intros pool -> Hsize Hok.
  destruct (joined pool) eqn:Hj; [by exists [], pool|]. destruct (pool_progress pool Hj) as (who & next & Hstep).
  destruct (pool_step_ok _ _ _ Hsize Hok Hstep) as [Hok' Hlen]. pose proof (pool_step_measure _ _ _ Hsize Hok Hstep) as Hm.
  destruct (IH _ Hm next eq_refl ltac:(unfold len in *; by rewrite Hlen) Hok') as (schedule & pool' & Hrun & Hj').
  exists (who :: schedule), pool'. simpl. by rewrite Hstep.
Qed.

(** ** Gathering *)
Lemma joined_held workers : forallb worker_stopped workers = true → map claimed workers = map (λ w, map fst (wk_produced w)) workers ∧
  stopped_count workers = length workers.
Proof.
  unfold stopped_count. induction workers as [|w l IH]; simpl; [done|]. intros [Hw Hl]%andb_true_iff. destruct (IH Hl) as [IH1 IH2].
  rewrite Hw, IH1. simpl. split; [|by rewrite IH2]. unfold claimed, held, worker_stopped in *. destruct (wk_phase w); try done. by rewrite app_nil_r.
Qed.

Definition indexed : list (N * R) := imap (λ i item, (N.of_nat i, operation item)) items.

Lemma indexed_elem index r : (index, r) ∈ indexed ↔ ∃ item, items !! N.to_nat index = Some item ∧ r = operation item.
Proof.
  unfold indexed. rewrite elem_of_lookup_imap. split.
  - intros (i & item & [= -> ->] & Hi). exists item. by rewrite Nat2N.id.
  - intros (item & Hi & ->). exists (N.to_nat index), item. by rewrite N2Nat.id.
Qed.

Lemma indexed_keys : map fst indexed = map N.of_nat (seq 0 (length items)).
Proof.
  unfold indexed. change (map fst ?l) with (fst <$> l). change (map N.of_nat ?l) with (N.of_nat <$> l). apply list_eq. intros i.
  rewrite list_lookup_fmap, list_lookup_imap, list_lookup_fmap. destruct (items !! i) as [x|] eqn:E; simpl.
  - rewrite lookup_seq_lt by by eapply lookup_lt_Some. done.
  - rewrite lookup_seq_ge by by apply lookup_ge_None. done.
Qed.

Lemma seq_keys_NoDup n : NoDup (map N.of_nat (seq 0 n)).
Proof. change (map N.of_nat ?l) with (N.of_nat <$> l). apply (NoDup_fmap_2 N.of_nat), NoDup_seq. Qed.

Lemma indexed_sorted : sort_by (cmp_on fst cmp) indexed = indexed.
Proof.
  apply sort_by_id. unfold indexed. enough (Hgen : ∀ n, StronglySorted (cmp_le (cmp_on fst cmp)) (imap (λ i item, (N.of_nat (n + i), operation item)) items)) by apply (Hgen 0%nat).
  induction items as [|x l IH]; intros n; [constructor|]. cbn [imap]. constructor.
  - replace (imap _ l) with (imap (λ i item, (N.of_nat (S n + i), operation item)) l); [apply IH|].
    apply imap_ext. intros i y _. simpl. do 2 f_equal. lia.
  - apply Forall_forall. intros [i r] (j & y & [= -> ->] & _)%elem_of_lookup_imap. unfold cmp_le, cmp_on. simpl.
    unfold cmp, N_ord. rewrite N.compare_gt_iff. lia.
Qed.

Lemma gathered pool :
  pool_ok pool → joined pool = true → (0 < length (pool_workers pool))%nat → gather pool = map operation items.
Proof.
  intros [Hok Hcl Hst _] [Hmap Hcount]%joined_held Hlen. rewrite Hmap, taken_full in Hcl by (apply Hst; lia).
  set (produced := concat (map wk_produced (pool_workers pool))).
  assert (Hkeys : map fst produced ≡ₚ map N.of_nat (seq 0 (length items))).
  { unfold produced. by rewrite concat_map, map_map. }
  assert (Hin : ∀ index r, (index, r) ∈ produced → ∃ item, items !! N.to_nat index = Some item ∧ r = operation item).
  { intros index r (w & Hw & Hp)%concat_map_In. rewrite Forall_forall in Hok. by apply (ok_produced _ (Hok _ Hw)). }
  assert (Hnd : NoDup (map fst produced)) by (rewrite Hkeys; apply seq_keys_NoDup).
  assert (Hperm : produced ≡ₚ indexed).
  { apply NoDup_Permutation.
    - by apply (NoDup_fmap_1 fst).
    - apply (NoDup_fmap_1 fst). change (fst <$> indexed) with (map fst indexed). rewrite indexed_keys. apply seq_keys_NoDup.
    - intros [index r]. rewrite indexed_elem. split; [apply Hin|]. intros (item & Hi & ->).
      assert (Hk : index ∈ map fst produced).
      { rewrite Hkeys, <-indexed_keys. apply list_elem_of_fmap. exists (index, operation item). split; [done|]. apply indexed_elem. eauto. }
      apply list_elem_of_fmap in Hk as ([i r] & -> & Hp). destruct (Hin _ _ Hp) as (item' & Hi' & ->). simpl in *. rewrite Hi in Hi'. by injection Hi' as ->. }
  unfold gather. fold produced. rewrite (sort_by_perm_eq (cmp_on fst cmp) produced indexed); [|clear Hperm|done].
  - rewrite indexed_sorted. unfold indexed. change (map snd ?l) with (snd <$> l). apply list_eq. intros i.
    rewrite list_lookup_fmap, list_lookup_imap. change (map operation items) with (operation <$> items). rewrite list_lookup_fmap.
    by destruct (items !! i).
  - intros [i r] [j r'] Hx Hy E. unfold cmp_on in E. simpl in E. apply cmp_eq in E as ->.
    apply (NoDup_map_inj fst produced); done.
Qed.

Lemma spawn_ok workers : pool_ok (spawn workers).
Proof.
  assert (Hrep : ∀ n, concat (map claimed (repeat {| wk_phase := Taking; wk_produced := [] |} n)) = [] ∧
    stopped_count (repeat {| wk_phase := Taking; wk_produced := [] |} n) = 0%nat).
  { induction n as [|n [IH1 IH2]]; [done|]. split; [exact IH1|exact IH2]. }
  destruct (Hrep (N.to_nat workers)) as [H1 H2]. constructor; cbn [spawn pool_workers pool_next].
  - apply Forall_forall. intros w Hw. apply list_elem_of_In, repeat_spec in Hw as ->. constructor; [|done].
    intros i r Hn. by apply not_elem_of_nil in Hn.
  - by rewrite H1.
  - rewrite H2. lia.
  - lia.
Qed.
End parallel.

(** C15: Parallel mapping does not depend on scheduling: under every interleaving
    of the workers a result that is returned is the list of the results in item
    order; no worker waits for another, so every interleaving takes at most
    [2 * (items + workers)] actions and can be completed; and the shared counter
    does not overflow. [isize::MAX] bounds the length of a vector. *)
Theorem map_ordered_deterministic {T R} (operation : T → R) items workers :
  (len items ≤ 9223372036854775807)%N →
  (∀ schedule results, map_ordered operation items workers schedule = Some results → results = map operation items) ∧
  ∀ schedule pool, run_schedule operation items (spawn (clamp_workers items workers)) schedule = Some pool →
    (N.of_nat (length schedule) ≤ 2 * (len items + clamp_workers items workers))%N ∧ (pool_next pool ≤ len items + clamp_workers items workers)%N ∧
    ∃ rest, map_ordered operation items workers (schedule ++ rest) = Some (map operation items).
Proof.
  intros Hitems. set (n := clamp_workers items workers).
  assert (Hn : (1 ≤ n ∧ n ≤ N.max (len items) 1)%N) by (unfold n, clamp_workers; lia).
  assert (Hlen : len (pool_workers (@spawn T R n)) = n) by (unfold len; simpl; rewrite repeat_length; lia).
  assert (Hsize : (len items + len (pool_workers (@spawn T R n)) ≤ usize_max)%N) by (rewrite Hlen; unfold usize_max; lia).
  pose proof (@spawn_ok T R operation items n) as Hok. split.
  - intros schedule results. unfold map_ordered. fold n. destruct (n =? 1)%N; [by intros [= <-]|].
    intros (pool & Hrun & Hj)%bind_Some. destruct (joined pool) eqn:Ej; [|done]. injection Hj as <-.
    destruct (run_schedule_ok _ _ _ _ _ Hsize Hok Hrun) as (Hok' & Hl & _). apply gathered; [done..|]. unfold len in Hlen. lia.
  - intros schedule pool Hrun. destruct (run_schedule_ok _ _ _ _ _ Hsize Hok Hrun) as (Hok' & Hl & Hm). unfold len in Hlen.
    assert (Hwork : work_left items (@spawn T R n) = (2 * (length items + N.to_nat n))%nat).
    { unfold work_left. simpl. rewrite repeat_length. unfold holding_count.
      enough (Hz : ∀ k, concat (map held (repeat (@Build_Worker T R Taking []) k)) = []) by (rewrite Hz; simpl; lia).
      induction k as [|k IH]; [done|exact IH]. }
    split; [unfold len; lia|]. split.
    { pose proof (pl_next _ _ _ Hok') as Hp. pose proof (stopped_count_le (pool_workers pool)). lia. }
    unfold map_ordered. fold n. destruct (n =? 1)%N; [by exists []|].
    assert (Hsize' : (len items + len (pool_workers pool) ≤ usize_max)%N) by (unfold len in *; by rewrite Hl).
    destruct (run_to_join _ _ _ Hsize' Hok') as (rest & pool' & Hrest & Hj). exists rest.
    rewrite run_schedule_app, Hrun. simpl. rewrite Hrest. simpl. rewrite Hj. f_equal.
    destruct (run_schedule_ok _ _ _ _ _ Hsize' Hok' Hrest) as (Hok2 & Hl2 & _). apply gathered; [done..|]. lia.
Qed.

Module Example_parallel.
Definition items : list N := [10; 20; 30]%N.
(** The second worker overtakes the first. *)
Example overtaking :
  map_ordered (N.mul 2) items 2 [0; 1; 1; 1; 1; 1; 0; 0]%nat = Some [20; 40; 60]%N ∧
  map_ordered (N.mul 2) items 2 [0; 1; 1; 1; 1]%nat = None ∧
  map_ordered (N.mul 2) items 1 [] = Some [20; 40; 60]%N ∧ map_ordered (N.mul 2) [] 8 [] = Some [].
Proof. by vm_compute. Qed.

Example map_ordered_deterministic_witness :
  (len items ≤ 9223372036854775807)%N ∧ ∃ rest, map_ordered (N.mul 2) items 2 ([1; 1; 0]%nat ++ rest) = Some (map (N.mul 2) items).
Proof.
  split; [by vm_compute|].
  destruct (map_ordered_deterministic (N.mul 2) items 2 ltac:(by vm_compute)) as [_ Hrun].
  edestruct (Hrun [1; 1; 0]%nat) as (_ & _ & Hrest); [vm_compute; reflexivity|exact Hrest].
Defined.
End Example_parallel.
