(* ===== verification/Routing.v ===== *)
(** * Prompt routing of the hooks
    ([crates/code-system-graph-hooks/src/routing.rs, types.rs, templates.rs, main.rs])

    A prompt is classified by the signals that it contains, and guidance is given
    at most once per session and repository within a time to live. The state file
    of a host and a repository is a file of the [disk]; lower-casing of Unicode
    and the JSON codec of the state are classes, the clock is an argument. *)
From stdpp Require Import base gmap sets list strings sorting pretty.
From Stdlib Require Import Ascii.
From S2P Require Import Prelude RustOrd RustStr Model CanonicalText.

(** ** Requests and responses *)
Inductive HostKind := ClaudeCode | Codex | Gemini | Antigravity | Cursor.

Definition host_as_str (host : HostKind) : string :=
  match host with
  | ClaudeCode => "claude-code" | Codex => "codex" | Gemini => "gemini" | Antigravity => "antigravity" | Cursor => "cursor"
  end.

Inductive RoutingIntent := Intent_None | LocalRepository | Federated.

(** [serde_json::Value], with numbers as their text. *)
Inductive Value :=
| V_Null
| V_Bool (value : bool)
| V_Number (value : string)
| V_String (value : string)
| V_Array (values : list Value)
| V_Object (fields : list (string * Value)).

(** [value.get(name).and_then(Value::as_str)] *)
Definition get_str (value : Value) (name : string) : option string :=
  match value with
  | V_Object fields =>
      match List.find (λ field, String.eqb field.1 name) fields with
      | Some (_, V_String text) => Some text
      | _ => None
      end
  | _ => None
  end.

Record RoutingRequest := {
  rr_host : HostKind;
  rr_root : string;
  rr_event : Value;
  rr_codegraph_enabled : bool;
  rr_ttl_seconds : N;
}.

Record RoutingResponse := {
  rs_intent : RoutingIntent;
  rs_guidance : option string;
  rs_deduplicated : bool;
}.

Inductive HookError :=
| HE_Json (message : string)
| HE_InvalidSystemTime
| HE_MissingPrompt.

(** ** Templates *)
Definition newline : string := String "010"%char "".
Definition text_of_lines (text_lines : list string) : string := foldr (λ line text, line +:+ newline +:+ text) "" text_lines.

Definition FEDERATED_SIGNALS : string := text_of_lines [
    "cross-repo"; "cross repo"; "cross-repository"; "cross repository"; "multiple repos"; "multiple repositories";
    "across repos"; "across repositories"; "between repos"; "between repositories"; "workspace-wide"; "workspace wide";
    "repository boundary"; "service boundary"; "contract between"; "contract across"; "api boundary between";
    "api boundary across"; "dependency between"; "dependency across"; "impact between"; "impact across"; "blast radius";
    "pr overlap"; "pull request overlap"; "overlapping pr"; "overlapping pull request"; "federated"; "entre repos";
    "entre repositorios"; "varios repos"; "varios repositorios"; "múltiples repositorios"; "multiples repositorios";
    "a través de repositorios"; "a traves de repositorios"; "en todo el workspace"; "límite de repositorio";
    "limite de repositorio"; "límite de servicio"; "limite de servicio"; "contrato entre"; "contrato a través";
    "contrato a traves"; "api entre repositorios"; "dependencia entre repos"; "dependencia entre repositorios"; "impacto entre";
    "radio de impacto"; "solapamiento de pr"; "solapamiento de pull request"].

Definition LOCAL_SIGNALS : string := text_of_lines [
    "call path"; "caller"; "callee"; "call site"; "affected test"; "find symbol"; "locate symbol"; "symbol definition";
    "implementation of"; "where is this defined"; "where is it defined"; "where is the implementation"; "where does this call";
    "where does it call"; "repository structure"; "module dependency"; "dependency path"; "local impact"; "source context";
    "ruta de llamadas"; "quién llama"; "quien llama"; "sitio de llamada"; "punto de llamada"; "pruebas afectadas";
    "tests afectados"; "buscar símbolo"; "buscar simbolo"; "localizar símbolo"; "localizar simbolo"; "definición del símbolo";
    "definicion del simbolo"; "implementación de"; "implementacion de"; "dónde está definido"; "donde esta definido";
    "dónde se define"; "donde se define"; "dónde se implementa"; "donde se implementa"; "estructura del repositorio";
    "dependencia de módulo"; "dependencia de modulo"; "ruta de dependencias"; "impacto local"; "contexto de código";
    "contexto de codigo"].

Definition FEDERATED_CODEGRAPH_GUIDANCE : string :=
  "This task may span repositories. Use Code System Graph to find the relevant entities, relationships, " +:+
  "contracts, and impact; use `explore` for repository-local source evidence. Follow the installed Code System " +:+
  "Graph skill when available." +:+ newline.

Definition LOCAL_CODEGRAPH_GUIDANCE : string :=
  "Use `explore` to locate relevant symbols, call paths, implementation, and tests before broad filesystem " +:+
  "searches. Follow the installed Code System Graph skill when available." +:+ newline.

Definition FEDERATED_NATIVE_GUIDANCE : string :=
  "This task may span repositories. Use Code System Graph to find the relevant entities, relationships, " +:+
  "contracts, and impact, then verify conclusions in live source. Follow the installed Code System Graph skill " +:+
  "when available." +:+ newline.

Definition LOCAL_NATIVE_GUIDANCE : string :=
  "Use `query` and `source_context` for persisted repository entities and relationships, then verify conclusions " +:+
  "in live source. Follow the installed Code System Graph skill when available." +:+ newline.

(** ** Classification *)

(** [str::to_lowercase] *)
Class LowerCase := str_to_lowercase : string → string.

(** [str::lines]: the pieces between newlines, without a carriage return at their
    end and without an empty last piece. *)
Definition strip_return (line : string) : string := default line (strip_suffix (String "013"%char "") line).
Definition str_lines (text : string) : list string :=
  let pieces := split_by (Ascii.eqb "010"%char) text in
  map strip_return (match last pieces with Some "" => take (length pieces - 1) pieces | _ => pieces end).

Definition contains_signal (signals normalized_prompt : string) : bool :=
  existsb (λ signal, contains_str signal normalized_prompt)
    (List.filter (λ signal, negb (String.eqb signal "")) (map trim (str_lines signals))).

Definition classify_prompt `{LowerCase} (prompt : string) : RoutingIntent :=
  let normalized := str_to_lowercase prompt in
  if contains_signal FEDERATED_SIGNALS normalized then Federated
  else if contains_signal LOCAL_SIGNALS normalized then LocalRepository
  else Intent_None.

(** [str::trim_end] *)
Definition trim_end (s : string) : string :=
  foldr (λ p acc, p.2 +:+ acc) "" (reverse (drop_while (λ p : N * string, is_whitespace p.1) (reverse (chars s)))).

Definition guidance_for (intent : RoutingIntent) (codegraph_enabled : bool) : option string :=
  match intent, codegraph_enabled with
  | Intent_None, _ => None
  | LocalRepository, true => Some (trim_end LOCAL_CODEGRAPH_GUIDANCE)
  | Federated, true => Some (trim_end FEDERATED_CODEGRAPH_GUIDANCE)
  | LocalRepository, false => Some (trim_end LOCAL_NATIVE_GUIDANCE)
  | Federated, false => Some (trim_end FEDERATED_NATIVE_GUIDANCE)
  end.

(** ** The state file *)

(** [DedupState]: when each key expires. *)
Notation DedupState := (gmap string N).
(** The files of the disk, by path. *)
Notation Disk := (gmap string string).

(** The JSON codec of the state. *)
Class DedupCodec := {
  dedup_to_vec : DedupState → string;
  dedup_from_slice : string → result string DedupState;
}.

Definition dedup_state_path (request : RoutingRequest) : string :=
  path_join (path_join (path_join (rr_root request) ".code-system-graph") "hooks") ("dedup-" +:+ host_as_str (rr_host request) +:+ ".json").

Definition nul : string := String "000"%char "".

Definition dedup_key `{Blake3} (request : RoutingRequest) (session : string) : string :=
  blake3_hex (host_as_str (rr_host request) +:+ nul +:+ rr_root request +:+ nul +:+ session).

Definition load_state `{DedupCodec} (disk : Disk) (path : string) : result HookError DedupState :=
  match disk !! path with
  | None => Ok ∅
  | Some bytes => match dedup_from_slice bytes with Ok state => Ok state | Err message => Err (HE_Json message) end
  end.

Definition write_state `{DedupCodec} (disk : Disk) (path : string) (state : DedupState) : Disk := <[path := dedup_to_vec state]> disk.

(** [unix_seconds] for a reading of the clock, absent before the epoch. *)
Definition unix_seconds (clock : option N) : result HookError N := ok_or clock HE_InvalidSystemTime.

Definition u64_saturating_add (a b : N) : N := N.min (a + b) u64_max.

Definition session_of (request : RoutingRequest) : string := default "session-unavailable" (get_str (rr_event request) "session_id").

Definition silent (intent : RoutingIntent) (deduplicated : bool) : RoutingResponse :=
  {| rs_intent := intent; rs_guidance := None; rs_deduplicated := deduplicated |}.

Definition route `{LowerCase, Blake3, DedupCodec} (disk : Disk) (clock : option N) (request : RoutingRequest)
    : result HookError (RoutingResponse * Disk) :=
  let? prompt := ok_or (get_str (rr_event request) "prompt") HE_MissingPrompt in
  let intent := classify_prompt prompt in
  match guidance_for intent (rr_codegraph_enabled request) with
  | None => Ok (silent intent false, disk)
  | Some guidance =>
      let? now := unix_seconds clock in
      let state_path := dedup_state_path request in
      let? state := load_state disk state_path in
      let state := filter (λ entry : string * N, (now < entry.2)%N) state in
      let key := dedup_key request (session_of request) in
      if contains_key state key then Ok (silent intent true, disk)
      else
        let state := <[key := u64_saturating_add now (rr_ttl_seconds request)]> state in
        Ok ({| rs_intent := intent; rs_guidance := Some guidance; rs_deduplicated := false |}, write_state disk state_path state)
  end.

(** ** The output of the hook *)
Definition neutral_output (host : HostKind) : Value :=
  match host with
  | Gemini => V_Object [("continue", V_Bool true); ("decision", V_String "allow")]
  | Antigravity => V_Object []
  | _ => V_Object [("continue", V_Bool true)]
  end.

Definition guidance_output (host : HostKind) (guidance : string) : Value :=
  match host with
  | ClaudeCode | Codex =>
      V_Object [("continue", V_Bool true);
        ("hookSpecificOutput", V_Object [("hookEventName", V_String "UserPromptSubmit"); ("additionalContext", V_String guidance)])]
  | Gemini =>
      V_Object [("continue", V_Bool true); ("decision", V_String "allow");
        ("hookSpecificOutput", V_Object [("hookEventName", V_String "BeforeAgent"); ("additionalContext", V_String guidance)])]
  | _ => neutral_output host
  end.

(** The hook fails open: an input that is too long or malformed, and an error of
    the router, give the neutral output. The input is its length and its event. *)
Definition INPUT_LIMIT : N := 1048576.

Definition hook_run `{LowerCase, Blake3, DedupCodec} (disk : Disk) (clock : option N) (host : HostKind) (root : string)
    (codegraph_enabled : bool) (input_length : N) (event : result string Value) : Value * Disk :=
  if (INPUT_LIMIT <? input_length)%N then (neutral_output host, disk)
  else
    match event with
    | Err _ => (neutral_output host, disk)
    | Ok event =>
        match route disk clock {| rr_host := host; rr_root := root; rr_event := event; rr_codegraph_enabled := codegraph_enabled; rr_ttl_seconds := 300 |} with
        | Err _ => (neutral_output host, disk)
        | Ok (response, disk) =>
            (match rs_guidance response with None => neutral_output host | Some guidance => guidance_output host guidance end, disk)
        end
    end.

(** ** Histories of prompts *)
#[local] Opaque FEDERATED_SIGNALS LOCAL_SIGNALS classify_prompt guidance_for.

Record Delivery := { dl_host : HostKind; dl_root : string; dl_session : string; dl_expires : N }.

Section history.
Context `{LowerCase, Blake3, DedupCodec}.

(** What one prompt delivers, if it does. *)
Definition delivered (disk : Disk) (now : N) (request : RoutingRequest) : list Delivery :=
  match route disk (Some now) request with
  | Ok ({| rs_guidance := Some _ |}, _) =>
      [{| dl_host := rr_host request; dl_root := rr_root request; dl_session := session_of request;
          dl_expires := u64_saturating_add now (rr_ttl_seconds request) |}]
  | _ => []
  end.

Definition disk_after (disk : Disk) (now : N) (request : RoutingRequest) : Disk :=
  match route disk (Some now) request with Ok (_, disk) => disk | Err _ => disk end.

Fixpoint prompts (disk : Disk) (log : list Delivery) (calls : list (N * RoutingRequest)) : Disk * list Delivery :=
  match calls with
  | [] => (disk, log)
  | (now, request) :: calls => prompts (disk_after disk now request) (log ++ delivered disk now request) calls
  end.

(** The clock does not go back. *)
Fixpoint clock_from (start : N) (calls : list (N * RoutingRequest)) : Prop :=
  match calls with [] => True | (now, _) :: calls => (start ≤ now)%N ∧ clock_from now calls end.

Definition last_time (start : N) (calls : list (N * RoutingRequest)) : N := foldl (λ _ call, call.1) start calls.

(** What was encoded is decoded. *)
Definition codec_faithful : Prop := ∀ state, dedup_from_slice (dedup_to_vec state) = Ok state.

(** A path holds no zero byte. *)
Definition plain_root (root : string) : Prop := contains_char "000"%char root = false.

Context (Hcodec : codec_faithful).

Lemma host_plain host : contains_char "000"%char (host_as_str host) = false.
Proof. by destruct host. Qed.

Lemma host_as_str_inj host host' : host_as_str host = host_as_str host' → host = host'.
Proof. by destruct host, host'. Qed.

Lemma dedup_key_inj request request' session session' :
  digest_separates → plain_root (rr_root request) → plain_root (rr_root request') → dedup_key request session = dedup_key request' session' →
  rr_host request = rr_host request' ∧ rr_root request = rr_root request' ∧ session = session'.
Proof using Type.
  intros Hseparates Hr Hr' E%Hseparates. apply (split_at_char "000"%char) in E as [E1 E]; [|apply host_plain..].
  apply (split_at_char "000"%char) in E as [E2 E3]; [|done..]. split_and!; [by apply host_as_str_inj|done..].
Qed.

(** The request that a delivery answered, as far as its key and file go. *)
Definition delivery_request (d : Delivery) : RoutingRequest :=
  {| rr_host := dl_host d; rr_root := dl_root d; rr_event := V_Null; rr_codegraph_enabled := false; rr_ttl_seconds := 0 |}.
Definition delivery_key (d : Delivery) : string := dedup_key (delivery_request d) (dl_session d).
Definition delivery_path (d : Delivery) : string := dedup_state_path (delivery_request d).

(** From [start] on, the files hold exactly the deliveries that have not expired. *)
Definition recorded (disk : Disk) (log : list Delivery) (start : N) : Prop :=
  ∀ path, ∃ state, load_state disk path = Ok state ∧
    ∀ key now, (start ≤ now)%N →
      (∃ expires, state !! key = Some expires ∧ (now < expires)%N) ↔
      ∃ d, d ∈ log ∧ delivery_path d = path ∧ delivery_key d = key ∧ (now < dl_expires d)%N.

Lemma recorded_start : recorded ∅ [] 0.
Proof.
  intros path. exists ∅. split; [done|]. intros key now _. split.
  - intros (e & He & _). by rewrite lookup_empty in He.
  - intros (d & Hd & _). by apply not_elem_of_nil in Hd.
Qed.

Lemma recorded_later disk log start now : (start ≤ now)%N → recorded disk log start → recorded disk log now.
Proof. intros Hle Hrec path. destruct (Hrec path) as (state & Hl & Hs). exists state. split; [done|]. intros key t Ht. apply Hs. lia. Qed.

Lemma live_filter (state : DedupState) now key :
  contains_key (filter (λ entry : string * N, (now < entry.2)%N) state) key = true ↔
  ∃ expires, state !! key = Some expires ∧ (now < expires)%N.
Proof.
  rewrite contains_key_true. unfold is_Some. split.
  - intros (e & [He Hlt]%map_lookup_filter_Some). by exists e.
  - intros (e & He & Hlt). exists e. by apply map_lookup_filter_Some.
Qed.

(** A prompt with guidance is answered once per key until the delivery expires. *)
Lemma route_cases disk log now request prompt guidance :
  recorded disk log now → get_str (rr_event request) "prompt" = Some prompt →
  guidance_for (classify_prompt prompt) (rr_codegraph_enabled request) = Some guidance →
  let key := dedup_key request (session_of request) in
  (∃ d, d ∈ log ∧ delivery_path d = dedup_state_path request ∧ delivery_key d = key ∧ (now < dl_expires d)%N) ∧
    route disk (Some now) request = Ok (silent (classify_prompt prompt) true, disk) ∨
  (¬ ∃ d, d ∈ log ∧ delivery_path d = dedup_state_path request ∧ delivery_key d = key ∧ (now < dl_expires d)%N) ∧
    ∃ state, load_state disk (dedup_state_path request) = Ok state ∧
    route disk (Some now) request =
      Ok ({| rs_intent := classify_prompt prompt; rs_guidance := Some guidance; rs_deduplicated := false |},
          write_state disk (dedup_state_path request)
            (<[key := u64_saturating_add now (rr_ttl_seconds request)]> (filter (λ entry : string * N, (now < entry.2)%N) state))).
Proof.
  intros Hrec Hp Hg key. destruct (Hrec (dedup_state_path request)) as (state & Hl & Hs).
  specialize (Hs key now ltac:(lia)). rewrite <-live_filter in Hs.
  unfold route. rewrite Hp. simpl. rewrite Hg. simpl. rewrite Hl. simpl. fold key.
  destruct (contains_key (filter (λ entry : string * N, (now < entry.2)%N) state) key) eqn:E.
  - left. split; [by apply Hs|done].
  - right. split; [by rewrite <-Hs|]. exists state. split; reflexivity.
Qed.

Lemma route_without disk now request :
  (∀ prompt, get_str (rr_event request) "prompt" = Some prompt → guidance_for (classify_prompt prompt) (rr_codegraph_enabled request) = None) →
  disk_after disk now request = disk ∧ delivered disk now request = [].
Proof.
  intros Hno. unfold disk_after, delivered, route. destruct (get_str _ _) as [prompt|]; simpl; [|done].
  by rewrite (Hno _ eq_refl).
Qed.

Lemma load_written disk path state other :
  load_state (write_state disk path state) other = if decide (path = other) then Ok state else load_state disk other.
Proof using Hcodec.
  unfold load_state, write_state. destruct (decide (path = other)) as [->|Hne].
  - by rewrite lookup_insert_eq, Hcodec.
  - by rewrite lookup_insert_ne.
Qed.

Lemma recorded_delivery disk log now request state :
  recorded disk log now → load_state disk (dedup_state_path request) = Ok state →
  let key := dedup_key request (session_of request) in
  let expires := u64_saturating_add now (rr_ttl_seconds request) in
  (¬ ∃ d, d ∈ log ∧ delivery_path d = dedup_state_path request ∧ delivery_key d = key ∧ (now < dl_expires d)%N) →
  recorded (write_state disk (dedup_state_path request) (<[key := expires]> (filter (λ entry : string * N, (now < entry.2)%N) state)))
    (log ++ [{| dl_host := rr_host request; dl_root := rr_root request; dl_session := session_of request; dl_expires := expires |}]) now.
Proof using Hcodec.
  intros Hrec Hl key expires Hnone path. set (d' := {| dl_host := _; dl_root := _; dl_session := _; dl_expires := _ |}).
  assert (Hd' : delivery_path d' = dedup_state_path request ∧ delivery_key d' = key) by done. destruct Hd' as [Hpath Hkey].
  assert (Hlog : ∀ k t, (∃ d, d ∈ log ++ [d'] ∧ delivery_path d = path ∧ delivery_key d = k ∧ (t < dl_expires d)%N) ↔
    (∃ d, d ∈ log ∧ delivery_path d = path ∧ delivery_key d = k ∧ (t < dl_expires d)%N) ∨
    dedup_state_path request = path ∧ key = k ∧ (t < expires)%N).
  { intros k t. split.
    - intros (d & [Hd|Hd]%elem_of_app & Hrest); [left; by exists d|]. apply list_elem_of_singleton in Hd as ->. right. by rewrite <-Hpath, <-Hkey.
    - intros [(d & Hd & Hrest)|(H1' & H2' & H3')]; [exists d; set_solver|]. exists d'. split; [set_solver|]. by rewrite Hpath, Hkey. }
  destruct (Hrec path) as (state0 & Hl0 & Hs0). rewrite load_written.
  destruct (decide (dedup_state_path request = path)) as [<-|Hne].
  - rewrite Hl in Hl0. injection Hl0 as <-. eexists. split; [done|]. intros k t Ht. rewrite Hlog, <-(Hs0 k t Ht).
    rewrite lookup_insert. case_decide as Ek; subst.
    + split.
      * intros (e & [= <-] & Hlt). by right.
      * intros [Hlive|(_ & _ & Hlt)]; [|by exists expires]. exfalso. apply Hnone, Hs0; [lia|].
        destruct Hlive as (e & He & Hlt). exists e. split; [done|]. lia.
    + split.
      * intros (e & [He _]%map_lookup_filter_Some & Hlt). left. by exists e.
      * intros [(e & He & Hlt)|(_ & Hk & _)]; [|done]. exists e. split; [|done]. apply map_lookup_filter_Some. split; [done|]. simpl. lia.
  - exists state0. split; [done|]. intros k t Ht. rewrite Hlog, <-(Hs0 k t Ht). split; [by left|]. by intros [?|[? _]].
Qed.

Lemma recorded_step disk log now request :
  recorded disk log now → recorded (disk_after disk now request) (log ++ delivered disk now request) now.
Proof using Hcodec.
  intros Hrec.
  destruct (get_str (rr_event request) "prompt") as [prompt|] eqn:Hp.
  2:{ destruct (route_without disk now request) as [-> ->]; [by rewrite Hp|by rewrite app_nil_r]. }
  destruct (guidance_for (classify_prompt prompt) (rr_codegraph_enabled request)) as [guidance|] eqn:Hg.
  - destruct (route_cases _ _ _ _ _ _ Hrec Hp Hg) as [[_ Hr]|[Hnone (state & Hl & Hr)]]; unfold disk_after, delivered; rewrite Hr; cbn [silent].
    + by rewrite app_nil_r.
    + by apply recorded_delivery.
  - destruct (route_without disk now request) as [-> ->]; [|by rewrite app_nil_r].
    rewrite Hp. intros p [= <-]. exact Hg.
Qed.

Lemma recorded_prompts calls disk log start :
  clock_from start calls → recorded disk log start →
  recorded (prompts disk log calls).1 (prompts disk log calls).2 (last_time start calls).
Proof using Hcodec.
  revert disk log start. induction calls as [|[now request] calls IH]; intros disk log start Hclock Hrec; [done|].
  destruct Hclock as [Hle Hclock]. cbn [prompts last_time foldl]. apply IH; [done|].
  apply recorded_step. by eapply recorded_later.
Qed.

Lemma delivered_roots calls disk log :
  Forall (λ call, plain_root (rr_root call.2)) calls → Forall (λ d, plain_root (dl_root d)) log →
  Forall (λ d, plain_root (dl_root d)) (prompts disk log calls).2.
Proof.
  revert disk log. induction calls as [|[now request] calls IH]; intros disk log Hc Hl; [done|].
  apply Forall_cons in Hc as [Hr Hc]. cbn [prompts]. apply IH; [done|]. apply Forall_app. split; [done|].
  unfold delivered. destruct (route disk (Some now) request) as [[[? [?|] ?] ?]|]; repeat constructor. done.
Qed.
End history.

(** C17: Guidance is given at most once per host, repository and session within
    its time to live, and otherwise always: after any history of prompts under a
    clock that does not go back, a prompt whose intent has guidance is
    deduplicated exactly when an earlier prompt of the same host, repository and
    session was given guidance that has not expired. *)
Theorem guidance_once `{LowerCase, Blake3, DedupCodec} calls now request prompt guidance :
  digest_separates → codec_faithful →
  clock_from 0 calls → (last_time 0 calls ≤ now)%N →
  Forall (λ call, plain_root (rr_root call.2)) calls → plain_root (rr_root request) →
  get_str (rr_event request) "prompt" = Some prompt →
  guidance_for (classify_prompt prompt) (rr_codegraph_enabled request) = Some guidance →
  let '(disk, log) := prompts ∅ [] calls in
  let same d := dl_host d = rr_host request ∧ dl_root d = rr_root request ∧ dl_session d = session_of request in
  ((∃ d, d ∈ log ∧ same d ∧ (now < dl_expires d)%N) ∧
    route disk (Some now) request = Ok (silent (classify_prompt prompt) true, disk)) ∨
  ((∀ d, d ∈ log → same d → (dl_expires d ≤ now)%N) ∧
    ∃ disk', route disk (Some now) request =
      Ok ({| rs_intent := classify_prompt prompt; rs_guidance := Some guidance; rs_deduplicated := false |}, disk')).
Proof.
  intros Hsep Hcodec Hclock Hnow Hroots Hroot Hp Hg.
  pose proof (recorded_later _ _ _ _ Hnow (recorded_prompts Hcodec calls ∅ [] 0 Hclock recorded_start)) as Hrec.
  pose proof (delivered_roots calls ∅ [] Hroots ltac:(constructor)) as Hplain.
  destruct (prompts ∅ [] calls) as [disk log]. cbn [fst snd] in *. rewrite Forall_forall in Hplain.
  assert (Hsame : ∀ d, d ∈ log →
    dl_host d = rr_host request ∧ dl_root d = rr_root request ∧ dl_session d = session_of request ↔
    delivery_path d = dedup_state_path request ∧ delivery_key d = dedup_key request (session_of request)).
  { intros d Hd. split.
    - intros (E1 & E2 & E3). unfold delivery_path, delivery_key, dedup_state_path, dedup_key. simpl. rewrite E1, E2, E3. split; reflexivity.
    - intros [_ E]. apply dedup_key_inj in E; [done|done|by apply Hplain|done]. }
  destruct (route_cases _ _ _ _ _ _ Hrec Hp Hg) as [[(d & Hd & H1' & H2' & Hlt) Hr]|[Hnone (state & _ & Hr)]]; [left|right].
  - split; [|done]. exists d. split; [exact Hd|]. split; [apply Hsame; [exact Hd|]; split; [exact H1'|exact H2']|exact Hlt].
  - split; [|by eexists]. intros d Hd Hs. apply Hsame in Hs as [H1' H2']; [|done]. apply N.le_ngt. intros Hlt.
    apply Hnone. exists d. split; [exact Hd|]. split; [exact H1'|]. split; [exact H2'|exact Hlt].
Qed.

#[local] Transparent FEDERATED_SIGNALS LOCAL_SIGNALS classify_prompt guidance_for.

Module Example_routing.
(** ASCII lower-casing, no digest at all, and a codec in binary digits. *)
Definition ascii_lowercase : LowerCase := to_ascii_lowercase.
#[local] Existing Instance ascii_lowercase.
Definition no_digest : Blake3 := λ text, text.
#[local] Existing Instance no_digest.
Fixpoint digits (p : positive) : string :=
  match p with xH => "" | xO p => String "0" (digits p) | xI p => String "1" (digits p) end.
Fixpoint number (text : string) : positive :=
  match text with "" => xH | String c text => if Ascii.eqb c "0" then xO (number text) else xI (number text) end.
Definition binary_codec : DedupCodec :=
  {| dedup_to_vec := λ state, digits (encode state);
     dedup_from_slice := λ bytes, match decode (number bytes) with Some state => Ok state | None => Err "invalid" end |}.
#[local] Existing Instance binary_codec.

Lemma number_digits p : number (digits p) = p.
Proof. induction p as [p IH|p IH|]; simpl; by rewrite ?IH. Qed.

Lemma binary_faithful : codec_faithful.
Proof. intros state. unfold dedup_from_slice, dedup_to_vec, binary_codec. by rewrite number_digits, decode_encode. Qed.

Definition event (prompt session : string) : Value := V_Object [("prompt", V_String prompt); ("session_id", V_String session)].
Definition request (prompt session : string) : RoutingRequest :=
  {| rr_host := Codex; rr_root := "/r"; rr_event := event prompt session; rr_codegraph_enabled := true; rr_ttl_seconds := 300 |}.

Example classified :
  map classify_prompt ["Check the Blast Radius"; "who is the CALLER of f?"; "hello"; "caller across repos"] =
    [Federated; LocalRepository; Intent_None; Federated].
Proof. by vm_compute. Qed.

Definition calls : list (N * RoutingRequest) := [(100%N, request "find the caller" "s1"); (200%N, request "find the caller" "s2")].

(** The first session is served again once its 300 seconds have passed. *)
Example sessions :
  let '(disk, _) := prompts ∅ [] calls in
  map (λ p : N * string, match route disk (Some p.1) (request "its callee" p.2) with Ok (r, _) => Some (rs_deduplicated r) | Err _ => None end)
    [(399, "s1"); (400, "s1"); (400, "s2"); (400, "s3")]%N = [Some true; Some false; Some true; Some false].
Proof. by vm_compute. Qed.

Example guidance_once_witness :
  let '(disk, log) := prompts ∅ [] calls in
  ∃ response disk', route disk (Some 399%N) (request "its callee" "s1") = Ok (response, disk').
Proof.
  pose proof (guidance_once calls 399 (request "its callee" "s1") "its callee" (trim_end LOCAL_CODEGRAPH_GUIDANCE)
    ltac:(intros x y E; exact E) binary_faithful ltac:(repeat split; by vm_compute) ltac:(by vm_compute)
    ltac:(repeat constructor; by vm_compute) ltac:(by vm_compute) ltac:(by vm_compute) ltac:(by vm_compute)) as H.
  destruct (prompts ∅ [] calls) as [disk log]. destruct H as [[_ Hr]|[_ [disk' Hr]]]; eexists _, _; exact Hr.
Defined.
End Example_routing.
