(* ===== verification/IgnorePolicy.v ===== *)
(** * Ignore policy ([crates/code-system-graph-core/src/ignore_policy.rs])

    The patterns of a repository, their normalisation and validation, the
    compiled policy, and what it excludes. Globs are those of the [globset]
    crate, the class [Globset]; a path is the list of its normal components, as
    UTF-8. *)
From stdpp Require Import base list sets strings pretty sorting.
From Stdlib Require Import Ascii.
From S2P Require Import Prelude RustOrd RustStr.

(** ** Data *)
Inductive ConfigSource := CliOverride | FromWorkspaceManifest | RepositoryLocal | AutoDetected | Source_Default.

#[export] Instance ConfigSource_eq_dec : EqDecision ConfigSource.
Proof. solve_decision. Defined.

Definition IGNORE_POLICY_VERSION : N := 1.

Definition PROTECTED_EXCLUDES : list string :=
  ["**/.git/**"; "**/.hg/**"; "**/.svn/**"; "**/.codegraph/**"; "**/.code-system-graph/**"].

Definition DEFAULT_EXCLUDES : list string := [
  "**/.next/**"; "**/.venv/**"; "**/.mypy_cache/**"; "**/.nox/**"; "**/.pytest_cache/**"; "**/.ruff_cache/**";
  "**/.tox/**"; "**/venv/**"; "**/env/**"; "**/site-packages/**"; "**/node_modules/**"; "**/vendor/**";
  "**/target/**"; "**/dist/**"; "**/build/**"; "**/__pycache__/**"].

Definition PROTECTED_DIRECTORY_NAMES : list string := [".git"; ".hg"; ".svn"; ".codegraph"; ".code-system-graph"].

Inductive IgnorePatternError :=
| Pattern_Empty
| MissingPathComponent (pattern : string)
| Absolute (pattern : string)
| ParentTraversal (pattern : string)
| Backslash (pattern : string)
| UnsafeCharacters
| UnsupportedSyntax (pattern : string)
| InvalidGlob (pattern detail : string)
| ProtectedInclude (pattern directory : string).

(** ** Patterns *)
Definition is_slash (c : ascii) : bool := Ascii.eqb "/" c.
Definition is_wildcard (c : ascii) : bool := Ascii.eqb "*" c || Ascii.eqb "?" c.
Definition is_delimiter (c : ascii) : bool :=
  Ascii.eqb "[" c || Ascii.eqb "]" c || Ascii.eqb "{" c || Ascii.eqb "}" c.

Definition split_slashes (pattern : string) : list string := split_by is_slash pattern.

Definition unsafe_character (character : N) : bool :=
  (is_control character
   || (character =? 1564) || (character =? 8206) || (character =? 8207)
   || ((8234 <=? character) && (character <=? 8238)) || ((8294 <=? character) && (character <=? 8297)))%N.

Definition absolute_pattern (pattern : string) : bool :=
  starts_with "/" pattern || match String.get 1 pattern with Some separator => Ascii.eqb separator ":" | None => false end.

Definition validate_supported_syntax (pattern : string) (components : list string) : result IgnorePatternError unit :=
  let unsupported_delimiter := str_any is_delimiter pattern in
  let unsupported_recursive :=
    existsb (λ component, contains_str "**" component && negb (String.eqb component "**")) components in
  if unsupported_delimiter || unsupported_recursive then Err (UnsupportedSyntax pattern) else Ok tt.

Definition nonempty (component : string) : bool := negb (String.eqb component "").

Definition normalize_pattern (pattern : string) : result IgnorePatternError string :=
  if String.eqb (trim pattern) "" then Err Pattern_Empty
  else if absolute_pattern pattern then Err (Absolute pattern)
  else if contains_char "\" pattern then Err (Backslash pattern)
  else if existsb (λ component, String.eqb component "..") (split_slashes pattern) then Err (ParentTraversal pattern)
  else if existsb (λ character, unsafe_character character.1) (chars pattern) then Err UnsafeCharacters
  else
    let directory_only :=
      ends_with "/" pattern
      || is_some_and (last (List.filter nonempty (split_slashes pattern))) (λ component, String.eqb component ".") in
    let components :=
      List.filter (λ component, nonempty component && negb (String.eqb component ".")) (split_slashes pattern) in
    if is_empty_list components then Err (MissingPathComponent pattern)
    else
      check? validate_supported_syntax pattern components in
      let normalized := join "/" components in
      if absolute_pattern normalized then Err (Absolute pattern)
      else Ok (if directory_only then normalized +:+ "/" else normalized).

Definition normalize_patterns (patterns : list string) : result IgnorePatternError (list string) :=
  try_map normalize_pattern patterns.

Definition check_include (pattern component : string) : result IgnorePatternError unit :=
  if existsb (String.eqb component) PROTECTED_DIRECTORY_NAMES then Err (ProtectedInclude pattern component) else Ok tt.

Definition validate_protected_includes (patterns : list string) : result IgnorePatternError unit :=
  try_fold (λ _ pattern, try_fold (λ _, check_include pattern) tt (split_slashes pattern)) tt patterns.

(** [PathBuf::push] of the components before the first one with a wildcard. *)
Fixpoint literal_prefix (components : list string) : list string :=
  match components with
  | [] => []
  | component :: components =>
      if str_any is_wildcard component then []
      else if nonempty component then component :: literal_prefix components else literal_prefix components
  end.

Definition collect_prefix (state : list (list string) * bool) (pattern : string) : list (list string) * bool :=
  let prefix := literal_prefix (split_slashes pattern) in
  if is_empty_list prefix then (state.1, true) else (state.1 ++ [prefix], state.2).

Definition include_prefixes (patterns : list string) : list (list string) * bool :=
  let '(prefixes, can_match_anywhere) := foldl collect_prefix ([], false) patterns in
  (sorted_unique prefixes, can_match_anywhere).

(** ** Globs

    [GlobBuilder] with [literal_separator(true)] and [backslash_escape(false)],
    and [GlobSetBuilder]; errors are rendered. *)
Class Globset := {
  Glob : Type;
  GlobSet : Type;
  glob_build : string → result string Glob;
  glob_is_match : Glob → string → bool;
  globset_build : list Glob → result string GlobSet;
  is_match : GlobSet → string → bool;
}.

Section policy.
Context `{Globset}.

Definition build_glob (pattern : string) : result IgnorePatternError Glob :=
  match glob_build pattern with Ok glob => Ok glob | Err detail => Err (InvalidGlob pattern detail) end.

Definition compile (patterns : list string) : result IgnorePatternError GlobSet :=
  let? globs := try_map build_glob patterns in
  match globset_build globs with Ok set => Ok set | Err detail => Err (InvalidGlob "<set>" detail) end.

Definition validate_excludes (patterns : list string) : result IgnorePatternError unit :=
  let? normalized := normalize_patterns patterns in
  let? _ := compile normalized in Ok tt.

Definition validate_include_defaults (patterns : list string) : result IgnorePatternError unit :=
  let? normalized := normalize_patterns patterns in
  check? validate_protected_includes normalized in
  let? _ := compile normalized in Ok tt.

(** ** The policy *)
Record IgnorePolicy := {
  configured_excludes : list string;
  configured_excludes_source : ConfigSource;
  include_defaults : list string;
  include_defaults_source : ConfigSource;
  use_gitignore : bool;
  use_gitignore_source : ConfigSource;
  protected_matcher : GlobSet;
  default_matcher : GlobSet;
  configured_matcher : GlobSet;
  include_matcher : GlobSet;
  policy_prefixes : list (list string);
  include_can_match_anywhere : bool;
}.

Definition with_gitignore (excludes : list string) (excludes_source : ConfigSource) (includes : list string)
    (includes_source : ConfigSource) (gitignore : bool) (gitignore_source : ConfigSource)
    : result IgnorePatternError IgnorePolicy :=
  let? excludes := normalize_patterns excludes in
  let? includes := normalize_patterns includes in
  check? validate_protected_includes includes in
  let excludes := sorted_unique excludes in
  let includes := sorted_unique includes in
  let '(prefixes, can_match_anywhere) := include_prefixes includes in
  let? protected := compile PROTECTED_EXCLUDES in
  let? defaults := compile DEFAULT_EXCLUDES in
  let? configured := compile excludes in
  let? included := compile includes in
  Ok {| configured_excludes := excludes; configured_excludes_source := excludes_source;
        include_defaults := includes; include_defaults_source := includes_source;
        use_gitignore := gitignore; use_gitignore_source := gitignore_source;
        protected_matcher := protected; default_matcher := defaults; configured_matcher := configured;
        include_matcher := included; policy_prefixes := prefixes; include_can_match_anywhere := can_match_anywhere |}.

Definition new_policy (excludes : list string) (excludes_source : ConfigSource) (includes : list string)
    (includes_source : ConfigSource) : result IgnorePatternError IgnorePolicy :=
  with_gitignore excludes excludes_source includes includes_source false Source_Default.

(** [PartialEq]: the compiled fields follow from the others. *)
Definition policy_eq (p q : IgnorePolicy) : bool :=
  bool_decide (configured_excludes p = configured_excludes q)
  && bool_decide (configured_excludes_source p = configured_excludes_source q)
  && bool_decide (include_defaults p = include_defaults q)
  && bool_decide (include_defaults_source p = include_defaults_source q)
  && Bool.eqb (use_gitignore p) (use_gitignore q)
  && bool_decide (use_gitignore_source p = use_gitignore_source q).

(** ** What is excluded *)
Definition candidate (path : list string) : string := join "/" path.

(** [prefix.starts_with(path)], by components. *)
Fixpoint path_starts_with (path base : list string) : bool :=
  match path, base with
  | _, [] => true
  | [], _ => false
  | component :: path, expected :: base => String.eqb component expected && path_starts_with path base
  end.

Definition may_contain_included_default (policy : IgnorePolicy) (directory : list string) : bool :=
  if include_can_match_anywhere policy then true
  else existsb (λ prefix, path_starts_with prefix directory || path_starts_with directory prefix) (policy_prefixes policy).

Definition matches (matcher : GlobSet) (relative : list string) (directory : bool) : bool :=
  is_match matcher (candidate relative) || (directory && is_match matcher (candidate relative +:+ "/")).

Definition excludes (policy : IgnorePolicy) (relative : list string) (directory : bool) : bool :=
  if matches (protected_matcher policy) relative directory || matches (configured_matcher policy) relative directory
  then true
  else
    matches (default_matcher policy) relative directory
    && negb (matches (include_matcher policy) relative directory)
    && negb (directory && may_contain_included_default policy relative).
End policy.

(** ** Fingerprints

    [{:?}] of a string. *)
Class DebugStr := str_debug : string → string.

(** [{:?}] of a [Vec], given that of its items. *)
Definition debug_vec {A} (debug : A → string) (items : list A) : string := "[" +:+ join ", " (map debug items) +:+ "]".

Definition debug_list `{DebugStr} (items : list string) : string := debug_vec str_debug items.

Definition source_debug (source : ConfigSource) : string :=
  match source with
  | CliOverride => "CliOverride"
  | FromWorkspaceManifest => "WorkspaceManifest"
  | RepositoryLocal => "RepositoryLocal"
  | AutoDetected => "AutoDetected"
  | Source_Default => "Default"
  end.

Definition bool_display (b : bool) : string := if b then "true" else "false".

Definition fingerprint_material `{Globset, DebugStr} (policy : IgnorePolicy) : string :=
  "version=" +:+ pretty IGNORE_POLICY_VERSION +:+ ";protected=" +:+ debug_list PROTECTED_EXCLUDES
  +:+ ";defaults=" +:+ debug_list DEFAULT_EXCLUDES
  +:+ ";excludes=" +:+ debug_list (configured_excludes policy)
  +:+ ";excludes_source=" +:+ source_debug (configured_excludes_source policy)
  +:+ ";include_defaults=" +:+ debug_list (include_defaults policy)
  +:+ ";include_defaults_source=" +:+ source_debug (include_defaults_source policy)
  +:+ ";use_gitignore=" +:+ bool_display (use_gitignore policy)
  +:+ ";use_gitignore_source=" +:+ source_debug (use_gitignore_source policy).

(** ** Paths and texts *)
Definition plain_component (component : string) : Prop := component ≠ "" ∧ str_any is_slash component = false.
Definition plain_path (path : list string) : Prop := Forall plain_component path.

(** Text without glob syntax. *)
Definition is_syntax (c : ascii) : bool := is_wildcard c || is_delimiter c || Ascii.eqb "\" c.
Definition literal_text (text : string) : Prop := str_any is_syntax text = false.

Definition anywhere (name : string) : string := "**/" +:+ name +:+ "/**".

(** What [globset] documents: a set matches as its globs do; [**/name/**] matches
    what is inside a directory of that name; text without syntax matches itself,
    and before a slash it matches whole components. *)
Class GlobsetLaws `{Globset} : Prop := {
  set_law globs set text :
    globset_build globs = Ok set → is_match set text = existsb (λ glob, glob_is_match glob text) globs;
  anywhere_law name glob text :
    plain_component name → literal_text name → glob_build (anywhere name) = Ok glob →
    glob_is_match glob text = true ↔
      ∃ before after, text = before +:+ name +:+ "/" +:+ after ∧ (before = "" ∨ ends_with "/" before = true);
  literal_law literal rest glob text :
    literal_text literal → glob_build (literal +:+ rest) = Ok glob → glob_is_match glob text = true →
    (rest = "" → text = literal) ∧ (starts_with "/" rest = true → starts_with (literal +:+ "/") text = true);
}.

Lemma split_candidate path : path ≠ [] → plain_path path → split_slashes (candidate path) = path.
Proof.
  intros Hne Hp. apply (split_by_join is_slash "/"%char); [done..|]. eapply Forall_impl; [exact Hp|]. by intros c [_ Hc].
Qed.

Lemma split_candidate_app path rest :
  path ≠ [] → plain_path path → split_slashes (candidate path +:+ "/" +:+ rest) = path ++ split_slashes rest.
Proof.
  intros Hne Hp. apply (split_by_join_app is_slash "/"%char); [done..|]. eapply Forall_impl; [exact Hp|]. by intros c [_ Hc].
Qed.

Lemma join_slashes text : join "/" (split_slashes text) = text.
Proof. apply (join_split_by "/"%char). Qed.

Lemma join_app a b : a ≠ [] → b ≠ [] → join "/" (a ++ b) = join "/" a +:+ "/" +:+ join "/" b.
Proof.
  intros Ha Hb. induction a as [|x a IH]; [done|]. destruct a as [|y a]; [by rewrite <-join_first|].
  rewrite <-app_comm_cons, join_first, IH, (join_first _ x) by done. by rewrite !string_app_assoc.
Qed.

Lemma split_slashes_app before after : split_slashes (before +:+ "/" +:+ after) = split_slashes before ++ split_slashes after.
Proof.
  unfold split_slashes. induction before as [|c s IH]; [done|]. simpl in *. rewrite IH. destruct (is_slash c); [done|].
  pose proof (split_by_not_nil is_slash s). by destruct (split_by is_slash s).
Qed.

(** A component that is followed by something. *)
Lemma component_inside name text :
  plain_component name →
  (∃ before after, text = before +:+ name +:+ "/" +:+ after ∧ (before = "" ∨ ends_with "/" before = true)) ↔
  ∃ a b, split_slashes text = a ++ name :: b ∧ b ≠ [].
Proof.
  intros [Hne Hslash]. split.
  - intros (before & after & -> & Hb). destruct Hb as [->|(u & ->)%ends_with_spec].
    + exists [], (split_slashes after). split; [|apply split_by_not_nil].
      simpl. by apply (split_by_app is_slash name "/"%char after).
    + exists (split_slashes u), (split_slashes after). split; [|apply split_by_not_nil].
      rewrite <-string_app_assoc, split_slashes_app. f_equal. by apply (split_by_app is_slash name "/"%char after).
  - intros (a & b & Hs & Hb). rewrite <-(join_slashes text), Hs. destruct a as [|x a].
    + exists "", (join "/" b). split; [|by left]. simpl. destruct b; [done|]. reflexivity.
    + exists (join "/" (x :: a) +:+ "/"), (join "/" b). rewrite join_app, (join_first _ name) by done.
      split; [by rewrite !string_app_assoc|]. right. apply ends_with_spec. eauto.
Qed.

(** [path] has the component [name], not last unless [path] is a directory. *)
Definition inside (name : string) (path : list string) (directory : bool) : Prop :=
  ∃ before after, path = before ++ name :: after ∧ (directory = true ∨ after ≠ []).

(** ** Compiled patterns *)
Section compiled.
Context `{GlobsetLaws}.

Definition pattern_matches (pattern text : string) : bool :=
  match glob_build pattern with Ok glob => glob_is_match glob text | Err _ => false end.

Definition matched (pattern : string) (path : list string) (directory : bool) : bool :=
  pattern_matches pattern (candidate path) || (directory && pattern_matches pattern (candidate path +:+ "/")).

Lemma compile_built patterns set : compile patterns = Ok set →
  (∀ pattern, pattern ∈ patterns → is_ok (glob_build pattern) = true) ∧
  ∀ text, is_match set text = existsb (λ pattern, pattern_matches pattern text) patterns.
Proof.
  unfold compile. intros (globs & Hg & Hset)%result_bind_Ok.
  assert (Hall : Forall2 (λ pattern glob, glob_build pattern = Ok glob) patterns globs).
  { apply try_map_Ok in Hg. eapply Forall2_impl; [exact Hg|]. unfold build_glob. intros pattern glob Hb.
    destruct (glob_build pattern); [by injection Hb as ->|done]. }
  destruct (globset_build globs) as [set'|] eqn:Eb; [|done]. injection Hset as ->. split.
  - intros pattern Hin. apply list_elem_of_lookup in Hin as [i Hi]. destruct (Forall2_lookup_l _ _ _ _ _ Hall Hi) as (glob & _ & ->). done.
  - intros text. rewrite (set_law _ _ _ Eb). clear -Hall. induction Hall as [|p g ps gs Hp _ IH]; [done|].
    simpl. rewrite IH. unfold pattern_matches at 2. by rewrite Hp.
Qed.

Lemma matches_pattern patterns set path directory :
  compile patterns = Ok set → matches set path directory = existsb (λ pattern, matched pattern path directory) patterns.
Proof.
  intros [_ Hm]%compile_built. unfold matches. rewrite !Hm. clear Hm. induction patterns as [|p ps IH]; simpl; [by destruct directory|].
  rewrite <-IH. unfold matched. destruct directory, (pattern_matches p (candidate path)), (pattern_matches p (candidate path +:+ "/"));
    simpl; rewrite ?orb_true_r; done.
Qed.

Lemma anywhere_text name text :
  plain_component name → literal_text name → is_ok (glob_build (anywhere name)) = true →
  pattern_matches (anywhere name) text = true ↔ ∃ a b, split_slashes text = a ++ name :: b ∧ b ≠ [].
Proof.
  intros Hn Hl Hok. rewrite <-component_inside by done. unfold pattern_matches.
  destruct (glob_build (anywhere name)) as [glob|] eqn:E; [|done]. by apply anywhere_law.
Qed.

Lemma matched_anywhere name path directory :
  plain_component name → literal_text name → is_ok (glob_build (anywhere name)) = true → path ≠ [] → plain_path path →
  matched (anywhere name) path directory = true ↔ inside name path directory.
Proof.
  intros Hn Hl Hok Hne Hp. unfold matched. rewrite orb_true_iff, andb_true_iff, !anywhere_text by done.
  rewrite split_candidate by done. change "/" with ("/" +:+ "") at 1. rewrite split_candidate_app by done. split.
  - intros [(a & b & Hs & Hb)|[-> (a & b & Hs & Hb)]]; [by exists a, b; eauto|].
    destruct b as [|x b _] using rev_ind; [done|]. rewrite app_comm_cons, app_assoc in Hs.
    apply app_inj_tail in Hs as [Hs _]. exists a, b. eauto.
  - intros (a & b & Hs & [->|Hb]); [right; split; [done|]|left; eauto].
    exists a, (b ++ [""]). rewrite Hs, <-app_assoc. split; [done|by destruct b].
Qed.

(** Directories of given names, at any depth. *)
Lemma matches_names names set path directory :
  compile (map anywhere names) = Ok set → Forall (λ name, plain_component name ∧ literal_text name) names →
  path ≠ [] → plain_path path →
  matches set path directory = true ↔ ∃ name, name ∈ names ∧ inside name path directory.
Proof.
  intros Hc Hnames Hne Hp. rewrite (matches_pattern _ _ _ _ Hc), existsb_In. destruct (compile_built _ _ Hc) as [Hok _].
  rewrite Forall_forall in Hnames. setoid_rewrite list_elem_of_fmap in Hok. setoid_rewrite list_elem_of_fmap. split.
  - intros (p & (name & -> & Hin) & Hm). destruct (Hnames _ Hin). rewrite matched_anywhere in Hm by eauto. eauto.
  - intros (name & Hin & Hi). destruct (Hnames _ Hin). exists (anywhere name). rewrite matched_anywhere by eauto. eauto.
Qed.
End compiled.

(** The names in [DEFAULT_EXCLUDES]. *)
Definition default_names : list string := [
  ".next"; ".venv"; ".mypy_cache"; ".nox"; ".pytest_cache"; ".ruff_cache"; ".tox"; "venv"; "env"; "site-packages";
  "node_modules"; "vendor"; "target"; "dist"; "build"; "__pycache__"].

Lemma protected_anywhere : PROTECTED_EXCLUDES = map anywhere PROTECTED_DIRECTORY_NAMES.
Proof. reflexivity. Qed.

Lemma defaults_anywhere : DEFAULT_EXCLUDES = map anywhere default_names.
Proof. reflexivity. Qed.

Lemma builtin_names : Forall (λ name, plain_component name ∧ literal_text name) (PROTECTED_DIRECTORY_NAMES ++ default_names).
Proof. repeat (constructor; [by split|]). constructor. Qed.

(** ** Normalised patterns *)
Definition normal_component (component : string) : Prop := plain_component component ∧ component ≠ "." ∧ component ≠ "..".

Lemma normalize_pattern_Ok pattern normalized :
  normalize_pattern pattern = Ok normalized ↔
  let components :=
    List.filter (λ component, nonempty component && negb (String.eqb component ".")) (split_slashes pattern) in
  let directory_only :=
    ends_with "/" pattern
    || is_some_and (last (List.filter nonempty (split_slashes pattern))) (λ component, String.eqb component ".") in
  (trim pattern ≠ "" ∧ absolute_pattern pattern = false ∧ contains_char "\" pattern = false) ∧
  (existsb (λ component, String.eqb component "..") (split_slashes pattern) = false ∧
   existsb (λ character, unsafe_character character.1) (chars pattern) = false ∧ components ≠ []) ∧
  (str_any is_delimiter pattern = false ∧
   existsb (λ component, contains_str "**" component && negb (String.eqb component "**")) components = false) ∧
  absolute_pattern (candidate components) = false ∧
  normalized = (if directory_only then candidate components +:+ "/" else candidate components).
Proof.
  unfold normalize_pattern, validate_supported_syntax. cbn zeta. fold (candidate).
  set (components := List.filter (λ component, nonempty component && negb (String.eqb component ".")) (split_slashes pattern)).
  set (directory_only := ends_with "/" pattern || _).
  destruct (String.eqb_spec (trim pattern) "") as [?|Ht]; [naive_solver|].
  destruct (absolute_pattern pattern); [naive_solver|]. destruct (contains_char "\" pattern); [naive_solver|].
  destruct (existsb _ (split_slashes pattern)); [naive_solver|]. destruct (existsb _ (chars pattern)); [naive_solver|].
  destruct (is_empty_list components) eqn:Ec; [apply is_empty_list_true in Ec; naive_solver|].
  assert (Hc : components ≠ []) by (intros E; by rewrite E in Ec). clear Ec.
  destruct (str_any is_delimiter pattern); [naive_solver|]. destruct (existsb _ components); [naive_solver|].
  cbn [orb result_bind]. unfold candidate. destruct (absolute_pattern (join "/" components)); [naive_solver|].
  split; [intros [= <-]|intros (_ & _ & _ & _ & ->)]; naive_solver.
Qed.

Lemma kept_components pattern component :
  component ∈ List.filter (λ component, nonempty component && negb (String.eqb component ".")) (split_slashes pattern) ↔
  component ∈ split_slashes pattern ∧ component ≠ "" ∧ component ≠ ".".
Proof.
  rewrite list_filter_In, andb_true_iff. unfold nonempty. rewrite !negb_true_iff, !String.eqb_neq. tauto.
Qed.

Definition components_of (pattern : string) : list string :=
  List.filter (λ component, nonempty component && negb (String.eqb component ".")) (split_slashes pattern).
Definition names_directory (pattern : string) : bool :=
  ends_with "/" pattern
  || is_some_and (last (List.filter nonempty (split_slashes pattern))) (λ component, String.eqb component ".").

Lemma components_any f pattern :
  f "/"%char = false → str_any f pattern = false → str_any f (candidate (components_of pattern)) = false.
Proof.
  intros Hf Hp. unfold candidate. rewrite any_join by (simpl; by rewrite Hf). apply existsb_false_In.
  intros c [Hin _]%kept_components. destruct (str_any f c) eqn:E; [|done].
  by rewrite (split_by_piece_sub _ f _ _ Hin E) in Hp.
Qed.

Lemma normalize_shape pattern normalized : normalize_pattern pattern = Ok normalized →
  components_of pattern ≠ [] ∧ Forall normal_component (components_of pattern) ∧
  normalized = (if names_directory pattern then candidate (components_of pattern) +:+ "/" else candidate (components_of pattern)) ∧
  str_any is_delimiter normalized = false ∧ contains_char "\" normalized = false.
Proof.
  intros (H1 & (H2 & _ & Hne) & (Hd & _) & _ & E)%normalize_pattern_Ok. destruct H1 as (_ & _ & Hb).
  fold (components_of pattern) (names_directory pattern) in *. subst normalized. split; [done|]. split; [|split; [done|]].
  - apply Forall_forall. intros c (Hin & Hc & Hdot)%kept_components. repeat split; [done| |done|].
    + by apply split_by_piece in Hin.
    + intros ->. rewrite existsb_false_In in H2. specialize (H2 _ Hin). done.
  - unfold contains_char in *. destruct (names_directory pattern); rewrite ?str_any_app, !components_any by done; done.
Qed.

Lemma split_normal components (directory : bool) :
  components ≠ [] → Forall normal_component components →
  split_slashes (if directory then candidate components +:+ "/" else candidate components) =
    components ++ (if directory then [""] else []).
Proof.
  intros Hne Hc. assert (Hp : plain_path components) by (eapply Forall_impl; [exact Hc|]; by intros c []).
  destruct directory; [by apply split_candidate_app|]. by rewrite app_nil_r, split_candidate.
Qed.

Lemma ends_with_slash components :
  components ≠ [] → plain_path components → ends_with "/" (candidate components) = false.
Proof.
  intros Hne Hp. destruct (ends_with "/" (candidate components)) eqn:E; [|done].
  apply ends_with_spec in E as [u E]. pose proof (split_candidate components Hne Hp) as Hs. rewrite E in Hs.
  change (u +:+ "/") with (u +:+ "/" +:+ "") in Hs. rewrite split_slashes_app in Hs.
  rewrite <-Hs in Hp. apply Forall_app in Hp as [_ Hp]. inversion Hp as [|? ? [? _] _]. done.
Qed.

Lemma get_app_1 s t : s ≠ "" → (∀ c, String.get 0 t = Some c → Ascii.eqb c ":" = false) →
  match String.get 1 (s +:+ t) with Some c => Ascii.eqb c ":" | None => false end =
  match String.get 1 s with Some c => Ascii.eqb c ":" | None => false end.
Proof.
  destruct s as [|a [|b s]]; [done| |done]. intros _ Ht. simpl. destruct t as [|c t]; [done|]. simpl. by apply Ht.
Qed.


(** What normalisation keeps. *)
Lemma normalized_components pattern normalized : normalize_pattern pattern = Ok normalized →
  components_of normalized = components_of pattern ∧ names_directory normalized = names_directory pattern.
Proof.
  intros (Hne & Hcs & E & _)%normalize_shape. set (cs := components_of pattern) in *. set (d := names_directory pattern) in *.
  assert (Hp : plain_path cs) by (eapply Forall_impl; [exact Hcs|]; by intros c []).
  pose proof (split_normal cs d Hne Hcs) as Hsplit. rewrite <-E in Hsplit.
  unfold components_of, names_directory. rewrite Hsplit, !List.filter_app. split.
  - rewrite filter_all; [destruct d; simpl; by rewrite app_nil_r|].
    eapply Forall_impl; [exact Hcs|]. intros c ([Hc _] & Hdot & _). unfold nonempty. by rewrite !(proj2 (String.eqb_neq _ _)).
  - rewrite (filter_all nonempty cs).
    2: { eapply Forall_impl; [exact Hcs|]. intros c ([Hc _] & _). unfold nonempty. by rewrite (proj2 (String.eqb_neq _ _)). }
    rewrite E. destruct d; simpl.
    + apply orb_true_intro. left. apply ends_with_spec. eauto.
    + rewrite ends_with_slash, app_nil_r by done. simpl. destruct cs as [|c cs _] using rev_ind; [done|]. rewrite last_snoc. simpl.
      apply Forall_app in Hcs as [_ Hc]. apply Forall_singleton in Hc as (_ & Hdot & _). by apply String.eqb_neq.
Qed.

Lemma absolute_with_slash path :
  path ≠ [] → plain_path path → absolute_pattern (candidate path) = false → absolute_pattern (candidate path +:+ "/") = false.
Proof.
  intros Hne Hp Ha. assert (Hc : candidate path ≠ "").
  { intros E. pose proof (split_candidate path Hne Hp) as Hs. rewrite E in Hs. subst path. by apply Forall_singleton in Hp as [? _]. }
  unfold absolute_pattern in *. apply orb_false_iff in Ha as [Hs Hg]. apply orb_false_iff. split.
  - destruct (starts_with "/" (candidate path +:+ "/")) eqn:Ew; [|done]. apply starts_with_spec in Ew as [rest Ew].
    destruct (candidate path) as [|c s]; [done|]. injection Ew as -> _.
    rewrite <-Hs. symmetry. apply starts_with_spec. by exists s.
  - rewrite get_app_1; [done|done|]. intros c [= <-]. done.
Qed.

(** Normalised patterns are stable, unless they are blank. *)
Lemma normalize_stable pattern normalized :
  is_ascii pattern → normalize_pattern pattern = Ok normalized →
  normalize_pattern normalized = if String.eqb (trim normalized) "" then Err Pattern_Empty else Ok normalized.
Proof.
  intros Ha Hn. destruct (String.eqb_spec (trim normalized) "") as [Ht|Ht].
  { unfold normalize_pattern. by rewrite Ht. }
  destruct (normalize_shape _ _ Hn) as (Hne & Hcs & E & Hdel & Hback).
  destruct (normalized_components _ _ Hn) as [Hsame Hdir].
  apply normalize_pattern_Ok in Hn as (_ & (H2 & Hu & _) & (Hd & Hr) & Habs & _).
  assert (Hp : plain_path (components_of pattern)) by (eapply Forall_impl; [exact Hcs|]; by intros c []).
  apply normalize_pattern_Ok. cbn zeta. fold (components_of normalized) (names_directory normalized) (components_of pattern) in *.
  rewrite Hsame, Hdir. split_and!; try done.
  - rewrite E. destruct (names_directory pattern); [by apply absolute_with_slash|done].
  - rewrite E, split_normal, existsb_app by done. apply orb_false_iff. split; [|by destruct (names_directory pattern)].
    apply existsb_false_In. intros c Hc. rewrite Forall_forall in Hcs. destruct (Hcs _ Hc) as (_ & _ & Hdd). by apply String.eqb_neq.
  - assert (Han : is_ascii normalized).
    { rewrite E. unfold is_ascii. destruct (names_directory pattern); rewrite ?str_any_app, components_any by done; done. }
    rewrite chars_ascii in * by done. rewrite E. destruct (names_directory pattern); rewrite ?str_any_app, components_any by done; done.
Qed.

Lemma normalize_patterns_elem patterns normalized pattern :
  normalize_patterns patterns = Ok normalized → pattern ∈ normalized → ∃ original, original ∈ patterns ∧ normalize_pattern original = Ok pattern.
Proof.
  intros Hn%try_map_Ok Hin. apply list_elem_of_lookup in Hin as [i Hi].
  destruct (Forall2_lookup_r _ _ _ _ _ Hn Hi) as (original & Ho & Hp). exists original. split; [by eapply list_elem_of_lookup_2|done].
Qed.

(** ** Exceptions to the defaults *)

(** [path] lies on the way to, or below, [base]. *)
Lemma path_starts_with_app path base : path_starts_with path base = true ↔ ∃ rest, path = base ++ rest.
Proof.
  revert path. induction base as [|b base IH]; intros [|c path]; simpl; [naive_solver|naive_solver|naive_solver|].
  rewrite andb_true_iff, String.eqb_eq, IH. split; [intros [-> [rest ->]]; eauto|intros [rest [= -> ->]]; eauto].
Qed.

Lemma literal_prefix_split components :
  Forall (λ component, component ≠ "") components →
  ∃ rest, components = literal_prefix components ++ rest ∧ Forall (λ component, str_any is_wildcard component = false) (literal_prefix components).
Proof.
  induction 1 as [|c cs Hc _ (rest & E & Hw)]; simpl; [by exists []|].
  destruct (str_any is_wildcard c) eqn:Ew; [by exists (c :: cs)|]. unfold nonempty. rewrite (proj2 (String.eqb_neq _ _)) by done.
  exists rest. simpl. split; [by rewrite <-E|by constructor].
Qed.

Lemma literal_prefix_snoc components : literal_prefix (components ++ [""]) = literal_prefix components.
Proof. induction components as [|c cs IH]; simpl; [done|]. by rewrite IH. Qed.

Section includes.
Context `{GlobsetLaws}.

(** What a normalised pattern matches is below its literal prefix. *)
Lemma matches_below_prefix original pattern path :
  normalize_pattern original = Ok pattern → path ≠ [] → plain_path path →
  pattern_matches pattern (candidate path) = true → path_starts_with path (literal_prefix (split_slashes pattern)) = true.
Proof.
  intros (Hne & Hcs & E & Hdel & Hback)%normalize_shape Hpne Hpath Hm. apply path_starts_with_app.
  set (cs := components_of original) in *. set (d := names_directory original) in *.
  assert (Hsplit := split_normal cs d Hne Hcs). rewrite <-E in Hsplit.
  assert (Hlp : literal_prefix (split_slashes pattern) = literal_prefix cs).
  { rewrite Hsplit. destruct d; [apply literal_prefix_snoc|by rewrite app_nil_r]. }
  rewrite Hlp. assert (Hp : plain_path cs) by (eapply Forall_impl; [exact Hcs|]; by intros c []).
  destruct (literal_prefix_split cs) as (rest & Ecs & Hw); [eapply Forall_impl; [exact Hp|]; by intros c []|].
  destruct (literal_prefix cs) as [|l ls] eqn:El; [by exists path|]. rewrite <-El in *. set (lits := literal_prefix cs) in *.
  assert (Hlits : plain_path lits) by (rewrite Ecs in Hp; by apply Forall_app in Hp as [? _]).
  assert (Hlne : lits ≠ []) by (by rewrite El).
  (* the pattern is its literal prefix and a rest that is empty or starts with a slash *)
  assert (Hpat : ∃ tail, pattern = candidate lits +:+ tail ∧ (tail = "" ∧ cs = lits ∨ starts_with "/" tail = true)).
  { rewrite E, Ecs. unfold candidate. destruct rest as [|r rest].
    - rewrite app_nil_r. rewrite app_nil_r in Ecs. destruct d; [exists "/"; split; [done|by right]|exists ""].
      rewrite string_app_nil_r. split; [done|by left].
    - rewrite join_app by done. destruct d.
      + exists ("/" +:+ join "/" (r :: rest) +:+ "/"). rewrite !string_app_assoc. split; [done|right]. apply starts_with_spec. eauto.
      + exists ("/" +:+ join "/" (r :: rest)). split; [done|right]. apply starts_with_spec. eauto. }
  destruct Hpat as (tail & Ep & Htail).
  assert (Hliteral : literal_text (candidate lits)).
  { unfold literal_text, candidate. rewrite any_join by done. apply existsb_false_In. intros c Hc.
    rewrite Forall_forall in Hw. specialize (Hw c Hc).
    assert (Hsub : ∀ f, str_any f pattern = false → str_any f c = false).
    { intros f Hf. destruct (str_any f c) eqn:Ec; [|done]. rewrite <-Hf. symmetry.
      apply (split_by_piece_sub is_slash f pattern c); [|done]. fold (split_slashes pattern). rewrite Hsplit, Ecs. set_solver. }
    apply Hsub in Hdel. apply Hsub in Hback. clear -Hw Hdel Hback. unfold is_syntax.
    revert Hback. unfold contains_char. generalize (Ascii.eqb "\") as backslash. intros backslash Hback.
    induction c as [|a c IH]; [done|]. simpl in *.
    apply orb_false_iff in Hw as [-> Hw], Hdel as [-> Hdel], Hback as [-> Hback]. by apply IH. }
  unfold pattern_matches in Hm. destruct (glob_build pattern) as [glob|] eqn:Eb; [|done]. rewrite Ep in Eb.
  destruct (literal_law _ _ _ _ Hliteral Eb Hm) as [H1 H2]. destruct Htail as [[-> _]|Ht].
  - exists []. rewrite app_nil_r, <-(split_candidate path), (H1 eq_refl) by done. by apply split_candidate.
  - apply H2, starts_with_spec in Ht as [after Hafter]. exists (split_slashes after).
    rewrite <-(split_candidate path), Hafter, <-string_app_assoc by done. by apply split_candidate_app.
Qed.
End includes.

Lemma include_prefixes_elem patterns :
  let '(prefixes, anywhere) := include_prefixes patterns in
  ∀ pattern, pattern ∈ patterns →
    let prefix := literal_prefix (split_slashes pattern) in (prefix = [] → anywhere = true) ∧ (prefix ≠ [] → prefix ∈ prefixes).
Proof.
  unfold include_prefixes. destruct (foldl collect_prefix ([], false) patterns) as [prefixes any] eqn:E.
  cbv iota. intros pattern Hin. set (prefix := literal_prefix (split_slashes pattern)). cbv zeta. rewrite sorted_unique_elem_of. revert E. generalize (@nil (list string), false) as state.
  assert (Hkeep : ∀ ps state, let state' := foldl collect_prefix state ps in
    (state.2 = true → state'.2 = true) ∧ ∀ x, x ∈ state.1 → x ∈ state'.1).
  { induction ps as [|p ps IH]; intros state; simpl; [done|]. destruct (IH (collect_prefix state p)) as [H1 H2]. split.
    - intros Hs. apply H1. unfold collect_prefix. by destruct (is_empty_list _).
    - intros x Hx. apply H2. unfold collect_prefix. destruct (is_empty_list _); [done|]. simpl. set_solver. }
  induction patterns as [|p ps IH]; intros state E; [by apply not_elem_of_nil in Hin|]. simpl in E.
  apply elem_of_cons in Hin as [->|Hin]; [|by eapply IH].
  destruct (Hkeep ps (collect_prefix state p)) as [H1 H2]. rewrite E in H1, H2. simpl in H1, H2. unfold collect_prefix in H1, H2.
  fold prefix in H1, H2. split.
  - intros Hp. apply H1. by rewrite Hp.
  - intros Hp. apply H2. destruct prefix; [done|]. simpl. set_solver.
Qed.

(** ** What is reached *)
Section reached.
Context `{GlobsetLaws}.

Lemma with_gitignore_Ok excludes s1 includes s2 gitignore s3 policy :
  with_gitignore excludes s1 includes s2 gitignore s3 = Ok policy →
  ∃ normal_excludes normal_includes,
    normalize_patterns excludes = Ok normal_excludes ∧ normalize_patterns includes = Ok normal_includes ∧
    validate_protected_includes normal_includes = Ok tt ∧
    configured_excludes policy = sorted_unique normal_excludes ∧ include_defaults policy = sorted_unique normal_includes ∧
    (configured_excludes_source policy = s1 ∧ include_defaults_source policy = s2) ∧
    (use_gitignore policy = gitignore ∧ use_gitignore_source policy = s3) ∧
    (policy_prefixes policy, include_can_match_anywhere policy) = include_prefixes (include_defaults policy) ∧
    compile PROTECTED_EXCLUDES = Ok (protected_matcher policy) ∧ compile DEFAULT_EXCLUDES = Ok (default_matcher policy) ∧
    compile (configured_excludes policy) = Ok (configured_matcher policy) ∧
    compile (include_defaults policy) = Ok (include_matcher policy).
Proof.
  unfold with_gitignore. intros (es & He & (incs & Hi & ([] & Hv & Hrest)%result_bind_Ok)%result_bind_Ok)%result_bind_Ok.
  destruct (include_prefixes (sorted_unique incs)) as [prefixes any] eqn:Ep.
  apply result_bind_Ok in Hrest as (protected & H1 & (defaults & H2 & (configured & H3 & (included & H4 & [= <-])%result_bind_Ok)%result_bind_Ok)%result_bind_Ok).
  exists es, incs. split_and!; done.
Qed.

(** Neither the file nor a directory on the way to it is excluded. *)
Definition reached (policy : IgnorePolicy) (path : list string) : Prop :=
  excludes policy path false = false ∧
  ∀ directory rest, path = directory ++ rest → directory ≠ [] → rest ≠ [] → excludes policy directory true = false.

Lemma inside_above name directory rest :
  rest ≠ [] → inside name directory true → inside name (directory ++ rest) false.
Proof.
  intros Hr (a & b & -> & _). exists a, (b ++ rest). rewrite <-app_assoc. split; [done|right]. by destruct b.
Qed.

Lemma excludes_false policy path directory :
  excludes policy path directory = false ↔
  matches (protected_matcher policy) path directory = false ∧ matches (configured_matcher policy) path directory = false ∧
  (matches (default_matcher policy) path directory = true →
   matches (include_matcher policy) path directory = true ∨ directory = true ∧ may_contain_included_default policy path = true).
Proof.
  unfold excludes. destruct (matches (protected_matcher policy) path directory), (matches (configured_matcher policy) path directory); simpl;
    try naive_solver.
  destruct (matches (default_matcher policy) path directory), (matches (include_matcher policy) path directory), directory,
    (may_contain_included_default policy path); naive_solver.
Qed.

(** The directories on the way to an included file are kept open. *)
Lemma includes_keep_open excludes s1 includes s2 gitignore s3 policy path directory rest pattern :
  with_gitignore excludes s1 includes s2 gitignore s3 = Ok policy → plain_path path → path = directory ++ rest → rest ≠ [] →
  pattern ∈ include_defaults policy → pattern_matches pattern (candidate path) = true →
  may_contain_included_default policy directory = true.
Proof.
  intros (_ & incs & _ & Hi & _ & _ & Einc & _ & _ & Hpre & _)%with_gitignore_Ok Hplain Epath Hrest Hin Hm.
  pose proof (include_prefixes_elem (include_defaults policy)) as Hp. rewrite <-Hpre in Hp. destruct (Hp _ Hin) as [Hany Hpref].
  rewrite Einc, sorted_unique_elem_of in Hin. destruct (normalize_patterns_elem _ _ _ Hi Hin) as (original & _ & Hn).
  assert (Hne : path ≠ []) by (rewrite Epath; by destruct directory).
  pose proof (matches_below_prefix _ _ _ Hn Hne Hplain Hm) as [above Hbelow]%path_starts_with_app.
  unfold may_contain_included_default. destruct (include_can_match_anywhere policy); [done|].
  set (prefix := literal_prefix (split_slashes pattern)) in *.
  assert (Hmem : prefix ∈ policy_prefixes policy) by (destruct prefix; [by discriminate Hany|by apply Hpref]).
  apply existsb_In. exists prefix. split; [done|]. apply orb_true_iff. rewrite !path_starts_with_app.
  rewrite Hbelow in Epath. symmetry in Epath. apply app_eq_app in Epath as (l & [[-> _]|[-> _]]); eauto.
Qed.

(** A file is reached exactly when no directory on its way is protected, no
    configured pattern matches it or one of them, and it is not inside a default
    directory, unless an exception matches it. *)
Lemma reached_exactly es s1 incs s2 gitignore s3 policy path :
  with_gitignore es s1 incs s2 gitignore s3 = Ok policy → path ≠ [] → plain_path path →
  reached policy path ↔
    (∀ name, name ∈ PROTECTED_DIRECTORY_NAMES → ¬ inside name path false) ∧
    (∀ pattern, pattern ∈ configured_excludes policy →
       matched pattern path false = false ∧
       ∀ directory rest, path = directory ++ rest → directory ≠ [] → rest ≠ [] → matched pattern directory true = false) ∧
    ((∀ name, name ∈ default_names → ¬ inside name path false) ∨
     ∃ pattern, pattern ∈ include_defaults policy ∧ pattern_matches pattern (candidate path) = true).
Proof.
  intros Hpolicy Hne Hplain. pose proof Hpolicy as (_ & _ & _ & _ & _ & _ & _ & _ & _ & _ & Hp & Hd & Hc & Hi)%with_gitignore_Ok.
  pose proof builtin_names as [Hpn Hdn]%Forall_app. rewrite protected_anywhere in Hp. rewrite defaults_anywhere in Hd.
  assert (Hprot := λ path dir, matches_names _ _ path dir Hp Hpn). assert (Hdef := λ path dir, matches_names _ _ path dir Hd Hdn).
  assert (Hconf : ∀ path dir, matches (configured_matcher policy) path dir = false ↔
    ∀ pattern, pattern ∈ configured_excludes policy → matched pattern path dir = false).
  { intros. by rewrite (matches_pattern _ _ _ _ Hc), existsb_false_In. }
  assert (Hinc : matches (include_matcher policy) path false = true ↔
    ∃ pattern, pattern ∈ include_defaults policy ∧ pattern_matches pattern (candidate path) = true).
  { rewrite (matches_pattern _ _ _ _ Hi), existsb_In. unfold matched. setoid_rewrite orb_false_r. done. }
  unfold reached. rewrite excludes_false, Hconf, Hdef, Hinc by done.
  setoid_rewrite excludes_false. setoid_rewrite Hconf. split.
  - intros ((Hp1 & Hc1 & Hd1) & Habove). split_and!.
    + intros name Hin Hinside. apply not_true_iff_false in Hp1. apply Hp1, Hprot; eauto.
    + intros pattern Hin. split; [by apply Hc1|]. intros directory rest E H1 H2. by apply (Habove directory rest E H1 H2).
    + destruct (existsb (λ name, bool_decide (name ∈ removelast path)) default_names) eqn:Ed.
      * right. destruct (Hd1) as [?|[? _]]; [|done|done]. apply existsb_In in Ed as (name & Hin & Hr). exists name. split; [done|].
        apply bool_decide_eq_true in Hr. destruct path as [|last init _] using rev_ind; [done|]. rewrite removelast_last in Hr.
        apply list_elem_of_split in Hr as (a & b & ->). exists a, (b ++ [last]). rewrite <-app_assoc. split; [done|right]. by destruct b.
      * left. intros name Hin (a & b & E & [?|Hb]); [done|]. rewrite existsb_false_In in Ed. specialize (Ed _ Hin).
        apply bool_decide_eq_false in Ed. apply Ed. rewrite E. destruct b as [|last b _] using rev_ind; [done|].
        rewrite app_comm_cons, app_assoc, removelast_last. set_solver.
  - intros (Hp1 & Hc1 & Hd1). split.
    + split_and!.
      * apply not_true_is_false. rewrite Hprot by done. intros (name & ? & ?). by eapply Hp1.
      * intros pattern Hin. by apply Hc1.
      * intros (name & Hin & Hinside). left. destruct Hd1 as [Hno|?]; [|done]. by destruct (Hno _ Hin).
    + intros directory rest E H1 H2. assert (Hdplain : plain_path directory) by (rewrite E in Hplain; by apply Forall_app in Hplain as [? _]).
      split_and!.
      * apply not_true_is_false. rewrite Hprot by done. intros (name & Hin & Hinside).
        apply (Hp1 _ Hin). rewrite E. by apply inside_above.
      * intros pattern Hin. by eapply Hc1.
      * rewrite Hdef by done. intros (name & Hin & Hinside). right. split; [done|]. destruct Hd1 as [Hno|(pattern & Hp2 & Hm)].
        -- destruct (Hno _ Hin). rewrite E. by apply inside_above.
        -- exact (includes_keep_open _ _ _ _ _ _ _ _ _ _ _ Hpolicy Hplain E H2 Hp2 Hm).
Qed.
End reached.
