(* ===== verification/Discovery.v ===== *)
(** * Discovery ([crates/code-system-graph-core/src/ignore_policy.rs], [cli/src/sync.rs])

    The files of a repository under an ignore policy, the matcher of single
    paths, and the policy that a watcher persists and restores. The directory
    walker and the matcher of ignore files are those of the [ignore] crate. *)
From stdpp Require Import base gmap list strings sets sorting.
From Stdlib Require Import Ascii.
From S2P Require Import Prelude RustOrd RustStr IgnorePolicy.

(** ** The walker

    Entries are relative to the root of the walk; the depth of an entry is the
    length of its path. *)
Inductive FileType := FT_File | FT_Directory | FT_Symlink | FT_Other.

#[export] Instance FileType_eq_dec : EqDecision FileType.
Proof. solve_decision. Defined.

Definition is_dir (file_type : FileType) : bool := match file_type with FT_Directory => true | _ => false end.
Definition is_file (file_type : FileType) : bool := match file_type with FT_File => true | _ => false end.
Definition is_symlink (file_type : FileType) : bool := match file_type with FT_Symlink => true | _ => false end.

Record DirEntry := { entry_path : list string; entry_file_type : option FileType }.
Definition entry_depth (entry : DirEntry) : N := len (entry_path entry).

(** [gitignore_walk_builder(root, use_gitignore)] with a maximal depth and a
    filter, sorted by path. *)
Class Walker := walk : string → bool → option N → (DirEntry → bool) → list (result string DirEntry).

Inductive RepositoryDiscoveryError := Discovery_Ignore (root source : string).

(** ** Discovery *)
Section discovery.
Context `{Globset, Walker}.

Definition keep_entry (policy : IgnorePolicy) (entry : DirEntry) : bool :=
  if (entry_depth entry =? 0)%N then true
  else
    match entry_file_type entry with
    | None => false
    | Some file_type =>
        if is_symlink file_type then false else negb (excludes policy (entry_path entry) (is_dir file_type))
    end.

Fixpoint collect_entries (root : string) (max_results : option N) (select : list string → bool) (files : list (list string))
    (entries : list (result string DirEntry)) : result RepositoryDiscoveryError (list (list string)) :=
  match entries with
  | [] => Ok files
  | Err source :: _ => Err (Discovery_Ignore root source)
  | Ok entry :: entries =>
      match entry_file_type entry with
      | None => collect_entries root max_results select files entries
      | Some file_type =>
          if (entry_depth entry =? 0)%N || negb (is_file file_type) || is_symlink file_type
          then collect_entries root max_results select files entries
          else if negb (select (entry_path entry)) then collect_entries root max_results select files entries
          else
            let files := files ++ [entry_path entry] in
            if is_some_and max_results (λ limit, limit <=? len files)%N then Ok files
            else collect_entries root max_results select files entries
      end
  end.

Definition discover_repository_files_matching (root : string) (policy : IgnorePolicy) (max_depth max_results : option N)
    (select : list string → bool) : result RepositoryDiscoveryError (list (list string)) :=
  let? files :=
    collect_entries root max_results select [] (walk root (use_gitignore policy) max_depth (keep_entry policy)) in
  Ok (sorted_unique files).

Definition discover_repository_files (root : string) (policy : IgnorePolicy) (max_depth : option N)
    : result RepositoryDiscoveryError (list (list string)) :=
  discover_repository_files_matching root policy max_depth None (λ _, true).
End discovery.

(** ** Single paths

    [IncrementalIgnore] keeps the ignore files it has read. *)
Class IncrementalIgnore := {
  IgnoreState : Type;
  build_matchers : string → list IgnoreState;
  matched_with_errors : IgnoreState → list string → bool → IgnoreState * (bool * option string);
  matcher_root : IgnoreState → string;
}.

Section matcher.
Context `{Globset, IncrementalIgnore}.

Record RepositoryPathMatcher := { rm_policy : IgnorePolicy; rm_gitignore : option IgnoreState }.

Definition matcher_new (root : string) (policy : IgnorePolicy) : RepositoryPathMatcher :=
  {| rm_policy := policy; rm_gitignore := if use_gitignore policy then last (build_matchers root) else None |}.

Definition matcher_excludes (matcher : RepositoryPathMatcher) (relative : list string) (directory : bool)
    : RepositoryPathMatcher * result RepositoryDiscoveryError bool :=
  if excludes (rm_policy matcher) relative directory then (matcher, Ok true)
  else
    match rm_gitignore matcher with
    | None => (matcher, Ok false)
    | Some gitignore =>
        let '(gitignore, (ignored, error)) := matched_with_errors gitignore relative directory in
        let matcher := {| rm_policy := rm_policy matcher; rm_gitignore := Some gitignore |} in
        match error with
        | Some source => (matcher, Err (Discovery_Ignore (matcher_root gitignore) source))
        | None => (matcher, Ok ignored)
        end
    end.
End matcher.

(** ** Persisted watch targets ([sync.rs]) *)
Record PersistedWatchTarget := {
  pw_alias : string;
  pw_path : string;
  pw_configured_excludes : list string;
  pw_configured_excludes_source : ConfigSource;
  pw_include_defaults : list string;
  pw_include_defaults_source : ConfigSource;
  pw_use_gitignore : bool;
  pw_use_gitignore_source : ConfigSource;
  pw_explicit_paths : list string;
}.

Section target.
Context `{Globset}.

Record SyncTarget := {
  st_alias : string;
  st_path : string;
  st_ignore_policy : IgnorePolicy;
  st_explicit_paths : list string;
}.

Definition persist_target (target : SyncTarget) : PersistedWatchTarget :=
  {| pw_alias := st_alias target; pw_path := st_path target;
     pw_configured_excludes := configured_excludes (st_ignore_policy target);
     pw_configured_excludes_source := configured_excludes_source (st_ignore_policy target);
     pw_include_defaults := include_defaults (st_ignore_policy target);
     pw_include_defaults_source := include_defaults_source (st_ignore_policy target);
     pw_use_gitignore := use_gitignore (st_ignore_policy target);
     pw_use_gitignore_source := use_gitignore_source (st_ignore_policy target);
     pw_explicit_paths := st_explicit_paths target |}.

Definition restore_target (target : PersistedWatchTarget) : result IgnorePatternError SyncTarget :=
  let? policy :=
    with_gitignore (pw_configured_excludes target) (pw_configured_excludes_source target) (pw_include_defaults target)
      (pw_include_defaults_source target) (pw_use_gitignore target) (pw_use_gitignore_source target) in
  Ok {| st_alias := pw_alias target; st_path := pw_path target; st_ignore_policy := policy;
        st_explicit_paths := pw_explicit_paths target |}.
End target.

(** ** What a walk yields *)

(** The paths that are pushed. *)
Definition found (select : list string → bool) (entries : list DirEntry) : list (list string) :=
  map entry_path (List.filter (λ entry,
    is_some_and (entry_file_type entry) is_file && negb (entry_depth entry =? 0)%N && select (entry_path entry)) entries).

Lemma found_cons select entry entries : found select (entry :: entries) =
  (if is_some_and (entry_file_type entry) is_file && negb (entry_depth entry =? 0)%N && select (entry_path entry)
   then [entry_path entry] else []) ++ found select entries.
Proof. unfold found. simpl. by destruct (_ && _ && _). Qed.

Lemma collect_step root max_results select files entry entries :
  collect_entries root max_results select files (Ok entry :: entries) =
  if is_some_and (entry_file_type entry) is_file && negb (entry_depth entry =? 0)%N && select (entry_path entry)
  then
    if is_some_and max_results (λ limit, limit <=? len (files ++ [entry_path entry]))%N then Ok (files ++ [entry_path entry])
    else collect_entries root max_results select (files ++ [entry_path entry]) entries
  else collect_entries root max_results select files entries.
Proof.
  simpl. destruct (entry_file_type entry) as [[]|]; simpl; try done; rewrite ?orb_true_r; try done.
  rewrite !orb_false_r. destruct (entry_depth entry =? 0)%N; [done|]. simpl. by destruct (select (entry_path entry)).
Qed.

Lemma collect_all root select files entries :
  collect_entries root None select files (map Ok entries) = Ok (files ++ found select entries).
Proof.
  revert files. induction entries as [|entry entries IH]; intros files; [simpl; by rewrite app_nil_r|].
  rewrite map_cons, collect_step, found_cons. destruct (_ && _ && _); simpl; rewrite IH; [by rewrite <-app_assoc|done].
Qed.

(** With a limit the walk stops after that many files, but not before the first. *)
Lemma collect_limited root limit select files entries :
  (length files < N.to_nat (N.max 1 limit))%nat →
  collect_entries root (Some limit) select files (map Ok entries) = Ok (take (N.to_nat (N.max 1 limit)) (files ++ found select entries)).
Proof.
  revert files. induction entries as [|entry entries IH]; intros files Hlen.
  - simpl. rewrite app_nil_r, take_ge by lia. done.
  - rewrite map_cons, collect_step, found_cons. destruct (_ && _ && _); [|by apply IH]. simpl. unfold len. rewrite length_app. simpl.
    destruct (N.leb_spec limit (N.of_nat (length files + 1))) as [Hl|Hl].
    + assert (Hn : N.to_nat (N.max 1 limit) = length (files ++ [entry_path entry])) by (rewrite length_app; simpl; lia).
      change (entry_path entry :: found select entries) with ([entry_path entry] ++ found select entries).
      rewrite app_assoc, Hn, take_app_length. done.
    + rewrite IH by (rewrite length_app; simpl; lia). by rewrite <-app_assoc.
Qed.

Lemma sorted_filter {A} (R : A → A → Prop) (f : A → bool) l : StronglySorted R l → StronglySorted R (List.filter f l).
Proof.
  induction 1 as [|x l _ IH Hx]; simpl; [constructor|]. destruct (f x); [|done]. constructor; [done|].
  rewrite Forall_forall in *. intros y [Hy _]%list_filter_In. by apply Hx.
Qed.

Lemma sorted_map_filter {A B} (R : B → B → Prop) (g : A → B) (f : A → bool) l :
  StronglySorted R (map g l) → StronglySorted R (map g (List.filter f l)).
Proof.
  induction l as [|x l IH]; simpl; [done|]. intros [Hs Hx]%StronglySorted_inv. destruct (f x); [|by apply IH]. simpl.
  constructor; [by apply IH|]. rewrite Forall_forall in *. intros y (z & -> & [Hz _]%list_filter_In)%list_elem_of_fmap.
  apply Hx, list_elem_of_fmap. eauto.
Qed.

Lemma sorted_take {A} (R : A → A → Prop) n l : StronglySorted R l → StronglySorted R (take n l).
Proof.
  intros Hs. revert n. induction Hs as [|x l _ IH Hx]; intros [|n]; simpl; try constructor; [by apply IH|].
  rewrite Forall_forall in *. intros y Hy. apply Hx. by eapply subseteq_take.
Qed.

Lemma sorted_unique_id {A} `{TotalOrd A} (l : list A) : strictly_sorted l → sorted_unique l = l.
Proof. intros Hs. apply strictly_sorted_ext; [apply sorted_unique_strict|done|]. intros x. apply sorted_unique_elem_of. Qed.

(** ** Exactness *)
Section exact.
Context `{GlobsetLaws, Walker}.

(** The entries of a file system below its root, and the walk that the [ignore]
    crate documents: sorted, no deeper than allowed, and below a directory only
    if that is kept and not ignored. *)
Notation FileSystem := (gmap (list string) FileType) (only parsing).

Definition tree (fs : FileSystem) : Prop :=
  ∀ path file_type, fs !! path = Some file_type → path ≠ [] ∧ plain_path path ∧
    ∀ above rest, path = above ++ rest → above ≠ [] → rest ≠ [] → fs !! above = Some FT_Directory.

Definition visited (fs : FileSystem) (ignored : list string → bool → bool) (git : bool) (depth : option N) (keep : DirEntry → bool)
    (entry : DirEntry) : Prop :=
  ∃ file_type, entry_file_type entry = Some file_type ∧
    (entry_path entry = [] ∧ file_type = FT_Directory ∨ fs !! entry_path entry = Some file_type) ∧
    is_none_or depth (λ depth, entry_depth entry <=? depth)%N = true ∧
    ∀ above rest above_type, entry_path entry = above ++ rest → fs !! above = Some above_type →
      keep {| entry_path := above; entry_file_type := Some above_type |} = true ∧
      (git = true → ignored above (is_dir above_type) = false).

Definition lawful_walk (root : string) (fs : FileSystem) (ignored : list string → bool → bool) : Prop :=
  ∀ git depth keep, ∃ entries,
    walk root git depth keep = map Ok entries ∧ strictly_sorted (map entry_path entries) ∧
    ∀ entry, entry ∈ entries ↔ visited fs ignored git depth keep entry.

(** Neither the path nor a directory on the way to it is ignored. *)
Definition ignored_on_way (ignored : list string → bool → bool) (path : list string) : Prop :=
  ignored path false = true ∨ ∃ above rest, path = above ++ rest ∧ above ≠ [] ∧ rest ≠ [] ∧ ignored above true = true.

Lemma visited_file fs ignored depth policy path :
  tree fs →
  visited fs ignored (use_gitignore policy) depth (keep_entry policy) {| entry_path := path; entry_file_type := Some FT_File |} ↔
  fs !! path = Some FT_File ∧ is_none_or depth (λ depth, len path <=? depth)%N = true ∧ reached policy path ∧
  (use_gitignore policy = true → ¬ ignored_on_way ignored path).
Proof.
  intros Htree. unfold visited. simpl. split.
  - intros (ft & [= <-] & [[_ ?]|Hfs] & Hd & Hall); [done|]. destruct (Htree _ _ Hfs) as (Hne & _ & Habove). split_and!; [done|done| |].
    + split.
      * destruct (Hall path [] FT_File) as [Hk _]; [by rewrite app_nil_r|done|]. unfold keep_entry, entry_depth, len in Hk. simpl in Hk.
        destruct path; [done|]. simpl in Hk. by apply negb_true_iff in Hk.
      * intros directory rest E Ha Hr. destruct (Hall directory rest FT_Directory E (Habove _ _ E Ha Hr)) as [Hk _].
        unfold keep_entry, entry_depth, len in Hk. simpl in Hk. destruct directory; [done|]. simpl in Hk. by apply negb_true_iff in Hk.
    + intros Hg [Hi|(above & rest & E & Ha & Hr & Hi)].
      * destruct (Hall path [] FT_File) as [_ Hn]; [by rewrite app_nil_r|done|]. simpl in Hn. by rewrite Hn in Hi.
      * destruct (Hall above rest FT_Directory E (Habove _ _ E Ha Hr)) as [_ Hn]. simpl in Hn. by rewrite Hn in Hi.
  - intros (Hfs & Hd & [Hr Hab] & Hi). destruct (Htree _ _ Hfs) as (Hne & _ & Habove). exists FT_File. split_and!; [done|by right|done|].
    intros above rest ft E Hat. destruct (decide (rest = [])) as [->|Hrest].
    + rewrite app_nil_r in E. subst above. rewrite Hfs in Hat. injection Hat as <-. split.
      * unfold keep_entry. simpl. rewrite Hr. by destruct (_ =? 0)%N.
      * intros Hg. apply not_true_is_false. intros ?. apply Hi; [done|by left].
    + destruct (Htree _ _ Hat) as (Hane & _). rewrite (Habove _ _ E Hane Hrest) in Hat. injection Hat as <-. split.
      * unfold keep_entry. simpl. rewrite (Hab _ _ E Hane Hrest). by destruct (_ =? 0)%N.
      * intros Hg. apply not_true_is_false. intros ?. apply Hi; [done|right]. eauto 6.
Qed.

Lemma found_elem select entries path :
  path ∈ found select entries ↔
  path ≠ [] ∧ select path = true ∧ {| entry_path := path; entry_file_type := Some FT_File |} ∈ entries.
Proof.
  unfold found. rewrite list_elem_of_fmap. split.
  - intros (entry & -> & [Hin [[Hf Hd]%andb_true_iff Hs]%andb_true_iff]%list_filter_In).
    split; [|split; [done|]].
    + intros E. unfold entry_depth in Hd. by rewrite E in Hd.
    + destruct entry as [path [[]|]]; done.
  - intros (Hne & Hs & Hin). eexists. split; [|apply list_filter_In; split; [exact Hin|]]; [done|]. simpl. rewrite Hs, andb_true_r.
    by destruct path.
Qed.

Lemma discovered root fs ignored es s1 incs s2 gitignore s3 policy depth select :
  lawful_walk root fs ignored → tree fs → with_gitignore es s1 incs s2 gitignore s3 = Ok policy →
  ∃ files, strictly_sorted files ∧
    discover_repository_files_matching root policy depth None select = Ok files ∧
    (∀ limit, discover_repository_files_matching root policy depth (Some limit) select = Ok (take (N.to_nat (N.max 1 limit)) files)) ∧
    ∀ path, path ∈ files ↔
      (fs !! path = Some FT_File ∧ is_none_or depth (λ depth, len path <=? depth)%N = true ∧ select path = true) ∧
      (gitignore = true → ¬ ignored_on_way ignored path) ∧ reached policy path.
Proof.
  intros Hwalk Htree Hpolicy. destruct (Hwalk (use_gitignore policy) depth (keep_entry policy)) as (entries & Hw & Hs & Hv).
  assert (Hsorted : strictly_sorted (found select entries)) by (by apply sorted_map_filter).
  exists (found select entries). split; [done|]. unfold discover_repository_files_matching. rewrite Hw. split; [|split].
  - rewrite collect_all. simpl. by rewrite sorted_unique_id.
  - intros limit. rewrite collect_limited by (simpl; lia). simpl. by rewrite sorted_unique_id by (by apply sorted_take).
  - intros path. rewrite found_elem, Hv, visited_file by done.
    pose proof Hpolicy as (_ & _ & _ & _ & _ & _ & _ & _ & [-> _] & _)%with_gitignore_Ok. split; [tauto|].
    intros ((Hfs & Hd & Hsel) & Hi & Hr). by destruct (Htree _ _ Hfs) as (Hne & _).
Qed.
End exact.

(** C20: Discovery is exact. Under an accepted policy it finds, in order, exactly
    the regular files within the depth that are selected, that no ignore file in
    force rules out, directly or above, that are not inside a protected
    directory, that no configured pattern matches, directly or above, and that
    are not inside a default directory unless an exception matches them. With a
    limit it finds the first ones of these, at least one. *)
Theorem discovery_exact `{GlobsetLaws, Walker} root fs ignored es s1 incs s2 gitignore s3 policy depth select :
  lawful_walk root fs ignored → tree fs → with_gitignore es s1 incs s2 gitignore s3 = Ok policy →
  ∃ files, discover_repository_files_matching root policy depth None select = Ok files ∧ strictly_sorted files ∧
    (∀ limit, discover_repository_files_matching root policy depth (Some limit) select = Ok (take (N.to_nat (N.max 1 limit)) files)) ∧
    ∀ path, path ∈ files ↔
      (fs !! path = Some FT_File ∧ is_none_or depth (λ depth, len path <=? depth)%N = true ∧ select path = true) ∧
      (gitignore = true → ¬ ignored_on_way ignored path) ∧
      (∀ name, name ∈ PROTECTED_DIRECTORY_NAMES → ¬ inside name path false) ∧
      (∀ pattern, pattern ∈ configured_excludes policy →
        matched pattern path false = false ∧
        ∀ directory rest, path = directory ++ rest → directory ≠ [] → rest ≠ [] → matched pattern directory true = false) ∧
      ((∀ name, name ∈ default_names → ¬ inside name path false) ∨
        ∃ pattern, pattern ∈ include_defaults policy ∧ pattern_matches pattern (candidate path) = true).
Proof.
  intros Hwalk Htree Hpolicy. destruct (discovered _ _ _ _ _ _ _ _ _ _ depth select Hwalk Htree Hpolicy) as (files & Hs & Hf & Hl & Hin).
  exists files. split_and!; [done..|]. intros path. rewrite Hin. split; intros ((Hfs & Hd & Hsel) & Hi & Hr);
    destruct (Htree _ _ Hfs) as (Hne & Hplain & _); rewrite (reached_exactly _ _ _ _ _ _ _ _ Hpolicy Hne Hplain) in *; done.
Qed.

(** ** Persisted targets *)
Section persisted.
Context `{Globset}.

Definition blank (pattern : string) : bool := String.eqb (trim pattern) "".

Lemma normalize_again patterns normalized :
  Forall is_ascii patterns → normalize_patterns patterns = Ok normalized →
  normalize_patterns (sorted_unique normalized) =
    if existsb blank (sorted_unique normalized) then Err Pattern_Empty else Ok (sorted_unique normalized).
Proof.
  intros Ha Hn. assert (Hall : ∀ q, q ∈ sorted_unique normalized → normalize_pattern q = if blank q then Err Pattern_Empty else Ok q).
  { intros q Hq. rewrite sorted_unique_elem_of in Hq. destruct (normalize_patterns_elem _ _ _ Hn Hq) as (p & Hp & E).
    rewrite Forall_forall in Ha. apply (normalize_stable p); [by apply Ha|done]. }
  revert Hall. generalize (sorted_unique normalized) as l. unfold normalize_patterns. induction l as [|q l IH]; intros Hall; simpl; [done|].
  rewrite Hall by set_solver. destruct (blank q); simpl; [done|]. rewrite IH by set_solver. by destruct (existsb blank l).
Qed.

Definition protects (component : string) : bool := existsb (String.eqb component) PROTECTED_DIRECTORY_NAMES.

Lemma validate_includes_Ok patterns : validate_protected_includes patterns = Ok tt ↔
  ∀ pattern component, pattern ∈ patterns → component ∈ split_slashes pattern → protects component = false.
Proof.
  assert (Hone : ∀ pattern components, try_fold (λ _, check_include pattern) tt components = Ok tt ↔
    ∀ component, component ∈ components → protects component = false).
  { intros pattern components. induction components as [|c cs IH]; simpl try_fold.
    - split; [|done]. intros _ c Hc. by apply not_elem_of_nil in Hc.
    - unfold check_include at 1. fold (protects c). setoid_rewrite elem_of_cons. destruct (protects c) eqn:E; cbn [result_bind].
      + split; [done|]. intros Hall. pose proof (Hall c (or_introl eq_refl)) as Hc. by rewrite Hc in E.
      + rewrite IH. naive_solver. }
  unfold validate_protected_includes. induction patterns as [|p ps IH]; simpl try_fold.
  - split; [|done]. intros _ p c Hp. by apply not_elem_of_nil in Hp.
  - setoid_rewrite elem_of_cons. destruct (try_fold (λ _, check_include p) tt (split_slashes p)) as [[]|e] eqn:E; cbn [result_bind].
    + rewrite IH. rewrite Hone in E. naive_solver.
    + split; [done|]. intros Hall. rewrite (proj2 (Hone p (split_slashes p))) in E; [done|]. intros c Hc. eapply Hall; [by left|done].
Qed.
End persisted.

(** A watch target that was persisted is restored unchanged, unless one of
    its normalised patterns is blank, like that of [./ ]: such a policy was
    accepted, but restoring it fails. Stated for ASCII patterns. *)
Theorem persisted_target_restored `{Globset} es s1 incs s2 gitignore s3 target :
  Forall is_ascii es → Forall is_ascii incs →
  with_gitignore es s1 incs s2 gitignore s3 = Ok (st_ignore_policy target) →
  restore_target (persist_target target) =
    if existsb blank (configured_excludes (st_ignore_policy target) ++ include_defaults (st_ignore_policy target))
    then Err Pattern_Empty else Ok target.
Proof.
  intros Hes Hincs (excluded & included & He & Hi & Hv & Eex & Ein & [Es1 Es2] & [Egit Es3] & Hpre & Hp & Hd & Hc & Hm)%with_gitignore_Ok.
  unfold restore_target, persist_target, with_gitignore. simpl. rewrite Eex, Ein, (normalize_again es), (normalize_again incs), existsb_app by done.
  destruct (existsb blank (sorted_unique excluded)); simpl; [done|]. destruct (existsb blank (sorted_unique included)); simpl; [done|].
  rewrite (proj2 (validate_includes_Ok (sorted_unique included))).
  2: { rewrite validate_includes_Ok in Hv. intros p c Hpin. rewrite sorted_unique_elem_of in Hpin. by apply Hv. }
  cbn [result_bind]. rewrite (sorted_unique_id (sorted_unique excluded)), (sorted_unique_id (sorted_unique included)) by apply sorted_unique_strict. rewrite Ein in Hpre. rewrite <-Hpre, Hp, Hd. simpl.
  rewrite Eex in Hc. rewrite Ein in Hm. rewrite Hc, Hm. simpl.
  destruct target as [alias path policy explicit]. simpl in *. destruct policy. simpl in *. by subst.
Qed.

(** ** Fingerprints of policies *)
Section fingerprint.
Context `{Globset, DebugStr}.

(** [{:?}] of a string is quoted and ends where its closing quote does. *)
Definition debug_delimits : Prop :=
  (∀ a, starts_with (String "034"%char "") (str_debug a) = true) ∧
  ∀ a b s t, str_debug a +:+ s = str_debug b +:+ t → a = b ∧ s = t.

(** An encoding that ends where it says, and does not start like the end of a list. *)
Definition delimited {A} (debug : A → string) : Prop := ∀ a b s t, debug a +:+ s = debug b +:+ t → a = b ∧ s = t.
Definition item_like {A} (debug : A → string) : Prop := ∀ a u v, debug a +:+ u ≠ "]" +:+ v.

Lemma debug_vec_delimited {A} (debug : A → string) : delimited debug → item_like debug → delimited (debug_vec debug).
Proof.
  intros Hinj Hopen l k s t. unfold debug_vec. simpl. intros [= E]. rewrite <-!string_app_assoc in E.
  assert (Hitems : ∀ l k, join ", " (map debug l) +:+ "]" +:+ s = join ", " (map debug k) +:+ "]" +:+ t →
    (l = [] ↔ k = []) → l = k ∧ s = t).
  { clear E l k. induction l as [|a l IH]; intros k E Hk; [rewrite (proj1 Hk) by done; by rewrite (proj1 Hk) in E by done; injection E as ->|].
    destruct k as [|b k]; [by specialize (proj2 Hk eq_refl)|]. clear Hk.
    assert (Hsplit : ∀ x xs u, join ", " (map debug (x :: xs)) +:+ u =
      debug x +:+ (if xs is [] then "" else ", ") +:+ join ", " (map debug xs) +:+ u).
    { intros x [|y xs] u; [done|]. simpl map. rewrite join_first by done. by rewrite <-!string_app_assoc. }
    rewrite !Hsplit in E. apply Hinj in E as [-> E]. destruct l as [|x l], k as [|y k]; simpl in E; [by injection E as ->|done|done|].
    injection E as E. destruct (IH (y :: k)) as [-> ->]; done. }
  apply Hitems; [done|]. destruct l as [|a l], k as [|b k]; simpl in E; [done| | |done].
  - exfalso. destruct k; [eapply Hopen; symmetry; exact E|]. simpl in E. rewrite <-string_app_assoc in E. eapply Hopen. symmetry. exact E.
  - exfalso. destruct l; [eapply Hopen; exact E|]. simpl in E. rewrite <-string_app_assoc in E. eapply Hopen. exact E.
Qed.

Lemma str_debug_item : debug_delimits → item_like str_debug.
Proof. intros [Hquote _] a u v. destruct (proj1 (starts_with_spec _ _) (Hquote a)) as [r ->]. done. Qed.

Lemma debug_list_inj (l k : list string) s t :
  debug_delimits → debug_list l +:+ s = debug_list k +:+ t → l = k ∧ s = t.
Proof. intros Hd. apply debug_vec_delimited; [exact (proj2 Hd)|by apply str_debug_item]. Qed.

Lemma source_debug_inj a b s t : source_debug a +:+ ";" +:+ s = source_debug b +:+ ";" +:+ t → a = b ∧ s = t.
Proof. destruct a, b; simpl; intros E; try discriminate E; by injection E as ->. Qed.

Lemma bool_display_inj a b s t : bool_display a +:+ ";" +:+ s = bool_display b +:+ ";" +:+ t → a = b ∧ s = t.
Proof. destruct a, b; simpl; intros E; try discriminate E; by injection E as ->. Qed.

Lemma policy_eq_true (p q : IgnorePolicy) : policy_eq p q = true ↔
  (configured_excludes p = configured_excludes q ∧ configured_excludes_source p = configured_excludes_source q) ∧
  (include_defaults p = include_defaults q ∧ include_defaults_source p = include_defaults_source q) ∧
  use_gitignore p = use_gitignore q ∧ use_gitignore_source p = use_gitignore_source q.
Proof. unfold policy_eq. rewrite !andb_true_iff, !bool_decide_eq_true, Bool.eqb_true_iff. tauto. Qed.

Lemma policy_material_inj p q s t :
  debug_delimits → fingerprint_material p +:+ ";" +:+ s = fingerprint_material q +:+ ";" +:+ t → policy_eq p q = true ∧ s = t.
Proof.
  intros Hdebug. rewrite policy_eq_true. unfold fingerprint_material. rewrite <-!string_app_assoc. intros E.
  do 7 (apply string_app_inj_l in E).
  apply debug_list_inj in E as [E1 E]; [|done]. apply (string_app_inj_l ";excludes_source=") in E.
  apply source_debug_inj in E as [E2 E]. apply (string_app_inj_l "include_defaults=") in E.
  apply debug_list_inj in E as [E3 E]; [|done]. apply (string_app_inj_l ";include_defaults_source=") in E.
  apply source_debug_inj in E as [E4 E]. apply (string_app_inj_l "use_gitignore=") in E.
  apply bool_display_inj in E as [E5 E]. apply (string_app_inj_l "use_gitignore_source=") in E.
  apply source_debug_inj in E as [E6 E]. done.
Qed.

(** Two policies have the same fingerprint exactly when they are equal, and
    policies that are equal were compiled to the same matchers. *)
Lemma policy_fingerprint_exact p q :
  debug_delimits → fingerprint_material p = fingerprint_material q ↔ policy_eq p q = true.
Proof.
  intros Hdebug. split.
  - intros E. apply (policy_material_inj p q "" "" Hdebug). by rewrite E.
  - intros He. apply policy_eq_true in He as ([E1 E2] & [E3 E4] & E5 & E6). unfold fingerprint_material. by rewrite E1, E2, E3, E4, E5, E6.
Qed.

Lemma equal_policies_compiled es s1 incs s2 gitignore s3 es' s1' incs' s2' gitignore' s3' p q :
  with_gitignore es s1 incs s2 gitignore s3 = Ok p → with_gitignore es' s1' incs' s2' gitignore' s3' = Ok q →
  policy_eq p q = true ↔ p = q.
Proof.
  intros (_ & _ & _ & _ & _ & _ & _ & _ & _ & Hpre & H1 & H2 & H3 & H4)%with_gitignore_Ok
    (_ & _ & _ & _ & _ & _ & _ & _ & _ & Hpre' & H1' & H2' & H3' & H4')%with_gitignore_Ok.
  rewrite policy_eq_true. split; [|by intros ->]. intros ([E1 E2] & [E3 E4] & E5 & E6).
  rewrite E1 in H3. rewrite E3 in H4, Hpre. destruct p, q. simpl in *. subst. congruence.
Qed.
End fingerprint.

(** * A matcher and a walker *)
Module Example_discovery.
Fixpoint match_wild (pattern : string) : string → bool :=
  match pattern with
  | "" => λ text, String.eqb text ""
  | String c pattern =>
      if Ascii.eqb c "*" then
        fix skip (text : string) : bool :=
          match_wild pattern text || match text with "" => false | String _ text => skip text end
      else λ text, match text with "" => false | String d text => (Ascii.eqb c "?" || Ascii.eqb c d) && match_wild pattern text end
  end.

Fixpoint match_components (patterns : list string) : list string → bool :=
  match patterns with
  | [] => λ components, is_empty_list components
  | pattern :: patterns =>
      if String.eqb pattern "**" then
        match patterns with
        | [] => λ components, negb (is_empty_list components)
        | _ =>
            fix skip (components : list string) : bool :=
              match_components patterns components || match components with [] => false | _ :: components => skip components end
        end
      else λ components,
        match components with
        | [] => false
        | component :: components => match_wild pattern component && match_components patterns components
        end
  end.

Definition component_globs : Globset := {|
  Glob := string; GlobSet := list string;
  glob_build := λ pattern, if str_any is_delimiter pattern then Err "unsupported" else Ok pattern;
  glob_is_match := λ pattern text, match_components (split_slashes pattern) (split_slashes text);
  globset_build := λ globs, Ok globs;
  is_match := λ globs text, existsb (λ pattern, match_components (split_slashes pattern) (split_slashes text)) globs;
|}.
#[local] Existing Instance component_globs.

Lemma match_literal pattern text : literal_text pattern → match_wild pattern text = String.eqb pattern text.
Proof.
  unfold literal_text. revert text. induction pattern as [|c pattern IH]; intros text Hl; [by destruct text|].
  change (is_syntax c || str_any is_syntax pattern = false) in Hl. apply orb_false_iff in Hl as [Hc Hl].
  unfold is_syntax, is_wildcard in Hc. rewrite !orb_false_iff in Hc. destruct Hc as [[[H1 H2] _] _].
  cbn [match_wild]. rewrite Ascii.eqb_sym, H1. destruct text as [|d text]; [done|].
  rewrite (Ascii.eqb_sym c "?"), H2, IH by done. simpl orb. cbn [String.eqb]. by destruct (Ascii.eqb c d).
Qed.

Lemma literal_not_star text : literal_text text → text ≠ "**".
Proof. by intros H ->. Qed.

Lemma match_nothing pattern patterns : match_components (pattern :: patterns) [] = false.
Proof.
  revert pattern. induction patterns as [|q patterns IH]; intros pattern; cbn [match_components]; destruct (String.eqb pattern "**"); try done.
  specialize (IH q). cbn [match_components] in IH. cbn [match_components]. by rewrite IH.
Qed.

Lemma match_literals literals patterns components :
  Forall literal_text literals → match_components (literals ++ patterns) components = true ↔
  ∃ rest, components = literals ++ rest ∧ match_components patterns rest = true.
Proof.
  intros Hl. revert components. induction Hl as [|l ls Hl _ IH]; intros components; simpl; [naive_solver|].
  rewrite (proj2 (String.eqb_neq _ _)) by (by apply literal_not_star). destruct components as [|c cs]; [naive_solver|].
  rewrite match_literal, andb_true_iff, String.eqb_eq, IH by done. naive_solver.
Qed.

Lemma match_skip pattern patterns components :
  match_components ("**" :: pattern :: patterns) components = true ↔
  ∃ before after, components = before ++ after ∧ match_components (pattern :: patterns) after = true.
Proof.
  induction components as [|c cs IH].
  - rewrite match_nothing. split; [done|]. intros (b & a & E & Hm). symmetry in E. apply app_eq_nil in E as [_ ->].
    by rewrite match_nothing in Hm.
  - change (match_components ("**" :: pattern :: patterns) (c :: cs)) with
      (match_components (pattern :: patterns) (c :: cs) || match_components ("**" :: pattern :: patterns) cs).
    rewrite orb_true_iff, IH. split.
    + intros [Hm|(b & a & -> & Hm)]; [by exists [], (c :: cs)|by exists (c :: b), a].
    + intros ([|x b] & a & E & Hm); [left; by rewrite E|right]. injection E as -> ->. eauto.
Qed.

#[local] Instance component_laws : GlobsetLaws.
Proof.
  split.
  - by intros globs set text [= ->].
  - intros name glob text Hn Hl Hb. rewrite component_inside by done. simpl in Hb. destruct (str_any _ _); [done|]. injection Hb as <-.
    change (glob_is_match _ text) with (match_components (split_slashes (anywhere name)) (split_slashes text)).
    assert (E : split_slashes (anywhere name) = ["**"; name; "**"]).
    { unfold anywhere. change ("**/" +:+ name +:+ "/**") with ("**" +:+ "/" +:+ name +:+ "/" +:+ "**").
      rewrite !split_slashes_app. destruct Hn as [_ Hn]. unfold split_slashes at 2. by rewrite split_by_none. }
    rewrite E, match_skip. split.
    + intros (before & after & Es & Hm). apply (match_literals [name] ["**"]) in Hm as (rest & -> & Hm); [|by constructor].
      exists before, rest. split; [done|]. by destruct rest.
    + intros (before & after & Es & Hne). exists before, (name :: after). split; [done|].
      apply (match_literals [name] ["**"]); [by constructor|]. exists after. split; [done|]. by destruct after.
  - intros literal rest glob text Hl Hb Hm. simpl in Hb. destruct (str_any _ _); [done|]. injection Hb as <-.
    change (match_components (split_slashes (literal +:+ rest)) (split_slashes text) = true) in Hm.
    assert (Hls : Forall literal_text (split_slashes literal)).
    { apply Forall_forall. intros c Hc. unfold literal_text. destruct (str_any is_syntax c) eqn:E; [|done].
      unfold literal_text in Hl. by rewrite (split_by_piece_sub _ _ _ _ Hc E) in Hl. }
    assert (Hlne : split_slashes literal ≠ []) by apply split_by_not_nil. split.
    + intros ->. rewrite string_app_nil_r in Hm. rewrite <-(app_nil_r (split_slashes literal)) in Hm.
      apply match_literals in Hm as (tail & Es & Ht); [|done]. destruct tail; [|done]. rewrite app_nil_r in Es.
      by rewrite <-(join_slashes text), Es, join_slashes.
    + intros (after & ->)%starts_with_spec. rewrite split_slashes_app in Hm. apply match_literals in Hm as (tail & Es & Ht); [|done].
      assert (tail ≠ []).
      { intros ->. pose proof (split_by_not_nil is_slash after). fold (split_slashes after) in *.
        destruct (split_slashes after); [done|]. by rewrite match_nothing in Ht. }
      apply starts_with_spec. exists (join "/" tail).
      rewrite <-(join_slashes text), Es, join_app, join_slashes by done. by rewrite string_app_assoc.
Qed.

(** A walker over a listed file system. *)
Definition prefixes (path : list string) : list (list string) := map (λ n, take n path) (seq 0 (S (length path))).

Definition kept (fs : gmap (list string) FileType) (ignored : list string → bool → bool) (git : bool) (depth : option N)
    (keep : DirEntry → bool) (entry : DirEntry) : bool :=
  is_none_or depth (λ depth, entry_depth entry <=? depth)%N
  && forallb (λ above,
       match fs !! above with
       | Some above_type =>
           keep {| entry_path := above; entry_file_type := Some above_type |}
           && negb (git && ignored above (is_dir above_type))
       | None => true
       end) (prefixes (entry_path entry)).

Definition listing_walker (fs : gmap (list string) FileType) (ignored : list string → bool → bool) : Walker := λ _ git depth keep,
  map Ok (List.filter (kept fs ignored git depth keep)
    ({| entry_path := []; entry_file_type := Some FT_Directory |}
      :: map (λ item, {| entry_path := item.1; entry_file_type := Some item.2 |}) (btree_entries fs))).

Lemma prefixes_elem above path : above ∈ prefixes path ↔ ∃ rest, path = above ++ rest.
Proof.
  unfold prefixes. rewrite list_elem_of_fmap. setoid_rewrite elem_of_seq. split.
  - intros (n & -> & _). exists (drop n path). by rewrite take_drop.
  - intros [rest ->]. exists (length above). rewrite take_app_length, length_app. split; [done|lia].
Qed.

Lemma listing_lawful root fs ignored : tree fs → @lawful_walk (listing_walker fs ignored) root fs ignored.
Proof.
  intros Htree git depth keep. eexists. split; [reflexivity|]. split.
  - apply sorted_map_filter. simpl. rewrite map_map. simpl. constructor; [apply (btree_entries_keys_strict fs)|].
    apply Forall_forall. intros path ([p ft] & -> & Hin)%list_elem_of_fmap. apply btree_entries_elem_of in Hin.
    destruct (Htree _ _ Hin) as [Hne _]. simpl. by destruct p.
  - intros entry. rewrite list_filter_In, elem_of_cons, list_elem_of_fmap. unfold kept. rewrite andb_true_iff, forallb_In.
    setoid_rewrite prefixes_elem. unfold visited. split.
    + intros (Hin & Hd & Hall). assert (Habove : ∀ above rest above_type, entry_path entry = above ++ rest → fs !! above = Some above_type →
        keep {| entry_path := above; entry_file_type := Some above_type |} = true ∧ (git = true → ignored above (is_dir above_type) = false)).
      { intros above rest ft E Hat. specialize (Hall above (ex_intro _ rest E)). rewrite Hat in Hall.
        apply andb_true_iff in Hall as [Hk Hg]. split; [done|]. intros ->. by apply negb_true_iff in Hg. }
      destruct Hin as [->|([p ft] & -> & Hin%btree_entries_elem_of)]; [exists FT_Directory|exists ft]; split_and!; eauto.
    + intros (ft & Hft & Hin & Hd & Hall). split_and!; [|done|].
      * destruct entry as [p [ft'|]]; [|done]. injection Hft as ->. simpl in *. destruct Hin as [[-> ->]|Hin]; [by left|right].
        exists (p, ft). split; [done|by apply btree_entries_elem_of].
      * intros above [rest E]. destruct (fs !! above) as [above_type|] eqn:Hat; [|done].
        destruct (Hall _ _ _ E Hat) as [-> Hg]. destruct git; [by rewrite Hg|done].
Qed.

Definition checkout : gmap (list string) FileType := list_to_map [
  (["vendor"], FT_Directory); (["vendor"; "sdk"], FT_Directory); (["vendor"; "sdk"; "api.rs"], FT_File);
  (["vendor"; "other.rs"], FT_File); (["src"], FT_Directory); (["src"; "lib.rs"], FT_File); (["src"; "gen.rs"], FT_File);
  ([".git"], FT_Directory); ([".git"; "config"], FT_File); (["link"], FT_Symlink)].

Definition accepted (excludes includes : list string) : option IgnorePolicy :=
  match with_gitignore excludes FromWorkspaceManifest includes FromWorkspaceManifest false Source_Default with
  | Ok policy => Some policy
  | Err _ => None
  end.

Definition no_ignore_files : list string → bool → bool := λ _ _, false.
#[local] Existing Instance listing_walker.

Definition discovered (excludes includes : list string) (limit : option N) : option (list string) :=
  match accepted excludes includes with
  | Some policy =>
      match @discover_repository_files_matching _ (listing_walker checkout no_ignore_files) "/r" policy None limit (λ _, true) with
      | Ok files => Some (map candidate files)
      | Err _ => None
      end
  | None => None
  end.

Example reopened :
  [discovered [] [] None; discovered ["src/gen.rs"] ["./vendor//sdk/**"] None; discovered [] [] (Some 0%N); discovered [] [".git/config"] None] =
  [Some ["src/gen.rs"; "src/lib.rs"]; Some ["src/lib.rs"; "vendor/sdk/api.rs"]; Some ["src/gen.rs"]; None].
Proof. vm_compute. reflexivity. Qed.

Definition tree_check (fs : gmap (list string) FileType) : bool :=
  forallb (λ item : list string * FileType,
    negb (is_empty_list item.1)
    && forallb (λ c, negb (String.eqb c "") && negb (str_any is_slash c)) item.1
    && forallb (λ above, is_empty_list above || bool_decide (above = item.1) || bool_decide (fs !! above = Some FT_Directory))
         (prefixes item.1)) (map_to_list fs).

Lemma tree_checked fs : tree_check fs = true → tree fs.
Proof.
  unfold tree_check. rewrite forallb_In. intros Hall path ft Hat.
  specialize (Hall (path, ft)). rewrite elem_of_map_to_list in Hall. specialize (Hall Hat). simpl fst in Hall.
  rewrite !andb_true_iff, !forallb_In in Hall. destruct Hall as [[Hne Hplain] Habove]. split_and!.
  - by intros ->.
  - apply Forall_forall. intros c Hc. specialize (Hplain _ Hc). rewrite andb_true_iff, !negb_true_iff, String.eqb_neq in Hplain. done.
  - intros above rest E Ha Hr. specialize (Habove above). rewrite prefixes_elem in Habove.
    specialize (Habove (ex_intro _ rest E)). rewrite !orb_true_iff, !bool_decide_eq_true, is_empty_list_true in Habove.
    destruct Habove as [[?|Eq]|?]; [done| |done]. subst above. exfalso. apply Hr.
    apply (f_equal length) in E. rewrite length_app in E. apply length_zero_iff_nil. lia.
Qed.

Example discovery_exact_witness :
  ∃ policy files,
    with_gitignore ["src/gen.rs"] FromWorkspaceManifest ["vendor/sdk/**"] FromWorkspaceManifest false Source_Default = Ok policy ∧
    @discover_repository_files_matching _ (listing_walker checkout no_ignore_files) "/r" policy (Some 8%N) None (λ _, true) = Ok files ∧
    (["vendor"; "sdk"; "api.rs"] ∈ files ↔
      checkout !! ["vendor"; "sdk"; "api.rs"] = Some FT_File ∧ ∃ pattern, pattern ∈ include_defaults policy ∧
        pattern_matches pattern "vendor/sdk/api.rs" = true).
Proof.
  destruct (with_gitignore ["src/gen.rs"] FromWorkspaceManifest ["vendor/sdk/**"] FromWorkspaceManifest false Source_Default)
    as [policy|] eqn:E; [|vm_compute in E; discriminate E].
  destruct (@discovery_exact _ component_laws (listing_walker checkout no_ignore_files) "/r" checkout no_ignore_files
    _ _ _ _ _ _ policy (Some 8%N) (λ _, true) (listing_lawful _ _ _ (tree_checked checkout ltac:(vm_compute; reflexivity)))
    (tree_checked checkout ltac:(vm_compute; reflexivity)) E) as (files & Hf & _ & _ & Hin).
  exists policy, files. split; [done|]. split; [exact Hf|]. rewrite Hin. split.
  - intros ((Hfs & _) & _ & _ & _ & [Hno|Hyes]); [|split; [exact Hfs|exact Hyes]].
    exfalso. apply (Hno "vendor"); [by apply (list_elem_of_lookup_2 default_names 11)|]. exists [], ["sdk"; "api.rs"]. split; [done|by right].
  - intros [Hfs Hyes]. vm_compute in E. injection E as <-. split_and!; [exact Hfs|done|done|done| | |by right].
    + intros name Hn (a & b & Ep & _). assert (Hm : name ∈ ["vendor"; "sdk"; "api.rs"]) by (rewrite Ep; apply elem_of_app; right; by left).
      assert (Hall : forallb (λ name, negb (existsb (String.eqb name) ["vendor"; "sdk"; "api.rs"])) PROTECTED_DIRECTORY_NAMES = true)
        by (vm_compute; reflexivity).
      rewrite forallb_In in Hall. specialize (Hall name Hn). apply negb_true_iff in Hall. rewrite existsb_false_In in Hall.
      specialize (Hall name Hm). by rewrite String.eqb_refl in Hall.
    + intros pattern Hp. apply list_elem_of_singleton in Hp as ->. split; [vm_compute; reflexivity|].
      assert (Hall : forallb (λ above, is_empty_list above || negb (matched "src/gen.rs" above true)) (prefixes ["vendor"; "sdk"; "api.rs"]) = true)
        by (vm_compute; reflexivity).
      intros directory rest Ed Hne _. rewrite forallb_In in Hall. specialize (Hall directory). rewrite prefixes_elem in Hall.
      specialize (Hall (ex_intro _ rest Ed)). apply orb_true_iff in Hall as [He%is_empty_list_true|Hm]; [by destruct Hne|by apply negb_true_iff in Hm].
Defined.

Example persisted_target_restored_witness :
  ∃ target, st_alias target = "web" ∧ restore_target (persist_target target) = Ok target ∧
  ∃ blank_target, accepted ["./ "] [] = Some (st_ignore_policy blank_target) ∧
    restore_target (persist_target blank_target) = Err Pattern_Empty.
Proof.
  destruct (with_gitignore ["./coverage//**"] FromWorkspaceManifest ["vendor/sdk/"] RepositoryLocal true FromWorkspaceManifest)
    as [policy|] eqn:E; [|vm_compute in E; discriminate E].
  destruct (with_gitignore ["./ "] FromWorkspaceManifest [] FromWorkspaceManifest false Source_Default) as [blank_policy|] eqn:Eb;
    [|vm_compute in Eb; discriminate Eb].
  exists {| st_alias := "web"; st_path := "/r"; st_ignore_policy := policy; st_explicit_paths := [] |}. split; [done|]. split.
  - rewrite (persisted_target_restored ["./coverage//**"] FromWorkspaceManifest ["vendor/sdk/"] RepositoryLocal true FromWorkspaceManifest);
      [|repeat constructor..|exact E]. vm_compute in E. injection E as <-. vm_compute. reflexivity.
  - exists {| st_alias := "web"; st_path := "/r"; st_ignore_policy := blank_policy; st_explicit_paths := [] |}.
    split; [unfold accepted; by rewrite Eb|].
    rewrite (persisted_target_restored ["./ "] FromWorkspaceManifest [] FromWorkspaceManifest false Source_Default);
      [|repeat constructor..|exact Eb]. vm_compute in Eb. injection Eb as <-. vm_compute. reflexivity.
Defined.
End Example_discovery.
