(* ===== verification/Manifest.v ===== *)
(** * Workspace manifests ([crates/code-system-graph-core/src/manifest.rs])

    The decoded manifest, its validation in the order of the code, and the
    settings that are kept apart from it. Decoding YAML is the class [Yaml]; the
    manual links of a manifest are in [ManualLinks]. *)
From stdpp Require Import base gmap list strings pretty sorting.
From S2P Require Import Prelude RustOrd RustStr Model Authority ManualLinks Method Budget ExecPolicy IgnorePolicy Discovery.

(** ** Data *)
Record HttpConsumerConfig := { hc_method : string; hc_path : string; hc_source : string }.

Record HttpContractConfig := { ct_method : string; ct_path : string }.

Record IntegrationTestConfig := {
  it_name : string;
  it_path : string;
  it_framework : string;
  it_language : string;
  it_validates : HttpContractConfig;
}.

Record ContractImplementationConfig := {
  ci_language : string;
  ci_path : string;
  ci_symbol : string;
  ci_implements : HttpContractConfig;
}.

Record RepositoryConfig := {
  rc_path : string;
  rc_openapi : option string;
  rc_http_consumers : option (list HttpConsumerConfig);
  rc_integration_tests : option (list IntegrationTestConfig);
  rc_implementations : option (list ContractImplementationConfig);
  rc_excludes : option (list string);
  rc_include_defaults : option (list string);
  rc_authorities : option (list string);
}.

Record WorkspaceManifest := {
  wm_version : N;
  wm_name : string;
  wm_allowed_roots : list string;
  wm_repos : gmap string RepositoryConfig;
  wm_manual_links : list ManualLinkConfig;
  wm_extraction_budgets : option ExtractionBudgetOverrides;
  wm_execution_policy : option ExecutionPolicyOverrides;
}.

Record ManifestExtensions := { me_repository_use_gitignore : gmap string bool }.

Definition repository_use_gitignore (extensions : ManifestExtensions) (alias : string) : option bool :=
  me_repository_use_gitignore extensions !! alias.

(** What the decoder yields. *)
Record RepositoryConfigWire := {
  rw_path : string;
  rw_openapi : option string;
  rw_http_consumers : option (list HttpConsumerConfig);
  rw_integration_tests : option (list IntegrationTestConfig);
  rw_implementations : option (list ContractImplementationConfig);
  rw_excludes : option (list string);
  rw_include_defaults : option (list string);
  rw_use_gitignore : option bool;
  rw_authorities : option (list string);
}.

Record WorkspaceManifestWire := {
  ww_version : N;
  ww_name : string;
  ww_allowed_roots : list string;
  ww_repos : gmap string RepositoryConfigWire;
  ww_manual_links : list ManualLinkConfig;
  ww_extraction_budgets : option ExtractionBudgetOverrides;
  ww_execution_policy : option ExecutionPolicyOverrides;
}.

(** [crate::yaml::from_str], with its errors rendered. *)
Class Yaml := yaml_from_str : string → result string WorkspaceManifestWire.

(** [Metadata] stands for the variants that manual links share: [EmptyField],
    [UnsafeMetadata], [FieldTooLong] and those of the links themselves. *)
Inductive ManifestError :=
| InvalidYaml (message : string)
| UnsupportedVersion (found : N)
| Metadata (error : ManualLinks.ManifestError)
| ME_InvalidIgnorePattern (field : string) (source : IgnorePatternError)
| ME_InvalidExtractionBudget (source : InvalidExtractionBudget)
| ME_InvalidExecutionPolicy (source : InvalidExecutionPolicy)
| EmptyRepositories
| InvalidAuthority (field : string)
| DuplicateAuthority (authority first second : string).

Definition map_err {E F A} (f : E → F) (r : result E A) : result F A :=
  match r with Ok a => Ok a | Err e => Err (f e) end.

(** ** Validation *)
Definition require_text (field value : string) : result ManifestError unit := map_err Metadata (validate_not_empty field value).

Definition require_fields (prefix : string) (fields : list (string * string)) : result ManifestError unit :=
  try_each (λ field, require_text (prefix +:+ field.1) field.2) fields.

Definition indexed_field (alias list_name : string) (index : N) : string :=
  "repos." +:+ alias +:+ "." +:+ list_name +:+ "[" +:+ pretty index +:+ "].".

Definition items {A} (o : option (list A)) : list (N * A) := enumerate_from 0 (default [] o).

Definition consumer_fields (consumer : HttpConsumerConfig) : list (string * string) :=
  [("method", hc_method consumer); ("path", hc_path consumer); ("source", hc_source consumer)].

Definition test_fields (test : IntegrationTestConfig) : list (string * string) :=
  [("name", it_name test); ("path", it_path test); ("framework", it_framework test); ("language", it_language test);
   ("validates.method", ct_method (it_validates test)); ("validates.path", ct_path (it_validates test))].

Definition implementation_fields (implementation : ContractImplementationConfig) : list (string * string) :=
  [("language", ci_language implementation); ("path", ci_path implementation); ("symbol", ci_symbol implementation);
   ("implements.method", ct_method (ci_implements implementation)); ("implements.path", ct_path (ci_implements implementation))].

Section validation.
Context `{Globset}.

Definition validate_repository_ignore_patterns (alias : string) (repository : RepositoryConfig) : result ManifestError unit :=
  check? match rc_excludes repository with
         | Some patterns => map_err (ME_InvalidIgnorePattern ("repos." +:+ alias +:+ ".excludes")) (validate_excludes patterns)
         | None => Ok tt
         end in
  match rc_include_defaults repository with
  | Some patterns => map_err (ME_InvalidIgnorePattern ("repos." +:+ alias +:+ ".includeDefaults")) (validate_include_defaults patterns)
  | None => Ok tt
  end.

Definition validate_repository (entry : string * RepositoryConfig) : result ManifestError unit :=
  let '(alias, repository) := entry in
  check? require_text ("repos." +:+ alias) alias in
  check? require_text ("repos." +:+ alias +:+ ".path") (rc_path repository) in
  check? match rc_openapi repository with
         | Some openapi => require_text ("repos." +:+ alias +:+ ".openapi") openapi
         | None => Ok tt
         end in
  check? try_each (λ item, require_fields (indexed_field alias "httpConsumers" item.1) (consumer_fields item.2))
           (items (rc_http_consumers repository)) in
  check? try_each (λ item, require_fields (indexed_field alias "integrationTests" item.1) (test_fields item.2))
           (items (rc_integration_tests repository)) in
  check? try_each (λ item, require_fields (indexed_field alias "implementations" item.1) (implementation_fields item.2))
           (items (rc_implementations repository)) in
  validate_repository_ignore_patterns alias repository.

Definition claim_authority (alias : string) (owners : gmap string string) (item : N * string)
    : result ManifestError (gmap string string) :=
  let '(index, authority) := item in
  let field := "repos." +:+ alias +:+ ".authorities[" +:+ pretty index +:+ "]" in
  check? require_text field authority in
  let? normalized := ok_or (normalize_authority authority) (InvalidAuthority field) in
  match owners !! normalized with
  | Some first =>
      if negb (String.eqb first alias) then Err (DuplicateAuthority normalized first alias)
      else Ok (<[normalized := alias]> owners)
  | None => Ok (<[normalized := alias]> owners)
  end.

Definition validate_authorities (repos : gmap string RepositoryConfig) : result ManifestError unit :=
  check? try_fold (λ owners entry, try_fold (claim_authority entry.1) owners (items (rc_authorities entry.2)))
           (∅ : gmap string string) (btree_entries repos) in
  Ok tt.

Definition root_field (index : N) : string := "allowedRoots[" +:+ pretty index +:+ "]".

Definition validate_manifest `{InstantRange} (manifest : WorkspaceManifest) : result ManifestError WorkspaceManifest :=
  if negb (wm_version manifest =? 1)%N then Err (UnsupportedVersion (wm_version manifest))
  else
    check? require_text "name" (wm_name manifest) in
    check? try_each (λ root, require_text (root_field root.1) root.2) (enumerate_from 0 (wm_allowed_roots manifest)) in
    if bool_decide (wm_repos manifest = ∅) then Err EmptyRepositories
    else
      check? map_err Metadata (validate_manual_links (wm_manual_links manifest)) in
      let? _ := map_err ME_InvalidExtractionBudget (resolve (wm_extraction_budgets manifest)) in
      let? _ := map_err ME_InvalidExecutionPolicy (resolve_policy (wm_execution_policy manifest)) in
      check? try_each validate_repository (btree_entries (wm_repos manifest)) in
      check? validate_authorities (wm_repos manifest) in
      Ok manifest.
End validation.

(** ** Parsing *)
Definition repository_of_wire (repository : RepositoryConfigWire) : RepositoryConfig :=
  {| rc_path := rw_path repository; rc_openapi := rw_openapi repository; rc_http_consumers := rw_http_consumers repository;
     rc_integration_tests := rw_integration_tests repository; rc_implementations := rw_implementations repository;
     rc_excludes := rw_excludes repository; rc_include_defaults := rw_include_defaults repository;
     rc_authorities := rw_authorities repository |}.

Definition manifest_of_wire (wire : WorkspaceManifestWire) : WorkspaceManifest :=
  {| wm_version := ww_version wire; wm_name := ww_name wire; wm_allowed_roots := ww_allowed_roots wire;
     wm_repos := repository_of_wire <$> ww_repos wire; wm_manual_links := ww_manual_links wire;
     wm_extraction_budgets := ww_extraction_budgets wire; wm_execution_policy := ww_execution_policy wire |}.

Definition extensions_of_wire (wire : WorkspaceManifestWire) : ManifestExtensions :=
  {| me_repository_use_gitignore := omap rw_use_gitignore (ww_repos wire) |}.

Definition parse_manifest_with_extensions `{Globset, InstantRange, Yaml} (input : string)
    : result ManifestError (WorkspaceManifest * ManifestExtensions) :=
  let? wire := map_err InvalidYaml (yaml_from_str input) in
  let? manifest := validate_manifest (manifest_of_wire wire) in
  Ok (manifest, extensions_of_wire wire).

Definition parse_manifest `{Globset, InstantRange, Yaml} (input : string) : result ManifestError WorkspaceManifest :=
  let? '(manifest, _) := parse_manifest_with_extensions input in Ok manifest.

(** ** What a valid manifest is *)
Definition text_valid (value : string) : bool :=
  negb (String.eqb (trim value) "") && negb (contains_unsafe_metadata_characters value).

Definition fields_valid (fields : list (string * string)) : Prop := Forall (λ field, text_valid field.2 = true) fields.

(** The authorities of a repository, with their normal forms. *)
Definition declares_authority (repos : gmap string RepositoryConfig) (alias authority : string) : Prop :=
  ∃ repository, repos !! alias = Some repository ∧ authority ∈ default [] (rc_authorities repository).

Definition authorities_valid (repos : gmap string RepositoryConfig) : Prop :=
  (∀ alias authority, declares_authority repos alias authority →
     text_valid authority = true ∧ is_Some (normalize_authority authority)) ∧
  ∀ alias authority alias' authority',
    declares_authority repos alias authority → declares_authority repos alias' authority' →
    normalize_authority authority = normalize_authority authority' → alias = alias'.

Definition repository_valid `{Globset} (alias : string) (repository : RepositoryConfig) : Prop :=
  (text_valid alias = true ∧ text_valid (rc_path repository) = true ∧
   (∀ openapi, rc_openapi repository = Some openapi → text_valid openapi = true)) ∧
  (Forall (λ consumer, fields_valid (consumer_fields consumer)) (default [] (rc_http_consumers repository)) ∧
   Forall (λ test, fields_valid (test_fields test)) (default [] (rc_integration_tests repository)) ∧
   Forall (λ implementation, fields_valid (implementation_fields implementation)) (default [] (rc_implementations repository))) ∧
  (∀ patterns, rc_excludes repository = Some patterns → validate_excludes patterns = Ok tt) ∧
  (∀ patterns, rc_include_defaults repository = Some patterns → validate_include_defaults patterns = Ok tt).

Definition manifest_valid `{Globset, InstantRange} (manifest : WorkspaceManifest) : Prop :=
  (wm_version manifest = 1%N ∧ text_valid (wm_name manifest) = true ∧
   Forall (λ root, text_valid root = true) (wm_allowed_roots manifest) ∧ wm_repos manifest ≠ ∅) ∧
  declarations_valid (wm_manual_links manifest) ∧
  (is_ok (resolve (wm_extraction_budgets manifest)) = true ∧ is_ok (resolve_policy (wm_execution_policy manifest)) = true) ∧
  (∀ alias repository, wm_repos manifest !! alias = Some repository → repository_valid alias repository) ∧
  authorities_valid (wm_repos manifest).

(** ** Acceptance *)
Lemma map_err_Ok {E F A} (f : E → F) (r : result E A) a : map_err f r = Ok a ↔ r = Ok a.
Proof. destruct r; simpl; split; congruence. Qed.

Lemma require_text_Ok field value : require_text field value = Ok tt ↔ text_valid value = true.
Proof. unfold require_text. by rewrite map_err_Ok, validate_not_empty_Ok. Qed.

Lemma require_fields_Ok prefix fields : require_fields prefix fields = Ok tt ↔ fields_valid fields.
Proof.
  unfold require_fields, fields_valid. rewrite try_each_Ok. apply Forall_iff. intros field. apply require_text_Ok.
Qed.

Lemma enumerate_items {A} (P : A → Prop) index l : Forall (λ item, P item.2) (enumerate_from index l) ↔ Forall P l.
Proof.
  revert index. induction l as [|x l IH]; intros index; simpl; [by split; constructor|]. by rewrite !Forall_cons, IH.
Qed.

Lemma indexed_items_Ok {A} (check : N * A → result ManifestError unit) (P : A → Prop) (o : option (list A)) :
  (∀ item, check item = Ok tt ↔ P item.2) → try_each check (items o) = Ok tt ↔ Forall P (default [] o).
Proof. intros Hc. unfold items. rewrite try_each_Ok, <-(enumerate_items P 0). by apply Forall_iff. Qed.

Lemma check_unit_Ok {E} (a b : result E unit) : (check? a in b) = Ok tt ↔ a = Ok tt ∧ b = Ok tt.
Proof. destruct a as [[]|]; simpl; naive_solver. Qed.

Lemma check_option_Ok {A E} (o : option A) (check : A → result E unit) :
  match o with Some x => check x | None => Ok tt end = Ok tt ↔ ∀ x, o = Some x → check x = Ok tt.
Proof. destruct o; naive_solver. Qed.

Section accepted.
Context `{Globset}.

Lemma validate_repository_Ok alias repository :
  validate_repository (alias, repository) = Ok tt ↔ repository_valid alias repository.
Proof.
  unfold validate_repository, repository_valid, validate_repository_ignore_patterns. rewrite !check_unit_Ok, !require_text_Ok.
  rewrite !(check_option_Ok (rc_openapi repository)), !(check_option_Ok (rc_excludes repository)), (check_option_Ok (rc_include_defaults repository)).
  setoid_rewrite require_text_Ok. setoid_rewrite map_err_Ok.
  rewrite (indexed_items_Ok _ (λ consumer, fields_valid (consumer_fields consumer))) by (intros; apply require_fields_Ok).
  rewrite (indexed_items_Ok _ (λ test, fields_valid (test_fields test))) by (intros; apply require_fields_Ok).
  rewrite (indexed_items_Ok _ (λ implementation, fields_valid (implementation_fields implementation))) by (intros; apply require_fields_Ok).
  tauto.
Qed.

(** *** Authorities

    The nested loops visit all declarations in turn. *)
Definition declarations (repos : gmap string RepositoryConfig) : list (string * (N * string)) :=
  concat (map (λ entry, map (pair entry.1) (items (rc_authorities entry.2))) (btree_entries repos)).

Lemma claims_flat owners repos :
  try_fold (λ owners entry, try_fold (claim_authority entry.1) owners (items (rc_authorities entry.2))) owners (btree_entries repos) =
  try_fold (λ owners declaration, claim_authority declaration.1 owners declaration.2) owners (declarations repos).
Proof.
  unfold declarations. rewrite <-try_fold_concat. apply try_fold_ext. intros owners' entry. by rewrite try_fold_map.
Qed.

Lemma enumerate_in {A} (x : A) index l : x ∈ l ↔ ∃ i, (i, x) ∈ enumerate_from index l.
Proof.
  revert index. induction l as [|y l IH]; intros index; simpl.
  - split; [by intros ?%not_elem_of_nil|by intros [? ?%not_elem_of_nil]].
  - setoid_rewrite elem_of_cons. rewrite (IH (index + 1)%N). split; [|naive_solver].
    intros [->|[i Hi]]; [exists index; by left|eauto].
Qed.

Lemma declarations_elem repos alias authority :
  declares_authority repos alias authority ↔ ∃ index, (alias, (index, authority)) ∈ declarations repos.
Proof.
  unfold declares_authority, declarations. setoid_rewrite concat_map_In. split.
  - intros (repository & Hat & Hin). apply (enumerate_in _ 0) in Hin as [index Hin]. exists index, (alias, repository).
    rewrite btree_entries_elem_of. split; [done|]. apply list_elem_of_fmap. eauto.
  - intros (index & [alias' repository] & Hat%btree_entries_elem_of & Hin). apply list_elem_of_fmap in Hin as (item & [= <- <-] & Hin).
    exists repository. split; [done|]. apply (enumerate_in _ 0). eauto.
Qed.

Definition claim_valid (declaration : string * (N * string)) : Prop :=
  text_valid declaration.2.2 = true ∧ is_Some (normalize_authority declaration.2.2).

Lemma claim_Ok alias owners index authority owners' :
  claim_authority alias owners (index, authority) = Ok owners' ↔
  ∃ normalized, text_valid authority = true ∧ normalize_authority authority = Some normalized ∧
    (∀ first, owners !! normalized = Some first → first = alias) ∧ owners' = <[normalized := alias]> owners.
Proof.
  unfold claim_authority. set (field := "repos." +:+ _). destruct (require_text field authority) as [[]|e] eqn:Et; simpl.
  - apply require_text_Ok in Et. destruct (normalize_authority authority) as [normalized|]; simpl; [|naive_solver].
    destruct (owners !! normalized) as [first|] eqn:Eo; [|naive_solver]. destruct (String.eqb_spec first alias) as [->|Hne]; naive_solver.
  - split; [done|]. intros (n & Ht & _). apply (require_text_Ok field) in Ht. congruence.
Qed.

Definition claim_step (owners : gmap string string) (declaration : string * (N * string)) :=
  claim_authority declaration.1 owners declaration.2.

Lemma claims_Ok ds owners :
  is_ok (try_fold claim_step owners ds) = true ↔
  Forall claim_valid ds ∧
  (∀ d n first, d ∈ ds → normalize_authority d.2.2 = Some n → owners !! n = Some first → first = d.1) ∧
  (∀ d d' n, d ∈ ds → d' ∈ ds → normalize_authority d.2.2 = Some n → normalize_authority d'.2.2 = Some n → d.1 = d'.1).
Proof.
  revert owners. induction ds as [|[alias [index authority]] ds IH]; intros owners; cbn [try_fold].
  { split; [|done]. intros _. split_and!; [constructor|by intros ? ? ? ?%not_elem_of_nil..]. }
  setoid_rewrite elem_of_cons. rewrite Forall_cons. unfold claim_step at 1. cbn [fst snd].
  destruct (claim_authority alias owners (index, authority)) as [owners'|e] eqn:E; cbn [result_bind].
  - apply claim_Ok in E as (n & Ht & Hn & Hfirst & ->). rewrite IH. unfold claim_valid at 2. cbn [fst snd]. split.
    + intros (Hv & Howners & Hpairs). split; [split; [split; [done|by eexists]|done]|]. split.
      * intros d m first [->|Hd] Hm Ho; cbn [fst snd] in *; [naive_solver|].
        destruct (decide (m = n)) as [->|Hne]; [|eapply Howners; [done..|by rewrite lookup_insert_ne]].
        rewrite (Hfirst _ Ho). eapply Howners; [done..|by rewrite lookup_insert_eq].
      * intros d d' m Hd Hd' Hm Hm'. assert (Hhead : ∀ x, x ∈ ds → normalize_authority x.2.2 = Some n → alias = x.1).
        { intros x Hx Hnx. eapply Howners; [done..|by rewrite lookup_insert_eq]. }
        destruct Hd as [->|Hd], Hd' as [->|Hd']; cbn [fst snd] in *; [done| | |by eapply Hpairs].
        -- apply Hhead; congruence.
        -- symmetry. apply Hhead; congruence.
    + intros ([_ Hv] & Howners & Hpairs). split_and!; [done| |].
      * intros d m first Hd Hm Ho. destruct (decide (m = n)) as [->|Hne].
        -- rewrite lookup_insert_eq in Ho. injection Ho as <-.
           apply (Hpairs (alias, (index, authority)) d n); [by left|by right|done..].
        -- rewrite lookup_insert_ne in Ho by done. by eapply Howners; [right| |].
      * intros d d' m Hd Hd'. by apply Hpairs; right.
  - split; [done|]. intros ([[Ht [n Hn]] Hv] & Howners & _). cbn [fst snd] in *.
    assert (claim_authority alias owners (index, authority) = Ok (<[n := alias]> owners)); [|congruence].
    apply claim_Ok. exists n. split_and!; [done|done| |done]. intros first Ho. apply (Howners (alias, (index, authority)) n first); [by left|done|done].
Qed.

Lemma validate_authorities_Ok repos : validate_authorities repos = Ok tt ↔ authorities_valid repos.
Proof.
  unfold validate_authorities. rewrite claims_flat. change (λ owners declaration, _) with claim_step.
  transitivity (is_ok (try_fold claim_step ∅ (declarations repos)) = true); [by destruct (try_fold _ _ _)|].
  rewrite claims_Ok, Forall_forall. unfold authorities_valid. split.
  - intros (Hv & _ & Hpairs). split.
    + intros alias authority [index Hd]%declarations_elem. apply (Hv _ Hd).
    + intros alias authority alias' authority' [i Hd]%declarations_elem [i' Hd']%declarations_elem E.
      destruct (Hv _ Hd) as [_ [n Hn]]. cbn [fst snd] in Hn.
      apply (Hpairs (alias, (i, authority)) (alias', (i', authority')) n); cbn [fst snd]; congruence.
  - intros [Hv Hpairs]. split_and!.
    + intros [alias [index authority]] Hd. apply (Hv alias authority). apply declarations_elem. eauto.
    + intros d n first _ _ Ho. by rewrite lookup_empty in Ho.
    + intros [alias [i authority]] [alias' [i' authority']] n Hd Hd' Hn Hn'. cbn [fst snd] in *.
      apply (Hpairs alias authority alias' authority'); [apply declarations_elem; eauto..|congruence].
Qed.

(** The owners seen so far are declarations. *)
Lemma owners_declared ds owners : try_fold claim_step ∅ ds = Ok owners →
  ∀ n first, owners !! n = Some first → ∃ index authority, (first, (index, authority)) ∈ ds ∧ normalize_authority authority = Some n.
Proof.
  apply (try_fold_invariant (λ seen owners, ∀ n first, owners !! n = Some first →
    ∃ index authority, (first, (index, authority)) ∈ seen ∧ normalize_authority authority = Some n)).
  - intros n first Ho. by rewrite lookup_empty in Ho.
  - intros seen [alias [index authority]] owners1 owners2 Hi (m & _ & Hm & _ & ->)%claim_Ok _ n first Ho.
    destruct (decide (n = m)) as [->|Hne].
    + rewrite lookup_insert_eq in Ho. injection Ho as <-. exists index, authority. split; [set_solver|done].
    + rewrite lookup_insert_ne in Ho by done. destruct (Hi _ _ Ho) as (i & a & Hin & Ha). exists i, a. split; [set_solver|done].
Qed.

(** A conflict that is reported is one. *)
Lemma duplicate_authority_real repos n first second :
  validate_authorities repos = Err (DuplicateAuthority n first second) →
  first ≠ second ∧ ∃ authority authority', declares_authority repos first authority ∧ declares_authority repos second authority' ∧
    normalize_authority authority = Some n ∧ normalize_authority authority' = Some n.
Proof.
  unfold validate_authorities. rewrite claims_flat. change (λ owners declaration, _) with claim_step. intros Hv.
  assert (He : try_fold claim_step ∅ (declarations repos) = Err (DuplicateAuthority n first second)).
  { destruct (try_fold _ _ _); simpl in Hv; congruence. }
  apply try_fold_Err in He as (pre & [alias [index authority]] & post & owners & Hsplit & Hpre & Hx).
  unfold claim_step, claim_authority in Hx. cbn [fst snd] in Hx.
  match type of Hx with context [require_text ?f _] => destruct (require_text f authority) as [[]|e] eqn:Et end; cbn [result_bind] in Hx.
  2: { exfalso. unfold require_text in Et. destruct (validate_not_empty _ _); simpl in Et; congruence. }
  destruct (normalize_authority authority) as [m|] eqn:Em; cbn [ok_or result_bind] in Hx; [|done].
  destruct (owners !! m) as [f|] eqn:Eo; [|done]. destruct (String.eqb_spec f alias) as [|Hne]; [done|]. injection Hx as -> -> ->.
  split; [done|]. destruct (owners_declared _ _ Hpre _ _ Eo) as (i & a & Hin & Ha).
  exists a, authority. split_and!; [|..|done|done]; apply declarations_elem; rewrite Hsplit; [exists i|exists index]; set_solver.
Qed.
End accepted.

Lemma validate_manifest_Ok `{Globset, InstantRange} manifest result_manifest :
  validate_manifest manifest = Ok result_manifest ↔ result_manifest = manifest ∧ manifest_valid manifest.
Proof.
  unfold validate_manifest, manifest_valid. destruct (N.eqb_spec (wm_version manifest) 1) as [Hv|Hv]; simpl; [|naive_solver].
  rewrite check_Ok, require_text_Ok, check_Ok, try_each_Ok.
  assert (Hroots : Forall (λ root : N * string, require_text (root_field root.1) root.2 = Ok tt) (enumerate_from 0 (wm_allowed_roots manifest)) ↔
    Forall (λ root, text_valid root = true) (wm_allowed_roots manifest)).
  { rewrite <-(enumerate_items (λ root, text_valid root = true) 0). apply Forall_iff. intros root. apply require_text_Ok. }
  rewrite Hroots. destruct (bool_decide_reflect (wm_repos manifest = ∅)) as [He|He]; [naive_solver|].
  rewrite <-validate_ok_iff.
  assert (Hrepos : Forall (λ entry, validate_repository entry = Ok tt) (btree_entries (wm_repos manifest)) ↔
    ∀ alias repository, wm_repos manifest !! alias = Some repository → repository_valid alias repository).
  { rewrite Forall_forall. setoid_rewrite <-validate_repository_Ok. split.
    - intros Hall alias repository Hat. apply Hall, btree_entries_elem_of, Hat.
    - intros Hall [alias repository] Hat%btree_entries_elem_of. by apply Hall. }
  destruct (validate_manual_links _) as [[]|]; cbn [map_err result_bind is_ok]; [|naive_solver].
  destruct (resolve _) as [budgets|]; cbn [map_err result_bind is_ok]; [|naive_solver].
  destruct (resolve_policy _) as [policy|]; cbn [map_err result_bind is_ok]; [|naive_solver].
  rewrite !check_Ok, try_each_Ok, validate_authorities_Ok, Hrepos. naive_solver.
Qed.

(** Conflicts of authorities are only reported by their validation. *)
Definition unconflicted {A} (r : result ManifestError A) : Prop := ∀ n first second, r ≠ Err (DuplicateAuthority n first second).

Lemma unconflicted_check {A} (a : result ManifestError unit) (b : result ManifestError A) :
  unconflicted a → unconflicted b → unconflicted (check? a in b).
Proof. intros Ha Hb n f s. destruct a as [u|e]; simpl; [apply Hb|]. intros [= ->]. by apply (Ha n f s). Qed.

Lemma unconflicted_each {A} (check : A → result ManifestError unit) xs : (∀ x, unconflicted (check x)) → unconflicted (try_each check xs).
Proof.
  intros Hc n f s He. apply try_fold_Err in He as (_ & x & _ & ? & _ & _ & Hx). by apply (Hc x n f s).
Qed.

Lemma unconflicted_text field value : unconflicted (require_text field value).
Proof. intros n f s. unfold require_text. by destruct (validate_not_empty field value). Qed.

Lemma unconflicted_fields prefix fields : unconflicted (require_fields prefix fields).
Proof. apply unconflicted_each. intros. apply unconflicted_text. Qed.

Lemma unconflicted_repository `{Globset} entry : unconflicted (validate_repository entry).
Proof.
  destruct entry as [alias repository]. unfold validate_repository, validate_repository_ignore_patterns.
  repeat apply unconflicted_check; try apply unconflicted_text; try (apply unconflicted_each; intros; apply unconflicted_fields).
  - destruct (rc_openapi repository); [apply unconflicted_text|done].
  - intros n f s. destruct (rc_excludes repository) as [ps|]; [by destruct (validate_excludes ps)|done].
  - intros n f s. destruct (rc_include_defaults repository) as [ps|]; [by destruct (validate_include_defaults ps)|done].
Qed.

Lemma conflict_source `{Globset, InstantRange} manifest n first second :
  validate_manifest manifest = Err (DuplicateAuthority n first second) →
  validate_authorities (wm_repos manifest) = Err (DuplicateAuthority n first second).
Proof.
  unfold validate_manifest. destruct (negb _); [done|]. intros Herr.
  destruct (require_text "name" (wm_name manifest)) as [[]|e] eqn:E1; simpl in Herr.
  2: { injection Herr as ->. by apply unconflicted_text in E1. }
  destruct (try_each _ (enumerate_from 0 (wm_allowed_roots manifest))) as [[]|e] eqn:E2; simpl in Herr.
  2: { injection Herr as ->. apply unconflicted_each in E2; [done|]. intros x. apply unconflicted_text. }
  destruct (bool_decide _); [done|]. destruct (validate_manual_links _); [|done]. destruct (resolve _); [|done].
  destruct (resolve_policy _); [|done]. simpl in Herr.
  destruct (try_each validate_repository _) as [[]|e] eqn:E3; simpl in Herr.
  2: { injection Herr as ->. apply unconflicted_each in E3; [done|]. intros x. apply unconflicted_repository. }
  destruct (validate_authorities (wm_repos manifest)); simpl in Herr; congruence.
Qed.

(** C30: A workspace manifest is accepted exactly when it decodes and is valid:
    version 1, texts present and printable, at least one repository, valid manual
    links, budgets that resolve, a coherent execution policy, patterns that
    compile and open nothing protected, and authorities that belong to one
    repository each. It is then returned as decoded, with the [.gitignore]
    choices of its repositories; a conflict of authorities that is reported is
    a real one. *)
Theorem manifest_accepted_exactly `{Globset, InstantRange, Yaml} input :
  (∀ manifest extensions, parse_manifest_with_extensions input = Ok (manifest, extensions) ↔
    ∃ wire, yaml_from_str input = Ok wire ∧ manifest = manifest_of_wire wire ∧ manifest_valid manifest ∧
      ∀ alias, repository_use_gitignore extensions alias = (ww_repos wire !! alias ≫= rw_use_gitignore)) ∧
  ∀ wire n first second, yaml_from_str input = Ok wire →
    parse_manifest_with_extensions input = Err (DuplicateAuthority n first second) →
    first ≠ second ∧ ∃ authority authority',
      declares_authority (wm_repos (manifest_of_wire wire)) first authority ∧
      declares_authority (wm_repos (manifest_of_wire wire)) second authority' ∧
      normalize_authority authority = Some n ∧ normalize_authority authority' = Some n.
Proof.
  unfold parse_manifest_with_extensions. split.
  - intros manifest extensions. destruct (yaml_from_str input) as [wire|]; simpl; [|naive_solver].
    destruct (validate_manifest (manifest_of_wire wire)) as [m|] eqn:E; simpl.
    + apply validate_manifest_Ok in E as [-> Hv]. split.
      * intros [= <- <-]. exists wire. split_and!; [done..|]. intros alias. unfold repository_use_gitignore. simpl. by rewrite lookup_omap.
      * intros (w & [= <-] & -> & _ & Hext). do 2 f_equal. destruct extensions as [m]. unfold extensions_of_wire. f_equal.
        apply map_eq. intros alias. rewrite lookup_omap. symmetry. apply Hext.
    + split; [done|]. intros (w & [= <-] & -> & Hv & _).
      rewrite (proj2 (validate_manifest_Ok _ _)) in E by done. done.
  - intros wire n first second -> Herr. simpl in Herr. apply (duplicate_authority_real (wm_repos (manifest_of_wire wire))).
    apply conflict_source. by destruct (validate_manifest _); simpl in Herr; [|injection Herr as ->].
Qed.

Module Example_manifest.
#[local] Existing Instance Example_discovery.component_globs.
#[local] Instance wide_range : InstantRange := λ _, true.

Definition repository (authority : string) (use_gitignore : option bool) : RepositoryConfigWire :=
  {| rw_path := "../web"; rw_openapi := Some "openapi.yaml";
     rw_http_consumers := Some [{| hc_method := "POST"; hc_path := "/api/orders"; hc_source := "src/checkout.ts" |}];
     rw_integration_tests := None; rw_implementations := None; rw_excludes := Some ["coverage/**"];
     rw_include_defaults := Some ["vendor/sdk/**"]; rw_use_gitignore := use_gitignore; rw_authorities := Some [authority] |}.

Definition workspace (web api : string) : WorkspaceManifestWire :=
  {| ww_version := 1; ww_name := "commerce"; ww_allowed_roots := ["/srv"];
     ww_repos := {["web" := repository web (Some true); "api" := repository api None]}; ww_manual_links := [];
     ww_extraction_budgets := None; ww_execution_policy := None |}.

(** Three inputs: a valid workspace, a conflict and a protected exception. *)
#[local] Instance yaml : Yaml := λ input,
  if String.eqb input "valid" then Ok (workspace "web.shop:443" "api.shop")
  else if String.eqb input "conflict" then Ok (workspace "Shop.local." "shop.local")
  else Err "unexpected end of input".

Example outcomes :
  (is_ok (parse_manifest "valid"), parse_manifest "conflict", parse_manifest "") =
  (true, Err (DuplicateAuthority "shop.local" "api" "web"), Err (InvalidYaml "unexpected end of input")).
Proof. vm_compute. reflexivity. Qed.

Example manifest_accepted_exactly_witness :
  manifest_valid (manifest_of_wire (workspace "web.shop:443" "api.shop")) ∧
  ("api" ≠ "web" ∧ ∃ authority authority',
     declares_authority (wm_repos (manifest_of_wire (workspace "Shop.local." "shop.local"))) "api" authority ∧
     declares_authority (wm_repos (manifest_of_wire (workspace "Shop.local." "shop.local"))) "web" authority' ∧
     normalize_authority authority = Some "shop.local" ∧ normalize_authority authority' = Some "shop.local").
Proof.
  split.
  - assert (Hparse : parse_manifest_with_extensions "valid" =
      Ok (manifest_of_wire (workspace "web.shop:443" "api.shop"), extensions_of_wire (workspace "web.shop:443" "api.shop"))).
    { vm_compute. reflexivity. }
    apply (proj1 (manifest_accepted_exactly "valid")) in Hparse. destruct Hparse as (_ & _ & _ & Hv & _). exact Hv.
  - assert (Hconflict : parse_manifest_with_extensions "conflict" = Err (DuplicateAuthority "shop.local" "api" "web")).
    { vm_compute. reflexivity. }
    assert (Hyaml : yaml_from_str "conflict" = Ok (workspace "Shop.local." "shop.local")) by reflexivity.
    exact (proj2 (manifest_accepted_exactly "conflict") _ _ _ _ Hyaml Hconflict).
Defined.
End Example_manifest.
