(* ===== verification/RepoConfig.v ===== *)
(** * Repository configuration ([crates/code-system-graph-core/src/config.rs])

    The effective configuration of a repository: the workspace manifest before
    the local file before detection before defaults, each value with its source,
    and the fingerprint of all of them. What [CapabilityDir] finds and reads in
    the checkout is an argument; decoding YAML is the class [LocalYaml]. *)
From stdpp Require Import base gmap list strings pretty sorting.
From Stdlib Require Import Ascii.
From S2P Require Import Prelude RustOrd RustStr Model ManualLinks Method CanonicalText IgnorePolicy Discovery Manifest GraphFacts.

Definition LOCAL_CONFIG_NAME : string := ".code-system-graph.yaml".
Definition MAX_OPENAPI_DISCOVERY_DEPTH : N := 8.
Definition MAX_OPENAPI_CANDIDATES : N := 32.

(** ** Data *)
Record EffectiveRepositoryConfig `{Globset} := {
  ef_ignore_policy : IgnorePolicy;
  ef_openapi : list string;
  ef_openapi_source : ConfigSource;
  ef_http_consumers : list HttpConsumerConfig;
  ef_http_consumers_source : ConfigSource;
  ef_integration_tests : list IntegrationTestConfig;
  ef_integration_tests_source : ConfigSource;
  ef_implementations : list ContractImplementationConfig;
  ef_implementations_source : ConfigSource;
  ef_fingerprint : string;
}.

Record RepositoryLocalConfig := {
  lc_version : N;
  lc_openapi : option string;
  lc_http_consumers : option (list HttpConsumerConfig);
  lc_integration_tests : option (list IntegrationTestConfig);
  lc_implementations : option (list ContractImplementationConfig);
  lc_excludes : option (list string);
  lc_include_defaults : option (list string);
  lc_use_gitignore : option bool;
}.

(** [capability_dir.rs] *)
Inductive CapabilityError :=
| Cap_Io (path source : string)
| Cap_Symlink (path : string)
| Cap_NotRegularFile (path : string)
| Cap_NotDirectory (path : string)
| Cap_OutsideRoot (path root : string)
| Cap_InvalidRelativePath (path : string)
| Cap_TooLarge (path : string) (limit : N)
| Cap_InvalidUtf8 (path : string).

Inductive RegularFileEntry := Absent | Regular.

Inductive ConfigError :=
| CE_Read (path source : string)
| CE_Invalid (path source : string)
| CE_UnsupportedVersion (path : string) (found : N)
| CE_EmptyField (path field : string)
| CE_AmbiguousOpenApi (root : string) (candidates : list string)
| CE_InvalidIgnorePattern (path field : string) (source : IgnorePatternError)
| CE_Discovery (source : RepositoryDiscoveryError)
| CE_Symlink (path : string)
| CE_NotRegularFile (path : string)
| CE_TooLarge (path : string) (limit : N)
| CE_OutsideCheckout (path checkout : string).

Class LocalYaml := local_from_str : string → result string RepositoryLocalConfig.

(** A checkout: its path, whether it opens, and what is found and read under the
    name of the local file. *)
Record Checkout := {
  co_path : string;
  co_open : result CapabilityError unit;
  co_entry : result CapabilityError RegularFileEntry;
  co_text : result CapabilityError string;
}.

(** ** Errors *)
Definition map_capability_error (error : CapabilityError) (checkout config_name : string) : ConfigError :=
  let path := path_join checkout config_name in
  match error with
  | Cap_Io path source => CE_Read path source
  | Cap_Symlink _ => CE_Symlink path
  | Cap_NotRegularFile _ => CE_NotRegularFile path
  | Cap_TooLarge _ limit => CE_TooLarge path limit
  | Cap_OutsideRoot _ root => CE_OutsideCheckout path root
  | Cap_InvalidRelativePath relative => CE_Read path ("relative path `" +:+ relative +:+ "` is invalid")
  | Cap_NotDirectory relative => CE_Read path ("`" +:+ relative +:+ "` is not a directory")
  | Cap_InvalidUtf8 relative => CE_Read path ("`" +:+ relative +:+ "` is not valid UTF-8")
  end.

(** ** Detection of OpenAPI documents *)
Fixpoint replace_backslashes (s : string) : string :=
  match s with
  | "" => ""
  | String c s => String (if Ascii.eqb c "\" then "/"%char else c) (replace_backslashes s)
  end.

(** [Path::file_stem] and [Path::extension] of a file name. *)
Definition stem_and_extension (name : string) : string * option string :=
  match rsplit_once "." name with
  | Some (stem, extension) => if String.eqb stem "" then (name, None) else (stem, Some extension)
  | None => (name, None)
  end.

Definition openapi_filename (name : string) : bool :=
  let lower := to_ascii_lowercase name in
  contains_str "openapi" lower
  && match (stem_and_extension lower).2 with
     | Some extension => String.eqb extension "json" || String.eqb extension "yaml" || String.eqb extension "yml"
     | None => false
     end.

Definition selects_openapi (relative : list string) : bool := is_some_and (last relative) openapi_filename.

(** [parent.join(stem)] *)
Definition candidate_stem (path : string) : string :=
  let components := List.filter nonempty (split_slashes path) in
  match last components with
  | Some name => join "/" (removelast components ++ [(stem_and_extension name).1])
  | None => path
  end.

Definition reject_competing_openapi_formats (root : string) (candidates : list string) : result ConfigError unit :=
  let by_stem := group_by (λ candidate, Some (candidate_stem candidate)) candidates in
  let ambiguous := concat (List.filter (λ values : list string, (1 <? length values)%nat) (btree_values by_stem)) in
  if is_empty_list ambiguous then Ok tt else Err (CE_AmbiguousOpenApi root ambiguous).

Section config.
Context `{Globset, Walker}.

Definition discover_openapi_candidates (root : string) (policy : IgnorePolicy) : result ConfigError (list string) :=
  let? found :=
    map_err CE_Discovery
      (discover_repository_files_matching root policy (Some (saturating_add MAX_OPENAPI_DISCOVERY_DEPTH 1)) (Some MAX_OPENAPI_CANDIDATES)
         selects_openapi) in
  Ok (sorted_unique (map (λ relative, replace_backslashes (candidate relative)) found)).

(** ** Validation of the local file *)
Definition local_fields (path prefix : string) (fields : list (string * string)) : result ConfigError unit :=
  try_each (λ field, if String.eqb (trim field.2) "" then Err (CE_EmptyField path (prefix +:+ field.1)) else Ok tt) fields.

Definition local_index (list_name : string) (index : N) : string := list_name +:+ "[" +:+ pretty index +:+ "].".

Definition validate_local (path : string) (config : RepositoryLocalConfig) : result ConfigError unit :=
  if negb (lc_version config =? 1)%N then Err (CE_UnsupportedVersion path (lc_version config))
  else if is_some_and (lc_openapi config) (λ value, String.eqb (trim value) "") then Err (CE_EmptyField path "openapi")
  else
    check? try_each (λ item, local_fields path (local_index "httpConsumers" item.1) (consumer_fields item.2))
             (items (lc_http_consumers config)) in
    check? try_each (λ item, local_fields path (local_index "integrationTests" item.1) (test_fields item.2))
             (items (lc_integration_tests config)) in
    check? try_each (λ item, local_fields path (local_index "implementations" item.1) (implementation_fields item.2))
             (items (lc_implementations config)) in
    check? match lc_excludes config with
           | Some patterns => map_err (CE_InvalidIgnorePattern path "excludes") (validate_excludes patterns)
           | None => Ok tt
           end in
    match lc_include_defaults config with
    | Some patterns => map_err (CE_InvalidIgnorePattern path "includeDefaults") (validate_include_defaults patterns)
    | None => Ok tt
    end.

(** ** Precedence *)
Definition select_patterns (workspace local : option (list string)) : list string * ConfigSource :=
  match workspace with
  | Some patterns => (patterns, FromWorkspaceManifest)
  | None => match local with Some patterns => (patterns, RepositoryLocal) | None => ([], Source_Default) end
  end.

Definition select_flag (workspace local : option bool) : bool * ConfigSource :=
  match workspace with
  | Some value => (value, FromWorkspaceManifest)
  | None => match local with Some value => (value, RepositoryLocal) | None => (false, Source_Default) end
  end.

(** The same selection, which the code repeats for each list. *)
Definition select_items {A} (workspace local : option (list A)) : list A * ConfigSource :=
  match workspace with
  | Some items => (items, FromWorkspaceManifest)
  | None => match local with Some items => (items, RepositoryLocal) | None => ([], Source_Default) end
  end.

Definition resolve_ignore_policy (checkout_path : string) (workspace : RepositoryConfig) (workspace_use_gitignore : option bool)
    (local : option RepositoryLocalConfig) : result ConfigError IgnorePolicy :=
  let '(excludes, excludes_source) := select_patterns (rc_excludes workspace) (local ≫= lc_excludes) in
  let '(includes, includes_source) := select_patterns (rc_include_defaults workspace) (local ≫= lc_include_defaults) in
  let '(gitignore, gitignore_source) := select_flag workspace_use_gitignore (local ≫= lc_use_gitignore) in
  map_err (CE_InvalidIgnorePattern checkout_path "ignorePolicy")
    (with_gitignore excludes excludes_source includes includes_source gitignore gitignore_source).

Definition resolve_openapi (checkout_path : string) (workspace : RepositoryConfig) (local : option RepositoryLocalConfig)
    (policy : IgnorePolicy) : result ConfigError (list string * ConfigSource) :=
  match rc_openapi workspace with
  | Some openapi => Ok ([openapi], FromWorkspaceManifest)
  | None =>
      match local ≫= lc_openapi with
      | Some openapi => Ok ([openapi], RepositoryLocal)
      | None =>
          let? candidates := discover_openapi_candidates checkout_path policy in
          if is_empty_list candidates then Ok ([], Source_Default)
          else
            check? reject_competing_openapi_formats checkout_path candidates in
            Ok (candidates, AutoDetected)
      end
  end.

(** ** Fingerprint material

    The derived [Debug] of the configuration structs. *)
Section material.
Context `{DebugStr}.

Definition debug_struct (name : string) (fields : list (string * string)) : string :=
  name +:+ " { " +:+ join ", " (map (λ field, field.1 +:+ ": " +:+ field.2) fields) +:+ " }".

Definition debug_option {A} (debug : A → string) (o : option A) : string :=
  match o with Some a => "Some(" +:+ debug a +:+ ")" | None => "None" end.

Definition debug_consumer (consumer : HttpConsumerConfig) : string :=
  debug_struct "HttpConsumerConfig"
    [("method", str_debug (hc_method consumer)); ("path", str_debug (hc_path consumer)); ("source", str_debug (hc_source consumer))].

Definition debug_contract (contract : HttpContractConfig) : string :=
  debug_struct "HttpContractConfig" [("method", str_debug (ct_method contract)); ("path", str_debug (ct_path contract))].

Definition debug_test (test : IntegrationTestConfig) : string :=
  debug_struct "IntegrationTestConfig"
    [("name", str_debug (it_name test)); ("path", str_debug (it_path test)); ("framework", str_debug (it_framework test));
     ("language", str_debug (it_language test)); ("validates", debug_contract (it_validates test))].

Definition debug_implementation (implementation : ContractImplementationConfig) : string :=
  debug_struct "ContractImplementationConfig"
    [("language", str_debug (ci_language implementation)); ("path", str_debug (ci_path implementation));
     ("symbol", str_debug (ci_symbol implementation)); ("implements", debug_contract (ci_implements implementation))].

Definition config_material (config : EffectiveRepositoryConfig) (local_source : option string) : string :=
  "openapi=" +:+ debug_list (ef_openapi config)
  +:+ ";openapi_source=" +:+ source_debug (ef_openapi_source config)
  +:+ ";consumers=" +:+ debug_vec debug_consumer (ef_http_consumers config)
  +:+ ";consumers_source=" +:+ source_debug (ef_http_consumers_source config)
  +:+ ";tests=" +:+ debug_vec debug_test (ef_integration_tests config)
  +:+ ";tests_source=" +:+ source_debug (ef_integration_tests_source config)
  +:+ ";implementations=" +:+ debug_vec debug_implementation (ef_implementations config)
  +:+ ";implementations_source=" +:+ source_debug (ef_implementations_source config)
  +:+ ";ignore_policy=" +:+ fingerprint_material (ef_ignore_policy config)
  +:+ ";local=" +:+ debug_option str_debug local_source.
End material.

Definition with_fingerprint (config : EffectiveRepositoryConfig) (fingerprint : string) : EffectiveRepositoryConfig :=
  {| ef_ignore_policy := ef_ignore_policy config;
     ef_openapi := ef_openapi config; ef_openapi_source := ef_openapi_source config;
     ef_http_consumers := ef_http_consumers config; ef_http_consumers_source := ef_http_consumers_source config;
     ef_integration_tests := ef_integration_tests config; ef_integration_tests_source := ef_integration_tests_source config;
     ef_implementations := ef_implementations config; ef_implementations_source := ef_implementations_source config;
     ef_fingerprint := fingerprint |}.

(** ** Resolution *)
Definition read_local `{LocalYaml} (checkout : Checkout) : result ConfigError (option RepositoryLocalConfig * option string) :=
  let mapped {A} (r : result CapabilityError A) : result ConfigError A :=
    map_err (λ error, map_capability_error error (co_path checkout) LOCAL_CONFIG_NAME) r in
  check? mapped (co_open checkout) in
  let? entry := mapped (co_entry checkout) in
  match entry with
  | Absent => Ok (None, None)
  | Regular =>
      let local_path := path_join (co_path checkout) LOCAL_CONFIG_NAME in
      let? source := mapped (co_text checkout) in
      let? config := map_err (CE_Invalid local_path) (local_from_str source) in
      check? validate_local local_path config in
      Ok (Some config, Some source)
  end.

Definition resolve_repository_config_with_use_gitignore `{LocalYaml, DebugStr, Blake3} (checkout : Checkout) (workspace : RepositoryConfig)
    (workspace_use_gitignore : option bool) : result ConfigError EffectiveRepositoryConfig :=
  let? '(local, local_source) := read_local checkout in
  let? policy := resolve_ignore_policy (co_path checkout) workspace workspace_use_gitignore local in
  let? '(openapi, openapi_source) := resolve_openapi (co_path checkout) workspace local policy in
  let '(consumers, consumers_source) := select_items (rc_http_consumers workspace) (local ≫= lc_http_consumers) in
  let '(tests, tests_source) := select_items (rc_integration_tests workspace) (local ≫= lc_integration_tests) in
  let '(implementations, implementations_source) := select_items (rc_implementations workspace) (local ≫= lc_implementations) in
  let config := {|
    ef_ignore_policy := policy; ef_openapi := openapi; ef_openapi_source := openapi_source;
    ef_http_consumers := consumers; ef_http_consumers_source := consumers_source;
    ef_integration_tests := tests; ef_integration_tests_source := tests_source;
    ef_implementations := implementations; ef_implementations_source := implementations_source;
    ef_fingerprint := "" |} in
  Ok (with_fingerprint config (stable_id "repo-config" (config_material config local_source))).

Definition resolve_repository_config `{LocalYaml, DebugStr, Blake3} (checkout : Checkout) (workspace : RepositoryConfig)
    : result ConfigError EffectiveRepositoryConfig :=
  resolve_repository_config_with_use_gitignore checkout workspace None.

Definition apply_openapi_override `{Blake3} (config : EffectiveRepositoryConfig) (openapi : string)
    : result ConfigError EffectiveRepositoryConfig :=
  if String.eqb (trim openapi) "" then Err (CE_EmptyField "<cli>" "repoOpenapi")
  else
    Ok {| ef_ignore_policy := ef_ignore_policy config; ef_openapi := [openapi]; ef_openapi_source := CliOverride;
          ef_http_consumers := ef_http_consumers config; ef_http_consumers_source := ef_http_consumers_source config;
          ef_integration_tests := ef_integration_tests config; ef_integration_tests_source := ef_integration_tests_source config;
          ef_implementations := ef_implementations config; ef_implementations_source := ef_implementations_source config;
          ef_fingerprint := stable_id "repo-config" ("base=" +:+ ef_fingerprint config +:+ ";cli_openapi=" +:+ openapi) |}.
End config.

(** ** What fingerprints separate *)
Section separates.
Context `{Globset, DebugStr}.
Context (Hdebug : debug_delimits).

Lemma str_debug_delimited : delimited str_debug.
Proof. exact (proj2 Hdebug). Qed.

Ltac peel E :=
  repeat first
    [ apply string_app_inj_l in E
    | let F := fresh "F" in apply str_debug_delimited in E as [F E] ].

Lemma debug_consumer_delimited : delimited debug_consumer.
Proof.
  intros [m p c] [m' p' c'] s t. unfold debug_consumer, debug_struct. cbn [map join fst snd hc_method hc_path hc_source].
  rewrite <-!string_app_assoc. intros E. peel E. by subst.
Qed.

Lemma debug_contract_delimited : delimited debug_contract.
Proof.
  intros [m p] [m' p'] s t. unfold debug_contract, debug_struct. cbn [map join fst snd ct_method ct_path].
  rewrite <-!string_app_assoc. intros E. peel E. by subst.
Qed.

Lemma debug_test_delimited : delimited debug_test.
Proof.
  intros [n p f l v] [n' p' f' l' v'] s t. unfold debug_test, debug_struct.
  cbn [map join fst snd it_name it_path it_framework it_language it_validates].
  rewrite <-!string_app_assoc. intros E. peel E. apply debug_contract_delimited in E as [Fv E]. peel E. by subst.
Qed.

Lemma debug_implementation_delimited : delimited debug_implementation.
Proof.
  intros [l p y i] [l' p' y' i'] s t. unfold debug_implementation, debug_struct.
  cbn [map join fst snd ci_language ci_path ci_symbol ci_implements].
  rewrite <-!string_app_assoc. intros E. peel E. apply debug_contract_delimited in E as [Fi E]. peel E. by subst.
Qed.
End separates.

(** ** Competing documents *)
Lemma several_in {A} (l : list A) x : NoDup l → x ∈ l → (1 < length l)%nat ↔ ∃ y, y ∈ l ∧ y ≠ x.
Proof.
  intros Hnd Hx. split.
  - destruct l as [|a [|b l]]; simpl; [lia|lia|]. intros _. apply NoDup_cons in Hnd as [Ha _].
    apply elem_of_cons in Hx as [->|Hx].
    + exists b. split; [set_solver|]. intros ->. set_solver.
    + exists a. split; [set_solver|]. intros ->. set_solver.
  - intros (y & Hy & Hne). destruct l as [|a [|b l]]; simpl; [by apply not_elem_of_nil in Hx| |lia].
    apply list_elem_of_singleton in Hx, Hy. congruence.
Qed.

Definition competes (candidates : list string) (candidate : string) : Prop :=
  candidate ∈ candidates ∧ ∃ other, other ∈ candidates ∧ other ≠ candidate ∧ candidate_stem other = candidate_stem candidate.

Lemma reject_competing_spec root candidates : NoDup candidates →
  match reject_competing_openapi_formats root candidates with
  | Ok _ => ∀ candidate, ¬ competes candidates candidate
  | Err error => ∃ ambiguous, error = CE_AmbiguousOpenApi root ambiguous ∧ ambiguous ≠ [] ∧
      ∀ candidate, candidate ∈ ambiguous ↔ competes candidates candidate
  end.
Proof.
  intros Hnd. unfold reject_competing_openapi_formats. set (ambiguous := concat _).
  assert (Hamb : ∀ candidate, candidate ∈ ambiguous ↔ competes candidates candidate).
  { intros c. unfold ambiguous, competes. rewrite list_elem_of_In, in_concat. setoid_rewrite <-list_elem_of_In.
    setoid_rewrite list_filter_In. setoid_rewrite btree_values_elem_of. setoid_rewrite group_by_lookup. split.
    - intros (group & [(k & Hk) Hlen%Nat.ltb_lt] & Hin).
      destruct (List.filter (λ candidate, bool_decide (Some (candidate_stem candidate) = Some k)) candidates) as [|g gs] eqn:E; [done|].
      injection Hk as <-. rewrite <-E in *. assert (Hg : NoDup (List.filter (λ candidate, bool_decide (Some (candidate_stem candidate) = Some k)) candidates))
        by (by apply NoDup_ListNoDup, List.NoDup_filter, NoDup_ListNoDup).
      apply (several_in _ c Hg Hin) in Hlen as (y & Hy & Hne). apply list_filter_In in Hin as [Hin Hk%bool_decide_eq_true], Hy as [Hy Hk'%bool_decide_eq_true].
      split; [done|]. exists y. split_and!; [done..|congruence].
    - intros (Hin & y & Hy & Hne & Hstem).
      set (group := List.filter (λ candidate, bool_decide (Some (candidate_stem candidate) = Some (candidate_stem c))) candidates).
      assert (Hgc : c ∈ group) by (apply list_filter_In; split; [done|by apply bool_decide_eq_true]).
      assert (Hgy : y ∈ group) by (apply list_filter_In; split; [done|apply bool_decide_eq_true; congruence]).
      assert (Hg : NoDup group) by (by apply NoDup_ListNoDup, List.NoDup_filter, NoDup_ListNoDup).
      exists group. split; [|done]. split; [|apply Nat.ltb_lt, (several_in _ c Hg Hgc); eauto].
      exists (candidate_stem c). fold group. destruct group; [by apply not_elem_of_nil in Hgc|done]. }
  destruct (is_empty_list ambiguous) eqn:E.
  - apply is_empty_list_true in E. intros c Hc%Hamb. rewrite E in Hc. by apply not_elem_of_nil in Hc.
  - exists ambiguous. split_and!; [done| |exact Hamb]. intros Hn. by rewrite Hn in E.
Qed.

(** ** Exactness *)
Lemma take_elem {A} n (l : list A) x : x ∈ take n l → x ∈ l.
Proof. intros Hx. by eapply subseteq_take. Qed.

Definition document_name (relative : list string) : string := replace_backslashes (candidate relative).

(** Detection of OpenAPI documents is exact. Without a declared document, the
    files that count are those that discovery reaches, at most nine components
    deep, whose name says OpenAPI; the first thirty-two of them, in order, are the
    candidates. None of them gives the default; candidates that differ only in
    their extension are reported, all of them and no others; and otherwise the
    candidates are taken. *)
Theorem openapi_detection_exact `{GlobsetLaws, Walker} root fs ignored es s1 incs s2 gitignore s3 policy workspace local :
  lawful_walk root fs ignored → tree fs → with_gitignore es s1 incs s2 gitignore s3 = Ok policy →
  rc_openapi workspace = None → (local ≫= lc_openapi) = None →
  ∃ files, strictly_sorted files ∧
    (∀ path, path ∈ files ↔
      (fs !! path = Some FT_File ∧ (len path ≤ 9)%N ∧ selects_openapi path = true) ∧
      (gitignore = true → ¬ ignored_on_way ignored path) ∧ reached policy path) ∧
    let candidates := sorted_unique (map document_name (take 32 files)) in
    match resolve_openapi root workspace local policy with
    | Ok (openapi, source) =>
        (files = [] ∧ openapi = [] ∧ source = Source_Default) ∨
        (files ≠ [] ∧ openapi = candidates ∧ source = AutoDetected ∧ ∀ document, ¬ competes candidates document)
    | Err error =>
        ∃ ambiguous, error = CE_AmbiguousOpenApi root ambiguous ∧ ambiguous ≠ [] ∧
          ∀ document, document ∈ ambiguous ↔ competes candidates document
    end.
Proof.
  intros Hwalk Htree Hpolicy Hw Hl.
  destruct (discovered _ _ _ _ _ _ _ _ _ _ (Some 9%N) selects_openapi Hwalk Htree Hpolicy) as (files & Hs & _ & Hlimit & Hin).
  exists files. split; [done|]. split; [intros path; rewrite Hin; simpl; by rewrite N.leb_le|].
  intros candidates. unfold resolve_openapi, discover_openapi_candidates. rewrite Hw, Hl.
  change (saturating_add MAX_OPENAPI_DISCOVERY_DEPTH 1) with 9%N. rewrite Hlimit.
  change (N.to_nat (N.max 1 MAX_OPENAPI_CANDIDATES)) with 32. cbn [map_err result_bind]. fold document_name. fold candidates.
  destruct (is_empty_list candidates) eqn:Ee.
  - left. apply is_empty_list_true in Ee. split; [|done]. destruct files as [|f files]; [done|]. exfalso.
    assert (Hf : document_name f ∈ candidates) by (unfold candidates; rewrite sorted_unique_elem_of; simpl; by left).
    rewrite Ee in Hf. by apply not_elem_of_nil in Hf.
  - assert (Hnd : NoDup candidates) by apply strictly_sorted_NoDup, sorted_unique_strict.
    pose proof (reject_competing_spec root candidates Hnd) as Hr. destruct (reject_competing_openapi_formats root candidates) as [u|e]; [|done].
    destruct u. cbn [result_bind]. right. split_and!; [|done..]. intros ->. done.
Qed.

(** The fingerprint separates configurations: two resolutions have the same
    one exactly when all their effective values and sources are the same, the
    compiled policy included, and so is the text of the local file. A document
    given on the command line always changes it. *)
Theorem config_fingerprints_separate `{Globset, Walker, LocalYaml, DebugStr, Blake3}
    checkout workspace gitignore local source config checkout' workspace' gitignore' local' source' config' :
  digest_separates → debug_delimits →
  read_local checkout = Ok (local, source) → read_local checkout' = Ok (local', source') →
  resolve_repository_config_with_use_gitignore checkout workspace gitignore = Ok config →
  resolve_repository_config_with_use_gitignore checkout' workspace' gitignore' = Ok config' →
  (ef_fingerprint config = ef_fingerprint config' ↔ config = config' ∧ source = source') ∧
  ∀ openapi overridden, apply_openapi_override config openapi = Ok overridden → ef_fingerprint overridden ≠ ef_fingerprint config'.
Proof.
  intros Hdigest Hdebug Hread Hread' Hres Hres'.
  assert (Hparts : ∀ c w g l src cfg, read_local c = Ok (l, src) → resolve_repository_config_with_use_gitignore c w g = Ok cfg →
    ef_fingerprint cfg = stable_id "repo-config" (config_material cfg src) ∧
    ∃ es s1 incs s2 git s3, with_gitignore es s1 incs s2 git s3 = Ok (ef_ignore_policy cfg)).
  { clear. intros c w g l src cfg Hr. unfold resolve_repository_config_with_use_gitignore. rewrite Hr. cbn [result_bind].
    intros (policy & Hp & ([openapi os] & _ & Hcfg)%result_bind_Ok)%result_bind_Ok.
    destruct (select_items (rc_http_consumers w) _) as [consumers cs], (select_items (rc_integration_tests w) _) as [tests ts],
      (select_items (rc_implementations w) _) as [impls is_]. injection Hcfg as <-. split; [done|].
    unfold resolve_ignore_policy in Hp. destruct (select_patterns (rc_excludes w) _), (select_patterns (rc_include_defaults w) _), (select_flag g _).
    apply map_err_Ok in Hp. eauto 7. }
  destruct (Hparts _ _ _ _ _ _ Hread Hres) as (Hf & es & s1 & incs & s2 & git & s3 & Hpol).
  destruct (Hparts _ _ _ _ _ _ Hread' Hres') as (Hf' & es' & s1' & incs' & s2' & git' & s3' & Hpol'). clear Hparts. split.
  - split; [|by intros [-> _]]. intros Efp. pose proof Efp as E. rewrite Hf, Hf' in E. apply stable_id_inj in E; [|done].
    unfold config_material in E.
    apply string_app_inj_l in E. apply debug_list_inj in E as [E1 E]; [|done]. apply (string_app_inj_l ";openapi_source=") in E.
    apply source_debug_inj in E as [E2 E]. apply (string_app_inj_l "consumers=") in E.
    apply (debug_vec_delimited _ (debug_consumer_delimited Hdebug)) in E as [E3 E]; [|by intros ? ? ?].
    apply (string_app_inj_l ";consumers_source=") in E. apply source_debug_inj in E as [E4 E].
    apply (string_app_inj_l "tests=") in E. apply (debug_vec_delimited _ (debug_test_delimited Hdebug)) in E as [E5 E]; [|by intros ? ? ?].
    apply (string_app_inj_l ";tests_source=") in E. apply source_debug_inj in E as [E6 E].
    apply (string_app_inj_l "implementations=") in E.
    apply (debug_vec_delimited _ (debug_implementation_delimited Hdebug)) in E as [E7 E]; [|by intros ? ? ?].
    apply (string_app_inj_l ";implementations_source=") in E. apply source_debug_inj in E as [E8 E].
    apply (string_app_inj_l "ignore_policy=") in E. apply (policy_material_inj _ _ _ _ Hdebug) in E as [E9 E].
    apply (string_app_inj_l "local=") in E.
    apply (equal_policies_compiled _ _ _ _ _ _ _ _ _ _ _ _ _ _ Hpol Hpol') in E9. split.
    + clear Hf Hf' Hres Hres' Hpol Hpol'. destruct config, config'. simpl in *. by subst.
    + destruct source as [a|], source' as [b|]; simpl in E; try discriminate E; [|done]. injection E as E.
      by apply (proj2 Hdebug) in E as [-> _].
  - intros openapi overridden. unfold apply_openapi_override. destruct (String.eqb _ _); [done|]. intros [= <-]. simpl. rewrite Hf'.
    intros E%stable_id_inj; [|done]. discriminate E.
Qed.

Module Example_config.
#[local] Existing Instance Example_discovery.component_globs.
#[local] Existing Instance Example_discovery.component_laws.
#[local] Existing Instance Example_digest.escaping.

(** Quotes and backslashes are escaped. *)
Definition quote : ascii := "034".
Definition needs_escape (c : ascii) : bool := Ascii.eqb c quote || Ascii.eqb c "\".
Fixpoint escaped (s : string) : string :=
  match s with
  | "" => ""
  | String c s => if needs_escape c then String "\" (String c (escaped s)) else String c (escaped s)
  end.
#[local] Instance quoted : DebugStr := λ s, String quote (escaped s +:+ String quote "").

Lemma escaped_delimited a b s t : escaped a +:+ String quote s = escaped b +:+ String quote t → a = b ∧ s = t.
Proof.
  revert b. induction a as [|c a IH]; intros [|d b]; simpl.
  - by intros [= ->].
  - destruct (needs_escape d) eqn:Ed; simpl; [by intros [= E]|]. intros [= <- _]. done.
  - destruct (needs_escape c) eqn:Ec; simpl; [by intros [= E]|]. intros [= -> _]. done.
  - destruct (needs_escape c) eqn:Ec, (needs_escape d) eqn:Ed; simpl; intros [= E1 E2].
    + subst. destruct (IH b) as [-> ->]; done.
    + subst d. done.
    + subst c. done.
    + subst. destruct (IH b) as [-> ->]; done.
Qed.

Lemma quoted_delimits : debug_delimits.
Proof.
  split; [intros a; apply starts_with_spec; by eexists|]. intros a b s t. unfold str_debug, quoted. simpl. intros [= E].
  rewrite <-!string_app_assoc in E. by apply escaped_delimited in E.
Qed.

Definition checkout_files : gmap (list string) FileType := list_to_map [
  (["api"], FT_Directory); (["api"; "openapi.json"], FT_File); (["api"; "OpenApi.yaml"], FT_File); (["openapi.yml"], FT_File);
  (["vendor"], FT_Directory); (["vendor"; "openapi.json"], FT_File); (["README.md"], FT_File)].

#[local] Instance walker : Walker := Example_discovery.listing_walker checkout_files Example_discovery.no_ignore_files.
#[local] Instance yaml : LocalYaml := λ _,
  Ok {| lc_version := 1; lc_openapi := None; lc_http_consumers := None; lc_integration_tests := None; lc_implementations := None;
        lc_excludes := Some ["api/"]; lc_include_defaults := None; lc_use_gitignore := None |}.

Definition registered (excludes : option (list string)) : RepositoryConfig :=
  {| rc_path := "."; rc_openapi := None; rc_http_consumers := None; rc_integration_tests := None; rc_implementations := None;
     rc_excludes := excludes; rc_include_defaults := None; rc_authorities := None |}.

Definition plain_checkout : Checkout := {| co_path := "/r"; co_open := Ok tt; co_entry := Ok Absent; co_text := Ok "" |}.
Definition configured_checkout : Checkout := {| co_path := "/r"; co_open := Ok tt; co_entry := Ok Regular; co_text := Ok "excludes: [api/]" |}.

Definition detected (checkout : Checkout) (excludes : option (list string)) : result ConfigError (list string * ConfigSource) :=
  let? config := resolve_repository_config checkout (registered excludes) in Ok (ef_openapi config, ef_openapi_source config).

(** The two names in [api] differ in case, so their stems do; the local file
    excludes the directory. *)
Example detections :
  [detected plain_checkout None; detected configured_checkout None; detected configured_checkout (Some [])] =
  [Ok (["api/OpenApi.yaml"; "api/openapi.json"; "openapi.yml"], AutoDetected); Ok (["openapi.yml"], AutoDetected);
   Ok (["api/OpenApi.yaml"; "api/openapi.json"; "openapi.yml"], AutoDetected)].
Proof. vm_compute. reflexivity. Qed.

Lemma checkout_tree : tree checkout_files.
Proof. apply Example_discovery.tree_checked. vm_compute. reflexivity. Qed.

Example openapi_detection_exact_witness :
  ∃ policy files, with_gitignore [] Source_Default [] Source_Default false Source_Default = Ok policy ∧ strictly_sorted files ∧
    resolve_openapi "/r" (registered None) None policy = Ok (sorted_unique (map document_name (take 32 files)), AutoDetected).
Proof.
  destruct (with_gitignore [] Source_Default [] Source_Default false Source_Default) as [policy|] eqn:E; [|vm_compute in E; discriminate E].
  destruct (openapi_detection_exact "/r" checkout_files Example_discovery.no_ignore_files [] Source_Default [] Source_Default false Source_Default policy
    (registered None) None (Example_discovery.listing_lawful _ _ _ checkout_tree) checkout_tree E eq_refl eq_refl) as (files & Hs & _ & Hres).
  exists policy, files. split; [done|]. split; [done|].
  assert (Hd : match resolve_openapi "/r" (registered None) None policy with Ok (_ :: _, source) => source = AutoDetected | _ => False end).
  { clear Hres. vm_compute in E. injection E as <-. vm_compute. reflexivity. }
  destruct (resolve_openapi "/r" (registered None) None policy) as [[openapi source]|e]; [|done].
  destruct Hres as [(_ & -> & _)|(_ & -> & -> & _)]; [done|reflexivity].
Defined.

Example config_fingerprints_separate_witness :
  ∃ config config', resolve_repository_config_with_use_gitignore plain_checkout (registered None) None = Ok config ∧
    resolve_repository_config_with_use_gitignore configured_checkout (registered None) None = Ok config' ∧
    (ef_fingerprint config = ef_fingerprint config' ↔ config = config' ∧ None = Some "excludes: [api/]").
Proof.
  destruct (resolve_repository_config_with_use_gitignore plain_checkout (registered None) None) as [config|] eqn:E; [|vm_compute in E; discriminate E].
  destruct (resolve_repository_config_with_use_gitignore configured_checkout (registered None) None) as [config'|] eqn:E';
    [|vm_compute in E'; discriminate E'].
  exists config, config'. split; [done|]. split; [done|].
  exact (proj1 (config_fingerprints_separate plain_checkout (registered None) None None None config configured_checkout (registered None) None
    _ (Some "excludes: [api/]") config' Example_digest.escaping_separates quoted_delimits eq_refl eq_refl E E')).
Defined.
End Example_config.
