(* ===== verification/RustBytes.v ===== *)
(** * Byte strings of the Rust standard library

    [str::from_utf8] and [String::from_utf8_lossy], which split bytes into
    characters and maximal invalid pieces, and [u64::to_le_bytes]. *)
From stdpp Require Import base list strings.
From Stdlib Require Import Ascii.
From S2P Require Import Prelude RustStr.

(** ** UTF-8 *)
Definition byte_in (lo hi b : N) : bool := ((lo <=? b) && (b <=? hi))%N.
Definition continuation (b : N) : bool := byte_in 128 191 b.

(** What may follow the first byte of a character of three or four bytes: this
    excludes overlong forms, surrogates and numbers beyond [char::MAX]. *)
Definition second_byte (lead b : N) : bool :=
  if (lead =? 224)%N then byte_in 160 191 b
  else if (lead =? 237)%N then byte_in 128 159 b
  else if (lead =? 240)%N then byte_in 144 191 b
  else if (lead =? 244)%N then byte_in 128 143 b
  else continuation b.

(** The text starts with a character, or with bytes that no character starts
    with; a byte beyond the end is read as zero. *)
Inductive Utf8Step := Character (width : nat) | Broken (width : nat).

Definition utf8_step (s : string) : Utf8Step :=
  let lead := byte_at s in
  let b1 := byte_at (str_drop 1 s) in
  let b2 := byte_at (str_drop 2 s) in
  let b3 := byte_at (str_drop 3 s) in
  if (lead <? 128)%N then Character 1
  else if byte_in 194 223 lead then if continuation b1 then Character 2 else Broken 1
  else if byte_in 224 239 lead then
    if second_byte lead b1 then if continuation b2 then Character 3 else Broken 2 else Broken 1
  else if byte_in 240 244 lead then
    if second_byte lead b1 then
      if continuation b2 then if continuation b3 then Character 4 else Broken 3 else Broken 2
    else Broken 1
  else Broken 1.

(** [std::str::from_utf8(s).is_ok()] *)
Fixpoint utf8_valid_fuel (fuel : nat) (s : string) : bool :=
  match fuel, s with
  | S fuel, String _ _ => match utf8_step s with Character w => utf8_valid_fuel fuel (str_drop w s) | Broken _ => false end
  | _, _ => true
  end.
Definition utf8_valid (s : string) : bool := utf8_valid_fuel (String.length s) s.

(** U+FFFD *)
Definition REPLACEMENT : string :=
  String (ascii_of_N 239) (String (ascii_of_N 191) (String (ascii_of_N 189) EmptyString)).

(** [String::from_utf8_lossy(s)] *)
Fixpoint lossy_fuel (fuel : nat) (s : string) : string :=
  match fuel, s with
  | S fuel, String _ _ =>
      match utf8_step s with
      | Character w => str_take w s +:+ lossy_fuel fuel (str_drop w s)
      | Broken w => REPLACEMENT +:+ lossy_fuel fuel (str_drop w s)
      end
  | _, _ => EmptyString
  end.
Definition from_utf8_lossy (s : string) : string := lossy_fuel (String.length s) s.

(** ** Numbers *)
Fixpoint le_bytes (n : nat) (w : N) : string :=
  match n with
  | O => EmptyString
  | S n => String (ascii_of_N (w mod 256)) (le_bytes n (w / 256))
  end.
(** [u64::try_from(n).unwrap_or(u64::MAX).to_le_bytes()] *)
Definition u64_le_bytes (n : N) : string := le_bytes 8 (N.min n u64_max).

(** The bytes as numbers. *)
Fixpoint byte_list (s : string) : list N :=
  match s with EmptyString => [] | String c s => N_of_ascii c :: byte_list s end.

(** ** Lemmas *)
Lemma str_drop_length n s : (String.length (str_drop n s) ≤ String.length s - n)%nat.
Proof. revert s. induction n as [|n IH]; intros [|c s]; simpl; [lia..|]. apply IH. Qed.

Lemma str_drop_app s t : str_drop (String.length s) (s +:+ t) = t.
Proof. by induction s. Qed.

Lemma str_take_app s t : str_take (String.length s) (s +:+ t) = s.
Proof. induction s; simpl; congruence. Qed.

Lemma byte_list_inj s t : byte_list s = byte_list t → s = t.
Proof.
  revert t. induction s as [|c s IH]; intros [|d t]; simpl; [done..|]. intros [= Hc Ht].
  f_equal; [|by apply IH]. rewrite <-(ascii_N_embedding c), <-(ascii_N_embedding d). by rewrite Hc.
Qed.

Ltac split_step :=
  unfold utf8_step; repeat match goal with |- context [if ?b then _ else _] => destruct b eqn:? end.

Lemma utf8_step_width s : match utf8_step s with Character w | Broken w => (1 ≤ w)%nat end.
Proof. split_step; lia. Qed.

Lemma byte_at_pos s : byte_at s ≠ 0%N → s ≠ "".
Proof. by intros Hs ->. Qed.

Lemma continuation_pos b : continuation b = true → b ≠ 0%N.
Proof. unfold continuation, byte_in. rewrite andb_true_iff, N.leb_le. lia. Qed.

Lemma second_byte_pos lead b : second_byte lead b = true → b ≠ 0%N.
Proof.
  unfold second_byte, continuation, byte_in. repeat match goal with |- context [if ?c then _ else _] => destruct c end;
    rewrite andb_true_iff, N.leb_le; lia.
Qed.

(** A character is recognised by its own bytes. *)
Lemma utf8_step_character s w : s ≠ "" → utf8_step s = Character w →
  String.length (str_take w s) = w ∧ ∀ t, utf8_step (str_take w s +:+ t) = Character w.
Proof.
  intros Hs. split_step; intros [= <-];
    repeat match goal with H : continuation _ = true |- _ => pose proof (byte_at_pos _ (continuation_pos _ H)); revert H end;
    repeat match goal with H : second_byte _ _ = true |- _ => pose proof (byte_at_pos _ (second_byte_pos _ _ H)); revert H end;
    destruct s as [|c0 s]; try done; try destruct s as [|c1 s]; try done; try destruct s as [|c2 s]; try done; try destruct s as [|c3 s]; try done;
    intros; (split; [done|]); intros t; unfold utf8_step; simpl in *;
    repeat match goal with H : ?b = ?v |- context [?b] => rewrite H end; done.
Qed.

Lemma shorter c s w : (1 ≤ w)%nat → (String.length (str_drop w (String c s)) ≤ String.length s)%nat.
Proof. intros Hw. pose proof (str_drop_length w (String c s)). simpl in *. lia. Qed.

Lemma utf8_valid_fuel_enough n m s :
  (String.length s ≤ n)%nat → (String.length s ≤ m)%nat → utf8_valid_fuel n s = utf8_valid_fuel m s.
Proof.
  revert m s. induction n as [|n IH]; intros [|m] [|c s] Hn Hm; try (simpl in *; lia || done).
  simpl. pose proof (utf8_step_width (String c s)) as Hw. destruct (utf8_step (String c s)) as [w|w]; [|done].
  pose proof (shorter c s w Hw). simpl in *. apply IH; lia.
Qed.

Lemma lossy_fuel_enough n m s :
  (String.length s ≤ n)%nat → (String.length s ≤ m)%nat → lossy_fuel n s = lossy_fuel m s.
Proof.
  revert m s. induction n as [|n IH]; intros [|m] [|c s] Hn Hm; try (simpl in *; lia || done).
  cbn [lossy_fuel]. pose proof (utf8_step_width (String c s)) as Hw.
  destruct (utf8_step (String c s)) as [w|w]; pose proof (shorter c s w Hw); simpl String.length in *; f_equal; apply IH; lia.
Qed.

(** Induction over the pieces of a text. *)
Lemma utf8_ind (P : string → Prop) :
  P "" → (∀ s w, s ≠ "" → utf8_step s = Character w → P (str_drop w s) → P s) →
  (∀ s w, s ≠ "" → utf8_step s = Broken w → P (str_drop w s) → P s) → ∀ s, P s.
Proof.
  intros Hnil Hchar Hbroken s. remember (String.length s) as n eqn:En. assert (Hn : (String.length s ≤ n)%nat) by lia. clear En.
  revert s Hn. induction n as [|n IH]; intros [|c s] Hn; [done|simpl in Hn; lia|done|].
  pose proof (utf8_step_width (String c s)) as Hw. destruct (utf8_step (String c s)) as [w|w] eqn:E.
  - apply (Hchar _ w); [done..|]. apply IH. pose proof (shorter c s w Hw). simpl in *. lia.
  - apply (Hbroken _ w); [done..|]. apply IH. pose proof (shorter c s w Hw). simpl in *. lia.
Qed.

Lemma utf8_valid_step s : s ≠ "" →
  utf8_valid s = match utf8_step s with Character w => utf8_valid (str_drop w s) | Broken _ => false end.
Proof.
  destruct s as [|c s]; [done|]. intros _. unfold utf8_valid. cbn [String.length utf8_valid_fuel].
  pose proof (utf8_step_width (String c s)) as Hw. destruct (utf8_step (String c s)) as [w|w]; [|done].
  apply utf8_valid_fuel_enough; [by apply shorter|lia].
Qed.

Lemma from_utf8_lossy_step s : s ≠ "" →
  from_utf8_lossy s =
    match utf8_step s with
    | Character w => str_take w s +:+ from_utf8_lossy (str_drop w s)
    | Broken w => REPLACEMENT +:+ from_utf8_lossy (str_drop w s)
    end.
Proof.
  destruct s as [|c s]; [done|]. intros _. unfold from_utf8_lossy. cbn [String.length lossy_fuel].
  pose proof (utf8_step_width (String c s)) as Hw.
  destruct (utf8_step (String c s)) as [w|w]; f_equal; (apply lossy_fuel_enough; [by apply shorter|lia]).
Qed.

Lemma utf8_valid_character s w t :
  s ≠ "" → utf8_step s = Character w → utf8_valid (str_take w s +:+ t) = utf8_valid t.
Proof.
  intros Hs Hw. destruct (utf8_step_character s w Hs Hw) as [Hlen Hstep].
  rewrite utf8_valid_step, Hstep; [|].
  - rewrite <-Hlen at 1. by rewrite str_drop_app.
  - intros E. pose proof (utf8_step_width s) as H1. rewrite Hw in H1. apply (f_equal String.length) in E.
    rewrite string_length_app, Hlen in E. simpl in E. lia.
Qed.

(** Lossy decoding gives text, and text is what it leaves alone. *)
Lemma from_utf8_lossy_valid s : utf8_valid (from_utf8_lossy s) = true.
Proof.
  induction s as [|s w Hs Hw IH|s w Hs Hw IH] using utf8_ind; [done|..]; rewrite from_utf8_lossy_step, Hw by done.
  - by rewrite utf8_valid_character.
  - change REPLACEMENT with (str_take 3 REPLACEMENT). by rewrite utf8_valid_character.
Qed.

Lemma from_utf8_lossy_text s : from_utf8_lossy s = s ↔ utf8_valid s = true.
Proof.
  split; [intros <-; apply from_utf8_lossy_valid|].
  induction s as [|s w Hs Hw IH|s w Hs Hw IH] using utf8_ind; [done|..]; rewrite utf8_valid_step, Hw by done; [|done].
  intros Hv. rewrite from_utf8_lossy_step, Hw, IH by done. apply str_take_drop.
Qed.

Lemma utf8_valid_app s t : utf8_valid s = true → utf8_valid (s +:+ t) = utf8_valid t.
Proof.
  induction s as [|s w Hs Hw IH|s w Hs Hw IH] using utf8_ind; [done|..]; rewrite utf8_valid_step, Hw by done; [|done].
  intros Hv. rewrite <-(str_take_drop w s) at 1. rewrite <-string_app_assoc, utf8_valid_character by done. by apply IH.
Qed.

Lemma ascii_valid s : is_ascii s → utf8_valid s = true.
Proof.
  induction s as [|c s IH]; [done|]. intros [Hc Hs]%orb_false_iff. apply N.leb_gt in Hc.
  rewrite utf8_valid_step by done. unfold utf8_step. simpl byte_at. rewrite (proj2 (N.ltb_lt _ _)) by lia. by apply IH.
Qed.

Lemma le_bytes_length n w : String.length (le_bytes n w) = n.
Proof. revert w. induction n as [|n IH]; intros w; simpl; [done|]. by rewrite IH. Qed.

Lemma le_bytes_inj n v w : (v < 256 ^ N.of_nat n)%N → (w < 256 ^ N.of_nat n)%N → le_bytes n v = le_bytes n w → v = w.
Proof.
  revert v w. induction n as [|n IH]; intros v w Hv Hw; simpl le_bytes; [simpl in *; lia|].
  rewrite Nat2N.inj_succ, N.pow_succ_r' in Hv, Hw. intros [= Hmod Hdiv].
  apply (f_equal N_of_ascii) in Hmod. rewrite !N_ascii_embedding in Hmod by (apply N.mod_lt; lia).
  apply IH in Hdiv; [|apply N.Div0.div_lt_upper_bound; lia..].
  rewrite (N.div_mod' v 256), (N.div_mod' w 256). congruence.
Qed.

Lemma u64_le_bytes_inj v w : (v ≤ u64_max)%N → (w ≤ u64_max)%N → u64_le_bytes v = u64_le_bytes w → v = w.
Proof.
  unfold u64_le_bytes. intros Hv Hw. rewrite !N.min_l by done.
  apply le_bytes_inj; change (256 ^ N.of_nat 8)%N with 18446744073709551616%N; unfold u64_max in *; lia.
Qed.

Example lossy_latin1 : from_utf8_lossy ("caf" +:+ String (ascii_of_N 233) ".rs") = "caf" +:+ REPLACEMENT +:+ ".rs".
Proof. reflexivity. Qed.

(** ** UTF-16 *)
(** A character in UTF-8. *)
Definition utf8_encode (c : N) : string :=
  let tail shift := ascii_of_N (128 + N.land (N.shiftr c shift) 63) in
  if (c <? 128)%N then String (ascii_of_N c) EmptyString
  else if (c <? 2048)%N then String (ascii_of_N (192 + N.shiftr c 6)) (String (tail 0%N) EmptyString)
  else if (c <? 65536)%N then String (ascii_of_N (224 + N.shiftr c 12)) (String (tail 6%N) (String (tail 0%N) EmptyString))
  else String (ascii_of_N (240 + N.shiftr c 18)) (String (tail 12%N) (String (tail 6%N) (String (tail 0%N) EmptyString))).

(** [char::decode_utf16(units).collect::<Result<String, _>>().ok()] *)
Fixpoint decode_utf16 (units : list N) : option string :=
  match units with
  | [] => Some EmptyString
  | unit :: units =>
      if byte_in 55296 56319 unit then
        match units with
        | low :: rest =>
            if byte_in 56320 57343 low then
              String.append (utf8_encode (65536 + N.shiftl (unit - 55296) 10 + (low - 56320))) <$> decode_utf16 rest
            else None
        | [] => None
        end
      else if byte_in 56320 57343 unit then None
      else String.append (utf8_encode unit) <$> decode_utf16 units
  end.

(** [bytes.as_chunks::<2>()] as units, if nothing remains. *)
Fixpoint utf16_units (bytes : list N) : option (list N) :=
  match bytes with
  | [] => Some []
  | [_] => None
  | low :: high :: bytes => cons (low + 256 * high)%N <$> utf16_units bytes
  end.

(** The bytes of a list of numbers. *)
Definition string_of_bytes (bytes : list N) : string := foldr (λ b s, String (ascii_of_N b) s) EmptyString bytes.

Lemma string_of_byte_list s : string_of_bytes (byte_list s) = s.
Proof. induction s as [|c s IH]; [done|]. simpl. by rewrite ascii_N_embedding, IH. Qed.

Example decode_surrogates : decode_utf16 [97; 55357; 56832]%N = Some ("a" +:+ utf8_encode 128512).
Proof. reflexivity. Qed.
