(* ===== verification/ChangeSet.v ===== *)
(** * Change sets and the commit gate (changes.rs)

    What a change set holds, whether an analysed one is still current, which
    files a modelled commit would take, and which references, object ids and
    pathspecs are accepted. *)
From stdpp Require Import base gmap sets list strings.
From Stdlib Require Import Ascii.
From S2P Require Import Prelude RustOrd RustStr RustBytes Model.

(** ** Data *)
Inductive ChangeScope :=
| Scope_Unstaged | Scope_Staged | Scope_All
| Scope_Compare (reference : string)
| Scope_Commit (sha : string)
| Scope_Range (base head : string)
| Scope_PullRequest (provider : string) (number : N).

Inductive ChangeSourceLayer := Layer_Staged | Layer_Worktree | Layer_Untracked | Layer_Commit.

Inductive ChangedFileStatus := Status_Added | Status_Modified | Status_Deleted | Status_Renamed | Status_Copied | Status_Untracked.

Inductive ChangedLineKind := Line_Removed | Line_Added.

Record ChangedLine := { cl_kind : ChangedLineKind; cl_old_line : option N; cl_new_line : option N }.

Record ChangeHunk := { ch_old_start : N; ch_old_count : N; ch_new_start : N; ch_new_count : N; ch_lines : list ChangedLine }.

Record ChangedFile := {
  cf_status : ChangedFileStatus;
  cf_old_path : option NativePath;
  cf_new_path : option NativePath;
  cf_binary : bool;
  cf_hunks : list ChangeHunk;
  cf_source : ChangeSourceLayer;
}.

Notation AnalyzerVersions := (gmap string string).

Record ChangeSet := {
  cs_repo_id : RepoId;
  cs_checkout_id : CheckoutId;
  cs_worktree : NativePath;
  cs_git_common_dir : NativePath;
  cs_scope : ChangeScope;
  cs_checkout_head_ref : option string;
  cs_checkout_head_sha : string;
  cs_base_ref : option string;
  cs_head_ref : option string;
  cs_head_sha : string;
  cs_staged_hash : string;
  cs_worktree_hash : string;
  cs_exact_diff_fingerprint : string;
  cs_workspace_manifest_hash : string;
  cs_contract_registry_hash : string;
  cs_analyzer_versions : AnalyzerVersions;
  cs_files : list ChangedFile;
}.

Record ChangeRequest := {
  rq_repo_id : RepoId;
  rq_checkout_id : CheckoutId;
  rq_worktree : string;
  rq_scope : ChangeScope;
  rq_workspace_manifest_hash : string;
  rq_contract_registry_hash : string;
  rq_analyzer_versions : AnalyzerVersions;
}.

(** The sources of the errors, of [std::io], [tokio] and [serde_json], are kept
    as their texts; a duration in milliseconds. *)
Inductive ChangeError :=
| PullRequestUnsupported
| InvalidRef (reference : string)
| InvalidSha (sha : string)
| InvalidPathspec (pathspec : string)
| InvalidLimit
| Spawn (source : string)
| MissingPipe
| Wait (source : string)
| ReadFailed (source : string)
| ReaderTask (source : string)
| OutputLimit (stream : string) (limit : N)
| GitFailed (status : option Z) (stderr : string)
| GitTimeout (timeout : N)
| GitCancelled
| NonUtf8Metadata
| Canonicalize (path source : string)
| MalformedGitOutput (message : string)
| FingerprintEncoding (source : string).

#[export] Instance ChangeSourceLayer_eq_dec : EqDecision ChangeSourceLayer.
Proof. solve_decision. Defined.
#[export] Instance ChangedFileStatus_eq_dec : EqDecision ChangedFileStatus.
Proof. solve_decision. Defined.
#[export] Instance ChangedLineKind_eq_dec : EqDecision ChangedLineKind.
Proof. solve_decision. Defined.
#[export] Instance ChangedLine_eq_dec : EqDecision ChangedLine.
Proof. solve_decision. Defined.
#[export] Instance ChangeHunk_eq_dec : EqDecision ChangeHunk.
Proof. solve_decision. Defined.
#[export] Instance ChangedFile_eq_dec : EqDecision ChangedFile.
Proof. solve_decision. Defined.

(** [#[derive(Ord)]]: the order of the variants. *)
Definition layer_rank (layer : ChangeSourceLayer) : nat :=
  match layer with Layer_Staged => 0 | Layer_Worktree => 1 | Layer_Untracked => 2 | Layer_Commit => 3 end.
#[export] Instance layer_rank_inj : Inj (=) (=) layer_rank.
Proof. by intros [] []. Qed.
#[export] Instance ChangeSourceLayer_ord : Ord ChangeSourceLayer := cmp_on layer_rank cmp.
#[export] Instance ChangeSourceLayer_total : TotalOrd ChangeSourceLayer := ranked_total layer_rank.
Definition layer_of_rank (n : nat) : option ChangeSourceLayer :=
  [Layer_Staged; Layer_Worktree; Layer_Untracked; Layer_Commit] !! n.
Lemma layer_of_layer_rank layer : layer_of_rank (layer_rank layer) = Some layer.
Proof. by destruct layer. Qed.
#[export] Instance ChangeSourceLayer_countable : Countable ChangeSourceLayer :=
  inj_countable layer_rank layer_of_rank layer_of_layer_rank.

Definition status_rank (status : ChangedFileStatus) : nat :=
  match status with
  | Status_Added => 0 | Status_Modified => 1 | Status_Deleted => 2 | Status_Renamed => 3 | Status_Copied => 4 | Status_Untracked => 5
  end.
#[export] Instance status_rank_inj : Inj (=) (=) status_rank.
Proof. by intros [] []. Qed.
#[export] Instance ChangedFileStatus_ord : Ord ChangedFileStatus := cmp_on status_rank cmp.
#[export] Instance ChangedFileStatus_total : TotalOrd ChangedFileStatus := ranked_total status_rank.

Definition effective_path (file : ChangedFile) : option NativePath :=
  match cf_new_path file with Some path => Some path | None => cf_old_path file end.

(** ** Validity of an analysed change set *)
Record ChangeValidityInput := {
  vi_repo_id : RepoId;
  vi_checkout_id : CheckoutId;
  vi_worktree : NativePath;
  vi_git_common_dir : NativePath;
  vi_checkout_head_sha : string;
  vi_staged_hash : string;
  vi_worktree_hash : string;
  vi_exact_diff_fingerprint : string;
  vi_workspace_manifest_hash : string;
  vi_contract_registry_hash : string;
  vi_analyzer_versions : AnalyzerVersions;
}.

Definition validity_input (value : ChangeSet) : ChangeValidityInput := {|
  vi_repo_id := cs_repo_id value;
  vi_checkout_id := cs_checkout_id value;
  vi_worktree := cs_worktree value;
  vi_git_common_dir := cs_git_common_dir value;
  vi_checkout_head_sha := cs_checkout_head_sha value;
  vi_staged_hash := cs_staged_hash value;
  vi_worktree_hash := cs_worktree_hash value;
  vi_exact_diff_fingerprint := cs_exact_diff_fingerprint value;
  vi_workspace_manifest_hash := cs_workspace_manifest_hash value;
  vi_contract_registry_hash := cs_contract_registry_hash value;
  vi_analyzer_versions := cs_analyzer_versions value;
|}.

Inductive StaleReason :=
| RepositoryChanged | CheckoutChanged | WorktreeChanged | GitCommonDirectoryChanged | HeadChanged
| StagedChangesChanged | WorktreeChangesChanged | ExactDiffChanged | WorkspaceManifestChanged
| ContractRegistryChanged | AnalyzerVersionsChanged.

Definition stale_rank (reason : StaleReason) : nat :=
  match reason with
  | RepositoryChanged => 0 | CheckoutChanged => 1 | WorktreeChanged => 2 | GitCommonDirectoryChanged => 3 | HeadChanged => 4
  | StagedChangesChanged => 5 | WorktreeChangesChanged => 6 | ExactDiffChanged => 7 | WorkspaceManifestChanged => 8
  | ContractRegistryChanged => 9 | AnalyzerVersionsChanged => 10
  end.
#[export] Instance stale_rank_inj : Inj (=) (=) stale_rank.
Proof. by intros [] []. Qed.
#[export] Instance StaleReason_ord : Ord StaleReason := cmp_on stale_rank cmp.
#[export] Instance StaleReason_total : TotalOrd StaleReason := ranked_total stale_rank.

Inductive ChangeValidity :=
| Validity_Valid
| Validity_Stale (reasons : list StaleReason) (remediation : string).

Definition compare_field {T} `{EqDecision T} (stored current : T) (reason : StaleReason) (out : list StaleReason) : list StaleReason :=
  if bool_decide (stored = current) then out else out ++ [reason].

Definition validate_change_set (change_set : ChangeSet) (current : ChangeValidityInput) : ChangeValidity :=
  let reasons := [] in
  let reasons := compare_field (cs_repo_id change_set) (vi_repo_id current) RepositoryChanged reasons in
  let reasons := compare_field (cs_checkout_id change_set) (vi_checkout_id current) CheckoutChanged reasons in
  let reasons := compare_field (cs_worktree change_set) (vi_worktree current) WorktreeChanged reasons in
  let reasons := compare_field (cs_git_common_dir change_set) (vi_git_common_dir current) GitCommonDirectoryChanged reasons in
  let reasons := compare_field (cs_checkout_head_sha change_set) (vi_checkout_head_sha current) HeadChanged reasons in
  let reasons := compare_field (cs_staged_hash change_set) (vi_staged_hash current) StagedChangesChanged reasons in
  let reasons := compare_field (cs_worktree_hash change_set) (vi_worktree_hash current) WorktreeChangesChanged reasons in
  let reasons := compare_field (cs_exact_diff_fingerprint change_set) (vi_exact_diff_fingerprint current) ExactDiffChanged reasons in
  let reasons := compare_field (cs_workspace_manifest_hash change_set) (vi_workspace_manifest_hash current) WorkspaceManifestChanged reasons in
  let reasons := compare_field (cs_contract_registry_hash change_set) (vi_contract_registry_hash current) ContractRegistryChanged reasons in
  let reasons := compare_field (cs_analyzer_versions change_set) (vi_analyzer_versions current) AnalyzerVersionsChanged reasons in
  let reasons := sorted_unique reasons in
  if is_empty_list reasons then Validity_Valid
  else Validity_Stale reasons "Recollect the change set and rerun analysis before committing.".

(** ** References, object ids and pathspecs *)
Definition is_ascii_alphanumeric (c : ascii) : bool := ascii_in 48 57 c || ascii_in 65 90 c || ascii_in 97 122 c.
Definition is_ascii_hexdigit (c : ascii) : bool := ascii_in 48 57 c || ascii_in 65 70 c || ascii_in 97 102 c.

(** [Path::file_name]: the last component, unless it is [..]. *)
Definition path_components (path : string) : list string :=
  List.filter (λ component, negb (String.eqb component "" || String.eqb component ".")) (split_by (Ascii.eqb "/") path).
Definition file_name (path : string) : option string :=
  match last (path_components path) with
  | Some name => if String.eqb name ".." then None else Some name
  | None => None
  end.
(** [Path::extension] *)
Definition path_extension (path : string) : option string :=
  match file_name path with
  | Some name =>
      match rsplit_once "." name with
      | Some (stem, extension) => if String.eqb stem "" then None else Some extension
      | None => None
      end
  | None => None
  end.

Definition reference_character (c : ascii) : bool :=
  is_ascii_alphanumeric c || Ascii.eqb c "." || Ascii.eqb c "_" || Ascii.eqb c "/" || Ascii.eqb c "-".

Definition validate_ref (reference : string) : result ChangeError unit :=
  let valid_chars := negb (str_any (λ c, negb (reference_character c)) reference) in
  let invalid :=
    String.eqb reference ""
    || starts_with "-" reference
    || starts_with "/" reference
    || ends_with "/" reference
    || contains_str ".." reference
    || contains_str "//" reference
    || contains_str "@{" reference
    || ends_with "." reference
    || is_some_and (path_extension reference) (λ extension, String.eqb (to_ascii_lowercase extension) "lock")
    || negb valid_chars in
  if invalid then Err (InvalidRef reference) else Ok tt.

Definition validate_sha (sha : string) : result ChangeError unit :=
  if ((String.length sha =? 40)%nat || (String.length sha =? 64)%nat) && negb (str_any (λ c, negb (is_ascii_hexdigit c)) sha)
  then Ok tt else Err (InvalidSha sha).

Definition validate_scope (scope : ChangeScope) : result ChangeError unit :=
  match scope with
  | Scope_Compare reference => validate_ref reference
  | Scope_Commit sha => validate_sha sha
  | Scope_Range base head => check? validate_ref base in validate_ref head
  | Scope_PullRequest provider _ =>
      if String.eqb provider "" || existsb (λ c, is_control c.1) (chars provider) then Err (InvalidRef provider)
      else Err PullRequestUnsupported
  | Scope_Unstaged | Scope_Staged | Scope_All => Ok tt
  end.

Definition glob_character (c : ascii) : bool :=
  Ascii.eqb c "*" || Ascii.eqb c "?" || Ascii.eqb c "[" || Ascii.eqb c "]".

Definition validate_pathspec (pathspec : string) : result ChangeError unit :=
  let invalid :=
    String.eqb pathspec ""
    || starts_with "-" pathspec
    || starts_with ":(" pathspec
    || contains_str ".." pathspec
    || str_any glob_character pathspec
    || existsb (λ c, is_control c.1) (chars pathspec)
    || starts_with "/" pathspec
    || existsb (λ component, String.eqb component "..") (path_components pathspec) in
  if invalid then Err (InvalidPathspec pathspec) else Ok tt.

Definition literal_pathspec_matches (pathspec : string) (path : list N) : bool :=
  let spec := byte_list (trim_end_char "/" pathspec) in
  bool_decide (path = spec)
  || bool_decide (spec `prefix_of` path) && is_some_and (path !! length spec) (λ separator, separator =? 47)%N.

(** ** The commit gate *)
Inductive CommitSelection :=
| Select_Default | Select_AllTracked
| Select_Only (pathspecs : list string)
| Select_Include (pathspecs : list string).

Record CommitIntent := { intent_selection : CommitSelection }.

Record CommitFileSelection := { sel_path : NativePath; sel_layers : list ChangeSourceLayer }.

Record CommitGate := { gate_allowed : bool; gate_selected : list CommitFileSelection; gate_reasons : list string }.

Definition pathspecs_of (selection : CommitSelection) : option (list string) :=
  match selection with
  | Select_Only pathspecs | Select_Include pathspecs => Some pathspecs
  | Select_Default | Select_AllTracked => None
  end.

Definition includes_file (selection : CommitSelection) (matched : bool) (source : ChangeSourceLayer) : bool :=
  match selection with
  | Select_Default => match source with Layer_Staged => true | _ => false end
  | Select_AllTracked => match source with Layer_Staged | Layer_Worktree => true | _ => false end
  | Select_Only _ => matched && match source with Layer_Staged | Layer_Worktree | Layer_Untracked => true | _ => false end
  | Select_Include _ =>
      match source with Layer_Staged => true | _ => false end
      || (matched && match source with Layer_Worktree | Layer_Untracked => true | _ => false end)
  end.

Notation Selected := (gmap NativePath (gset ChangeSourceLayer)).

Definition select_file (selection : CommitSelection) (selected : Selected) (file : ChangedFile) : Selected :=
  match effective_path file with
  | None => selected
  | Some path =>
      let matched :=
        is_none_or (pathspecs_of selection) (λ specs, existsb (λ spec, literal_pathspec_matches spec (np_bytes path)) specs) in
      if includes_file selection matched (cf_source file)
      then <[path := {[cf_source file]} ∪ default ∅ (selected !! path)]> selected
      else selected
  end.

Definition is_only (selection : CommitSelection) : bool := match selection with Select_Only _ => true | _ => false end.

Definition NOTHING_SELECTED : string := "The modeled command selects no analyzed changes.".
Definition LAYERS_OVERLAP : string :=
  "`--only` overlaps staged and worktree layers; the exact committed blob is ambiguous.".

Definition evaluate_commit_gate (change_set : ChangeSet) (intent : CommitIntent) : result ChangeError CommitGate :=
  let selection := intent_selection intent in
  check? match pathspecs_of selection with
         | Some pathspecs => try_fold (λ _, validate_pathspec) tt pathspecs
         | None => Ok tt
         end in
  let selected := foldl (select_file selection) (∅ : Selected) (cs_files change_set) in
  let reasons := if bool_decide (selected = ∅) then [NOTHING_SELECTED] else [] in
  let reasons :=
    if is_only selection && existsb (λ layers : gset ChangeSourceLayer, (1 <? size layers)%nat) (btree_values selected)
    then reasons ++ [LAYERS_OVERLAP] else reasons in
  Ok {| gate_allowed := is_empty_list reasons;
        gate_selected := map (λ entry, {| sel_path := entry.1; sel_layers := bset_elements entry.2 |}) (btree_entries selected);
        gate_reasons := reasons |}.

(** ** What validity means *)
Lemma compare_field_elem {T} `{EqDecision T} (stored current : T) reason out r :
  r ∈ compare_field stored current reason out ↔ r ∈ out ∨ (r = reason ∧ stored ≠ current).
Proof.
  unfold compare_field. case_bool_decide; [naive_solver|]. rewrite elem_of_app, list_elem_of_singleton. naive_solver.
Qed.

(** The field that a reason speaks of has changed. *)
Definition changed (old new : ChangeValidityInput) (reason : StaleReason) : Prop :=
  match reason with
  | RepositoryChanged => vi_repo_id old ≠ vi_repo_id new
  | CheckoutChanged => vi_checkout_id old ≠ vi_checkout_id new
  | WorktreeChanged => vi_worktree old ≠ vi_worktree new
  | GitCommonDirectoryChanged => vi_git_common_dir old ≠ vi_git_common_dir new
  | HeadChanged => vi_checkout_head_sha old ≠ vi_checkout_head_sha new
  | StagedChangesChanged => vi_staged_hash old ≠ vi_staged_hash new
  | WorktreeChangesChanged => vi_worktree_hash old ≠ vi_worktree_hash new
  | ExactDiffChanged => vi_exact_diff_fingerprint old ≠ vi_exact_diff_fingerprint new
  | WorkspaceManifestChanged => vi_workspace_manifest_hash old ≠ vi_workspace_manifest_hash new
  | ContractRegistryChanged => vi_contract_registry_hash old ≠ vi_contract_registry_hash new
  | AnalyzerVersionsChanged => vi_analyzer_versions old ≠ vi_analyzer_versions new
  end.

Lemma changed_none old new : (∀ reason, ¬ changed old new reason) → old = new.
Proof.
  intros Hno. destruct old, new. f_equal; apply dec_stable;
    [apply (Hno RepositoryChanged)|apply (Hno CheckoutChanged)|apply (Hno WorktreeChanged)|apply (Hno GitCommonDirectoryChanged)
    |apply (Hno HeadChanged)|apply (Hno StagedChangesChanged)|apply (Hno WorktreeChangesChanged)|apply (Hno ExactDiffChanged)
    |apply (Hno WorkspaceManifestChanged)|apply (Hno ContractRegistryChanged)|apply (Hno AnalyzerVersionsChanged)].
Qed.

(** An analysed change set is valid exactly when nothing that it was computed
    from has changed; otherwise the reasons are exactly the things that changed,
    in their order. *)
Theorem validity_exact change_set current :
  match validate_change_set change_set current with
  | Validity_Valid => validity_input change_set = current
  | Validity_Stale reasons _ =>
      reasons ≠ [] ∧ strictly_sorted reasons ∧ ∀ reason, reason ∈ reasons ↔ changed (validity_input change_set) current reason
  end.
Proof.
  unfold validate_change_set. cbv zeta. match goal with |- context [sorted_unique ?l] => set (out := l) end.
  assert (Hout : ∀ reason, reason ∈ sorted_unique out ↔ changed (validity_input change_set) current reason).
  { intros reason. rewrite sorted_unique_elem_of. unfold out. rewrite !compare_field_elem.
    rewrite elem_of_nil. destruct reason; simpl; naive_solver. }
  destruct (is_empty_list (sorted_unique out)) eqn:E.
  - apply is_empty_list_true in E. apply changed_none. intros reason Hr. apply Hout in Hr. rewrite E in Hr. by apply elem_of_nil in Hr.
  - split_and!; [|apply sorted_unique_strict|done]. intros Hnil. by rewrite Hnil in E.
Qed.

(** ** What the gate selects *)
Definition names (spec : string) (path : list N) : Prop :=
  let spec := byte_list (trim_end_char "/" spec) in
  path = spec ∨ ∃ rest, path = spec ++ 47%N :: rest.

Lemma literal_pathspec_matches_spec spec path : literal_pathspec_matches spec path = true ↔ names spec path.
Proof.
  unfold literal_pathspec_matches, names. set (l := byte_list _).
  rewrite orb_true_iff, andb_true_iff, !bool_decide_eq_true. apply Morphisms_Prop.or_iff_morphism; [done|]. split.
  - intros [[rest ->] Hsep]. rewrite lookup_app_r in Hsep by lia. rewrite Nat.sub_diag in Hsep.
    destruct rest as [|b rest]; [done|]. simpl in Hsep. apply N.eqb_eq in Hsep as ->. by exists rest.
  - intros [rest ->]. split; [by eexists|]. rewrite lookup_app_r by lia. by rewrite Nat.sub_diag.
Qed.

(** The layers of a path that a selection takes. *)
Definition takes (selection : CommitSelection) (path : NativePath) (layer : ChangeSourceLayer) : Prop :=
  match selection with
  | Select_Default => layer = Layer_Staged
  | Select_AllTracked => layer = Layer_Staged ∨ layer = Layer_Worktree
  | Select_Only specs => layer ≠ Layer_Commit ∧ ∃ spec, spec ∈ specs ∧ names spec (np_bytes path)
  | Select_Include specs =>
      layer = Layer_Staged ∨
      ((layer = Layer_Worktree ∨ layer = Layer_Untracked) ∧ ∃ spec, spec ∈ specs ∧ names spec (np_bytes path))
  end.

Lemma includes_file_spec selection path source :
  includes_file selection
    (is_none_or (pathspecs_of selection) (λ specs, existsb (λ spec, literal_pathspec_matches spec (np_bytes path)) specs)) source = true
  ↔ takes selection path source.
Proof.
  assert (Hm : ∀ specs, existsb (λ spec, literal_pathspec_matches spec (np_bytes path)) specs = true ↔
    ∃ spec, spec ∈ specs ∧ names spec (np_bytes path)).
  { intros specs. rewrite existsb_In. by setoid_rewrite literal_pathspec_matches_spec. }
  destruct selection; simpl; rewrite ?orb_true_iff, ?andb_true_iff, ?Hm; destruct source; naive_solver.
Qed.

Lemma selected_spec selection files path :
  let selected := foldl (select_file selection) (∅ : Selected) files in
  (∀ layers, selected !! path = Some layers → layers ≠ ∅) ∧
  ∀ layer, (∃ layers, selected !! path = Some layers ∧ layer ∈ layers) ↔
    ∃ file, file ∈ files ∧ effective_path file = Some path ∧ cf_source file = layer ∧ takes selection path layer.
Proof.
  induction files as [|file files [IHne IH]] using rev_ind; simpl.
  { split; [done|]. intros layer. split; [by intros (? & ? & _)|]. intros (? & []%elem_of_nil & _). }
  rewrite foldl_app. simpl. set (selected := foldl _ _ _) in *. unfold select_file. clearbody selected.
  setoid_rewrite elem_of_app. setoid_rewrite list_elem_of_singleton.
  destruct (effective_path file) as [p|] eqn:Ep; 
    [|split; [done|]; intros layer; rewrite IH; split; [intros (f & Hf & Hrest); exists f; by split; [left|]|]; intros (f & [Hf| ->] & Hp & ?); [by exists f|congruence]].
  pose proof (includes_file_spec selection p (cf_source file)) as Hinc.
  destruct (includes_file selection _ (cf_source file)).
  2: { split; [done|]. intros layer. rewrite IH. split; [intros (f & Hf & Hrest); exists f; by split; [left|]|]. intros (f & [Hf| ->] & Hp & Hs & Ht); [by exists f|]. subst.
       rewrite Ep in Hp. injection Hp as ->. apply Hinc in Ht. done. }
  destruct (decide (p = path)) as [->|Hne].
  - rewrite lookup_insert_eq. split; [intros layers [= <-]; set_solver|]. intros layer. split.
    + intros (layers & [= <-] & [->%elem_of_singleton|Hl]%elem_of_union).
      * exists file. split_and!; [by right|done..|]. by apply Hinc.
      * destruct (selected !! path) as [layers|] eqn:El; [|set_solver]. simpl in Hl.
        destruct (proj1 (IH layer) (ex_intro _ layers (conj eq_refl Hl))) as (f & Hf & Hrest). exists f. by split; [left|].

    + intros (f & [Hf| ->] & Hp & Hs & Ht).
      * destruct (proj2 (IH layer)) as (layers & -> & Hl); [by exists f|]. eexists. split; [done|]. set_solver.
      * eexists. split; [done|]. set_solver.
  - rewrite lookup_insert_ne by done. split; [done|]. intros layer. rewrite IH. split; [intros (f & Hf & Hrest); exists f; by split; [left|]|].
    intros (f & [Hf| ->] & Hp & Hs & Ht); [by exists f|congruence].
Qed.

(** A pathspec that Git can only take literally, as far as it is looked at. *)
Definition plain_pathspec (spec : string) : Prop :=
  spec ≠ "" ∧ (∀ prefix, prefix ∈ ["-"; ":("; "/"] → ¬ ∃ rest, spec = prefix +:+ rest) ∧
  (¬ ∃ a b, spec = a +:+ ".." +:+ b) ∧ str_any glob_character spec = false ∧
  ∀ c, c ∈ chars spec → is_control c.1 = false.

Lemma path_components_piece component path : component ∈ path_components path → ∃ a b, path = a +:+ component +:+ b.
Proof. unfold path_components. rewrite list_filter_In. intros [Hc _]. by apply split_by_piece_infix in Hc. Qed.

Lemma bool_false_iff (b : bool) (P : Prop) : (b = true ↔ P) → b = false ↔ ¬ P.
Proof. destruct b; naive_solver. Qed.

Lemma validate_pathspec_spec spec :
  match validate_pathspec spec with
  | Ok _ => plain_pathspec spec
  | Err error => error = InvalidPathspec spec ∧ ¬ plain_pathspec spec
  end.
Proof.
  unfold validate_pathspec. match goal with |- context [if ?b then _ else _] => assert (Hb : b = false ↔ plain_pathspec spec) end.
  - rewrite !orb_false_iff. unfold plain_pathspec.
    rewrite (bool_false_iff _ _ (starts_with_spec "-" spec)), (bool_false_iff _ _ (starts_with_spec ":(" spec)),
      (bool_false_iff _ _ (starts_with_spec "/" spec)), (bool_false_iff _ _ (contains_str_spec ".." spec)), existsb_false_In, String.eqb_neq.
    assert (Hprefixes : (∀ prefix, prefix ∈ ["-"; ":("; "/"] → ¬ ∃ rest, spec = prefix +:+ rest) ↔
      (¬ ∃ rest, spec = "-" +:+ rest) ∧ (¬ ∃ rest, spec = ":(" +:+ rest) ∧ ¬ ∃ rest, spec = "/" +:+ rest).
    { split; [intros Hp; split_and!; apply Hp; set_solver|]. intros (H1 & H2 & H3) prefix. rewrite !elem_of_cons, elem_of_nil. naive_solver. }
    rewrite Hprefixes. split; [tauto|]. intros (? & ? & Hdots & ? & ?). split; [tauto|]. apply existsb_false_In.
    intros component Hc. apply String.eqb_neq. intros ->. by apply path_components_piece in Hc.
  - match goal with |- context [if ?b then _ else _] => destruct b end; [|by apply Hb]. split; [done|]. intros Hp. by apply Hb in Hp.
Qed.

Lemma validate_pathspecs specs :
  match try_fold (λ _, validate_pathspec) tt specs with
  | Ok _ => Forall plain_pathspec specs
  | Err error => ∃ spec, spec ∈ specs ∧ error = InvalidPathspec spec ∧ ¬ plain_pathspec spec
  end.
Proof.
  induction specs as [|spec specs IH]; simpl; [done|]. pose proof (validate_pathspec_spec spec) as Hs.
  destruct (validate_pathspec spec) as [[]|error]; simpl; [|destruct Hs; exists spec; split_and!; [by left|done..]].
  destruct (try_fold _ _ specs) as [[]|error]; [by constructor|]. destruct IH as (s & Hin & ?). exists s. split; [by right|done].
Qed.

Lemma selected_entries (m : Selected) path layer :
  (∃ selection, selection ∈ map (λ entry, {| sel_path := entry.1; sel_layers := bset_elements entry.2 |}) (btree_entries m)
     ∧ sel_path selection = path ∧ layer ∈ sel_layers selection) ↔
  ∃ layers, m !! path = Some layers ∧ layer ∈ layers.
Proof.
  split.
  - intros (? & ([p layers] & -> & Hin)%list_elem_of_fmap & <- & Hl). simpl in *. apply btree_entries_elem_of in Hin.
    rewrite bset_elements_elem_of in Hl. eauto.
  - intros (layers & Hm & Hl). eexists. split; [apply list_elem_of_fmap; exists (path, layers); split; [done|]; by apply btree_entries_elem_of|].
    split; [done|]. simpl. by apply bset_elements_elem_of.
Qed.

Lemma single_layer (layers : gset ChangeSourceLayer) :
  layers ≠ ∅ → (1 <? size layers)%nat = false ↔ ∃ layer, bset_elements layers = [layer].
Proof.
  intros Hne. rewrite Nat.ltb_ge, <-bset_elements_length. destruct (bset_elements layers) as [|l [|k ls]] eqn:E.
  - exfalso. apply Hne. apply elem_of_equiv_empty_L. intros x Hx. rewrite <-bset_elements_elem_of, E in Hx. by apply elem_of_nil in Hx.
  - simpl. split; [by exists l|lia].
  - simpl. split; [lia|]. intros [? [=]].
Qed.

(** The gate refuses pathspecs that Git might not take literally. Otherwise it
    selects, in order, exactly the paths and layers that the modelled commit
    takes, and it allows the commit exactly when something is selected and no
    path of an [--only] commit is both staged and changed in the worktree. *)
Theorem commit_gate_exact change_set intent :
  let selection := intent_selection intent in
  match evaluate_commit_gate change_set intent with
  | Err error => ∃ specs spec, pathspecs_of selection = Some specs ∧ spec ∈ specs ∧ error = InvalidPathspec spec ∧ ¬ plain_pathspec spec
  | Ok gate =>
      (∀ specs, pathspecs_of selection = Some specs → Forall plain_pathspec specs) ∧
      strictly_sorted (map sel_path (gate_selected gate)) ∧
      (∀ selected, selected ∈ gate_selected gate → strictly_sorted (sel_layers selected)) ∧
      (∀ path layer,
        (∃ selected, selected ∈ gate_selected gate ∧ sel_path selected = path ∧ layer ∈ sel_layers selected) ↔
        ∃ file, file ∈ cs_files change_set ∧ effective_path file = Some path ∧ cf_source file = layer ∧ takes selection path layer) ∧
      (gate_allowed gate = true ↔ gate_reasons gate = []) ∧
      (gate_allowed gate = true ↔
        gate_selected gate ≠ [] ∧
        (is_only selection = true → ∀ selected, selected ∈ gate_selected gate → ∃ layer, sel_layers selected = [layer]))
  end.
Proof.
  simpl. unfold evaluate_commit_gate. set (selection := intent_selection intent).
  assert (Hspecs : match match pathspecs_of selection with Some pathspecs => try_fold (λ _, validate_pathspec) tt pathspecs | None => Ok tt end with
    | Ok _ => ∀ specs, pathspecs_of selection = Some specs → Forall plain_pathspec specs
    | Err error => ∃ specs spec, pathspecs_of selection = Some specs ∧ spec ∈ specs ∧ error = InvalidPathspec spec ∧ ¬ plain_pathspec spec end).
  { destruct (pathspecs_of selection) as [specs|]; [|done]. pose proof (validate_pathspecs specs) as Hv.
    destruct (try_fold _ _ specs) as [[]|]; [by intros ? [= <-]|naive_solver]. }
  destruct (match pathspecs_of selection with Some _ => _ | None => _ end) as [[]|error]; [|done]. simpl.
  set (m := foldl _ _ _). assert (Hm := λ path, selected_spec selection (cs_files change_set) path).
  change (∀ path, (∀ layers, m !! path = Some layers → layers ≠ ∅) ∧ ∀ layer, (∃ layers, m !! path = Some layers ∧ layer ∈ layers) ↔
    ∃ file, file ∈ cs_files change_set ∧ effective_path file = Some path ∧ cf_source file = layer ∧ takes selection path layer) in Hm. clearbody m.
  assert (Hempty : map (λ entry, {| sel_path := entry.1; sel_layers := bset_elements entry.2 |}) (btree_entries m) ≠ [] ↔ m ≠ ∅).
  { rewrite (not_iff_compat (B := m = ∅)); [done|]. rewrite <-map_to_list_empty_iff, <-!length_zero_iff_nil. rewrite length_map. unfold btree_entries. by rewrite sort_by_length. }
  assert (Hsingle : existsb (λ layers : gset ChangeSourceLayer, (1 <? size layers)%nat) (btree_values m) = false ↔
    ∀ selected, selected ∈ map (λ entry, {| sel_path := entry.1; sel_layers := bset_elements entry.2 |}) (btree_entries m) → ∃ layer, sel_layers selected = [layer]).
  { rewrite existsb_false_In. split.
    - intros Hall ? ([p layers] & -> & Hin)%list_elem_of_fmap. simpl. apply btree_entries_elem_of in Hin. apply single_layer; [by apply (Hm p)|].
      apply Hall, btree_values_elem_of. eauto.
    - intros Hall layers [p Hp]%btree_values_elem_of. apply single_layer; [by apply (Hm p)|].
      apply (Hall {| sel_path := p; sel_layers := bset_elements layers |}). apply list_elem_of_fmap. exists (p, layers). split; [done|]. by apply btree_entries_elem_of. }
  split_and!; [done| | | |by rewrite is_empty_list_true|].
  - rewrite map_map. simpl. apply btree_entries_keys_strict.
  - intros ? ([p layers] & -> & _)%list_elem_of_fmap. apply bset_elements_strict.
  - intros path layer. rewrite selected_entries. apply Hm.
  - rewrite is_empty_list_true, Hempty, <-Hsingle. case_bool_decide as Hd; destruct (is_only selection); simpl.
    + destruct (existsb _ _); simpl; naive_solver.
    + naive_solver.
    + destruct (existsb _ _); simpl; naive_solver.
    + naive_solver.
Qed.

(** ** References *)
Definition plain_ref (reference : string) : Prop :=
  reference ≠ "" ∧ (¬ ∃ rest, reference = "-" +:+ rest) ∧ (¬ ∃ a b, reference = a +:+ ".." +:+ b) ∧
  str_any (λ c, negb (reference_character c)) reference = false.

Lemma validate_ref_plain reference : validate_ref reference = Ok tt → plain_ref reference.
Proof.
  unfold validate_ref. match goal with |- context [if ?b then _ else _] => destruct b eqn:E end; [done|]. intros _.
  rewrite !orb_false_iff, negb_false_iff, negb_true_iff, String.eqb_neq, (bool_false_iff _ _ (starts_with_spec "-" reference)),
    (bool_false_iff _ _ (contains_str_spec ".." reference)) in E. unfold plain_ref. tauto.
Qed.

Lemma validate_sha_plain sha : validate_sha sha = Ok tt → plain_ref sha.
Proof.
  unfold validate_sha. match goal with |- context [if ?b then _ else _] => destruct b eqn:E end; [|done]. intros _.
  apply andb_true_iff in E as [Hlen Hhex]. apply negb_true_iff in Hhex.
  assert (Hno : ∀ c, is_ascii_hexdigit c = false → ∀ a b, sha ≠ a +:+ String c b).
  { intros c Hc a b ->. rewrite str_any_app in Hhex. simpl in Hhex. rewrite Hc in Hhex. simpl in Hhex. by rewrite orb_true_r in Hhex. }
  unfold plain_ref. split_and!.
  - by intros ->.
  - intros [rest ->]. by apply (Hno "-"%char eq_refl "" rest).
  - intros (a & b & ->). by apply (Hno "."%char eq_refl a (String "." b)).
  - apply not_true_iff_false. intros Hany. apply not_true_iff_false in Hhex. apply Hhex. revert Hany. apply str_any_sub. intros c.
    unfold reference_character, is_ascii_alphanumeric, is_ascii_hexdigit, ascii_in. intros Hc.
    apply negb_true_iff in Hc. apply negb_true_iff. rewrite !orb_false_iff in *. destruct Hc as [[[[[[Hd Hu] Hl] _] _] _] _].
    rewrite !andb_false_iff, !N.leb_gt in *. lia.
Qed.

Module Example_gate.
Definition bytes (s : string) : NativePath := {| np_encoding := UnixBytes; np_bytes := byte_list s; np_display := s |}.
Definition file (path : string) (layer : ChangeSourceLayer) : ChangedFile :=
  {| cf_status := Status_Modified; cf_old_path := Some (bytes path); cf_new_path := Some (bytes path); cf_binary := false;
     cf_hunks := []; cf_source := layer |}.
Definition set (files : list ChangedFile) : ChangeSet :=
  {| cs_repo_id := "repo"; cs_checkout_id := "checkout"; cs_worktree := bytes "/w"; cs_git_common_dir := bytes "/w/.git";
     cs_scope := Scope_All; cs_checkout_head_ref := None; cs_checkout_head_sha := "h"; cs_base_ref := None; cs_head_ref := Some "HEAD";
     cs_head_sha := "h"; cs_staged_hash := "s"; cs_worktree_hash := "w"; cs_exact_diff_fingerprint := "e";
     cs_workspace_manifest_hash := "m"; cs_contract_registry_hash := "c"; cs_analyzer_versions := ∅; cs_files := files |}.
Definition files : list ChangedFile :=
  [file "src/a.rs" Layer_Staged; file "src/a.rs" Layer_Worktree; file "src/b.rs" Layer_Worktree; file "notes" Layer_Untracked].
Definition gate (selection : CommitSelection) := evaluate_commit_gate (set files) {| intent_selection := selection |}.
Definition summary (r : result ChangeError CommitGate) : option (bool * list (string * list ChangeSourceLayer)) :=
  match r with
  | Ok g => Some (gate_allowed g, map (λ s, (np_display (sel_path s), sel_layers s)) (gate_selected g))
  | Err _ => None
  end.

Example gate_default : summary (gate Select_Default) = Some (true, [("src/a.rs", [Layer_Staged])]).
Proof. vm_compute. reflexivity. Qed.
Example gate_only_overlap :
  summary (gate (Select_Only ["src/"])) =
  Some (false, [("src/a.rs", [Layer_Staged; Layer_Worktree]); ("src/b.rs", [Layer_Worktree])]).
Proof. vm_compute. reflexivity. Qed.
Example gate_include :
  summary (gate (Select_Include ["notes"])) = Some (true, [("notes", [Layer_Untracked]); ("src/a.rs", [Layer_Staged])]).
Proof. vm_compute. reflexivity. Qed.
Example gate_refuses_globs : gate (Select_Only ["src/*"]) = Err (InvalidPathspec "src/*").
Proof. vm_compute. reflexivity. Qed.

(** The short forms of pathspec magic, which exclude a path or start at the top of
    the worktree, pass; only the long form is looked for. *)
Example short_magic_accepted :
  map validate_pathspec [":!src"; ":^src"; ":/src"; ":(top)src"] = [Ok tt; Ok tt; Ok tt; Err (InvalidPathspec ":(top)src")].
Proof. vm_compute. reflexivity. Qed.

Example validity_reasons :
  validate_change_set (set files)
    {| vi_repo_id := "repo"; vi_checkout_id := "checkout"; vi_worktree := bytes "/w"; vi_git_common_dir := bytes "/w/.git";
       vi_checkout_head_sha := "other"; vi_staged_hash := "s"; vi_worktree_hash := "w"; vi_exact_diff_fingerprint := "f";
       vi_workspace_manifest_hash := "m"; vi_contract_registry_hash := "c"; vi_analyzer_versions := ∅ |}
  = Validity_Stale [HeadChanged; ExactDiffChanged] "Recollect the change set and rerun analysis before committing.".
Proof. vm_compute. reflexivity. Qed.

Example references :
  map validate_ref ["main"; "release/1.2"; "a..b"; "-x"; "main.LOCK"; "x.lock/"; "v1~2"] =
  [Ok tt; Ok tt; Err (InvalidRef "a..b"); Err (InvalidRef "-x"); Err (InvalidRef "main.LOCK"); Err (InvalidRef "x.lock/"); Err (InvalidRef "v1~2")].
Proof. vm_compute. reflexivity. Qed.
End Example_gate.
