(* ===== verification/GitDiff.v ===== *)
(** * Reading the output of git diff (changes.rs)

    [parse_raw], [apply_numstat] and [apply_patch] read the three forms in which
    [git diff -z] reports a layer of changes; files are matched by their position.
    The forms themselves are written down as printers of a description, and the
    readers are proved against them. *)
From stdpp Require Import base list strings pretty.
From Stdlib Require Import Ascii.
From S2P Require Import Prelude RustOrd RustStr RustBytes CanonicalText Model ChangeSet.

Definition NUL : ascii := ascii_of_N 0.
Definition NEWLINE : ascii := ascii_of_N 10.
Definition TAB : ascii := ascii_of_N 9.

(** [u8::is_ascii_whitespace] *)
Definition is_ascii_whitespace (c : ascii) : bool :=
  let b := N_of_ascii c in ((b =? 32) || (b =? 9) || (b =? 10) || (b =? 12) || (b =? 13))%N.

(** [char::from(byte)], in UTF-8 *)
Definition char_from_byte (c : ascii) : string :=
  let b := N_of_ascii c in
  if (b <? 128)%N then String c EmptyString
  else String (ascii_of_N (192 + b / 64)) (String (ascii_of_N (128 + b mod 64)) EmptyString).

Definition parse_u32 (s : string) : option N :=
  let digits := match strip_prefix "+" s with Some rest => rest | None => s end in
  if String.eqb digits "" then None else parse_digits 4294967295 0 digits.

(** [u32::saturating_add(1)] *)
Definition next_line (line : N) : N := N.min (line + 1) 4294967295.

Definition native_path_bytes (bytes : string) : NativePath :=
  {| np_encoding := UnixBytes; np_bytes := byte_list bytes; np_display := from_utf8_lossy bytes |}.

(** ** The reader

    The cursor is represented by the bytes that it has not passed; it never
    exceeds the output, since it stops behind a delimiter. *)
Definition malformed {A} (message : string) : result ChangeError A := Err (MalformedGitOutput message).

Definition take_nul (remaining : string) : result ChangeError (string * string) :=
  ok_or (split_once (String NUL "") remaining) (MalformedGitOutput "missing NUL delimiter").

(** One turn of the loop behind the first delimiter: the file and the rest. *)
Definition raw_record (header rest : string) (source : ChangeSourceLayer) : result ChangeError (ChangedFile * string) :=
  if negb (starts_with ":" header) then malformed "raw record does not start with ':'"
  else
    match last (split_by is_ascii_whitespace header) with
    | Some (String status_byte _) =>
        let? '(first_path, rest) := take_nul rest in
        let file status old_path new_path :=
          {| cf_status := status; cf_old_path := native_path_bytes <$> old_path; cf_new_path := native_path_bytes <$> new_path;
             cf_binary := false; cf_hunks := []; cf_source := source |} in
        if Ascii.eqb status_byte "A" then Ok (file Status_Added None (Some first_path), rest)
        else if Ascii.eqb status_byte "M" || Ascii.eqb status_byte "T" || Ascii.eqb status_byte "U" then
          Ok (file Status_Modified (Some first_path) (Some first_path), rest)
        else if Ascii.eqb status_byte "D" then Ok (file Status_Deleted (Some first_path) None, rest)
        else if Ascii.eqb status_byte "R" then
          let? '(second_path, rest) := take_nul rest in Ok (file Status_Renamed (Some first_path) (Some second_path), rest)
        else if Ascii.eqb status_byte "C" then
          let? '(second_path, rest) := take_nul rest in Ok (file Status_Copied (Some first_path) (Some second_path), rest)
        else malformed ("unsupported raw status `" +:+ char_from_byte status_byte +:+ "`")
    | _ => malformed "missing raw status"
    end.

(** [while cursor < raw.len()]; [None] when the fuel runs out. *)
Fixpoint parse_raw_loop (fuel : nat) (raw : string) (source : ChangeSourceLayer) (files : list ChangedFile)
    : option (result ChangeError (list ChangedFile)) :=
  if String.eqb raw "" then Some (Ok files)
  else
    match fuel with
    | O => None
    | S fuel =>
        match take_nul raw with
        | Err error => Some (Err error)
        | Ok (header, rest) =>
            if String.eqb header "" then parse_raw_loop fuel rest source files
            else
              match raw_record header rest source with
              | Err error => Some (Err error)
              | Ok (file, rest) => parse_raw_loop fuel rest source (files ++ [file])
              end
        end
    end.
Definition parse_raw (raw : string) (source : ChangeSourceLayer) : option (result ChangeError (list ChangedFile)) :=
  parse_raw_loop (String.length raw) raw source [].

Definition with_binary (binary : bool) (file : ChangedFile) : ChangedFile :=
  {| cf_status := cf_status file; cf_old_path := cf_old_path file; cf_new_path := cf_new_path file; cf_binary := binary;
     cf_hunks := cf_hunks file; cf_source := cf_source file |}.
Definition with_hunks (hunks : list ChangeHunk) (file : ChangedFile) : ChangedFile :=
  {| cf_status := cf_status file; cf_old_path := cf_old_path file; cf_new_path := cf_new_path file; cf_binary := cf_binary file;
     cf_hunks := hunks; cf_source := cf_source file |}.

(** [record.splitn(3, '\t')] *)
Definition numstat_fields (record : string) : option (string * string * string) :=
  match split_once (String TAB "") record with
  | Some (added, rest) =>
      match split_once (String TAB "") rest with
      | Some (removed, path) => Some (added, removed, path)
      | None => None
      end
  | None => None
  end.

Definition numstat_record (record rest : string) (index : nat) (files : list ChangedFile)
    : result ChangeError (string * list ChangedFile) :=
  let? '(added, removed, path) := ok_or (numstat_fields record) (MalformedGitOutput "invalid numstat record") in
  let? file := ok_or (files !! index) (MalformedGitOutput "numstat has too many records") in
  let files := <[index := with_binary (String.eqb added "-" || String.eqb removed "-") file]> files in
  if String.eqb path "" then
    let? '(_, rest) := take_nul rest in
    let? '(_, rest) := take_nul rest in
    Ok (rest, files)
  else Ok (rest, files).

Fixpoint apply_numstat_loop (fuel : nat) (numstat : string) (index : nat) (files : list ChangedFile)
    : option (result ChangeError (list ChangedFile)) :=
  if String.eqb numstat "" then
    Some (if negb (index =? length files)%nat then malformed "raw and numstat record counts differ" else Ok files)
  else
    match fuel with
    | O => None
    | S fuel =>
        match take_nul numstat with
        | Err error => Some (Err error)
        | Ok (record, rest) =>
            if String.eqb record "" then apply_numstat_loop fuel rest index files
            else
              match numstat_record record rest index files with
              | Err error => Some (Err error)
              | Ok (rest, files) => apply_numstat_loop fuel rest (S index) files
              end
        end
    end.
Definition apply_numstat (numstat : string) (files : list ChangedFile) : option (result ChangeError (list ChangedFile)) :=
  apply_numstat_loop (String.length numstat) numstat 0 files.

(** *** Patches *)
Definition split_ascii_whitespace (s : string) : list string :=
  List.filter (λ field, negb (String.eqb field "")) (split_by is_ascii_whitespace s).

Definition parse_range (value prefix : string) : result ChangeError (N * N) :=
  let? value := ok_or (strip_prefix prefix value) (MalformedGitOutput "invalid hunk range prefix") in
  let '(start, count) := match split_once "," value with Some parts => parts | None => (value, "1") end in
  let? start := ok_or (parse_u32 start) (MalformedGitOutput "invalid hunk start") in
  let? count := ok_or (parse_u32 count) (MalformedGitOutput "invalid hunk count") in
  Ok (start, count).

Definition parse_hunk_header (line : string) : result ChangeError ChangeHunk :=
  if negb (utf8_valid line) then malformed "non-ASCII hunk header"
  else
    match split_ascii_whitespace line with
    | marker :: fields =>
        if negb (String.eqb marker "@@") then malformed "invalid hunk marker"
        else
          match fields with
          | [] => malformed "missing old hunk range"
          | [_] => malformed "missing new hunk range"
          | old :: new :: _ =>
              let? '(old_start, old_count) := parse_range old "-" in
              let? '(new_start, new_count) := parse_range new "+" in
              Ok {| ch_old_start := old_start; ch_old_count := old_count; ch_new_start := new_start; ch_new_count := new_count;
                    ch_lines := [] |}
          end
    | [] => malformed "invalid hunk marker"
    end.

Definition push_line (line : ChangedLine) (hunk : ChangeHunk) : ChangeHunk :=
  {| ch_old_start := ch_old_start hunk; ch_old_count := ch_old_count hunk; ch_new_start := ch_new_start hunk;
     ch_new_count := ch_new_count hunk; ch_lines := ch_lines hunk ++ [line] |}.

Record PatchState := {
  ps_files : list ChangedFile;
  ps_file_index : option nat;
  ps_current_hunk : option ChangeHunk;
  ps_old_line : N;
  ps_new_line : N;
}.

Definition finish_hunk (files : list ChangedFile) (file_index : option nat) (hunk : option ChangeHunk)
    : result ChangeError (list ChangedFile) :=
  match hunk with
  | None => Ok files
  | Some hunk =>
      let? index := ok_or file_index (MalformedGitOutput "hunk precedes file header") in
      let? file := ok_or (files !! index) (MalformedGitOutput "patch file index exceeds raw output") in
      Ok (<[index := with_hunks (cf_hunks file ++ [hunk]) file]> files)
  end.

Definition with_line (state : PatchState) (hunk : ChangeHunk) (old_line new_line : N) : PatchState :=
  {| ps_files := ps_files state; ps_file_index := ps_file_index state; ps_current_hunk := Some hunk;
     ps_old_line := old_line; ps_new_line := new_line |}.

(** The body of the loop over the lines of a patch. *)
Definition patch_line (state : PatchState) (line : string) : result ChangeError PatchState :=
  let old_line := ps_old_line state in
  let new_line := ps_new_line state in
  if starts_with "diff --git " line then
    let? files := finish_hunk (ps_files state) (ps_file_index state) (ps_current_hunk state) in
    Ok {| ps_files := files; ps_file_index := Some (match ps_file_index state with Some index => S index | None => 0 end);
          ps_current_hunk := None; ps_old_line := old_line; ps_new_line := new_line |}
  else if starts_with "@@ " line then
    let? files := finish_hunk (ps_files state) (ps_file_index state) (ps_current_hunk state) in
    let? hunk := parse_hunk_header line in
    Ok {| ps_files := files; ps_file_index := ps_file_index state; ps_current_hunk := Some hunk;
          ps_old_line := ch_old_start hunk; ps_new_line := ch_new_start hunk |}
  else
    match ps_current_hunk state with
    | None => Ok state
    | Some hunk =>
        if starts_with "+" line && negb (starts_with "+++" line) then
          let line := {| cl_kind := Line_Added; cl_old_line := None; cl_new_line := Some new_line |} in
          Ok (with_line state (push_line line hunk) old_line (next_line new_line))
        else if starts_with "-" line && negb (starts_with "---" line) then
          let line := {| cl_kind := Line_Removed; cl_old_line := Some old_line; cl_new_line := None |} in
          Ok (with_line state (push_line line hunk) (next_line old_line) new_line)
        else if starts_with " " line then Ok (with_line state hunk (next_line old_line) (next_line new_line))
        else Ok state
    end.

(** [patch.split_inclusive(|byte| *byte == b'\n')] *)
Fixpoint split_inclusive (s : string) : list string :=
  match s with
  | EmptyString => []
  | String c s =>
      if Ascii.eqb c NEWLINE then String c EmptyString :: split_inclusive s
      else match split_inclusive s with
           | [] => [String c EmptyString]
           | line :: lines => String c line :: lines
           end
  end.

Definition apply_patch (patch : string) (files : list ChangedFile) : result ChangeError (list ChangedFile) :=
  let? state :=
    try_fold patch_line
      {| ps_files := files; ps_file_index := None; ps_current_hunk := None; ps_old_line := 0; ps_new_line := 0 |}
      (split_inclusive patch) in
  let? files := finish_hunk (ps_files state) (ps_file_index state) (ps_current_hunk state) in
  if is_some_and (ps_file_index state) (λ index, (length files <=? index)%nat)
  then malformed "patch has more file sections than raw output"
  else Ok files.

(** What [collect_layer] makes of the three outputs. *)
Definition parse_layer (raw numstat patch : string) (source : ChangeSourceLayer)
    : option (result ChangeError (list ChangedFile)) :=
  match parse_raw raw source with
  | Some (Ok files) =>
      match apply_numstat numstat files with
      | Some (Ok files) => Some (apply_patch patch files)
      | other => other
      end
  | other => other
  end.

(** What [collect_untracked] makes of its output. *)
Definition untracked_files (output : string) : list ChangedFile :=
  map (λ path, {| cf_status := Status_Untracked; cf_old_path := None; cf_new_path := Some (native_path_bytes path);
                  cf_binary := false; cf_hunks := []; cf_source := Layer_Untracked |})
    (List.filter (λ path, negb (String.eqb path "")) (split_by (Ascii.eqb NUL) output)).

Definition file_order : ChangedFile → ChangedFile → comparison :=
  then_with (cmp_on cf_source cmp)
    (then_with (cmp_on effective_path cmp) (then_with (cmp_on cf_status cmp) (cmp_on cf_old_path cmp))).

Definition sort_and_deduplicate (files : list ChangedFile) : list ChangedFile :=
  dedup_by (λ a b, bool_decide (a = b)) (sort_by file_order files).
