(* ===== verification/GitFormat.v ===== *)
(** * The formats of git diff and their reading (changes.rs)

    A description of what [git diff] found, printers for the three forms in which
    [git diff -z] reports it, and proofs that [GitDiff] reads them back. *)
From stdpp Require Import base sets list strings pretty.
From Stdlib Require Import Ascii.
From S2P Require Import Prelude RustOrd RustStr RustBytes CanonicalText Model ChangeSet GitDiff.

(** ** Descriptions *)
Inductive GitChange :=
| Git_Added (path : string)
| Git_Modified (path : string)
| Git_Deleted (path : string)
| Git_Renamed (score old new : string)
| Git_Copied (score old new : string).

(** A line of a file; the last one may lack its newline. *)
Record BodyLine := { bl_text : string; bl_unterminated : bool }.

(** [gh_section] follows the ranges in the header of a hunk. *)
Record GitHunk := {
  gh_old_start : N;
  gh_new_start : N;
  gh_section : string;
  gh_removed : list BodyLine;
  gh_added : list BodyLine;
}.

(** [ge_meta] are the modes and object ids, [ge_counts] the counts of added and
    removed lines, which binary files do not have, and [ge_headers] the lines
    of a patch between its title and its first hunk. *)
Record GitEntry := {
  ge_meta : string;
  ge_change : GitChange;
  ge_counts : option (N * N);
  ge_title : string;
  ge_headers : list string;
  ge_hunks : list GitHunk;
}.

(** ** Printers *)
Definition nul (text : string) : string := text +:+ String NUL "".
Definition texts (parts : list string) : string := foldr (λ part rest, part +:+ rest) "" parts.

Definition change_status (change : GitChange) : string :=
  match change with
  | Git_Added _ => "A" | Git_Modified _ => "M" | Git_Deleted _ => "D"
  | Git_Renamed score _ _ => "R" +:+ score | Git_Copied score _ _ => "C" +:+ score
  end.
Definition change_paths (change : GitChange) : list string :=
  match change with
  | Git_Added path | Git_Modified path | Git_Deleted path => [path]
  | Git_Renamed _ old new | Git_Copied _ old new => [old; new]
  end.

(** [git diff --raw -z] *)
Definition raw_header (entry : GitEntry) : string := ":" +:+ ge_meta entry +:+ String " " (change_status (ge_change entry)).
Definition print_raw_entry (entry : GitEntry) : string :=
  nul (raw_header entry) +:+ texts (map nul (change_paths (ge_change entry))).
Definition print_raw (entries : list GitEntry) : string := texts (map print_raw_entry entries).

(** [git diff --numstat -z] *)
Definition counts_text (counts : option (N * N)) : string :=
  match counts with
  | Some (added, removed) => pretty added +:+ String TAB (pretty removed +:+ String TAB "")
  | None => "-" +:+ String TAB ("-" +:+ String TAB "")
  end.
Definition print_numstat_entry (entry : GitEntry) : string :=
  match change_paths (ge_change entry) with
  | [path] => nul (counts_text (ge_counts entry) +:+ path)
  | paths => nul (counts_text (ge_counts entry)) +:+ texts (map nul paths)
  end.
Definition print_numstat (entries : list GitEntry) : string := texts (map print_numstat_entry entries).

(** [git diff --patch --unified=0] *)
Definition range_text (start count : N) : string :=
  if (count =? 1)%N then pretty start else pretty start +:+ "," +:+ pretty count.
Definition hunk_header (hunk : GitHunk) : string :=
  "@@ -" +:+ range_text (gh_old_start hunk) (len (gh_removed hunk)) +:+ " +"
  +:+ range_text (gh_new_start hunk) (len (gh_added hunk)) +:+ " @@" +:+ gh_section hunk.
Definition sign_of (kind : ChangedLineKind) : ascii := match kind with Line_Removed => "-" | Line_Added => "+" end.
Definition body_lines (kind : ChangedLineKind) (line : BodyLine) : list string :=
  String (sign_of kind) (bl_text line) :: if bl_unterminated line then ["\ No newline at end of file"] else [].
Definition hunk_lines (hunk : GitHunk) : list string :=
  hunk_header hunk
  :: concat (map (body_lines Line_Removed) (gh_removed hunk)) ++ concat (map (body_lines Line_Added) (gh_added hunk)).
Definition section_lines (entry : GitEntry) : list string :=
  ("diff --git " +:+ ge_title entry) :: ge_headers entry ++ concat (map hunk_lines (ge_hunks entry)).
Definition newline (line : string) : string := line +:+ String NEWLINE "".
Definition print_patch (entries : list GitEntry) : string :=
  texts (map newline (concat (map section_lines entries))).

(** ** What the reader has to make of a description *)
Definition changed_line (kind : ChangedLineKind) (number : N) : ChangedLine :=
  match kind with
  | Line_Removed => {| cl_kind := Line_Removed; cl_old_line := Some number; cl_new_line := None |}
  | Line_Added => {| cl_kind := Line_Added; cl_old_line := None; cl_new_line := Some number |}
  end.
Definition changed_lines (kind : ChangedLineKind) (start : N) (lines : list BodyLine) : list ChangedLine :=
  imap (λ i _, changed_line kind (start + N.of_nat i)%N) lines.

Definition hunk_of (hunk : GitHunk) : ChangeHunk :=
  {| ch_old_start := gh_old_start hunk; ch_old_count := len (gh_removed hunk);
     ch_new_start := gh_new_start hunk; ch_new_count := len (gh_added hunk);
     ch_lines := changed_lines Line_Removed (gh_old_start hunk) (gh_removed hunk) ++ changed_lines Line_Added (gh_new_start hunk) (gh_added hunk) |}.

Definition status_of (change : GitChange) : ChangedFileStatus :=
  match change with
  | Git_Added _ => Status_Added | Git_Modified _ => Status_Modified | Git_Deleted _ => Status_Deleted
  | Git_Renamed _ _ _ => Status_Renamed | Git_Copied _ _ _ => Status_Copied
  end.
Definition old_path_of (change : GitChange) : option string :=
  match change with
  | Git_Added _ => None
  | Git_Modified path | Git_Deleted path | Git_Renamed _ path _ | Git_Copied _ path _ => Some path
  end.
Definition new_path_of (change : GitChange) : option string :=
  match change with
  | Git_Deleted _ => None
  | Git_Added path | Git_Modified path | Git_Renamed _ _ path | Git_Copied _ _ path => Some path
  end.

Definition file_of (source : ChangeSourceLayer) (entry : GitEntry) : ChangedFile :=
  {| cf_status := status_of (ge_change entry);
     cf_old_path := native_path_bytes <$> old_path_of (ge_change entry);
     cf_new_path := native_path_bytes <$> new_path_of (ge_change entry);
     cf_binary := match ge_counts entry with None => true | Some _ => false end;
     cf_hunks := map hunk_of (ge_hunks entry);
     cf_source := source |}.

(** ** Which descriptions the formats can carry *)
Definition lacks (c : ascii) (text : string) : Prop := contains_char c text = false.

Definition carried_change (change : GitChange) : Prop :=
  str_any is_ascii_whitespace (change_status change) = false ∧ lacks NUL (change_status change) ∧
  Forall (λ path, path ≠ "" ∧ lacks NUL path) (change_paths change).

(** The reader takes a removed line whose text starts with [--], or an added one
    whose text starts with [++], for the header of a file. *)
Definition carried_line (kind : ChangedLineKind) (line : BodyLine) : Prop :=
  lacks NEWLINE (bl_text line) ∧ starts_with (String (sign_of kind) (String (sign_of kind) "")) (bl_text line) = false.

Definition carried_hunk (hunk : GitHunk) : Prop :=
  (gh_old_start hunk + len (gh_removed hunk) ≤ 4294967295)%N ∧
  (gh_new_start hunk + len (gh_added hunk) ≤ 4294967295)%N ∧
  lacks NEWLINE (gh_section hunk) ∧ utf8_valid (gh_section hunk) = true ∧
  Forall (carried_line Line_Removed) (gh_removed hunk) ∧ Forall (carried_line Line_Added) (gh_added hunk).

Definition carried (entry : GitEntry) : Prop :=
  lacks NUL (ge_meta entry) ∧ carried_change (ge_change entry) ∧
  lacks NEWLINE (ge_title entry) ∧
  Forall (λ header, lacks NEWLINE header ∧ starts_with "diff --git " header = false ∧ starts_with "@@ " header = false) (ge_headers entry) ∧
  Forall carried_hunk (ge_hunks entry).

(** ** Decimal numbers *)
Lemma pretty_N_char_value d : (d < 10)%N → N_of_ascii (pretty_N_char d) = (48 + d)%N.
Proof.
  intros Hd. assert (Hcases : d = 0%N ∨ d = 1%N ∨ d = 2%N ∨ d = 3%N ∨ d = 4%N ∨ d = 5%N ∨ d = 6%N ∨ d = 7%N ∨ d = 8%N ∨ d = 9%N) by lia.
  by repeat (destruct Hcases as [->|Hcases]); [..|subst].
Qed.

Lemma parse_digits_go limit x s : (x ≤ limit)%N → parse_digits limit 0 (pretty_N_go x s) = parse_digits limit x s.
Proof.
  revert s. induction (N.lt_wf_0 x) as [x _ IH]. intros s Hx. destruct (decide (x = 0%N)) as [->|Hne]; [done|].
  pose proof (N.Div0.mul_div_le x 10). rewrite pretty_N_go_step, IH by (lia || (apply N.div_lt; lia)).
  pose proof (N.mod_lt x 10 ltac:(lia)) as Hm. cbn [parse_digits]. unfold ascii_in. rewrite pretty_N_char_value by done.
  pose proof (N.div_mod' x 10). replace (x / 10 * 10 + (48 + x mod 10 - 48))%N with x by lia.
  by rewrite !(proj2 (N.leb_le _ _)) by lia.
Qed.

Lemma parse_digits_pretty limit n : (n ≤ limit)%N → parse_digits limit 0 (pretty n) = Some n.
Proof.
  intros Hn. unfold pretty, pretty_N. case_decide; [subst; simpl; unfold ascii_in; simpl; by rewrite (proj2 (N.leb_le _ _)) by lia|].
  by rewrite parse_digits_go.
Qed.

Lemma str_any_pretty f n : (∀ c, ascii_in 48 57 c = true → f c = false) → str_any f (pretty (n : N)) = false.
Proof.
  intros Hf. apply not_true_iff_false. intros Hany.
  assert (Hdigits : str_any (λ c, negb (ascii_in 48 57 c)) (pretty n) = false).
  { assert (Hgo : ∀ x s, str_any (λ c, negb (ascii_in 48 57 c)) s = false → str_any (λ c, negb (ascii_in 48 57 c)) (pretty_N_go x s) = false).
    { intros x. induction (N.lt_wf_0 x) as [x _ IH]. intros s Hs. destruct (decide (x = 0%N)) as [->|Hne]; [done|].
      rewrite pretty_N_go_step by lia. apply IH; [apply N.div_lt; lia|]. cbn [str_any]. rewrite Hs, orb_false_r.
      pose proof (N.mod_lt x 10 ltac:(lia)) as Hd. unfold ascii_in. rewrite pretty_N_char_value by done.
      revert Hd. generalize (x mod 10)%N. intros d Hd. by rewrite !(proj2 (N.leb_le _ _)) by lia. }
    unfold pretty, pretty_N. case_decide; [done|]. by apply Hgo. }
  apply not_true_iff_false in Hdigits. apply Hdigits. revert Hany. apply str_any_sub. intros c Hc.
  destruct (ascii_in 48 57 c) eqn:E; [|done]. by rewrite Hf in Hc.
Qed.

Lemma pretty_not_empty n : pretty (n : N) ≠ "".
Proof. intros E. pose proof (parse_digits_pretty n n ltac:(lia)) as Hp. rewrite E in Hp. simpl in Hp. injection Hp as <-. done. Qed.

Lemma parse_u32_pretty n : (n ≤ 4294967295)%N → parse_u32 (pretty n) = Some n.
Proof.
  intros Hn. unfold parse_u32. destruct (strip_prefix "+" (pretty n)) as [rest|] eqn:E.
  - exfalso. apply strip_prefix_Some in E. pose proof (contains_char_pretty "+" n eq_refl) as Hc. rewrite E in Hc. done.
  - rewrite (proj2 (String.eqb_neq _ _)) by apply pretty_not_empty. by apply parse_digits_pretty.
Qed.

(** ** Delimited texts *)
Lemma take_nul_text text rest : lacks NUL text → take_nul (nul text +:+ rest) = Ok (text, rest).
Proof.
  intros Ht. unfold take_nul, nul. rewrite <-string_app_assoc. simpl. by rewrite split_once_char.
Qed.

Lemma nul_not_empty text rest : nul text +:+ rest ≠ "".
Proof. unfold nul. rewrite <-string_app_assoc. by destruct text. Qed.

Lemma nul_length text rest : (String.length rest < String.length (nul text +:+ rest))%nat.
Proof. unfold nul. rewrite !string_length_app. simpl. lia. Qed.

Lemma texts_cons part parts : texts (part :: parts) = part +:+ texts parts.
Proof. done. Qed.

Lemma texts_app parts parts' : texts (parts ++ parts') = texts parts +:+ texts parts'.
Proof. induction parts as [|part parts IH]; [done|]. simpl. by rewrite IH, string_app_assoc. Qed.

Lemma lacks_app c s t : lacks c (s +:+ t) ↔ lacks c s ∧ lacks c t.
Proof. unfold lacks. by rewrite contains_char_app, orb_false_iff. Qed.

Lemma lacks_pretty c n : ascii_in 48 57 c = false → lacks c (pretty (n : N)).
Proof. apply contains_char_pretty. Qed.

(** ** Raw records *)
Definition bare (source : ChangeSourceLayer) (entry : GitEntry) : ChangedFile := with_binary false (with_hunks [] (file_of source entry)).

Lemma split_by_at f s c t : f c = true → ∃ pre, pre ≠ [] ∧ split_by f (s +:+ String c t) = pre ++ split_by f t.
Proof.
  intros Hc. induction s as [|d s (pre & Hne & IH)]; simpl.
  - rewrite Hc. by exists [""].
  - rewrite IH. destruct (f d); [by exists ("" :: pre)|]. destruct pre as [|w ws]; [done|]. by exists (String d w :: ws).
Qed.

Lemma last_split f s c t : f c = true → str_any f t = false → last (split_by f (s +:+ String c t)) = Some t.
Proof. intros Hc Ht. destruct (split_by_at f s c t Hc) as (pre & _ & ->). by rewrite (split_by_none f t), last_snoc. Qed.

Lemma raw_record_entry source entry rest : carried entry →
  raw_record (raw_header entry) (texts (map nul (change_paths (ge_change entry))) +:+ rest) source = Ok (bare source entry, rest).
Proof.
  intros (_ & (Hws & _ & Hpaths) & _). unfold raw_record. cbn [raw_header].
  assert (Hlast : last (split_by is_ascii_whitespace (raw_header entry)) = Some (change_status (ge_change entry))).
  { unfold raw_header. rewrite string_app_assoc. by apply last_split. }
  rewrite Hlast. unfold bare, file_of.
  destruct (ge_change entry); simpl in Hpaths |- *; repeat (apply Forall_cons in Hpaths as [[_ ?] Hpaths]);
    rewrite <-?string_app_assoc; repeat (rewrite take_nul_text by done; simpl); done.
Qed.

Lemma parse_raw_entries source entries fuel files :
  Forall carried entries → (String.length (print_raw entries) ≤ fuel)%nat →
  parse_raw_loop fuel (print_raw entries) source files = Some (Ok (files ++ map (bare source) entries)).
Proof.
  intros Hall. revert fuel files. induction Hall as [|entry entries Hentry Hall IH]; intros fuel files Hfuel.
  { destruct fuel; simpl; by rewrite app_nil_r. }
  change (print_raw (entry :: entries)) with (print_raw_entry entry +:+ print_raw entries) in *.
  unfold print_raw_entry in *. rewrite <-string_app_assoc in *.
  pose proof (nul_length (raw_header entry) (texts (map nul (change_paths (ge_change entry))) +:+ print_raw entries)) as Hlen.
  rewrite string_length_app in Hlen. destruct fuel as [|fuel]; [lia|]. cbn [parse_raw_loop].
  rewrite (proj2 (String.eqb_neq _ _)) by apply nul_not_empty. pose proof Hentry as (Hmeta & (_ & Hstatus & _) & _).
  rewrite take_nul_text by (unfold raw_header; simpl; by apply lacks_app). simpl.
  rewrite raw_record_entry by done. rewrite IH by lia. by rewrite <-app_assoc.
Qed.

(** ** Counts *)
Lemma counts_fields counts path :
  numstat_fields (counts_text counts +:+ path) =
  Some (match counts with Some (added, removed) => (pretty added, pretty removed, path) | None => ("-", "-", path) end).
Proof.
  unfold numstat_fields. destruct counts as [[added removed]|]; [|done]. unfold counts_text.
  rewrite <-string_app_assoc. cbn [String.append]. rewrite split_once_char by by apply lacks_pretty.
  rewrite <-string_app_assoc. cbn [String.append]. by rewrite split_once_char by by apply lacks_pretty.
Qed.

Lemma counts_lack_nul counts : lacks NUL (counts_text counts).
Proof.
  destruct counts as [[added removed]|]; [|done]. unfold counts_text. rewrite lacks_app. split; [by apply lacks_pretty|].
  change (String TAB (?s)) with ("	" +:+ s). rewrite !lacks_app. split; [done|]. split; [by apply lacks_pretty|done].
Qed.

Lemma pretty_not_dash n : String.eqb (pretty (n : N)) "-" = false.
Proof. apply String.eqb_neq. intros E. pose proof (lacks_pretty "-" n eq_refl) as Hl. by rewrite E in Hl. Qed.

Definition counted (source : ChangeSourceLayer) (entry : GitEntry) : ChangedFile := with_hunks [] (file_of source entry).

Lemma numstat_record_entry source entry rest before after :
  carried entry →
  ∃ record rest', print_numstat_entry entry +:+ rest = nul record +:+ rest' ∧ lacks NUL record ∧ record ≠ "" ∧
    numstat_record record rest' (length before) (before ++ bare source entry :: after)
    = Ok (rest, before ++ counted source entry :: after).
Proof.
  intros (_ & (_ & _ & Hpaths) & _).
  assert (Hrun : ∀ path rest', numstat_record (counts_text (ge_counts entry) +:+ path) rest' (length before) (before ++ bare source entry :: after) =
    let files := before ++ counted source entry :: after in
    if String.eqb path "" then let? '(_, rest) := take_nul rest' in let? '(_, rest) := take_nul rest in Ok (rest, files) else Ok (rest', files)).
  { intros path rest'. unfold numstat_record. rewrite counts_fields. cbn [ok_or result_bind].
    assert (Hset : ∀ b, b = match ge_counts entry with None => true | Some _ => false end →
      <[length before := with_binary b (bare source entry)]> (before ++ bare source entry :: after) = before ++ counted source entry :: after).
    { intros b ->. rewrite <-(Nat.add_0_r (length before)), insert_app_r. done. }
    destruct (ge_counts entry) as [[added removed]|] eqn:Ec; cbn [result_bind ok_or]; rewrite list_lookup_middle by done; cbn [result_bind ok_or];
      rewrite Hset; rewrite ?pretty_not_dash; done. }
  assert (Hne : ∀ path, counts_text (ge_counts entry) +:+ path ≠ "").
  { intros path E. apply (f_equal String.length) in E. rewrite string_length_app in E.
    destruct (ge_counts entry) as [[added removed]|]; simpl in E; rewrite ?string_length_app in E; simpl in E; lia. }
  unfold print_numstat_entry.
  assert (Hone : ∀ path, path ≠ "" → lacks NUL path → ∃ record rest',
    nul (counts_text (ge_counts entry) +:+ path) +:+ rest = nul record +:+ rest' ∧ lacks NUL record ∧ record ≠ "" ∧
    numstat_record record rest' (length before) (before ++ bare source entry :: after) = Ok (rest, before ++ counted source entry :: after)).
  { intros path Hp Hn. exists (counts_text (ge_counts entry) +:+ path), rest. split_and!; [done|apply lacks_app; split; [apply counts_lack_nul|done]|apply Hne|].
    rewrite Hrun. simpl. by rewrite (proj2 (String.eqb_neq _ _)). }
  assert (Htwo : ∀ old new, lacks NUL old → lacks NUL new → ∃ record rest',
    (nul (counts_text (ge_counts entry)) +:+ texts (map nul [old; new])) +:+ rest = nul record +:+ rest' ∧ lacks NUL record ∧ record ≠ "" ∧
    numstat_record record rest' (length before) (before ++ bare source entry :: after) = Ok (rest, before ++ counted source entry :: after)).
  { intros old new Ho Hn. exists (counts_text (ge_counts entry)), (nul old +:+ nul new +:+ rest). split_and!.
    - simpl. by rewrite string_app_nil_r, <-!string_app_assoc.
    - apply counts_lack_nul.
    - specialize (Hne ""). by rewrite string_app_nil_r in Hne.
    - specialize (Hrun "" (nul old +:+ nul new +:+ rest)). rewrite string_app_nil_r in Hrun. rewrite Hrun. simpl.
      by do 2 (rewrite take_nul_text by done; simpl). }
  destruct (ge_change entry); simpl in *; repeat (apply Forall_cons in Hpaths as [[? ?] Hpaths]); eauto.
Qed.

Lemma apply_numstat_entries source entries fuel before :
  Forall carried entries → (String.length (print_numstat entries) ≤ fuel)%nat →
  apply_numstat_loop fuel (print_numstat entries) (length before) (before ++ map (bare source) entries)
  = Some (Ok (before ++ map (counted source) entries)).
Proof.
  intros Hall. revert fuel before. induction Hall as [|entry entries Hentry Hall IH]; intros fuel before Hfuel.
  { destruct fuel; simpl; rewrite app_nil_r; by rewrite Nat.eqb_refl. }
  change (print_numstat (entry :: entries)) with (print_numstat_entry entry +:+ print_numstat entries) in *.
  destruct (numstat_record_entry source entry (print_numstat entries) before (map (bare source) entries) Hentry) as (record & rest' & E & Hnul & Hne & Hrun).
  pose proof (nul_length record rest') as Hlen. rewrite <-E in Hlen.
  assert (Hlen' : (String.length (print_numstat entries) < String.length (print_numstat_entry entry +:+ print_numstat entries))%nat).
  { rewrite string_length_app. unfold print_numstat_entry. destruct (change_paths _) as [|? [|? ?]]; unfold nul; rewrite !string_length_app; simpl; lia. }
  destruct fuel as [|fuel]; [lia|]. cbn [apply_numstat_loop]. rewrite E. rewrite (proj2 (String.eqb_neq _ _)) by apply nul_not_empty.
  rewrite take_nul_text by done. rewrite (proj2 (String.eqb_neq _ _)) by done.
  simpl map. rewrite Hrun. replace (S (length before)) with (length (before ++ [counted source entry])) by (rewrite length_app; simpl; lia).
  replace (before ++ counted source entry :: map (bare source) entries)
    with ((before ++ [counted source entry]) ++ map (bare source) entries) by (by rewrite <-app_assoc).
  rewrite IH by lia. by rewrite <-app_assoc.
Qed.

(** ** Lines of a patch *)
Lemma split_inclusive_line line rest : lacks NEWLINE line → split_inclusive (newline line +:+ rest) = newline line :: split_inclusive rest.
Proof.
  unfold newline. induction line as [|c line IH]; [done|]. intros Hl. unfold lacks, contains_char in Hl. cbn [str_any] in Hl.
  apply orb_false_iff in Hl as [Hc Hl]. cbn [String.append split_inclusive]. rewrite Ascii.eqb_sym in Hc. rewrite Hc.
  by rewrite IH.
Qed.

Lemma split_inclusive_lines lines : Forall (lacks NEWLINE) lines → split_inclusive (texts (map newline lines)) = map newline lines.
Proof. induction 1 as [|line lines Hl Hall IH]; [done|]. simpl. by rewrite split_inclusive_line, IH. Qed.

Lemma body_line_header sign text :
  sign ≠ NEWLINE → starts_with (String sign (String sign "")) text = false →
  starts_with (String sign (String sign (String sign ""))) (String sign (text +:+ String NEWLINE "")) = false.
Proof.
  intros Hne Ht. apply not_true_iff_false. rewrite starts_with_spec. intros [rest E]. injection E as E.
  apply not_true_iff_false in Ht. apply Ht, starts_with_spec.
  destruct text as [|c [|d text]]; simpl in E; [by injection E as E1 E2|injection E as E1 E2; by subst|].
  injection E as -> -> E. by exists text.
Qed.

Lemma range_text_plain f start count :
  (∀ c, ascii_in 48 57 c = true → f c = false) → f ","%char = false → str_any f (range_text start count) = false.
Proof.
  intros Hf Hcomma. unfold range_text. destruct (count =? 1)%N; [by apply str_any_pretty|].
  rewrite str_any_app. cbn [str_any String.append]. rewrite Hcomma, !str_any_pretty by done. done.
Qed.

Lemma parse_range_text prefix start count : (start ≤ 4294967295)%N → (count ≤ 4294967295)%N →
  parse_range (prefix +:+ range_text start count) prefix = Ok (start, count).
Proof.
  intros Hs Hc. unfold parse_range. rewrite strip_prefix_app. cbn [ok_or result_bind]. unfold range_text.
  destruct (N.eqb_spec count 1) as [->|Hne].
  - rewrite (proj2 (split_once_char_None ","%char _)) by by apply contains_char_pretty. cbn [result_bind]. by rewrite parse_u32_pretty.
  - change ("," +:+ pretty count) with (String "," (pretty count)). rewrite split_once_char by by apply contains_char_pretty.
    by rewrite !parse_u32_pretty.
Qed.

Definition opened (hunk : GitHunk) (lines : list ChangedLine) : ChangeHunk :=
  {| ch_old_start := gh_old_start hunk; ch_old_count := len (gh_removed hunk);
     ch_new_start := gh_new_start hunk; ch_new_count := len (gh_added hunk); ch_lines := lines |}.

Lemma digit_not_whitespace c : ascii_in 48 57 c = true → is_ascii_whitespace c = false.
Proof.
  unfold ascii_in, is_ascii_whitespace. rewrite andb_true_iff, !N.leb_le. intros [H1 H2].
  rewrite !orb_false_iff, !N.eqb_neq. lia.
Qed.

Lemma digit_ascii c : ascii_in 48 57 c = true → (128 <=? N_of_ascii c)%N = false.
Proof. unfold ascii_in. rewrite andb_true_iff, !N.leb_le, N.leb_gt. lia. Qed.

Lemma parse_hunk_header_text hunk : carried_hunk hunk → parse_hunk_header (newline (hunk_header hunk)) = Ok (opened hunk []).
Proof.
  intros (Hold & Hnew & _ & Hvalid & _). unfold parse_hunk_header, newline, hunk_header.
  set (old := range_text _ (len (gh_removed hunk))). set (new := range_text _ (len (gh_added hunk))).
  assert (Hascii : ∀ f start count, f = is_ascii_whitespace ∨ f = (λ c, (128 <=? N_of_ascii c)%N) → str_any f (range_text start count) = false).
  { intros f start count [->| ->]; apply range_text_plain; auto using digit_not_whitespace, digit_ascii. }
  replace (utf8_valid _) with true.
  2: { symmetry. rewrite <-!string_app_assoc. repeat (rewrite utf8_valid_app; [|first [done|apply ascii_valid, Hascii; by right]]). done. }
  cbn [negb]. unfold split_ascii_whitespace.
  replace ((("@@ -" +:+ old +:+ " +" +:+ new +:+ " @@" +:+ gh_section hunk) +:+ String NEWLINE ""))
    with ("@@" +:+ String " " (("-" +:+ old) +:+ String " " (("+" +:+ new) +:+ String " " ("@@" +:+ gh_section hunk +:+ String NEWLINE ""))))
    by (rewrite <-!string_app_assoc; done).
  assert (Hfield : ∀ sign start count, str_any is_ascii_whitespace sign = false → str_any is_ascii_whitespace (sign +:+ range_text start count) = false).
  { intros sign start count Hs. rewrite str_any_app, Hs. apply Hascii. by left. }
  rewrite !split_by_app by (try apply Hfield; done). simpl.
  change (String "-" old) with ("-" +:+ old). change (String "+" new) with ("+" +:+ new).
  unfold old, new. rewrite (parse_range_text "-"), (parse_range_text "+") by lia. done.
Qed.

Definition with_lines (hunk : ChangeHunk) (lines : list ChangedLine) : ChangeHunk :=
  {| ch_old_start := ch_old_start hunk; ch_old_count := ch_old_count hunk; ch_new_start := ch_new_start hunk;
     ch_new_count := ch_new_count hunk; ch_lines := ch_lines hunk ++ lines |}.

Lemma next_line_exact line : (line + 1 ≤ 4294967295)%N → next_line line = (line + 1)%N.
Proof. unfold next_line. lia. Qed.

Lemma changed_lines_cons kind start line lines :
  changed_lines kind start (line :: lines) = changed_line kind start :: changed_lines kind (start + 1) lines.
Proof.
  unfold changed_lines. rewrite imap_cons. f_equal; [by rewrite N.add_0_r|]. apply imap_ext. intros i x _. simpl. f_equal. lia.
Qed.

(** The position that lines of a kind have, and the state after [n] of them. *)
Definition position (kind : ChangedLineKind) (state : PatchState) : N :=
  match kind with Line_Removed => ps_old_line state | Line_Added => ps_new_line state end.
Definition moved (kind : ChangedLineKind) (state : PatchState) (hunk : ChangeHunk) (n : N) : PatchState :=
  match kind with
  | Line_Removed => with_line state hunk (ps_old_line state + n) (ps_new_line state)
  | Line_Added => with_line state hunk (ps_old_line state) (ps_new_line state + n)
  end.

Lemma patch_body_line kind line state hunk :
  ps_current_hunk state = Some hunk → (position kind state + 1 ≤ 4294967295)%N → carried_line kind line →
  try_fold patch_line state (map newline (body_lines kind line)) = Ok (moved kind state (push_line (changed_line kind (position kind state)) hunk) 1).
Proof.
  intros Hhunk Hlen [_ Hsign].
  assert (Hline : patch_line state (newline (String (sign_of kind) (bl_text line))) =
    Ok (moved kind state (push_line (changed_line kind (position kind state)) hunk) 1)).
  { apply body_line_header in Hsign; [|by destruct kind]. unfold patch_line. rewrite Hhunk. unfold newline. cbn [String.append].
    destruct kind; simpl sign_of in *; [replace (starts_with "---" _) with false|replace (starts_with "+++" _) with false];
      simpl in *; by rewrite next_line_exact. }
  unfold body_lines. cbn [map try_fold]. rewrite Hline. cbn [result_bind]. destruct (bl_unterminated line); [|done]. by destruct kind.
Qed.

Lemma patch_body kind lines state hunk :
  ps_current_hunk state = Some hunk → (position kind state + len lines ≤ 4294967295)%N → Forall (carried_line kind) lines →
  try_fold patch_line state (map newline (concat (map (body_lines kind) lines))) =
  Ok (moved kind state (with_lines hunk (changed_lines kind (position kind state) lines)) (len lines)).
Proof.
  intros Hhunk Hlen Hall. revert state hunk Hhunk Hlen. induction Hall as [|line lines Hline Hall IH]; intros state hunk Hhunk Hlen.
  - simpl. rewrite len_nil. unfold moved, with_line, with_lines. destruct state, hunk. simpl in *. rewrite Hhunk, N.add_0_r, N.add_0_r, app_nil_r. by destruct kind.
  - rewrite len_cons in *. cbn [map concat]. rewrite map_app, try_fold_app. rewrite patch_body_line with (hunk := hunk) by (done || lia). cbn [result_bind].
    rewrite changed_lines_cons.
    destruct kind; simpl in *; erewrite IH by (done || (simpl; lia)); unfold moved, with_line, with_lines, push_line; simpl; rewrite <-app_assoc; do 2 f_equal; lia.
Qed.

(** ** Hunks and sections

    What matters of a state between two hunks is the section it is in, and the
    files once its open hunk is finished. *)
Definition stands_at (state : PatchState) (index : option nat) (files : list ChangedFile) : Prop :=
  ps_file_index state = index ∧ finish_hunk (ps_files state) index (ps_current_hunk state) = Ok files.

Definition add_hunks (hunks : list ChangeHunk) (file : ChangedFile) : ChangedFile := with_hunks (cf_hunks file ++ hunks) file.

Lemma add_hunks_nil file : add_hunks [] file = file.
Proof. unfold add_hunks, with_hunks. destruct file. simpl. by rewrite app_nil_r. Qed.

Lemma patch_hunk hunk state before file after :
  carried_hunk hunk → stands_at state (Some (length before)) (before ++ file :: after) →
  ∃ state', try_fold patch_line state (map newline (hunk_lines hunk)) = Ok state' ∧
    stands_at state' (Some (length before)) (before ++ add_hunks [hunk_of hunk] file :: after).
Proof.
  intros Hcarried [Hindex Hfinish]. pose proof Hcarried as (Hold & Hnew & _ & _ & Hremoved & Hadded).
  unfold hunk_lines. cbn [map try_fold].
  set (opened_state := {| ps_files := before ++ file :: after; ps_file_index := Some (length before);
    ps_current_hunk := Some (opened hunk []); ps_old_line := gh_old_start hunk; ps_new_line := gh_new_start hunk |}).
  assert (Hheader : patch_line state (newline (hunk_header hunk)) = Ok opened_state).
  { unfold patch_line. replace (starts_with "diff --git " _) with false by done.
    replace (starts_with "@@ " _) with true by (symmetry; apply starts_with_spec; by eexists).
    rewrite Hindex, Hfinish. cbn [result_bind]. by rewrite parse_hunk_header_text. }
  rewrite Hheader. cbn [result_bind]. rewrite map_app, try_fold_app.
  rewrite (patch_body Line_Removed _ opened_state (opened hunk [])) by done. cbn [result_bind].
  erewrite (patch_body Line_Added) by done. eexists. split; [done|]. split; [done|]. simpl.
  rewrite list_lookup_middle by done. cbn [ok_or result_bind]. rewrite <-(Nat.add_0_r (length before)), insert_app_r. done.
Qed.

Lemma patch_hunks hunks state before file after :
  Forall carried_hunk hunks → stands_at state (Some (length before)) (before ++ file :: after) →
  ∃ state', try_fold patch_line state (map newline (concat (map hunk_lines hunks))) = Ok state' ∧
    stands_at state' (Some (length before)) (before ++ add_hunks (map hunk_of hunks) file :: after).
Proof.
  intros Hall. revert state file. induction Hall as [|hunk hunks Hhunk Hall IH]; intros state file Hstate.
  - exists state. by rewrite add_hunks_nil.
  - cbn [map concat]. rewrite map_app, try_fold_app.
    destruct (patch_hunk hunk state before file after Hhunk Hstate) as (state1 & -> & Hstate1). cbn [result_bind].
    destruct (IH _ _ Hstate1) as (state2 & Hrun & Hstate2). exists state2. split; [done|].
    unfold add_hunks, with_hunks in *. simpl in *. by rewrite <-app_assoc in Hstate2.
Qed.

Lemma patch_headers headers state :
  ps_current_hunk state = None →
  Forall (λ header, lacks NEWLINE header ∧ starts_with "diff --git " header = false ∧ starts_with "@@ " header = false) headers →
  try_fold patch_line state (map newline headers) = Ok state.
Proof.
  intros Hnone Hall. induction Hall as [|header headers (Hnl & Hdiff & Hhunk) Hall IH]; [done|]. cbn [map try_fold].
  assert (Hmore : ∀ prefix, lacks NEWLINE prefix → starts_with prefix header = false → starts_with prefix (newline header) = false).
  { intros prefix Hp Hno. apply not_true_iff_false. rewrite starts_with_spec. intros [rest E]. apply not_true_iff_false in Hno. apply Hno.
    apply starts_with_spec. unfold newline in E. clear Hno Hdiff Hhunk Hnl IH. revert prefix Hp E. induction header as [|c header IH]; intros [|d prefix] Hp E; simpl in *; try by eexists.
    - injection E as <- E. by unfold lacks in Hp.
    - injection E as <- E. unfold lacks, contains_char in Hp. cbn [str_any] in Hp. apply orb_false_iff in Hp as [_ Hp].
      destruct (IH prefix Hp E) as [rest' ->]. by eexists. }
  unfold patch_line at 1. rewrite !Hmore, Hnone by done. exact IH.
Qed.

Definition section_index (done : nat) : option nat := match done with O => None | S index => Some index end.

Lemma patch_section source entry state before after :
  carried entry → stands_at state (section_index (length before)) (before ++ counted source entry :: after) →
  ∃ state', try_fold patch_line state (map newline (section_lines entry)) = Ok state' ∧
    stands_at state' (Some (length before)) (before ++ file_of source entry :: after).
Proof.
  intros (_ & _ & Htitle & Hheaders & Hhunks) [Hindex Hfinish]. unfold section_lines. cbn [map try_fold].
  set (state1 := {| ps_files := before ++ counted source entry :: after; ps_file_index := Some (length before); ps_current_hunk := None;
    ps_old_line := ps_old_line state; ps_new_line := ps_new_line state |}).
  assert (Hfirst : patch_line state (newline ("diff --git " +:+ ge_title entry)) = Ok state1).
  { unfold patch_line. replace (starts_with "diff --git " _) with true by (symmetry; apply starts_with_spec; unfold newline; rewrite <-string_app_assoc; by eexists).
    rewrite Hindex, Hfinish. cbn [result_bind]. unfold state1. by destruct (length before). }
  rewrite Hfirst. cbn [result_bind]. rewrite map_app, try_fold_app, patch_headers by done. cbn [result_bind].
  destruct (patch_hunks (ge_hunks entry) state1 before (counted source entry) after Hhunks) as (state2 & -> & Hstate2); [by split|].
  by exists state2.
Qed.

Lemma patch_sections source entries state before :
  Forall carried entries → stands_at state (section_index (length before)) (before ++ map (counted source) entries) →
  ∃ state', try_fold patch_line state (map newline (concat (map section_lines entries))) = Ok state' ∧
    stands_at state' (section_index (length before + length entries)) (before ++ map (file_of source) entries).
Proof.
  intros Hall. revert state before. induction Hall as [|entry entries Hentry Hall IH]; intros state before Hstate.
  - exists state. by rewrite Nat.add_0_r.
  - cbn [map concat] in *. rewrite map_app, try_fold_app.
    destruct (patch_section source entry state before (map (counted source) entries) Hentry Hstate) as (state1 & -> & Hstate1). cbn [result_bind].
    destruct (IH state1 (before ++ [file_of source entry])) as (state2 & Hrun & Hstate2).
    { rewrite length_app, Nat.add_1_r, <-app_assoc. exact Hstate1. }
    exists state2. split; [done|]. rewrite length_app, <-app_assoc in Hstate2. simpl in *.
    by replace (length before + S (length entries)) with (length before + 1 + length entries) by lia.
Qed.

Lemma section_lines_lack_newline entry : carried entry → Forall (lacks NEWLINE) (section_lines entry).
Proof.
  intros (_ & _ & Htitle & Hheaders & Hhunks). constructor; [by apply lacks_app|]. apply Forall_app. split.
  - eapply Forall_impl; [exact Hheaders|]. by intros header [? _].
  - apply Forall_concat, Forall_map. eapply Forall_impl; [exact Hhunks|]. intros hunk (_ & _ & Hsection & _ & Hremoved & Hadded). constructor.
    { unfold hunk_header. rewrite !lacks_app. split_and!; try done; apply range_text_plain; try done;
        intros c Hc; apply Ascii.eqb_neq; intros <-; vm_compute in Hc; done. }
    assert (Hbody : ∀ kind lines, Forall (carried_line kind) lines → Forall (lacks NEWLINE) (concat (map (body_lines kind) lines))).
    { intros kind lines Hl. apply Forall_concat, Forall_map. eapply Forall_impl; [exact Hl|]. intros line [Hline _]. unfold body_lines.
      constructor; [change (lacks NEWLINE (String (sign_of kind) "" +:+ bl_text line)); apply lacks_app; split; [by destruct kind|done]|].
      destruct (bl_unterminated line); [|constructor]. by constructor. }
    apply Forall_app. split; by apply Hbody.
Qed.

Lemma apply_patch_entries source entries :
  Forall carried entries → apply_patch (print_patch entries) (map (counted source) entries) = Ok (map (file_of source) entries).
Proof.
  intros Hall. unfold apply_patch, print_patch. rewrite split_inclusive_lines.
  2: { apply Forall_concat, Forall_map. eapply Forall_impl; [exact Hall|]. apply section_lines_lack_newline. }
  match goal with |- context [try_fold patch_line ?s _] => destruct (patch_sections source entries s [] Hall) as (state & -> & Hindex & Hfinish) end.
  { by split. }
  cbn [result_bind]. rewrite Hindex, Hfinish. cbn [result_bind]. rewrite app_nil_l, length_map, Nat.add_0_l.
  destruct (length entries) as [|n]; [done|]. cbn [section_index is_some_and]. by rewrite (proj2 (Nat.leb_gt (S n) n)) by lia.
Qed.

(** C27: What [git diff] reports of a layer of added, modified, deleted, renamed and
    copied files is read back exactly: the files with their paths, statuses, binary
    marks and hunks, and the position of every removed and added line. Excluded are
    what the reader does not handle: removed lines that start with two dashes and added
    ones that start with two pluses, hunk headers that are not UTF-8, and positions
    beyond 32 bits; type changes and unmerged files are no entries of this format. *)
Theorem git_layer_read source entries :
  Forall carried entries →
  parse_layer (print_raw entries) (print_numstat entries) (print_patch entries) source = Some (Ok (map (file_of source) entries)).
Proof.
  intros Hall. unfold parse_layer, parse_raw, apply_numstat. rewrite parse_raw_entries by done. simpl.
  rewrite (apply_numstat_entries source entries _ []) by done. simpl. by rewrite apply_patch_entries.
Qed.

(** ** Any output *)
Lemma take_nul_shorter bytes text rest : take_nul bytes = Ok (text, rest) → (String.length rest < String.length bytes)%nat.
Proof.
  unfold take_nul. intros ->%ok_or_Ok%split_once_Some_app. rewrite !string_length_app. simpl. lia.
Qed.

Lemma take_nul_Err bytes error : take_nul bytes = Err error → error = MalformedGitOutput "missing NUL delimiter".
Proof. unfold take_nul. destruct (split_once _ _); simpl; congruence. Qed.

(** The changes that a reader may make to a file after its raw record. *)
Definition same_change (a b : ChangedFile) : Prop :=
  cf_status a = cf_status b ∧ cf_old_path a = cf_old_path b ∧ cf_new_path a = cf_new_path b ∧ cf_source a = cf_source b.

#[export] Instance same_change_equivalence : Equivalence same_change.
Proof. split; unfold same_change; [by intros a|intros a b; naive_solver|intros a b c; naive_solver congruence]. Qed.

Definition malformed_error (error : ChangeError) : Prop := ∃ message, error = MalformedGitOutput message.

Ltac malformed_here := first [by eexists | match goal with H : take_nul _ = Err _ |- _ => apply take_nul_Err in H as ->; by eexists end].

Lemma raw_record_total header rest source :
  match raw_record header rest source with
  | Ok (file, rest') => (String.length rest' < String.length rest)%nat ∧ cf_source file = source
  | Err error => malformed_error error
  end.
Proof.
  unfold raw_record. destruct (negb (starts_with ":" header)); [by eexists|].
  destruct (last (split_by is_ascii_whitespace header)) as [[|status_byte status]|]; try by eexists.
  destruct (take_nul rest) as [[first_path rest1]|error] eqn:E1; cbn [result_bind]; [|malformed_here]. pose proof (take_nul_shorter _ _ _ E1) as H1.
  repeat (match goal with |- context [if ?b then _ else _] => destruct b end; cbn [result_bind]; [first [by split|
    destruct (take_nul rest1) as [[second_path rest2]|error] eqn:E2; cbn [result_bind];
      [pose proof (take_nul_shorter _ _ _ E2); split; [lia|done]|malformed_here]]|]). by eexists.
Qed.

Lemma parse_raw_total fuel raw source files :
  (String.length raw ≤ fuel)%nat → Forall (λ file, cf_source file = source) files →
  ∃ outcome, parse_raw_loop fuel raw source files = Some outcome ∧
    match outcome with Ok files => Forall (λ file, cf_source file = source) files | Err error => malformed_error error end.
Proof.
  revert raw files. induction fuel as [|fuel IH]; intros raw files Hfuel Hfiles.
  { destruct raw as [|c raw]; [|simpl in Hfuel; lia]. by exists (Ok files). }
  cbn [parse_raw_loop]. destruct (String.eqb raw ""); [by exists (Ok files)|].
  destruct (take_nul raw) as [[header rest]|error] eqn:E; [|eexists; split; [done|]; malformed_here].
  apply take_nul_shorter in E. destruct (String.eqb header ""); [apply IH; [lia|done]|].
  pose proof (raw_record_total header rest source) as Hr. destruct (raw_record header rest source) as [[file rest']|error]; [|by eexists].
  destruct Hr as [Hlen Hsource]. apply IH; [lia|]. apply Forall_snoc. by split.
Qed.

Lemma with_binary_same index b files file :
  files !! index = Some file → Forall2 same_change files (<[index := with_binary b file]> files).
Proof.
  intros Hfile. rewrite <-(list_insert_id files index file) at 1 by done. apply Forall2_insert; [reflexivity|by split_and!].
Qed.

Lemma numstat_record_total record rest index files :
  match numstat_record record rest index files with
  | Ok (rest', files') => (String.length rest' ≤ String.length rest)%nat ∧ Forall2 same_change files files'
  | Err error => malformed_error error
  end.
Proof.
  unfold numstat_record. destruct (numstat_fields record) as [[[added removed] path]|]; cbn [ok_or result_bind]; [|by eexists].
  destruct (files !! index) as [file|] eqn:Efile; cbn [ok_or result_bind]; [|by eexists].
  pose proof (with_binary_same index (String.eqb added "-" || String.eqb removed "-") files file Efile) as Hsame.
  destruct (String.eqb path ""); [|by split].
  destruct (take_nul rest) as [[old rest1]|error] eqn:E1; cbn [result_bind]; [|malformed_here].
  destruct (take_nul rest1) as [[new rest2]|error] eqn:E2; cbn [result_bind]; [|malformed_here].
  apply take_nul_shorter in E1, E2. split; [lia|done].
Qed.

Lemma apply_numstat_total fuel numstat index files :
  (String.length numstat ≤ fuel)%nat →
  ∃ outcome, apply_numstat_loop fuel numstat index files = Some outcome ∧
    match outcome with Ok files' => Forall2 same_change files files' | Err error => malformed_error error end.
Proof.
  assert (Hrefl : ∀ files, Forall2 same_change files files) by (intros l; reflexivity).
  assert (Hend : ∀ index files, ∃ outcome : result ChangeError (list ChangedFile),
    Some (if negb (index =? length files)%nat then malformed "raw and numstat record counts differ" else Ok files) = Some outcome ∧
    match outcome with Ok files' => Forall2 same_change files files' | Err error => malformed_error error end).
  { intros i l. eexists. split; [done|]. destruct (negb _); [by eexists|done]. }
  revert numstat index files. induction fuel as [|fuel IH]; intros numstat index files Hfuel.
  { destruct numstat as [|c numstat]; [|simpl in Hfuel; lia]. apply Hend. }
  cbn [apply_numstat_loop]. destruct (String.eqb numstat ""); [apply Hend|].
  destruct (take_nul numstat) as [[record rest]|error] eqn:E; [|eexists; split; [done|]; malformed_here].
  apply take_nul_shorter in E. destruct (String.eqb record ""); [apply IH; lia|].
  pose proof (numstat_record_total record rest index files) as Hr. destruct (numstat_record record rest index files) as [[rest' files']|error]; [|by eexists].
  destruct Hr as [Hlen Hsame]. destruct (IH rest' (S index) files' ltac:(lia)) as (outcome & -> & Hout). exists outcome. split; [done|].
  destruct outcome; [|done]. by etrans.
Qed.

Lemma finish_hunk_total files index hunk :
  match finish_hunk files index hunk with Ok files' => Forall2 same_change files files' | Err error => malformed_error error end.
Proof.
  destruct hunk as [hunk|]; simpl; [|reflexivity].
  destruct index as [index|]; simpl; [|by eexists]. destruct (files !! index) as [file|] eqn:E; simpl; [|by eexists].
  rewrite <-(list_insert_id files index file) at 1 by done. apply Forall2_insert; [reflexivity|by split_and!].
Qed.

Lemma parse_hunk_header_total line error : parse_hunk_header line = Err error → malformed_error error.
Proof.
  assert (Hrange : ∀ value prefix e, parse_range value prefix = Err e → malformed_error e).
  { intros value prefix e. unfold parse_range. destruct (strip_prefix prefix value) as [v|]; simpl; [|intros [= <-]; by eexists].
    destruct (match split_once "," v with Some _ => _ | None => _ end) as [start count].
    destruct (parse_u32 start); simpl; [|intros [= <-]; by eexists]. destruct (parse_u32 count); simpl; [done|intros [= <-]; by eexists]. }
  unfold parse_hunk_header. destruct (negb (utf8_valid line)); [intros [= <-]; by eexists|].
  destruct (split_ascii_whitespace line) as [|marker [|old [|new fields]]]; try (intros [= <-]; by eexists);
    destruct (negb (String.eqb marker "@@")); try (intros [= <-]; by eexists).
  destruct (parse_range old "-") as [[? ?]|e] eqn:E1; simpl; [|intros [= <-]; by eapply Hrange].
  destruct (parse_range new "+") as [[? ?]|e] eqn:E2; simpl; [done|intros [= <-]; by eapply Hrange].
Qed.

Lemma patch_line_total state line :
  match patch_line state line with
  | Ok state' => Forall2 same_change (ps_files state) (ps_files state')
  | Err error => malformed_error error
  end.
Proof.
  pose proof (finish_hunk_total (ps_files state) (ps_file_index state) (ps_current_hunk state)) as Hf. unfold patch_line.
  destruct (starts_with "diff --git " line); [destruct (finish_hunk _ _ _); simpl; done|].
  destruct (starts_with "@@ " line).
  - destruct (finish_hunk _ _ _); simpl; [|done]. destruct (parse_hunk_header line) as [hunk|e] eqn:E; simpl; [done|by eapply parse_hunk_header_total].
  - destruct (ps_current_hunk state); [|reflexivity]. by repeat match goal with |- context [if ?b then _ else _] => destruct b end.
Qed.

Lemma apply_patch_total patch files :
  match apply_patch patch files with Ok files' => Forall2 same_change files files' | Err error => malformed_error error end.
Proof.
  unfold apply_patch. match goal with |- context [try_fold patch_line ?s _] => assert (Hloop : ∀ lines state, Forall2 same_change files (ps_files state) →
    match try_fold patch_line state lines with Ok state' => Forall2 same_change files (ps_files state') | Err error => malformed_error error end) end.
  { induction lines as [|line lines IH]; intros state Hstate; simpl; [done|]. pose proof (patch_line_total state line) as Hl.
    destruct (patch_line state line) as [state'|]; simpl; [|done]. apply IH. by etrans. }
  match goal with |- context [try_fold patch_line ?s ?lines] => specialize (Hloop lines s ltac:(reflexivity)); destruct (try_fold patch_line s lines) as [state|]; [|done] end.
  cbn [result_bind]. pose proof (finish_hunk_total (ps_files state) (ps_file_index state) (ps_current_hunk state)) as Hf.
  destruct (finish_hunk _ _ _) as [files'|]; simpl; [|done]. destruct (is_some_and _ _); [by eexists|]. by etrans.
Qed.

(** Whatever bytes Git writes, reading a layer ends: with an error that says that
    the output is malformed, or with the files of the raw output, whose paths,
    statuses and layer the other two outputs do not change. *)
Theorem layer_reader_total raw numstat patch source :
  ∃ outcome, parse_layer raw numstat patch source = Some outcome ∧
    match outcome with
    | Ok files => ∃ listed, parse_raw raw source = Some (Ok listed) ∧ Forall2 same_change listed files ∧ Forall (λ file, cf_source file = source) files
    | Err error => malformed_error error
    end.
Proof.
  unfold parse_layer. destruct (parse_raw_total _ raw source [] ltac:(done) ltac:(done)) as (outcome & Hraw & Hsource).
  unfold parse_raw. rewrite Hraw. destruct outcome as [listed|error]; [|by eexists].
  destruct (apply_numstat_total _ numstat 0 listed ltac:(done)) as (outcome & Hnum & Hsame). unfold apply_numstat. rewrite Hnum.
  destruct outcome as [files|error]; [|by eexists]. pose proof (apply_patch_total patch files) as Hp.
  eexists. split; [done|]. destruct (apply_patch patch files) as [files'|error]; [|done]. exists listed. split; [done|].
  assert (Hall : Forall2 same_change listed files') by by etrans. split; [done|]. clear -Hall Hsource.
  induction Hall as [|a b l k Hab Hall IH]; [done|]. apply Forall_cons in Hsource as [Ha Hl]. constructor; [destruct Hab as (_ & _ & _ & <-); done|by apply IH].
Qed.

(** ** Sorting *)
Lemma sort_and_deduplicate_elem_of files file : file ∈ sort_and_deduplicate files ↔ file ∈ files.
Proof. unfold sort_and_deduplicate. by rewrite dedup_equal_elem_of, sort_by_elem_of. Qed.

Module Example_git.
Definition lines (ls : list string) : string := texts (map newline ls).
Definition nuls (ls : list string) : string := texts (map nul ls).
Definition positions (outcome : option (result ChangeError (list ChangedFile))) : option (list (string * list (ChangedLineKind * option N))) :=
  match outcome with
  | Some (Ok files) =>
      Some (map (λ file, (match effective_path file with Some path => np_display path | None => "" end,
        concat (map (λ hunk, map (λ line, (cl_kind line, match cl_kind line with Line_Removed => cl_old_line line | Line_Added => cl_new_line line end)) (ch_lines hunk)) (cf_hunks file)))) files)
  | _ => None
  end.

Definition entries : list GitEntry :=
  [{| ge_meta := "100644 100644 1111111 2222222"; ge_change := Git_Modified "src/a.rs"; ge_counts := Some (2, 1)%N;
      ge_title := "src/a.rs src/a.rs"; ge_headers := ["index 1111111..2222222 100644"; "--- src/a.rs"; "+++ src/a.rs"];
      ge_hunks := [{| gh_old_start := 10; gh_new_start := 10; gh_section := " fn main() {";
                      gh_removed := [{| bl_text := "    old();"; bl_unterminated := false |}];
                      gh_added := [{| bl_text := "    new();"; bl_unterminated := false |}; {| bl_text := "}"; bl_unterminated := true |}] |}] |};
   {| ge_meta := "100644 100644 3333333 3333333"; ge_change := Git_Renamed "100" "b.bin" "c.bin"; ge_counts := None;
      ge_title := "b.bin c.bin"; ge_headers := ["similarity index 100%"; "rename from b.bin"; "rename to c.bin"]; ge_hunks := [] |}].

Lemma entries_carried : Forall carried entries.
Proof.
  unfold entries, carried, carried_change, carried_hunk, carried_line, lacks.
  repeat (constructor || split); by vm_compute.
Qed.

Lemma git_layer_read_witness :
  Forall carried entries ∧
  parse_layer (print_raw entries) (print_numstat entries) (print_patch entries) Layer_Staged = Some (Ok (map (file_of Layer_Staged) entries)).
Proof. split; [exact entries_carried|apply git_layer_read; exact entries_carried]. Defined.

(** A removed SQL comment is taken for a file header: the line behind it gets its
    position, and is reported in its place. *)
Example comment_lines_shift :
  positions (parse_layer (nuls [":100644 100644 1 2 M"; "q.sql"]) (nuls ["1	2	q.sql"])
    (lines ["diff --git q.sql q.sql"; "--- q.sql"; "+++ q.sql"; "@@ -1,2 +1 @@"; "--- a comment"; "-select 1;"; "+select 2;"]) Layer_Worktree)
  = Some [("q.sql", [(Line_Removed, Some 1%N); (Line_Added, Some 1%N)])].
Proof. vm_compute. reflexivity. Qed.

(** Git reports a file that became a link as one record, but as two sections of the
    patch, a deletion and an addition: the whole layer is refused. *)
Example type_change_refused :
  parse_layer (nuls [":100644 120000 1 2 T"; "a"]) (nuls ["1	1	a"])
    (lines ["diff --git a a"; "deleted file mode 100644"; "--- a"; "+++ /dev/null"; "@@ -1 +0,0 @@"; "-text";
            "diff --git a a"; "new file mode 120000"; "--- /dev/null"; "+++ a"; "@@ -0,0 +1 @@"; "+target"]) Layer_Worktree
  = Some (malformed "patch file index exceeds raw output").
Proof. vm_compute. reflexivity. Qed.

(** The function in a hunk header is text of the file; if it is not UTF-8 the whole
    layer is refused. *)
Example latin1_refused :
  parse_layer (nuls [":100644 100644 1 2 M"; "a.c"]) (nuls ["1	1	a.c"])
    (lines ["diff --git a.c a.c"; "--- a.c"; "+++ a.c"; "@@ -3 +3 @@ /* caf" +:+ String (ascii_of_N 233) " */"; "-x"; "+y"]) Layer_Worktree
  = Some (malformed "non-ASCII hunk header").
Proof. vm_compute. reflexivity. Qed.
End Example_git.
