(* ===== verification/GitProvider.v ===== *)
(** * Collecting change sets from Git (changes.rs)

    [GitCliChangeProvider]: the commands that it runs, in order, with every way in
    which one can end, what their outputs are hashed into, and the change set that
    comes of them. What Git does at each call is a parameter. *)
From stdpp Require Import base gmap list strings pretty.
From Stdlib Require Import Ascii.
From S2P Require Import Prelude RustOrd RustStr RustBytes CanonicalText Method Model ChangeSet GitDiff GitFormat.

(** ** Processes *)

(** What comes through a pipe: the bytes that the process wrote, or a failure of
    reading them or of the task that reads. *)
Inductive Stream := Stream_Bytes (bytes : string) | Stream_Failed (source : string) | Stream_TaskFailed (source : string).

(** How a started command ends: the cancellation, the timeout and the end of the
    process race, and the first one wins. *)
Inductive GitRun :=
| Run_SpawnFailed (source : string)
| Run_NoPipe
| Run_Cancelled
| Run_TimedOut
| Run_WaitFailed (source : string)
| Run_Exited (code : option Z) (stdout stderr : Stream).

(** The behaviour of the world at the n-th command. *)
Class Git := {
  git_cancelled : nat → bool;
  git_run : nat → string → list string → GitRun;
  fs_canonicalize : string → result string string;
}.

Record GitCliChangeProvider := { gp_timeout : N; gp_stdout_cap : N; gp_stderr_cap : N }.

Definition default_provider : GitCliChangeProvider :=
  {| gp_timeout := 30000; gp_stdout_cap := 16 * 1024 * 1024; gp_stderr_cap := 256 * 1024 |}.

Record Command := { cmd_worktree : string; cmd_args : list string }.

(** A step of the provider leaves the commands that were started so far. *)
Notation step := (method (list Command) ChangeError).

Definition str_len (s : string) : N := N.of_nat (String.length s).

Definition read_bounded (stream : Stream) (limit : N) : result ChangeError string :=
  match stream with
  | Stream_TaskFailed source => Err (ReaderTask source)
  | Stream_Failed source => Err (ReadFailed source)
  | Stream_Bytes bytes =>
      let maximum := saturating_add limit 1 in
      let output := str_take (N.to_nat maximum) bytes in
      if (limit <? str_len output)%N then Err (OutputLimit "stream" limit) else Ok output
  end.

(** [value.trim_end_matches(['\r', '\n'])] *)
Fixpoint trim_line_end (s : string) : string :=
  match s with
  | EmptyString => EmptyString
  | String c s =>
      match trim_line_end s with
      | EmptyString => if (N_of_ascii c =? 10)%N || (N_of_ascii c =? 13)%N then EmptyString else String c EmptyString
      | t => String c t
      end
  end.

Section provider.
Context `{Git} (provider : GitCliChangeProvider).

Definition git (worktree : string) (args : list string) : step string := λ history,
  if (gp_stdout_cap provider =? 0)%N || (gp_stderr_cap provider =? 0)%N then (history, Err InvalidLimit)
  else if git_cancelled (length history) then (history, Err GitCancelled)
  else
    (history ++ [{| cmd_worktree := worktree; cmd_args := args |}],
     match git_run (length history) worktree args with
     | Run_SpawnFailed source => Err (Spawn source)
     | Run_NoPipe => Err MissingPipe
     | Run_Cancelled => Err GitCancelled
     | Run_TimedOut => Err (GitTimeout (gp_timeout provider))
     | Run_WaitFailed source => Err (Wait source)
     | Run_Exited code stdout stderr =>
         let? stdout := read_bounded stdout (gp_stdout_cap provider) in
         let? stderr := read_bounded stderr (gp_stderr_cap provider) in
         if bool_decide (code = Some 0%Z) then Ok stdout else Err (GitFailed code (from_utf8_lossy stderr))
     end).

Definition text_query (worktree : string) (args : list string) : step string :=
  let! bytes := git worktree args in
  m_read (λ _, if utf8_valid bytes then Ok (trim_line_end bytes) else Err NonUtf8Metadata).

(** The result of a step as a value. *)
Definition attempt {A} (m : step A) : step (result ChangeError A) := λ history, let '(history, outcome) := m history in (history, Ok outcome).

Definition diff_prefix (mode : string) : list string :=
  ["diff"; mode; "-z"; "--find-renames"; "--find-copies"; "--no-ext-diff"; "--no-color"].

(** ** Layers *)
Record LayerResult := { lr_files : list ChangedFile; lr_material : string }.
Definition no_layer : LayerResult := {| lr_files := []; lr_material := "" |}.

Definition framed_material (parts : list string) : string :=
  texts (map (λ part, u64_le_bytes (str_len part) +:+ part) parts).

(** [layer_reader_total]: the reader always has an outcome. *)
Definition read_layer (raw numstat patch : string) (source : ChangeSourceLayer) : result ChangeError (list ChangedFile) :=
  default (malformed "unreachable") (parse_layer raw numstat patch source).

Definition collect_layer (worktree : string) (source : ChangeSourceLayer) (revision_args : list string) : step LayerResult :=
  let! raw := git worktree (diff_prefix "--raw" ++ revision_args) in
  let! numstat := git worktree (diff_prefix "--numstat" ++ revision_args) in
  let! patch := git worktree (diff_prefix "--patch" ++ ["--unified=0"; "--no-prefix"] ++ revision_args) in
  m_read (λ _,
    let? files := read_layer raw numstat patch source in
    Ok {| lr_files := files; lr_material := framed_material [raw; numstat; patch] |}).

Definition collect_untracked (worktree : string) : step LayerResult :=
  let! output := git worktree ["ls-files"; "--others"; "--exclude-standard"; "-z"] in
  m_read (λ _, Ok {| lr_files := untracked_files output; lr_material := framed_material [output] |}).

(** ** The whole collection *)
Definition native_path (path : string) : NativePath :=
  {| np_encoding := UnixBytes; np_bytes := byte_list path; np_display := from_utf8_lossy path |}.

Definition canonicalize (path : string) : result ChangeError string :=
  match fs_canonicalize path with Ok canonical => Ok canonical | Err source => Err (Canonicalize path source) end.

(** What is known of the checkout before its layers are collected. *)
Record CheckoutState := {
  co_worktree : string;
  co_common : string;
  co_head_ref : option string;
  co_head_sha : string;
}.

Definition is_local (scope : ChangeScope) : bool :=
  match scope with Scope_Unstaged | Scope_Staged | Scope_All => true | _ => false end.

Definition inspect_checkout (request : ChangeRequest) : step CheckoutState :=
  let! top := text_query (rq_worktree request) ["rev-parse"; "--show-toplevel"] in
  let! worktree := m_read (λ _, canonicalize top) in
  let! common := text_query worktree ["rev-parse"; "--git-common-dir"] in
  let common_path := if starts_with "/" common then common else path_join worktree common in
  let! canonical_common := m_read (λ _, canonicalize common_path) in
  let! symbolic := attempt (text_query worktree ["symbolic-ref"; "-q"; "HEAD"]) in
  let! head_ref :=
    m_read (λ _, match symbolic with
                 | Ok value => Ok (Some value)
                 | Err (GitFailed _ _) => Ok None
                 | Err error => Err error
                 end) in
  let! commit := attempt (text_query worktree ["rev-parse"; "--verify"; "HEAD^{commit}"]) in
  let! head_sha :=
    match commit with
    | Ok commit => m_read (λ _, Ok commit)
    | Err (GitFailed code stderr) =>
        if bool_decide (is_Some head_ref) && is_local (rq_scope request)
        then text_query worktree ["hash-object"; "-t"; "tree"; "--stdin"]
        else m_read (λ _, Err (GitFailed code stderr))
    | Err error => m_read (λ _, Err error)
    end in
  m_read (λ _, Ok {| co_worktree := worktree; co_common := canonical_common; co_head_ref := head_ref; co_head_sha := head_sha |}).

Record Layers := {
  ly_staged : LayerResult;
  ly_worktree : LayerResult;
  ly_committed : LayerResult;
  ly_base_ref : option string;
  ly_head_ref : option string;
  ly_head_sha : string;
}.

Definition local_layers (staged worktree : LayerResult) (head_sha : string) : Layers :=
  {| ly_staged := staged; ly_worktree := worktree; ly_committed := no_layer;
     ly_base_ref := None; ly_head_ref := Some "HEAD"; ly_head_sha := head_sha |}.
Definition committed_layers (committed : LayerResult) (base_ref head_ref : option string) (head_sha : string) : Layers :=
  {| ly_staged := no_layer; ly_worktree := no_layer; ly_committed := committed;
     ly_base_ref := base_ref; ly_head_ref := head_ref; ly_head_sha := head_sha |}.

Definition collect_layers (scope : ChangeScope) (worktree head_sha : string) : step Layers :=
  match scope with
  | Scope_Unstaged =>
      let! layer := collect_layer worktree Layer_Worktree [] in
      m_read (λ _, Ok (local_layers no_layer layer head_sha))
  | Scope_Staged =>
      let! layer := collect_layer worktree Layer_Staged ["--cached"] in
      m_read (λ _, Ok (local_layers layer no_layer head_sha))
  | Scope_All =>
      let! staged := collect_layer worktree Layer_Staged ["--cached"] in
      let! tracked := collect_layer worktree Layer_Worktree [] in
      let! untracked := collect_untracked worktree in
      m_read (λ _,
        Ok (local_layers staged
              {| lr_files := lr_files tracked ++ lr_files untracked; lr_material := lr_material tracked +:+ lr_material untracked |}
              head_sha))
  | Scope_Compare reference =>
      let! layer := collect_layer worktree Layer_Commit [reference +:+ "...HEAD"] in
      m_read (λ _, Ok (committed_layers layer (Some reference) (Some "HEAD") head_sha))
  | Scope_Commit sha =>
      let! layer := collect_layer worktree Layer_Commit [sha +:+ "^!"] in
      let! resolved := text_query worktree ["rev-parse"; "--verify"; sha +:+ "^{commit}"] in
      m_read (λ _, Ok (committed_layers layer None (Some sha) resolved))
  | Scope_Range base head =>
      let! layer := collect_layer worktree Layer_Commit [base +:+ ".." +:+ head] in
      let! resolved := text_query worktree ["rev-parse"; "--verify"; head +:+ "^{commit}"] in
      m_read (λ _, Ok (committed_layers layer (Some base) (Some head) resolved))
  | Scope_PullRequest _ _ => m_read (λ _, Err PullRequestUnsupported)
  end.
End provider.

(** ** Fingerprints *)
Section fingerprints.
Context `{Blake3}.

Definition hash_material (namespace material : string) : string := blake3_hex (namespace +:+ String NUL material).

(** What identifies a change set besides its outputs, and how it is serialised. *)
Record Identity := {
  id_repo_id : RepoId;
  id_checkout_id : CheckoutId;
  id_worktree : NativePath;
  id_common : NativePath;
  id_scope : ChangeScope;
  id_checkout_head_sha : string;
  id_base_ref : option string;
  id_head_ref : option string;
  id_head_sha : string;
  id_workspace_manifest_hash : string;
  id_contract_registry_hash : string;
  id_analyzer_versions : AnalyzerVersions;
}.
Class IdentityCodec := identity_to_vec : Identity → result string string.

Definition exact_material (identity : string) (materials : list string) : string :=
  "code-system-graph-exact-diff-v1" +:+ u64_le_bytes (str_len identity) +:+ identity +:+ framed_material materials.

Definition exact_fingerprint `{IdentityCodec} (identity : Identity) (materials : list string) : result ChangeError string :=
  match identity_to_vec identity with
  | Ok bytes => Ok (blake3_hex (exact_material bytes materials))
  | Err source => Err (FingerprintEncoding source)
  end.

Definition identity_of (request : ChangeRequest) (checkout : CheckoutState) (layers : Layers) : Identity := {|
  id_repo_id := rq_repo_id request;
  id_checkout_id := rq_checkout_id request;
  id_worktree := native_path (co_worktree checkout);
  id_common := native_path (co_common checkout);
  id_scope := rq_scope request;
  id_checkout_head_sha := co_head_sha checkout;
  id_base_ref := ly_base_ref layers;
  id_head_ref := ly_head_ref layers;
  id_head_sha := ly_head_sha layers;
  id_workspace_manifest_hash := rq_workspace_manifest_hash request;
  id_contract_registry_hash := rq_contract_registry_hash request;
  id_analyzer_versions := rq_analyzer_versions request;
|}.

Definition assemble `{IdentityCodec} (request : ChangeRequest) (checkout : CheckoutState) (layers : Layers) : result ChangeError ChangeSet :=
  let staged := ly_staged layers in
  let worktree := ly_worktree layers in
  let committed := ly_committed layers in
  let? fingerprint :=
    exact_fingerprint (identity_of request checkout layers) [lr_material staged; lr_material worktree; lr_material committed] in
  Ok {|
    cs_repo_id := rq_repo_id request;
    cs_checkout_id := rq_checkout_id request;
    cs_worktree := native_path (co_worktree checkout);
    cs_git_common_dir := native_path (co_common checkout);
    cs_scope := rq_scope request;
    cs_checkout_head_ref := co_head_ref checkout;
    cs_checkout_head_sha := co_head_sha checkout;
    cs_base_ref := ly_base_ref layers;
    cs_head_ref := ly_head_ref layers;
    cs_head_sha := ly_head_sha layers;
    cs_staged_hash := hash_material "code-system-graph-staged-v1" (lr_material staged);
    cs_worktree_hash := hash_material "code-system-graph-worktree-v1" (lr_material worktree);
    cs_exact_diff_fingerprint := fingerprint;
    cs_workspace_manifest_hash := rq_workspace_manifest_hash request;
    cs_contract_registry_hash := rq_contract_registry_hash request;
    cs_analyzer_versions := rq_analyzer_versions request;
    cs_files := sort_and_deduplicate (lr_files staged ++ lr_files worktree ++ lr_files committed);
  |}.

Definition changes `{Git, IdentityCodec} (provider : GitCliChangeProvider) (request : ChangeRequest) : step ChangeSet :=
  do! m_read (λ _, validate_scope (rq_scope request)) in
  let! checkout := inspect_checkout provider request in
  let! layers := collect_layers provider (rq_scope request) (co_worktree checkout) (co_head_sha checkout) in
  m_read (λ _, assemble request checkout layers).
End fingerprints.

(** ** What the provider runs *)
Definition runs {A} (P : Command → Prop) (n : nat) (m : step A) : Prop :=
  ∀ history, ∃ commands, (m history).1 = history ++ commands ∧ Forall P commands ∧ (length commands ≤ n)%nat.

Lemma runs_read {A} P n (f : list Command → result ChangeError A) : runs P n (m_read f).
Proof. intros history. exists []. rewrite app_nil_r. split_and!; [done|constructor|simpl; lia]. Qed.

Lemma runs_bind {A B} P n n' (m : step A) (k : A → step B) : runs P n m → (∀ a, runs P n' (k a)) → runs P (n + n') (m_bind m k).
Proof.
  intros Hm Hk history. destruct (Hm history) as (commands & E & Hp & Hn). unfold m_bind. destruct (m history) as [history' [a|e]]; simpl in E; subst.
  - destruct (Hk a (history ++ commands)) as (more & -> & Hp' & Hn'). exists (commands ++ more). rewrite app_assoc.
    split_and!; [done|by apply Forall_app|rewrite length_app; lia].
  - exists commands. split_and!; [done..|lia].
Qed.

Lemma runs_weaken {A} (P Q : Command → Prop) n n' (m : step A) : runs P n m → (∀ command, P command → Q command) → (n ≤ n')%nat → runs Q n' m.
Proof.
  intros Hm HPQ Hn history. destruct (Hm history) as (commands & E & Hp & Hl). exists commands. split_and!; [done| |lia]. by eapply Forall_impl.
Qed.

Lemma runs_attempt {A} P n (m : step A) : runs P n m → runs P n (attempt m).
Proof. intros Hm history. destruct (Hm history) as (commands & E & H). exists commands. unfold attempt. by destruct (m history). Qed.

Section confined.
Context `{Git} (provider : GitCliChangeProvider).

Definition is_command (args : list string) (command : Command) : Prop := cmd_args command = args.

Lemma runs_git worktree args : runs (is_command args) 1 (git provider worktree args).
Proof.
  intros history. unfold git. destruct (_ || _); [by exists []; rewrite app_nil_r; split_and!; [done|constructor|simpl; lia]|].
  destruct (git_cancelled _); [by exists []; rewrite app_nil_r; split_and!; [done|constructor|simpl; lia]|].
  eexists. split_and!; [done|by repeat constructor|simpl; lia].
Qed.

Lemma runs_text worktree args : runs (is_command args) 1 (text_query provider worktree args).
Proof. apply (runs_bind _ 1 0); [apply runs_git|]. intros. apply runs_read. Qed.

(** The forms of the commands. *)
Inductive read_only (scope : ChangeScope) : list string → Prop :=
| RO_Toplevel : read_only scope ["rev-parse"; "--show-toplevel"]
| RO_Common : read_only scope ["rev-parse"; "--git-common-dir"]
| RO_Symbolic : read_only scope ["symbolic-ref"; "-q"; "HEAD"]
| RO_Head : read_only scope ["rev-parse"; "--verify"; "HEAD^{commit}"]
| RO_EmptyTree : read_only scope ["hash-object"; "-t"; "tree"; "--stdin"]
| RO_Untracked : read_only scope ["ls-files"; "--others"; "--exclude-standard"; "-z"]
| RO_Diff mode options revisions :
    (mode, options) ∈ [("--raw", []); ("--numstat", []); ("--patch", ["--unified=0"; "--no-prefix"])] →
    revisions ∈ match scope with
                | Scope_Unstaged => [[]]
                | Scope_Staged => [["--cached"]]
                | Scope_All => [["--cached"]; []]
                | Scope_Compare reference => [[reference +:+ "...HEAD"]]
                | Scope_Commit sha => [[sha +:+ "^!"]]
                | Scope_Range base head => [[base +:+ ".." +:+ head]]
                | Scope_PullRequest _ _ => []
                end →
    read_only scope (diff_prefix mode ++ options ++ revisions)
| RO_Resolve reference :
    match scope with Scope_Commit sha => reference = sha | Scope_Range _ head => reference = head | _ => False end →
    read_only scope ["rev-parse"; "--verify"; reference +:+ "^{commit}"].

Definition runs_read_only {A} (scope : ChangeScope) (n : nat) (m : step A) : Prop := runs (λ command, read_only scope (cmd_args command)) n m.

Lemma runs_query scope worktree args : read_only scope args → runs_read_only scope 1 (text_query provider worktree args).
Proof. intros Hargs. eapply runs_weaken; [apply runs_text| |done]. by intros command ->. Qed.

Lemma runs_bind_read {A B} scope n (m : step A) (f : A → list Command → result ChangeError B) :
  runs_read_only scope n m → runs_read_only scope n (m_bind m (λ a, m_read (f a))).
Proof. intros Hm. rewrite <-(Nat.add_0_r n). apply runs_bind; [done|]. intros. apply runs_read. Qed.

Lemma runs_layer scope worktree source revisions :
  (∀ mode options, (mode, options) ∈ [("--raw", []); ("--numstat", []); ("--patch", ["--unified=0"; "--no-prefix"])] →
    read_only scope (diff_prefix mode ++ options ++ revisions)) →
  runs_read_only scope 3 (collect_layer provider worktree source revisions).
Proof.
  intros Hargs. unfold collect_layer.
  assert (Hgit : ∀ mode options, (mode, options) ∈ [("--raw", []); ("--numstat", []); ("--patch", ["--unified=0"; "--no-prefix"])] →
    runs_read_only scope 1 (git provider worktree (diff_prefix mode ++ options ++ revisions))).
  { intros mode options Hin. eapply runs_weaken; [apply runs_git| |done]. intros command ->. by apply Hargs. }
  apply (runs_bind _ 1 2); [apply (Hgit "--raw" []); by left|]. intros raw.
  apply (runs_bind _ 1 1); [apply (Hgit "--numstat" []); right; by left|]. intros numstat.
  apply runs_bind_read, (Hgit "--patch" ["--unified=0"; "--no-prefix"]). do 2 right. by left.
Qed.

Lemma runs_inspect request : runs_read_only (rq_scope request) 5 (inspect_checkout provider request).
Proof.
  unfold inspect_checkout. apply (runs_bind _ 1 4); [apply runs_query; constructor|]. intros top.
  apply (runs_bind _ 0 4); [apply runs_read|]. intros worktree.
  apply (runs_bind _ 1 3); [apply runs_query; constructor|]. intros common.
  apply (runs_bind _ 0 3); [apply runs_read|]. intros canonical.
  apply (runs_bind _ 1 2); [apply runs_attempt, runs_query; constructor|]. intros symbolic.
  apply (runs_bind _ 0 2); [apply runs_read|]. intros head_ref.
  apply (runs_bind _ 1 1); [apply runs_attempt, runs_query; constructor|]. intros commit.
  apply runs_bind_read. destruct commit as [commit|[]]; try apply runs_read.
  destruct (_ && _); [apply runs_query; constructor|apply runs_read].
Qed.

Lemma runs_layers scope worktree head_sha : runs_read_only scope 7 (collect_layers provider scope worktree head_sha).
Proof.
  assert (Hlayer : ∀ source revisions, (∀ mode options, (mode, options) ∈ [("--raw", []); ("--numstat", []); ("--patch", ["--unified=0"; "--no-prefix"])] →
    read_only scope (diff_prefix mode ++ options ++ revisions)) → runs_read_only scope 3 (collect_layer provider worktree source revisions)).
  { intros. by apply runs_layer. }
  assert (Hshort : ∀ (A : Type) (m : step A) n, (n ≤ 7)%nat → runs_read_only scope n m → runs_read_only scope 7 m).
  { intros A m n Hn Hm. by eapply runs_weaken. }
  destruct scope; unfold collect_layers.
  - apply (Hshort _ _ 3); [lia|]. apply runs_bind_read, Hlayer. intros. econstructor; [done|by left].
  - apply (Hshort _ _ 3); [lia|]. apply runs_bind_read, Hlayer. intros. econstructor; [done|by left].
  - apply (runs_bind _ 3 4); [apply Hlayer; intros; econstructor; [done|by left]|]. intros staged.
    apply (runs_bind _ 3 1); [apply Hlayer; intros; econstructor; [done|right; by left]|]. intros tracked.
    apply runs_bind_read. apply runs_bind_read. eapply runs_weaken; [apply runs_git| |done]. intros command ->. constructor.
  - apply (Hshort _ _ 3); [lia|]. apply runs_bind_read, Hlayer. intros. econstructor; [done|by left].
  - apply (Hshort _ _ 4); [lia|]. apply (runs_bind _ 3 1); [apply Hlayer; intros; econstructor; [done|by left]|]. intros layer.
    apply runs_bind_read, runs_query. by constructor.
  - apply (Hshort _ _ 4); [lia|]. apply (runs_bind _ 3 1); [apply Hlayer; intros; econstructor; [done|by left]|]. intros layer.
    apply runs_bind_read, runs_query. by constructor.
  - apply runs_read.
Qed.
End confined.

(** The strings of a scope that end up in arguments. *)
Definition references (scope : ChangeScope) : list string :=
  match scope with
  | Scope_Compare reference => [reference]
  | Scope_Commit sha => [sha]
  | Scope_Range base head => [base; head]
  | _ => []
  end.

Lemma validated_references scope : validate_scope scope = Ok tt → Forall plain_ref (references scope).
Proof.
  destruct scope as [| | |reference|sha|base head|]; simpl; try (intros; constructor; fail).
  - intros Hr. constructor; [by apply validate_ref_plain|constructor].
  - intros Hs. constructor; [by apply validate_sha_plain|constructor].
  - intros ([] & Hb & Hh)%result_bind_Ok. repeat constructor; by apply validate_ref_plain.
Qed.

Definition OPTIONS : list string :=
  ["--show-toplevel"; "--git-common-dir"; "-q"; "--verify"; "-t"; "--stdin"; "--others"; "--exclude-standard"; "-z"; "--raw"; "--numstat";
   "--patch"; "--unified=0"; "--no-prefix"; "--find-renames"; "--find-copies"; "--no-ext-diff"; "--no-color"; "--cached"].

Lemma plain_not_option reference suffix : plain_ref reference → starts_with "-" (reference +:+ suffix) = false.
Proof.
  intros (Hne & Hdash & _). apply not_true_iff_false. rewrite starts_with_spec. intros [rest E]. destruct reference as [|c reference]; [done|].
  injection E as -> E. apply Hdash. by exists reference.
Qed.

Lemma read_only_options scope args arg :
  Forall plain_ref (references scope) → read_only scope args → arg ∈ args → starts_with "-" arg = true → arg ∈ OPTIONS.
Proof.
  intros Hrefs Hargs Harg Hdash.
  assert (Hlit : ∀ l, forallb (λ a, negb (starts_with "-" a) || bool_decide (a ∈ OPTIONS)) l = true → arg ∈ l → arg ∈ OPTIONS).
  { intros l Hl Hin. apply forallb_In with (x := arg) in Hl; [|done]. rewrite Hdash in Hl. by apply bool_decide_eq_true in Hl. }
  assert (Hplain : ∀ reference suffix, reference ∈ references scope → arg ≠ reference +:+ suffix).
  { intros reference suffix Hin ->. rewrite Forall_forall in Hrefs. by rewrite plain_not_option in Hdash by by apply Hrefs. }
  destruct Hargs as [| | | | | |mode options revisions Hmode Hrev|reference Href]; try (eapply Hlit; [|exact Harg]; vm_compute; reflexivity).
  - apply elem_of_app in Harg as [Harg|[Harg|Harg]%elem_of_app].
    + rewrite !elem_of_cons, elem_of_nil in Hmode. destruct Hmode as [[= -> ->]|[[= -> ->]|[[= -> ->]|[]]]]; (eapply Hlit; [|exact Harg]; vm_compute; reflexivity).
    + rewrite !elem_of_cons, elem_of_nil in Hmode. destruct Hmode as [[= -> ->]|[[= -> ->]|[[= -> ->]|[]]]]; (eapply Hlit; [|exact Harg]; vm_compute; reflexivity).
    + destruct scope; rewrite ?elem_of_cons, ?elem_of_nil in Hrev; try (destruct Hrev as [->|Hrev]); try (destruct Hrev as [->|[]]);
        try done; try (eapply Hlit; [|exact Harg]; vm_compute; reflexivity); apply list_elem_of_singleton in Harg; exfalso; eapply Hplain; try done; by left.
  - rewrite !elem_of_cons, elem_of_nil in Harg. destruct Harg as [Harg|[Harg|[Harg|[]]]].
    + apply (Hlit ["rev-parse"]); [done|by apply list_elem_of_singleton].
    + apply (Hlit ["--verify"]); [done|by apply list_elem_of_singleton].
    + exfalso. destruct scope as [| | | |sha|base head|]; try done; subst reference; [apply (Hplain sha _ ltac:(by left) Harg)|apply (Hplain head _ ltac:(right; by left) Harg)].
Qed.

(** Collecting a change set runs at most twelve commands of Git, all of forms
    that only read; an unaccepted scope runs none. Whatever the references of the
    request are, every option among the arguments is one of the fixed ones. *)
Theorem commands_read_only `{Blake3, Git, IdentityCodec} provider request :
  let commands := (changes provider request []).1 in
  (length commands ≤ 12)%nat ∧ Forall (λ command, read_only (rq_scope request) (cmd_args command)) commands ∧
  (commands ≠ [] → validate_scope (rq_scope request) = Ok tt) ∧
  ∀ command arg, command ∈ commands → arg ∈ cmd_args command → starts_with "-" arg = true → arg ∈ OPTIONS.
Proof.
  simpl. destruct (validate_scope (rq_scope request)) as [[]|error] eqn:Hvalid.
  2: { unfold changes, m_bind, m_read. rewrite Hvalid. simpl. split_and!; [lia|constructor|done|]. by intros command arg []%elem_of_nil. }
  assert (Hruns : runs_read_only (rq_scope request) 12 (changes provider request)).
  { apply (runs_bind _ 0 12); [apply runs_read|]. intros _. apply (runs_bind _ 5 7); [apply runs_inspect|]. intros checkout.
    apply (runs_bind _ 7 0); [apply runs_layers|]. intros layers. apply runs_read. }
  destruct (Hruns []) as (commands & -> & Hcommands & Hlen). rewrite app_nil_l. split_and!; [done..|].
  intros command arg Hin Harg Hdash. rewrite Forall_forall in Hcommands.
  eapply read_only_options; [by apply validated_references|by apply Hcommands|done..].
Qed.

(** ** What validity says about the outputs *)
Definition fits (limit : N) (part : string) : Prop := (str_len part ≤ limit)%N.

Lemma framed_material_app parts parts' : framed_material (parts ++ parts') = framed_material parts +:+ framed_material parts'.
Proof. unfold framed_material. by rewrite map_app, texts_app. Qed.

Lemma framed_cons part parts : framed_material (part :: parts) = u64_le_bytes (str_len part) +:+ (part +:+ framed_material parts).
Proof. unfold framed_material. cbn [map]. by rewrite texts_cons, <-string_app_assoc. Qed.

Lemma string_app_length_inj s t s' t' : String.length s = String.length s' → s +:+ t = s' +:+ t' → s = s' ∧ t = t'.
Proof.
  revert s'. induction s as [|c s IH]; intros [|c' s'] Hlen; simpl in *; try done. injection Hlen as Hlen. intros [= <- E].
  destruct (IH s' Hlen E) as [-> ->]. done.
Qed.

Lemma framed_piece part part' rest rest' : fits u64_max part → fits u64_max part' →
  u64_le_bytes (str_len part) +:+ (part +:+ rest) = u64_le_bytes (str_len part') +:+ (part' +:+ rest') → part = part' ∧ rest = rest'.
Proof.
  intros Hp Hp' E. apply string_app_length_inj in E as [Elen E]; [|unfold u64_le_bytes; by rewrite !le_bytes_length].
  apply u64_le_bytes_inj in Elen; [|done..]. apply string_app_length_inj in E; [done|]. unfold str_len in Elen. lia.
Qed.

Lemma framed_material_inj parts parts' :
  Forall (fits u64_max) parts → Forall (fits u64_max) parts' → framed_material parts = framed_material parts' → parts = parts'.
Proof.
  intros Hall. revert parts'. induction Hall as [|part parts Hp Hall IH]; intros parts' Hall' E.
  - destruct parts' as [|part' parts']; [done|]. rewrite framed_cons in E. apply (f_equal String.length) in E.
    rewrite string_length_app in E. unfold u64_le_bytes in E. rewrite le_bytes_length in E. simpl in E. lia.
  - destruct Hall' as [|part' parts' Hp' Hall'].
    + rewrite framed_cons in E. apply (f_equal String.length) in E.
      rewrite string_length_app in E. unfold u64_le_bytes in E. rewrite le_bytes_length in E. simpl in E. lia.
    + rewrite !framed_cons in E. apply framed_piece in E as [-> E]; [|done..]. f_equal. by apply IH.
Qed.

Lemma framed_length parts limit : Forall (fits limit) parts → (str_len (framed_material parts) ≤ N.of_nat (length parts) * (8 + limit))%N.
Proof.
  induction 1 as [|part parts Hp Hall IH]; [done|]. rewrite framed_cons. unfold fits, str_len in *.
  rewrite !string_length_app. unfold u64_le_bytes. rewrite le_bytes_length. simpl length. lia.
Qed.

(** A layer is what its outputs say; there are at most four of them. *)
Inductive reads (source : ChangeSourceLayer) : list string → LayerResult → Prop :=
| Reads_None : reads source [] no_layer
| Reads_Tracked raw numstat patch files :
    read_layer raw numstat patch source = Ok files →
    reads source [raw; numstat; patch] {| lr_files := files; lr_material := framed_material [raw; numstat; patch] |}
| Reads_All raw numstat patch untracked files :
    read_layer raw numstat patch source = Ok files →
    reads source [raw; numstat; patch; untracked]
      {| lr_files := files ++ untracked_files untracked; lr_material := framed_material [raw; numstat; patch] +:+ framed_material [untracked] |}.

Lemma reads_material source parts layer : reads source parts layer → lr_material layer = framed_material parts ∧ (length parts ≤ 4)%nat.
Proof.
  destruct 1; (split; [cbn [lr_material]|simpl; lia]); [done..|]. by rewrite <-framed_material_app.
Qed.

Lemma reads_functional source parts layer layer' : reads source parts layer → reads source parts layer' → layer = layer'.
Proof. destruct 1 as [|? ? ? ? E|? ? ? ? ? E]; inversion 1 as [|? ? ? ? E'|? ? ? ? ? E']; subst; [done|congruence..]. Qed.

Section outputs.
Context `{Git} (provider : GitCliChangeProvider).

Lemma git_fits worktree args history history' output :
  git provider worktree args history = (history', Ok output) → fits (gp_stdout_cap provider) output.
Proof.
  unfold git. destruct (_ || _); [done|]. destruct (git_cancelled _); [done|]. intros [= <- E].
  destruct (git_run _ _ _) as [| | | | |code stdout stderr]; try done. apply result_bind_Ok in E as (out & Hout & E).
  apply result_bind_Ok in E as (err & _ & E). destruct (bool_decide _); [|done]. injection E as ->.
  unfold read_bounded in Hout. destruct stdout as [bytes| |]; try done. destruct (N.ltb_spec (gp_stdout_cap provider) (str_len (str_take (N.to_nat (saturating_add (gp_stdout_cap provider) 1)) bytes))); [done|].
  injection Hout as <-. done.
Qed.

Lemma step_bind_Ok {A B} (m : step A) (k : A → step B) history history' b :
  m_bind m k history = (history', Ok b) → ∃ a history1, m history = (history1, Ok a) ∧ k a history1 = (history', Ok b).
Proof. unfold m_bind. destruct (m history) as [history1 [a|e]]; [eauto|done]. Qed.

Lemma step_read_Ok {A} (f : list Command → result ChangeError A) history history' a : m_read f history = (history', Ok a) → f history = Ok a.
Proof. by intros [= _ ->]. Qed.

Lemma collect_layer_reads worktree source args history history' layer :
  collect_layer provider worktree source args history = (history', Ok layer) →
  ∃ parts, reads source parts layer ∧ Forall (fits (gp_stdout_cap provider)) parts ∧ length parts = 3.
Proof.
  unfold collect_layer. intros (raw & h1 & Hraw & (numstat & h2 & Hnumstat & (patch & h3 & Hpatch & E%step_read_Ok)%step_bind_Ok)%step_bind_Ok)%step_bind_Ok.
  apply result_bind_Ok in E as (files & Hfiles & [= <-]). exists [raw; numstat; patch]. split_and!; [by constructor| |done].
  repeat constructor; by eapply git_fits.
Qed.

(** The reading of a collection: the outputs of its layers. *)
Definition collected (layers : Layers) (staged worktree committed : list string) : Prop :=
  reads Layer_Staged staged (ly_staged layers) ∧ reads Layer_Worktree worktree (ly_worktree layers) ∧
  reads Layer_Commit committed (ly_committed layers) ∧
  Forall (fits (gp_stdout_cap provider)) (staged ++ worktree ++ committed).

Lemma collect_layers_reads scope worktree head_sha history history' layers :
  collect_layers provider scope worktree head_sha history = (history', Ok layers) →
  ∃ staged tracked committed, collected layers staged tracked committed.
Proof.
  unfold collected. destruct scope; simpl; intros E.
  - apply step_bind_Ok in E as (layer & h1 & (parts & Hr & Hf & _)%collect_layer_reads & [= <-]%step_read_Ok).
    exists [], parts, []. simpl. rewrite app_nil_r. split_and!; [constructor|done|constructor|done].
  - apply step_bind_Ok in E as (layer & h1 & (parts & Hr & Hf & _)%collect_layer_reads & [= <-]%step_read_Ok).
    exists parts, [], []. simpl. rewrite app_nil_r. split_and!; [done|constructor..|done].
  - apply step_bind_Ok in E as (staged & h1 & (parts & Hr & Hf & _)%collect_layer_reads & E).
    apply step_bind_Ok in E as (tracked & h2 & (parts' & Hr' & Hf' & Hlen)%collect_layer_reads & E).
    apply step_bind_Ok in E as (untracked & h3 & Hu & [= <-]%step_read_Ok).
    unfold collect_untracked in Hu. apply step_bind_Ok in Hu as (output & h4 & Houtput & [= <-]%step_read_Ok).
    exists parts, (parts' ++ [output]), []. rewrite app_nil_r. split_and!; [done| |constructor|].
    + inversion Hr' as [|raw numstat patch files Hread|]; subst; try done. simpl. by constructor.
    + rewrite !Forall_app. split_and!; [done..|]. constructor; [|constructor]. by eapply git_fits.
  - apply step_bind_Ok in E as (layer & h1 & (parts & Hr & Hf & _)%collect_layer_reads & [= <-]%step_read_Ok).
    exists [], [], parts. split_and!; [constructor..|done|done].
  - apply step_bind_Ok in E as (layer & h1 & (parts & Hr & Hf & _)%collect_layer_reads & E). apply step_bind_Ok in E as (resolved & h2 & _ & [= <-]%step_read_Ok).
    exists [], [], parts. split_and!; [constructor..|done|done].
  - apply step_bind_Ok in E as (layer & h1 & (parts & Hr & Hf & _)%collect_layer_reads & E). apply step_bind_Ok in E as (resolved & h2 & _ & [= <-]%step_read_Ok).
    exists [], [], parts. split_and!; [constructor..|done|done].
  - done.
Qed.
End outputs.

(** The serialiser loses nothing, and its output fits into memory. *)
Definition codec_faithful `{IdentityCodec} : Prop :=
  (∀ i j bytes, identity_to_vec i = Ok bytes → identity_to_vec j = Ok bytes → i = j) ∧
  ∀ i bytes, identity_to_vec i = Ok bytes → fits u64_max bytes.

(** Four outputs fit into memory. *)
Definition sane_caps (provider : GitCliChangeProvider) : Prop := (4 * (8 + gp_stdout_cap provider) ≤ u64_max)%N.

Definition with_head_ref (head_ref : option string) (c : ChangeSet) : ChangeSet := {|
  cs_repo_id := cs_repo_id c; cs_checkout_id := cs_checkout_id c; cs_worktree := cs_worktree c; cs_git_common_dir := cs_git_common_dir c;
  cs_scope := cs_scope c; cs_checkout_head_ref := head_ref; cs_checkout_head_sha := cs_checkout_head_sha c; cs_base_ref := cs_base_ref c;
  cs_head_ref := cs_head_ref c; cs_head_sha := cs_head_sha c; cs_staged_hash := cs_staged_hash c; cs_worktree_hash := cs_worktree_hash c;
  cs_exact_diff_fingerprint := cs_exact_diff_fingerprint c; cs_workspace_manifest_hash := cs_workspace_manifest_hash c;
  cs_contract_registry_hash := cs_contract_registry_hash c; cs_analyzer_versions := cs_analyzer_versions c; cs_files := cs_files c;
|}.

Lemma exact_material_inj identity identity' materials materials' :
  fits u64_max identity → fits u64_max identity' → Forall (fits u64_max) materials → Forall (fits u64_max) materials' →
  exact_material identity materials = exact_material identity' materials' → identity = identity' ∧ materials = materials'.
Proof.
  unfold exact_material. intros Hi Hi' Hm Hm' E%string_app_inj_l. apply framed_piece in E as [-> E]; [|done..]. split; [done|].
  by apply framed_material_inj.
Qed.

Lemma collected_materials (provider : GitCliChangeProvider) layers staged worktree committed :
  sane_caps provider → collected provider layers staged worktree committed →
  Forall (fits u64_max) (staged ++ worktree ++ committed) ∧
  Forall (fits u64_max) [lr_material (ly_staged layers); lr_material (ly_worktree layers); lr_material (ly_committed layers)].
Proof.
  intros Hcaps (Hs & Hw & Hc & Hall). assert (Hcap : (gp_stdout_cap provider ≤ u64_max)%N) by (unfold sane_caps in Hcaps; lia).
  assert (Hone : ∀ source parts layer, reads source parts layer → Forall (fits (gp_stdout_cap provider)) parts → fits u64_max (lr_material layer)).
  { intros source parts layer Hr Hf. apply reads_material in Hr as [-> Hlen]. pose proof (framed_length parts _ Hf) as Hl.
    unfold fits, sane_caps in *. etrans; [exact Hl|]. etrans; [|exact Hcaps]. apply N.mul_le_mono; lia. }
  split; [eapply Forall_impl; [exact Hall|]; unfold fits; intros; lia|].
  rewrite !Forall_app in Hall. destruct Hall as (Hfs & Hfw & Hfc). repeat constructor; by eapply Hone.
Qed.

(** Layers with the same materials hold the same files. *)
Lemma collected_functional provider provider' layers layers' staged worktree committed staged' worktree' committed' :
  sane_caps provider → sane_caps provider' →
  collected provider layers staged worktree committed → collected provider' layers' staged' worktree' committed' →
  [lr_material (ly_staged layers); lr_material (ly_worktree layers); lr_material (ly_committed layers)] =
    [lr_material (ly_staged layers'); lr_material (ly_worktree layers'); lr_material (ly_committed layers')] →
  ly_staged layers = ly_staged layers' ∧ ly_worktree layers = ly_worktree layers' ∧ ly_committed layers = ly_committed layers'.
Proof.
  intros Hcaps Hcaps' Hcol Hcol' Hmat. pose proof (collected_materials _ _ _ _ _ Hcaps Hcol) as [Hf _]. pose proof (collected_materials _ _ _ _ _ Hcaps' Hcol') as [Hf' _].
  rewrite !Forall_app in Hf, Hf'. destruct Hf as (Hfs & Hfw & Hfc), Hf' as (Hfs' & Hfw' & Hfc'), Hcol as (Hs & Hw & Hc & _), Hcol' as (Hs' & Hw' & Hc' & _).
  assert (Hone : ∀ source parts parts' layer layer', Forall (fits u64_max) parts → Forall (fits u64_max) parts' →
    reads source parts layer → reads source parts' layer' → lr_material layer = lr_material layer' → layer = layer').
  { intros source parts parts' layer layer' Hp Hp' Hr Hr' E. pose proof (reads_material _ _ _ Hr) as [E1 _]. pose proof (reads_material _ _ _ Hr') as [E2 _].
    rewrite E1, E2 in E. apply framed_material_inj in E as <-; [|done..]. by eapply reads_functional. }
  injection Hmat as E1 E2 E3. split_and!; [by eapply (Hone Layer_Staged staged staged')|by eapply (Hone Layer_Worktree worktree worktree')|by eapply (Hone Layer_Commit committed committed')].
Qed.

Lemma changes_Ok `{Blake3, Git, IdentityCodec} provider request history history' c :
  changes provider request history = (history', Ok c) →
  ∃ checkout layers staged worktree committed,
    collected provider layers staged worktree committed ∧ assemble request checkout layers = Ok c.
Proof.
  unfold changes. intros ([] & h1 & _ & E)%step_bind_Ok. apply step_bind_Ok in E as (checkout & h2 & _ & E).
  apply step_bind_Ok in E as (layers & h3 & (staged & tracked & committed & Hcol)%collect_layers_reads & E%step_read_Ok).
  by exists checkout, layers, staged, tracked, committed.
Qed.

(** C29: A change set is valid for what was collected later, perhaps by another
    provider over another state of the repository, exactly when that collection
    gave the same change set, its files included; only the name of the branch that
    is checked out may differ. *)
Theorem validity_detects_changes `{Blake3, IdentityCodec} (before after : Git) provider provider' request request' history history' old new :
  digest_separates → codec_faithful → sane_caps provider → sane_caps provider' →
  changes (H0:=before) provider request [] = (history, Ok old) → changes (H0:=after) provider' request' [] = (history', Ok new) →
  validate_change_set old (validity_input new) = Validity_Valid ↔ new = with_head_ref (cs_checkout_head_ref new) old.
Proof.
  intros Hdigest [Hinj Hfits] Hcaps Hcaps' Hold Hnew. pose proof (validity_exact old (validity_input new)) as Hexact.
  apply changes_Ok in Hold as (checkout & layers & s & w & c & Hcol & Hold). apply changes_Ok in Hnew as (checkout' & layers' & s' & w' & c' & Hcol' & Hnew).
  split.
  - intros E. rewrite E in Hexact. unfold assemble, exact_fingerprint in Hold, Hnew.
    destruct (identity_to_vec (identity_of request checkout layers)) as [bytes|] eqn:E1; [|done].
    destruct (identity_to_vec (identity_of request' checkout' layers')) as [bytes'|] eqn:E2; [|done].
    injection Hold as <-. injection Hnew as <-.
    assert (Hfield : ∀ T (f : ChangeValidityInput → T), f (validity_input _) = f (validity_input _)) by (intros T f; exact (f_equal f Hexact)).
    pose proof (Hfield _ vi_exact_diff_fingerprint) as Eexact. simpl in Eexact.
    apply Hdigest, exact_material_inj in Eexact as [<- Emat];
      [|by eapply Hfits|by eapply Hfits|by apply (collected_materials provider _ s w c)|by apply (collected_materials provider' _ s' w' c')].
    pose proof (Hinj _ _ _ E1 E2) as Eid.
    destruct (collected_functional provider provider' layers layers' s w c s' w' c') as (Els & Elw & Elc); [done..|].
    pose proof (Hfield _ vi_worktree) as Eworktree. pose proof (Hfield _ vi_git_common_dir) as Ecommon. simpl in Eworktree, Ecommon.
    injection Eid as Erepo Echeckout _ _ _ _ Escope Ehead Ebase Ehref Ehsha Emanifest Econtract Eanalyzers.
    unfold with_head_ref. cbn. by rewrite Els, Elw, Elc, Erepo, Echeckout, Eworktree, Ecommon, Escope, Ehead, Ebase, Ehref, Ehsha, Emanifest, Econtract, Eanalyzers.
  - intros E. rewrite E in Hexact |- *. unfold with_head_ref in *. unfold validity_input in *. simpl in *.
    destruct (validate_change_set old _) as [|reasons text]; [done|]. destruct Hexact as (Hne & _ & Hch). exfalso. apply Hne.
    destruct reasons as [|reason reasons]; [done|]. assert (Hin : reason ∈ reason :: reasons) by by left. apply Hch in Hin. by destruct reason; simpl in Hin.
Qed.

Module Example_provider.
(** A serialiser that loses nothing: the number of an identity, if it fits. *)
Definition scope_key (scope : ChangeScope) : nat * (string * string * N) :=
  match scope with
  | Scope_Unstaged => (0, ("", "", 0%N)) | Scope_Staged => (1, ("", "", 0%N)) | Scope_All => (2, ("", "", 0%N))
  | Scope_Compare reference => (3, (reference, "", 0%N)) | Scope_Commit sha => (4, (sha, "", 0%N))
  | Scope_Range base head => (5, (base, head, 0%N)) | Scope_PullRequest host number => (6, (host, "", number))
  end.
Definition identity_key (i : Identity) :=
  ((id_repo_id i, id_checkout_id i, id_worktree i, id_common i), scope_key (id_scope i),
   (id_checkout_head_sha i, id_base_ref i, id_head_ref i, id_head_sha i),
   (id_workspace_manifest_hash i, id_contract_registry_hash i, id_analyzer_versions i)).
Lemma identity_key_inj i j : identity_key i = identity_key j → i = j.
Proof. destruct i as [? ? ? ? [] ? ? ? ? ? ? ?], j as [? ? ? ? [] ? ? ? ? ? ? ?]; unfold identity_key; simpl; congruence. Qed.

Fixpoint digits (p : positive) : string :=
  match p with xH => "" | xO p => String "0" (digits p) | xI p => String "1" (digits p) end.
Lemma digits_inj p q : digits p = digits q → p = q.
Proof. revert q. induction p as [p IH|p IH|]; intros [q|q|]; simpl; try done; intros [= E]; f_equal; by apply IH. Qed.

#[local] Instance codec : IdentityCodec := λ i,
  let bytes := digits (encode (identity_key i)) in
  if (str_len bytes <=? u64_max)%N then Ok bytes else Err "too long".
#[local] Instance no_digest : Blake3 := λ text, text.

Lemma no_digest_separates : digest_separates.
Proof. by intros x y. Qed.
Lemma codec_is_faithful : codec_faithful.
Proof.
  unfold codec_faithful, identity_to_vec, codec. split.
  - intros i j bytes. destruct (N.leb _ _); [|done]. destruct (N.leb _ _); [|done]. intros [= <-] [= E].
    apply digits_inj in E. apply (inj encode) in E. by apply identity_key_inj.
  - intros i bytes. match goal with |- context [N.leb ?a ?b] => destruct (N.leb_spec a b) end; [|done]. by intros [= <-].
Qed.

(** A repository with a branch and what is changed in its worktree. *)
Definition exits (code : Z) (output : string) : GitRun := Run_Exited (Some code) (Stream_Bytes output) (Stream_Bytes "").
Definition world (branch : string) (entries : list GitEntry) : Git := {|
  git_cancelled := λ _, false;
  git_run := λ _ _ args,
    if bool_decide (args = ["rev-parse"; "--show-toplevel"]) then exits 0 (newline "/w")
    else if bool_decide (args = ["rev-parse"; "--git-common-dir"]) then exits 0 (newline ".git")
    else if bool_decide (args = ["symbolic-ref"; "-q"; "HEAD"]) then exits 0 (newline ("refs/heads/" +:+ branch))
    else if bool_decide (args = ["rev-parse"; "--verify"; "HEAD^{commit}"]) then exits 0 (newline "abc")
    else if bool_decide (args = diff_prefix "--raw") then exits 0 (print_raw entries)
    else if bool_decide (args = diff_prefix "--numstat") then exits 0 (print_numstat entries)
    else if bool_decide (args = diff_prefix "--patch" ++ ["--unified=0"; "--no-prefix"]) then exits 0 (print_patch entries)
    else exits 128 "";
  fs_canonicalize := Ok;
|}.
Definition request : ChangeRequest :=
  {| rq_repo_id := "r"; rq_checkout_id := "c"; rq_worktree := "."; rq_scope := Scope_Unstaged; rq_workspace_manifest_hash := "m";
     rq_contract_registry_hash := "k"; rq_analyzer_versions := ∅ |}.
Definition small_provider : GitCliChangeProvider := {| gp_timeout := 1000; gp_stdout_cap := 2048; gp_stderr_cap := 64 |}.
Definition collect (branch : string) (entries : list GitEntry) : list Command * result ChangeError ChangeSet :=
  changes (H0:=world branch entries) small_provider request [].
Definition dummy : ChangeSet := Example_gate.set [].
Definition collected_set (branch : string) (entries : list GitEntry) : ChangeSet :=
  match (collect branch entries).2 with Ok c => c | Err _ => dummy end.

Lemma collect_succeeds : ∀ branch, branch ∈ ["main"; "topic"] →
  collect branch Example_git.entries = ((collect branch Example_git.entries).1, Ok (collected_set branch Example_git.entries)).
Proof.
  intros branch. rewrite !elem_of_cons, elem_of_nil. intros [->|[->|[]]]; vm_compute; reflexivity.
Qed.

Lemma validity_detects_changes_witness :
  let old := collected_set "main" Example_git.entries in
  let new := collected_set "topic" Example_git.entries in
  cs_files new ≠ [] ∧ cs_checkout_head_ref new = Some "refs/heads/topic" ∧
  (validate_change_set old (validity_input new) = Validity_Valid ↔ new = with_head_ref (cs_checkout_head_ref new) old).
Proof.
  split_and!; [by vm_compute|by vm_compute|].
  apply (validity_detects_changes (world "main" Example_git.entries) (world "topic" Example_git.entries) small_provider small_provider
    request request (collect "main" Example_git.entries).1 (collect "topic" Example_git.entries).1);
    [exact no_digest_separates|exact codec_is_faithful|by vm_compute|by vm_compute|apply collect_succeeds; by left|apply collect_succeeds; right; by left].
Defined.

Example branch_switch_is_valid :
  validate_change_set (collected_set "main" Example_git.entries) (validity_input (collected_set "topic" Example_git.entries)) = Validity_Valid.
Proof. vm_compute. reflexivity. Qed.
Example edit_is_stale :
  match validate_change_set (collected_set "main" Example_git.entries) (validity_input (collected_set "main" [])) with
  | Validity_Stale reasons _ => reasons
  | Validity_Valid => []
  end = [WorktreeChangesChanged; ExactDiffChanged].
Proof. vm_compute. reflexivity. Qed.
Example commands_of_unstaged : length (collect "main" Example_git.entries).1 = 7.
Proof. vm_compute. reflexivity. Qed.
End Example_provider.
