(* ===== verification/ChangeAnalysis.v ===== *)
(** * Semantic analysis of change sets (change_analysis.rs)

    From changed files to the evidence, nodes and contracts that they touch, and
    to the impact of each changed boundary, with the coverage that decides what
    may be concluded. *)
From stdpp Require Import base gmap sets list strings pretty.
From Stdlib Require Import Ascii.
From S2P Require Import Prelude RustOrd RustFloat RustStr RustBytes Model Impact ImpactRisk Compat ChangeSet.

Definition CHANGE_ANALYZER_VERSION : string := "1.0.0".
Definition MAX_CHANGED_FILES : N := 100000.
Definition MAX_CHANGED_NODES : N := 100000.
Definition MAX_IMPACT_TARGETS : N := 10000.
Definition MAX_ANALYSIS_DEPTH : N := 128.
Definition MAX_PAGE_LIMIT : N := 10000.
Definition MAX_PAGE_OFFSET : N := 1000000.

Record ChangeAnalysisOptions := {
  ao_max_changed_files : N;
  ao_max_changed_nodes : N;
  ao_max_impact_targets : N;
  ao_direction : ImpactDirection;
  ao_max_depth : N;
  ao_offset : N;
  ao_limit : N;
  ao_summary_only : bool;
}.

Definition default_analysis_options : ChangeAnalysisOptions :=
  {| ao_max_changed_files := 1000; ao_max_changed_nodes := 10000; ao_max_impact_targets := 1000; ao_direction := Upstream;
     ao_max_depth := 8; ao_offset := 0; ao_limit := 100; ao_summary_only := false |}.

(** ** Data *)
Inductive ChangedPathSide := Side_Old | Side_New.
Inductive EvidenceMatchKind := HunkIntersection | FilePathFallback.
Inductive MappingCompleteness := Map_Complete | Map_Partial | Map_Unknown.
Inductive ChangedEntityRole := Role_Artifact | Role_SymbolRef | Role_Boundary.

#[export] Instance ChangedPathSide_eq_dec : EqDecision ChangedPathSide.
Proof. solve_decision. Defined.
#[export] Instance EvidenceMatchKind_eq_dec : EqDecision EvidenceMatchKind.
Proof. solve_decision. Defined.
#[export] Instance MappingCompleteness_eq_dec : EqDecision MappingCompleteness.
Proof. solve_decision. Defined.
#[export] Instance ChangedEntityRole_eq_dec : EqDecision ChangedEntityRole.
Proof. solve_decision. Defined.

Definition side_rank (side : ChangedPathSide) : nat := match side with Side_Old => 0 | Side_New => 1 end.
#[export] Instance side_rank_inj : Inj (=) (=) side_rank.
Proof. by intros [] []. Qed.
#[export] Instance ChangedPathSide_ord : Ord ChangedPathSide := cmp_on side_rank cmp.
#[export] Instance ChangedPathSide_total : TotalOrd ChangedPathSide := ranked_total side_rank.
Lemma side_of_rank side : [Side_Old; Side_New] !! side_rank side = Some side.
Proof. by destruct side. Qed.
#[export] Instance ChangedPathSide_countable : Countable ChangedPathSide := inj_countable side_rank (λ n, [Side_Old; Side_New] !! n) side_of_rank.

Definition match_kind_rank (kind : EvidenceMatchKind) : nat := match kind with HunkIntersection => 0 | FilePathFallback => 1 end.
#[export] Instance match_kind_rank_inj : Inj (=) (=) match_kind_rank.
Proof. by intros [] []. Qed.

Definition role_rank (role : ChangedEntityRole) : nat := match role with Role_Artifact => 0 | Role_SymbolRef => 1 | Role_Boundary => 2 end.
#[export] Instance role_rank_inj : Inj (=) (=) role_rank.
Proof. by intros [] []. Qed.
#[export] Instance ChangedEntityRole_ord : Ord ChangedEntityRole := cmp_on role_rank cmp.
#[export] Instance ChangedEntityRole_total : TotalOrd ChangedEntityRole := ranked_total role_rank.
Lemma role_of_rank role : [Role_Artifact; Role_SymbolRef; Role_Boundary] !! role_rank role = Some role.
Proof. by destruct role. Qed.
#[export] Instance ChangedEntityRole_countable : Countable ChangedEntityRole :=
  inj_countable role_rank (λ n, [Role_Artifact; Role_SymbolRef; Role_Boundary] !! n) role_of_rank.

Record HunkLineMatch := {
  hm_evidence_id : EvidenceId;
  hm_path_side : ChangedPathSide;
  hm_kind : EvidenceMatchKind;
  hm_hunk_index : option nat;
  hm_hunk_start : option N;
  hm_hunk_end : option N;
  hm_evidence_start : option N;
  hm_evidence_end : option N;
}.

(** [Ord] of [HunkLineMatch]: field by field. *)
Definition match_key (m : HunkLineMatch) : string * (nat * (nat * (option nat * (option N * (option N * (option N * option N)))))) :=
  (hm_evidence_id m, (side_rank (hm_path_side m), (match_kind_rank (hm_kind m), (hm_hunk_index m,
    (hm_hunk_start m, (hm_hunk_end m, (hm_evidence_start m, hm_evidence_end m))))))).
#[export] Instance match_key_inj : Inj (=) (=) match_key.
Proof.
  intros [? s k ? ? ? ? ?] [? s' k' ? ? ? ? ?]. unfold match_key; simpl. intros [= -> Es Ek -> -> -> -> ->].
  apply (inj side_rank) in Es. apply (inj match_kind_rank) in Ek. by subst.
Qed.
#[export] Instance HunkLineMatch_ord : Ord HunkLineMatch := cmp_on match_key cmp.
#[export] Instance HunkLineMatch_total : TotalOrd HunkLineMatch := ranked_total match_key.

Record ChangedArtifactMapping := {
  am_old_path : option NativePath;
  am_new_path : option NativePath;
  am_status : ChangedFileStatus;
  am_layer : ChangeSourceLayer;
  am_matched_evidence_ids : list EvidenceId;
  am_artifact_node_ids : list NodeId;
  am_symbol_ref_node_ids : list NodeId;
  am_boundary_node_ids : list NodeId;
  am_matches : list HunkLineMatch;
  am_completeness : MappingCompleteness;
  am_gaps : list string;
}.

Record ChangedEntity := { ce_node : Node; ce_roles : list ChangedEntityRole; ce_changed_paths : list NativePath }.

Record ContractCompatibilityInput := {
  cc_file_path : option string;
  cc_contract_node_id : NodeId;
  cc_report : option CompatibilityReport;
}.

Record SemanticContractDelta := {
  sd_contract : Node;
  sd_contract_kind : NodeKind;
  sd_status : CompatibilityStatus;
  sd_before_fingerprint : option string;
  sd_after_fingerprint : option string;
  sd_findings : list CompatibilityFinding;
  sd_factors : list string;
  sd_validations : list string;
}.

Record ChangeAnalysisCoverage := {
  cv_complete : bool;
  cv_total_changed_files : N;
  cv_analyzed_changed_files : N;
  cv_mapped_changed_files : N;
  cv_complete_changed_files : N;
  cv_total_changed_nodes : N;
  cv_retained_changed_nodes : N;
  cv_total_impact_targets : N;
  cv_analyzed_impact_targets : N;
  cv_truncated : bool;
  cv_gaps : list string;
}.

Inductive ChangeConclusion := ImpactDetected | NoSemanticImpactDetected | Conclusion_Unknown.

Record ChangeAnalysisSummary := {
  sm_conclusion : ChangeConclusion;
  sm_highest_risk : RiskLevel;
  sm_changed_entities : N;
  sm_changed_contracts : N;
  sm_impact_reports : N;
}.

Record ChangeImpactReport := {
  ir_analyzer_version : string;
  ir_analyzer_fingerprint : string;
  ir_change_set : ChangeSet;
  ir_mappings : list ChangedArtifactMapping;
  ir_changed_entities : list ChangedEntity;
  ir_contract_deltas : list SemanticContractDelta;
  ir_impacts : list ImpactReport;
  ir_touched_repositories : list RepoId;
  ir_touched_services : list Node;
  ir_touched_communities : list CommunityId;
  ir_touched_contracts : list Node;
  ir_coverage : ChangeAnalysisCoverage;
  ir_summary : ChangeAnalysisSummary;
}.

Inductive ChangeAnalysisError :=
| CAE_InvalidBounds
| CAE_Fingerprint (source : string)
| CAE_Impact (target : string) (source : ImpactError).

Definition validate_options (options : ChangeAnalysisOptions) : result ChangeAnalysisError unit :=
  if ((ao_max_changed_files options =? 0) || (MAX_CHANGED_FILES <? ao_max_changed_files options)
      || (ao_max_changed_nodes options =? 0) || (MAX_CHANGED_NODES <? ao_max_changed_nodes options)
      || (ao_max_impact_targets options =? 0) || (MAX_IMPACT_TARGETS <? ao_max_impact_targets options)
      || (ao_max_depth options =? 0) || (MAX_ANALYSIS_DEPTH <? ao_max_depth options)
      || (ao_limit options =? 0) || (MAX_PAGE_LIMIT <? ao_limit options)
      || (MAX_PAGE_OFFSET <? ao_offset options))%N
  then Err CAE_InvalidBounds else Ok tt.

(** ** Mapping a changed file *)
Record MappingWork := { mw_mapping : ChangedArtifactMapping; mw_representable_paths : gset string }.

Definition relevant_sides (file : ChangedFile) : list (ChangedPathSide * NativePath) :=
  match cf_status file with
  | Status_Deleted => match cf_old_path file with Some path => [(Side_Old, path)] | None => [] end
  | Status_Renamed =>
      match cf_old_path file with Some path => [(Side_Old, path)] | None => [] end
      ++ match cf_new_path file with Some path => [(Side_New, path)] | None => [] end
  | _ => match effective_path file with Some path => [(Side_New, path)] | None => [] end
  end.

Definition expected_side_count (file : ChangedFile) : nat :=
  match cf_status file with
  | Status_Renamed => Nat.b2n (is_some (cf_old_path file)) + Nat.b2n (is_some (cf_new_path file))
  | _ => Nat.b2n (is_some (cf_old_path file) || is_some (cf_new_path file))
  end.

Definition side_name (side : ChangedPathSide) : string := match side with Side_Old => "old" | Side_New => "new" end.

Definition native_path_text (path : NativePath) : option string :=
  match np_encoding path with
  | UnixBytes | Utf8 => let text := string_of_bytes (np_bytes path) in if utf8_valid text then Some text else None
  | WindowsWide => utf16_units (np_bytes path) ≫= decode_utf16
  end.

Definition inclusive_range (start count : N) : option (N * N) :=
  if (0 <? count)%N then Some (start, N.min (start + (count - 1)) 4294967295) else None.

Definition hunk_ranges (file : ChangedFile) (side : ChangedPathSide) : list (nat * (N * N)) :=
  omap (λ entry : nat * ChangeHunk,
    let '(start, count) :=
      match side with
      | Side_Old => (ch_old_start entry.2, ch_old_count entry.2)
      | Side_New => (ch_new_start entry.2, ch_new_count entry.2)
      end in
    (λ range, (entry.1, range)) <$> inclusive_range start count) (imap pair (cf_hunks file)).

Definition evidence_range (evidence : Evidence) : option (N * N) :=
  match ev_start_line evidence, ev_end_line evidence with
  | Some start, Some finish => if (start <=? finish)%N then Some (start, finish) else None
  | _, _ => None
  end.

Definition ranges_intersect (left right : N * N) : bool := ((left.1 <=? right.2) && (right.1 <=? left.2))%N.

Definition match_explanation (evidence : Evidence) (path_side : ChangedPathSide) (kind : EvidenceMatchKind) (hunk_index : option nat)
    (hunk_range : option (N * N)) : HunkLineMatch :=
  {| hm_evidence_id := ev_id evidence; hm_path_side := path_side; hm_kind := kind; hm_hunk_index := hunk_index;
     hm_hunk_start := fst <$> hunk_range; hm_hunk_end := snd <$> hunk_range;
     hm_evidence_start := ev_start_line evidence; hm_evidence_end := ev_end_line evidence |}.

(** The variables of the loop over the sides. *)
Record Scan := {
  sc_gaps : gset string;
  sc_matched : gset EvidenceId;
  sc_explanations : list HunkLineMatch;
  sc_paths : gset string;
  sc_unrepresentable : bool;
  sc_sides : gset ChangedPathSide;
  sc_line_match : bool;
  sc_fallback_match : bool;
}.
Definition empty_scan : Scan :=
  {| sc_gaps := ∅; sc_matched := ∅; sc_explanations := []; sc_paths := ∅; sc_unrepresentable := false; sc_sides := ∅;
     sc_line_match := false; sc_fallback_match := false |}.

Definition is_untracked (file : ChangedFile) : bool := match cf_status file with Status_Untracked => true | _ => false end.

(** An evidence of the repository and of the path. *)
Definition about_path (repo_id : RepoId) (path_text : string) (item : Evidence) : bool :=
  bool_decide (ev_repo_id item = Some repo_id) && negb (is_none_or (ev_file_path item) (λ candidate, negb (String.eqb candidate path_text))).

Definition intersections (file : ChangedFile) (side : ChangedPathSide) (item : Evidence) : list (nat * (N * N)) :=
  match evidence_range item with
  | None => []
  | Some range => List.filter (λ entry, ranges_intersect entry.2 range) (hunk_ranges file side)
  end.

Definition matched_at (scan : Scan) (side : ChangedPathSide) (item : Evidence) (explanations : list HunkLineMatch) (lines : bool) : Scan :=
  {| sc_gaps := sc_gaps scan; sc_matched := {[ev_id item]} ∪ sc_matched scan;
     sc_explanations := sc_explanations scan ++ explanations; sc_paths := sc_paths scan; sc_unrepresentable := sc_unrepresentable scan;
     sc_sides := {[side]} ∪ sc_sides scan; sc_line_match := sc_line_match scan || lines;
     sc_fallback_match := sc_fallback_match scan || negb lines |}.

Definition scan_evidence (file : ChangedFile) (repo_id : RepoId) (side : ChangedPathSide) (path_text : string) (scan : Scan) (item : Evidence)
    : Scan :=
  if negb (about_path repo_id path_text item) then scan
  else
    let hits := intersections file side item in
    if negb (cf_binary file) && negb (is_untracked file) && negb (is_empty_list hits) then
      matched_at scan side item
        (map (λ hit, match_explanation item side HunkIntersection (Some hit.1) (Some hit.2)) hits) true
    else if cf_binary file || is_untracked file || negb (is_some (evidence_range item)) || is_empty_list (hunk_ranges file side) then
      matched_at scan side item [match_explanation item side FilePathFallback None None] false
    else scan.

Definition scan_side (file : ChangedFile) (repo_id : RepoId) (evidence : list Evidence) (scan : Scan) (entry : ChangedPathSide * NativePath) : Scan :=
  let '(side, path) := entry in
  match native_path_text path with
  | None =>
      {| sc_gaps := {[side_name side +:+ " path cannot be represented as Unicode for evidence matching"]} ∪ sc_gaps scan;
         sc_matched := sc_matched scan; sc_explanations := sc_explanations scan; sc_paths := sc_paths scan; sc_unrepresentable := true;
         sc_sides := sc_sides scan; sc_line_match := sc_line_match scan; sc_fallback_match := sc_fallback_match scan |}
  | Some path_text =>
      let scan :=
        {| sc_gaps := sc_gaps scan; sc_matched := sc_matched scan; sc_explanations := sc_explanations scan;
           sc_paths := {[path_text]} ∪ sc_paths scan; sc_unrepresentable := sc_unrepresentable scan;
           sc_sides := sc_sides scan; sc_line_match := sc_line_match scan; sc_fallback_match := sc_fallback_match scan |} in
      foldl (scan_evidence file repo_id side path_text) scan evidence
  end.

Definition is_boundary_kind (kind : NodeKind) : bool :=
  match kind with
  | NK_Package | NK_HttpOperation | NK_GraphqlOperation | NK_RpcMethod | NK_EventChannel | NK_EventSchema
  | NK_Database | NK_DatabaseTable | NK_DatabaseColumn | NK_ConfigKey => true
  | _ => false
  end.

Notation NodeSets := (gset NodeId * gset NodeId * gset NodeId)%type.

Definition add_endpoint (nodes : gmap NodeId Node) (sets : NodeSets) (id : NodeId) : NodeSets :=
  let '(artifact, symbol, boundary) := sets in
  match nodes !! id with
  | None => sets
  | Some node =>
      match node_kind node with
      | NK_Artifact => ({[id]} ∪ artifact, symbol, boundary)
      | NK_SymbolRef => (artifact, {[id]} ∪ symbol, boundary)
      | kind => if is_boundary_kind kind then (artifact, symbol, {[id]} ∪ boundary) else sets
      end
  end.

Definition nodes_for_evidence (evidence_ids : gset EvidenceId) (edges : list Edge) (nodes : gmap NodeId Node)
    : list NodeId * list NodeId * list NodeId :=
  let '(artifact, symbol, boundary) :=
    foldl (λ sets edge,
      if existsb (λ id, bool_decide (id ∈ evidence_ids)) (edge_evidence edge)
      then foldl (add_endpoint nodes) sets [edge_source edge; edge_target edge] else sets)
      ((∅, ∅, ∅) : NodeSets) edges in
  (bset_elements artifact, bset_elements symbol, bset_elements boundary).

Definition GAP_BINARY : string := "binary change has no line-level semantic evidence".
Definition GAP_UNTRACKED : string := "untracked file body and line changes were not collected".
Definition GAP_NO_EVIDENCE : string := "no persisted evidence matched the changed path and hunk ranges".
Definition GAP_FALLBACK : string := "one or more evidence records matched only at file-path level".
Definition GAP_SIDES : string := "not every required old/new path neighborhood matched persisted evidence".
Definition GAP_DETACHED : string := "matched evidence is not attached to a supported semantic graph node".
Definition GAP_NO_BOUNDARY : string := "no exact changed boundary node was established for impact propagation".

(** [if condition { gaps.insert(gap); }] *)
Definition gap_if (condition : bool) (gap : string) (gaps : gset string) : gset string := if condition then {[gap]} ∪ gaps else gaps.

Definition map_changed_file (file : ChangedFile) (repo_id : RepoId) (edges : list Edge) (nodes : gmap NodeId Node)
    (evidence : gmap EvidenceId Evidence) : MappingWork :=
  let scan := foldl (scan_side file repo_id (btree_values evidence)) empty_scan (relevant_sides file) in
  let none_matched := bool_decide (sc_matched scan = ∅) in
  let gaps := gap_if (cf_binary file) GAP_BINARY (sc_gaps scan) in
  let gaps := gap_if (is_untracked file) GAP_UNTRACKED gaps in
  let gaps := gap_if none_matched GAP_NO_EVIDENCE gaps in
  let gaps := gap_if (sc_fallback_match scan) GAP_FALLBACK gaps in
  let gaps := gap_if (size (sc_sides scan) <? expected_side_count file)%nat GAP_SIDES gaps in
  let '(artifact, symbol, boundary) := nodes_for_evidence (sc_matched scan) edges nodes in
  let gaps :=
    gap_if (negb none_matched && is_empty_list artifact && is_empty_list symbol && is_empty_list boundary) GAP_DETACHED gaps in
  let gaps := gap_if (is_empty_list boundary) GAP_NO_BOUNDARY gaps in
  let completeness :=
    if sc_unrepresentable scan || none_matched then Map_Unknown
    else if negb (cf_binary file) && negb (is_untracked file) && sc_line_match scan && negb (sc_fallback_match scan)
            && (size (sc_sides scan) =? expected_side_count file)%nat && negb (is_empty_list boundary)
    then Map_Complete else Map_Partial in
  {| mw_mapping := {|
       am_old_path := cf_old_path file; am_new_path := cf_new_path file; am_status := cf_status file; am_layer := cf_source file;
       am_matched_evidence_ids := bset_elements (sc_matched scan);
       am_artifact_node_ids := artifact; am_symbol_ref_node_ids := symbol; am_boundary_node_ids := boundary;
       am_matches := sorted_unique (sc_explanations scan);
       am_completeness := completeness; am_gaps := bset_elements gaps |};
     mw_representable_paths := sc_paths scan |}.

Definition changed_file_order : ChangedFile → ChangedFile → comparison :=
  then_with (cmp_on cf_source cmp) (then_with (cmp_on cf_status cmp) (then_with (cmp_on cf_old_path cmp) (cmp_on cf_new_path cmp))).
Definition mapping_order : MappingWork → MappingWork → comparison :=
  then_with (cmp_on (λ w, am_layer (mw_mapping w)) cmp)
    (then_with (cmp_on (λ w, am_status (mw_mapping w)) cmp)
      (then_with (cmp_on (λ w, am_old_path (mw_mapping w)) cmp) (cmp_on (λ w, am_new_path (mw_mapping w)) cmp))).

Definition set_nodes (artifact symbol boundary : list NodeId) (completeness : MappingCompleteness) (gaps : list string)
    (mapping : ChangedArtifactMapping) : ChangedArtifactMapping :=
  {| am_old_path := am_old_path mapping; am_new_path := am_new_path mapping; am_status := am_status mapping; am_layer := am_layer mapping;
     am_matched_evidence_ids := am_matched_evidence_ids mapping; am_artifact_node_ids := artifact; am_symbol_ref_node_ids := symbol;
     am_boundary_node_ids := boundary; am_matches := am_matches mapping; am_completeness := completeness; am_gaps := gaps |}.

Definition retain_node_ids (retained : gset NodeId) (mapping : ChangedArtifactMapping) : ChangedArtifactMapping :=
  let kept := List.filter (λ id, bool_decide (id ∈ retained)) in
  set_nodes (kept (am_artifact_node_ids mapping)) (kept (am_symbol_ref_node_ids mapping)) (kept (am_boundary_node_ids mapping))
    (am_completeness mapping) (am_gaps mapping) mapping.

Definition degrade_mapping (gap : string) (mapping : ChangedArtifactMapping) : ChangedArtifactMapping :=
  set_nodes (am_artifact_node_ids mapping) (am_symbol_ref_node_ids mapping) (am_boundary_node_ids mapping) Map_Partial
    (sorted_unique (am_gaps mapping ++ [gap])) mapping.

(** ** Changed entities *)
Record EntityWork := { ew_roles : gset ChangedEntityRole; ew_paths : gset NativePath }.
Definition empty_entity : EntityWork := {| ew_roles := ∅; ew_paths := ∅ |}.

Definition node_ids (role : ChangedEntityRole) (mapping : ChangedArtifactMapping) : list NodeId :=
  match role with
  | Role_Artifact => am_artifact_node_ids mapping
  | Role_SymbolRef => am_symbol_ref_node_ids mapping
  | Role_Boundary => am_boundary_node_ids mapping
  end.
Definition ROLES : list ChangedEntityRole := [Role_Artifact; Role_SymbolRef; Role_Boundary].

Definition option_set {A} `{Countable A} (o : option A) : gset A := match o with Some x => {[x]} | None => ∅ end.

Definition touch_entity (mapping : ChangedArtifactMapping) (role : ChangedEntityRole) (work : gmap NodeId EntityWork) (id : NodeId)
    : gmap NodeId EntityWork :=
  let entity := default empty_entity (work !! id) in
  <[id := {| ew_roles := {[role]} ∪ ew_roles entity;
             ew_paths := ew_paths entity ∪ option_set (am_old_path mapping) ∪ option_set (am_new_path mapping) |}]> work.

Definition build_changed_entities (mappings : list MappingWork) (nodes : gmap NodeId Node) : list ChangedEntity :=
  let work :=
    foldl (λ work mapping,
      foldl (λ work role, foldl (touch_entity (mw_mapping mapping) role) work (node_ids role (mw_mapping mapping))) work ROLES)
      (∅ : gmap NodeId EntityWork) mappings in
  omap (λ entry : NodeId * EntityWork,
    (λ node, {| ce_node := node; ce_roles := bset_elements (ew_roles entry.2); ce_changed_paths := bset_elements (ew_paths entry.2) |})
      <$> nodes !! entry.1) (btree_entries work).

(** ** Contract deltas *)
Definition compatibility_severity (status : CompatibilityStatus) : N :=
  match status with
  | CS_Compatible => 0 | CS_Incomparable => 1 | CS_Unknown => 2 | CS_PotentiallyBreaking => 3 | CS_Breaking => 4
  end.

Definition unique_fingerprint (values : list string) : option string :=
  let values := bset_collect (List.filter (λ value, negb (String.eqb value "") && negb (String.eqb value "unavailable")) values) in
  match bset_elements values with [value] => Some value | _ => None end.

(** [max_by_key]: the last one of the greatest. *)
Definition most_severe (statuses : list CompatibilityStatus) : option CompatibilityStatus :=
  foldl (λ best status,
    match best with
    | Some b => if (compatibility_severity status <? compatibility_severity b)%N then best else Some status
    | None => Some status
    end) None statuses.

Definition delta_finding_order : CompatibilityFinding → CompatibilityFinding → comparison :=
  let order :=
    then_with (cmp_on (λ f, compatibility_severity (Compat.cf_status f)) cmp)
      (then_with (cmp_on cf_code cmp)
        (then_with (cmp_on cf_path cmp) (then_with (cmp_on cf_factors cmp) (cmp_on cf_evidence cmp)))) in
  λ left right, CompOpp (order left right).

#[export] Instance CompatibilityFinding_eq_dec : EqDecision CompatibilityFinding.
Proof. solve_decision. Defined.

Definition merge_contract_delta (contract : Node) (inputs : list ContractCompatibilityInput) : SemanticContractDelta :=
  let reports := omap cc_report inputs in
  let status := default CS_Unknown (most_severe (map cr_status reports)) in
  let before := unique_fingerprint (map cr_before_fingerprint reports) in
  let after := unique_fingerprint (map cr_after_fingerprint reports) in
  let status := if negb (is_some before) || negb (is_some after) then CS_Unknown else status in
  let findings := dedup_by (λ a b, bool_decide (a = b)) (sort_by delta_finding_order (concat (map cr_findings reports))) in
  {| sd_contract := contract; sd_contract_kind := node_kind contract; sd_status := status;
     sd_before_fingerprint := before; sd_after_fingerprint := after; sd_findings := findings;
     sd_factors := bset_elements (bset_collect (concat (map cf_factors findings)));
     sd_validations := bset_elements (bset_collect (concat (map cf_recommended_validations findings))) |}.

Definition build_contract_deltas (contract_ids : gset NodeId) (mappings : list MappingWork) (nodes : gmap NodeId Node)
    (inputs : list ContractCompatibilityInput) : list SemanticContractDelta :=
  omap (λ contract_id,
    contract ← nodes !! contract_id;
    let paths :=
      ⋃ (map mw_representable_paths
           (List.filter (λ work, bool_decide (contract_id ∈ am_boundary_node_ids (mw_mapping work))) mappings)) in
    let matching :=
      List.filter (λ input,
        String.eqb (cc_contract_node_id input) contract_id
        && is_none_or (cc_file_path input) (λ path, bool_decide (path ∈ paths))) inputs in
    Some (merge_contract_delta contract matching)) (bset_elements contract_ids).

Definition incomparable_or_unknown (delta : SemanticContractDelta) : bool :=
  match sd_status delta with CS_Unknown | CS_Incomparable => true | _ => false end.

Definition impact_compatibility_input (delta : SemanticContractDelta) : CompatibilityInput :=
  {| ci_contract_node_id := node_id (sd_contract delta);
     ci_status :=
       match sd_status delta with
       | CS_Breaking => Breaking
       | CS_PotentiallyBreaking => PotentiallyBreaking
       | CS_Compatible => Compatible
       | CS_Unknown | CS_Incomparable => Compat_Unknown
       end;
     ci_evidence := bset_elements (bset_collect (map cf_code (sd_findings delta) ++ sd_factors delta));
     ci_recommended_validations := sd_validations delta |}.

(** ** The context of the impact analyses *)
Definition with_freshness (state : RepoFreshnessState) (reason : string) (item : RepoFreshness) : RepoFreshness :=
  {| rf_repo_id := rf_repo_id item; rf_checkout_id := rf_checkout_id item; rf_head_commit := rf_head_commit item;
     rf_manifest_hash := rf_manifest_hash item; rf_state := state; rf_reason := Some reason |}.

Definition normalize_freshness (change_set : ChangeSet) (item : RepoFreshness) : RepoFreshness :=
  if negb (String.eqb (rf_repo_id item) (cs_repo_id change_set)) then item
  else if negb (String.eqb (rf_checkout_id item) (cs_checkout_id change_set)) then
    with_freshness RF_Unknown "snapshot checkout does not match the analyzed change set" item
  else if negb (bool_decide (rf_head_commit item = Some (cs_checkout_head_sha change_set))) then
    with_freshness RF_CommitsBehind "snapshot HEAD does not match the analyzed change set" item
  else if negb (String.eqb (rf_manifest_hash item) (cs_workspace_manifest_hash change_set)) then
    with_freshness RF_ConfigChanged "snapshot manifest does not match the analyzed change set" item
  else item.

Definition freshness_for_change_set (change_set : ChangeSet) (freshness : list RepoFreshness) : list RepoFreshness :=
  sort_by (then_with (cmp_on rf_repo_id cmp) (cmp_on rf_checkout_id cmp)) (map (normalize_freshness change_set) freshness).

Definition is_service (kind : option NodeKind) : bool := match kind with Some NK_Service => true | _ => false end.

Definition add_membership (memberships : gmap NodeId (gset NodeId)) (member service : NodeId) : gmap NodeId (gset NodeId) :=
  <[member := {[service]} ∪ default ∅ (memberships !! member)]> memberships.

Definition derive_service_memberships (nodes : list Node) (edges : list Edge) : gmap NodeId (list NodeId) :=
  let kinds := btree_collect (map (λ node, (node_id node, node_kind node)) nodes) in
  bset_elements <$>
    foldl (λ memberships edge,
      if negb (bool_decide (edge_kind edge = Contains)) then memberships
      else
        let source := kinds !! edge_source edge in
        let target := kinds !! edge_target edge in
        if is_service source && is_some target then add_membership memberships (edge_target edge) (edge_source edge)
        else if is_some source && is_service target then add_membership memberships (edge_source edge) (edge_target edge)
        else memberships) (∅ : gmap NodeId (gset NodeId)) edges.

(** ** Aggregates and summary *)
Definition collect_nodes (services : list Node) (map : gmap NodeId Node) : gmap NodeId Node :=
  foldl (λ m node, <[node_id node := node]> m) map services.

Definition aggregate_touched (change_set : ChangeSet) (changed_node_ids : gset NodeId) (nodes : gmap NodeId Node)
    (community : option CommunitySnapshot) (deltas : list SemanticContractDelta) (impacts : list ImpactReport)
    : list RepoId * list Node * list CommunityId * list Node :=
  let changed := omap (λ id, nodes !! id) (bset_elements changed_node_ids) in
  let repositories :=
    {[cs_repo_id change_set]} ∪ bset_collect (omap node_repo_id changed)
    ∪ bset_collect (concat (map (λ impact, map ri_repo_id (rep_affected_repositories impact)) impacts)) in
  let services :=
    collect_nodes (concat (map (λ impact, map si_service (rep_affected_services impact)) impacts))
      (collect_nodes (List.filter (λ node, is_service (Some (node_kind node))) changed) ∅) in
  let contracts :=
    collect_nodes (concat (map (λ impact, map co_contract (rep_affected_contracts impact)) impacts))
      (collect_nodes (map sd_contract deltas)
        (collect_nodes (List.filter (λ node, is_boundary_kind (node_kind node)) changed) ∅)) in
  let communities :=
    bset_collect (concat (map (λ impact, map cm_community_id (rep_affected_communities impact)) impacts))
    ∪ match community with
      | None => ∅
      | Some snapshot =>
          bset_collect (map com_id
            (List.filter (λ item, existsb (λ member, bool_decide (member ∈ changed_node_ids)) (com_members item)) (snap_communities snapshot)))
      end in
  (bset_elements repositories, btree_values services, bset_elements communities, btree_values contracts).

Definition risk_rank (risk : RiskLevel) : N :=
  match risk with Low => 0 | Medium => 1 | High => 2 | Critical => 3 | Unknown => 4 end.
Definition max_risk (risks : list RiskLevel) : option RiskLevel :=
  foldl (λ best risk,
    match best with Some b => if (risk_rank risk <? risk_rank b)%N then best else Some risk | None => Some risk end) None risks.

Definition summarize (coverage : ChangeAnalysisCoverage) (changed_entities changed_contracts : N) (impacts : list ImpactReport)
    : ChangeAnalysisSummary :=
  {| sm_conclusion :=
       if negb (cv_complete coverage) then Conclusion_Unknown
       else if (0 <? changed_entities)%N || (0 <? changed_contracts)%N || negb (is_empty_list impacts) then ImpactDetected
       else NoSemanticImpactDetected;
     sm_highest_risk := if cv_complete coverage then default Low (max_risk (map rep_risk impacts)) else Unknown;
     sm_changed_entities := changed_entities; sm_changed_contracts := changed_contracts; sm_impact_reports := len impacts |}.

(** ** The analysis *)
Record AnalysisInput := {
  in_change_set : ChangeSet;
  in_nodes : list Node;
  in_edges : list Edge;
  in_evidence : list Evidence;
  in_community : option CommunitySnapshot;
  in_freshness : list RepoFreshness;
  in_compatibility : list ContractCompatibilityInput;
  in_options : ChangeAnalysisOptions;
}.

(** What is hashed, in the order of the identifiers, and its serialisation by a
    library. *)
Definition analyzer_material (input : AnalysisInput) : AnalysisInput := {|
  in_change_set := in_change_set input;
  in_nodes := sort_by (cmp_on node_id cmp) (in_nodes input);
  in_edges := sort_by (cmp_on edge_id cmp) (in_edges input);
  in_evidence := sort_by (cmp_on ev_id cmp) (in_evidence input);
  in_community := in_community input;
  in_freshness := sort_by (then_with (cmp_on rf_repo_id cmp) (cmp_on rf_checkout_id cmp)) (in_freshness input);
  in_compatibility := sort_by (then_with (cmp_on cc_contract_node_id cmp) (cmp_on (λ c, default "" (cc_file_path c)) cmp)) (in_compatibility input);
  in_options := in_options input;
|}.
Class MaterialCodec := material_to_vec : string → AnalysisInput → result string string.

Definition analyzer_fingerprint `{Blake3, MaterialCodec} (input : AnalysisInput) : result ChangeAnalysisError string :=
  match material_to_vec CHANGE_ANALYZER_VERSION (analyzer_material input) with
  | Ok encoded => Ok (blake3_hex encoded)
  | Err source => Err (CAE_Fingerprint source)
  end.

Definition impact_options (options : ChangeAnalysisOptions) : ImpactOptions :=
  {| opt_max_depth := ao_max_depth options; opt_node_limit := ao_max_changed_nodes options; opt_edge_limit := 50000;
     opt_confirmed_confidence := default_confirmed_confidence; opt_offset := 0; opt_limit := ao_limit options;
     opt_summary_only := ao_summary_only options; opt_include_depth_buckets := true |}.

(** [for target in &impact_target_ids] *)
Fixpoint analyze_targets (options : ChangeAnalysisOptions) (context : ImpactContext) (targets : list NodeId)
    : option (result ChangeAnalysisError (list ImpactReport)) :=
  match targets with
  | [] => Some (Ok [])
  | target :: targets =>
      let request := {| req_target := Target_NodeId target; req_direction := ao_direction options; req_options := impact_options options |} in
      match analyze_impact request context with
      | None => None
      | Some (Err source) => Some (Err (CAE_Impact target source))
      | Some (Ok report) =>
          match analyze_targets options context targets with
          | Some (Ok reports) => Some (Ok (report :: reports))
          | other => other
          end
      end
  end.

(** The mappings of the files within the bound, and their nodes within the bound. *)
Record Mapped := {
  mp_work : list MappingWork;
  mp_gaps : gset string;
  mp_truncated : bool;
  mp_total_nodes : N;
  mp_retained : gset NodeId;
}.

Definition all_node_ids (mapping : ChangedArtifactMapping) : list NodeId :=
  am_artifact_node_ids mapping ++ am_symbol_ref_node_ids mapping ++ am_boundary_node_ids mapping.

Definition files_gap (bound total : N) : string := "changed files truncated at " +:+ pretty bound +:+ "; " +:+ pretty total +:+ " files were present".
Definition nodes_gap (bound total : N) : string := "changed graph nodes truncated at " +:+ pretty bound +:+ "; " +:+ pretty total +:+ " nodes were mapped".
Definition targets_gap (bound total : N) : string :=
  "impact targets truncated at " +:+ pretty bound +:+ "; " +:+ pretty total +:+ " exact changed boundaries were mapped".
Definition GAP_COMPATIBILITY : string := "one or more changed contracts lack complete before/after compatibility data".
Definition GAP_NODES_TRUNCATED : string := "mapped node identities were truncated by the configured node bound".

Definition map_changes (input : AnalysisInput) (nodes : gmap NodeId Node) (evidence : gmap EvidenceId Evidence) : Mapped :=
  let options := in_options input in
  let change_set := in_change_set input in
  let ordered_files := sort_by changed_file_order (cs_files change_set) in
  let total_changed_files := len ordered_files in
  let ordered_files := take (N.to_nat (ao_max_changed_files options)) ordered_files in
  let work :=
    sort_by mapping_order
      (map (λ file, map_changed_file file (cs_repo_id change_set) (in_edges input) nodes evidence) ordered_files) in
  let gaps := bset_collect (concat (map (λ w, am_gaps (mw_mapping w)) work)) in
  let truncated := (len work <? total_changed_files)%N in
  let gaps := gap_if truncated (files_gap (ao_max_changed_files options) total_changed_files) gaps in
  let all_ids := bset_collect (concat (map (λ w, all_node_ids (mw_mapping w)) work)) : gset NodeId in
  let total_changed_nodes := N.of_nat (size all_ids) in
  let retained := bset_collect (take (N.to_nat (ao_max_changed_nodes options)) (bset_elements all_ids)) : gset NodeId in
  if (N.of_nat (size retained) <? total_changed_nodes)%N then
    {| mp_work :=
         map (λ w, {| mw_mapping := degrade_mapping GAP_NODES_TRUNCATED (retain_node_ids retained (mw_mapping w));
                      mw_representable_paths := mw_representable_paths w |}) work;
       mp_gaps := {[nodes_gap (ao_max_changed_nodes options) total_changed_nodes]} ∪ gaps;
       mp_truncated := true; mp_total_nodes := total_changed_nodes; mp_retained := retained |}
  else
    {| mp_work := work; mp_gaps := gaps; mp_truncated := truncated; mp_total_nodes := total_changed_nodes; mp_retained := retained |}.

Definition is_complete (w : MappingWork) : bool := bool_decide (am_completeness (mw_mapping w) = Map_Complete).

Definition impact_context (input : AnalysisInput) (deltas : list SemanticContractDelta) (boundaries : gset NodeId) (complete : bool)
    (gaps : gset string) : ImpactContext := {|
  ctx_nodes := in_nodes input;
  ctx_edges := in_edges input;
  ctx_communities := in_community input;
  ctx_freshness := freshness_for_change_set (in_change_set input) (in_freshness input);
  ctx_compatibility := map impact_compatibility_input deltas;
  ctx_local_enrichment := [];
  ctx_public_contracts := bset_elements boundaries;
  ctx_criticality := [];
  ctx_centrality := ∅;
  ctx_service_memberships := derive_service_memberships (in_nodes input) (in_edges input);
  ctx_environments := [];
  ctx_recommended_commands := [];
  ctx_graph_complete := complete;
  ctx_coverage_gaps := bset_elements gaps;
|}.

(** [None] when the fuel of an impact analysis runs out. *)
Definition analyze_changes `{Blake3, MaterialCodec} (input : AnalysisInput) : option (result ChangeAnalysisError ChangeImpactReport) :=
  let options := in_options input in
  let change_set := in_change_set input in
  match validate_options options with
  | Err error => Some (Err error)
  | Ok _ =>
  match analyzer_fingerprint input with
  | Err error => Some (Err error)
  | Ok fingerprint =>
      let nodes := btree_collect (map (λ node, (node_id node, node)) (in_nodes input)) in
      let evidence := btree_collect (map (λ item, (ev_id item, item)) (in_evidence input)) in
      let mapped := map_changes input nodes evidence in
      let work := mp_work mapped in
      let total_changed_files := len (cs_files change_set) in
      let entities := build_changed_entities work nodes in
      let changed_entity_count := len entities in
      let changed_entities :=
        if ao_summary_only options then []
        else take (N.to_nat (ao_limit options)) (drop (N.to_nat (N.min (ao_offset options) changed_entity_count)) entities) in
      let boundaries := bset_collect (concat (map (λ w, am_boundary_node_ids (mw_mapping w)) work)) : gset NodeId in
      let total_impact_targets := N.of_nat (size boundaries) in
      let targets := take (N.to_nat (ao_max_impact_targets options)) (bset_elements boundaries) in
      let targets_cut := (len targets <? total_impact_targets)%N in
      let truncated := mp_truncated mapped || targets_cut in
      let gaps := gap_if targets_cut (targets_gap (ao_max_impact_targets options) total_impact_targets) (mp_gaps mapped) in
      let deltas := build_contract_deltas boundaries work nodes (in_compatibility input) in
      let gaps := gap_if (existsb incomparable_or_unknown deltas) GAP_COMPATIBILITY gaps in
      let complete_changed_files := len (List.filter is_complete work) in
      let provisional_complete :=
        negb truncated && (len work =? total_changed_files)%N && (complete_changed_files =? total_changed_files)%N
        && negb (existsb incomparable_or_unknown deltas) in
      let context := impact_context input deltas boundaries provisional_complete gaps in
      match analyze_targets options context targets with
      | None => None
      | Some (Err error) => Some (Err error)
      | Some (Ok impacts) =>
          let impacts := sort_by (cmp_on (λ impact, node_id (rt_node (rep_target impact))) cmp) impacts in
          let gaps := gaps ∪ bset_collect (concat (map (λ impact, cvs_gaps (rep_coverage impact)) impacts)) in
          let truncated := truncated || existsb (λ impact, is_some (rep_truncation impact)) impacts in
          let complete :=
            provisional_complete
            && forallb (λ impact, cvs_sufficient_for_score (rep_coverage impact) && negb (is_some (rep_truncation impact))) impacts in
          let coverage := {|
            cv_complete := complete;
            cv_total_changed_files := total_changed_files;
            cv_analyzed_changed_files := len work;
            cv_mapped_changed_files := len (List.filter (λ w, negb (is_empty_list (am_matched_evidence_ids (mw_mapping w)))) work);
            cv_complete_changed_files := complete_changed_files;
            cv_total_changed_nodes := mp_total_nodes mapped;
            cv_retained_changed_nodes := N.of_nat (size (mp_retained mapped));
            cv_total_impact_targets := total_impact_targets;
            cv_analyzed_impact_targets := len impacts;
            cv_truncated := truncated;
            cv_gaps := bset_elements gaps |} in
          let '(repositories, services, communities, contracts) :=
            aggregate_touched change_set (mp_retained mapped) nodes (in_community input) deltas impacts in
          Some (Ok {|
            ir_analyzer_version := CHANGE_ANALYZER_VERSION;
            ir_analyzer_fingerprint := fingerprint;
            ir_change_set := change_set;
            ir_mappings := map mw_mapping work;
            ir_changed_entities := changed_entities;
            ir_contract_deltas := deltas;
            ir_impacts := impacts;
            ir_touched_repositories := repositories;
            ir_touched_services := services;
            ir_touched_communities := communities;
            ir_touched_contracts := contracts;
            ir_coverage := coverage;
            ir_summary := summarize coverage changed_entity_count (len deltas) impacts |})
      end
  end
  end.

Definition validate_change_analysis (report : ChangeImpactReport) (current : ChangeValidityInput) : ChangeValidity :=
  validate_change_set (ir_change_set report) current.

(** ** What a mapping says

    How an evidence is hit through one side of a file: on the lines of a hunk, or
    by its path when lines cannot be compared. *)
Definition hit_lines (file : ChangedFile) (repo_id : RepoId) (entry : ChangedPathSide * NativePath) (item : Evidence) : bool :=
  match native_path_text entry.2 with
  | None => false
  | Some text =>
      about_path repo_id text item && negb (cf_binary file) && negb (is_untracked file)
      && negb (is_empty_list (intersections file entry.1 item))
  end.
Definition hit_path (file : ChangedFile) (repo_id : RepoId) (entry : ChangedPathSide * NativePath) (item : Evidence) : bool :=
  match native_path_text entry.2 with
  | None => false
  | Some text =>
      about_path repo_id text item
      && (cf_binary file || is_untracked file || negb (is_some (evidence_range item)) || is_empty_list (hunk_ranges file entry.1))
  end.
Definition hit (file : ChangedFile) (repo_id : RepoId) (entry : ChangedPathSide * NativePath) (item : Evidence) : bool :=
  hit_lines file repo_id entry item || hit_path file repo_id entry item.

Lemma intersections_empty file side item :
  evidence_range item = None ∨ hunk_ranges file side = [] → intersections file side item = [].
Proof. unfold intersections. intros [->|E]; [done|]. destruct (evidence_range item); [|done]. by rewrite E. Qed.

Lemma hits_exclusive file repo_id entry item : hit_lines file repo_id entry item = true → hit_path file repo_id entry item = false.
Proof.
  unfold hit_lines, hit_path. destruct (native_path_text entry.2); [|done]. rewrite !andb_true_iff, !negb_true_iff. intros [[[-> ->] ->] Hne].
  simpl. apply orb_false_iff. split.
  - apply negb_false_iff. destruct (evidence_range item) eqn:E; [done|]. by rewrite intersections_empty in Hne by by left.
  - apply not_true_iff_false. intros Hr%is_empty_list_true. by rewrite intersections_empty in Hne by by right.
Qed.

(** One evidence. *)
Lemma scan_evidence_step file repo_id side path text scan item :
  native_path_text path = Some text →
  let scan' := scan_evidence file repo_id side text scan item in
  let entry := (side, path) in
  sc_matched scan' = (if hit file repo_id entry item then {[ev_id item]} ∪ sc_matched scan else sc_matched scan) ∧
  sc_sides scan' = (if hit file repo_id entry item then {[side]} ∪ sc_sides scan else sc_sides scan) ∧
  sc_line_match scan' = sc_line_match scan || hit_lines file repo_id entry item ∧
  sc_fallback_match scan' = sc_fallback_match scan || hit_path file repo_id entry item ∧
  sc_gaps scan' = sc_gaps scan ∧ sc_unrepresentable scan' = sc_unrepresentable scan.
Proof.
  intros Htext. pose proof (hits_exclusive file repo_id (side, path) item) as Hex. unfold hit, hit_lines, hit_path in *. simpl in *. rewrite Htext in *.
  unfold scan_evidence. destruct (about_path repo_id text item); simpl in *; [|by rewrite !orb_false_r].
  destruct (negb (cf_binary file) && negb (is_untracked file) && negb (is_empty_list (intersections file side item))) eqn:E; simpl in *.
  - rewrite Hex by done. by rewrite !orb_false_r.
  - destruct (cf_binary file || is_untracked file || negb (is_some (evidence_range item)) || is_empty_list (hunk_ranges file side)); simpl; by rewrite ?orb_false_r.
Qed.

(** What a scan knows of the evidence in a list, through the sides in a list. *)
Definition scanned (file : ChangedFile) (repo_id : RepoId) (evidence : list Evidence) (entries : list (ChangedPathSide * NativePath)) (scan : Scan) : Prop :=
  (∀ id, id ∈ sc_matched scan ↔ ∃ entry, entry ∈ entries ∧ ∃ item, item ∈ evidence ∧ id = ev_id item ∧ hit file repo_id entry item = true) ∧
  (∀ side, side ∈ sc_sides scan ↔ ∃ entry, entry ∈ entries ∧ ∃ item, item ∈ evidence ∧ side = entry.1 ∧ hit file repo_id entry item = true) ∧
  (sc_line_match scan = true ↔ ∃ entry, entry ∈ entries ∧ ∃ item, item ∈ evidence ∧ hit_lines file repo_id entry item = true) ∧
  (sc_fallback_match scan = true ↔ ∃ entry, entry ∈ entries ∧ ∃ item, item ∈ evidence ∧ hit_path file repo_id entry item = true) ∧
  (sc_unrepresentable scan = true ↔ ∃ entry, entry ∈ entries ∧ native_path_text entry.2 = None) ∧
  (sc_unrepresentable scan = false ↔ sc_gaps scan = ∅).

Lemma exists_elem_snoc {A} (P : A → Prop) l x : (∃ y, y ∈ l ++ [x] ∧ P y) ↔ (∃ y, y ∈ l ∧ P y) ∨ P x.
Proof.
  split.
  - intros (y & [Hy|Hy%list_elem_of_singleton]%elem_of_app & HP); [left; by exists y|right; by subst].
  - intros [(y & Hy & HP)|HP]; [exists y|exists x]; (split; [|done]); apply elem_of_app; [by left|right; by apply list_elem_of_singleton].
Qed.

Lemma exists_elem_nil {A} (P : A → Prop) : (∃ y, y ∈ [] ∧ P y) ↔ False.
Proof. split; [|done]. by intros (y & []%elem_of_nil & _). Qed.

Lemma scan_items file repo_id side path text items scan :
  native_path_text path = Some text →
  let scan' := foldl (scan_evidence file repo_id side text) scan items in
  let entry := (side, path) in
  (∀ id, id ∈ sc_matched scan' ↔ id ∈ sc_matched scan ∨ ∃ item, item ∈ items ∧ id = ev_id item ∧ hit file repo_id entry item = true) ∧
  (∀ s, s ∈ sc_sides scan' ↔ s ∈ sc_sides scan ∨ ∃ item, item ∈ items ∧ s = side ∧ hit file repo_id entry item = true) ∧
  (sc_line_match scan' = true ↔ sc_line_match scan = true ∨ ∃ item, item ∈ items ∧ hit_lines file repo_id entry item = true) ∧
  (sc_fallback_match scan' = true ↔ sc_fallback_match scan = true ∨ ∃ item, item ∈ items ∧ hit_path file repo_id entry item = true) ∧
  sc_gaps scan' = sc_gaps scan ∧ sc_unrepresentable scan' = sc_unrepresentable scan.
Proof.
  intros Htext. simpl. induction items as [|item items (IHm & IHs & IHl & IHf & IHg & IHu)] using rev_ind.
  { simpl. split_and!; try done; intros; rewrite exists_elem_nil; tauto. }
  rewrite foldl_app. simpl. set (scan1 := foldl _ scan items) in *.
  destruct (scan_evidence_step file repo_id side path text scan1 item Htext) as (-> & -> & -> & -> & -> & ->). clearbody scan1.
  rewrite !orb_true_iff, IHl, IHf, !exists_elem_snoc. split_and!; [| |tauto..|done|done].
  - intros id. rewrite exists_elem_snoc. specialize (IHm id).
    destruct (hit file repo_id (side, path) item); [rewrite elem_of_union, elem_of_singleton|]; rewrite IHm; [tauto|]. split; [tauto|]. intros [?|[?|[? [=]]]]; tauto.
  - intros s. rewrite exists_elem_snoc. specialize (IHs s).
    destruct (hit file repo_id (side, path) item); [rewrite elem_of_union, elem_of_singleton|]; rewrite IHs; [tauto|]. split; [tauto|]. intros [?|[?|[? [=]]]]; tauto.
Qed.

Lemma scan_sides file repo_id evidence entries :
  scanned file repo_id evidence entries (foldl (scan_side file repo_id evidence) empty_scan entries).
Proof.
  unfold scanned. induction entries as [|[side path] entries (IHm & IHs & IHl & IHf & IHu & IHg)] using rev_ind.
  { simpl. split_and!; try done; intros; rewrite exists_elem_nil; set_solver. }
  rewrite foldl_app. simpl. set (scan1 := foldl _ empty_scan entries) in *. clearbody scan1.
  rewrite !exists_elem_snoc. destruct (native_path_text path) as [text|] eqn:E; simpl.
  - match goal with |- context [foldl _ ?s _] => destruct (scan_items file repo_id side path text evidence s E) as (Hm & Hs & Hl & Hf & Hg & Hu) end.
    simpl in *. rewrite Hl, Hf, Hg, Hu, IHl, IHf, IHu. split_and!; [| |done|done| |done].
    + intros id. rewrite Hm, IHm, exists_elem_snoc. done.
    + intros s. rewrite Hs, IHs, exists_elem_snoc. done.
    + split; [by left|]. intros [?|[=]]; [done|congruence].
  - assert (Hno : ∀ item, hit_lines file repo_id (side, path) item = false ∧ hit_path file repo_id (side, path) item = false).
    { intros item. unfold hit_lines, hit_path. simpl. by rewrite E. }
    assert (Hhit : ∀ item, hit file repo_id (side, path) item = false) by (intros item; unfold hit; by destruct (Hno item) as [-> ->]).
    split_and!.
    + intros id. rewrite IHm, exists_elem_snoc. setoid_rewrite Hhit. naive_solver.
    + intros s. rewrite IHs, exists_elem_snoc. setoid_rewrite Hhit. naive_solver.
    + rewrite IHl. split; [by left|]. intros [?|(item & _ & Hl)]; [done|]. by rewrite (proj1 (Hno item)) in Hl.
    + rewrite IHf. split; [by left|]. intros [?|(item & _ & Hf)]; [done|]. by rewrite (proj2 (Hno item)) in Hf.
    + tauto.
    + split; [done|set_solver].
Qed.

(** ** The nodes of an evidence *)
Definition plays (role : ChangedEntityRole) (kind : NodeKind) : bool :=
  match role with
  | Role_Artifact => bool_decide (kind = NK_Artifact)
  | Role_SymbolRef => bool_decide (kind = NK_SymbolRef)
  | Role_Boundary => is_boundary_kind kind
  end.
Definition role_set (role : ChangedEntityRole) (sets : NodeSets) : gset NodeId :=
  match role with Role_Artifact => sets.1.1 | Role_SymbolRef => sets.1.2 | Role_Boundary => sets.2 end.

(** A node at an end of an edge that carries one of the evidence. *)
Definition carried_by (ids : gset EvidenceId) (edges : list Edge) (id : NodeId) : Prop :=
  ∃ edge, edge ∈ edges ∧ (∃ e, e ∈ edge_evidence edge ∧ e ∈ ids) ∧ (id = edge_source edge ∨ id = edge_target edge).
Definition node_plays (nodes : gmap NodeId Node) (role : ChangedEntityRole) (id : NodeId) : Prop :=
  ∃ node, nodes !! id = Some node ∧ plays role (node_kind node) = true.

Lemma add_endpoint_elem nodes sets id role id' :
  id' ∈ role_set role (add_endpoint nodes sets id) ↔ id' ∈ role_set role sets ∨ (id' = id ∧ node_plays nodes role id).
Proof.
  destruct sets as [[artifact symbol] boundary]. unfold add_endpoint, node_plays. destruct (nodes !! id) as [node|]; [|naive_solver].
  assert (Hn : ∀ P : Prop, (P ∨ id' = id ∧ ∃ n, Some node = Some n ∧ plays role (node_kind n) = true) ↔ P ∨ id' = id ∧ plays role (node_kind node) = true)
    by naive_solver.
  rewrite Hn. destruct role, (node_kind node); simpl; rewrite ?elem_of_union, ?elem_of_singleton; naive_solver.
Qed.

Lemma nodes_for_evidence_spec ids edges nodes :
  let '(artifact, symbol, boundary) := nodes_for_evidence ids edges nodes in
  (∀ id, id ∈ artifact ↔ node_plays nodes Role_Artifact id ∧ carried_by ids edges id) ∧
  (∀ id, id ∈ symbol ↔ node_plays nodes Role_SymbolRef id ∧ carried_by ids edges id) ∧
  (∀ id, id ∈ boundary ↔ node_plays nodes Role_Boundary id ∧ carried_by ids edges id).
Proof.
  unfold nodes_for_evidence. set (step := λ (sets : NodeSets) edge, _).
  assert (Hfold : ∀ role id, id ∈ role_set role (foldl step (∅, ∅, ∅) edges) ↔ node_plays nodes role id ∧ carried_by ids edges id).
  { unfold carried_by. induction edges as [|edge edges IH] using rev_ind; intros role id.
    - simpl. rewrite exists_elem_nil. destruct role; set_solver.
    - rewrite foldl_app, exists_elem_snoc. simpl. unfold step at 1. set (sets := foldl step _ edges) in *. clearbody sets.
      assert (Hev : existsb (λ e, bool_decide (e ∈ ids)) (edge_evidence edge) = true ↔ ∃ e, e ∈ edge_evidence edge ∧ e ∈ ids).
      { rewrite existsb_In. by setoid_rewrite bool_decide_eq_true. }
      destruct (existsb _ (edge_evidence edge)).
      + cbn [foldl]. rewrite !add_endpoint_elem, IH. assert (He : ∃ e, e ∈ edge_evidence edge ∧ e ∈ ids) by by apply Hev.
        split; [intros [[[? ?]|[-> ?]]|[-> ?]]; tauto|]. intros [Hp [He'|[_ [->| ->]]]]; tauto.
      + rewrite IH. split; [tauto|]. intros [Hp [?|[He _]]]; [done|]. by apply Hev in He. }
  destruct (foldl step (∅, ∅, ∅) edges) as [[artifact symbol] boundary] eqn:E.
  split_and!; intros id; rewrite bset_elements_elem_of; [apply (Hfold Role_Artifact)|apply (Hfold Role_SymbolRef)|apply (Hfold Role_Boundary)].
Qed.

(** ** What a mapping is *)

(** The evidence is of the repository and of the file on one side of the change. *)
Definition concerns (repo_id : RepoId) (entry : ChangedPathSide * NativePath) (item : Evidence) : Prop :=
  ∃ text, native_path_text entry.2 = Some text ∧ ev_repo_id item = Some repo_id ∧ ev_file_path item = Some text.
(** Its lines and those of a hunk overlap. *)
Definition lines_changed (file : ChangedFile) (side : ChangedPathSide) (item : Evidence) : Prop :=
  cf_binary file = false ∧ is_untracked file = false ∧
  ∃ range index hunk, evidence_range item = Some range ∧ (index, hunk) ∈ hunk_ranges file side ∧ (hunk.1 ≤ range.2)%N ∧ (range.1 ≤ hunk.2)%N.
(** Its lines cannot be compared with those of a hunk. *)
Definition lines_unknown (file : ChangedFile) (side : ChangedPathSide) (item : Evidence) : Prop :=
  cf_binary file = true ∨ is_untracked file = true ∨ evidence_range item = None ∨ hunk_ranges file side = [].

Lemma about_path_spec repo_id text item : about_path repo_id text item = true ↔ ev_repo_id item = Some repo_id ∧ ev_file_path item = Some text.
Proof.
  unfold about_path. rewrite andb_true_iff, bool_decide_eq_true. destruct (ev_file_path item) as [p|]; simpl; [|naive_solver].
  rewrite negb_involutive, String.eqb_eq. naive_solver.
Qed.

Lemma hit_lines_spec file repo_id entry item :
  hit_lines file repo_id entry item = true ↔ concerns repo_id entry item ∧ lines_changed file entry.1 item.
Proof.
  unfold hit_lines, concerns, lines_changed. destruct (native_path_text entry.2) as [text|]; [|split; [done|intros [(t & [=] & _) _]]].
  rewrite !andb_true_iff, about_path_spec, !negb_true_iff.
  assert (Hi : is_empty_list (intersections file entry.1 item) = false ↔
    ∃ range index hunk, evidence_range item = Some range ∧ (index, hunk) ∈ hunk_ranges file entry.1 ∧ (hunk.1 ≤ range.2)%N ∧ (range.1 ≤ hunk.2)%N).
  { unfold intersections. destruct (evidence_range item) as [range|]; [|split; [done|by intros (? & ? & ? & [=] & _)]].
    rewrite (bool_false_iff _ _ (is_empty_list_true _)). split.
    - intros Hne. destruct (List.filter _ _) as [|[index hunk] hits] eqn:E; [done|].
      assert (Hin : (index, hunk) ∈ List.filter (λ entry, ranges_intersect entry.2 range) (hunk_ranges file entry.1)) by (rewrite E; by left).
      apply list_filter_In in Hin as [Hin Hr]. unfold ranges_intersect in Hr. rewrite andb_true_iff, !N.leb_le in Hr. by exists range, index, hunk.
    - intros (r & index & hunk & [= <-] & Hin & Hr) E. assert (Hf : (index, hunk) ∈ List.filter (λ entry, ranges_intersect entry.2 range) (hunk_ranges file entry.1)).
      { apply list_filter_In. split; [done|]. unfold ranges_intersect. by rewrite andb_true_iff, !N.leb_le. }
      rewrite E in Hf. by apply elem_of_nil in Hf. }
  rewrite Hi. split.
  - intros [[[[Hr Hp] Hb] Hu] Hx]. split; [by exists text|done].
  - intros [(t & [= <-] & Hr & Hp) (Hb & Hu & Hx)]. done.
Qed.

Lemma hit_path_spec file repo_id entry item :
  hit_path file repo_id entry item = true ↔ concerns repo_id entry item ∧ lines_unknown file entry.1 item.
Proof.
  unfold hit_path, concerns, lines_unknown. destruct (native_path_text entry.2) as [text|]; [|split; [done|intros [(t & [=] & _) _]]].
  rewrite andb_true_iff, about_path_spec, !orb_true_iff, is_empty_list_true, negb_true_iff.
  assert (He : is_some (evidence_range item) = false ↔ evidence_range item = None) by (destruct (evidence_range item); done).
  rewrite He. split; [intros [[? ?] ?]; split; [by exists text|tauto]|]. intros [(t & [= <-] & ? & ?) ?]. tauto.
Qed.

Lemma hit_spec file repo_id entry item :
  hit file repo_id entry item = true ↔ concerns repo_id entry item ∧ (lines_changed file entry.1 item ∨ lines_unknown file entry.1 item).
Proof. unfold hit. rewrite orb_true_iff, hit_lines_spec, hit_path_spec. tauto. Qed.

Lemma relevant_sides_NoDup file : NoDup (relevant_sides file).*1.
Proof.
  unfold relevant_sides. destruct (cf_status file), (cf_old_path file), (cf_new_path file); unfold effective_path; repeat case_match; simpl;
    repeat constructor; set_solver.
Qed.

Lemma relevant_sides_length file : (length (relevant_sides file) ≤ expected_side_count file)%nat.
Proof.
  unfold relevant_sides, expected_side_count, effective_path.
  destruct (cf_status file), (cf_old_path file), (cf_new_path file); simpl; lia.
Qed.

(** The sides with a hit are all those expected exactly when each one has a hit. *)
Lemma all_sides (sides : gset ChangedPathSide) file :
  (∀ side, side ∈ sides → side ∈ (relevant_sides file).*1) →
  (size sides ≤ expected_side_count file)%nat ∧
  (size sides = expected_side_count file ↔ length (relevant_sides file) = expected_side_count file ∧ ∀ side, side ∈ (relevant_sides file).*1 → side ∈ sides).
Proof.
  intros Hsub. pose proof (relevant_sides_length file) as Hlen. pose proof (relevant_sides_NoDup file) as Hnd.
  assert (Hsize : size (list_to_set (relevant_sides file).*1 : gset ChangedPathSide) = length (relevant_sides file)).
  { rewrite size_list_to_set by done. by rewrite length_fmap. }
  assert (Hs : sides ⊆ list_to_set (relevant_sides file).*1) by (intros side Hin; apply elem_of_list_to_set; by apply Hsub).
  pose proof (subseteq_size _ _ Hs) as Hle. split; [lia|]. split.
  - intros E. split; [lia|]. intros side Hin. assert (Heq : sides = list_to_set (relevant_sides file).*1).
    { apply set_subseteq_size_eq; [done|lia]. }
    rewrite Heq. by apply elem_of_list_to_set.
  - intros [E Hall]. assert (Heq : list_to_set (relevant_sides file).*1 ⊆ sides) by (intros side Hin%elem_of_list_to_set; by apply Hall).
    pose proof (subseteq_size _ _ Heq). lia.
Qed.

Lemma gap_if_empty condition gap gaps : gap_if condition gap gaps = ∅ ↔ condition = false ∧ gaps = ∅.
Proof. unfold gap_if. destruct condition; [|naive_solver]. split; [set_solver|by intros [[=] _]]. Qed.

Lemma bset_elements_nil {A} `{Countable A, !Ord A, !TotalOrd A} (s : gset A) : bset_elements s = [] ↔ s = ∅.
Proof. rewrite <-length_zero_iff_nil, bset_elements_length, size_empty_iff. by unfold_leibniz. Qed.

(** When the scan of the sides and the boundaries found make a mapping complete. *)
Definition complete_scan (file : ChangedFile) (scan : Scan) (boundary : list NodeId) : Prop :=
  sc_unrepresentable scan = false ∧ sc_matched scan ≠ ∅ ∧ cf_binary file = false ∧ is_untracked file = false ∧
  sc_line_match scan = true ∧ sc_fallback_match scan = false ∧ size (sc_sides scan) = expected_side_count file ∧ boundary ≠ [].

Lemma complete_scan_gaps file repo_id evidence scan boundary :
  scanned file repo_id evidence (relevant_sides file) scan →
  (size (sc_sides scan) ≤ expected_side_count file)%nat →
  complete_scan file scan boundary ↔
  cf_binary file = false ∧ is_untracked file = false ∧ sc_matched scan ≠ ∅ ∧ sc_fallback_match scan = false ∧
  (expected_side_count file ≤ size (sc_sides scan))%nat ∧ boundary ≠ [] ∧ sc_gaps scan = ∅.
Proof.
  intros (Hm & _ & Hl & Hf & _ & Hg) Hle. unfold complete_scan. split.
  - intros (Hu & Hne & ? & ? & _ & ? & Hsize & ?). split_and!; try done; [lia|by apply Hg].
  - intros (? & ? & Hne & Hfall & Hsize & ? & Hgaps). split_and!; try done; [by apply Hg| |lia].
    apply set_choose_L in Hne as [id Hid]. apply Hm in Hid as (entry & Hentry & item & Hitem & _ & Hhit). apply Hl. exists entry. split; [done|].
    exists item. split; [done|]. unfold hit in Hhit. apply orb_true_iff in Hhit as [|Hpath]; [done|]. exfalso.
    apply not_true_iff_false in Hfall. apply Hfall, Hf. eauto.
Qed.

Lemma complete_scan_sides file repo_id evidence scan boundary :
  scanned file repo_id evidence (relevant_sides file) scan →
  (boundary ≠ [] → sc_matched scan ≠ ∅) →
  complete_scan file scan boundary ↔
  length (relevant_sides file) = expected_side_count file ∧ boundary ≠ [] ∧
  (∀ entry, entry ∈ relevant_sides file → ∃ item, item ∈ evidence ∧ concerns repo_id entry item ∧ lines_changed file entry.1 item) ∧
  ∀ entry item, entry ∈ relevant_sides file → item ∈ evidence → concerns repo_id entry item → ¬ lines_unknown file entry.1 item.
Proof.
  intros (Hm & Hs & Hl & Hf & Hu & _) Hboundary. destruct (all_sides (sc_sides scan) file) as [_ Hsides].
  { intros side (entry & He & _ & _ & -> & _)%Hs. by apply list_elem_of_fmap_2. }
  unfold complete_scan. rewrite Hsides. split.
  - intros (_ & _ & _ & _ & _ & Hfall & [Hlen Hall] & Hb).
    assert (Hnone : ∀ entry item, entry ∈ relevant_sides file → item ∈ evidence → hit_path file repo_id entry item = false).
    { intros entry item He Hi. apply not_true_iff_false. intros Hp. apply not_true_iff_false in Hfall. apply Hfall, Hf. eauto. }
    split_and!; [done..| |].
    + intros entry He. assert (Hside : entry.1 ∈ sc_sides scan) by by apply Hall, list_elem_of_fmap_2.
      apply Hs in Hside as (entry' & He' & item & Hi & Efst & Hhit).
      assert (entry' = entry) as -> by by eapply (NoDup_map_inj fst (relevant_sides file)); [apply relevant_sides_NoDup|..].
      exists item. split; [done|]. apply hit_lines_spec. unfold hit in Hhit. rewrite Hnone, orb_false_r in Hhit by done. done.
    + intros entry item He Hi Hc Hunk. assert (Hp : hit_path file repo_id entry item = true) by by apply hit_path_spec.
      by rewrite Hnone in Hp.
  - intros (Hlen & Hb & Hall & Hnone). pose proof (Hboundary Hb) as Hne.
    assert (Hone : ∃ entry, entry ∈ relevant_sides file).
    { apply set_choose_L in Hne as [id (entry & He & _)%Hm]. by exists entry. }
    destruct Hone as [entry0 He0]. destruct (Hall entry0 He0) as (item0 & Hi0 & Hc0 & Hl0). pose proof Hl0 as (Hbin & Hunt & _).
    split_and!; try done.
    + apply not_true_iff_false. intros (entry & He & Hnt)%Hu. destruct (Hall entry He) as (_ & _ & (text & Ht & _) & _). congruence.
    + apply Hl. exists entry0. split; [done|]. exists item0. split; [done|]. by apply hit_lines_spec.
    + apply not_true_iff_false. intros (entry & He & item & Hi & [Hc Hunk]%hit_path_spec)%Hf. by eapply Hnone.
    + intros side Hin. apply list_elem_of_fmap in Hin as (entry & -> & He). destruct (Hall entry He) as (item & Hi & Hc & Hlines). apply Hs.
      exists entry. split; [done|]. exists item. split_and!; [done..|]. apply hit_spec. by split; [|left].
Qed.

(** C23: A changed file is mapped to exactly the evidence of its repository and paths
    whose lines overlap a hunk, or whose lines cannot be compared, and to exactly
    the nodes at the edges that carry this evidence. The mapping is complete
    exactly when it reports no gap, and exactly when every side of the change is
    hit on its lines, nothing is hit by its path alone, and a boundary is
    reached; it is unknown exactly when a path is not text or nothing is hit. *)
Theorem mapping_exact file repo_id edges nodes evidence :
  let mapping := mw_mapping (map_changed_file file repo_id edges nodes evidence) in
  let hits entry item := concerns repo_id entry item ∧ (lines_changed file entry.1 item ∨ lines_unknown file entry.1 item) in
  (∀ id, id ∈ am_matched_evidence_ids mapping ↔
    ∃ entry, entry ∈ relevant_sides file ∧ ∃ item, item ∈ btree_values evidence ∧ id = ev_id item ∧ hits entry item) ∧
  (∀ role id, id ∈ node_ids role mapping ↔ node_plays nodes role id ∧ carried_by (list_to_set (am_matched_evidence_ids mapping)) edges id) ∧
  (am_completeness mapping = Map_Complete ↔ am_gaps mapping = []) ∧
  (am_completeness mapping = Map_Complete ↔
    length (relevant_sides file) = expected_side_count file ∧ am_boundary_node_ids mapping ≠ [] ∧
    (∀ entry, entry ∈ relevant_sides file → ∃ item, item ∈ btree_values evidence ∧ concerns repo_id entry item ∧ lines_changed file entry.1 item) ∧
    ∀ entry item, entry ∈ relevant_sides file → item ∈ btree_values evidence → concerns repo_id entry item → ¬ lines_unknown file entry.1 item) ∧
  (am_completeness mapping = Map_Unknown ↔
    (∃ entry, entry ∈ relevant_sides file ∧ native_path_text entry.2 = None) ∨ am_matched_evidence_ids mapping = []).
Proof.
  simpl. pose proof (scan_sides file repo_id (btree_values evidence) (relevant_sides file)) as (Hm & Hs & Hl & Hf & Hu & Hg).
  unfold map_changed_file. set (scan := foldl _ empty_scan _) in *. clearbody scan.
  pose proof (nodes_for_evidence_spec (sc_matched scan) edges nodes) as Hn. destruct (nodes_for_evidence _ edges nodes) as [[artifact symbol] boundary].
  cbn [mw_mapping am_matched_evidence_ids am_completeness am_gaps am_boundary_node_ids].
  destruct (all_sides (sc_sides scan) file) as [Hle Hsides].
  { intros side (entry & He & _ & _ & -> & _)%Hs. by apply list_elem_of_fmap_2. }
  assert (Hboundary : boundary ≠ [] → sc_matched scan ≠ ∅).
  { intros Hb E. destruct boundary as [|id boundary]; [done|]. destruct Hn as (_ & _ & Hn). destruct (proj1 (Hn id) ltac:(by left)) as (_ & edge & _ & (e & _ & He) & _).
    rewrite E in He. by apply elem_of_empty in He. }
  assert (Hscan : scanned file repo_id (btree_values evidence) (relevant_sides file) scan) by done.
  set (completeness := if _ || _ then Map_Unknown else _).
  assert (Hcomplete : completeness = Map_Complete ↔ complete_scan file scan boundary).
  { unfold completeness, complete_scan. destruct (sc_unrepresentable scan); [split; [done|by intros [? _]]|]. simpl.
    case_bool_decide as Hempty; [split; [done|by intros (_ & ? & _)]|].
    rewrite <-(bool_false_iff _ _ (is_empty_list_true boundary)), <-(Nat.eqb_eq (size (sc_sides scan))).
    destruct (cf_binary file); [split; [done|by intros (_ & _ & ? & _)]|]. destruct (is_untracked file); [split; [done|by intros (_ & _ & _ & ? & _)]|].
    destruct (sc_line_match scan), (sc_fallback_match scan), (Nat.eqb _ _), (is_empty_list boundary); simpl; split; try done;
      intros (_ & _ & _ & _ & ? & ? & ? & ?); done. }
  split_and!.
  - intros id. rewrite bset_elements_elem_of, Hm. by setoid_rewrite hit_spec.
  - assert (Hset : list_to_set (bset_elements (sc_matched scan)) = sc_matched scan).
    { apply set_eq. intros x. by rewrite elem_of_list_to_set, bset_elements_elem_of. }
    rewrite Hset. destruct Hn as (Ha & Hsym & Hb). by intros [] id.
  - rewrite Hcomplete, (complete_scan_gaps _ _ _ _ _ Hscan Hle), bset_elements_nil, !gap_if_empty, Nat.ltb_ge, bool_decide_eq_false.
    rewrite (bool_false_iff _ _ (is_empty_list_true boundary)). split; [|tauto]. intros (? & ? & ? & ? & ? & Hb & ?). split_and!; try done.
    rewrite (proj2 (bool_false_iff _ _ (is_empty_list_true boundary))) by done. by rewrite !andb_false_r.
  - by rewrite Hcomplete, (complete_scan_sides _ _ _ _ _ Hscan).
  - rewrite bset_elements_nil, <-Hu. unfold completeness. destruct (sc_unrepresentable scan); simpl; [naive_solver|].
    case_bool_decide; [naive_solver|]. match goal with |- context [if ?b then _ else _] => destruct b end; naive_solver.
Qed.

(** ** What the analysis concludes *)
Lemma last_max_spec {A} (rank : A → N) l best :
  let pick := foldl (λ best x, match best with Some b => if (rank x <? rank b)%N then best else Some x | None => Some x end) best l in
  (pick = None ↔ best = None ∧ l = []) ∧
  (∀ x, pick = Some x → (best = Some x ∨ x ∈ l) ∧ (∀ y, best = Some y ∨ y ∈ l → (rank y ≤ rank x)%N)).
Proof.
  simpl. revert best. induction l as [|a l IH]; intros best; simpl.
  { split; [naive_solver|]. intros x ->. split; [by left|]. intros y [[= ->]|[]%elem_of_nil]; done. }
  destruct (IH (match best with Some b => if (rank a <? rank b)%N then best else Some a | None => Some a end)) as [IHn IHs]. split.
  - rewrite IHn. destruct best; [|naive_solver]. case_match; naive_solver.
  - intros x Hx. destruct (IHs x Hx) as [Hin Hmax]. split.
    + destruct best as [b|]; [destruct (N.ltb_spec (rank a) (rank b))|]; set_solver.
    + intros y Hy. destruct best as [b|]; [destruct (N.ltb_spec (rank a) (rank b))|].
      * destruct Hy as [[= ->]|[->|Hy]%elem_of_cons]; [by apply Hmax; left| |by apply Hmax; right].
        transitivity (rank b); [lia|]. by apply Hmax; left.
      * destruct Hy as [[= ->]|[->|Hy]%elem_of_cons]; [|by apply Hmax; left|by apply Hmax; right].
        transitivity (rank a); [lia|]. by apply Hmax; left.
      * destruct Hy as [[=]|[->|Hy]%elem_of_cons]; [by apply Hmax; left|by apply Hmax; right].
Qed.

(** The reports of the targets, in their order. *)
Definition target_request (options : ChangeAnalysisOptions) (target : NodeId) : ImpactRequest :=
  {| req_target := Target_NodeId target; req_direction := ao_direction options; req_options := impact_options options |}.

Lemma analyze_targets_ok options context targets reports :
  analyze_targets options context targets = Some (Ok reports) →
  Forall2 (λ target report, analyze_impact (target_request options target) context = Some (Ok report)) targets reports.
Proof.
  revert reports. induction targets as [|target targets IH]; intros reports; simpl; [by intros [= <-]; constructor|].
  destruct (analyze_impact _ context) as [[report|error]|] eqn:E; [|done..].
  destruct (analyze_targets options context targets) as [[rest|]|]; [|done..]. intros [= <-]. constructor; [exact E|by apply IH].
Qed.

Lemma analyze_targets_ends options context targets :
  match analyze_targets options context targets with
  | None => False
  | Some (Ok _) => True
  | Some (Err error) => ∃ target source, target ∈ targets ∧ error = CAE_Impact target source ∧
      analyze_impact (target_request options target) context = Some (Err source)
  end.
Proof.
  induction targets as [|target targets IH]; simpl; [done|]. fold (target_request options target).
  pose proof (analyze_impact_total (target_request options target) context) as Ht.
  destruct (analyze_impact _ context) as [[report|source]|] eqn:E; [|by exists target, source; split; [left|]|done].
  destruct (analyze_targets options context targets) as [[rest|error]|]; [done| |done].
  destruct IH as (t & source & Hin & -> & Hs). exists t, source. split; [by right|done].
Qed.

(** The files of an analysis that was not cut are mapped one by one. *)
Definition file_mappings (input : AnalysisInput) : list MappingWork :=
  map (λ file, map_changed_file file (cs_repo_id (in_change_set input)) (in_edges input)
         (btree_collect (map (λ node, (node_id node, node)) (in_nodes input)))
         (btree_collect (map (λ item, (ev_id item, item)) (in_evidence input)))) (cs_files (in_change_set input)).

Lemma map_changes_uncut input :
  let mapped := map_changes input (btree_collect (map (λ node, (node_id node, node)) (in_nodes input)))
    (btree_collect (map (λ item, (ev_id item, item)) (in_evidence input))) in
  mp_truncated mapped = false → mp_work mapped ≡ₚ file_mappings input.
Proof.
  simpl. unfold map_changes. set (nodes := btree_collect _). set (evidence := btree_collect _). cbv zeta.
  match goal with |- context [if ?b then _ else _] => destruct b end; [done|]. simpl. rewrite N.ltb_ge. unfold len.
  rewrite (Permutation_length (sort_by_perm mapping_order _)), length_map, length_take, (Permutation_length (sort_by_perm changed_file_order _)).
  intros Hle. rewrite sort_by_perm. unfold file_mappings. apply Permutation_map.
  rewrite take_ge by (rewrite (Permutation_length (sort_by_perm changed_file_order _)); lia). apply sort_by_perm.
Qed.

Definition boundaries_of (mappings : list ChangedArtifactMapping) : gset NodeId :=
  bset_collect (concat (map am_boundary_node_ids mappings)).

(** The parts of an analysis that answers. *)
Record analysis_run `{Blake3, MaterialCodec} (input : AnalysisInput) (report : ChangeImpactReport) (mapped : Mapped)
    (context : ImpactContext) (reports : list ImpactReport) : Prop := {
  run_change_set : ir_change_set report = in_change_set input;
  run_mappings : ir_mappings report = map mw_mapping (mp_work mapped);
  run_reports : Forall2 (λ target impact, analyze_impact (target_request (in_options input) target) context = Some (Ok impact))
    (take (N.to_nat (ao_max_impact_targets (in_options input))) (bset_elements (boundaries_of (ir_mappings report)))) reports;
  run_impacts : ir_impacts report ≡ₚ reports;
  run_empty : mp_work mapped = [] → sm_changed_entities (ir_summary report) = 0%N ∧ ir_contract_deltas report = [];
  run_summary : ir_summary report = summarize (ir_coverage report)
    (sm_changed_entities (ir_summary report)) (len (ir_contract_deltas report)) (ir_impacts report);
  run_truncated : cv_truncated (ir_coverage report) =
    mp_truncated mapped || (ao_max_impact_targets (in_options input) <? N.of_nat (size (boundaries_of (ir_mappings report))))%N
    || existsb (λ impact, is_some (rep_truncation impact)) (ir_impacts report);
  run_complete : cv_complete (ir_coverage report) =
    negb (mp_truncated mapped || (ao_max_impact_targets (in_options input) <? N.of_nat (size (boundaries_of (ir_mappings report))))%N)
    && (len (mp_work mapped) =? len (cs_files (in_change_set input)))%N
    && (len (List.filter is_complete (mp_work mapped)) =? len (cs_files (in_change_set input)))%N
    && negb (existsb incomparable_or_unknown (ir_contract_deltas report))
    && forallb (λ impact, cvs_sufficient_for_score (rep_coverage impact) && negb (is_some (rep_truncation impact))) (ir_impacts report);
}.

Lemma take_cut (n : N) (ids : gset NodeId) :
  (len (take (N.to_nat n) (bset_elements ids)) <? N.of_nat (size ids))%N = (n <? N.of_nat (size ids))%N.
Proof.
  unfold len. rewrite length_take, bset_elements_length. destruct (N.ltb_spec n (N.of_nat (size ids))); [apply N.ltb_lt|apply N.ltb_ge]; lia.
Qed.

Lemma analyze_changes_run `{Blake3, MaterialCodec} input report :
  analyze_changes input = Some (Ok report) →
  ∃ context reports,
    analysis_run input report (map_changes input (btree_collect (map (λ node, (node_id node, node)) (in_nodes input)))
      (btree_collect (map (λ item, (ev_id item, item)) (in_evidence input)))) context reports.
Proof.
  unfold analyze_changes. destruct (validate_options _) as [|]; [|done]. destruct (analyzer_fingerprint _) as [fingerprint|]; [|done].
  set (nodes := btree_collect (map (λ node, (node_id node, node)) _)). set (evidence := btree_collect _).
  set (mapped := map_changes input nodes evidence). cbv zeta.
  match goal with |- context [analyze_targets _ ?c _] => set (context := c) end.
  destruct (analyze_targets _ context _) as [[reports|]|] eqn:Et; [|done..]. intros [= <-]. exists context, reports.
  apply analyze_targets_ok in Et. split; cbn [ir_change_set ir_mappings ir_impacts ir_contract_deltas ir_summary ir_coverage cv_complete cv_truncated sm_changed_entities];
    unfold boundaries_of; rewrite ?map_map.
  - done.
  - done.
  - exact Et.
  - apply sort_by_perm.
  - by intros ->.
  - done.
  - by rewrite take_cut.
  - by rewrite take_cut.
Qed.

Lemma target_of_report options context id impact :
  analyze_impact (target_request options id) context = Some (Ok impact) → node_id (rt_node (rep_target impact)) = id.
Proof.
  intros (nodes & target & items & truncation & possible & unknown & Hv & Ht & _ & ->)%analyze_impact_report.
  destruct (impact_report_risk (target_request options id) context nodes target items truncation possible unknown) as (_ & _ & _ & ->).
  apply validate_context_valid in Hv. rewrite (cv_nodes _ _ _ Hv) in Ht. simpl in Ht. unfold ok_or in Ht.
  destruct (btree_collect _ !! id) as [node|] eqn:E; [|done]. injection Ht as <-. simpl.
  apply btree_collect_lookup_Some, list_elem_of_fmap in E as (n & En & _). by injection En as -> ->.
Qed.

Lemma complete_mapping_boundary file repo_id edges nodes evidence :
  let mapping := mw_mapping (map_changed_file file repo_id edges nodes evidence) in
  am_completeness mapping = Map_Complete → am_boundary_node_ids mapping ≠ [].
Proof.
  simpl. unfold map_changed_file. destruct (nodes_for_evidence _ edges nodes) as [[artifact symbol] boundary]. simpl.
  destruct (_ || _); [done|]. destruct boundary; [|done]. simpl. by rewrite andb_false_r.
Qed.

Lemma no_files_mapped input nodes evidence :
  cs_files (in_change_set input) = [] → mp_work (map_changes input nodes evidence) = [] ∧ mp_truncated (map_changes input nodes evidence) = false.
Proof. intros E. unfold map_changes. rewrite E. change (sort_by changed_file_order []) with (@nil ChangedFile). rewrite take_nil. by destruct (N.to_nat (ao_max_changed_nodes _)). Qed.

Lemma count_all {A} (f : A → bool) l : (len (List.filter f l) =? len l)%N = true ↔ ∀ x, x ∈ l → f x = true.
Proof.
  rewrite N.eqb_eq. unfold len. induction l as [|x l IH]; simpl; [split; [intros _ x []%elem_of_nil|done]|].
  pose proof (List.filter_length_le f l). destruct (f x) eqn:E; simpl.
  - setoid_rewrite elem_of_cons. split; [|intros Hl; assert (Hr : ∀ y, y ∈ l → f y = true) by naive_solver; apply IH in Hr; lia].
    intros Hlen y [->|Hy]; [done|]. apply IH; [lia|done].
  - split; [lia|]. intros Hl. rewrite Hl in E by left. done.
Qed.

Section conclusions.
Context `{Blake3, MaterialCodec}.
Variables (input : AnalysisInput) (report : ChangeImpactReport) (context : ImpactContext) (reports : list ImpactReport).
Local Notation mapped := (map_changes input (btree_collect (map (λ node, (node_id node, node)) (in_nodes input)))
      (btree_collect (map (λ item, (ev_id item, item)) (in_evidence input)))).
Hypothesis Hrun : analysis_run input report mapped context reports.

(** What complete coverage says. *)
Lemma run_covered :
  cv_complete (ir_coverage report) = true →
  cv_truncated (ir_coverage report) = false ∧
  ir_mappings report ≡ₚ map mw_mapping (file_mappings input) ∧
  (∀ mapping, mapping ∈ ir_mappings report → am_completeness mapping = Map_Complete) ∧
  Forall2 (λ target impact, analyze_impact (target_request (in_options input) target) context = Some (Ok impact))
    (bset_elements (boundaries_of (ir_mappings report))) reports ∧
  (∀ impact, impact ∈ ir_impacts report → cvs_sufficient_for_score (rep_coverage impact) = true) ∧
  ∀ delta, delta ∈ ir_contract_deltas report → incomparable_or_unknown delta = false.
Proof.
  rewrite (run_complete _ _ _ _ _ Hrun), (run_truncated _ _ _ _ _ Hrun), !andb_true_iff, forallb_In.
  intros ((((Hcut%negb_true_iff & _) & Hcomplete) & Hdelta%negb_true_iff) & Himpact). pose proof Hcut as [Hfiles Htargets]%orb_false_iff.
  pose proof (map_changes_uncut input Hfiles) as Hperm.
  assert (Hwork : ∀ w, w ∈ mp_work mapped → is_complete w = true).
  { apply count_all. rewrite <-Hcomplete. f_equal. unfold len. f_equal.
    rewrite (Permutation_length Hperm). unfold file_mappings. by rewrite length_map. }
  split_and!.
  - rewrite Hcut. simpl. apply not_true_iff_false. intros (impact & Hi & Ht)%existsb_In. apply Himpact, andb_true_iff in Hi as [_ Hi].
    by rewrite Ht in Hi.
  - rewrite (run_mappings _ _ _ _ _ Hrun). by apply Permutation_map.
  - rewrite (run_mappings _ _ _ _ _ Hrun). intros mapping (w & -> & Hw)%list_elem_of_fmap. by eapply bool_decide_eq_true, Hwork.
  - pose proof (run_reports _ _ _ _ _ Hrun) as Hr. rewrite take_ge in Hr; [done|]. rewrite bset_elements_length. apply N.ltb_ge in Htargets. lia.
  - intros impact Hi. by apply Himpact, andb_true_iff in Hi as [Hi _].
  - intros delta Hd. apply not_true_iff_false. intros Hu. apply not_true_iff_false in Hdelta. apply Hdelta, existsb_In. by exists delta.
Qed.

(** Every boundary of a mapping has its impact. *)
Lemma run_boundary id :
  cv_complete (ir_coverage report) = true → id ∈ boundaries_of (ir_mappings report) →
  ∃ impact, impact ∈ ir_impacts report ∧ node_id (rt_node (rep_target impact)) = id.
Proof.
  intros (_ & _ & _ & Hr & _)%run_covered Hid. apply bset_elements_elem_of, list_elem_of_lookup in Hid as [i Hi].
  destruct (Forall2_lookup_l _ _ _ _ _ Hr Hi) as (impact & Himp & Ha). exists impact. split; [|by eapply target_of_report].
  rewrite (run_impacts _ _ _ _ _ Hrun). by eapply list_elem_of_lookup_2.
Qed.

Lemma run_impact impact :
  impact ∈ ir_impacts report → ∃ target, analyze_impact (target_request (in_options input) target) context = Some (Ok impact).
Proof.
  rewrite (run_impacts _ _ _ _ _ Hrun). intros [i Hi]%list_elem_of_lookup.
  destruct (Forall2_lookup_r _ _ _ _ _ (run_reports _ _ _ _ _ Hrun) Hi) as (target & _ & Ha). by exists target.
Qed.

(** Nothing is concluded to be without impact but no change at all. *)
Lemma run_no_impact :
  sm_conclusion (ir_summary report) = NoSemanticImpactDetected ↔ cs_files (in_change_set input) = [].
Proof.
  rewrite (run_summary _ _ _ _ _ Hrun). simpl. split.
  - destruct (cv_complete (ir_coverage report)) eqn:Hc; [simpl|done]. destruct (cs_files (in_change_set input)) as [|file files] eqn:Ef; [done|].
    destruct (run_covered Hc) as (_ & Hperm & Hcomplete & _).
    set (w := map_changed_file file (cs_repo_id (in_change_set input)) (in_edges input)
         (btree_collect (map (λ node, (node_id node, node)) (in_nodes input))) (btree_collect (map (λ item, (ev_id item, item)) (in_evidence input)))).
    assert (Hw : mw_mapping w ∈ ir_mappings report).
    { rewrite Hperm. unfold file_mappings. rewrite Ef. left. }
    pose proof (complete_mapping_boundary _ _ _ _ _ (Hcomplete _ Hw)) as Hb. destruct (am_boundary_node_ids (mw_mapping w)) as [|id ids] eqn:Eb; [done|].
    destruct (run_boundary id Hc) as (impact & Hi & _).
    { unfold boundaries_of, bset_collect. apply elem_of_list_to_set, list_elem_of_In, in_concat. exists (id :: ids). split; [|by left].
      rewrite <-Eb. by apply in_map, list_elem_of_In. }
    destruct (ir_impacts report); [by apply elem_of_nil in Hi|]. by rewrite orb_true_r.
  - intros Ef. destruct (no_files_mapped input (btree_collect (map (λ node, (node_id node, node)) (in_nodes input)))
      (btree_collect (map (λ item, (ev_id item, item)) (in_evidence input))) Ef) as [Hwork Htr].
    destruct (run_empty _ _ _ _ _ Hrun Hwork) as [-> Hd].
    assert (Hm : ir_mappings report = []) by by rewrite (run_mappings _ _ _ _ _ Hrun), Hwork.
    assert (Hi : ir_impacts report = []).
    { pose proof (run_reports _ _ _ _ _ Hrun) as Hr. rewrite Hm in Hr. change (bset_elements (boundaries_of [])) with (@nil NodeId) in Hr.
      rewrite take_nil in Hr. apply Forall2_nil_inv_l in Hr. apply Permutation_nil. rewrite <-Hr. symmetry. apply (run_impacts _ _ _ _ _ Hrun). }
    rewrite (run_complete _ _ _ _ _ Hrun), Hwork, Htr, Hd, Hi, Hm, Ef. simpl. by destruct (ao_max_impact_targets _).
Qed.
End conclusions.

(** C21: An analysis of changes concludes only what it covers. Its conclusion and its
    risk are unknown exactly when its coverage is incomplete. With complete
    coverage nothing was truncated, every file is mapped completely, every changed
    boundary has an impact with a score and without uncertain items, no greater
    than the reported risk, and every contract delta is known. That there is no
    impact is concluded exactly of a change set without files. *)
Theorem conclusion_is_safe `{Blake3, MaterialCodec} input report :
  analyze_changes input = Some (Ok report) →
  let complete := cv_complete (ir_coverage report) in
  let summary := ir_summary report in
  (sm_conclusion summary = Conclusion_Unknown ↔ complete = false) ∧
  (sm_highest_risk summary = Unknown ↔ complete = false) ∧
  (sm_conclusion summary = NoSemanticImpactDetected ↔ cs_files (in_change_set input) = []) ∧
  (complete = true →
    cv_truncated (ir_coverage report) = false ∧
    ir_mappings report ≡ₚ map mw_mapping (file_mappings input) ∧
    (∀ mapping, mapping ∈ ir_mappings report → am_completeness mapping = Map_Complete ∧
      ∀ id, id ∈ am_boundary_node_ids mapping →
        ∃ impact, impact ∈ ir_impacts report ∧ node_id (rt_node (rep_target impact)) = id) ∧
    (∀ impact, impact ∈ ir_impacts report →
      is_Some (rep_risk_score impact) ∧ rep_truncation impact = None ∧ rep_possibly_affected impact = [] ∧
      rep_unknown_due_to_coverage impact = [] ∧ (risk_rank (rep_risk impact) ≤ risk_rank (sm_highest_risk summary))%N) ∧
    ∀ delta, delta ∈ ir_contract_deltas report → incomparable_or_unknown delta = false).
Proof.
  intros (context & reports & Hrun)%analyze_changes_run. cbv zeta.
  assert (Hknown : ∀ impact, impact ∈ ir_impacts report → cvs_sufficient_for_score (rep_coverage impact) = true → rep_risk impact ≠ Unknown).
  { intros impact Hi Hs Hr. destruct (run_impact _ _ _ _ Hrun impact Hi) as [target Ha]. apply (proj1 (report_known _ _ _ Ha)) in Hr. congruence. }
  destruct (last_max_spec risk_rank (map rep_risk (ir_impacts report)) None) as [_ Hmax]. fold (max_risk (map rep_risk (ir_impacts report))) in Hmax.
  pose proof (run_no_impact _ _ _ _ Hrun) as Hnone. rewrite (run_summary _ _ _ _ _ Hrun) in *. simpl in *.
  destruct (cv_complete (ir_coverage report)) eqn:Hc; simpl in *; [|done]. split_and!; [|split; [|done]|done|].
  - split; [|done]. by destruct (_ || _).
  - destruct (max_risk _) as [risk|] eqn:Er; simpl; [|done]. intros ->. destruct (Hmax _ eq_refl) as [[[=]|Hin] _].
    apply list_elem_of_fmap in Hin as (impact & Hu & Hi). exfalso. eapply Hknown; [exact Hi| |done]. by eapply run_covered.
  - intros _. destruct (run_covered _ _ _ _ Hrun Hc) as (Ht & Hperm & Hcomplete & _ & Hsufficient & Hdelta). split_and!; try done.
    + intros mapping Hm. split; [by apply Hcomplete|]. intros id Hid. apply (run_boundary _ _ _ _ Hrun id Hc).
      unfold boundaries_of, bset_collect. apply elem_of_list_to_set, list_elem_of_In, in_concat. eexists. split; [by apply in_map, list_elem_of_In|].
      by apply list_elem_of_In.
    + intros impact Hi. destruct (run_impact _ _ _ _ Hrun impact Hi) as [target Ha]. pose proof (Hsufficient impact Hi) as Hs.
      destruct (sufficient_report _ _ _ Ha Hs) as (Htr & _ & _ & _ & Hp & Hu). split_and!; try done.
      * destruct (report_known _ _ _ Ha) as [_ Hscore]. destruct (rep_risk_score impact); [done|]. rewrite (proj1 Hscore) in Hs by done. done.
      * destruct (max_risk _) as [risk|] eqn:Er; simpl.
        { apply (Hmax risk eq_refl). right. apply list_elem_of_fmap. by exists impact. }
        { destruct (last_max_spec risk_rank (map rep_risk (ir_impacts report)) None) as [Hn _]. apply Hn in Er as [_ Er].
          destruct (ir_impacts report); [by apply elem_of_nil in Hi|done]. }
Qed.

(** An analysis always ends. It is refused only for its bounds, when its material
    cannot be serialised, or when the impact of a changed boundary cannot be
    analysed. *)
Theorem analyze_changes_ends `{Blake3, MaterialCodec} input :
  match analyze_changes input with
  | None => False
  | Some (Ok report) => validate_options (in_options input) = Ok tt ∧ analyzer_fingerprint input = Ok (ir_analyzer_fingerprint report)
  | Some (Err CAE_InvalidBounds) => validate_options (in_options input) = Err CAE_InvalidBounds
  | Some (Err (CAE_Fingerprint source)) => analyzer_fingerprint input = Err (CAE_Fingerprint source)
  | Some (Err (CAE_Impact target source)) =>
      ∃ context, analyze_impact (target_request (in_options input) target) context = Some (Err source)
  end.
Proof.
  unfold analyze_changes.
  destruct (validate_options _) as [[]|error] eqn:Ev; [|unfold validate_options in Ev; destruct (_ || _) in Ev; by simplify_eq].
  destruct (analyzer_fingerprint _) as [fingerprint|error] eqn:Ef;
    [|unfold analyzer_fingerprint in Ef; destruct (material_to_vec _ _); by simplify_eq].
  cbv zeta. match goal with |- context [analyze_targets ?o ?c ?t] => pose proof (analyze_targets_ends o c t) as Ht; set (context := c) in * end.
  destruct (analyze_targets _ context _) as [[reports|error]|]; [done| |done]. destruct Ht as (target & source & _ & -> & Ha). by exists context.
Qed.

Module Example_changes.
#[local] Instance no_digest : Blake3 := λ text, text.
#[local] Instance no_codec : MaterialCodec := λ version _, Ok version.

Definition endpoint (id : string) (kind : NodeKind) : Node :=
  {| node_id := id; node_kind := kind; node_repo_id := Some "repo"; node_stable_key := id; node_label := id |}.
Definition nodes : list Node := [endpoint "file" NK_Artifact; endpoint "get" NK_HttpOperation; endpoint "old" NK_HttpOperation].
Definition provides (id target evidence : string) : Edge :=
  {| edge_id := id; edge_source := "file"; edge_target := target; edge_kind := Contains; edge_confidence := f32_one;
     edge_status := Confirmed; edge_evidence := [evidence] |}.
Definition found (id : string) (first last : N) : Evidence :=
  {| ev_id := id; ev_repo_id := Some "repo"; ev_file_path := Some "api.rs"; ev_start_line := Some first; ev_end_line := Some last;
     ev_extractor := "x"; ev_extractor_version := "1"; ev_provenance := Prov_Extracted; ev_confidence := f32_one;
     ev_observed_at_commit := None; ev_content_hash := None; ev_note := None |}.
Definition hunk (old old_count new new_count : N) : ChangeHunk :=
  {| ch_old_start := old; ch_old_count := old_count; ch_new_start := new; ch_new_count := new_count; ch_lines := [] |}.
Definition changed (status : ChangedFileStatus) (hunks : list ChangeHunk) : ChangedFile :=
  {| cf_status := status; cf_old_path := Some (Example_gate.bytes "api.rs"); cf_new_path := Some (Example_gate.bytes "api.rs");
     cf_binary := false; cf_hunks := hunks; cf_source := Layer_Worktree |}.
Definition compared (contract before after : string) (status : CompatibilityStatus) : ContractCompatibilityInput :=
  {| cc_file_path := Some "api.rs"; cc_contract_node_id := contract;
     cc_report := Some {| cr_status := status; cr_before_fingerprint := before; cr_after_fingerprint := after; cr_findings := [] |} |}.
Definition freshness : RepoFreshness :=
  {| rf_repo_id := "repo"; rf_checkout_id := "checkout"; rf_head_commit := Some "h"; rf_manifest_hash := "m"; rf_state := RF_Fresh;
     rf_reason := None |}.
Definition input (files : list ChangedFile) (compatibility : list ContractCompatibilityInput) : AnalysisInput :=
  {| in_change_set := Example_gate.set files; in_nodes := nodes;
     in_edges := [provides "1" "get" "e-get"; provides "2" "old" "e-old"]; in_evidence := [found "e-get" 10 12; found "e-old" 30 34];
     in_community := None; in_freshness := [freshness]; in_compatibility := compatibility;
     in_options := {| ao_max_changed_files := 5; ao_max_changed_nodes := 9; ao_max_impact_targets := 5; ao_direction := Upstream;
                      ao_max_depth := 3; ao_offset := 0; ao_limit := 9; ao_summary_only := false |} |}.
Definition outcome (r : option (result ChangeAnalysisError ChangeImpactReport))
    : option (bool * ChangeConclusion * list (MappingCompleteness * list EvidenceId) * list (NodeId * CompatibilityStatus)) :=
  match r with
  | Some (Ok r) => Some (cv_complete (ir_coverage r), sm_conclusion (ir_summary r),
      map (λ m, (am_completeness m, am_matched_evidence_ids m)) (ir_mappings r),
      map (λ d, (node_id (sd_contract d), sd_status d)) (ir_contract_deltas r))
  | _ => None
  end.

Definition narrowed : AnalysisInput := input [changed Status_Modified [hunk 10 2 10 3]] [compared "get" "a" "b" CS_Compatible].

Example analysis_complete :
  outcome (analyze_changes narrowed) = Some (true, ImpactDetected, [(Map_Complete, ["e-get"])], [("get", CS_Compatible)]).
Proof. vm_compute. reflexivity. Qed.

Example analysis_unmatched :
  outcome (analyze_changes (input [changed Status_Modified [hunk 20 1 20 1]] [])) = Some (false, Conclusion_Unknown, [(Map_Unknown, [])], []).
Proof. vm_compute. reflexivity. Qed.

Lemma conclusion_is_safe_witness :
  ∃ report, analyze_changes narrowed = Some (Ok report) ∧ cv_complete (ir_coverage report) = true ∧
    cv_truncated (ir_coverage report) = false ∧ sm_conclusion (ir_summary report) ≠ NoSemanticImpactDetected.
Proof.
  destruct (analyze_changes narrowed) as [[report|e]|] eqn:E; try (vm_compute in E; discriminate E).
  destruct (conclusion_is_safe narrowed report E) as (_ & _ & Hnone & Hcomplete).
  assert (Ho : outcome (Some (Ok report)) = Some (true, ImpactDetected, [(Map_Complete, ["e-get"])], [("get", CS_Compatible)]))
    by (rewrite <-E; vm_compute; reflexivity).
  injection Ho as Hc Hi _ _. exists report. split; [reflexivity|]. split; [exact Hc|]. split; [exact (proj1 (Hcomplete Hc))|].
  intros Hn. apply Hnone in Hn. vm_compute in Hn. discriminate Hn.
Defined.

(** A modification whose second hunk only removes lines, those of an endpoint:
    only the new side is compared, so that the analysis is complete without it. *)
Lemma removed_lines_ignored :
  outcome (analyze_changes (input [changed Status_Modified [hunk 10 2 10 2; hunk 30 5 29 0]] [compared "get" "a" "b" CS_Compatible])) =
  Some (true, ImpactDetected, [(Map_Complete, ["e-get"])], [("get", CS_Compatible)]).
Proof. vm_compute. reflexivity. Qed.

(** Two reports that agree that a contract breaks, with different fingerprints. *)
Lemma breaking_becomes_unknown :
  outcome (analyze_changes (input [changed Status_Modified [hunk 10 2 10 3]]
    [compared "get" "a" "b" CS_Breaking; compared "get" "a" "c" CS_Breaking])) =
  Some (false, Conclusion_Unknown, [(Map_Complete, ["e-get"])], [("get", CS_Unknown)]).
Proof. vm_compute. reflexivity. Qed.

(** Truncation makes the mapping of a file without evidence a partial one. *)
Lemma truncation_upgrades_mappings :
  let input := input [changed Status_Deleted [hunk 50 1 49 0]; changed Status_Modified [hunk 10 2 10 3]] [] in
  let bounded := {| in_change_set := in_change_set input; in_nodes := in_nodes input; in_edges := in_edges input; in_evidence := in_evidence input;
    in_community := None; in_freshness := []; in_compatibility := [];
    in_options := {| ao_max_changed_files := 5; ao_max_changed_nodes := 1; ao_max_impact_targets := 5; ao_direction := Upstream;
                     ao_max_depth := 3; ao_offset := 0; ao_limit := 9; ao_summary_only := false |} |} in
  map (λ i, (λ o, o.1.2) <$> outcome (analyze_changes i)) [input; bounded] =
  [Some [(Map_Complete, ["e-get"]); (Map_Unknown, [])]; Some [(Map_Partial, ["e-get"]); (Map_Partial, [])]].
Proof. vm_compute. reflexivity. Qed.
End Example_changes.
