(* ===== verification/RustText.v ===== *)
(** * Texts: lines, blanks and words

    The [str] methods that the readers of configuration files use, beyond those
    of [RustStr], with the classes of ASCII characters. *)
From Stdlib Require Import NArith Ascii.
From stdpp Require Import base sets list strings.
From S2P Require Import Prelude RustStr.

(** ** Classes of characters *)
Definition is_ascii_lowercase (c : ascii) : bool := ascii_in 97 122 c.
Definition is_ascii_uppercase (c : ascii) : bool := ascii_in 65 90 c.
Definition is_ascii_digit (c : ascii) : bool := ascii_in 48 57 c.
Definition is_ascii_alphabetic (c : ascii) : bool := is_ascii_uppercase c || is_ascii_lowercase c.
Definition is_ascii_alnum (c : ascii) : bool := is_ascii_alphabetic c || is_ascii_digit c.
(** [u8::is_ascii_whitespace]: space, tab, line feed, form feed, carriage return. *)
Definition is_ascii_blank (c : ascii) : bool :=
  let code := N_of_ascii c in ((code =? 32) || (code =? 9) || (code =? 10) || (code =? 12) || (code =? 13))%N.

Definition str_all (f : ascii → bool) (s : string) : bool := negb (str_any (λ c, negb (f c)) s).

Lemma str_all_cons f c s : str_all f (String c s) = f c && str_all f s.
Proof. unfold str_all. simpl. rewrite negb_orb, negb_involutive. done. Qed.
Lemma str_all_app f s t : str_all f (s +:+ t) = str_all f s && str_all f t.
Proof. unfold str_all. by rewrite str_any_app, negb_orb. Qed.
Lemma str_all_none f g s : (∀ c, f c = true → g c = false) → str_all f s = true → str_any g s = false.
Proof.
  intros Hfg. unfold str_all. rewrite negb_true_iff. induction s as [|c s IH]; simpl; [done|]. intros [Hc Hs]%orb_false_iff.
  apply negb_false_iff in Hc. by rewrite Hfg, IH.
Qed.

(** ** Characters of a text *)
Definition text_of (cs : list (N * string)) : string := foldr (λ p acc, p.2 +:+ acc) EmptyString cs.

Lemma text_of_app cs ds : text_of (cs ++ ds) = text_of cs +:+ text_of ds.
Proof. induction cs as [|c cs IH]; simpl; [done|]. by rewrite IH, string_app_assoc. Qed.

Lemma chars_fuel_enough s n m : (String.length s ≤ n)%nat → (String.length s ≤ m)%nat → chars_fuel n s = chars_fuel m s.
Proof.
  revert m s. induction n as [|n IH]; intros m s Hn Hm; [destruct s; simpl in *; [by destruct m|lia]|].
  destruct s as [|c s]; [by destruct m|]. destruct m as [|m]; simpl in Hm; [lia|]. simpl in Hn. cbn [chars_fuel]. f_equal.
  assert (Hw : ∃ k, utf8_width (byte_at (String c s)) = S k).
  { unfold utf8_width. repeat case_if; eauto. }
  destruct Hw as [k ->]. simpl. assert (Hd : ∀ j t, (String.length (str_drop j t) ≤ String.length t)%nat).
  { induction j as [|j IHj]; intros [|d t]; simpl; try lia. specialize (IHj t). lia. }
  pose proof (Hd k s). apply IH; lia.
Qed.

Lemma chars_cons c s :
  let w := utf8_width (byte_at (String c s)) in
  chars (String c s) = (utf8_decode (String c s), str_take w (String c s)) :: chars (str_drop w (String c s)).
Proof.
  cbv zeta. unfold chars at 1. cbn [chars_fuel String.length]. f_equal. apply chars_fuel_enough; [|done].
  assert (Hw : ∃ k, utf8_width (byte_at (String c s)) = S k).
  { unfold utf8_width. repeat case_if; eauto. }
  destruct Hw as [k ->]. simpl. revert s. induction k as [|k IHk]; intros [|d t]; simpl; try lia. specialize (IHk t). lia.
Qed.

Lemma text_of_chars s : text_of (chars s) = s.
Proof.
  remember (String.length s) as n eqn:Hn. revert s Hn. induction n as [n IH] using lt_wf_ind. intros [|c s] Hn; [done|].
  rewrite chars_cons. cbv zeta. simpl text_of. set (w := utf8_width _).
  assert (Hw : ∃ k, w = S k) by (unfold w, utf8_width; repeat case_if; eauto). destruct Hw as [k ->].
  rewrite (IH (String.length (str_drop (S k) (String c s)))); [apply str_take_drop| |done]. subst n. simpl.
  clear. revert s. induction k as [|k IHk]; intros [|d t]; simpl; try lia. specialize (IHk t). lia.
Qed.

Lemma ascii_width c s : (N_of_ascii c < 128)%N → utf8_width (byte_at (String c s)) = 1.
Proof. intros Hc. unfold utf8_width. simpl. destruct (N.ltb_spec (N_of_ascii c) 192); [done|lia]. Qed.

Lemma chars_ascii_cons c s : (N_of_ascii c < 128)%N → chars (String c s) = (N_of_ascii c, String c "") :: chars s.
Proof.
  intros Hc. rewrite chars_cons. cbv zeta. rewrite ascii_width by done. simpl. do 2 f_equal.
  unfold utf8_decode. by rewrite ascii_width.
Qed.

Lemma is_ascii_cons c s : is_ascii (String c s) ↔ (N_of_ascii c < 128)%N ∧ is_ascii s.
Proof. unfold is_ascii. simpl. by rewrite orb_false_iff, N.leb_gt. Qed.

Lemma chars_app_ascii a s : is_ascii a → chars (a +:+ s) = chars a ++ chars s.
Proof.
  induction a as [|c a IH]; [done|]. intros [Hc Ha]%is_ascii_cons. change (String c a +:+ s) with (String c (a +:+ s)).
  rewrite !chars_ascii_cons, IH by done. done.
Qed.

(** ** Trimming *)
Notation blank := (λ p : N * string, is_whitespace p.1).
Definition trim_start (s : string) : string := text_of (drop_while blank (chars s)).
Definition trim_end (s : string) : string := text_of (reverse (drop_while blank (reverse (chars s)))).

Definition blank_byte (c : ascii) : bool := is_whitespace (N_of_ascii c).

(** A text that neither starts nor ends with a blank. *)
Definition solid (a : string) : Prop :=
  is_ascii a ∧ (∀ c s, a = String c s → blank_byte c = false) ∧ (∀ c s, a = s +:+ String c "" → blank_byte c = false).

Lemma drop_while_head {A} (f : A → bool) l : is_some_and (head l) f = false → drop_while f l = l.
Proof. destruct l; simpl; [done|]. by intros ->. Qed.

Lemma drop_while_app {A} (f : A → bool) l k : Forall (λ x, f x = true) l → drop_while f (l ++ k) = drop_while f k.
Proof. induction 1 as [|x l Hx _ IH]; simpl; [done|]. by rewrite Hx. Qed.

Lemma chars_blank_ascii s : is_ascii s → str_all blank_byte s = true → Forall (λ p, blank p = true) (chars s).
Proof.
  induction s as [|c s IH]; [constructor|]. intros [Hc Hs]%is_ascii_cons. rewrite str_all_cons, andb_true_iff. intros [Hb Hall].
  rewrite chars_ascii_cons by done. constructor; [exact Hb|by apply IH].
Qed.

Lemma head_chars_ascii a s : is_ascii a → a ≠ "" → (∀ c t, a = String c t → blank_byte c = false) →
  is_some_and (head (chars (a +:+ s))) blank = false.
Proof.
  destruct a as [|c a]; [done|]. intros [Hc Ha]%is_ascii_cons _ Hb. change (String c a +:+ s) with (String c (a +:+ s)). rewrite chars_ascii_cons by done. exact (Hb c a eq_refl).
Qed.

Lemma string_snoc s : s = "" ∨ ∃ t c, s = t +:+ String c "".
Proof.
  induction s as [|c s [->|(t & d & ->)]]; [by left|right; by exists "", c|right]. by exists (String c t), d.
Qed.

Lemma trim_end_app a s : is_ascii a → (∀ c t, a = t +:+ String c "" → blank_byte c = false) → trim_end (a +:+ s) = a +:+ trim_end s.
Proof.
  intros Ha Hb. unfold trim_end. rewrite chars_app_ascii, reverse_app by done.
  assert (Hdrop : ∀ l, drop_while blank (l ++ reverse (chars a)) = drop_while blank l ++ reverse (chars a)).
  { induction l as [|p l IH]; simpl; [|destruct (is_whitespace p.1); [done|reflexivity]].
    apply drop_while_head. destruct (string_snoc a) as [->|(t & c & ->)]; [done|]. apply is_ascii_app in Ha as [Ht Hc].
    rewrite chars_app_ascii by done. apply is_ascii_cons in Hc as [Hc _]. rewrite chars_ascii_cons by done. rewrite reverse_app. exact (Hb c t eq_refl). }
  by rewrite Hdrop, reverse_app, reverse_involutive, text_of_app, text_of_chars.
Qed.

Lemma trim_start_solid a s : is_ascii a → a ≠ "" → (∀ c t, a = String c t → blank_byte c = false) → trim_start (a +:+ s) = a +:+ s.
Proof. intros. unfold trim_start. rewrite drop_while_head by by apply head_chars_ascii. apply text_of_chars. Qed.

Lemma trim_start_blank b s : is_ascii b → str_all blank_byte b = true → trim_start (b +:+ s) = trim_start s.
Proof. intros Hb Hall. unfold trim_start. rewrite chars_app_ascii by done. by rewrite drop_while_app by by apply chars_blank_ascii. Qed.

Lemma trim_app a s : is_ascii a → a ≠ "" → (∀ c t, a = String c t → blank_byte c = false) →
  (∀ c t, a = t +:+ String c "" → blank_byte c = false) → trim (a +:+ s) = a +:+ trim_end s.
Proof.
  intros Ha Hne Hfirst Hlast. unfold trim. rewrite (drop_while_head _ (chars (a +:+ s))) by by apply head_chars_ascii.
  change (trim_end (a +:+ s) = a +:+ trim_end s). by apply trim_end_app.
Qed.

Lemma trim_solid a : solid a → trim a = a.
Proof.
  intros (Ha & Hf & Hl). destruct (decide (a = "")) as [->|Hne]; [done|]. rewrite <-(string_app_nil_r a) at 1. rewrite trim_app by done.
  change (trim_end "") with "". apply string_app_nil_r.
Qed.

Lemma trim_blank_start b s : is_ascii b → str_all blank_byte b = true → trim (b +:+ s) = trim s.
Proof. intros Hb Hall. unfold trim. rewrite chars_app_ascii by done. by rewrite (drop_while_app _ (chars b)) by by apply chars_blank_ascii. Qed.

(** ** Lines and words *)
Definition strip_cr (line : string) : string := default line (strip_suffix (String (ascii_of_N 13) "") line).
Definition is_newline (c : ascii) : bool := Ascii.eqb (ascii_of_N 10) c.

(** [s.lines()]: every line that is ended by a line feed loses it and a carriage
    return before it; what follows the last line feed is a line if it is not empty. *)
Fixpoint end_lines (pieces : list string) : list string :=
  match pieces with
  | [] => []
  | [piece] => if String.eqb piece "" then [] else [piece]
  | piece :: pieces => strip_cr piece :: end_lines pieces
  end.
Definition lines (s : string) : list string := end_lines (split_by is_newline s).

(** [s.split_whitespace()] of an ASCII text. *)
Definition split_whitespace (s : string) : list string := List.filter (λ w, negb (String.eqb w "")) (split_by blank_byte s).
