(* ===== verification/SafeConfig.v ===== *)
(** * Secret-safe configuration metadata (secret_safety.rs)

    The names that sound sensitive, the references that stand for secrets, the
    collector of key paths with its limits, and dotenv files. [SafeJson],
    [SafeToml] and [SafeYaml] read the other formats, [SafeExtract] puts them
    together. *)
From Stdlib Require Import NArith Ascii.
From stdpp Require Import base gmap sets list strings.
From S2P Require Import Prelude RustOrd RustStr RustText.

Definition MAX_INPUT_BYTES : N := 1024 * 1024.
Definition MAX_DEPTH : N := 32.
Definition MAX_KEYS : N := 4096.
Definition MAX_KEY_BYTES : N := 256.
Definition SAFE_URI_SCHEMES : list string :=
  ["vault://"; "secret://"; "secretsmanager://"; "aws-secretsmanager://"; "gcp-secret-manager://"; "azure-key-vault://"].

(** [s.len()] *)
Definition byte_len (s : string) : N := N.of_nat (String.length s).

Inductive ConfigArtifactKind := Dotenv | Yaml | Json | Toml.
Inductive SensitiveKeyKind := Token | Password | Secret | PrivateKey | Credential | AccessKey | ConnectionString | DatabaseUrl.

Record SafeConfigKey := {
  sk_scope : list string;
  sk_name : string;
  sk_line : N;
  sk_sensitive_kind : option SensitiveKeyKind;
}.

Record SafeConfigDocument := {
  sc_source_path : string;
  sc_artifact_kind : ConfigArtifactKind;
  sc_keys : list SafeConfigKey;
  sc_warnings : list string;
  sc_incomplete : bool;
}.

Inductive ConfigExtractionError :=
| UnsupportedArtifact
| InputTooLarge (actual maximum : N)
| DepthLimitExceeded (line maximum : N)
| KeyLimitExceeded (maximum : N)
| KeyTooLong (line maximum : N)
| Malformed (artifact_kind : ConfigArtifactKind) (line column : N).

#[export] Instance ConfigArtifactKind_eq_dec : EqDecision ConfigArtifactKind.
Proof. solve_decision. Defined.
#[export] Instance SensitiveKeyKind_eq_dec : EqDecision SensitiveKeyKind.
Proof. solve_decision. Defined.
#[export] Instance SafeConfigKey_eq_dec : EqDecision SafeConfigKey.
Proof. solve_decision. Defined.

Definition malformed (artifact_kind : ConfigArtifactKind) (line column : N) : ConfigExtractionError :=
  Malformed artifact_kind (N.max line 1) (N.max column 1).

Definition check_depth (depth line : N) : result ConfigExtractionError unit :=
  if (MAX_DEPTH <? depth)%N then Err (DepthLimitExceeded line MAX_DEPTH) else Ok tt.

(** ** Names *)
Definition push_character (state : string * bool) (character : N * string) : string * bool :=
  let '(normalized, previous_lower_or_digit) := state in
  match character.2 with
  | String c EmptyString =>
      if is_ascii_alnum c then
        let normalized := if is_ascii_uppercase c && previous_lower_or_digit then normalized +:+ " " else normalized in
        (normalized +:+ String (ascii_lower c) "", is_ascii_lowercase c || is_ascii_digit c)
      else (normalized +:+ " ", false)
  | _ => (normalized +:+ " ", false)
  end.

Definition normalized_words (name : string) : list string :=
  split_whitespace (foldl push_character ("", false) (chars name)).1.

(** [words.windows(2).any(..)] *)
Fixpoint adjacent (words : list string) (first second : string) : bool :=
  match words with
  | a :: (b :: _) as rest => (String.eqb a first && String.eqb b second) || adjacent rest first second
  | _ => false
  end.

Definition classify_words (words : list string) : option SensitiveKeyKind :=
  let compact := String.concat "" words in
  let has := λ needle, existsb (String.eqb needle) words in
  if contains_str "privatekey" compact || adjacent words "private" "key" then Some PrivateKey
  else if contains_str "connectionstring" compact || contains_str "connstr" compact || adjacent words "connection" "string"
  then Some ConnectionString
  else if contains_str "databaseurl" compact || contains_str "dburl" compact || contains_str "jdbcurl" compact
          || adjacent words "database" "url"
  then Some DatabaseUrl
  else if contains_str "accesskey" compact || contains_str "apikey" compact || adjacent words "access" "key" || adjacent words "api" "key"
  then Some AccessKey
  else if has "password" || has "passwd" || has "passphrase" || has "pwd" then Some Password
  else if has "credential" || has "credentials" || has "cred" || has "creds" then Some Credential
  else if has "token" || ends_with "token" compact || has "authorization" || has "bearer" then Some Token
  else if has "secret" || ends_with "secret" compact then Some Secret
  else None.

Definition classify_sensitive_key (name : string) : option SensitiveKeyKind := classify_words (normalized_words name).

(** ** References *)
Definition is_identifier_byte (c : ascii) : bool := is_ascii_alnum c || Ascii.eqb c "_".
Definition is_reference_identifier (value : string) : bool :=
  match value with
  | EmptyString => false
  | String c rest => (is_ascii_alphabetic c || Ascii.eqb c "_") && str_all is_identifier_byte rest
  end.
Definition is_dotenv_key (key : string) : bool := is_reference_identifier key.

Definition is_scheme_byte (c : ascii) : bool := is_ascii_alnum c || Ascii.eqb c "+" || Ascii.eqb c "-" || Ascii.eqb c ".".
Definition ends_authority (c : ascii) : bool := Ascii.eqb c "/" || Ascii.eqb c "?" || Ascii.eqb c "#".

Definition uri_contains_userinfo (value : string) : bool :=
  match split_once "://" value with
  | None => false
  | Some (scheme, remainder) =>
      if String.eqb scheme "" || negb (str_all is_scheme_byte scheme) then false
      else is_some_and (head (split_by ends_authority remainder)) (contains_char "@")
  end.

Definition TOKEN_PREFIXES : list string := ["ghp_"; "github_pat_"; "sk-"; "xoxb-"; "xoxp-"; "akia"; "asia"].
Definition is_jwt_byte (c : ascii) : bool := is_ascii_alnum c || Ascii.eqb c "_" || Ascii.eqb c "-" || Ascii.eqb c "=".
Definition is_base64_byte (c : ascii) : bool :=
  is_ascii_alnum c || Ascii.eqb c "_" || Ascii.eqb c "-" || Ascii.eqb c "+" || Ascii.eqb c "/" || Ascii.eqb c "=".

Definition looks_like_secret_literal (value : string) : bool :=
  let lower := to_ascii_lowercase value in
  let jwt_parts := split_by (Ascii.eqb ".") value in
  (contains_str "-----begin" lower && contains_str "private key-----" lower)
  || existsb (λ prefix, starts_with prefix lower) TOKEN_PREFIXES
  || ((length jwt_parts =? 3)%nat && forallb (λ part, (8 <=? byte_len part)%N && str_all is_jwt_byte part) jwt_parts)
  || ((32 <=? byte_len value)%N && str_all is_base64_byte value
      && str_any is_ascii_lowercase value && str_any is_ascii_uppercase value && str_any is_ascii_digit value).

(** [value.find(pattern)] *)
Definition find_str (pattern value : string) : option N := (λ parts, byte_len parts.1) <$> split_once pattern value.

Definition is_absolute_secret_path (value : string) : bool :=
  (starts_with "/run/secrets/" value || starts_with "/var/run/secrets/" value || starts_with "/etc/secrets/" value)
  && (match find_str "/secrets/" value with Some index => index + 9 | None => usize_max end <? byte_len value)%N
  && negb (str_any (λ c, Ascii.eqb c zero || Ascii.eqb c (ascii_of_N 10) || Ascii.eqb c (ascii_of_N 13)) value).

(** [value.trim_start_matches("//")] *)
Fixpoint trim_slashes (fuel : nat) (value : string) : string :=
  match fuel, strip_prefix "//" value with
  | S fuel, Some rest => trim_slashes fuel rest
  | _, _ => value
  end.
Definition trim_start_slashes (value : string) : string := trim_slashes (String.length value) value.

(** [value.strip_prefix(a).and_then(|rest| rest.strip_suffix(b))] *)
Definition between (prefix suffix value : string) : option string := strip_prefix prefix value ≫= strip_suffix suffix.

Definition is_uri_byte (c : ascii) : bool :=
  is_ascii_alnum c || existsb (Ascii.eqb c) ["/"; "."; "_"; ":"; "-"; "#"; "@"]%char.

Definition is_safe_literal_reference (value : string) : bool :=
  if String.eqb value "" || negb (String.eqb (trim value) value) || existsb (λ c, is_control c.1) (chars value)
     || uri_contains_userinfo value || looks_like_secret_literal value
  then false
  else match between "${" "}" value with
  | Some name => is_reference_identifier name
  | None =>
  match strip_prefix "$" value with
  | Some name => is_reference_identifier name
  | None =>
  match strip_prefix "env:" value with
  | Some name => is_reference_identifier (trim_start_slashes name)
  | None =>
  match between "env(" ")" value with
  | Some name => is_reference_identifier name
  | None =>
  match between "{{" "}}" value with
  | Some inner => is_reference_identifier (default (trim inner) (strip_prefix "env." (trim inner)))
  | None =>
      if existsb (λ prefix, starts_with prefix value) SAFE_URI_SCHEMES then
        let reference := match split_once "://" value with Some (_, rest) => rest | None => "" end in
        negb (String.eqb reference "") && negb (contains_char "?" reference) && str_all is_uri_byte reference
      else
        match strip_prefix "file:" value with
        | Some path => is_absolute_secret_path path
        | None => false
        end || is_absolute_secret_path value
  end end end end end.

(** ** The collector *)
Notation KeyCollector := (gmap (list string * string) SafeConfigKey).

Definition collector_insert (scope : list string) (name : string) (line : N) (keys : KeyCollector) : result ConfigExtractionError KeyCollector :=
  if (MAX_KEY_BYTES <? byte_len name)%N then Err (KeyTooLong line MAX_KEY_BYTES)
  else if String.eqb name "" then Ok keys
  else match keys !! (scope, name) with
  | Some existing =>
      Ok (<[(scope, name) := {| sk_scope := sk_scope existing; sk_name := sk_name existing;
                                sk_line := N.min (sk_line existing) line; sk_sensitive_kind := sk_sensitive_kind existing |}]> keys)
  | None =>
      if (MAX_KEYS <=? N.of_nat (size keys))%N then Err (KeyLimitExceeded MAX_KEYS)
      else Ok (<[(scope, name) := {| sk_scope := scope; sk_name := name; sk_line := line;
                                     sk_sensitive_kind := classify_sensitive_key name |}]> keys)
  end.

Fixpoint insert_path (scope : list string) (path : list string) (line : N) (keys : KeyCollector) : result ConfigExtractionError KeyCollector :=
  match path with
  | [] => Ok keys
  | name :: path =>
      let? keys := collector_insert scope name line keys in
      let scope := scope ++ [name] in
      check? check_depth (len scope) line in
      insert_path scope path line keys
  end.

Definition into_keys (keys : KeyCollector) : list SafeConfigKey := btree_values keys.

(** ** Which format *)
Definition is_separator (c : ascii) : bool := Ascii.eqb c "/" || Ascii.eqb c "\".

Definition artifact_kind (source_path : string) : result ConfigExtractionError ConfigArtifactKind :=
  let file_name := to_ascii_lowercase (default source_path (last (split_by is_separator source_path))) in
  if String.eqb file_name ".env" || starts_with ".env." file_name then Ok Dotenv
  else match snd <$> rsplit_once "." file_name with
  | Some "env" => Ok Dotenv
  | Some "yaml" | Some "yml" => Ok Yaml
  | Some "json" => Ok Json
  | Some "toml" => Ok Toml
  | _ => Err UnsupportedArtifact
  end.

(** ** dotenv files *)
Definition dotenv_line (keys : KeyCollector) (entry : N * string) : result ConfigExtractionError KeyCollector :=
  let '(line, source_line) := entry in
  let text := trim source_line in
  if String.eqb text "" || starts_with "#" text then Ok keys
  else
    let assignment := match strip_prefix "export " text with Some rest => trim_start rest | None => text end in
    match split_once "=" assignment with
    | None => Err (malformed Dotenv line 1)
    | Some (key, _) =>
        let key := trim key in
        if negb (is_dotenv_key key) then Err (malformed Dotenv line 1) else collector_insert [] key line keys
    end.

(** [input.lines().enumerate()], counted from one. *)
Definition numbered (input : string) : list (N * string) := imap (λ i line, (N.of_nat i + 1, line)%N) (lines input).

Definition parse_dotenv (input : string) (keys : KeyCollector) : result ConfigExtractionError KeyCollector :=
  try_fold dotenv_line keys (numbered input).

(** ** What is collected

    Reports of keys in the order in which they are read, and the keys they amount
    to: one for each path whose name is not empty, at its earliest line. *)
Notation KeyReport := (list string * string * N)%type.

Definition report_key (keys : KeyCollector) (report : KeyReport) : result ConfigExtractionError KeyCollector :=
  collector_insert report.1.1 report.1.2 report.2 keys.

Definition earliest (reports : list KeyReport) (path : list string * string) : option N :=
  foldl (λ first report,
    if bool_decide (report.1 = path) then Some (match first with Some line => N.min line report.2 | None => report.2 end) else first) None reports.

Definition safe_key (path : list string * string) (line : N) : SafeConfigKey :=
  {| sk_scope := path.1; sk_name := path.2; sk_line := line; sk_sensitive_kind := classify_sensitive_key path.2 |}.

(** The keys of the reports, without limits. *)
Definition keys_of (reports : list KeyReport) : KeyCollector :=
  foldl (λ keys report, if String.eqb report.1.2 "" then keys else
    <[report.1 := safe_key report.1 (match keys !! report.1 with Some key => N.min (sk_line key) report.2 | None => report.2 end)]> keys) ∅ reports.

Lemma earliest_snoc reports report path :
  earliest (reports ++ [report]) path =
  if bool_decide (report.1 = path) then Some (match earliest reports path with Some line => N.min line report.2 | None => report.2 end)
  else earliest reports path.
Proof. unfold earliest. by rewrite foldl_app. Qed.

Lemma keys_of_snoc reports report :
  keys_of (reports ++ [report]) =
  if String.eqb report.1.2 "" then keys_of reports else
  <[report.1 := safe_key report.1 (match keys_of reports !! report.1 with Some key => N.min (sk_line key) report.2 | None => report.2 end)]> (keys_of reports).
Proof. unfold keys_of. by rewrite foldl_app. Qed.

Lemma keys_of_lookup reports path :
  keys_of reports !! path = if String.eqb path.2 "" then None else safe_key path <$> earliest reports path.
Proof.
  revert path. induction reports as [|report reports IH] using rev_ind; intros path.
  { unfold keys_of, earliest. simpl. rewrite lookup_empty. by case_if. }
  rewrite keys_of_snoc, earliest_snoc. destruct (String.eqb report.1.2 "") eqn:E.
  - rewrite IH. case_bool_decide as Hp; [|done]. subst. by rewrite E.
  - destruct (decide (report.1 = path)) as [<-|Hne].
    + rewrite lookup_insert_eq, bool_decide_true, E by done. rewrite IH, E. by destruct (earliest reports report.1).
    + by rewrite lookup_insert_ne, bool_decide_false.
Qed.

Lemma keys_of_size_snoc reports report : (size (keys_of reports) ≤ size (keys_of (reports ++ [report])))%nat.
Proof. rewrite keys_of_snoc. destruct (String.eqb _ _); [done|]. rewrite map_size_insert. destruct (keys_of reports !! _); simpl; lia. Qed.

Lemma try_fold_one {E A S} (f : S → A → result E S) s x : try_fold f s [x] = f s x.
Proof. simpl. by destruct (f s x). Qed.

(** The collector accepts the reports exactly when no name is too long and their
    paths are not too many. *)
Lemma report_keys_exact reports keys :
  try_fold report_key ∅ reports = Ok keys ↔
  keys = keys_of reports ∧ (∀ report, report ∈ reports → (byte_len report.1.2 ≤ MAX_KEY_BYTES)%N) ∧
  (N.of_nat (size (keys_of reports)) ≤ MAX_KEYS)%N.
Proof.
  revert keys. induction reports as [|report reports IH] using rev_ind; intros keys.
  { simpl. split; [intros [= <-]; split_and!; [done|by intros ? ?%elem_of_nil|done]|by intros (-> & _)]. }
  rewrite try_fold_app, result_bind_Ok. setoid_rewrite IH. setoid_rewrite try_fold_one. setoid_rewrite elem_of_app. setoid_rewrite list_elem_of_singleton.
  pose proof (keys_of_size_snoc reports report) as Hsize. rewrite keys_of_snoc in *. destruct report as [[scope name] line]. cbn [fst snd] in *.
  pose proof (keys_of_lookup reports (scope, name)) as Hk. simpl in Hk.
  assert (Hstep : ∀ keys', (collector_insert scope name line (keys_of reports) = Ok keys' ↔
    keys' = (if String.eqb name "" then keys_of reports else
      <[(scope, name) := safe_key (scope, name) (match keys_of reports !! (scope, name) with Some key => N.min (sk_line key) line | None => line end)]> (keys_of reports)) ∧
    (byte_len name ≤ MAX_KEY_BYTES)%N ∧ (name = "" ∨ is_Some (keys_of reports !! (scope, name)) ∨ (N.of_nat (size (keys_of reports)) < MAX_KEYS)%N))).
  { intros keys'. unfold collector_insert. destruct (N.ltb_spec MAX_KEY_BYTES (byte_len name)); [split; [done|lia]|].
    destruct (String.eqb_spec name "") as [->|Hn].
    - split; [intros [= <-]; split_and!; [done|done|by left]|by intros (-> & _)].
    - destruct (keys_of reports !! (scope, name)) as [key|] eqn:E.
      + destruct (earliest reports (scope, name)); [|done]. injection Hk as ->. simpl.
        split; [intros [= <-]; split_and!; [done|done|right; by left]|by intros (-> & _)].
      + destruct (N.leb_spec MAX_KEYS (N.of_nat (size (keys_of reports)))).
        * split; [done|]. intros (_ & _ & [?|[[? ?]|?]]); [done|done|lia].
        * split; [intros [= <-]; split_and!; [done|done|by right; right]|by intros (-> & _)]. }
  assert (Hnew : ∀ key, String.eqb name "" = false → keys_of reports !! (scope, name) = None →
    size (<[(scope, name) := key]> (keys_of reports)) = S (size (keys_of reports))).
  { intros key _ E. by rewrite map_size_insert, E. }
  split.
  - intros (keys' & (-> & Hlen & Hmax) & Hr). change (collector_insert scope name line (keys_of reports) = Ok keys) in Hr.
    apply Hstep in Hr as (-> & Hb & Hroom). split_and!; [done|intros r [?|[= ->]]; [by apply Hlen|done]|].
    destruct (String.eqb_spec name "") as [->|Hn]; [done|]. rewrite map_size_insert.
    destruct (keys_of reports !! (scope, name)) eqn:E; simpl; [done|]. destruct Hroom as [?|[[? ?]|?]]; [done|done|lia].
  - intros (-> & Hlen & Hmax). exists (keys_of reports). split.
    { split_and!; [done|by intros r Hr; apply Hlen; left|]. lia. }
    change (collector_insert scope name line (keys_of reports) =
      Ok (if String.eqb name "" then keys_of reports else
      <[(scope, name) := safe_key (scope, name) (match keys_of reports !! (scope, name) with Some key => N.min (sk_line key) line | None => line end)]> (keys_of reports))).
    apply Hstep. split_and!; [done|by apply (Hlen (scope, name, line)); right|].
    destruct (String.eqb_spec name "") as [->|Hn]; [by left|right]. destruct (keys_of reports !! (scope, name)) eqn:E; [left; by eexists|right].
    rewrite map_size_insert, E in Hmax. lia.
Qed.

(** The earliest line is that of a report. *)
Lemma earliest_min reports path line :
  earliest reports path = Some line ↔
  (∃ report, report ∈ reports ∧ report.1 = path ∧ report.2 = line) ∧ ∀ report, report ∈ reports → report.1 = path → (line ≤ report.2)%N.
Proof.
  revert line. induction reports as [|report reports IH] using rev_ind; intros line.
  { split; [done|]. by intros [(r & []%elem_of_nil & _) _]. }
  rewrite earliest_snoc. setoid_rewrite elem_of_app. setoid_rewrite list_elem_of_singleton. case_bool_decide as Hp.
  - destruct (earliest reports path) as [first|] eqn:E.
    + destruct (proj1 (IH first) eq_refl) as [(r & Hr & Hrp & Hrl) Hmin]. split.
      * intros [= <-]. split.
        { destruct (N.min_spec first report.2) as [[_ ->]|[_ ->]]; [exists r|exists report]; naive_solver. }
        { intros r' [Hr'| ->] Hp'; [specialize (Hmin r' Hr' Hp')|]; lia. }
      * intros [(r' & Hr' & Hp' & <-) Hall]. f_equal. pose proof (Hall report (or_intror eq_refl) Hp). pose proof (Hall r (or_introl Hr) Hrp).
        destruct Hr' as [Hr'| ->]; [specialize (Hmin r' Hr' Hp')|]; lia.
    + assert (Hno : ∀ r, r ∈ reports → r.1 = path → False).
      { clear -E. induction reports as [|r0 reports IH] using rev_ind; [by intros ? ?%elem_of_nil|]. rewrite earliest_snoc in E.
        case_bool_decide; [done|]. intros r [Hr|Hr%list_elem_of_singleton]%elem_of_app Hp; [by eapply IH|by subst]. }
      split.
      * intros [= <-]. split; [exists report; naive_solver|]. intros r [Hr| ->] Hr'; [by destruct (Hno r)|done].
      * intros [(r & [Hr| ->] & Hr' & <-) _]; [by destruct (Hno r)|done].
  - rewrite IH. split.
    + intros [(r & Hr & Hr') Hall]. split; [exists r; tauto|]. intros r' [?| ->] ?; [by apply Hall|done].
    + intros [(r & [Hr| ->] & Hr' & Hl) Hall]; [|done]. split; [by exists r|]. intros r' ? ?. apply Hall; [by left|done].
Qed.
