(* ===== verification/SafeJson.v ===== *)
(** * Keys of JSON documents (secret_safety.rs)

    The scanner that reports the keys of a JSON document and passes over its
    values. The JSON library decodes keys and has the last word on the document. *)
From Stdlib Require Import NArith Ascii.
From stdpp Require Import base gmap sets list strings.
From S2P Require Import Prelude RustOrd RustStr RustText SafeConfig.

(** [serde_json::from_str]: a key, and a check of a whole document; errors are a
    line and a column. *)
Class JsonLibrary := {
  json_string : string → result (N * N) string;
  json_check : string → option (N * N);
}.

Definition QUOTE : ascii := ascii_of_N 34.
Definition BACKSLASH : ascii := ascii_of_N 92.
Definition LINE_FEED : ascii := ascii_of_N 10.

(** The parser: the input from [position] on, the number of bytes before it, the
    line, and the collector. *)
Record JsonKeyParser := { js_rest : string; js_position : N; js_line : N; js_collector : KeyCollector }.

Definition with_collector (parser : JsonKeyParser) (collector : KeyCollector) : JsonKeyParser :=
  {| js_rest := js_rest parser; js_position := js_position parser; js_line := js_line parser; js_collector := collector |}.

Definition current_byte (parser : JsonKeyParser) : option ascii :=
  match js_rest parser with EmptyString => None | String c _ => Some c end.

Definition advance (parser : JsonKeyParser) : JsonKeyParser := {|
  js_rest := match js_rest parser with EmptyString => EmptyString | String _ rest => rest end;
  js_position := saturating_add (js_position parser) 1;
  js_line := if bool_decide (current_byte parser = Some LINE_FEED) then saturating_add (js_line parser) 1 else js_line parser;
  js_collector := js_collector parser |}.

(** A loop that advances over bytes while a test on a state holds; the fuel is
    the rest, of which every turn takes a byte. *)
Fixpoint advance_over {S} (step : S → ascii → option S) (fuel : string) (state : S) (parser : JsonKeyParser) : S * JsonKeyParser :=
  match fuel, current_byte parser with
  | String _ fuel, Some c =>
      match step state c with
      | Some state => advance_over step fuel state (advance parser)
      | None => (state, parser)
      end
  | _, _ => (state, parser)
  end.

Definition skip_whitespace (parser : JsonKeyParser) : JsonKeyParser :=
  (advance_over (λ _ c, if is_ascii_blank c then Some tt else None) (js_rest parser) tt parser).2.

Definition consume (expected : ascii) (parser : JsonKeyParser) : option JsonKeyParser :=
  if bool_decide (current_byte parser = Some expected) then Some (advance parser) else None.

Section parser.
Context `{JsonLibrary}.
Variable input : string.

(** The bytes behind the last line feed before the position. *)
Definition column_of (before : string) : N :=
  byte_len (match rsplit_once LINE_FEED before with Some (_, line) => line | None => before end).

Definition error (parser : JsonKeyParser) : ConfigExtractionError :=
  let before := str_take (N.to_nat (N.min (js_position parser) (byte_len input))) input in
  let line_start := (byte_len before - column_of before)%N in
  malformed Json (js_line parser) (saturating_add (js_position parser - line_start) 1).

(** Inside a string: whether the byte before was an escaping backslash, or the
    end was reached. *)
Inductive Escape := Esc_None | Esc_Escaped | Esc_Done.
Definition string_step (state : Escape) (byte : ascii) : option Escape :=
  match state with
  | Esc_Done => None
  | Esc_Escaped => Some Esc_None
  | Esc_None => Some (if Ascii.eqb byte BACKSLASH then Esc_Escaped else if Ascii.eqb byte QUOTE then Esc_Done else Esc_None)
  end.

Definition skip_string (parser : JsonKeyParser) : result ConfigExtractionError JsonKeyParser :=
  match consume QUOTE parser with
  | None => Err (error parser)
  | Some parser =>
      match advance_over string_step (js_rest parser) Esc_None parser with
      | (Esc_Done, parser) => Ok parser
      | (_, parser) => Err (error parser)
      end
  end.

Definition ends_scalar (byte : ascii) : bool := is_ascii_blank byte || existsb (Ascii.eqb byte) [","; "]"; "}"]%char.

Definition skip_scalar (parser : JsonKeyParser) : result ConfigExtractionError JsonKeyParser :=
  let start := js_position parser in
  let parser := (advance_over (λ _ c, if ends_scalar c then None else Some tt) (js_rest parser) tt parser).2 in
  if (js_position parser =? start)%N then Err (error parser) else Ok parser.

Definition parse_key_string (parser : JsonKeyParser) : result ConfigExtractionError (string * JsonKeyParser) :=
  if negb (bool_decide (current_byte parser = Some QUOTE)) then Err (error parser)
  else
    let? after := skip_string parser in
    match json_string (str_take (String.length (js_rest parser) - String.length (js_rest after)) (js_rest parser)) with
    | Ok key => Ok (key, after)
    | Err (line, column) => Err (malformed Json (saturating_add line (js_line after - 1)) column)
    end.

(** [None]: the fuel ran out. *)
Notation parsed := (option (result ConfigExtractionError JsonKeyParser)).

Fixpoint parse_value (fuel : nat) (scope : list string) (depth : N) (parser : JsonKeyParser) : parsed :=
  match fuel with
  | O => None
  | S fuel =>
      let parser := skip_whitespace parser in
      match check_depth depth (js_line parser) with
      | Err error => Some (Err error)
      | Ok _ =>
          match current_byte parser with
          | None => Some (Err (error parser))
          | Some byte =>
              if Ascii.eqb byte "{" then
                let parser := skip_whitespace (advance parser) in
                match consume "}" parser with
                | Some parser => Some (Ok parser)
                | None => parse_members fuel scope depth parser
                end
              else if Ascii.eqb byte "[" then
                let parser := skip_whitespace (advance parser) in
                match consume "]" parser with
                | Some parser => Some (Ok parser)
                | None => parse_elements fuel scope depth parser
                end
              else if Ascii.eqb byte QUOTE then Some (skip_string parser)
              else Some (skip_scalar parser)
          end
      end
  end
(** The loop of [parse_object]. *)
with parse_members (fuel : nat) (scope : list string) (depth : N) (parser : JsonKeyParser) : parsed :=
  match fuel with
  | O => None
  | S fuel =>
      let parser := skip_whitespace parser in
      let key_line := js_line parser in
      match parse_key_string parser with
      | Err error => Some (Err error)
      | Ok (key, parser) =>
          let parser := skip_whitespace parser in
          match consume ":" parser with
          | None => Some (Err (error parser))
          | Some parser =>
              match collector_insert scope key key_line (js_collector parser) with
              | Err error => Some (Err error)
              | Ok collector =>
                  match parse_value fuel (scope ++ [key]) (saturating_add depth 1) (with_collector parser collector) with
                  | Some (Ok parser) =>
                      let parser := skip_whitespace parser in
                      match consume "}" parser with
                      | Some parser => Some (Ok parser)
                      | None =>
                          match consume "," parser with
                          | Some parser => parse_members fuel scope depth parser
                          | None => Some (Err (error parser))
                          end
                      end
                  | other => other
                  end
              end
          end
      end
  end
(** The loop of [parse_array]. *)
with parse_elements (fuel : nat) (scope : list string) (depth : N) (parser : JsonKeyParser) : parsed :=
  match fuel with
  | O => None
  | S fuel =>
      match parse_value fuel scope (saturating_add depth 1) parser with
      | Some (Ok parser) =>
          let parser := skip_whitespace parser in
          match consume "]" parser with
          | Some parser => Some (Ok parser)
          | None =>
              match consume "," parser with
              | Some parser => parse_elements fuel scope depth parser
              | None => Some (Err (error parser))
              end
          end
      | other => other
      end
  end.

(** Two turns for every byte are enough. *)
Definition json_fuel : nat := 2 * String.length input + 2.

Definition parse_json (keys : KeyCollector) : option (result ConfigExtractionError KeyCollector) :=
  match parse_value json_fuel [] 0 {| js_rest := input; js_position := 0; js_line := 1; js_collector := keys |} with
  | None => None
  | Some (Err error) => Some (Err error)
  | Some (Ok parser) =>
      let parser := skip_whitespace parser in
      if negb (js_position parser =? byte_len input)%N then Some (Err (error parser))
      else match json_check input with
      | Some (line, column) => Some (Err (malformed Json line column))
      | None => Some (Ok (js_collector parser))
      end
  end.
End parser.

(** ** What the scanner passes over *)
Definition bounded (p : JsonKeyParser) : Prop := (js_position p + byte_len (js_rest p) ≤ usize_max)%N.

Fixpoint line_after (line : N) (t : string) : N :=
  match t with
  | EmptyString => line
  | String c t => line_after (if Ascii.eqb c LINE_FEED then saturating_add line 1 else line) t
  end.

(** [t] was passed over between two states. *)
Record moved (t : string) (p p' : JsonKeyParser) : Prop := {
  mv_rest : js_rest p = t +:+ js_rest p';
  mv_position : js_position p' = (js_position p + byte_len t)%N;
  mv_line : js_line p' = line_after (js_line p) t;
  mv_collector : js_collector p' = js_collector p;
}.

Lemma byte_len_app s t : byte_len (s +:+ t) = (byte_len s + byte_len t)%N.
Proof. unfold byte_len. rewrite string_length_app. lia. Qed.
Lemma byte_len_cons c s : byte_len (String c s) = (1 + byte_len s)%N.
Proof. unfold byte_len. simpl. lia. Qed.

Lemma line_after_app line s t : line_after line (s +:+ t) = line_after (line_after line s) t.
Proof. revert line. induction s as [|c s IH]; intros line; simpl; [done|]. apply IH. Qed.

Lemma moved_refl p : moved "" p p.
Proof. split; try done. change (byte_len "") with 0%N. lia. Qed.
Lemma moved_trans s t p q r : moved s p q → moved t q r → moved (s +:+ t) p r.
Proof.
  intros [R1 P1 L1 C1] [R2 P2 L2 C2]. split.
  - by rewrite R1, R2, string_app_assoc.
  - rewrite P2, P1, byte_len_app. lia.
  - by rewrite L2, L1, line_after_app.
  - congruence.
Qed.
Lemma moved_bounded t p q : moved t p q → bounded p → bounded q.
Proof. intros [R P _ _]. unfold bounded. rewrite R, P, byte_len_app. lia. Qed.

Lemma advance_moved p c rest : bounded p → js_rest p = String c rest → moved (String c "") p (advance p) ∧ js_rest (advance p) = rest.
Proof.
  intros Hb E. unfold bounded in Hb. rewrite E, byte_len_cons in Hb. split; [|by unfold advance; rewrite E]. split; unfold advance; simpl.
  - by rewrite E.
  - rewrite saturating_add_small by lia. done.
  - unfold current_byte. rewrite E. simpl. destruct (Ascii.eqb_spec c LINE_FEED) as [->|Hc]; [by rewrite bool_decide_true|].
    rewrite bool_decide_false; [done|]. congruence.
  - done.
Qed.

(** The steps of a loop over a text, and when the loop stops. *)
Section steps.
Context {S : Type} (step : S → ascii → option S).

Fixpoint steps (state : S) (t : string) : option S :=
  match t with EmptyString => Some state | String c t => step state c ≫= λ state, steps state t end.
Definition stops (state : S) (rest : string) : Prop := match rest with EmptyString => True | String c _ => step state c = None end.

Lemma advance_over_moved fuel state p :
  bounded p → fuel = js_rest p →
  let '(state', p') := advance_over step fuel state p in
  ∃ t, moved t p p' ∧ steps state t = Some state' ∧ stops state' (js_rest p').
Proof.
  revert state p. induction fuel as [|c fuel IH]; intros state p Hb E; simpl.
  { exists "". split_and!; [apply moved_refl|done|]. by rewrite <-E. }
  unfold current_byte. rewrite <-E. destruct (step state c) as [state1|] eqn:Es.
  - destruct (advance_moved p c fuel Hb (eq_sym E)) as [Hm Hr]. specialize (IH state1 (advance p) (moved_bounded _ _ _ Hm Hb) (eq_sym Hr)).
    destruct (advance_over step fuel state1 (advance p)) as [state' p']. destruct IH as (t & Ht & Hs & Hstop).
    exists (String c t). split_and!; [|simpl; by rewrite Es|done]. exact (moved_trans _ _ _ _ _ Hm Ht).
  - exists "". split_and!; [apply moved_refl|done|]. rewrite <-E. done.
Qed.

Lemma steps_unique state t r state1 t' r' state2 :
  t +:+ r = t' +:+ r' → steps state t = Some state1 → stops state1 r → steps state t' = Some state2 → stops state2 r' →
  t = t' ∧ r = r' ∧ state1 = state2.
Proof.
  revert state t'. induction t as [|c t IH]; intros state t' E Hs Hr Hs' Hr'; simpl in *.
  - injection Hs as ->. destruct t' as [|c' t']; simpl in *; [injection Hs' as ->; done|]. subst r. simpl in Hr. by rewrite Hr in Hs'.
  - destruct t' as [|c' t']; simpl in *.
    + injection Hs' as ->. subst r'. simpl in Hr'. by rewrite Hr' in Hs.
    + injection E as -> E. destruct (step state c') as [state3|]; [|done]. simpl in *.
      destruct (IH state3 t' E Hs Hr Hs' Hr') as (-> & -> & ->). done.
Qed.
End steps.

Lemma steps_blank (f : ascii → bool) t : steps (λ (_ : unit) c, if f c then Some tt else None) tt t = Some tt ↔ str_all f t = true.
Proof.
  induction t as [|c t IH]; [done|]. simpl. rewrite str_all_cons, andb_true_iff, <-IH. destruct (f c); simpl; [tauto|]. split; [done|by intros [? _]].
Qed.

(** Where a text may go on behind blanks. *)
Definition starts_not (f : ascii → bool) (rest : string) : Prop := match rest with EmptyString => True | String c _ => f c = false end.

Lemma skip_whitespace_moved p : bounded p →
  ∃ t, moved t p (skip_whitespace p) ∧ str_all is_ascii_blank t = true ∧ starts_not is_ascii_blank (js_rest (skip_whitespace p)).
Proof.
  intros Hb. unfold skip_whitespace. pose proof (advance_over_moved (λ _ c, if is_ascii_blank c then Some tt else None) (js_rest p) tt p Hb eq_refl) as H.
  destruct (advance_over _ _ _ _) as [[] p']. simpl. destruct H as (t & Hm & Hs & Hstop). exists t. split_and!; [done|by apply steps_blank|].
  unfold stops, starts_not in *. destruct (js_rest p'); [done|]. by destruct (is_ascii_blank a).
Qed.

Lemma skip_whitespace_exact p t r : bounded p → js_rest p = t +:+ r → str_all is_ascii_blank t = true → starts_not is_ascii_blank r →
  moved t p (skip_whitespace p) ∧ js_rest (skip_whitespace p) = r.
Proof.
  intros Hb E Ht Hr. destruct (skip_whitespace_moved p Hb) as (t' & Hm & Ht' & Hr'). pose proof (mv_rest _ _ _ Hm) as E'. rewrite E in E'.
  assert (Hu := steps_unique (λ (_ : unit) c, if is_ascii_blank c then Some tt else None) tt t r tt t' (js_rest (skip_whitespace p)) tt E').
  destruct Hu as (-> & <- & _); [by apply steps_blank| |by apply steps_blank| |done].
  - destruct r; [done|]. simpl in *. by rewrite Hr.
  - destruct (js_rest (skip_whitespace p)); [done|]. simpl in *. by rewrite Hr'.
Qed.

Lemma consume_Some c p p' : bounded p → consume c p = Some p' ↔ moved (String c "") p p'.
Proof.
  intros Hb. unfold consume, current_byte. destruct (js_rest p) as [|d rest] eqn:E.
  - rewrite bool_decide_false by done. split; [done|]. intros [R _ _ _]. by rewrite E in R.
  - case_bool_decide as Hd; simplify_eq; split.
    + intros [= <-]. by apply (advance_moved p c rest).
    + destruct (advance_moved p c rest Hb E) as [[R P L C] Hr]. intros [R' P' L' C']. f_equal.
      destruct (advance p), p'; simpl in *. rewrite E in R'. injection R' as ->. subst. done.
    + done.
    + intros [R _ _ _]. rewrite E in R. simpl in R. congruence.
Qed.

Lemma moved_unique t p q q' : moved t p q → moved t p q' → q = q'.
Proof.
  intros [R P L C] [R' P' L' C']. destruct q, q'; simpl in *. rewrite R in R'. apply string_app_inj_l in R'. congruence.
Qed.

Lemma consume_rest c p rest : bounded p → js_rest p = String c rest →
  ∃ p', consume c p = Some p' ∧ moved (String c "") p p' ∧ js_rest p' = rest.
Proof. intros Hb E. destruct (advance_moved p c rest Hb E) as [Hm Hr]. exists (advance p). split_and!; [by apply consume_Some|done..]. Qed.

Lemma consume_other c d p rest : js_rest p = String d rest → c ≠ d → consume c p = None.
Proof. intros E Hc. unfold consume, current_byte. rewrite E, bool_decide_false; congruence. Qed.

(** Strings and scalars. *)
Inductive string_body : string → Prop :=
| Body_end : string_body (String QUOTE "")
| Body_plain c s : c ≠ QUOTE → c ≠ BACKSLASH → string_body s → string_body (String c s)
| Body_escape c s : string_body s → string_body (String BACKSLASH (String c s)).
Definition string_token (t : string) : Prop := ∃ body, t = String QUOTE body ∧ string_body body.

Lemma string_body_steps body : string_body body ↔ steps string_step Esc_None body = Some Esc_Done.
Proof.
  split.
  - induction 1 as [|c s Hq Hb _ IH|c s _ IH]; [done| |exact IH]. simpl. by rewrite !(proj2 (Ascii.eqb_neq _ _)).
  - remember (String.length body) as n eqn:Hn. revert body Hn. induction n as [n IH] using lt_wf_ind. intros [|c s] Hn; [done|]. simpl in *.
    destruct (Ascii.eqb_spec c BACKSLASH) as [->|Hb].
    + destruct s as [|d s]; [done|]. simpl in *. intros Hs. apply Body_escape. eapply (IH (String.length s)); [lia|done..].
    + destruct (Ascii.eqb_spec c QUOTE) as [->|Hq].
      * destruct s as [|d s]; [intros _; apply Body_end|done].
      * intros Hs. apply Body_plain; [done..|]. eapply (IH (String.length s)); [lia|done..].
Qed.
Definition scalar_token (t : string) : Prop := t ≠ "" ∧ str_all (λ c, negb (ends_scalar c)) t = true ∧ ∀ c s, t = String c s → c ≠ "{"%char ∧ c ≠ "["%char ∧ c ≠ QUOTE.
Definition ends_here (rest : string) : Prop := match rest with EmptyString => True | String c _ => ends_scalar c = true end.

Lemma skip_string_exact input p p' : bounded p → skip_string input p = Ok p' ↔ ∃ t, string_token t ∧ moved t p p'.
Proof.
  intros Hb. unfold skip_string. destruct (consume QUOTE p) as [q|] eqn:Ec.
  - apply consume_Some in Ec; [|done]. pose proof (moved_bounded _ _ _ Ec Hb) as Hq.
    pose proof (advance_over_moved string_step (js_rest q) Esc_None q Hq eq_refl) as H. destruct (advance_over _ _ _ _) as [state q'].
    destruct H as (t & Hm & Hs & Hstop). split.
    + intros E. assert (state = Esc_Done ∧ q' = p') as [-> ->] by by destruct state; simplify_eq.
      exists (String QUOTE t). split; [exists t; by rewrite string_body_steps|]. exact (moved_trans _ _ _ _ _ Ec Hm).
    + intros (t' & (body & -> & Hbody%string_body_steps) & Hm'). pose proof (mv_rest _ _ _ Hm') as E. rewrite (mv_rest _ _ _ Ec) in E. simpl in E. injection E as E.
      rewrite (mv_rest _ _ _ Hm) in E.
      destruct (steps_unique string_step Esc_None t (js_rest q') state body (js_rest p') Esc_Done E Hs Hstop Hbody) as (-> & _ & ->);
        [by destruct (js_rest p')|]. f_equal. apply (moved_unique (String QUOTE body) p); [|done]. exact (moved_trans _ _ _ _ _ Ec Hm).
  - split; [done|]. intros (t & (body & -> & _) & Hm). exfalso.
    assert (is_Some (consume QUOTE p)) as [? ?]; [|congruence]. destruct (consume_rest QUOTE p (body +:+ js_rest p') Hb) as (q & -> & _); [|by eexists].
    apply (mv_rest _ _ _ Hm).
Qed.

Lemma skip_scalar_exact input p p' : bounded p →
  skip_scalar input p = Ok p' ↔ ∃ t, t ≠ "" ∧ str_all (λ c, negb (ends_scalar c)) t = true ∧ moved t p p' ∧ ends_here (js_rest p').
Proof.
  intros Hb. unfold skip_scalar. set (step := λ (_ : unit) c, if ends_scalar c then None else Some tt).
  assert (Hsteps : ∀ t, steps step tt t = Some tt ↔ str_all (λ c, negb (ends_scalar c)) t = true).
  { intros t. rewrite <-steps_blank. unfold step. induction t as [|c t IH]; [done|]. simpl. destruct (ends_scalar c); simpl; [done|apply IH]. }
  assert (Hstops : ∀ r, stops step tt r ↔ ends_here r).
  { intros [|c r]; [done|]. unfold stops, ends_here, step. destruct (ends_scalar c); done. }
  pose proof (advance_over_moved step (js_rest p) tt p Hb eq_refl) as H. destruct (advance_over step _ _ _) as [[] q]. simpl.
  destruct H as (t & Hm & Hs & Hstop). rewrite (mv_position _ _ _ Hm). destruct (N.eqb_spec (js_position p + byte_len t) (js_position p)) as [E|E].
  - split; [done|]. intros (t' & Hne & Ht' & Hm' & Hend). exfalso. pose proof (mv_rest _ _ _ Hm') as E'. rewrite (mv_rest _ _ _ Hm) in E'.
    destruct (steps_unique step tt t (js_rest q) tt t' (js_rest p') tt E' Hs Hstop) as (-> & _); [by apply Hsteps|by apply Hstops|].
    destruct t'; [done|]. rewrite byte_len_cons in E. lia.
  - split.
    + intros [= <-]. exists t. split_and!; [|by apply Hsteps|done|by apply Hstops]. intros ->. change (byte_len "") with 0%N in E. lia.
    + intros (t' & Hne & Ht' & Hm' & Hend). pose proof (mv_rest _ _ _ Hm') as E'. rewrite (mv_rest _ _ _ Hm) in E'.
      destruct (steps_unique step tt t (js_rest q) tt t' (js_rest p') tt E' Hs Hstop) as (-> & _); [by apply Hsteps|by apply Hstops|].
      f_equal. by apply (moved_unique t' p).
Qed.

(** ** Documents

    A document with its layout: blanks before every token, raw keys and what they
    are decoded to. *)
Inductive JValue :=
| JToken (pad token : string)
| JEmptyObject (pad inner : string)
| JObject (pad : string) (members : JMembers)
| JEmptyArray (pad inner : string)
| JArray (pad : string) (elements : JElements)
with JMembers :=
| JLastMember (pad key name colon_pad : string) (value : JValue) (end_pad : string)
| JMember (pad key name colon_pad : string) (value : JValue) (end_pad : string) (members : JMembers)
with JElements :=
| JLastElement (value : JValue) (end_pad : string)
| JElement (value : JValue) (end_pad : string) (elements : JElements).

Scheme JValue_mut := Induction for JValue Sort Prop
with JMembers_mut := Induction for JMembers Sort Prop
with JElements_mut := Induction for JElements Sort Prop.
Combined Scheme json_mutind from JValue_mut, JMembers_mut, JElements_mut.

Fixpoint value_text (v : JValue) : string :=
  match v with
  | JToken pad token => pad +:+ token
  | JEmptyObject pad inner => pad +:+ "{" +:+ inner +:+ "}"
  | JObject pad members => pad +:+ "{" +:+ members_text members
  | JEmptyArray pad inner => pad +:+ "[" +:+ inner +:+ "]"
  | JArray pad elements => pad +:+ "[" +:+ elements_text elements
  end
with members_text (ms : JMembers) : string :=
  match ms with
  | JLastMember pad key _ colon_pad value end_pad => pad +:+ key +:+ colon_pad +:+ ":" +:+ value_text value +:+ end_pad +:+ "}"
  | JMember pad key _ colon_pad value end_pad members =>
      pad +:+ key +:+ colon_pad +:+ ":" +:+ value_text value +:+ end_pad +:+ "," +:+ members_text members
  end
with elements_text (es : JElements) : string :=
  match es with
  | JLastElement value end_pad => value_text value +:+ end_pad +:+ "]"
  | JElement value end_pad elements => value_text value +:+ end_pad +:+ "," +:+ elements_text elements
  end.

Fixpoint value_depth (v : JValue) : N :=
  match v with
  | JToken _ _ | JEmptyObject _ _ | JEmptyArray _ _ => 0
  | JObject _ members => 1 + members_depth members
  | JArray _ elements => 1 + elements_depth elements
  end
with members_depth (ms : JMembers) : N :=
  match ms with
  | JLastMember _ _ _ _ value _ => value_depth value
  | JMember _ _ _ _ value _ members => N.max (value_depth value) (members_depth members)
  end
with elements_depth (es : JElements) : N :=
  match es with
  | JLastElement value _ => value_depth value
  | JElement value _ elements => N.max (value_depth value) (elements_depth elements)
  end.

(** The keys of a document in the order of the text, with the lines they are on.
    Values only matter by the lines they take. *)
Fixpoint value_reports (v : JValue) (scope : list string) (line : N) : list KeyReport :=
  match v with
  | JToken _ _ | JEmptyObject _ _ | JEmptyArray _ _ => []
  | JObject pad members => members_reports members scope (line_after line (pad +:+ "{"))
  | JArray pad elements => elements_reports elements scope (line_after line (pad +:+ "["))
  end
with members_reports (ms : JMembers) (scope : list string) (line : N) : list KeyReport :=
  match ms with
  | JLastMember pad key name colon_pad value _ =>
      (scope, name, line_after line pad) :: value_reports value (scope ++ [name]) (line_after line (pad +:+ key +:+ colon_pad +:+ ":"))
  | JMember pad key name colon_pad value end_pad members =>
      (scope, name, line_after line pad) :: value_reports value (scope ++ [name]) (line_after line (pad +:+ key +:+ colon_pad +:+ ":"))
      ++ members_reports members scope (line_after line (pad +:+ key +:+ colon_pad +:+ ":" +:+ value_text value +:+ end_pad +:+ ","))
  end
with elements_reports (es : JElements) (scope : list string) (line : N) : list KeyReport :=
  match es with
  | JLastElement value _ => value_reports value scope line
  | JElement value end_pad elements =>
      value_reports value scope line ++ elements_reports elements scope (line_after line (value_text value +:+ end_pad +:+ ","))
  end.

Definition blanks (t : string) : Prop := str_all is_ascii_blank t = true.

Section documents.
Context `{JsonLibrary}.

Fixpoint value_valid (v : JValue) : Prop :=
  match v with
  | JToken pad token => blanks pad ∧ (string_token token ∨ scalar_token token)
  | JEmptyObject pad inner | JEmptyArray pad inner => blanks pad ∧ blanks inner
  | JObject pad members => blanks pad ∧ members_valid members
  | JArray pad elements => blanks pad ∧ elements_valid elements
  end
with members_valid (ms : JMembers) : Prop :=
  match ms with
  | JLastMember pad key name colon_pad value end_pad =>
      blanks pad ∧ string_token key ∧ json_string key = Ok name ∧ blanks colon_pad ∧ value_valid value ∧ blanks end_pad
  | JMember pad key name colon_pad value end_pad members =>
      blanks pad ∧ string_token key ∧ json_string key = Ok name ∧ blanks colon_pad ∧ value_valid value ∧ blanks end_pad ∧ members_valid members
  end
with elements_valid (es : JElements) : Prop :=
  match es with
  | JLastElement value end_pad => value_valid value ∧ blanks end_pad
  | JElement value end_pad elements => value_valid value ∧ blanks end_pad ∧ elements_valid elements
  end.

(** What may follow a value: a scalar ends where a separator stands. *)
Definition may_follow (v : JValue) (rest : string) : Prop :=
  match v with JToken _ token => string_token token ∨ ends_here rest | _ => True end.

(** A text was read as some reports between two states. *)
Record read_as (t : string) (reports : list KeyReport) (p p' : JsonKeyParser) : Prop := {
  rd_rest : js_rest p = t +:+ js_rest p';
  rd_position : js_position p' = (js_position p + byte_len t)%N;
  rd_line : js_line p' = line_after (js_line p) t;
  rd_collector : try_fold report_key (js_collector p) reports = Ok (js_collector p');
}.

Lemma moved_read t p q : moved t p q ↔ read_as t [] p q.
Proof. split; intros [R P L C]; split; try done; simpl in *; congruence. Qed.
Lemma read_trans t u k l p q r : read_as t k p q → read_as u l q r → read_as (t +:+ u) (k ++ l) p r.
Proof.
  intros [R1 P1 L1 C1] [R2 P2 L2 C2]. split.
  - by rewrite R1, R2, string_app_assoc.
  - rewrite P2, P1, byte_len_app. lia.
  - by rewrite L2, L1, line_after_app.
  - by rewrite try_fold_app, C1.
Qed.
Lemma read_split t u k l p r : read_as (t +:+ u) (k ++ l) p r → ∃ q, read_as t k p q ∧ read_as u l q r.
Proof.
  intros [R P L C]. rewrite try_fold_app in C. apply result_bind_Ok in C as (c & C1 & C2).
  exists {| js_rest := u +:+ js_rest r; js_position := js_position p + byte_len t; js_line := line_after (js_line p) t; js_collector := c |}.
  split; split; simpl; try done.
  - by rewrite R, string_app_assoc.
  - rewrite P, byte_len_app. lia.
  - by rewrite L, line_after_app.
Qed.
Lemma read_unique t k p q q' : read_as t k p q → read_as t k p q' → q = q'.
Proof.
  intros [R P L C] [R' P' L' C']. destruct q, q'; simpl in *. rewrite R in R'. apply string_app_inj_l in R'. congruence.
Qed.
Lemma read_bounded t k p q : read_as t k p q → bounded p → bounded q.
Proof. intros [R P _ _]. unfold bounded. rewrite R, P, byte_len_app. lia. Qed.
Lemma read_length t k p q : read_as t k p q → String.length (js_rest p) = (String.length t + String.length (js_rest q))%nat.
Proof. intros [R _ _ _]. by rewrite R, string_length_app. Qed.

Lemma parse_key_exact input p key p' : bounded p →
  parse_key_string input p = Ok (key, p') ↔ ∃ t, string_token t ∧ moved t p p' ∧ json_string t = Ok key.
Proof.
  intros Hb. unfold parse_key_string.
  assert (Htake : ∀ t q, moved t p q → str_take (String.length (js_rest p) - String.length (js_rest q)) (js_rest p) = t).
  { intros t q [R _ _ _]. rewrite R, string_length_app. replace (_ + _ - _)%nat with (String.length t) by lia.
    generalize (js_rest q) as r. clear. induction t as [|c t IH]; intros r; simpl; [by destruct r|]. by rewrite IH. }
  case_bool_decide as Hq; simpl.
  - split.
    + intros (q & Hs & E)%result_bind_Ok. apply (skip_string_exact input p q Hb) in Hs as (t & Ht & Hm). rewrite (Htake t q Hm) in E.
      destruct (json_string t) as [k|[line column]] eqn:Ek; simplify_eq. by exists t.
    + intros (t & Ht & Hm & Hk). rewrite (proj2 (skip_string_exact input p p' Hb)) by by exists t. simpl. by rewrite (Htake t p' Hm), Hk.
  - split; [done|]. intros (t & (body & -> & _) & Hm & _). exfalso. apply Hq. unfold current_byte. by rewrite (mv_rest _ _ _ Hm).
Qed.

Lemma skip_idempotent p : bounded p → skip_whitespace (skip_whitespace p) = skip_whitespace p.
Proof.
  intros Hb. destruct (skip_whitespace_moved p Hb) as (t & Hm & _ & Hstart). pose proof (moved_bounded _ _ _ Hm Hb) as Hb'.
  destruct (skip_whitespace_exact (skip_whitespace p) "" (js_rest (skip_whitespace p)) Hb' eq_refl eq_refl Hstart) as [Hm' _].
  exact (moved_unique _ _ _ _ Hm' (moved_refl _)).
Qed.
Lemma parse_value_skip input fuel scope depth p : bounded p → parse_value input fuel scope depth (skip_whitespace p) = parse_value input fuel scope depth p.
Proof. intros Hb. destruct fuel; [done|]. simpl. by rewrite skip_idempotent. Qed.
Lemma parse_members_skip input fuel scope depth p :
  bounded p → parse_members input fuel scope depth (skip_whitespace p) = parse_members input fuel scope depth p.
Proof. intros Hb. destruct fuel; [done|]. simpl. by rewrite skip_idempotent. Qed.
Lemma parse_elements_skip input fuel scope depth p :
  bounded p → parse_elements input fuel scope depth (skip_whitespace p) = parse_elements input fuel scope depth p.
Proof. intros Hb. destruct fuel; [done|]. simpl. by rewrite parse_value_skip. Qed.

(** ** Soundness: what is accepted is a document *)
Definition value_sound input fuel : Prop := ∀ scope depth p p', bounded p → parse_value input fuel scope depth p = Some (Ok p') →
  ∃ v, value_valid v ∧ may_follow v (js_rest p') ∧ (depth + value_depth v ≤ MAX_DEPTH)%N ∧
    read_as (value_text v) (value_reports v scope (js_line p)) p p'.
Definition members_sound input fuel : Prop := ∀ scope depth p p', bounded p → (depth ≤ MAX_DEPTH)%N →
  parse_members input fuel scope depth p = Some (Ok p') →
  ∃ ms, members_valid ms ∧ (depth + 1 + members_depth ms ≤ MAX_DEPTH)%N ∧ read_as (members_text ms) (members_reports ms scope (js_line p)) p p'.
Definition elements_sound input fuel : Prop := ∀ scope depth p p', bounded p → (depth ≤ MAX_DEPTH)%N →
  parse_elements input fuel scope depth p = Some (Ok p') →
  ∃ es, elements_valid es ∧ (depth + 1 + elements_depth es ≤ MAX_DEPTH)%N ∧ read_as (elements_text es) (elements_reports es scope (js_line p)) p p'.

Lemma depth_next depth : (depth ≤ MAX_DEPTH)%N → saturating_add depth 1 = (depth + 1)%N.
Proof. unfold MAX_DEPTH. intros. apply saturating_add_small. unfold usize_max. lia. Qed.

Lemma value_step input fuel : members_sound input fuel → elements_sound input fuel → value_sound input (S fuel).
Proof.
  intros IHm IHe scope depth p p' Hb. simpl.
  destruct (skip_whitespace_moved p Hb) as (pad & Hpad & Hblank & Hstart). set (q := skip_whitespace p) in *. clearbody q.
  pose proof (moved_bounded _ _ _ Hpad Hb) as Hq. unfold check_depth. destruct (N.ltb_spec MAX_DEPTH depth) as [|Hd]; [done|].
  unfold current_byte. destruct (js_rest q) as [|c rest] eqn:Er; [done|]. unfold starts_not in Hstart.
  destruct (advance_moved q c rest Hq Er) as [Hadv Hadvr]. pose proof (moved_bounded _ _ _ Hadv Hq) as Hq1.
  destruct (skip_whitespace_moved (advance q) Hq1) as (inner & Hinner & Hblank2 & _). pose proof (moved_bounded _ _ _ Hinner Hq1) as Hq2.
  pose proof (moved_trans _ _ _ _ _ Hpad Hadv) as Hopen. rewrite parse_members_skip, parse_elements_skip by done.
  destruct (Ascii.eqb_spec c "{") as [->|Hc1]; [|destruct (Ascii.eqb_spec c "[") as [->|Hc2]; [|destruct (Ascii.eqb_spec c QUOTE) as [->|Hc3]]].
  - destruct (consume "}" _) as [q3|] eqn:Ec.
    + intros [= <-]. apply consume_Some in Ec; [|done]. exists (JEmptyObject pad inner). split_and!; [done..|simpl; lia|].
      apply moved_read. exact (moved_trans _ _ _ _ _ Hpad (moved_trans _ _ _ _ _ Hadv (moved_trans _ _ _ _ _ Hinner Ec))).
    + intros (ms & Hv & Hdm & Hr)%IHm; [|done..]. exists (JObject pad ms). split_and!; [done..|simpl; lia|].
      rewrite (mv_line _ _ _ Hopen) in Hr. apply moved_read in Hopen. pose proof (read_trans _ _ _ _ _ _ _ Hopen Hr) as H1.
      simpl. by rewrite <-string_app_assoc in H1.
  - destruct (consume "]" _) as [q3|] eqn:Ec.
    + intros [= <-]. apply consume_Some in Ec; [|done]. exists (JEmptyArray pad inner). split_and!; [done..|simpl; lia|].
      apply moved_read. exact (moved_trans _ _ _ _ _ Hpad (moved_trans _ _ _ _ _ Hadv (moved_trans _ _ _ _ _ Hinner Ec))).
    + intros (es & Hv & Hdm & Hr)%IHe; [|done..]. exists (JArray pad es). split_and!; [done..|simpl; lia|].
      rewrite (mv_line _ _ _ Hopen) in Hr. apply moved_read in Hopen. pose proof (read_trans _ _ _ _ _ _ _ Hopen Hr) as H1.
      simpl. by rewrite <-string_app_assoc in H1.
  - intros [= (t & Ht & Hm)%(skip_string_exact input q p' Hq)]. exists (JToken pad t). split_and!; [split; [done|by left]|by left|simpl; lia|].
    apply moved_read. exact (moved_trans _ _ _ _ _ Hpad Hm).
  - intros [= (t & Hne & Ht & Hm & Hend)%(skip_scalar_exact input q p' Hq)]. exists (JToken pad t).
    split_and!; [split; [done|right]|by right|simpl; lia|apply moved_read; exact (moved_trans _ _ _ _ _ Hpad Hm)].
    split_and!; [done..|]. intros c' s ->. pose proof (mv_rest _ _ _ Hm) as E. rewrite Er in E. simpl in E. injection E as <- _. done.
Qed.

Lemma report_read p scope key line c :
  collector_insert scope key line (js_collector p) = Ok c → read_as "" [(scope, key, line)] p (with_collector p c).
Proof. intros E. split; try done; [change (byte_len "") with 0%N; simpl; lia|]. rewrite try_fold_one. exact E. Qed.

(** A comma or the bracket that closes, behind blanks. *)
Lemma close_moved p close p' : bounded p → consume close (skip_whitespace p) = Some p' →
  ∃ pad, blanks pad ∧ moved (pad +:+ String close "") p p'.
Proof.
  intros Hb Hc. destruct (skip_whitespace_moved p Hb) as (pad & Hm & Hblank & _). apply consume_Some in Hc; [|by eapply moved_bounded].
  exists pad. split; [done|]. exact (moved_trans _ _ _ _ _ Hm Hc).
Qed.

Lemma members_step input fuel : value_sound input fuel → members_sound input fuel → members_sound input (S fuel).
Proof.
  intros IHv IHm scope depth p p' Hb Hd. simpl.
  destruct (skip_whitespace_moved p Hb) as (pad & Hpad & Hblank & _). set (q := skip_whitespace p) in *. clearbody q.
  pose proof (moved_bounded _ _ _ Hpad Hb) as Hq. destruct (parse_key_string input q) as [[name q1]|] eqn:Ek; [|done].
  apply (parse_key_exact input q name q1 Hq) in Ek as (key & Hkey & Hkm & Hname). pose proof (moved_bounded _ _ _ Hkm Hq) as Hq1.
  destruct (consume ":" _) as [q2|] eqn:Ec; [|done]. apply close_moved in Ec as (cpad & Hcpad & Hcm); [|done].
  pose proof (moved_trans _ _ _ _ _ Hkm Hcm) as Hkc. pose proof (moved_bounded _ _ _ Hcm Hq1) as Hq2.
  destruct (collector_insert scope name (js_line q) (js_collector q2)) as [c|] eqn:Ei; [|done].
  apply report_read in Ei as Hi. set (q3 := with_collector q2 c) in *. assert (Hq3 : bounded q3) by exact Hq2.
  assert (Hhead : read_as (pad +:+ (key +:+ cpad +:+ ":")) [(scope, name, line_after (js_line p) pad)] p q3).
  { rewrite <-(mv_line _ _ _ Hpad), <-(string_app_nil_r (pad +:+ _)). apply (read_trans _ _ [] _ p q2 q3); [|exact Hi].
    apply moved_read. exact (moved_trans _ _ _ _ _ Hpad Hkc). }
  clearbody q3. rewrite depth_next by done. destruct (parse_value input fuel _ _ q3) as [[q4|]|] eqn:Ev; [|done..].
  apply IHv in Ev as (v & Hv & _ & Hdv & Hvr); [|done]. pose proof (read_bounded _ _ _ _ Hvr Hq3) as Hq4.
  rewrite (rd_line _ _ _ _ Hhead) in Hvr. pose proof (read_trans _ _ _ _ _ _ _ Hhead Hvr) as Hread.
  destruct (consume "}" _) as [q5|] eqn:Ee.
  - intros [= <-]. apply close_moved in Ee as (epad & Hepad & Hem); [|done]. exists (JLastMember pad key name cpad v epad).
    split_and!; [done|simpl; lia|]. apply moved_read in Hem. pose proof (read_trans _ _ _ _ _ _ _ Hread Hem) as Hall. simpl.
    rewrite app_nil_r in Hall. simpl in Hall. by rewrite <-!string_app_assoc in Hall.
  - destruct (consume "," _) as [q5|] eqn:Ecm; [|done]. apply close_moved in Ecm as (epad & Hepad & Hem); [|done].
    pose proof (moved_bounded _ _ _ Hem Hq4) as Hq5. intros (ms & Hms & Hdm & Hmr)%IHm; [|done..]. exists (JMember pad key name cpad v epad ms).
    split_and!; [done|simpl; lia|]. apply moved_read in Hem. pose proof (read_trans _ _ _ _ _ _ _ Hread Hem) as Hall. rewrite app_nil_r in Hall.
    rewrite (rd_line _ _ _ _ Hall) in Hmr. pose proof (read_trans _ _ _ _ _ _ _ Hall Hmr) as Hfull. simpl in *.
    rewrite <-!string_app_assoc in Hfull. exact Hfull.
Qed.

Lemma elements_step input fuel : value_sound input fuel → elements_sound input fuel → elements_sound input (S fuel).
Proof.
  intros IHv IHe scope depth p p' Hb Hd. simpl. rewrite depth_next by done. destruct (parse_value input fuel _ _ p) as [[q|]|] eqn:Ev; [|done..].
  apply IHv in Ev as (v & Hv & _ & Hdv & Hvr); [|done]. pose proof (read_bounded _ _ _ _ Hvr Hb) as Hq. destruct (consume "]" _) as [q1|] eqn:Ee.
  - intros [= <-]. apply close_moved in Ee as (epad & Hepad & Hem); [|done]. exists (JLastElement v epad). split_and!; [done|simpl; lia|].
    apply moved_read in Hem. pose proof (read_trans _ _ _ _ _ _ _ Hvr Hem) as Hall. by rewrite app_nil_r in Hall.
  - destruct (consume "," _) as [q1|] eqn:Ecm; [|done]. apply close_moved in Ecm as (epad & Hepad & Hem); [|done].
    pose proof (moved_bounded _ _ _ Hem Hq) as Hq1. intros (es & Hes & Hde & Her)%IHe; [|done..]. exists (JElement v epad es).
    split_and!; [done|simpl; lia|]. apply moved_read in Hem. pose proof (read_trans _ _ _ _ _ _ _ Hvr Hem) as Hall. rewrite app_nil_r in Hall.
    rewrite (rd_line _ _ _ _ Hall) in Her. pose proof (read_trans _ _ _ _ _ _ _ Hall Her) as Hfull. simpl in *.
    rewrite <-!string_app_assoc in Hfull. exact Hfull.
Qed.

Lemma parse_sound input fuel : value_sound input fuel ∧ members_sound input fuel ∧ elements_sound input fuel.
Proof.
  induction fuel as [|fuel (IHv & IHm & IHe)]; [by split_and!; intros ? ? ? ?|].
  split_and!; [by apply value_step|by apply members_step|by apply elements_step].
Qed.

(** ** The fuel is enough *)
Lemma parse_total input fuel :
  (∀ scope depth p, bounded p → (2 * String.length (js_rest p) + 1 ≤ fuel)%nat → parse_value input fuel scope depth p ≠ None) ∧
  (∀ scope depth p, bounded p → (2 * String.length (js_rest p) + 2 ≤ fuel)%nat → parse_members input fuel scope depth p ≠ None) ∧
  (∀ scope depth p, bounded p → (2 * String.length (js_rest p) + 2 ≤ fuel)%nat → parse_elements input fuel scope depth p ≠ None).
Proof.
  assert (Hlen : ∀ t p q, moved t p q → String.length (js_rest p) = (String.length t + String.length (js_rest q))%nat).
  { intros t p q [R _ _ _]. by rewrite R, string_length_app. }
  induction fuel as [|fuel (IHv & IHm & IHe)]; [split_and!; intros; lia|].
  destruct (parse_sound input fuel) as (Hsound & _ & _).
  split_and!; intros scope depth p Hb Hf; simpl; destruct (skip_whitespace_moved p Hb) as (pad & Hpad & _ & _);
    pose proof (moved_bounded _ _ _ Hpad Hb) as Hq; pose proof (Hlen _ _ _ Hpad) as Hl.
  - set (q := skip_whitespace p) in *. clearbody q. destruct (check_depth _ _); [|done]. unfold current_byte.
    destruct (js_rest q) as [|c rest] eqn:Er; [done|]. destruct (advance_moved q c rest Hq Er) as [Hadv Hadvr].
    pose proof (moved_bounded _ _ _ Hadv Hq) as Hq1. rewrite parse_members_skip, parse_elements_skip by done. simpl in Hl.
    destruct (Ascii.eqb c "{"); [destruct (consume _ _); [done|apply IHm; [done|rewrite Hadvr; lia]]|].
    destruct (Ascii.eqb c "["); [destruct (consume _ _); [done|apply IHe; [done|rewrite Hadvr; lia]]|]. by destruct (Ascii.eqb c QUOTE).
  - set (q := skip_whitespace p) in *. clearbody q. destruct (parse_key_string input q) as [[name q1]|] eqn:Ek; [|done].
    apply (parse_key_exact input q name q1 Hq) in Ek as (key & _ & Hkm & _). pose proof (moved_bounded _ _ _ Hkm Hq) as Hq1.
    destruct (consume ":" _) as [q2|] eqn:Ec; [|done]. apply close_moved in Ec as (cpad & _ & Hcm); [|done].
    pose proof (moved_bounded _ _ _ Hcm Hq1) as Hq2. destruct (collector_insert _ _ _ _) as [c|]; [|done].
    pose proof (Hlen _ _ _ Hkm). pose proof (Hlen _ _ _ Hcm) as Hl2. rewrite string_length_app in Hl2. simpl in Hl2.
    destruct (parse_value input fuel _ _ _) as [[q4|]|] eqn:Ev; [|done|exfalso; eapply IHv; [|simpl|exact Ev]; [done|simpl; lia]].
    apply Hsound in Ev as (v & _ & _ & _ & Hr); [|done]. pose proof (read_bounded _ _ _ _ Hr Hq2) as Hq4. apply read_length in Hr. simpl in Hr.
    destruct (consume "}" _); [done|]. destruct (consume "," _) as [q5|] eqn:Ecm; [|done]. apply close_moved in Ecm as (epad & _ & Hem); [|done].
    apply IHm; [by eapply moved_bounded|]. pose proof (Hlen _ _ _ Hem) as Hl3. rewrite string_length_app in Hl3. simpl in Hl3. lia.
  - destruct (parse_value input fuel _ _ _) as [[q4|]|] eqn:Ev; [|done|exfalso; eapply IHv; [| |exact Ev]; [done|lia]].
    apply Hsound in Ev as (v & _ & _ & _ & Hr); [|done]. pose proof (read_bounded _ _ _ _ Hr Hb) as Hq4. apply read_length in Hr. simpl in Hr.
    destruct (consume "]" _); [done|]. destruct (consume "," _) as [q5|] eqn:Ecm; [|done]. apply close_moved in Ecm as (epad & _ & Hem); [|done].
    apply IHe; [by eapply moved_bounded|]. pose proof (Hlen _ _ _ Hem) as Hl3. rewrite string_length_app in Hl3. simpl in Hl3. lia.
Qed.

(** ** Completeness: every document is accepted *)
Lemma skip_to t p q : bounded p → read_as t [] p q → blanks t → starts_not is_ascii_blank (js_rest q) → skip_whitespace p = q.
Proof.
  intros Hb Hr Ht Hs. destruct (skip_whitespace_exact p t (js_rest q) Hb (rd_rest _ _ _ _ Hr) Ht Hs) as [Hm _].
  apply moved_read in Hm. exact (read_unique _ _ _ _ _ Hm Hr).
Qed.
Lemma consume_to c p q : bounded p → read_as (String c "") [] p q → consume c p = Some q.
Proof. intros Hb Hr. apply consume_Some; [done|]. by apply moved_read. Qed.

Lemma not_closed close p pad c rest : bounded p → js_rest p = pad +:+ String c rest → blanks pad → is_ascii_blank c = false → close ≠ c →
  consume close (skip_whitespace p) = None.
Proof.
  intros Hb E Hpad Hc Hne. destruct (skip_whitespace_exact p pad (String c rest) Hb E Hpad Hc) as [_ Hr]. by eapply consume_other.
Qed.

(** Blanks and one of the bytes that close or go on. *)
Lemma close_to pad close p q : bounded p → read_as (pad +:+ String close "") [] p q → blanks pad → is_ascii_blank close = false →
  consume close (skip_whitespace p) = Some q.
Proof.
  intros Hb Hr Hpad Hc. apply (read_split _ _ [] []) in Hr as (q1 & H1 & H2).
  rewrite (skip_to pad p q1); [apply consume_to; [by eapply read_bounded|done]|done..|]. rewrite (rd_rest _ _ _ _ H2). exact Hc.
Qed.

Lemma ends_after pad close rest : blanks pad → ends_scalar close = true → ends_here (pad +:+ String close rest).
Proof.
  intros Hpad Hc. destruct pad as [|c pad]; [exact Hc|]. unfold blanks in Hpad. rewrite str_all_cons, andb_true_iff in Hpad.
  simpl. unfold ends_scalar. by rewrite (proj1 Hpad).
Qed.

Lemma follow_close v pad close rest : blanks pad → ends_scalar close = true → may_follow v (pad +:+ String close rest).
Proof. intros. destruct v; try done. right. by apply ends_after. Qed.

Lemma blank_not_ends c : ends_scalar c = false → is_ascii_blank c = false.
Proof. unfold ends_scalar. by intros [? _]%orb_false_iff. Qed.

Lemma value_start v : value_valid v → ∃ pad c rest,
  value_text v = pad +:+ String c rest ∧ blanks pad ∧ is_ascii_blank c = false ∧ "]"%char ≠ c.
Proof.
  destruct v as [pad token|pad inner|pad ms|pad inner|pad es]; simpl; [|intros [Hp _]; by exists pad; repeat eexists..].
  intros [Hp [(body & -> & _)|(Hne & Hall & _)]]; [by exists pad, QUOTE, body|]. destruct token as [|c token]; [done|].
  rewrite str_all_cons, andb_true_iff, negb_true_iff in Hall. exists pad, c, token. split_and!; [done..|apply blank_not_ends, Hall|].
  intros <-. by destruct Hall.
Qed.

Lemma members_start ms : members_valid ms → ∃ pad rest, members_text ms = pad +:+ String QUOTE rest ∧ blanks pad.
Proof. destruct ms; simpl; intros (Hp & (body & -> & _) & _); by eexists _, _. Qed.
Lemma elements_start es : elements_valid es → ∃ pad c rest,
  elements_text es = pad +:+ String c rest ∧ blanks pad ∧ is_ascii_blank c = false ∧ "]"%char ≠ c.
Proof.
  destruct es as [v e|v e es]; simpl; intros ((pad & c & rest & -> & Hp & Hc & Hne)%value_start & _); exists pad, c; rewrite <-string_app_assoc; by eexists.
Qed.

Definition value_complete (v : JValue) : Prop := ∀ input fuel scope depth p p',
  bounded p → (2 * String.length (value_text v) + 1 ≤ fuel)%nat → value_valid v → may_follow v (js_rest p') →
  (depth + value_depth v ≤ MAX_DEPTH)%N → read_as (value_text v) (value_reports v scope (js_line p)) p p' →
  parse_value input fuel scope depth p = Some (Ok p').
Definition members_complete (ms : JMembers) : Prop := ∀ input fuel scope depth p p',
  bounded p → (2 * String.length (members_text ms) + 2 ≤ fuel)%nat → members_valid ms → (depth + 1 + members_depth ms ≤ MAX_DEPTH)%N →
  read_as (members_text ms) (members_reports ms scope (js_line p)) p p' → parse_members input fuel scope depth p = Some (Ok p').
Definition elements_complete (es : JElements) : Prop := ∀ input fuel scope depth p p',
  bounded p → (2 * String.length (elements_text es) + 2 ≤ fuel)%nat → elements_valid es → (depth + 1 + elements_depth es ≤ MAX_DEPTH)%N →
  read_as (elements_text es) (elements_reports es scope (js_line p)) p p' → parse_elements input fuel scope depth p = Some (Ok p').

Lemma depth_checked depth line : (depth ≤ MAX_DEPTH)%N → check_depth depth line = Ok tt.
Proof. intros. unfold check_depth. by destruct (N.ltb_spec MAX_DEPTH depth); [lia|]. Qed.

(** The first byte of a value, behind its blanks. *)
Lemma open_value input fuel scope depth p pad c rest :
  bounded p → js_rest p = pad +:+ String c rest → blanks pad → is_ascii_blank c = false → (depth ≤ MAX_DEPTH)%N →
  ∃ q, moved pad p q ∧ bounded q ∧ moved (String c "") q (advance q) ∧ js_rest (advance q) = rest ∧ bounded (advance q) ∧
    parse_value input (S fuel) scope depth p =
      if Ascii.eqb c "{" then
        match consume "}" (skip_whitespace (advance q)) with Some r => Some (Ok r) | None => parse_members input fuel scope depth (advance q) end
      else if Ascii.eqb c "[" then
        match consume "]" (skip_whitespace (advance q)) with Some r => Some (Ok r) | None => parse_elements input fuel scope depth (advance q) end
      else if Ascii.eqb c QUOTE then Some (skip_string input q) else Some (skip_scalar input q).
Proof.
  intros Hb E Hpad Hc Hd. destruct (skip_whitespace_exact p pad (String c rest) Hb E Hpad Hc) as [Hm Hr]. exists (skip_whitespace p).
  pose proof (moved_bounded _ _ _ Hm Hb) as Hq. destruct (advance_moved _ c rest Hq Hr) as [Hadv Hadvr]. pose proof (moved_bounded _ _ _ Hadv Hq).
  split_and!; try done. simpl. rewrite depth_checked by done. unfold current_byte. rewrite Hr. by rewrite parse_members_skip, parse_elements_skip.
Qed.

(** The parts of a document, without running the parser. *)
Ltac open_document :=
  cbn [value_text members_text elements_text value_reports members_reports elements_reports value_depth members_depth elements_depth
       value_valid members_valid elements_valid may_follow] in *.

Lemma token_complete pad token : value_complete (JToken pad token).
Proof.
  intros input fuel scope depth p p' Hb Hf [Hp Ht] Hfollow Hd Hr. destruct fuel as [|fuel]; [lia|]. apply moved_read in Hr. open_document.
  assert (Hstart : ∃ c rest, token = String c rest ∧ is_ascii_blank c = false).
  { destruct Ht as [(body & -> & _)|(Hne & Hall & _)]; [by eexists _, _|]. destruct token as [|c token]; [done|].
    rewrite str_all_cons, andb_true_iff, negb_true_iff in Hall. exists c, token. split; [done|]. apply blank_not_ends, Hall. }
  destruct Hstart as (c & rest & -> & Hc). pose proof (mv_rest _ _ _ Hr) as E. rewrite <-string_app_assoc in E.
  destruct (open_value input fuel scope depth p pad c (rest +:+ js_rest p') Hb E Hp Hc) as (q & Hm & Hq & _ & _ & _ & ->); [lia|].
  assert (Hmt : moved (String c rest) q p').
  { destruct (read_split pad (String c rest) [] [] p p') as (q' & H1 & H2); [by apply moved_read|]. apply moved_read in H1, H2.
    by rewrite <-(moved_unique _ _ _ _ Hm H1) in H2. }
  destruct Ht as [Hs|(Hne & Hall & Hfirst)].
  - pose proof Hs as (body & [= -> ->] & _). rewrite (proj2 (Ascii.eqb_neq _ _)), (proj2 (Ascii.eqb_neq _ _)), Ascii.eqb_refl by done. f_equal.
    apply skip_string_exact; [done|]. by exists (String QUOTE body).
  - destruct (Hfirst c rest eq_refl) as (H1 & H2 & H3). rewrite !(proj2 (Ascii.eqb_neq _ _)) by done. f_equal. apply skip_scalar_exact; [done|].
    exists (String c rest). split_and!; [done..|]. destruct Hfollow as [(body & [= -> ->] & _)|?]; [done|done].
Qed.

Lemma empty_object_complete pad inner : value_complete (JEmptyObject pad inner).
Proof.
  intros input fuel scope depth p p' Hb Hf [Hp Hi] _ Hd Hr. destruct fuel as [|fuel]; [lia|]. open_document.
  destruct (open_value input fuel scope depth p pad "{" (inner +:+ String "}" (js_rest p')) Hb) as (q & Hm & Hq & Hadv & Hadvr & Hq1 & ->);
    [by rewrite (rd_rest _ _ _ _ Hr), <-!string_app_assoc|done|done|lia|].
  apply (read_split pad _ [] []) in Hr as (q' & H1 & H2). apply moved_read in Hm. rewrite <-(read_unique _ _ _ _ _ Hm H1) in H2.
  apply (read_split "{" _ [] []) in H2 as (q'' & H3 & H4). apply moved_read in Hadv. rewrite <-(read_unique _ _ _ _ _ Hadv H3) in H4.
  simpl. by rewrite (close_to _ _ _ _ Hq1 H4 Hi).
Qed.

Lemma empty_array_complete pad inner : value_complete (JEmptyArray pad inner).
Proof.
  intros input fuel scope depth p p' Hb Hf [Hp Hi] _ Hd Hr. destruct fuel as [|fuel]; [lia|]. open_document.
  destruct (open_value input fuel scope depth p pad "[" (inner +:+ String "]" (js_rest p')) Hb) as (q & Hm & Hq & Hadv & Hadvr & Hq1 & ->);
    [by rewrite (rd_rest _ _ _ _ Hr), <-!string_app_assoc|done|done|lia|].
  apply (read_split pad _ [] []) in Hr as (q' & H1 & H2). apply moved_read in Hm. rewrite <-(read_unique _ _ _ _ _ Hm H1) in H2.
  apply (read_split "[" _ [] []) in H2 as (q'' & H3 & H4). apply moved_read in Hadv. rewrite <-(read_unique _ _ _ _ _ Hadv H3) in H4.
  simpl. by rewrite (close_to _ _ _ _ Hq1 H4 Hi).
Qed.

Lemma object_complete pad ms : members_complete ms → value_complete (JObject pad ms).
Proof.
  intros IH input fuel scope depth p p' Hb Hf [Hp Hv] _ Hd Hr. destruct fuel as [|fuel]; [lia|]. open_document.
  destruct (open_value input fuel scope depth p pad "{" (members_text ms +:+ js_rest p') Hb) as (q & Hm & Hq & Hadv & Hadvr & Hq1 & ->);
    [by rewrite (rd_rest _ _ _ _ Hr), <-string_app_assoc|done|done|lia|].
  simpl. apply (read_split pad _ [] _) in Hr as (q' & H1 & H2). apply moved_read in Hm. rewrite <-(read_unique _ _ _ _ _ Hm H1) in H2.
  apply (read_split "{" _ [] _) in H2 as (q'' & H3 & H4). apply moved_read in Hadv. rewrite <-(read_unique _ _ _ _ _ Hadv H3) in H4.
  destruct (members_start ms Hv) as (mpad & rest & Et & Hmp). rewrite (not_closed "}" (advance q) mpad QUOTE (rest +:+ js_rest p')); try done.
  2: { by rewrite Hadvr, Et, <-string_app_assoc. }
  rewrite string_length_app in Hf. simpl in Hf. eapply IH; [done|lia|done|lia|].
  rewrite (rd_line _ _ _ _ Hadv), (rd_line _ _ _ _ Hm), <-line_after_app. done.
Qed.

Lemma array_complete pad es : elements_complete es → value_complete (JArray pad es).
Proof.
  intros IH input fuel scope depth p p' Hb Hf [Hp Hv] _ Hd Hr. destruct fuel as [|fuel]; [lia|]. open_document.
  destruct (open_value input fuel scope depth p pad "[" (elements_text es +:+ js_rest p') Hb) as (q & Hm & Hq & Hadv & Hadvr & Hq1 & ->);
    [by rewrite (rd_rest _ _ _ _ Hr), <-string_app_assoc|done|done|lia|].
  simpl. apply (read_split pad _ [] _) in Hr as (q' & H1 & H2). apply moved_read in Hm. rewrite <-(read_unique _ _ _ _ _ Hm H1) in H2.
  apply (read_split "[" _ [] _) in H2 as (q'' & H3 & H4). apply moved_read in Hadv. rewrite <-(read_unique _ _ _ _ _ Hadv H3) in H4.
  destruct (elements_start es Hv) as (epad & c & rest & Et & Hep & Hc & Hne). rewrite (not_closed "]" (advance q) epad c (rest +:+ js_rest p')); try done.
  2: { by rewrite Hadvr, Et, <-string_app_assoc. }
  rewrite string_length_app in Hf. simpl in Hf. eapply IH; [done|lia|done|lia|].
  rewrite (rd_line _ _ _ _ Hadv), (rd_line _ _ _ _ Hm), <-line_after_app. done.
Qed.

(** The key of a member, up to its value. *)
Lemma member_head input fuel scope depth p p' pad key name colon_pad T R :
  bounded p → blanks pad → string_token key → json_string key = Ok name → blanks colon_pad → (depth ≤ MAX_DEPTH)%N →
  read_as (pad +:+ key +:+ colon_pad +:+ ":" +:+ T) ((scope, name, line_after (js_line p) pad) :: R) p p' →
  ∃ q, bounded q ∧ read_as T R q p' ∧ js_line q = line_after (js_line p) (pad +:+ key +:+ colon_pad +:+ ":") ∧
    parse_members input (S fuel) scope depth p =
    match parse_value input fuel (scope ++ [name]) (depth + 1) q with
    | Some (Ok parser) =>
        match consume "}" (skip_whitespace parser) with
        | Some parser => Some (Ok parser)
        | None =>
            match consume "," (skip_whitespace parser) with
            | Some parser => parse_members input fuel scope depth parser
            | None => Some (Err (error input (skip_whitespace parser)))
            end
        end
    | other => other
    end.
Proof.
  intros Hb Hpad Hkey Hname Hcpad Hd Hr. pose proof Hkey as (body & Ekey & _).
  apply (read_split pad _ [] _) in Hr as (q0 & H0 & Hr). pose proof (read_bounded _ _ _ _ H0 Hb) as Hq0.
  apply (read_split key _ [] _) in Hr as (q1 & H1 & Hr). pose proof (read_bounded _ _ _ _ H1 Hq0) as Hq1.
  rewrite (string_app_assoc colon_pad) in Hr. apply (read_split (colon_pad +:+ ":") _ [] _) in Hr as (q2 & H2 & Hr).
  apply (read_split "" T [(scope, name, line_after (js_line p) pad)] R q2 p') in Hr as (q3 & H3 & Hr).
  assert (Hline : line_after (js_line p) pad = js_line q0) by by rewrite (rd_line _ _ _ _ H0).
  exists q3. split_and!; [by eapply read_bounded, read_bounded; [| |exact Hq1]|done| |].
  - by rewrite (rd_line _ _ _ _ H3), (rd_line _ _ _ _ H2), (rd_line _ _ _ _ H1), (rd_line _ _ _ _ H0), !line_after_app.
  - cbn [parse_members]. rewrite (skip_to pad p q0) by (try done; by rewrite (rd_rest _ _ _ _ H1), Ekey).
    rewrite (proj2 (parse_key_exact input q0 name q1 Hq0)) by (exists key; split_and!; [done|by apply moved_read|done]).
    rewrite (close_to colon_pad ":" q1 q2) by done. destruct H3 as [R3 P3 L3 C3]. rewrite try_fold_one in C3. unfold report_key in C3. simpl in C3.
    rewrite <-Hline. rewrite C3, depth_next by done. assert (Hq : with_collector q2 (js_collector q3) = q3); [|by rewrite Hq].
    destruct q2, q3. unfold with_collector. simpl in *. subst. change (byte_len "") with 0%N. by rewrite N.add_0_r.
Qed.

Lemma go_on close p p' pad T R : bounded p → blanks pad → close ≠ ","%char → read_as (pad +:+ "," +:+ T) R p p' →
  consume close (skip_whitespace p) = None ∧ ∃ q, consume "," (skip_whitespace p) = Some q ∧ bounded q ∧ read_as T R q p' ∧
    js_line q = line_after (js_line p) (pad +:+ ",").
Proof.
  intros Hb Hpad Hc Hr. split.
  - apply (not_closed close p pad "," (T +:+ js_rest p')); try done. by rewrite (rd_rest _ _ _ _ Hr), <-string_app_assoc.
  - rewrite string_app_assoc in Hr. apply (read_split (pad +:+ ",") _ [] R) in Hr as (q & H1 & H2). exists q.
    split_and!; [by apply (close_to pad)|by eapply read_bounded|done|by rewrite (rd_line _ _ _ _ H1)].
Qed.

Lemma last_member_complete pad key name colon_pad v end_pad :
  value_complete v → members_complete (JLastMember pad key name colon_pad v end_pad).
Proof.
  intros IH input fuel scope depth p p' Hb Hf (Hpad & Hkey & Hname & Hcpad & Hv & Hend) Hd Hr. destruct fuel as [|fuel]; [lia|]. open_document.
  assert (Hdepth : (depth ≤ MAX_DEPTH)%N) by lia.
  destruct (member_head input fuel _ _ _ _ _ _ _ _ _ _ Hb Hpad Hkey Hname Hcpad Hdepth Hr) as (q & Hq & Hr' & Hl & ->).
  rewrite <-(app_nil_r (value_reports v _ _)) in Hr'. apply (read_split (value_text v)) in Hr' as (q4 & H4 & H5).
  rewrite !string_length_app in Hf. simpl in Hf. rewrite <-Hl in H4. rewrite (IH input fuel _ _ q q4); try done; [|lia|].
  - by rewrite (close_to end_pad "}" q4 p') by (try done; by eapply read_bounded).
  - rewrite (rd_rest _ _ _ _ H5), <-string_app_assoc. by apply follow_close.
Qed.

Lemma member_complete pad key name colon_pad v end_pad ms :
  value_complete v → members_complete ms → members_complete (JMember pad key name colon_pad v end_pad ms).
Proof.
  intros IH IHm input fuel scope depth p p' Hb Hf (Hpad & Hkey & Hname & Hcpad & Hv & Hend & Hms) Hd Hr. destruct fuel as [|fuel]; [lia|]. open_document.
  assert (Hdepth : (depth ≤ MAX_DEPTH)%N) by lia.
  destruct (member_head input fuel _ _ _ _ _ _ _ _ _ _ Hb Hpad Hkey Hname Hcpad Hdepth Hr) as (q & Hq & Hr' & Hl & ->).
  apply (read_split (value_text v)) in Hr' as (q4 & H4 & H5). pose proof (read_bounded _ _ _ _ H4 Hq) as Hq4.
  rewrite !string_length_app in Hf. simpl in Hf. rewrite <-Hl in H4. rewrite (IH input fuel _ _ q q4); try done; [|lia| |lia].
  - destruct (go_on "}" q4 p' end_pad _ _ Hq4 Hend ltac:(done) H5) as (-> & q5 & -> & Hq5 & H6 & Hl5).
    eapply IHm; [done|lia|done|lia|]. rewrite Hl5, (rd_line _ _ _ _ H4), Hl, <-!line_after_app, <-!string_app_assoc. exact H6.
  - rewrite (rd_rest _ _ _ _ H5), <-!string_app_assoc. by apply follow_close.
Qed.

Lemma last_element_complete v end_pad : value_complete v → elements_complete (JLastElement v end_pad).
Proof.
  intros IH input fuel scope depth p p' Hb Hf (Hv & Hend) Hd Hr. destruct fuel as [|fuel]; [lia|]. open_document.
  rewrite <-(app_nil_r (value_reports v _ _)) in Hr. apply (read_split (value_text v)) in Hr as (q4 & H4 & H5).
  rewrite !string_length_app in Hf. simpl in Hf. cbn [parse_elements]. rewrite depth_next by lia. rewrite (IH input fuel _ _ p q4); try done; [|lia|].
  - by rewrite (close_to end_pad "]" q4 p') by (try done; by eapply read_bounded).
  - rewrite (rd_rest _ _ _ _ H5), <-string_app_assoc. by apply follow_close.
Qed.

Lemma element_complete v end_pad es : value_complete v → elements_complete es → elements_complete (JElement v end_pad es).
Proof.
  intros IH IHe input fuel scope depth p p' Hb Hf (Hv & Hend & Hes) Hd Hr. destruct fuel as [|fuel]; [lia|]. open_document.
  apply (read_split (value_text v)) in Hr as (q4 & H4 & H5). pose proof (read_bounded _ _ _ _ H4 Hb) as Hq4.
  rewrite !string_length_app in Hf. simpl in Hf. cbn [parse_elements]. rewrite depth_next by lia. rewrite (IH input fuel _ _ p q4); try done; [|lia| |lia].
  - destruct (go_on "]" q4 p' end_pad _ _ Hq4 Hend ltac:(done) H5) as (-> & q5 & -> & Hq5 & H6 & Hl5).
    eapply IHe; [done|lia|done|lia|]. rewrite Hl5, (rd_line _ _ _ _ H4), <-!line_after_app. exact H6.
  - rewrite (rd_rest _ _ _ _ H5), <-!string_app_assoc. by apply follow_close.
Qed.

Lemma parse_complete : (∀ v, value_complete v) ∧ (∀ ms, members_complete ms) ∧ (∀ es, elements_complete es).
Proof.
  apply json_mutind; eauto using token_complete, empty_object_complete, empty_array_complete, object_complete, array_complete,
    last_member_complete, member_complete, last_element_complete, element_complete.
Qed.

(** A JSON document is accepted exactly when it is a value of bounded depth
    between blanks that the library accepts, with names that are not too long and
    not too many; the keys are exactly those of its members. *)
Lemma parse_json_exact input keys : (byte_len input ≤ usize_max)%N →
  parse_json input ∅ = Some (Ok keys) ↔
  ∃ v pad, input = value_text v +:+ pad ∧ value_valid v ∧ blanks pad ∧ (value_depth v ≤ MAX_DEPTH)%N ∧ json_check input = None ∧
    let reports := value_reports v [] 1 in
    keys = keys_of reports ∧ (∀ report, report ∈ reports → (byte_len report.1.2 ≤ MAX_KEY_BYTES)%N) ∧ (N.of_nat (size (keys_of reports)) ≤ MAX_KEYS)%N.
Proof.
  intros Hlen. unfold parse_json. set (start := {| js_rest := input; js_position := 0; js_line := 1; js_collector := ∅ |}).
  assert (Hb : bounded start) by exact Hlen. split.
  - destruct (parse_value input _ [] 0 start) as [[p|]|] eqn:E; [|done..]. apply parse_sound in E as (v & Hv & _ & Hd & Hr); [|done].
    pose proof (read_bounded _ _ _ _ Hr Hb) as Hp. destruct (skip_whitespace_moved p Hp) as (pad & Hm & Hpad & _). set (q := skip_whitespace p) in *.
    destruct (N.eqb_spec (js_position q) (byte_len input)) as [Hend|]; [|done]. simpl. destruct (json_check input) as [[]|] eqn:Ec; [done|]. intros [= <-].
    pose proof (mv_position _ _ _ Hm) as P2. pose proof (rd_position _ _ _ _ Hr) as P1. pose proof (rd_rest _ _ _ _ Hr) as R. simpl in P1, R.
    assert (Hq : js_rest q = "").
    { assert (Hl : byte_len (js_rest q) = 0%N); [|by destruct (js_rest q); [done|rewrite byte_len_cons in Hl; lia]].
      rewrite (mv_rest _ _ _ Hm) in R. rewrite R, !byte_len_app in Hend. lia. }
    exists v, pad. rewrite (mv_rest _ _ _ Hm), Hq, string_app_nil_r in R. do 3 (split; [done|]). split; [lia|]. split; [done|]. apply report_keys_exact.
    rewrite (mv_collector _ _ _ Hm). apply (rd_collector _ _ _ _ Hr).
  - intros (v & pad & E & Hv & Hpad & Hd & Hc & Hk). apply report_keys_exact in Hk.
    set (p := {| js_rest := pad; js_position := byte_len (value_text v); js_line := line_after 1 (value_text v); js_collector := keys |}).
    assert (Hr : read_as (value_text v) (value_reports v [] (js_line start)) start p) by (split; done).
    destruct parse_complete as (Hcomplete & _). rewrite (Hcomplete v input _ [] 0%N start p Hb).
    + set (q := {| js_rest := ""; js_position := byte_len (value_text v) + byte_len pad; js_line := line_after (js_line p) pad; js_collector := keys |}).
      rewrite (skip_to pad p q); [|by eapply read_bounded|split; try done; simpl; by rewrite string_app_nil_r|done|done].
      simpl. rewrite E at 1. rewrite byte_len_app, N.eqb_refl. simpl. by rewrite Hc.
    + unfold json_fuel. rewrite E, string_length_app. lia.
    + done.
    + destruct v; try done. right. simpl. destruct pad as [|c pad']; [done|]. unfold blanks in Hpad. rewrite str_all_cons, andb_true_iff in Hpad.
      simpl. unfold ends_scalar. by rewrite (proj1 Hpad).
    + done.
    + done.
Qed.

Lemma parse_json_ends input keys : (byte_len input ≤ usize_max)%N → parse_json input keys ≠ None.
Proof.
  intros Hlen. unfold parse_json. destruct (parse_value input _ _ _ _) as [[p|]|] eqn:E; [|done|].
  - destruct (negb _); [done|]. by destruct (json_check input) as [[]|].
  - exfalso. destruct (parse_total input (json_fuel input)) as (Htotal & _). eapply Htotal; [| |exact E]; [exact Hlen|]. unfold json_fuel. simpl. lia.
Qed.
End documents.
