(* ===== verification/SafeToml.v ===== *)
(** * Keys of TOML documents (secret_safety.rs)

    The line reader of TOML documents: comments, table headers, key paths, and
    the scanner that finds where a value ends. *)
From Stdlib Require Import NArith Ascii.
From stdpp Require Import base gmap sets list strings.
From S2P Require Import Prelude RustOrd RustStr RustText SafeConfig SafeJson.

Definition PARTIAL_TOML_WARNING : string := "unsupported TOML inline structures were omitted from key-path extraction".
Definition APOSTROPHE : ascii := ascii_of_N 39.

Definition push_warning (warnings : list string) (warning : string) : list string :=
  if existsb (String.eqb warning) warnings then warnings else warnings ++ [warning].

(** ** Outside of quotes

    The loops over bytes keep the open quote, if any, and whether the byte before
    was an escaping backslash. *)
Record Quoting := { qt_quote : option ascii; qt_escaped : bool }.
Definition unquoted : Quoting := {| qt_quote := None; qt_escaped := false |}.

(** Whether a byte stands outside of quotes and is none. *)
Definition is_quote (byte : ascii) : bool := Ascii.eqb byte QUOTE || Ascii.eqb byte APOSTROPHE.
Definition is_outside (state : Quoting) (byte : ascii) : bool := negb (is_some (qt_quote state)) && negb (is_quote byte).

Definition quote_step (state : Quoting) (byte : ascii) : Quoting :=
  match qt_quote state with
  | None => {| qt_quote := if is_quote byte then Some byte else None; qt_escaped := qt_escaped state |}
  | Some quote =>
      if Ascii.eqb quote QUOTE then
        {| qt_quote := if Ascii.eqb byte QUOTE && negb (qt_escaped state) then None else Some quote;
           qt_escaped := Ascii.eqb byte BACKSLASH && negb (qt_escaped state) |}
      else {| qt_quote := if Ascii.eqb byte APOSTROPHE then None else Some quote; qt_escaped := qt_escaped state |}
  end.

(** The text before and behind the first byte outside of quotes that a test on
    the byte before and on the byte accepts. *)
Fixpoint split_unquoted (test : option ascii → ascii → bool) (previous : option ascii) (state : Quoting) (s : string) : option (string * string) :=
  match s with
  | EmptyString => None
  | String byte rest =>
      if is_outside state byte && test previous byte then Some (EmptyString, rest)
      else (λ parts, (String byte parts.1, parts.2)) <$> split_unquoted test (Some byte) (quote_step state byte) rest
  end.

(** [find_unquoted] with the two slices around the position it finds. *)
Definition find_unquoted (needle : ascii) (s : string) : option (string * string) :=
  split_unquoted (λ _ byte, Ascii.eqb byte needle) None unquoted s.

Definition strip_toml_comment (s : string) : string := match find_unquoted "#" s with Some (before, _) => before | None => s end.

(** ** Key paths *)
Fixpoint parse_toml_basic_quoted (s : string) : option string :=
  match s with
  | EmptyString => Some EmptyString
  | String c rest =>
      if negb (Ascii.eqb c BACKSLASH) then String c <$> parse_toml_basic_quoted rest
      else match rest with
      | EmptyString => None
      | String escaped rest =>
          let decoded :=
            if Ascii.eqb escaped QUOTE || Ascii.eqb escaped BACKSLASH then Some escaped
            else if Ascii.eqb escaped "b" then Some (ascii_of_N 8)
            else if Ascii.eqb escaped "t" then Some (ascii_of_N 9)
            else if Ascii.eqb escaped "n" then Some (ascii_of_N 10)
            else if Ascii.eqb escaped "f" then Some (ascii_of_N 12)
            else if Ascii.eqb escaped "r" then Some (ascii_of_N 13)
            else None in
          match decoded with
          | Some c => String c <$> parse_toml_basic_quoted rest
          | None => None
          end
      end
  end.

Definition is_bare_byte (c : ascii) : bool := is_ascii_alnum c || Ascii.eqb c "_" || Ascii.eqb c "-".

(** What stands between two quotes, if the text has at least these two bytes. *)
Definition quoted_by (quote : ascii) (s : string) : option string := between (String quote "") (String quote "") s.

Definition parse_toml_key_part (s : string) : option string :=
  match quoted_by QUOTE s with
  | Some inner => parse_toml_basic_quoted inner
  | None =>
      match quoted_by APOSTROPHE s with
      | Some inner => Some inner
      | None => if negb (String.eqb s "") && str_all is_bare_byte s then Some s else None
      end
  end.

(** The loop of [parse_toml_key_path]: [part] is the input from [start] on. *)
Fixpoint parse_toml_key_parts (parts : list string) (part : string) (state : Quoting) (s : string) : option (list string) :=
  match s with
  | EmptyString =>
      match qt_quote state with
      | Some _ => None
      | None => (λ part, parts ++ [part]) <$> parse_toml_key_part (trim part)
      end
  | String byte rest =>
      if is_outside state byte && Ascii.eqb byte "." then
        match parse_toml_key_part (trim part) with
        | None => None
        | Some part => parse_toml_key_parts (parts ++ [part]) "" unquoted rest
        end
      else parse_toml_key_parts parts (part +:+ String byte "") (quote_step state byte) rest
  end.
Definition parse_toml_key_path (s : string) : option (list string) := parse_toml_key_parts [] "" unquoted s.

(** ** Values *)
Inductive TomlQuote := Basic | Literal | MultiBasic | MultiLiteral.
Record TomlValueState := {
  tv_quote : option TomlQuote;
  tv_escaped : bool;
  tv_square_depth : N;
  tv_curly_depth : N;
  tv_invalid : bool;
  tv_unclosed_single_line_string : bool;
}.
Definition default_value_state : TomlValueState :=
  {| tv_quote := None; tv_escaped := false; tv_square_depth := 0; tv_curly_depth := 0; tv_invalid := false;
     tv_unclosed_single_line_string := false |}.

Definition set_quote (quote : option TomlQuote) (escaped : bool) (state : TomlValueState) : TomlValueState :=
  {| tv_quote := quote; tv_escaped := escaped; tv_square_depth := tv_square_depth state; tv_curly_depth := tv_curly_depth state;
     tv_invalid := tv_invalid state; tv_unclosed_single_line_string := tv_unclosed_single_line_string state |}.
Definition set_depths (square curly : N) (state : TomlValueState) : TomlValueState :=
  {| tv_quote := tv_quote state; tv_escaped := tv_escaped state; tv_square_depth := square; tv_curly_depth := curly;
     tv_invalid := tv_invalid state; tv_unclosed_single_line_string := tv_unclosed_single_line_string state |}.
Definition set_invalid (state : TomlValueState) : TomlValueState :=
  {| tv_quote := tv_quote state; tv_escaped := tv_escaped state; tv_square_depth := tv_square_depth state;
     tv_curly_depth := tv_curly_depth state; tv_invalid := true;
     tv_unclosed_single_line_string := tv_unclosed_single_line_string state |}.
Definition set_unclosed (unclosed : bool) (escaped : bool) (state : TomlValueState) : TomlValueState :=
  {| tv_quote := tv_quote state; tv_escaped := escaped; tv_square_depth := tv_square_depth state;
     tv_curly_depth := tv_curly_depth state; tv_invalid := tv_invalid state; tv_unclosed_single_line_string := unclosed |}.

Definition is_quote_kind (kind : TomlQuote) (state : TomlValueState) : bool :=
  match tv_quote state, kind with
  | Some Basic, Basic | Some Literal, Literal | Some MultiBasic, MultiBasic | Some MultiLiteral, MultiLiteral => true
  | _, _ => false
  end.

(** What a scan does at a byte that takes one position: go on, stop at a comment,
    or return because a bracket closes nothing. *)
Inductive ScanStep := Scan_Next (state : TomlValueState) | Scan_Break | Scan_Return (state : TomlValueState).

Definition scan_byte (state : TomlValueState) (byte : ascii) : ScanStep :=
  match tv_quote state with
  | Some MultiBasic => Scan_Next (set_quote (Some MultiBasic) (Ascii.eqb byte BACKSLASH && negb (tv_escaped state)) state)
  | Some MultiLiteral => Scan_Next state
  | Some Basic =>
      Scan_Next (set_quote (if Ascii.eqb byte QUOTE && negb (tv_escaped state) then None else Some Basic)
        (Ascii.eqb byte BACKSLASH && negb (tv_escaped state)) state)
  | Some Literal => Scan_Next (set_quote (if Ascii.eqb byte APOSTROPHE then None else Some Literal) (tv_escaped state) state)
  | None =>
      if Ascii.eqb byte QUOTE then Scan_Next (set_quote (Some Basic) (tv_escaped state) state)
      else if Ascii.eqb byte APOSTROPHE then Scan_Next (set_quote (Some Literal) (tv_escaped state) state)
      else if Ascii.eqb byte "[" then Scan_Next (set_depths (saturating_add (tv_square_depth state) 1) (tv_curly_depth state) state)
      else if Ascii.eqb byte "]" then
        if (tv_square_depth state =? 0)%N then Scan_Return (set_invalid state)
        else Scan_Next (set_depths (tv_square_depth state - 1) (tv_curly_depth state) state)
      else if Ascii.eqb byte "{" then Scan_Next (set_depths (tv_square_depth state) (saturating_add (tv_curly_depth state) 1) state)
      else if Ascii.eqb byte "}" then
        if (tv_curly_depth state =? 0)%N then Scan_Return (set_invalid state)
        else Scan_Next (set_depths (tv_square_depth state) (tv_curly_depth state - 1) state)
      else if Ascii.eqb byte "#" then Scan_Break
      else Scan_Next state
  end.

(** The state behind three equal quotes, where these mean something. *)
Definition scan_triple (state : TomlValueState) (byte : ascii) : option TomlValueState :=
  match tv_quote state with
  | Some MultiBasic => if Ascii.eqb byte QUOTE && negb (tv_escaped state) then Some (set_quote None (tv_escaped state) state) else None
  | Some MultiLiteral => if Ascii.eqb byte APOSTROPHE then Some (set_quote None (tv_escaped state) state) else None
  | Some _ => None
  | None =>
      if Ascii.eqb byte QUOTE then Some (set_quote (Some MultiBasic) (tv_escaped state) state)
      else if Ascii.eqb byte APOSTROPHE then Some (set_quote (Some MultiLiteral) (tv_escaped state) state)
      else None
  end.

Definition scan_end (state : TomlValueState) : TomlValueState :=
  set_unclosed (is_quote_kind Basic state || is_quote_kind Literal state || tv_unclosed_single_line_string state) false state.

Fixpoint scan_loop (state : TomlValueState) (s : string) : TomlValueState :=
  match s with
  | EmptyString => scan_end state
  | String byte rest =>
      let single :=
        match scan_byte state byte with
        | Scan_Next state => scan_loop state rest
        | Scan_Break => scan_end state
        | Scan_Return state => state
        end in
      match rest with
      | String second rest2 =>
          match rest2 with
          | String third rest3 =>
              if Ascii.eqb second byte && Ascii.eqb third byte then
                match scan_triple state byte with
                | Some state => scan_loop state rest3
                | None => single
                end
              else single
          | EmptyString => single
          end
      | EmptyString => single
      end
  end.

Definition scan (state : TomlValueState) (s : string) : TomlValueState := scan_loop (set_unclosed false (tv_escaped state) state) s.

Definition is_complete_value (state : TomlValueState) : bool :=
  negb (is_some (tv_quote state)) && (tv_square_depth state =? 0)%N && (tv_curly_depth state =? 0)%N.

(** ** Lines *)
Record TomlReader := {
  tr_scope : list string;
  tr_value_state : option TomlValueState;
  tr_collector : KeyCollector;
  tr_warnings : list string;
}.

Definition table_header (text : string) : option string :=
  trim <$> (if starts_with "[[" text then between "[[" "]]" text else between "[" "]" text).

Definition toml_line (reader : TomlReader) (entry : N * string) : result ConfigExtractionError TomlReader :=
  let '(line, source_line) := entry in
  match tr_value_state reader with
  | Some state =>
      let state := scan state source_line in
      Ok {| tr_scope := tr_scope reader; tr_value_state := if is_complete_value state then None else Some state;
            tr_collector := tr_collector reader; tr_warnings := tr_warnings reader |}
  | None =>
      let text := trim (strip_toml_comment source_line) in
      if String.eqb text "" then Ok reader
      else if starts_with "[" text then
        match table_header text ≫= parse_toml_key_path with
        | None => Err (malformed Toml line 1)
        | Some path =>
            check? check_depth (len path) line in
            let? collector := insert_path [] path line (tr_collector reader) in
            Ok {| tr_scope := path; tr_value_state := None; tr_collector := collector; tr_warnings := tr_warnings reader |}
        end
      else
        match find_unquoted "=" text with
        | None => Err (malformed Toml line 1)
        | Some (key_text, after) =>
            match parse_toml_key_path (trim key_text) with
            | None => Err (malformed Toml line 1)
            | Some path =>
                check? check_depth (saturating_add (len (tr_scope reader)) (len path)) line in
                let? collector := insert_path (tr_scope reader) path line (tr_collector reader) in
                let value := trim_start after in
                let column := saturating_add (byte_len key_text) 2 in
                if String.eqb value "" then Err (malformed Toml line column)
                else
                  let warnings := if starts_with "{" value then push_warning (tr_warnings reader) PARTIAL_TOML_WARNING else tr_warnings reader in
                  let state := scan default_value_state value in
                  if tv_invalid state || tv_unclosed_single_line_string state then Err (malformed Toml line column)
                  else Ok {| tr_scope := tr_scope reader; tr_value_state := if is_complete_value state then None else Some state;
                             tr_collector := collector; tr_warnings := warnings |}
            end
        end
  end.

Definition parse_toml (input : string) (keys : KeyCollector) (warnings : list string) : result ConfigExtractionError (KeyCollector * list string) :=
  let? reader :=
    try_fold toml_line {| tr_scope := []; tr_value_state := None; tr_collector := keys; tr_warnings := warnings |} (numbered input) in
  if is_some (tr_value_state reader) then Err (malformed Toml (N.max (len (lines input)) 1) 1)
  else Ok (tr_collector reader, tr_warnings reader).

(** ** Printing key paths

    The reference for their reader: bare parts as they are, others between quotes
    with quotes and backslashes escaped. *)
Fixpoint escape_part (s : string) : string :=
  match s with
  | EmptyString => EmptyString
  | String c s => if Ascii.eqb c QUOTE || Ascii.eqb c BACKSLASH then String BACKSLASH (String c (escape_part s)) else String c (escape_part s)
  end.
Definition is_bare (part : string) : bool := negb (String.eqb part "") && str_all is_bare_byte part.
Definition print_part (part : string) : string := if is_bare part then part else String QUOTE (escape_part part +:+ String QUOTE "").
Definition print_path (path : list string) : string := join "." (map print_part path).

Lemma decode_escape s : parse_toml_basic_quoted (escape_part s) = Some s.
Proof.
  induction s as [|c s IH]; [done|]. cbn [escape_part]. destruct (Ascii.eqb c QUOTE || Ascii.eqb c BACKSLASH) eqn:E.
  - cbn [parse_toml_basic_quoted]. rewrite Ascii.eqb_refl. cbn [negb]. by rewrite E, IH.
  - apply orb_false_iff in E as [_ E]. cbn [parse_toml_basic_quoted]. rewrite E. cbn [negb]. by rewrite IH.
Qed.

Definition inside : Quoting := {| qt_quote := Some QUOTE; qt_escaped := false |}.

(** Bytes inside quotes go to the part. *)
Lemma parts_inside s parts part rest :
  parse_toml_key_parts parts part inside (escape_part s +:+ rest) = parse_toml_key_parts parts (part +:+ escape_part s) inside rest.
Proof.
  revert part. induction s as [|c s IH]; intros part; [by rewrite string_app_nil_r|]. cbn [escape_part].
  destruct (Ascii.eqb c QUOTE || Ascii.eqb c BACKSLASH) eqn:E.
  - cbn [String.append parse_toml_key_parts]. change (is_outside inside BACKSLASH) with false. cbn [andb].
    change (quote_step inside BACKSLASH) with {| qt_quote := Some QUOTE; qt_escaped := true |}.
    assert (Hq : quote_step {| qt_quote := Some QUOTE; qt_escaped := true |} c = inside).
    { unfold quote_step. simpl. by rewrite !andb_false_r. }
    change (is_outside {| qt_quote := Some QUOTE; qt_escaped := true |} c) with false. cbn [andb]. rewrite Hq, IH. by rewrite <-!string_app_assoc.
  - apply orb_false_iff in E as [E1 E2]. cbn [String.append parse_toml_key_parts]. change (is_outside inside c) with false. cbn [andb].
    assert (Hq : quote_step inside c = inside) by (unfold quote_step; simpl; by rewrite E1, E2).
    rewrite Hq, IH. by rewrite <-!string_app_assoc.
Qed.

Lemma parts_bare t parts part rest : str_all is_bare_byte t = true →
  parse_toml_key_parts parts part unquoted (t +:+ rest) = parse_toml_key_parts parts (part +:+ t) unquoted rest.
Proof.
  revert part. induction t as [|c t IH]; intros part; [by rewrite string_app_nil_r|]. rewrite str_all_cons, andb_true_iff. intros [Hc Ht].
  cbn [String.append parse_toml_key_parts].
  assert (Hd : Ascii.eqb c "." = false ∧ quote_step unquoted c = unquoted).
  { clear -Hc. by destruct c as [[] [] [] [] [] [] [] []]. }
  destruct Hd as [-> ->]. rewrite andb_false_r, IH by done. by rewrite <-!string_app_assoc.
Qed.

Lemma parts_printed p parts part rest :
  parse_toml_key_parts parts part unquoted (print_part p +:+ rest) = parse_toml_key_parts parts (part +:+ print_part p) unquoted rest.
Proof.
  unfold print_part, is_bare. destruct (negb (String.eqb p "") && str_all is_bare_byte p) eqn:E; [apply andb_true_iff in E as [_ E]; by apply parts_bare|].
  cbn [String.append parse_toml_key_parts]. change (is_outside unquoted QUOTE) with false. cbn [andb]. change (quote_step unquoted QUOTE) with inside.
  rewrite <-string_app_assoc, parts_inside. cbn [String.append parse_toml_key_parts]. change (is_outside inside QUOTE) with false. cbn [andb].
  change (quote_step inside QUOTE) with unquoted. by rewrite <-!string_app_assoc.
Qed.

Lemma escape_ascii s : is_ascii s → is_ascii (escape_part s).
Proof.
  induction s as [|c s IH]; [done|]. intros [Hc Hs]%is_ascii_cons. cbn [escape_part]. specialize (IH Hs). by destruct (_ || _); rewrite !is_ascii_cons.
Qed.

Lemma bare_byte_plain c : is_bare_byte c = true → (N_of_ascii c < 128)%N ∧ blank_byte c = false ∧ c ≠ QUOTE ∧ c ≠ APOSTROPHE.
Proof. intros Hc. by destruct c as [[] [] [] [] [] [] [] []]. Qed.

Lemma bare_solid t : str_all is_bare_byte t = true → solid t.
Proof.
  intros Ht. split_and!.
  - revert Ht. apply str_all_none. intros c Hc. apply N.leb_gt. by apply bare_byte_plain.
  - intros c s ->. rewrite str_all_cons, andb_true_iff in Ht. by apply (bare_byte_plain c), Ht.
  - intros c s ->. rewrite str_all_app, str_all_cons, !andb_true_iff in Ht. apply (bare_byte_plain c). tauto.
Qed.

Lemma quoted_solid body : is_ascii body → solid (String QUOTE (body +:+ String QUOTE "")).
Proof.
  intros Hb. split_and!.
  - apply is_ascii_cons. split; [done|]. by apply is_ascii_app.
  - by intros c s [= <- _].
  - intros c s E. change (String QUOTE (body +:+ String QUOTE "")) with ((String QUOTE body) +:+ String QUOTE "") in E.
    revert E. generalize (String QUOTE body) as b. clear. intros b. revert s. induction b as [|d b IH]; intros [|e s]; simpl.
    + by intros [= <-].
    + by destruct s.
    + by destruct b.
    + intros [= _ E]. by eapply IH.
Qed.

Lemma read_part p : is_ascii p → parse_toml_key_part (trim (print_part p)) = Some p.
Proof.
  intros Hp. unfold print_part. destruct (is_bare p) eqn:E.
  - pose proof E as [Hne Hall]%andb_true_iff. rewrite trim_solid by by apply bare_solid. unfold parse_toml_key_part.
    assert (Hq : ∀ q, q = QUOTE ∨ q = APOSTROPHE → quoted_by q p = None).
    { intros q Hq. unfold quoted_by, between. destruct p as [|c p]; [done|]. rewrite str_all_cons, andb_true_iff in Hall.
      destruct (bare_byte_plain c (proj1 Hall)) as (_ & _ & H1 & H2). simpl. destruct (Ascii.eqb_spec q c); [|done]. subst. by destruct Hq. }
    rewrite !Hq by auto. fold (is_bare p). by rewrite E.
  - rewrite trim_solid by by apply quoted_solid, escape_ascii. unfold parse_toml_key_part, quoted_by, between.
    simpl. rewrite strip_suffix_app. apply decode_escape.
Qed.

(** A printed path is read back, whatever its parts. *)
Theorem key_path_roundtrip (path : list string) : path ≠ [] → Forall is_ascii path → parse_toml_key_path (print_path path) = Some path.
Proof.
  intros Hne Hall. unfold parse_toml_key_path, print_path.
  assert (H : ∀ parts, parse_toml_key_parts parts "" unquoted (join "." (map print_part path)) = Some (parts ++ path)); [|apply (H [])].
  revert Hne. induction Hall as [|p path Hp Hall IH]; intros Hne parts; [done|]. destruct path as [|q path].
  - cbn [map join]. rewrite <-(string_app_nil_r (print_part p)), parts_printed. simpl. by rewrite read_part.
  - cbn [map]. rewrite join_first by done. rewrite parts_printed. cbn [String.append parse_toml_key_parts].
    change (is_outside unquoted "." && Ascii.eqb "." ".") with true. cbn iota. change ("" +:+ print_part p) with (print_part p).
    rewrite read_part by done. cbn [map] in IH. rewrite IH by done. by rewrite <-app_assoc.
Qed.
