(* ===== verification/SafeYaml.v ===== *)
(** * Keys of YAML documents (secret_safety.rs)

    The line reader of block mappings. The YAML library has checked the document
    before, and decodes quoted keys. *)
From Stdlib Require Import NArith Ascii.
From stdpp Require Import base gmap sets list strings.
From S2P Require Import Prelude RustOrd RustStr RustText SafeConfig SafeJson SafeToml.

(** [crate::yaml]: where a stream of documents is malformed, if it is (a place is
    not always known), and a string. *)
Class YamlLibrary := {
  yaml_check : string → option (option (N * N));
  yaml_string : string → option string;
}.

Definition PARTIAL_YAML_WARNING : string := "unsupported YAML constructs were omitted from key-path extraction".

Definition starts_with_any (cs : list ascii) (s : string) : bool :=
  match s with EmptyString => false | String c _ => existsb (Ascii.eqb c) cs end.

Definition parse_yaml_key `{YamlLibrary} (s : string) : option string :=
  if starts_with_any [QUOTE; APOSTROPHE] s then yaml_string s
  else if str_any (λ c, existsb (Ascii.eqb c) ["["; "]"; "{"; "}"; ","; "&"; "*"; "!"]%char) s then None
  else Some s.

Definition strip_yaml_comment (s : string) : string :=
  trim_end (match split_unquoted (λ previous byte, Ascii.eqb byte "#" && is_none_or previous is_ascii_blank) None unquoted s with
            | Some (before, _) => before
            | None => s
            end).

Fixpoint count_spaces (s : string) : N :=
  match s with String c s => if Ascii.eqb c " " then 1 + count_spaces s else 0 | EmptyString => 0 end.

(** [bytes().take_while(is_ascii_whitespace).any(tab)] *)
Fixpoint leading_tab (s : string) : bool :=
  match s with
  | String c s => is_ascii_blank c && (Ascii.eqb c (ascii_of_N 9) || leading_tab s)
  | EmptyString => false
  end.

(** The stack of open keys with their indents, its top first. *)
Record YamlReader := {
  yr_stack : list (N * string);
  yr_block_scalar_indent : option N;
  yr_collector : KeyCollector;
  yr_warnings : list string;
}.
Definition with_stack (stack : list (N * string)) (reader : YamlReader) : YamlReader :=
  {| yr_stack := stack; yr_block_scalar_indent := yr_block_scalar_indent reader; yr_collector := yr_collector reader;
     yr_warnings := yr_warnings reader |}.
Definition with_block (indent : option N) (reader : YamlReader) : YamlReader :=
  {| yr_stack := yr_stack reader; yr_block_scalar_indent := indent; yr_collector := yr_collector reader; yr_warnings := yr_warnings reader |}.
Definition with_keys (collector : KeyCollector) (reader : YamlReader) : YamlReader :=
  {| yr_stack := yr_stack reader; yr_block_scalar_indent := yr_block_scalar_indent reader; yr_collector := collector;
     yr_warnings := yr_warnings reader |}.
Definition warned (reader : YamlReader) : YamlReader :=
  {| yr_stack := yr_stack reader; yr_block_scalar_indent := yr_block_scalar_indent reader; yr_collector := yr_collector reader;
     yr_warnings := push_warning (yr_warnings reader) PARTIAL_YAML_WARNING |}.

Definition is_comment_or_marker (trimmed : string) : bool :=
  String.eqb trimmed "" || starts_with "#" trimmed || String.eqb trimmed "---" || String.eqb trimmed "..." || starts_with "%" trimmed.

(** What a line says behind its list mark: its indent and the text; [None] for a
    list mark alone. *)
Definition yaml_candidate (indentation : N) (trimmed : string) : option (N * string) :=
  match strip_prefix "- " trimmed with
  | Some rest => Some (saturating_add indentation 2, trim_start rest)
  | None => if String.eqb trimmed "-" then None else Some (indentation, trimmed)
  end.

(** The value of a key decides what the lines below mean. *)
Definition yaml_value (indent : N) (key value : string) (reader : YamlReader) : YamlReader :=
  if String.eqb value "" then with_stack ((indent, key) :: yr_stack reader) reader
  else if starts_with_any ["|"; ">"]%char value then with_block (Some indent) reader
  else if starts_with_any ["{"; "["]%char value || starts_with_any ["&"; "*"; "!"]%char value then warned reader
  else reader.

Definition yaml_entry `{YamlLibrary} (line indentation indent : N) (candidate : string) (reader : YamlReader) : result ConfigExtractionError YamlReader :=
  let reader := with_stack (drop_while (λ open : N * string, indent <=? open.1)%N (yr_stack reader)) reader in
  if starts_with_any ["?"; "{"; "["]%char candidate then Ok (warned reader)
  else match find_unquoted ":" candidate with
  | None => Ok reader
  | Some (before, after) =>
      let key_token := trim before in
      if String.eqb key_token "" then Err (malformed Yaml line (indentation + 1))
      else match parse_yaml_key key_token with
      | None => Ok (warned reader)
      | Some key =>
          let scope := reverse (map snd (yr_stack reader)) in
          check? check_depth (saturating_add (len scope) 1) line in
          let? collector := collector_insert scope key line (yr_collector reader) in
          Ok (yaml_value indent key (strip_yaml_comment (trim after)) (with_keys collector reader))
      end
  end.

Definition yaml_line `{YamlLibrary} (reader : YamlReader) (entry : N * string) : result ConfigExtractionError YamlReader :=
  let '(line, source_line) := entry in
  let indentation := count_spaces source_line in
  let trimmed := trim source_line in
  if is_some_and (yr_block_scalar_indent reader) (λ parent, String.eqb trimmed "" || (parent <? indentation)%N) then Ok reader
  else
    let reader := with_block None reader in
    if is_comment_or_marker trimmed then Ok (if String.eqb trimmed "---" then with_stack [] reader else reader)
    else if leading_tab source_line then Err (malformed Yaml line 1)
    else match yaml_candidate indentation trimmed with
    | None => Ok reader
    | Some (indent, candidate) => yaml_entry line indentation indent candidate reader
    end.

Definition parse_yaml `{YamlLibrary} (input : string) (keys : KeyCollector) (warnings : list string)
    : result ConfigExtractionError (KeyCollector * list string) :=
  match yaml_check input with
  | Some location => Err (malformed Yaml (default 1%N (fst <$> location)) (default 1%N (snd <$> location)))
  | None =>
      let? reader :=
        try_fold yaml_line {| yr_stack := []; yr_block_scalar_indent := None; yr_collector := keys; yr_warnings := warnings |} (numbered input) in
      Ok (yr_collector reader, yr_warnings reader)
  end.
