(* ===== verification/SafeExtract.v ===== *)
(** * Extraction of secret-safe metadata (secret_safety.rs)

    The extraction over all formats, what it promises, and where it tells more
    than keys. *)
From Stdlib Require Import NArith Ascii.
From stdpp Require Import base gmap sets list strings.
From S2P Require Import Prelude RustOrd RustStr RustText SafeConfig SafeJson SafeToml SafeYaml.

(** [None] only if the fuel of the JSON parser runs out. *)
Definition parse_artifact `{JsonLibrary, YamlLibrary} (kind : ConfigArtifactKind) (input : string)
    : option (result ConfigExtractionError (KeyCollector * list string)) :=
  match kind with
  | Dotenv => Some (let? keys := parse_dotenv input ∅ in Ok (keys, []))
  | Yaml => Some (parse_yaml input ∅ [])
  | Json => (λ r, let? keys := r in Ok (keys, [])) <$> parse_json input ∅
  | Toml => Some (parse_toml input ∅ [])
  end.

Definition extract_safe_config `{JsonLibrary, YamlLibrary} (source_path input : string) : option (result ConfigExtractionError SafeConfigDocument) :=
  match artifact_kind source_path with
  | Err error => Some (Err error)
  | Ok kind =>
      if (MAX_INPUT_BYTES <? byte_len input)%N then Some (Err (InputTooLarge (byte_len input) MAX_INPUT_BYTES))
      else
        (λ parsed, let? outcome := parsed in
          let warnings := sorted_unique outcome.2 in
          Ok {| sc_source_path := source_path; sc_artifact_kind := kind; sc_keys := into_keys outcome.1; sc_warnings := warnings;
                sc_incomplete := negb (is_empty_list warnings) |}) <$> parse_artifact kind input
  end.

(** ** What is collected by every reader *)
Definition safe_entry (path : list string * string) (key : SafeConfigKey) : Prop :=
  sk_scope key = path.1 ∧ sk_name key = path.2 ∧ sk_sensitive_kind key = classify_sensitive_key path.2 ∧
  path.2 ≠ "" ∧ (byte_len path.2 ≤ MAX_KEY_BYTES)%N ∧ (len path.1 < MAX_DEPTH)%N.
Definition well_kept (keys : KeyCollector) : Prop :=
  (N.of_nat (size keys) ≤ MAX_KEYS)%N ∧ ∀ path key, keys !! path = Some key → safe_entry path key.

Lemma well_kept_empty : well_kept ∅.
Proof. split; [done|]. by intros path key. Qed.

Lemma insert_kept scope name line keys keys' :
  (len scope < MAX_DEPTH)%N → well_kept keys → collector_insert scope name line keys = Ok keys' → well_kept keys'.
Proof.
  intros Hd [Hsize Hkept]. unfold collector_insert. destruct (N.ltb_spec MAX_KEY_BYTES (byte_len name)); [done|].
  destruct (String.eqb_spec name "") as [->|Hn]; [intros [= <-]; done|]. destruct (keys !! (scope, name)) as [existing|] eqn:E.
  - intros [= <-]. split; [by rewrite map_size_insert, E|]. intros path key. rewrite lookup_insert. case_decide; [|by apply Hkept].
    intros [= <-]. subst. exact (Hkept _ _ E).
  - destruct (N.leb_spec MAX_KEYS (N.of_nat (size keys))); [done|]. intros [= <-]. split.
    + rewrite map_size_insert, E. simpl. lia.
    + intros path key. rewrite lookup_insert. case_decide; [|by apply Hkept]. intros [= <-]. subst. done.
Qed.

Lemma check_depth_Ok depth line : check_depth depth line = Ok tt ↔ (depth ≤ MAX_DEPTH)%N.
Proof. unfold check_depth. destruct (N.ltb_spec MAX_DEPTH depth); [split; [done|lia]|done]. Qed.

Lemma insert_path_kept scope path line keys keys' :
  (len scope + len path ≤ MAX_DEPTH)%N → well_kept keys → insert_path scope path line keys = Ok keys' → well_kept keys'.
Proof.
  revert scope keys. induction path as [|name path IH]; intros scope keys Hd Hk; simpl; [by intros [= <-]|].
  rewrite len_cons in Hd. intros (keys1 & H1 & Hrest)%result_bind_Ok. apply check_Ok in Hrest as [_ Hrest].
  eapply IH; [|by eapply insert_kept; [|exact Hk|exact H1]; lia|exact Hrest]. rewrite len_app, len_cons, len_nil. lia.
Qed.

Lemma try_fold_keeps {E A S} (P : S → Prop) (f : S → A → result E S) :
  (∀ s x s', P s → f s x = Ok s' → P s') → ∀ xs s s', P s → try_fold f s xs = Ok s' → P s'.
Proof.
  intros Hf. induction xs as [|x xs IH]; intros s s' Hs; simpl; [by intros [= <-]|].
  destruct (f s x) as [s1|] eqn:Ef; [|done]. simpl. apply IH. by eapply Hf.
Qed.

Lemma within_depth a b : (saturating_add a b ≤ MAX_DEPTH)%N → (a + b ≤ MAX_DEPTH)%N.
Proof. unfold saturating_add, MAX_DEPTH, usize_max. lia. Qed.

Lemma dotenv_kept input keys : parse_dotenv input ∅ = Ok keys → well_kept keys.
Proof.
  unfold parse_dotenv. apply (try_fold_keeps well_kept); [|apply well_kept_empty]. clear. intros keys [line source_line] keys' Hk. unfold dotenv_line.
  destruct (_ || _); [by intros [= <-]|]. destruct (split_once "=" _) as [[key value]|]; [|done]. destruct (negb _); [done|].
  by apply insert_kept.
Qed.

Definition toml_reader_kept (reader : TomlReader) : Prop :=
  well_kept (tr_collector reader) ∧ ∀ warning, warning ∈ tr_warnings reader → warning = PARTIAL_TOML_WARNING.

Lemma push_warning_elem warnings warning w : w ∈ push_warning warnings warning → w ∈ warnings ∨ w = warning.
Proof. unfold push_warning. case_if; [by left|]. set_solver. Qed.

Lemma toml_line_kept reader entry reader' : toml_reader_kept reader → toml_line reader entry = Ok reader' → toml_reader_kept reader'.
Proof.
  destruct entry as [line source_line]. intros [Hk Hw]. unfold toml_line. destruct (tr_value_state reader); [by intros [= <-]|].
  case_if; [by intros [= <-]|]. case_if.
  - destruct (_ ≫= _) as [path|]; [|done]. intros [Hd Hrest]%check_Ok. apply check_depth_Ok in Hd.
    apply result_bind_Ok in Hrest as (keys & Hi & [= <-]). split; [|done]. eapply insert_path_kept; [|exact Hk|exact Hi]. rewrite len_nil. lia.
  - destruct (find_unquoted "=" _) as [[key_text after]|]; [|done]. destruct (parse_toml_key_path _) as [path|]; [|done].
    intros [Hd Hrest]%check_Ok. apply check_depth_Ok, within_depth in Hd. apply result_bind_Ok in Hrest as (keys & Hi & Hrest).
    cbv zeta in Hrest. case_if; [done|]. case_if; [done|]. injection Hrest as <-. split; [by eapply insert_path_kept|]. simpl.
    case_if; [|done]. intros w [Hin| ->]%push_warning_elem; [by apply Hw|done].
Qed.

Lemma toml_kept input keys warnings : parse_toml input ∅ [] = Ok (keys, warnings) →
  well_kept keys ∧ ∀ warning, warning ∈ warnings → warning = PARTIAL_TOML_WARNING.
Proof.
  unfold parse_toml. intros (reader & Hfold & Hend)%result_bind_Ok. case_if; [done|]. injection Hend as <- <-.
  refine (try_fold_keeps toml_reader_kept _ toml_line_kept _ _ _ _ Hfold). split; [apply well_kept_empty|by intros ? ?%elem_of_nil].
Qed.

Section libraries.
Context `{JsonLibrary, YamlLibrary}.

Definition yaml_reader_kept (reader : YamlReader) : Prop :=
  well_kept (yr_collector reader) ∧ ∀ warning, warning ∈ yr_warnings reader → warning = PARTIAL_YAML_WARNING.

Lemma warned_kept reader : yaml_reader_kept reader → yaml_reader_kept (warned reader).
Proof. intros [Hk Hw]. split; [exact Hk|]. intros w [Hin| ->]%push_warning_elem; [by apply Hw|done]. Qed.

Lemma yaml_value_kept indent key value reader : yaml_reader_kept reader → yaml_reader_kept (yaml_value indent key value reader).
Proof. intros Hk. unfold yaml_value. repeat case_if; try exact Hk. by apply warned_kept. Qed.

Lemma yaml_line_kept reader entry reader' : yaml_reader_kept reader → yaml_line reader entry = Ok reader' → yaml_reader_kept reader'.
Proof.
  destruct entry as [line source_line]. intros Hk. unfold yaml_line. case_if; [by intros [= <-]|]. case_if; [intros [= <-]; by case_if|].
  case_if; [done|]. destruct (yaml_candidate _ _) as [[indent candidate]|]; [|by intros [= <-]]. unfold yaml_entry.
  case_if; [intros [= <-]; by apply warned_kept|]. destruct (find_unquoted ":" _) as [[before after]|]; [|by intros [= <-]].
  case_if; [done|]. destruct (parse_yaml_key _) as [key|]; [|intros [= <-]; by apply warned_kept].
  intros [Hd Hrest]%check_Ok. apply check_depth_Ok, within_depth in Hd. apply result_bind_Ok in Hrest as (keys & Hi & [= <-]).
  apply yaml_value_kept. destruct Hk as [Hk Hw]. split; [|exact Hw]. eapply insert_kept; [|exact Hk|exact Hi]. lia.
Qed.

Lemma yaml_kept input keys warnings : parse_yaml input ∅ [] = Ok (keys, warnings) →
  well_kept keys ∧ ∀ warning, warning ∈ warnings → warning = PARTIAL_YAML_WARNING.
Proof.
  unfold parse_yaml. destruct (yaml_check input); [done|]. intros (reader & Hfold & [= <- <-])%result_bind_Ok.
  refine (try_fold_keeps yaml_reader_kept _ yaml_line_kept _ _ _ _ Hfold). split; [apply well_kept_empty|by intros ? ?%elem_of_nil].
Qed.

(** The paths of JSON keys are no longer than the document is deep. *)
Lemma reports_within :
  (∀ v scope line report, report ∈ value_reports v scope line → (len report.1.1 < len scope + value_depth v)%N) ∧
  (∀ ms scope line report, report ∈ members_reports ms scope line → (len report.1.1 < len scope + 1 + members_depth ms)%N) ∧
  (∀ es scope line report, report ∈ elements_reports es scope line → (len report.1.1 < len scope + 1 + elements_depth es)%N).
Proof.
  apply json_mutind; simpl; try by intros; set_solver.
  - intros pad ms IH scope line report Hr. apply IH in Hr. lia.
  - intros pad es IH scope line report Hr. apply IH in Hr. lia.
  - intros pad key name cpad v IH epad scope line report [-> |Hr]%elem_of_cons; simpl; [lia|]. apply IH in Hr. rewrite len_app, len_cons, len_nil in Hr. lia.
  - intros pad key name cpad v IH epad ms IHm scope line report [-> |[Hr|Hr]%elem_of_app]%elem_of_cons; simpl; [lia| |].
    + apply IH in Hr. rewrite len_app, len_cons, len_nil in Hr. lia.
    + apply IHm in Hr. lia.
  - intros v IH epad scope line report Hr. apply IH in Hr. lia.
  - intros v IH epad es IHe scope line report [Hr|Hr]%elem_of_app; [apply IH in Hr|apply IHe in Hr]; lia.
Qed.

Lemma json_kept input keys : (byte_len input ≤ usize_max)%N → parse_json input ∅ = Some (Ok keys) → well_kept keys.
Proof.
  intros Hlen (v & pad & _ & _ & _ & Hd & _ & -> & Hlong & Hsize)%parse_json_exact; [|done]. split; [done|]. intros path key.
  rewrite keys_of_lookup. destruct (String.eqb_spec path.2 "") as [|Hn]; [done|]. intros (line & He & ->)%fmap_Some.
  apply earliest_min in He as [(report & Hr & <- & _) _]. pose proof (Hlong _ Hr). apply reports_within in Hr. rewrite len_nil in Hr. split_and!; try done. lia.
Qed.
End libraries.

(** ** dotenv documents

    A document line by line: what is ignored, and assignments with their values. *)
Inductive DotenvLine :=
| Ignored (pad comment : string)
| Assigned (pad : string) (export : option string) (key key_pad value : string).

Definition dotenv_text (line : DotenvLine) : string :=
  match line with
  | Ignored pad comment => pad +:+ comment
  | Assigned pad export key key_pad value =>
      pad +:+ (match export with Some blanks => "export " +:+ blanks | None => "" end) +:+ key +:+ key_pad +:+ "=" +:+ value
  end.

Definition lacks_line_feed (s : string) : Prop := str_any is_newline s = false.
Definition ascii_blanks (s : string) : Prop := is_ascii s ∧ str_all blank_byte s = true ∧ lacks_line_feed s.

Definition dotenv_line_valid (line : DotenvLine) : Prop :=
  match line with
  | Ignored pad comment => ascii_blanks pad ∧ (comment = "" ∨ ∃ text, comment = "#" +:+ text ∧ lacks_line_feed text)
  | Assigned pad export key key_pad value =>
      ascii_blanks pad ∧ from_option ascii_blanks (key = "export" → key_pad = "") export ∧ is_dotenv_key key = true ∧
      ascii_blanks key_pad ∧ lacks_line_feed value
  end.

Definition dotenv_document (doc : list DotenvLine) : string := String.concat "" (map (λ line, dotenv_text line +:+ String LINE_FEED "") doc).

(** The keys that are assigned, with their lines. *)
Definition dotenv_reports (doc : list DotenvLine) : list KeyReport :=
  concat (imap (λ i line, match line with Ignored _ _ => [] | Assigned _ _ key _ _ => [([], key, N.of_nat i + 1)%N] end) doc).

Lemma concat_cons s ss : String.concat "" (s :: ss) = s +:+ String.concat "" ss.
Proof. destruct ss as [|t ss]; simpl; [by rewrite string_app_nil_r|done]. Qed.

Lemma lines_document ls : Forall lacks_line_feed ls → lines (String.concat "" (map (λ l, l +:+ String LINE_FEED "") ls)) = map strip_cr ls.
Proof.
  unfold lines. induction 1 as [|l ls Hl _ IH]; [done|]. cbn [map]. rewrite concat_cons, <-string_app_assoc. cbn [String.append].
  rewrite split_by_app by done. pose proof (split_by_not_nil is_newline (String.concat "" (map (λ l, l +:+ String LINE_FEED "") ls))) as Hne.
  destruct (split_by is_newline _) as [|piece pieces]; [done|]. by rewrite <-IH.
Qed.

Lemma strip_cr_cases l : strip_cr l = l ∨ l = strip_cr l +:+ String (ascii_of_N 13) "".
Proof.
  unfold strip_cr. destruct (strip_suffix _ l) as [t|] eqn:E; [right|by left]. by apply strip_suffix_Some in E.
Qed.

Lemma trim_end_blank b : is_ascii b → str_all blank_byte b = true → trim_end b = "".
Proof.
  intros Ha Hb. unfold trim_end. assert (Hall : Forall (λ p, is_whitespace p.1 = true) (reverse (chars b))).
  { apply Forall_reverse. by apply chars_blank_ascii. }
  rewrite <-(app_nil_r (reverse (chars b))), drop_while_app by done. done.
Qed.

Lemma not_first_of key P : is_dotenv_key key = true → (∀ c, is_identifier_byte c = true → P c = false) → ∀ c t s, key +:+ s = String c t → P c = false.
Proof.
  destruct key as [|d key]; [done|]. unfold is_dotenv_key. simpl. intros [Hd _]%andb_true_iff HP c t s [= -> _]. apply HP.
  unfold is_identifier_byte, is_ascii_alnum. by destruct (is_ascii_alphabetic c), (is_ascii_digit c).
Qed.

Lemma identifier_not_blank c : is_identifier_byte c = true → blank_byte c = false.
Proof. intros Hc. by destruct c as [[] [] [] [] [] [] [] []]. Qed.

Lemma ends_with_equals a c t : a +:+ "=" = t +:+ String c "" → c = "="%char.
Proof.
  revert a. induction t as [|d t IH]; intros a; simpl.
  - destruct a as [|e a]; simpl; [by intros [= ->]|]. destruct a; simpl; intros [=].
  - destruct a as [|e a]; simpl; [by destruct t|]. intros [= -> E]. by eapply IH.
Qed.

Lemma identifier_bytes key : is_dotenv_key key = true → str_all is_identifier_byte key = true.
Proof.
  destruct key as [|c key]; [done|]. unfold is_dotenv_key. simpl. intros [Hc Hk]%andb_true_iff.
  rewrite str_all_cons, Hk, andb_true_r. unfold is_identifier_byte, is_ascii_alnum. by destruct (is_ascii_alphabetic c), (is_ascii_digit c).
Qed.

Lemma identifier_stops key c s key' c' s' :
  key +:+ String c s = key' +:+ String c' s' → str_all is_identifier_byte key = true → str_all is_identifier_byte key' = true →
  is_identifier_byte c = false → is_identifier_byte c' = false → key = key' ∧ c = c'.
Proof.
  revert key'. induction key as [|d key IH]; intros [|d' key']; simpl; rewrite ?str_all_cons, ?andb_true_iff.
  - by intros [= -> _].
  - intros [= <- _] _ [Hd _] Hc. congruence.
  - intros [= <- _] [Hd _] _ _ Hc. congruence.
  - intros [= -> E] [_ Hk] [_ Hk'] Hc Hc'. by destruct (IH key' E Hk Hk' Hc Hc') as [-> ->].
Qed.

Lemma identifier_ascii key : is_dotenv_key key = true → is_ascii key ∧ key ≠ "" ∧
  (∀ c, (c = "="%char ∨ c = "#"%char ∨ blank_byte c = true) → contains_char c key = false).
Proof.
  intros Hkey. apply identifier_bytes in Hkey as Hall. split_and!; [|by intros ->|].
  - unfold is_ascii. revert Hall. apply str_all_none. clear. intros c Hc. by destruct c as [[] [] [] [] [] [] [] []].
  - intros d Hd. unfold contains_char. revert Hall. apply str_all_none. intros c' Hc'. apply Ascii.eqb_neq. intros <-.
    destruct Hd as [->|[->|Hd]]; [done..|]. by destruct d as [[] [] [] [] [] [] [] []].
Qed.

(** One assignment. *)
Lemma assigned_line keys line pad export key key_pad value :
  dotenv_line_valid (Assigned pad export key key_pad value) →
  dotenv_line keys (line, dotenv_text (Assigned pad export key key_pad value)) = collector_insert [] key line keys.
Proof.
  intros ((Hpa & Hpb & _) & Hexport & Hkey & (Hka & Hkb & _) & _).
  destruct (identifier_ascii key Hkey) as (Hascii & Hne & Hnone).
  set (head := match export with Some blanks => "export " +:+ blanks | None => "" end).
  set (a := head +:+ key +:+ key_pad +:+ "=").
  assert (Ha : is_ascii a).
  { unfold a, head. rewrite !is_ascii_app. split_and!; try done. destruct export as [b|]; [|done]. apply is_ascii_app. split; [done|apply Hexport]. }
  assert (Hfirst : ∀ c t, a = String c t → blank_byte c = false).
  { intros c t. unfold a, head. destruct export as [b|]; [by intros [= <- _]|]. exact (not_first_of key blank_byte Hkey identifier_not_blank c t _). }
  assert (Hlast : ∀ c t, a = t +:+ String c "" → blank_byte c = false).
  { intros c t E. unfold a in E. rewrite !string_app_assoc in E. by apply ends_with_equals in E as ->. }
  assert (Hhash : ∀ c t, a = String c t → Ascii.eqb c "#" = false).
  { intros c t. unfold a, head. destruct export as [b|]; [by intros [= <- _]|]. refine (not_first_of key (λ c, Ascii.eqb c "#") Hkey _ c t _).
    intros d Hd. by destruct d as [[] [] [] [] [] [] [] []]. }
  assert (Hanil : a ≠ "") by (unfold a, head; by destruct export, key).
  unfold dotenv_line, dotenv_text. fold head.
  assert (Eline : pad +:+ head +:+ key +:+ key_pad +:+ "=" +:+ value = pad +:+ (a +:+ value)).
  { unfold a. rewrite <-!string_app_assoc. reflexivity. }
  rewrite Eline.
  rewrite trim_blank_start, trim_app by done. set (v := trim_end value).
  assert (Hstart : (String.eqb (a +:+ v) "" || starts_with "#" (a +:+ v)) = false).
  { apply orb_false_iff. split; [by destruct a|]. apply not_true_iff_false. intros (rest & E)%starts_with_spec. destruct a as [|c a']; [done|].
    injection E as -> _. pose proof (Hhash _ _ eq_refl) as Hx. discriminate Hx. }
  rewrite Hstart.
  assert (Hassign : match strip_prefix "export " (a +:+ v) with Some rest => trim_start rest | None => a +:+ v end = key +:+ key_pad +:+ "=" +:+ v).
  { unfold a, head. destruct export as [b|].
    - rewrite <-!string_app_assoc, strip_prefix_app. destruct Hexport as (Hb1 & Hb2 & _). rewrite trim_start_blank by done.
      apply trim_start_solid; [done..|]. intros c t E. apply (not_first_of key blank_byte Hkey identifier_not_blank c t ""). by rewrite string_app_nil_r.
    - change ("" +:+ key +:+ key_pad +:+ "=") with (key +:+ key_pad +:+ "="). rewrite <-!string_app_assoc.
      destruct (strip_prefix "export " (key +:+ key_pad +:+ "=" +:+ v)) as [rest|] eqn:E; [|done]. apply strip_prefix_Some in E. exfalso.
      change ("export " +:+ rest) with ("export" +:+ String " " rest) in E. destruct key_pad as [|c key_pad].
      + destruct (identifier_stops key "=" v "export" " " rest E (identifier_bytes _ Hkey) eq_refl eq_refl eq_refl) as [_ [=]].
      + assert (Hc : is_identifier_byte c = false).
        { apply not_true_iff_false. intros Hc%identifier_not_blank. rewrite str_all_cons, Hc in Hkb. done. }
        destruct (identifier_stops key c (key_pad +:+ "=" +:+ v) "export" " " rest E (identifier_bytes _ Hkey) eq_refl Hc eq_refl) as [-> ->].
        specialize (Hexport eq_refl). done. }
  rewrite Hassign, string_app_assoc. simpl. rewrite split_once_char.
  2: { rewrite contains_char_app, (Hnone "="%char) by by left. simpl. unfold contains_char. revert Hkb. apply str_all_none.
       intros c Hc. apply Ascii.eqb_neq. by intros <-. }
  assert (Htrim : trim (key +:+ key_pad) = key).
  { rewrite trim_app, trim_end_blank, string_app_nil_r; try done; intros c t E.
    - apply (not_first_of key blank_byte Hkey identifier_not_blank c t ""). by rewrite string_app_nil_r.
    - subst key. specialize (identifier_bytes _ Hkey). rewrite str_all_app, str_all_cons, !andb_true_iff. intros (_ & Hc & _). by apply identifier_not_blank. }
  by rewrite Htrim, Hkey.
Qed.

Lemma ends_with_char a b s c : a +:+ b = s +:+ String c "" → b ≠ "" → ∃ b', b = b' +:+ String c "".
Proof.
  revert s. induction a as [|d a IH]; intros s; simpl; [intros -> _; by exists s|]. destruct s as [|e s]; simpl.
  - intros [= _ E]. apply string_app_nil in E as [_ ->]. done.
  - intros [= _ E]. by apply (IH s).
Qed.

Lemma lacks_line_feed_app s t : lacks_line_feed (s +:+ t) ↔ lacks_line_feed s ∧ lacks_line_feed t.
Proof. unfold lacks_line_feed. by rewrite str_any_app, orb_false_iff. Qed.

Lemma blanks_start b c : ascii_blanks (b +:+ String c "") → ascii_blanks b.
Proof.
  intros (Ha & Hb & Hl). apply is_ascii_app in Ha as [? _]. rewrite str_all_app, andb_true_iff in Hb. apply lacks_line_feed_app in Hl as [? _].
  split_and!; [done|apply Hb|done].
Qed.

(** A line loses at most a carriage return at the end of its blanks, comment or
    value. *)
Lemma dotenv_strip_cr line : dotenv_line_valid line → ∃ line', dotenv_line_valid line' ∧ strip_cr (dotenv_text line) = dotenv_text line' ∧
  match line, line' with
  | Ignored _ _, Ignored _ _ => True
  | Assigned _ _ key _ _, Assigned _ _ key' _ _ => key = key'
  | _, _ => False
  end.
Proof.
  intros Hv. destruct (strip_cr_cases (dotenv_text line)) as [E|E]; [exists line; split_and!; [done..|by destruct line]|].
  set (t := strip_cr (dotenv_text line)) in *. clearbody t. destruct line as [pad comment|pad export key key_pad value]; simpl in E, Hv.
  - destruct Hv as [Hp [->|(text & -> & Hl)]].
    + rewrite string_app_nil_r in E. subst pad. exists (Ignored t ""). split_and!; [split; [by eapply blanks_start|by left]|simpl; by rewrite string_app_nil_r|done].
    + destruct (decide (text = "")) as [->|Hne].
      { exfalso. destruct (ends_with_char pad "#" t _ E ltac:(done)) as ([|? [|]] & [=]). }
      assert (E0 : (pad +:+ "#") +:+ text = t +:+ String (ascii_of_N 13) "").
      { rewrite <-string_app_assoc. exact E. }
      clear E. rename E0 into E. destruct (ends_with_char (pad +:+ "#") text t _ E Hne) as (text' & ->). rewrite string_app_assoc in E.
      apply string_app_inj_r in E. exists (Ignored pad ("#" +:+ text')). split_and!; [split; [done|right]|by rewrite <-E, <-string_app_assoc|done].
      exists text'. split; [done|]. by apply lacks_line_feed_app in Hl as [? _].
  - destruct Hv as (Hp & Hexp & Hkey & Hkp & Hl). set (head := match export with Some blanks => "export " +:+ blanks | None => "" end) in *.
    assert (E' : (pad +:+ head +:+ key +:+ key_pad +:+ "=") +:+ value = t +:+ String (ascii_of_N 13) "").
    { rewrite <-!string_app_assoc. exact E. }
    destruct (decide (value = "")) as [->|Hne].
    { exfalso. rewrite string_app_nil_r, !string_app_assoc in E'. apply ends_with_equals in E'. discriminate E'. }
    destruct (ends_with_char _ value t _ E' Hne) as (value' & ->). rewrite string_app_assoc in E'. apply string_app_inj_r in E'.
    exists (Assigned pad export key key_pad value'). split_and!; [|simpl; fold head; rewrite <-E', <-!string_app_assoc; reflexivity|done].
    split_and!; [done..|]. by apply lacks_line_feed_app in Hl as [? _].
Qed.

Lemma ignored_line keys line pad comment : dotenv_line_valid (Ignored pad comment) → dotenv_line keys (line, dotenv_text (Ignored pad comment)) = Ok keys.
Proof.
  intros [(Hpa & Hpb & _) [->|(text & -> & _)]]; unfold dotenv_line, dotenv_text; rewrite trim_blank_start by done; [done|].
  rewrite trim_app; [|done|done|by intros ? ? [= <- _]|].
  - assert (Hs : starts_with "#" ("#" +:+ trim_end text) = true) by (apply starts_with_spec; by eexists). rewrite Hs. by rewrite orb_true_r.
  - intros c t. destruct t as [|? t]; [by intros [= <-]|]. by destruct t; intros [=].
Qed.

Lemma dotenv_text_lacks line : dotenv_line_valid line → lacks_line_feed (dotenv_text line).
Proof.
  destruct line as [pad comment|pad export key key_pad value]; simpl.
  - intros [(_ & _ & Hp) [->|(text & -> & Hl)]]; apply lacks_line_feed_app; split; try done.
  - intros ((_ & _ & Hp) & Hexp & Hkey & (_ & _ & Hkp) & Hl). rewrite !lacks_line_feed_app. split_and!; try done.
    + destruct export as [b|]; [|done]. apply (lacks_line_feed_app "export " b). split; [done|apply Hexp].
    + apply identifier_bytes in Hkey. revert Hkey. apply str_all_none. intros c Hc. by destruct c as [[] [] [] [] [] [] [] []].
Qed.

(** Reading a document reports its assignments. *)
Lemma parse_dotenv_document doc keys : Forall dotenv_line_valid doc →
  parse_dotenv (dotenv_document doc) keys = try_fold report_key keys (dotenv_reports doc).
Proof.
  intros Hdoc. unfold parse_dotenv, numbered, dotenv_document, dotenv_reports.
  rewrite <-(map_map dotenv_text (λ l, l +:+ String LINE_FEED "")), lines_document.
  2: { apply Forall_map. eapply Forall_impl; [exact Hdoc|]. exact dotenv_text_lacks. }
  rewrite map_map.
  assert (Hgen : ∀ k keys, try_fold dotenv_line keys (imap (λ i line, (N.of_nat (k + i) + 1, line)%N) (map (λ l, strip_cr (dotenv_text l)) doc)) =
    try_fold report_key keys (concat (imap (λ i line, match line with Ignored _ _ => [] | Assigned _ _ key _ _ => [([], key, N.of_nat (k + i) + 1)%N] end) doc))).
  { induction Hdoc as [|line doc Hline Hdoc IH]; intros k ks; [done|]. cbn [map]. rewrite !imap_cons. cbn [concat try_fold]. rewrite try_fold_app.
    destruct (dotenv_strip_cr line Hline) as (line' & Hv' & E & Hsame). specialize (IH (S k)).
    assert (Hext : ∀ {A B} (f : nat → A → B) l, imap (λ i x, f (S k + i)%nat x) l = imap (f ∘ (λ i, (k + i)%nat) ∘ S) l).
    { intros A B f l. apply imap_ext. intros i x _. simpl. by rewrite Nat.add_succ_r. }
    rewrite (Hext _ _ (λ i line, (N.of_nat i + 1, line)%N)),
      (Hext _ _ (λ i line, match line with Ignored _ _ => [] | Assigned _ _ key _ _ => [([], key, N.of_nat i + 1)%N] end)) in IH.
    rewrite E, Nat.add_0_r. destruct line as [|pad export key key_pad value], line' as [|pad' export' key' key_pad' value']; try done.
    - rewrite ignored_line by done. apply IH.
    - subst key'. rewrite assigned_line by done. rewrite try_fold_one. change (report_key ks ([], key, (N.of_nat k + 1)%N)) with (collector_insert [] key (N.of_nat k + 1) ks).
      destruct (collector_insert _ _ _ _); [apply IH|done]. }
  apply (Hgen 0 keys).
Qed.

(** ** What the extraction promises *)
Lemma into_keys_elem keys key : key ∈ into_keys keys ↔ ∃ path, keys !! path = Some key.
Proof. apply btree_values_elem_of. Qed.

Lemma into_keys_paths keys : (∀ path key, keys !! path = Some key → (sk_scope key, sk_name key) = path) →
  map (λ key, (sk_scope key, sk_name key)) (into_keys keys) = (btree_entries keys).*1.
Proof.
  intros Hk. unfold into_keys, btree_values. rewrite map_map. apply map_ext_in. intros [path key] Hin%list_elem_of_In.
  apply btree_entries_elem_of in Hin. by apply Hk.
Qed.

(** C19: Whatever the format and the content, an extracted document stays within its
    limits: the input is at most one mebibyte, there are at most 4096 keys in
    strictly increasing order of their paths, no path is longer than 32 names and
    no name is empty or longer than 256 bytes, every key carries the class of its
    name, and the only warnings are the two fixed texts. *)
Theorem extraction_bounded `{JsonLibrary, YamlLibrary} source_path input document :
  extract_safe_config source_path input = Some (Ok document) →
  (byte_len input ≤ MAX_INPUT_BYTES)%N ∧ artifact_kind source_path = Ok (sc_artifact_kind document) ∧ sc_source_path document = source_path ∧
  (len (sc_keys document) ≤ MAX_KEYS)%N ∧ strictly_sorted (map (λ key, (sk_scope key, sk_name key)) (sc_keys document)) ∧
  (∀ key, key ∈ sc_keys document →
    sk_name key ≠ "" ∧ (byte_len (sk_name key) ≤ MAX_KEY_BYTES)%N ∧ (len (sk_scope key ++ [sk_name key]) ≤ MAX_DEPTH)%N ∧
    sk_sensitive_kind key = classify_sensitive_key (sk_name key)) ∧
  (∀ warning, warning ∈ sc_warnings document → warning = PARTIAL_YAML_WARNING ∨ warning = PARTIAL_TOML_WARNING) ∧
  (sc_incomplete document = true ↔ sc_warnings document ≠ []).
Proof.
  unfold extract_safe_config. destruct (artifact_kind source_path) as [kind|]; [|done].
  destruct (N.ltb_spec MAX_INPUT_BYTES (byte_len input)) as [|Hlen]; [done|]. destruct (parse_artifact kind input) as [[[keys warnings]|]|] eqn:E; [|done..].
  intros [= <-]. simpl.
  assert (Hkept : well_kept keys ∧ ∀ warning, warning ∈ warnings → warning = PARTIAL_YAML_WARNING ∨ warning = PARTIAL_TOML_WARNING).
  { destruct kind; simpl in E.
    - injection E as (keys' & Hk & [= <- <-])%result_bind_Ok. split; [by eapply dotenv_kept|by intros ? ?%elem_of_nil].
    - injection E as [Hk Hw]%yaml_kept. split; [done|]. intros w Hin. left. by apply Hw.
    - destruct (parse_json input ∅) as [[keys'|]|] eqn:Ej; [|done..]. simpl in E. injection E as <- <-.
      split; [|by intros ? ?%elem_of_nil]. eapply json_kept; [|exact Ej]. unfold MAX_INPUT_BYTES, usize_max in *. lia.
    - injection E as [Hk Hw]%toml_kept. split; [done|]. intros w Hin. right. by apply Hw. }
  destruct Hkept as [[Hsize Hentry] Hwarn]. split_and!; try done.
  - unfold len, into_keys. by rewrite btree_values_length.
  - rewrite into_keys_paths; [apply btree_entries_keys_strict|]. intros path key Hk. destruct (Hentry _ _ Hk) as (-> & -> & _). by destruct path.
  - intros key (path & Hk)%into_keys_elem. destruct (Hentry _ _ Hk) as (-> & -> & -> & Hne & Hl & Hd). split_and!; try done.
    rewrite len_app, len_cons, len_nil. lia.
  - intros w Hw. apply Hwarn. by apply (sorted_unique_elem_of warnings w).
  - by rewrite negb_true_iff, <-not_true_iff_false, is_empty_list_true.
Qed.

(** The document of some reports. *)
Definition reported (source_path : string) (kind : ConfigArtifactKind) (reports : list KeyReport) : SafeConfigDocument :=
  {| sc_source_path := source_path; sc_artifact_kind := kind; sc_keys := into_keys (keys_of reports); sc_warnings := []; sc_incomplete := false |}.
Definition within_limits (reports : list KeyReport) : Prop :=
  (∀ report, report ∈ reports → (byte_len report.1.2 ≤ MAX_KEY_BYTES)%N) ∧ (N.of_nat (size (keys_of reports)) ≤ MAX_KEYS)%N.

Lemma extract_artifact `{JsonLibrary, YamlLibrary} source_path kind input :
  artifact_kind source_path = Ok kind → (byte_len input ≤ MAX_INPUT_BYTES)%N →
  extract_safe_config source_path input =
    (λ parsed, let? outcome := parsed in
      let warnings := sorted_unique outcome.2 in
      Ok {| sc_source_path := source_path; sc_artifact_kind := kind; sc_keys := into_keys outcome.1; sc_warnings := warnings;
            sc_incomplete := negb (is_empty_list warnings) |}) <$> parse_artifact kind input.
Proof. intros Hk Hlen. unfold extract_safe_config. rewrite Hk. by destruct (N.ltb_spec MAX_INPUT_BYTES (byte_len input)); [lia|]. Qed.

(** C18: A JSON file is accepted exactly when it is not too large, is one value of at
    most 32 levels between blanks that the JSON library accepts, and its names are
    within the limits. The keys are then exactly the names of its members under
    the names around them, each at its earliest line; nothing of a value appears. *)
Theorem json_keys_exact `{JsonLibrary, YamlLibrary} source_path input document :
  artifact_kind source_path = Ok Json →
  extract_safe_config source_path input = Some (Ok document) ↔
  (byte_len input ≤ MAX_INPUT_BYTES)%N ∧
  ∃ value pad, input = value_text value +:+ pad ∧ value_valid value ∧ blanks pad ∧ (value_depth value ≤ MAX_DEPTH)%N ∧ json_check input = None ∧
    within_limits (value_reports value [] 1) ∧ document = reported source_path Json (value_reports value [] 1).
Proof.
  intros Hkind. destruct (N.leb_spec (byte_len input) MAX_INPUT_BYTES) as [Hlen|Hlen].
  2: { unfold extract_safe_config. rewrite Hkind. destruct (N.ltb_spec MAX_INPUT_BYTES (byte_len input)); [|lia]. split; [done|lia]. }
  rewrite (extract_artifact source_path Json) by done. simpl. assert (Hmax : (byte_len input ≤ usize_max)%N) by (unfold MAX_INPUT_BYTES, usize_max in *; lia).
  split.
  - destruct (parse_json input ∅) as [[keys|]|] eqn:E; [|done..]. simpl. intros [= <-]. split; [done|].
    apply parse_json_exact in E as (v & pad & Hin & Hv & Hp & Hd & Hc & -> & Hl & Hs); [|done]. by exists v, pad.
  - intros (_ & v & pad & Hin & Hv & Hp & Hd & Hc & [Hl Hs] & ->).
    assert (E : parse_json input ∅ = Some (Ok (keys_of (value_reports v [] 1)))); [|by rewrite E].
    apply parse_json_exact; [done|]. by exists v, pad.
Qed.

(** A dotenv file of comments and assignments with any values is read as exactly
    its assigned names, each at its earliest line, when these are within the
    limits; no value appears, whatever it is. *)
Theorem dotenv_keys_exact `{JsonLibrary, YamlLibrary} source_path lines document :
  artifact_kind source_path = Ok Dotenv → Forall dotenv_line_valid lines → (byte_len (dotenv_document lines) ≤ MAX_INPUT_BYTES)%N →
  extract_safe_config source_path (dotenv_document lines) = Some (Ok document) ↔
  within_limits (dotenv_reports lines) ∧ document = reported source_path Dotenv (dotenv_reports lines).
Proof.
  intros Hkind Hvalid Hlen. rewrite (extract_artifact source_path Dotenv) by done. simpl. rewrite parse_dotenv_document by done.
  split.
  - destruct (try_fold report_key ∅ (dotenv_reports lines)) as [keys|] eqn:E; [|done]. apply report_keys_exact in E as (-> & Hl & Hs).
    simpl. by intros [= <-].
  - intros [Hlimits ->]. assert (E : try_fold report_key ∅ (dotenv_reports lines) = Ok (keys_of (dotenv_reports lines))).
    { apply report_keys_exact. by destruct Hlimits. }
    by rewrite E.
Qed.

(** An extraction always ends. *)
Theorem extraction_ends `{JsonLibrary, YamlLibrary} source_path input : extract_safe_config source_path input ≠ None.
Proof.
  unfold extract_safe_config. destruct (artifact_kind source_path) as [kind|]; [|done]. destruct (N.ltb_spec MAX_INPUT_BYTES (byte_len input)); [done|].
  destruct kind; simpl; try done. destruct (parse_json input ∅) eqn:E; [done|]. apply parse_json_ends in E; [done|].
  unfold MAX_INPUT_BYTES, usize_max in *. lia.
Qed.

Module Example_safe.
Definition text (ls : list string) : string := join (String LINE_FEED "") ls.
Definition quoted (s : string) : string := String QUOTE (s +:+ String QUOTE "").

(** Libraries for plain texts: they decode by taking the quotes away. *)
#[local] Instance json : JsonLibrary := {|
  json_string := λ t, match quoted_by QUOTE t with Some key => Ok key | None => Err (1, 1)%N end;
  json_check := λ _, None |}.
#[local] Instance yaml : YamlLibrary := {| yaml_check := λ _, None; yaml_string := λ t, quoted_by QUOTE t |}.

Definition keys (r : option (result ConfigExtractionError SafeConfigDocument)) : option (list (list string * string * N)) :=
  match r with Some (Ok d) => Some (map (λ k, (sk_scope k, sk_name k, sk_line k)) (sc_keys d)) | _ => None end.

(** A document with a nested key, and the same as a tree. *)
Definition document : string := "{" +:+ quoted "db" +:+ ": {" +:+ quoted "password" +:+ ": " +:+ quoted "hunter2" +:+ "}}".
Definition tree : JValue :=
  JObject "" (JLastMember "" (quoted "db") "db" "" (JObject " " (JLastMember "" (quoted "password") "password" "" (JToken " " (quoted "hunter2")) "")) "").

Example json_document : keys (extract_safe_config "a.json" document) = Some [([], "db", 1); (["db"], "password", 1)]%N.
Proof. vm_compute. reflexivity. Qed.

Lemma json_keys_exact_witness :
  ∃ d, extract_safe_config "a.json" document = Some (Ok d) ∧ d = reported "a.json" Json (value_reports tree [] 1).
Proof.
  exists (reported "a.json" Json (value_reports tree [] 1)). split; [|reflexivity].
  apply (json_keys_exact "a.json" document); [reflexivity|]. split; [by vm_compute|]. exists tree, "".
  assert (Hs : ∀ s, steps string_step Esc_None (s +:+ String QUOTE "") = Some Esc_Done → string_token (quoted s)).
  { intros s Hs%string_body_steps. by eexists. }
  split_and!; try (vm_compute; reflexivity); try (vm_compute; discriminate).
  - cbn [tree value_valid members_valid]. split_and!; try (vm_compute; reflexivity); try (by apply Hs; vm_compute). left. by apply Hs; vm_compute.
  - split; [|vm_compute; discriminate]. intros report Hr. vm_compute in Hr.
    repeat (apply elem_of_cons in Hr as [->|Hr]; [vm_compute; discriminate|]). by apply elem_of_nil in Hr.
Defined.

Definition variables : list DotenvLine :=
  [Ignored "" "# settings"; Assigned "" (Some "") "API_TOKEN" "" "abc=def"; Assigned " " None "MODE" " " " fast"].

Lemma dotenv_keys_exact_witness :
  ∃ d, extract_safe_config ".env" (dotenv_document variables) = Some (Ok d) ∧ d = reported ".env" Dotenv (dotenv_reports variables).
Proof.
  exists (reported ".env" Dotenv (dotenv_reports variables)). split; [|reflexivity].
  apply (dotenv_keys_exact ".env" variables); [reflexivity| |vm_compute; discriminate|].
  - unfold variables. rewrite !Forall_cons. split_and!; [|by split_and!; vm_compute..|by constructor].
    split; [by split_and!; vm_compute|right]. by exists " settings".
  - split; [|reflexivity]. split; [|vm_compute; discriminate]. intros report Hr. vm_compute in Hr.
    repeat (apply elem_of_cons in Hr as [->|Hr]; [vm_compute; discriminate|]). by apply elem_of_nil in Hr.
Defined.

Lemma extraction_bounded_witness :
  ∃ d, extract_safe_config "a.json" document = Some (Ok d) ∧ (len (sc_keys d) ≤ MAX_KEYS)%N.
Proof.
  destruct (extract_safe_config "a.json" document) as [[d|e]|] eqn:E; try (vm_compute in E; discriminate E).
  exists d. split; [reflexivity|]. exact (proj1 (proj2 (proj2 (proj2 (extraction_bounded "a.json" document d E))))).
Defined.

(** *** Where values come out

    A quoted value over two lines: its second line is read as a key. *)
Lemma yaml_value_leaks : keys (extract_safe_config "a.yaml" (text ["secret: " +:+ String QUOTE "first"; "  hunter2:rest" +:+ String QUOTE ""])) =
  Some [([], "hunter2", 2); ([], "secret", 1)]%N.
Proof. vm_compute. reflexivity. Qed.

(** A list of values with colons: the user of a credential, the scheme of an address. *)
Lemma yaml_item_leaks : keys (extract_safe_config "a.yaml" (text ["logins:"; "  - admin:hunter2"])) = Some [([], "logins", 1); (["logins"], "admin", 2)]%N.
Proof. vm_compute. reflexivity. Qed.

(** A quoted value over several lines: the base64 text of a private key is a key name. *)
Lemma dotenv_value_leaks : keys (extract_safe_config ".env" (text ["KEY=" +:+ String QUOTE "x="; "c2VjcmV0Cg==" +:+ String QUOTE ""])) =
  Some [([], "KEY", 1); ([], "c2VjcmV0Cg", 2)]%N.
Proof. vm_compute. reflexivity. Qed.

(** A multi-line literal with an apostrophe and a number sign: its end is taken
    for a comment, and the keys below are lost without a warning. *)
Definition triple : string := String APOSTROPHE (String APOSTROPHE (String APOSTROPHE "")).
Lemma toml_keys_lost : 
  keys (extract_safe_config "a.toml" (text ["a = " +:+ triple +:+ "it" +:+ String APOSTROPHE "s # x" +:+ triple; "b = 1"; "# " +:+ triple])) =
  Some [([], "a", 1)]%N.
Proof. vm_compute. reflexivity. Qed.

Example toml_document :
  keys (extract_safe_config "a.toml" (text ["title = 1 # x"; "[a." +:+ quoted "b.c" +:+ "]"; "d = [1,"; "  2]"; "e.f = " +:+ quoted "#"])) =
  Some [([], "a", 2); ([], "title", 1); (["a"], "b.c", 2); (["a"; "b.c"], "d", 3); (["a"; "b.c"], "e", 5); (["a"; "b.c"; "e"], "f", 5)]%N.
Proof. vm_compute. reflexivity. Qed.

(** Plural names are not sensitive, except for credentials. *)
Example plural_names : map classify_sensitive_key ["API_TOKEN"; "API_TOKENS"; "dbPassword"; "db-passwords"; "credentials"; "clientSecrets"] =
  [Some Token; None; Some Password; None; Some Credential; None].
Proof. vm_compute. reflexivity. Qed.
End Example_safe.
