(* ===== verification/FloatText.v ===== *)
(** * The text of an [f32]

    [{}] of an [f32]: the shortest decimal that lies within the rounding interval of
    the value, the closest such decimal, written without an exponent. *)
From stdpp Require Import base list strings pretty.
From Stdlib Require Import SpecFloat.
From S2P Require Import Prelude RustOrd RustFloat RustStr.
#[local] Open Scope Z_scope.

(** The value and the ends of its rounding interval, over one denominator. *)
Record Interval := { iv_value : Z; iv_low : Z; iv_high : Z; iv_denominator : Z; iv_inclusive : bool }.

(** The binary exponent of the least normal [f32] significand, and of the subnormals. *)
Definition f32_min_exp : Z := -149.
Definition f32_hidden : Z := 8388608.

Definition f32_interval (m e : Z) : Interval :=
  let below := if (m =? f32_hidden) && (f32_min_exp <? e) then 1 else 2 in
  let scale := 2 ^ Z.max e 0 in
  {| iv_value := 4 * m * scale;
     iv_low := (4 * m - below) * scale;
     iv_high := (4 * m + 2) * scale;
     iv_denominator := 4 * 2 ^ Z.max (- e) 0;
     iv_inclusive := Z.even m |}.

(** [d · 10^p] is within the interval. *)
Definition interval_contains (iv : Interval) (d p : Z) : bool :=
  let value := d * 10 ^ Z.max p 0 * iv_denominator iv in
  let scale := 10 ^ Z.max (- p) 0 in
  if iv_inclusive iv then (iv_low iv * scale <=? value) && (value <=? iv_high iv * scale)
  else (iv_low iv * scale <? value) && (value <? iv_high iv * scale).

(** The multiple of [10^p] to print, when one is within the interval: the closest, and the upper one halfway. *)
Definition decimal_at (iv : Interval) (p : Z) : option Z :=
  let num := iv_value iv * 10 ^ Z.max (- p) 0 in
  let den := iv_denominator iv * 10 ^ Z.max p 0 in
  let down := num / den in
  let up := down + 1 in
  match interval_contains iv down p, interval_contains iv up p with
  | true, true => Some (if den <=? 2 * (num mod den) then up else down)
  | true, false => Some down
  | false, true => Some up
  | false, false => None
  end.

(** The fewest digits: the largest exponent with a multiple in the interval. *)
Fixpoint shortest_from (fuel : nat) (iv : Interval) (p : Z) : option (Z * Z) :=
  match fuel with
  | O => None
  | S fuel => match decimal_at iv p with Some d => Some (d, p) | None => shortest_from fuel iv (p - 1) end
  end.

Definition f32_shortest (m e : Z) : option (Z * Z) := shortest_from 100 (f32_interval m e) 39.

Definition zeros (n : Z) : string := foldr (λ _ s, "0" +:+ s) "" (seq 0 (Z.to_nat n)).

(** [digits_to_dec_str] without a minimum of fractional digits. *)
Definition decimal_text (d p : Z) : string :=
  let digits := pretty (Z.to_N d) in
  let length := Z.of_nat (String.length digits) in
  if 0 <=? p then digits +:+ zeros p
  else
    let point := length + p in
    if 0 <? point then str_take (Z.to_nat point) digits +:+ "." +:+ str_drop (Z.to_nat point) digits
    else "0." +:+ zeros (- point) +:+ digits.

Definition f32_display (x : f32) : string :=
  match x with
  | S754_zero s => if s then "-0" else "0"
  | S754_infinity s => if s then "-inf" else "inf"
  | S754_nan => "NaN"
  | S754_finite s m e =>
      (if s then "-" else "") +:+
      match f32_shortest (Z.pos m) e with Some (d, p) => decimal_text d p | None => "" end
  end.

Example f32_display_examples :
  map f32_display [f32_lit 1 0; f32_lit 3 (-1); f32_lit 1 24; SFdiv 24 128 (f32_lit 1 0) (f32_lit 3 0);
                   SFdiv 24 128 (f32_lit 7 0) (f32_lit 10 0); SFdiv 24 128 (f32_lit 95 0) (f32_lit 100 0);
                   f32_lit 1 (-149); f32_lit 16777215 104]
  = ["1"; "1.5"; "16777216"; "0.33333334"; "0.7"; "0.95";
     "0.000000000000000000000000000000000000000000001"; "340282350000000000000000000000000000000"].
Proof. vm_compute. reflexivity. Qed.
