(* ===== verification/TextEscape.v ===== *)
(** * Text escapes of the graph export ([crates/code-system-graph-core/src/interfaces.rs])

    [escape_xml] and [escape_markdown], with what a reader of the escaped text sees: an
    XML reader decodes the text itself, and the cells of a Markdown table stay cells. *)
From stdpp Require Import base sets list strings.
From Stdlib Require Import Ascii.
From S2P Require Import Prelude RustOrd RustStr RustBytes RustText.

(** ** Escapes *)
Definition QUOT : string := String (ascii_of_N 34) "".

Definition escape_xml_char (c : N * string) : string :=
  let '(character, bytes) := c in
  if (character =? 38)%N then "&amp;"
  else if (character =? 60)%N then "&lt;"
  else if (character =? 62)%N then "&gt;"
  else if (character =? 34)%N then "&quot;"
  else if (character =? 39)%N then "&apos;"
  else if (character =? 9)%N || (character =? 10)%N || (character =? 13)%N then bytes
  else if is_control character then REPLACEMENT
  else bytes.

Definition escape_xml (value : string) : string :=
  foldl (λ escaped c, escaped +:+ escape_xml_char c) "" (chars value).

(** The characters that Markdown may read as markup. *)
Definition is_markup (character : N) : bool :=
  bool_decide (character ∈ map N_of_ascii
    ["\"%char; "`"%char; "*"%char; "_"%char; "{"%char; "}"%char; "["%char; "]"%char; "("%char; ")"%char; "#"%char;
     "+"%char; "-"%char; "."%char; "!"%char; "|"%char; ">"%char]).

Definition escape_markdown_char (c : N * string) : string :=
  let '(character, bytes) := c in
  if (character =? 13)%N || (character =? 10)%N || (character =? 9)%N then " "
  else if is_control character then REPLACEMENT
  else if is_markup character then "\" +:+ bytes
  else bytes.

Definition escape_markdown (value : string) : string :=
  foldl (λ escaped c, escaped +:+ escape_markdown_char c) "" (chars value).

(** ** Well-formed characters *)

(** A character of valid UTF-8: an ASCII byte, or bytes beyond ASCII with a code beyond ASCII. *)
Inductive whole_char : N * string → Prop :=
| ascii_char c : (N_of_ascii c < 128)%N → whole_char (N_of_ascii c, String c "")
| wide_char n bytes : (128 ≤ n)%N → str_any (λ c, N_of_ascii c <? 128)%N bytes = false → whole_char (n, bytes).

Lemma lor_ge a b : (a ≤ N.lor a b)%N.
Proof.
  assert (H : (N.lor a b = a + N.ldiff b a)%N).
  { rewrite N.add_nocarry_lxor.
    - apply N.bits_inj. intros i. rewrite N.lor_spec, N.lxor_spec, N.ldiff_spec. by destruct (N.testbit a i), (N.testbit b i).
    - apply N.bits_inj. intros i. rewrite N.land_spec, N.ldiff_spec, N.bits_0. by destruct (N.testbit a i), (N.testbit b i). }
  rewrite H. lia.
Qed.

(** The bits of a byte under a mask, decided over the 256 bytes. *)
Lemma byte_bits (f : N → bool) : forallb f (map N.of_nat (seq 0 256)) = true → ∀ c, f (N_of_ascii c) = true.
Proof.
  intros H c. rewrite forallb_In in H. apply H. apply list_elem_of_fmap. exists (N.to_nat (N_of_ascii c)).
  split; [lia|]. apply list_elem_of_In, in_seq. pose proof (N_ascii_bounded c). lia.
Qed.

Lemma byte_at_ascii s : ∃ c, byte_at s = N_of_ascii c.
Proof. destruct s as [|c s]; [by exists "000"%char|by exists c]. Qed.

Lemma masked (lo hi mask least : N) s :
  forallb (λ b, negb (byte_in lo hi b) || (least <=? N.land b mask)%N) (map N.of_nat (seq 0 256)) = true →
  byte_in lo hi (byte_at s) = true → (least ≤ N.land (byte_at s) mask)%N.
Proof.
  intros Hall Hin. destruct (byte_at_ascii s) as [c Ec]. rewrite Ec in *.
  pose proof (byte_bits _ Hall c) as Hb. simpl in Hb. rewrite Hin in Hb. by apply N.leb_le in Hb.
Qed.

Lemma shifted a least k : (least ≤ a)%N → (least * 2 ^ k ≤ N.shiftl a k)%N.
Proof. intros H. rewrite N.shiftl_mul_pow2. nia. Qed.

Lemma byte_in_spec lo hi b : byte_in lo hi b = true ↔ (lo ≤ b ≤ hi)%N.
Proof. unfold byte_in. rewrite andb_true_iff, !N.leb_le. lia. Qed.

Lemma second_byte_continuation lead b : second_byte lead b = true → (128 ≤ b)%N.
Proof.
  unfold second_byte, continuation. repeat match goal with |- context [if ?c then _ else _] => destruct c end;
    rewrite byte_in_spec; lia.
Qed.

(** The code of a character that is wider than a byte is beyond ASCII. *)
Lemma wide_code s w :
  utf8_step s = Character w → (128 ≤ byte_at s)%N → w = utf8_width (byte_at s) ∧ (128 ≤ utf8_decode s)%N.
Proof.
  unfold utf8_step, utf8_decode. intros Hstep Hwide. destruct (N.ltb_spec (byte_at s) 128); [lia|].
  assert (Hw : ∀ n, (utf8_width (byte_at s) = n) → utf8_width (byte_at s) = n) by done.
  unfold utf8_width in *. destruct (byte_in 194 223 (byte_at s)) eqn:E2.
  { destruct (continuation _); [|done]. injection Hstep as <-. pose proof (masked 194 223 31 2 s eq_refl E2) as Hm.
    apply byte_in_spec in E2. destruct (N.ltb_spec (byte_at s) 192), (N.ltb_spec (byte_at s) 224); try lia.
    split; [done|]. etrans; [|apply lor_ge]. apply (shifted _ 2 6 Hm). }
  destruct (byte_in 224 239 (byte_at s)) eqn:E3.
  { destruct (second_byte _ _) eqn:Eb; [|done]. destruct (continuation _); [|done]. injection Hstep as <-.
    assert (Hs := E3). apply byte_in_spec in Hs.
    destruct (N.ltb_spec (byte_at s) 192), (N.ltb_spec (byte_at s) 224), (N.ltb_spec (byte_at s) 240); try lia.
    split; [done|]. destruct (N.eqb_spec (byte_at s) 224) as [E|E].
    - unfold second_byte in Eb. rewrite E in Eb. simpl in Eb. pose proof (masked 160 191 63 32 _ eq_refl Eb) as Hm.
      rewrite N.lor_comm. etrans; [|apply lor_ge]. etrans; [|apply lor_ge]. transitivity (32 * 2 ^ 6)%N; [done|by apply shifted].
    - assert (E' : byte_in 225 239 (byte_at s) = true) by (apply byte_in_spec; lia).
      pose proof (masked 225 239 15 1 s eq_refl E') as Hm.
      etrans; [|apply lor_ge]. transitivity (1 * 2 ^ 12)%N; [done|by apply shifted]. }
  destruct (byte_in 240 244 (byte_at s)) eqn:E4; [|done].
  destruct (second_byte _ _) eqn:Eb; [|done]. destruct (continuation _); [|done]. destruct (continuation _); [|done].
  injection Hstep as <-. assert (Hs := E4). apply byte_in_spec in Hs.
  destruct (N.ltb_spec (byte_at s) 192), (N.ltb_spec (byte_at s) 224), (N.ltb_spec (byte_at s) 240); try lia.
  split; [done|]. destruct (N.eqb_spec (byte_at s) 240) as [E|E].
  - unfold second_byte in Eb. rewrite E in Eb. simpl in Eb. pose proof (masked 144 191 63 16 _ eq_refl Eb) as Hm.
    rewrite N.lor_comm. etrans; [|apply lor_ge]. etrans; [|apply lor_ge]. transitivity (16 * 2 ^ 12)%N; [done|by apply shifted].
  - assert (E' : byte_in 241 244 (byte_at s) = true) by (apply byte_in_spec; lia).
    pose proof (masked 241 244 7 1 s eq_refl E') as Hm.
    etrans; [|apply lor_ge]. transitivity (1 * 2 ^ 18)%N; [done|by apply shifted].
Qed.

(** Its bytes are all beyond ASCII. *)
Lemma wide_bytes s w :
  utf8_step s = Character w → (128 ≤ byte_at s)%N → str_any (λ c, N_of_ascii c <? 128)%N (str_take w s) = false.
Proof.
  assert (Hc : ∀ b, continuation b = true → (b <? 128)%N = false).
  { intros b. unfold continuation. rewrite byte_in_spec, N.ltb_ge. lia. }
  assert (Hs : ∀ lead b, second_byte lead b = true → (b <? 128)%N = false).
  { intros lead b H. apply N.ltb_ge. by eapply second_byte_continuation. }
  unfold utf8_step. intros Hstep Hwide. destruct (N.ltb_spec (byte_at s) 128) as [|Hge]; [lia|].
  apply N.ltb_ge in Hge.
  destruct s as [|c0 [|c1 [|c2 [|c3 s]]]]; simpl in Hstep, Hge |- *;
    repeat match goal with
    | H : (if ?c then _ else _) = Character _ |- _ => destruct c eqn:?; [|try discriminate H]
    end; try discriminate; try (injection Hstep as <-); simpl;
    repeat match goal with
    | H : continuation _ = true |- _ => apply Hc in H
    | H : second_byte _ _ = true |- _ => apply Hs in H
    end; rewrite ?Hge; repeat match goal with H : (_ <? 128)%N = false |- _ => rewrite H; clear H end; done.
Qed.

Lemma chars_whole s : utf8_valid s = true → Forall whole_char (chars s).
Proof.
  induction s as [|s w Hs Hstep IH|s w Hs Hstep IH] using utf8_ind; intros Hv; [constructor| |].
  - rewrite utf8_valid_step, Hstep in Hv by done. destruct s as [|c s]; [done|].
    destruct (N.lt_ge_cases (N_of_ascii c) 128) as [Hc|Hc].
    + rewrite chars_ascii_cons by done. constructor; [by constructor|].
      unfold utf8_step in Hstep. simpl in Hstep. rewrite (proj2 (N.ltb_lt _ _) Hc) in Hstep. injection Hstep as <-.
      by apply IH.
    + rewrite chars_cons. cbv zeta. destruct (wide_code _ _ Hstep Hc) as [<- Hd].
      constructor; [|by apply IH]. apply wide_char; [done|]. by apply wide_bytes.
  - by rewrite utf8_valid_step, Hstep in Hv.
Qed.

(** ** What an XML reader decodes *)
Definition xml_entities : list (string * ascii) :=
  [("amp", "&"%char); ("lt", "<"%char); ("gt", ">"%char); ("quot", ascii_of_N 34); ("apos", "'"%char)].

(** [xml_text escaped decoded]: character data without markup, whose references are the five predefined entities. *)
Inductive xml_text : string → string → Prop :=
| xml_end : xml_text "" ""
| xml_entity name c escaped decoded :
    (name, c) ∈ xml_entities → xml_text escaped decoded →
    xml_text (String "&" (name +:+ String ";" escaped)) (String c decoded)
| xml_plain c escaped decoded :
    c ∉ xml_entities.*2 → xml_text escaped decoded → xml_text (String c escaped) (String c decoded).

Lemma xml_text_deterministic escaped u v : xml_text escaped u → xml_text escaped v → u = v.
Proof.
  intros Hu. revert v. induction Hu as [|name c escaped u Hin Hu IH|c escaped u Hc Hu IH]; intros v Hv.
  - by inversion Hv.
  - inversion Hv as [|name' c' escaped' v' Hin' Hv' Eq|c' escaped' v' Hc' Hv' Eq]; subst; [|exfalso; apply Hc'; set_solver].
    enough (name = name' ∧ c = c') as [-> ->].
    { match goal with H : _ +:+ _ = _ +:+ _ |- _ => apply string_app_inj_l in H; injection H as -> end. f_equal. by apply IH. }
    unfold xml_entities in Hin, Hin'. rewrite !elem_of_cons, elem_of_nil in Hin, Hin'.
    repeat match goal with H : _ ∨ _ |- _ => destruct H as [H|H] end; try done; simplify_eq/=; done.
  - inversion Hv as [|name' c' escaped' v' Hin' Hv' Eq|c' escaped' v' Hc' Hv' Eq]; subst; [exfalso; apply Hc; set_solver|].
    f_equal. by apply IH.
Qed.

Lemma xml_text_app s u t v : xml_text s u → xml_text t v → xml_text (s +:+ t) (u +:+ v).
Proof.
  induction 1 as [|name c escaped decoded Hin _ IH|c escaped decoded Hc _ IH]; intros Ht; simpl; [done| |].
  - rewrite <-string_app_assoc. simpl. constructor; auto.
  - constructor; auto.
Qed.

(** A loop that appends to a text. *)
Lemma fold_text {A} (f : A → string) acc l :
  foldl (λ escaped x, escaped +:+ f x) acc l = acc +:+ foldr (λ x t, f x +:+ t) "" l.
Proof.
  revert acc. induction l as [|x l IH]; intros acc; simpl; [by rewrite string_app_nil_r|].
  rewrite IH. by rewrite string_app_assoc.
Qed.

(** The text with every control character that XML forbids replaced. *)
Definition xml_forbidden (character : N) : bool :=
  is_control character && negb ((character =? 9) || (character =? 10) || (character =? 13))%N.
Definition printable (value : string) : string :=
  foldr (λ c t, (if xml_forbidden c.1 then REPLACEMENT else c.2) +:+ t) "" (chars value).

Lemma printable_id value : existsb (λ c, xml_forbidden c.1) (chars value) = false → printable value = value.
Proof.
  intros H. etrans; [|apply text_of_chars]. unfold printable, text_of. induction (chars value) as [|c l IH]; simpl; [done|].
  simpl in H. apply orb_false_iff in H as [-> H]. by rewrite IH.
Qed.

Lemma xml_wide bytes : str_any (λ c, N_of_ascii c <? 128)%N bytes = false → xml_text bytes bytes.
Proof.
  induction bytes as [|c bytes IH]; simpl; [constructor|]. intros [Hc Hb]%orb_false_iff. constructor; [|auto].
  apply N.ltb_ge in Hc. simpl. rewrite !elem_of_cons, elem_of_nil.
  intros [H|[H|[H|[H|[H|[]]]]]]; rewrite H in Hc; vm_compute in Hc; by destruct Hc.
Qed.

Lemma escape_xml_char_text c :
  whole_char c → xml_text (escape_xml_char c) (if xml_forbidden c.1 then REPLACEMENT else c.2).
Proof.
  assert (Hrep : xml_text REPLACEMENT REPLACEMENT) by (by apply xml_wide).
  destruct 1 as [c Hc|n bytes Hn Hb]; simpl.
  - assert (He : ∀ name, (name, c) ∈ xml_entities → xml_text ("&" +:+ name +:+ ";") (String c "")).
    { intros name Hin. apply (xml_entity name c "" ""); [done|constructor]. }
    destruct c as [[] [] [] [] [] [] [] []]; try (vm_compute in Hc; discriminate); cbn -[REPLACEMENT];
      try exact Hrep; first [apply (He "amp"); set_solver|apply (He "lt"); set_solver|apply (He "gt"); set_solver
      |apply (He "quot"); set_solver|apply (He "apos"); set_solver|idtac];
      (apply xml_plain; [|constructor]; apply (bool_decide_unpack _); vm_compute; done).
  - assert (Hx : xml_text bytes bytes) by by apply xml_wide.
    repeat match goal with |- context [(n =? ?k)%N] => destruct (N.eqb_spec n k); [lia|] end.
    unfold xml_forbidden. simpl.
    repeat match goal with |- context [(n =? ?k)%N] => destruct (N.eqb_spec n k); [lia|] end.
    simpl. rewrite ?andb_true_r. by destruct (is_control n).
Qed.

(** ** The cells of a Markdown table row *)

(** What a reader of a table does with a row: a backslash escapes the character that follows it, and a pipe that is
    not escaped ends a cell. *)
Fixpoint table_cells (escaped : bool) (cell : string) (row : string) : list string :=
  match row with
  | EmptyString => [cell]
  | String c row =>
      if escaped then table_cells false (cell +:+ String c "") row
      else if Ascii.eqb c "\" then table_cells true (cell +:+ String c "") row
      else if Ascii.eqb c "|" then cell :: table_cells false "" row
      else table_cells false (cell +:+ String c "") row
  end.

(** The text of one cell: neither a pipe nor the end of the line occurs in it, except escaped. *)
Inductive cell_text : string → Prop :=
| cell_end : cell_text ""
| cell_escaped c t : c ≠ ascii_of_N 10 → cell_text t → cell_text (String "\" (String c t))
| cell_plain c t : c ∉ ["\"%char; "|"%char; ascii_of_N 10] → cell_text t → cell_text (String c t).

Lemma cell_text_app s t : cell_text s → cell_text t → cell_text (s +:+ t).
Proof. induction 1; intros Ht; simpl; [done|by constructor; auto..]. Qed.

Lemma table_cells_text t cell rest : cell_text t → table_cells false cell (t +:+ rest) = table_cells false (cell +:+ t) rest.
Proof.
  intros Ht. revert cell. induction Ht as [|c t Hc Ht IH|c t Hc Ht IH]; intros cell; simpl.
  - by rewrite string_app_nil_r.
  - rewrite IH. by rewrite <-!string_app_assoc.
  - rewrite !elem_of_cons in Hc. destruct (Ascii.eqb_spec c "\"); [tauto|]. destruct (Ascii.eqb_spec c "|"); [tauto|].
    rewrite IH. by rewrite <-!string_app_assoc.
Qed.

Lemma cell_wide bytes : str_any (λ c, N_of_ascii c <? 128)%N bytes = false → cell_text bytes.
Proof.
  induction bytes as [|c bytes IH]; simpl; [constructor|]. intros [Hc Hb]%orb_false_iff. constructor; [|auto].
  apply N.ltb_ge in Hc. rewrite !elem_of_cons, elem_of_nil.
  intros [H|[H|[H|[]]]]; rewrite H in Hc; vm_compute in Hc; by destruct Hc.
Qed.

Lemma cell_digits s : str_any (λ c, bool_decide (c ∈ ["\"%char; "|"%char; ascii_of_N 10])) s = false → cell_text s.
Proof.
  induction s as [|c s IH]; simpl; [constructor|]. intros [Hc Hs]%orb_false_iff.
  apply bool_decide_eq_false in Hc. constructor; auto.
Qed.

Lemma escape_markdown_char_text c : whole_char c → cell_text (escape_markdown_char c).
Proof.
  assert (Hrep : cell_text REPLACEMENT) by (by apply cell_wide).
  destruct 1 as [c Hc|n bytes Hn Hb]; simpl.
  - destruct c as [[] [] [] [] [] [] [] []]; try (vm_compute in Hc; discriminate); cbn -[REPLACEMENT is_markup];
      try exact Hrep; lazymatch goal with
      | |- context [is_markup ?n] => let b := eval vm_compute in (is_markup n) in change (is_markup n) with b; cbn
      | _ => idtac
      end;
      first [apply cell_escaped; [done|constructor]|apply cell_plain; [|constructor]; apply (bool_decide_unpack _); vm_compute; done].
  - assert (Hx : cell_text bytes) by by apply cell_wide.
    repeat match goal with |- context [(n =? ?k)%N] => destruct (N.eqb_spec n k); [lia|] end. simpl.
    destruct (is_control n); [done|]. replace (is_markup n) with false; [done|].
    symmetry. apply bool_decide_eq_false. intros H%list_elem_of_In. simpl in H.
    repeat (destruct H as [H|H]; [subst n; vm_compute in Hn; by destruct Hn|]). done.
Qed.

Lemma cell_text_line t : cell_text t → contains_char (ascii_of_N 10) t = false.
Proof.
  induction 1 as [|c t Hc Ht IH|c t Hc Ht IH]; [done|..].
  - change (Ascii.eqb (ascii_of_N 10) "\" || (Ascii.eqb (ascii_of_N 10) c || contains_char (ascii_of_N 10) t) = false).
    rewrite IH. destruct (Ascii.eqb_spec (ascii_of_N 10) c); [congruence|done].
  - change (Ascii.eqb (ascii_of_N 10) c || contains_char (ascii_of_N 10) t = false).
    rewrite IH. destruct (Ascii.eqb_spec (ascii_of_N 10) c) as [<-|]; [exfalso; apply Hc; set_solver|done].
Qed.

(** ** Theorems *)

(** An escaped text decodes: character by character it is text, and the whole to the value itself. *)
Lemma escape_xml_text value : utf8_valid value = true → xml_text (escape_xml value) (printable value).
Proof.
  intros Hv%chars_whole. unfold escape_xml, printable. rewrite fold_text. simpl.
  induction Hv as [|c l Hc _ IH]; simpl; [constructor|]. apply xml_text_app; [by apply escape_xml_char_text|done].
Qed.

Lemma escape_markdown_text value : utf8_valid value = true → cell_text (escape_markdown value).
Proof.
  intros Hv%chars_whole. unfold escape_markdown. rewrite fold_text. simpl.
  induction Hv as [|c l Hc _ IH]; simpl; [constructor|]. apply cell_text_app; [by apply escape_markdown_char_text|done].
Qed.

(** an XML reader decodes the escaped form of a text, as an attribute or as character data, to that text and to
    nothing else, whatever markup the text holds. *)
Theorem escape_xml_decodes value decoded :
  utf8_valid value = true → existsb (λ c, xml_forbidden c.1) (chars value) = false →
  xml_text (escape_xml value) decoded ↔ decoded = value.
Proof.
  intros Hv Hp%printable_id. pose proof (escape_xml_text value Hv) as Hx. rewrite Hp in Hx.
  split; [|by intros ->]. intros Hd. by eapply xml_text_deterministic.
Qed.

Example escape_examples :
  escape_xml ("<a href='x'>&" +:+ QUOT) = "&lt;a href=&apos;x&apos;&gt;&amp;&quot;" ∧
  escape_markdown "a|b <i> \c_d" = "a\|b <i\> \\c\_d" ∧
  table_cells false "" ("| " +:+ escape_markdown "a|b" +:+ " | " +:+ escape_markdown "c\" +:+ " |") = [""; " a\|b "; " c\\ "; ""].
Proof. vm_compute. done. Qed.

Lemma escape_xml_decodes_witness :
  utf8_valid "<b>&amp;</b>" = true ∧
  (xml_text (escape_xml "<b>&amp;</b>") "<b>&amp;</b>" ↔ "<b>&amp;</b>" = "<b>&amp;</b>").
Proof. split; [vm_compute; reflexivity|]. apply (escape_xml_decodes "<b>&amp;</b>" "<b>&amp;</b>"); vm_compute; reflexivity. Defined.
