(* ===== verification/Interface.v ===== *)
(** * Application interface ([crates/code-system-graph-core/src/interfaces.rs])

    What the graph export, the contract operations and the pages of the delivery
    layer share: the errors of the interface and their exit codes, the bounds of a
    request, the indexes by identifier that reject duplicates, the projection of
    evidence without its note, pages and the schema catalog. *)
From stdpp Require Import base gmap list strings sorting.
From S2P Require Import Prelude RustOrd RustFloat RustStr Model.

(** ** Errors and exit codes *)
Inductive ContractAction := CA_List | CA_Show | CA_Validate | CA_Diff | CA_ExplainLink.
#[export] Instance ContractAction_eq_dec : EqDecision ContractAction.
Proof. solve_decision. Defined.

Inductive InterfaceError :=
| MissingContractField (action : ContractAction) (field : string)
| NotFound (id : string)
| DuplicateIdentity (entity id : string)
| InvalidBound (name : string) (value maximum : N)
| Serialization (what : string).

Inductive DomainErrorKind :=
| DE_InvalidInput | DE_NotFound | DE_Ambiguous | DE_Conflict | DE_Partial | DE_Unavailable | DE_Timeout | DE_Cancelled
| DE_Internal.

Inductive ExitCode :=
| EC_Success | EC_InvalidInput | EC_NotFound | EC_Ambiguous | EC_Conflict | EC_Partial | EC_Unavailable | EC_Timeout
| EC_Internal | EC_Cancelled.

Definition exit_value (code : ExitCode) : N :=
  match code with
  | EC_Success => 0 | EC_InvalidInput => 2 | EC_NotFound => 3 | EC_Ambiguous => 4 | EC_Conflict => 5 | EC_Partial => 6
  | EC_Unavailable => 7 | EC_Timeout => 8 | EC_Internal => 70 | EC_Cancelled => 130
  end%N.

Definition classify_exit_code (kind : DomainErrorKind) : ExitCode :=
  match kind with
  | DE_InvalidInput => EC_InvalidInput
  | DE_NotFound => EC_NotFound
  | DE_Ambiguous => EC_Ambiguous
  | DE_Conflict => EC_Conflict
  | DE_Partial => EC_Partial
  | DE_Unavailable => EC_Unavailable
  | DE_Timeout => EC_Timeout
  | DE_Cancelled => EC_Cancelled
  | DE_Internal => EC_Internal
  end.

Definition classify_interface_error (error : InterfaceError) : ExitCode :=
  match error with
  | MissingContractField _ _ | InvalidBound _ _ _ => EC_InvalidInput
  | NotFound _ => EC_NotFound
  | DuplicateIdentity _ _ => EC_Conflict
  | Serialization _ => EC_Internal
  end.

(** ** Bounds and indexes *)
Definition INTERFACE_SCHEMA_VERSION : N := 2.
Definition INTERFACE_RESULT_VERSION : N := 2.
Definition DELIVERY_METADATA_VERSION : N := 2.
Definition MAX_EXPORT_NODES : N := 100000.
Definition MAX_EXPORT_EDGES : N := 1000000.

Definition validate_bound (name : string) (value maximum : N) : result InterfaceError unit :=
  if (value =? 0)%N || (maximum <? value)%N then Err (InvalidBound name value maximum) else Ok tt.

(** The body of the loops of [index_nodes], [index_edges] and [index_evidence]. *)
Definition index_insert {A} (entity : string) (key : A → string) (index : gmap string A) (item : A)
    : result InterfaceError (gmap string A) :=
  if contains_key index (key item) then Err (DuplicateIdentity entity (key item)) else Ok (<[key item := item]> index).

Definition index_by {A} (entity : string) (key : A → string) (items : list A) : result InterfaceError (gmap string A) :=
  try_fold (index_insert entity key) ∅ items.

Definition index_nodes (nodes : list Node) : result InterfaceError (gmap NodeId Node) := index_by "node" node_id nodes.
Definition index_edges (edges : list Edge) : result InterfaceError (gmap EdgeId Edge) := index_by "edge" edge_id edges.
Definition index_evidence (evidence : list Evidence) : result InterfaceError (gmap EvidenceId Evidence) :=
  index_by "evidence" ev_id evidence.

(** ** Evidence without its note *)
Record EvidenceMetadata := {
  em_id : EvidenceId;
  em_repo_id : option RepoId;
  em_file_path : option string;
  em_start_line : option N;
  em_end_line : option N;
  em_extractor : string;
  em_extractor_version : string;
  em_provenance : Provenance;
  em_confidence : f32;
  em_observed_at_commit : option string;
  em_content_hash : option string;
}.

Definition evidence_metadata (value : Evidence) : EvidenceMetadata :=
  {| em_id := ev_id value;
     em_repo_id := ev_repo_id value;
     em_file_path := ev_file_path value;
     em_start_line := ev_start_line value;
     em_end_line := ev_end_line value;
     em_extractor := ev_extractor value;
     em_extractor_version := ev_extractor_version value;
     em_provenance := ev_provenance value;
     em_confidence := ev_confidence value;
     em_observed_at_commit := ev_observed_at_commit value;
     em_content_hash := ev_content_hash value |}.

Definition metadata_id_cmp : EvidenceMetadata → EvidenceMetadata → comparison := cmp_on em_id cmp.

#[export] Instance metadata_id_lawful : LawfulCmp metadata_id_cmp.
Proof. unfold metadata_id_cmp. apply _. Qed.

Definition evidence_for_edge (edge : Edge) (evidence : gmap EvidenceId Evidence) : list EvidenceMetadata :=
  sort_by metadata_id_cmp (map evidence_metadata (omap (λ id, evidence !! id) (edge_evidence edge))).

(** Edges are exported in the order of their identifiers. *)
Definition edge_id_order : Edge → Edge → comparison := cmp_on edge_id cmp.
#[export] Instance edge_id_order_lawful : LawfulCmp edge_id_order.
Proof. unfold edge_id_order. apply _. Qed.

(** ** Names of enumerations: the serde [snake_case] names *)
Definition node_kind_name (kind : NodeKind) : string :=
  match kind with
  | NK_Repository => "repository" | NK_Service => "service" | NK_Package => "package" | NK_Artifact => "artifact"
  | NK_SymbolRef => "symbol_ref" | NK_TestCase => "test_case" | NK_HttpOperation => "http_operation"
  | NK_GraphqlOperation => "graphql_operation" | NK_RpcMethod => "rpc_method" | NK_EventChannel => "event_channel"
  | NK_EventSchema => "event_schema" | NK_Database => "database" | NK_DatabaseTable => "database_table"
  | NK_DatabaseColumn => "database_column" | NK_ConfigKey => "config_key" | NK_Deployment => "deployment"
  | NK_Document => "document" | NK_Adr => "adr" | NK_Owner => "owner" | NK_ChangeSet => "change_set"
  | NK_PullRequest => "pull_request" | NK_Community => "community"
  end.

Definition edge_kind_name (kind : EdgeKind) : string :=
  match kind with
  | Contains => "contains" | Provides => "provides" | Consumes => "consumes" | CallsRemote => "calls_remote"
  | Publishes => "publishes" | Subscribes => "subscribes" | DeliversTo => "delivers_to"
  | DependsOnPackage => "depends_on_package" | DependsOnRepository => "depends_on_repository"
  | ReadsTable => "reads_table" | WritesTable => "writes_table" | Deploys => "deploys" | Configures => "configures"
  | Documents => "documents" | OwnedBy => "owned_by" | ImplementedBy => "implemented_by" | Validates => "validates"
  | ChangedIn => "changed_in" | Affects => "affects" | Precedes => "precedes" | Reverts => "reverts"
  | CompatibleWith => "compatible_with" | IncompatibleWith => "incompatible_with" | MemberOf => "member_of"
  | ManualLink => "manual_link"
  end.

Definition status_name (status : EpistemicStatus) : string :=
  match status with
  | Confirmed => "confirmed" | Inferred => "inferred" | Ambiguous => "ambiguous" | Stale => "stale"
  | Incomplete => "incomplete"
  end.

(** ** Pages *)
Record Warning := { w_version : N; w_code : string; w_message : string }.
#[export] Instance Warning_eq_dec : EqDecision Warning.
Proof. solve_decision. Defined.

Definition warning (code message : string) : Warning :=
  {| w_version := DELIVERY_METADATA_VERSION; w_code := code; w_message := message |}.

Record Pagination := {
  pg_version : N;
  pg_offset : N;
  pg_limit : N;
  pg_total : N;
  pg_returned : N;
  pg_has_more : bool;
}.

Record Summary := {
  sm_version : N;
  sm_code : string;
  sm_title : string;
  sm_detail : string;
  sm_complete : bool;
}.

Record Ambiguity := {
  am_version : N;
  am_code : string;
  am_message : string;
  am_candidates : list string;
  am_remediation : string;
}.

Record NextAction := { na_version : N; na_code : string; na_reason : string; na_command : option string }.

Record Page (T : Type) := {
  page_schema_version : N;
  page_result_version : N;
  page_items : list T;
  page_pagination : Pagination;
  page_summary : Summary;
  page_ambiguities : list Ambiguity;
  page_warnings : list Warning;
  page_next_actions : list NextAction;
}.
Arguments page_items {T}.
Arguments page_pagination {T}.

Definition paginate {T} (items : list T) (offset limit : N) (summary : Summary) : result InterfaceError (Page T) :=
  check? validate_bound "page" limit MAX_EXPORT_NODES in
  let start := N.min offset (len items) in
  let page_items := skip_take start limit items in
  let returned := len page_items in
  Ok {| page_schema_version := INTERFACE_SCHEMA_VERSION;
        page_result_version := INTERFACE_RESULT_VERSION;
        page_items := page_items;
        page_pagination :=
          {| pg_version := DELIVERY_METADATA_VERSION;
             pg_offset := offset;
             pg_limit := limit;
             pg_total := len items;
             pg_returned := returned;
             pg_has_more := (saturating_add start returned <? len items)%N |};
        page_summary := summary;
        page_ambiguities := [];
        page_warnings := [];
        page_next_actions := [] |}.

(** ** Schema catalog

    [schemars] generates the schema of a type, and [serde_json] its value. *)
Section schemas.
Context {Json : Type} (schema_json : string → option Json).

Record PublicSchema := { ps_name : string; ps_version : N; ps_schema : Json }.
Record PublicSchemaCatalog := { psc_schema_version : N; psc_result_version : N; psc_schemas : list PublicSchema }.

Definition public_schema (name : string) : result InterfaceError PublicSchema :=
  let? schema := ok_or (schema_json name) (Serialization ("schema " +:+ name)) in
  Ok {| ps_name := name; ps_version := INTERFACE_SCHEMA_VERSION; ps_schema := schema |}.

Definition PUBLIC_TYPES : list string :=
  ["ChangeImpactReport"; "ChangeRequest"; "ContractReport"; "ContractRequest"; "DoctorReport"; "DoctorRequest";
   "ExportReport"; "ExportRequest"; "ImpactReport"; "ImpactRequest"; "PageContractView"; "PullRequestInspection";
   "SearchReport"; "SearchRequest"; "TraversalReport"; "TraversalRequest"].

Definition schema_name_cmp : PublicSchema → PublicSchema → comparison := cmp_on ps_name cmp.

Definition public_schema_catalog : result InterfaceError PublicSchemaCatalog :=
  let? schemas := try_map public_schema PUBLIC_TYPES in
  Ok {| psc_schema_version := INTERFACE_SCHEMA_VERSION;
        psc_result_version := INTERFACE_RESULT_VERSION;
        psc_schemas := sort_by schema_name_cmp schemas |}.
End schemas.

(** ** Lemmas *)
Lemma validate_bound_Ok name value maximum : validate_bound name value maximum = Ok tt ↔ (1 ≤ value ≤ maximum)%N.
Proof.
  unfold validate_bound. destruct (N.eqb_spec value 0), (N.ltb_spec maximum value); simpl; split; try done; lia.
Qed.

Lemma validate_bound_Err name value maximum e :
  validate_bound name value maximum = Err e ↔ ¬ (1 ≤ value ≤ maximum)%N ∧ e = InvalidBound name value maximum.
Proof.
  unfold validate_bound. destruct (N.eqb_spec value 0), (N.ltb_spec maximum value); simpl; split;
    try (intros [= <-]; split; [lia|done]); try (by intros [_ ->]); try done; intros [Hno _]; exfalso; apply Hno; lia.
Qed.

(** A successful index holds exactly the items, under identifiers that are all distinct. *)
Definition indexes {A} (key : A → string) (items : list A) (index : gmap string A) : Prop :=
  NoDup (map key items) ∧ ∀ id item, index !! id = Some item ↔ item ∈ items ∧ key item = id.

Lemma indexes_snoc {A} (key : A → string) done index item :
  indexes key done index → index !! key item = None → indexes key (done ++ [item]) (<[key item := item]> index).
Proof.
  intros [Hnd Hix] Hnone. split.
  - rewrite map_app. apply NoDup_app. split; [done|]. split; [|apply NoDup_singleton].
    intros id (x & -> & Hx)%list_elem_of_fmap Eid%list_elem_of_singleton.
    enough (index !! key item = Some x) by congruence. by apply Hix.
  - intros id x. destruct (decide (id = key item)) as [->|Hne].
    + rewrite lookup_insert_eq, elem_of_app, list_elem_of_singleton. split.
      * intros [= ->]. auto.
      * intros [[Hx| ->] E]; [|done]. enough (index !! key item = Some x) by congruence. by apply Hix.
    + rewrite lookup_insert_ne by done. rewrite Hix, elem_of_app, list_elem_of_singleton. split; [tauto|].
      intros [[Hx| ->] E]; [done|congruence].
Qed.

Lemma index_by_indexes {A} entity (key : A → string) items index :
  index_by entity key items = Ok index → indexes key items index.
Proof.
  unfold index_by. apply (try_fold_invariant (λ done index, indexes key done index)).
  - split; [constructor|]. intros id item. rewrite lookup_empty. set_solver.
  - intros done item index' index'' Hix. unfold index_insert. destruct (contains_key _ _) eqn:Ec; [done|].
    intros [= <-] _. apply contains_key_false in Ec. by apply indexes_snoc.
Qed.

(** The index exists exactly when no identifier repeats. *)
Lemma index_by_total {A} entity (key : A → string) items :
  NoDup (map key items) → ∃ index, index_by entity key items = Ok index ∧ indexes key items index.
Proof.
  intros Hnd. destruct (index_by entity key items) as [index|e] eqn:E; [eauto using index_by_indexes|].
  exfalso. unfold index_by in E. apply try_fold_Err in E as (pre & x & post & s & -> & Hpre & Hx).
  unfold index_insert in Hx. destruct (contains_key s (key x)) eqn:Ec; [|done].
  apply contains_key_true in Ec as [y Hy]. apply (index_by_indexes entity) in Hpre as [_ Hix].
  apply Hix in Hy as [Hy E]. rewrite map_app in Hnd. apply NoDup_app in Hnd as (_ & Hd & _).
  apply (Hd (key x)); [|left]. apply list_elem_of_fmap. eauto.
Qed.

(** A refused index names the first identifier that repeats. *)
Lemma index_by_Err {A} entity (key : A → string) items e :
  index_by entity key items = Err e ↔
  ∃ pre x post, items = pre ++ x :: post ∧ NoDup (map key pre) ∧ key x ∈ map key pre ∧ e = DuplicateIdentity entity (key x).
Proof.
  unfold index_by at 1. rewrite try_fold_Err. split.
  - intros (pre & x & post & s & -> & Hpre & Hx). exists pre, x, post.
    apply (index_by_indexes entity) in Hpre as [Hnd Hix]. unfold index_insert in Hx.
    destruct (contains_key s (key x)) eqn:Ec; [|done]. injection Hx as <-.
    apply contains_key_true in Ec as [y Hy]. apply Hix in Hy as [Hy E].
    do 2 (split; [done|]). split; [|done]. apply list_elem_of_fmap. eauto.
  - intros (pre & x & post & -> & Hnd & Hx & ->).
    destruct (index_by_total entity key pre Hnd) as (s & Hs & _ & Hix).
    exists pre, x, post, s. do 2 (split; [done|]). unfold index_insert.
    apply list_elem_of_fmap in Hx as (y & Ey & Hy).
    enough (contains_key s (key x) = true) as -> by done. apply contains_key_true. exists y. by apply Hix.
Qed.

Lemma indexes_contains {A} (key : A → string) items index id :
  indexes key items index → contains_key index id = true ↔ ∃ item, item ∈ items ∧ key item = id.
Proof. intros [_ Hix]. rewrite contains_key_true. split; intros [x Hx]; exists x; by apply Hix. Qed.

Lemma indexes_values {A} (key : A → string) items index item :
  indexes key items index → item ∈ btree_values index ↔ item ∈ items.
Proof.
  intros [_ Hix]. rewrite btree_values_elem_of. split; [intros (k & [Hx _]%Hix); done|].
  intros Hx. exists (key item). by apply Hix.
Qed.

Lemma indexes_values_perm {A} (key : A → string) items index :
  indexes key items index → btree_values index ≡ₚ items.
Proof.
  intros Hix. pose proof Hix as [Hnd Hlook].
  assert (Hkeys : map key (btree_values index) = (btree_entries index).*1).
  { unfold btree_values. rewrite map_map. apply map_ext_in. intros [k v] Hkv%list_elem_of_In. simpl.
    apply btree_entries_elem_of in Hkv. by apply Hlook in Hkv as [_ <-]. }
  assert (Hinv : ∀ l, NoDup (map key l) → NoDup l).
  { intros l. rewrite !NoDup_ListNoDup. apply List.NoDup_map_inv. }
  apply NoDup_Permutation; [apply Hinv; rewrite Hkeys; apply btree_entries_keys_NoDup|by apply Hinv|].
  intros item. by apply (indexes_values key).
Qed.

(** The evidence of an edge: the observed items it names, in the order of their identifiers. *)
Lemma evidence_for_edge_exact edge items evidence m :
  indexes ev_id items evidence →
  m ∈ evidence_for_edge edge evidence ↔ ∃ item, item ∈ items ∧ ev_id item ∈ edge_evidence edge ∧ m = evidence_metadata item.
Proof.
  intros [_ Hix]. unfold evidence_for_edge. rewrite sort_by_elem_of, list_elem_of_fmap.
  setoid_rewrite list_elem_of_omap. split.
  - intros (item & -> & id & Hid & [Hit <-]%Hix). eauto.
  - intros (item & Hit & Hid & ->). exists item. split; [done|]. exists (ev_id item). split; [done|]. by apply Hix.
Qed.

Lemma evidence_for_edge_sorted edge evidence : StronglySorted (cmp_le metadata_id_cmp) (evidence_for_edge edge evidence).
Proof. apply sort_by_sorted, _. Qed.

(** ** What a bounded selection is *)

(** [k] holds the first items of [l], at most [n] of them: in order, and none of the rest precedes one of them. *)
Definition first_in_order {A} (c : A → A → comparison) (n : N) (l k : list A) : Prop :=
  StronglySorted (cmp_le c) k ∧
  ∃ rest, k ++ rest ≡ₚ l ∧ len k = N.min n (len l) ∧ ∀ x y, x ∈ k → y ∈ rest → c x y ≠ Gt.

Lemma first_in_order_take {A} (c : A → A → comparison) `{!LawfulCmp c} n l :
  first_in_order c n l (take (N.to_nat n) (sort_by c l)).
Proof.
  pose proof (sort_by_sorted c l) as Hs. rewrite <-(take_drop (N.to_nat n) (sort_by c l)) in Hs.
  apply StronglySorted_app in Hs as (Hcross & Hk & _). split; [done|].
  exists (drop (N.to_nat n) (sort_by c l)). split; [rewrite take_drop; apply sort_by_perm|]. split; [|done].
  unfold len. rewrite length_take, sort_by_length. lia.
Qed.

Lemma first_in_order_subset {A} (c : A → A → comparison) n l k x : first_in_order c n l k → x ∈ k → x ∈ l.
Proof. intros (_ & rest & Hp & _) Hx. rewrite <-Hp. set_solver. Qed.

(** Nothing is left out when the bound allows it. *)
Lemma first_in_order_all {A} (c : A → A → comparison) n l k : first_in_order c n l k → len k = len l → k ≡ₚ l.
Proof.
  intros (_ & rest & Hp & _) Hlen. apply Permutation_length in Hp as Hl. rewrite length_app in Hl.
  destruct rest; [by rewrite app_nil_r in Hp|]. unfold len in Hlen. simpl in Hl. lia.
Qed.

(** A test that decides a proposition filters like it. *)
Lemma filter_decided {A} (f : A → bool) (P : A → Prop) `{!∀ x, Decision (P x)} l :
  (∀ x, f x = true ↔ P x) → List.filter f l = filter P l.
Proof.
  intros Hf. induction l as [|x l IH]; [done|]. rewrite filter_cons. simpl. rewrite IH.
  specialize (Hf x). destruct (f x), (decide (P x)); naive_solver.
Qed.

(** A filter that keeps the length keeps everything. *)
Lemma full_filter {A} (P : A → Prop) `{!∀ x, Decision (P x)} l : length (filter P l) = length l → filter P l = l.
Proof.
  induction l as [|x l IH]; [done|]. rewrite filter_cons. destruct (decide (P x)); simpl; intros Hlen.
  - f_equal. apply IH. lia.
  - pose proof (length_filter P l). lia.
Qed.

(** ** Theorems *)

(** A page is the slice of the items that starts at the offset: fewer than the limit only at the end, with [has_more]
    exactly when an item follows the slice. *)
Theorem paginate_exact {T} (items : list T) offset limit summary page :
  (len items ≤ usize_max)%N →
  paginate items offset limit summary = Ok page →
  page_items page = take (N.to_nat limit) (drop (N.to_nat offset) items) ∧
  pg_total (page_pagination page) = len items ∧
  pg_returned (page_pagination page) = len (page_items page) ∧
  (pg_has_more (page_pagination page) = true ↔ ∃ x rest, drop (N.to_nat (offset + limit)) items = x :: rest).
Proof.
  intros Hlen. unfold paginate. rewrite check_Ok, validate_bound_Ok. intros [[Hlo _] [= <-]]. simpl.
  assert (Hskip : skip_take (N.min offset (len items)) limit items
                = take (N.to_nat limit) (drop (N.to_nat offset) items)).
  { unfold skip_take, len. destruct (N.le_gt_cases offset (N.of_nat (length items))); [by rewrite N.min_l|].
    rewrite N.min_r, !drop_ge by lia. done. }
  rewrite Hskip. split_and!; [done..|]. rewrite N.ltb_lt.
  assert (Hret : (len (take (N.to_nat limit) (drop (N.to_nat offset) items))
                = N.min limit (len items - N.min offset (len items)))%N).
  { unfold len. rewrite length_take, length_drop. lia. }
  rewrite Hret, saturating_add_small by lia. split.
  - intros Hlt. destruct (drop (N.to_nat (offset + limit)) items) as [|x rest] eqn:E; [|by exists x, rest].
    apply (f_equal length) in E. rewrite length_drop in E. unfold len in *. simpl in E. lia.
  - intros (x & rest & E). apply (f_equal length) in E. rewrite length_drop in E. unfold len in *. simpl in E. lia.
Qed.

(** Consecutive pages of a list, each of the limit's size, are the list again. *)
Fixpoint pages {T} (count : nat) (items : list T) (offset limit : N) : list T :=
  match count with
  | O => []
  | S count => skip_take offset limit items ++ pages count items (offset + limit) limit
  end.

Theorem pages_cover {T} (items : list T) limit count :
  (0 < limit)%N → (len items ≤ N.of_nat count * limit)%N → pages count items 0 limit = items.
Proof.
  intros Hlim Hcount.
  enough (H : ∀ count offset, (len items ≤ offset + N.of_nat count * limit)%N →
            pages count items offset limit = drop (N.to_nat offset) items).
  { rewrite H by lia. by rewrite drop_0. }
  clear count Hcount. intros count. induction count as [|count IH]; intros offset Hle; simpl.
  - symmetry. apply drop_ge. unfold len in Hle. lia.
  - rewrite IH by lia. unfold skip_take.
    replace (N.to_nat (offset + limit)) with (N.to_nat offset + N.to_nat limit)%nat by lia.
    rewrite <-drop_drop. apply take_drop.
Qed.

(** Every error of the interface ends with an exit code of its own class, never that of a success. *)
Lemma error_never_succeeds error : exit_value (classify_interface_error error) ≠ 0%N.
Proof. by destruct error. Qed.

Lemma exit_values_distinct c d : exit_value c = exit_value d → c = d.
Proof. by destruct c, d. Qed.
