(* ===== verification/Doctor.v ===== *)
(** * Health report ([doctor] of [crates/code-system-graph-core/src/interfaces.rs])

    The consolidation of the schema, integrity, freshness, provider and configuration
    observations into one report. *)
From stdpp Require Import base gmap list strings sorting.
From S2P Require Import Prelude RustOrd RustFloat RustStr Model Interface.

(** ** Observations and reports *)
Inductive DoctorCategory := DC_Schema | DC_Integrity | DC_Freshness | DC_Provider | DC_Config.
Inductive DoctorStatus := DS_Healthy | DS_Degraded | DS_Failed | DS_Unknown.
#[export] Instance DoctorCategory_eq_dec : EqDecision DoctorCategory.
Proof. solve_decision. Defined.
#[export] Instance DoctorStatus_eq_dec : EqDecision DoctorStatus.
Proof. solve_decision. Defined.

Definition category_rank (c : DoctorCategory) : nat :=
  match c with DC_Schema => 0 | DC_Integrity => 1 | DC_Freshness => 2 | DC_Provider => 3 | DC_Config => 4 end.
#[export] Instance category_rank_inj : Inj (=) (=) category_rank.
Proof. by intros [] []. Qed.
#[export] Instance DoctorCategory_ord : Ord DoctorCategory := cmp_on category_rank cmp.
#[export] Instance DoctorCategory_total : TotalOrd DoctorCategory := ranked_total category_rank.

Record SchemaDoctorInput := {
  si_name : string;
  si_expected_schema : string;
  si_actual_schema : option string;
  si_metadata_consistent : option bool;
}.
Record IntegrityDoctorInput := { ii_name : string; ii_passed : option bool; ii_detail : option string }.
Record FreshnessDoctorInput := { fi_repo_id : RepoId; fi_state : RepoFreshnessState; fi_detail : option string }.
Inductive ProviderDoctorStatus :=
| PD_Available | PD_IndexMissing | PD_Stale | PD_Unavailable | PD_Incompatible | PD_InvalidResponse | PD_TimedOut.
Record ProviderDoctorInput := { pi_name : string; pi_status : ProviderDoctorStatus; pi_detail : option string }.
Record ConfigDoctorInput := { ci_name : string; ci_valid : option bool; ci_detail : option string }.

Record DoctorRequest := {
  dr_schema : list SchemaDoctorInput;
  dr_integrity : list IntegrityDoctorInput;
  dr_freshness : list FreshnessDoctorInput;
  dr_providers : list ProviderDoctorInput;
  dr_config : list ConfigDoctorInput;
}.

Record DoctorCheck := {
  dc_category : DoctorCategory;
  dc_name : string;
  dc_status : DoctorStatus;
  dc_summary : string;
  dc_remediation : option string;
}.

Record DoctorReport := {
  dp_schema_version : N;
  dp_result_version : N;
  dp_status : DoctorStatus;
  dp_checks : list DoctorCheck;
  dp_complete : bool;
  dp_healthy_checks : N;
  dp_degraded_checks : N;
  dp_failed_checks : N;
  dp_unknown_checks : N;
}.

(** ** One check per observation *)
Definition missing_doctor_category (category : DoctorCategory) : DoctorCheck :=
  {| dc_category := category;
     dc_name := "not_observed";
     dc_status := DS_Unknown;
     dc_summary := "No input was supplied for this required doctor category.";
     dc_remediation := Some "Collect the category check before claiming a healthy system." |}.

Definition schema_outcome (input : SchemaDoctorInput) : DoctorStatus * string * option string :=
  let mismatch actual :=
    (DS_Failed,
     "Schema identity `" +:+ actual +:+ "` does not match `" +:+ si_expected_schema input +:+ "`.",
     Some "Remove the local database and run a full scan.") in
  let unobserved :=
    (DS_Unknown, "Schema state was not fully observed.",
     Some "Open the store and validate its exact schema metadata.") in
  match si_actual_schema input with
  | None => unobserved
  | Some actual =>
      if String.eqb actual (si_expected_schema input) then
        match si_metadata_consistent input with
        | Some true => (DS_Healthy, "Schema identity matches this binary and metadata is consistent.", None)
        | Some false =>
            (DS_Failed, "Schema metadata is inconsistent.", Some "Remove the local database and run a full scan.")
        | None => unobserved
        end
      else mismatch actual
  end.

Definition integrity_outcome (input : IntegrityDoctorInput) : DoctorStatus * string * option string :=
  match ii_passed input with
  | Some true => (DS_Healthy, "Integrity check passed.", None)
  | Some false =>
      (DS_Failed, "Integrity check failed.", Some "Restore the last verified backup before rebuilding state.")
  | None =>
      (DS_Unknown, "Integrity check did not complete.",
       Some "Run the bounded integrity check before trusting stored results.")
  end.

Definition freshness_outcome (input : FreshnessDoctorInput) : DoctorStatus * string * option string :=
  match fi_state input with
  | RF_Fresh => (DS_Healthy, "Snapshot is fresh.", None)
  | RF_WorkingTreeChanged | RF_CommitsBehind | RF_ConfigChanged | RF_ExtractorChanged | RF_CodegraphPending =>
      (DS_Degraded, "Snapshot is stale relative to a known input.",
       Some "Run an explicit incremental scan before relying on safety claims.")
  | RF_Corrupt =>
      (DS_Failed, "Snapshot is marked corrupt.",
       Some "Restore a verified snapshot or rebuild after integrity diagnosis.")
  | RF_Partial | RF_Unknown | RF_Unavailable =>
      (DS_Unknown, "Repository freshness is incomplete or unavailable.",
       Some "Restore repository access and complete a bounded scan.")
  end.

Definition provider_outcome (input : ProviderDoctorInput) : DoctorStatus * string * option string :=
  match pi_status input with
  | PD_Available => (DS_Healthy, "Provider is available.", None)
  | PD_IndexMissing | PD_Stale =>
      (DS_Degraded, "Provider index is missing or stale.",
       Some "Initialize or refresh the provider index explicitly if enrichment is needed.")
  | PD_Unavailable | PD_TimedOut =>
      (DS_Unknown, "Provider availability could not be established.",
       Some "Verify the provider binary and rerun its bounded compatibility probe.")
  | PD_Incompatible | PD_InvalidResponse =>
      (DS_Failed, "Provider public contract is incompatible or invalid.",
       Some "Use a tested provider version or disable the incompatible adapter.")
  end.

Definition config_outcome (input : ConfigDoctorInput) : DoctorStatus * string * option string :=
  match ci_valid input with
  | Some true => (DS_Healthy, "Configuration is valid.", None)
  | Some false =>
      (DS_Failed, "Configuration is invalid.",
       Some "Correct the reported field without discarding unrelated settings.")
  | None =>
      (DS_Unknown, "Configuration validation did not complete.",
       Some "Load and validate every effective configuration layer.")
  end.

(** The check pushed for an outcome; [detail], where the observation has one, replaces the fallback summary. *)
Definition outcome_check (category : DoctorCategory) (name : string) (detail : option string)
    (outcome : DoctorStatus * string * option string) : DoctorCheck :=
  {| dc_category := category;
     dc_name := name;
     dc_status := outcome.1.1;
     dc_summary := default outcome.1.2 detail;
     dc_remediation := outcome.2 |}.

Definition append_checks {A} (category : DoctorCategory) (check : A → DoctorCheck) (inputs : list A)
    (checks : list DoctorCheck) : list DoctorCheck :=
  let checks := if is_empty_list inputs then checks ++ [missing_doctor_category category] else checks in
  foldl (λ checks input, checks ++ [check input]) checks inputs.

Definition append_schema_checks : list SchemaDoctorInput → list DoctorCheck → list DoctorCheck :=
  append_checks DC_Schema (λ input, outcome_check DC_Schema (si_name input) None (schema_outcome input)).
Definition append_integrity_checks : list IntegrityDoctorInput → list DoctorCheck → list DoctorCheck :=
  append_checks DC_Integrity (λ input, outcome_check DC_Integrity (ii_name input) (ii_detail input) (integrity_outcome input)).
Definition append_freshness_checks : list FreshnessDoctorInput → list DoctorCheck → list DoctorCheck :=
  append_checks DC_Freshness (λ input, outcome_check DC_Freshness (fi_repo_id input) (fi_detail input) (freshness_outcome input)).
Definition append_provider_checks : list ProviderDoctorInput → list DoctorCheck → list DoctorCheck :=
  append_checks DC_Provider (λ input, outcome_check DC_Provider (pi_name input) (pi_detail input) (provider_outcome input)).
Definition append_config_checks : list ConfigDoctorInput → list DoctorCheck → list DoctorCheck :=
  append_checks DC_Config (λ input, outcome_check DC_Config (ci_name input) (ci_detail input) (config_outcome input)).

Definition check_order : DoctorCheck → DoctorCheck → comparison :=
  then_with (then_with (cmp_on dc_category cmp) (cmp_on dc_name cmp)) (cmp_on dc_summary cmp).
#[export] Instance check_order_lawful : LawfulCmp check_order.
Proof. unfold check_order. apply _. Qed.

Definition count_status (checks : list DoctorCheck) (status : DoctorStatus) : N :=
  len (List.filter (λ check, bool_decide (dc_status check = status)) checks).

Definition doctor (request : DoctorRequest) : DoctorReport :=
  let checks := append_schema_checks (dr_schema request) [] in
  let checks := append_integrity_checks (dr_integrity request) checks in
  let checks := append_freshness_checks (dr_freshness request) checks in
  let checks := append_provider_checks (dr_providers request) checks in
  let checks := append_config_checks (dr_config request) checks in
  let checks := sort_by check_order checks in
  let healthy_checks := count_status checks DS_Healthy in
  let degraded_checks := count_status checks DS_Degraded in
  let failed_checks := count_status checks DS_Failed in
  let unknown_checks := count_status checks DS_Unknown in
  let status :=
    if (0 <? failed_checks)%N then DS_Failed
    else if (0 <? unknown_checks)%N then DS_Unknown
    else if (0 <? degraded_checks)%N then DS_Degraded
    else DS_Healthy in
  {| dp_schema_version := INTERFACE_SCHEMA_VERSION;
     dp_result_version := INTERFACE_RESULT_VERSION;
     dp_status := status;
     dp_checks := checks;
     dp_complete := (unknown_checks =? 0)%N;
     dp_healthy_checks := healthy_checks;
     dp_degraded_checks := degraded_checks;
     dp_failed_checks := failed_checks;
     dp_unknown_checks := unknown_checks |}.

(** ** What an observation claims, stated on the observations alone *)
Inductive health : DoctorStatus → DoctorRequest → Prop :=
| health_schema request input s :
    input ∈ dr_schema request →
    match si_actual_schema input, si_metadata_consistent input with
    | None, _ => s = DS_Unknown
    | Some actual, consistent =>
        (actual ≠ si_expected_schema input ∧ s = DS_Failed) ∨
        (actual = si_expected_schema input ∧
         s = match consistent with Some true => DS_Healthy | Some false => DS_Failed | None => DS_Unknown end)
    end → health s request
| health_integrity request input s :
    input ∈ dr_integrity request →
    s = match ii_passed input with Some true => DS_Healthy | Some false => DS_Failed | None => DS_Unknown end →
    health s request
| health_freshness request input s :
    input ∈ dr_freshness request →
    (fi_state input = RF_Fresh → s = DS_Healthy) →
    (fi_state input ∈ [RF_WorkingTreeChanged; RF_CommitsBehind; RF_ConfigChanged; RF_ExtractorChanged;
                       RF_CodegraphPending] → s = DS_Degraded) →
    (fi_state input = RF_Corrupt → s = DS_Failed) →
    (fi_state input ∈ [RF_Partial; RF_Unknown; RF_Unavailable] → s = DS_Unknown) →
    health s request
| health_provider request input s :
    input ∈ dr_providers request →
    (pi_status input = PD_Available → s = DS_Healthy) →
    (pi_status input ∈ [PD_IndexMissing; PD_Stale] → s = DS_Degraded) →
    (pi_status input ∈ [PD_Incompatible; PD_InvalidResponse] → s = DS_Failed) →
    (pi_status input ∈ [PD_Unavailable; PD_TimedOut] → s = DS_Unknown) →
    health s request
| health_config request input s :
    input ∈ dr_config request →
    s = match ci_valid input with Some true => DS_Healthy | Some false => DS_Failed | None => DS_Unknown end →
    health s request
| health_missing request :
    dr_schema request = [] ∨ dr_integrity request = [] ∨ dr_freshness request = [] ∨ dr_providers request = [] ∨
    dr_config request = [] →
    health DS_Unknown request.

(** ** Lemmas *)
Lemma append_checks_eq {A} category (check : A → DoctorCheck) inputs checks :
  append_checks category check inputs checks =
  checks ++ (if is_empty_list inputs then [missing_doctor_category category] else map check inputs).
Proof. unfold append_checks. rewrite fold_push. destruct inputs; simpl; [by rewrite app_nil_r|done]. Qed.

Lemma append_checks_In {A} category (check : A → DoctorCheck) inputs checks c :
  c ∈ append_checks category check inputs checks ↔
  c ∈ checks ∨ (inputs = [] ∧ c = missing_doctor_category category) ∨ (∃ input, input ∈ inputs ∧ c = check input).
Proof.
  rewrite append_checks_eq, elem_of_app. destruct inputs as [|x xs]; simpl.
  - rewrite list_elem_of_singleton. split; [tauto|]. intros [H|[[_ H]|(input & H & _)]]; [tauto..|]. by apply not_elem_of_nil in H.
  - change (check x :: map check xs) with (check <$> (x :: xs)). rewrite list_elem_of_fmap. split; [naive_solver|].
    intros [H|[[H _]|(input & H & ->)]]; [tauto|done|eauto].
Qed.

(** Where a check of a report comes from. *)
Lemma doctor_checks_In request c :
  c ∈ dp_checks (doctor request) ↔
  (∃ input, input ∈ dr_schema request ∧ c = outcome_check DC_Schema (si_name input) None (schema_outcome input)) ∨
  (∃ input, input ∈ dr_integrity request ∧ c = outcome_check DC_Integrity (ii_name input) (ii_detail input) (integrity_outcome input)) ∨
  (∃ input, input ∈ dr_freshness request ∧ c = outcome_check DC_Freshness (fi_repo_id input) (fi_detail input) (freshness_outcome input)) ∨
  (∃ input, input ∈ dr_providers request ∧ c = outcome_check DC_Provider (pi_name input) (pi_detail input) (provider_outcome input)) ∨
  (∃ input, input ∈ dr_config request ∧ c = outcome_check DC_Config (ci_name input) (ci_detail input) (config_outcome input)) ∨
  (dr_schema request = [] ∧ c = missing_doctor_category DC_Schema) ∨
  (dr_integrity request = [] ∧ c = missing_doctor_category DC_Integrity) ∨
  (dr_freshness request = [] ∧ c = missing_doctor_category DC_Freshness) ∨
  (dr_providers request = [] ∧ c = missing_doctor_category DC_Provider) ∨
  (dr_config request = [] ∧ c = missing_doctor_category DC_Config).
Proof.
  unfold doctor; simpl. rewrite sort_by_elem_of. unfold append_config_checks, append_provider_checks,
    append_freshness_checks, append_integrity_checks, append_schema_checks.
  rewrite !append_checks_In, elem_of_nil. tauto.
Qed.

(** The outcome of every observation is the one its class claims. *)
Lemma outcome_health request c : c ∈ dp_checks (doctor request) → health (dc_status c) request.
Proof.
  rewrite doctor_checks_In. intros Hc.
  repeat (destruct Hc as [Hc|Hc]); (destruct Hc as (input & Hin & ->) || destruct Hc as [Hempty ->]);
    simpl; try (apply health_missing; tauto).
  - eapply health_schema; [done|]. unfold schema_outcome. destruct (si_actual_schema input) as [actual|]; [|done].
    destruct (String.eqb_spec actual (si_expected_schema input)); [right|left]; (split; [done|]); [|done].
    by destruct (si_metadata_consistent input) as [[]|].
  - eapply health_integrity; [done|]. unfold integrity_outcome. by destruct (ii_passed input) as [[]|].
  - eapply health_freshness; [done|..]; unfold freshness_outcome; destruct (fi_state input); simpl; try done;
      intros H; exfalso; by set_solver.
  - eapply health_provider; [done|..]; unfold provider_outcome; destruct (pi_status input); simpl; try done;
      intros H; exfalso; by set_solver.
  - eapply health_config; [done|]. unfold config_outcome. by destruct (ci_valid input) as [[]|].
Qed.

Lemma health_outcome s request : health s request → ∃ c, c ∈ dp_checks (doctor request) ∧ dc_status c = s.
Proof.
  setoid_rewrite doctor_checks_In.
  destruct 1 as [request input s Hin Hs|request input s Hin Hs|request input s Hin H1 H2 H3 H4
                |request input s Hin H1 H2 H3 H4|request input s Hin Hs|request Hmissing].
  - eexists. split; [left; eexists; split; [done|reflexivity]|]. simpl.
    unfold schema_outcome. destruct (si_actual_schema input) as [actual|]; [|done]. destruct Hs as [[Hne ->]|[He ->]].
    + by rewrite (proj2 (String.eqb_neq _ _) Hne).
    + rewrite (proj2 (String.eqb_eq _ _) He). by destruct (si_metadata_consistent input) as [[]|].
  - eexists. split; [right; left; eexists; split; [done|reflexivity]|]. simpl.
    subst s. unfold integrity_outcome. by destruct (ii_passed input) as [[]|].
  - eexists. split; [do 2 right; left; eexists; split; [done|reflexivity]|]. simpl. unfold freshness_outcome.
    destruct (fi_state input); simpl; symmetry; first [by apply H1|by apply H3|apply H2; set_solver|apply H4; set_solver].
  - eexists. split; [do 3 right; left; eexists; split; [done|reflexivity]|]. simpl. unfold provider_outcome.
    destruct (pi_status input); simpl; symmetry; first [by apply H1|apply H2; set_solver|apply H3; set_solver|apply H4; set_solver].
  - eexists. split; [do 4 right; left; eexists; split; [done|reflexivity]|]. simpl.
    subst s. unfold config_outcome. by destruct (ci_valid input) as [[]|].
  - destruct Hmissing as [H|[H|[H|[H|H]]]];
      [exists (missing_doctor_category DC_Schema)|exists (missing_doctor_category DC_Integrity)
      |exists (missing_doctor_category DC_Freshness)|exists (missing_doctor_category DC_Provider)
      |exists (missing_doctor_category DC_Config)]; (split; [tauto|done]).
Qed.

Lemma count_status_pos checks status : (0 < count_status checks status)%N ↔ ∃ c, c ∈ checks ∧ dc_status c = status.
Proof.
  unfold count_status, len.
  transitivity (∃ c, c ∈ List.filter (λ check, bool_decide (dc_status check = status)) checks).
  - destruct (List.filter _ checks) as [|c l]; simpl.
    + split; [lia|]. intros [c Hc]. by apply not_elem_of_nil in Hc.
    + split; [|lia]. intros _. exists c. left.
  - setoid_rewrite list_filter_In. by setoid_rewrite bool_decide_eq_true.
Qed.

Lemma doctor_count_pos request s : (0 < count_status (dp_checks (doctor request)) s)%N ↔ health s request.
Proof.
  rewrite count_status_pos. split; [|by apply health_outcome]. intros (c & Hc & <-). by apply outcome_health.
Qed.

Lemma count_status_total checks :
  (count_status checks DS_Healthy + count_status checks DS_Degraded + count_status checks DS_Failed
   + count_status checks DS_Unknown = len checks)%N.
Proof.
  unfold count_status, len. induction checks as [|c checks IH]; simpl; [done|].
  destruct (dc_status c); simpl; lia.
Qed.

(** ** Theorems *)

(** the aggregate status of a health report is failed exactly when some observation failed; otherwise unknown
    exactly when some observation is inconclusive or a category has none; otherwise degraded exactly when some
    observation is degraded; it is healthy only when every category was observed and every observation is healthy. *)
Theorem doctor_exact request :
  (dp_status (doctor request) = DS_Failed ↔ health DS_Failed request) ∧
  (dp_status (doctor request) = DS_Unknown ↔ ¬ health DS_Failed request ∧ health DS_Unknown request) ∧
  (dp_status (doctor request) = DS_Degraded ↔
   ¬ health DS_Failed request ∧ ¬ health DS_Unknown request ∧ health DS_Degraded request) ∧
  (dp_status (doctor request) = DS_Healthy ↔ ∀ s, health s request → s = DS_Healthy) ∧
  (dp_complete (doctor request) = true ↔ ¬ health DS_Unknown request).
Proof.
  assert (Hall : (∀ s, health s request → s = DS_Healthy) ↔
                 ¬ health DS_Failed request ∧ ¬ health DS_Unknown request ∧ ¬ health DS_Degraded request).
  { split; [intros H; split_and!; intros Hs%H; done|]. intros (? & ? & ?) []; done. }
  rewrite Hall, <-!doctor_count_pos. unfold doctor; cbv zeta. cbn [dp_status dp_complete dp_checks].
  generalize (count_status (sort_by check_order (append_config_checks (dr_config request)
    (append_provider_checks (dr_providers request) (append_freshness_checks (dr_freshness request)
    (append_integrity_checks (dr_integrity request) (append_schema_checks (dr_schema request) []))))))) as n.
  intros n. rewrite N.eqb_eq.
  destruct (N.ltb_spec 0 (n DS_Failed)), (N.ltb_spec 0 (n DS_Unknown)), (N.ltb_spec 0 (n DS_Degraded));
    split_and!; split; intros; repeat split; try done; try lia.
Qed.

(** The checks of a report are in the order of their categories, names and summaries, and the four counts add up. *)
Theorem doctor_ordered request :
  StronglySorted (cmp_le check_order) (dp_checks (doctor request)) ∧
  (dp_healthy_checks (doctor request) + dp_degraded_checks (doctor request) + dp_failed_checks (doctor request)
   + dp_unknown_checks (doctor request) = len (dp_checks (doctor request)))%N.
Proof. split; [apply sort_by_sorted, _|]. apply (count_status_total (dp_checks (doctor request))). Qed.
