(* ===== verification/GraphExport.v ===== *)
(** * Graph export ([export_graph] of [crates/code-system-graph-core/src/interfaces.rs])

    The bounded selection of nodes and edges, the warnings about what is missing, and
    the three renderings. [serde_json] prints the JSON document: its printer is the
    parameter [print_json]. *)
From stdpp Require Import base gmap sets list strings pretty sorting.
From Stdlib Require Import Ascii.
From S2P Require Import Prelude RustOrd RustFloat RustStr RustBytes Model CanonicalText FloatText TextEscape Interface.

(** ** Requests and reports *)
Inductive ExportFormat := EF_Json | EF_GraphMl | EF_Markdown.

Record ExportRequest := { xr_format : ExportFormat; xr_max_nodes : N; xr_max_edges : N }.

Definition DEFAULT_EXPORT_NODES : N := 10000.
Definition DEFAULT_EXPORT_EDGES : N := 50000.
Definition default_export_request : ExportRequest :=
  {| xr_format := EF_Json; xr_max_nodes := DEFAULT_EXPORT_NODES; xr_max_edges := DEFAULT_EXPORT_EDGES |}.

Record ExportReport := {
  xp_schema_version : N;
  xp_result_version : N;
  xp_format : ExportFormat;
  xp_content : string;
  xp_exported_nodes : N;
  xp_exported_edges : N;
  xp_omitted_nodes : N;
  xp_omitted_edges : N;
  xp_truncated : bool;
  xp_warnings : list Warning;
}.

Record ExportEdge := { xe_edge : Edge; xe_evidence : list EvidenceMetadata }.
Record JsonExport := {
  je_schema_version : N;
  je_result_version : N;
  je_nodes : list Node;
  je_edges : list ExportEdge;
}.

(** ** Renderings *)
Definition NEWLINE : string := String (ascii_of_N 10) "".
Definition quoted (s : string) : string := QUOT +:+ s +:+ QUOT.
Definition attribute (name value : string) : string := " " +:+ name +:+ "=" +:+ quoted value.
Definition data_element (key value : string) : string := "<data" +:+ attribute "key" key +:+ ">" +:+ value +:+ "</data>".

Definition evidence_location (evidence : EvidenceMetadata) : string :=
  let path := default "<unknown>" (em_file_path evidence) in
  match em_start_line evidence, em_end_line evidence with
  | Some start, Some finish => path +:+ ":" +:+ pretty start +:+ "-" +:+ pretty finish
  | Some start, None => path +:+ ":" +:+ pretty start
  | _, _ => path
  end.

Definition edge_locations (item : ExportEdge) : string := join "; " (map evidence_location (xe_evidence item)).

Definition graphml_key (id target name type : string) : string :=
  "<key" +:+ attribute "id" id +:+ attribute "for" target +:+ attribute "attr.name" name +:+ attribute "attr.type" type
  +:+ "/>" +:+ NEWLINE.

Definition graphml_header : string :=
  "<?xml" +:+ attribute "version" "1.0" +:+ attribute "encoding" "UTF-8" +:+ "?>" +:+ NEWLINE
  +:+ "<graphml" +:+ attribute "xmlns" "http://graphml.graphdrawing.org/xmlns" +:+ ">" +:+ NEWLINE
  +:+ graphml_key "kind" "all" "kind" "string"
  +:+ graphml_key "stable_key" "node" "stable_key" "string"
  +:+ graphml_key "label" "node" "label" "string"
  +:+ graphml_key "status" "edge" "status" "string"
  +:+ graphml_key "confidence" "edge" "confidence" "float"
  +:+ graphml_key "evidence" "edge" "evidence" "string"
  +:+ "<graph" +:+ attribute "id" "code-system-graph" +:+ attribute "edgedefault" "directed" +:+ ">" +:+ NEWLINE.

Definition graphml_node (node : Node) : string :=
  "<node" +:+ attribute "id" (escape_xml (node_id node)) +:+ ">"
  +:+ data_element "kind" (escape_xml (node_kind_name (node_kind node)))
  +:+ data_element "stable_key" (escape_xml (node_stable_key node))
  +:+ data_element "label" (escape_xml (node_label node)) +:+ "</node>" +:+ NEWLINE.

Definition graphml_edge (item : ExportEdge) : string :=
  let edge := xe_edge item in
  "<edge" +:+ attribute "id" (escape_xml (edge_id edge)) +:+ attribute "source" (escape_xml (edge_source edge))
  +:+ attribute "target" (escape_xml (edge_target edge)) +:+ ">"
  +:+ data_element "kind" (escape_xml (edge_kind_name (edge_kind edge)))
  +:+ data_element "status" (escape_xml (status_name (edge_status edge)))
  +:+ data_element "confidence" (f32_display (edge_confidence edge))
  +:+ data_element "evidence" (escape_xml (edge_locations item)) +:+ "</edge>" +:+ NEWLINE.

Definition render_graphml (nodes : list Node) (edges : list ExportEdge) : string :=
  let output := foldl (λ output node, output +:+ graphml_node node) graphml_header nodes in
  let output := foldl (λ output item, output +:+ graphml_edge item) output edges in
  output +:+ "</graph>" +:+ NEWLINE +:+ "</graphml>" +:+ NEWLINE.

Definition markdown_row (cells : list string) : string := "| " +:+ join " | " cells +:+ " |" +:+ NEWLINE.

Definition markdown_node_cells (node : Node) : list string :=
  [escape_markdown (node_id node); escape_markdown (node_kind_name (node_kind node));
   escape_markdown (node_stable_key node); escape_markdown (node_label node)].

Definition markdown_edge_cells (item : ExportEdge) : list string :=
  let edge := xe_edge item in
  [escape_markdown (edge_id edge); escape_markdown (edge_source edge); escape_markdown (edge_target edge);
   escape_markdown (edge_kind_name (edge_kind edge)); escape_markdown (status_name (edge_status edge));
   f32_display (edge_confidence edge); escape_markdown (edge_locations item)].

Definition markdown_nodes_header : string :=
  "# Code System Graph graph export" +:+ NEWLINE +:+ NEWLINE +:+ "## Nodes" +:+ NEWLINE +:+ NEWLINE
  +:+ "| ID | Kind | Stable key | Label |" +:+ NEWLINE +:+ "|---|---|---|---|" +:+ NEWLINE.
Definition markdown_edges_header : string :=
  NEWLINE +:+ "## Edges" +:+ NEWLINE +:+ NEWLINE
  +:+ "| ID | Source | Target | Kind | Status | Confidence | Evidence |" +:+ NEWLINE
  +:+ "|---|---|---|---|---|---:|---|" +:+ NEWLINE.

Definition render_markdown (nodes : list Node) (edges : list ExportEdge) : string :=
  let output := foldl (λ output node, output +:+ markdown_row (markdown_node_cells node)) markdown_nodes_header nodes in
  foldl (λ output item, output +:+ markdown_row (markdown_edge_cells item)) (output +:+ markdown_edges_header) edges.

(** ** The export *)
Definition node_order : Node → Node → comparison := then_with (cmp_on node_stable_key cmp) (cmp_on node_id cmp).
Definition warning_order : Warning → Warning → comparison := then_with (cmp_on w_code cmp) (cmp_on w_message cmp).
#[export] Instance node_order_lawful : LawfulCmp node_order.
Proof. unfold node_order. apply _. Qed.
#[export] Instance warning_order_lawful : LawfulCmp warning_order.
Proof. unfold warning_order. apply _. Qed.

Definition select_nodes (nodes : list Node) (max_nodes : N) : list Node :=
  take (N.to_nat max_nodes) (sort_by node_order nodes).

Definition eligible_edges (selected_ids : gset NodeId) (edges : list Edge) : list Edge :=
  List.filter (λ edge, bool_decide (edge_source edge ∈ selected_ids) && bool_decide (edge_target edge ∈ selected_ids)) edges.

Definition edge_warnings (node_index : gmap NodeId Node) (evidence_index : gmap EvidenceId Evidence) (edge : Edge)
    : list Warning :=
  (if negb (contains_key node_index (edge_source edge)) || negb (contains_key node_index (edge_target edge))
   then [warning "export.dangling_edge"
           ("Edge `" +:+ edge_id edge +:+ "` was omitted because an endpoint is missing.")]
   else [])
  ++ flat_map (λ evidence_id,
       if contains_key evidence_index evidence_id then []
       else [warning "export.evidence_not_observed"
               ("Evidence `" +:+ evidence_id +:+ "` referenced by edge `" +:+ edge_id edge +:+ "` was not observed.")])
     (edge_evidence edge).

Definition export_warnings (node_index : gmap NodeId Node) (evidence_index : gmap EvidenceId Evidence) (edges : list Edge)
    : list Warning :=
  dedup_by (λ x y, bool_decide (x = y)) (sort_by warning_order (flat_map (edge_warnings node_index evidence_index) edges)).

Definition select_edges (evidence_index : gmap EvidenceId Evidence) (eligible : list Edge) (max_edges : N) : list ExportEdge :=
  map (λ edge, {| xe_edge := edge; xe_evidence := evidence_for_edge edge evidence_index |})
    (take (N.to_nat max_edges) (sort_by edge_id_order eligible)).

Section export.
Context (print_json : JsonExport → option string).

Definition render_json (nodes : list Node) (edges : list ExportEdge) : result InterfaceError string :=
  ok_or (print_json {| je_schema_version := INTERFACE_SCHEMA_VERSION; je_result_version := INTERFACE_RESULT_VERSION;
                       je_nodes := nodes; je_edges := edges |})
    (Serialization "graph export").

Definition render (format : ExportFormat) (nodes : list Node) (edges : list ExportEdge) : result InterfaceError string :=
  match format with
  | EF_Json => render_json nodes edges
  | EF_GraphMl => Ok (render_graphml nodes edges)
  | EF_Markdown => Ok (render_markdown nodes edges)
  end.

Definition export_graph (nodes : list Node) (edges : list Edge) (evidence : list Evidence) (request : ExportRequest)
    : result InterfaceError ExportReport :=
  check? validate_bound "node export" (xr_max_nodes request) MAX_EXPORT_NODES in
  check? validate_bound "edge export" (xr_max_edges request) MAX_EXPORT_EDGES in
  let? node_index := index_nodes nodes in
  let? _ := index_edges edges in
  let? evidence_index := index_evidence evidence in
  let selected_nodes := select_nodes nodes (xr_max_nodes request) in
  let selected_ids := list_to_set (map node_id selected_nodes) in
  let eligible := eligible_edges selected_ids edges in
  let warnings := export_warnings node_index evidence_index edges in
  let selected_edges := select_edges evidence_index eligible (xr_max_edges request) in
  let? content := render (xr_format request) selected_nodes selected_edges in
  let omitted_nodes := (len nodes - len selected_nodes)%N in
  let omitted_edges := (len edges - len selected_edges)%N in
  Ok {| xp_schema_version := INTERFACE_SCHEMA_VERSION;
        xp_result_version := INTERFACE_RESULT_VERSION;
        xp_format := xr_format request;
        xp_content := content;
        xp_exported_nodes := len selected_nodes;
        xp_exported_edges := len selected_edges;
        xp_omitted_nodes := omitted_nodes;
        xp_omitted_edges := omitted_edges;
        xp_truncated := (0 <? omitted_nodes)%N || (0 <? omitted_edges)%N;
        xp_warnings := warnings |}.

(** [export_workspace]: the graph and the evidence are the answers of the store. *)
Definition export_workspace {E} (graph : result E (list Node * list Edge)) (evidence : result E (list Evidence))
    (interface_error : InterfaceError → E) (request : ExportRequest) : result E ExportReport :=
  let? graph := graph in
  let? evidence := evidence in
  match export_graph graph.1 graph.2 evidence request with
  | Ok report => Ok report
  | Err e => Err (interface_error e)
  end.
End export.

(** ** Selections and warnings *)
Lemma eligible_edges_filter ids edges :
  eligible_edges ids edges = filter (λ edge, edge_source edge ∈ ids ∧ edge_target edge ∈ ids) edges.
Proof. apply filter_decided. intros edge. by rewrite andb_true_iff, !bool_decide_eq_true. Qed.

Lemma select_edges_edges index eligible n :
  map xe_edge (select_edges index eligible n) = take (N.to_nat n) (sort_by edge_id_order eligible).
Proof. unfold select_edges. rewrite map_map. simpl. apply map_id. Qed.

Lemma edge_warnings_In nodes edges evidence node_index evidence_index w :
  indexes node_id nodes node_index → indexes ev_id evidence evidence_index →
  w ∈ export_warnings node_index evidence_index edges ↔
  ∃ edge, edge ∈ edges ∧
    ((edge_source edge ∉ map node_id nodes ∨ edge_target edge ∉ map node_id nodes) ∧
       w = warning "export.dangling_edge" ("Edge `" +:+ edge_id edge +:+ "` was omitted because an endpoint is missing.")
     ∨ ∃ id, id ∈ edge_evidence edge ∧ id ∉ map ev_id evidence ∧
       w = warning "export.evidence_not_observed"
             ("Evidence `" +:+ id +:+ "` referenced by edge `" +:+ edge_id edge +:+ "` was not observed.")).
Proof.
  intros Hn He. unfold export_warnings. rewrite dedup_equal_elem_of, sort_by_elem_of, list_elem_of_In, in_flat_map.
  setoid_rewrite <-list_elem_of_In. apply exist_proper. intros edge. apply and_iff_compat_l.
  assert (Hin : ∀ id, contains_key node_index id = true ↔ id ∈ map node_id nodes).
  { intros id. rewrite (indexes_contains node_id nodes) by done. rewrite list_elem_of_fmap. naive_solver. }
  assert (Hiv : ∀ id, contains_key evidence_index id = true ↔ id ∈ map ev_id evidence).
  { intros id. rewrite (indexes_contains ev_id evidence) by done. rewrite list_elem_of_fmap. naive_solver. }
  unfold edge_warnings. rewrite elem_of_app. apply Morphisms_Prop.or_iff_morphism.
  - rewrite <-!Hin. destruct (contains_key node_index (edge_source edge)), (contains_key node_index (edge_target edge));
      simpl; rewrite ?elem_of_nil, ?list_elem_of_singleton; intuition congruence.
  - rewrite list_elem_of_In, in_flat_map. setoid_rewrite <-list_elem_of_In. apply exist_proper. intros id.
    apply and_iff_compat_l. rewrite <-Hiv.
    destruct (contains_key evidence_index id); rewrite ?elem_of_nil, ?list_elem_of_singleton; intuition congruence.
Qed.

(** ** Rows of a Markdown table *)
Definition cell_breaker (c : ascii) : bool := bool_decide (c ∈ ["\"%char; "|"%char; ascii_of_N 10]).

Lemma digits_unbroken (n : N) : str_any cell_breaker (pretty n) = false.
Proof.
  assert (Hc : ∀ c, ascii_in 48 57 c = false → str_any (Ascii.eqb c) (pretty n) = false) by (intros c; apply contains_char_pretty).
  pose proof (Hc "\"%char eq_refl) as H1. pose proof (Hc "|"%char eq_refl) as H2. pose proof (Hc (ascii_of_N 10) eq_refl) as H3.
  revert H1 H2 H3. generalize (pretty n) as s. clear Hc. intros s. induction s as [|c s IH]; [done|].
  cbn [str_any]. intros [E1 H1]%orb_false_iff [E2 H2]%orb_false_iff [E3 H3]%orb_false_iff.
  rewrite IH by done. rewrite orb_false_r. apply bool_decide_eq_false. rewrite !elem_of_cons, elem_of_nil.
  intros [->|[->|[->|[]]]]; by rewrite Ascii.eqb_refl in *.
Qed.

Lemma str_any_take f n s : str_any f s = false → str_any f (str_take n s) = false.
Proof.
  revert s. induction n as [|n IH]; intros [|c s]; simpl; [done..|]. intros [-> H]%orb_false_iff. by apply IH.
Qed.

Lemma str_any_drop f n s : str_any f s = false → str_any f (str_drop n s) = false.
Proof. revert s. induction n as [|n IH]; intros [|c s]; simpl; [done..|]. intros [_ H]%orb_false_iff. by apply IH. Qed.

Lemma zeros_unbroken n : str_any cell_breaker (zeros n) = false.
Proof. unfold zeros. induction (seq 0 (Z.to_nat n)) as [|x l IH]; [done|]. cbn [foldr]. by rewrite str_any_app, IH. Qed.

Lemma f32_display_text x : cell_text (f32_display x).
Proof.
  apply cell_digits. change (str_any cell_breaker (f32_display x) = false).
  destruct x as [[]|[]| |sign m e]; [done..|]. unfold f32_display. rewrite str_any_app, orb_false_iff.
  split; [by destruct sign|]. destruct (f32_shortest _ _) as [[d p]|]; [|done]. unfold decimal_text.
  pose proof (digits_unbroken (Z.to_N d)) as Hd. repeat case_match; rewrite !str_any_app, ?zeros_unbroken, ?Hd; try done.
  rewrite str_any_take, str_any_drop by done. done.
Qed.

Lemma cell_padded t : cell_text t → cell_text (" " +:+ t +:+ " ").
Proof.
  assert (Hb : cell_text " ") by (apply cell_digits; vm_compute; done). intros Ht. by repeat apply cell_text_app.
Qed.

Lemma join_cells cells rest cell :
  Forall cell_text cells → cells ≠ [] →
  table_cells false cell (" " +:+ join " | " cells +:+ " |" +:+ rest) =
  match map (λ c, " " +:+ c +:+ " ") cells with
  | first :: others => (cell +:+ first) :: others ++ table_cells false "" rest
  | [] => []
  end.
Proof.
  intros Hall Hne. revert cell. induction Hall as [|c cells Hc Hall IH]; intros cell; [done|].
  destruct (decide (cells = [])) as [->|Hn].
  - change (join " | " [c]) with c.
    replace (" " +:+ c +:+ " |" +:+ rest) with ((" " +:+ c +:+ " ") +:+ "|" +:+ rest)
      by (by rewrite <-!string_app_assoc).
    rewrite table_cells_text by by apply cell_padded. done.
  - rewrite join_first by done.
    replace (" " +:+ (c +:+ " | " +:+ join " | " cells) +:+ " |" +:+ rest)
      with ((" " +:+ c +:+ " ") +:+ "|" +:+ " " +:+ join " | " cells +:+ " |" +:+ rest)
      by (rewrite <-!string_app_assoc; done).
    rewrite table_cells_text by by apply cell_padded.
    change (table_cells false (cell +:+ " " +:+ c +:+ " ") ("|" +:+ " " +:+ join " | " cells +:+ " |" +:+ rest))
      with ((cell +:+ " " +:+ c +:+ " ") :: table_cells false "" (" " +:+ join " | " cells +:+ " |" +:+ rest)).
    rewrite IH by done. by destruct cells.
Qed.

(** A row of cell texts has exactly those cells. *)
Lemma row_cells cells :
  Forall cell_text cells → cells ≠ [] →
  ∃ row, markdown_row cells = row +:+ NEWLINE ∧
    table_cells false "" row = "" :: map (λ c, " " +:+ c +:+ " ") cells ++ [""].
Proof.
  intros Hall Hne. exists ("| " +:+ join " | " cells +:+ " |"). split; [unfold markdown_row; by rewrite <-!string_app_assoc|].
  change (table_cells false "" ("| " +:+ join " | " cells +:+ " |"))
    with ("" :: table_cells false "" (" " +:+ join " | " cells +:+ " |")).
  f_equal. pose proof (join_cells cells "" "" Hall Hne) as H. rewrite string_app_nil_r in H. rewrite H.
  by destruct cells.
Qed.

(** ** Texts of a graph: valid UTF-8, as every Rust string is *)
Definition valid_node (node : Node) : Prop :=
  utf8_valid (node_id node) = true ∧ utf8_valid (node_stable_key node) = true ∧ utf8_valid (node_label node) = true.
Definition valid_item (item : ExportEdge) : Prop :=
  utf8_valid (edge_id (xe_edge item)) = true ∧ utf8_valid (edge_source (xe_edge item)) = true ∧
  utf8_valid (edge_target (xe_edge item)) = true ∧
  Forall (λ m, match em_file_path m with Some path => utf8_valid path = true | None => True end) (xe_evidence item).

Lemma pretty_ascii (n : N) : is_ascii (pretty n).
Proof.
  assert (Hd : ∀ c, (128 <=? N_of_ascii c)%N = true → ascii_in 48 57 c = false).
  { intros c Hc%N.leb_le. unfold ascii_in. apply andb_false_iff. right. apply N.leb_gt. lia. }
  unfold is_ascii. assert (H : ∀ c, (128 <=? N_of_ascii c)%N = true → contains_char c (pretty n) = false)
    by (intros c Hc; apply contains_char_pretty; auto).
  revert H. generalize (pretty n). intros s. induction s as [|c s IH]; intros H; [done|]. cbn [str_any].
  destruct (128 <=? N_of_ascii c)%N eqn:E.
  - exfalso. specialize (H c E). unfold contains_char in H. cbn [str_any] in H. by rewrite Ascii.eqb_refl in H.
  - apply IH. intros d Hd'. specialize (H d Hd'). unfold contains_char in *. cbn [str_any] in H.
    by apply orb_false_iff in H as [_ H].
Qed.

Lemma utf8_valid_pretty (n : N) : utf8_valid (pretty n) = true.
Proof. apply ascii_valid, pretty_ascii. Qed.

Lemma evidence_location_valid m :
  match em_file_path m with Some path => utf8_valid path = true | None => True end → utf8_valid (evidence_location m) = true.
Proof.
  intros Hp. unfold evidence_location.
  assert (Hd : utf8_valid (default "<unknown>" (em_file_path m)) = true) by (by destruct (em_file_path m)).
  assert (Hc : ∀ s, utf8_valid (":" +:+ s) = utf8_valid s) by (intros s; by apply utf8_valid_app).
  assert (Hm : ∀ s, utf8_valid ("-" +:+ s) = utf8_valid s) by (intros s; by apply utf8_valid_app).
  destruct (em_start_line m) as [start|], (em_end_line m) as [finish|]; [..|done|done];
    rewrite utf8_valid_app, Hc by done; [rewrite utf8_valid_app, Hm by apply utf8_valid_pretty|]; apply utf8_valid_pretty.
Qed.

Lemma join_valid sep parts :
  utf8_valid sep = true → Forall (λ s, utf8_valid s = true) parts → utf8_valid (join sep parts) = true.
Proof.
  intros Hsep. induction 1 as [|s parts Hs Hparts IH]; [done|]. destruct (decide (parts = [])) as [->|Hn]; [done|].
  rewrite join_first, !utf8_valid_app by done. done.
Qed.

Lemma markdown_node_text node : valid_node node → Forall cell_text (markdown_node_cells node).
Proof.
  intros (Hid & Hkey & Hlabel). repeat constructor; try (by apply escape_markdown_text).
  apply escape_markdown_text. by destruct (node_kind node).
Qed.

Lemma markdown_edge_text item : valid_item item → Forall cell_text (markdown_edge_cells item).
Proof.
  intros (Hid & Hs & Ht & Hev). repeat constructor; try apply f32_display_text; apply escape_markdown_text; try done.
  - by destruct (edge_kind (xe_edge item)).
  - by destruct (edge_status (xe_edge item)).
  - apply join_valid; [done|]. rewrite Forall_fmap. eapply Forall_impl; [exact Hev|]. intros m. apply evidence_location_valid.
Qed.

(** A loop that appends rows of cell texts appends one line per item, each with exactly the cells of its item. *)
Definition row_of (cells : list string) (row : string) : Prop :=
  contains_char (ascii_of_N 10) row = false ∧ table_cells false "" row = "" :: map (λ c, " " +:+ c +:+ " ") cells ++ [""].

Lemma row_line cells : Forall cell_text cells → cells ≠ [] → ∃ row, markdown_row cells = row +:+ NEWLINE ∧ row_of cells row.
Proof.
  intros Hall Hne. destruct (row_cells cells Hall Hne) as (row & Hrow & Hcells). exists row. split; [done|]. split; [|done].
  unfold markdown_row in Hrow. rewrite !string_app_assoc in Hrow. apply string_app_inj_r in Hrow. subst row.
  rewrite !contains_char_app.
  assert (Hj : contains_char (ascii_of_N 10) (join " | " cells) = false).
  { clear Hne Hcells. induction Hall as [|c cells Hc _ IH]; [done|]. destruct (decide (cells = [])) as [->|Hn].
    - by apply cell_text_line.
    - rewrite join_first, !contains_char_app, IH, cell_text_line by done. done. }
  by rewrite Hj.
Qed.

Lemma rows_appended {A} (cells : A → list string) output items :
  (∀ item, item ∈ items → Forall cell_text (cells item) ∧ cells item ≠ []) →
  ∃ rows, foldl (λ output item, output +:+ markdown_row (cells item)) output items
            = output +:+ foldr (λ row t, row +:+ NEWLINE +:+ t) "" rows ∧
    Forall2 (λ item row, row_of (cells item) row) items rows.
Proof.
  intros Hall. rewrite fold_text. cut (∃ rows, foldr (λ item t, markdown_row (cells item) +:+ t) "" items
      = foldr (λ row t, row +:+ NEWLINE +:+ t) "" rows ∧ Forall2 (λ item row, row_of (cells item) row) items rows).
  { intros (rows & -> & H). eauto. }
  induction items as [|item items IH]; [by exists []|].
  destruct IH as (rows & Hrows & Hf); [intros x Hx; apply Hall; by right|].
  destruct (Hall item) as [Htext Hne]; [by left|]. destruct (row_line _ Htext Hne) as (row & Hrow & Hof).
  exists (row :: rows). split; [|by constructor]. cbn [foldr]. rewrite Hrows, Hrow. by rewrite <-string_app_assoc.
Qed.

(** ** Theorems *)
Section theorems.
Context (print_json : JsonExport → option string).

(** C25: a successful export renders the first nodes in the order of stable keys and identifiers and, of the edges
    between two exported nodes, the first in the order of identifiers, each with exactly the observed evidence it names;
    it counts what it leaves out, is truncated exactly when it leaves something out, and warns of exactly the edges
    with a missing endpoint and the references to evidence that was not observed. *)
Theorem export_exact nodes edges evidence request report :
  export_graph print_json nodes edges evidence request = Ok report →
  ∃ ns es,
    first_in_order node_order (xr_max_nodes request) nodes ns ∧
    first_in_order edge_id_order (xr_max_edges request)
      (filter (λ edge, edge_source edge ∈ map node_id ns ∧ edge_target edge ∈ map node_id ns) edges) (map xe_edge es) ∧
    (∀ item m, item ∈ es → m ∈ xe_evidence item ↔
       ∃ ev, ev ∈ evidence ∧ ev_id ev ∈ edge_evidence (xe_edge item) ∧ m = evidence_metadata ev) ∧
    render print_json (xr_format request) ns es = Ok (xp_content report) ∧
    xp_exported_nodes report = len ns ∧ (xp_omitted_nodes report + len ns = len nodes)%N ∧
    xp_exported_edges report = len es ∧ (xp_omitted_edges report + len es = len edges)%N ∧
    (xp_truncated report = false ↔ ns ≡ₚ nodes ∧ map xe_edge es ≡ₚ edges) ∧
    (∀ w, w ∈ xp_warnings report ↔ ∃ edge, edge ∈ edges ∧
      ((edge_source edge ∉ map node_id nodes ∨ edge_target edge ∉ map node_id nodes) ∧
         w = warning "export.dangling_edge" ("Edge `" +:+ edge_id edge +:+ "` was omitted because an endpoint is missing.")
       ∨ ∃ id, id ∈ edge_evidence edge ∧ id ∉ map ev_id evidence ∧
         w = warning "export.evidence_not_observed"
               ("Evidence `" +:+ id +:+ "` referenced by edge `" +:+ edge_id edge +:+ "` was not observed."))).
Proof.
  unfold export_graph. rewrite !check_Ok. intros (_ & _ & (node_index & Hni & Hrest)%result_bind_Ok).
  apply result_bind_Ok in Hrest as (edge_index & _ & (evidence_index & Hvi & (content & Hcontent & [= <-])%result_bind_Ok)%result_bind_Ok).
  apply index_by_indexes in Hni, Hvi. simpl.
  set (ns := select_nodes nodes (xr_max_nodes request)) in *.
  set (es := select_edges evidence_index (eligible_edges (list_to_set (map node_id ns)) edges) (xr_max_edges request)) in *.
  assert (Hns : first_in_order node_order (xr_max_nodes request) nodes ns) by (apply first_in_order_take, _).
  assert (Hes : first_in_order edge_id_order (xr_max_edges request)
      (filter (λ edge, edge_source edge ∈ map node_id ns ∧ edge_target edge ∈ map node_id ns) edges) (map xe_edge es)).
  { unfold es. rewrite select_edges_edges, eligible_edges_filter. erewrite list_filter_iff; [apply first_in_order_take, _|].
    intros edge. simpl. by rewrite !elem_of_list_to_set. }
  exists ns, es. assert (Hln : (len ns ≤ len nodes)%N) by (destruct Hns as (_ & rest & _ & -> & _); lia).
  assert (Hle : (len es ≤ len edges)%N).
  { destruct Hes as (_ & rest & _ & Hl & _). unfold len in *. rewrite length_map in Hl.
    pose proof (length_filter (λ edge, edge_source edge ∈ map node_id ns ∧ edge_target edge ∈ map node_id ns) edges). lia. }
  split_and!; [done|done| |done|done|lia|done|lia| |].
  - intros item m (edge & -> & _)%list_elem_of_fmap. simpl. by apply evidence_for_edge_exact.
  - rewrite orb_false_iff, !N.ltb_ge. split.
    + intros [Hn He]. split; [apply (first_in_order_all _ _ _ _ Hns); lia|].
      destruct Hes as (Hs & rest & Hp & Hl & Hx). apply Permutation_length in Hp as Hpl. rewrite length_app in Hpl.
      pose proof (length_filter (λ edge, edge_source edge ∈ map node_id ns ∧ edge_target edge ∈ map node_id ns) edges) as Hf.
      unfold len in *. rewrite length_map in *. destruct rest; [|simpl in *; lia]. rewrite app_nil_r in Hp. rewrite Hp.
      rewrite full_filter; [done|simpl in Hpl; lia].
    + intros [Hn%Permutation_length He%Permutation_length]. unfold len in *. rewrite length_map in He. lia.
  - intros w. by apply edge_warnings_In.
Qed.

(** The export is refused exactly for a bound that is out of range, a repeated identifier, or a document that cannot be
    printed; the GraphML and Markdown exports of a graph with distinct identifiers never fail. *)
Theorem export_total nodes edges evidence request :
  (1 ≤ xr_max_nodes request ≤ MAX_EXPORT_NODES)%N → (1 ≤ xr_max_edges request ≤ MAX_EXPORT_EDGES)%N →
  NoDup (map node_id nodes) → NoDup (map edge_id edges) → NoDup (map ev_id evidence) →
  xr_format request ≠ EF_Json ∨ (∀ document, is_Some (print_json document)) →
  ∃ report, export_graph print_json nodes edges evidence request = Ok report.
Proof.
  intros Hn He Hnd Hed Hvd Hprint. unfold export_graph.
  rewrite (proj2 (validate_bound_Ok _ _ _) Hn), (proj2 (validate_bound_Ok _ _ _) He). simpl.
  destruct (index_by_total "node" node_id nodes Hnd) as (node_index & Hni & _).
  destruct (index_by_total "edge" edge_id edges Hed) as (edge_index & Hei & _).
  destruct (index_by_total "evidence" ev_id evidence Hvd) as (evidence_index & Hvi & _).
  unfold index_nodes, index_edges, index_evidence. rewrite Hni, Hei, Hvi. simpl.
  destruct (xr_format request); simpl; [|by eexists..]. destruct Hprint as [|Hprint]; [done|].
  unfold render_json. match goal with |- context [print_json ?d] => destruct (Hprint d) as [text ->] end. by eexists.
Qed.
End theorems.

(** C28: in the Markdown export every node is one row of exactly four cells and every edge one row of exactly seven,
    whatever the identifiers, keys, labels and paths hold: no text ends its cell or its row. *)
Theorem markdown_rows_exact nodes edges :
  (∀ node, node ∈ nodes → valid_node node) → (∀ item, item ∈ edges → valid_item item) →
  ∃ node_rows edge_rows,
    render_markdown nodes edges
      = markdown_nodes_header +:+ foldr (λ row t, row +:+ NEWLINE +:+ t) "" node_rows
        +:+ markdown_edges_header +:+ foldr (λ row t, row +:+ NEWLINE +:+ t) "" edge_rows ∧
    Forall2 (λ node row, row_of (markdown_node_cells node) row ∧ length (table_cells false "" row) = 6%nat) nodes node_rows ∧
    Forall2 (λ item row, row_of (markdown_edge_cells item) row ∧ length (table_cells false "" row) = 9%nat) edges edge_rows.
Proof.
  intros Hn He. unfold render_markdown.
  destruct (rows_appended markdown_node_cells markdown_nodes_header nodes) as (node_rows & -> & Hnodes).
  { intros node Hin. split; [by apply markdown_node_text, Hn|done]. }
  match goal with |- context [foldl _ ?output edges] =>
    destruct (rows_appended markdown_edge_cells output edges) as (edge_rows & -> & Hedges) end.
  { intros item Hin. split; [by apply markdown_edge_text, He|done]. }
  exists node_rows, edge_rows. split; [by rewrite <-!string_app_assoc|].
  split; [eapply Forall2_impl; [exact Hnodes|]|eapply Forall2_impl; [exact Hedges|]];
    intros item row [Hline Hcells]; (split; [by split|]); by rewrite Hcells.
Qed.

Module Example_export.
Definition shop : Node :=
  {| node_id := "node:1"; node_kind := NK_HttpOperation; node_repo_id := Some "repo:shop"; node_stable_key := "http:GET /orders";
     node_label := "GET | /orders" |}.
Definition client : Node :=
  {| node_id := "node:2"; node_kind := NK_SymbolRef; node_repo_id := Some "repo:web"; node_stable_key := "symbol:load";
     node_label := "load<T>" |}.
Definition call : Edge :=
  {| edge_id := "edge:1"; edge_source := "node:2"; edge_target := "node:1"; edge_kind := CallsRemote;
     edge_confidence := f32_lit 3 (-2); edge_status := Confirmed; edge_evidence := ["ev:1"; "ev:2"] |}.
Definition dangling : Edge :=
  {| edge_id := "edge:2"; edge_source := "node:2"; edge_target := "node:9"; edge_kind := CallsRemote;
     edge_confidence := f32_lit 1 0; edge_status := Confirmed; edge_evidence := [] |}.
Definition seen : Evidence :=
  {| ev_id := "ev:1"; ev_repo_id := Some "repo:web"; ev_file_path := Some "src/load_all.ts"; ev_start_line := Some 4%N;
     ev_end_line := Some 6%N; ev_extractor := "typescript"; ev_extractor_version := "1"; ev_provenance := Prov_Extracted;
     ev_confidence := f32_lit 1 0; ev_observed_at_commit := None; ev_content_hash := None; ev_note := Some "private" |}.
Definition request (format : ExportFormat) : ExportRequest := {| xr_format := format; xr_max_nodes := 5; xr_max_edges := 5 |}.

(** The Markdown rows of the graph: the pipe and the underscore of the texts are escaped. *)
Example exported_rows :
  map (λ node, markdown_row (markdown_node_cells node)) [shop]
    = ["| node:1 | http\_operation | http:GET /orders | GET \| /orders |" +:+ NEWLINE] ∧
  map (λ item, markdown_row (markdown_edge_cells item)) (select_edges {["ev:1" := seen]} [call] 5)
    = ["| edge:1 | node:2 | node:1 | calls\_remote | confirmed | 0.75 | src/load\_all\.ts:4\-6 |" +:+ NEWLINE].
Proof. vm_compute. done. Qed.

Example exported_counts :
  match export_graph (λ _, None) [client; shop] [dangling; call] [seen] (request EF_GraphMl) with
  | Ok report =>
      (xp_exported_nodes report, xp_exported_edges report, xp_omitted_edges report, xp_truncated report,
       map w_code (xp_warnings report))
      = (2%N, 1%N, 1%N, true, ["export.dangling_edge"; "export.evidence_not_observed"])
  | Err _ => False
  end.
Proof. vm_compute. done. Qed.

Lemma export_exact_witness :
  ∃ report, export_graph (λ _, None) [client; shop] [dangling; call] [seen] (request EF_Markdown) = Ok report ∧
  ∃ ns es, first_in_order node_order 5 [client; shop] ns ∧ render (λ _, None) EF_Markdown ns es = Ok (xp_content report).
Proof.
  eexists. split; [vm_compute; reflexivity|].
  match goal with |- ∃ ns es, _ ∧ _ = Ok (xp_content ?r) =>
    destruct (export_exact (λ _, None) [client; shop] [dangling; call] [seen] (request EF_Markdown) r) as (ns & es & H) end;
    [vm_compute; reflexivity|].
  exists ns, es. split; [exact (proj1 H)|exact (proj1 (proj2 (proj2 (proj2 H))))].
Defined.

Lemma markdown_rows_exact_witness :
  valid_node shop ∧ ∃ node_rows edge_rows,
    render_markdown [shop] []
      = markdown_nodes_header +:+ foldr (λ row t, row +:+ NEWLINE +:+ t) "" node_rows
        +:+ markdown_edges_header +:+ foldr (λ row t, row +:+ NEWLINE +:+ t) "" edge_rows ∧
    length node_rows = 1%nat.
Proof.
  assert (Hv : valid_node shop) by (vm_compute; done). split; [done|].
  destruct (markdown_rows_exact [shop] []) as (node_rows & edge_rows & E & Hn & _).
  - by intros node ->%list_elem_of_singleton.
  - intros item H. by apply not_elem_of_nil in H.
  - exists node_rows, edge_rows. split; [exact E|]. apply Forall2_length in Hn. symmetry. exact Hn.
Defined.
End Example_export.
