(* ===== verification/ContractInspect.v ===== *)
(** * Contract operations ([crates/code-system-graph-core/src/interfaces/contracts.rs])

    Listing, showing, validating, comparing and linking the contract nodes of a graph,
    with the issues that the integrity of the graph and of its evidence raises. *)
From stdpp Require Import base gmap sets list strings sorting.
From S2P Require Import Prelude RustOrd RustFloat RustStr Model Compat Interface.

(** ** Requests and reports *)
Definition CONTRACT_NODE_KINDS : list NodeKind :=
  [NK_Package; NK_HttpOperation; NK_GraphqlOperation; NK_RpcMethod; NK_EventChannel; NK_EventSchema; NK_Database;
   NK_DatabaseTable; NK_DatabaseColumn].

Record ContractRequest := {
  ctr_action : ContractAction;
  ctr_contract : option NodeId;
  ctr_related_contract : option NodeId;
  ctr_limit : N;
}.
Definition default_contract_request : ContractRequest :=
  {| ctr_action := CA_List; ctr_contract := None; ctr_related_contract := None; ctr_limit := 100 |}.

Record ContractCompatibility := { cc_contract_id : NodeId; cc_report : CompatibilityReport }.
Record ContractLink := { cl_edge : Edge; cl_evidence : list EvidenceMetadata }.
Record ContractView := { cv_contract : Node; cv_links : list ContractLink }.
Record ContractFinding := {
  ctf_code : string;
  ctf_path : string;
  ctf_status : CompatibilityStatus;
  ctf_factors : list string;
  ctf_recommended_validations : list string;
}.
Record ContractCompatibilitySummary := {
  cs_contract_id : NodeId;
  cs_status : CompatibilityStatus;
  cs_before_fingerprint : string;
  cs_after_fingerprint : string;
  cs_findings : list ContractFinding;
}.
Record ContractDifference := { cdf_field : string; cdf_before : option string; cdf_after : option string }.

Inductive ContractIssueSeverity := CIS_Unknown | CIS_Warning | CIS_Error.
#[export] Instance ContractIssueSeverity_eq_dec : EqDecision ContractIssueSeverity.
Proof. solve_decision. Defined.

Record ContractIssue := {
  is_code : string;
  is_severity : ContractIssueSeverity;
  is_entity_id : option string;
  is_message : string;
}.
#[export] Instance ContractIssue_eq_dec : EqDecision ContractIssue.
Proof. solve_decision. Defined.

Record ContractReport := {
  crp_schema_version : N;
  crp_result_version : N;
  crp_action : ContractAction;
  crp_contracts : list ContractView;
  crp_links : list ContractLink;
  crp_compatibility : list ContractCompatibilitySummary;
  crp_differences : list ContractDifference;
  crp_issues : list ContractIssue;
  crp_valid : option bool;
  crp_complete : bool;
  crp_truncated : bool;
}.

Record ContractContext := {
  cx_nodes : gmap NodeId Node;
  cx_contract_ids : gset NodeId;
  cx_edges : gmap EdgeId Edge;
  cx_evidence_edges : gmap EvidenceId (gset EdgeId);
  cx_evidence : gmap EvidenceId Evidence;
  cx_compatibility : list ContractCompatibility;
}.

Record ContractSelection := {
  sel_contracts : list ContractView;
  sel_links : list ContractLink;
  sel_compatibility : list ContractCompatibilitySummary;
  sel_differences : list ContractDifference;
  sel_valid : option bool;
  sel_complete : bool;
  sel_truncated : bool;
}.

Definition complete_selection : ContractSelection :=
  {| sel_contracts := []; sel_links := []; sel_compatibility := []; sel_differences := []; sel_valid := None;
     sel_complete := true; sel_truncated := false |}.

(** ** Contracts *)
Definition is_contract_kind (kind : NodeKind) : bool := bool_decide (kind ∈ CONTRACT_NODE_KINDS).

Definition contract_order : Node → Node → comparison := then_with (cmp_on node_stable_key cmp) (cmp_on node_id cmp).
#[export] Instance contract_order_lawful : LawfulCmp contract_order.
Proof. unfold contract_order. apply _. Qed.

Definition ordered_contracts (nodes : gmap NodeId Node) : list Node :=
  sort_by contract_order (List.filter (λ node, is_contract_kind (node_kind node)) (btree_values nodes)).

Definition required_contract (request : ContractRequest) (related : bool) : result InterfaceError NodeId :=
  ok_or (if related then ctr_related_contract request else ctr_contract request)
    (MissingContractField (ctr_action request) (if related then "related_contract" else "contract")).

Definition require_contract (nodes : gmap NodeId Node) (contracts : gset NodeId) (id : NodeId)
    : result InterfaceError Node :=
  if negb (bool_decide (id ∈ contracts)) then Err (NotFound id) else ok_or (nodes !! id) (NotFound id).

(** ** Issues *)
Definition contract_issue (code : string) (severity : ContractIssueSeverity) (entity_id : option string)
    (message : string) : ContractIssue :=
  {| is_code := code; is_severity := severity; is_entity_id := entity_id; is_message := message |}.

Definition edge_issues (nodes : gmap NodeId Node) (evidence : gmap EvidenceId Evidence) (edge : Edge)
    : list ContractIssue :=
  flat_map (λ endpoint,
    if contains_key nodes endpoint then []
    else [contract_issue "contract.dangling_edge" CIS_Error (Some (edge_id edge))
            ("Edge `" +:+ edge_id edge +:+ "` references missing node `" +:+ endpoint +:+ "`.")])
    [edge_source edge; edge_target edge]
  ++ (if negb (f32_in_unit (edge_confidence edge))
      then [contract_issue "contract.invalid_confidence" CIS_Error (Some (edge_id edge))
              "Edge confidence is not finite and within the inclusive range 0..=1."]
      else [])
  ++ (if negb (bool_decide (edge_status edge = Confirmed))
      then [contract_issue "contract.unresolved_link" CIS_Unknown (Some (edge_id edge))
              "The relationship is not confirmed and cannot prove a contract link."]
      else [])
  ++ flat_map (λ evidence_id,
       if contains_key evidence evidence_id then []
       else [contract_issue "contract.evidence_not_observed" CIS_Unknown (Some (edge_id edge))
               ("Referenced evidence `" +:+ evidence_id +:+ "` was not observed.")])
       (edge_evidence edge).

Definition evidence_issues (item : Evidence) : list ContractIssue :=
  if negb (f32_in_unit (ev_confidence item))
  then [contract_issue "contract.invalid_evidence_confidence" CIS_Error (Some (ev_id item))
          "Evidence confidence is not finite and within the inclusive range 0..=1."]
  else [].

Definition validate_contract_inputs (nodes : gmap NodeId Node) (edges : gmap EdgeId Edge)
    (evidence : gmap EvidenceId Evidence) : list ContractIssue :=
  flat_map (edge_issues nodes evidence) (btree_values edges) ++ flat_map evidence_issues (btree_values evidence).

Definition issue_severity_rank (severity : ContractIssueSeverity) : N :=
  match severity with CIS_Error => 0 | CIS_Unknown => 1 | CIS_Warning => 2 end%N.

Definition issue_order : ContractIssue → ContractIssue → comparison :=
  then_with (then_with (then_with (cmp_on (λ issue, issue_severity_rank (is_severity issue)) cmp) (cmp_on is_code cmp))
    (cmp_on is_entity_id cmp)) (cmp_on is_message cmp).
#[export] Instance issue_order_lawful : LawfulCmp issue_order.
Proof. unfold issue_order. apply _. Qed.

Definition touches (contract_id : NodeId) (edge : Edge) : bool :=
  String.eqb (edge_source edge) contract_id || String.eqb (edge_target edge) contract_id.

(** [index.entry(evidence_id).or_default().insert(edge.id)] for every evidence of an edge. *)
Definition insert_incident (edge : Edge) (index : gmap EvidenceId (gset EdgeId)) (evidence_id : EvidenceId)
    : gmap EvidenceId (gset EdgeId) :=
  <[evidence_id := {[edge_id edge]} ∪ default ∅ (index !! evidence_id)]> index.

Definition insert_edge_evidence (index : gmap EvidenceId (gset EdgeId)) (edge : Edge) : gmap EvidenceId (gset EdgeId) :=
  foldl (insert_incident edge) index (edge_evidence edge).

Definition index_evidence_edges (edges : gmap EdgeId Edge) : gmap EvidenceId (gset EdgeId) :=
  foldl insert_edge_evidence ∅ (btree_values edges).

Definition issue_applies_to (issue : ContractIssue) (contract_id : NodeId) (edges : gmap EdgeId Edge)
    (evidence_edges : gmap EvidenceId (gset EdgeId)) : bool :=
  is_some_and (is_entity_id issue) (λ entity_id,
    String.eqb entity_id contract_id
    || is_some_and (edges !! entity_id) (touches contract_id)
    || is_some_and (evidence_edges !! entity_id) (λ incident,
         existsb (λ edge_id, is_some_and (edges !! edge_id) (touches contract_id)) (bset_elements incident))).

(** ** Links *)
Definition link_from_edge (evidence : gmap EvidenceId Evidence) (edge : Edge) : ContractLink :=
  {| cl_edge := edge; cl_evidence := evidence_for_edge edge evidence |}.

Definition links_for_node (id : NodeId) (edges : gmap EdgeId Edge) (evidence : gmap EvidenceId Evidence) (limit : N)
    : list ContractLink * bool :=
  let matching := List.filter (touches id) (btree_values edges) in
  (map (link_from_edge evidence) (take (N.to_nat limit) matching), (limit <? len matching)%N).

(** ** Compatibility *)
Definition contract_finding_order : ContractFinding → ContractFinding → comparison :=
  then_with (cmp_on ctf_path cmp) (cmp_on ctf_code cmp).

Definition compatibility_summary (value : ContractCompatibility) : ContractCompatibilitySummary :=
  let findings :=
    map (λ finding, {| ctf_code := cf_code finding; ctf_path := cf_path finding; ctf_status := cf_status finding;
                       ctf_factors := cf_factors finding;
                       ctf_recommended_validations := cf_recommended_validations finding |})
      (cr_findings (cc_report value)) in
  {| cs_contract_id := cc_contract_id value;
     cs_status := cr_status (cc_report value);
     cs_before_fingerprint := cr_before_fingerprint (cc_report value);
     cs_after_fingerprint := cr_after_fingerprint (cc_report value);
     cs_findings := sort_by contract_finding_order findings |}.

Definition summary_id_order : ContractCompatibilitySummary → ContractCompatibilitySummary → comparison :=
  cmp_on cs_contract_id cmp.

Definition select_summaries (ids : list NodeId) (compatibility : list ContractCompatibility)
    : list ContractCompatibilitySummary :=
  dedup_by (λ left right, String.eqb (cs_contract_id left) (cs_contract_id right))
    (sort_by summary_id_order
      (map compatibility_summary (List.filter (λ item, bool_decide (cc_contract_id item ∈ ids)) compatibility))).

(** The summaries, the issues and whether the result is still complete. *)
Definition compatibility_for (ids : list NodeId) (compatibility : list ContractCompatibility)
    (issues : list ContractIssue) (complete : bool) : list ContractCompatibilitySummary * list ContractIssue * bool :=
  let selected := select_summaries ids compatibility in
  let '(issues, complete) :=
    foldl (λ state id,
      if existsb (λ item, String.eqb (cs_contract_id item) id) selected then state
      else (state.1 ++ [contract_issue "contract.compatibility_not_observed" CIS_Unknown (Some id)
                          "Compatibility was not supplied for the selected contract."], false))
      (issues, complete) ids in
  (selected, issues, complete).

Definition difference (field : string) (before after : option string) : ContractDifference :=
  {| cdf_field := field; cdf_before := before; cdf_after := after |}.

Definition contract_differences (before after : Node) : list ContractDifference :=
  (if bool_decide (node_kind before ≠ node_kind after)
   then [difference "kind" (Some (node_kind_name (node_kind before))) (Some (node_kind_name (node_kind after)))] else [])
  ++ (if bool_decide (node_repo_id before ≠ node_repo_id after)
      then [difference "repo_id" (node_repo_id before) (node_repo_id after)] else [])
  ++ (if bool_decide (node_stable_key before ≠ node_stable_key after)
      then [difference "stable_key" (Some (node_stable_key before)) (Some (node_stable_key after))] else [])
  ++ (if bool_decide (node_label before ≠ node_label after)
      then [difference "label" (Some (node_label before)) (Some (node_label after))] else []).

(** ** The operations *)
Definition bare_view (node : Node) : ContractView := {| cv_contract := node; cv_links := [] |}.

Definition select_contract_list (context : ContractContext) (limit : N) : ContractSelection :=
  let ordered := ordered_contracts (cx_nodes context) in
  {| sel_contracts := map bare_view (take (N.to_nat limit) ordered);
     sel_links := [];
     sel_compatibility := [];
     sel_differences := [];
     sel_valid := None;
     sel_complete := true;
     sel_truncated := (limit <? len ordered)%N |}.

Definition applies (context : ContractContext) (id : NodeId) (issue : ContractIssue) : bool :=
  issue_applies_to issue id (cx_edges context) (cx_evidence_edges context).

Definition select_contract_show (context : ContractContext) (request : ContractRequest) (issues : list ContractIssue)
    : result InterfaceError (ContractSelection * list ContractIssue) :=
  let? id := required_contract request false in
  let? node := require_contract (cx_nodes context) (cx_contract_ids context) id in
  let issues := List.filter (applies context id) issues in
  let '(links, truncated) := links_for_node id (cx_edges context) (cx_evidence context) (ctr_limit request) in
  let '(compatibility, issues, complete) := compatibility_for [id] (cx_compatibility context) issues true in
  Ok ({| sel_contracts := [{| cv_contract := node; cv_links := links |}];
         sel_links := [];
         sel_compatibility := compatibility;
         sel_differences := [];
         sel_valid := None;
         sel_complete := complete;
         sel_truncated := truncated |}, issues).

Definition has_severity (severity : ContractIssueSeverity) (issue : ContractIssue) : bool :=
  bool_decide (is_severity issue = severity).

Definition select_contract_validation (context : ContractContext) (request : ContractRequest)
    (issues : list ContractIssue) : result InterfaceError (ContractSelection * list ContractIssue) :=
  let? selected :=
    match ctr_contract request with
    | Some id =>
        let? node := require_contract (cx_nodes context) (cx_contract_ids context) id in
        Ok ([bare_view node], List.filter (applies context id) issues)
    | None => Ok ([], issues)
    end in
  let '(contracts, issues) := selected in
  let conclusive := negb (existsb (has_severity CIS_Unknown) issues) in
  Ok ({| sel_contracts := contracts;
         sel_links := [];
         sel_compatibility := [];
         sel_differences := [];
         sel_valid := Some (conclusive && negb (existsb (has_severity CIS_Error) issues));
         sel_complete := conclusive;
         sel_truncated := false |}, issues).

Definition select_contract_diff (context : ContractContext) (request : ContractRequest) (issues : list ContractIssue)
    : result InterfaceError (ContractSelection * list ContractIssue) :=
  let? before_id := required_contract request false in
  let? after_id := required_contract request true in
  let? before := require_contract (cx_nodes context) (cx_contract_ids context) before_id in
  let? after := require_contract (cx_nodes context) (cx_contract_ids context) after_id in
  let issues := List.filter (λ issue, applies context before_id issue || applies context after_id issue) issues in
  let '(compatibility, issues, complete) :=
    compatibility_for [before_id; after_id] (cx_compatibility context) issues true in
  Ok ({| sel_contracts := [bare_view before; bare_view after];
         sel_links := [];
         sel_compatibility := compatibility;
         sel_differences := contract_differences before after;
         sel_valid := None;
         sel_complete := complete;
         sel_truncated := false |}, issues).

Definition joins (source_id target_id : NodeId) (edge : Edge) : bool :=
  (String.eqb (edge_source edge) source_id && String.eqb (edge_target edge) target_id)
  || (String.eqb (edge_source edge) target_id && String.eqb (edge_target edge) source_id).

Definition link_id_order : ContractLink → ContractLink → comparison := cmp_on (λ link, edge_id (cl_edge link)) cmp.
#[export] Instance link_id_order_lawful : LawfulCmp link_id_order.
Proof. unfold link_id_order. apply _. Qed.

Definition select_contract_link (context : ContractContext) (request : ContractRequest) (issues : list ContractIssue)
    : result InterfaceError (ContractSelection * list ContractIssue) :=
  let? source_id := required_contract request false in
  let? target_id := required_contract request true in
  let? source := require_contract (cx_nodes context) (cx_contract_ids context) source_id in
  let? target := require_contract (cx_nodes context) (cx_contract_ids context) target_id in
  let issues := List.filter (λ issue, applies context source_id issue || applies context target_id issue) issues in
  let matching :=
    sort_by link_id_order
      (map (link_from_edge (cx_evidence context))
         (List.filter (joins source_id target_id) (btree_values (cx_edges context)))) in
  let links := take (N.to_nat (ctr_limit request)) matching in
  let missing := is_empty_list links in
  Ok ({| sel_contracts := [bare_view source; bare_view target];
         sel_links := links;
         sel_compatibility := [];
         sel_differences := [];
         sel_valid := None;
         sel_complete := negb missing;
         sel_truncated := (ctr_limit request <? len matching)%N |},
      if missing
      then issues ++ [contract_issue "contract.link_not_observed" CIS_Unknown None
                        "No direct link was observed; absence is not proof of independence."]
      else issues).

Definition select_contract_action (context : ContractContext) (request : ContractRequest) (issues : list ContractIssue)
    : result InterfaceError (ContractSelection * list ContractIssue) :=
  match ctr_action request with
  | CA_List => Ok (select_contract_list context (ctr_limit request), issues)
  | CA_Show => select_contract_show context request issues
  | CA_Validate => select_contract_validation context request issues
  | CA_Diff => select_contract_diff context request issues
  | CA_ExplainLink => select_contract_link context request issues
  end.

Definition contract_context (node_index : gmap NodeId Node) (edge_index : gmap EdgeId Edge)
    (evidence_index : gmap EvidenceId Evidence) (compatibility : list ContractCompatibility) : ContractContext :=
  {| cx_nodes := node_index;
     cx_contract_ids :=
       list_to_set (map node_id (List.filter (λ node, is_contract_kind (node_kind node)) (btree_values node_index)));
     cx_edges := edge_index;
     cx_evidence_edges := index_evidence_edges edge_index;
     cx_evidence := evidence_index;
     cx_compatibility := compatibility |}.

(** The report of a selection and its issues. *)
Definition finish_report (request : ContractRequest) (selected : ContractSelection) (issues : list ContractIssue)
    : ContractReport :=
  let issues :=
    if bool_decide (ctr_action request = CA_List) then List.filter (has_severity CIS_Error) issues else issues in
  let complete :=
    if existsb (λ issue, bool_decide (is_severity issue ≠ CIS_Warning)) issues then false else sel_complete selected in
  let issues := dedup_by (λ a b, bool_decide (a = b)) (sort_by issue_order issues) in
  let exceeded := (ctr_limit request <? len issues)%N in
  {| crp_schema_version := INTERFACE_SCHEMA_VERSION;
     crp_result_version := INTERFACE_RESULT_VERSION;
     crp_action := ctr_action request;
     crp_contracts := sel_contracts selected;
     crp_links := sel_links selected;
     crp_compatibility := sel_compatibility selected;
     crp_differences := sel_differences selected;
     crp_issues := if exceeded then take (N.to_nat (ctr_limit request)) issues else issues;
     crp_valid := sel_valid selected;
     crp_complete := complete;
     crp_truncated := exceeded || sel_truncated selected |}.

Definition inspect_contracts (nodes : list Node) (edges : list Edge) (evidence : list Evidence)
    (compatibility : list ContractCompatibility) (request : ContractRequest) : result InterfaceError ContractReport :=
  check? validate_bound "contract result" (ctr_limit request) MAX_EXPORT_NODES in
  let? node_index := index_nodes nodes in
  let? evidence_index := index_evidence evidence in
  let? edge_index := index_edges edges in
  let context := contract_context node_index edge_index evidence_index compatibility in
  let issues := validate_contract_inputs node_index edge_index evidence_index in
  let? selected := select_contract_action context request issues in
  Ok (finish_report request selected.1 selected.2).

(** [contracts_workspace]: the graph and the evidence are the answers of the store. *)
Definition contracts_workspace {E} (graph : result E (list Node * list Edge)) (evidence : result E (list Evidence))
    (interface_error : InterfaceError → E) (request : ContractRequest) : result E ContractReport :=
  let? graph := graph in
  let? evidence := evidence in
  match inspect_contracts graph.1 graph.2 evidence [] request with
  | Ok report => Ok report
  | Err e => Err (interface_error e)
  end.

(** ** What the issues claim, stated on the graph *)
Section graph.
Context (nodes : list Node) (edges : list Edge) (evidence : list Evidence).

(** A relationship that proves a contract link. *)
Definition sound_edge (edge : Edge) : Prop :=
  edge_source edge ∈ map node_id nodes ∧ edge_target edge ∈ map node_id nodes ∧
  f32_in_unit (edge_confidence edge) = true ∧ edge_status edge = Confirmed ∧
  ∀ id, id ∈ edge_evidence edge → id ∈ map ev_id evidence.

Definition sound_evidence (item : Evidence) : Prop := f32_in_unit (ev_confidence item) = true.

(** The entities whose issues concern a contract: the contract, the edges at it and the evidence of those edges. *)
Definition concerns (contract entity : string) : Prop :=
  entity = contract ∨
  (∃ edge, edge ∈ edges ∧ edge_id edge = entity ∧ (edge_source edge = contract ∨ edge_target edge = contract)) ∨
  (∃ edge, edge ∈ edges ∧ entity ∈ edge_evidence edge ∧ (edge_source edge = contract ∨ edge_target edge = contract)).

Context (node_index : gmap NodeId Node) (edge_index : gmap EdgeId Edge) (evidence_index : gmap EvidenceId Evidence)
  (Hnodes : indexes node_id nodes node_index) (Hedges : indexes edge_id edges edge_index)
  (Hevidence : indexes ev_id evidence evidence_index).

Lemma node_contained id : contains_key node_index id = true ↔ id ∈ map node_id nodes.
Proof using Hnodes. rewrite (indexes_contains node_id nodes) by done. rewrite list_elem_of_fmap. naive_solver. Qed.

Lemma evidence_contained id : contains_key evidence_index id = true ↔ id ∈ map ev_id evidence.
Proof using Hevidence. rewrite (indexes_contains ev_id evidence) by done. rewrite list_elem_of_fmap. naive_solver. Qed.

(** An edge raises no issue exactly when it is sound. *)
Lemma edge_issues_none edge : edge_issues node_index evidence_index edge = [] ↔ sound_edge edge.
Proof using Hnodes Hevidence.
  unfold edge_issues, sound_edge. rewrite !app_nil, !flat_map_nil, <-!node_contained. setoid_rewrite elem_of_cons.
  setoid_rewrite elem_of_cons. setoid_rewrite elem_of_nil. setoid_rewrite <-evidence_contained. split.
  - intros (Hend & Hconf & Hstatus & Hev).
    pose proof (Hend (edge_source edge) ltac:(auto)) as Hs. pose proof (Hend (edge_target edge) ltac:(auto)) as Ht.
    destruct (contains_key node_index (edge_source edge)), (contains_key node_index (edge_target edge)); try done.
    destruct (f32_in_unit _); [|done]. case_bool_decide; [|done]. do 4 (split; [done|]).
    intros id Hid%Hev. by destruct (contains_key evidence_index id).
  - intros (Hs & Ht & Hconf & Hstatus & Hev). split; [intros x [->|[->|[]]]; by rewrite ?Hs, ?Ht|].
    rewrite Hconf, bool_decide_eq_true_2 by done. do 2 (split; [done|]). intros id ->%Hev. done.
Qed.

Lemma edge_issue_entity edge issue :
  issue ∈ edge_issues node_index evidence_index edge → is_entity_id issue = Some (edge_id edge) ∧ is_severity issue ≠ CIS_Warning.
Proof using.
  unfold edge_issues. rewrite !elem_of_app, !list_elem_of_In, !in_flat_map. intros H.
  repeat match goal with
  | H : _ ∨ _ |- _ => destruct H as [H|H]
  | H : ∃ _, _ |- _ => destruct H as (? & _ & H)
  | H : In _ (if ?b then _ else _) |- _ => destruct b
  | H : In _ [] |- _ => destruct H
  | H : In _ [_] |- _ => destruct H as [<-|[]]; done
  end.
Qed.

Lemma validated_In issue :
  issue ∈ validate_contract_inputs node_index edge_index evidence_index ↔
  (∃ edge, edge ∈ edges ∧ issue ∈ edge_issues node_index evidence_index edge) ∨
  (∃ item, item ∈ evidence ∧ issue ∈ evidence_issues item).
Proof using Hedges Hevidence.
  unfold validate_contract_inputs. rewrite elem_of_app, !list_elem_of_In, !in_flat_map. setoid_rewrite <-list_elem_of_In.
  setoid_rewrite (indexes_values edge_id edges edge_index _ Hedges).
  setoid_rewrite (indexes_values ev_id evidence evidence_index _ Hevidence). done.
Qed.

Lemma validated_severity issue :
  issue ∈ validate_contract_inputs node_index edge_index evidence_index → is_severity issue ≠ CIS_Warning.
Proof using Hedges Hevidence.
  rewrite validated_In. intros [(edge & _ & H%edge_issue_entity)|(item & _ & H)]; [tauto|].
  unfold evidence_issues in H. destruct (negb _); [|by apply not_elem_of_nil in H].
  by apply list_elem_of_singleton in H as ->.
Qed.

Lemma touches_spec contract edge : touches contract edge = true ↔ edge_source edge = contract ∨ edge_target edge = contract.
Proof using. unfold touches. by rewrite orb_true_iff, !String.eqb_eq. Qed.

(** The edges that an index records for an evidence identifier. *)
Definition recorded (index : gmap EvidenceId (gset EdgeId)) (id : EvidenceId) : gset EdgeId := default ∅ (index !! id).

Lemma insert_incident_In edge ids index id eid :
  eid ∈ recorded (foldl (insert_incident edge) index ids) id ↔ eid ∈ recorded index id ∨ (id ∈ ids ∧ eid = edge_id edge).
Proof using.
  revert index. induction ids as [|x ids IH]; intros index; simpl; [rewrite elem_of_nil; tauto|].
  rewrite IH, elem_of_cons. unfold recorded, insert_incident. destruct (decide (id = x)) as [->|Hne].
  - rewrite lookup_insert_eq. simpl. rewrite elem_of_union, elem_of_singleton. tauto.
  - rewrite lookup_insert_ne by done. naive_solver.
Qed.

Lemma evidence_edges_In l index id eid :
  eid ∈ recorded (foldl insert_edge_evidence index l) id ↔
  eid ∈ recorded index id ∨ ∃ edge, edge ∈ l ∧ id ∈ edge_evidence edge ∧ eid = edge_id edge.
Proof using.
  revert index. induction l as [|edge l IH]; intros index; simpl.
  - split; [by left|]. intros [H|(edge & H & _)]; [done|by apply not_elem_of_nil in H].
  - rewrite IH. unfold insert_edge_evidence. rewrite insert_incident_In. setoid_rewrite elem_of_cons. naive_solver.
Qed.

(** The filter of the issues keeps exactly those of the entities that concern the contract. *)
Lemma issue_applies_exact issue contract :
  issue_applies_to issue contract edge_index (index_evidence_edges edge_index) = true ↔
  ∃ entity, is_entity_id issue = Some entity ∧ concerns contract entity.
Proof using Hedges.
  unfold issue_applies_to. destruct (is_entity_id issue) as [entity|]; simpl; [|naive_solver].
  rewrite !orb_true_iff, String.eqb_eq.
  assert (Hlook : is_some_and (edge_index !! entity) (touches contract) = true ↔
    ∃ edge, edge ∈ edges ∧ edge_id edge = entity ∧ (edge_source edge = contract ∨ edge_target edge = contract)).
  { destruct Hedges as [_ Hix]. setoid_rewrite <-touches_spec. setoid_rewrite (and_assoc (_ ∈ edges)). setoid_rewrite <-Hix.
    destruct (edge_index !! entity) as [edge|]; simpl; naive_solver. }
  assert (Hev : is_some_and (index_evidence_edges edge_index !! entity) (λ incident,
      existsb (λ edge_id, is_some_and (edge_index !! edge_id) (touches contract)) (bset_elements incident)) = true ↔
    ∃ edge, edge ∈ edges ∧ entity ∈ edge_evidence edge ∧ (edge_source edge = contract ∨ edge_target edge = contract)).
  { pose proof (evidence_edges_In (btree_values edge_index) ∅ entity) as Hin.
    fold (index_evidence_edges edge_index) in Hin.
    setoid_rewrite (indexes_values edge_id edges edge_index _ Hedges) in Hin.
    transitivity (∃ eid, eid ∈ recorded (index_evidence_edges edge_index) entity ∧
      is_some_and (edge_index !! eid) (touches contract) = true).
    { unfold recorded. destruct (index_evidence_edges edge_index !! entity) as [incident|]; simpl.
      - rewrite existsb_In. by setoid_rewrite bset_elements_elem_of.
      - split; [done|]. intros (eid & H & _). by apply elem_of_empty in H. }
    destruct Hedges as [Hnd Hix]. setoid_rewrite Hin. setoid_rewrite <-touches_spec. split.
    - intros (eid & [H|(edge & He & Hid & ->)] & Ht); [by apply elem_of_empty in H|].
      rewrite (proj2 (Hix (edge_id edge) edge)) in Ht by done. simpl in Ht. eauto.
    - intros (edge & He & Hid & Ht). exists (edge_id edge). split; [right; eauto|].
      by rewrite (proj2 (Hix (edge_id edge) edge)). }
  unfold concerns. rewrite Hlook, Hev. naive_solver.
Qed.

(** The issues that concern a contract: none exactly when every edge and every evidence that concerns it is sound. *)
Lemma concerning_none contract :
  List.filter (λ issue, issue_applies_to issue contract edge_index (index_evidence_edges edge_index))
    (validate_contract_inputs node_index edge_index evidence_index) = [] ↔
  (∀ edge, edge ∈ edges → concerns contract (edge_id edge) → sound_edge edge) ∧
  (∀ item, item ∈ evidence → concerns contract (ev_id item) → sound_evidence item).
Proof using Hnodes Hedges Hevidence.
  assert (Hnil : ∀ l : list ContractIssue, l = [] ↔ ∀ x, x ∉ l).
  { intros [|x l]; split; try done; [intros _ y; apply not_elem_of_nil|]. intros H. exfalso. apply (H x). by left. }
  rewrite Hnil. setoid_rewrite list_filter_In. setoid_rewrite issue_applies_exact. setoid_rewrite validated_In. split.
  - intros H. split.
    + intros edge He Hc. apply edge_issues_none. apply Hnil. intros issue Hi. apply (H issue). split; [left; eauto|].
      exists (edge_id edge). split; [|done]. by apply edge_issue_entity in Hi as [-> _].
    + intros item Hit Hc. unfold sound_evidence. destruct (f32_in_unit (ev_confidence item)) eqn:E; [done|].
      exfalso. eapply H. split; [right; exists item; split; [done|]; unfold evidence_issues; rewrite E; by left|].
      exists (ev_id item). by split.
  - intros [Hed Hev] issue [[(edge & He & Hi)|(item & Hit & Hi)] (entity & Hent & Hc)].
    + pose proof (edge_issue_entity _ _ Hi) as [Hent' _]. rewrite Hent' in Hent. injection Hent as <-.
      apply Hed, edge_issues_none in Hc; [|done]. rewrite Hc in Hi. by apply not_elem_of_nil in Hi.
    + unfold evidence_issues in Hi. destruct (f32_in_unit (ev_confidence item)) eqn:E; [by apply not_elem_of_nil in Hi|].
      apply list_elem_of_singleton in Hi as ->. injection Hent as <-. apply Hev in Hc; [|done]. unfold sound_evidence in Hc. congruence.
Qed.

Lemma validated_none :
  validate_contract_inputs node_index edge_index evidence_index = [] ↔
  (∀ edge, edge ∈ edges → sound_edge edge) ∧ (∀ item, item ∈ evidence → sound_evidence item).
Proof using Hnodes Hedges Hevidence.
  unfold validate_contract_inputs. rewrite app_nil, !flat_map_nil.
  setoid_rewrite (indexes_values edge_id edges edge_index _ Hedges).
  setoid_rewrite (indexes_values ev_id evidence evidence_index _ Hevidence). setoid_rewrite edge_issues_none.
  apply and_iff_compat_l. apply forall_proper. intros item. unfold evidence_issues, sound_evidence.
  destruct (f32_in_unit (ev_confidence item)); simpl; naive_solver.
Qed.

(** A contract of the graph: a node of a contract kind. *)
Lemma require_contract_Ok compatibility id node :
  require_contract node_index (cx_contract_ids (contract_context node_index edge_index evidence_index compatibility)) id = Ok node ↔
  node ∈ nodes ∧ node_id node = id ∧ node_kind node ∈ CONTRACT_NODE_KINDS.
Proof using Hnodes.
  unfold require_contract. simpl.
  assert (Hin : id ∈ (list_to_set (map node_id (List.filter (λ node, is_contract_kind (node_kind node)) (btree_values node_index))) : gset NodeId)
    ↔ ∃ node, node ∈ nodes ∧ node_id node = id ∧ node_kind node ∈ CONTRACT_NODE_KINDS).
  { rewrite elem_of_list_to_set, list_elem_of_fmap. setoid_rewrite list_filter_In.
    setoid_rewrite (indexes_values node_id nodes node_index _ Hnodes). unfold is_contract_kind.
    setoid_rewrite bool_decide_eq_true. naive_solver. }
  destruct Hnodes as [Hnd Hix]. case_bool_decide as Hd; simpl.
  - rewrite ok_or_Ok, Hix. apply Hin in Hd as (other & Ho & Eo & Hk). split; [|naive_solver]. intros [Hn E].
    split_and!; [done|done|]. enough (node = other) as -> by done.
    apply (NoDup_map_inj node_id nodes); congruence.
  - split; [done|]. intros H. exfalso. apply Hd, Hin. eauto.
Qed.
End graph.

(** ** Reports *)
Lemma inspect_run nodes edges evidence compatibility request report :
  inspect_contracts nodes edges evidence compatibility request = Ok report →
  ∃ node_index edge_index evidence_index selected issues,
    indexes node_id nodes node_index ∧ indexes edge_id edges edge_index ∧ indexes ev_id evidence evidence_index ∧
    select_contract_action (contract_context node_index edge_index evidence_index compatibility) request
      (validate_contract_inputs node_index edge_index evidence_index) = Ok (selected, issues) ∧
    report = finish_report request selected issues.
Proof.
  unfold inspect_contracts. rewrite check_Ok. intros (_ & (node_index & Hn & Hrest)%result_bind_Ok).
  apply result_bind_Ok in Hrest as (evidence_index & Hv & (edge_index & He & ([selected issues] & Hs & [= <-])%result_bind_Ok)%result_bind_Ok).
  apply index_by_indexes in Hn, Hv, He. by exists node_index, edge_index, evidence_index, selected, issues.
Qed.

Lemma taken_In {A} (x : A) n l : x ∈ take n l → x ∈ l.
Proof. intros (i & Hi & _)%elem_of_take. by eapply list_elem_of_lookup_2. Qed.

Lemma first_In {A} (x : A) l : x ∈ x :: l.
Proof. left. Qed.

Lemma map_take_edges n (links : list ContractLink) : map cl_edge (take n links) = take n (map cl_edge links).
Proof. apply fmap_take. Qed.

Lemma first_in_order_perm {A} (c : A → A → comparison) n l l' k : l ≡ₚ l' → first_in_order c n l k → first_in_order c n l' k.
Proof.
  intros Hp (Hs & rest & Hk & Hl & Hr). split; [done|]. exists rest. split_and!; [by rewrite Hk|by rewrite Hl; unfold len; rewrite Hp|done].
Qed.

Lemma sorted_sublist {A} (R : A → A → Prop) k l : k `sublist_of` l → StronglySorted R l → StronglySorted R k.
Proof.
  induction 1 as [|x k l Hsub IH|x k l Hsub IH]; intros Hs; [constructor|..]; apply StronglySorted_inv in Hs as [Hs Hx];
    [|by apply IH]. constructor; [by apply IH|]. rewrite Forall_forall in *. intros y Hy. apply Hx. by eapply elem_of_sublist.
Qed.

Lemma filter_or_nil {A} (f g : A → bool) l :
  List.filter (λ x, f x || g x) l = [] ↔ List.filter f l = [] ∧ List.filter g l = [].
Proof. induction l as [|x l IH]; simpl; [done|]. destruct (f x), (g x); simpl; try (split; [done|naive_solver]). done. Qed.

(** Issues that are all of severity error or unknown are none exactly when none is an error and none unknown. *)
Lemma no_severe issues :
  (∀ issue, issue ∈ issues → is_severity issue ≠ CIS_Warning) →
  (existsb (λ issue, bool_decide (is_severity issue ≠ CIS_Warning)) issues = false ↔ issues = []).
Proof.
  intros Hall. rewrite existsb_false_In. split; [|intros -> issue H; by apply not_elem_of_nil in H].
  destruct issues as [|issue issues]; [done|]. intros H. exfalso. specialize (H issue (first_In _ _)).
  apply bool_decide_eq_false in H. apply H, Hall. left.
Qed.

Lemma conclusive_valid issues :
  (∀ issue, issue ∈ issues → is_severity issue ≠ CIS_Warning) →
  negb (existsb (has_severity CIS_Unknown) issues) && negb (existsb (has_severity CIS_Error) issues) = true ↔ issues = [].
Proof.
  intros Hall. rewrite andb_true_iff, !negb_true_iff, !existsb_false_In. split; [|by intros ->; split; intros issue H; apply not_elem_of_nil in H].
  destruct issues as [|issue issues]; [done|]. intros [Hu He]. exfalso.
  specialize (Hu issue (first_In _ _)). specialize (He issue (first_In _ _)).
  specialize (Hall issue (first_In _ _)). unfold has_severity in *.
  apply bool_decide_eq_false in Hu, He. by destruct (is_severity issue).
Qed.

Lemma finished_issues_In request selected issues issue :
  issue ∈ crp_issues (finish_report request selected issues) → issue ∈ issues.
Proof.
  unfold finish_report; simpl. intros H.
  assert (Hd : issue ∈ dedup_by (λ a b, bool_decide (a = b)) (sort_by issue_order
    (if bool_decide (ctr_action request = CA_List) then List.filter (has_severity CIS_Error) issues else issues))).
  { destruct (_ <? _)%N; [by eapply taken_In|done]. }
  rewrite dedup_equal_elem_of, sort_by_elem_of in Hd. case_bool_decide; [by apply list_filter_In in Hd as [? _]|done].
Qed.

(** Outside a listing, the issues of a report are none exactly when there is none to report. *)
Lemma finished_issues_none request selected issues :
  (1 ≤ ctr_limit request)%N → ctr_action request ≠ CA_List →
  crp_issues (finish_report request selected issues) = [] ↔ issues = [].
Proof.
  intros Hlim Ha. unfold finish_report; simpl. rewrite bool_decide_eq_false_2 by done. split; [|intros ->; simpl; by destruct (_ <? _)%N; [destruct (N.to_nat _)|]].
  intros H. destruct issues as [|issue issues]; [done|]. exfalso.
  assert (Hin : issue ∈ dedup_by (λ a b, bool_decide (a = b)) (sort_by issue_order (issue :: issues))).
  { rewrite dedup_equal_elem_of, sort_by_elem_of. left. }
  destruct (_ <? _)%N; [|rewrite H in Hin; by apply not_elem_of_nil in Hin].
  destruct (dedup_by _ _) as [|first kept]; [by apply not_elem_of_nil in Hin|].
  destruct (N.to_nat (ctr_limit request)) eqn:E; [lia|done].
Qed.

(** ** Theorems *)

(** What a validation asks of the graph: of all of it, or of what concerns one contract. *)
Definition sound_scope (nodes : list Node) (edges : list Edge) (evidence : list Evidence) (contract : option NodeId) : Prop :=
  match contract with
  | None =>
      (∀ edge, edge ∈ edges → sound_edge nodes evidence edge) ∧ (∀ item, item ∈ evidence → sound_evidence item)
  | Some id =>
      (∃ node, node ∈ nodes ∧ node_id node = id ∧ node_kind node ∈ CONTRACT_NODE_KINDS) ∧
      (∀ edge, edge ∈ edges → concerns edges id (edge_id edge) → sound_edge nodes evidence edge) ∧
      (∀ item, item ∈ evidence → concerns edges id (ev_id item) → sound_evidence item)
  end.

(** The inputs of a validation that have to be observed: the ends and the evidence of the edges in its scope. *)
Definition in_scope (edges : list Edge) (contract : option NodeId) (entity : string) : Prop :=
  match contract with None => True | Some id => concerns edges id entity end.

Definition observed_scope (nodes : list Node) (edges : list Edge) (evidence : list Evidence) (contract : option NodeId) : Prop :=
  ∀ edge, edge ∈ edges → in_scope edges contract (edge_id edge) →
    edge_source edge ∈ map node_id nodes ∧ edge_target edge ∈ map node_id nodes ∧
    ∀ id, id ∈ edge_evidence edge → id ∈ map ev_id evidence.

(** What is in scope claims nothing that could not be: edges are confirmed, confidences lie in the unit interval. *)
Definition graded_scope (edges : list Edge) (evidence : list Evidence) (contract : option NodeId) : Prop :=
  (∀ edge, edge ∈ edges → in_scope edges contract (edge_id edge) →
     f32_in_unit (edge_confidence edge) = true ∧ edge_status edge = Confirmed) ∧
  (∀ item, item ∈ evidence → in_scope edges contract (ev_id item) → sound_evidence item).

Lemma sound_scope_split nodes edges evidence contract :
  sound_scope nodes edges evidence contract ↔
  (∀ id, contract = Some id → ∃ node, node ∈ nodes ∧ node_id node = id ∧ node_kind node ∈ CONTRACT_NODE_KINDS) ∧
  observed_scope nodes edges evidence contract ∧ graded_scope edges evidence contract.
Proof.
  unfold sound_scope, observed_scope, graded_scope, in_scope, sound_edge. destruct contract as [id|]; [|naive_solver].
  split.
  - intros (Hnode & Hedge & Hev). split_and!; [by intros ? [= <-]|..|done]; intros edge He Hc; specialize (Hedge edge He Hc); tauto.
  - intros (Hnode & Hobs & Hgr & Hev). split_and!; [by apply Hnode| |done]. intros edge He Hc.
    specialize (Hobs edge He Hc). specialize (Hgr edge He Hc). tauto.
Qed.

(** The outcome of a validation: valid, complete and without issues with a sound scope. *)
Lemma validation_run nodes edges evidence compatibility request report :
  ctr_action request = CA_Validate →
  inspect_contracts nodes edges evidence compatibility request = Ok report →
  (crp_valid report = Some true ↔ sound_scope nodes edges evidence (ctr_contract request)) ∧
  (crp_complete report = true ↔ sound_scope nodes edges evidence (ctr_contract request)) ∧
  (crp_issues report = [] ↔ sound_scope nodes edges evidence (ctr_contract request)) ∧
  crp_valid report ≠ None ∧
  (∀ id, ctr_contract request = Some id → ∃ node, node ∈ nodes ∧ node_id node = id ∧ node_kind node ∈ CONTRACT_NODE_KINDS).
Proof.
  intros Ha Hrun. assert (Hlim : (1 ≤ ctr_limit request)%N).
  { unfold inspect_contracts in Hrun. apply check_Ok in Hrun as [H%validate_bound_Ok _]. lia. }
  apply inspect_run in Hrun as (node_index & edge_index & evidence_index & selected & issues & Hn & He & Hv & Hsel & ->).
  unfold select_contract_action in Hsel. rewrite Ha in Hsel. unfold select_contract_validation in Hsel.
  apply result_bind_Ok in Hsel as ([contracts kept] & Hkept & [= <- <-]).
  assert (Hsev : ∀ issue, issue ∈ kept → is_severity issue ≠ CIS_Warning).
  { intros issue Hi. destruct (ctr_contract request) as [id|].
    - apply result_bind_Ok in Hkept as (node & _ & [= <- <-]). apply list_filter_In in Hi as [Hi _].
      by eapply validated_severity.
    - injection Hkept as <- <-. by eapply validated_severity. }
  assert (Hscope : kept = [] ↔ sound_scope nodes edges evidence (ctr_contract request)).
  { unfold sound_scope. destruct (ctr_contract request) as [id|].
    - apply result_bind_Ok in Hkept as (node & Hreq & [= <- <-]).
      apply (require_contract_Ok nodes) in Hreq; [|done]. unfold applies. simpl.
      rewrite (concerning_none nodes edges evidence) by done. naive_solver.
    - injection Hkept as <- <-. by apply validated_none. }
  assert (Hnode : ∀ id, ctr_contract request = Some id →
    ∃ node, node ∈ nodes ∧ node_id node = id ∧ node_kind node ∈ CONTRACT_NODE_KINDS).
  { intros id Hid. rewrite Hid in Hkept. apply result_bind_Ok in Hkept as (node & Hreq & _).
    apply (require_contract_Ok nodes) in Hreq; [|done]. by exists node. }
  rewrite finished_issues_none by (lia || congruence). unfold finish_report; simpl. rewrite <-Hscope.
  rewrite Ha. simpl. split_and!; [|..|done|done|done].
  - rewrite <-(conclusive_valid kept) by done. split; [by intros [= ->]|by intros ->].
  - rewrite <-(no_severe kept) by done. destruct (existsb (λ issue, _) kept) eqn:E; [done|].
    split; [done|]. intros _. apply no_severe in E as ->; done.
Qed.

(** C24: a validation is valid, and its report without an issue, exactly when every edge in its scope joins two nodes of the
    graph, is confirmed with a confidence in the unit interval and names only observed evidence, and every evidence in its
    scope has a confidence in the unit interval. A report that calls itself complete has observed the ends and the evidence
    of every edge in scope; and when these were observed, it is complete unless something in scope is unconfirmed or has
    an impossible confidence. *)
Theorem validation_exact nodes edges evidence compatibility request report :
  ctr_action request = CA_Validate →
  inspect_contracts nodes edges evidence compatibility request = Ok report →
  (crp_valid report = Some true ↔ sound_scope nodes edges evidence (ctr_contract request)) ∧
  (crp_issues report = [] ↔ sound_scope nodes edges evidence (ctr_contract request)) ∧
  (crp_complete report = true → observed_scope nodes edges evidence (ctr_contract request)) ∧
  (graded_scope edges evidence (ctr_contract request) →
     crp_complete report = true ↔ observed_scope nodes edges evidence (ctr_contract request)) ∧
  crp_valid report ≠ None.
Proof.
  intros Ha Hrun. destruct (validation_run _ _ _ _ _ _ Ha Hrun) as (Hvalid & Hcomplete & Hissues & Hsome & Hnode).
  rewrite Hcomplete. rewrite sound_scope_split in Hvalid, Hissues |- *. tauto.
Qed.

(** A listing is the first contracts of the graph in the order of stable keys and identifiers, without links; it is
    truncated when contracts are left out or the errors of the graph exceed the bound. *)
Theorem listing_exact nodes edges evidence compatibility request report :
  ctr_action request = CA_List →
  inspect_contracts nodes edges evidence compatibility request = Ok report →
  ∃ contracts,
    first_in_order contract_order (ctr_limit request)
      (filter (λ node, node_kind node ∈ CONTRACT_NODE_KINDS) nodes) contracts ∧
    crp_contracts report = map bare_view contracts ∧ crp_links report = [] ∧ crp_valid report = None ∧
    (∀ issue, issue ∈ crp_issues report → is_severity issue = CIS_Error).
Proof.
  intros Ha Hrun.
  apply inspect_run in Hrun as (node_index & edge_index & evidence_index & selected & issues & Hn & He & Hv & Hsel & ->).
  unfold select_contract_action in Hsel. rewrite Ha in Hsel. injection Hsel as <- <-.
  exists (take (N.to_nat (ctr_limit request)) (ordered_contracts node_index)). split_and!; [|done..|].
  - unfold ordered_contracts, first_in_order.
    pose proof (first_in_order_take contract_order (ctr_limit request)
      (List.filter (λ node, is_contract_kind (node_kind node)) (btree_values node_index))) as (Hs & rest & Hp & Hl & Hr).
    split; [exact Hs|]. exists rest.
    assert (Hperm : List.filter (λ node, is_contract_kind (node_kind node)) (btree_values node_index)
        ≡ₚ filter (λ node, node_kind node ∈ CONTRACT_NODE_KINDS) nodes).
    { rewrite (filter_decided _ (λ node, node_kind node ∈ CONTRACT_NODE_KINDS)) by (intros node; apply bool_decide_eq_true).
      by rewrite (indexes_values_perm node_id nodes node_index Hn). }
    split_and!; [by rewrite Hp|rewrite Hl; unfold len; by rewrite (Permutation_length Hperm)|exact Hr].
  - intros issue Hi. unfold finish_report in Hi; simpl in Hi. rewrite Ha in Hi. simpl in Hi.
    assert (H : issue ∈ List.filter (has_severity CIS_Error) (validate_contract_inputs node_index edge_index evidence_index)).
    { revert Hi. generalize (List.filter (has_severity CIS_Error) (validate_contract_inputs node_index edge_index evidence_index)).
      intros l Hi. rewrite <-(sort_by_elem_of issue_order), <-dedup_equal_elem_of.
      destruct (_ <? _)%N; [by eapply taken_In|done]. }
    apply list_filter_In in H as [_ H]. by apply bool_decide_eq_true in H.
Qed.

(** An edge between two contracts, in either direction. *)
Definition between (source target : NodeId) (edge : Edge) : Prop :=
  (edge_source edge = source ∧ edge_target edge = target) ∨ (edge_source edge = target ∧ edge_target edge = source).

#[export] Instance between_dec source target edge : Decision (between source target edge).
Proof. unfold between. apply _. Defined.

Lemma joins_spec source target edge : joins source target edge = true ↔ between source target edge.
Proof. unfold joins, between. by rewrite orb_true_iff, !andb_true_iff, !String.eqb_eq. Qed.

(** The links of an explanation are the first edges between the two contracts, with the observed evidence they name.
    A complete explanation has a link, and every edge and evidence that concerns one of the contracts is sound. *)
Theorem explanation_exact nodes edges evidence compatibility request report source target :
  ctr_action request = CA_ExplainLink → ctr_contract request = Some source → ctr_related_contract request = Some target →
  inspect_contracts nodes edges evidence compatibility request = Ok report →
  first_in_order edge_id_order (ctr_limit request) (filter (between source target) edges) (map cl_edge (crp_links report)) ∧
  (∀ link m, link ∈ crp_links report → m ∈ cl_evidence link ↔
     ∃ ev, ev ∈ evidence ∧ ev_id ev ∈ edge_evidence (cl_edge link) ∧ m = evidence_metadata ev) ∧
  (crp_complete report = true ↔
     crp_links report ≠ [] ∧ sound_scope nodes edges evidence (Some source) ∧ sound_scope nodes edges evidence (Some target)).
Proof.
  intros Ha Hs Ht Hrun.
  apply inspect_run in Hrun as (node_index & edge_index & evidence_index & selected & issues & Hn & He & Hv & Hsel & ->).
  unfold select_contract_action in Hsel. rewrite Ha in Hsel. unfold select_contract_link, required_contract in Hsel.
  rewrite Hs, Ht in Hsel. simpl ok_or in Hsel. cbn [result_bind] in Hsel.
  apply result_bind_Ok in Hsel as (source_node & Hsrc & (target_node & Htgt & Hsel)%result_bind_Ok).
  apply (require_contract_Ok nodes) in Hsrc, Htgt; try done. injection Hsel as <- <-. simpl.
  set (matching := sort_by link_id_order _). set (links := take (N.to_nat (ctr_limit request)) matching).
  set (kept := List.filter _ (validate_contract_inputs _ _ _)).
  assert (Hlinks : map cl_edge links = take (N.to_nat (ctr_limit request))
      (sort_by edge_id_order (List.filter (joins source target) (btree_values edge_index)))).
  { unfold links, matching. rewrite map_take_edges, (sort_by_map cl_edge link_id_order edge_id_order) by done.
    rewrite map_map. simpl. by rewrite map_id. }
  split_and!.
  - rewrite Hlinks. apply (first_in_order_perm _ _ (List.filter (joins source target) (btree_values edge_index))).
    + rewrite (filter_decided _ (between source target)) by apply joins_spec.
      by rewrite (indexes_values_perm edge_id edges edge_index He).
    + apply first_in_order_take, _.
  - intros link m Hl%taken_In. unfold matching in Hl. apply sort_by_elem_of, list_elem_of_fmap in Hl as (edge & -> & _).
    simpl. by apply evidence_for_edge_exact.
  - assert (Hkept : kept = [] ↔ sound_scope nodes edges evidence (Some source) ∧ sound_scope nodes edges evidence (Some target)).
    { unfold kept, applies, sound_scope. simpl. rewrite filter_or_nil.
      rewrite !(concerning_none nodes edges evidence) by done. naive_solver. }
    unfold finish_report; simpl. rewrite Ha. simpl. rewrite <-Hkept.
    assert (Hsev : ∀ issue, issue ∈ kept → is_severity issue ≠ CIS_Warning).
    { intros issue [Hi _]%list_filter_In. by eapply validated_severity. }
    destruct links as [|link links']; simpl.
    + rewrite existsb_app. simpl. rewrite orb_true_r. split; [done|]. by intros [[] _].
    + rewrite <-(no_severe kept) by done. destruct (existsb _ kept); split; try done; naive_solver.
Qed.

(** A comparison shows no difference exactly when the two contracts have the same kind, repository, key and label. *)
Theorem differences_exact before after :
  contract_differences before after = [] ↔
  node_kind before = node_kind after ∧ node_repo_id before = node_repo_id after ∧
  node_stable_key before = node_stable_key after ∧ node_label before = node_label after.
Proof.
  unfold contract_differences. rewrite !app_nil. repeat case_bool_decide; simpl; naive_solver.
Qed.

(** The command hands over no compatibility result: every display and every comparison it reports is incomplete. *)
Theorem command_incomplete {E} graph evidence (interface_error : InterfaceError → E) request report :
  ctr_action request = CA_Show ∨ ctr_action request = CA_Diff →
  contracts_workspace graph evidence interface_error request = Ok report →
  crp_complete report = false ∧ crp_compatibility report = [].
Proof.
  intros Ha. unfold contracts_workspace. intros ([ns es] & _ & (ev & _ & Hrun)%result_bind_Ok)%result_bind_Ok.
  destruct (inspect_contracts _ _ _ _ _) as [r|] eqn:E1; [|done]. injection Hrun as ->.
  apply inspect_run in E1 as (node_index & edge_index & evidence_index & selected & issues & _ & _ & _ & Hsel & ->).
  assert (Hc : sel_complete selected = false ∧ sel_compatibility selected = []); [|].
  { unfold select_contract_action in Hsel. destruct Ha as [Ha|Ha]; rewrite Ha in Hsel.
    - unfold select_contract_show in Hsel. apply result_bind_Ok in Hsel as (id & _ & (node & _ & Hsel)%result_bind_Ok).
      destruct (links_for_node _ _ _ _) as [links truncated]. simpl in Hsel. by injection Hsel as <- _.
    - unfold select_contract_diff in Hsel.
      apply result_bind_Ok in Hsel as (before & _ & (after & _ & (b & _ & (a & _ & Hsel)%result_bind_Ok)%result_bind_Ok)%result_bind_Ok).
      simpl in Hsel. by injection Hsel as <- _. }
  destruct Hc as [Hc Hcompat]. split; [|done]. unfold finish_report; simpl. rewrite Hc. by destruct (existsb _ _).
Qed.

(** The issues of a report are within its bound, without repetition and worst first; when some are left out, none of
    them comes before one that is kept. *)
Theorem issues_bounded request selected issues :
  let report := finish_report request selected issues in
  (len (crp_issues report) ≤ ctr_limit request)%N ∧
  StronglySorted (cmp_le issue_order) (crp_issues report) ∧
  (crp_truncated report = false → ∀ issue, ctr_action request ≠ CA_List → issue ∈ issues → issue ∈ crp_issues report).
Proof.
  intros report. subst report. unfold finish_report; simpl.
  set (all := dedup_by _ _).
  assert (Hs : StronglySorted (cmp_le issue_order) all).
  { apply (sorted_sublist _ _ (sort_by issue_order
      (if bool_decide (ctr_action request = CA_List) then List.filter (has_severity CIS_Error) issues else issues)));
      [apply dedup_by_sublist|apply sort_by_sorted, _]. }
  split_and!.
  - destruct (N.ltb_spec (ctr_limit request) (len all)); [|lia]. unfold len. rewrite length_take. lia.
  - destruct (_ <? _)%N; [|done]. rewrite <-(take_drop (N.to_nat (ctr_limit request)) all) in Hs.
    by apply StronglySorted_app in Hs as (_ & Hs & _).
  - intros Ht issue Ha Hin. destruct (_ <? _)%N; [done|]. unfold all. rewrite dedup_equal_elem_of, sort_by_elem_of.
    by rewrite bool_decide_eq_false_2.
Qed.

Module Example_contracts.
Definition operation (id key label : string) : Node :=
  {| node_id := id; node_kind := NK_HttpOperation; node_repo_id := Some "repo:shop"; node_stable_key := key;
     node_label := label |}.
Definition caller : Node :=
  {| node_id := "n:caller"; node_kind := NK_SymbolRef; node_repo_id := Some "repo:web"; node_stable_key := "symbol:load";
     node_label := "load" |}.
Definition orders : Node := operation "n:orders" "http:GET /orders" "GET /orders".
Definition users : Node := operation "n:users" "http:GET /users" "GET /users".
Definition edge (id source target : string) (status : EpistemicStatus) (evidence : list string) : Edge :=
  {| edge_id := id; edge_source := source; edge_target := target; edge_kind := CallsRemote;
     edge_confidence := f32_lit 3 (-2); edge_status := status; edge_evidence := evidence |}.
Definition seen (confidence : f32) : Evidence :=
  {| ev_id := "ev:1"; ev_repo_id := None; ev_file_path := Some "src/load.ts"; ev_start_line := None; ev_end_line := None;
     ev_extractor := "typescript"; ev_extractor_version := "1"; ev_provenance := Prov_Extracted; ev_confidence := confidence;
     ev_observed_at_commit := None; ev_content_hash := None; ev_note := None |}.
Definition graph : list Node := [users; caller; orders].
Definition calls : list Edge :=
  [edge "e:1" "n:caller" "n:orders" Confirmed ["ev:1"]; edge "e:2" "n:caller" "n:users" Inferred []].
Definition ask (action : ContractAction) (contract related : option string) : ContractRequest :=
  {| ctr_action := action; ctr_contract := contract; ctr_related_contract := related; ctr_limit := 1 |}.
Definition outcome (edges : list Edge) (evidence : list Evidence) (request : ContractRequest) :=
  match inspect_contracts graph edges evidence [] request with
  | Ok report =>
      Ok (map (λ view, node_id (cv_contract view)) (crp_contracts report), map is_code (crp_issues report),
          (crp_valid report, crp_complete report, crp_truncated report))
  | Err e => Err e
  end.

(** A listing is bounded; the unconfirmed call leaves the whole graph unvalidated, and [GET /orders] valid. *)
Example operations :
  outcome calls [seen f32_one] (ask CA_List None None) = Ok (["n:orders"], [], (None, true, true)) ∧
  outcome calls [seen f32_one] (ask CA_Validate None None)
    = Ok ([], ["contract.unresolved_link"], (Some false, false, false)) ∧
  outcome calls [seen f32_one] (ask CA_Validate (Some "n:orders") None) = Ok (["n:orders"], [], (Some true, true, false)) ∧
  outcome calls [seen f32_one] (ask CA_Show (Some "n:caller") None) = Err (NotFound "n:caller") ∧
  outcome calls [seen f32_one] (ask CA_Diff (Some "n:orders") None)
    = Err (MissingContractField CA_Diff "related_contract").
Proof. vm_compute. done. Qed.

(** Every input was observed, and yet an error of the graph makes the validation incomplete. *)
Example error_is_incomplete :
  outcome calls [seen (f32_lit 2 0)] (ask CA_Validate (Some "n:orders") None)
    = Ok (["n:orders"], ["contract.invalid_evidence_confidence"], (Some false, false, false)).
Proof. vm_compute. done. Qed.

(** A comparison returns two contracts whatever the bound is. *)
Example comparison_beyond_bound :
  outcome calls [seen f32_one] (ask CA_Diff (Some "n:orders") (Some "n:users"))
    = Ok (["n:orders"; "n:users"], ["contract.compatibility_not_observed"], (None, false, true)).
Proof. vm_compute. done. Qed.

(** A second compatibility result for a contract is dropped without an issue: the first supplied wins. *)
Definition result (status : CompatibilityStatus) : ContractCompatibility :=
  {| cc_contract_id := "n:orders";
     cc_report := {| cr_status := status; cr_before_fingerprint := "a"; cr_after_fingerprint := "b"; cr_findings := [] |} |}.
Example second_result_dropped :
  match inspect_contracts graph calls [seen f32_one] [result CS_Compatible; result CS_Breaking]
          (ask CA_Show (Some "n:orders") None) with
  | Ok report => map cs_status (crp_compatibility report) = [CS_Compatible] ∧ crp_complete report = true ∧ crp_issues report = []
  | Err _ => False
  end.
Proof. vm_compute. done. Qed.

Lemma validation_exact_witness :
  ∃ report, inspect_contracts graph calls [seen f32_one] [] (ask CA_Validate (Some "n:orders") None) = Ok report ∧
    crp_valid report = Some true ∧ sound_scope graph calls [seen f32_one] (Some "n:orders").
Proof.
  eexists. split; [vm_compute; reflexivity|]. split; [reflexivity|].
  match goal with |- _ => idtac end.
  apply (validation_exact graph calls [seen f32_one] [] (ask CA_Validate (Some "n:orders") None)
    (match inspect_contracts graph calls [seen f32_one] [] (ask CA_Validate (Some "n:orders") None) with
     | Ok report => report | Err _ => finish_report (ask CA_List None None) complete_selection [] end));
    [reflexivity|vm_compute; reflexivity|vm_compute; reflexivity].
Defined.
End Example_contracts.
