(* ===== verification/Corroboration.v ===== *)
(** * Corroboration ([crates/code-system-graph-core/src/corroboration.rs])

    The optional confirmation of extracted symbols by a local code intelligence provider,
    over the interface of [crates/code-system-graph-core/src/provider.rs]. The provider is
    an implementation of the class [Provider]: its own state, and one step per request. The
    cancellation token is part of that state. *)
From stdpp Require Import base gmap list strings pretty.
From Stdlib Require Import Ascii.
From S2P Require Import Prelude RustOrd RustFloat RustStr Model.

(** ** The interface of a provider *)
Inductive ProviderStatus :=
| PS_Available | PS_IndexMissing | PS_Stale | PS_Unavailable | PS_Incompatible | PS_InvalidResponse | PS_TimedOut.
#[export] Instance ProviderStatus_eq_dec : EqDecision ProviderStatus.
Proof. solve_decision. Defined.

Inductive ProviderTransport := PT_Mcp | PT_Cli.
Inductive ProviderOperation := PO_ResolveSymbols | PO_LocalNeighbors | PO_LocalImpact | PO_LocalContext | PO_AffectedTests.

Record ProviderOperationCapability := {
  poc_operation : ProviderOperation;
  poc_transport : ProviderTransport;
  poc_public_name : string;
  poc_parameters : list string;
}.
Record ProviderDegradation := { pd_kind : string; pd_message : string; pd_diagnostics_id : option string }.
Record ProviderCapability := {
  pc_provider : string;
  pc_version : option string;
  pc_status : ProviderStatus;
  pc_tools : list string;
  pc_protocol_version : option string;
  pc_operations : list ProviderOperationCapability;
  pc_degradations : list ProviderDegradation;
  pc_remediation : option string;
}.
Record ProviderBudget := { pb_timeout_millis : N; pb_max_output_bytes : N; pb_max_items : N }.
Record ProviderRequest := { pq_repo_id : RepoId; pq_project_path : string; pq_budget : ProviderBudget }.
Record ResolveSymbolsRequest := { rq_request : ProviderRequest; rq_query : string }.
Record AffectedTestsRequest := { aq_request : ProviderRequest; aq_changed_files : list string; aq_max_depth : N }.
Record ProviderExecution := {
  px_transport : ProviderTransport;
  px_output_bytes : N;
  px_truncated : bool;
  px_degradations : list ProviderDegradation;
}.
Record ResolvedSymbol := {
  sy_local_id : option string;
  sy_name : string;
  sy_qualified_name : option string;
  sy_kind : string;
  sy_file_path : string;
  sy_start_line : N;
  sy_score : option f64;
}.
Record ResolveSymbolsResult := { rr_symbols : list ResolvedSymbol; rr_execution : ProviderExecution }.
Record AffectedTestsResult := {
  ar_changed_files : list string;
  ar_affected_tests : list string;
  ar_total_dependents_traversed : N;
  ar_execution : ProviderExecution;
}.

Inductive ProviderError :=
| PE_Cancelled
| PE_Timeout (diagnostics_id : string)
| PE_OutputLimit (limit_bytes : N) (diagnostics_id : string)
| PE_CircuitOpen
| PE_InvalidRequest (message : string)
| PE_InvalidResponse (message diagnostics_id : string)
| PE_Transport (message diagnostics_id : string).

(** [error.to_string()] *)
Definition provider_error_text (error : ProviderError) : string :=
  match error with
  | PE_Cancelled => "local intelligence request was cancelled"
  | PE_Timeout id => "local intelligence provider timed out (diagnostics: " +:+ id +:+ ")"
  | PE_OutputLimit limit id =>
      "local intelligence provider exceeded the " +:+ pretty limit +:+ "-byte output limit (diagnostics: " +:+ id +:+ ")"
  | PE_CircuitOpen => "local intelligence provider circuit is temporarily open"
  | PE_InvalidRequest message => "invalid local intelligence request: " +:+ message
  | PE_InvalidResponse message id =>
      "invalid local intelligence response: " +:+ message +:+ " (diagnostics: " +:+ id +:+ ")"
  | PE_Transport message id =>
      "local intelligence transport failed: " +:+ message +:+ " (diagnostics: " +:+ id +:+ ")"
  end.

(** [{:?}] of [ProviderStatus]. *)
Definition provider_status_debug (status : ProviderStatus) : string :=
  match status with
  | PS_Available => "Available" | PS_IndexMissing => "IndexMissing" | PS_Stale => "Stale"
  | PS_Unavailable => "Unavailable" | PS_Incompatible => "Incompatible" | PS_InvalidResponse => "InvalidResponse"
  | PS_TimedOut => "TimedOut"
  end.

(** The trait [LocalCodeIntelligenceProvider], as far as the corroboration calls it. *)
Class Provider (S : Type) := {
  probe : S → ProviderRequest → S * result ProviderError ProviderCapability;
  resolve_symbols : S → ResolveSymbolsRequest → S * result ProviderError ResolveSymbolsResult;
  get_affected_tests : S → AffectedTestsRequest → S * result ProviderError (option AffectedTestsResult);
}.

(** ** Anchors and reports *)
Record SymbolAnchor := { sa_symbol : string; sa_source_path : string; sa_start_line : N }.

Inductive SymbolCorroboration :=
| Corroborated (symbol source_path : string) (local_id : option string)
| Unresolved (symbol reason : string)
| AmbiguousSymbol (symbol : string) (candidate_count : N).

Record CorroborationReport := {
  co_capability : option ProviderCapability;
  co_symbols : list SymbolCorroboration;
  co_affected_tests : list string;
  co_degradations : list string;
}.

(** ** Matching *)
Definition symbol_name_matches (candidate : ResolvedSymbol) (anchor : string) : bool :=
  String.eqb (sy_name candidate) anchor || bool_decide (sy_qualified_name candidate = Some anchor).

(** [path.replace('\\', "/")] *)
Fixpoint portable_path (path : string) : string :=
  match path with
  | EmptyString => EmptyString
  | String c path => String (if Ascii.eqb c "\" then "/"%char else c) (portable_path path)
  end.

Definition exact_match (anchor : SymbolAnchor) (candidate : ResolvedSymbol) : bool :=
  symbol_name_matches candidate (sa_symbol anchor)
  && String.eqb (portable_path (sy_file_path candidate)) (portable_path (sa_source_path anchor))
  && (sy_start_line candidate =? sa_start_line anchor)%N.

Definition symbol_outcome (anchor : SymbolAnchor) (exact : list ResolvedSymbol) : SymbolCorroboration :=
  match exact with
  | [candidate] => Corroborated (sa_symbol anchor) (sa_source_path anchor) (sy_local_id candidate)
  | [] => Unresolved (sa_symbol anchor) "provider returned no exact name/path/line match"
  | candidates => AmbiguousSymbol (sa_symbol anchor) (len candidates)
  end.

(** ** The corroboration *)
Section corroborate.
Context {S : Type} `{Provider S}.

Definition corroborate_symbol (request : ProviderRequest) (provider : S) (anchor : SymbolAnchor)
    : S * (SymbolCorroboration * list string) :=
  let '(provider, response) := resolve_symbols provider {| rq_request := request; rq_query := sa_symbol anchor |} in
  match response with
  | Err error =>
      (provider, (Unresolved (sa_symbol anchor) "local intelligence unavailable", [provider_error_text error]))
  | Ok found =>
      (provider, (symbol_outcome anchor (List.filter (exact_match anchor) (rr_symbols found)),
                  map pd_message (px_degradations (rr_execution found))))
  end.

Definition corroborate_affected_tests (request : ProviderRequest) (provider : S) (changed_files : list string)
    : S * (list string * list string) :=
  if is_empty_list changed_files then (provider, ([], []))
  else
    let '(provider, response) :=
      get_affected_tests provider {| aq_request := request; aq_changed_files := changed_files; aq_max_depth := 4 |} in
    match response with
    | Ok (Some found) =>
        (provider, (sorted_unique (ar_affected_tests found), map pd_message (px_degradations (ar_execution found))))
    | Ok None => (provider, ([], ["affected-test capability unavailable"]))
    | Err error => (provider, ([], [provider_error_text error]))
    end.

(** The loop over the anchors. *)
Definition corroborate_anchor (request : ProviderRequest) (state : S * list SymbolCorroboration * list string)
    (anchor : SymbolAnchor) : S * list SymbolCorroboration * list string :=
  let '(provider, symbols, degradations) := state in
  let '(provider, (outcome, observed)) := corroborate_symbol request provider anchor in
  (provider, symbols ++ [outcome], degradations ++ observed).

Definition is_available (capability : option ProviderCapability) : bool :=
  is_some_and capability (λ capability, bool_decide (pc_status capability = PS_Available)).

Definition unavailable_degradations (capability : option ProviderCapability) : list string :=
  match capability with
  | Some capability =>
      map pd_message (pc_degradations capability)
      ++ [pc_provider capability +:+ " local intelligence status is " +:+ provider_status_debug (pc_status capability)]
  | None => []
  end.

Definition corroborate_repository (provider : S) (repo_id : RepoId) (project_path : string) (anchors : list SymbolAnchor)
    (changed_files : list string) (budget : ProviderBudget) : S * CorroborationReport :=
  let request := {| pq_repo_id := repo_id; pq_project_path := project_path; pq_budget := budget |} in
  let '(provider, probed) := probe provider request in
  let '(capability, degradations) :=
    match probed with Ok capability => (Some capability, []) | Err error => (None, [provider_error_text error]) end in
  if negb (is_available capability) then
    (provider,
     {| co_capability := capability;
        co_symbols :=
          map (λ anchor, Unresolved (sa_symbol anchor) "local intelligence provider is not available") anchors;
        co_affected_tests := [];
        co_degradations := sorted_unique (degradations ++ unavailable_degradations capability) |})
  else
    let '(provider, symbols, degradations) := foldl (corroborate_anchor request) (provider, [], degradations) anchors in
    let '(provider, (affected_tests, observed)) := corroborate_affected_tests request provider changed_files in
    (provider,
     {| co_capability := capability;
        co_symbols := symbols;
        co_affected_tests := affected_tests;
        co_degradations := degradations ++ observed |}).
End corroborate.

(** ** What a report means *)

(** The candidate stands at the extracted coordinates: its name or qualified name, its path up to the separator, its line. *)
Inductive same_path : string → string → Prop :=
| same_end : same_path "" ""
| same_char c p q : same_path p q → same_path (String c p) (String c q)
| same_separator c d p q : c ∈ ["/"%char; "\"%char] → d ∈ ["/"%char; "\"%char] → same_path p q → same_path (String c p) (String d q).

Definition stands_at (anchor : SymbolAnchor) (candidate : ResolvedSymbol) : Prop :=
  (sy_name candidate = sa_symbol anchor ∨ sy_qualified_name candidate = Some (sa_symbol anchor)) ∧
  same_path (sy_file_path candidate) (sa_source_path anchor) ∧ sy_start_line candidate = sa_start_line anchor.

Lemma portable_same p q : portable_path p = portable_path q ↔ same_path p q.
Proof.
  split.
  - revert q. induction p as [|c p IH]; intros [|d q]; try done; [constructor|]. simpl. intros [= Hcd Hpq%IH].
    destruct (Ascii.eqb_spec c "\") as [->|Hc], (Ascii.eqb_spec d "\") as [->|Hd]; try (subst; by constructor);
      subst; apply same_separator; try done; rewrite !elem_of_cons; auto.
  - induction 1 as [|c p q _ IH|c d p q Hc Hd _ IH]; [done|by simpl; rewrite IH|]. simpl. rewrite IH. f_equal.
    rewrite !elem_of_cons, elem_of_nil in Hc, Hd. destruct Hc as [->|[->|[]]], Hd as [->|[->|[]]]; done.
Qed.

Lemma exact_match_spec anchor candidate : exact_match anchor candidate = true ↔ stands_at anchor candidate.
Proof.
  unfold exact_match, stands_at, symbol_name_matches.
  rewrite !andb_true_iff, orb_true_iff, !String.eqb_eq, bool_decide_eq_true, N.eqb_eq, portable_same. tauto.
Qed.

(** Candidates split around a single match. *)
Lemma filter_one {A} (f : A → bool) l x :
  List.filter f l = [x] ↔
  f x = true ∧ ∃ before after, l = before ++ x :: after ∧ ∀ y, y ∈ before ∨ y ∈ after → f y = false.
Proof.
  assert (Hnil : ∀ k, List.filter f k = [] ↔ ∀ y, y ∈ k → f y = false).
  { intros k. split.
    - intros Hk y Hy. destruct (f y) eqn:E; [|done]. assert (Hin : y ∈ List.filter f k) by by apply list_filter_In.
      rewrite Hk in Hin. by apply not_elem_of_nil in Hin.
    - intros Hk. destruct (List.filter f k) as [|y r] eqn:E; [done|].
      assert (Hin : y ∈ List.filter f k) by (rewrite E; left). apply list_filter_In in Hin as [Hin Hf]. rewrite Hk in Hf; done. }
  split.
  - induction l as [|y l IH]; [done|]. simpl. destruct (f y) eqn:E.
    + intros [= -> Hl]. split; [done|]. exists [], l. split; [done|]. intros z [Hz|Hz]; [by apply not_elem_of_nil in Hz|].
      by apply (proj1 (Hnil l) Hl).
    + intros (Hx & before & after & -> & Hrest)%IH. split; [done|]. exists (y :: before), after. split; [done|].
      intros z [[->|Hz]%elem_of_cons|Hz]; auto.
  - intros (Hx & before & after & -> & Hrest). rewrite List.filter_app. simpl. rewrite Hx.
    rewrite (proj2 (Hnil before)), (proj2 (Hnil after)); auto.
Qed.

Lemma sorted_unique_nonempty (l : list string) x : x ∈ l → sorted_unique l ≠ [].
Proof. rewrite <-(sorted_unique_elem_of l). intros Hx E. rewrite E in Hx. by apply not_elem_of_nil in Hx. Qed.

Section theorems.
Context {S : Type} `{Provider S} (request : ProviderRequest).

(** The provider after the requests of the first anchors, and the outcome of each anchor. *)
Fixpoint corroborations (provider : S) (anchors : list SymbolAnchor) : S * list (SymbolCorroboration * list string) :=
  match anchors with
  | [] => (provider, [])
  | anchor :: anchors =>
      let '(provider, outcome) := corroborate_symbol request provider anchor in
      let '(provider, outcomes) := corroborations provider anchors in
      (provider, outcome :: outcomes)
  end.

Lemma corroborate_anchors provider symbols degradations anchors :
  foldl (corroborate_anchor request) (provider, symbols, degradations) anchors =
  let '(provider, outcomes) := corroborations provider anchors in
  (provider, symbols ++ map fst outcomes, degradations ++ concat (map snd outcomes)).
Proof.
  revert provider symbols degradations. induction anchors as [|anchor anchors IH]; intros provider symbols degradations; simpl.
  - by rewrite !app_nil_r.
  - destruct (corroborate_symbol request provider anchor) as [provider' [outcome observed]] eqn:E. simpl.
    rewrite IH. destruct (corroborations provider' anchors) as [provider'' outcomes]. simpl. by rewrite <-!app_assoc.
Qed.

Lemma corroborations_length provider anchors : length (corroborations provider anchors).2 = length anchors.
Proof.
  revert provider. induction anchors as [|anchor anchors IH]; intros provider; simpl; [done|].
  destruct (corroborate_symbol request provider anchor) as [provider' outcome]. specialize (IH provider').
  destruct (corroborations provider' anchors). simpl in *. by rewrite IH.
Qed.

(** Every outcome comes from one request, about its own anchor. *)
Lemma corroborations_lookup provider anchors i anchor outcome :
  anchors !! i = Some anchor → (corroborations provider anchors).2 !! i = Some outcome →
  ∃ provider', (corroborate_symbol request provider' anchor).2 = outcome.
Proof.
  revert provider i. induction anchors as [|a anchors IH]; intros provider [|i]; simpl; [done..| |].
  - intros [= ->]. destruct (corroborate_symbol request provider anchor) as [provider' o] eqn:E.
    destruct (corroborations provider' anchors). simpl. intros [= <-]. exists provider. by rewrite E.
  - destruct (corroborate_symbol request provider a) as [provider' o]. specialize (IH provider' i).
    destruct (corroborations provider' anchors). simpl in *. auto.
Qed.

(** A symbol is confirmed exactly when the provider answers with one symbol at the extracted coordinates. *)
Lemma corroborate_symbol_confirmed provider anchor symbol path local_id :
  (corroborate_symbol request provider anchor).2.1 = Corroborated symbol path local_id ↔
  symbol = sa_symbol anchor ∧ path = sa_source_path anchor ∧
  ∃ found before candidate after,
    (resolve_symbols provider {| rq_request := request; rq_query := sa_symbol anchor |}).2 = Ok found ∧
    rr_symbols found = before ++ candidate :: after ∧ stands_at anchor candidate ∧ sy_local_id candidate = local_id ∧
    ∀ other, other ∈ before ∨ other ∈ after → ¬ stands_at anchor other.
Proof.
  unfold corroborate_symbol. destruct (resolve_symbols _ _) as [provider' [found|error]]; simpl;
    [|split; [done|]; by intros (_ & _ & ? & ? & ? & ? & ? & _)].
  assert (Hone : ∀ x, List.filter (exact_match anchor) (rr_symbols found) = [x] ↔
    stands_at anchor x ∧ ∃ before after, rr_symbols found = before ++ x :: after ∧
      ∀ y, y ∈ before ∨ y ∈ after → ¬ stands_at anchor y).
  { intros x. rewrite filter_one. setoid_rewrite <-exact_match_spec. setoid_rewrite not_true_iff_false. done. }
  split.
  - destruct (List.filter (exact_match anchor) (rr_symbols found)) as [|x [|y l]] eqn:E; simpl; try done.
    intros [= <- <- <-]. destruct (proj1 (Hone x) eq_refl) as (Hx & before & after & Hl & Hrest).
    do 2 (split; [done|]). by exists found, before, x, after.
  - intros (-> & -> & found' & before & candidate & after & [= <-] & Hl & Hc & <- & Hrest).
    rewrite (proj2 (Hone candidate)) by eauto. done.
Qed.
End theorems.

(** ** Theorems *)

(** C26: a report has one outcome per anchor, in order. One is confirmed only where an available provider answered the
    request for that anchor with exactly one symbol of its name, path and line; without an available provider no symbol is
    confirmed, no test is reported and the reason is. *)
Theorem corroboration_exact {S} `{Provider S} (provider : S) repo_id project_path anchors changed_files budget :
  let request := {| pq_repo_id := repo_id; pq_project_path := project_path; pq_budget := budget |} in
  let report := (corroborate_repository provider repo_id project_path anchors changed_files budget).2 in
  length (co_symbols report) = length anchors ∧
  (∀ i anchor symbol path local_id,
     anchors !! i = Some anchor → co_symbols report !! i = Some (Corroborated symbol path local_id) →
     symbol = sa_symbol anchor ∧ path = sa_source_path anchor ∧
     (∃ capability, (probe provider request).2 = Ok capability ∧ pc_status capability = PS_Available) ∧
     ∃ provider' found before candidate after,
       (resolve_symbols provider' {| rq_request := request; rq_query := sa_symbol anchor |}).2 = Ok found ∧
       rr_symbols found = before ++ candidate :: after ∧ stands_at anchor candidate ∧ sy_local_id candidate = local_id ∧
       ∀ other, other ∈ before ∨ other ∈ after → ¬ stands_at anchor other) ∧
  ((∀ capability, (probe provider request).2 = Ok capability → pc_status capability ≠ PS_Available) →
     co_affected_tests report = [] ∧ co_degradations report ≠ [] ∧
     co_symbols report = map (λ anchor, Unresolved (sa_symbol anchor) "local intelligence provider is not available") anchors).
Proof.
  intros request report. subst report. unfold corroborate_repository. fold request.
  destruct (probe provider request) as [provider1 [capability|error]] eqn:Ep; simpl.
  2: { split; [by rewrite length_map|]. split.
       - intros i anchor symbol path local_id _ Hi. by apply list_lookup_fmap_Some in Hi as (a & ? & _).
       - intros _. split; [done|]. split; [|done].
         refine (sorted_unique_nonempty _ (provider_error_text error) _). left. }
  case_bool_decide as Hs; simpl.
  - rewrite corroborate_anchors. pose proof (corroborations_length request provider1 anchors) as Hlen.
    pose proof (corroborations_lookup request provider1 anchors) as Hlook.
    destruct (corroborations request provider1 anchors) as [provider2 outcomes]. simpl in *.
    destruct (corroborate_affected_tests request provider2 changed_files) as [provider3 [tests observed]]. simpl.
    split; [by rewrite length_map|]. split; [|by intros Hno; destruct (Hno _ eq_refl)].
    intros i anchor symbol path local_id Ha Hi. apply list_lookup_fmap_Some in Hi as ([outcome messages] & Eo & Ho). simpl in Eo. subst outcome.
    apply (Hlook i anchor) in Ho as [provider' Ho]; [|done].
    assert (Hc : (corroborate_symbol request provider' anchor).2.1 = Corroborated symbol path local_id) by by rewrite Ho.
    apply corroborate_symbol_confirmed in Hc as (-> & -> & found & before & candidate & after & Hfound).
    do 2 (split; [done|]). split; [eauto|]. by exists provider', found, before, candidate, after.
  - split; [by rewrite length_map|]. split.
    + intros i anchor symbol path local_id _ Hi. by apply list_lookup_fmap_Some in Hi as (a & ? & _).
    + intros _. split; [done|]. split; [|done].
      refine (sorted_unique_nonempty _ (pc_provider capability +:+ " local intelligence status is "
        +:+ provider_status_debug (pc_status capability)) _). rewrite elem_of_app. right. left.
Qed.

Module Example_corroboration.
(** A provider that answers every query with the same symbols and may have cut its answer short. *)
Record Fixed := { fx_status : ProviderStatus; fx_symbols : list ResolvedSymbol; fx_truncated : bool }.
#[export] Instance fixed_provider : Provider Fixed :=
  {| probe := λ s _, (s, Ok {| pc_provider := "codegraph"; pc_version := None; pc_status := fx_status s; pc_tools := [];
                               pc_protocol_version := None; pc_operations := []; pc_degradations := []; pc_remediation := None |});
     resolve_symbols := λ s _, (s, Ok {| rr_symbols := fx_symbols s;
       rr_execution := {| px_transport := PT_Mcp; px_output_bytes := 0; px_truncated := fx_truncated s; px_degradations := [] |} |});
     get_affected_tests := λ s _, (s, Ok None) |}.
Definition symbol (name path : string) (line : N) : ResolvedSymbol :=
  {| sy_local_id := Some "7"; sy_name := name; sy_qualified_name := Some ("App." +:+ name); sy_kind := "function";
     sy_file_path := path; sy_start_line := line; sy_score := None |}.
Definition anchor : SymbolAnchor := {| sa_symbol := "App.load"; sa_source_path := "src/load.ts"; sa_start_line := 4 |}.
Definition budget : ProviderBudget := {| pb_timeout_millis := 5000; pb_max_output_bytes := 1048576; pb_max_items := 50 |}.
Definition outcome (provider : Fixed) (anchors : list SymbolAnchor) (changed : list string) :=
  let report := (corroborate_repository provider "repo:web" "/web" anchors changed budget).2 in
  (co_symbols report, co_degradations report).

Example corroborated :
  outcome {| fx_status := PS_Available; fx_symbols := [symbol "load" "src\load.ts" 4; symbol "load" "src/load.ts" 9]; fx_truncated := false |}
    [anchor] [] = ([Corroborated "App.load" "src/load.ts" (Some "7")], []) ∧
  outcome {| fx_status := PS_Available; fx_symbols := [symbol "load" "src/load.ts" 4; symbol "load" "src/load.ts" 4]; fx_truncated := false |}
    [anchor] ["a.ts"] = ([AmbiguousSymbol "App.load" 2], ["affected-test capability unavailable"]) ∧
  outcome {| fx_status := PS_Stale; fx_symbols := []; fx_truncated := false |} [anchor] ["a.ts"]
    = ([Unresolved "App.load" "local intelligence provider is not available"],
       ["codegraph local intelligence status is Stale"]).
Proof. vm_compute. done. Qed.

(** An answer that was cut short confirms a symbol all the same, without a degradation. *)
Example truncated_answer_confirms :
  outcome {| fx_status := PS_Available; fx_symbols := [symbol "load" "src/load.ts" 4]; fx_truncated := true |} [anchor] []
    = ([Corroborated "App.load" "src/load.ts" (Some "7")], []).
Proof. vm_compute. done. Qed.
End Example_corroboration.
