(* ===== verification/Registry.v ===== *)
(** * Workspace registry ([crates/code-system-graph-core/src/registry.rs])

    The identities of the repositories of a manifest: canonical checkouts within the allowed
    roots, normalized remotes, and the process-wide cache of the remotes. The file system and
    [git] are the class [Host], the [url] crate is [UrlParser]; paths are the byte strings of a
    Unix build. *)
From stdpp Require Import base gmap sets list strings sorting.
From Stdlib Require Import Ascii.
From S2P Require Import Prelude RustOrd RustFloat RustStr RustBytes RustText Model IgnorePolicy ManualLinks Manifest.

(** ** Records *)
Record RepositoryRecord := {
  rp_id : RepoId;
  rp_checkout_id : CheckoutId;
  rp_alias : string;
  rp_canonical_path : NativePath;
  rp_git_common_dir : option NativePath;
  rp_normalized_remote : option string;
  rp_head_commit : option string;
  rp_is_linked_worktree : bool;
  rp_working_tree_dirty : bool;
}.

Record WorkspaceRecord := {
  wr_id : string;
  wr_name : string;
  wr_manifest_hash : string;
  wr_config_path : option NativePath;
  wr_repositories : list RepositoryRecord;
}.

Record RegisteredWorkspace := { rw_record : WorkspaceRecord; rw_checkout_paths : gmap string string }.

Definition checkout_path (workspace : RegisteredWorkspace) (alias : string) : option string :=
  rw_checkout_paths workspace !! alias.

Inductive RegistryError :=
| ManifestParentMissing (path : string)
| Canonicalize (path : string)
| OutsideAllowedRoots (alias path : string).

(** ** The host *)

(** Modification time, in nanoseconds, and length of a file. *)
Notation ConfigStamp := (N * N)%type.

(** [fs::canonicalize], [Path::exists], [Path::is_file], the metadata of a file, the standard output of a [git -C]
    command that succeeds, and the clock. *)
Class Host := {
  fs_canonicalize : string → option string;
  fs_exists : string → bool;
  fs_is_file : string → bool;
  fs_stamp : string → option ConfigStamp;
  git_stdout : string → list string → option string;
  host_now : N;
}.

(** [Url::parse]: the scheme, the host and the path of a URL. *)
Class UrlParser := url_parse : string → option (string * option string * string).

(** ** Paths *)
Definition path_components (path : string) : list string :=
  List.filter (λ component, negb (String.eqb component "")) (split_by (Ascii.eqb "/") path).

(** [path.starts_with(root)] of canonical paths. *)
Definition within (path root : string) : bool := IgnorePolicy.path_starts_with (path_components path) (path_components root).

(** [Path::parent] of a canonical path. *)
Definition path_parent (path : string) : option string :=
  if String.eqb path "/" then None
  else match rsplit_once "/" path with
       | Some (parent, _) => Some (if String.eqb parent "" then "/" else parent)
       | None => None
       end.

Definition resolve_path (base path : string) : string :=
  if starts_with "/" path then path else path_join base path.

Definition encode_native_path (path : string) : NativePath :=
  {| np_encoding := UnixBytes; np_bytes := byte_list path; np_display := from_utf8_lossy path |}.

(** ** Remotes *)

(** [s.trim_start_matches(c)], [s.trim_matches(c)] and [s.trim_end_matches(pat)]. *)
Fixpoint trim_start_char (c : ascii) (s : string) : string :=
  match s with
  | String d rest => if Ascii.eqb c d then trim_start_char c rest else s
  | EmptyString => EmptyString
  end.
Definition trim_char (c : ascii) (s : string) : string := trim_end_char c (trim_start_char c s).
Fixpoint trim_end_str_fuel (fuel : nat) (pat s : string) : string :=
  match fuel with
  | O => s
  | S fuel => match strip_suffix pat s with Some rest => trim_end_str_fuel fuel pat rest | None => s end
  end.
Definition trim_end_str (pat s : string) : string := trim_end_str_fuel (String.length s) pat s.

(** [s.replace(c, d)] for single characters. *)
Fixpoint replace_char (c d : ascii) (s : string) : string :=
  match s with
  | EmptyString => EmptyString
  | String e rest => String (if Ascii.eqb c e then d else e) (replace_char c d rest)
  end.

Definition clean_remote_path (path : string) : string :=
  replace_char "\" "/" (trim_end_str ".git" (trim_char "/" (trim path))).

Definition scp_remote_parts (remote : string) : option (string * string) :=
  if contains_str "://" remote then None
  else
    '(authority, path) ← split_once ":" remote;
    let host := match rsplit_once "@" authority with Some (_, host) => host | None => authority end in
    if negb (String.eqb host "") && negb (String.eqb path "") then Some (host, path) else None.

Definition normalize_remote `{UrlParser} (remote : string) : string :=
  let trimmed := trim remote in
  match scp_remote_parts trimmed with
  | Some (authority, path) => to_ascii_lowercase authority +:+ "/" +:+ clean_remote_path path
  | None =>
      match url_parse trimmed with
      | Some (_, Some host, path) => to_ascii_lowercase host +:+ "/" +:+ clean_remote_path path
      | Some (scheme, None, path) => scheme +:+ ":" +:+ clean_remote_path path
      | None => clean_remote_path trimmed
      end
  end.

(** ** Git *)
Section registry.
Context `{Blake3} `{UrlParser} `{Host}.

Definition is_ascii_whitespace (c : ascii) : bool :=
  bool_decide (N_of_ascii c ∈ [32; 9; 10; 12; 13]%N).

(** [trim_ascii]: white space at the end. *)
Fixpoint trim_ascii (bytes : string) : string :=
  match bytes with
  | EmptyString => EmptyString
  | String c rest =>
      match trim_ascii rest with
      | EmptyString => if is_ascii_whitespace c then EmptyString else String c EmptyString
      | rest => String c rest
      end
  end.

Definition git_output (checkout : string) (arguments : list string) : option string :=
  option_map trim_ascii (git_stdout checkout arguments).

Definition git_text (checkout : string) (arguments : list string) : option string :=
  bytes ← git_output checkout arguments;
  let value := trim (from_utf8_lossy bytes) in
  if String.eqb value "" then None else Some value.

Definition git_path (checkout : string) (arguments : list string) : option string := git_output checkout arguments.

Definition git_common_directory (checkout : string) : option string :=
  match
    match git_path checkout ["rev-parse"; "--path-format=absolute"; "--git-common-dir"] with
    | Some path => Some path
    | None => option_map (resolve_path checkout) (git_path checkout ["rev-parse"; "--git-common-dir"])
    end
  with
  | Some path => fs_canonicalize path
  | None => None
  end.

(** ** The cache of remotes *)
Definition REMOTE_CACHE_RACY_WINDOW : N := 2000000000.

Notation RemoteCache := (gmap string (ConfigStamp * option string)).

Definition config_path (checkout : string) (common_dir : option string) : string :=
  match common_dir with
  | Some common => path_join common "config"
  | None => path_join (path_join checkout ".git") "config"
  end.

(** The stamp of a configuration that was last written long enough ago. *)
Definition settled_stamp (path : string) : option ConfigStamp :=
  stamp ← fs_stamp path;
  if ((stamp.1 <=? host_now) && (REMOTE_CACHE_RACY_WINDOW <=? host_now - stamp.1))%N then Some stamp else None.

Definition read_remote (checkout : string) : option string := git_text checkout ["remote"; "get-url"; "origin"].

Definition origin_remote (checkout : string) (common_dir : option string) (cache : RemoteCache)
    : RemoteCache * option string :=
  let path := config_path checkout common_dir in
  let stamp := settled_stamp path in
  let cached :=
    stamp ← stamp;
    entry ← cache !! path;
    if bool_decide (entry.1 = stamp) then Some entry.2 else None in
  match cached with
  | Some remote => (cache, remote)
  | None =>
      let remote := read_remote checkout in
      (match stamp with Some stamp => <[path := (stamp, remote)]> cache | None => cache end, remote)
  end.

(** ** Registration *)
Definition canonicalize (path : string) : result RegistryError string := ok_or (fs_canonicalize path) (Canonicalize path).

Definition ensure_allowed (alias path : string) (allowed_roots : list string) : result RegistryError unit :=
  if existsb (within path) allowed_roots then Ok tt else Err (OutsideAllowedRoots alias path).

Definition native_path_fingerprint (path : NativePath) : string :=
  let namespace :=
    match np_encoding path with UnixBytes => "path-unix" | WindowsWide => "path-windows" | Utf8 => "path-utf8" end in
  stable_id_bytes namespace (string_of_bytes (np_bytes path)).

Definition repository_key (normalized_remote : option string) (common : option NativePath) (checkout : NativePath) : string :=
  match normalized_remote with
  | Some remote => "remote:" +:+ remote
  | None =>
      match common with
      | Some common => "git:" +:+ native_path_fingerprint common
      | None => "path:" +:+ native_path_fingerprint checkout
      end
  end.

(** The root of the working tree, when the configured path is one. *)
Definition git_root (configured : string) : option string :=
  if fs_exists (path_join configured ".git") then
    path ← git_path configured ["rev-parse"; "--show-toplevel"];
    canonical ← fs_canonicalize path;
    if String.eqb canonical configured then Some canonical else None
  else None.

Definition register_repository (alias configured_path config_directory : string) (allowed_roots : list string)
    (cache : RemoteCache) : RemoteCache * result RegistryError (RepositoryRecord * string) :=
  match canonicalize (resolve_path config_directory configured_path) with
  | Err error => (cache, Err error)
  | Ok configured =>
      let root := git_root configured in
      let is_git := is_some root in
      let checkout := default configured root in
      match ensure_allowed alias checkout allowed_roots with
      | Err error => (cache, Err error)
      | Ok _ =>
          let common := if is_git then git_common_directory checkout else None in
          match match common with Some common => ensure_allowed alias common allowed_roots | None => Ok tt end with
          | Err error => (cache, Err error)
          | Ok _ =>
              let '(cache, remote) := if is_git then origin_remote checkout common cache else (cache, None) in
              let normalized_remote := option_map normalize_remote remote in
              let head_commit := if is_git then git_text checkout ["rev-parse"; "HEAD"] else None in
              let working_tree_dirty :=
                is_git && is_some_and (git_output checkout ["status"; "--porcelain"; "--untracked-files=normal"])
                            (λ output, negb (String.eqb output "")) in
              let native_checkout := encode_native_path checkout in
              let native_common := option_map encode_native_path common in
              let repo_id := stable_id "repo" (repository_key normalized_remote native_common native_checkout) in
              let checkout_id :=
                stable_id "checkout" (repo_id +:+ ":" +:+ native_path_fingerprint native_checkout) in
              (cache,
               Ok ({| rp_id := repo_id;
                      rp_checkout_id := checkout_id;
                      rp_alias := alias;
                      rp_canonical_path := native_checkout;
                      rp_git_common_dir := native_common;
                      rp_normalized_remote := normalized_remote;
                      rp_head_commit := head_commit;
                      rp_is_linked_worktree := fs_is_file (path_join checkout ".git");
                      rp_working_tree_dirty := working_tree_dirty |}, checkout))
          end
      end
  end.

(** The workers register in some order, each through the shared cache; here in the order of the aliases. *)
Fixpoint register_all (configured : list (string * string)) (config_directory : string) (allowed_roots : list string)
    (cache : RemoteCache) : RemoteCache * list (result RegistryError (RepositoryRecord * string)) :=
  match configured with
  | [] => (cache, [])
  | (alias, path) :: configured =>
      let '(cache, registered) := register_repository alias path config_directory allowed_roots cache in
      let '(cache, rest) := register_all configured config_directory allowed_roots cache in
      (cache, registered :: rest)
  end.

Definition path_order : string → string → comparison := cmp_on path_components cmp.
Definition alias_order : RepositoryRecord → RepositoryRecord → comparison := cmp_on rp_alias cmp.

Definition allowed_roots_of (config_directory : string) (manifest : WorkspaceManifest) : result RegistryError (list string) :=
  let? roots := try_map (λ root, canonicalize (resolve_path config_directory root)) (wm_allowed_roots manifest) in
  Ok (dedup_by (λ a b, bool_decide (path_components a = path_components b))
        (sort_by path_order (config_directory :: roots))).

Definition register_workspace (config manifest_source : string) (manifest : WorkspaceManifest) (cache : RemoteCache)
    : RemoteCache * result RegistryError RegisteredWorkspace :=
  match
    let? canonical_config := canonicalize config in
    let? config_directory := ok_or (path_parent canonical_config) (ManifestParentMissing config) in
    let? allowed_roots := allowed_roots_of config_directory manifest in
    Ok (canonical_config, config_directory, allowed_roots)
  with
  | Err error => (cache, Err error)
  | Ok (canonical_config, config_directory, allowed_roots) =>
      let configured := map (λ entry, (entry.1, rc_path entry.2)) (btree_entries (wm_repos manifest)) in
      let '(cache, outcomes) := register_all configured config_directory allowed_roots cache in
      (cache,
       let? registered := try_map (λ outcome, outcome) outcomes in
       Ok {| rw_record :=
               {| wr_id := stable_id "workspace"
                             (wm_name manifest +:+ ":" +:+ native_path_fingerprint (encode_native_path config_directory));
                  wr_name := wm_name manifest;
                  wr_manifest_hash := stable_id "manifest" manifest_source;
                  wr_config_path := Some (encode_native_path canonical_config);
                  wr_repositories := sort_by alias_order (map fst registered) |};
             rw_checkout_paths := btree_collect (map (λ entry, (rp_alias entry.1, entry.2)) registered) |})
  end.
End registry.

(** ** Lemmas *)
Section facts.
Context `{Blake3} `{UrlParser} `{Host}.

(** What [git] documents of remotes: they are those of the configuration, which linked worktrees share. *)
Definition remotes_shared : Prop :=
  ∀ checkout common checkout' common',
    config_path checkout common = config_path checkout' common' → read_remote checkout = read_remote checkout'.

(** Every entry of the cache that the present stamp of its configuration validates is what [git] answers. *)
Definition cache_sound (cache : gmap string (ConfigStamp * option string)) : Prop :=
  ∀ path stamp remote, cache !! path = Some (stamp, remote) → fs_stamp path = Some stamp →
    ∀ checkout common, config_path checkout common = path → read_remote checkout = remote.

Lemma settled_stamp_fs path stamp : settled_stamp path = Some stamp → fs_stamp path = Some stamp.
Proof. unfold settled_stamp. destruct (fs_stamp path) as [s|]; simpl; [|done]. by case_match; intros [= ->]. Qed.

(** The cached answer is the answer. *)
Lemma origin_remote_exact checkout common cache :
  remotes_shared → cache_sound cache →
  (origin_remote checkout common cache).2 = read_remote checkout ∧ cache_sound (origin_remote checkout common cache).1.
Proof.
  intros Hshared Hs. unfold origin_remote. destruct (settled_stamp (config_path checkout common)) as [stamp|] eqn:Est; simpl; [|done].
  pose proof (settled_stamp_fs _ _ Est) as Hst.
  assert (Hnew : cache_sound (<[config_path checkout common := (stamp, read_remote checkout)]> cache)).
  { intros path stamp' remote. destruct (decide (path = config_path checkout common)) as [->|Hne].
    - rewrite lookup_insert_eq. intros [= <- <-] _ checkout' common' E. by eapply Hshared.
    - rewrite lookup_insert_ne by done. apply Hs. }
  destruct (cache !! config_path checkout common) as [[stamp' remote]|] eqn:Ec; simpl; [|done].
  case_bool_decide as Hd; simpl; [|done]. subst stamp'. split; [|done]. symmetry. by eapply Hs.
Qed.

Lemma register_repository_uncached alias path directory roots cache :
  remotes_shared → cache_sound cache →
  (register_repository alias path directory roots cache).2 = (register_repository alias path directory roots ∅).2 ∧
  cache_sound (register_repository alias path directory roots cache).1.
Proof.
  intros Hshared Hs. assert (Hempty : cache_sound ∅) by (intros p stamp remote; by rewrite lookup_empty).
  unfold register_repository. destruct (canonicalize _) as [configured|error]; [|done]. cbv zeta.
  destruct (ensure_allowed alias _ roots); [|done].
  destruct (match (if is_some (git_root configured) then _ else _) with Some _ => _ | None => _ end); [|done].
  destruct (git_root configured) as [root|]; cbn [is_some]; [|done].
  pose proof (origin_remote_exact (default configured (Some root)) (git_common_directory (default configured (Some root))) cache Hshared Hs) as [E Hs'].
  pose proof (origin_remote_exact (default configured (Some root)) (git_common_directory (default configured (Some root))) ∅ Hshared Hempty) as [E0 _].
  destruct (origin_remote _ _ cache) as [cache' remote], (origin_remote _ _ ∅) as [cache0 remote0]. simpl in *. by subst.
Qed.

(** A registration does not depend on what the cache holds. *)
Lemma register_all_uncached configured directory roots cache :
  remotes_shared → cache_sound cache →
  (register_all configured directory roots cache).2
    = map (λ entry, (register_repository entry.1 entry.2 directory roots ∅).2) configured.
Proof.
  intros Hshared. revert cache. induction configured as [|[alias path] configured IH]; intros cache Hs; simpl; [done|].
  pose proof (register_repository_uncached alias path directory roots cache Hshared Hs) as [E Hs'].
  destruct (register_repository alias path directory roots cache) as [cache' registered]. simpl in *.
  pose proof (IH cache' Hs') as E'. destruct (register_all configured directory roots cache') as [cache'' rest]. simpl in *. by subst.
Qed.

Lemma register_all_aliases configured directory roots cache :
  Forall2 (λ entry outcome, ∃ cache', outcome = (register_repository entry.1 entry.2 directory roots cache').2)
    configured (register_all configured directory roots cache).2.
Proof.
  revert cache. induction configured as [|[alias path] configured IH]; intros cache; simpl; [constructor|].
  destruct (register_repository alias path directory roots cache) as [cache' registered] eqn:E.
  specialize (IH cache'). destruct (register_all configured directory roots cache') as [cache'' rest]. simpl in *.
  constructor; [|done]. exists cache. simpl. by rewrite E.
Qed.

(** The repository of a path: canonical, within a root, with its Git directory within a root too. *)
Lemma register_repository_within alias path directory roots cache record checkout :
  (register_repository alias path directory roots cache).2 = Ok (record, checkout) →
  rp_alias record = alias ∧ rp_canonical_path record = encode_native_path checkout ∧
  fs_canonicalize (resolve_path directory path) = Some checkout ∧
  (∃ root, root ∈ roots ∧ within checkout root = true) ∧
  (∀ common, rp_git_common_dir record = Some common →
     ∃ p root, common = encode_native_path p ∧ root ∈ roots ∧ within p root = true).
Proof.
  unfold register_repository, canonicalize. destruct (fs_canonicalize _) as [configured|] eqn:Ec; simpl; [|done].
  assert (Hroot : default configured (git_root configured) = configured).
  { unfold git_root. destruct (fs_exists _); [|done]. destruct (git_path _ _) as [p|]; simpl; [|done].
    destruct (fs_canonicalize p) as [c|]; simpl; [|done]. destruct (String.eqb_spec c configured) as [->|]; done. }
  rewrite Hroot. unfold ensure_allowed at 1. destruct (existsb (within configured) roots) eqn:Ew; [|done].
  apply existsb_In in Ew as (root & Hin & Hw).
  set (common := if is_some (git_root configured) then git_common_directory configured else None).
  destruct (match common with Some common => ensure_allowed alias common roots | None => Ok tt end) as [u|] eqn:Eg; [|done].
  match goal with |- context [match ?x with (_, _) => _ end] => destruct x as [cache' remote] end. simpl.
  intros [= <- <-]. simpl.
  split_and!; [done..| |]; [eauto|]. intros c. destruct common as [p|]; simpl; [|done]. intros [= <-].
  unfold ensure_allowed in Eg. destruct (existsb (within p) roots) eqn:Ep; [|done].
  apply existsb_In in Ep as (r & Hr & Hp). eauto.
Qed.

Lemma within_spec path root : within path root = true ↔ ∃ rest, path_components path = path_components root ++ rest.
Proof. apply path_starts_with_app. Qed.
End facts.

(** ** Remotes *)

(** The path of a repository on its host: some text without blanks, slashes or blanks at its ends, backslashes, colons or
    a [.git] suffix. *)
Definition clean_path (path : string) : Prop :=
  path ≠ "" ∧ solid path ∧ (∀ s, path ≠ String "/" s) ∧ contains_char "\" path = false ∧ contains_char ":" path = false ∧
  ends_with ".git" path = false.

Lemma string_snoc_inj s t c d : s +:+ String c "" = t +:+ String d "" → s = t ∧ c = d.
Proof.
  revert t. induction s as [|e s IH]; intros [|f t]; simpl.
  - by intros [= ->].
  - intros [= _ E]. symmetry in E. by apply string_app_nil in E as [_ E].
  - intros [= _ E]. by apply string_app_nil in E as [_ E].
  - intros [= -> E]. by destruct (IH t E) as [-> ->].
Qed.

Lemma rsplit_once_char c before after : contains_char c after = false →
  rsplit_once c (before +:+ String c after) = Some (before, after).
Proof.
  intros Ha. assert (Hnone : rsplit_once c after = None).
  { revert Ha. unfold contains_char. induction after as [|d after IH]; [done|]. cbn [str_any rsplit_once].
    intros [Hd Ha]%orb_false_iff. by rewrite IH, Hd. }
  induction before as [|d before IH]; simpl; [by rewrite Hnone, Ascii.eqb_refl|]. by rewrite IH.
Qed.

Lemma replace_char_none c d s : contains_char c s = false → replace_char c d s = s.
Proof.
  unfold contains_char. induction s as [|e s IH]; simpl; [done|]. intros [-> Hs]%orb_false_iff. by rewrite IH.
Qed.

Lemma trim_end_str_once pat s : pat ≠ "" → ends_with pat s = false → trim_end_str pat (s +:+ pat) = s.
Proof.
  intros Hpat Hs. unfold trim_end_str.
  assert (Hlen : ∃ n, String.length (s +:+ pat) = S n).
  { rewrite string_length_app. destruct pat; [done|]. simpl. exists (String.length s + String.length pat)%nat. lia. }
  destruct Hlen as [n ->]. simpl. rewrite strip_suffix_app.
  unfold ends_with in Hs. apply bool_decide_eq_false in Hs. destruct n; simpl; [done|].
  destruct (strip_suffix pat s) eqn:E; [|done]. exfalso. by apply Hs.
Qed.

Lemma trim_end_char_snoc c d s : c ≠ d → trim_end_char c (s +:+ String d "") = s +:+ String d "".
Proof.
  intros Hcd. induction s as [|e s IH]; simpl.
  - by destruct (Ascii.eqb_spec c d).
  - rewrite IH. by destruct s.
Qed.

Lemma clean_git_path path : clean_path path → clean_remote_path (path +:+ ".git") = path ∧ clean_remote_path ("/" +:+ path +:+ ".git") = path.
Proof.
  intros (Hne & (Hascii & Hfirst & Hlast) & Hslash & Hback & Hcolon & Hgit).
  assert (Hasc : is_ascii (path +:+ ".git")) by (apply is_ascii_app; done).
  assert (Hends : ∀ a, ∀ c s, a +:+ path +:+ ".git" = s +:+ String c "" → blank_byte c = false).
  { intros a c s E. replace (a +:+ path +:+ ".git") with ((a +:+ path +:+ ".gi") +:+ "t") in E
      by (rewrite <-!string_app_assoc; done). apply string_snoc_inj in E as [_ <-]. done. }
  assert (Hrest : trim_end_str ".git" (trim_end_char "/" (path +:+ ".git")) = path).
  { replace (path +:+ ".git") with ((path +:+ ".gi") +:+ "t") by (rewrite <-string_app_assoc; done).
    rewrite trim_end_char_snoc by done. rewrite <-string_app_assoc. by apply trim_end_str_once. }
  assert (Hstart : trim_start_char "/" (path +:+ ".git") = path +:+ ".git").
  { destruct path as [|c path]; [done|]. cbn [String.append trim_start_char]. destruct (Ascii.eqb_spec "/" c) as [<-|]; [|reflexivity]. by destruct (Hslash path). }
  unfold clean_remote_path, trim_char. split.
  - rewrite trim_solid, Hstart, Hrest, replace_char_none; [done..|]. split; [done|]. split; [|apply (Hends "")].
    intros c s E. destruct path as [|d path]; [done|]. injection E as <- _. by eapply Hfirst.
  - rewrite trim_solid; [|split; [by apply is_ascii_app|split; [by intros c s [= <- _]|apply (Hends "/")]]].
    change (trim_start_char "/" ("/" +:+ path +:+ ".git")) with (trim_start_char "/" (path +:+ ".git")).
    by rewrite Hstart, Hrest, replace_char_none.
Qed.

(** One colon, and no slash after it: not the start of a URL. *)
Lemma no_scheme authority path :
  contains_char ":" authority = false → contains_char ":" path = false → (∀ s, path ≠ String "/" s) →
  contains_str "://" (authority +:+ ":" +:+ path) = false.
Proof.
  intros Ha Hp Hs. destruct (contains_str _ _) eqn:E; [|done]. exfalso.
  apply contains_str_spec in E as (a & b & E). change ("://" +:+ b) with (":" +:+ "//" +:+ b) in E.
  destruct (contains_char ":" a) eqn:Ea.
  - assert (Hin : contains_char ":" (a +:+ ":" +:+ "//" +:+ b) = true) by (by rewrite contains_char_app, Ea).
    destruct (split_once ":" a) as [[x y]|] eqn:Ex.
    + pose proof (split_once_Some_app _ _ _ _ Ex) as Ea'. pose proof (split_once_char_before _ _ _ _ Ex) as Hx.
      rewrite Ea' in E. replace ((x +:+ ":" +:+ y) +:+ ":" +:+ "//" +:+ b) with (x +:+ ":" +:+ y +:+ ":" +:+ "//" +:+ b) in E
        by (by rewrite <-!string_app_assoc).
      apply (split_at_char ":"%char) in E as [_ E]; [|done..]. rewrite E in Hp. rewrite !contains_char_app in Hp.
      simpl in Hp. by rewrite orb_true_r in Hp.
    + apply split_once_char_None in Ex. congruence.
  - apply (split_at_char ":"%char) in E as [_ E]; [|done..]. by apply (Hs ("/" +:+ b)).
Qed.

(** ** Theorems *)

(** C16: the remotes of one repository normalise to one identity, its host in lower case and its path: the form [user@host:path.git]
    and every URL of that host and path, whatever user or credential they carry. *)
Theorem remotes_agree `{UrlParser} user host path url scheme url_host :
  contains_char ":" user = false → contains_char ":" host = false → contains_char "@" host = false → host ≠ "" →
  clean_path path → trim (user +:+ "@" +:+ host +:+ ":" +:+ path +:+ ".git") = user +:+ "@" +:+ host +:+ ":" +:+ path +:+ ".git" →
  trim url = url → contains_str "://" url = true →
  url_parse url = Some (scheme, Some url_host, "/" +:+ path +:+ ".git") → to_ascii_lowercase url_host = to_ascii_lowercase host →
  normalize_remote (user +:+ "@" +:+ host +:+ ":" +:+ path +:+ ".git") = to_ascii_lowercase host +:+ "/" +:+ path ∧
  normalize_remote url = to_ascii_lowercase host +:+ "/" +:+ path.
Proof.
  intros Hu Hh Hat Hne Hclean Htrim Hturl Hscheme Hparse Hlower. destruct (clean_git_path path Hclean) as [Hscp Hurl].
  destruct Hclean as (Hpne & _ & Hslash & _ & Hcolon & _). unfold normalize_remote. split.
  - rewrite Htrim. unfold scp_remote_parts.
    assert (Hauth : contains_char ":" (user +:+ "@" +:+ host) = false) by (by rewrite !contains_char_app, Hu, Hh).
    replace (user +:+ "@" +:+ host +:+ ":" +:+ path +:+ ".git") with ((user +:+ "@" +:+ host) +:+ ":" +:+ path +:+ ".git")
      by (by rewrite <-!string_app_assoc).
    rewrite no_scheme; [|done|by rewrite contains_char_app, Hcolon|intros s E; destruct path as [|c path]; [done|]; injection E as -> _; by destruct (Hslash path)].
    change (":" +:+ path +:+ ".git") with (String ":" (path +:+ ".git")). rewrite (split_once_char ":"%char) by done.
    cbn [mbind option_bind]. change ("@" +:+ host) with (String "@" host). rewrite (rsplit_once_char "@"%char) by done.
    rewrite (proj2 (String.eqb_neq host "") Hne). destruct (String.eqb_spec (path +:+ ".git") "") as [E|_].
    + by apply string_app_nil in E as [_ E].
    + simpl. by rewrite Hscp.
  - rewrite Hturl. unfold scp_remote_parts. rewrite Hscheme, Hparse, Hurl. by rewrite Hlower.
Qed.

Lemma strict_ascending {A} `{Ord A} (l : list A) : strictly_sorted l → StronglySorted (cmp_le cmp) l.
Proof.
  induction 1 as [|x l _ IH Hx]; constructor; [done|]. eapply Forall_impl; [exact Hx|]. unfold cmp_le. by intros y ->.
Qed.

Section registration.
Context `{Blake3} `{UrlParser} `{Host}.

(** A path within a root: the components of the root come first. *)
Definition below (path root : string) : Prop := ∃ rest, path_components path = path_components root ++ rest.

(** The roots of a manifest: its own directory, and the canonical form of every root it declares. *)
Definition declared_root (directory : string) (manifest : WorkspaceManifest) (root : string) : Prop :=
  root = directory ∨ ∃ declared, declared ∈ wm_allowed_roots manifest ∧ fs_canonicalize (resolve_path directory declared) = Some root.

Lemma allowed_roots_declared directory manifest roots root :
  allowed_roots_of directory manifest = Ok roots → root ∈ roots → declared_root directory manifest root.
Proof.
  unfold allowed_roots_of. intros (declared & Hd & [= <-])%result_bind_Ok Hroot.
  apply dedup_by_subset in Hroot. apply (sort_by_elem_of path_order (directory :: declared)), elem_of_cons in Hroot as [->|Hroot]; [by left|]. right.
  apply try_map_Ok in Hd. apply list_elem_of_lookup in Hroot as [i Hi].
  destruct (Forall2_lookup_r _ _ _ _ _ Hd Hi) as (text & Ht & Hc). exists text.
  split; [by eapply list_elem_of_lookup_2|]. unfold canonicalize in Hc. by apply ok_or_Ok in Hc.
Qed.

(** C7: a registration that succeeds has one repository for every alias of the manifest, in their order. The checkout of
    each is the canonical form of its path, and it and its Git directory lie within the directory of the manifest or
    within a root that the manifest declares, whatever links lead there. *)
Theorem registration_contained config source manifest cache workspace :
  (register_workspace config source manifest cache).2 = Ok workspace →
  ∃ canonical_config directory,
    fs_canonicalize config = Some canonical_config ∧ path_parent canonical_config = Some directory ∧
    map rp_alias (wr_repositories (rw_record workspace)) = btree_keys (wm_repos manifest) ∧
    ∀ record, record ∈ wr_repositories (rw_record workspace) →
      ∃ settings checkout,
        wm_repos manifest !! rp_alias record = Some settings ∧
        checkout_path workspace (rp_alias record) = Some checkout ∧
        rp_canonical_path record = encode_native_path checkout ∧
        fs_canonicalize (resolve_path directory (rc_path settings)) = Some checkout ∧
        (∃ root, declared_root directory manifest root ∧ below checkout root) ∧
        (∀ common, rp_git_common_dir record = Some common →
           ∃ p root, common = encode_native_path p ∧ declared_root directory manifest root ∧ below p root).
Proof.
  unfold register_workspace.
  destruct (result_bind (canonicalize config) _) as [[[canonical_config directory] roots]|] eqn:Ectx; [|done].
  apply result_bind_Ok in Ectx as (c & Hc & (d & Hd & (r & Hroots & [= -> -> ->])%result_bind_Ok)%result_bind_Ok).
  unfold canonicalize in Hc. apply ok_or_Ok in Hc, Hd.
  set (configured := map (λ entry, (entry.1, rc_path entry.2)) (btree_entries (wm_repos manifest))).
  pose proof (register_all_aliases configured directory roots cache) as Hall.
  destruct (register_all configured directory roots cache) as [cache' outcomes]. simpl in Hall |- *.
  intros (registered & Hreg & [= <-])%result_bind_Ok. simpl.
  apply try_map_Ok in Hreg. exists canonical_config, directory. do 2 (split; [done|]).
  assert (Hpairs : Forall2 (λ entry pair, ∃ cache0,
      (register_repository entry.1 entry.2 directory roots cache0).2 = Ok pair) configured registered).
  { clear -Hall Hreg. revert registered Hreg. induction Hall as [|entry outcome entries outcomes [cache0 ->] _ IH];
      intros registered Hreg; inversion Hreg; subst; constructor; eauto. }
  assert (Haliases : map (λ pair, rp_alias pair.1) registered = btree_keys (wm_repos manifest)).
  { unfold btree_keys. transitivity (map fst configured); [|unfold configured; by rewrite map_map].
    clear -Hpairs. induction Hpairs as [|entry [record checkout] entries pairs [cache0 Hp] _ IH]; simpl; [done|].
    apply register_repository_within in Hp as (-> & _). by rewrite IH. }
  assert (Hnd : NoDup (map (λ pair : RepositoryRecord * string, rp_alias pair.1) registered)).
  { rewrite Haliases. apply strictly_sorted_NoDup, btree_entries_keys_strict. }
  split.
  - rewrite (sort_by_map rp_alias alias_order cmp) by done. rewrite map_map, Haliases.
    apply sort_by_id, strict_ascending, btree_entries_keys_strict.
  - intros record Hrec. apply sort_by_elem_of, list_elem_of_fmap in Hrec as ([record' checkout] & -> & Hin). simpl.
    apply list_elem_of_lookup in Hin as [i Hi]. destruct (Forall2_lookup_r _ _ _ _ _ Hpairs Hi) as ([alias path] & Hentry & cache0 & Hp).
    apply register_repository_within in Hp as (Halias & Hcanon & Hfs & (root & Hroot & Hw) & Hcommon). simpl in *. subst alias.
    unfold configured in Hentry. apply list_lookup_fmap_Some in Hentry as ([alias settings] & [= <- ->] & Hset).
    exists settings, checkout. split_and!; [|..].
    + apply btree_entries_elem_of. by eapply list_elem_of_lookup_2.
    + unfold checkout_path. cbn [rw_checkout_paths]. apply btree_collect_NoDup.
      * by rewrite <-list_fmap_compose.
      * apply list_elem_of_fmap. exists (record', checkout). split; [done|]. by eapply list_elem_of_lookup_2.
    + done.
    + done.
    + exists root. split; [by eapply allowed_roots_declared|]. by apply within_spec.
    + intros common Hc'. destruct (Hcommon common Hc') as (p & root' & -> & Hr & Hwr). exists p, root'.
      split; [done|]. split; [by eapply allowed_roots_declared|]. by apply within_spec.
Qed.

(** A registration through any sound cache of remotes is the registration that asks [git] every time. *)
Theorem registration_uncached config source manifest cache :
  remotes_shared → cache_sound cache →
  (register_workspace config source manifest cache).2 = (register_workspace config source manifest ∅).2.
Proof.
  intros Hshared Hs. assert (Hempty : cache_sound ∅) by (intros p stamp remote; by rewrite lookup_empty).
  unfold register_workspace. destruct (result_bind (canonicalize config) _) as [[[canonical directory] roots]|]; [|done].
  pose proof (register_all_uncached (map (λ entry, (entry.1, rc_path entry.2)) (btree_entries (wm_repos manifest)))
    directory roots cache Hshared Hs) as E.
  pose proof (register_all_uncached (map (λ entry, (entry.1, rc_path entry.2)) (btree_entries (wm_repos manifest)))
    directory roots ∅ Hshared Hempty) as E'.
  destruct (register_all _ _ _ cache) as [cache' outcomes], (register_all _ _ _ ∅) as [cache'' outcomes']. simpl in *. by subst.
Qed.
End registration.

Module Example_registry.
#[local] Instance plain_digest : Blake3 := λ text, text.
(** URLs with [https] and no port, as far as the examples need them. *)
#[local] Instance simple_urls : UrlParser := λ text,
  rest ← strip_prefix "https://" text;
  '(authority, path) ← split_once "/" rest;
  let host := match rsplit_once "@" authority with Some (_, host) => host | None => authority end in
  Some ("https", Some host, "/" +:+ path).

(** A workspace at [/work] with a Git checkout, a directory that is not one, and a link that leads outside; the status
    of the checkout is [status]. *)
Definition host (status : option string) : Host :=
  {| fs_canonicalize := λ path,
       if String.eqb path "/work/outside" then Some "/secret"
       else if bool_decide (path ∈ ["/work"; "/work/csgraph.yaml"; "/work/api"; "/work/api/.git"; "/work/notes"]) then Some path else None;
     fs_exists := λ path, String.eqb path "/work/api/.git";
     fs_is_file := λ _, false;
     fs_stamp := λ _, None;
     git_stdout := λ _ arguments,
       match arguments with
       | ["rev-parse"; "--show-toplevel"] => Some ("/work/api" +:+ String (ascii_of_N 10) "")
       | ["rev-parse"; "--path-format=absolute"; "--git-common-dir"] => Some "/work/api/.git"
       | ["remote"; "get-url"; "origin"] => Some "git@Example.com:team/api.git"
       | ["rev-parse"; "HEAD"] => Some "c1"
       | _ => status
       end;
     host_now := 0 |}.

Definition settings (path : string) : RepositoryConfig :=
  {| rc_path := path; rc_openapi := None; rc_http_consumers := None; rc_integration_tests := None;
     rc_implementations := None; rc_excludes := None; rc_include_defaults := None; rc_authorities := None |}.
Definition manifest (repos : list (string * string)) : WorkspaceManifest :=
  {| wm_version := 1; wm_name := "shop"; wm_allowed_roots := [];
     wm_repos := list_to_map (map (λ entry, (entry.1, settings entry.2)) repos); wm_manual_links := [];
     wm_extraction_budgets := None; wm_execution_policy := None |}.
Definition register (status : option string) (repos : list (string * string)) : result RegistryError RegisteredWorkspace :=
  (@register_workspace _ _ (host status) "/work/csgraph.yaml" "" (manifest repos) ∅).2.
Definition seen (record : RepositoryRecord) :=
  (rp_alias record, rp_normalized_remote record, rp_head_commit record, rp_working_tree_dirty record).

Example registered :
  match register (Some " M src/a.ts") [("notes", "notes"); ("api", "api")] with
  | Ok workspace => map seen (wr_repositories (rw_record workspace))
      = [("api", Some "example.com/team/api", Some "c1", true); ("notes", None, None, false)]
  | Err _ => False
  end.
Proof. vm_compute. done. Qed.

Example outside_refused : register None [("leak", "outside")] = Err (OutsideAllowedRoots "leak" "/secret").
Proof. vm_compute. done. Qed.

(** When [git status] fails the working tree passes for clean. *)
Example failed_status_is_clean :
  match register None [("api", "api")] with
  | Ok workspace => map rp_working_tree_dirty (wr_repositories (rw_record workspace)) = [false]
  | Err _ => False
  end.
Proof. vm_compute. done. Qed.

(** A password in the [user:password@host:path] form is kept in the identity. *)
Example password_kept : normalize_remote "me:secret@host:team/api.git" = "me/secret@host:team/api".
Proof. vm_compute. done. Qed.

Lemma remotes_agree_witness :
  normalize_remote "git@Example.com:team/api.git" = "example.com/team/api" ∧
  normalize_remote "https://token@example.com/team/api.git" = "example.com/team/api".
Proof.
  apply (remotes_agree "git" "Example.com" "team/api" "https://token@example.com/team/api.git" "https" "example.com");
    try (vm_compute; reflexivity); [discriminate|].
  split; [discriminate|]. split; [|by vm_compute].
  split; [vm_compute; reflexivity|]. split.
  - intros c s [= <- _]. vm_compute. reflexivity.
  - intros c s E. change "team/api" with ("team/ap" +:+ String "i" "") in E. apply string_snoc_inj in E as [_ <-].
    vm_compute. reflexivity.
Defined.

Lemma registration_contained_witness :
  ∃ workspace canonical_config directory,
    register (Some "") [("api", "api"); ("notes", "notes")] = Ok workspace ∧
    @fs_canonicalize (host (Some "")) "/work/csgraph.yaml" = Some canonical_config ∧
    path_parent canonical_config = Some directory ∧
    map rp_alias (wr_repositories (rw_record workspace)) = ["api"; "notes"].
Proof.
  destruct (register (Some "") [("api", "api"); ("notes", "notes")]) as [workspace|error] eqn:E; [|vm_compute in E; discriminate].
  destruct (@registration_contained _ _ (host (Some "")) "/work/csgraph.yaml" ""
    (manifest [("api", "api"); ("notes", "notes")]) ∅ workspace E) as (config & directory & Hc & Hp & Ha & _).
  exists workspace, config, directory. split; [reflexivity|]. split; [exact Hc|]. split; [exact Hp|]. rewrite Ha. vm_compute. reflexivity.
Defined.
End Example_registry.
