(* ===== verification/WorkspaceStatus.v ===== *)
(** * Snapshot freshness and workspace status

    What a publication records of the freshness of every repository
    ([replace_freshness] of [crates/code-system-graph-store-sqlite/src/publication.rs]),
    what [csgraph status] makes of it later and the observations that [csgraph doctor]
    consolidates ([crates/code-system-graph-cli/src/lib.rs]). *)
From stdpp Require Import base gmap sets list strings sorting.
From S2P Require Import Prelude RustOrd RustFloat RustStr Model Method Registry Interface Doctor.
From S2P Require WatcherLease.

(** ** Records *)
Record RepositoryCoverageGap := { rg_repo_id : RepoId; rg_reason : string }.

Inductive OverallFreshness := OF_Fresh | OF_Stale | OF_Partial | OF_Unknown.
Record FreshnessSummary := {
  fs_overall : OverallFreshness;
  fs_stale_repositories : list RepoId;
  fs_reasons : list string;
}.

Record HttpLinkStatus := { hs_coverage : HttpLinkCoverage; hs_gap_count : N; hs_gaps : list HttpLinkGap }.

Record WorkspaceStatus := {
  ws_workspace : string;
  ws_schema_id : string;
  ws_integrity_ok : bool;
  ws_freshness : FreshnessSummary;
  ws_repositories : list RepoFreshness;
  ws_watcher : WatcherLease.WatcherState * option string;
  ws_http_links : HttpLinkStatus;
}.

Record StoreDiagnostics := {
  sd_journal_mode : string;
  sd_foreign_keys_enabled : bool;
  sd_fts5_index_available : bool;
}.

(** ** Publication

    The table [repository_snapshot_freshness], by its primary key. *)
Notation FreshnessKey := (string * (RepoId * CheckoutId))%type.
Notation FreshnessTable := (gmap FreshnessKey RepoFreshness).
Inductive FreshnessError := PrimaryKeyExists (key : FreshnessKey).

Definition freshness_row (workspace : WorkspaceRecord) (coverage_gaps : list RepositoryCoverageGap)
    (repository : RepositoryRecord) : RepoFreshness :=
  let coverage_reasons :=
    sorted_unique (map rg_reason (List.filter (λ gap, String.eqb (rg_repo_id gap) (rp_id repository)) coverage_gaps)) in
  let '(state, reason) :=
    if negb (is_empty_list coverage_reasons) then
      let coverage_reasons :=
        if rp_working_tree_dirty repository
        then coverage_reasons ++ ["The repository working tree differed from HEAD when scanned."]
        else coverage_reasons in
      (RF_Partial, Some (join " " coverage_reasons))
    else if rp_working_tree_dirty repository then (RF_WorkingTreeChanged, None)
    else (RF_Fresh, None) in
  {| rf_repo_id := rp_id repository;
     rf_checkout_id := rp_checkout_id repository;
     rf_head_commit := rp_head_commit repository;
     rf_manifest_hash := wr_manifest_hash workspace;
     rf_state := state;
     rf_reason := reason |}.

Definition insert_freshness (workspace : WorkspaceRecord) (coverage_gaps : list RepositoryCoverageGap)
    (repository : RepositoryRecord) : method FreshnessTable FreshnessError unit :=
  λ table,
  let key := (wr_name workspace, (rp_id repository, rp_checkout_id repository)) in
  match table !! key with
  | Some _ => (table, Err (PrimaryKeyExists key))
  | None => (<[key := freshness_row workspace coverage_gaps repository]> table, Ok tt)
  end.

Definition delete_freshness (workspace : string) (table : FreshnessTable) : FreshnessTable :=
  filter (λ entry, entry.1.1 ≠ workspace) table.

Definition replace_freshness (workspace : WorkspaceRecord) (coverage_gaps : list RepositoryCoverageGap)
    : method FreshnessTable FreshnessError unit :=
  do! m_write (delete_freshness (wr_name workspace)) in
  m_each (insert_freshness workspace coverage_gaps) (wr_repositories workspace).

(** [load_freshness_snapshot]: the rows of a workspace in the order of repository and checkout. *)
Definition row_order : RepoFreshness → RepoFreshness → comparison :=
  then_with (cmp_on rf_repo_id cmp) (cmp_on rf_checkout_id cmp).
#[export] Instance row_order_lawful : LawfulCmp row_order.
Proof. unfold row_order. apply _. Qed.

Definition load_freshness (workspace : string) (table : FreshnessTable) : list RepoFreshness :=
  sort_by row_order (map snd (List.filter (λ entry, String.eqb entry.1.1 workspace) (map_to_list table))).

(** ** Status *)
Definition evaluate_repository_freshness (repository : RepositoryRecord) (previous : option RepoFreshness)
    (current_manifest_hash : string) : RepoFreshnessState * option string :=
  if rp_working_tree_dirty repository then
    (RF_WorkingTreeChanged, Some "Git working tree has tracked or untracked changes.")
  else
    match previous with
    | None => (RF_Unknown, Some "Checkout was not observed in the published snapshot.")
    | Some previous =>
        if negb (String.eqb (rf_manifest_hash previous) current_manifest_hash) then
          (RF_ConfigChanged, Some "Workspace manifest changed after the published snapshot.")
        else if negb (bool_decide (rf_head_commit previous = rp_head_commit repository)) then
          (RF_CommitsBehind, Some "Repository HEAD changed after the published snapshot.")
        else (rf_state previous, rf_reason previous)
    end.

Definition is_state (state : RepoFreshnessState) (item : RepoFreshness) : bool := bool_decide (rf_state item = state).

Definition freshness_summary (repositories : list RepoFreshness) : FreshnessSummary :=
  let overall :=
    if is_empty_list repositories then OF_Unknown
    else if forallb (is_state RF_Fresh) repositories then OF_Fresh
    else if existsb (λ item, is_state RF_Unknown item || is_state RF_Unavailable item || is_state RF_Corrupt item) repositories
      then OF_Unknown
    else if existsb (is_state RF_Partial) repositories then OF_Partial
    else OF_Stale in
  {| fs_overall := overall;
     fs_stale_repositories := map rf_repo_id (List.filter (λ item, negb (is_state RF_Fresh item)) repositories);
     fs_reasons := omap rf_reason repositories |}.

(** The freshness of one repository of the registry, and of a checkout that it no longer names. *)
Definition current_freshness (workspace : WorkspaceRecord) (previous : gmap CheckoutId RepoFreshness)
    (repository : RepositoryRecord) : RepoFreshness :=
  let '(state, reason) :=
    evaluate_repository_freshness repository (previous !! rp_checkout_id repository) (wr_manifest_hash workspace) in
  {| rf_repo_id := rp_id repository;
     rf_checkout_id := rp_checkout_id repository;
     rf_head_commit := rp_head_commit repository;
     rf_manifest_hash := wr_manifest_hash workspace;
     rf_state := state;
     rf_reason := reason |}.

Definition absent_freshness (item : RepoFreshness) : RepoFreshness :=
  {| rf_repo_id := rf_repo_id item;
     rf_checkout_id := rf_checkout_id item;
     rf_head_commit := rf_head_commit item;
     rf_manifest_hash := rf_manifest_hash item;
     rf_state := RF_Unavailable;
     rf_reason := Some "Checkout from the published snapshot is absent from the current manifest." |}.

Definition status_repositories (workspace : WorkspaceRecord) (previous : list RepoFreshness) : list RepoFreshness :=
  let previous_by_checkout := btree_collect (map (λ item, (rf_checkout_id item, item)) previous) in
  let current_checkouts : gset CheckoutId := list_to_set (map rp_checkout_id (wr_repositories workspace)) in
  sort_by row_order
    (map (current_freshness workspace previous_by_checkout) (wr_repositories workspace)
     ++ map absent_freshness
          (List.filter (λ item, negb (bool_decide (rf_checkout_id item ∈ current_checkouts))) previous)).

(** [status_workspace]: the registry as it is registered now; the freshness, the schema, the integrity and the link report
    that the store answers; the watcher. *)
Definition status_workspace (workspace : WorkspaceRecord) (table : FreshnessTable) (schema_id : string) (integrity_ok : bool)
    (watcher : WatcherLease.WatcherState * option string) (http_report : HttpLinkReport) (gap_count : N) : WorkspaceStatus :=
  let repositories := status_repositories workspace (load_freshness (wr_name workspace) table) in
  {| ws_workspace := wr_name workspace;
     ws_schema_id := schema_id;
     ws_integrity_ok := integrity_ok;
     ws_freshness := freshness_summary repositories;
     ws_repositories := repositories;
     ws_watcher := watcher;
     ws_http_links :=
       {| hs_coverage := report_coverage http_report; hs_gap_count := gap_count; hs_gaps := report_gaps http_report |} |}.

(** ** Doctor

    What the store, the registry and the host answer is an argument: the status, the diagnostics of the store, whether the
    repository paths are directories and whether [git] runs. *)
Definition doctor_request (package_version expected_schema : string) (status : WorkspaceStatus)
    (diagnostics : StoreDiagnostics) (repository_paths_valid git_available : bool) : DoctorRequest :=
  let actual_schema := Some (ws_schema_id status) in
  let integrity name passed detail := {| ii_name := name; ii_passed := passed; ii_detail := detail |} in
  {| dr_schema :=
       [{| si_name := "sqlite";
           si_metadata_consistent := Some (bool_decide (actual_schema = Some expected_schema));
           si_expected_schema := expected_schema;
           si_actual_schema := actual_schema |}];
     dr_integrity :=
       [integrity "binary-version" (Some true) (Some package_version);
        integrity "sqlite" (Some (ws_integrity_ok status)) None;
        integrity "sqlite-wal" (Some (String.eqb (to_ascii_lowercase (sd_journal_mode diagnostics)) "wal"))
          (Some (sd_journal_mode diagnostics));
        integrity "sqlite-foreign-keys" (Some (sd_foreign_keys_enabled diagnostics)) None;
        integrity "sqlite-fts5" (Some (sd_fts5_index_available diagnostics)) None;
        integrity "repository-paths" (Some repository_paths_valid) None;
        integrity "git" (Some git_available) None;
        integrity "extractor-matrix" (Some true) (Some "Built-in extractor inventory is compiled into this binary.");
        integrity "network-policy" (Some true)
          (Some "Remote providers and non-loopback HTTP remain explicitly gated.");
        integrity "writer-lock" None
          (Some "Read-only doctor does not acquire or reclaim the workspace writer lock.");
        integrity "hook-installation" None
          (Some "Use `csgraph hooks status` with an explicit host and repository root.");
        integrity "release-files" None
          (Some "Release artifact notices and checksums require an explicit installation path.")];
     dr_freshness :=
       map (λ repository, {| fi_repo_id := rf_repo_id repository; fi_state := rf_state repository;
                             fi_detail := rf_reason repository |}) (ws_repositories status);
     dr_providers :=
       [{| pi_name := "codegraph"; pi_status := PD_Unavailable;
           pi_detail := Some "CodeGraph probing is opt-in and was not requested by this doctor invocation." |}];
     dr_config := [{| ci_name := ws_workspace status; ci_valid := Some true; ci_detail := None |}] |}.

Definition doctor_workspace (package_version expected_schema : string) (status : WorkspaceStatus)
    (diagnostics : StoreDiagnostics) (repository_paths_valid git_available : bool) : DoctorReport :=
  doctor (doctor_request package_version expected_schema status diagnostics repository_paths_valid git_available).

(** ** Publication *)
Section publication.
Context (workspace : WorkspaceRecord) (gaps : list RepositoryCoverageGap).

Definition row_key (repository : RepositoryRecord) : FreshnessKey :=
  (wr_name workspace, (rp_id repository, rp_checkout_id repository)).

(** After a publication of some repositories, the rows of the workspace are theirs. *)
Definition published (repositories : list RepositoryRecord) (before after : FreshnessTable) : Prop :=
  (∀ key row, key.1 = wr_name workspace →
     after !! key = Some row ↔ ∃ r, r ∈ repositories ∧ key = row_key r ∧ row = freshness_row workspace gaps r) ∧
  (∀ key, key.1 ≠ wr_name workspace → after !! key = before !! key).

Lemma published_snoc repositories before after r :
  published repositories before after → after !! row_key r = None →
  published (repositories ++ [r]) before (<[row_key r := freshness_row workspace gaps r]> after).
Proof.
  intros [Hown Hother] Hnone. split.
  - intros key row Hk. destruct (decide (key = row_key r)) as [->|Hne].
    + rewrite lookup_insert_eq. split.
      * intros [= <-]. exists r. set_solver.
      * intros (r' & [Hr'| ->%list_elem_of_singleton]%elem_of_app & Ek & ->); [|done].
        enough (after !! row_key r = Some (freshness_row workspace gaps r')) by congruence. apply Hown; [done|]. eauto.
    + rewrite lookup_insert_ne by done. rewrite Hown by done. split; intros (r' & Hr' & Ek & ->); exists r'; (split; [|done]).
      * set_solver.
      * apply elem_of_app in Hr' as [Hr'| ->%list_elem_of_singleton]; done.
  - intros key Hk. rewrite lookup_insert_ne; [by apply Hother|]. intros <-. by apply Hk.
Qed.

Lemma published_none before : published [] before (delete_freshness (wr_name workspace) before).
Proof.
  unfold delete_freshness. split.
  - intros key row Hk. rewrite map_lookup_filter_Some. simpl. split; [naive_solver|]. intros (r & Hr & _). by apply not_elem_of_nil in Hr.
  - intros key Hk. destruct (before !! key) as [row|] eqn:E.
    + by apply map_lookup_filter_Some.
    + apply map_lookup_filter_None. by left.
Qed.

Lemma insert_all_published done repositories before table table' res :
  published done before table →
  m_each (insert_freshness workspace gaps) repositories table = (table', res) →
  match res with
  | Ok _ => published (done ++ repositories) before table' ∧
      (NoDup (map row_key done) → NoDup (map row_key (done ++ repositories)))
  | Err (PrimaryKeyExists key) =>
      ∃ pre r post, repositories = pre ++ r :: post ∧ key = row_key r ∧ key ∈ map row_key (done ++ pre)
  end.
Proof.
  revert done table. induction repositories as [|r repositories IH]; intros done table Hd Hrun.
  - injection Hrun as <- <-. by rewrite app_nil_r.
  - simpl in Hrun. unfold m_bind, insert_freshness in Hrun. fold (row_key r) in Hrun.
    destruct (table !! row_key r) as [row|] eqn:E.
    + injection Hrun as <- <-. exists [], r, repositories. do 2 (split; [reflexivity|]). rewrite app_nil_r.
      apply (proj1 Hd) in E as (r' & Hr' & Ek & _); [|reflexivity]. rewrite Ek. apply list_elem_of_fmap. eauto.
    + pose proof (published_snoc _ _ _ _ Hd E) as Hd'. apply (IH _ _ Hd') in Hrun. destruct res as [u|[key]].
      * rewrite <-app_assoc in Hrun. destruct Hrun as [Hp Hnd]. split; [exact Hp|]. intros Hdone. apply Hnd.
        rewrite map_app. apply NoDup_app. split; [exact Hdone|]. split; [|apply NoDup_singleton].
        intros key (r' & -> & Hr')%list_elem_of_fmap Ek%list_elem_of_singleton.
        assert (Hin : table !! row_key r = Some (freshness_row workspace gaps r')) by (apply (proj1 Hd); [reflexivity|]; eauto).
        congruence.
      * destruct Hrun as (pre & r' & post & -> & Ek & Hin). exists (r :: pre), r', post. split; [reflexivity|].
        split; [exact Ek|]. by rewrite <-app_assoc in Hin.
Qed.

(** A publication is refused exactly when two aliases of the workspace name one checkout. *)
Lemma replace_freshness_run table table' res :
  replace_freshness workspace gaps table = (table', res) →
  match res with
  | Ok _ => published (wr_repositories workspace) table table' ∧ NoDup (map row_key (wr_repositories workspace))
  | Err (PrimaryKeyExists key) => ¬ NoDup (map row_key (wr_repositories workspace))
  end.
Proof.
  unfold replace_freshness, m_bind, m_write. intros Hrun.
  apply (insert_all_published [] (wr_repositories workspace) table) in Hrun; [|apply published_none].
  destruct res as [u|[key]]; simpl in Hrun.
  - destruct Hrun as [Hp Hnd]. split; [exact Hp|]. apply Hnd. constructor.
  - destruct Hrun as (pre & r & post & -> & -> & Hin). rewrite map_app. intros Hnd. apply NoDup_app in Hnd as (_ & Hdis & _).
    apply (Hdis _ Hin). simpl. left.
Qed.

Lemma freshness_row_fresh r :
  rf_state (freshness_row workspace gaps r) = RF_Fresh ↔
  rp_working_tree_dirty r = false ∧ ∀ gap, gap ∈ gaps → rg_repo_id gap ≠ rp_id r.
Proof.
  unfold freshness_row. set (reasons := sorted_unique _).
  assert (Hr : reasons = [] ↔ ∀ gap, gap ∈ gaps → rg_repo_id gap ≠ rp_id r).
  { assert (Hnil : ∀ l : list string, l = [] ↔ ∀ x, x ∉ l).
    { intros [|x l]; split; try done; [intros _ y; apply not_elem_of_nil|]. intros H. exfalso. apply (H x). by left. }
    rewrite Hnil. unfold reasons. setoid_rewrite sorted_unique_elem_of. setoid_rewrite list_elem_of_fmap.
    setoid_rewrite list_filter_In. setoid_rewrite String.eqb_eq. naive_solver. }
  rewrite <-Hr. destruct reasons as [|x l]; simpl; [|by split; [|intros [_ ?]]].
  destruct (rp_working_tree_dirty r); simpl; naive_solver.
Qed.
End publication.

Lemma load_freshness_In workspace gaps repositories before after row :
  published workspace gaps repositories before after →
  row ∈ load_freshness (wr_name workspace) after ↔ ∃ r, r ∈ repositories ∧ row = freshness_row workspace gaps r.
Proof.
  intros [Hown _]. unfold load_freshness. rewrite sort_by_elem_of, list_elem_of_fmap. setoid_rewrite list_filter_In.
  setoid_rewrite String.eqb_eq. split.
  - intros ([key row'] & -> & Hin & Hk). simpl in *. apply elem_of_map_to_list, Hown in Hin as (r & Hr & _ & ->); eauto.
  - intros (r & Hr & ->). exists (row_key workspace r, freshness_row workspace gaps r). split; [done|]. split; [|done].
    apply elem_of_map_to_list, Hown; eauto.
Qed.

(** ** Status after a publication *)

(** The repository still is as it was published, completely and from a clean working tree. *)
Definition unchanged_since (published : WorkspaceRecord) (gaps : list RepositoryCoverageGap) (current : WorkspaceRecord)
    (repository : RepositoryRecord) : Prop :=
  rp_working_tree_dirty repository = false ∧
  ∃ r, r ∈ wr_repositories published ∧ rp_checkout_id r = rp_checkout_id repository ∧
    rp_working_tree_dirty r = false ∧ (∀ gap, gap ∈ gaps → rg_repo_id gap ≠ rp_id r) ∧
    rp_head_commit r = rp_head_commit repository ∧ wr_manifest_hash published = wr_manifest_hash current.

Section status.
Context (before : WorkspaceRecord) (gaps : list RepositoryCoverageGap) (current : WorkspaceRecord)
  (table table' : FreshnessTable)
  (Hrun : replace_freshness before gaps table = (table', Ok tt))
  (Hnd : NoDup (map rp_checkout_id (wr_repositories before)))
  (Hname : wr_name current = wr_name before).

Lemma previous_In row :
  row ∈ load_freshness (wr_name current) table' ↔ ∃ r, r ∈ wr_repositories before ∧ row = freshness_row before gaps r.
Proof using Hrun Hname.
  rewrite Hname. eapply load_freshness_In. by apply (replace_freshness_run _ _ _ _ _ Hrun).
Qed.

Lemma freshness_row_checkout r : rf_checkout_id (freshness_row before gaps r) = rp_checkout_id r.
Proof using. unfold freshness_row. by destruct (negb _); [|destruct (rp_working_tree_dirty r)]. Qed.

Lemma freshness_row_head r : rf_head_commit (freshness_row before gaps r) = rp_head_commit r.
Proof using. unfold freshness_row. by destruct (negb _); [|destruct (rp_working_tree_dirty r)]. Qed.

Lemma freshness_row_hash r : rf_manifest_hash (freshness_row before gaps r) = wr_manifest_hash before.
Proof using. unfold freshness_row. by destruct (negb _); [|destruct (rp_working_tree_dirty r)]. Qed.

(** The published row of a checkout, by its identifier. *)
Lemma previous_lookup checkout :
  btree_collect (map (λ item, (rf_checkout_id item, item)) (load_freshness (wr_name current) table')) !! checkout = None ∧
    (∀ r, r ∈ wr_repositories before → rp_checkout_id r ≠ checkout) ∨
  ∃ r, r ∈ wr_repositories before ∧ rp_checkout_id r = checkout ∧
    btree_collect (map (λ item, (rf_checkout_id item, item)) (load_freshness (wr_name current) table')) !! checkout
      = Some (freshness_row before gaps r).
Proof using Hrun Hnd Hname.
  destruct (btree_collect _ !! checkout) as [row|] eqn:E.
  - right. apply btree_collect_lookup_Some, list_elem_of_fmap in E as (row' & [= -> ->] & Hrow).
    apply previous_In in Hrow as (r & Hr & ->). exists r. by rewrite freshness_row_checkout.
  - left. split; [done|]. intros r Hr <-. apply btree_collect_lookup_None in E. apply E.
    rewrite <-list_fmap_compose. apply list_elem_of_fmap. exists (freshness_row before gaps r). simpl.
    rewrite freshness_row_checkout. split; [done|]. apply previous_In. eauto.
Qed.

Lemma current_freshness_fresh repository :
  rf_state (current_freshness current (btree_collect (map (λ item, (rf_checkout_id item, item))
    (load_freshness (wr_name current) table'))) repository) = RF_Fresh
  ↔ unchanged_since before gaps current repository.
Proof using Hrun Hnd Hname.
  unfold current_freshness, evaluate_repository_freshness, unchanged_since.
  destruct (rp_working_tree_dirty repository); simpl; [by split; [|intros [? _]]|].
  destruct (previous_lookup (rp_checkout_id repository)) as [[-> Hnone]|(r & Hr & Hc & ->)].
  - simpl. split; [done|]. intros (_ & r & Hr & E & _). by destruct (Hnone r Hr).
  - rewrite freshness_row_hash, freshness_row_head.
    assert (Huniq : ∀ r', r' ∈ wr_repositories before → rp_checkout_id r' = rp_checkout_id repository → r' = r).
    { intros r' Hr' E. apply (NoDup_map_inj rp_checkout_id (wr_repositories before)); congruence. }
    destruct (String.eqb_spec (wr_manifest_hash before) (wr_manifest_hash current)) as [Eh|Eh]; simpl.
    2: { split; [done|]. by intros (_ & r' & _ & _ & _ & _ & _ & ?). }
    case_bool_decide as Ehead; simpl.
    2: { split; [done|]. intros (_ & r' & Hr' & E & _ & _ & E' & _). by rewrite (Huniq r' Hr' E) in E'. }
    rewrite freshness_row_fresh. split.
    + intros [Hd Hg]. split; [done|]. by exists r.
    + intros (_ & r' & Hr' & E & Hd & Hg & _). by rewrite (Huniq r' Hr' E) in Hd, Hg.
Qed.

Lemma status_repositories_In row :
  row ∈ status_repositories current (load_freshness (wr_name current) table') ↔
  (∃ repository, repository ∈ wr_repositories current ∧
     row = current_freshness current (btree_collect (map (λ item, (rf_checkout_id item, item))
             (load_freshness (wr_name current) table'))) repository) ∨
  (∃ r, r ∈ wr_repositories before ∧ rp_checkout_id r ∉ map rp_checkout_id (wr_repositories current) ∧
     row = absent_freshness (freshness_row before gaps r)).
Proof using Hrun Hname.
  unfold status_repositories. rewrite sort_by_elem_of, elem_of_app, !list_elem_of_fmap. setoid_rewrite list_filter_In.
  assert (Hx : ∀ x, negb (bool_decide (x ∈ (list_to_set (map rp_checkout_id (wr_repositories current)) : gset CheckoutId))) = true
    ↔ x ∉ map rp_checkout_id (wr_repositories current)).
  { intros x. rewrite negb_true_iff, bool_decide_eq_false. apply not_iff_compat, elem_of_list_to_set. }
  setoid_rewrite Hx. setoid_rewrite previous_In. split.
  - intros [(repository & -> & H)|(item & -> & (r & Hr & ->) & Hn)]; [left; eauto|]. right.
    rewrite freshness_row_checkout in Hn. eauto.
  - intros [(repository & H & ->)|(r & Hr & Hn & ->)]; [left; eauto|]. right.
    eexists. split; [reflexivity|]. rewrite freshness_row_checkout. eauto.
Qed.
End status.

(** ** Theorems *)

(** C22: after a snapshot was published, the status reports a repository as fresh exactly when its working tree is clean and
    the snapshot was taken completely, from a clean tree of the same checkout, at the same commit and under the same
    manifest; checkouts of the snapshot that the registry no longer names are unavailable. The whole is fresh exactly when
    there is a repository, all of them are unchanged, and none is missing. *)
Theorem published_status_exact before gaps current table table' :
  replace_freshness before gaps table = (table', Ok tt) →
  NoDup (map rp_checkout_id (wr_repositories before)) → wr_name current = wr_name before →
  let rows := status_repositories current (load_freshness (wr_name current) table') in
  (∀ repository, repository ∈ wr_repositories current → ∃ row, row ∈ rows ∧
     rf_repo_id row = rp_id repository ∧ rf_checkout_id row = rp_checkout_id repository ∧
     (rf_state row = RF_Fresh ↔ unchanged_since before gaps current repository)) ∧
  (∀ r, r ∈ wr_repositories before → rp_checkout_id r ∉ map rp_checkout_id (wr_repositories current) →
     ∃ row, row ∈ rows ∧ rf_checkout_id row = rp_checkout_id r ∧ rf_state row = RF_Unavailable) ∧
  (fs_overall (freshness_summary rows) = OF_Fresh ↔
     wr_repositories current ≠ [] ∧
     (∀ repository, repository ∈ wr_repositories current → unchanged_since before gaps current repository) ∧
     (∀ r, r ∈ wr_repositories before → rp_checkout_id r ∈ map rp_checkout_id (wr_repositories current))).
Proof.
  intros Hrun Hnd Hname rows.
  assert (Hin := status_repositories_In before gaps current table table' Hrun Hname).
  assert (Hfresh := current_freshness_fresh before gaps current table table' Hrun Hnd Hname).
  fold rows in Hin. split_and!.
  - intros repository Hr. eexists. split; [apply Hin; left; eauto|]. rewrite <-Hfresh.
    unfold current_freshness. by destruct (evaluate_repository_freshness _ _ _).
  - intros r Hr Hn. eexists. split; [apply Hin; right; eauto|]. simpl. by rewrite freshness_row_checkout.
  - assert (Hall : fs_overall (freshness_summary rows) = OF_Fresh ↔ rows ≠ [] ∧ ∀ row, row ∈ rows → rf_state row = RF_Fresh).
    { unfold freshness_summary; simpl. destruct (is_empty_list rows) eqn:Ee.
      - apply is_empty_list_true in Ee. by split; [|intros [? _]].
      - assert (Hne : rows ≠ []) by (intros E; rewrite E in Ee; done).
        destruct (forallb (is_state RF_Fresh) rows) eqn:Ef.
        + rewrite forallb_In in Ef. split; [|done]. intros _. split; [done|]. intros row Hrow.
          apply Ef in Hrow. by apply bool_decide_eq_true in Hrow.
        + split; [by repeat case_match|]. intros [_ Hf]. exfalso. apply not_true_iff_false in Ef. apply Ef, forallb_In.
          intros row Hrow. by apply bool_decide_eq_true, Hf. }
    rewrite Hall. split.
    + intros [Hne Hf].
      assert (Hpresent : ∀ r, r ∈ wr_repositories before → rp_checkout_id r ∈ map rp_checkout_id (wr_repositories current)).
      { intros r Hr. destruct (decide (rp_checkout_id r ∈ map rp_checkout_id (wr_repositories current))) as [|Hn]; [done|].
        exfalso. assert (Hrow : absent_freshness (freshness_row before gaps r) ∈ rows) by (apply Hin; right; eauto).
        by apply Hf in Hrow. }
      split_and!; [|by intros repository Hr; apply Hfresh, Hf, Hin; left; eauto|done].
      intros E. apply Hne. destruct rows as [|row rows'] eqn:Erows; [done|]. exfalso.
      destruct (proj1 (Hin row)) as [(x & Hx & _)|(r & Hr & Hn & _)]; [left| |].
      * rewrite E in Hx. by apply not_elem_of_nil in Hx.
      * by apply Hn, Hpresent.
    + intros (Hne & Hsince & Hpresent). split.
      * destruct (wr_repositories current) as [|x xs] eqn:E; [done|]. intros Er.
        assert (Hrow : current_freshness current (btree_collect (map (λ item, (rf_checkout_id item, item))
          (load_freshness (wr_name current) table'))) x ∈ rows) by (apply Hin; left; exists x; split; [left|done]).
        rewrite Er in Hrow. by apply not_elem_of_nil in Hrow.
      * intros row [(x & Hx & ->)|(r & Hr & Hn & _)]%Hin; [by apply Hfresh, Hsince|]. by destruct (Hn (Hpresent r Hr)).
Qed.

(** A publication is refused exactly when two aliases of the workspace name one checkout of one repository. *)
Theorem publication_refused workspace gaps table :
  (∃ table', replace_freshness workspace gaps table = (table', Ok tt)) ↔
  NoDup (map (λ r, (rp_id r, rp_checkout_id r)) (wr_repositories workspace)).
Proof.
  assert (Hkeys : NoDup (map (row_key workspace) (wr_repositories workspace)) ↔
    NoDup (map (λ r, (rp_id r, rp_checkout_id r)) (wr_repositories workspace))).
  { replace (map (row_key workspace) (wr_repositories workspace))
      with (map (pair (wr_name workspace)) (map (λ r, (rp_id r, rp_checkout_id r)) (wr_repositories workspace)))
      by (by rewrite map_map). apply (NoDup_fmap (pair (wr_name workspace))). }
  rewrite <-Hkeys. destruct (replace_freshness workspace gaps table) as [table' res] eqn:E.
  apply replace_freshness_run in E. destruct res as [[]|[key]].
  - split; [tauto|]. intros _. eauto.
  - split; [by intros [t [=]]|done].
Qed.

(** The report of the command is never healthy, degraded or complete: the writer lock, the hooks, the release files
    and the provider are never observed. *)
Theorem doctor_workspace_inconclusive version expected status diagnostics paths git :
  let report := doctor_workspace version expected status diagnostics paths git in
  dp_complete report = false ∧ (dp_status report = DS_Failed ∨ dp_status report = DS_Unknown).
Proof.
  intros report.
  assert (Hu : health DS_Unknown (doctor_request version expected status diagnostics paths git)).
  { eapply health_provider; [by left|done|..]; simpl; try done; set_solver. }
  apply doctor_count_pos in Hu. subst report. unfold doctor_workspace, doctor in *. cbv zeta in *.
  cbn [dp_complete dp_status dp_checks] in *. rewrite (proj2 (N.ltb_lt _ _) Hu). split; [apply N.eqb_neq; lia|].
  destruct (0 <? _)%N; tauto.
Qed.

Module Example_status.
Definition checkout (id : string) : NativePath := {| np_encoding := UnixBytes; np_bytes := []; np_display := id |}.
Definition repository (id checkout_id alias : string) (head : option string) (dirty : bool) : RepositoryRecord :=
  {| rp_id := id; rp_checkout_id := checkout_id; rp_alias := alias; rp_canonical_path := checkout alias;
     rp_git_common_dir := None; rp_normalized_remote := None; rp_head_commit := head; rp_is_linked_worktree := false;
     rp_working_tree_dirty := dirty |}.
Definition workspace (hash : string) (repositories : list RepositoryRecord) : WorkspaceRecord :=
  {| wr_id := "workspace:1"; wr_name := "shop"; wr_manifest_hash := hash; wr_config_path := None;
     wr_repositories := repositories |}.
Definition api := repository "repo:api" "checkout:api" "api" (Some "c1") false.
Definition web := repository "repo:web" "checkout:web" "web" (Some "c2") false.
Definition notes := repository "repo:notes" "checkout:notes" "notes" None false.
Definition rows (before : list RepositoryRecord) (gaps : list RepositoryCoverageGap) (current : WorkspaceRecord) :=
  let rows := status_repositories current (load_freshness "shop" (replace_freshness (workspace "m1" before) gaps ∅).1) in
  (map (λ row, (rf_repo_id row, rf_state row)) rows, fs_overall (freshness_summary rows)).

Example reported :
  rows [api; web] [] (workspace "m1" [api; web]) = ([("repo:api", RF_Fresh); ("repo:web", RF_Fresh)], OF_Fresh) ∧
  rows [api; web] [] (workspace "m1" [repository "repo:api" "checkout:api" "api" (Some "c9") false])
    = ([("repo:api", RF_CommitsBehind); ("repo:web", RF_Unavailable)], OF_Unknown) ∧
  rows [api; web] [{| rg_repo_id := "repo:web"; rg_reason := "unmatched" |}] (workspace "m1" [api; web])
    = ([("repo:api", RF_Fresh); ("repo:web", RF_Partial)], OF_Partial) ∧
  rows [api] [] (workspace "m2" [api]) = ([("repo:api", RF_ConfigChanged)], OF_Stale).
Proof. vm_compute. done. Qed.

(** A directory that is not a Git checkout has neither a commit nor a dirty tree: whatever happens to its files, it stays
    fresh. *)
Example plain_directory_stays_fresh : rows [notes] [] (workspace "m1" [notes]) = ([("repo:notes", RF_Fresh)], OF_Fresh).
Proof. vm_compute. done. Qed.

(** Two aliases of one directory: the second row violates the primary key and the publication fails. *)
Example aliases_of_one_directory :
  (replace_freshness (workspace "m1" [notes; repository "repo:notes" "checkout:notes" "again" None false]) [] ∅).2
    = Err (PrimaryKeyExists ("shop", ("repo:notes", "checkout:notes"))).
Proof. vm_compute. done. Qed.

(** A repository of unknown state counts among those "known to be stale". *)
Example unknown_listed_as_stale :
  fs_stale_repositories (freshness_summary (status_repositories (workspace "m1" [api]) [])) = ["repo:api"].
Proof. vm_compute. done. Qed.

Lemma published_status_exact_witness :
  ∃ table', replace_freshness (workspace "m1" [api; web]) [] ∅ = (table', Ok tt) ∧
    fs_overall (freshness_summary (status_repositories (workspace "m1" [api; web]) (load_freshness "shop" table'))) = OF_Fresh ∧
    unchanged_since (workspace "m1" [api; web]) [] (workspace "m1" [api; web]) api.
Proof.
  eexists. split; [reflexivity|].
  match goal with |- fs_overall (freshness_summary (status_repositories _ (load_freshness _ ?t))) = _ ∧ _ =>
    destruct (published_status_exact (workspace "m1" [api; web]) [] (workspace "m1" [api; web]) ∅ t) as (_ & _ & Hall);
    [reflexivity| |reflexivity|] end.
  - apply (bool_decide_unpack _). vm_compute. done.
  - assert (E : fs_overall (freshness_summary (status_repositories (workspace "m1" [api; web]) (load_freshness "shop"
      (replace_freshness (workspace "m1" [api; web]) [] ∅).1))) = OF_Fresh) by (vm_compute; reflexivity).
    split; [exact E|]. apply Hall in E as (_ & H & _). apply H. left.
Defined.
End Example_status.
